(* ===== verification/_CoqProject ===== *)
-Q . S2P
Prelude.v
Stripes.v
XXHash.v
XXHashProofs.v
Deque.v
DequeProofs.v
CompressedInt.v
Base64.v
IndexedSet.v
IndexedSetProofs.v
IndexedSetQueries.v
IndexedSetRange.v
IndexedSetVector.v
IndexedSetTheorems.v
GuestContent.v
LootProofs.v
CombatProofs.v
ProgressionProofs.v
Guest.v
GuestProofs.v
Float32.v
PriorityMultiLock.v
PriorityMultiLockProofs.v
ThreadSafeQueue.v
ThreadSafeQueueProofs.v
TaskQueue.v
TaskQueueTheorems.v
FastRef.v
FastRefProofs.v
WriteOnlySet.v
WriteOnlySetProofs.v
CallbackRing.v
Sav.v
SavProofs.v
NotifiedQueue.v
OrderedMap.v
TwValue.v
TwJson.v
TwJsonProofs.v
TwRebac.v
TwRebacProofs.v
TwState.v
TwDomain.v
TwPlanner.v
TwPlannerProofs.v
TwPlannerTree.v
TwPlannerTreeProofs.v
TwPlanTheorems.v
TwTemporal.v
TwDurationProofs.v
TwTemporalProofs.v
TwPointer.v
TwMatrix.v
TwMatrixProofs.v
TwNodes.v
TwLoader.v
TwLoaderProofs.v
TwSha256.v
TwRun.v
Doubles.v
TwHrr.v
TwHrrProofs.v
TwRetriever.v
TwRetrieverProofs.v
TwJsonText.v
TwExplain.v
TwMcExecutor.v
TwBridge.v
TwBridgeProofs.v
TwWitnessOracle.v
TwNif.v
TwNifProofs.v
TwCacheThreads.v
ThreadCallbacks.v
ThreadSav.v
Packets.v
PacketsWriter.v
PacketsProofs.v
NetAddress.v
Serialize.v
