(* ===== verification/Prelude.v ===== *)
(** * Verification of weft-warp-burrito

    The repository runs game content inside a sandboxed RISC-V guest that is
    driven from Elixir, on top of a C++ runtime taken from Flow, with a task
    planner (Taskweft) linked as a native library.  This library models the
    C and C++ code that carries its logic and proves that code correct; the
    names below are those of src/.

    ** The parts and where they are modelled

    - Hashing: flow/include/flow/xxhash.h, XXH32 and XXH64.  [XXHash] has the
      reads, rounds, finalisation and streaming state on every build variant of
      the header; [Stripes] is the reference reading of a byte stream,
      [XXHashProofs] the proofs.
    - Containers of flow/include/flow: Deque.h ([Deque], [DequeProofs], down to
      the lifetime of the objects in the ring), IndexedSet.h ([IndexedSet],
      [IndexedSetProofs], [IndexedSetQueries], [IndexedSetRange],
      [IndexedSetVector], [IndexedSetTheorems]; nodes with parent pointers are
      zippers), CompressedInt.h ([CompressedInt]), FastRef.h ([FastRef],
      [FastRefProofs]; a heap of counted objects), WriteOnlySet.h and
      WriteOnlySet.cpp ([WriteOnlySet], [WriteOnlySetProofs]; one step per atomic
      access of the writers and of the copier).
    - Scheduling: PriorityMultiLock.h ([PriorityMultiLock], [Float32],
      [PriorityMultiLockProofs]; the runner coroutine is a phase of the state),
      ThreadSafeQueue.h ([ThreadSafeQueue], [ThreadSafeQueueProofs]; one step
      per atomic access), TaskQueue.h ([TaskQueue],
      [TaskQueueTheorems]), which drains a ThreadSafeQueue and is proved against
      an interface that ThreadSafeQueue is shown to implement; its specification
      is a queue without keys that numbers tasks by the order of the operations.
    - Promises (flow.h): the rings of waiting callbacks pointer by pointer
      ([CallbackRing]), the single assignment variable behind Promise and Future
      ([Sav], [SavProofs]; a stack machine in which callbacks and cancellations
      run arbitrary further commands while a value is sent) and the queue behind
      PromiseStream and FutureStream ([NotifiedQueue]).  [Sav] keeps a SAV's
      callbacks as the list that [CallbackRing] shows its ring to hold.
      The module [Counting] of this file has the counts of references these files and [WriteOnlySet]
      share.
    - Futures between threads (ThreadHelper.h): the callbacks that wait for one
      variable together, with their holders linked in memory ([ThreadCallbacks]),
      and the variable behind ThreadFuture, each section under its lock a step and
      the callbacks run after the lock was left ([ThreadSav]).
    - Packets (serialize.h, Net2Packet.h, Net2Packet.cpp): buffers with their
      counts in one memory, the packet writer, the queue of unsent packets and the
      reliable packets with their compaction ([Packets]); [PacketsWriter] has the
      lemmas on the writer, [PacketsProofs] those on the queue and the packets.
    - Addresses (IPAddress.h, NetworkAddress.h, network.cpp, IConnection.h):
      network addresses, their texts and the DNS cache ([NetAddress]).
    - Binary serialization (serialize.h, serialize.cpp, ProtocolVersion.h.cmake):
      the writer's growing block, save and load over a universe of the types that
      the templates compose, tuples and versions ([Serialize]).
    - libb64 (flow/contrib/libb64): [Base64], the two resumable state machines.
    - The guest: the content's Scheme procedures ([GuestContent],
      [LootProofs], [CombatProofs], [ProgressionProofs]), the C programs that
      call them through s7 and the host's capability dispatch ([Guest],
      [GuestProofs]).  The s7 interpreter and the libriscv machine are
      parameters of which nothing is assumed.
    - Taskweft (taskweft_nif/standalone/tw_*.hpp): values ([TwValue]; ordered
      maps are [OrderedMap]), JSON ([TwJson], [TwJsonProofs]), the relation
      graph that decides capabilities ([TwRebac], [TwRebacProofs]), the planning
      state ([TwState]), goals, tasks and the solution tree
      ([TwDomain]), the memoizing planner ([TwPlanner], [TwPlannerProofs]), the
      tree-building planner and the replanner ([TwPlannerTree],
      [TwPlannerTreeProofs]) and their theorems ([TwPlanTheorems]); durations,
      the temporal network and the schedules of plans, with the calendar
      arithmetic of thirdparty/date/date.h ([TwTemporal], [TwDurationProofs],
      [TwTemporalProofs]); the loader: parameter templates and RFC 6901 pointers
      ([TwPointer]), the table of expression nodes ([TwNodes])
      with its matrix helpers ([TwMatrix], [TwMatrixProofs]), and expressions,
      actions, methods and documents ([TwLoader], [TwLoaderProofs]).  A loaded
      domain is planned with the planner above, its guards asking the graph.  The
      planner calls the state's hash, the goals, and through them the graph and
      the JSON parser, whose exceptions reach its callers.
    - Taskweft's memory of plans: SHA-256 ([TwSha256]), the
      vectors of tw_hrr.hpp ([TwHrr], [TwHrrProofs]; doubles are rounded
      operation by operation, [Doubles] has the lemmas), the ranking of
      tw_retriever.hpp ([TwRetriever], [TwRetrieverProofs]) and the sentences,
      plans and states that tw_bridge.hpp turns into facts ([TwBridge],
      [TwBridgeProofs]).
    - Taskweft's reports and calls: explanations ([TwExplain]), the Monte Carlo
      executor ([TwMcExecutor]), the witness oracle ([TwWitnessOracle]) and every
      call that Elixir makes through taskweft_nif.cpp, over its two caches
      ([TwNif], [TwNifProofs]), also from several threads ([TwCacheThreads]).
      The states of loaded domains live in a heap there, pointed to by the cache
      and by the calls, and a call may leave anything in the one it was given.
      [TwRun] has the computations these files share: a call ends in a value, an
      exception or undefined behaviour.  [TwJsonText] shows which texts the JSON
      parser reads, for the answers the calls print.

    ** What the theorems show

    - Planner: a plan is a decomposition of its task list and executes; the
      solution tree records exactly the plan; an incremental replan keeps exactly
      the actions recorded before the nearest ancestor with a method left, avoids
      the failed command and that ancestor's choice, and executes, and says what
      it does where there is none; what the planners throw and where it comes
      from; the cached pruning scan equals the full one.
    - Relations and values: every bounded query decides the declarative relation
      it stands for; graphs, and values without doubles, survive their JSON
      text; parsing ends on every text, with a value or an exception of
      std::stod; cached hashes are never stale; integer comparison and its
      bound.
    - Durations and schedules: the parser accepts exactly the canonical ISO 8601
      durations and sums them, printing is read back, and a plan is scheduled
      back to back from its origin with a consistent network.
    - Loader: which documents load and what they load as; capabilities become
      the graph that decides them; actions write only what they address; the
      guards in an action's body held wherever an execution uses the action, and
      plans are executions; the integer nodes
      within their widths; the matrix helpers, run on the numbers of a field,
      are the determinant, product and inverse of linear algebra.
    - Pointers: escaped texts are read back, and no substituted value can leave
      its reference token.
    - Memory of plans: the hash is the function of FIPS 180-4; an atom is the
      stream of hash blocks read as angles, and a vector survives its bytes;
      results are ordered by score and ties keep their order; which sentences
      give which relation.
    - Calls: each call answers as a service without caches would, whatever was
      called before and whatever earlier calls left in their states, because
      load_cached hands out copies; the same between threads, clears included,
      while the references of the graph cache are safe only as long as it is not
      cleared; the answers are JSON that the parser reads; the execution of a
      plan follows the simulation, in which names without an action change
      nothing, up to an unlucky draw; explanations are read back from their
      text.
    - Containers: refinement of lists under every sequence of operations,
      balance and sums of the tree, order and round trip of the encodings,
      reference counts equal to the references that exist, also while the writers
      and the copier of the lock-free set interleave, and what a copy holds.
    - Scheduling: first-in first-out delivery and the sleep protocol in every
      interleaving, the lock's accounting, progress and concurrency limit; tasks
      are taken by priority and among equals in the order they were issued.
    - Promises: no client of promises and futures reaches freed memory, however
      its callbacks re-enter; every wait ends once with the promise's one
      outcome; a stream delivers in order, then its error.
    - Futures between threads: in every interleaving a registered callback is
      run once with what was sent, or was cleared; the holders of callbacks
      implement sets while a callback waits for one variable at a time.
    - Packets: the bytes written are the bytes sent, in order, whatever is sent,
      prepended, discarded or compacted in between; reliable packets keep their
      bytes; no buffer is used after its last reference or outlives it.
    - Texts and bytes: addresses and lists of them are read back from their
      texts; the DNS cache answers what the history of its operations says, and
      from its text the same addresses, without private flags; values of every composed type are read back from their
      bytes and input that ends early is refused; tuples sort as their values.
    - Guest: loot, combat and progression reducers; the texts the capabilities
      hand to the interpreter through their C buffers, and the values of the
      calls they spell.

    Further lemmas show where the code falls
    short of its comments, among them [witness_oracle_incomplete],
    [incremental_restarts_tasks], [difference_fails_open],
    [rebac_can_any_edge], [json_malformed_throws], [civil_months_wrap],
    [civil_days_ignored], [merge_drops_graph], [plan_json_ambiguous],
    [insert_vector_duplicates], [pml_reentry_exceeds], [graph_cache_clear_race],
    [rng_first_output_undefined], [oracle_constant], [lost_verbs],
    [values_lost], [mc_unknown_succeeds], [short_key_undefined],
    [variable_replace_race], [replace_aborts], [erase_leaks],
    [holder_index_lost], [holder_list_broken], [release_race], [empty_wrong],
    [parse_optional_throws], [parse_wraps], [parse_v6_rest], [cache_keys_meet],
    [float_not_reread], [negative_price_insolvent],
    [multigoal_ancestor_skipped] and [negative_length].

    ** Conventions and bounds

    A w-bit integer is a [Z] whose wrap-around is written out; a binary64 is a
    [spec_float] at precision 53; a failed assertion or null dereference is
    [None]; exceptions are the values [Throw]; state is passed explicitly, in
    the planner through a small state and exception monad, in the loader through
    computations that can draw random numbers or be undefined.  The functions of
    the mathematical library are the class [Libm], Boost's printer and parser of
    IP addresses the class [BoostIp] with the laws [BoostIpLaws]; the draws of the executor, the
    samples of the oracle and the readings of the clock are arguments.

    Fuel is either the code's own bound (TW_MAX_DEPTH = 400 in the planner, the
    fuel and depth arguments of the relation queries) or is proved enough: the
    JSON parser runs with one more unit than characters ([json_parse_total]),
    ISRebalance with the square of the height, the loops of Deque with its
    size, ISFreeNodes with one more than the nodes, the lock's scan with twice
    the priorities plus one, processReadyTimers with one more than the timers,
    the release of a reference with one more than the members, a queue pop with
    14 accesses, the duration and template scans with the length of their text,
    the walk to a retryable ancestor with one more than the nodes, the word and
    sentence scans of the bridge and the retriever with one more than the length
    of their text, the oracle's rejection loop with the one turn it takes, the
    search for a callback's holder with one more than the heap's objects, the run
    of waiting callbacks with their number, a write across buffers with two
    rounds, the loops over sent and discarded buffers with one more than the
    addresses handed out, a compaction with the parts and bytes of its packet, the
    splits of texts at commas with their length, bytesNeeded with its 7 rounds.

    Bounds that hypotheses state: CompressedInt encodings of at most 10 bytes,
    lock concurrency below 2^22 and weights summing below 2^24 (exact in a
    [float]), fewer than 2^32 task issues, guest buffers of 20000 and 160 bytes,
    64-bit s7 integers; a duration or a schedule that overflows [int64_t] is
    [None], and the schedule theorem is for plans whose sums do not.  The
    planner's memo tables are keyed by 64-bit hashes; its soundness does not
    depend on them, because the first plan found ends the search and a stored
    plan is never looked up for another subproblem.  The planner's tick counter,
    an [int], is unbounded in the model.

    ** Not modelled

    The s7 interpreter, libriscv, XXH3 and the SIMD paths, sse2neon, stacktrace,
    crc32, SimpleOpt and the marshalling templates of fine.hpp are vendored.  The
    rest of Flow (connections, platform, tracing, actor collections, generated
    actor code) is the runtime's I/O and its macro-generated state machines; of
    actors only what a SAV asks of them is modelled, a cancellation that runs
    commands.  The object serializer computes its layouts in templates at compile
    time, arenas are an allocator of raw memory, and host names are recognised by
    a regular expression of the standard library.  Blocking waits of thread futures, the latency histogram of
    the packet queue and lists of addresses are left out of the components above.
    The planner takes actions that are functions, so plans are modelled for loaded
    actions and methods that draw no random number and are defined; the theorems
    that plan loaded domains say so.  The Elixir application under lib/ starts
    the sandbox.

    This file holds machine integers, byte strings, counts of occurrences and the
    shared automation. *)

From Stdlib Require Import ZArith List Lia Bool PeanoNat.
Import ListNotations.
#[local] Open Scope Z_scope.

(** * Fixed-width integers

    A w-bit unsigned integer of the C code is a [Z] in [0, 2^w); every
    arithmetic operation of the models wraps its result explicitly. *)

Definition wrap (w x : Z) : Z := x mod 2 ^ w.

(** Two's-complement reading of the low w bits. *)
Definition swrap (w x : Z) : Z := (x + 2 ^ (w - 1)) mod 2 ^ w - 2 ^ (w - 1).

Abbreviation u8 := (wrap 8).
Abbreviation u16 := (wrap 16).
Abbreviation u32 := (wrap 32).
Abbreviation u64 := (wrap 64).
Abbreviation i8 := (swrap 8).
Abbreviation i32 := (swrap 32).
Abbreviation i64 := (swrap 64).

Definition in_range (w x : Z) : Prop := 0 <= x < 2 ^ w.

Create Rewrite HintDb wrapdb.

Lemma wrap_range w x : 0 <= w -> 0 <= wrap w x < 2 ^ w.
Proof. intros; apply Z.mod_pos_bound; apply Z.pow_pos_nonneg; lia. Qed.

Lemma wrap_id w x : 0 <= x < 2 ^ w -> wrap w x = x.
Proof. apply Z.mod_small. Qed.

Lemma wrap_wrap w x : wrap w (wrap w x) = wrap w x.
Proof. apply Zmod_mod. Qed.

Lemma wrap_add_l w x y : wrap w (wrap w x + y) = wrap w (x + y).
Proof. apply Zplus_mod_idemp_l. Qed.

Lemma wrap_add_r w x y : wrap w (x + wrap w y) = wrap w (x + y).
Proof. apply Zplus_mod_idemp_r. Qed.

Lemma wrap_sub_l w x y : wrap w (wrap w x - y) = wrap w (x - y).
Proof. apply Zminus_mod_idemp_l. Qed.

Lemma wrap_sub_r w x y : wrap w (x - wrap w y) = wrap w (x - y).
Proof. apply Zminus_mod_idemp_r. Qed.

Lemma wrap_mul_l w x y : wrap w (wrap w x * y) = wrap w (x * y).
Proof. apply Zmult_mod_idemp_l. Qed.

Lemma wrap_mul_r w x y : wrap w (x * wrap w y) = wrap w (x * y).
Proof. apply Zmult_mod_idemp_r. Qed.

#[export] Hint Rewrite wrap_wrap wrap_add_l wrap_add_r wrap_sub_l wrap_sub_r
  wrap_mul_l wrap_mul_r : wrapdb.

(** * Bit fields *)

(** Masking a contiguous field of [n] bits at offset [k] extracts it in place. *)
Lemma land_field x n k : 0 <= n -> 0 <= k ->
  Z.land x (Z.shiftl (Z.ones n) k) = (x / 2 ^ k) mod 2 ^ n * 2 ^ k.
Proof.
  intros Hn Hk. rewrite <- Z.shiftl_mul_pow2, <- Z.land_ones, <- Z.shiftr_div_pow2 by lia.
  apply Z.bits_inj'. intros i Hi.
  rewrite Z.land_spec, !Z.shiftl_spec by lia.
  destruct (Z.ltb_spec i k) as [L|L].
  - rewrite !(Z.testbit_neg_r _ (i - k)) by lia. apply andb_false_r.
  - rewrite Z.land_spec, Z.shiftr_spec by lia. f_equal. f_equal. lia.
Qed.

(** Joining a high part with a low part that fits below it is addition. *)
Lemma lor_disjoint hi lo k : 0 <= k -> 0 <= lo < 2 ^ k ->
  Z.lor (hi * 2 ^ k) lo = hi * 2 ^ k + lo.
Proof.
  intros Hk Hlo. symmetry. rewrite <- Z.shiftl_mul_pow2 by lia.
  rewrite <- Z.lxor_lor, Z.add_nocarry_lxor; trivial;
    apply Z.bits_inj'; intros i Hi;
    rewrite Z.land_spec, Z.shiftl_spec, Z.bits_0 by lia;
    (destruct (Z.ltb_spec i k) as [L|L];
     [ rewrite (Z.testbit_neg_r hi) by lia; reflexivity
     | rewrite <- (Z.mod_small lo (2 ^ k)), Z.mod_pow2_bits_high by lia; apply andb_false_r ]).
Qed.

Lemma lor_disjoint_r hi lo k : 0 <= k -> 0 <= lo < 2 ^ k ->
  Z.lor lo (hi * 2 ^ k) = hi * 2 ^ k + lo.
Proof. intros; rewrite Z.lor_comm; apply lor_disjoint; assumption. Qed.

(** * Byte strings *)

Definition is_byte (b : Z) : Prop := 0 <= b < 256.
Definition bytes_ok (l : list Z) : Prop := Forall is_byte l.

Definition is_byteb (b : Z) : bool := (0 <=? b) && (b <? 256).

Lemma is_byteb_spec b : is_byteb b = true <-> is_byte b.
Proof. unfold is_byteb, is_byte. rewrite andb_true_iff, Z.leb_le, Z.ltb_lt. reflexivity. Qed.

Lemma bytes_ok_forallb l : forallb is_byteb l = true -> bytes_ok l.
Proof.
  intros H. apply Forall_forall. intros x Hx. apply is_byteb_spec.
  exact (proj1 (forallb_forall _ _) H x Hx).
Qed.

(** Little-endian value of a byte string, and its inverse at a given length. *)
Fixpoint le_decode (l : list Z) : Z :=
  match l with
  | [] => 0
  | b :: r => b + 256 * le_decode r
  end.

Fixpoint le_encode (n : nat) (x : Z) : list Z :=
  match n with
  | O => []
  | S m => x mod 256 :: le_encode m (x / 256)
  end.

Lemma le_decode_range l : bytes_ok l -> 0 <= le_decode l < 256 ^ Z.of_nat (length l).
Proof.
  induction 1 as [|b r Hb Hr IH]; [simpl; lia|].
  cbn [le_decode length]. rewrite Nat2Z.inj_succ, Z.pow_succ_r by lia.
  unfold is_byte in Hb. lia.
Qed.

Lemma le_encode_length n x : length (le_encode n x) = n.
Proof. revert x; induction n; intros; simpl; auto. Qed.

Lemma le_encode_bytes n x : bytes_ok (le_encode n x).
Proof.
  revert x; unfold bytes_ok; induction n as [|n IH]; intros; cbn [le_encode]; constructor; auto.
  unfold is_byte. apply Z.mod_pos_bound; lia.
Qed.

Lemma le_decode_encode n x : le_decode (le_encode n x) = x mod 256 ^ Z.of_nat n.
Proof.
  revert x; induction n as [|n IH]; intros x.
  - simpl. rewrite Z.mod_1_r. reflexivity.
  - cbn [le_encode le_decode]. rewrite IH, Nat2Z.inj_succ, Z.pow_succ_r by lia.
    rewrite Z.rem_mul_r; lia.
Qed.

Lemma le_encode_decode l : bytes_ok l -> le_encode (length l) (le_decode l) = l.
Proof.
  induction 1 as [|b r Hb Hr IH]; [reflexivity|]. unfold is_byte in Hb.
  cbn [length le_encode le_decode].
  rewrite (Z.mul_comm 256), Z.mod_add, Z.mod_small by lia.
  rewrite Z.div_add, Z.div_small, Z.add_0_l by lia. now rewrite IH.
Qed.

(** [memcpy(dst + off, src, n)] on byte buffers. *)
Definition memcpy (dst : list Z) (off : nat) (src : list Z) (n : nat) : list Z :=
  firstn off dst ++ firstn n src ++ skipn (off + n) dst.

Lemma memcpy_length dst off src n :
  (off + n <= length dst)%nat -> (n <= length src)%nat ->
  length (memcpy dst off src n) = length dst.
Proof.
  intros. unfold memcpy. rewrite !length_app, !length_firstn, length_skipn. lia.
Qed.

(** The prefix of the buffer up to the end of the copied range. *)
Lemma memcpy_prefix dst off src n :
  (off + n <= length dst)%nat -> (n <= length src)%nat ->
  firstn (off + n) (memcpy dst off src n) = firstn off dst ++ firstn n src.
Proof.
  intros. unfold memcpy. rewrite app_assoc, firstn_app.
  rewrite length_app, !length_firstn.
  replace (off + n - (Nat.min off (length dst) + Nat.min n (length src)))%nat with 0%nat by lia.
  rewrite firstn_O, app_nil_r. apply firstn_all2. rewrite length_app, !length_firstn. lia.
Qed.

Lemma bytes_ok_app l r : bytes_ok (l ++ r) <-> bytes_ok l /\ bytes_ok r.
Proof. apply Forall_app. Qed.

Lemma bytes_ok_firstn n l : bytes_ok l -> bytes_ok (firstn n l).
Proof. intros H. rewrite <- (firstn_skipn n l), bytes_ok_app in H. tauto. Qed.

Lemma bytes_ok_skipn n l : bytes_ok l -> bytes_ok (skipn n l).
Proof. intros H. rewrite <- (firstn_skipn n l), bytes_ok_app in H. tauto. Qed.

Create HintDb bytesdb.
#[export] Hint Resolve bytes_ok_firstn bytes_ok_skipn le_encode_bytes : bytesdb.

(** * Lists updated by index *)

Definition set_nth {A} (l : list A) (i : nat) (x : A) : list A :=
  match nth_error l i with
  | Some _ => firstn i l ++ x :: skipn (S i) l
  | None => l
  end.

Lemma set_nth_split {A} (l : list A) i p x : nth_error l i = Some p ->
  exists l1 l2, l = l1 ++ p :: l2 /\ length l1 = i /\ set_nth l i x = l1 ++ x :: l2.
Proof.
  intros H. unfold set_nth. rewrite H. destruct (nth_error_split l i H) as (l1 & l2 & -> & L).
  exists l1, l2. split; [reflexivity|]. split; [exact L|]. subst i.
  rewrite firstn_app, firstn_all, Nat.sub_diag. cbn [firstn]. rewrite app_nil_r.
  f_equal. f_equal. rewrite skipn_app, skipn_all2 by lia.
  replace (S (length l1) - length l1)%nat with 1%nat by lia. reflexivity.
Qed.

Lemma nth_error_set {A} (l : list A) i p x j : nth_error l i = Some p ->
  nth_error (set_nth l i x) j = if Nat.eqb j i then Some x else nth_error l j.
Proof.
  intros H. destruct (set_nth_split l i p x H) as (l1 & l2 & -> & <- & ->).
  destruct (Nat.eqb_spec j (length l1)) as [->|N].
  - rewrite nth_error_app2, Nat.sub_diag by lia. reflexivity.
  - destruct (Nat.lt_ge_cases j (length l1)).
    + rewrite !nth_error_app1 by lia. reflexivity.
    + rewrite !nth_error_app2 by lia. destruct (j - length l1)%nat eqn:E; [lia|reflexivity].
Qed.

Lemma Forall_set {A} (P : A -> Prop) l i p x : nth_error l i = Some p ->
  Forall P l -> P x -> Forall P (set_nth l i x).
Proof.
  intros H F X. destruct (set_nth_split l i p x H) as (l1 & l2 & -> & _ & ->).
  apply Forall_app in F. destruct F as [F1 F2]. inversion F2; subst.
  apply Forall_app. split; [assumption|constructor; assumption].
Qed.

Lemma nth_error_Forall {A} (P : A -> Prop) l i p : Forall P l -> nth_error l i = Some p -> P p.
Proof. intros F H. rewrite Forall_forall in F. apply F. eapply nth_error_In; eauto. Qed.

Lemma set_nth_length {A} (l : list A) i (x : A) : length (set_nth l i x) = length l.
Proof.
  unfold set_nth. destruct (nth_error l i) eqn:E; [|reflexivity].
  assert (i < length l)%nat by (apply nth_error_Some; congruence).
  rewrite length_app. cbn [length]. rewrite length_firstn, length_skipn. lia.
Qed.

(** The sum of a measure over a list. *)
Fixpoint sumL {A} (f : A -> Z) (l : list A) : Z :=
  match l with [] => 0 | x :: l' => f x + sumL f l' end.

Lemma sumL_app {A} (f : A -> Z) l l' : sumL f (l ++ l') = sumL f l + sumL f l'.
Proof. induction l; cbn [app sumL]; lia. Qed.

Lemma sumL_set {A} (f : A -> Z) l i p x : nth_error l i = Some p ->
  sumL f (set_nth l i x) = sumL f l - f p + f x.
Proof.
  intros H. destruct (set_nth_split l i p x H) as (l1 & l2 & -> & _ & ->).
  rewrite !sumL_app. cbn [sumL]. lia.
Qed.

Lemma sumL_nonneg {A} (f : A -> Z) l : (forall x, 0 <= f x) -> 0 <= sumL f l.
Proof. intros H. induction l as [|x l IH]; cbn [sumL]; [lia|]. specialize (H x). lia. Qed.

Lemma sumL_member {A} (f : A -> Z) l x : (forall y, 0 <= f y) -> In x l -> f x <= sumL f l.
Proof.
  intros H I. apply in_split in I. destruct I as (l1 & l2 & ->). rewrite sumL_app. cbn [sumL].
  pose proof (sumL_nonneg f l1 H). pose proof (sumL_nonneg f l2 H). lia.
Qed.

(** * Tactics *)

(** Turn every integer comparison tested by the goal into a case. *)
Ltac zcases :=
  repeat match goal with
  | |- context [Z.ltb ?a ?b] => destruct (Z.ltb_spec a b)
  | |- context [Z.leb ?a ?b] => destruct (Z.leb_spec a b)
  | |- context [Z.eqb ?a ?b] => destruct (Z.eqb_spec a b)
  end.

Ltac zcases_in H :=
  repeat match type of H with
  | context [Z.ltb ?a ?b] => destruct (Z.ltb_spec a b)
  | context [Z.leb ?a ?b] => destruct (Z.leb_spec a b)
  | context [Z.eqb ?a ?b] => destruct (Z.eqb_spec a b)
  end.

(** Case analysis on the scrutinee of the first match or conditional. *)
Ltac dmatch :=
  match goal with
  | |- context [match ?x with _ => _ end] => destruct x eqn:?
  end.

(** * Counting

    Occurrences in lists of addresses, for the components that count references. *)

Module Counting.

Fixpoint remove1 (a : nat) (l : list nat) : list nat :=
  match l with [] => [] | x :: r => if Nat.eqb x a then r else x :: remove1 a r end.
Definition holds (a : nat) (l : list nat) : bool := existsb (Nat.eqb a) l.

Definition one (a x : nat) : Z := if Nat.eqb a x then 1 else 0.
Definition cnt (a : nat) (l : list nat) : Z := sumL (one a) l.

Lemma one_nonneg a x : 0 <= one a x.
Proof. unfold one. destruct (Nat.eqb a x); lia. Qed.
Lemma one_same a : one a a = 1.
Proof. unfold one. now rewrite Nat.eqb_refl. Qed.
Lemma one_other a x : a <> x -> one a x = 0.
Proof. unfold one. intros H. destruct (Nat.eqb_spec a x); congruence. Qed.
Lemma cnt_nonneg a l : 0 <= cnt a l.
Proof. apply sumL_nonneg, one_nonneg. Qed.
Lemma cnt_head a x l : cnt a (x :: l) = one a x + cnt a l.
Proof. reflexivity. Qed.
Lemma cnt_app a l l' : cnt a (l ++ l') = cnt a l + cnt a l'.
Proof. apply sumL_app. Qed.
Lemma cnt_nil a : cnt a [] = 0.
Proof. reflexivity. Qed.

Create Rewrite HintDb cntdb.
#[export] Hint Rewrite cnt_head cnt_app cnt_nil one_same : cntdb.
Create HintDb cntdb.
#[export] Hint Resolve one_nonneg cnt_nonneg : cntdb.

(** Counts are not negative: what [lia] is told. *)
Ltac counts :=
  repeat match goal with
  | |- context [one ?a ?x] => lazymatch goal with _ : 0 <= one a x |- _ => fail | _ => pose proof (one_nonneg a x) end
  | |- context [cnt ?a ?x] => lazymatch goal with _ : 0 <= cnt a x |- _ => fail | _ => pose proof (cnt_nonneg a x) end
  | _ : context [one ?a ?x] |- _ => lazymatch goal with _ : 0 <= one a x |- _ => fail | _ => pose proof (one_nonneg a x) end
  | _ : context [cnt ?a ?x] |- _ => lazymatch goal with _ : 0 <= cnt a x |- _ => fail | _ => pose proof (cnt_nonneg a x) end
  end.

Lemma cnt_in a l : 0 < cnt a l <-> In a l.
Proof.
  induction l as [|x l IH]; [rewrite cnt_nil; cbn; lia|]. rewrite cnt_head. cbn [In]. rewrite <- IH.
  pose proof (cnt_nonneg a l). unfold one. destruct (Nat.eqb_spec a x) as [->|N]; [split; [auto|lia]|].
  split; [intros; right; lia|intros [?|?]; [congruence|lia]].
Qed.

Lemma cnt_occ a l : cnt a l = Z.of_nat (count_occ Nat.eq_dec l a).
Proof.
  induction l as [|x l IH]; [reflexivity|]. rewrite cnt_head, IH. cbn [count_occ]. unfold one.
  destruct (Nat.eq_dec x a), (Nat.eqb_spec a x); subst; try congruence; lia.
Qed.

Lemma holds_in a l : holds a l = true -> In a l.
Proof. unfold holds. intros H. apply existsb_exists in H. destruct H as (x & I & E). apply Nat.eqb_eq in E. now subst. Qed.

Lemma cnt_remove1 a x l : In x l -> cnt a (remove1 x l) = cnt a l - one a x.
Proof.
  induction l as [|y l IH]; [intros []|]. intros H. cbn [remove1]. rewrite cnt_head.
  destruct (Nat.eqb_spec y x) as [->|N]; [lia|]. destruct H as [?|H]; [congruence|]. rewrite cnt_head, IH by assumption. lia.
Qed.

Lemma sumL_two {A} (f : A -> Z) l i x j y : (forall z, 0 <= f z) ->
  nth_error l i = Some x -> nth_error l j = Some y -> j <> i -> f x + f y <= sumL f l.
Proof.
  intros H E K N. destruct (set_nth_split l i x x E) as (l1 & l2 & -> & <- & _).
  rewrite sumL_app. cbn [sumL].
  assert (I : In y (l1 ++ l2)).
  { destruct (Nat.lt_ge_cases j (length l1)) as [L|L].
    - rewrite nth_error_app1 in K by exact L. apply in_or_app. left. eapply nth_error_In; eauto.
    - rewrite nth_error_app2 in K by exact L. destruct (j - length l1)%nat eqn:D; [lia|]. apply in_or_app. right. eapply nth_error_In; eauto. }
  pose proof (sumL_member f _ _ H I). rewrite sumL_app in *. lia.
Qed.

Lemma remove1_other i x l : i <> x -> In i l -> In i (remove1 x l).
Proof.
  intros N. induction l as [|y l IH]; [easy|]. cbn [remove1]. intros [->|H].
  - destruct (Nat.eqb_spec i x); [congruence|now left].
  - destruct (Nat.eqb y x); [exact H|right; auto].
Qed.

End Counting.
