(* ===== verification/Stripes.v ===== *)
(** Buffered processing of a byte stream in fixed-size stripes.

    [absorb] is the reference reading of a streaming hash: consume every full
    stripe of the input, keep the incomplete rest.  The lemmas say that
    splitting the input at any point and resuming with the kept rest gives
    the same lanes and the same rest; the streaming hashes are proved
    against this reference. *)

From Stdlib Require Import ZArith List Lia.
Import ListNotations.
From S2P Require Import Prelude.

Section Absorb.

Context {V : Type} (B : nat) (step : V -> list Z -> V).
Hypothesis B_pos : B > 0.

Fixpoint absorb_fuel (fuel : nat) (v : V) (p : list Z) : V * list Z :=
  match fuel with
  | O => (v, p)
  | S f => if B <=? length p then absorb_fuel f (step v (firstn B p)) (skipn B p)
           else (v, p)
  end.

Definition absorb (v : V) (p : list Z) : V * list Z := absorb_fuel (length p) v p.

Lemma absorb_fuel_enough f v p : length p <= f -> absorb_fuel f v p = absorb v p.
Proof.
  unfold absorb. remember (length p) as n eqn:Hn.
  revert f v p Hn. induction n as [n IH] using lt_wf_ind. intros f v p Hn Hf.
  destruct n as [|n].
  - destruct f; cbn [absorb_fuel]; [reflexivity|].
    destruct (Nat.leb_spec B (length p)); [lia|reflexivity].
  - destruct f as [|f]; [lia|]. cbn [absorb_fuel].
    destruct (Nat.leb_spec B (length p)); [|reflexivity].
    assert (L : length (skipn B p) = S n - B) by (rewrite length_skipn; lia).
    rewrite (IH (S n - B)) by (try rewrite L; lia).
    symmetry. apply IH; try rewrite L; lia.
Qed.

Lemma absorb_short v p : length p < B -> absorb v p = (v, p).
Proof.
  intros H. unfold absorb. destruct (length p) eqn:E; [reflexivity|].
  cbn [absorb_fuel]. rewrite E. destruct (Nat.leb_spec B (S n)); [lia|reflexivity].
Qed.

Lemma absorb_full v p : B <= length p ->
  absorb v p = absorb (step v (firstn B p)) (skipn B p).
Proof.
  intros H. unfold absorb at 1. destruct (length p) eqn:E; [lia|].
  cbn [absorb_fuel]. rewrite E. destruct (Nat.leb_spec B (S n)); [|lia].
  apply absorb_fuel_enough. rewrite length_skipn. lia.
Qed.

Lemma absorb_block v b p : length b = B -> absorb v (b ++ p) = absorb (step v b) p.
Proof.
  intros H. rewrite absorb_full by (rewrite length_app; lia).
  rewrite firstn_app, skipn_app, H, Nat.sub_diag, firstn_O, skipn_O, app_nil_r.
  rewrite firstn_all2, skipn_all2 by lia. reflexivity.
Qed.

Lemma absorb_app v p q :
  absorb v (p ++ q) = absorb (fst (absorb v p)) (snd (absorb v p) ++ q).
Proof.
  remember (length p) as n eqn:Hn. revert v p Hn.
  induction n as [n IH] using lt_wf_ind. intros v p Hn.
  destruct (Nat.lt_ge_cases (length p) B) as [H|H].
  - rewrite (absorb_short v p) by assumption. reflexivity.
  - rewrite (absorb_full v p) by assumption.
    rewrite <- (IH (length (skipn B p))) by (rewrite ?length_skipn; lia).
    rewrite <- (firstn_skipn B p) at 1. rewrite <- app_assoc.
    apply absorb_block. rewrite length_firstn. lia.
Qed.

Lemma absorb_rest v p : length (snd (absorb v p)) < B.
Proof.
  remember (length p) as n eqn:Hn. revert v p Hn.
  induction n as [n IH] using lt_wf_ind. intros v p Hn.
  destruct (Nat.lt_ge_cases (length p) B) as [H|H].
  - now rewrite absorb_short.
  - rewrite absorb_full by assumption. eapply IH; [|reflexivity]. rewrite length_skipn. lia.
Qed.

Lemma absorb_rest_mod v p : length (snd (absorb v p)) = length p mod B.
Proof.
  remember (length p) as n eqn:Hn. revert v p Hn.
  induction n as [n IH] using lt_wf_ind. intros v p Hn.
  destruct (Nat.lt_ge_cases (length p) B) as [H|H].
  - rewrite absorb_short by assumption. cbn. rewrite Nat.mod_small; lia.
  - rewrite absorb_full by assumption.
    rewrite (IH (length (skipn B p))) by (rewrite ?length_skipn; lia).
    rewrite length_skipn, Hn. replace (length p) with (length p - B + 1 * B) at 2 by lia.
    rewrite Nat.Div0.mod_add. reflexivity.
Qed.

Lemma absorb_rest_suffix v p : exists k, snd (absorb v p) = skipn k p.
Proof.
  remember (length p) as n eqn:Hn. revert v p Hn.
  induction n as [n IH] using lt_wf_ind. intros v p Hn.
  destruct (Nat.lt_ge_cases (length p) B) as [H|H].
  - exists 0. now rewrite absorb_short.
  - destruct (IH (length (skipn B p))) with (v := step v (firstn B p)) (p := skipn B p) as [k Hk];
      [rewrite length_skipn; lia|reflexivity|].
    exists (k + B). rewrite absorb_full, Hk, skipn_skipn by assumption. reflexivity.
Qed.

Lemma absorb_rest_bytes v p : bytes_ok p -> bytes_ok (snd (absorb v p)).
Proof. intros H. destruct (absorb_rest_suffix v p) as [k ->]. auto with bytesdb. Qed.

(** The do-while form: run one stripe, continue while a full stripe is left. *)
Fixpoint do_while (fuel : nat) (more : Z -> bool) (v : V) (p : list Z) : V * list Z :=
  match fuel with
  | O => (v, p)
  | S f =>
      let v' := step v (firstn B p) in
      let p' := skipn B p in
      if more (Z.of_nat (length p')) then do_while f more v' p' else (v', p')
  end.

Lemma do_while_absorb more v p :
  (forall n, more (Z.of_nat n) = (B <=? n)) -> B <= length p ->
  do_while (length p) more v p = absorb v p.
Proof.
  intros Hm H. enough (G : forall f, length p <= f -> do_while f more v p = absorb v p) by auto.
  remember (length p) as n eqn:Hn. revert v p Hn H.
  induction n as [n IH] using lt_wf_ind. intros v p Hn H f Hf.
  destruct f as [|f]; [lia|]. cbn [do_while]. rewrite Hm.
  rewrite absorb_full by lia. assert (L : length (skipn B p) = n - B) by (rewrite length_skipn; lia).
  destruct (Nat.leb_spec B (length (skipn B p))).
  - apply (IH (n - B)); lia.
  - now rewrite absorb_short.
Qed.

End Absorb.

(** Steps that agree on full stripes of bytes absorb byte strings alike. *)
Lemma absorb_ext {V} B (step1 step2 : V -> list Z -> V) v p : B > 0 ->
  (forall v b, bytes_ok b -> length b = B -> step1 v b = step2 v b) ->
  bytes_ok p -> absorb B step1 v p = absorb B step2 v p.
Proof.
  intros HB E. remember (length p) as n eqn:Hn. revert v p Hn.
  induction n as [n IH] using lt_wf_ind. intros v p Hn Hp.
  destruct (Nat.lt_ge_cases (length p) B) as [H|H].
  - now rewrite !absorb_short.
  - rewrite !(absorb_full B _ HB v p) by assumption.
    rewrite E by (auto with bytesdb; rewrite length_firstn; lia).
    eapply IH; [|reflexivity|]; [rewrite length_skipn; lia|auto with bytesdb].
Qed.

(** * The buffered update

    The part of a streaming update that the 16-byte and 32-byte hashes share:
    short input is appended to the buffer; otherwise the buffered stripe is
    completed, the full stripes are run and the rest is buffered.  [cstep] is
    the step as compiled, [step] its reference. *)

#[local] Open Scope Z_scope.

Section Buffered.

Context {V : Type} (B : nat) (cstep step : V -> list Z -> V).
Hypothesis B_small : 0 < Z.of_nat B < 2 ^ 32.
Hypothesis cstep_ok : forall v b, bytes_ok b -> length b = B -> cstep v b = step v b.

Definition buf_update (v : V) (mem : list Z) (msize : Z) (p : list Z) : V * list Z * Z :=
  let len := Z.of_nat (length p) in
  if u64 (msize + len) <? Z.of_nat B then
    (v, memcpy mem (Z.to_nat msize) p (length p), u32 (msize + u32 len))
  else
    let '(v, mem, msize, p) :=
      if negb (msize =? 0) then
        let fill := Z.to_nat (Z.of_nat B - msize) in
        let mem := memcpy mem (Z.to_nat msize) p fill in
        (cstep v mem, mem, 0, skipn fill p)
      else (v, mem, msize, p) in
    let '(v, p) :=
      if Z.of_nat B <=? Z.of_nat (length p) then
        do_while B cstep (length p) (fun left => Z.of_nat B <=? left) v p
      else (v, p) in
    let '(mem, msize) :=
      if 0 <? Z.of_nat (length p) then (memcpy mem 0 p (length p), u32 (Z.of_nat (length p)))
      else (mem, msize) in
    (v, mem, msize).

(** The lanes have absorbed the full stripes of [data], the buffer holds the rest. *)
Record buffered (v0 : V) (data : list Z) (v : V) (mem : list Z) (msize : Z) : Prop := {
  buf_lanes : v = fst (absorb B step v0 data);
  buf_memlen : length mem = B;
  buf_membytes : bytes_ok mem;
  buf_memsize : msize = Z.of_nat (length (snd (absorb B step v0 data)));
  buf_rest : firstn (Z.to_nat msize) mem = snd (absorb B step v0 data)
}.

Let B_pos : (B > 0)%nat.
Proof. lia. Qed.

Lemma memcpy_bytes mem off p n : bytes_ok mem -> bytes_ok p -> bytes_ok (memcpy mem off p n).
Proof. intros. unfold memcpy. rewrite !bytes_ok_app. auto with bytesdb. Qed.

(** Completing the buffered stripe from the input. *)
Lemma complete_stripe v mem rest p :
  length mem = B -> bytes_ok mem -> bytes_ok p -> (length rest < B)%nat ->
  firstn (length rest) mem = rest -> (B <= length rest + length p)%nat ->
  let fill := (B - length rest)%nat in
  absorb B step v (rest ++ p)
  = absorb B step (cstep v (memcpy mem (length rest) p fill)) (skipn fill p).
Proof.
  intros Lm Bm Bp Lr Hr Ltot fill.
  rewrite <- (firstn_skipn fill p) at 1. rewrite app_assoc.
  rewrite absorb_block by (trivial; rewrite length_app, length_firstn; lia).
  f_equal. rewrite cstep_ok by (try apply memcpy_bytes; trivial; rewrite memcpy_length; lia).
  f_equal. rewrite <- Hr at 1. rewrite <- memcpy_prefix by lia.
  apply firstn_all2. rewrite memcpy_length; lia.
Qed.

Lemma run_stripes v p : bytes_ok p ->
  (if Z.of_nat B <=? Z.of_nat (length p) then
     do_while B cstep (length p) (fun left => Z.of_nat B <=? left) v p
   else (v, p)) = absorb B step v p.
Proof.
  intros Hp. rewrite <- (absorb_ext B cstep step v p B_pos cstep_ok Hp).
  destruct (Z.leb_spec (Z.of_nat B) (Z.of_nat (length p))).
  - apply do_while_absorb; trivial; [|lia].
    intros n. destruct (Z.leb_spec (Z.of_nat B) (Z.of_nat n)), (Nat.leb_spec B n); trivial; lia.
  - now rewrite absorb_short by lia.
Qed.

Lemma buffer_rest v0 data v mem rest : absorb B step v0 data = (v, rest) ->
  length mem = B -> bytes_ok mem -> bytes_ok rest -> (length rest < B)%nat ->
  buffered v0 data v (memcpy mem 0 rest (length rest)) (u32 (Z.of_nat (length rest))).
Proof.
  intros E Lm Bm Br Lr.
  constructor; rewrite ?E; cbn [fst snd]; trivial.
  - rewrite memcpy_length; lia.
  - now apply memcpy_bytes.
  - apply wrap_id; lia.
  - rewrite wrap_id, Nat2Z.id by lia.
    rewrite <- (Nat.add_0_l (length rest)) at 1.
    rewrite memcpy_prefix, firstn_O, firstn_all by lia. reflexivity.
Qed.

Theorem buf_update_ok v0 data v mem msize p : buffered v0 data v mem msize -> bytes_ok p ->
  Z.of_nat (length p) < 2 ^ 63 ->
  let '(v', mem', msize') := buf_update v mem msize p in
  buffered v0 (data ++ p) v' mem' msize'.
Proof.
  intros [Hv Hm Hb Hs Hr] Hp Hlen.
  pose proof (absorb_rest B step B_pos v0 data) as Hlt.
  pose proof (absorb_rest B step B_pos v0 (data ++ p)) as Hlt'.
  pose proof (absorb_app B step B_pos v0 data p) as Happ.
  remember (snd (absorb B step v0 data)) as rest eqn:Erest in *. rewrite <- Hv in Happ.
  assert (Hr' : firstn (length rest) mem = rest) by (rewrite Hs, Nat2Z.id in Hr; exact Hr).
  unfold buf_update. cbv zeta. rewrite (wrap_id 64) by lia.
  destruct (Z.ltb_spec (msize + Z.of_nat (length p)) (Z.of_nat B)) as [S|S].
  - rewrite (absorb_short B step B_pos v (rest ++ p)) in Happ by (rewrite length_app; lia).
    constructor; rewrite ?Happ; cbn [fst snd]; trivial.
    + rewrite memcpy_length; lia.
    + now apply memcpy_bytes.
    + rewrite (wrap_id 32 (Z.of_nat _)), wrap_id, length_app; lia.
    + rewrite (wrap_id 32 (Z.of_nat _)), wrap_id by lia.
      rewrite Z2Nat.inj_add, Nat2Z.id, memcpy_prefix by lia. rewrite Hr, firstn_all by lia. reflexivity.
  - destruct (Z.eqb_spec msize 0) as [Z0|Z0]; cbn [negb].
    + destruct rest; [|cbn [length] in Hs; lia]. rewrite run_stripes by assumption.
      cbn [app] in Happ. rewrite <- Happ.
      assert (Br : bytes_ok (snd (absorb B step v p))) by now apply absorb_rest_bytes.
      rewrite <- Happ in Br. destruct (absorb B step v0 (data ++ p)) as [w t] eqn:Ew. cbn [snd] in *.
      destruct (Z.ltb_spec 0 (Z.of_nat (length t))).
      * now apply buffer_rest.
      * destruct t; [|cbn [length] in *; lia]. constructor; rewrite ?Ew; trivial.
    + rewrite Hs. replace (Z.to_nat (Z.of_nat B - Z.of_nat (length rest)))
        with (B - length rest)%nat by lia. rewrite Nat2Z.id.
      set (mem1 := memcpy mem (length rest) p (B - length rest)).
      rewrite (complete_stripe v mem rest p) in Happ by (trivial; lia). fold mem1 in Happ.
      rewrite run_stripes, <- Happ by auto with bytesdb.
      assert (Bm1 : bytes_ok mem1) by now apply memcpy_bytes.
      assert (Lm1 : length mem1 = B) by (unfold mem1; rewrite memcpy_length; lia).
      assert (Br : bytes_ok (snd (absorb B step (cstep v mem1) (skipn (B - length rest) p))))
        by (apply absorb_rest_bytes; auto with bytesdb).
      rewrite <- Happ in Br. destruct (absorb B step v0 (data ++ p)) as [w t] eqn:Ew. cbn [snd] in *.
      destruct (Z.ltb_spec 0 (Z.of_nat (length t))).
      * now apply buffer_rest.
      * destruct t; [|cbn [length] in *; lia]. constructor; rewrite ?Ew; trivial.
Qed.

End Buffered.
