(* ===== verification/XXHash.v ===== *)
(** XXH32 and XXH64 of flow/flow/include/flow/xxhash.h: one-shot and streaming
    hashing, canonical form, on every build configuration of the header. *)

From Stdlib Require Import ZArith List Lia Bool.
Import ListNotations.
From S2P Require Import Prelude Stripes.
#[local] Open Scope Z_scope.

(** * Build configuration

    The preprocessor switches the scalar code depends on. *)
Record XXH_config := {
  XXH_CPU_LITTLE_ENDIAN : bool;
  XXH_FORCE_MEMORY_ACCESS_3 : bool;   (* XXH_FORCE_MEMORY_ACCESS == 3 *)
  XXH_REROLL : bool;
  XXH_REROLL_XXH64 : bool;
  XXH_FORCE_ALIGN_CHECK : bool;
  XXH_ACCEPT_NULL_INPUT_POINTER : bool
}.

Inductive XXH_errorcode := XXH_OK | XXH_ERROR.
Inductive XXH_alignment := XXH_aligned | XXH_unaligned.

(** * Memory access *)

Definition XXH_rotl32 (x r : Z) : Z :=
  Z.lor (u32 (Z.shiftl x r)) (Z.shiftr x (32 - r)).
Definition XXH_rotl64 (x r : Z) : Z :=
  Z.lor (u64 (Z.shiftl x r)) (Z.shiftr x (64 - r)).

Definition XXH_swap32 (x : Z) : Z :=
  Z.lor (Z.lor (Z.lor (Z.land (u32 (Z.shiftl x 24)) 0xff000000)
                      (Z.land (u32 (Z.shiftl x 8)) 0x00ff0000))
               (Z.land (Z.shiftr x 8) 0x0000ff00))
        (Z.land (Z.shiftr x 24) 0x000000ff).

Definition XXH_swap64 (x : Z) : Z :=
  Z.lor (Z.lor (Z.lor (Z.lor (Z.lor (Z.lor (Z.lor
    (Z.land (u64 (Z.shiftl x 56)) 0xff00000000000000)
    (Z.land (u64 (Z.shiftl x 40)) 0x00ff000000000000))
    (Z.land (u64 (Z.shiftl x 24)) 0x0000ff0000000000))
    (Z.land (u64 (Z.shiftl x 8)) 0x000000ff00000000))
    (Z.land (Z.shiftr x 8) 0x00000000ff000000))
    (Z.land (Z.shiftr x 24) 0x0000000000ff0000))
    (Z.land (Z.shiftr x 40) 0x000000000000ff00))
    (Z.land (Z.shiftr x 56) 0x00000000000000ff).

(** memcpy of a word from memory, in the CPU's byte order. *)
Definition XXH_read32 (c : XXH_config) (p : list Z) : Z :=
  if XXH_CPU_LITTLE_ENDIAN c then le_decode (firstn 4 p) else le_decode (rev (firstn 4 p)).
Definition XXH_read64 (c : XXH_config) (p : list Z) : Z :=
  if XXH_CPU_LITTLE_ENDIAN c then le_decode (firstn 8 p) else le_decode (rev (firstn 8 p)).

Definition XXH_readLE32 (c : XXH_config) (p : list Z) : Z :=
  if XXH_FORCE_MEMORY_ACCESS_3 c then
    Z.lor (Z.lor (Z.lor (nth 0 p 0) (Z.shiftl (nth 1 p 0) 8)) (Z.shiftl (nth 2 p 0) 16))
          (Z.shiftl (nth 3 p 0) 24)
  else if XXH_CPU_LITTLE_ENDIAN c then XXH_read32 c p else XXH_swap32 (XXH_read32 c p).

Definition XXH_readBE32 (c : XXH_config) (p : list Z) : Z :=
  if XXH_FORCE_MEMORY_ACCESS_3 c then
    Z.lor (Z.lor (Z.lor (nth 3 p 0) (Z.shiftl (nth 2 p 0) 8)) (Z.shiftl (nth 1 p 0) 16))
          (Z.shiftl (nth 0 p 0) 24)
  else if XXH_CPU_LITTLE_ENDIAN c then XXH_swap32 (XXH_read32 c p) else XXH_read32 c p.

Definition XXH_readLE32_align (c : XXH_config) (p : list Z) (align : XXH_alignment) : Z :=
  match align with
  | XXH_unaligned => XXH_readLE32 c p
  | XXH_aligned => if XXH_CPU_LITTLE_ENDIAN c then XXH_read32 c p
                   else XXH_swap32 (XXH_read32 c p)
  end.

Definition XXH_readLE64 (c : XXH_config) (p : list Z) : Z :=
  if XXH_FORCE_MEMORY_ACCESS_3 c then
    Z.lor (Z.lor (Z.lor (Z.lor (Z.lor (Z.lor (Z.lor (nth 0 p 0)
      (Z.shiftl (nth 1 p 0) 8)) (Z.shiftl (nth 2 p 0) 16)) (Z.shiftl (nth 3 p 0) 24))
      (Z.shiftl (nth 4 p 0) 32)) (Z.shiftl (nth 5 p 0) 40)) (Z.shiftl (nth 6 p 0) 48))
      (Z.shiftl (nth 7 p 0) 56)
  else if XXH_CPU_LITTLE_ENDIAN c then XXH_read64 c p else XXH_swap64 (XXH_read64 c p).

Definition XXH_readBE64 (c : XXH_config) (p : list Z) : Z :=
  if XXH_FORCE_MEMORY_ACCESS_3 c then
    Z.lor (Z.lor (Z.lor (Z.lor (Z.lor (Z.lor (Z.lor (nth 7 p 0)
      (Z.shiftl (nth 6 p 0) 8)) (Z.shiftl (nth 5 p 0) 16)) (Z.shiftl (nth 4 p 0) 24))
      (Z.shiftl (nth 3 p 0) 32)) (Z.shiftl (nth 2 p 0) 40)) (Z.shiftl (nth 1 p 0) 48))
      (Z.shiftl (nth 0 p 0) 56)
  else if XXH_CPU_LITTLE_ENDIAN c then XXH_swap64 (XXH_read64 c p) else XXH_read64 c p.

Definition XXH_readLE64_align (c : XXH_config) (p : list Z) (align : XXH_alignment) : Z :=
  match align with
  | XXH_unaligned => XXH_readLE64 c p
  | XXH_aligned => if XXH_CPU_LITTLE_ENDIAN c then XXH_read64 c p
                   else XXH_swap64 (XXH_read64 c p)
  end.

(** Storing a word to memory (memcpy from the variable). *)
Definition XXH_store (c : XXH_config) (n : nat) (x : Z) : list Z :=
  if XXH_CPU_LITTLE_ENDIAN c then le_encode n x else rev (le_encode n x).

(** * XXH32 *)
Module XXH32.

Definition PRIME32_1 : Z := 0x9E3779B1.
Definition PRIME32_2 : Z := 0x85EBCA77.
Definition PRIME32_3 : Z := 0xC2B2AE3D.
Definition PRIME32_4 : Z := 0x27D4EB2F.
Definition PRIME32_5 : Z := 0x165667B1.

Definition XXH32_round (acc input : Z) : Z :=
  let acc := u32 (acc + u32 (input * PRIME32_2)) in
  let acc := XXH_rotl32 acc 13 in
  u32 (acc * PRIME32_1).

Definition XXH32_avalanche (h32 : Z) : Z :=
  let h32 := Z.lxor h32 (Z.shiftr h32 15) in
  let h32 := u32 (h32 * PRIME32_2) in
  let h32 := Z.lxor h32 (Z.shiftr h32 13) in
  let h32 := u32 (h32 * PRIME32_3) in
  Z.lxor h32 (Z.shiftr h32 16).

(** The tail loop's state: the hash and the read pointer. *)
Definition PROCESS1 (s : Z * list Z) : Z * list Z :=
  let '(h32, ptr) := s in
  let h32 := u32 (h32 + u32 (nth 0 ptr 0 * PRIME32_5)) in
  (u32 (XXH_rotl32 h32 11 * PRIME32_1), skipn 1 ptr).

Definition PROCESS4 (c : XXH_config) (align : XXH_alignment) (s : Z * list Z) : Z * list Z :=
  let '(h32, ptr) := s in
  let h32 := u32 (h32 + u32 (XXH_readLE32_align c ptr align * PRIME32_3)) in
  (u32 (XXH_rotl32 h32 17 * PRIME32_4), skipn 4 ptr).

(** [while (len >= 4) { PROCESS4; len -= 4; }] and [while (len > 0) { PROCESS1; --len; }];
    the fuel is the value of [len] on entry. *)
Fixpoint reroll4_32 (c : XXH_config) (align : XXH_alignment) (fuel : nat) (len : Z)
    (s : Z * list Z) : Z * (Z * list Z) :=
  match fuel with
  | O => (len, s)
  | S f => if 4 <=? len then reroll4_32 c align f (len - 4) (PROCESS4 c align s) else (len, s)
  end.

Fixpoint reroll1_32 (fuel : nat) (len : Z) (s : Z * list Z) : Z * list Z :=
  match fuel with
  | O => s
  | S f => if 0 <? len then reroll1_32 f (len - 1) (PROCESS1 s) else s
  end.

Definition XXH32_finalize (c : XXH_config) (h32 : Z) (ptr : list Z) (len : Z)
    (align : XXH_alignment) : Z :=
  let P1 := PROCESS1 in
  let P4 := PROCESS4 c align in
  let ret (s : Z * list Z) := XXH32_avalanche (fst s) in
  let s := (h32, ptr) in
  if XXH_REROLL c then
    let len := Z.land len 15 in
    let '(len, s) := reroll4_32 c align (Z.to_nat len) len s in
    let s := reroll1_32 (Z.to_nat len) len s in
    ret s
  else
    let case4 s := ret (P4 s) in
    let case8 s := case4 (P4 s) in
    let case12 s := case8 (P4 s) in
    let case5 s := ret (P1 (P4 s)) in
    let case9 s := case5 (P4 s) in
    let case13 s := case9 (P4 s) in
    let case6 s := ret (P1 (P1 (P4 s))) in
    let case10 s := case6 (P4 s) in
    let case14 s := case10 (P4 s) in
    let case0 s := ret s in
    let case1 s := case0 (P1 s) in
    let case2 s := case1 (P1 s) in
    let case3 s := case2 (P1 s) in
    let case7 s := case3 (P4 s) in
    let case11 s := case7 (P4 s) in
    let case15 s := case11 (P4 s) in
    match Z.land len 15 with
    | 12 => case12 s | 8 => case8 s | 4 => case4 s
    | 13 => case13 s | 9 => case9 s | 5 => case5 s
    | 14 => case14 s | 10 => case10 s | 6 => case6 s
    | 15 => case15 s | 11 => case11 s | 7 => case7 s
    | 3 => case3 s | 2 => case2 s | 1 => case1 s | 0 => case0 s
    | _ => h32
    end.

(** The four lanes32 v1..v4. *)
Definition lanes32 : Type := Z * Z * Z * Z.

Definition init_lanes32 (seed : Z) : lanes32 :=
  (u32 (u32 (seed + PRIME32_1) + PRIME32_2), u32 (seed + PRIME32_2),
   u32 (seed + 0), u32 (seed - PRIME32_1)).

(** One iteration of the stripe32 loop: four rounds, the pointer moving by 4. *)
Definition stripe32 (read : list Z -> Z) (v : lanes32) (p : list Z) : lanes32 :=
  let '(v1, v2, v3, v4) := v in
  let v1 := XXH32_round v1 (read p) in
  let p := skipn 4 p in
  let v2 := XXH32_round v2 (read p) in
  let p := skipn 4 p in
  let v3 := XXH32_round v3 (read p) in
  let p := skipn 4 p in
  let v4 := XXH32_round v4 (read p) in
  (v1, v2, v3, v4).

Definition merge_lanes32 (v : lanes32) : Z :=
  let '(v1, v2, v3, v4) := v in
  u32 (u32 (u32 (XXH_rotl32 v1 1 + XXH_rotl32 v2 7) + XXH_rotl32 v3 12) + XXH_rotl32 v4 18).

Definition XXH32_endian_align (c : XXH_config) (input : list Z) (seed : Z)
    (align : XXH_alignment) : Z :=
  let len := Z.of_nat (length input) in
  let '(h32, input) :=
    if 16 <=? len then
      (* limit = bEnd - 15; input < limit *)
      let '(v, input) := do_while 16 (stripe32 (fun p => XXH_readLE32_align c p align))
                           (length input) (fun left => 15 <? left) (init_lanes32 seed) input in
      (merge_lanes32 v, input)
    else (u32 (seed + PRIME32_5), input) in
  let h32 := u32 (h32 + u32 len) in
  XXH32_finalize c h32 input (Z.land len 15) align.

(** [addr] is the address of the input; [None] is the null pointer, which
    carries no bytes. *)
Definition XXH32 (c : XXH_config) (addr : Z) (input : option (list Z)) (seed : Z) : Z :=
  let input := match input with Some p => p | None => [] end in
  if XXH_FORCE_ALIGN_CHECK c && (Z.land addr 3 =? 0)
  then XXH32_endian_align c input seed XXH_aligned
  else XXH32_endian_align c input seed XXH_unaligned.

Record XXH32_state := mkState32 {
  total_len_32 : Z;
  large_len : Z;
  vs32 : lanes32;             (* v1, v2, v3, v4 *)
  mem32 : list Z;         (* the 16 bytes of mem32[4] *)
  memsize32 : Z;
  reserved : Z
}.

Definition XXH32_copyState (dst src : XXH32_state) : XXH32_state := src.

Definition XXH32_reset (statePtr : XXH32_state) (seed : Z) : XXH_errorcode * XXH32_state :=
  (XXH_OK, mkState32 0 0 (init_lanes32 seed) (repeat 0 16) 0 (reserved statePtr)).

Definition XXH32_update (c : XXH_config) (state : XXH32_state) (input : option (list Z))
    : XXH_errorcode * XXH32_state :=
  match input with
  | None => (if XXH_ACCEPT_NULL_INPUT_POINTER c then XXH_OK else XXH_ERROR, state)
  | Some p =>
    let len := Z.of_nat (length p) in
    let total := u32 (total_len_32 state + u32 len) in
    let large := Z.lor (large_len state) (if (16 <=? len) || (16 <=? total) then 1 else 0) in
    if u64 (memsize32 state + len) <? 16 then
      (XXH_OK, mkState32 total large (vs32 state)
         (memcpy (mem32 state) (Z.to_nat (memsize32 state)) p (length p))
         (u32 (memsize32 state + u32 len)) (reserved state))
    else
      let '(v, mem, msize, p) :=
        if negb (memsize32 state =? 0) then
          let fill := Z.to_nat (16 - memsize32 state) in
          let mem := memcpy (mem32 state) (Z.to_nat (memsize32 state)) p fill in
          (stripe32 (XXH_readLE32 c) (vs32 state) mem, mem, 0, skipn fill p)
        else (vs32 state, mem32 state, memsize32 state, p) in
      let '(v, p) :=
        if 16 <=? Z.of_nat (length p) then
          (* limit = bEnd - 16; p <= limit *)
          do_while 16 (stripe32 (XXH_readLE32 c)) (length p) (fun left => 16 <=? left) v p
        else (v, p) in
      let '(mem, msize) :=
        if 0 <? Z.of_nat (length p) then
          (memcpy mem 0 p (length p), u32 (Z.of_nat (length p)))
        else (mem, msize) in
      (XXH_OK, mkState32 total large v mem msize (reserved state))
  end.

Definition XXH32_digest (c : XXH_config) (state : XXH32_state) : Z :=
  let h32 :=
    if negb (large_len state =? 0) then merge_lanes32 (vs32 state)
    else let '(_, _, v3, _) := vs32 state in u32 (v3 + PRIME32_5) in
  let h32 := u32 (h32 + total_len_32 state) in
  XXH32_finalize c h32 (mem32 state) (memsize32 state) XXH_aligned.

Definition XXH32_canonicalFromHash (c : XXH_config) (hash : Z) : list Z :=
  let hash := if XXH_CPU_LITTLE_ENDIAN c then XXH_swap32 hash else hash in
  XXH_store c 4 hash.

Definition XXH32_hashFromCanonical (c : XXH_config) (src : list Z) : Z :=
  XXH_readBE32 c src.

End XXH32.

(** * XXH64 *)
Module XXH64.

Definition PRIME64_1 : Z := 0x9E3779B185EBCA87.
Definition PRIME64_2 : Z := 0xC2B2AE3D27D4EB4F.
Definition PRIME64_3 : Z := 0x165667B19E3779F9.
Definition PRIME64_4 : Z := 0x85EBCA77C2B2AE63.
Definition PRIME64_5 : Z := 0x27D4EB2F165667C5.

Definition XXH64_round (acc input : Z) : Z :=
  let acc := u64 (acc + u64 (input * PRIME64_2)) in
  let acc := XXH_rotl64 acc 31 in
  u64 (acc * PRIME64_1).

Definition XXH64_mergeRound (acc val : Z) : Z :=
  let val := XXH64_round 0 val in
  let acc := Z.lxor acc val in
  u64 (u64 (acc * PRIME64_1) + PRIME64_4).

Definition XXH64_avalanche (h64 : Z) : Z :=
  let h64 := Z.lxor h64 (Z.shiftr h64 33) in
  let h64 := u64 (h64 * PRIME64_2) in
  let h64 := Z.lxor h64 (Z.shiftr h64 29) in
  let h64 := u64 (h64 * PRIME64_3) in
  Z.lxor h64 (Z.shiftr h64 32).

Definition PROCESS1_64 (s : Z * list Z) : Z * list Z :=
  let '(h64, ptr) := s in
  let h64 := Z.lxor h64 (u64 (nth 0 ptr 0 * PRIME64_5)) in
  (u64 (XXH_rotl64 h64 11 * PRIME64_1), skipn 1 ptr).

Definition PROCESS4_64 (c : XXH_config) (align : XXH_alignment) (s : Z * list Z) : Z * list Z :=
  let '(h64, ptr) := s in
  let h64 := Z.lxor h64 (u64 (XXH_readLE32_align c ptr align * PRIME64_1)) in
  (u64 (u64 (XXH_rotl64 h64 23 * PRIME64_2) + PRIME64_3), skipn 4 ptr).

Definition PROCESS8_64 (c : XXH_config) (align : XXH_alignment) (s : Z * list Z) : Z * list Z :=
  let '(h64, ptr) := s in
  let k1 := XXH64_round 0 (XXH_readLE64_align c ptr align) in
  let h64 := Z.lxor h64 k1 in
  (u64 (u64 (XXH_rotl64 h64 27 * PRIME64_1) + PRIME64_4), skipn 8 ptr).

(** [while (len >= 8) { PROCESS8; len -= 8; }] and [while (len > 0) { PROCESS1; --len; }]. *)
Fixpoint reroll8_64 (c : XXH_config) (align : XXH_alignment) (fuel : nat) (len : Z)
    (s : Z * list Z) : Z * (Z * list Z) :=
  match fuel with
  | O => (len, s)
  | S f => if 8 <=? len then reroll8_64 c align f (len - 8) (PROCESS8_64 c align s) else (len, s)
  end.

Fixpoint reroll1_64 (fuel : nat) (len : Z) (s : Z * list Z) : Z * list Z :=
  match fuel with
  | O => s
  | S f => if 0 <? len then reroll1_64 f (len - 1) (PROCESS1_64 s) else s
  end.

Definition XXH64_finalize (c : XXH_config) (h64 : Z) (ptr : list Z) (len : Z)
    (align : XXH_alignment) : Z :=
  let P1 := PROCESS1_64 in
  let P4 := PROCESS4_64 c align in
  let P8 := PROCESS8_64 c align in
  let ret (s : Z * list Z) := XXH64_avalanche (fst s) in
  let s := (h64, ptr) in
  if XXH_REROLL c || XXH_REROLL_XXH64 c then
    let len := Z.land len 31 in
    let '(len, s) := reroll8_64 c align (Z.to_nat len) len s in
    let '(len, s) := if 4 <=? len then (len - 4, P4 s) else (len, s) in
    ret (reroll1_64 (Z.to_nat len) len s)
  else
    let case8 s := ret (P8 s) in
    let case16 s := case8 (P8 s) in
    let case24 s := case16 (P8 s) in
    let case4 s := ret (P4 s) in
    let case12 s := case4 (P8 s) in
    let case20 s := case12 (P8 s) in
    let case28 s := case20 (P8 s) in
    let case9 s := ret (P1 (P8 s)) in
    let case17 s := case9 (P8 s) in
    let case25 s := case17 (P8 s) in
    let case5 s := ret (P1 (P4 s)) in
    let case13 s := case5 (P8 s) in
    let case21 s := case13 (P8 s) in
    let case29 s := case21 (P8 s) in
    let case10 s := ret (P1 (P1 (P8 s))) in
    let case18 s := case10 (P8 s) in
    let case26 s := case18 (P8 s) in
    let case6 s := ret (P1 (P1 (P4 s))) in
    let case14 s := case6 (P8 s) in
    let case22 s := case14 (P8 s) in
    let case30 s := case22 (P8 s) in
    let case11 s := ret (P1 (P1 (P1 (P8 s)))) in
    let case19 s := case11 (P8 s) in
    let case27 s := case19 (P8 s) in
    let case0 s := ret s in
    let case1 s := case0 (P1 s) in
    let case2 s := case1 (P1 s) in
    let case3 s := case2 (P1 s) in
    let case7 s := case3 (P4 s) in
    let case15 s := case7 (P8 s) in
    let case23 s := case15 (P8 s) in
    let case31 s := case23 (P8 s) in
    match Z.land len 31 with
    | 24 => case24 s | 16 => case16 s | 8 => case8 s
    | 28 => case28 s | 20 => case20 s | 12 => case12 s | 4 => case4 s
    | 25 => case25 s | 17 => case17 s | 9 => case9 s
    | 29 => case29 s | 21 => case21 s | 13 => case13 s | 5 => case5 s
    | 26 => case26 s | 18 => case18 s | 10 => case10 s
    | 30 => case30 s | 22 => case22 s | 14 => case14 s | 6 => case6 s
    | 27 => case27 s | 19 => case19 s | 11 => case11 s
    | 31 => case31 s | 23 => case23 s | 15 => case15 s | 7 => case7 s
    | 3 => case3 s | 2 => case2 s | 1 => case1 s | 0 => case0 s
    | _ => 0
    end.

Definition lanes64 : Type := Z * Z * Z * Z.

Definition init_lanes64 (seed : Z) : lanes64 :=
  (u64 (u64 (seed + PRIME64_1) + PRIME64_2), u64 (seed + PRIME64_2),
   u64 (seed + 0), u64 (seed - PRIME64_1)).

Definition stripe64 (read : list Z -> Z) (v : lanes64) (p : list Z) : lanes64 :=
  let '(v1, v2, v3, v4) := v in
  let v1 := XXH64_round v1 (read p) in
  let p := skipn 8 p in
  let v2 := XXH64_round v2 (read p) in
  let p := skipn 8 p in
  let v3 := XXH64_round v3 (read p) in
  let p := skipn 8 p in
  let v4 := XXH64_round v4 (read p) in
  (v1, v2, v3, v4).

Definition merge_lanes64 (v : lanes64) : Z :=
  let '(v1, v2, v3, v4) := v in
  let h64 := u64 (u64 (u64 (XXH_rotl64 v1 1 + XXH_rotl64 v2 7) + XXH_rotl64 v3 12)
                  + XXH_rotl64 v4 18) in
  let h64 := XXH64_mergeRound h64 v1 in
  let h64 := XXH64_mergeRound h64 v2 in
  let h64 := XXH64_mergeRound h64 v3 in
  XXH64_mergeRound h64 v4.

Definition XXH64_endian_align (c : XXH_config) (input : list Z) (seed : Z)
    (align : XXH_alignment) : Z :=
  let len := Z.of_nat (length input) in
  let '(h64, input) :=
    if 32 <=? len then
      (* limit = bEnd - 32; input <= limit *)
      let '(v, input) := do_while 32 (stripe64 (fun p => XXH_readLE64_align c p align))
                           (length input) (fun left => 32 <=? left) (init_lanes64 seed) input in
      (merge_lanes64 v, input)
    else (u64 (seed + PRIME64_5), input) in
  let h64 := u64 (h64 + u64 len) in
  XXH64_finalize c h64 input len align.

Definition XXH64 (c : XXH_config) (addr : Z) (input : option (list Z)) (seed : Z) : Z :=
  let input := match input with Some p => p | None => [] end in
  if XXH_FORCE_ALIGN_CHECK c && (Z.land addr 7 =? 0)
  then XXH64_endian_align c input seed XXH_aligned
  else XXH64_endian_align c input seed XXH_unaligned.

Record XXH64_state := mkState64 {
  total_len : Z;
  vs64 : lanes64;             (* v1, v2, v3, v4 *)
  mem64 : list Z;         (* the 32 bytes of mem64[4] *)
  memsize64 : Z;
  reserved32 : Z;
  reserved64 : Z
}.

Definition XXH64_copyState (dst src : XXH64_state) : XXH64_state := src.

Definition XXH64_reset (statePtr : XXH64_state) (seed : Z) : XXH_errorcode * XXH64_state :=
  (XXH_OK, mkState64 0 (init_lanes64 seed) (repeat 0 32) 0 0 (reserved64 statePtr)).

Definition XXH64_update (c : XXH_config) (state : XXH64_state) (input : option (list Z))
    : XXH_errorcode * XXH64_state :=
  match input with
  | None => (if XXH_ACCEPT_NULL_INPUT_POINTER c then XXH_OK else XXH_ERROR, state)
  | Some p =>
    let len := Z.of_nat (length p) in
    let total := u64 (total_len state + len) in
    if u64 (memsize64 state + len) <? 32 then
      (XXH_OK, mkState64 total (vs64 state)
         (memcpy (mem64 state) (Z.to_nat (memsize64 state)) p (length p))
         (u32 (memsize64 state + u32 len)) (reserved32 state) (reserved64 state))
    else
      let '(v, mem, msize, p) :=
        if negb (memsize64 state =? 0) then
          let fill := Z.to_nat (32 - memsize64 state) in
          let mem := memcpy (mem64 state) (Z.to_nat (memsize64 state)) p fill in
          (stripe64 (XXH_readLE64 c) (vs64 state) mem, mem, 0, skipn fill p)
        else (vs64 state, mem64 state, memsize64 state, p) in
      let '(v, p) :=
        if 32 <=? Z.of_nat (length p) then
          (* p + 32 <= bEnd; limit = bEnd - 32; p <= limit *)
          do_while 32 (stripe64 (XXH_readLE64 c)) (length p) (fun left => 32 <=? left) v p
        else (v, p) in
      let '(mem, msize) :=
        if 0 <? Z.of_nat (length p) then
          (memcpy mem 0 p (length p), u32 (Z.of_nat (length p)))
        else (mem, msize) in
      (XXH_OK, mkState64 total v mem msize (reserved32 state) (reserved64 state))
  end.

Definition XXH64_digest (c : XXH_config) (state : XXH64_state) : Z :=
  let h64 :=
    if 32 <=? total_len state then merge_lanes64 (vs64 state)
    else let '(_, _, v3, _) := vs64 state in u64 (v3 + PRIME64_5) in
  let h64 := u64 (h64 + total_len state) in
  XXH64_finalize c h64 (mem64 state) (total_len state) XXH_aligned.

Definition XXH64_canonicalFromHash (c : XXH_config) (hash : Z) : list Z :=
  let hash := if XXH_CPU_LITTLE_ENDIAN c then XXH_swap64 hash else hash in
  XXH_store c 8 hash.

Definition XXH64_hashFromCanonical (c : XXH_config) (src : list Z) : Z :=
  XXH_readBE64 c src.

End XXH64.
