(* ===== verification/XXHashProofs.v ===== *)
(** Proofs about XXH32 and XXH64: every build variant computes one reference
    function, streaming in any chunks equals one-shot hashing, and the
    canonical form round-trips. *)

From Stdlib Require Import ZArith List Lia Bool.
Import ListNotations.
From S2P Require Import Prelude Stripes XXHash.
#[local] Open Scope Z_scope.

(** * Word access *)

(** A byte field of a word, as masks and shifts extract it. *)
Lemma land_byte x k : 0 <= k -> Z.land x (255 * 2 ^ k) = (x / 2 ^ k) mod 256 * 2 ^ k.
Proof.
  intros. change 255 with (Z.ones 8). rewrite <- Z.shiftl_mul_pow2 by lia.
  change 256 with (2 ^ 8). apply land_field; lia.
Qed.

Lemma byte_shl w x s k : 0 <= s <= k -> k + 8 <= w ->
  (wrap w (Z.shiftl x s) / 2 ^ k) mod 256 = (x / 2 ^ (k - s)) mod 256.
Proof.
  intros. unfold wrap. change 256 with (2 ^ 8).
  rewrite <- !Z.shiftr_div_pow2 by lia. apply Z.bits_inj'. intros i Hi.
  destruct (Z.ltb_spec i 8).
  - rewrite !Z.mod_pow2_bits_low, !Z.shiftr_spec by lia.
    rewrite Z.mod_pow2_bits_low, Z.shiftl_spec by lia. f_equal. lia.
  - rewrite !Z.mod_pow2_bits_high by lia. reflexivity.
Qed.

Lemma byte_shr x s k : 0 <= s -> 0 <= k ->
  (Z.shiftr x s / 2 ^ k) mod 256 = (x / 2 ^ (s + k)) mod 256.
Proof.
  intros. rewrite Z.shiftr_div_pow2, Z.pow_add_r, Z.div_div by lia. reflexivity.
Qed.

Lemma le_decode_byte l i : bytes_ok l ->
  (le_decode l / 2 ^ (8 * Z.of_nat i)) mod 256 = nth i l 0.
Proof.
  intros H; revert i; induction H as [|b r Hb Hr IH]; intros i.
  - destruct i; cbn [le_decode nth]; rewrite Z.div_0_l; reflexivity || (apply Z.pow_nonzero; lia).
  - unfold is_byte in Hb. destruct i as [|i]; cbn [le_decode nth].
    + rewrite Z.mul_0_r, Z.div_1_r, (Z.mul_comm 256), Z.mod_add, Z.mod_small; lia.
    + rewrite <- IH. replace (8 * Z.of_nat (S i)) with (8 + 8 * Z.of_nat i) by lia.
      rewrite Z.pow_add_r, <- Z.div_div by lia. change (2 ^ 8) with 256.
      rewrite (Z.mul_comm 256), Z.div_add, (Z.div_small b), Z.add_0_l by lia. reflexivity.
Qed.

(** Reassemble bytes that were moved to disjoint fields. *)
Lemma lor_horner q b t k : t = k + 8 -> 0 <= k -> is_byte b ->
  Z.lor (q * 2 ^ t) (b * 2 ^ k) = (q * 256 + b) * 2 ^ k.
Proof.
  unfold is_byte. intros -> Hk Hb. assert (0 < 2 ^ k) by (apply Z.pow_pos_nonneg; lia).
  rewrite lor_disjoint by (try lia; rewrite Z.pow_add_r by lia; nia).
  rewrite Z.pow_add_r by lia. ring.
Qed.

Ltac join_fields := rewrite !lor_horner by (unfold is_byte; lia).

Lemma swap32_bytes l : bytes_ok l -> length l = 4%nat ->
  XXH_swap32 (le_decode l) = le_decode (rev l).
Proof.
  intros H L. unfold XXH_swap32.
  change 0x000000ff with (255 * 2 ^ 0). change 0x0000ff00 with (255 * 2 ^ 8).
  change 0x00ff0000 with (255 * 2 ^ 16). change 0xff000000 with (255 * 2 ^ 24).
  rewrite !land_byte, 2!byte_shl, 2!byte_shr by lia.
  pose proof (le_decode_byte l 0 H) as E0. pose proof (le_decode_byte l 1 H) as E1.
  pose proof (le_decode_byte l 2 H) as E2. pose proof (le_decode_byte l 3 H) as E3.
  cbn - [Z.pow le_decode nth] in *. rewrite E0, E1, E2, E3. clear E0 E1 E2 E3.
  destruct l as [|b0 [|b1 [|b2 [|b3 [|]]]]]; try discriminate L.
  unfold bytes_ok, is_byte in H. rewrite !Forall_cons_iff in H.
  cbn [nth rev app le_decode]. join_fields. lia.
Qed.

Lemma swap64_bytes l : bytes_ok l -> length l = 8%nat ->
  XXH_swap64 (le_decode l) = le_decode (rev l).
Proof.
  intros H L. unfold XXH_swap64.
  change 0x00000000000000ff with (255 * 2 ^ 0). change 0x000000000000ff00 with (255 * 2 ^ 8).
  change 0x0000000000ff0000 with (255 * 2 ^ 16). change 0x00000000ff000000 with (255 * 2 ^ 24).
  change 0x000000ff00000000 with (255 * 2 ^ 32). change 0x0000ff0000000000 with (255 * 2 ^ 40).
  change 0x00ff000000000000 with (255 * 2 ^ 48). change 0xff00000000000000 with (255 * 2 ^ 56).
  rewrite !land_byte, 4!byte_shl, 4!byte_shr by lia.
  pose proof (fun i => le_decode_byte l i H) as E.
  pose proof (E 0%nat) as E0; pose proof (E 1%nat) as E1; pose proof (E 2%nat) as E2;
  pose proof (E 3%nat) as E3; pose proof (E 4%nat) as E4; pose proof (E 5%nat) as E5;
  pose proof (E 6%nat) as E6; pose proof (E 7%nat) as E7. clear E.
  cbn - [Z.pow le_decode nth] in *. rewrite E0, E1, E2, E3, E4, E5, E6, E7.
  clear E0 E1 E2 E3 E4 E5 E6 E7.
  destruct l as [|b0 [|b1 [|b2 [|b3 [|b4 [|b5 [|b6 [|b7 [|]]]]]]]]]; try discriminate L.
  unfold bytes_ok, is_byte in H. rewrite !Forall_cons_iff in H.
  cbn [nth rev app le_decode]. join_fields. lia.
Qed.

Lemma lor_acc lo b k : 0 <= k -> 0 <= lo < 2 ^ k -> Z.lor lo (Z.shiftl b k) = lo + b * 2 ^ k.
Proof.
  intros. rewrite Z.shiftl_mul_pow2 by lia. rewrite lor_disjoint_r by assumption. ring.
Qed.

(** Every variant of the 4-byte and 8-byte readers is the byte string's
    little-endian value. *)
Lemma readLE32_spec c p : bytes_ok p -> (4 <= length p)%nat ->
  XXH_readLE32 c p = le_decode (firstn 4 p).
Proof.
  intros H L. unfold XXH_readLE32, XXH_read32.
  assert (Hf : bytes_ok (firstn 4 p)) by auto with bytesdb.
  destruct (XXH_FORCE_MEMORY_ACCESS_3 c), (XXH_CPU_LITTLE_ENDIAN c); try reflexivity.
  3: rewrite swap32_bytes, rev_involutive; auto;
     [apply Forall_rev, Hf | rewrite length_rev, length_firstn; lia].
  all: destruct p as [|b0 [|b1 [|b2 [|b3 p]]]]; cbn [length] in L; try lia;
    unfold bytes_ok, is_byte in Hf; cbn [firstn] in Hf; rewrite !Forall_cons_iff in Hf;
    cbn [nth firstn le_decode];
    rewrite (lor_acc b0 b1 8), (lor_acc _ b2 16), (lor_acc _ b3 24) by lia; lia.
Qed.

Lemma readBE32_spec c p : bytes_ok p -> (4 <= length p)%nat ->
  XXH_readBE32 c p = le_decode (rev (firstn 4 p)).
Proof.
  intros H L. unfold XXH_readBE32, XXH_read32.
  assert (Hf : bytes_ok (firstn 4 p)) by auto with bytesdb.
  destruct (XXH_FORCE_MEMORY_ACCESS_3 c), (XXH_CPU_LITTLE_ENDIAN c); try reflexivity.
  3: apply swap32_bytes; [exact Hf | rewrite length_firstn; lia].
  all: destruct p as [|b0 [|b1 [|b2 [|b3 p]]]]; cbn [length] in L; try lia;
    unfold bytes_ok, is_byte in Hf; cbn [firstn] in Hf; rewrite !Forall_cons_iff in Hf;
    cbn [nth firstn le_decode rev app];
    rewrite (lor_acc b3 b2 8), (lor_acc _ b1 16), (lor_acc _ b0 24) by lia; lia.
Qed.

Lemma readLE64_spec c p : bytes_ok p -> (8 <= length p)%nat ->
  XXH_readLE64 c p = le_decode (firstn 8 p).
Proof.
  intros H L. unfold XXH_readLE64, XXH_read64.
  assert (Hf : bytes_ok (firstn 8 p)) by auto with bytesdb.
  destruct (XXH_FORCE_MEMORY_ACCESS_3 c), (XXH_CPU_LITTLE_ENDIAN c); try reflexivity.
  3: rewrite swap64_bytes, rev_involutive; auto;
     [apply Forall_rev, Hf | rewrite length_rev, length_firstn; lia].
  all: destruct p as [|b0 [|b1 [|b2 [|b3 [|b4 [|b5 [|b6 [|b7 p]]]]]]]]; cbn [length] in L; try lia;
    unfold bytes_ok, is_byte in Hf; cbn [firstn] in Hf; rewrite !Forall_cons_iff in Hf;
    cbn [nth firstn le_decode];
    rewrite (lor_acc b0 b1 8), (lor_acc _ b2 16), (lor_acc _ b3 24), (lor_acc _ b4 32),
      (lor_acc _ b5 40), (lor_acc _ b6 48), (lor_acc _ b7 56) by lia; lia.
Qed.

Lemma readBE64_spec c p : bytes_ok p -> (8 <= length p)%nat ->
  XXH_readBE64 c p = le_decode (rev (firstn 8 p)).
Proof.
  intros H L. unfold XXH_readBE64, XXH_read64.
  assert (Hf : bytes_ok (firstn 8 p)) by auto with bytesdb.
  destruct (XXH_FORCE_MEMORY_ACCESS_3 c), (XXH_CPU_LITTLE_ENDIAN c); try reflexivity.
  3: apply swap64_bytes; [exact Hf | rewrite length_firstn; lia].
  all: destruct p as [|b0 [|b1 [|b2 [|b3 [|b4 [|b5 [|b6 [|b7 p]]]]]]]]; cbn [length] in L; try lia;
    unfold bytes_ok, is_byte in Hf; cbn [firstn] in Hf; rewrite !Forall_cons_iff in Hf;
    cbn [nth firstn le_decode rev app];
    rewrite (lor_acc b7 b6 8), (lor_acc _ b5 16), (lor_acc _ b4 24), (lor_acc _ b3 32),
      (lor_acc _ b2 40), (lor_acc _ b1 48), (lor_acc _ b0 56) by lia; lia.
Qed.

Lemma readLE32_align_spec c p al : bytes_ok p -> (4 <= length p)%nat ->
  XXH_readLE32_align c p al = le_decode (firstn 4 p).
Proof.
  intros H L. destruct al; cbn [XXH_readLE32_align]; [|now apply readLE32_spec].
  rewrite <- (readLE32_spec (Build_XXH_config (XXH_CPU_LITTLE_ENDIAN c) false false false false false) p)
    by assumption.
  reflexivity.
Qed.

Lemma readLE64_align_spec c p al : bytes_ok p -> (8 <= length p)%nat ->
  XXH_readLE64_align c p al = le_decode (firstn 8 p).
Proof.
  intros H L. destruct al; cbn [XXH_readLE64_align]; [|now apply readLE64_spec].
  rewrite <- (readLE64_spec (Build_XXH_config (XXH_CPU_LITTLE_ENDIAN c) false false false false false) p)
    by assumption.
  reflexivity.
Qed.

(** Evaluate the closed loop bounds left by case analysis on the length. *)
Ltac eval_to_nat :=
  repeat match goal with
  | |- context [PosDef.Pos.to_nat ?p] =>
      let v := eval compute in (PosDef.Pos.to_nat p) in change (PosDef.Pos.to_nat p) with v
  end.

(** Every chunk of a bounded input is bounded. *)
Lemma chunk_lengths (chunks : list (list Z)) b : Z.of_nat (length (concat chunks)) < b ->
  Forall (fun p => Z.of_nat (length p) < b) chunks.
Proof.
  induction chunks as [|p r IH]; [constructor|]. cbn [concat]. rewrite length_app. intros H.
  constructor; [lia|apply IH; lia].
Qed.

(** * XXH32 *)
Module XXH32Proofs.
Import XXH32.

(** ** The tail of XXH32 *)

Definition mix1_32 (h b : Z) : Z :=
  u32 (XXH_rotl32 (u32 (h + u32 (b * PRIME32_5))) 11 * PRIME32_1).
Definition mix4_32 (h k : Z) : Z :=
  u32 (XXH_rotl32 (u32 (h + u32 (k * PRIME32_3))) 17 * PRIME32_4).

(** Reference: words first, then single bytes. *)
Fixpoint tail32 (h : Z) (p : list Z) : Z :=
  match p with
  | [] => h
  | a :: ((b :: c :: d :: r) as _) => tail32 (mix4_32 h (le_decode [a; b; c; d])) r
  | a :: r => tail32 (mix1_32 h a) r
  end.

Lemma process4_at32 c al ptr h k : bytes_ok ptr -> (k + 4 <= length ptr)%nat ->
  PROCESS4 c al (h, skipn k ptr) = (mix4_32 h (le_decode (firstn 4 (skipn k ptr))), skipn (4 + k) ptr).
Proof.
  intros H L. unfold PROCESS4. rewrite readLE32_align_spec, skipn_skipn
    by (try rewrite length_skipn; auto with bytesdb; lia).
  reflexivity.
Qed.

Lemma process1_at32 ptr h k :
  PROCESS1 (h, skipn k ptr) = (mix1_32 h (nth 0 (skipn k ptr) 0), skipn (1 + k) ptr).
Proof. unfold PROCESS1. now rewrite skipn_skipn. Qed.

(** Both the rolled loops and the unrolled switch compute the reference tail. *)
Lemma finalize_spec32 c h ptr len al : bytes_ok ptr ->
  (Z.to_nat (Z.land len 15) <= length ptr)%nat ->
  XXH32_finalize c h ptr len al
  = XXH32_avalanche (tail32 h (firstn (Z.to_nat (Z.land len 15)) ptr)).
Proof.
  intros H L. unfold XXH32_finalize.
  assert (B : 0 <= Z.land len 15 < 16).
  { change 15 with (Z.ones 4). rewrite Z.land_ones by lia. apply Z.mod_pos_bound; lia. }
  remember (Z.land len 15) as m eqn:Em. clear Em.
  rewrite <- (Z2Nat.id m) in B |- * by lia. rewrite Nat2Z.id.
  remember (Z.to_nat m) as n. clear Heqn m.
  change (h, ptr) with (h, skipn 0 ptr).
  do 16 (destruct n as [|n]; [
    rewrite ?Nat2Z.id; destruct (XXH_REROLL c);
    cbn -[PROCESS1 PROCESS4 XXH32_avalanche mix1_32 mix4_32 le_decode skipn tail32 firstn];
    eval_to_nat; cbn -[PROCESS1 PROCESS4 XXH32_avalanche mix1_32 mix4_32 le_decode skipn tail32 firstn];
    repeat (rewrite process4_at32 by (auto; lia)); rewrite ?process1_at32;
    cbn [fst]; f_equal; clear -L;
    repeat (destruct ptr as [|? ptr]; cbn [length] in L; [lia|apply le_S_n in L]);
    cbn [nth skipn firstn Nat.add tail32]; reflexivity|]).
  lia.
Qed.

(** ** Streaming and one-shot XXH32 against one reference *)

Definition stripe_ref32 : lanes32 -> list Z -> lanes32 := stripe32 (fun p => le_decode (firstn 4 p)).

Lemma stripe_ext32 rd v b : bytes_ok b -> (16 <= length b)%nat ->
  (forall p, bytes_ok p -> (4 <= length p)%nat -> rd p = le_decode (firstn 4 p)) ->
  stripe32 rd v b = stripe_ref32 v b.
Proof.
  intros Hb Lb E. destruct v as [[[v1 v2] v3] v4]. unfold stripe_ref32, stripe32.
  rewrite !skipn_skipn, !E by (rewrite ?length_skipn; auto with bytesdb; lia). reflexivity.
Qed.

Definition hash32 (seed : Z) (data : list Z) : Z :=
  let '(v, rest) := absorb 16 stripe_ref32 (init_lanes32 seed) data in
  let len := Z.of_nat (length data) in
  let h := if 16 <=? len then merge_lanes32 v else u32 (seed + PRIME32_5) in
  XXH32_avalanche (tail32 (u32 (h + u32 len)) rest).

Lemma loop_absorb32 rd more v p : bytes_ok p -> (16 <= length p)%nat ->
  (forall q, bytes_ok q -> (4 <= length q)%nat -> rd q = le_decode (firstn 4 q)) ->
  (forall n, more (Z.of_nat n) = (16 <=? n)%nat) ->
  do_while 16 (stripe32 rd) (length p) more v p = absorb 16 stripe_ref32 v p.
Proof.
  intros Hp Lp Hrd Hm. rewrite do_while_absorb by (auto; lia).
  apply absorb_ext; auto; [lia|]. intros. apply stripe_ext32; auto; lia.
Qed.

Lemma land_15 n : Z.land (Z.of_nat n) 15 = Z.of_nat (n mod 16).
Proof. change 15 with (Z.ones 4). rewrite Z.land_ones, Nat2Z.inj_mod by lia. reflexivity. Qed.

Lemma XXH32_spec c addr p seed : bytes_ok p -> XXH32 c addr (Some p) seed = hash32 seed p.
Proof.
  intros Hp. unfold XXH32.
  enough (G : forall al, XXH32_endian_align c p seed al = hash32 seed p) by (rewrite !G; dmatch; reflexivity).
  intros al. unfold XXH32_endian_align, hash32.
  pose proof (absorb_rest_mod 16 stripe_ref32 ltac:(lia) (init_lanes32 seed) p) as Hr.
  pose proof (absorb_rest_bytes 16 stripe_ref32 ltac:(lia) (init_lanes32 seed) p Hp) as Hb.
  destruct (Z.leb_spec 16 (Z.of_nat (length p))) as [L|L].
  - rewrite loop_absorb32; auto; [|lia|intros; now apply readLE32_align_spec|
      intros n; destruct (Z.ltb_spec 15 (Z.of_nat n)), (Nat.leb_spec 16 n); trivial; lia].
    destruct (absorb _ _ _ p) as [v rest]. cbn [snd] in *.
    rewrite land_15. rewrite finalize_spec32; rewrite ?land_15, ?Nat.Div0.mod_mod, ?Nat2Z.id; trivial; [|lia].
    rewrite firstn_all2 by lia. reflexivity.
  - rewrite absorb_short in * by lia. cbn [snd] in *.
    rewrite land_15. rewrite finalize_spec32; rewrite ?land_15, ?Nat.Div0.mod_mod, ?Nat2Z.id; trivial; [|lia].
    rewrite firstn_all2 by lia. reflexivity.
Qed.

(** The state after feeding [data]. *)
Record streaming32 (seed : Z) (data : list Z) (st : XXH32_state) : Prop := {
  st_total32 : total_len_32 st = u32 (Z.of_nat (length data));
  st_large32 : large_len st = if 16 <=? Z.of_nat (length data) then 1 else 0;
  st_buf32 : buffered 16 stripe_ref32 (init_lanes32 seed) data (vs32 st) (mem32 st) (memsize32 st)
}.

Lemma reset_streaming32 seed st : streaming32 seed [] (snd (XXH32_reset st seed)).
Proof.
  constructor; try reflexivity. constructor; try reflexivity. apply bytes_ok_forallb. reflexivity.
Qed.

Lemma digest_spec32 c seed data st : streaming32 seed data st -> XXH32_digest c st = hash32 seed data.
Proof.
  intros [Ht Hl [Hv Hm Hb Hs Hr]]. unfold XXH32_digest, hash32.
  pose proof (absorb_rest 16 stripe_ref32 ltac:(lia) (init_lanes32 seed) data) as Hlt.
  rewrite finalize_spec32; rewrite ?Hs, ?land_15, ?Nat2Z.id; trivial.
  2: rewrite Nat.mod_small; lia.
  rewrite Nat.mod_small by assumption. rewrite Hs, Nat2Z.id in Hr. rewrite Hr, Hl, Hv, Ht.
  destruct (Z.leb_spec 16 (Z.of_nat (length data))) as [L|L].
  - destruct (absorb _ _ _ data) as [v rest]. reflexivity.
  - rewrite absorb_short by lia. cbn [fst snd init_lanes32 Z.eqb negb].
    rewrite Z.add_0_r, (wrap_add_l 32 seed). reflexivity.
Qed.

(** The update is the shared buffered update plus the length bookkeeping. *)
Lemma update_buf32 c st p :
  XXH32_update c st (Some p) =
  let total := u32 (total_len_32 st + u32 (Z.of_nat (length p))) in
  let large := Z.lor (large_len st)
                 (if (16 <=? Z.of_nat (length p)) || (16 <=? total) then 1 else 0) in
  let '(v, mem, msize) :=
    buf_update 16 (stripe32 (XXH_readLE32 c)) (vs32 st) (mem32 st) (memsize32 st) p in
  (XXH_OK, mkState32 total large v mem msize (reserved st)).
Proof.
  unfold XXH32_update, buf_update. cbv zeta.
  change (Z.of_nat 16) with 16.
  repeat match goal with
  | |- context [if ?b then _ else _] => destruct b
  | |- context [let '(_, _) := ?x in _] => destruct x
  end; reflexivity.
Qed.

Lemma update_streaming32 c seed data st p : streaming32 seed data st -> bytes_ok p ->
  Z.of_nat (length p) < 2 ^ 63 ->
  fst (XXH32_update c st (Some p)) = XXH_OK /\
  streaming32 seed (data ++ p) (snd (XXH32_update c st (Some p))).
Proof.
  intros [Ht Hl Hbuf] Hp Hlen. rewrite update_buf32. cbv zeta.
  pose proof (buf_update_ok 16 (stripe32 (XXH_readLE32 c)) stripe_ref32 ltac:(lia)
    ltac:(intros; apply stripe_ext32; auto; [lia|intros; now apply readLE32_spec])
    _ _ _ _ _ p Hbuf Hp Hlen) as Hb'.
  destruct (buf_update _ _ _ _ _ _) as [[v mem] msize].
  split; [reflexivity|]. constructor; cbn [snd total_len_32 large_len vs32 mem32 memsize32]; trivial.
  - rewrite Ht, length_app, Nat2Z.inj_add. now autorewrite with wrapdb.
  - rewrite Hl, Ht, length_app, Nat2Z.inj_add. autorewrite with wrapdb.
    destruct (Z.leb_spec 16 (Z.of_nat (length data))), (Z.leb_spec 16 (Z.of_nat (length p)));
      cbn [orb Z.lor]; zcases; try reflexivity; try lia.
    all: rewrite wrap_id in * by lia; lia.
Qed.

(** ** Properties *)

(** Feeding any sequence of chunks. *)
Definition feed32 (c : XXH_config) (st : XXH32_state) (chunks : list (list Z)) : XXH32_state :=
  fold_left (fun st p => snd (XXH32_update c st (Some p))) chunks st.

Lemma feed_streaming32 c seed data st chunks :
  streaming32 seed data st -> Forall bytes_ok chunks ->
  Forall (fun p => Z.of_nat (length p) < 2 ^ 63) chunks ->
  streaming32 seed (data ++ concat chunks) (feed32 c st chunks).
Proof.
  intros Hst Hb Hl. revert data st Hst. induction chunks as [|p r IH]; intros data st Hst.
  - cbn. now rewrite app_nil_r.
  - rewrite Forall_cons_iff in Hb, Hl. cbn [concat feed32 fold_left]. rewrite app_assoc.
    apply IH; try tauto. apply update_streaming32; tauto.
Qed.

(** XXH32 streaming32 is one-shot hashing: after [XXH32_reset], feeding the
    input in any chunks with [XXH32_update] and calling [XXH32_digest] returns
    the value [XXH32] returns on the whole input, whatever build configuration
    (endianness, unrolling, alignment checks) each side was compiled with. *)
Theorem XXH32_streaming_correct (c1 c2 : XXH_config) (addr seed : Z) (st : XXH32_state)
    (chunks : list (list Z)) :
  Forall bytes_ok chunks -> Z.of_nat (length (concat chunks)) < 2 ^ 63 ->
  XXH32_digest c1 (feed32 c1 (snd (XXH32_reset st seed)) chunks)
  = XXH32 c2 addr (Some (concat chunks)) seed.
Proof.
  intros Hb Hl. rewrite XXH32_spec by (apply Forall_concat, Hb).
  apply digest_spec32. apply (feed_streaming32 c1 seed [] _ chunks (reset_streaming32 seed st) Hb).
  now apply chunk_lengths.
Qed.

Lemma XXH32_streaming_witness :
  XXH32_digest (Build_XXH_config true false false false false false)
    (feed32 (Build_XXH_config true false false false false false)
       (snd (XXH32_reset (mkState32 0 0 (0, 0, 0, 0) (repeat 0 16) 0 0) 7)) [[1; 2; 3]; repeat 5 40; []; [9]])
  = XXH32 (Build_XXH_config false true true true true true) 4
      (Some (concat [[1; 2; 3]; repeat 5 40; []; [9]])) 7.
Proof.
  apply XXH32_streaming_correct.
  - repeat (constructor; [apply bytes_ok_forallb; reflexivity|]). constructor.
  - reflexivity.
Defined.

(** The canonical (big-endian) form of a 32-bit hash reads back as the hash,
    on both byte orders, and the bytes do not depend on the byte order. *)
Theorem XXH32_canonical_roundtrip (c c' : XXH_config) (h : Z) : 0 <= h < 2 ^ 32 ->
  XXH32_canonicalFromHash c h = rev (le_encode 4 h) /\
  XXH32_hashFromCanonical c' (XXH32_canonicalFromHash c h) = h.
Proof.
  intros Hh. assert (E : XXH32_canonicalFromHash c h = rev (le_encode 4 h)).
  { unfold XXH32_canonicalFromHash, XXH_store. destruct (XXH_CPU_LITTLE_ENDIAN c); [|reflexivity].
    assert (D : h = le_decode (le_encode 4 h)) by (rewrite le_decode_encode, Z.mod_small; trivial).
    rewrite D at 1. rewrite swap32_bytes by (auto with bytesdb).
    rewrite <- (le_encode_decode (rev (le_encode 4 h))) at 2 by apply Forall_rev, le_encode_bytes.
    rewrite length_rev, le_encode_length. reflexivity. }
  split; [exact E|]. unfold XXH32_hashFromCanonical. rewrite E, readBE32_spec.
  - rewrite firstn_all2 by (rewrite length_rev, le_encode_length; lia).
    rewrite rev_involutive, le_decode_encode. now apply Z.mod_small.
  - apply Forall_rev, le_encode_bytes.
  - now rewrite length_rev, le_encode_length.
Qed.

Lemma XXH32_canonical_witness :
  0 <= 0x12345678 < 2 ^ 32 /\
  XXH32_hashFromCanonical (Build_XXH_config true false false false false false)
    (XXH32_canonicalFromHash (Build_XXH_config false false false false false false) 0x12345678) = 0x12345678.
Proof. split; [lia|]. apply XXH32_canonical_roundtrip. lia. Defined.

(** A null input pointer changes nothing; whether it is an error is the build's choice. *)
Lemma XXH32_update_null c st :
  XXH32_update c st None = (if XXH_ACCEPT_NULL_INPUT_POINTER c then XXH_OK else XXH_ERROR, st).
Proof. reflexivity. Qed.

End XXH32Proofs.

(** * XXH64 *)
Module XXH64Proofs.
Import XXH64.

(** ** The tail of XXH64 *)

Definition mix1_64 (h b : Z) : Z :=
  u64 (XXH_rotl64 (Z.lxor h (u64 (b * PRIME64_5))) 11 * PRIME64_1).
Definition mix4_64 (h k : Z) : Z :=
  u64 (u64 (XXH_rotl64 (Z.lxor h (u64 (k * PRIME64_1))) 23 * PRIME64_2) + PRIME64_3).
Definition mix8_64 (h k : Z) : Z :=
  u64 (u64 (XXH_rotl64 (Z.lxor h (XXH64_round 0 k)) 27 * PRIME64_1) + PRIME64_4).

(** Reference: 8-byte words first, then at most one 4-byte word, then bytes. *)
Fixpoint tail64 (h : Z) (p : list Z) : Z :=
  match p with
  | [] => h
  | a :: ((b :: c :: d :: e :: f :: g :: i :: r) as _) =>
      tail64 (mix8_64 h (le_decode [a; b; c; d; e; f; g; i])) r
  | a :: ((b :: c :: d :: r) as _) => tail64 (mix4_64 h (le_decode [a; b; c; d])) r
  | a :: r => tail64 (mix1_64 h a) r
  end.

Lemma process8_at64 c al ptr h k : bytes_ok ptr -> (k + 8 <= length ptr)%nat ->
  PROCESS8_64 c al (h, skipn k ptr)
  = (mix8_64 h (le_decode (firstn 8 (skipn k ptr))), skipn (8 + k) ptr).
Proof.
  intros H L. unfold PROCESS8_64. rewrite readLE64_align_spec, skipn_skipn
    by (try rewrite length_skipn; auto with bytesdb; lia).
  reflexivity.
Qed.

Lemma process4_at64 c al ptr h k : bytes_ok ptr -> (k + 4 <= length ptr)%nat ->
  PROCESS4_64 c al (h, skipn k ptr)
  = (mix4_64 h (le_decode (firstn 4 (skipn k ptr))), skipn (4 + k) ptr).
Proof.
  intros H L. unfold PROCESS4_64. rewrite readLE32_align_spec, skipn_skipn
    by (try rewrite length_skipn; auto with bytesdb; lia).
  reflexivity.
Qed.

Lemma process1_at64 ptr h k :
  PROCESS1_64 (h, skipn k ptr) = (mix1_64 h (nth 0 (skipn k ptr) 0), skipn (1 + k) ptr).
Proof. unfold PROCESS1_64. now rewrite skipn_skipn. Qed.

(** Both the rolled loops and the unrolled switch compute the reference tail. *)
Lemma finalize_spec64 c h ptr len al : bytes_ok ptr ->
  (Z.to_nat (Z.land len 31) <= length ptr)%nat ->
  XXH64_finalize c h ptr len al
  = XXH64_avalanche (tail64 h (firstn (Z.to_nat (Z.land len 31)) ptr)).
Proof.
  intros H L. unfold XXH64_finalize.
  assert (B : 0 <= Z.land len 31 < 32).
  { change 31 with (Z.ones 5). rewrite Z.land_ones by lia. apply Z.mod_pos_bound; lia. }
  remember (Z.land len 31) as m eqn:Em. clear Em.
  rewrite <- (Z2Nat.id m) in B |- * by lia. rewrite Nat2Z.id.
  remember (Z.to_nat m) as n. clear Heqn m.
  change (h, ptr) with (h, skipn 0 ptr).
  do 32 (destruct n as [|n]; [
    rewrite ?Nat2Z.id; destruct (XXH_REROLL c || XXH_REROLL_XXH64 c);
    cbn -[PROCESS1_64 PROCESS4_64 PROCESS8_64 XXH64_avalanche mix1_64 mix4_64 mix8_64 le_decode skipn tail64 firstn];
    eval_to_nat;
    cbn -[PROCESS1_64 PROCESS4_64 PROCESS8_64 XXH64_avalanche mix1_64 mix4_64 mix8_64 le_decode skipn tail64 firstn];
    repeat (rewrite process8_at64 by (auto; lia)); rewrite ?process4_at64 by (auto; lia);
    rewrite ?process1_at64;
    cbn [fst]; f_equal; clear -L;
    repeat (destruct ptr as [|? ptr]; cbn [length] in L; [lia|apply le_S_n in L]);
    cbn [nth skipn firstn Nat.add tail64]; reflexivity|]).
  lia.
Qed.

(** ** Streaming and one-shot XXH64 against one reference *)

Definition stripe_ref64 : lanes64 -> list Z -> lanes64 := stripe64 (fun p => le_decode (firstn 8 p)).

Lemma stripe_ext64 rd v b : bytes_ok b -> (32 <= length b)%nat ->
  (forall p, bytes_ok p -> (8 <= length p)%nat -> rd p = le_decode (firstn 8 p)) ->
  stripe64 rd v b = stripe_ref64 v b.
Proof.
  intros Hb Lb E. destruct v as [[[v1 v2] v3] v4]. unfold stripe_ref64, stripe64.
  rewrite !skipn_skipn, !E by (rewrite ?length_skipn; auto with bytesdb; lia). reflexivity.
Qed.

Definition hash64 (seed : Z) (data : list Z) : Z :=
  let '(v, rest) := absorb 32 stripe_ref64 (init_lanes64 seed) data in
  let len := Z.of_nat (length data) in
  let h := if 32 <=? len then merge_lanes64 v else u64 (seed + PRIME64_5) in
  XXH64_avalanche (tail64 (u64 (h + u64 len)) rest).

Lemma loop_absorb64 rd more v p : bytes_ok p -> (32 <= length p)%nat ->
  (forall q, bytes_ok q -> (8 <= length q)%nat -> rd q = le_decode (firstn 8 q)) ->
  (forall n, more (Z.of_nat n) = (32 <=? n)%nat) ->
  do_while 32 (stripe64 rd) (length p) more v p = absorb 32 stripe_ref64 v p.
Proof.
  intros Hp Lp Hrd Hm. rewrite do_while_absorb by (auto; lia).
  apply absorb_ext; auto; [lia|]. intros. apply stripe_ext64; auto; lia.
Qed.

Lemma land_31 n : Z.land (Z.of_nat n) 31 = Z.of_nat (n mod 32).
Proof. change 31 with (Z.ones 5). rewrite Z.land_ones, Nat2Z.inj_mod by lia. reflexivity. Qed.

Lemma XXH64_spec c addr p seed : bytes_ok p -> XXH64 c addr (Some p) seed = hash64 seed p.
Proof.
  intros Hp. unfold XXH64.
  enough (G : forall al, XXH64_endian_align c p seed al = hash64 seed p) by (rewrite !G; dmatch; reflexivity).
  intros al. unfold XXH64_endian_align, hash64.
  pose proof (absorb_rest_mod 32 stripe_ref64 ltac:(lia) (init_lanes64 seed) p) as Hr.
  pose proof (absorb_rest_bytes 32 stripe_ref64 ltac:(lia) (init_lanes64 seed) p Hp) as Hb.
  destruct (Z.leb_spec 32 (Z.of_nat (length p))) as [L|L].
  - rewrite loop_absorb64; auto; [|lia|intros; now apply readLE64_align_spec|
      intros n; destruct (Z.leb_spec 32 (Z.of_nat n)), (Nat.leb_spec 32 n); trivial; lia].
    destruct (absorb _ _ _ p) as [v rest]. cbn [snd] in *.
    rewrite finalize_spec64; rewrite ?land_31, ?Nat.Div0.mod_mod, ?Nat2Z.id; trivial; [|lia].
    rewrite firstn_all2 by lia. reflexivity.
  - rewrite absorb_short in * by lia. cbn [snd] in *.
    rewrite finalize_spec64; rewrite ?land_31, ?Nat.Div0.mod_mod, ?Nat2Z.id; trivial; [|lia].
    rewrite firstn_all2 by lia. reflexivity.
Qed.

(** The state after feeding [data]. *)
Record streaming64 (seed : Z) (data : list Z) (st : XXH64_state) : Prop := {
  st_total64 : total_len st = u64 (Z.of_nat (length data));
  st_buf64 : buffered 32 stripe_ref64 (init_lanes64 seed) data (vs64 st) (mem64 st) (memsize64 st)
}.

Lemma reset_streaming64 seed st : streaming64 seed [] (snd (XXH64_reset st seed)).
Proof.
  constructor; try reflexivity. constructor; try reflexivity. apply bytes_ok_forallb. reflexivity.
Qed.

Lemma digest_spec64 c seed data st : streaming64 seed data st ->
  Z.of_nat (length data) < 2 ^ 64 -> XXH64_digest c st = hash64 seed data.
Proof.
  intros [Ht [Hv Hm Hb Hs Hr]] Hlen. rewrite wrap_id in Ht by lia. unfold XXH64_digest, hash64.
  pose proof (absorb_rest 32 stripe_ref64 ltac:(lia) (init_lanes64 seed) data) as Hlt.
  pose proof (absorb_rest_mod 32 stripe_ref64 ltac:(lia) (init_lanes64 seed) data) as Hmod.
  rewrite finalize_spec64; rewrite ?Ht, ?land_31, ?Nat2Z.id; trivial; [|lia].
  rewrite Hs, Nat2Z.id, Hmod in Hr. rewrite Hr, Hv.
  destruct (Z.leb_spec 32 (Z.of_nat (length data))) as [L|L].
  - rewrite (wrap_id 64 (Z.of_nat _)) by lia. destruct (absorb _ _ _ data) as [v rest]. reflexivity.
  - rewrite absorb_short by lia. cbn [fst snd init_lanes64].
    rewrite Z.add_0_r, (wrap_add_l 64 seed), (wrap_id 64 (Z.of_nat _)) by lia. reflexivity.
Qed.

(** The update is the shared buffered update plus the length bookkeeping. *)
Lemma update_buf64 c st p :
  XXH64_update c st (Some p) =
  let total := u64 (total_len st + Z.of_nat (length p)) in
  let '(v, mem, msize) :=
    buf_update 32 (stripe64 (XXH_readLE64 c)) (vs64 st) (mem64 st) (memsize64 st) p in
  (XXH_OK, mkState64 total v mem msize (reserved32 st) (reserved64 st)).
Proof.
  unfold XXH64_update, buf_update. cbv zeta.
  change (Z.of_nat 32) with 32.
  repeat match goal with
  | |- context [if ?b then _ else _] => destruct b
  | |- context [let '(_, _) := ?x in _] => destruct x
  end; reflexivity.
Qed.

Lemma update_streaming64 c seed data st p : streaming64 seed data st -> bytes_ok p ->
  Z.of_nat (length p) < 2 ^ 63 ->
  fst (XXH64_update c st (Some p)) = XXH_OK /\
  streaming64 seed (data ++ p) (snd (XXH64_update c st (Some p))).
Proof.
  intros [Ht Hbuf] Hp Hlen. rewrite update_buf64. cbv zeta.
  pose proof (buf_update_ok 32 (stripe64 (XXH_readLE64 c)) stripe_ref64 ltac:(lia)
    ltac:(intros; apply stripe_ext64; auto; [lia|intros; now apply readLE64_spec])
    _ _ _ _ _ p Hbuf Hp Hlen) as Hb'.
  destruct (buf_update _ _ _ _ _ _) as [[v mem] msize].
  split; [reflexivity|]. constructor; cbn [snd total_len vs64 mem64 memsize64]; trivial.
  rewrite Ht, length_app, Nat2Z.inj_add. now autorewrite with wrapdb.
Qed.

(** ** Properties *)

(** Feeding any sequence of chunks. *)
Definition feed64 (c : XXH_config) (st : XXH64_state) (chunks : list (list Z)) : XXH64_state :=
  fold_left (fun st p => snd (XXH64_update c st (Some p))) chunks st.

Lemma feed_streaming64 c seed data st chunks :
  streaming64 seed data st -> Forall bytes_ok chunks ->
  Forall (fun p => Z.of_nat (length p) < 2 ^ 63) chunks ->
  streaming64 seed (data ++ concat chunks) (feed64 c st chunks).
Proof.
  intros Hst Hb Hl. revert data st Hst. induction chunks as [|p r IH]; intros data st Hst.
  - cbn. now rewrite app_nil_r.
  - rewrite Forall_cons_iff in Hb, Hl. cbn [concat feed64 fold_left]. rewrite app_assoc.
    apply IH; try tauto. apply update_streaming64; tauto.
Qed.

(** C21: XXH64 streaming64 is one-shot hashing: after [XXH64_reset], feeding the
    input in any chunks with [XXH64_update] and calling [XXH64_digest] returns
    the value [XXH64] returns on the whole input, whatever build configuration
    (endianness, unrolling, alignment checks) each side was compiled with. *)
Theorem XXH64_streaming_correct (c1 c2 : XXH_config) (addr seed : Z) (st : XXH64_state)
    (chunks : list (list Z)) :
  Forall bytes_ok chunks -> Z.of_nat (length (concat chunks)) < 2 ^ 63 ->
  XXH64_digest c1 (feed64 c1 (snd (XXH64_reset st seed)) chunks)
  = XXH64 c2 addr (Some (concat chunks)) seed.
Proof.
  intros Hb Hl. rewrite XXH64_spec by (apply Forall_concat, Hb).
  apply digest_spec64; [|lia].
  apply (feed_streaming64 c1 seed [] _ chunks (reset_streaming64 seed st) Hb).
  now apply chunk_lengths.
Qed.

Lemma XXH64_streaming_witness :
  XXH64_digest (Build_XXH_config true false false false false false)
    (feed64 (Build_XXH_config true false false false false false)
       (snd (XXH64_reset (mkState64 0 (0, 0, 0, 0) (repeat 0 32) 0 0 0) 7)) [[1; 2; 3]; repeat 5 40; []; [9]])
  = XXH64 (Build_XXH_config false true true true true true) 4
      (Some (concat [[1; 2; 3]; repeat 5 40; []; [9]])) 7.
Proof.
  apply XXH64_streaming_correct.
  - repeat (constructor; [apply bytes_ok_forallb; reflexivity|]). constructor.
  - reflexivity.
Defined.

(** The canonical (big-endian) form of a 64-bit hash reads back as the hash,
    on both byte orders, and the bytes do not depend on the byte order. *)
Theorem XXH64_canonical_roundtrip (c c' : XXH_config) (h : Z) : 0 <= h < 2 ^ 64 ->
  XXH64_canonicalFromHash c h = rev (le_encode 8 h) /\
  XXH64_hashFromCanonical c' (XXH64_canonicalFromHash c h) = h.
Proof.
  intros Hh. assert (E : XXH64_canonicalFromHash c h = rev (le_encode 8 h)).
  { unfold XXH64_canonicalFromHash, XXH_store. destruct (XXH_CPU_LITTLE_ENDIAN c); [|reflexivity].
    assert (D : h = le_decode (le_encode 8 h)) by (rewrite le_decode_encode, Z.mod_small; trivial).
    rewrite D at 1. rewrite swap64_bytes by (auto with bytesdb).
    rewrite <- (le_encode_decode (rev (le_encode 8 h))) at 2 by apply Forall_rev, le_encode_bytes.
    rewrite length_rev, le_encode_length. reflexivity. }
  split; [exact E|]. unfold XXH64_hashFromCanonical. rewrite E, readBE64_spec.
  - rewrite firstn_all2 by (rewrite length_rev, le_encode_length; lia).
    rewrite rev_involutive, le_decode_encode. now apply Z.mod_small.
  - apply Forall_rev, le_encode_bytes.
  - now rewrite length_rev, le_encode_length.
Qed.

Lemma XXH64_canonical_witness :
  0 <= 0x123456789abcdef0 < 2 ^ 64 /\
  XXH64_hashFromCanonical (Build_XXH_config true false false false false false)
    (XXH64_canonicalFromHash (Build_XXH_config false false false false false false) 0x123456789abcdef0) = 0x123456789abcdef0.
Proof. split; [lia|]. apply XXH64_canonical_roundtrip. lia. Defined.

(** A null input pointer changes nothing; whether it is an error is the build's choice. *)
Lemma XXH64_update_null c st :
  XXH64_update c st None = (if XXH_ACCEPT_NULL_INPUT_POINTER c then XXH_OK else XXH_ERROR, st).
Proof. reflexivity. Qed.

End XXH64Proofs.
