(* ===== verification/Deque.v ===== *)
(** flow/flow/include/flow/Deque.h: the growable ring buffer, modelled down to
    the lifetime of the objects in its slots, and its refinement of a list. *)

From stdpp Require Import base list numbers.
From Stdlib Require Import ZArith Lia.
From S2P Require Import Prelude.
#[local] Open Scope Z_scope.

(** Why an operation did not return normally. *)
Inductive deque_error :=
| Bad_alloc          (* std::bad_alloc from grow() *)
| Out_of_range       (* std::out_of_range from at() *)
| Ctor_exception     (* constructing a T threw *)
| Assert_failed      (* ASSERT(!empty()) *)
| Out_of_memory      (* platform::outOfMemory() *)
| Undefined.         (* access to a slot that holds no object *)

Inductive res (A : Type) := Ok (a : A) | Err (e : deque_error).
Arguments Ok {A} _.
Arguments Err {A} _.

Section Deque.

Context {T : Type}.
(** Whether the allocator serves a request for this many elements, and
    whether constructing a T from this value throws. *)
Context (can_alloc : Z -> bool) (ctor_throws : T -> bool).

(** A slot is [Some x] when it holds a constructed object. *)
Record Deque := mkDeque {
  arr : option (list (option T));
  begin_ : Z;
  end_ : Z;
  mask : Z
}.

Definition Deque_new : Deque := mkDeque None 0 0 (u32 (-1)).

Definition size (d : Deque) : Z := u32 (end_ d - begin_ d).
Definition empty (d : Deque) : bool := end_ d =? begin_ d.
Definition capacity (d : Deque) : Z := u32 (mask d + 1).
Definition max_size : Z := Z.shiftl 1 30.
Definition full (d : Deque) : bool := end_ d =? u32 (u32 (begin_ d + mask d) + 1).

(** Slot access: reading or destroying needs an object, constructing needs a slot. *)
Definition read (slots : list (option T)) (i : Z) : res T :=
  match slots !! Z.to_nat i with
  | Some (Some x) => Ok x
  | _ => Err Undefined
  end.

Definition store (slots : list (option T)) (i : Z) (v : option T) : res (list (option T)) :=
  if bool_decide (Z.to_nat i < length slots)%nat then Ok (<[Z.to_nat i := v]> slots)
  else Err Undefined.

Definition destroy (slots : list (option T)) (i : Z) : res (list (option T)) :=
  match read slots i with
  | Ok _ => store slots i None
  | Err e => Err e
  end.

(** [for (i = b; i != e; i++) arr[i & mask].~T()]; the fuel is (e - b) mod 2^32. *)
Fixpoint destroy_range (fuel : nat) (slots : list (option T)) (i e m : Z)
    : res (list (option T)) :=
  if i =? e then Ok slots
  else match fuel with
  | O => Ok slots
  | S f => match destroy slots (Z.land i m) with
           | Ok slots' => destroy_range f slots' (u32 (i + 1)) e m
           | Err er => Err er
           end
  end.

(** The copy loop of [grow]: on a throwing constructor the new array is
    cleaned up and the exception rethrown. *)
Fixpoint grow_loop (fuel : nat) (old new : list (option T)) (i b e m : Z)
    : res (list (option T)) :=
  if i =? e then Ok new
  else match fuel with
  | O => Ok new
  | S f => match read old (Z.land i m) with
           | Err er => Err er
           | Ok x => if ctor_throws x then Err Ctor_exception
                     else match store new (u32 (i - b)) (Some x) with
                          | Ok new' => grow_loop f old new' (u32 (i + 1)) b e m
                          | Err er => Err er
                          end
           end
  end.

Definition grow (d : Deque) : Deque * res unit :=
  let mp1 := match arr d with Some _ => mask d + 1 | None => 4 end in
  let newSize := mp1 * 2 in
  if max_size <? newSize then (d, Err Bad_alloc)
  else if negb (can_alloc newSize) then (d, Err Out_of_memory)
  else
    let old := match arr d with Some s => s | None => [] end in
    let n := Z.to_nat (u32 (end_ d - begin_ d)) in
    match grow_loop n old (replicate (Z.to_nat newSize) None) (begin_ d) (begin_ d) (end_ d) (mask d) with
    | Err er => (d, Err er)
    | Ok newArr =>
        match destroy_range n old (begin_ d) (end_ d) (mask d) with
        | Err er => (d, Err er)
        | Ok _ => (mkDeque (Some newArr) 0 (u32 (end_ d - begin_ d)) (u32 (newSize - 1)), Ok tt)
        end
    end.

(** [new (&arr[i]) T(v)] *)
Definition construct (d : Deque) (i : Z) (v : T) : Deque * res unit :=
  match arr d with
  | None => (d, Err Undefined)
  | Some s => if ctor_throws v then (d, Err Ctor_exception)
              else match store s i (Some v) with
                   | Ok s' => (mkDeque (Some s') (begin_ d) (end_ d) (mask d), Ok tt)
                   | Err er => (d, Err er)
                   end
  end.

Definition push_back (d : Deque) (v : T) : Deque * res unit :=
  match (if full d then grow d else (d, Ok tt)) with
  | (d, Err er) => (d, Err er)
  | (d, Ok _) =>
      match construct d (Z.land (end_ d) (mask d)) v with
      | (d, Err er) => (d, Err er)
      | (d, Ok _) => (mkDeque (arr d) (begin_ d) (u32 (end_ d + 1)) (mask d), Ok tt)
      end
  end.

(** The same, returning a reference to the new element. *)
Definition emplace_back (d : Deque) (v : T) : Deque * res T :=
  match (if full d then grow d else (d, Ok tt)) with
  | (d, Err er) => (d, Err er)
  | (d, Ok _) =>
      match construct d (Z.land (end_ d) (mask d)) v with
      | (d, Err er) => (d, Err er)
      | (d, Ok _) =>
          let result := match arr d with
                        | Some s => read s (Z.land (end_ d) (mask d))
                        | None => Err Undefined
                        end in
          (mkDeque (arr d) (begin_ d) (u32 (end_ d + 1)) (mask d), result)
      end
  end.

Definition pop_back (d : Deque) : Deque * res unit :=
  if empty d then (d, Err Assert_failed)
  else
    let e := u32 (end_ d - 1) in
    match arr d with
    | None => (d, Err Undefined)
    | Some s => match destroy s (Z.land e (mask d)) with
                | Ok s' => (mkDeque (Some s') (begin_ d) e (mask d), Ok tt)
                | Err er => (d, Err er)
                end
    end.

Definition pop_front (d : Deque) : Deque * res unit :=
  if empty d then (d, Err Assert_failed)
  else
    match arr d with
    | None => (d, Err Undefined)
    | Some s =>
        match destroy s (begin_ d) with
        | Err er => (d, Err er)
        | Ok s' =>
            if begin_ d =? mask d then
              (mkDeque (Some s') (u32 (begin_ d - mask d)) (u32 (end_ d - u32 (mask d + 1))) (mask d), Ok tt)
            else (mkDeque (Some s') (u32 (begin_ d + 1)) (end_ d) (mask d), Ok tt)
        end
    end.

Definition clear (d : Deque) : Deque * res unit :=
  let n := Z.to_nat (u32 (end_ d - begin_ d)) in
  match arr d with
  | None => if begin_ d =? end_ d then (mkDeque None 0 0 (mask d), Ok tt) else (d, Err Undefined)
  | Some s => match destroy_range n s (begin_ d) (end_ d) (mask d) with
              | Ok s' => (mkDeque (Some s') 0 0 (mask d), Ok tt)
              | Err er => (d, Err er)
              end
  end.

Definition slot (d : Deque) (i : Z) : res T :=
  match arr d with Some s => read s i | None => Err Undefined end.

Definition front (d : Deque) : res T := slot d (begin_ d).
Definition back (d : Deque) : res T := slot d (Z.land (u32 (end_ d - 1)) (mask d)).
(** [operator[](int i)]: the index is converted to unsigned. *)
Definition index (d : Deque) (i : Z) : res T := slot d (Z.land (u32 (begin_ d + u32 i)) (mask d)).

Definition at_ (d : Deque) (i : Z) : res T :=
  if (i <? 0) || (u32 (end_ d - begin_ d) <=? u32 i) then Err Out_of_range else index d i.

(** [std::copy] of the slots [b, e) of [src] to [dst] from position [k]; every
    source slot must hold an object. *)
Fixpoint copy_range (fuel : nat) (src : list (option T)) (b e : Z) (dst : list (option T)) (k : Z)
    : res (list (option T)) :=
  match fuel with
  | O => Ok dst
  | S f => if e <=? b then Ok dst
           else match read src b with
                | Err er => Err er
                | Ok x => if ctor_throws x then Err Ctor_exception
                          else match store dst k (Some x) with
                               | Ok dst' => copy_range f src (b + 1) e dst' (k + 1)
                               | Err er => Err er
                               end
                end
  end.

(** The copy constructor; [operator=(Deque const&)] first destroys its own
    contents ([cleanup]) and then does the same. *)
Definition Deque_copy (r : Deque) : res Deque :=
  let cap := capacity r in
  if (0 <? cap) && negb (can_alloc cap) then Err Out_of_memory
  else
    let new := replicate (Z.to_nat cap) None in
    let src := match arr r with Some s => s | None => [] end in
    if negb ((size r <=? cap) || (size r =? 0)) then Err Assert_failed
    else
      let filled :=
        if end_ r <? capacity r then
          copy_range (Z.to_nat (size r)) src (begin_ r) (begin_ r + size r) new 0
        else
          match copy_range (Z.to_nat (capacity r - begin_ r)) src (begin_ r) (capacity r) new 0 with
          | Err er => Err er
          | Ok part =>
              let tail := Z.land (end_ r) (mask r) in
              copy_range (Z.to_nat tail) src 0 tail part (capacity r - begin_ r)
          end in
      match filled with
      | Err er => Err er
      | Ok s => Ok (mkDeque (if 0 <? cap then Some s else None) 0 (size r) (mask r))
      end.

(** [cleanup()]: destroy the contents and free the array. *)
Definition cleanup (d : Deque) : res unit :=
  match arr d with
  | None => if begin_ d =? end_ d then Ok tt else Err Undefined
  | Some s => match destroy_range (Z.to_nat (u32 (end_ d - begin_ d))) s (begin_ d) (end_ d) (mask d) with
              | Ok _ => Ok tt
              | Err er => Err er
              end
  end.

Definition Deque_assign (d r : Deque) : res Deque :=
  match cleanup d with
  | Ok _ => Deque_copy r
  | Err er => Err er
  end.

(** Move construction: the target takes over the array, the source is reset. *)
Definition Deque_move (r : Deque) : Deque * Deque :=
  (mkDeque (arr r) (begin_ r) (end_ r) (mask r), mkDeque None 0 0 (u32 (-1))).

(** Move assignment [d = std::move(r)]. *)
Definition Deque_move_assign (d r : Deque) : res (Deque * Deque) :=
  match cleanup d with
  | Ok _ => Ok (Deque_move r)
  | Err er => Err er
  end.

(** [operator==], given equality on T. *)
Fixpoint eq_loop (eqT : T -> T -> bool) (fuel : nat) (d r : Deque) (i : Z) : res bool :=
  match fuel with
  | O => Ok true
  | S f => if size d <=? i then Ok true
           else match index d i, index r i with
                | Ok x, Ok y => if eqT x y then eq_loop eqT f d r (i + 1) else Ok false
                | Err er, _ | _, Err er => Err er
                end
  end.

Definition Deque_eq (eqT : T -> T -> bool) (d r : Deque) : res bool :=
  if negb (size d =? size r) then Ok false
  else eq_loop eqT (Z.to_nat (size d)) d r 0.

End Deque.
Arguments Deque : clear implicits.
