(* ===== verification/DequeProofs.v ===== *)
(** Deque.h: the representation invariant of the ring buffer and its
    refinement of a bounded list under every sequence of operations. *)

From stdpp Require Import base list numbers.
From Stdlib Require Import ZArith Lia.
From S2P Require Import Prelude Deque.
#[local] Open Scope Z_scope.

Section Ring.

Context {T : Type}.
Implicit Types (slots : list (option T)) (l : list T) (f : Z -> option T).

(** Where the [i]-th element after [b] lies in a ring of [N] slots. *)
Definition pos (N b i : Z) : Z := if b + i <? N then b + i else b + i - N.

(** [slots] is a ring of [N] slots whose [i]-th slot from [b] holds [f i]. *)
Definition ring slots (N b : Z) f : Prop :=
  length slots = Z.to_nat N /\ 0 <= b < N /\
  forall i, 0 <= i < N -> slots !! Z.to_nat (pos N b i) = Some (f i).

Lemma pos_range N b i : 0 <= b < N -> 0 <= i < N -> 0 <= pos N b i < N.
Proof. unfold pos; zcases; lia. Qed.

Lemma pos_inj N b i j : 0 <= b < N -> 0 <= i < N -> 0 <= j < N -> pos N b i = pos N b j -> i = j.
Proof. unfold pos; zcases; lia. Qed.

Lemma land_pos k b i : 0 <= k -> 0 <= b < 2 ^ k -> 0 <= i <= 2 ^ k ->
  Z.land (b + i) (2 ^ k - 1) = pos (2 ^ k) b (if i =? 2 ^ k then 0 else i).
Proof.
  intros Hk Hb Hi.
  replace (2 ^ k - 1) with (Z.ones k) by (rewrite Z.ones_equiv; lia).
  rewrite Z.land_ones by lia. unfold pos. zcases; try lia.
  - symmetry. apply Z.mod_unique_pos with 1; lia.
  - apply Z.mod_small; lia.
  - symmetry. apply Z.mod_unique_pos with 1; lia.
Qed.

Lemma ring_read slots N b f i x : ring slots N b f -> 0 <= i < N -> f i = Some x ->
  read slots (pos N b i) = Ok x.
Proof. intros (_ & _ & H) Hi Hx. unfold read. rewrite (H i Hi), Hx. done. Qed.

Lemma ring_store slots N b f i v : ring slots N b f -> 0 <= i < N ->
  exists s', store slots (pos N b i) v = Ok s' /\ ring s' N b (fun j => if j =? i then v else f j).
Proof.
  intros (Hl & Hb & H) Hi. unfold store.
  pose proof (pos_range N b i Hb Hi).
  rewrite bool_decide_eq_true_2 by lia. eexists; split; [done|].
  split; [|split]; [by rewrite length_insert|done|]. intros j Hj.
  destruct (Z.eqb_spec j i) as [->|Hne].
  - apply list_lookup_insert_eq. lia.
  - pose proof (pos_range N b j Hb Hj). rewrite list_lookup_insert_ne; [by apply H|].
    intros He. apply Hne, (pos_inj N b); try done; lia.
Qed.

Lemma ring_destroy slots N b f i x : ring slots N b f -> 0 <= i < N -> f i = Some x ->
  exists s', destroy slots (pos N b i) = Ok s' /\ ring s' N b (fun j => if j =? i then None else f j).
Proof.
  intros HR Hi Hx. unfold destroy. rewrite (ring_read slots N b f i x HR Hi Hx).
  by apply ring_store.
Qed.

Lemma ring_ext slots N b f g : ring slots N b f -> (forall i, 0 <= i < N -> f i = g i) ->
  ring slots N b g.
Proof. intros (? & ? & H) He. repeat split; try lia; try done. intros. rewrite <- He; auto. Qed.

(** Contents of a ring holding the list [l] from its start. *)
Definition contents l : Z -> option T := fun i => l !! Z.to_nat i.

Lemma contents_some l i : 0 <= i < Z.of_nat (length l) -> exists x, contents l i = Some x.
Proof. intros. unfold contents. apply lookup_lt_is_Some. lia. Qed.

Lemma contents_none l i : Z.of_nat (length l) <= i -> contents l i = None.
Proof. intros. unfold contents. apply lookup_ge_None. lia. Qed.

Lemma contents_snoc l v i : 0 <= i ->
  contents (l ++ [v]) i = if i =? Z.of_nat (length l) then Some v else contents l i.
Proof.
  intros. unfold contents. destruct (Z.eqb_spec i (Z.of_nat (length l))) as [->|].
  - rewrite Nat2Z.id. by apply list_lookup_middle.
  - destruct (decide (i < Z.of_nat (length l))).
    + apply lookup_app_l. lia.
    + rewrite !(proj2 (lookup_ge_None _ _)); [done| |]; rewrite ?length_app; simpl; lia.
Qed.

Lemma ring_fresh N : 0 < N -> ring (replicate (Z.to_nat N) None) N 0 (contents []).
Proof.
  intros. split; [|split]; [by rewrite length_replicate|lia|]. intros i Hi.
  pose proof (pos_range N 0 i ltac:(lia) Hi).
  apply lookup_replicate. split; [done|lia].
Qed.

(** Moving the start past an empty first slot. *)
Lemma ring_rotate slots N b f : ring slots N b f -> f 0 = None ->
  ring slots N (pos N b 1) (fun i => if i =? N - 1 then None else f (i + 1)).
Proof.
  intros (Hl & Hb & H) H0. destruct (Z.eq_dec N 1) as [->|HN].
  { replace (pos 1 b 1) with 0 by (unfold pos; zcases; lia).
    split; [|split]; [done|lia|]. intros i Hi. assert (i = 0) as -> by lia. simpl.
    rewrite <- H0. rewrite <- (H 0 ltac:(lia)). do 2 f_equal. unfold pos; zcases; lia. }
  pose proof (pos_range N b 1 Hb ltac:(lia)).
  split; [|split]; [done|done|]. intros i Hi.
  destruct (Z.eqb_spec i (N - 1)).
  - rewrite <- H0, <- (H 0 ltac:(lia)). do 2 f_equal. subst. unfold pos. zcases; lia.
  - rewrite <- (H (i + 1) ltac:(lia)). do 2 f_equal. unfold pos. zcases; lia.
Qed.

End Ring.

Section Refinement.

Context {T : Type} (can_alloc : Z -> bool) (ctor_throws : T -> bool).
Implicit Types (d : Deque T) (l : list T) (slots old new : list (option T)) (f : Z -> option T).

(** [rep d l]: the deque [d] holds the list [l]. *)
Inductive rep : Deque T -> list T -> Prop :=
| rep_null : rep (mkDeque None 0 0 (2 ^ 32 - 1)) []
| rep_arr slots k b l :
    3 <= k <= 30 -> Z.of_nat (length l) <= 2 ^ k ->
    ring slots (2 ^ k) b (contents l) ->
    rep (mkDeque (Some slots) b (b + Z.of_nat (length l)) (2 ^ k - 1)) l.

Lemma rep_new : rep Deque_new [].
Proof. apply rep_null. Qed.

Lemma pow_range k : 3 <= k <= 30 -> 8 <= 2 ^ k <= 2 ^ 30.
Proof.
  intros. split; [change 8 with (2 ^ 3)|]; apply Z.pow_le_mono_r; lia.
Qed.

Lemma u32_small z : 0 <= z < 2 ^ 32 -> u32 z = z.
Proof. intros. apply Z.mod_small. done. Qed.

Lemma slot_land k b i : 3 <= k <= 30 -> 0 <= b < 2 ^ k -> 0 <= i < 2 ^ k ->
  Z.land (b + i) (2 ^ k - 1) = pos (2 ^ k) b i.
Proof. intros. rewrite land_pos by lia. zcases; [lia|done]. Qed.

Lemma destroy_range_ring k b n slots f i :
  3 <= k <= 30 -> ring slots (2 ^ k) b f -> 0 <= i -> i + Z.of_nat n <= 2 ^ k ->
  (forall j, i <= j < i + Z.of_nat n -> exists x, f j = Some x) ->
  exists s', destroy_range n slots (b + i) (b + i + Z.of_nat n) (2 ^ k - 1) = Ok s' /\
    ring s' (2 ^ k) b (fun j => if (i <=? j) && (j <? i + Z.of_nat n) then None else f j).
Proof.
  intros Hk. pose proof (pow_range k Hk) as Hp.
  revert slots f i. induction n as [|n IH]; intros slots f i HR Hi Hn Hf; cbn [destroy_range].
  - rewrite (proj2 (Z.eqb_eq _ _)) by lia. exists slots. split; [done|].
    eapply ring_ext; [exact HR|]. intros j Hj. simpl. zcases; simpl; try done; lia.
  - rewrite (proj2 (Z.eqb_neq _ _)) by lia.
    pose proof HR as (_ & Hb & _).
    rewrite slot_land by lia.
    destruct (Hf i ltac:(lia)) as [x Hx].
    destruct (ring_destroy slots (2 ^ k) b f i x HR ltac:(lia) Hx) as (s1 & -> & HR1).
    rewrite u32_small by lia.
    destruct (IH s1 _ (i + 1) HR1 ltac:(lia) ltac:(lia)) as (s2 & Hd & HR2).
    { intros j Hj. simpl. rewrite (proj2 (Z.eqb_neq _ _)) by lia. apply Hf. lia. }
    exists s2. split.
    + rewrite <- Hd. f_equal; lia.
    + eapply ring_ext; [exact HR2|]. intros j Hj. simpl. zcases; simpl; try done; lia.
Qed.

(** Destroying the whole contents leaves an empty ring. *)
Lemma destroy_all k b slots l :
  3 <= k <= 30 -> Z.of_nat (length l) <= 2 ^ k -> ring slots (2 ^ k) b (contents l) ->
  exists s', destroy_range (length l) slots b (b + Z.of_nat (length l)) (2 ^ k - 1) = Ok s' /\
    ring s' (2 ^ k) b (contents []).
Proof.
  intros Hk Hl HR.
  destruct (destroy_range_ring k b (length l) slots _ 0 Hk HR ltac:(lia) ltac:(lia)) as (s' & Hd & HR').
  { intros. apply contents_some. lia. }
  exists s'. split; [by rewrite Z.add_0_r in Hd|].
  eapply ring_ext; [exact HR'|]. intros i Hi. simpl.
  zcases; simpl; try lia; [done|]. rewrite !contents_none; simpl; (done || lia).
Qed.

Lemma grow_loop_ring k b N2 old l n new :
  3 <= k <= 30 -> ring old (2 ^ k) b (contents l) -> Z.of_nat (length l) <= 2 ^ k <= N2 ->
  (n <= length l)%nat -> ring new N2 0 (contents (take (length l - n) l)) ->
  let r := grow_loop ctor_throws n old new (b + Z.of_nat (length l - n)) b (b + Z.of_nat (length l)) (2 ^ k - 1) in
  if existsb ctor_throws (drop (length l - n) l) then r = Err Ctor_exception
  else exists s', r = Ok s' /\ ring s' N2 0 (contents l).
Proof.
  intros Hk HR Hl. pose proof (pow_range k Hk) as Hp. pose proof HR as (_ & Hb & _).
  revert new. induction n as [|n IH]; intros new Hn HRn; cbn [grow_loop].
  - rewrite drop_ge by lia. simpl. rewrite (proj2 (Z.eqb_eq _ _)) by lia.
    exists new. split; [done|]. by rewrite take_ge in HRn by lia.
  - rewrite (proj2 (Z.eqb_neq _ _)) by lia. rewrite slot_land by lia.
    destruct (contents_some l (Z.of_nat (length l - S n)) ltac:(lia)) as [x Hx].
    rewrite (ring_read old (2 ^ k) b _ (Z.of_nat (length l - S n)) x HR ltac:(lia) Hx).
    unfold contents in Hx. rewrite Nat2Z.id in Hx.
    rewrite (drop_S l x _ Hx). simpl. destruct (ctor_throws x); [done|]. simpl.
    destruct (ring_store new N2 0 _ (Z.of_nat (length l - S n)) (Some x) HRn ltac:(lia)) as (s1 & Hst & HR1).
    replace (pos N2 0 _) with (Z.of_nat (length l - S n)) in Hst by (unfold pos; zcases; lia).
    rewrite u32_small by lia.
    replace (b + Z.of_nat (length l - S n) - b) with (Z.of_nat (length l - S n)) by lia.
    rewrite Hst. rewrite u32_small by lia.
    replace (S (length l - S n)) with (length l - n)%nat by lia.
    replace (b + Z.of_nat (length l - S n) + 1) with (b + Z.of_nat (length l - n)) by lia.
    apply IH; [lia|]. eapply ring_ext; [exact HR1|]. intros i Hi.
    replace (length l - n)%nat with (S (length l - S n)) by lia.
    rewrite (take_S_r l _ x Hx). rewrite contents_snoc by lia.
    rewrite length_take, Nat.min_l by lia. done.
Qed.

Lemma rep_size d l : rep d l -> size d = Z.of_nat (length l) /\ Z.of_nat (length l) <= max_size.
Proof.
  intros []; [done|]. pose proof (pow_range k H). unfold size, max_size. simpl.
  change (Z.shiftl 1 30) with (2 ^ 30). pose proof H1 as (_ & Hb & _). split; [|lia]. rewrite u32_small; lia.
Qed.

Lemma rep_empty d l : rep d l -> empty d = bool_decide (l = []).
Proof.
  intros [|? ? b l' _ _ _]; unfold empty; cbn; [done|].
  destruct l'; cbn [length]; [apply Z.eqb_eq|apply Z.eqb_neq]; lia.
Qed.

(** The abstract deque: a capacity and a list. *)
Record adeque := mkA { acap : Z; alist : list T }.

Definition apush (a : adeque) (v : T) : adeque * res unit :=
  if ctor_throws v then (a, Err Ctor_exception) else (mkA (acap a) (alist a ++ [v]), Ok tt).

Definition apush_back (a : adeque) (v : T) : adeque * res unit :=
  if Z.of_nat (length (alist a)) =? acap a then
    let cap' := if acap a =? 0 then 8 else 2 * acap a in
    if max_size <? cap' then (a, Err Bad_alloc)
    else if negb (can_alloc cap') then (a, Err Out_of_memory)
    else if existsb ctor_throws (alist a) then (a, Err Ctor_exception)
    else apush (mkA cap' (alist a)) v
  else apush a v.

Definition arep d (a : adeque) : Prop := rep d (alist a) /\ capacity d = acap a.

Lemma rep_capacity d l : rep d l ->
  (arr d = None /\ l = [] /\ capacity d = 0 /\ full d = true /\ d = Deque_new) \/
  (exists s k, 3 <= k <= 30 /\ d = mkDeque (Some s) (begin_ d) (begin_ d + Z.of_nat (length l)) (2 ^ k - 1) /\
     ring s (2 ^ k) (begin_ d) (contents l) /\ Z.of_nat (length l) <= 2 ^ k /\
     capacity d = 2 ^ k /\ full d = (Z.of_nat (length l) =? capacity d)).
Proof.
  intros HR. destruct HR as [|slots k b l Hk Hl HRi]; [left; done|right].
  pose proof (pow_range k Hk) as Hp. pose proof HRi as (_ & Hb & _).
  exists slots, k. unfold capacity, full; simpl.
  rewrite (u32_small (b + _)) by lia. rewrite (u32_small (2 ^ k - 1 + 1)) by lia.
  repeat split; try lia; try apply HRi.
  rewrite u32_small by lia. zcases; lia.
Qed.

Lemma pow_double k : 0 <= k -> 2 ^ (k + 1) = 2 * 2 ^ k.
Proof. intros. rewrite Z.pow_add_r by lia. lia. Qed.

Lemma pow_over k : 3 <= k <= 30 -> (max_size <? 2 * 2 ^ k) = (30 <=? k).
Proof.
  intros. unfold max_size. change (Z.shiftl 1 30) with (2 ^ 30).
  rewrite <- pow_double by lia. zcases; try lia.
  - apply Z.pow_lt_mono_r_iff in H0; lia.
  - assert (2 ^ 30 < 2 ^ (k + 1)) by (apply Z.pow_lt_mono_r; lia). lia.
Qed.

Lemma grow_new : grow can_alloc ctor_throws Deque_new =
  if negb (can_alloc 8) then (Deque_new, Err Out_of_memory)
  else (mkDeque (Some (replicate 8 None)) 0 0 7, Ok tt).
Proof. reflexivity. Qed.

(** [grow] doubles the capacity and keeps the contents, or fails with the deque unchanged. *)
Lemma grow_spec d l : rep d l -> full d = true ->
  let cap' := if capacity d =? 0 then 8 else 2 * capacity d in
  if max_size <? cap' then grow can_alloc ctor_throws d = (d, Err Bad_alloc)
  else if negb (can_alloc cap') then grow can_alloc ctor_throws d = (d, Err Out_of_memory)
  else if existsb ctor_throws l then grow can_alloc ctor_throws d = (d, Err Ctor_exception)
  else exists s k, 3 <= k <= 30 /\ cap' = 2 ^ k /\ Z.of_nat (length l) < 2 ^ k /\
         ring s (2 ^ k) 0 (contents l) /\
         grow can_alloc ctor_throws d = (mkDeque (Some s) 0 (Z.of_nat (length l)) (2 ^ k - 1), Ok tt).
Proof.
  intros HR Hfull. destruct (rep_capacity d l HR) as [(_ & -> & _ & _ & ->)|(s & k & Hk & Hd & HRi & Hl & Hc & Hf)].
  - rewrite grow_new. change (capacity Deque_new =? 0) with true. cbv zeta iota.
    change (max_size <? 8) with false. cbv iota. destruct (can_alloc 8); cbn; [|done].
    exists (replicate 8 None), 3. repeat split; try lia. apply (ring_fresh 8). lia.
  - rewrite Hf in Hfull. apply Z.eqb_eq in Hfull. rewrite Hc in *. pose proof (pow_range k Hk) as Hp.
    pose proof HRi as (_ & Hb & _).
    rewrite (proj2 (Z.eqb_neq _ _)) by lia. cbv zeta.
    rewrite Hd. unfold grow. cbn [arr mask begin_ end_].
    replace ((2 ^ k - 1 + 1) * 2) with (2 * 2 ^ k) by lia. rewrite pow_over by lia.
    destruct (Z.leb_spec 30 k); [done|].
    destruct (can_alloc (2 * 2 ^ k)); cbn [negb]; [|done].
    rewrite (u32_small (begin_ d + Z.of_nat (length l) - begin_ d)) by lia.
    replace (Z.to_nat (begin_ d + Z.of_nat (length l) - begin_ d)) with (length l) by lia.
    pose proof (grow_loop_ring k (begin_ d) (2 * 2 ^ k) s l (length l)
      (replicate (Z.to_nat (2 * 2 ^ k)) None) Hk HRi ltac:(lia) ltac:(lia)) as Hg.
    rewrite Nat.sub_diag, Z.add_0_r in Hg. rewrite take_0, drop_0 in Hg.
    specialize (Hg (ring_fresh (2 * 2 ^ k) ltac:(lia))). cbv zeta in Hg.
    destruct (existsb ctor_throws l); [by rewrite Hg|].
    destruct Hg as (s' & -> & HR').
    destruct (destroy_all k (begin_ d) s l Hk Hl HRi) as (s2 & -> & _).
    exists s', (k + 1). rewrite pow_double by lia. repeat split; try lia; try apply HR'.
    rewrite u32_small by lia. do 3 f_equal; lia.
Qed.

Lemma construct_spec s k b l v : 3 <= k <= 30 -> Z.of_nat (length l) < 2 ^ k ->
  ring s (2 ^ k) b (contents l) ->
  let d := mkDeque (Some s) b (b + Z.of_nat (length l)) (2 ^ k - 1) in
  let r := construct ctor_throws d (Z.land (end_ d) (mask d)) v in
  if ctor_throws v then r = (d, Err Ctor_exception)
  else exists s', r = (mkDeque (Some s') b (end_ d) (mask d), Ok tt) /\
         ring s' (2 ^ k) b (contents (l ++ [v])).
Proof.
  intros Hk Hl HR. pose proof HR as (_ & Hb & _). cbn. unfold construct; cbn.
  destruct (ctor_throws v); [done|]. rewrite slot_land by lia.
  destruct (ring_store s (2 ^ k) b _ (Z.of_nat (length l)) (Some v) HR ltac:(lia)) as (s' & -> & HR').
  exists s'. split; [done|]. eapply ring_ext; [exact HR'|].
  intros i Hi. cbn. by rewrite contents_snoc by lia.
Qed.

Lemma push_tail s k b l v : 3 <= k <= 30 -> Z.of_nat (length l) < 2 ^ k ->
  ring s (2 ^ k) b (contents l) ->
  let d := mkDeque (Some s) b (b + Z.of_nat (length l)) (2 ^ k - 1) in
  let '(d', r) := match construct ctor_throws d (Z.land (end_ d) (mask d)) v with
                  | (d, Err er) => (d, Err er)
                  | (d, Ok _) => (mkDeque (arr d) (begin_ d) (u32 (end_ d + 1)) (mask d), Ok tt)
                  end in
  let '(a', r') := apush (mkA (2 ^ k) l) v in
  arep d' a' /\ r = r'.
Proof.
  intros Hk Hl HR d. pose proof (construct_spec s k b l v Hk Hl HR) as Hc.
  pose proof (pow_range k Hk) as Hp. pose proof HR as (_ & Hb & _).
  unfold apush; cbv zeta in Hc; fold d in Hc. destruct (ctor_throws v).
  - rewrite Hc. split; [|done]. split; [apply rep_arr; [done|cbn; lia|done]|].
    unfold capacity; cbn. rewrite u32_small; lia.
  - destruct Hc as (s' & -> & HR'). split; [|done]. split; cbn.
    + rewrite u32_small by lia.
      replace (b + Z.of_nat (length l) + 1) with (b + Z.of_nat (length (l ++ [v])))
        by (rewrite length_app; cbn; lia).
      apply rep_arr; [done|rewrite length_app; cbn; lia|done].
    + unfold capacity; cbn. rewrite u32_small; lia.
Qed.

Lemma push_back_refines d a v : arep d a ->
  let '(d', r) := push_back can_alloc ctor_throws d v in
  let '(a', r') := apush_back a v in
  arep d' a' /\ r = r'.
Proof.
  intros [HR Hcap]. destruct a as [cap l]. cbn in *. subst cap.
  unfold push_back, apush_back. cbn [acap alist].
  assert (Hf : full d = (Z.of_nat (length l) =? capacity d)).
  { destruct (rep_capacity d l HR) as [(_ & -> & -> & -> & _)|(? & ? & _ & _ & _ & _ & _ & ?)]; done. }
  rewrite Hf. destruct (Z.of_nat (length l) =? capacity d) eqn:Hfull.
  - pose proof (grow_spec d l HR Hf) as Hg. cbv zeta in Hg |- *.
    destruct (max_size <? _); [rewrite Hg; done|].
    destruct (can_alloc _); cbn [negb] in Hg |- *; [|rewrite Hg; done].
    destruct (existsb ctor_throws l); [rewrite Hg; done|].
    destruct Hg as (s & k & Hk & -> & Hl & HRs & ->).
    by apply (push_tail s k 0 l v).
  - destruct (rep_capacity d l HR) as [(_ & -> & Hc & _)|(s & k & Hk & Hd & HRi & Hl & Hc & _)].
    { rewrite Hc in Hfull. done. }
    apply Z.eqb_neq in Hfull. rewrite Hc in *. rewrite Hd.
    apply (push_tail s k (begin_ d) l v); [done|lia|done].
Qed.

(** [emplace_back] does what [push_back] does and returns the new element. *)
Lemma emplace_back_push d a v : arep d a ->
  emplace_back can_alloc ctor_throws d v =
  let '(d', r) := push_back can_alloc ctor_throws d v in
  (d', match r with Ok _ => Ok v | Err e => Err e end).
Proof.
  intros [HR Hcap]. unfold emplace_back, push_back.
  destruct (if full d then _ else _) as [d1 [[]|e]]; [|done].
  unfold construct. destruct (arr d1); [|done]. destruct (ctor_throws v); [done|].
  destruct (store _ _ _) eqn:Hs; [|done]. cbn. f_equal.
  unfold store in Hs. case_bool_decide; [|done]. injection Hs as <-.
  unfold read. by rewrite list_lookup_insert_eq.
Qed.

Definition apop_back (a : adeque) : adeque * res unit :=
  match rev (alist a) with
  | [] => (a, Err Assert_failed)
  | _ :: r => (mkA (acap a) (rev r), Ok tt)
  end.

Definition apop_front (a : adeque) : adeque * res unit :=
  match alist a with
  | [] => (a, Err Assert_failed)
  | _ :: r => (mkA (acap a) r, Ok tt)
  end.

Lemma rep_nonempty d l : rep d l -> l <> [] ->
  exists s k, 3 <= k <= 30 /\ d = mkDeque (Some s) (begin_ d) (begin_ d + Z.of_nat (length l)) (2 ^ k - 1) /\
     ring s (2 ^ k) (begin_ d) (contents l) /\ Z.of_nat (length l) <= 2 ^ k /\
     empty d = false /\ 0 <= begin_ d < 2 ^ k /\ 8 <= 2 ^ k <= 2 ^ 30.
Proof.
  intros HR Hne. pose proof (rep_empty d l HR) as He.
  destruct (rep_capacity d l HR) as [(_ & ? & _)|(s & k & Hk & Hd & HRi & Hl & _)]; [done|].
  exists s, k. rewrite bool_decide_eq_false_2 in He by done.
  pose proof HRi as (_ & ? & _). pose proof (pow_range k Hk). done.
Qed.

Lemma rep_arr' s k b e l : 3 <= k <= 30 -> Z.of_nat (length l) <= 2 ^ k ->
  e = b + Z.of_nat (length l) -> ring s (2 ^ k) b (contents l) ->
  arep (mkDeque (Some s) b e (2 ^ k - 1)) (mkA (2 ^ k) l).
Proof.
  intros Hk Hl -> HR. pose proof (pow_range k Hk). split; [by apply rep_arr|].
  unfold capacity; cbn. rewrite u32_small; lia.
Qed.

Lemma arep_cap d l cap s k b e : arep d (mkA cap l) -> d = mkDeque (Some s) b e (2 ^ k - 1) ->
  3 <= k <= 30 -> cap = 2 ^ k.
Proof.
  intros [_ Hc] -> Hk. pose proof (pow_range k Hk). cbn in Hc. rewrite <- Hc.
  unfold capacity; cbn. rewrite u32_small; lia.
Qed.

Lemma pop_back_refines d a : arep d a ->
  let '(d', r) := pop_back d in let '(a', r') := apop_back a in arep d' a' /\ r = r'.
Proof.
  intros HA. pose proof HA as [HR _]. destruct a as [cap l]. cbn [alist] in HR.
  unfold pop_back, apop_back. cbn [alist acap].
  destruct (decide (l = [])) as [->|Hne].
  { rewrite (rep_empty d [] HR). done. }
  destruct (rep_nonempty d l HR Hne) as (s & k & Hk & Hd & HRi & Hl & -> & Hb & Hp).
  assert (cap = 2 ^ k) as -> by (eapply arep_cap; eauto). rewrite Hd. cbn.
  destruct l as [|x l' _] using rev_ind; [done|]. rewrite rev_app_distr. cbn. rewrite rev_involutive.
  rewrite length_app in *. cbn [length] in *.
  rewrite u32_small by lia.
  replace (begin_ d + Z.of_nat (length l' + 1) - 1) with (begin_ d + Z.of_nat (length l')) by lia.
  rewrite slot_land by lia.
  destruct (ring_destroy s (2 ^ k) (begin_ d) _ (Z.of_nat (length l')) x HRi ltac:(lia)) as (s' & -> & HR').
  { rewrite contents_snoc by lia. by rewrite Z.eqb_refl. }
  split; [|done]. apply rep_arr'; [done|lia|lia|]. eapply ring_ext; [exact HR'|].
  intros i Hi. cbn. rewrite contents_snoc by lia. zcases; [|done]. rewrite contents_none; [done|lia].
Qed.

Lemma pop_front_refines d a : arep d a ->
  let '(d', r) := pop_front d in let '(a', r') := apop_front a in arep d' a' /\ r = r'.
Proof.
  intros HA. pose proof HA as [HR _]. destruct a as [cap l]. cbn [alist] in HR.
  unfold pop_front, apop_front. cbn [alist acap].
  destruct (decide (l = [])) as [->|Hne].
  { rewrite (rep_empty d [] HR). done. }
  destruct (rep_nonempty d l HR Hne) as (s & k & Hk & Hd & HRi & Hl & -> & Hb & Hp).
  assert (cap = 2 ^ k) as -> by (eapply arep_cap; eauto). rewrite Hd. cbn [arr begin_ end_ mask].
  destruct l as [|x l]; [done|]. cbn [length] in *.
  destruct (ring_destroy s (2 ^ k) (begin_ d) _ 0 x HRi ltac:(lia) eq_refl) as (s' & Hs & HR').
  replace (pos (2 ^ k) (begin_ d) 0) with (begin_ d) in Hs by (unfold pos; zcases; lia). rewrite Hs.
  pose proof (ring_rotate s' (2 ^ k) (begin_ d) _ HR' eq_refl) as HR2.
  assert (HR3 : ring s' (2 ^ k) (pos (2 ^ k) (begin_ d) 1) (contents l)).
  { eapply ring_ext; [exact HR2|]. intros i Hi. cbn. zcases; try lia.
    - rewrite contents_none; [done|lia].
    - unfold contents. by replace (Z.to_nat (i + 1)) with (S (Z.to_nat i)) by lia. }
  zcases; (split; [|done]); apply rep_arr'; try lia.
  - rewrite (u32_small (2 ^ k - 1 + 1)) by lia. rewrite !u32_small by lia. lia.
  - rewrite u32_small by lia. replace (pos _ _ 1) with 0 in HR3 by (unfold pos; zcases; lia).
    by replace (begin_ d - (2 ^ k - 1)) with 0 by lia.
  - rewrite u32_small; lia.
  - rewrite u32_small by lia. by replace (pos _ _ 1) with (begin_ d + 1) in HR3 by (unfold pos; zcases; lia).
Qed.

Lemma clear_refines d a : arep d a ->
  let '(d', r) := clear d in arep d' (mkA (acap a) []) /\ r = Ok tt.
Proof.
  intros HA. pose proof HA as [HR Hcap]. destruct a as [cap l]. cbn in *.
  destruct (rep_capacity d l HR) as [(_ & -> & _ & _ & ->)|(s & k & Hk & Hd & HRi & Hl & Hc & Hf)].
  { done. }
  assert (cap = 2 ^ k) as -> by (eapply arep_cap; eauto). pose proof (pow_range k Hk).
  pose proof HRi as (_ & Hb & _).
  rewrite Hd. unfold clear. cbn [arr begin_ end_ mask].
  rewrite (u32_small (begin_ d + Z.of_nat (length l) - begin_ d)) by lia.
  replace (Z.to_nat (begin_ d + Z.of_nat (length l) - begin_ d)) with (length l) by lia.
  destruct (destroy_all k (begin_ d) s l Hk Hl HRi) as (s2 & -> & HR2).
  split; [|done]. apply rep_arr'; [done|cbn; lia|done|].
  destruct HR2 as (? & _ & H2). split; [done|]. split; [lia|]. intros i Hi.
  set (j := if begin_ d <=? i then i - begin_ d else i - begin_ d + 2 ^ k).
  change (Some (contents [] i)) with (Some (@contents T [] j)).
  rewrite <- (H2 j) by (unfold j; zcases; lia). do 2 f_equal. unfold pos, j; zcases; lia.
Qed.

Lemma index_spec d l i x : rep d l -> 0 <= i -> contents l i = Some x -> index d i = Ok x.
Proof.
  intros HR Hi Hx.
  assert (Hlt : i < Z.of_nat (length l)).
  { destruct (Z.lt_ge_cases i (Z.of_nat (length l))); [done|]. by rewrite contents_none in Hx. }
  destruct (rep_nonempty d l HR) as (s & k & Hk & Hd & HRi & Hl & _ & Hb & Hp).
  { intros ->. cbn in Hlt. lia. }
  rewrite Hd. unfold index, slot. cbn [arr begin_ end_ mask].
  rewrite (u32_small i) by lia. rewrite u32_small by lia. rewrite slot_land by lia.
  apply (ring_read s (2 ^ k) (begin_ d) (contents l)); [done|lia|done].
Qed.

Definition elem (o : option T) (e : deque_error) : res T :=
  match o with Some x => Ok x | None => Err e end.

Lemma at_spec d l i : rep d l -> - 2 ^ 31 <= i < 2 ^ 31 ->
  at_ d i = elem (if i <? 0 then None else l !! Z.to_nat i) Out_of_range.
Proof.
  intros HR Hi. unfold at_. destruct (rep_size d l HR) as [Hs Hm]. unfold size in Hs. rewrite Hs.
  assert (max_size = 2 ^ 30) by reflexivity.
  destruct (Z.ltb_spec i 0); [done|]. cbn [orb]. rewrite u32_small by lia.
  destruct (Z.leb_spec (Z.of_nat (length l)) i).
  - rewrite (proj2 (lookup_ge_None l _)); [done|lia].
  - destruct (contents_some l i ltac:(lia)) as [x Hx].
    rewrite (index_spec d l i x) by (done || lia). unfold contents in Hx. by rewrite Hx.
Qed.

Lemma front_spec d l : rep d l -> front d = elem (head l) Undefined.
Proof.
  intros HR. destruct (rep_capacity d l HR) as [(_ & -> & _ & _ & ->)|(s & k & Hk & Hd & HRi & Hl & _)]; [done|].
  pose proof (pow_range k Hk). pose proof HRi as (_ & Hb & Hr). rewrite Hd.
  unfold front, slot, read. cbn [arr begin_].
  specialize (Hr 0 ltac:(lia)). replace (pos (2 ^ k) (begin_ d) 0) with (begin_ d) in Hr by (unfold pos; zcases; lia).
  rewrite Hr. by destruct l.
Qed.

Lemma back_spec d l : rep d l -> back d = elem (list.last l) Undefined.
Proof.
  intros HR. destruct (rep_capacity d l HR) as [(_ & -> & _ & _ & ->)|(s & k & Hk & Hd & HRi & Hl & _)]; [done|].
  pose proof (pow_range k Hk). pose proof HRi as (_ & Hb & Hr). rewrite Hd.
  unfold back, slot, read. cbn [arr begin_ end_ mask].
  destruct l as [|x l _] using rev_ind.
  - cbn [length]. replace (Z.land _ _) with (pos (2 ^ k) (begin_ d) (2 ^ k - 1)); [by rewrite Hr by lia|].
    destruct (Z.eq_dec (begin_ d) 0) as [->|].
    + unfold pos. zcases; [|lia]. change (u32 (0 + Z.of_nat 0 - 1)) with (Z.ones 32).
      replace (2 ^ k - 1) with (Z.ones k) by (rewrite Z.ones_equiv; lia).
      rewrite Z.land_comm, Z.land_ones_low; [lia|rewrite Z.ones_equiv; lia|].
      rewrite Z.ones_equiv. apply Z.log2_lt_pow2; [lia|].
      assert (2 ^ 30 < 2 ^ 32) by (apply Z.pow_lt_mono_r; lia). lia.
    + replace (u32 _) with (0 + (begin_ d - 1)) by (rewrite u32_small; lia).
      rewrite slot_land by lia. unfold pos. zcases; lia.
  - rewrite length_app in *. cbn [length] in *. rewrite u32_small by lia.
    replace (begin_ d + Z.of_nat (length l + 1) - 1) with (begin_ d + Z.of_nat (length l)) by lia.
    rewrite slot_land by lia. rewrite Hr by lia. rewrite contents_snoc by lia. rewrite Z.eqb_refl.
    by rewrite list.last_snoc.
Qed.

(** Operations of the class and what each returns. *)
Inductive dop :=
| DPush (v : T) | DEmplace (v : T) | DPopBack | DPopFront | DClear
| DFront | DBack | DAt (i : Z) | DSize | DEmpty.

Inductive dout := OUnit (r : res unit) | OElem (r : res T) | ONum (n : Z) | OBool (b : bool).

Definition dstep d (o : dop) : Deque T * dout :=
  match o with
  | DPush v => let '(d', r) := push_back can_alloc ctor_throws d v in (d', OUnit r)
  | DEmplace v => let '(d', r) := emplace_back can_alloc ctor_throws d v in (d', OElem r)
  | DPopBack => let '(d', r) := pop_back d in (d', OUnit r)
  | DPopFront => let '(d', r) := pop_front d in (d', OUnit r)
  | DClear => let '(d', r) := clear d in (d', OUnit r)
  | DFront => (d, OElem (front d))
  | DBack => (d, OElem (back d))
  | DAt i => (d, OElem (at_ d (swrap 32 i)))
  | DSize => (d, ONum (size d))
  | DEmpty => (d, OBool (empty d))
  end.

Definition astep (a : adeque) (o : dop) : adeque * dout :=
  match o with
  | DPush v => let '(a', r) := apush_back a v in (a', OUnit r)
  | DEmplace v => let '(a', r) := apush_back a v in
                  (a', OElem (match r with Ok _ => Ok v | Err e => Err e end))
  | DPopBack => let '(a', r) := apop_back a in (a', OUnit r)
  | DPopFront => let '(a', r) := apop_front a in (a', OUnit r)
  | DClear => (mkA (acap a) [], OUnit (Ok tt))
  | DFront => (a, OElem (elem (head (alist a)) Undefined))
  | DBack => (a, OElem (elem (list.last (alist a)) Undefined))
  | DAt i => (a, OElem (elem (if swrap 32 i <? 0 then None else alist a !! Z.to_nat (swrap 32 i)) Out_of_range))
  | DSize => (a, ONum (Z.of_nat (length (alist a))))
  | DEmpty => (a, OBool (bool_decide (alist a = [])))
  end.

Fixpoint run {S : Type} (step : S -> dop -> S * dout) (s : S) (ops : list dop) : S * list dout :=
  match ops with
  | [] => (s, [])
  | o :: ops => let '(s1, r) := step s o in let '(s2, rs) := run step s1 ops in (s2, r :: rs)
  end.

Lemma dstep_refines d a o : arep d a ->
  arep (dstep d o).1 (astep a o).1 /\ (dstep d o).2 = (astep a o).2.
Proof.
  intros HA. pose proof HA as [HR _]. destruct o; cbn.
  - pose proof (push_back_refines d a v HA). destruct (push_back _ _ _ _), (apush_back _ _).
    cbn. by destruct H as [? ->].
  - rewrite (emplace_back_push d a v HA). pose proof (push_back_refines d a v HA).
    destruct (push_back _ _ _ _), (apush_back _ _). cbn. by destruct H as [? ->].
  - pose proof (pop_back_refines d a HA). destruct (pop_back _), (apop_back _). cbn. by destruct H as [? ->].
  - pose proof (pop_front_refines d a HA). destruct (pop_front _), (apop_front _). cbn. by destruct H as [? ->].
  - pose proof (clear_refines d a HA). destruct (clear _). cbn. by destruct H as [? ->].
  - by rewrite (front_spec d (alist a) HR).
  - by rewrite (back_spec d (alist a) HR).
  - rewrite (at_spec d (alist a)); [done|done|]. unfold swrap. pose proof (Z.mod_pos_bound (i + 2 ^ (32 - 1)) (2 ^ 32) ltac:(lia)).
    change (2 ^ (32 - 1)) with (2 ^ 31) in *. lia.
  - split; [done|]. f_equal. apply rep_size. done.
  - by rewrite (rep_empty d (alist a) HR).
Qed.

Lemma run_refines d a ops : arep d a ->
  arep (run dstep d ops).1 (run astep a ops).1 /\ (run dstep d ops).2 = (run astep a ops).2.
Proof.
  revert d a. induction ops as [|o ops IH]; intros d a HA; [done|]. cbn.
  destruct (dstep_refines d a o HA) as [HA1 Ho].
  destruct (dstep d o) as [d1 r1], (astep a o) as [a1 r1']. cbn in *. subst r1'.
  destruct (IH d1 a1 HA1) as [HA2 Hr].
  destruct (run dstep d1 ops), (run astep a1 ops). cbn in *. by subst.
Qed.

Lemma copy_range_ring src N b l n dst i p :
  ring src N b (contents l) -> (i + n <= length l)%nat -> Z.of_nat (length l) <= N ->
  (forall j, 0 <= j < Z.of_nat n -> pos N b (Z.of_nat i + j) = p + j) ->
  ring dst N 0 (contents (take i l)) ->
  let r := copy_range ctor_throws n src p (p + Z.of_nat n) dst (Z.of_nat i) in
  if existsb ctor_throws (take n (drop i l)) then r = Err Ctor_exception
  else exists s', r = Ok s' /\ ring s' N 0 (contents (take (i + n) l)).
Proof.
  intros HR. revert dst i p. induction n as [|n IH]; intros dst i p Hn Hl Hpos HD; cbn [copy_range].
  { cbn. exists dst. by rewrite Nat.add_0_r. }
  rewrite (proj2 (Z.leb_gt _ _)) by lia.
  destruct (contents_some l (Z.of_nat i) ltac:(lia)) as [x Hx].
  pose proof (ring_read src N b _ (Z.of_nat i) x HR ltac:(lia) Hx) as Hrd.
  replace (pos N b (Z.of_nat i)) with p in Hrd.
  2:{ specialize (Hpos 0 ltac:(lia)). rewrite !Z.add_0_r in Hpos. done. }
  rewrite Hrd. unfold contents in Hx. rewrite Nat2Z.id in Hx.
  rewrite (drop_S l x i Hx). cbn. destruct (ctor_throws x); [done|]. cbn.
  destruct (ring_store dst N 0 _ (Z.of_nat i) (Some x) HD ltac:(lia)) as (s1 & Hs1 & HD1).
  replace (pos N 0 (Z.of_nat i)) with (Z.of_nat i) in Hs1 by (unfold pos; zcases; lia).
  rewrite Hs1. specialize (IH s1 (S i) (p + 1) ltac:(lia) Hl).
  replace (p + 1 + Z.of_nat n) with (p + Z.of_nat (S n)) in IH by lia.
  replace (Z.of_nat (S i)) with (Z.of_nat i + 1) in IH by lia.
  replace (S i + n)%nat with (i + S n)%nat in IH by lia.
  apply IH.
  - intros j Hj. rewrite <- Z.add_assoc, Hpos by lia. lia.
  - eapply ring_ext; [exact HD1|]. intros j Hj. cbn.
    rewrite (take_S_r l i x Hx), contents_snoc by lia.
    by rewrite length_take, Nat.min_l by lia.
Qed.

(** Reading the contents of [r] into a fresh array, in one or two pieces. *)
Lemma copy_contents s k b l : 3 <= k <= 30 -> ring s (2 ^ k) b (contents l) -> Z.of_nat (length l) <= 2 ^ k ->
  let new := replicate (Z.to_nat (2 ^ k)) None in
  let r :=
    if b + Z.of_nat (length l) <? 2 ^ k then copy_range ctor_throws (length l) s b (b + Z.of_nat (length l)) new 0
    else match copy_range ctor_throws (Z.to_nat (2 ^ k - b)) s b (2 ^ k) new 0 with
         | Err er => Err er
         | Ok part => let tail := b + Z.of_nat (length l) - 2 ^ k in
                      copy_range ctor_throws (Z.to_nat tail) s 0 tail part (2 ^ k - b)
         end in
  if existsb ctor_throws l then r = Err Ctor_exception
  else exists s', r = Ok s' /\ ring s' (2 ^ k) 0 (contents l).
Proof.
  intros Hk HR Hl. pose proof (pow_range k Hk). pose proof HR as (_ & Hb & _).
  pose proof (@ring_fresh T (2 ^ k) ltac:(lia)) as HF. cbv zeta.
  destruct (Z.ltb_spec (b + Z.of_nat (length l)) (2 ^ k)).
  - pose proof (copy_range_ring s (2 ^ k) b l (length l) (replicate (Z.to_nat (2 ^ k)) None) 0 b HR ltac:(lia) Hl) as Hc.
    cbn [Nat.add] in Hc. rewrite drop_0, firstn_all in Hc.
    apply Hc; [|done]. intros j Hj. unfold pos. zcases; lia.
  - pose proof (copy_range_ring s (2 ^ k) b l (Z.to_nat (2 ^ k - b))
      (replicate (Z.to_nat (2 ^ k)) None) 0 b HR ltac:(lia) Hl) as H1.
    replace (b + Z.of_nat (Z.to_nat (2 ^ k - b))) with (2 ^ k) in H1 by lia.
    rewrite drop_0 in H1. cbn [Nat.add] in H1. change (Z.of_nat 0) with 0 in H1.
    assert (Hsplit : existsb ctor_throws l = existsb ctor_throws (take (Z.to_nat (2 ^ k - b)) l)
              || existsb ctor_throws (drop (Z.to_nat (2 ^ k - b)) l))
      by (by rewrite <- existsb_app, take_drop).
    rewrite Hsplit. clear Hsplit.
    destruct (existsb ctor_throws (take _ l)); cbn [orb]; cbv zeta in H1.
    { rewrite H1; [done|intros; unfold pos; zcases; lia|done]. }
    destruct H1 as (s1 & -> & HR1); [intros; unfold pos; zcases; lia|done|].
    pose proof (copy_range_ring s (2 ^ k) b l (Z.to_nat (b + Z.of_nat (length l) - 2 ^ k)) s1
      (Z.to_nat (2 ^ k - b)) 0 HR ltac:(lia) Hl) as H2.
    rewrite (take_ge (drop _ l)) in H2 by (rewrite length_drop; lia).
    replace (0 + Z.of_nat (Z.to_nat (b + Z.of_nat (length l) - 2 ^ k)))
      with (b + Z.of_nat (length l) - 2 ^ k) in H2 by lia.
    replace (Z.of_nat (Z.to_nat (2 ^ k - b))) with (2 ^ k - b) in H2 by lia.
    rewrite (take_ge l (_ + _)) in H2 by lia.
    apply H2; [|done]. intros j Hj. unfold pos. zcases; lia.
Qed.

(** Copying keeps the contents and the capacity, and fails only when the
    allocation or an element's copy does. *)
Lemma Deque_copy_rep d l : rep d l ->
  if (0 <? capacity d) && negb (can_alloc (capacity d)) then Deque_copy can_alloc ctor_throws d = Err Out_of_memory
  else if existsb ctor_throws l then Deque_copy can_alloc ctor_throws d = Err Ctor_exception
  else exists d', Deque_copy can_alloc ctor_throws d = Ok d' /\ arep d' (mkA (capacity d) l).
Proof.
  intros HR. destruct (rep_capacity d l HR) as [(_ & -> & _ & _ & ->)|(s & k & Hk & Hd & HRi & Hl & Hc & _)].
  { cbn. exists Deque_new. split; [done|]. split; [apply rep_new|done]. }
  pose proof (pow_range k Hk). pose proof HRi as (_ & Hb & _).
  destruct (rep_size d l HR) as [Hs _].
  unfold Deque_copy. rewrite Hs, Hc. cbv zeta. rewrite (proj2 (Z.ltb_lt 0 _)) by lia. cbn [andb].
  destruct (can_alloc (2 ^ k)); cbn [negb]; [|done].
  rewrite (proj2 (Z.leb_le (Z.of_nat (length l)) (2 ^ k))) by lia. cbn [orb negb].
  pose proof (copy_contents s k (begin_ d) l Hk HRi Hl) as Hcp. cbv zeta in Hcp.
  rewrite Hd. cbn [arr begin_ end_ mask]. rewrite Nat2Z.id.
  assert (Ht : 2 ^ k <= begin_ d + Z.of_nat (length l) ->
    Z.land (begin_ d + Z.of_nat (length l)) (2 ^ k - 1) = begin_ d + Z.of_nat (length l) - 2 ^ k).
  { intros. rewrite land_pos by lia. unfold pos. zcases; lia. }
  destruct (Z.ltb_spec (begin_ d + Z.of_nat (length l)) (2 ^ k)); [|rewrite Ht by lia].
  all: destruct (existsb ctor_throws l); [by rewrite Hcp|].
  all: destruct Hcp as (s' & -> & HR'); eexists; split; [done|]; apply rep_arr'; [done|lia|lia|done].
Qed.

Lemma eq_loop_spec eqT n d r (l1 l2 : list T) i : (forall x y, eqT x y = true <-> x = y) ->
  rep d l1 -> rep r l2 -> length l1 = length l2 -> (i + n = length l1)%nat ->
  eq_loop eqT n d r (Z.of_nat i) = Ok true <-> drop i l1 = drop i l2.
Proof.
  intros Heq HR1 HR2 Hlen. revert i. induction n as [|n IH]; intros i Hi; cbn [eq_loop].
  - rewrite !drop_ge by lia. done.
  - destruct (rep_size d l1 HR1) as [-> _]. rewrite (proj2 (Z.leb_gt _ _)) by lia.
    destruct (contents_some l1 (Z.of_nat i) ltac:(lia)) as [x Hx].
    destruct (contents_some l2 (Z.of_nat i) ltac:(lia)) as [y Hy].
    rewrite (index_spec d l1 (Z.of_nat i) x HR1 ltac:(lia) Hx), (index_spec r l2 (Z.of_nat i) y HR2 ltac:(lia) Hy).
    unfold contents in Hx, Hy. rewrite Nat2Z.id in Hx, Hy.
    rewrite (drop_S l1 x i Hx), (drop_S l2 y i Hy).
    destruct (eqT x y) eqn:Hxy.
    + apply Heq in Hxy as ->. replace (Z.of_nat i + 1) with (Z.of_nat (S i)) by lia.
      rewrite IH by lia. split; [by intros ->|by intros [=]].
    + split; [done|]. intros [= He _]. apply Heq in He. congruence.
Qed.

Lemma Deque_eq_rep eqT d r l1 l2 : (forall x y, eqT x y = true <-> x = y) ->
  rep d l1 -> rep r l2 -> Deque_eq eqT d r = Ok true <-> l1 = l2.
Proof.
  intros Heq HR1 HR2. unfold Deque_eq.
  destruct (rep_size d l1 HR1) as [-> _], (rep_size r l2 HR2) as [-> _].
  destruct (Z.eqb_spec (Z.of_nat (length l1)) (Z.of_nat (length l2))); cbn [negb].
  - rewrite Nat2Z.id. rewrite (eq_loop_spec eqT _ d r l1 l2 0) by (done || lia). done.
  - split; [done|]. intros ->. done.
Qed.

End Refinement.

(** A deque reached from the empty one by a sequence of operations, and its
    abstract counterpart. *)
Definition reached {T} (ca : Z -> bool) (ct : T -> bool) (ops : list dop) : Deque T * list dout :=
  run (dstep ca ct) Deque_new ops.
Definition areached {T} (ca : Z -> bool) (ct : T -> bool) (ops : list (@dop T)) : adeque * list dout :=
  run (astep ca ct) (mkA 0 []) ops.

Lemma reached_refines {T} ca (ct : T -> bool) ops :
  arep (reached ca ct ops).1 (areached ca ct ops).1 /\ (reached ca ct ops).2 = (areached ca ct ops).2.
Proof. apply run_refines. split; [apply rep_new|done]. Qed.

(** C9: whatever sequence of operations is run on a fresh Deque, with any
    allocator and any constructor failures, every call returns what the
    abstract deque (a capacity and a list) returns, including which exception
    is thrown, and the final ring holds exactly the abstract list: a failed
    push leaves the contents unchanged, no slot is read or destroyed without
    holding an object, and no object is leaked or destroyed twice. *)
Theorem Deque_refines_list {T} (can_alloc : Z -> bool) (ctor_throws : T -> bool) (ops : list dop) :
  let '(d, outs) := run (dstep can_alloc ctor_throws) Deque_new ops in
  let '(a, aouts) := run (astep can_alloc ctor_throws) (mkA 0 []) ops in
  outs = aouts /\ rep d (alist a) /\ capacity d = acap a /\ size d = Z.of_nat (length (alist a)).
Proof.
  destruct (reached_refines can_alloc ctor_throws ops) as [[HR Hc] Ho].
  pose proof (rep_size _ _ HR) as [Hs _]. unfold reached, areached in *.
  destruct (run (dstep _ _) _ _), (run (astep _ _) _ _). done.
Qed.

(** Copying a deque reached by any operations gives a deque with the same
    contents and capacity, whether or not the ring is wrapped; it fails only
    by running out of memory or by an element whose copy throws. *)
Theorem Deque_copy_correct {T} (can_alloc : Z -> bool) (ctor_throws : T -> bool) (ops : list dop) :
  let d := (run (dstep can_alloc ctor_throws) Deque_new ops).1 in
  let a := (run (astep can_alloc ctor_throws) (mkA 0 []) ops).1 in
  if (0 <? acap a) && negb (can_alloc (acap a)) then Deque_copy can_alloc ctor_throws d = Err Out_of_memory
  else if existsb ctor_throws (alist a) then Deque_copy can_alloc ctor_throws d = Err Ctor_exception
  else exists d', Deque_copy can_alloc ctor_throws d = Ok d' /\ begin_ d' = 0 /\
         rep d' (alist a) /\ capacity d' = acap a.
Proof.
  destruct (reached_refines can_alloc ctor_throws ops) as [[HR Hc] _]. cbv zeta.
  fold (reached can_alloc ctor_throws ops) (areached can_alloc ctor_throws ops).
  pose proof (Deque_copy_rep can_alloc ctor_throws _ _ HR) as H. rewrite Hc in H.
  destruct (_ && _); [done|]. destruct (existsb _ _); [done|].
  destruct H as (d' & Hd & HR' & Hc'). exists d'. repeat split; try done.
  unfold Deque_copy in Hd. destruct (_ && _); [done|]. destruct (negb _); [done|].
  destruct (if end_ _ <? _ then _ else _); [|done]. by injection Hd as <-.
Qed.

(** Operator== on two deques reached by any operations decides equality
    of their contents, regardless of capacity and of where each ring starts. *)
Theorem Deque_eq_correct {T} (can_alloc : Z -> bool) (ctor_throws : T -> bool)
    (eqT : T -> T -> bool) (ops1 ops2 : list dop) :
  (forall x y, eqT x y = true <-> x = y) ->
  Deque_eq eqT (run (dstep can_alloc ctor_throws) Deque_new ops1).1
               (run (dstep can_alloc ctor_throws) Deque_new ops2).1 = Ok true <->
  alist (run (astep can_alloc ctor_throws) (mkA 0 []) ops1).1 =
  alist (run (astep can_alloc ctor_throws) (mkA 0 []) ops2).1.
Proof.
  intros Heq. destruct (reached_refines can_alloc ctor_throws ops1) as [[HR1 _] _].
  destruct (reached_refines can_alloc ctor_throws ops2) as [[HR2 _] _].
  by apply Deque_eq_rep.
Qed.

(** Two rings with the same contents, one of them rotated. *)
Lemma Deque_eq_witness :
  (forall x y : Z, Z.eqb x y = true <-> x = y) /\
  Deque_eq Z.eqb
    (run (dstep (fun _ => true) (fun _ => false)) Deque_new [DPush 7; DPush 1; DPopFront; DPush 2]).1
    (run (dstep (fun _ => true) (fun _ => false)) Deque_new [DPush 1; DPush 2]).1 = Ok true.
Proof.
  split; [apply Z.eqb_eq|].
  apply (Deque_eq_correct (fun _ => true) (fun _ => false) Z.eqb [DPush 7; DPush 1; DPopFront; DPush 2] [DPush 1; DPush 2]).
  - apply Z.eqb_eq.
  - vm_compute. reflexivity.
Defined.
