(* ===== verification/CompressedInt.v ===== *)
(** flow/flow/include/flow/CompressedInt.h: the order-preserving variable
    length encoding of signed integers, its decoder, and their round trip. *)

From Stdlib Require Import ZArith List Lia Bool.
From S2P Require Import Prelude.
Import ListNotations.
#[local] Open Scope Z_scope.

Section CompressedInt.

(** sizeof(IntType): the integer is signed, of [8 * sz] bits. *)
Context (sz : nat).
Definition int_bits : Z := 8 * Z.of_nat sz.

(** ** The encoder

    [buf] is written from its end; the list holds [buf[iv ..]]. *)

(** [while (v) { buf[--iv] = (uint8_t)v; v >>= 8; }] *)
Fixpoint value_bytes (fuel : nat) (v : Z) (buf : list Z) : list Z :=
  match fuel with
  | O => buf
  | S f => if v =? 0 then buf else value_bytes f (Z.shiftr v 8) (u8 v :: buf)
  end.

(** [while (!(b & 0x80)) { --bitlen; b <<= 1; }] *)
Fixpoint leading_zeros (fuel : nat) (b bitlen : Z) : Z :=
  match fuel with
  | O => bitlen
  | S f => if Z.land b 128 =? 0 then leading_zeros f (u8 (Z.shiftl b 1)) (bitlen - 1) else bitlen
  end.

Definition bit_length (buf : list Z) : Z :=
  let bitlen := Z.of_nat (length buf) * 8 in
  match buf with
  | [] => bitlen
  | b :: _ => leading_zeros 8 b bitlen
  end.

(** [buf[ih] |= b] *)
Definition or_at (buf : list Z) (ih : nat) (b : Z) : list Z :=
  firstn ih buf ++ match skipn ih buf with [] => [] | x :: r => Z.lor x b :: r end.

(** [for (hb = encodedLen; hb > 0; --hb)]: the sign bit and the unary length. *)
Fixpoint header_bits (hb : nat) (buf : list Z) (ih : nat) (b : Z) : list Z :=
  match hb with
  | O => buf
  | S h => let '(ih, b) := if b =? 0 then (S ih, 128) else (ih, b) in
           header_bits h (or_at buf ih b) ih (Z.shiftr b 1)
  end.

(** What [serialize] appends to the archive for [value]. *)
Definition encode (value : Z) : list Z :=
  let neg := value <? 0 in
  let v := if neg then Z.lnot value else value in
  let buf := value_bytes sz v [] in
  let encodedLen := Z.to_nat (bit_length buf / 7 + 1) in
  let buf := repeat 0 (encodedLen - length buf) ++ buf in
  let buf := header_bits encodedLen buf 0 128 in
  if neg then map (fun x => u8 (Z.lnot x)) buf else buf.

(** ** The decoder, reading from the rest of the archive; [None] when it runs out *)

Definition flip (positive : bool) (b : Z) : Z := if positive then b else u8 (Z.lnot b).

(** The unary length: returns the bytes still to read, the residual first
    value byte and the unread input. *)
Fixpoint scan_header (fuel : nat) (positive : bool) (b hb bytesToRead : Z) (input : list Z)
    : option (Z * Z * list Z) :=
  match fuel with
  | O => None
  | S f =>
      match (if hb =? 0 then
               match input with
               | [] => None
               | x :: r => Some (flip positive x, 128, bytesToRead - 1, r)
               end
             else Some (b, hb, bytesToRead, input)) with
      | None => None
      | Some (b, hb, n, input) =>
          if Z.land b hb =? 0 then Some (n, b, input)
          else scan_header f positive (Z.land b (Z.lnot hb)) (Z.shiftr hb 1) (n + 1) input
      end
  end.

(** [while (bytesToRead-- != 0)] *)
Fixpoint read_value (n : nat) (positive : bool) (value : Z) (input : list Z) : option (Z * list Z) :=
  match n with
  | O => Some (value, input)
  | S m => match input with
           | [] => None
           | x :: r => read_value m positive
                         (Z.lor (swrap int_bits (Z.shiftl value 8)) (flip positive x)) r
           end
  end.

Definition decode (input : list Z) : option (Z * list Z) :=
  match input with
  | [] => None
  | b :: input =>
      let positive := negb (Z.land b 128 =? 0) in
      let b := Z.land (flip positive b) 127 in
      match scan_header (8 * S (length input)) positive b 64 0 input with
      | None => None
      | Some (n, b, input) =>
          match read_value (Z.to_nat n) positive b input with
          | None => None
          | Some (value, input) => Some (if positive then value else Z.lnot value, input)
          end
      end
  end.

End CompressedInt.

(** The encodings the repository's own test lists. *)
Example encode_tests :
  (encode 4 (-2), encode 4 (-1), encode 4 0, encode 4 1, encode 4 2, encode 8 (2 ^ 62))
  = ([126], [127], [128], [129], [130], [255; 192; 64; 0; 0; 0; 0; 0; 0; 0]).
Proof. vm_compute. reflexivity. Qed.

(** ** Big-endian byte strings *)

Definition be (n : nat) (v : Z) : list Z := rev (le_encode n v).

Lemma be_length n v : length (be n v) = n.
Proof. unfold be. rewrite length_rev. apply le_encode_length. Qed.

Lemma be_bytes n v : bytes_ok (be n v).
Proof. unfold be, bytes_ok. apply Forall_rev, le_encode_bytes. Qed.

Lemma le_encode_snoc n v : le_encode (S n) v = le_encode n v ++ [(v / 256 ^ Z.of_nat n) mod 256].
Proof.
  revert v. induction n as [|n IH]; intros v; [cbn; now rewrite Z.div_1_r|].
  cbn [le_encode app]. f_equal. cbn [le_encode] in IH. rewrite IH. do 3 f_equal.
  rewrite Nat2Z.inj_succ, Z.pow_succ_r, Z.div_div by lia. reflexivity.
Qed.

Lemma be_cons n v : be (S n) v = (v / 256 ^ Z.of_nat n) mod 256 :: be n v.
Proof. unfold be. rewrite le_encode_snoc, rev_app_distr. reflexivity. Qed.

Lemma le_encode_mod n v c : le_encode n (v + c * 256 ^ Z.of_nat n) = le_encode n v.
Proof.
  rewrite <- (le_encode_decode (le_encode n (v + _))), <- (le_encode_decode (le_encode n v))
    by apply le_encode_bytes.
  rewrite !le_encode_length, !le_decode_encode, Z.mod_add by lia. reflexivity.
Qed.

Lemma be_mod n v c : be n (v + c * 256 ^ Z.of_nat n) = be n v.
Proof. unfold be. now rewrite le_encode_mod. Qed.

Lemma be_pad n m v : 0 <= v < 256 ^ Z.of_nat n -> be (m + n) v = repeat 0 m ++ be n v.
Proof.
  intros Hv. induction m as [|m IH]; [reflexivity|]. cbn [Nat.add repeat app].
  rewrite be_cons, IH. f_equal. rewrite Z.div_small; [reflexivity|]. split; [lia|].
  apply Z.lt_le_trans with (256 ^ Z.of_nat n); [lia|]. apply Z.pow_le_mono_r; lia.
Qed.

(** Horner evaluation of a big-endian string is the number it encodes. *)
Definition horner (a : Z) (l : list Z) : Z := fold_left (fun a b => a * 256 + b) l a.

Lemma horner_be n a v : 0 <= v < 256 ^ Z.of_nat n -> horner a (be n v) = a * 256 ^ Z.of_nat n + v.
Proof.
  revert a v. induction n as [|n IH]; intros a v Hv; [cbn in *; lia|].
  rewrite Nat2Z.inj_succ, Z.pow_succ_r in * by lia.
  rewrite be_cons. unfold horner in *. cbn [fold_left].
  assert (H1 : (v / 256 ^ Z.of_nat n) mod 256 = v / 256 ^ Z.of_nat n).
  { apply Z.mod_small. split; [apply Z.div_pos; lia|apply Z.div_lt_upper_bound; lia]. }
  pose proof (Z.div_mod v (256 ^ Z.of_nat n) ltac:(lia)) as Hdm.
  pose proof (Z.mod_pos_bound v (256 ^ Z.of_nat n) ltac:(lia)) as Hm.
  rewrite H1.
  replace (be n v) with (be n (v mod 256 ^ Z.of_nat n)).
  - rewrite IH by lia. nia.
  - rewrite <- (be_mod n (v mod _) (v / 256 ^ Z.of_nat n)). f_equal. lia.
Qed.

(** Strings of one length compare as the numbers do, at a byte where they differ. *)
Definition lexd (a b : list Z) : Prop :=
  exists p x y ra rb, a = p ++ x :: ra /\ b = p ++ y :: rb /\ x < y.

Lemma lexd_head x y ra rb : x < y -> lexd (x :: ra) (y :: rb).
Proof. intros. exists [], x, y, ra, rb. auto. Qed.

Lemma lexd_cons x ra rb : lexd ra rb -> lexd (x :: ra) (x :: rb).
Proof. intros (p & a & b & r1 & r2 & -> & -> & H). exists (x :: p), a, b, r1, r2. auto. Qed.

Lemma be_lexd n v w : 0 <= v -> w < 256 ^ Z.of_nat n -> v < w -> lexd (be n v) (be n w).
Proof.
  revert v w. induction n as [|n IH]; intros v w Hv Hw H; [cbn in *; lia|].
  rewrite Nat2Z.inj_succ, Z.pow_succ_r in Hw by lia.
  set (N := 256 ^ Z.of_nat n) in *. assert (0 < N) by (apply Z.pow_pos_nonneg; lia).
  pose proof (Z.div_mod v N ltac:(lia)). pose proof (Z.mod_pos_bound v N ltac:(lia)).
  pose proof (Z.div_mod w N ltac:(lia)). pose proof (Z.mod_pos_bound w N ltac:(lia)).
  assert (v / N <= w / N) by (apply Z.div_le_mono; lia).
  assert (w / N < 256) by (apply Z.div_lt_upper_bound; lia).
  assert (0 <= v / N) by (apply Z.div_pos; lia).
  rewrite !be_cons. fold N. rewrite !(Z.mod_small (_ / N)) by lia.
  destruct (Z.eq_dec (v / N) (w / N)) as [E|E]; [|apply lexd_head; lia].
  rewrite E. apply lexd_cons.
  replace (be n v) with (be n (v mod N)) by (rewrite <- (be_mod n (v mod N) (v / N)); fold N; f_equal; lia).
  replace (be n w) with (be n (w mod N)) by (rewrite <- (be_mod n (w mod N) (w / N)); fold N; f_equal; lia).
  apply IH; nia.
Qed.

(** ** What the encoder writes *)

(** [B] is the bit length of [v]. *)
Definition bitlen_of (v B : Z) : Prop := v < 2 ^ B /\ (v = 0 /\ B = 0 \/ 0 < B /\ 2 ^ (B - 1) <= v).

Lemma value_bytes_spec fuel v buf : 0 <= v < 256 ^ Z.of_nat fuel ->
  exists n, (n <= fuel)%nat /\ value_bytes fuel v buf = be n v ++ buf /\ v < 256 ^ Z.of_nat n /\
    (v = 0 /\ n = 0%nat \/ exists m, n = S m /\ 256 ^ Z.of_nat m <= v).
Proof.
  revert v buf. induction fuel as [|f IH]; intros v buf Hv.
  { exists 0%nat. cbn in *. split; [lia|]. split; [reflexivity|]. split; [lia|left; lia]. }
  cbn [value_bytes]. destruct (Z.eqb_spec v 0) as [->|Hnz].
  { exists 0%nat. split; [lia|]. split; [reflexivity|]. split; [cbn; lia|auto]. }
  rewrite Nat2Z.inj_succ, Z.pow_succ_r in Hv by lia.
  rewrite Z.shiftr_div_pow2 by lia. change (2 ^ 8) with 256.
  pose proof (Z.div_mod v 256 ltac:(lia)). pose proof (Z.mod_pos_bound v 256 ltac:(lia)).
  destruct (IH (v / 256) (u8 v :: buf)) as (n & Hn & -> & Hlt & Hlo).
  { split; [apply Z.div_pos; lia|apply Z.div_lt_upper_bound; lia]. }
  exists (S n). split; [lia|]. split; [|split].
  - unfold be. cbn [le_encode rev]. rewrite <- app_assoc. reflexivity.
  - rewrite Nat2Z.inj_succ, Z.pow_succ_r by lia. nia.
  - right. exists n. split; [reflexivity|].
    destruct Hlo as [[Hz ->]|(m & -> & Hm)]; [cbn; lia|].
    rewrite Nat2Z.inj_succ, Z.pow_succ_r by lia. nia.
Qed.

Lemma leading_zeros_shift f b n : leading_zeros f b n = n + leading_zeros f b 0.
Proof.
  revert b n. induction f as [|f IH]; intros; cbn [leading_zeros]; [lia|].
  destruct (_ =? 0); [|lia]. rewrite IH, (IH _ (0 - 1)). lia.
Qed.

Lemma leading_zeros_byte b : 1 <= b < 256 ->
  exists k, 1 <= k <= 8 /\ leading_zeros 8 b 0 = k - 8 /\ 2 ^ (k - 1) <= b < 2 ^ k.
Proof.
  intros Hb.
  assert (H : forallb (fun i => let b := Z.of_nat i in
     existsb (fun j => let k := Z.of_nat j in
       (leading_zeros 8 b 0 =? k - 8) && (2 ^ (k - 1) <=? b) && (b <? 2 ^ k)) (seq 1 8)) (seq 1 255) = true)
    by (vm_compute; reflexivity).
  rewrite forallb_forall in H. specialize (H (Z.to_nat b) ltac:(apply in_seq; lia)). cbv zeta in H.
  rewrite Z2Nat.id in H by lia. apply existsb_exists in H as (j & Hj & H). apply in_seq in Hj.
  exists (Z.of_nat j). rewrite !andb_true_iff, Z.eqb_eq, Z.leb_le, Z.ltb_lt in H. lia.
Qed.

Lemma pow256 n : 0 <= n -> 256 ^ n = 2 ^ (8 * n).
Proof. intros. change 256 with (2 ^ 8). rewrite <- Z.pow_mul_r; lia. Qed.

Lemma bit_length_be n v : 0 <= v < 256 ^ Z.of_nat n ->
  (v = 0 /\ n = 0%nat \/ exists m, n = S m /\ 256 ^ Z.of_nat m <= v) ->
  bitlen_of v (bit_length (be n v)) /\ Z.of_nat n <= bit_length (be n v) / 7 + 1 /\
  bit_length (be n v) <= 8 * Z.of_nat n.
Proof.
  intros Hv [[-> ->]|(m & -> & Hm)]; [cbn; unfold bitlen_of; cbn; lia|].
  unfold bit_length. pose proof (be_length (S m) v) as Hl. rewrite be_cons in *. rewrite Hl.
  set (N := 256 ^ Z.of_nat m) in *. assert (0 < N) by (apply Z.pow_pos_nonneg; lia).
  rewrite Nat2Z.inj_succ, Z.pow_succ_r in Hv by lia. fold N in Hv.
  assert (Hq : 1 <= v / N < 256).
  { split; [apply Z.div_le_lower_bound; lia|apply Z.div_lt_upper_bound; lia]. }
  rewrite (Z.mod_small (v / N)) by lia.
  destruct (leading_zeros_byte (v / N) Hq) as (k & Hk & Hz & Hb).
  rewrite leading_zeros_shift, Hz. rewrite Nat2Z.inj_succ.
  replace (Z.succ (Z.of_nat m) * 8 + (k - 8)) with (8 * Z.of_nat m + k) by lia.
  assert (HN : N = 2 ^ (8 * Z.of_nat m)) by (apply pow256; lia).
  pose proof (Z.div_mod v N ltac:(lia)). pose proof (Z.mod_pos_bound v N ltac:(lia)).
  split; [|pose proof (Z.div_mod (8 * Z.of_nat m + k) 7); pose proof (Z.mod_pos_bound (8 * Z.of_nat m + k) 7); lia].
  unfold bitlen_of. split.
  - rewrite Z.pow_add_r, <- HN by lia. nia.
  - right. split; [lia|]. replace (8 * Z.of_nat m + k - 1) with (8 * Z.of_nat m + (k - 1)) by lia.
    rewrite Z.pow_add_r, <- HN by lia. nia.
Qed.

(** The header of an encoding of [L] bytes: [L] one bits on top of [v]. *)
Definition with_header (L : nat) (v : Z) : Z :=
  v + (2 ^ Z.of_nat L - 1) * 2 ^ (7 * Z.of_nat L).

Lemma header_low L r : (L <= 8)%nat -> forall x, 0 <= x -> x * 2 ^ Z.of_nat L < 128 \/ x = 0 ->
  header_bits L (x :: r) 0 128 = x + (2 ^ Z.of_nat L - 1) * 2 ^ (8 - Z.of_nat L) :: r.
Proof.
  intros HL x Hx Hb.
  assert (H : forallb (fun i => let x := Z.of_nat i in
     negb ((x * 2 ^ Z.of_nat L <? 128) || (x =? 0)) ||
     match header_bits L [x] 0 128 with
     | [y] => y =? x + (2 ^ Z.of_nat L - 1) * 2 ^ (8 - Z.of_nat L)
     | _ => false end) (seq 0 128) = true).
  { do 9 (destruct L as [|L]; [vm_compute; reflexivity|]). lia. }
  rewrite forallb_forall in H.
  assert (x < 128) by (pose proof (Z.pow_pos_nonneg 2 (Z.of_nat L)); nia).
  specialize (H (Z.to_nat x) ltac:(apply in_seq; lia)). cbv zeta in H. rewrite Z2Nat.id in H by lia.
  replace ((x * 2 ^ Z.of_nat L <? 128) || (x =? 0)) with true in H
    by (symmetry; apply orb_true_iff; rewrite Z.ltb_lt, Z.eqb_eq; lia).
  cbn [negb orb] in H.
  do 9 (destruct L as [|L]; [
    cbn -[Z.lor Z.mul Z.add Z.sub Z.pow] in H |- *; apply Z.eqb_eq in H;
    rewrite <- H; reflexivity|]). lia.
Qed.

Lemma header_high L r : (8 <= L <= 10)%nat -> forall x, 0 <= x -> x * 2 ^ (Z.of_nat L - 8) < 128 ->
  header_bits L (0 :: x :: r) 0 128 =
  255 :: x + (2 ^ (Z.of_nat L - 8) - 1) * 2 ^ (16 - Z.of_nat L) :: r.
Proof.
  intros HL x Hx Hb.
  assert (H : forallb (fun i => let x := Z.of_nat i in
     negb (x * 2 ^ (Z.of_nat L - 8) <? 128) ||
     match header_bits L [0; x] 0 128 with
     | [h; y] => (h =? 255) && (y =? x + (2 ^ (Z.of_nat L - 8) - 1) * 2 ^ (16 - Z.of_nat L))
     | _ => false end) (seq 0 128) = true).
  { assert (L = 8 \/ L = 9 \/ L = 10)%nat as [-> | [-> | ->]] by lia; vm_compute; reflexivity. }
  rewrite forallb_forall in H.
  assert (x < 128) by (pose proof (Z.pow_pos_nonneg 2 (Z.of_nat L - 8)); nia).
  specialize (H (Z.to_nat x) ltac:(apply in_seq; lia)). cbv zeta in H. rewrite Z2Nat.id in H by lia.
  rewrite (proj2 (Z.ltb_lt _ _) Hb) in H. cbn [negb orb] in H.
  assert (L = 8 \/ L = 9 \/ L = 10)%nat as [-> | [-> | ->]] by lia;
    cbn -[Z.lor Z.mul Z.add Z.sub Z.pow Z.eqb] in H |- *;
    apply andb_true_iff in H as [H1 H2]; apply Z.eqb_eq in H1, H2; rewrite <- H1, <- H2; reflexivity.
Qed.

(** Adding a top byte below which the value fits. *)
Lemma be_top m v c : 0 <= v / 256 ^ Z.of_nat m -> 0 <= c -> v / 256 ^ Z.of_nat m + c < 256 ->
  be (S m) (v + c * 256 ^ Z.of_nat m) = v / 256 ^ Z.of_nat m + c :: be m v.
Proof.
  intros Hv Hc H. rewrite be_cons, be_mod, Z.div_add by lia. rewrite Z.mod_small by lia. reflexivity.
Qed.

(** The bytes of [with_header]: short encodings have their header in the
    first byte, long ones in the first two. *)
Lemma be_header_low m v : (m <= 6)%nat -> 0 <= v < 2 ^ (7 * Z.of_nat (S m) - 1) ->
  let q := v / 256 ^ Z.of_nat m in
  0 <= q < 2 ^ (6 - Z.of_nat m) /\ q * 2 ^ Z.of_nat (S m) < 128 /\
  be (S m) (with_header (S m) v) = q + (2 ^ Z.of_nat (S m) - 1) * 2 ^ (8 - Z.of_nat (S m)) :: be m v.
Proof.
  intros HL Hv. cbv zeta.
  assert (HN : 256 ^ Z.of_nat m = 2 ^ (8 * Z.of_nat m)) by (apply pow256; lia).
  assert (Hq : 0 <= v / 256 ^ Z.of_nat m < 2 ^ (6 - Z.of_nat m)).
  { split; [apply Z.div_pos; lia|]. apply Z.div_lt_upper_bound; [lia|].
    rewrite HN, <- Z.pow_add_r by lia.
    replace (8 * Z.of_nat m + (6 - Z.of_nat m)) with (7 * Z.of_nat (S m) - 1) by lia. lia. }
  replace (with_header (S m) v)
    with (v + (2 ^ Z.of_nat (S m) - 1) * 2 ^ (8 - Z.of_nat (S m)) * 256 ^ Z.of_nat m).
  2:{ unfold with_header. f_equal. rewrite <- Z.mul_assoc. f_equal. rewrite HN, <- Z.pow_add_r by lia. f_equal. lia. }
  remember (v / 256 ^ Z.of_nat m) as q eqn:Eq.
  assert (Hm : (m = 0 \/ m = 1 \/ m = 2 \/ m = 3 \/ m = 4 \/ m = 5 \/ m = 6)%nat) by lia.
  split; [exact Hq|]. split; [repeat destruct Hm as [-> | Hm]; try subst m; cbn in *; lia|].
  rewrite be_top; rewrite <- ?Eq; [reflexivity|..]; repeat destruct Hm as [-> | Hm]; try subst m; cbn in *; lia.
Qed.

Lemma be_header_high m v : (6 <= m <= 8)%nat -> 0 <= v < 2 ^ (7 * Z.of_nat (S (S m)) - 1) ->
  let q := v / 256 ^ Z.of_nat m in
  0 <= q < 2 ^ (13 - Z.of_nat m) /\ q * 2 ^ (Z.of_nat (S (S m)) - 8) < 128 /\
  be (S (S m)) v = 0 :: q :: be m v /\
  be (S (S m)) (with_header (S (S m)) v) =
  255 :: q + (2 ^ (Z.of_nat (S (S m)) - 8) - 1) * 2 ^ (16 - Z.of_nat (S (S m))) :: be m v.
Proof.
  intros HL Hv. cbv zeta.
  set (N := 256 ^ Z.of_nat m). assert (HN : N = 2 ^ (8 * Z.of_nat m)) by (apply pow256; lia).
  assert (0 < N) by (rewrite HN; apply Z.pow_pos_nonneg; lia).
  assert (Hq : 0 <= v / N < 2 ^ (13 - Z.of_nat m)).
  { split; [apply Z.div_pos; lia|]. apply Z.div_lt_upper_bound; [lia|].
    rewrite HN, <- Z.pow_add_r by lia.
    replace (8 * Z.of_nat m + (13 - Z.of_nat m)) with (7 * Z.of_nat (S (S m)) - 1) by lia. lia. }
  assert (Hm : (m = 6 \/ m = 7 \/ m = 8)%nat) by lia.
  assert (HS : 256 ^ Z.of_nat (S m) = 256 * N) by (rewrite Nat2Z.inj_succ, Z.pow_succ_r by lia; reflexivity).
  set (c2 := (2 ^ (Z.of_nat (S (S m)) - 8) - 1) * 2 ^ (16 - Z.of_nat (S (S m)))).
  replace (with_header (S (S m)) v) with (v + c2 * N + 255 * 256 ^ Z.of_nat (S m)).
  2:{ unfold with_header. rewrite HS, HN. unfold c2. destruct Hm as [-> | [-> | ->]]; cbn; lia. }
  assert (Hc : 0 <= c2 /\ v / N + c2 < 256 /\ v / N < 256 /\ v / N * 2 ^ (Z.of_nat (S (S m)) - 8) < 128)
    by (unfold c2; destruct Hm as [-> | [-> | ->]]; cbn in Hq |- *; lia).
  assert (Hz : forall x, 0 <= x < 256 * N -> x / 256 ^ Z.of_nat (S m) = 0) by (intros; rewrite HS; apply Z.div_small; lia).
  pose proof (Z.div_mod v N ltac:(lia)). pose proof (Z.mod_pos_bound v N ltac:(lia)).
  split; [exact Hq|]. split; [tauto|]. split.
  - rewrite (be_cons (S m) v), Hz by nia. rewrite (be_cons m v). fold N.
    rewrite (Z.mod_small (v / N)) by lia. reflexivity.
  - rewrite be_top; rewrite ?Hz by nia; [|lia..]. rewrite be_top; fold N; try lia. reflexivity.
Qed.

(** The header loop turns the padded value bytes into [with_header]. *)
Lemma header_bits_be L v : (1 <= L <= 10)%nat -> 0 <= v < 2 ^ (7 * Z.of_nat L - 1) ->
  header_bits L (be L v) 0 128 = be L (with_header L v).
Proof.
  intros HL Hv. destruct (le_lt_dec L 7).
  - destruct L as [|m]; [lia|]. destruct (be_header_low m v ltac:(lia) Hv) as (Hq & Hs & ->).
    rewrite be_cons, Z.mod_small; [apply header_low; lia|].
    pose proof (Z.pow_pos_nonneg 2 (Z.of_nat (S m))). nia.
  - destruct L as [|[|m]]; [lia|lia|]. destruct (be_header_high m v ltac:(lia) Hv) as (Hq & Hs & -> & ->).
    apply header_high; lia.
Qed.

(** The value [v] is encoded in [L] bytes. *)
Definition enc_len (v : Z) (L : nat) : Prop :=
  exists B, bitlen_of v B /\ Z.of_nat L = B / 7 + 1.

Lemma bitlen_pos v B : 0 <= v -> bitlen_of v B -> 0 <= B.
Proof. intros ? [? [[? ?]|[? ?]]]; lia. Qed.

Lemma bitlen_mono v w B C : 0 <= v <= w -> bitlen_of v B -> bitlen_of w C -> B <= C.
Proof.
  intros Hvw HB HC. pose proof (bitlen_pos v B ltac:(lia) HB). pose proof (bitlen_pos w C ltac:(lia) HC).
  destruct HB as [_ [[_ ?]|[? Hlo]]]; [lia|]. destruct HC as [Hhi _].
  assert (2 ^ (B - 1) < 2 ^ C) by lia.
  enough (B - 1 < C) by lia. apply (Z.pow_lt_mono_r_iff 2); lia.
Qed.

Lemma enc_len_bound v L : 0 <= v -> enc_len v L -> (1 <= L)%nat /\ v < 2 ^ (7 * Z.of_nat L - 1).
Proof.
  intros Hv (B & HB & HL). pose proof (bitlen_pos v B Hv HB).
  pose proof (Z.div_mod B 7). pose proof (Z.mod_pos_bound B 7).
  split; [lia|]. destruct HB as [HB _].
  assert (2 ^ B <= 2 ^ (7 * Z.of_nat L - 1)) by (apply Z.pow_le_mono_r; lia). lia.
Qed.

(** On a nonnegative value, the loops leave [with_header] in the buffer. *)
Lemma encode_nonneg sz v : (sz <= 8)%nat -> 0 <= v < 2 ^ (int_bits sz - 1) ->
  let buf := value_bytes sz v [] in
  let encodedLen := Z.to_nat (bit_length buf / 7 + 1) in
  enc_len v encodedLen /\ (1 <= encodedLen <= 10)%nat /\ (encodedLen <= 2 * sz)%nat /\
  header_bits encodedLen (repeat 0 (encodedLen - length buf) ++ buf) 0 128
  = be encodedLen (with_header encodedLen v).
Proof.
  intros Hsz Hv. unfold int_bits in *.
  assert (1 <= sz)%nat by (destruct sz; [cbn in Hv; lia|lia]).
  assert (Hp : 2 ^ (8 * Z.of_nat sz - 1) < 256 ^ Z.of_nat sz).
  { rewrite pow256 by lia. apply Z.pow_lt_mono_r; lia. }
  destruct (value_bytes_spec sz v [] ltac:(lia)) as (n & Hn & Hbuf & Hlt & Hlo).
  cbv zeta. rewrite Hbuf, app_nil_r.
  destruct (bit_length_be n v ltac:(lia) Hlo) as (HB & Hle & Hb8).
  set (B := bit_length (be n v)) in *.
  pose proof (bitlen_pos v B ltac:(lia) HB).
  assert (HBsz : B <= 8 * Z.of_nat sz - 1).
  { destruct HB as [_ [[_ ?]|[? Hlo']]]; [lia|].
    assert (2 ^ (B - 1) < 2 ^ (8 * Z.of_nat sz - 1)) by lia.
    assert (B - 1 < 8 * Z.of_nat sz - 1) by (apply (Z.pow_lt_mono_r_iff 2); lia). lia. }
  pose proof (Z.div_mod B 7 ltac:(lia)). pose proof (Z.mod_pos_bound B 7 ltac:(lia)).
  set (L := Z.to_nat (B / 7 + 1)).
  assert (HL : enc_len v L) by (exists B; split; [exact HB|unfold L; lia]).
  destruct (enc_len_bound v L ltac:(lia) HL).
  split; [exact HL|]. split; [unfold L; lia|]. split; [unfold L; lia|].
  rewrite be_length, <- be_pad by lia.
  replace (L - n + n)%nat with L by (unfold L in *; lia).
  apply header_bits_be; [unfold L; lia|lia].
Qed.

Lemma flip_invol p x : is_byte x -> flip p (flip p x) = x.
Proof.
  unfold flip, is_byte. destruct p; [reflexivity|]. intros Hx.
  unfold wrap. change (2 ^ 8) with 256. unfold Z.lnot.
  rewrite (Z.mod_eq (Z.pred (- x)) 256), (Z.mod_eq _ 256) by lia.
  assert (Z.pred (- x) / 256 = -1) as -> by (symmetry; apply (Z.div_unique_pos _ _ _ (255 - x)); lia).
  assert (Z.pred (- (Z.pred (- x) - 256 * -1)) / 256 = -1) as ->
    by (symmetry; apply (Z.div_unique_pos _ _ _ x); lia). lia.
Qed.

Lemma flip_false x : is_byte x -> flip false x = 255 - x.
Proof.
  unfold flip, is_byte, wrap. intros. unfold Z.lnot. symmetry.
  apply (Z.mod_unique_pos _ _ (-1)); [change (2 ^ 8) with 256|]; lia.
Qed.

(** [encode] on either sign. *)
Lemma encode_spec sz value : (sz <= 8)%nat -> - 2 ^ (int_bits sz - 1) <= value < 2 ^ (int_bits sz - 1) ->
  let p := negb (value <? 0) in
  let v := if p then value else Z.lnot value in
  exists L, 0 <= v < 2 ^ (int_bits sz - 1) /\ enc_len v L /\ (1 <= L <= 10)%nat /\ (L <= 2 * sz)%nat /\
    encode sz value = map (flip p) (be L (with_header L v)).
Proof.
  intros Hsz Hv. unfold encode. cbv zeta. destruct (Z.ltb_spec value 0); cbn [negb].
  - assert (Hr : 0 <= Z.lnot value < 2 ^ (int_bits sz - 1)) by (unfold Z.lnot; lia).
    destruct (encode_nonneg sz (Z.lnot value) Hsz Hr) as (HL & H1 & H2 & ->). eauto 10.
  - destruct (encode_nonneg sz value Hsz ltac:(lia)) as (HL & H1 & H2 & ->).
    eexists. repeat split; eauto; try lia. symmetry. apply map_id.
Qed.

(** ** What the decoder reads *)

Lemma scan_header_frame f f' b hb n m c : scan_header f true b hb n [] = Some (m, c, []) -> (f <= f')%nat ->
  forall p input, scan_header f' p b hb n input = Some (m, c, input).
Proof.
  revert f' b hb n. induction f as [|f IH]; intros f' b hb n H Hf p input; [discriminate|].
  destruct f' as [|f']; [lia|]. cbn [scan_header] in *. destruct (hb =? 0); [discriminate|].
  destruct (Z.land b hb =? 0); [congruence|]. apply IH; [exact H|lia].
Qed.

(** A header that ends within the byte [q + C]: [L] ones of it were tested. *)
Lemma scan_low L q : (1 <= L <= 7)%nat -> 0 <= q -> q * 2 ^ Z.of_nat L < 128 ->
  scan_header 8 true (Z.land (q + (2 ^ Z.of_nat L - 1) * 2 ^ (8 - Z.of_nat L)) 127) 64 0 []
  = Some (Z.of_nat L - 1, q, []).
Proof.
  intros HL Hq Hb.
  assert (H : forallb (fun i => let q := Z.of_nat i in
     negb (q * 2 ^ Z.of_nat L <? 128) ||
     match scan_header 8 true (Z.land (q + (2 ^ Z.of_nat L - 1) * 2 ^ (8 - Z.of_nat L)) 127) 64 0 [] with
     | Some (n, c, []) => (n =? Z.of_nat L - 1) && (c =? q)
     | _ => false end) (seq 0 128) = true).
  { destruct L as [|L]; [lia|]. do 7 (destruct L as [|L]; [vm_compute; reflexivity|]). lia. }
  rewrite forallb_forall in H.
  assert (q < 128) by (pose proof (Z.pow_pos_nonneg 2 (Z.of_nat L)); nia).
  specialize (H (Z.to_nat q) ltac:(apply in_seq; lia)). cbv zeta in H. rewrite Z2Nat.id in H by lia.
  rewrite (proj2 (Z.ltb_lt _ _) Hb) in H. cbn [negb orb] in H.
  destruct (scan_header _ _ _ _ _ _) as [[[n c] []]|]; try discriminate.
  apply andb_true_iff in H as [H1 H2]. apply Z.eqb_eq in H1, H2. congruence.
Qed.

Lemma scan_high L q : (8 <= L <= 10)%nat -> 0 <= q -> q * 2 ^ (Z.of_nat L - 8) < 128 ->
  scan_header 8 true (q + (2 ^ (Z.of_nat L - 8) - 1) * 2 ^ (16 - Z.of_nat L)) 128 6 []
  = Some (Z.of_nat L - 2, q, []).
Proof.
  intros HL Hq Hb.
  assert (H : forallb (fun i => let q := Z.of_nat i in
     negb (q * 2 ^ (Z.of_nat L - 8) <? 128) ||
     match scan_header 8 true (q + (2 ^ (Z.of_nat L - 8) - 1) * 2 ^ (16 - Z.of_nat L)) 128 6 [] with
     | Some (n, c, []) => (n =? Z.of_nat L - 2) && (c =? q)
     | _ => false end) (seq 0 128) = true).
  { assert (L = 8 \/ L = 9 \/ L = 10)%nat as [-> | [-> | ->]] by lia; vm_compute; reflexivity. }
  rewrite forallb_forall in H.
  assert (q < 128) by (pose proof (Z.pow_pos_nonneg 2 (Z.of_nat L - 8)); nia).
  specialize (H (Z.to_nat q) ltac:(apply in_seq; lia)). cbv zeta in H. rewrite Z2Nat.id in H by lia.
  rewrite (proj2 (Z.ltb_lt _ _) Hb) in H. cbn [negb orb] in H.
  destruct (scan_header _ _ _ _ _ _) as [[[n c] []]|]; try discriminate.
  apply andb_true_iff in H as [H1 H2]. apply Z.eqb_eq in H1, H2. congruence.
Qed.

(** Seven ones take the scan into the next byte. *)
Lemma scan_next f p x input : is_byte x ->
  scan_header (7 + S f) p 127 64 0 (flip p x :: input) = scan_header (S f) p x 128 6 input.
Proof. intros Hx. cbn. rewrite flip_invol by exact Hx. reflexivity. Qed.

Lemma horner_mono l a : bytes_ok l -> 0 <= a -> a <= horner a l.
Proof.
  intros Hl. revert a. induction Hl as [|b r Hb Hr IH]; intros a Ha; [cbn; lia|].
  unfold horner in *. cbn [fold_left]. unfold is_byte in Hb.
  specialize (IH (a * 256 + b) ltac:(lia)). lia.
Qed.

Lemma swrap_id w x : 1 <= w -> - 2 ^ (w - 1) <= x < 2 ^ (w - 1) -> swrap w x = x.
Proof.
  intros Hw Hx. unfold swrap. rewrite Z.mod_small; [lia|].
  replace (2 ^ w) with (2 * 2 ^ (w - 1)) by (rewrite <- Z.pow_succ_r by lia; f_equal; lia). lia.
Qed.

Lemma read_value_spec sz p rest l value : (1 <= sz)%nat -> bytes_ok l -> 0 <= value ->
  horner value l < 2 ^ (int_bits sz - 1) ->
  read_value sz (length l) p value (map (flip p) l ++ rest) = Some (horner value l, rest).
Proof.
  intros Hsz Hl. revert value. induction Hl as [|b r Hb Hr IH]; intros value Hv Hh; [reflexivity|].
  cbn [length read_value map app]. unfold horner in *. cbn [fold_left] in *. fold (horner (value * 256 + b) r) in *.
  rewrite flip_invol by exact Hb. unfold is_byte in Hb.
  pose proof (horner_mono r (value * 256 + b) Hr ltac:(lia)) as Hm.
  rewrite Z.shiftl_mul_pow2, swrap_id by (unfold int_bits in *; lia).
  rewrite (lor_disjoint value b 8) by lia. apply IH; [lia|exact Hh].
Qed.

Lemma horner_value m v : 0 <= v -> horner (v / 256 ^ Z.of_nat m) (be m v) = v.
Proof.
  intros Hv. set (N := 256 ^ Z.of_nat m). assert (0 < N) by (apply Z.pow_pos_nonneg; lia).
  pose proof (Z.div_mod v N ltac:(lia)). pose proof (Z.mod_pos_bound v N ltac:(lia)).
  replace (be m v) with (be m (v mod N)) by (rewrite <- (be_mod m (v mod N) (v / N)); fold N; f_equal; lia).
  rewrite horner_be by (fold N; lia). fold N. lia.
Qed.

Lemma decode_low sz p v m rest : (1 <= sz)%nat -> (m <= 6)%nat ->
  0 <= v < 2 ^ (7 * Z.of_nat (S m) - 1) -> v < 2 ^ (int_bits sz - 1) ->
  decode sz (map (flip p) (be (S m) (with_header (S m) v)) ++ rest) = Some (if p then v else Z.lnot v, rest).
Proof.
  intros Hsz Hm Hv Hr. destruct (be_header_low m v Hm Hv) as (Hq & Hs & ->).
  set (q := v / 256 ^ Z.of_nat m) in *.
  set (b0 := q + (2 ^ Z.of_nat (S m) - 1) * 2 ^ (8 - Z.of_nat (S m))).
  assert (Hb0 : 128 <= b0 < 256).
  { unfold b0. assert (Hc : (m = 0 \/ m = 1 \/ m = 2 \/ m = 3 \/ m = 4 \/ m = 5 \/ m = 6)%nat) by lia.
    repeat destruct Hc as [-> | Hc]; try subst m; cbn in Hq |- *; lia. }
  cbn [map app]. unfold decode.
  assert (Hpos : negb (Z.land (flip p b0) 128 =? 0) = p).
  { assert (H : forallb (fun i => Bool.eqb (negb (Z.land (flip true (Z.of_nat i)) 128 =? 0)) true &&
      Bool.eqb (negb (Z.land (flip false (Z.of_nat i)) 128 =? 0)) false) (seq 128 128) = true) by (vm_compute; reflexivity).
    rewrite forallb_forall in H. specialize (H (Z.to_nat b0) ltac:(apply in_seq; lia)).
    rewrite Z2Nat.id in H by lia. apply andb_true_iff in H as [H1 H2]. apply eqb_prop in H1, H2.
    destruct p; assumption. }
  rewrite Hpos, flip_invol by (unfold is_byte; lia).
  rewrite (scan_header_frame 8 _ _ _ _ (Z.of_nat (S m) - 1) q);
    [|apply (scan_low (S m) q); lia|lia].
  replace (Z.to_nat (Z.of_nat (S m) - 1)) with (length (be m v)) by (rewrite be_length; lia).
  pose proof (horner_value m v ltac:(lia)) as Hh. fold q in Hh.
  rewrite read_value_spec; [|lia|apply be_bytes|lia|rewrite Hh; lia].
  rewrite Hh. reflexivity.
Qed.

Lemma decode_high sz p v m rest : (1 <= sz)%nat -> (6 <= m <= 8)%nat ->
  0 <= v < 2 ^ (7 * Z.of_nat (S (S m)) - 1) -> v < 2 ^ (int_bits sz - 1) ->
  decode sz (map (flip p) (be (S (S m)) (with_header (S (S m)) v)) ++ rest) = Some (if p then v else Z.lnot v, rest).
Proof.
  intros Hsz Hm Hv Hr. destruct (be_header_high m v Hm Hv) as (Hq & Hs & _ & ->).
  set (q := v / 256 ^ Z.of_nat m) in *.
  set (b1 := q + (2 ^ (Z.of_nat (S (S m)) - 8) - 1) * 2 ^ (16 - Z.of_nat (S (S m)))).
  assert (Hb1 : is_byte b1).
  { unfold b1, is_byte. assert (Hc : (m = 6 \/ m = 7 \/ m = 8)%nat) by lia.
    destruct Hc as [-> | [-> | ->]]; cbn in Hq |- *; lia. }
  cbn [map app]. unfold decode.
  replace (negb (Z.land (flip p 255) 128 =? 0)) with p by (destruct p; reflexivity).
  rewrite flip_invol by (unfold is_byte; lia). change (Z.land 255 127) with 127.
  replace (8 * S (length (flip p b1 :: map (flip p) (be m v) ++ rest)))%nat
    with (7 + S (8 + 8 * length (map (flip p) (be m v) ++ rest)))%nat by (cbn [length]; lia).
  rewrite scan_next by exact Hb1.
  rewrite (scan_header_frame 8 _ _ _ _ (Z.of_nat (S (S m)) - 2) q);
    [|apply (scan_high (S (S m)) q); lia|lia].
  replace (Z.to_nat (Z.of_nat (S (S m)) - 2)) with (length (be m v)) by (rewrite be_length; lia).
  pose proof (horner_value m v ltac:(lia)) as Hh. fold q in Hh.
  rewrite read_value_spec; [|lia|apply be_bytes|lia|rewrite Hh; lia].
  rewrite Hh. reflexivity.
Qed.

(** Bytes of [with_header] and the order of two encodings of one sign. *)
Lemma enc_len_mono v w L M : 0 <= v <= w -> enc_len v L -> enc_len w M -> (L <= M)%nat.
Proof.
  intros Hvw (B & HB & HL) (C & HC & HM). pose proof (bitlen_mono v w B C Hvw HB HC).
  assert (B / 7 <= C / 7) by (apply Z.div_le_mono; lia). lia.
Qed.

Lemma header_lexd L M v w : (1 <= L < M)%nat -> (M <= 10)%nat ->
  0 <= v < 2 ^ (7 * Z.of_nat L - 1) -> 0 <= w < 2 ^ (7 * Z.of_nat M - 1) ->
  lexd (be L (with_header L v)) (be M (with_header M w)).
Proof.
  intros HLM HM Hv Hw. destruct (le_lt_dec L 7) as [HL7|HL7], (le_lt_dec M 7) as [HM7|HM7]; try lia.
  - destruct L as [|l], M as [|m]; try lia.
    destruct (be_header_low l v ltac:(lia) Hv) as (Hq & _ & ->).
    destruct (be_header_low m w ltac:(lia) Hw) as (Hr & _ & ->). apply lexd_head.
    assert (Hl : (l = 0 \/ l = 1 \/ l = 2 \/ l = 3 \/ l = 4 \/ l = 5)%nat) by lia.
    assert (Hm : (m = 1 \/ m = 2 \/ m = 3 \/ m = 4 \/ m = 5 \/ m = 6)%nat) by lia.
    repeat destruct Hl as [-> | Hl]; try subst l; repeat destruct Hm as [-> | Hm]; try subst m;
      try lia; cbn in Hq, Hr |- *; lia.
  - destruct L as [|l], M as [|[|m]]; try lia.
    destruct (be_header_low l v ltac:(lia) Hv) as (Hq & _ & ->).
    destruct (be_header_high m w ltac:(lia) Hw) as (Hr & _ & _ & ->). apply lexd_head.
    assert (Hl : (l = 0 \/ l = 1 \/ l = 2 \/ l = 3 \/ l = 4 \/ l = 5 \/ l = 6)%nat) by lia.
    repeat destruct Hl as [-> | Hl]; try subst l; cbn in Hq |- *; lia.
  - destruct L as [|[|l]], M as [|[|m]]; try lia.
    destruct (be_header_high l v ltac:(lia) Hv) as (Hq & _ & _ & ->).
    destruct (be_header_high m w ltac:(lia) Hw) as (Hr & _ & _ & ->). apply lexd_cons, lexd_head.
    assert (Hlm : (l = 6 /\ m = 7 \/ l = 6 /\ m = 8 \/ l = 7 /\ m = 8)%nat) by lia.
    destruct Hlm as [[-> ->]|[[-> ->]|[-> ->]]]; cbn in Hq, Hr |- *; lia.
Qed.

Lemma with_header_range L v : 0 <= v < 2 ^ (7 * Z.of_nat L - 1) -> (1 <= L)%nat ->
  0 <= with_header L v < 256 ^ Z.of_nat L.
Proof.
  intros Hv HL. unfold with_header. rewrite pow256 by lia.
  replace (8 * Z.of_nat L) with (Z.of_nat L + 7 * Z.of_nat L) by lia. rewrite Z.pow_add_r by lia.
  assert (2 ^ (7 * Z.of_nat L - 1) < 2 ^ (7 * Z.of_nat L)) by (apply Z.pow_lt_mono_r; lia).
  assert (1 <= 2 ^ Z.of_nat L) by (pose proof (Z.pow_pos_nonneg 2 (Z.of_nat L)); lia).
  nia.
Qed.

Lemma nonneg_lexd v w L M : 0 <= v < w -> enc_len v L -> enc_len w M -> (M <= 10)%nat ->
  lexd (be L (with_header L v)) (be M (with_header M w)).
Proof.
  intros Hvw HL HM HM10. pose proof (enc_len_mono v w L M ltac:(lia) HL HM).
  destruct (enc_len_bound v L ltac:(lia) HL), (enc_len_bound w M ltac:(lia) HM).
  destruct (Nat.eq_dec L M) as [-> |].
  - pose proof (with_header_range M w ltac:(lia) ltac:(lia)).
    pose proof (with_header_range M v ltac:(lia) ltac:(lia)).
    apply be_lexd; [lia|lia|]. unfold with_header. lia.
  - apply header_lexd; lia.
Qed.

Lemma lexd_flip a b : bytes_ok a -> bytes_ok b -> lexd a b -> lexd (map (flip false) b) (map (flip false) a).
Proof.
  intros Ha Hb (p & x & y & ra & rb & -> & -> & Hxy).
  apply Forall_app in Ha as [_ Ha], Hb as [_ Hb]. apply Forall_inv in Ha, Hb.
  rewrite !map_app. cbn [map]. exists (map (flip false) p), (flip false y), (flip false x),
    (map (flip false) rb), (map (flip false) ra). repeat split.
  rewrite !flip_false by assumption. lia.
Qed.

(** The first byte tells the sign. *)
Lemma header_first L v : (1 <= L <= 10)%nat -> 0 <= v < 2 ^ (7 * Z.of_nat L - 1) ->
  exists x r, be L (with_header L v) = x :: r /\ 128 <= x < 256.
Proof.
  intros HL Hv. destruct (le_lt_dec L 7).
  - destruct L as [|m]; [lia|]. destruct (be_header_low m v ltac:(lia) Hv) as (Hq & _ & ->).
    eexists _, _. split; [reflexivity|].
    assert (Hc : (m = 0 \/ m = 1 \/ m = 2 \/ m = 3 \/ m = 4 \/ m = 5 \/ m = 6)%nat) by lia.
    repeat destruct Hc as [-> | Hc]; try subst m; cbn in Hq |- *; lia.
  - destruct L as [|[|m]]; [lia|lia|]. destruct (be_header_high m v ltac:(lia) Hv) as (_ & _ & _ & ->).
    eexists _, _. split; [reflexivity|lia].
Qed.

(** Decoding an encoded integer of any width up to 64 bits gives the
    integer back and leaves exactly the bytes that follow it; the encoding
    fits the encoder's buffer of twice the integer's size. *)
Theorem CompressedInt_roundtrip (sz : nat) (value : Z) (rest : list Z) :
  (1 <= sz <= 8)%nat -> - 2 ^ (8 * Z.of_nat sz - 1) <= value < 2 ^ (8 * Z.of_nat sz - 1) ->
  decode sz (encode sz value ++ rest) = Some (value, rest) /\
  (1 <= length (encode sz value) <= Nat.min 10 (2 * sz))%nat.
Proof.
  intros Hsz Hv. destruct (encode_spec sz value ltac:(lia) Hv) as (L & Hr & HL & H10 & H2 & ->).
  set (p := negb (value <? 0)) in *. set (v := if p then value else Z.lnot value) in *.
  destruct (enc_len_bound v L ltac:(lia) HL) as [_ Hb].
  split; [|rewrite length_map, be_length; lia].
  assert (Hval : Some (value, rest) = Some (if p then v else Z.lnot v, rest)).
  { unfold v. destruct p; [reflexivity|]. now rewrite Z.lnot_involutive. }
  rewrite Hval.
  destruct (le_lt_dec L 7).
  - destruct L as [|m]; [lia|]. apply decode_low; lia.
  - destruct L as [|[|m]]; [lia|lia|]. apply decode_high; lia.
Qed.

Lemma CompressedInt_roundtrip_witness :
  decode 8 (encode 8 (-1234567890123) ++ [1; 2]) = Some (-1234567890123, [1; 2]).
Proof. apply (CompressedInt_roundtrip 8 (-1234567890123) [1; 2]); cbn; lia. Defined.

(** The encoding retains the order: when one integer is smaller than
    another, the first byte in which their encodings differ is smaller, so
    comparing encodings as byte strings compares the integers; neither
    encoding is a prefix of the other. *)
Theorem CompressedInt_order (sz : nat) (a b : Z) :
  (1 <= sz <= 8)%nat -> - 2 ^ (8 * Z.of_nat sz - 1) <= a -> b < 2 ^ (8 * Z.of_nat sz - 1) -> a < b ->
  lexd (encode sz a) (encode sz b).
Proof.
  intros Hsz Ha Hb Hab.
  destruct (encode_spec sz a ltac:(lia) ltac:(unfold int_bits; lia)) as (L & Hra & HL & HL10 & _ & ->).
  destruct (encode_spec sz b ltac:(lia) ltac:(unfold int_bits; lia)) as (M & Hrb & HM & HM10 & _ & ->).
  destruct (enc_len_bound _ L (proj1 Hra) HL) as [_ HbL].
  destruct (enc_len_bound _ M (proj1 Hrb) HM) as [_ HbM].
  destruct (Z.ltb_spec a 0) as [Hna|Hna]; destruct (Z.ltb_spec b 0) as [Hnb|Hnb]; cbn [negb] in *.
  - apply lexd_flip; try apply be_bytes. apply nonneg_lexd; try assumption; [unfold Z.lnot in *; lia|lia].
  - destruct (header_first L (Z.lnot a) ltac:(lia) ltac:(lia)) as (x & r & -> & Hx).
    destruct (header_first M b ltac:(lia) ltac:(lia)) as (y & r' & -> & Hy). cbn [map]. apply lexd_head.
    rewrite flip_false by (unfold is_byte; lia). cbn [flip]. lia.
  - lia.
  - change (flip true) with (fun x : Z => x). rewrite !map_id. apply nonneg_lexd; try assumption; lia.
Qed.

Lemma CompressedInt_order_witness : lexd (encode 4 (-65)) (encode 4 8192).
Proof. apply (CompressedInt_order 4 (-65) 8192); cbn; lia. Defined.
