(* ===== verification/Base64.v ===== *)
(** flow/contrib/libb64/cencode.c and cdecode.c: the streaming base64 encoder
    and decoder as resumable state machines, the buffer space they need, and
    their round trip. *)

From Stdlib Require Import ZArith List Lia Bool String Ascii.
From S2P Require Import Prelude.
Import ListNotations.
#[local] Open Scope Z_scope.

(** ** cencode.c *)

Definition CHARS_PER_LINE : Z := 72.

Inductive base64_encodestep := step_A | step_B | step_C.

Record base64_encodestate := mkEnc {
  estep : base64_encodestep;
  eresult : Z;
  stepcount : Z
}.

Definition base64_init_encodestate : base64_encodestate := mkEnc step_A 0 0.

Definition encoding : list Z :=
  map (fun c => Z.of_nat (nat_of_ascii c))
    (list_ascii_of_string "ABCDEFGHIJKLMNOPQRSTUVWXYZabcdefghijklmnopqrstuvwxyz0123456789+/").

Definition base64_encode_value (value_in : Z) : Z :=
  if 63 <? value_in then 61 else nth (Z.to_nat value_in) encoding 0.

(** The loop of [base64_encode_block]: each case label consumes one character
    and falls through to the next, or saves the state and returns. *)
Fixpoint encode_loop (plain : list Z) (step : base64_encodestep) (result count : Z)
    : list Z * base64_encodestate :=
  match plain with
  | [] => ([], mkEnc step result count)
  | fragment :: plain' =>
      match step with
      | step_A =>
          let result := Z.shiftr (Z.land fragment 252) 2 in
          let out := [base64_encode_value result] in
          let '(code, st) := encode_loop plain' step_B (Z.shiftl (Z.land fragment 3) 4) count in
          (out ++ code, st)
      | step_B =>
          let result := Z.lor result (Z.shiftr (Z.land fragment 240) 4) in
          let out := [base64_encode_value result] in
          let '(code, st) := encode_loop plain' step_C (Z.shiftl (Z.land fragment 15) 2) count in
          (out ++ code, st)
      | step_C =>
          let result := Z.lor result (Z.shiftr (Z.land fragment 192) 6) in
          let out1 := [base64_encode_value result] in
          let result := Z.shiftr (Z.land fragment 63) 0 in
          let out2 := [base64_encode_value result] in
          let count := count + 1 in
          let '(nl, count) := if count =? CHARS_PER_LINE / 4 then ([10], 0) else ([], count) in
          let '(code, st) := encode_loop plain' step_A result count in
          (out1 ++ out2 ++ nl ++ code, st)
      end
  end.

Definition base64_encode_block (plaintext_in : list Z) (st : base64_encodestate)
    : list Z * base64_encodestate :=
  encode_loop plaintext_in (estep st) (eresult st) (stepcount st).

Definition base64_encode_blockend (st : base64_encodestate) : list Z :=
  match estep st with
  | step_B => [base64_encode_value (eresult st); 61; 61]
  | step_C => [base64_encode_value (eresult st); 61]
  | step_A => []
  end ++ [10].

(** ** cdecode.c *)

Inductive base64_decodestep := step_a | step_b | step_c | step_d.

Record base64_decodestate := mkDec { dstep_ : base64_decodestep; dplainchar : Z }.

Definition base64_init_decodestate : base64_decodestate := mkDec step_a 0.

Definition decoding : list Z :=
  [62; -1; -1; -1; 63; 52; 53; 54; 55; 56; 57; 58; 59; 60; 61; -1; -1; -1; -2; -1;
   -1; -1; 0; 1; 2; 3; 4; 5; 6; 7; 8; 9; 10; 11; 12; 13; 14; 15; 16; 17;
   18; 19; 20; 21; 22; 23; 24; 25; -1; -1; -1; -1; -1; -1; 26; 27; 28; 29; 30; 31;
   32; 33; 34; 35; 36; 37; 38; 39; 40; 41; 42; 43; 44; 45; 46; 47; 48; 49; 50; 51].

Definition base64_decode_value (value_in : Z) : Z :=
  let value_in := value_in - 43 in
  if (value_in <? 0) || (Z.of_nat (List.length decoding) <=? value_in) then -1
  else nth (Z.to_nat value_in) decoding (-1).

(** The output buffer; [None] is an access past its end. *)
Definition peek (buf : list Z) (i : nat) : option Z := nth_error buf i.
Definition poke (buf : list Z) (i : nat) (v : Z) : option (list Z) :=
  if (i <? List.length buf)%nat then Some (firstn i buf ++ v :: skipn (S i) buf) else None.

Definition or_into (buf : list Z) (i : nat) (v : Z) : option (list Z) :=
  match peek buf i with
  | Some x => poke buf i (Z.lor x v)
  | None => None
  end.

Definition obind {A B} (o : option A) (f : A -> option B) : option B :=
  match o with Some a => f a | None => None end.

(** The loop of [base64_decode_block]; [pc] is [plainchar - plaintext_out].
    Characters of negative value are skipped by the [do ... while]. *)
Fixpoint decode_loop (code : list Z) (buf : list Z) (pc : nat) (step : base64_decodestep)
    : option (nat * list Z * base64_decodestate) :=
  match code with
  | [] => obind (peek buf pc) (fun c => Some (pc, buf, mkDec step c))
  | ch :: code' =>
      let fragment := base64_decode_value ch in
      if fragment <? 0 then decode_loop code' buf pc step
      else match step with
      | step_a =>
          obind (poke buf pc (u8 (Z.shiftl (Z.land fragment 63) 2))) (fun buf =>
          decode_loop code' buf pc step_b)
      | step_b =>
          obind (or_into buf pc (Z.shiftr (Z.land fragment 48) 4)) (fun buf =>
          obind (poke buf (S pc) (u8 (Z.shiftl (Z.land fragment 15) 4))) (fun buf =>
          decode_loop code' buf (S pc) step_c))
      | step_c =>
          obind (or_into buf pc (Z.shiftr (Z.land fragment 60) 2)) (fun buf =>
          obind (poke buf (S pc) (u8 (Z.shiftl (Z.land fragment 3) 6))) (fun buf =>
          decode_loop code' buf (S pc) step_d))
      | step_d =>
          obind (or_into buf pc (Z.land fragment 63)) (fun buf =>
          decode_loop code' buf (S pc) step_a)
      end
  end.

(** The number of bytes produced, the buffer and the saved state. *)
Definition base64_decode_block (code_in : list Z) (plaintext_out : list Z) (st : base64_decodestate)
    : option (nat * list Z * base64_decodestate) :=
  obind (poke plaintext_out 0 (dplainchar st)) (fun buf =>
  decode_loop code_in buf 0 (dstep_ st)).

Definition chars (s : string) : list Z := map (fun c => Z.of_nat (nat_of_ascii c)) (list_ascii_of_string s).

(** RFC 4648 test vector. *)
Example base64_foobar :
  let '(code, st) := base64_encode_block (chars "fooba") base64_init_encodestate in
  code ++ base64_encode_blockend st = chars "Zm9vYmE=" ++ [10] /\
  option_map fst (base64_decode_block (chars "Zm9vYmE=") (repeat 0 6) base64_init_decodestate)
    = Some (5%nat, chars "fooba" ++ [0]).
Proof. vm_compute. auto. Qed.

(** ** The encoder against RFC 4648 *)

Definition ALL64 : list Z := map Z.of_nat (seq 0 64).
Definition ALL256 : list Z := map Z.of_nat (seq 0 256).

Lemma all_bytes (P : Z -> bool) : forallb P ALL256 = true -> forall x, is_byte x -> P x = true.
Proof.
  intros H x Hx. rewrite forallb_forall in H. apply H. unfold ALL256, is_byte in *.
  apply in_map_iff. exists (Z.to_nat x). rewrite in_seq. lia.
Qed.

Lemma all_bytes2 (P : Z -> Z -> bool) : forallb (fun x => forallb (P x) ALL256) ALL256 = true ->
  forall x y, is_byte x -> is_byte y -> P x y = true.
Proof. intros H x y Hx Hy. apply (all_bytes (P x)); [|exact Hy]. exact (all_bytes _ H x Hx). Qed.

(** Four characters from the 24 bits of a group, and the padded last group. *)
Definition sextet (n k : Z) : Z := nth (Z.to_nat (n / 2 ^ (6 * k) mod 64)) encoding 0.

Fixpoint b64_ref (plain : list Z) : list Z :=
  match plain with
  | a :: b :: c :: r => let n := a * 65536 + b * 256 + c in
                        [sextet n 3; sextet n 2; sextet n 1; sextet n 0] ++ b64_ref r
  | [a; b] => let n := a * 65536 + b * 256 in [sextet n 3; sextet n 2; sextet n 1; 61]
  | [a] => let n := a * 65536 in [sextet n 3; sextet n 2; 61; 61]
  | [] => []
  end.

(** The sextets the code computes are those of the 24-bit group. *)
Definition s1 (a : Z) := Z.shiftr (Z.land a 252) 2.
Definition s2 (a b : Z) := Z.lor (Z.shiftl (Z.land a 3) 4) (Z.shiftr (Z.land b 240) 4).
Definition s3 (b c : Z) := Z.lor (Z.shiftl (Z.land b 15) 2) (Z.shiftr (Z.land c 192) 6).
Definition s4 (c : Z) := Z.shiftr (Z.land c 63) 0.

Lemma s1_spec a : is_byte a -> s1 a = a / 4 /\ 0 <= s1 a <= 63.
Proof.
  intros Ha.
  assert (H := all_bytes (fun a => (s1 a =? a / 4) && (0 <=? s1 a) && (s1 a <=? 63)) eq_refl a Ha).
  cbv beta in H. rewrite !andb_true_iff, Z.eqb_eq, !Z.leb_le in H. lia.
Qed.

Lemma s2_spec a b : is_byte a -> is_byte b -> s2 a b = a mod 4 * 16 + b / 16 /\ 0 <= s2 a b <= 63.
Proof.
  intros Ha Hb.
  assert (H := all_bytes2 (fun a b => (s2 a b =? a mod 4 * 16 + b / 16) && (0 <=? s2 a b) && (s2 a b <=? 63))
    ltac:(vm_compute; reflexivity) a b Ha Hb).
  cbv beta in H. rewrite !andb_true_iff, Z.eqb_eq, !Z.leb_le in H. lia.
Qed.

Lemma s3_spec b c : is_byte b -> is_byte c -> s3 b c = b mod 16 * 4 + c / 64 /\ 0 <= s3 b c <= 63.
Proof.
  intros Hb Hc.
  assert (H := all_bytes2 (fun b c => (s3 b c =? b mod 16 * 4 + c / 64) && (0 <=? s3 b c) && (s3 b c <=? 63))
    ltac:(vm_compute; reflexivity) b c Hb Hc).
  cbv beta in H. rewrite !andb_true_iff, Z.eqb_eq, !Z.leb_le in H. lia.
Qed.

Lemma s4_spec c : is_byte c -> s4 c = c mod 64 /\ 0 <= s4 c <= 63.
Proof.
  intros Hc.
  assert (H := all_bytes (fun c => (s4 c =? c mod 64) && (0 <=? s4 c) && (s4 c <=? 63)) eq_refl c Hc).
  cbv beta in H. rewrite !andb_true_iff, Z.eqb_eq, !Z.leb_le in H. lia.
Qed.

Lemma encode_value_sextet n k d x : 2 ^ (6 * k) = d -> x = n / d mod 64 -> 0 <= x <= 63 ->
  base64_encode_value x = sextet n k.
Proof.
  intros <- -> Hx. unfold base64_encode_value, sextet. rewrite (proj2 (Z.ltb_ge _ _)) by lia. reflexivity.
Qed.

Lemma group_sextets a b c : is_byte a -> is_byte b -> is_byte c ->
  let n := a * 65536 + b * 256 + c in
  base64_encode_value (s1 a) = sextet n 3 /\ base64_encode_value (s2 a b) = sextet n 2 /\
  base64_encode_value (s3 b c) = sextet n 1 /\ base64_encode_value (s4 c) = sextet n 0.
Proof.
  intros Ha Hb Hc n.
  destruct (s1_spec a Ha) as [E1 R1], (s2_spec a b Ha Hb) as [E2 R2],
    (s3_spec b c Hb Hc) as [E3 R3], (s4_spec c Hc) as [E4 R4].
  unfold is_byte in *.
  assert (H3 : n / 262144 = a / 4) by (clear - Ha Hb Hc; unfold n; Z.to_euclidean_division_equations; lia).
  assert (H2 : n / 4096 = a * 16 + b / 16) by (clear - Ha Hb Hc; unfold n; Z.to_euclidean_division_equations; lia).
  assert (H1 : n / 64 = a * 1024 + b * 4 + c / 64) by (clear - Ha Hb Hc; unfold n; Z.to_euclidean_division_equations; lia).
  split; [|split; [|split]].
  - apply (encode_value_sextet n 3 262144); [reflexivity| |lia]. rewrite H3, E1.
    clear - Ha. Z.to_euclidean_division_equations; lia.
  - apply (encode_value_sextet n 2 4096); [reflexivity| |lia]. rewrite H2, E2.
    clear - Ha Hb. Z.to_euclidean_division_equations; lia.
  - apply (encode_value_sextet n 1 64); [reflexivity| |lia]. rewrite H1, E3.
    clear - Ha Hb Hc. Z.to_euclidean_division_equations; lia.
  - apply (encode_value_sextet n 0 1); [reflexivity| |lia]. rewrite E4.
    clear - Ha Hb Hc. unfold n. Z.to_euclidean_division_equations; lia.
Qed.

(** Text of a list of complete lines and a last, shorter one. *)
Definition text (lines : list (list Z)) (last : list Z) : list Z :=
  List.concat (map (fun l => l ++ [10]) lines) ++ last ++ [10].

Definition line_ok (l : list Z) : Prop := List.length l = 72%nat.

Lemma sextet_not_newline n k : 0 <= n -> sextet n k <> 10.
Proof.
  intros _. unfold sextet. set (x := n / 2 ^ (6 * k) mod 64).
  assert (Hx : 0 <= x < 64) by (apply Z.mod_pos_bound; lia).
  assert (H : forallb (fun x => negb (nth (Z.to_nat x) encoding 0 =? 10)) ALL64 = true) by reflexivity.
  rewrite forallb_forall in H. specialize (H x). apply Z.eqb_neq, negb_true_iff, H.
  apply in_map_iff. exists (Z.to_nat x). rewrite in_seq. lia.
Qed.

Lemma encode_group a b c r result count :
  encode_loop (a :: b :: c :: r) step_A result count =
  let '(nl, count') := if count + 1 =? CHARS_PER_LINE / 4 then ([10], 0) else ([], count + 1) in
  let '(code, st) := encode_loop r step_A (s4 c) count' in
  (base64_encode_value (s1 a) :: base64_encode_value (s2 a b) ::
   base64_encode_value (s3 b c) :: base64_encode_value (s4 c) :: nl ++ code, st).
Proof.
  cbn [encode_loop]. fold (s1 a) (s2 a b) (s3 b c) (s4 c).
  destruct (count + 1 =? _); destruct (encode_loop r _ _ _); reflexivity.
Qed.

Lemma list_ind3 {A} (P : list A -> Prop) : P [] -> (forall a, P [a]) -> (forall a b, P [a; b]) ->
  (forall a b c r, P r -> P (a :: b :: c :: r)) -> forall l, P l.
Proof.
  intros H0 H1 H2 H3 l. enough (P l /\ (forall a, P (a :: l)) /\ (forall a b, P (a :: b :: l))) by tauto.
  induction l as [|x l (IH1 & IH2 & IH3)]; repeat split; auto.
Qed.

(** The group being laid out: [cur] is the current line so far. *)
Lemma encode_lines plain : bytes_ok plain -> forall cur result count,
  0 <= count < 18 -> List.length cur = Z.to_nat (4 * count) ->
  let '(code, st) := encode_loop plain step_A result count in
  exists lines last, cur ++ code ++ base64_encode_blockend st = text lines last /\
    List.concat lines ++ last = cur ++ b64_ref plain /\
    Forall line_ok lines /\ (List.length last <= 72)%nat.
Proof.
  induction plain as [|a|a b|a b c r IH] using list_ind3; intros Hp cur result count Hc Hl.
  - exists [], cur. cbn. rewrite app_nil_r. repeat split; auto. lia.
  - apply Forall_inv in Hp.
    destruct (group_sextets a 0 0) as (E1 & E2 & _); try (unfold is_byte in *; lia).
    cbn [encode_loop]. exists [], (cur ++ b64_ref [a]). cbn [b64_ref text List.concat map app].
    fold (s1 a). replace (Z.shiftl (Z.land a 3) 4) with (s2 a 0) by (unfold s2; cbn; now rewrite Z.lor_0_r).
    unfold base64_encode_blockend; cbn [estep eresult]. rewrite E1, E2.
    replace (a * 65536 + 0 * 256 + 0) with (a * 65536) by lia.
    repeat split; auto; [rewrite <- !app_assoc; reflexivity|rewrite length_app; cbn; lia].
  - pose proof (Forall_inv Hp) as Ha. pose proof (Forall_inv (Forall_inv_tail Hp)) as Hb. cbv beta in Ha, Hb.
    destruct (group_sextets a b 0) as (E1 & E2 & E3 & _); try (unfold is_byte in *; lia).
    cbn [encode_loop]. exists [], (cur ++ b64_ref [a; b]). cbn [b64_ref text List.concat map app].
    fold (s1 a) (s2 a b). replace (Z.shiftl (Z.land b 15) 2) with (s3 b 0) by (unfold s3; cbn; now rewrite Z.lor_0_r).
    unfold base64_encode_blockend; cbn [estep eresult]. rewrite E1, E2, E3.
    replace (a * 65536 + b * 256 + 0) with (a * 65536 + b * 256) by lia.
    repeat split; auto; [rewrite <- !app_assoc; reflexivity|rewrite length_app; cbn; lia].
  - pose proof (Forall_inv Hp) as Ha. pose proof (Forall_inv (Forall_inv_tail Hp)) as Hb.
    pose proof (Forall_inv (Forall_inv_tail (Forall_inv_tail Hp))) as Hcc. cbv beta in Ha, Hb, Hcc.
    apply Forall_inv_tail, Forall_inv_tail, Forall_inv_tail in Hp.
    destruct (group_sextets a b c Ha Hb Hcc) as (E1 & E2 & E3 & E4).
    rewrite encode_group, E1, E2, E3, E4. change (CHARS_PER_LINE / 4) with 18.
    cbn [b64_ref]. set (g := [_; _; _; sextet (a * 65536 + b * 256 + c) 0]).
    destruct (Z.eqb_spec (count + 1) 18).
    + specialize (IH Hp [] (s4 c) 0 ltac:(lia) eq_refl). destruct (encode_loop r _ _ _) as [code st].
      destruct IH as (lines & last & Ht & Hcat & Hok & Hlast). cbn [app] in Ht, Hcat.
      exists ((cur ++ g) :: lines), last. repeat split.
      * unfold text in *. cbn [map List.concat app]. rewrite <- !app_assoc. cbn [app].
        rewrite Ht. unfold g. reflexivity.
      * cbn [List.concat]. rewrite <- Hcat, <- !app_assoc. reflexivity.
      * constructor; [|exact Hok]. unfold line_ok. rewrite length_app. cbn. lia.
      * exact Hlast.
    + specialize (IH Hp (cur ++ g) (s4 c) (count + 1) ltac:(lia)).
      rewrite length_app in IH. specialize (IH ltac:(change (List.length g) with 4%nat; lia)). destruct (encode_loop r _ _ _) as [code st].
      destruct IH as (lines & last & Ht & Hcat & Hok & Hlast).
      exists lines, last. rewrite <- !app_assoc in *. cbn [app] in *. auto.
Qed.

(** ** The decoder as a transducer *)

(** Emitted bytes, final step and the byte under construction. *)
Fixpoint dec (code : list Z) (step : base64_decodestep) (cur : Z) : list Z * (base64_decodestep * Z) :=
  match code with
  | [] => ([], (step, cur))
  | ch :: code' =>
      let f := base64_decode_value ch in
      if f <? 0 then dec code' step cur
      else match step with
      | step_a => dec code' step_b (u8 (Z.shiftl (Z.land f 63) 2))
      | step_b => let '(o, s) := dec code' step_c (u8 (Z.shiftl (Z.land f 15) 4)) in
                  (Z.lor cur (Z.shiftr (Z.land f 48) 4) :: o, s)
      | step_c => let '(o, s) := dec code' step_d (u8 (Z.shiftl (Z.land f 3) 6)) in
                  (Z.lor cur (Z.shiftr (Z.land f 60) 2) :: o, s)
      | step_d => let '(o, s) := dec code' step_a 0 in (Z.lor cur (Z.land f 63) :: o, s)
      end
  end.

Lemma dec_app c1 c2 step cur :
  dec (c1 ++ c2) step cur =
  let '(o1, (s1, u1)) := dec c1 step cur in let '(o2, r) := dec c2 s1 u1 in (o1 ++ o2, r).
Proof.
  revert step cur. induction c1 as [|ch c1 IH]; intros; cbn [dec app]; [destruct (dec c2 _ _); reflexivity|].
  destruct (_ <? 0); [apply IH|]. destruct step; rewrite IH;
    destruct (dec c1 _ _) as [o1 [s1 u1]]; destruct (dec c2 _ _); reflexivity.
Qed.

(** The byte under construction matters only after the first sextet. *)
Definition same_cur (step : base64_decodestep) (c d : Z) : Prop := step = step_a \/ c = d.

Lemma dec_same code step c d : same_cur step c d ->
  let '(o, (s, u)) := dec code step c in let '(o', (s', u')) := dec code step d in
  o = o' /\ s = s' /\ same_cur s u u'.
Proof.
  revert step c d. induction code as [|ch code IH]; intros step c d H; cbn [dec]; [auto|].
  destruct (_ <? 0); [apply IH, H|].
  destruct H as [-> | ->]; [|destruct (match step with step_a => _ | _ => _ end) as [? [? ?]]; unfold same_cur; auto].
  destruct (dec code _ _) as [? [? ?]]. unfold same_cur. auto.
Qed.

Lemma poke_spec buf i v : (i < List.length buf)%nat ->
  exists buf', poke buf i v = Some buf' /\ List.length buf' = List.length buf /\
    firstn i buf' = firstn i buf /\ nth_error buf' i = Some v /\
    firstn (S i) buf' = firstn i buf ++ [v].
Proof.
  intros Hi. unfold poke. rewrite (proj2 (Nat.ltb_lt _ _) Hi). eexists; split; [reflexivity|].
  assert (Hl : List.length (firstn i buf) = i) by (rewrite length_firstn; lia).
  repeat split.
  - rewrite length_app. cbn [List.length]. rewrite length_firstn, length_skipn. lia.
  - rewrite firstn_app, Hl, Nat.sub_diag, firstn_O, app_nil_r. rewrite firstn_firstn. f_equal. lia.
  - rewrite nth_error_app2 by lia. now rewrite Hl, Nat.sub_diag.
  - replace (S i) with (List.length (firstn i buf) + 1)%nat by lia. rewrite firstn_app_2. reflexivity.
Qed.

Lemma or_into_spec buf i v x : nth_error buf i = Some x ->
  exists buf', or_into buf i v = Some buf' /\ List.length buf' = List.length buf /\
    firstn (S i) buf' = firstn i buf ++ [Z.lor x v].
Proof.
  intros Hx. unfold or_into, peek. rewrite Hx.
  destruct (poke_spec buf i (Z.lor x v)) as (b & -> & ? & _ & _ & ?); [|eauto].
  apply nth_error_Some. congruence.
Qed.

(** The loop writes what the transducer emits, and needs one byte more. *)
Lemma decode_loop_dec code buf pc step cur0 cur : nth_error buf pc = Some cur0 -> same_cur step cur0 cur ->
  let '(o, (s, u)) := dec code step cur in
  (pc + List.length o < List.length buf)%nat ->
  exists buf' u', decode_loop code buf pc step = Some ((pc + List.length o)%nat, buf', mkDec s u') /\
    same_cur s u' u /\ firstn (pc + List.length o) buf' = firstn pc buf ++ o /\
    List.length buf' = List.length buf.
Proof.
  revert buf pc step cur0 cur. induction code as [|ch code IH]; intros buf pc step cur0 cur Hn Hs; cbn [dec decode_loop].
  { intros _. unfold peek. rewrite Hn. cbn. rewrite Nat.add_0_r. exists buf, cur0.
    rewrite app_nil_r. auto. }
  destruct (base64_decode_value ch <? 0); [apply (IH _ _ _ cur0); assumption|].
  set (f := base64_decode_value ch). assert (Hpc : (pc < List.length buf)%nat) by (apply nth_error_Some; congruence).
  assert (Hstep : step <> step_a -> cur0 = cur) by (destruct Hs; tauto).
  assert (Hnext : forall v w st, cur0 = cur ->
    let '(o, (s, u)) := dec code st w in
    (pc + S (List.length o) < List.length buf)%nat ->
    exists buf' u',
      obind (or_into buf pc v) (fun buf => obind (poke buf (S pc) w) (fun buf => decode_loop code buf (S pc) st))
      = Some ((pc + S (List.length o))%nat, buf', mkDec s u') /\ same_cur s u' u /\
      firstn (pc + S (List.length o)) buf' = firstn pc buf ++ Z.lor cur v :: o /\ List.length buf' = List.length buf).
  { intros v w st ->. destruct (or_into_spec buf pc v cur Hn) as (b1 & E1 & L1 & F1). rewrite E1. cbn [obind].
    destruct (dec code st w) as [o [s u]] eqn:Ed. intros Hlen.
    destruct (poke_spec b1 (S pc) w ltac:(lia)) as (b2 & E2 & L2 & F2 & N2 & _). rewrite E2. cbn [obind].
    specialize (IH b2 (S pc) st w w N2 (or_intror eq_refl)). rewrite Ed in IH.
    destruct IH as (b3 & u' & -> & Hu & F3 & L3); [lia|].
    exists b3, u'. replace (S pc + List.length o)%nat with (pc + S (List.length o))%nat in * by lia.
    repeat split; auto; [|lia]. rewrite F3, F2, F1, <- app_assoc. reflexivity. }
  destruct step.
  - destruct (poke_spec buf pc (u8 (Z.shiftl (Z.land f 63) 2)) Hpc) as (b1 & -> & L1 & F1 & N1 & _). cbn [obind].
    specialize (IH b1 pc step_b _ _ N1 (or_intror eq_refl)).
    destruct (dec code step_b _) as [o [s u]]. rewrite L1, F1 in IH. exact IH.
  - specialize (Hnext (Z.shiftr (Z.land f 48) 4) (u8 (Z.shiftl (Z.land f 15) 4)) step_c (Hstep ltac:(discriminate))).
    destruct (dec code _ _) as [o [s u]]. exact Hnext.
  - specialize (Hnext (Z.shiftr (Z.land f 60) 2) (u8 (Z.shiftl (Z.land f 3) 6)) step_d (Hstep ltac:(discriminate))).
    destruct (dec code _ _) as [o [s u]]. exact Hnext.
  - rewrite <- (Hstep ltac:(discriminate)).
    destruct (or_into_spec buf pc (Z.land f 63) cur0 Hn) as (b1 & -> & L1 & F1). cbn [obind].
    destruct (dec code step_a 0) as [o [s u]] eqn:Ed. cbn [List.length]. intros Hlen.
    destruct (nth_error b1 (S pc)) as [x|] eqn:Ex; [|apply nth_error_None in Ex; lia].
    specialize (IH b1 (S pc) step_a x 0 Ex (or_introl eq_refl)). rewrite Ed in IH.
    destruct IH as (b3 & u' & -> & Hu & F3 & L3); [lia|].
    exists b3, u'. replace (S pc + List.length o)%nat with (pc + S (List.length o))%nat in * by lia.
    repeat split; auto; [|lia]. rewrite F3, F1, <- app_assoc. reflexivity.
Qed.

Lemma dec_length code step cur : (List.length (fst (dec code step cur)) <= List.length code)%nat.
Proof.
  revert step cur. induction code as [|ch code IH]; intros; cbn [dec]; [cbn; lia|].
  destruct (_ <? 0); [specialize (IH step cur); cbn [List.length]; lia|].
  destruct step; cbn [List.length];
    match goal with |- context [dec code ?s ?c] => specialize (IH s c); destruct (dec code s c); cbn in *; lia end.
Qed.

Lemma decode_encode_value x : 0 <= x <= 63 -> base64_decode_value (base64_encode_value x) = x.
Proof.
  intros Hx.
  assert (H : forallb (fun x => base64_decode_value (base64_encode_value x) =? x) ALL64 = true) by reflexivity.
  rewrite forallb_forall in H. apply Z.eqb_eq, H. apply in_map_iff. exists (Z.to_nat x). rewrite in_seq. lia.
Qed.

(** Reading the character of a sextet. *)
Lemma dec_char x code step cur : 0 <= x <= 63 ->
  dec (base64_encode_value x :: code) step cur =
  match step with
  | step_a => dec code step_b (u8 (Z.shiftl (Z.land x 63) 2))
  | step_b => let '(o, s) := dec code step_c (u8 (Z.shiftl (Z.land x 15) 4)) in
              (Z.lor cur (Z.shiftr (Z.land x 48) 4) :: o, s)
  | step_c => let '(o, s) := dec code step_d (u8 (Z.shiftl (Z.land x 3) 6)) in
              (Z.lor cur (Z.shiftr (Z.land x 60) 2) :: o, s)
  | step_d => let '(o, s) := dec code step_a 0 in (Z.lor cur (Z.land x 63) :: o, s)
  end.
Proof.
  intros Hx. cbn [dec]. rewrite decode_encode_value by exact Hx.
  rewrite (proj2 (Z.ltb_ge _ _)) by lia. reflexivity.
Qed.

Lemma dec_skip ch code step cur : ch = 10 \/ ch = 61 -> dec (ch :: code) step cur = dec code step cur.
Proof. intros [-> | ->]; reflexivity. Qed.

(** What the two machines hold of the byte [f] that is half transmitted. *)
Lemma half_b f g : is_byte f -> is_byte g ->
  Z.lor (u8 (Z.shiftl (Z.land (s1 f) 63) 2)) (Z.shiftr (Z.land (s2 f g) 48) 4) = f /\
  u8 (Z.shiftl (Z.land (s2 f g) 15) 4) = Z.land g 240.
Proof.
  intros Hf Hg.
  assert (H := all_bytes2 (fun f g =>
    (Z.lor (u8 (Z.shiftl (Z.land (s1 f) 63) 2)) (Z.shiftr (Z.land (s2 f g) 48) 4) =? f) &&
    (u8 (Z.shiftl (Z.land (s2 f g) 15) 4) =? Z.land g 240)) ltac:(vm_compute; reflexivity) f g Hf Hg).
  cbv beta in H. rewrite andb_true_iff, !Z.eqb_eq in H. exact H.
Qed.

Lemma half_c g h : is_byte g -> is_byte h ->
  Z.lor (Z.land g 240) (Z.shiftr (Z.land (s3 g h) 60) 2) = g /\
  Z.lor (u8 (Z.shiftl (Z.land (s3 g h) 3) 6)) (Z.land (s4 h) 63) = h.
Proof.
  intros Hg Hh.
  assert (H := all_bytes2 (fun g h =>
    (Z.lor (Z.land g 240) (Z.shiftr (Z.land (s3 g h) 60) 2) =? g) &&
    (Z.lor (u8 (Z.shiftl (Z.land (s3 g h) 3) 6)) (Z.land (s4 h) 63) =? h))
    ltac:(vm_compute; reflexivity) g h Hg Hh).
  cbv beta in H. rewrite andb_true_iff, !Z.eqb_eq in H. exact H.
Qed.

Lemma byte0 : is_byte 0. Proof. unfold is_byte. lia. Qed.

(** Decoding what the encoder emits from a group boundary. *)
Lemma dec_encode plain : bytes_ok plain -> forall result count cur,
  let '(code, st) := encode_loop plain step_A result count in
  fst (dec (code ++ base64_encode_blockend st) step_a cur) = plain.
Proof.
  induction plain as [|a|a b|a b c r IH] using list_ind3; intros Hp result count cur.
  - reflexivity.
  - apply Forall_inv in Hp as Ha. cbv beta in Ha. cbn [encode_loop app]. unfold base64_encode_blockend; cbn [estep eresult app].
    fold (s1 a). replace (Z.shiftl (Z.land a 3) 4) with (s2 a 0) by (unfold s2; cbn; now rewrite Z.lor_0_r).
    rewrite dec_char by apply (s1_spec a Ha). rewrite dec_char by apply (s2_spec a 0 Ha byte0).
    destruct (half_b a 0 Ha byte0) as [-> _]. rewrite !dec_skip by auto. reflexivity.
  - pose proof (Forall_inv Hp) as Ha. pose proof (Forall_inv (Forall_inv_tail Hp)) as Hb. cbv beta in Ha, Hb.
    cbn [encode_loop app]. unfold base64_encode_blockend; cbn [estep eresult app].
    fold (s1 a) (s2 a b). replace (Z.shiftl (Z.land b 15) 2) with (s3 b 0) by (unfold s3; cbn; now rewrite Z.lor_0_r).
    rewrite dec_char by apply (s1_spec a Ha). rewrite dec_char by apply (s2_spec a b Ha Hb).
    rewrite dec_char by apply (s3_spec b 0 Hb byte0).
    destruct (half_b a b Ha Hb) as [-> ->]. destruct (half_c b 0 Hb byte0) as [-> _].
    rewrite !dec_skip by auto. reflexivity.
  - pose proof (Forall_inv Hp) as Ha. pose proof (Forall_inv (Forall_inv_tail Hp)) as Hb.
    pose proof (Forall_inv (Forall_inv_tail (Forall_inv_tail Hp))) as Hc. cbv beta in Ha, Hb, Hc.
    apply Forall_inv_tail, Forall_inv_tail, Forall_inv_tail in Hp.
    assert (Hdec : forall rest, fst (dec (base64_encode_value (s1 a) :: base64_encode_value (s2 a b) ::
        base64_encode_value (s3 b c) :: base64_encode_value (s4 c) :: rest) step_a cur)
        = a :: b :: c :: fst (dec rest step_a 0)).
    { intros rest. rewrite dec_char by apply (s1_spec a Ha). rewrite dec_char by apply (s2_spec a b Ha Hb).
      rewrite dec_char by apply (s3_spec b c Hb Hc). rewrite dec_char by apply (s4_spec c Hc).
      destruct (half_b a b Ha Hb) as [-> ->], (half_c b c Hb Hc) as [-> ->].
      destruct (dec rest step_a 0). reflexivity. }
    rewrite encode_group. change (CHARS_PER_LINE / 4) with 18.
    destruct (count + 1 =? 18).
    + specialize (IH Hp (s4 c) 0 0). destruct (encode_loop r _ _ _) as [code st]. cbn [app].
      rewrite Hdec, dec_skip by auto. now rewrite IH.
    + specialize (IH Hp (s4 c) (count + 1) 0). destruct (encode_loop r _ _ _) as [code st]. cbn [app].
      rewrite Hdec. now rewrite IH.
Qed.

(** ** Streams of calls *)

(** Successive [base64_encode_block] calls and the final [base64_encode_blockend]. *)
Fixpoint encode_stream (chunks : list (list Z)) (st : base64_encodestate) : list Z :=
  match chunks with
  | [] => base64_encode_blockend st
  | c :: cs => let '(code, st) := base64_encode_block c st in code ++ encode_stream cs st
  end.

(** Successive [base64_decode_block] calls, each with its own output buffer. *)
Fixpoint decode_stream (calls : list (list Z * list Z)) (st : base64_decodestate) : option (list Z) :=
  match calls with
  | [] => Some []
  | (code, buf) :: cs =>
      obind (base64_decode_block code buf st) (fun '(n, buf', st') =>
      obind (decode_stream cs st') (fun o => Some (firstn n buf' ++ o)))
  end.

Lemma encode_loop_app p q step result count :
  encode_loop (p ++ q) step result count =
  let '(c1, st) := encode_loop p step result count in
  let '(c2, st2) := encode_loop q (estep st) (eresult st) (stepcount st) in (c1 ++ c2, st2).
Proof.
  revert step result count. induction p as [|a p IH]; intros; cbn [encode_loop app estep eresult stepcount].
  { destruct (encode_loop q _ _ _). reflexivity. }
  destruct step; [| |destruct (count + 1 =? _)]; rewrite IH; destruct (encode_loop p _ _ _) as [? st];
    destruct (encode_loop q _ _ _); cbn [app]; reflexivity.
Qed.

Lemma encode_stream_concat chunks st :
  encode_stream chunks st =
  let '(code, st') := base64_encode_block (List.concat chunks) st in code ++ base64_encode_blockend st'.
Proof.
  revert st. induction chunks as [|c cs IH]; intros st; cbn [encode_stream List.concat].
  - unfold base64_encode_block. cbn. destruct st; reflexivity.
  - unfold base64_encode_block in *. rewrite encode_loop_app. destruct (encode_loop c _ _ _) as [c1 st1].
    rewrite IH. destruct (encode_loop (List.concat cs) _ _ _) as [c2 st2]. now rewrite app_assoc.
Qed.

Lemma decode_stream_dec calls st cur : same_cur (dstep_ st) (dplainchar st) cur ->
  Forall (fun call => List.length (fst call) < List.length (snd call))%nat calls ->
  decode_stream calls st = Some (fst (dec (List.concat (map fst calls)) (dstep_ st) cur)).
Proof.
  intros Hs Hb. revert st cur Hs. induction Hb as [|[code buf] calls Hc _ IH]; intros st cur Hs; [reflexivity|].
  cbn [decode_stream map List.concat fst snd] in *. unfold base64_decode_block.
  destruct (poke_spec buf 0 (dplainchar st) ltac:(lia)) as (b1 & -> & L1 & _ & N1 & _). cbn [obind].
  rewrite dec_app. pose proof (decode_loop_dec code b1 0 (dstep_ st) _ cur N1 Hs) as Hd.
  pose proof (dec_length code (dstep_ st) cur) as Hlen.
  destruct (dec code (dstep_ st) cur) as [o [s u]]. cbn [fst] in Hlen.
  destruct Hd as (b2 & u' & -> & Hu & F2 & L2); [lia|]. cbn [obind Nat.add]. cbn [Nat.add firstn app] in F2. rewrite F2.
  rewrite (IH (mkDec s u') u Hu). cbn [dstep_ obind].
  destruct (dec (List.concat _) s u) as [o2 ?]. reflexivity.
Qed.

(** However the plaintext is split over base64_encode_block calls, the
    characters written are the RFC 4648 encoding of the whole plaintext, laid
    out in lines of exactly 72 characters and a last line, each ended by a
    newline. *)
Theorem base64_encode_correct (chunks : list (list Z)) :
  Forall bytes_ok chunks ->
  exists lines last, encode_stream chunks base64_init_encodestate = text lines last /\
    List.concat lines ++ last = b64_ref (List.concat chunks) /\
    Forall (fun l => List.length l = Z.to_nat CHARS_PER_LINE) lines /\
    (List.length last <= Z.to_nat CHARS_PER_LINE)%nat.
Proof.
  intros Hok. rewrite encode_stream_concat. unfold base64_encode_block. cbn [estep eresult stepcount base64_init_encodestate].
  assert (Hp : bytes_ok (List.concat chunks)) by (apply Forall_concat; exact Hok).
  pose proof (encode_lines (List.concat chunks) Hp [] 0 0 ltac:(lia) eq_refl) as H.
  destruct (encode_loop _ _ _ _) as [code st]. cbn [app] in H. exact H.
Qed.

Lemma base64_encode_witness :
  Forall bytes_ok [[102; 111]; []; [111; 98; 97]] /\
  exists lines last, encode_stream [[102; 111]; []; [111; 98; 97]] base64_init_encodestate = text lines last.
Proof.
  assert (H : Forall bytes_ok [[102; 111]; []; [111; 98; 97]])
    by (repeat constructor; unfold is_byte; cbn; lia).
  split; [exact H|]. destruct (base64_encode_correct _ H) as (lines & last & E & _). exists lines, last. exact E.
Defined.

(** C27: encoding in any chunks and decoding the text in any other chunks, each
    into a buffer longer than the chunk, gives back the plaintext and never
    reads or writes past a buffer. *)
Theorem base64_roundtrip (chunks : list (list Z)) (calls : list (list Z * list Z)) :
  Forall bytes_ok chunks ->
  List.concat (map fst calls) = encode_stream chunks base64_init_encodestate ->
  Forall (fun call => List.length (fst call) < List.length (snd call))%nat calls ->
  decode_stream calls base64_init_decodestate = Some (List.concat chunks).
Proof.
  intros Hok Hcalls Hbuf. rewrite (decode_stream_dec calls base64_init_decodestate 0 (or_introl eq_refl) Hbuf).
  rewrite Hcalls, encode_stream_concat. unfold base64_encode_block. cbn [estep eresult stepcount base64_init_encodestate dstep_ base64_init_decodestate].
  assert (Hp : bytes_ok (List.concat chunks)) by (apply Forall_concat; exact Hok).
  pose proof (dec_encode (List.concat chunks) Hp 0 0 0) as H.
  destruct (encode_loop _ _ _ _) as [code st]. now rewrite H.
Qed.

Lemma base64_roundtrip_witness :
  decode_stream [([90; 109], [7; 7; 7]); ([57; 118; 89; 109; 69; 61; 10], repeat 9 8)] base64_init_decodestate
  = Some (List.concat [[102; 111]; []; [111; 98; 97]]).
Proof.
  apply (base64_roundtrip [[102; 111]; []; [111; 98; 97]]).
  - repeat constructor; unfold is_byte; cbn; lia.
  - vm_compute. reflexivity.
  - repeat constructor; cbn; lia.
Defined.
