(* ===== verification/IndexedSet.v ===== *)
(** flow/flow/include/flow/IndexedSet.h: the AVL tree with metric totals.

    A node is [Node data balance total child[0] child[1]]; a pointer into the
    tree is a subtree with the path of parent frames above it, so that the
    loops following [parent] walk the path. [None] is a null dereference or a
    failed ASSERT. Metric sums are integers, the source leaving overflow of
    the Metric type undefined; [balance] is a [signed char] holding height
    differences. *)

From Stdlib Require Import ZArith List Lia Bool.
From S2P Require Import Prelude.
Import ListNotations.
#[local] Open Scope Z_scope.

(** The order on T: [compare] as the source calls it.  The laws are those of a
    total order; for elements that are compared by a part of them, as the pairs
    of a Map are by their key, T is that part. *)
Class Compare (T : Type) := compare : T -> T -> comparison.
Class CompareLaws (T : Type) `{Compare T} := {
  compare_eq : forall x y, compare x y = Eq <-> x = y;
  compare_antisym : forall x y, compare y x = CompOpp (compare x y);
  compare_trans : forall x y z, compare x y = Lt -> compare y z = Lt -> compare x z = Lt
}.

Section IndexedSet.

Context {T : Type} `{Compare T}.

Inductive tree :=
| Nil
| Node (data : T) (balance total : Z) (c0 c1 : tree).

(** The parent of a subtree: [fdir] tells which child the subtree is. *)
Record frame := mkF { fdir : bool; fdata : T; fbal : Z; ftot : Z; fsib : tree }.
Definition path := list frame.
Definition iterator := option (tree * path).

Definition child (t : tree) (d : bool) : tree :=
  match t with
  | Nil => Nil
  | Node _ _ _ c0 c1 => if d then c1 else c0
  end.

(** A node with [child[d] = x] and [child[1-d] = y]. *)
Definition mknode (d : bool) (data : T) (b tot : Z) (x y : tree) : tree :=
  if d then Node data b tot y x else Node data b tot x y.

Definition is_nil (t : tree) : bool := match t with Nil => true | _ => false end.
Definition total_of (t : tree) : Z := match t with Nil => 0 | Node _ _ tot _ _ => tot end.
Definition bal_of (t : tree) : Z := match t with Nil => 0 | Node _ b _ _ _ => b end.

Definition plug_frame (f : frame) (t : tree) : tree :=
  mknode (fdir f) (fdata f) (fbal f) (ftot f) t (fsib f).
Fixpoint plug (t : tree) (p : path) : tree :=
  match p with
  | [] => t
  | f :: p' => plug (plug_frame f t) p'
  end.

(** ** Rotation and rebalancing *)

Definition ISRotate (oldRoot : tree) (d : bool) : option tree :=
  match oldRoot with
  | Nil => None
  | Node data b tot _ _ =>
      match child oldRoot (negb d) with
      | Nil => None
      | Node ndata nb ntot _ _ as newRoot =>
          let orTotal := tot - ntot in
          let orTotal := match child newRoot d with
                         | Nil => orTotal
                         | c => orTotal + total_of c
                         end in
          let oldRoot' := mknode d data b orTotal (child oldRoot d) (child newRoot d) in
          Some (mknode d ndata nb tot oldRoot' (child newRoot (negb d)))
      end
  end.

Definition set_balance (t : tree) (b : Z) : tree :=
  match t with Nil => Nil | Node x _ tot c0 c1 => Node x b tot c0 c1 end.
Definition set_child (t : tree) (d : bool) (c : tree) : tree :=
  match t with
  | Nil => Nil
  | Node x b tot c0 c1 => if d then Node x b tot c0 c else Node x b tot c c1
  end.

Definition ISAdjustBalance (root : tree) (d : bool) (bal : Z) : option tree :=
  let n := child root d in
  let nn := child n (negb d) in
  if is_nil root || is_nil n || is_nil nn then None
  else
    let '(rb, nb) := if bal_of nn =? 0 then (0, 0)
                     else if bal_of nn =? bal then (- bal, 0)
                     else (0, bal) in
    let n' := set_child (set_balance n nb) (negb d) (set_balance nn 0) in
    Some (set_child (set_balance root rb) d n').

(** Option bind for the null dereferences and the ASSERT. *)
Definition bind {A B} (o : option A) (f : A -> option B) : option B :=
  match o with Some a => f a | None => None end.

(** Returns the rebalanced tree and the change in its height. *)
Fixpoint ISRebalance_fuel (fuel : nat) (root : tree) : option (tree * Z) :=
  match fuel with
  | O => None
  | S fuel =>
  if is_nil root || ((-1 <=? bal_of root) && (bal_of root <=? 1)) then Some (root, 0)
  else
    let rebalanceDir := bal_of root <? 0 in
    let n := child root (negb rebalanceDir) in
    let bal := if rebalanceDir then 1 else -1 in
    let rootBal := bal_of root in
    if is_nil n then None else
    let doubleRotation := bal_of n =? bal in
    bind (if doubleRotation then
            let x := bal_of (child n rebalanceDir) in
            bind (ISRotate n (negb rebalanceDir)) (fun n =>
            let n := set_balance n ((if x =? - bal then -2 else -1) * bal) in
            let n := set_child n (negb rebalanceDir)
                       (set_balance (child n (negb rebalanceDir)) ((if x =? bal then -1 else 0) * bal)) in
            Some (set_child root (negb rebalanceDir) n))
          else Some root) (fun root =>
    let n := child root (negb rebalanceDir) in
    let nBal := bal_of n * bal in
    let newRootBalance := bal * (1 + Z.max nBal (bal * bal_of root + 1 + Z.max nBal 0)) in
    let newChildBalance := bal_of root + bal * (1 - Z.min nBal 0) in
    bind (ISRotate root rebalanceDir) (fun root =>
    let root := set_balance root newRootBalance in
    let root := set_child root rebalanceDir (set_balance (child root rebalanceDir) newChildBalance) in
    bind (ISRebalance_fuel fuel (child root rebalanceDir)) (fun '(c, childHeightChange) =>
    let root := set_child root rebalanceDir c in
    let root := set_balance root (bal_of root + childHeightChange * bal) in
    let heightChange := if doubleRotation then -1 else Z.max (nBal + childHeightChange) (-1) in
    if (bal_of root <? -1) || (1 <? bal_of root) then
      if Z.abs (bal_of root) <? Z.abs rootBal then
        bind (ISRebalance_fuel fuel root) (fun '(root, h) => Some (root, heightChange + h))
      else None
    else Some (root, heightChange))))
  end.

Fixpoint height (t : tree) : nat :=
  match t with Nil => O | Node _ _ _ c0 c1 => S (Nat.max (height c0) (height c1)) end.

(** Enough for the recursion: the height squared bounds its depth. *)
Definition ISRebalance (t : tree) : option (tree * Z) :=
  let h := height t in ISRebalance_fuel (S (h * S h + Z.to_nat (Z.abs (bal_of t)))) t.

(** ** Iterators *)

(** [while (node->child[d]) node = node->child[d]] *)
Fixpoint extreme (d : bool) (t : tree) (p : path) : tree * path :=
  match t with
  | Nil => (t, p)
  | Node x b tot c0 c1 =>
      if d then match c1 with Nil => (t, p) | _ => extreme d c1 (mkF true x b tot c0 :: p) end
      else match c0 with Nil => (t, p) | _ => extreme d c0 (mkF false x b tot c1 :: p) end
  end.

(** [while (node->parent && node->parent->child[d] == node) node = node->parent; node = node->parent] *)
Fixpoint ascend (d : bool) (t : tree) (p : path) : iterator :=
  match p with
  | [] => None
  | f :: p' => if Bool.eqb (fdir f) d then ascend d (plug_frame f t) p' else Some (plug_frame f t, p')
  end.

Definition moveIterator (direction : bool) (t : tree) (p : path) : iterator :=
  match t with
  | Nil => None
  | Node x b tot c0 c1 =>
      match child t direction with
      | Nil => ascend direction t p
      | c => Some (extreme (negb direction) c
                     (mkF direction x b tot (child t (negb direction)) :: p))
      end
  end.

Definition begin (root : tree) : iterator :=
  match root with Nil => None | _ => Some (extreme false root []) end.
Definition lastItem (root : tree) : iterator :=
  match root with Nil => None | _ => Some (extreme true root []) end.
Definition previous (root : tree) (i : iterator) : iterator :=
  match i with
  | None => lastItem root
  | Some (t, p) => moveIterator false t p
  end.

(** ** Searching *)

Definition gtb (c : comparison) : bool := match c with Gt => true | _ => false end.
Definition ltb (c : comparison) : bool := match c with Lt => true | _ => false end.

Fixpoint find_at (key : T) (t : tree) (p : path) : iterator :=
  match t with
  | Nil => None
  | Node x b tot c0 c1 =>
      match compare key x with
      | Eq => Some (t, p)
      | Gt => find_at key c1 (mkF true x b tot c0 :: p)
      | Lt => find_at key c0 (mkF false x b tot c1 :: p)
      end
  end.
Definition find (root : tree) (key : T) : iterator := find_at key root [].

(** The descent of [lower_bound] and [upper_bound]: [right x] says whether to
    go to child[1]; ends at a node whose chosen child is null. *)
Fixpoint bound_at (right : T -> bool) (t : tree) (p : path) : iterator :=
  match t with
  | Nil => None
  | Node x b tot c0 c1 =>
      if right x then
        match c1 with
        | Nil => moveIterator true t p
        | _ => bound_at right c1 (mkF true x b tot c0 :: p)
        end
      else
        match c0 with
        | Nil => Some (t, p)
        | _ => bound_at right c0 (mkF false x b tot c1 :: p)
        end
  end.

Definition lower_bound (root : tree) (key : T) : iterator :=
  bound_at (fun x => ltb (compare x key)) root [].
Definition upper_bound (root : tree) (key : T) : iterator :=
  bound_at (fun x => negb (ltb (compare key x))) root [].

(** Iterators are equal when they point at the same node: the same way down. *)
Definition same_node (i j : iterator) : bool :=
  match i, j with
  | None, None => true
  | Some (_, p), Some (_, q) =>
      Nat.eqb (length p) (length q) && forallb (fun '(f, g) => Bool.eqb (fdir f) (fdir g)) (combine p q)
  | _, _ => false
  end.

Definition lastLessOrEqual (root : tree) (key : T) : iterator :=
  let i := upper_bound root key in
  if same_node i (begin root) then None else previous root i.

(** ** Metrics *)

Fixpoint index_at (m : Z) (t : tree) (p : path) : iterator :=
  match t with
  | Nil => None
  | Node x b tot c0 c1 =>
      if negb (is_nil c0) && (m <? total_of c0) then index_at m c0 (mkF false x b tot c1 :: p)
      else
        let m := m - tot in
        let m := if is_nil c1 then m else m + total_of c1 in
        if m <? 0 then Some (t, p)
        else index_at m c1 (mkF true x b tot c0 :: p)
  end.
Definition index (root : tree) (metric : Z) : iterator := index_at metric root [].

Definition node_metric (t : tree) : Z :=
  let m := total_of t in
  let m := if is_nil (child t false) then m else m - total_of (child t false) in
  if is_nil (child t true) then m else m - total_of (child t true).
Definition getMetric (i : iterator) : option Z :=
  match i with Some (Node _ _ _ _ _ as t, _) => Some (node_metric t) | _ => None end.

(** [for (p = end.node; p->parent; p = p->parent)] *)
Fixpoint sum_up (m ptotal : Z) (p : path) : Z :=
  match p with
  | [] => m
  | f :: p' => sum_up (if fdir f then m - ptotal + ftot f else m) (ftot f) p'
  end.
Definition sumTo (root : tree) (i : iterator) : Z :=
  match i with
  | None => total_of root
  | Some (t, p) => sum_up (total_of (child t false)) (total_of t) p
  end.
Definition sumRange (root : tree) (b e : iterator) : Z := sumTo root e - sumTo root b.

(** [t->total = t->total + delta] for every ancestor. *)
Definition add_totals (delta : Z) (p : path) : path :=
  map (fun f => mkF (fdir f) (fdata f) (fbal f) (ftot f + delta) (fsib f)) p.

(** ** Insertion *)

(** The rebalancing loop from the parent of the new node upwards; [c] is the
    subtree that has grown at the first frame. *)
Fixpoint insert_up (delta : Z) (c : tree) (p : path) : option tree :=
  match p with
  | [] => Some c
  | mkF d x b tot sib :: p' =>
      let b := b + (if d then 1 else -1) in
      let tot := tot + delta in
      let t := mknode d x b tot c sib in
      if b =? 0 then Some (plug t (add_totals delta p'))
      else if negb (b =? 1) && negb (b =? -1) then
        let bal := if d then 1 else -1 in
        bind (if bal_of c =? bal then
                Some (set_child (set_balance t 0) d (set_balance c 0))
              else
                bind (ISAdjustBalance t d bal) (fun t =>
                bind (ISRotate (child t d) d) (fun n => Some (set_child t d n)))) (fun t =>
        bind (ISRotate t (negb d)) (fun t => Some (plug t (add_totals delta p'))))
      else insert_up delta t p'
  end.

Fixpoint insert_at (data : T) (metric : Z) (replaceExisting : bool) (t : tree) (p : path) : option tree :=
  match t with
  | Nil => insert_up metric (Node data 0 metric Nil Nil) p
  | Node x b tot c0 c1 =>
      match compare data x with
      | Eq => if replaceExisting then
                let total := metric in
                let total := if is_nil c0 then total else total + total_of c0 in
                let total := if is_nil c1 then total else total + total_of c1 in
                let delta := total - tot in
                Some (plug (Node data b total c0 c1) (add_totals delta p))
              else Some (plug t p)
      | Gt => insert_at data metric replaceExisting c1 (mkF true x b tot c0 :: p)
      | Lt => insert_at data metric replaceExisting c0 (mkF false x b tot c1 :: p)
      end
  end.

(** The new set; the iterator the source returns points at the node holding [data]. *)
Definition insert (root : tree) (data : T) (metric : Z) (replaceExisting : bool) : option tree :=
  insert_at data metric replaceExisting root [].

Definition addMetric (root : tree) (data : T) (metric : Z) : option (Z * tree) :=
  match find root data with
  | None => option_map (pair metric) (insert root data metric true)
  | i => bind (getMetric i) (fun g => option_map (pair (metric + g)) (insert root data (metric + g) true))
  end.

(** ** Inserting a vector

    [blockStart] and [blockEnd] point at nodes and are held by key. *)

Inductive search_result :=
| Found (root : tree) (blockStart : T)
| Hole (p : path) (blockStart : T).

(** The traversal from the root: returns also the last node passed on its left. *)
Fixpoint vsearch (data : T) (metric : Z) (replaceExisting : bool) (t : tree) (p : path) (blockEnd : option T)
    : option (search_result * option T) :=
  match t with
  | Nil => None
  | Node x b tot c0 c1 =>
      let cmp := compare data x in
      let d := gtb cmp in
      let blockEnd := if d then blockEnd else Some x in
      match cmp with
      | Eq =>
          let root :=
            if replaceExisting then
              let total := metric in
              let total := if is_nil c0 then total else total + total_of c0 in
              let total := if is_nil c1 then total else total + total_of c1 in
              plug (Node data b total c0 c1) (add_totals (total - tot) p)
            else plug t p in
          Some (Found root x, blockEnd)
      | Gt => match c1 with
              | Nil => Some (Hole (mkF true x b tot c0 :: p) x, blockEnd)
              | _ => vsearch data metric replaceExisting c1 (mkF true x b tot c0 :: p) blockEnd
              end
      | Lt => match c0 with
              | Nil => Some (Hole (mkF false x b tot c1 :: p) x, blockEnd)
              | _ => vsearch data metric replaceExisting c0 (mkF false x b tot c1 :: p) blockEnd
              end
      end
  end.

(** [while (t->child[0]) t = t->child[0]], ending at the null child. *)
Fixpoint left_hole (t : tree) (p : path) : path :=
  match t with
  | Nil => p
  | Node x b tot c0 c1 => left_hole c0 (mkF false x b tot c1 :: p)
  end.

(** [t = blockStart; while (t->child[d]) { t = t->child[d]; d = 0; }] from [d = 1]. *)
Definition hole_after (t : tree) (p : path) : option path :=
  match t with
  | Nil => None
  | Node x b tot c0 c1 => Some (left_hole c1 (mkF true x b tot c0 :: p))
  end.

Record vstate := mkV { vroot : tree; num_inserted : Z; blockStart : option T; blockEnd : option T }.

(** Hanging the new node at a null child and rebalancing. *)
Definition vattach (st : vstate) (be : option T) (p : path) (data : T) (metric : Z) : option vstate :=
  option_map (fun r => mkV r (num_inserted st + 1) (Some data) be)
    (insert_up metric (Node data 0 metric Nil Nil) p).

Definition vinsert_one (replaceExisting : bool) (st : vstate) (item : T * Z) : option vstate :=
  let '(data, metric) := item in
  let search := match blockStart st, blockEnd st with
                | None, _ => true
                | Some _, Some e => negb (ltb (compare data e))
                | Some _, None => false
                end in
  if search then
    match vroot st with
    | Nil => Some (mkV (Node data 0 metric Nil Nil) (num_inserted st + 1) (Some data) None)
    | _ =>
        bind (vsearch data metric replaceExisting (vroot st) [] None) (fun '(r, be) =>
        match r with
        | Found root s => Some (mkV root (if replaceExisting then num_inserted st + 1 else num_inserted st) (Some s) be)
        | Hole p _ => vattach st be p data metric
        end)
    end
  else
    match blockStart st with
    | None => None
    | Some s =>
        match find (vroot st) s with
        | None => None
        | Some (t, p) => bind (hole_after t p) (fun p => vattach st (blockEnd st) p data metric)
        end
    end.

Fixpoint vinsert_loop (replaceExisting : bool) (data : list (T * Z)) (st : vstate) : option vstate :=
  match data with
  | [] => Some st
  | i :: data => bind (vinsert_one replaceExisting st i) (vinsert_loop replaceExisting data)
  end.

(** [insert(const std::vector<std::pair<T, Metric>>&, bool)] *)
Definition insert_vector (root : tree) (data : list (T * Z)) (replaceExisting : bool) : option (tree * Z) :=
  option_map (fun st => (vroot st, num_inserted st))
    (vinsert_loop replaceExisting data (mkV root 0 None None)).

(** ** Erasing one node *)

(** The loop from [rebalanceNode] upwards; [c] is the subtree of the first
    frame that has shrunk. *)
Fixpoint erase_up (c : tree) (p : path) : option tree :=
  match p with
  | [] => Some c
  | mkF d x b tot sib :: p' =>
      let b := b + (if d then -1 else 1) in
      let t := mknode d x b tot c sib in
      if (b <? -1) || (1 <? b) then
        if is_nil sib then None else
        let bal := if d then 1 else -1 in
        if bal_of sib =? - bal then
          bind (ISRotate (set_child (set_balance t 0) (negb d) (set_balance sib 0)) d) (fun t =>
          erase_up t p')
        else if bal_of sib =? bal then
          bind (ISAdjustBalance t (negb d) (- bal)) (fun t =>
          bind (ISRotate (child t (negb d)) (negb d)) (fun n =>
          bind (ISRotate (set_child t (negb d) n) d) (fun t =>
          erase_up t p')))
        else
          bind (ISRotate (set_child (set_balance t (- bal)) (negb d) (set_balance sib bal)) d) (fun t =>
          Some (plug t p'))
      else if negb (b =? 0) then Some (plug t p')
      else erase_up t p'
  end.

(** [erase(iterator)]: a node with at most one child is spliced out, one with
    two children is replaced by its predecessor. *)
Definition erase (root : tree) (i : iterator) : option tree :=
  match i with
  | None => Some root
  | Some (Nil, _) => None
  | Some (Node x b tot c0 c1 as t, p) =>
      if is_nil c0 || is_nil c1 then
        let tMetric := node_metric t in
        let d := is_nil c0 in
        erase_up (child t d) (add_totals (- tMetric) p)
      else
        let '(pred, pp) := extreme true c0 [] in
        match pred with
        | Nil => None
        | Node px pb ptot pc0 _ =>
            let tMetric := tot - total_of c0 - total_of c1 in
            let ptotal := if is_nil pc0 then ptot else ptot - total_of pc0 in
            let pp := add_totals (- ptotal) pp in
            let p := add_totals (- tMetric) p in
            let c0' := plug pc0 pp in
            let ptotal' := if is_nil c0' then ptotal else ptotal + total_of c0' in
            let ptotal' := ptotal' + total_of c1 in
            erase_up pc0 (pp ++ mkF false px b ptotal' c1 :: p)
        end
  end.

Definition erase_key (root : tree) (key : T) : option tree := erase root (find root key).

(** ** Erasing a range

    A pointer is compared by its way down from the root, nearest turn first. *)

Definition dirs (p : path) : list bool := map fdir p.

Fixpoint same_dirs (f l : list bool) : bool :=
  match f, l with
  | [], [] => true
  | a :: f, b :: l => Bool.eqb a b && same_dirs f l
  | _, _ => false
  end.

(** [while (f != l) { f = f->parent; l = l->parent; }] *)
Fixpoint climb_together (f l : list bool) : list bool :=
  if same_dirs f l then f
  else match f, l with
       | _ :: f, _ :: l => climb_together f l
       | _, _ => []
       end.

Definition ISCommonSubtreeRoot (first last : path) : list bool :=
  let firstDepth := length first in
  let lastDepth := length last in
  climb_together (skipn (firstDepth - lastDepth) (dirs first)) (skipn (lastDepth - firstDepth) (dirs last)).

(** One step of [eraseHalf] at [start], whose parent is [f]: the node that takes
    the place of [start], the updated deltas and what is to be freed. *)
Definition eraseHalf_node (start : tree) (fromDir eraseDir : bool) (md hd : Z) (toFree : list tree)
    : option (tree * Z * Z * list tree) :=
  match start with
  | Nil => None
  | Node x b tot c0 c1 =>
      let start := Node x b (tot - md) c0 c1 in
      if Bool.eqb fromDir eraseDir then
        bind (ISRebalance start) (fun '(n, hc) => Some (n, md, hd + hc, toFree))
      else
        let hd := hd + (-1 - Z.max 0 (b * (if eraseDir then 1 else -1))) in
        let md := md + total_of start in
        let n := child start fromDir in
        let md := if is_nil n then md else md - total_of n in
        Some (n, md, hd, toFree ++ [set_child start fromDir Nil])
  end.

(** The loop of [eraseHalf] over the frames from [start] up to [end]. *)
Fixpoint eraseHalf_loop (start : tree) (q : path) (fromDir eraseDir : bool) (md hd : Z) (toFree : list tree)
    : option (tree * Z * Z * list tree) :=
  match q with
  | [] => Some (start, md, hd, toFree)
  | mkF nextDir x oldBalance tot sib :: q' =>
      bind (eraseHalf_node start fromDir eraseDir md hd toFree) (fun '(node, md, hd, toFree) =>
      let dir := if nextDir then 1 else -1 in
      if 0 <? hd then None
      else
        let newBalance := oldBalance + hd * dir in
        let maxHeightChange := Z.max (oldBalance * dir) 0 in
        let balanceChange := (oldBalance - newBalance) * dir in
        let hd := - Z.min maxHeightChange balanceChange in
        eraseHalf_loop (mknode nextDir x newBalance tot node sib) q' nextDir eraseDir md hd toFree)
  end.

(** Returns the [end] node, the metric to subtract from it and its change in height. *)
Definition eraseHalf (start : tree) (q : path) (eraseDir : bool) (toFree : list tree)
    : option (tree * Z * Z * list tree) :=
  eraseHalf_loop start q (negb eraseDir) eraseDir 0 0 toFree.

(** The loop [for (p = subRoot; p; p = p->parent)] of [erase(begin, end, toFree)]. *)
Fixpoint rebalance_up (t : tree) (p : path) (md hd : Z) : option tree :=
  match t with
  | Nil => None
  | Node x b tot c0 c1 =>
      bind (ISRebalance (Node x b (tot - md) c0 c1)) (fun '(t, hc) =>
      let hd := hd + hc in
      match p with
      | [] => Some t
      | mkF d y oldb ptot sib :: p' =>
          let dir := if d then 1 else -1 in
          let newb := oldb + hd * dir in
          let hd := Z.max (newb * dir) 0 - Z.max (oldb * dir) 0 in
          rebalance_up (mknode d y newb ptot t sib) p' md hd
      end)
  end.

(** The frames of a descendant up to and including [subRoot], whose own frame
    is taken from the node as it is now. *)
Definition frames_to (sub : tree) (q : path) : path :=
  match rev q, sub with
  | f :: r, Node x b tot _ _ => rev r ++ [mkF (fdir f) x b tot (child sub (negb (fdir f)))]
  | _, _ => []
  end.

Definition erase_range (root : tree) (begin_ end_ : iterator) : option (tree * list tree) :=
  let ok := match end_, begin_ with
            | None, _ => true
            | Some (Node y _ _ _ _, _), Some (Node x _ _ _ _, _) => negb (gtb (compare x y))
            | _, _ => false
            end in
  if negb ok then None
  else if same_node begin_ end_ then Some (root, [])
  else
    match begin_, previous root end_ with
    | Some (first, pf), Some (last, pl) =>
        let up := ISCommonSubtreeRoot pf pl in
        let qf := firstn (length pf - length up) pf in
        let ql := firstn (length pl - length up) pl in
        let p := skipn (length pf - length up) pf in
        let subRoot := plug first qf in
        bind (eraseHalf first (frames_to subRoot qf) true []) (fun '(subRoot, md1, leftHeightDelta, toFree) =>
        let last := match ql with [] => subRoot | _ => last end in
        bind (eraseHalf last (frames_to subRoot ql) false toFree) (fun '(subRoot, md2, rightHeightDelta, toFree) =>
        match subRoot with
        | Nil => None
        | Node x _ _ _ _ =>
            bind (rebalance_up subRoot p (0 + md1 + md2) (leftHeightDelta + rightHeightDelta)) (fun root =>
            bind (erase_key root x) (fun root => Some (root, toFree)))
        end))
    | _, _ => None
    end.

(** [erase(const Key& begin, const Key& end)] *)
Definition erase_keys (root : tree) (b e : T) : option (tree * list tree) :=
  erase_range root (lower_bound root b) (lower_bound root e).

(** ** Freeing detached subtrees

    The stack [toFree] has its top last; the nodes are freed through a short
    prefetch queue. [None] when both are empty. *)

Fixpoint prefetch (fuel : nat) (toFree : list tree) (queue : list tree) : list tree * list tree :=
  match fuel with
  | O => (toFree, queue)
  | S f => if (length queue <? 10)%nat && negb (match toFree with [] => true | _ => false end) then
             prefetch f (removelast toFree) (queue ++ [last toFree Nil])
           else (toFree, queue)
  end.

(** One call: the node freed and the new stack and queue. *)
Definition ISFreeNodeImpl (toFree queue : list tree) : option (option T * list tree * list tree) :=
  match queue, toFree with
  | [], [] => None
  | _, _ =>
      let '(toFree, queue) := prefetch 10 toFree queue in
      match queue with
      | [] => None
      | n :: queue =>
          match n with
          | Nil => Some (None, toFree, queue)
          | Node x _ _ c0 c1 =>
              let toFree := if is_nil c0 then toFree else toFree ++ [c0] in
              let toFree := if is_nil c1 then toFree else toFree ++ [c1] in
              Some (Some x, toFree, queue)
          end
      end
  end.

(** [while (ISFreeNodeImpl(toFree, prefetchQueue)) {}], listing what is deleted. *)
Fixpoint ISFreeNodesSync (fuel : nat) (toFree queue : list tree) : option (list (option T)) :=
  match fuel with
  | O => None
  | S f => match ISFreeNodeImpl toFree queue with
           | None => Some []
           | Some (x, toFree, queue) => option_map (cons x) (ISFreeNodesSync f toFree queue)
           end
  end.

End IndexedSet.
