(* ===== verification/IndexedSetProofs.v ===== *)
(** IndexedSet.h: the AVL, ordering and metric invariants of the tree and what
    each operation does to the sequence of items it stores. *)

From Stdlib Require Import ZArith List Lia Bool.
From S2P Require Import Prelude IndexedSet.
Import ListNotations.
#[local] Open Scope Z_scope.

(** Equality of item sequences up to reassociation and metric arithmetic. *)
Ltac same_items := repeat (progress (rewrite <- ?app_assoc; cbn [app]));
  repeat first [reflexivity | match goal with
    | |- _ ++ _ = _ ++ _ => f_equal
    | |- _ :: _ = _ :: _ => f_equal
    | |- (_, _) = (_, _) => f_equal; lia end].

Section Invariants.

Context {T : Type} `{CompareLaws T}.
Implicit Types (t c : @tree T) (p : @path T) (f : @frame T).

(** The items in order, each with the metric its node accounts for. *)
Fixpoint items t : list (T * Z) :=
  match t with
  | Nil => []
  | Node x _ tot c0 c1 => items c0 ++ (x, tot - total_of c0 - total_of c1) :: items c1
  end.

Definition sum_metrics (l : list (T * Z)) : Z := fold_right (fun i s => snd i + s) 0 l.

Definition h t : Z := Z.of_nat (height t).

Fixpoint avl t : Prop :=
  match t with
  | Nil => True
  | Node _ b _ c0 c1 => avl c0 /\ avl c1 /\ b = h c1 - h c0 /\ -1 <= b <= 1
  end.

(** Accurate balance over AVL children, whatever the difference in height. *)
Definition pre_avl t : Prop :=
  match t with
  | Nil => True
  | Node _ b _ c0 c1 => avl c0 /\ avl c1 /\ b = h c1 - h c0
  end.

Lemma h_node x b tot c0 c1 : h (Node x b tot c0 c1) = 1 + Z.max (h c0) (h c1).
Proof. unfold h. cbn [height]. lia. Qed.

Lemma h_nil : h Nil = 0. Proof. reflexivity. Qed.
Lemma h_nonneg t : 0 <= h t. Proof. unfold h. lia. Qed.

Lemma h_zero t : h t <= 0 -> t = Nil.
Proof. destruct t; [reflexivity|]. rewrite h_node. pose proof (h_nonneg t1). pose proof (h_nonneg t2). lia. Qed.

Lemma total_items t : total_of t = sum_metrics (items t).
Proof.
  unfold sum_metrics. induction t as [|x b tot c0 IH0 c1 IH1]; [reflexivity|]. cbn [items total_of].
  rewrite fold_right_app. cbn [fold_right snd].
  assert (Hs : forall l z, fold_right (fun (i : T * Z) s => snd i + s) z l = fold_right (fun i s => snd i + s) 0 l + z).
  { induction l as [|i l IH]; intros; cbn [fold_right]; [lia|]. rewrite IH. lia. }
  rewrite Hs, <- IH0, <- IH1. lia.
Qed.

(** The two rotations. *)
Lemma rotate_left x b tot a y nb ntot c e :
  ISRotate (Node x b tot a (Node y nb ntot c e)) false =
  Some (Node y nb tot (Node x b (tot - ntot + total_of c) a c) e).
Proof. cbn. destruct c; cbn; rewrite ?Z.add_0_r; reflexivity. Qed.

Lemma rotate_right x b tot a y nb ntot c e :
  ISRotate (Node x b tot (Node y nb ntot c e) a) true =
  Some (Node y nb tot c (Node x b (tot - ntot + total_of e) e a)).
Proof. cbn. destruct e; cbn; rewrite ?Z.add_0_r; reflexivity. Qed.

Lemma items_rotate t d t' : ISRotate t d = Some t' -> items t' = items t /\ total_of t' = total_of t.
Proof.
  destruct t as [|x b tot c0 c1]; [discriminate|]. destruct d.
  - destruct c0 as [|y nb ntot c e]; [discriminate|]. rewrite rotate_right. intros [= <-].
    split; [|reflexivity]. cbn [items total_of]. same_items.
  - destruct c1 as [|y nb ntot c e]; [discriminate|]. rewrite rotate_left. intros [= <-].
    split; [|reflexivity]. cbn [items total_of]. same_items.
Qed.

(** One level of [ISRebalance], for each direction and number of rotations. *)
Definition rebalance_rest (fuel : nat) (root : @tree T) (dir : bool) (bal rootBal nBal : Z) (dbl : bool) :=
  bind (ISRebalance_fuel fuel (child root dir)) (fun '(c, hc) =>
  let root := set_child root dir c in
  let root := set_balance root (bal_of root + hc * bal) in
  let heightChange := if dbl then -1 else Z.max (nBal + hc) (-1) in
  if (bal_of root <? -1) || (1 <? bal_of root) then
    if Z.abs (bal_of root) <? Z.abs rootBal then
      bind (ISRebalance_fuel fuel root) (fun '(root, h) => Some (root, heightChange + h))
    else None
  else Some (root, heightChange)).

Lemma rebalance_right1 fuel x b tot y nb ntot a d g : b <= -2 -> nb <> 1 ->
  ISRebalance_fuel (S fuel) (Node x b tot (Node y nb ntot a d) g) =
  rebalance_rest fuel (Node y (1 + Z.max nb (b + 1 + Z.max nb 0)) tot a
    (Node x (b + (1 - Z.min nb 0)) (tot - ntot + total_of d) d g)) true 1 b nb false.
Proof.
  intros Hb Hn. cbn [ISRebalance_fuel]. cbn [is_nil bal_of orb].
  rewrite (proj2 (Z.leb_gt (-1) b)) by lia. cbn [andb].
  rewrite (proj2 (Z.ltb_lt b 0)) by lia. cbn [negb child is_nil bal_of].
  rewrite (proj2 (Z.eqb_neq nb 1)) by lia. cbn [bind child bal_of].
  rewrite rotate_right. cbn [bind set_balance set_child child].
  replace (nb * 1) with nb by lia. replace (1 * b) with b by lia.
  replace (1 * (1 - Z.min nb 0)) with (1 - Z.min nb 0) by lia.
  replace (1 * (1 + Z.max nb (b + 1 + Z.max nb 0))) with (1 + Z.max nb (b + 1 + Z.max nb 0)) by lia.
  reflexivity.
Qed.

Lemma rebalance_left1 fuel x b tot y nb ntot a d g : 2 <= b -> nb <> -1 ->
  ISRebalance_fuel (S fuel) (Node x b tot g (Node y nb ntot d a)) =
  rebalance_rest fuel (Node y (- (1 + Z.max (- nb) (- b + 1 + Z.max (- nb) 0))) tot
    (Node x (b - (1 - Z.min (- nb) 0)) (tot - ntot + total_of d) g d) a) false (-1) b (- nb) false.
Proof.
  intros Hb Hn. cbn [ISRebalance_fuel]. cbn [is_nil bal_of orb].
  rewrite (proj2 (Z.leb_le (-1) b)) by lia. rewrite (proj2 (Z.leb_gt b 1)) by lia. cbn [andb].
  rewrite (proj2 (Z.ltb_ge b 0)) by lia. cbn [negb child is_nil bal_of].
  rewrite (proj2 (Z.eqb_neq nb (-1))) by lia. cbn [bind child bal_of].
  rewrite rotate_left. cbn [bind set_balance set_child child].
  replace (nb * -1) with (- nb) by lia. replace (-1 * b) with (- b) by lia.
  replace (b + -1 * (1 - Z.min (- nb) 0)) with (b - (1 - Z.min (- nb) 0)) by lia.
  replace (-1 * (1 + Z.max (- nb) (- b + 1 + Z.max (- nb) 0)))
    with (- (1 + Z.max (- nb) (- b + 1 + Z.max (- nb) 0))) by lia.
  reflexivity.
Qed.

Lemma rebalance_right2 fuel x b tot y ntot a z xb ztot cc e g : b <= -2 ->
  ISRebalance_fuel (S fuel) (Node x b tot (Node y 1 ntot a (Node z xb ztot cc e)) g) =
  let nb := if xb =? -1 then -2 else -1 in
  rebalance_rest fuel (Node z (1 + Z.max nb (b + 1 + Z.max nb 0)) tot
    (Node y (if xb =? 1 then -1 else 0) (ntot - ztot + total_of cc) a cc)
    (Node x (b + (1 - Z.min nb 0)) (tot - ntot + total_of e) e g)) true 1 b nb true.
Proof.
  intros Hb. cbn [ISRebalance_fuel]. cbn [is_nil bal_of orb].
  rewrite (proj2 (Z.leb_gt (-1) b)) by lia. cbn [andb].
  rewrite (proj2 (Z.ltb_lt b 0)) by lia. cbn [negb child is_nil bal_of Z.eqb Pos.eqb].
  rewrite rotate_left. cbn [bind set_balance set_child child bal_of Z.opp].
  rewrite rotate_right. cbn [bind set_balance set_child child bal_of].
  rewrite !Z.mul_1_r, !Z.mul_1_l. reflexivity.
Qed.

Lemma rebalance_left2 fuel x b tot y ntot a z xb ztot cc e g : 2 <= b ->
  ISRebalance_fuel (S fuel) (Node x b tot g (Node y (-1) ntot (Node z xb ztot e cc) a)) =
  let nb := if xb =? 1 then -2 else -1 in
  rebalance_rest fuel (Node z (- (1 + Z.max nb (- b + 1 + Z.max nb 0))) tot
    (Node x (b - (1 - Z.min nb 0)) (tot - ntot + total_of e) g e)
    (Node y (if xb =? -1 then 1 else 0) (ntot - ztot + total_of cc) cc a)) false (-1) b nb true.
Proof.
  intros Hb. cbn [ISRebalance_fuel]. cbn [is_nil bal_of orb].
  rewrite (proj2 (Z.leb_le (-1) b)) by lia. rewrite (proj2 (Z.leb_gt b 1)) by lia. cbn [andb].
  rewrite (proj2 (Z.ltb_ge b 0)) by lia. cbn [negb child is_nil bal_of Z.eqb Pos.eqb].
  rewrite rotate_right. cbn [bind set_balance set_child child bal_of Z.opp].
  rewrite rotate_left. cbn [bind set_balance set_child child bal_of].
  destruct (Z.eqb_spec xb 1) as [-> | ?]; [|destruct (Z.eqb_spec xb (-1)) as [-> | ?]];
    cbn [Z.eqb Pos.eqb]; cbv zeta; unfold rebalance_rest; cbn [child bal_of set_child set_balance];
    repeat f_equal; try lia.
Qed.

(** What [ISRebalance] establishes: an AVL tree with the same items whose
    height changed by the result, which is 0 or -1. *)
Definition rebalanced t (r : option (tree * Z)) : Prop :=
  exists t' hc, r = Some (t', hc) /\ avl t' /\ items t' = items t /\ total_of t' = total_of t /\
    h t' = h t + hc /\ -1 <= hc <= 0 /\
    (-1 <= bal_of t <= 1 -> hc = 0) /\
    (Z.abs (bal_of t) = 2 -> bal_of (child t (0 <? bal_of t)) = 0 -> hc = 0).

(** Fuel for a tree no higher than [Hm]. *)
Definition enough (Hm : Z) (fuel : nat) t : Prop :=
  h t <= Hm /\ h t * (Hm + 1) + Z.abs (bal_of t) < Z.of_nat fuel.

Lemma enough_lower Hm fuel t u : enough Hm (S fuel) t -> h u < h t -> Z.abs (bal_of u) <= h u -> enough Hm fuel u.
Proof.
  unfold enough. intros [H1 H2] Hu Hb. pose proof (h_nonneg u).
  assert ((h u + 1) * (Hm + 1) <= h t * (Hm + 1)) by (apply Z.mul_le_mono_nonneg_r; lia). lia.
Qed.

Lemma pre_avl_bal t : pre_avl t -> Z.abs (bal_of t) <= h t.
Proof.
  destruct t as [|x b tot c0 c1]; [cbn; lia|]. cbn [pre_avl bal_of]. rewrite h_node.
  pose proof (h_nonneg c0). pose proof (h_nonneg c1). lia.
Qed.

Ltac heights := rewrite ?h_node in *; repeat match goal with c : tree |- _ =>
  lazymatch goal with Hc : 0 <= h c |- _ => fail | _ => pose proof (h_nonneg c) end end.

Lemma items_assoc_right x b tot y nb ntot b1 b2 (a d g c' : @tree T) :
  items c' = items (Node x b1 (tot - ntot + total_of d) d g) ->
  total_of c' = tot - ntot + total_of d ->
  items (Node y b2 tot a c') = items (Node x b tot (Node y nb ntot a d) g).
Proof.
  intros Hi Ht. cbn [items total_of] in *. rewrite Ht, Hi. same_items.
Qed.

Lemma items_assoc_left x b tot y nb ntot b1 b2 (a d g c' : @tree T) :
  items c' = items (Node x b1 (tot - ntot + total_of d) g d) ->
  total_of c' = tot - ntot + total_of d ->
  items (Node y b2 tot c' a) = items (Node x b tot g (Node y nb ntot d a)).
Proof.
  intros Hi Ht. cbn [items total_of] in *. rewrite Ht, Hi. same_items.
Qed.

Section Step.
Context (Hm : Z) (fuel : nat).
Context (IH : forall t, pre_avl t -> enough Hm fuel t -> rebalanced t (ISRebalance_fuel fuel t)).

Lemma step_right1 x b tot y nb ntot a d g :
  let t := Node x b tot (Node y nb ntot a d) g in
  b <= -2 -> nb <> 1 -> pre_avl t -> enough Hm (S fuel) t -> rebalanced t (ISRebalance_fuel (S fuel) t).
Proof.
  intros t Hb Hn (( Ha & Hd & Hnb & Hnb1) & Hg & Hbal) Hf. unfold t. rewrite rebalance_right1 by assumption.
  unfold rebalance_rest. cbn [child].
  set (c := Node x (b + (1 - Z.min nb 0)) (tot - ntot + total_of d) d g).
  assert (Hc : pre_avl c) by (unfold c; cbn [pre_avl]; heights; repeat split; auto; lia).
  assert (Hhc : h c < h t) by (unfold c, t; heights; lia).
  destruct (IH c Hc (enough_lower _ _ _ _ Hf Hhc (pre_avl_bal c Hc))) as (c' & hc & -> & Hac & Hi & Ht & Hh & Hr & Hz & _).
  cbn [bind set_child set_balance bal_of]. unfold c in Hh, Hz. cbn [bal_of] in Hz. heights.
  rewrite (proj2 (Z.ltb_ge _ (-1))) by lia. rewrite (proj2 (Z.ltb_ge 1 _)) by lia. cbn [orb].
  eexists _, _. split; [reflexivity|]. repeat split; try assumption; try lia.
  - apply (items_assoc_right x b tot y nb ntot (b + (1 - Z.min nb 0))); assumption.
  - heights; lia.
  - cbn [bal_of]. lia.
  - cbn [bal_of]. rewrite (proj2 (Z.ltb_ge 0 b)) by lia. cbn [child bal_of]. lia.
Qed.

Lemma step_left1 x b tot y nb ntot a d g :
  let t := Node x b tot g (Node y nb ntot d a) in
  2 <= b -> nb <> -1 -> pre_avl t -> enough Hm (S fuel) t -> rebalanced t (ISRebalance_fuel (S fuel) t).
Proof.
  intros t Hb Hn (Hg & (Hd & Ha & Hnb & Hnb1) & Hbal) Hf. unfold t. rewrite rebalance_left1 by assumption.
  unfold rebalance_rest. cbn [child].
  set (c := Node x (b - (1 - Z.min (- nb) 0)) (tot - ntot + total_of d) g d).
  assert (Hc : pre_avl c) by (unfold c; cbn [pre_avl]; heights; repeat split; auto; lia).
  assert (Hhc : h c < h t) by (unfold c, t; heights; lia).
  destruct (IH c Hc (enough_lower _ _ _ _ Hf Hhc (pre_avl_bal c Hc))) as (c' & hc & -> & Hac & Hi & Ht & Hh & Hr & Hz & _).
  cbn [bind set_child set_balance bal_of]. unfold c in Hh, Hz. cbn [bal_of] in Hz. heights.
  rewrite (proj2 (Z.ltb_ge _ (-1))) by lia. rewrite (proj2 (Z.ltb_ge 1 _)) by lia. cbn [orb].
  eexists _, _. split; [reflexivity|]. repeat split; try assumption; try lia.
  - apply (items_assoc_left x b tot y nb ntot (b - (1 - Z.min (- nb) 0))); assumption.
  - heights; lia.
  - cbn [bal_of]. lia.
  - cbn [bal_of]. rewrite (proj2 (Z.ltb_lt 0 b)) by lia. cbn [child bal_of]. lia.
Qed.

Lemma step_right2 x b tot y ntot a z xb ztot cc e g :
  let t := Node x b tot (Node y 1 ntot a (Node z xb ztot cc e)) g in
  b <= -2 -> pre_avl t -> enough Hm (S fuel) t -> rebalanced t (ISRebalance_fuel (S fuel) t).
Proof.
  intros t Hb ((Ha & (Hcc & He & Hxb & Hxb1) & Hnb & _) & Hg & Hbal) Hf. unfold t.
  rewrite rebalance_right2 by assumption. cbv zeta.
  set (nb := if xb =? -1 then -2 else -1). set (yb := if xb =? 1 then -1 else 0).
  assert (Hnbs : nb = -2 /\ xb = -1 /\ yb = 0 \/ nb = -1 /\ xb = 0 /\ yb = 0 \/ nb = -1 /\ xb = 1 /\ yb = -1)
    by (unfold nb, yb; zcases; lia). clearbody nb yb.
  unfold rebalance_rest. cbn [child].
  set (c := Node x (b + (1 - Z.min nb 0)) (tot - ntot + total_of e) e g).
  set (yy := Node y yb (ntot - ztot + total_of cc) a cc).
  assert (Hc : pre_avl c) by (unfold c; cbn [pre_avl]; heights; repeat split; auto; lia).
  assert (Hy : avl yy) by (unfold yy; cbn [avl]; heights; repeat split; auto; lia).
  assert (Hhc : h c < h t) by (unfold c, t; heights; lia).
  destruct (IH c Hc (enough_lower _ _ _ _ Hf Hhc (pre_avl_bal c Hc))) as (c' & hc & -> & Hac & Hi & Ht & Hh & Hr & Hz & _).
  cbn [bind set_child set_balance bal_of]. cbn [total_of] in Ht.
  set (rb := 1 + Z.max nb (b + 1 + Z.max nb 0) + hc * 1).
  assert (Hhy : h yy = 1 + h a) by (unfold yy; heights; lia).
  assert (Hrb : rb = h c' - h yy) by (unfold rb; rewrite Hh, Hhy; unfold c in *; heights; lia).
  assert (Hit : items (Node z rb tot yy c') = items t /\ h (Node z rb tot yy c') = h t - 1).
  { split.
    - unfold t, yy. unfold c in Hi, Ht. cbn [items total_of] in *. rewrite Ht, Hi.
      same_items.
    - unfold t. rewrite h_node, Hh, Hhy. unfold c in *. heights. lia. }
  destruct Hit as [Hit Hht].
  assert (Hrange : -2 <= rb <= 1 /\ (rb = -2 -> yb = 0 /\ b <= -3))
    by (rewrite Hrb, Hh, Hhy; unfold c in *; cbn [bal_of] in Hz; heights; lia).
  destruct (Z.eq_dec rb (-2)) as [E|E].
  - rewrite E in *. cbn [Z.ltb Z.compare Pos.compare Pos.compare_cont CompOpp orb Z.abs].
    rewrite (proj2 (Z.ltb_lt 2 (Z.abs b))) by lia.
    destruct (IH (Node z (-2) tot yy c')) as (t' & hc2 & -> & Hat & Hi2 & Ht2 & Hh2 & _ & _ & Hz2).
    { cbn [pre_avl]. auto. }
    { apply (enough_lower Hm fuel t); [exact Hf|lia|]. cbn [bal_of]. pose proof (h_nonneg yy). pose proof (h_nonneg c').
      rewrite h_node. lia. }
    cbn [bal_of child] in Hz2. rewrite Hz2 in * by (try reflexivity; unfold yy; cbn; tauto).
    cbn [bind]. eexists _, _. split; [reflexivity|]. rewrite Hi2, Ht2. repeat split; try assumption; fold t; try lia;
      unfold t; cbn [bal_of child]; lia.
  - rewrite (proj2 (Z.ltb_ge rb (-1))) by lia. rewrite (proj2 (Z.ltb_ge 1 rb)) by lia. cbn [orb].
    eexists _, _. split; [reflexivity|]. split; [split; [assumption|split; [assumption|lia]]|].
    repeat split; try assumption; fold t; try lia.
    + unfold t. cbn [bal_of]. lia.
    + unfold t. cbn [bal_of]. rewrite (proj2 (Z.ltb_ge 0 b)) by lia. cbn [child bal_of]. lia.
Qed.

Lemma step_left2 x b tot y ntot a z xb ztot cc e g :
  let t := Node x b tot g (Node y (-1) ntot (Node z xb ztot e cc) a) in
  2 <= b -> pre_avl t -> enough Hm (S fuel) t -> rebalanced t (ISRebalance_fuel (S fuel) t).
Proof.
  intros t Hb (Hg & ((He & Hcc & Hxb & Hxb1) & Ha & Hnb & _) & Hbal) Hf. unfold t.
  rewrite rebalance_left2 by assumption. cbv zeta.
  set (nb := if xb =? 1 then -2 else -1). set (yb := if xb =? -1 then 1 else 0).
  assert (Hnbs : nb = -2 /\ xb = 1 /\ yb = 0 \/ nb = -1 /\ xb = 0 /\ yb = 0 \/ nb = -1 /\ xb = -1 /\ yb = 1)
    by (unfold nb, yb; zcases; lia). clearbody nb yb.
  unfold rebalance_rest. cbn [child].
  set (c := Node x (b - (1 - Z.min nb 0)) (tot - ntot + total_of e) g e).
  set (yy := Node y yb (ntot - ztot + total_of cc) cc a).
  assert (Hc : pre_avl c) by (unfold c; cbn [pre_avl]; heights; repeat split; auto; lia).
  assert (Hy : avl yy) by (unfold yy; cbn [avl]; heights; repeat split; auto; lia).
  assert (Hhc : h c < h t) by (unfold c, t; heights; lia).
  destruct (IH c Hc (enough_lower _ _ _ _ Hf Hhc (pre_avl_bal c Hc))) as (c' & hc & -> & Hac & Hi & Ht & Hh & Hr & Hz & _).
  cbn [bind set_child set_balance bal_of]. cbn [total_of] in Ht.
  set (rb := - (1 + Z.max nb (- b + 1 + Z.max nb 0)) + hc * -1).
  assert (Hhy : h yy = 1 + h a) by (unfold yy; heights; lia).
  assert (Hrb : rb = h yy - h c') by (unfold rb; rewrite Hh, Hhy; unfold c in *; heights; lia).
  assert (Hit : items (Node z rb tot c' yy) = items t /\ h (Node z rb tot c' yy) = h t - 1).
  { split.
    - unfold t, yy. unfold c in Hi, Ht. cbn [items total_of] in *. rewrite Ht, Hi.
      same_items.
    - unfold t. rewrite h_node, Hh, Hhy. unfold c in *. heights. lia. }
  destruct Hit as [Hit Hht].
  assert (Hrange : -1 <= rb <= 2 /\ (rb = 2 -> yb = 0 /\ 3 <= b))
    by (rewrite Hrb, Hh, Hhy; unfold c in *; cbn [bal_of] in Hz; heights; lia).
  destruct (Z.eq_dec rb 2) as [E|E].
  - rewrite E in *. cbn [Z.ltb Z.compare Pos.compare Pos.compare_cont CompOpp orb Z.abs].
    rewrite (proj2 (Z.ltb_lt 2 (Z.abs b))) by lia.
    destruct (IH (Node z 2 tot c' yy)) as (t' & hc2 & -> & Hat & Hi2 & Ht2 & Hh2 & _ & _ & Hz2).
    { cbn [pre_avl]. auto. }
    { apply (enough_lower Hm fuel t); [exact Hf|lia|]. cbn [bal_of]. pose proof (h_nonneg yy). pose proof (h_nonneg c').
      rewrite h_node. lia. }
    cbn [bal_of child] in Hz2. rewrite Hz2 in * by (try reflexivity; unfold yy; cbn; tauto).
    cbn [bind]. eexists _, _. split; [reflexivity|]. rewrite Hi2, Ht2. repeat split; try assumption; fold t; try lia;
      unfold t; cbn [bal_of child]; lia.
  - rewrite (proj2 (Z.ltb_ge rb (-1))) by lia. rewrite (proj2 (Z.ltb_ge 1 rb)) by lia. cbn [orb].
    eexists _, _. split; [reflexivity|]. split; [split; [assumption|split; [assumption|lia]]|].
    repeat split; try assumption; fold t; try lia.
    + unfold t. cbn [bal_of]. lia.
    + unfold t. cbn [bal_of]. rewrite (proj2 (Z.ltb_lt 0 b)) by lia. cbn [child bal_of]. lia.
Qed.
End Step.

Lemma rebalance_fuel_ok Hm fuel t : pre_avl t -> enough Hm fuel t -> rebalanced t (ISRebalance_fuel fuel t).
Proof.
  revert t. induction fuel as [|fuel IH]; intros t Hp Hf.
  { destruct Hf as [Hf1 Hf2]. pose proof (h_nonneg t). nia. }
  destruct t as [|x b tot c0 c1].
  { exists Nil, 0. cbn. repeat split; auto; lia. }
  destruct (Z.leb_spec (-1) b) as [H1|H1]; destruct (Z.leb_spec b 1) as [H2|H2]; try lia.
  - cbn [ISRebalance_fuel is_nil bal_of orb]. rewrite (proj2 (Z.leb_le (-1) b)), (proj2 (Z.leb_le b 1)) by lia.
    cbn [andb]. exists (Node x b tot c0 c1), 0. destruct Hp as (? & ? & ?). cbn [avl bal_of]. repeat split; auto; lia.
  - pose proof Hp as (_ & Ha1 & Hb). destruct c1 as [|y nb ntot d a].
    { rewrite h_nil in Hb. pose proof (h_nonneg c0). lia. }
    destruct (Z.eq_dec nb (-1)) as [-> | Hn]; [|apply step_left1 with Hm; auto; lia].
    destruct d as [|z xb ztot e cc]; [|apply step_left2 with Hm; auto; lia].
    destruct Ha1 as (_ & _ & Hnb & _). rewrite h_nil in Hnb. pose proof (h_nonneg a). lia.
  - pose proof Hp as (Ha0 & _ & Hb). destruct c0 as [|y nb ntot a d].
    { rewrite h_nil in Hb. pose proof (h_nonneg c1). lia. }
    destruct (Z.eq_dec nb 1) as [-> | Hn]; [|apply step_right1 with Hm; auto; lia].
    destruct d as [|z xb ztot cc e]; [|apply step_right2 with Hm; auto; lia].
    destruct Ha0 as (_ & _ & Hnb & _). rewrite h_nil in Hnb. pose proof (h_nonneg a). lia.
Qed.

Lemma rebalance_ok t : pre_avl t -> rebalanced t (ISRebalance t).
Proof.
  intros Hp. unfold ISRebalance. apply rebalance_fuel_ok with (h t); [exact Hp|].
  unfold enough. split; [lia|]. unfold h. lia.
Qed.

(** ** Local rebalancing in [insert] and [erase] *)

Definition sg (d : bool) : Z := if d then 1 else -1.

Definition good_rotation t t' (hh : Z) : Prop :=
  avl t' /\ items t' = items t /\ total_of t' = total_of t /\ h t' = hh.

Lemma single_ok d x b tot c sib : avl sib -> avl c -> h c = h sib + 2 -> bal_of c = sg d ->
  let t := mknode d x b tot c sib in
  exists t', ISRotate (set_child (set_balance t 0) d (set_balance c 0)) (negb d) = Some t' /\
    good_rotation t t' (h c).
Proof.
  intros Hs Hc Hh Hb. destruct c as [|y nb nt a e]; [cbn in Hb; destruct d; discriminate|]. cbn in Hb. subst nb.
  destruct Hc as (Ha & He & Hnb & _). unfold good_rotation.
  destruct d; cbn [mknode set_balance set_child negb sg] in *; [rewrite rotate_left|rewrite rotate_right];
    eexists; (split; [reflexivity|]); cbn [avl]; heights; repeat split; auto; try lia;
    cbn [items total_of]; same_items.
Qed.

Lemma single0_ok d x b tot c sib : avl sib -> avl c -> h c = h sib + 2 -> bal_of c = 0 ->
  let t := mknode d x b tot c sib in
  exists t', ISRotate (set_child (set_balance t (sg d)) d (set_balance c (- sg d))) (negb d) = Some t' /\
    good_rotation t t' (h c + 1).
Proof.
  intros Hs Hc Hh Hb. destruct c as [|y nb nt a e]; [rewrite h_nil in Hh; pose proof (h_nonneg sib); lia|].
  cbn in Hb. subst nb. destruct Hc as (Ha & He & Hnb & _). unfold good_rotation.
  destruct d; cbn [mknode set_balance set_child negb sg] in *; [rewrite rotate_left|rewrite rotate_right];
    eexists; (split; [reflexivity|]); cbn [avl]; heights; repeat split; auto; try lia;
    cbn [items total_of]; same_items.
Qed.

Definition double_rotate t (d : bool) : option tree :=
  bind (ISAdjustBalance t d (sg d)) (fun t =>
  bind (ISRotate (child t d) d) (fun n => ISRotate (set_child t d n) (negb d))).

Lemma double_ok d x b tot c sib : avl sib -> avl c -> h c = h sib + 2 -> bal_of c = - sg d ->
  let t := mknode d x b tot c sib in
  exists t', double_rotate t d = Some t' /\ good_rotation t t' (h c).
Proof.
  intros Hs Hc Hh Hb. destruct c as [|y nb nt a e]; [cbn in Hb; destruct d; discriminate|]. cbn in Hb. subst nb.
  destruct Hc as (Ha & He & Hnb & _). unfold good_rotation, double_rotate, ISAdjustBalance.
  destruct d; cbn [mknode child negb sg is_nil orb Z.opp] in *.
  - destruct a as [|z zb zt u v]; [rewrite h_nil in *; pose proof (h_nonneg e); lia|].
    destruct Ha as (Hu & Hv & Hzb & Hzr). cbn [is_nil bal_of].
    destruct (Z.eqb_spec zb 0); [|destruct (Z.eqb_spec zb 1)];
      cbn [bind set_balance set_child child negb]; rewrite rotate_right; cbn [bind set_child]; rewrite rotate_left;
      eexists; (split; [reflexivity|]); cbn [avl]; heights; repeat split; auto; try lia;
      cbn [items total_of]; same_items.
  - destruct e as [|z zb zt u v]; [rewrite h_nil in *; pose proof (h_nonneg a); lia|].
    destruct He as (Hu & Hv & Hzb & Hzr). cbn [is_nil bal_of].
    destruct (Z.eqb_spec zb 0); [|destruct (Z.eqb_spec zb (-1))];
      cbn [bind set_balance set_child child negb]; rewrite rotate_left; cbn [bind set_child]; rewrite rotate_right;
      eexists; (split; [reflexivity|]); cbn [avl]; heights; repeat split; auto; try lia;
      cbn [items total_of]; same_items.
Qed.

(** ** Paths *)

(** Items left and right of a hole whose subtree had total [th]. *)
Fixpoint litems (th : Z) p : list (T * Z) :=
  match p with
  | [] => []
  | mkF d x _ tot sib :: p' =>
      litems tot p' ++ (if d then items sib ++ [(x, tot - th - total_of sib)] else [])
  end.
Fixpoint ritems (th : Z) p : list (T * Z) :=
  match p with
  | [] => []
  | mkF d x _ tot sib :: p' =>
      (if d then [] else (x, tot - th - total_of sib) :: items sib) ++ ritems tot p'
  end.

Lemma total_mknode d x b tot (c c' : @tree T) : total_of (mknode d x b tot c c') = tot.
Proof. destruct d; reflexivity. Qed.

Lemma h_mknode d x b tot (c c' : @tree T) : h (mknode d x b tot c c') = 1 + Z.max (h c) (h c').
Proof. destruct d; cbn [mknode]; rewrite h_node; lia. Qed.

Lemma bal_mknode d x b tot (c c' : @tree T) : bal_of (mknode d x b tot c c') = b.
Proof. destruct d; reflexivity. Qed.

Lemma items_mknode d x b tot (c sib : @tree T) :
  items (mknode d x b tot c sib) =
  (if d then items sib ++ [(x, tot - total_of c - total_of sib)] else []) ++ items c ++
  (if d then [] else (x, tot - total_of c - total_of sib) :: items sib).
Proof. destruct d; cbn [mknode items]; same_items. now rewrite app_nil_r. Qed.

Lemma items_plug t p : items (plug t p) = litems (total_of t) p ++ items t ++ ritems (total_of t) p.
Proof.
  revert t. induction p as [|[d x b tot sib] p IH]; intros t; cbn [plug litems ritems].
  - now rewrite app_nil_r.
  - unfold plug_frame. cbn [fdir fdata fbal ftot fsib]. rewrite IH, total_mknode, items_mknode.
    rewrite <- !app_assoc. reflexivity.
Qed.

Lemma add_totals_items delta th p :
  litems (th + delta) (add_totals delta p) = litems th p /\ ritems (th + delta) (add_totals delta p) = ritems th p.
Proof.
  revert th. induction p as [|[d x b tot sib] p IH]; intros th; cbn [add_totals map litems ritems fdir fdata fbal ftot fsib]; [auto|].
  destruct (IH tot) as [IH1 IH2]. unfold add_totals in *. rewrite IH1, IH2.
  replace (tot + delta - (th + delta) - total_of sib) with (tot - th - total_of sib) by lia. auto.
Qed.

(** Plugging a subtree of height [hh] gives an AVL tree. *)
Fixpoint avl_path (hh : Z) p : Prop :=
  match p with
  | [] => True
  | mkF d _ b _ sib :: p' =>
      avl sib /\ b = sg d * (hh - h sib) /\ -1 <= b <= 1 /\ avl_path (1 + Z.max hh (h sib)) p'
  end.

Lemma avl_mknode d x b tot (c sib : @tree T) :
  avl (mknode d x b tot c sib) <-> avl c /\ avl sib /\ b = sg d * (h c - h sib) /\ -1 <= b <= 1.
Proof. destruct d; cbn [mknode avl sg]; intuition lia. Qed.

Lemma avl_plug t p : avl t -> avl_path (h t) p -> avl (plug t p).
Proof.
  revert t. induction p as [|[d x b tot sib] p IH]; intros t Ht Hp; cbn [plug]; [exact Ht|].
  destruct Hp as (Hs & Hb & Hr & Hp). unfold plug_frame. cbn [fdir fdata fbal ftot fsib].
  apply IH; [now apply avl_mknode|]. now rewrite h_mknode.
Qed.

Lemma avl_add_totals delta hh p : avl_path hh (add_totals delta p) <-> avl_path hh p.
Proof.
  revert hh. induction p as [|[d x b tot sib] p IH]; intros hh; cbn [add_totals map avl_path fdir fdata fbal ftot fsib]; [tauto|].
  unfold add_totals in IH. rewrite IH. tauto.
Qed.

(** ** Insertion *)

Lemma insert_up_ok delta p : forall c th hh,
  avl c -> h c = hh + 1 -> (bal_of c <> 0 \/ hh = 0) -> 0 <= hh -> avl_path hh p -> total_of c = th + delta ->
  exists t', insert_up delta c p = Some t' /\ avl t' /\ items t' = litems th p ++ items c ++ ritems th p.
Proof.
  induction p as [|[d x b tot sib] p IH]; intros c th hh Hc Hh Hb Hhh Hp Ht.
  { exists c. cbn. rewrite app_nil_r. auto. }
  destruct Hp as (Hs & Hbal & Hr & Hp). cbn [insert_up litems ritems].
  set (t := mknode d x (b + (if d then 1 else -1)) (tot + delta) c sib).
  assert (Hit : items t = (if d then items sib ++ [(x, tot - th - total_of sib)] else []) ++ items c ++
                 (if d then [] else (x, tot - th - total_of sib) :: items sib)).
  { unfold t. rewrite items_mknode, Ht. replace (tot + delta - (th + delta) - total_of sib) with (tot - th - total_of sib) by lia. reflexivity. }
  assert (Htt : total_of t = tot + delta) by apply total_mknode.
  destruct (add_totals_items delta tot p) as [HL HR].
  assert (Hdone : forall t', avl t' -> items t' = items t -> total_of t' = total_of t -> h t' = 1 + Z.max hh (h sib) ->
    exists t'', Some (plug t' (add_totals delta p)) = Some t'' /\ avl t'' /\
      items t'' = (litems tot p ++ (if d then items sib ++ [(x, tot - th - total_of sib)] else [])) ++ items c ++
        (if d then [] else (x, tot - th - total_of sib) :: items sib) ++ ritems tot p).
  { intros t' Ha Hi Htot Hht. eexists. split; [reflexivity|]. split.
    - apply avl_plug; [exact Ha|]. apply avl_add_totals. now rewrite Hht.
    - rewrite items_plug, Htot, Htt, HL, HR, Hi, Hit, <- !app_assoc. reflexivity. }
  pose proof (h_nonneg sib).
  destruct (Z.eqb_spec (b + (if d then 1 else -1)) 0) as [E|E].
  { apply Hdone; auto.
    - unfold t. rewrite E. apply avl_mknode. destruct d; cbn [sg] in *; repeat split; auto; lia.
    - unfold t. rewrite h_mknode. destruct d; cbn [sg] in *; lia. }
  destruct (negb _ && negb _) eqn:E1.
  - assert (Hhc : h c = h sib + 2)
      by (revert E1; zcases; cbn; intros; try discriminate; destruct d; cbn [sg] in *; lia).
    assert (Hbc : bal_of c = sg d \/ bal_of c = - sg d).
    { destruct c as [|y nb nt a e]; [rewrite h_nil in Hhc; lia|]. destruct Hc as (_ & _ & _ & Hnb).
      cbn [bal_of] in *. destruct d; cbn [sg] in *; lia. }
    fold (sg d). destruct (Z.eqb_spec (bal_of c) (sg d)) as [E3|E3].
    + cbn [bind]. destruct (single_ok d x (b + sg d) (tot + delta) c sib Hs Hc Hhc E3) as (t' & Hrot & Ha & Hi & Htot & Hht).
      change (mknode d x (b + sg d) (tot + delta) c sib) with t in Hrot. rewrite Hrot. cbn [bind]. apply Hdone; auto. rewrite Hht. destruct d; cbn [sg] in *; lia.
    + destruct (double_ok d x (b + sg d) (tot + delta) c sib Hs Hc Hhc ltac:(tauto)) as (t' & Hrot & Ha & Hi & Htot & Hht).
      unfold double_rotate in Hrot. change (mknode d x (b + sg d) (tot + delta) c sib) with t in Hrot.
      destruct (ISAdjustBalance t d (sg d)) as [t1|]; [|discriminate]. cbn [bind] in *.
      destruct (ISRotate (child t1 d) d) as [n|]; [|discriminate]. cbn [bind] in *. rewrite Hrot. cbn [bind].
      apply Hdone; auto. rewrite Hht. destruct d; cbn [sg] in *; lia.
  - assert (Hb1 : b = 0) by (revert E1; zcases; cbn; intros; destruct d; cbn [sg] in *; lia || discriminate).
    assert (Ha : avl t) by (unfold t; apply avl_mknode; destruct d; cbn [sg] in *; repeat split; auto; lia).
    assert (Hht : h t = 1 + Z.max hh (h sib) + 1) by (unfold t; rewrite h_mknode; destruct d; cbn [sg] in *; lia).
    assert (Hbt : bal_of t <> 0) by (unfold t; rewrite bal_mknode; exact E).
    destruct (IH t tot (1 + Z.max hh (h sib)) Ha Hht (or_introl Hbt) ltac:(lia) Hp Htt) as (t' & -> & Ha' & Hi').
    exists t'. repeat split; auto. rewrite Hi', Hit, <- !app_assoc. reflexivity.
Qed.

(** ** The order of the items *)

Definition below (x : T) (l : list (T * Z)) : Prop := Forall (fun i => compare (fst i) x = Lt) l.
Definition above (x : T) (l : list (T * Z)) : Prop := Forall (fun i => compare x (fst i) = Lt) l.

Fixpoint sorted (l : list (T * Z)) : Prop :=
  match l with
  | [] => True
  | i :: r => above (fst i) r /\ sorted r
  end.

Lemma compare_refl x : compare x x = Eq.
Proof. now apply compare_eq. Qed.

Lemma compare_gt x y : compare x y = Gt <-> compare y x = Lt.
Proof. rewrite (compare_antisym x y). destruct (compare x y); cbn; intuition discriminate. Qed.

Lemma above_trans x y l : compare x y = Lt -> above y l -> above x l.
Proof. intros Hxy. apply Forall_impl. intros i Hi. eapply compare_trans; eauto. Qed.

Lemma below_trans x y l : compare x y = Lt -> below x l -> below y l.
Proof. intros Hxy. apply Forall_impl. intros i Hi. eapply compare_trans; eauto. Qed.

Lemma above_app x l r : above x (l ++ r) <-> above x l /\ above x r.
Proof. apply Forall_app. Qed.

Lemma below_app x l r : below x (l ++ r) <-> below x l /\ below x r.
Proof. apply Forall_app. Qed.

Lemma sorted_app l r : sorted (l ++ r) <->
  sorted l /\ sorted r /\ (forall i j, In i l -> In j r -> compare (fst i) (fst j) = Lt).
Proof.
  induction l as [|i l IH]; cbn [app sorted]; [firstorder|]. rewrite IH, above_app.
  unfold above. rewrite !Forall_forall. cbn [In]. split.
  - intros ([H1 H2] & H3 & H4 & H5). repeat split; auto. intros a b [<- | Ha] Hb; auto.
  - intros ((H1 & H2) & H3 & H4). repeat split; auto.
Qed.

Lemma sorted_mid l x m r : sorted (l ++ (x, m) :: r) <-> sorted l /\ sorted r /\ below x l /\ above x r.
Proof.
  rewrite sorted_app. cbn [sorted fst In]. unfold below, above. rewrite !Forall_forall. split.
  - intros (H1 & (H2 & H3) & H4). repeat split; auto. intros i Hi. apply (H4 i (x, m)); auto.
  - intros (H1 & H2 & H3 & H4). repeat split; auto. intros i j Hi [<- | Hj]; [now apply H3|].
    eapply compare_trans; [now apply H3|now apply H4].
Qed.

Lemma sorted_change l x m m' r : sorted (l ++ (x, m) :: r) -> sorted (l ++ (x, m') :: r).
Proof. rewrite !sorted_mid. auto. Qed.

(** Insertion in the sorted sequence. *)
Fixpoint linsert (x : T) (m : Z) (replace : bool) (l : list (T * Z)) : list (T * Z) :=
  match l with
  | [] => [(x, m)]
  | (y, n) :: r => match compare x y with
                   | Lt => (x, m) :: l
                   | Eq => if replace then (x, m) :: r else l
                   | Gt => (y, n) :: linsert x m replace r
                   end
  end.

Lemma linsert_below x m b l r : below x l -> linsert x m b (l ++ r) = l ++ linsert x m b r.
Proof.
  induction 1 as [|[y n] l Hy _ IH]; [reflexivity|]. cbn [app linsert fst] in *.
  apply compare_gt in Hy. rewrite Hy, IH. reflexivity.
Qed.

Lemma linsert_above x m b l r : above x r -> linsert x m b (l ++ r) = linsert x m b l ++ r.
Proof.
  intros Hr. induction l as [|[y n] l IH]; cbn [app linsert].
  - destruct Hr as [|[y n] r Hy _]; [reflexivity|]. cbn [linsert fst] in *. now rewrite Hy.
  - destruct (compare x y); [destruct b; reflexivity|reflexivity|]. now rewrite IH.
Qed.

Lemma linsert_sorted x m b l : sorted l -> sorted (linsert x m b l) /\
  (forall z, above z l -> compare z x = Lt -> above z (linsert x m b l)).
Proof.
  induction l as [|[y n] r IH]; cbn [sorted linsert fst].
  - intros _. split; [repeat constructor|]. intros. repeat constructor. assumption.
  - intros [Hy Hr]. destruct (IH Hr) as [IH1 IH2]. destruct (compare x y) eqn:E.
    + apply compare_eq in E as ->. destruct b; cbn [sorted fst]; (split; [auto|]); intros z Hz Hx; [|exact Hz].
      inversion Hz; subst. constructor; auto.
    + cbn [sorted fst]. split; [split; [|auto]|].
      * constructor; [exact E|]. eapply above_trans; eauto.
      * intros z Hz Hx. constructor; auto.
    + apply compare_gt in E. cbn [sorted fst]. split; [split; auto|].
      intros z Hz Hx. inversion Hz; subst. constructor; [assumption|]. now apply IH2.
Qed.

(** The path splits the items around the hole. *)
Definition around (x : T) (th : Z) p : Prop := below x (litems th p) /\ above x (ritems th p).

Lemma insert_at_ok x m repl t : forall p, avl t -> avl_path (h t) p -> sorted (items t) -> around x (total_of t) p ->
  exists t', insert_at x m repl t p = Some t' /\ avl t' /\
    items t' = litems (total_of t) p ++ linsert x m repl (items t) ++ ritems (total_of t) p.
Proof.
  induction t as [|y b tot c0 IH0 c1 IH1]; intros p Ha Hp Hs [HL HR]; cbn [insert_at].
  - destruct (insert_up_ok m p (Node x 0 m Nil Nil) 0 0) as (t' & -> & Ha' & Hi); auto.
    + cbn. repeat split; auto; lia.
    + cbn [total_of]. lia.
    + exists t'. repeat split; auto. rewrite Hi. cbn [items total_of linsert app].
      replace (m - 0 - 0) with m by lia. reflexivity.
  - cbn [items] in *. pose proof Hs as Hs'. rewrite sorted_mid in Hs'. destruct Hs' as (S0 & S1 & B0 & A1).
    destruct Ha as (Ha0 & Ha1 & Hb & Hbr). rewrite h_node in Hp. cbn [total_of] in *.
    destruct (compare x y) eqn:E.
    + apply compare_eq in E as ->. rewrite linsert_below by exact B0. cbn [linsert]. rewrite compare_refl.
      destruct repl.
      * set (tt := Node y b _ c0 c1). eexists. split; [reflexivity|].
        assert (Htt : total_of tt = m + total_of c0 + total_of c1)
          by (unfold tt; destruct c0, c1; cbn [is_nil total_of]; lia).
        assert (Hd : (if is_nil c1 then if is_nil c0 then m else m + total_of c0
                      else (if is_nil c0 then m else m + total_of c0) + total_of c1) = m + total_of c0 + total_of c1)
          by exact Htt.
        split.
        -- apply avl_plug; [unfold tt; cbn [avl]; auto|]. apply avl_add_totals. unfold tt. now rewrite h_node.
        -- rewrite items_plug, Htt. rewrite Hd.
           destruct (add_totals_items (m + total_of c0 + total_of c1 - tot) tot p) as [HA HB].
           replace (tot + (m + total_of c0 + total_of c1 - tot)) with (m + total_of c0 + total_of c1) in HA, HB by lia.
           rewrite HA, HB.
           unfold tt. cbn [items]. rewrite Hd.
           replace (m + total_of c0 + total_of c1 - total_of c0 - total_of c1) with m by lia. reflexivity.
      * eexists. split; [reflexivity|]. split; [apply avl_plug; [cbn [avl]; auto|now rewrite h_node]|].
        apply items_plug.
    + destruct (IH0 (mkF false y b tot c1 :: p)) as (t' & -> & Ha' & Hi); auto.
      * cbn [avl_path sg]. repeat split; auto; lia.
      * split; cbn [litems ritems]; [now rewrite app_nil_r|]. constructor; [exact E|]. apply above_app. split; [|exact HR].
        eapply above_trans; eauto.
      * exists t'. repeat split; auto. rewrite Hi. cbn [litems ritems].
        replace (tot - total_of c0 - total_of c1) with (tot - total_of c0 - total_of c1) by lia.
        rewrite (linsert_above x m repl (items c0)) by (constructor; [exact E|eapply above_trans; eauto]).
        same_items.
    + apply compare_gt in E. destruct (IH1 (mkF true y b tot c0 :: p)) as (t' & -> & Ha' & Hi); auto.
      * cbn [avl_path sg]. rewrite (Z.max_comm (h c1)). repeat split; auto; lia.
      * split; cbn [litems ritems]; [|exact HR]. rewrite app_assoc. apply below_app. split.
        -- apply below_app. split; [exact HL|]. eapply below_trans; eauto.
        -- repeat constructor. exact E.
      * exists t'. repeat split; auto. rewrite Hi. cbn [litems ritems].
        rewrite (linsert_below x m repl (items c0)) by (eapply below_trans; eauto).
        cbn [linsert]. rewrite (proj2 (compare_gt x y)) by exact E.
        replace (tot - total_of c1 - total_of c0) with (tot - total_of c0 - total_of c1) by lia. same_items.
Qed.

(** A well-formed set. *)
Definition wf t : Prop := avl t /\ sorted (items t).

Lemma insert_ok x m repl t : wf t ->
  exists t', insert t x m repl = Some t' /\ wf t' /\ items t' = linsert x m repl (items t).
Proof.
  intros [Ha Hs]. destruct (insert_at_ok x m repl t [] Ha I Hs) as (t' & Hi & Ha' & Hit).
  { split; constructor. }
  cbn [litems ritems app] in Hit. rewrite app_nil_r in Hit. exists t'. unfold wf. rewrite Hit.
  repeat split; auto. now apply linsert_sorted.
Qed.

(** ** Erasing one node *)

Lemma erase_up_ok p : forall c hh, avl c -> h c = hh - 1 -> avl_path hh p ->
  exists t', erase_up c p = Some t' /\ avl t' /\
    items t' = litems (total_of c) p ++ items c ++ ritems (total_of c) p.
Proof.
  induction p as [|[d x b tot sib] p IH]; intros c hh Hc Hh Hp.
  { exists c. cbn. rewrite app_nil_r. auto. }
  destruct Hp as (Hs & Hbal & Hr & Hp). cbn [erase_up].
  set (t := mknode d x (b + (if d then -1 else 1)) tot c sib).
  assert (Hsw : t = mknode (negb d) x (b + (if d then -1 else 1)) tot sib c) by (destruct d; reflexivity).
  assert (Hit : forall t' L R, items t' = items t -> L = litems tot p -> R = ritems tot p ->
    L ++ items t' ++ R = litems (total_of c) (mkF d x b tot sib :: p) ++ items c ++ ritems (total_of c) (mkF d x b tot sib :: p)).
  { intros t' L R -> -> ->. unfold t. rewrite items_mknode. cbn [litems ritems]. rewrite <- !app_assoc. reflexivity. }
  assert (Htt : total_of t = tot) by apply total_mknode.
  assert (Hplug : forall t', avl t' -> items t' = items t -> total_of t' = tot -> h t' = 1 + Z.max hh (h sib) ->
    exists t'', Some (plug t' p) = Some t'' /\ avl t'' /\
      items t'' = litems (total_of c) (mkF d x b tot sib :: p) ++ items c ++ ritems (total_of c) (mkF d x b tot sib :: p)).
  { intros t' Ha Hi Htot Hht. eexists. split; [reflexivity|]. split; [apply avl_plug; [exact Ha|now rewrite Hht]|].
    rewrite items_plug, Htot. now apply Hit. }
  assert (Hrec : forall t', avl t' -> items t' = items t -> total_of t' = tot -> h t' = 1 + Z.max hh (h sib) - 1 ->
    exists t'', erase_up t' p = Some t'' /\ avl t'' /\
      items t'' = litems (total_of c) (mkF d x b tot sib :: p) ++ items c ++ ritems (total_of c) (mkF d x b tot sib :: p)).
  { intros t' Ha Hi Htot Hht. destruct (IH t' _ Ha Hht Hp) as (t'' & -> & Ha'' & Hi''). exists t''.
    repeat split; auto. rewrite Hi'', Htot. now apply Hit. }
  pose proof (h_nonneg c).
  destruct ((_ <? -1) || _) eqn:E.
  - assert (Hhs : h sib = h c + 2).
    { apply orb_true_iff in E. rewrite !Z.ltb_lt in E. destruct d; cbn [sg] in *; lia. }
    assert (Hns : is_nil sib = false) by (destruct sib; [rewrite h_nil in Hhs; lia|reflexivity]). rewrite Hns.
    assert (Hmax : Z.max hh (h sib) = h sib) by lia.
    replace (if d then 1 else -1) with (- sg (negb d)) by (destruct d; reflexivity).
    rewrite Z.opp_involutive.
    destruct (Z.eqb_spec (bal_of sib) (sg (negb d))) as [E1|E1].
    { destruct (single_ok (negb d) x (b + (if d then -1 else 1)) tot sib c Hc Hs Hhs E1) as (t' & Hrot & Ha & Hi & Htot & Hht).
      rewrite negb_involutive, <- Hsw in Hrot. rewrite Hrot. cbn [bind].
      apply Hrec; auto; [now rewrite Hi, <- Hsw|now rewrite Htot, <- Hsw|lia]. }
    destruct (Z.eqb_spec (bal_of sib) (- sg (negb d))) as [E2|E2].
    { destruct (double_ok (negb d) x (b + (if d then -1 else 1)) tot sib c Hc Hs Hhs E2) as (t' & Hrot & Ha & Hi & Htot & Hht).
      unfold double_rotate in Hrot. rewrite negb_involutive, <- Hsw in Hrot.
      destruct (ISAdjustBalance t (negb d) _) as [t1|]; [|discriminate]. cbn [bind] in *.
      destruct (ISRotate (child t1 (negb d)) (negb d)) as [n|]; [|discriminate]. cbn [bind] in *. rewrite Hrot. cbn [bind].
      apply Hrec; auto; [now rewrite Hi, <- Hsw|now rewrite Htot, <- Hsw|lia]. }
    assert (E0 : bal_of sib = 0).
    { destruct sib as [|y nb nt a e]; [reflexivity|]. destruct Hs as (_ & _ & _ & Hnb). cbn [bal_of] in *.
      destruct d; cbn [sg negb] in *; lia. }
    destruct (single0_ok (negb d) x (b + (if d then -1 else 1)) tot sib c Hc Hs Hhs E0) as (t' & Hrot & Ha & Hi & Htot & Hht).
    rewrite negb_involutive, <- Hsw in Hrot. rewrite Hrot. cbn [bind].
    apply Hplug; auto; [now rewrite Hi, <- Hsw|now rewrite Htot, <- Hsw|lia].
  - apply orb_false_iff in E as [El Eg]. apply Z.ltb_ge in El, Eg.
    assert (Ha : avl t) by (unfold t; apply avl_mknode; destruct d; cbn [sg] in *; repeat split; auto; lia).
    destruct (Z.eqb_spec (b + (if d then -1 else 1)) 0) as [E0|E0]; cbn [negb].
    + apply Hrec; auto. unfold t. rewrite h_mknode. destruct d; cbn [sg] in *; lia.
    + apply Hplug; auto. unfold t. rewrite h_mknode. destruct d; cbn [sg] in *; lia.
Qed.

Lemma avl_unplug t p : avl (plug t p) -> avl t /\ avl_path (h t) p.
Proof.
  revert t. induction p as [|[d x b tot sib] p IH]; intros t Ha; [cbn in *; auto|].
  cbn [plug] in Ha. destruct (IH _ Ha) as [H1 H2]. unfold plug_frame in *. cbn [fdir fdata fbal ftot fsib] in *.
  apply avl_mknode in H1 as (? & ? & ? & ?). rewrite h_mknode in H2. cbn [avl_path]. tauto.
Qed.

Lemma plug_app t q p : plug t (q ++ p) = plug (plug t q) p.
Proof. revert t. induction q; intros; cbn [plug app]; auto. Qed.

Lemma total_plug_frame f t : total_of (plug_frame f t) = ftot f.
Proof. apply total_mknode. Qed.

Lemma litems_app t q p : litems (total_of t) (q ++ p) = litems (total_of (plug t q)) p ++ litems (total_of t) q.
Proof.
  revert t. induction q as [|[d x b tot sib] q IH]; intros t; [cbn; now rewrite app_nil_r|].
  cbn [app litems plug]. pose proof (IH (plug_frame (mkF d x b tot sib) t)) as E. rewrite total_plug_frame in E.
  cbn [ftot] in E. now rewrite E, <- !app_assoc.
Qed.

Lemma ritems_app t q p : ritems (total_of t) (q ++ p) = ritems (total_of t) q ++ ritems (total_of (plug t q)) p.
Proof.
  revert t. induction q as [|[d x b tot sib] q IH]; intros t; [reflexivity|].
  cbn [app ritems plug]. pose proof (IH (plug_frame (mkF d x b tot sib) t)) as E. rewrite total_plug_frame in E.
  cbn [ftot] in E. now rewrite E, <- !app_assoc.
Qed.

Lemma avl_path_app t q p : avl_path (h t) (q ++ p) <-> avl_path (h t) q /\ avl_path (h (plug t q)) p.
Proof.
  revert t. induction q as [|[d x b tot sib] q IH]; intros t; cbn [app avl_path plug]; [tauto|].
  pose proof (IH (plug_frame (mkF d x b tot sib) t)) as E. unfold plug_frame in *. cbn [fdir fdata fbal ftot fsib] in *.
  rewrite h_mknode in E. rewrite E. tauto.
Qed.

Lemma avl_add_totals_app m hh q p : avl_path hh (add_totals m q ++ p) <-> avl_path hh (q ++ p).
Proof.
  revert hh. induction q as [|[d x b tot sib] q IH]; intros hh; [reflexivity|].
  cbn [add_totals map app avl_path fdir fdata fbal ftot fsib]. unfold add_totals in IH. rewrite IH. tauto.
Qed.

(** The walk to the last node in one direction. *)
Lemma extreme_ok d t p : t <> Nil ->
  exists u q, extreme d t p = (u, q ++ p) /\ plug u q = t /\ u <> Nil /\ child u d = Nil /\
    Forall (fun f => fdir f = d) q.
Proof.
  revert p. induction t as [|x b tot c0 IH0 c1 IH1]; intros p Ht; [congruence|]. cbn [extreme].
  destruct d.
  - destruct c1 as [|y nb nt a e]; [exists (Node x b tot c0 Nil), []; repeat split; auto; discriminate|].
    destruct (IH1 (mkF true x b tot c0 :: p)) as (u & q & E & Hu & Hn & Hc & Hf); [discriminate|].
    exists u, (q ++ [mkF true x b tot c0]). rewrite plug_app, Hu, <- app_assoc. cbn [app].
    repeat split; auto. apply Forall_app. split; [exact Hf|repeat constructor].
  - destruct c0 as [|y nb nt a e]; [exists (Node x b tot Nil c1), []; repeat split; auto; discriminate|].
    destruct (IH0 (mkF false x b tot c1 :: p)) as (u & q & E & Hu & Hn & Hc & Hf); [discriminate|].
    exists u, (q ++ [mkF false x b tot c1]). rewrite plug_app, Hu, <- app_assoc. cbn [app].
    repeat split; auto. apply Forall_app. split; [exact Hf|repeat constructor].
Qed.

Lemma ritems_right th q : Forall (fun f => fdir f = true) q -> ritems th q = [].
Proof. intros Hq. revert th. induction Hq as [|[d x b tot sib] q Hd _ IH]; intros; [reflexivity|]. cbn in *. subst. apply IH. Qed.

Lemma litems_left th q : Forall (fun f => fdir f = false) q -> litems th q = [].
Proof.
  intros Hq. revert th. induction Hq as [|[d x b tot sib] q Hd _ IH]; intros; [reflexivity|]. cbn in *. subst.
  rewrite IH. reflexivity.
Qed.

Lemma node_metric_eq x b tot c0 c1 : node_metric (Node x b tot c0 c1) = tot - total_of c0 - total_of c1.
Proof. unfold node_metric. cbn [child total_of]. destruct c0, c1; cbn [is_nil total_of]; lia. Qed.

(** The path with [-m] added to every total, around a subtree whose total is [m] less. *)
Lemma add_totals_sub m th th' p : th' = th - m ->
  litems th' (add_totals (- m) p) = litems th p /\ ritems th' (add_totals (- m) p) = ritems th p.
Proof. intros ->. rewrite <- Z.add_opp_r. apply add_totals_items. Qed.

Lemma erase_leafish x b tot c0 c1 p : is_nil c0 || is_nil c1 = true ->
  avl (plug (Node x b tot c0 c1) p) ->
  exists t', erase_up (child (Node x b tot c0 c1) (is_nil c0)) (add_totals (- (tot - total_of c0 - total_of c1)) p) = Some t' /\
    avl t' /\ items t' = litems tot p ++ (items c0 ++ items c1) ++ ritems tot p.
Proof.
  intros Hn Ha. apply avl_unplug in Ha as [(Ha0 & Ha1 & Hb & Hbr) Hp]. rewrite h_node in Hp.
  set (c := child (Node x b tot c0 c1) (is_nil c0)).
  assert (Hc : avl c /\ h c = 1 + Z.max (h c0) (h c1) - 1 /\ items c = items c0 ++ items c1 /\
               total_of c = total_of c0 + total_of c1).
  { unfold c. cbn [child]. destruct c0; cbn [is_nil items app total_of].
    - rewrite h_nil in *. pose proof (h_nonneg c1). repeat split; auto; lia.
    - destruct c1; [|discriminate]. rewrite h_nil in *. cbn [items total_of]. rewrite app_nil_r.
      match goal with |- avl ?u /\ _ => pose proof (h_nonneg u) end. split; [exact Ha0|]; repeat split; auto; lia. }
  destruct Hc as (Hc & Hh & Hi & Ht).
  destruct (erase_up_ok (add_totals (- (tot - total_of c0 - total_of c1)) p) c _ Hc Hh) as (t' & -> & Ha' & Hi').
  { now apply avl_add_totals. }
  exists t'. repeat split; auto. rewrite Hi', Hi.
  destruct (add_totals_sub (tot - total_of c0 - total_of c1) tot (total_of c) p) as [-> ->]; [lia|]. reflexivity.
Qed.

Lemma erase_inner x b tot c0 c1 p root : is_nil c0 || is_nil c1 = false ->
  avl (plug (Node x b tot c0 c1) p) ->
  exists t', erase root (Some (Node x b tot c0 c1, p)) = Some t' /\
    avl t' /\ items t' = litems tot p ++ (items c0 ++ items c1) ++ ritems tot p.
Proof.
  intros Hn Ha. apply avl_unplug in Ha as [(Ha0 & Ha1 & Hb & Hbr) Hp]. rewrite h_node in Hp.
  cbn [erase]. rewrite Hn.
  assert (Hc0 : c0 <> Nil) by (intros ->; discriminate).
  destruct (extreme_ok true c0 [] Hc0) as (u & q & E & Hu & Hun & Huc & Hq). rewrite E, app_nil_r.
  destruct u as [|px pb ptot pc0 pc1]; [congruence|]. cbn [child] in Huc. subst pc1.
  rewrite <- Hu in Ha0. apply avl_unplug in Ha0 as [(Hap & _ & Hpb & Hpbr) Hpq]. rewrite h_nil in *.
  set (pm := ptot - total_of pc0).
  assert (Hpm : (if is_nil pc0 then ptot else pm) = pm)
    by (unfold pm; destruct pc0; cbn [is_nil total_of]; lia).
  cbv beta iota zeta. rewrite Hpm. set (c0' := plug pc0 (add_totals (- pm) q)).
  destruct (add_totals_sub pm ptot (total_of pc0) q) as [Lq Rq]; [unfold pm; lia|].
  rewrite (ritems_right ptot q Hq) in Rq.
  assert (Hit0 : items c0 = litems ptot q ++ items pc0 ++ [(px, pm)]).
  { rewrite <- Hu, items_plug, (ritems_right _ q Hq), app_nil_r. cbn [items total_of]. unfold pm.
    now rewrite Z.sub_0_r. }
  assert (Hpt : (if is_nil c0' then pm else pm + total_of c0') = pm + total_of c0')
    by (destruct c0'; cbn [is_nil total_of]; lia).
  rewrite Hpt. set (T' := pm + total_of c0' + total_of c1).
  set (P := add_totals (- (tot - total_of c0 - total_of c1)) p).
  assert (Hc0' : items c0' = litems ptot q ++ items pc0).
  { unfold c0'. rewrite items_plug, Lq, Rq, app_nil_r. reflexivity. }
  assert (Htc0 : total_of c0 = total_of c0' + pm).
  { rewrite !total_items, Hit0, Hc0'. unfold sum_metrics. rewrite !fold_right_app. cbn [fold_right snd].
    assert (Hs : forall l z, fold_right (fun (i : T * Z) s => snd i + s) z l = fold_right (fun i s => snd i + s) 0 l + z).
    { induction l as [|i l IH]; intros; cbn [fold_right]; [lia|]. rewrite IH. lia. }
    rewrite (Hs (litems ptot q)), (Hs (items pc0)), (Hs (litems ptot q) (fold_right _ 0 (items pc0))). lia. }
  destruct (erase_up_ok (add_totals (- pm) q ++ mkF false px b T' c1 :: P) pc0 (h (Node px pb ptot pc0 Nil)))
    as (t' & -> & Ha' & Hi').
  - exact Hap.
  - rewrite h_node, h_nil. pose proof (h_nonneg pc0). lia.
  - assert (Hpath : avl_path (h (Node px pb ptot pc0 Nil)) (q ++ mkF false px b T' c1 :: P)).
    { apply avl_path_app. split; [exact Hpq|]. rewrite Hu. cbn [avl_path sg]. repeat split; auto; try lia.
      apply avl_add_totals. exact Hp. }
    now apply avl_add_totals_app.
  - exists t'. split; [reflexivity|]. split; [exact Ha'|]. rewrite Hi', litems_app, ritems_app. fold c0'.
    cbn [litems ritems]. rewrite Lq, Rq.
    destruct (add_totals_sub (tot - total_of c0 - total_of c1) tot T' p) as [HP1 HP2]; [unfold T'; lia|].
    fold P in HP1, HP2. rewrite HP1, HP2.
    rewrite Hit0. replace (T' - total_of c0' - total_of c1) with pm by (unfold T'; lia). same_items.
Qed.

(** Erasing the node at an iterator removes its item and nothing else. *)
Lemma erase_ok root x b tot c0 c1 p : wf root -> root = plug (Node x b tot c0 c1) p ->
  exists t', erase root (Some (Node x b tot c0 c1, p)) = Some t' /\ wf t' /\
    items root = (litems tot p ++ items c0) ++ (x, tot - total_of c0 - total_of c1) :: (items c1 ++ ritems tot p) /\
    items t' = (litems tot p ++ items c0) ++ (items c1 ++ ritems tot p).
Proof.
  intros [Ha Hs] Hr.
  assert (Hitems : items root = (litems tot p ++ items c0) ++ (x, tot - total_of c0 - total_of c1) :: (items c1 ++ ritems tot p)).
  { rewrite Hr, items_plug. cbn [items total_of]. same_items. }
  assert (Hfin : forall t', avl t' -> items t' = litems tot p ++ (items c0 ++ items c1) ++ ritems tot p ->
    wf t' /\ items t' = (litems tot p ++ items c0) ++ (items c1 ++ ritems tot p)).
  { intros t' Ha' Hi'. rewrite <- !app_assoc in *. split; [|exact Hi']. split; [exact Ha'|].
    rewrite Hi'. rewrite Hitems in Hs. rewrite !app_assoc in *. rewrite <- (app_assoc _ (items c1)) in *. apply sorted_mid in Hs as (S1 & S2 & B & A).
    apply sorted_app. repeat split; auto. intros i j Hi Hj.
    eapply compare_trans; [exact (proj1 (Forall_forall _ _) B i Hi)|exact (proj1 (Forall_forall _ _) A j Hj)]. }
  rewrite Hr in Ha. destruct (is_nil c0 || is_nil c1) eqn:E.
  - destruct (erase_leafish x b tot c0 c1 p E Ha) as (t' & Hu & Ha' & Hi').
    exists t'. cbn [erase]. rewrite E, node_metric_eq. destruct (Hfin t' Ha' Hi'). auto.
  - destruct (erase_inner x b tot c0 c1 p root E Ha) as (t' & Hu & Ha' & Hi').
    exists t'. destruct (Hfin t' Ha' Hi'). auto.
Qed.

End Invariants.
