(* ===== verification/IndexedSetQueries.v ===== *)
(** IndexedSet.h: iterators, searches and metric queries, as positions in the
    sequence of items, and the properties of the whole component. *)

From Stdlib Require Import ZArith List Lia Bool.
From S2P Require Import Prelude IndexedSet IndexedSetProofs.
Import ListNotations.
#[local] Open Scope Z_scope.

Section Queries.

Context {T : Type} `{CompareLaws T}.
Implicit Types (t root : @tree T) (p : @path T) (i : @iterator T).

(** An iterator into [root]. *)
Definition valid root i : Prop :=
  match i with None => True | Some (t, p) => plug t p = root /\ t <> Nil end.

(** The items before an iterator and from it on. *)
Definition before root i : list (T * Z) :=
  match i with
  | None => items root
  | Some (t, p) => litems (total_of t) p ++ items (child t false)
  end.
Definition from root i : list (T * Z) :=
  match i with
  | None => []
  | Some (Nil, _) => []
  | Some (Node x _ tot c0 c1, p) => (x, tot - total_of c0 - total_of c1) :: items c1 ++ ritems tot p
  end.

Lemma valid_split root i : valid root i -> items root = before root i ++ from root i.
Proof.
  destruct i as [[[|x b tot c0 c1] p]|]; cbn [valid before from]; [intros [_ []]; reflexivity|intros [<- _]|now rewrite app_nil_r].
  rewrite items_plug. cbn [items total_of child]. now rewrite <- !app_assoc.
Qed.

Lemma sum_app l r : sum_metrics (l ++ r) = sum_metrics l + @sum_metrics T r.
Proof. unfold sum_metrics. induction l as [|i l IH]; cbn [app fold_right]; [lia|]. rewrite IH. lia. Qed.

Lemma sum_up_ok p m th : sum_up m th p = m + sum_metrics (litems th p).
Proof.
  revert m th. induction p as [|[d x b tot sib] p IH]; intros m th; cbn [sum_up litems ftot fdir]; [cbn; lia|].
  rewrite IH, sum_app. destruct d; [|cbn; lia]. rewrite sum_app, <- total_items. cbn. lia.
Qed.

Lemma sumTo_before root i : valid root i -> sumTo root i = sum_metrics (before root i).
Proof.
  destruct i as [[t p]|]; cbn [sumTo before valid]; intros Hv.
  - rewrite sum_up_ok, sum_app, <- total_items. lia.
  - apply total_items.
Qed.

(** ** Moving *)

Lemma valid_down root x b tot c0 c1 p (d : bool) : plug (Node x b tot c0 c1) p = root ->
  plug (if d then c1 else c0) (mkF d x b tot (if d then c0 else c1) :: p) = root.
Proof. intros <-. destruct d; reflexivity. Qed.

(** [ascend]: climbing out of [t] on the side of [d]. *)
Lemma ascend_right root t p : plug t p = root -> t <> Nil ->
  let i := ascend true t p in
  valid root i /\ before root i = litems (total_of t) p ++ items t /\ from root i = ritems (total_of t) p.
Proof.
  revert t. induction p as [|[d x b tot sib] p IH]; intros t Hp Ht; cbn [ascend].
  - cbn in *. subst. rewrite ?app_nil_r. auto.
  - cbn [plug] in Hp. destruct d; cbn [fdir Bool.eqb].
    + destruct (IH _ Hp) as (Hv & Hb & Hf); [discriminate|]. rewrite Hb, Hf. unfold plug_frame.
      cbn [fdir fdata fbal ftot fsib mknode total_of items litems ritems]. repeat split; auto.
      replace (tot - total_of sib - total_of t) with (tot - total_of t - total_of sib) by lia. now rewrite <- !app_assoc.
    + cbn [valid before from]. unfold plug_frame in *. cbn [fdir fdata fbal ftot fsib mknode total_of child litems ritems] in *.
      rewrite app_nil_r. repeat split; auto. discriminate.
Qed.

Lemma ascend_left root t p : plug t p = root -> t <> Nil ->
  match ascend false t p with
  | None => litems (total_of t) p = []
  | Some (u, q) => valid root (Some (u, q)) /\
      exists it, litems (total_of t) p = before root (Some (u, q)) ++ [it] /\
        from root (Some (u, q)) = it :: items t ++ ritems (total_of t) p
  end.
Proof.
  revert t. induction p as [|[d x b tot sib] p IH]; intros t Hp Ht; cbn [ascend]; [reflexivity|].
  cbn [plug] in Hp. destruct d; cbn [fdir Bool.eqb].
  - unfold plug_frame in *. cbn [fdir fdata fbal ftot fsib mknode litems ritems] in *.
    split; [split; [exact Hp|discriminate]|]. cbn [before from child total_of].
    exists (x, tot - total_of t - total_of sib). split; [now rewrite <- app_assoc|].
    replace (tot - total_of sib - total_of t) with (tot - total_of t - total_of sib) by lia. reflexivity.
  - specialize (IH _ Hp ltac:(discriminate)). unfold plug_frame in *.
    cbn [fdir fdata fbal ftot fsib mknode total_of litems ritems items] in *. rewrite app_nil_r.
    destruct (ascend false _ p) as [[u q]|]; [|exact IH]. destruct IH as (Hv & it & Hl & Hf). split; [exact Hv|].
    exists it. split; [exact Hl|]. rewrite Hf. now rewrite <- !app_assoc.
Qed.

Lemma extreme_left root t p : plug t p = root -> t <> Nil ->
  let '(u, q) := extreme false t p in
  valid root (Some (u, q)) /\ before root (Some (u, q)) = litems (total_of t) p /\
  from root (Some (u, q)) = items t ++ ritems (total_of t) p.
Proof.
  intros Hp Ht. destruct (extreme_ok false t p Ht) as (u & q & -> & Hu & Hn & Hc & Hq).
  assert (Hv : valid root (Some (u, q ++ p))) by (split; [now rewrite plug_app, Hu|exact Hn]).
  split; [exact Hv|]. pose proof (valid_split _ _ Hv) as Hs. cbn [before] in *.
  rewrite Hc, litems_app, Hu, (litems_left _ q Hq) in *. cbn [items] in *. rewrite !app_nil_r in *.
  split; [reflexivity|]. rewrite <- Hp, items_plug in Hs. symmetry. now apply app_inv_head in Hs.
Qed.

Lemma extreme_right root t p : plug t p = root -> t <> Nil ->
  let '(u, q) := extreme true t p in
  valid root (Some (u, q)) /\
  exists it, before root (Some (u, q)) ++ [it] = litems (total_of t) p ++ items t /\
    from root (Some (u, q)) = it :: ritems (total_of t) p.
Proof.
  intros Hp Ht. destruct (extreme_ok true t p Ht) as (u & q & -> & Hu & Hn & Hc & Hq).
  assert (Hv : valid root (Some (u, q ++ p))) by (split; [now rewrite plug_app, Hu|exact Hn]).
  split; [exact Hv|]. pose proof (valid_split _ _ Hv) as Hs.
  destruct u as [|x b tot c0 c1]; [congruence|]. cbn [child] in Hc. subst c1.
  exists (x, tot - total_of c0 - total_of (@Nil T)).
  cbn [from items app]. cbn [from items app] in Hs.
  assert (Hr : ritems (total_of (Node x b tot c0 Nil)) (q ++ p) = ritems (total_of t) p)
    by (rewrite ritems_app, Hu, (ritems_right _ q Hq); reflexivity).
  cbn [total_of] in Hr. rewrite Hr in *. split; [|reflexivity].
  rewrite <- Hp, items_plug in Hs. cbn [total_of] in *.
  apply (app_inv_tail (ritems (total_of t) p)). rewrite <- !app_assoc. cbn [app]. symmetry. exact Hs.
Qed.

(** [++it] moves past exactly one item. *)
Lemma next_ok root t p : valid root (Some (t, p)) ->
  exists it, from root (Some (t, p)) = it :: from root (moveIterator true t p) /\
    before root (moveIterator true t p) = before root (Some (t, p)) ++ [it] /\
    valid root (moveIterator true t p).
Proof.
  intros [Hp Ht]. destruct t as [|x b tot c0 c1]; [congruence|]. cbn [moveIterator child negb].
  exists (x, tot - total_of c0 - total_of c1). cbn [from before child total_of].
  destruct c1 as [|y nb nt a e] eqn:E.
  - destruct (ascend_right root _ p Hp) as (Hv & Hb & Hf); [discriminate|]. rewrite Hb, Hf.
    cbn [items total_of app]. rewrite <- !app_assoc. auto.
  - rewrite <- E in *. pose proof (extreme_left root c1 (mkF true x b tot c0 :: p) (valid_down _ _ _ _ _ _ _ true Hp)) as Hx.
    destruct (extreme false c1 _) as [u q]. destruct Hx as (Hv & Hb & Hf); [subst; discriminate|].
    rewrite Hb, Hf. cbn [litems ritems app].
    replace (tot - total_of c1 - total_of c0) with (tot - total_of c0 - total_of c1) by lia.
    rewrite <- !app_assoc. auto.
Qed.

(** The predecessor of a node, or the end when it is the first. *)
Lemma prev_ok root t p : valid root (Some (t, p)) ->
  match moveIterator false t p with
  | None => before root (Some (t, p)) = []
  | Some (u, q) => valid root (Some (u, q)) /\ exists it,
      before root (Some (t, p)) = before root (Some (u, q)) ++ [it] /\
      from root (Some (u, q)) = it :: from root (Some (t, p))
  end.
Proof.
  intros [Hp Ht]. destruct t as [|x b tot c0 c1]; [congruence|]. cbn [moveIterator child negb].
  change (before root (Some (Node x b tot c0 c1, p))) with (litems tot p ++ items c0).
  change (from root (Some (Node x b tot c0 c1, p)))
    with ((x, tot - total_of c0 - total_of c1) :: items c1 ++ ritems tot p).
  destruct c0 as [|y nb nt a e] eqn:E.
  - cbn [items]. rewrite app_nil_r. pose proof (ascend_left root _ p Hp ltac:(discriminate)) as Ha.
    destruct (ascend false _ p) as [[u q]|]; [|exact Ha]. destruct Ha as (Hv & it & Hl & Hf). split; [exact Hv|].
    exists it. split; [exact Hl|]. rewrite Hf. reflexivity.
  - rewrite <- E in *. pose proof (extreme_right root c0 (mkF false x b tot c1 :: p) (valid_down _ _ _ _ _ _ _ false Hp)) as Hx.
    destruct (extreme true c0 _) as [u q]. destruct Hx as (Hv & it & Hb & Hf); [subst; discriminate|].
    split; [exact Hv|]. exists it. rewrite Hb, Hf. cbn [litems ritems app].
    rewrite app_nil_r. auto.
Qed.

Lemma begin_ok root : valid root (begin root) /\ before root (begin root) = [] /\ from root (begin root) = items root.
Proof.
  destruct root as [|x b tot c0 c1] eqn:E; [repeat split|]. rewrite <- E.
  assert (Hbeg : begin root = Some (extreme false root [])) by (subst; reflexivity). rewrite Hbeg.
  pose proof (extreme_left root root [] eq_refl ltac:(subst; discriminate)) as Hx.
  destruct (extreme false root []) as [u q]. destruct Hx as (Hv & Hb & Hf). rewrite Hb, Hf. cbn. rewrite app_nil_r. auto.
Qed.

Lemma lastItem_ok root : valid root (lastItem root) /\
  match lastItem root with
  | None => items root = []
  | i => exists it, items root = before root i ++ [it] /\ from root i = [it]
  end.
Proof.
  destruct root as [|x b tot c0 c1] eqn:E; [repeat split|]. rewrite <- E.
  assert (Hl : lastItem root = Some (extreme true root [])) by (subst; reflexivity). rewrite Hl.
  pose proof (extreme_right root root [] eq_refl ltac:(subst; discriminate)) as Hx.
  destruct (extreme true root []) as [u q]. destruct Hx as (Hv & it & Hb & Hf). split; [exact Hv|].
  exists it. rewrite Hb, Hf. auto.
Qed.

(** [previous] steps back over one item, from the end too. *)
Lemma previous_ok root i : valid root i -> before root i <> [] ->
  exists it, from root (previous root i) = it :: from root i /\
    before root i = before root (previous root i) ++ [it] /\ valid root (previous root i) /\ previous root i <> None.
Proof.
  destruct i as [[t p]|]; intros Hv Hne; cbn [previous].
  - pose proof (prev_ok root t p Hv) as Hp. destruct (moveIterator false t p) as [[u q]|]; [|contradiction].
    destruct Hp as (Hv' & it & Hb & Hf). exists it. rewrite Hf. repeat split; auto; try apply Hv'. discriminate.
  - destruct (lastItem_ok root) as [Hv' Hl]. cbn [before] in *. destruct (lastItem root) as [[u q]|]; [|contradiction].
    destruct Hl as (it & Hb & Hf). exists it. rewrite Hf. repeat split; auto; try apply Hv'. discriminate.
Qed.

(** ** Searching *)

(** The key-sorted items split where the predicate turns false. *)
Section Bound.
Context (right : T -> bool).
Hypothesis right_mono : forall x y, compare x y = Lt -> right y = true -> right x = true.

Definition all_right (l : list (T * Z)) : Prop := Forall (fun it => right (fst it) = true) l.
Definition none_right (l : list (T * Z)) : Prop := Forall (fun it => right (fst it) = false) l.

Lemma below_right x l : below x l -> right x = true -> all_right l.
Proof. intros Hb Hx. eapply Forall_impl; [|exact Hb]. intros it Hi. exact (right_mono _ _ Hi Hx). Qed.

Lemma above_right x l : above x l -> right x = false -> none_right l.
Proof.
  intros Hb Hx. eapply Forall_impl; [|exact Hb]. intros it Hi.
  destruct (right (fst it)) eqn:E; [|reflexivity]. rewrite (right_mono x (fst it) Hi E) in Hx. discriminate.
Qed.

Lemma bound_at_ok root t : forall p, plug t p = root -> t <> Nil -> sorted (items t) ->
  all_right (litems (total_of t) p) -> none_right (ritems (total_of t) p) ->
  let i := bound_at right t p in
  valid root i /\ all_right (before root i) /\ none_right (from root i).
Proof.
  induction t as [|x b tot c0 IH0 c1 IH1]; intros p Hp Ht Hs Hl Hr; [congruence|]. cbn [bound_at].
  cbn [items total_of] in *. apply sorted_mid in Hs as (S0 & S1 & B & A).
  destruct (right x) eqn:E.
  - assert (Hnext : all_right (litems tot p ++ items c0 ++ [(x, tot - total_of c1 - total_of c0)])).
    { apply Forall_app. split; [exact Hl|]. apply Forall_app. split; [eapply below_right; eauto|repeat constructor; exact E]. }
    destruct c1 as [|y nb nt a e] eqn:E1.
    + destruct (next_ok root (Node x b tot c0 Nil) p) as (it & Hf & Hb & Hv); [split; [exact Hp|discriminate]|].
      cbv zeta. split; [exact Hv|]. remember (moveIterator true (Node x b tot c0 Nil) p) as i' eqn:Ei. clear Ei.
      change (from root (Some (Node x b tot c0 Nil, p)))
        with ((x, tot - total_of c0 - total_of (@Nil T)) :: ritems tot p) in Hf.
      injection Hf as <- Hf. rewrite Hb, <- Hf.
      cbn [before child total_of]. rewrite <- app_assoc. split; [|exact Hr].
      cbn [total_of] in Hnext. rewrite !Z.sub_0_r in *. exact Hnext.
    + rewrite <- E1 in *. apply (IH1 (mkF true x b tot c0 :: p)); auto; subst; discriminate.
  - assert (Hnext : none_right (((x, tot - total_of c0 - total_of c1) :: items c1) ++ ritems tot p)).
    { apply Forall_app. split; [|exact Hr]. constructor; [exact E|eapply above_right; eauto]. }
    destruct c0 as [|y nb nt a e] eqn:E0.
    + cbv zeta. split; [split; [exact Hp|discriminate]|]. cbn [before child items from total_of]. rewrite app_nil_r. auto.
    + rewrite <- E0 in *. apply (IH0 (mkF false x b tot c1 :: p)); auto; try (subst; discriminate).
      cbn [litems]. now rewrite app_nil_r.
Qed.

Lemma bound_ok root : sorted (items root) ->
  let i := bound_at right root [] in
  valid root i /\ all_right (before root i) /\ none_right (from root i).
Proof.
  intros Hs. destruct root as [|x b tot c0 c1]; [repeat split; constructor|].
  apply bound_at_ok; auto; [discriminate|constructor|constructor].
Qed.
End Bound.

Lemma lower_bound_ok root key : wf root ->
  let i := lower_bound root key in
  valid root i /\ Forall (fun it => compare (fst it) key = Lt) (before root i) /\
  Forall (fun it => compare (fst it) key <> Lt) (from root i).
Proof.
  intros [_ Hs]. unfold lower_bound.
  destruct (bound_ok (fun x => ltb (compare x key))) with (root := root) as (Hv & Hb & Hf); auto.
  { intros x y Hxy. destruct (compare y key) eqn:E; try discriminate. intros _. now rewrite (compare_trans _ _ _ Hxy E). }
  cbv zeta. split; [exact Hv|]. split.
  - eapply Forall_impl; [|exact Hb]. cbv beta. intros it. destruct (compare _ _); cbn; congruence.
  - eapply Forall_impl; [|exact Hf]. cbv beta. intros it. destruct (compare _ _); cbn; congruence.
Qed.

Lemma upper_bound_ok root key : wf root ->
  let i := upper_bound root key in
  valid root i /\ Forall (fun it => compare key (fst it) <> Lt) (before root i) /\
  Forall (fun it => compare key (fst it) = Lt) (from root i).
Proof.
  intros [_ Hs]. unfold upper_bound.
  destruct (bound_ok (fun x => negb (ltb (compare key x)))) with (root := root) as (Hv & Hb & Hf); auto.
  { intros x y Hxy. destruct (compare key x) eqn:E; cbn; auto. now rewrite (compare_trans _ _ _ E Hxy). }
  cbv zeta. split; [exact Hv|]. split.
  - eapply Forall_impl; [|exact Hb]. cbv beta. intros it. destruct (compare _ _); cbn; congruence.
  - eapply Forall_impl; [|exact Hf]. cbv beta. intros it. destruct (compare _ _); cbn; congruence.
Qed.

Lemma find_at_ok root key t : forall p, plug t p = root -> sorted (items t) ->
  below key (litems (total_of t) p) -> above key (ritems (total_of t) p) ->
  match find_at key t p with
  | None => forall m, ~ In (key, m) (items root)
  | Some (u, q) => valid root (Some (u, q)) /\ exists m r, from root (Some (u, q)) = (key, m) :: r
  end.
Proof.
  induction t as [|x b tot c0 IH0 c1 IH1]; intros p Hp Hs Hl Hr; cbn [find_at].
  - intros m Hin. rewrite <- Hp, items_plug in Hin. cbn [items app] in Hin. apply in_app_iff in Hin as [Hin|Hin].
    + apply (proj1 (Forall_forall _ _) Hl) in Hin. cbn in Hin. rewrite compare_refl in Hin. discriminate.
    + apply (proj1 (Forall_forall _ _) Hr) in Hin. cbn in Hin. rewrite compare_refl in Hin. discriminate.
  - cbn [items total_of] in *. apply sorted_mid in Hs as (S0 & S1 & B & A).
    destruct (compare key x) eqn:E.
    + apply compare_eq in E as ->. split; [split; [exact Hp|discriminate]|]. cbn [from]. eauto.
    + apply (IH0 (mkF false x b tot c1 :: p)); auto.
      * cbn [litems]. now rewrite app_nil_r.
      * cbn [ritems app]. constructor; [exact E|]. apply above_app. split; [eapply above_trans; eauto|exact Hr].
    + apply compare_gt in E. apply (IH1 (mkF true x b tot c0 :: p)); auto.
      * cbn [litems]. apply below_app. split; [exact Hl|]. apply below_app. split; [eapply below_trans; eauto|].
        repeat constructor. exact E.
Qed.

Lemma find_ok root key : wf root ->
  match find root key with
  | None => forall m, ~ In (key, m) (items root)
  | Some (u, q) => valid root (Some (u, q)) /\ exists m r, from root (Some (u, q)) = (key, m) :: r
  end.
Proof. intros [_ Hs]. apply (find_at_ok root key root []); auto; constructor. Qed.

(** ** Finding a position by metric *)

Definition nonneg (l : list (T * Z)) : Prop := Forall (fun it => 0 <= snd it) l.

Lemma sum_nonneg l : nonneg l -> 0 <= sum_metrics l.
Proof. unfold sum_metrics. induction 1; cbn [fold_right]; lia. Qed.

(** [i] is the first item with a prefix sum, itself included, above [metric]. *)
Definition first_above root (metric : Z) i : Prop :=
  valid root i /\ (before root i = [] \/ sum_metrics (before root i) <= metric) /\
  match from root i with
  | [] => i = None
  | it :: _ => metric < sum_metrics (before root i) + snd it
  end.

Lemma index_at_ok root metric t : nonneg (items root) -> forall p m,
  plug t p = root -> m = metric - sum_metrics (litems (total_of t) p) -> nonneg (items t) ->
  (t <> Nil \/ 0 <= m) -> (litems (total_of t) p = [] \/ 0 <= m) ->
  if m <? total_of t then index_at m t p <> None /\ first_above root metric (index_at m t p)
  else index_at m t p = None.
Proof.
  intros Hroot. induction t as [|x b tot c0 IH0 c1 IH1]; intros p m Hp Hm Hn Ht Hl; cbn [index_at total_of] in *.
  { rewrite (proj2 (Z.ltb_ge m 0)); [reflexivity|]. destruct Ht; [congruence|assumption]. }
  cbn [items] in Hn. apply Forall_app in Hn as [N0 N1]. pose proof (Forall_inv N1) as Nx. pose proof (Forall_inv_tail N1) as N2.
  cbn [snd] in Nx. subst m.
  pose proof (sum_nonneg _ N0) as T0. pose proof (sum_nonneg _ N2) as T1. rewrite <- total_items in T0, T1.
  destruct (negb (is_nil c0) && _) eqn:E.
  - apply andb_true_iff in E as [E1 E2]. apply Z.ltb_lt in E2.
    specialize (IH0 (mkF false x b tot c1 :: p) (metric - sum_metrics (litems tot p)) Hp).
    cbn [litems] in IH0. rewrite app_nil_r in IH0.
    rewrite (proj2 (Z.ltb_lt _ tot)) by lia. rewrite (proj2 (Z.ltb_lt _ (total_of c0))) in IH0 by lia.
    apply IH0; auto. left. destruct c0; [discriminate|congruence].
  - set (m := metric - sum_metrics (litems tot p)) in *.
    assert (E0 : c0 = Nil \/ total_of c0 <= m).
    { destruct c0; [auto|right]. cbn [is_nil negb andb] in E. now apply Z.ltb_ge in E. }
    assert (Em : (if is_nil c1 then m - tot else m - tot + total_of c1) = m - tot + total_of c1)
      by (destruct c1; cbn [is_nil total_of]; lia).
    rewrite Em. destruct (Z.ltb_spec (m - tot + total_of c1) 0) as [E1|E1].
    + rewrite (proj2 (Z.ltb_lt m tot)) by lia. split; [discriminate|].
      split; [split; [exact Hp|discriminate]|]. cbn [before from child total_of snd]. rewrite sum_app, <- total_items.
      split; [|unfold m in *; lia].
      destruct E0 as [-> |E0]; [cbn [items total_of]; rewrite app_nil_r; destruct Hl; [auto|right; unfold m in *; lia]|].
      right. unfold m in *. lia.
    + specialize (IH1 (mkF true x b tot c0 :: p) (m - tot + total_of c1) Hp). cbn [litems] in IH1.
      destruct (Z.ltb_spec m tot) as [E2|E2].
      * rewrite (proj2 (Z.ltb_lt _ (total_of c1))) in IH1 by lia. apply IH1; auto.
        rewrite !sum_app, <- total_items. unfold m. cbn. lia.
      * rewrite (proj2 (Z.ltb_ge _ (total_of c1))) in IH1 by lia. apply IH1; auto.
        rewrite !sum_app, <- total_items. unfold m. cbn. lia.
Qed.

Lemma index_ok root metric : nonneg (items root) -> first_above root metric (index root metric) /\
  (index root metric = None -> items root = [] \/ sum_metrics (items root) <= metric).
Proof.
  intros Hn. unfold index. destruct root as [|x b tot c0 c1] eqn:E.
  - cbn. repeat split; auto.
  - rewrite <- E in *. pose proof (index_at_ok root metric root Hn [] metric eq_refl) as Hi. cbn [litems] in Hi.
    specialize (Hi ltac:(cbn; lia) Hn ltac:(left; subst; discriminate) (or_introl eq_refl)).
    rewrite total_items in Hi. destruct (Z.ltb_spec metric (sum_metrics (items root))) as [L|L].
    + destruct Hi as [H1 H2]. split; [exact H2|congruence].
    + rewrite Hi. split; [|auto]. split; [exact I|]. cbn [before from]. auto.
Qed.

(** ** The last item not above a key *)

Lemma extreme_plug (d : bool) t p r : t <> Nil -> Forall (fun f => fdir f = d) p ->
  extreme d (plug t p) r = extreme d t (p ++ r).
Proof.
  intros Ht Hp. revert t Ht. induction Hp as [|[d' x b tot sib] p Hd _ IH]; intros t Ht; [reflexivity|].
  cbn [plug app fdir] in *. subst d'. rewrite IH by (unfold plug_frame; destruct d; discriminate).
  unfold plug_frame. cbn [fdir fdata fbal ftot fsib]. destruct t; [congruence|]. destruct d; reflexivity.
Qed.

Lemma litems_nil th p : litems th p = [] -> Forall (fun f => fdir f = false) p.
Proof.
  revert th. induction p as [|[d x b tot sib] p IH]; intros th Hl; [constructor|]. cbn [litems] in Hl.
  apply app_eq_nil in Hl as [H1 H2]. destruct d; [now apply app_eq_nil in H2|]. constructor; eauto.
Qed.

(** The only iterator with nothing before it is [begin]. *)
Lemma begin_unique root i : valid root i -> before root i = [] -> same_node i (begin root) = true.
Proof.
  destruct i as [[t p]|]; cbn [valid before].
  - intros [Hp Ht] Hb. apply app_eq_nil in Hb as [Hl Hc]. apply litems_nil in Hl.
    assert (Hx : extreme false root [] = (t, p)).
    { rewrite <- Hp, extreme_plug, app_nil_r by assumption. destruct t as [|x b tot [|] c1]; [congruence|reflexivity|].
      cbn [child items] in Hc. now apply app_eq_nil in Hc. }
    assert (Hr : begin root = Some (t, p)).
    { unfold begin. destruct root; [|now rewrite Hx]. cbn in Hx. congruence. }
    rewrite Hr. cbn [same_node]. rewrite Nat.eqb_refl. cbn [andb]. apply forallb_forall. intros [f g] Hin.
    assert (Hfg : f = g) by (clear - Hin; induction p; cbn in *; [contradiction|]; destruct Hin as [[= <- <-]|]; auto).
    subst. now destruct (fdir g).
  - destruct root as [|x b tot c0 c1]; [reflexivity|]. intros _ Hi. cbn [items] in Hi. now apply app_eq_nil in Hi.
Qed.

Lemma same_begin root i : valid root i -> same_node i (begin root) = true -> before root i = [].
Proof.
  destruct i as [[t p]|]; cbn [valid before].
  - intros [Hp Ht] Hs. unfold begin in Hs. destruct root as [|x b tot c0 c1] eqn:E; [discriminate|]. rewrite <- E in *.
    destruct (extreme_ok false root []) as (u & q & Hx & Hu & Hun & Huc & Hq); [subst; discriminate|].
    rewrite Hx, app_nil_r in Hs. cbn [same_node] in Hs. apply andb_true_iff in Hs as [Hlen Hdirs].
    apply Nat.eqb_eq in Hlen.
    assert (Hpf : Forall (fun f => fdir f = false) p).
    { clear - Hlen Hdirs Hq. revert q Hlen Hdirs Hq. induction p as [|f p IH]; intros [|g q] Hlen Hdirs Hq; try discriminate; [constructor|].
      cbn in Hlen, Hdirs. injection Hlen as Hlen. apply andb_true_iff in Hdirs as [Hd Hdirs]. inversion Hq; subst.
      constructor; [destruct (fdir f), (fdir g); cbn in Hd; congruence|]. eapply IH; eauto. }
    rewrite litems_left by exact Hpf.
    assert (Hxp : extreme false t p = (u, q)).
    { rewrite <- (app_nil_r p), <- extreme_plug, Hp by assumption. now rewrite app_nil_r in Hx. }
    destruct (extreme_ok false t p Ht) as (u' & q' & Hx' & Hu' & _ & Hc' & _). rewrite Hxp in Hx'. injection Hx' as <- Hq'.
    assert (q' = []) as -> by (apply length_zero_iff_nil; apply (f_equal (@length _)) in Hq'; rewrite length_app in Hq'; lia).
    cbn in Hu'. subst u. cbn [app]. now rewrite Hc'.
  - destruct root as [|x b tot c0 c1]; [reflexivity|]. intros _ Hs. cbn in Hs. discriminate.
Qed.

Lemma lastLessOrEqual_ok root key : wf root ->
  let i := lastLessOrEqual root key in
  valid root i /\
  match i with
  | None => Forall (fun it => compare key (fst it) = Lt) (items root)
  | _ => exists it, from root i = it :: from root (upper_bound root key) /\
           before root (upper_bound root key) = before root i ++ [it] /\ compare key (fst it) <> Lt
  end.
Proof.
  intros Hw. destruct (upper_bound_ok root key Hw) as (Hv & Hb & Hf). unfold lastLessOrEqual.
  destruct (same_node _ _) eqn:E.
  - apply same_begin in E; [|exact Hv]. split; [exact I|]. rewrite (valid_split _ _ Hv), E. exact Hf.
  - assert (Hne : before root (upper_bound root key) <> []) by (intros Hn; rewrite begin_unique in E; congruence).
    destruct (previous_ok root _ Hv Hne) as (it & Hf' & Hb' & Hv' & Hnn).
    cbv zeta. split; [exact Hv'|]. destruct (previous root _) as [[u q]|]; [|congruence].
    exists it. repeat split; auto. rewrite Hb' in Hb. apply Forall_app in Hb as [_ Hb]. now inversion Hb.
Qed.

(** ** The set as a sorted sequence *)

Definition is_key (key : T) (it : T * Z) : bool := match compare (fst it) key with Eq => true | _ => false end.
Definition lerase (key : T) (l : list (T * Z)) : list (T * Z) := filter (fun it => negb (is_key key it)) l.
Definition lmetric (key : T) (l : list (T * Z)) : option Z := option_map snd (List.find (is_key key) l).

Lemma is_key_spec key it : is_key key it = true <-> fst it = key.
Proof. unfold is_key. pose proof (compare_eq (fst it) key). destruct (compare _ _); intuition discriminate. Qed.

Lemma lerase_none key l : Forall (fun it => fst it <> key) l -> lerase key l = l.
Proof.
  unfold lerase. induction 1 as [|it l Hi _ IH]; [reflexivity|]. cbn [filter].
  destruct (is_key key it) eqn:E; [apply is_key_spec in E; contradiction|]. cbn. now rewrite IH.
Qed.

Lemma below_neq key l : below key l -> Forall (fun it => fst it <> key) l.
Proof. apply Forall_impl. intros it Hi E. cbv beta in Hi. rewrite E, compare_refl in Hi. discriminate. Qed.

Lemma above_neq key l : above key l -> Forall (fun it => fst it <> key) l.
Proof. apply Forall_impl. intros it Hi E. cbv beta in Hi. rewrite E, compare_refl in Hi. discriminate. Qed.

Lemma erase_key_ok root key : wf root ->
  exists t', erase_key root key = Some t' /\ wf t' /\ items t' = lerase key (items root).
Proof.
  intros Hw. unfold erase_key. pose proof (find_ok root key Hw) as Hf. destruct (find root key) as [[t p]|].
  - destruct Hf as ([Hp Ht] & m & r & Hfrom). destruct t as [|x b tot c0 c1]; [congruence|].
    cbn [from] in Hfrom. injection Hfrom as -> _ _.
    destruct (erase_ok root key b tot c0 c1 p Hw (eq_sym Hp)) as (t' & -> & Hw' & Hi & Hi').
    exists t'. repeat split; try apply Hw'. rewrite Hi', Hi. destruct Hw as [_ Hs]. rewrite Hi in Hs.
    apply sorted_mid in Hs as (_ & _ & B & A). unfold lerase. rewrite filter_app. cbn [filter].
    rewrite (proj2 (is_key_spec key (key, _)) eq_refl). cbn [negb].
    fold (lerase key (litems tot p ++ items c0)) (lerase key (items c1 ++ ritems tot p)).
    rewrite !lerase_none by (apply below_neq, B || apply above_neq, A). reflexivity.
  - exists root. repeat split; try apply Hw. symmetry. apply lerase_none. apply Forall_forall.
    intros [x m] Hin E. cbn in E. subst. exact (Hf m Hin).
Qed.

Lemma lmetric_split key m l r : below key l -> lmetric key (l ++ (key, m) :: r) = Some m.
Proof.
  unfold lmetric. induction 1 as [|it l Hi _ IH]; cbn [app List.find].
  - now rewrite (proj2 (is_key_spec key (key, m)) eq_refl).
  - destruct (is_key key it) eqn:E; [|exact IH]. apply is_key_spec in E. rewrite E, compare_refl in Hi. discriminate.
Qed.

Lemma lmetric_none key l : (forall m, ~ In (key, m) l) -> lmetric key l = None.
Proof.
  unfold lmetric. intros Hn. destruct (List.find (is_key key) l) as [[x m]|] eqn:E; [|reflexivity].
  apply find_some in E as [Hin Hk]. apply is_key_spec in Hk. cbn in Hk. subst. exfalso. exact (Hn m Hin).
Qed.

Lemma getMetric_ok root key : wf root ->
  match find root key with
  | None => lmetric key (items root) = None
  | i => exists m, getMetric i = Some m /\ lmetric key (items root) = Some m
  end.
Proof.
  intros Hw. pose proof (find_ok root key Hw) as Hf. destruct (find root key) as [[t p]|]; [|now apply lmetric_none].
  destruct Hf as (Hv & m & r & Hfrom). exists m.
  rewrite (valid_split _ _ Hv), Hfrom. destruct Hw as [_ Hs]. rewrite (valid_split _ _ Hv), Hfrom in Hs.
  apply sorted_mid in Hs as (_ & _ & B & _). split; [|now apply lmetric_split].
  destruct t as [|x b tot c0 c1]; [discriminate|]. cbn [from getMetric] in *. rewrite node_metric_eq. congruence.
Qed.

Lemma addMetric_ok root x m : wf root ->
  let s := m + match lmetric x (items root) with Some g => g | None => 0 end in
  exists t', addMetric root x m = Some (s, t') /\ wf t' /\ items t' = linsert x s true (items root).
Proof.
  intros Hw s. unfold addMetric. pose proof (getMetric_ok root x Hw) as Hg.
  destruct (find root x) as [i|].
  - destruct Hg as (g & Hg & Hl). rewrite Hg. unfold s. rewrite Hl. cbn [bind].
    destruct (insert_ok x (m + g) true root Hw) as (t' & -> & Hw' & Hi). exists t'. auto.
  - unfold s. rewrite Hg. replace (m + 0) with m by lia.
    destruct (insert_ok x m true root Hw) as (t' & -> & Hw' & Hi). exists t'. auto.
Qed.

(** Walking [n] times with [++], collecting the items passed. *)
Fixpoint visit (n : nat) (i : @iterator T) : list (T * Z) * @iterator T :=
  match n, i with
  | S n, Some (Node x b tot c0 c1 as t, p) =>
      let '(l, j) := visit n (moveIterator true t p) in ((x, node_metric t) :: l, j)
  | _, _ => ([], i)
  end.

Lemma visit_ok root n : forall i, valid root i -> length (from root i) = n -> visit n i = (from root i, None).
Proof.
  induction n as [|n IH]; intros i Hv Hl.
  - destruct i as [[[|x b tot c0 c1] p]|]; [destruct Hv; congruence|discriminate|reflexivity].
  - destruct i as [[t p]|]; [|discriminate]. destruct (next_ok root t p Hv) as (it & Hf & _ & Hv').
    destruct t as [|x b tot c0 c1]; [discriminate|]. cbn [visit]. rewrite Hf in Hl |- *. cbn [length] in Hl.
    rewrite IH by (auto; lia). rewrite node_metric_eq.
    change (from root (Some (Node x b tot c0 c1, p)))
      with ((x, tot - total_of c0 - total_of c1) :: items c1 ++ ritems tot p) in Hf.
    injection Hf as <- _. reflexivity.
Qed.

Lemma visit_all root : visit (length (items root)) (begin root) = (items root, None).
Proof.
  destruct (begin_ok root) as (Hv & _ & Hf). rewrite <- Hf. apply visit_ok; [exact Hv|reflexivity].
Qed.

(** The items between two keys. *)
Lemma filter_all {A} (f : A -> bool) l : Forall (fun x => f x = true) l -> filter f l = l.
Proof. induction 1 as [|x l Hx _ IH]; [reflexivity|]. cbn. now rewrite Hx, IH. Qed.

Lemma filter_none {A} (f : A -> bool) l : Forall (fun x => f x = false) l -> filter f l = [].
Proof. induction 1 as [|x l Hx _ IH]; [reflexivity|]. cbn. now rewrite Hx, IH. Qed.

Lemma lower_bounds_between root a b : wf root -> compare a b <> Gt ->
  exists M, before root (lower_bound root b) = before root (lower_bound root a) ++ M /\
    from root (lower_bound root a) = M ++ from root (lower_bound root b) /\
    Forall (fun it => compare (fst it) a <> Lt /\ compare (fst it) b = Lt) M.
Proof.
  intros Hw Hab. destruct (lower_bound_ok root a Hw) as (Va & Ba & Fa). destruct (lower_bound_ok root b Hw) as (Vb & Bb & Fb).
  assert (Hlt : forall k, compare k a = Lt -> compare k b = Lt).
  { intros k Hk. destruct (compare a b) eqn:E; [apply compare_eq in E; now subst|now apply (compare_trans _ a)|congruence]. }
  pose proof (valid_split _ _ Va) as Sa. pose proof (valid_split _ _ Vb) as Sb. rewrite Sa in Sb.
  assert (Hm : exists M, before root (lower_bound root b) = before root (lower_bound root a) ++ M /\
    from root (lower_bound root a) = M ++ from root (lower_bound root b)).
  { apply app_eq_app in Sb as (M & [[E1 E2]|[E1 E2]]); [|eauto].
    destruct M as [|it M]; [rewrite app_nil_r in E1; cbn in E2; exists []; rewrite app_nil_r; auto|]. exfalso.
    rewrite E1 in Ba. apply Forall_app in Ba as [_ Ba]. apply Forall_inv in Ba. rewrite E2 in Fb. apply Forall_inv in Fb. auto. }
  destruct Hm as (M & E1 & E2). exists M. split; [exact E1|]. split; [exact E2|].
  rewrite E1 in Bb. rewrite E2 in Fa. apply Forall_app in Bb as [_ Bb]. apply Forall_app in Fa as [Fa _].
  rewrite Forall_forall in *. auto.
Qed.

Lemma lower_bounds_split root a b : wf root -> compare a b <> Gt ->
  before root (lower_bound root b) =
  before root (lower_bound root a) ++
  filter (fun it => negb (ltb (compare (fst it) a)) && ltb (compare (fst it) b)) (items root).
Proof.
  intros Hw Hab. destruct (lower_bounds_between root a b Hw Hab) as (M & E1 & E2 & HM).
  destruct (lower_bound_ok root a Hw) as (Va & Ba & _). destruct (lower_bound_ok root b Hw) as (_ & _ & Fb).
  rewrite E1. f_equal. rewrite (valid_split _ _ Va), E2, !filter_app.
  rewrite filter_none, filter_all, filter_none; [now rewrite app_nil_r|..].
  - eapply Forall_impl; [|exact Fb]. cbv beta. intros it Hk. destruct (compare (fst it) b); cbn; rewrite ?andb_false_r; congruence.
  - eapply Forall_impl; [|exact HM]. cbv beta. intros it [H1 ->]. destruct (compare (fst it) a); cbn; congruence.
  - eapply Forall_impl; [|exact Ba]. cbv beta. intros it ->. reflexivity.
Qed.

(** Sequences of updates on the tree and on the sorted sequence. *)
Inductive sop := SInsert (x : T) (m : Z) (replaceExisting : bool) | SAddMetric (x : T) (m : Z) | SErase (x : T).

Definition set_step t (o : sop) : option tree :=
  match o with
  | SInsert x m r => insert t x m r
  | SAddMetric x m => option_map snd (addMetric t x m)
  | SErase x => erase_key t x
  end.
Definition list_step (l : list (T * Z)) (o : sop) : list (T * Z) :=
  match o with
  | SInsert x m r => linsert x m r l
  | SAddMetric x m => linsert x (m + match lmetric x l with Some g => g | None => 0 end) true l
  | SErase x => lerase x l
  end.
Fixpoint set_run (ops : list sop) t : option tree :=
  match ops with [] => Some t | o :: ops => bind (set_step t o) (set_run ops) end.

Lemma set_run_ok ops : forall t, wf t ->
  exists t', set_run ops t = Some t' /\ wf t' /\ items t' = fold_left list_step ops (items t).
Proof.
  induction ops as [|o ops IH]; intros t Hw; [exists t; auto|]. cbn [set_run fold_left].
  assert (Ho : exists t1, set_step t o = Some t1 /\ wf t1 /\ items t1 = list_step (items t) o).
  { destruct o as [x m r|x m|x]; cbn [set_step list_step].
    - now apply insert_ok.
    - destruct (addMetric_ok t x m Hw) as (t1 & -> & H1). exists t1. auto.
    - now apply erase_key_ok. }
  destruct Ho as (t1 & -> & Hw1 & Hi1). cbn [bind]. rewrite <- Hi1. now apply IH.
Qed.

End Queries.
