(* ===== verification/IndexedSetRange.v ===== *)
(** IndexedSet.h: erasing a range and freeing the detached subtrees. *)

From Stdlib Require Import ZArith List Lia Bool Permutation.
From S2P Require Import Prelude IndexedSet IndexedSetProofs IndexedSetQueries.
Import ListNotations.
#[local] Open Scope Z_scope.

Section Range.

Context {T : Type} `{CompareLaws T}.
Implicit Types (t root start node : @tree T) (p q : @path T) (i : @iterator T).

(** [t] once the pending subtraction from its total is done. *)
Definition settle (md : Z) t : tree :=
  match t with Nil => Nil | Node x b tot c0 c1 => Node x b (tot - md) c0 c1 end.

Lemma settle_mknode md d x b tot (c s : @tree T) : settle md (mknode d x b tot c s) = mknode d x b (tot - md) c s.
Proof. destruct d; reflexivity. Qed.

Lemma child_mknode d x b tot (c s : @tree T) : child (mknode d x b tot c s) d = c.
Proof. destruct d; reflexivity. Qed.

Lemma pre_avl_mknode d x b tot (c s : @tree T) :
  avl c -> avl s -> b = sg d * (h c - h s) -> pre_avl (mknode d x b tot c s).
Proof. destruct d; cbn [mknode pre_avl sg]; intuition lia. Qed.

(** What remains of [start] when [fromDir] tells which side was erased from. *)
Definition kept (fromDir e : bool) t : list (T * Z) :=
  if Bool.eqb fromDir e then items t else items (child t fromDir).

(** The state of the loop at [start], a node that had height [hO] and total
    [th]: the height has changed by [hd] and [md] is still to be subtracted. *)
Definition half_state (md hd hO th : Z) start : Prop :=
  start <> Nil /\ total_of start = th /\ pre_avl (settle md start) /\ h (settle md start) = hO + hd /\ hd <= 0.

Lemma eraseHalf_node_ok fromDir e md hd hO th start fr : half_state md hd hO th start ->
  exists node md' hd' fr', eraseHalf_node start fromDir e md hd fr = Some (node, md', hd', fr') /\
    avl node /\ h node = hO + hd' /\ hd' <= 0 /\ total_of node = th - md' /\
    items node = kept fromDir e (settle md start).
Proof.
  intros (Hn & Ht & Hp & Hh & Hd). destruct start as [|x b tot c0 c1]; [congruence|].
  cbn [eraseHalf_node settle total_of] in *. subst tot. unfold kept.
  destruct (Bool.eqb fromDir e) eqn:E.
  - destruct (rebalance_ok _ Hp) as (n & hc & -> & Ha & Hi & Htot & Hhn & Hr & _). cbn [bind].
    exists n, md, (hd + hc), fr. cbn [total_of] in Htot. repeat split; auto; lia.
  - apply eqb_false_iff in E. destruct Hp as (A0 & A1 & Hb). rewrite h_node in Hh.
    set (n := child (Node x b (th - md) c0 c1) fromDir).
    assert (Hn' : avl n /\ h n = hO + (hd + (-1 - Z.max 0 (b * (if e then 1 else -1))))).
    { unfold n. cbn [child]. destruct fromDir, e; try congruence; (split; [assumption|lia]). }
    exists n. eexists _, _, _. split; [reflexivity|]. repeat split; try apply Hn'; [lia|].
    fold n. cbn [total_of]. destruct n; cbn [is_nil total_of]; lia.
Qed.


(** Height and total of what a path builds around a hole. *)
Fixpoint path_h (hh : Z) p : Z :=
  match p with [] => hh | f :: p' => path_h (1 + Z.max hh (h (fsib f))) p' end.
Fixpoint path_tot (th : Z) p : Z :=
  match p with [] => th | f :: p' => path_tot (ftot f) p' end.

Lemma path_h_plug t p : path_h (h t) p = h (plug t p).
Proof.
  revert t. induction p as [|[d x b tot sib] p IH]; intros t; [reflexivity|]. cbn [path_h plug fsib].
  rewrite <- IH. unfold plug_frame. cbn [fdir fdata fbal ftot fsib]. now rewrite h_mknode.
Qed.

Lemma path_tot_plug t p : path_tot (total_of t) p = total_of (plug t p).
Proof.
  revert t. induction p as [|[d x b tot sib] p IH]; intros t; [reflexivity|]. cbn [path_tot plug ftot].
  rewrite <- IH. unfold plug_frame. cbn [fdir fdata fbal ftot fsib]. now rewrite total_mknode.
Qed.

(** As [avl_path], with accurate balances of any size. *)
Fixpoint bal_path (hh : Z) p : Prop :=
  match p with
  | [] => True
  | mkF d _ b _ sib :: p' => avl sib /\ b = sg d * (hh - h sib) /\ bal_path (1 + Z.max hh (h sib)) p'
  end.

Lemma avl_bal_path hh p : avl_path hh p -> bal_path hh p.
Proof. revert hh. induction p as [|[d x b tot sib] p IH]; cbn; intuition. Qed.

Lemma bal_path_snoc t q f : avl_path (h t) q -> avl (fsib f) -> fbal f = sg (fdir f) * (h (plug t q) - h (fsib f)) ->
  bal_path (h t) (q ++ [f]).
Proof.
  revert t. induction q as [|[d x b tot sib] q IH]; intros t Hq Ha Hb; cbn [app bal_path plug] in *.
  - destruct f. cbn in *. auto.
  - destruct Hq as (As & Hbb & _ & Hq). specialize (IH (plug_frame (mkF d x b tot sib) t)).
    unfold plug_frame in *. cbn [fdir fdata fbal ftot fsib] in *. rewrite h_mknode in IH. auto.
Qed.

(** One step up: the parent with its new balance. *)
Lemma half_state_up md hd hO node d x b tot sib : avl node -> h node = hO + hd -> hd <= 0 ->
  avl sib -> b = sg d * (hO - h sib) ->
  let b' := b + hd * sg d in
  let hd' := - Z.min (Z.max (b * sg d) 0) ((b - b') * sg d) in
  half_state md hd' (1 + Z.max hO (h sib)) tot (mknode d x b' tot node sib).
Proof.
  intros Hn Hh Hd Hs Hb. unfold half_state. rewrite settle_mknode, h_mknode, total_mknode.
  split; [destruct d; discriminate|]. split; [reflexivity|]. split; [apply pre_avl_mknode; auto; destruct d; cbn [sg] in *; lia|].
  destruct d; cbn [sg] in *; lia.
Qed.

(** The walk from [start] up to the end node, whose child it replaces. *)
Lemma eraseHalf_loop_ok e q : forall start fromDir md hd fr hO th d x b tot sib,
  half_state md hd hO th start -> bal_path hO (q ++ [mkF d x b tot sib]) ->
  exists node b' md' hd' fr',
    eraseHalf_loop start (q ++ [mkF d x b tot sib]) fromDir e md hd fr =
      Some (mknode d x b' tot node sib, md', hd', fr') /\
    half_state md' hd' (1 + Z.max (path_h hO q) (h sib)) tot (mknode d x b' tot node sib) /\
    avl node /\ total_of node = path_tot th q - md' /\
    items node = let K := kept fromDir e (settle md start) in
                 if e then litems th q ++ K else K ++ ritems th q.
Proof.
  induction q as [|[d0 x0 b0 tot0 sib0] q IH]; intros start fromDir md hd fr hO th d x b tot sib Hst Hp;
    cbn [app eraseHalf_loop bal_path] in *; destruct Hp as (As & Hb & Hp);
    destruct (eraseHalf_node_ok fromDir e md hd hO th start fr Hst) as (node & md' & hd' & fr' & -> & Ha & Hh & Hd' & Htot & Hi);
    cbn [bind]; rewrite (proj2 (Z.ltb_ge 0 hd')) by lia.
  - eexists _, _, _, _, _. split; [reflexivity|]. fold (sg d). cbn [path_h path_tot litems ritems].
    split; [now apply half_state_up|]. repeat split; auto. rewrite Hi. destruct e; [reflexivity|now rewrite app_nil_r].
  - fold (sg d0).
    destruct (IH (mknode d0 x0 (b0 + hd' * sg d0) tot0 node sib0) d0 md'
      (- Z.min (Z.max (b0 * sg d0) 0) ((b0 - (b0 + hd' * sg d0)) * sg d0)) fr' (1 + Z.max hO (h sib0)) tot0 d x b tot sib)
      as (n2 & b2 & md2 & hd2 & fr2 & -> & Hst2 & Ha2 & Ht2 & Hi2); auto.
    { now apply half_state_up. }
    eexists _, _, _, _, _. split; [reflexivity|]. cbn [path_h path_tot litems ritems fsib ftot].
    split; [exact Hst2|]. split; [exact Ha2|]. split; [exact Ht2|]. rewrite Hi2. cbv zeta.
    remember (kept fromDir e (settle md start)) as K eqn:EK. clear EK. unfold kept.
    rewrite settle_mknode, child_mknode.
    replace (tot0 - th - total_of sib0) with (tot0 - md' - total_of node - total_of sib0) by lia.
    destruct e, d0; cbn [Bool.eqb]; rewrite ?items_mknode, ?Hi, ?app_nil_r, <- ?app_assoc; reflexivity.
Qed.

Lemma eraseHalf_ok e start q d x b tot sib fr : start <> Nil -> avl start ->
  bal_path (h start) (q ++ [mkF d x b tot sib]) ->
  exists node b' md hd fr',
    eraseHalf start (q ++ [mkF d x b tot sib]) e fr = Some (mknode d x b' tot node sib, md, hd, fr') /\
    half_state md hd (1 + Z.max (h (plug start q)) (h sib)) tot (mknode d x b' tot node sib) /\
    avl node /\ total_of node = total_of (plug start q) - md /\
    items node = if e then litems (total_of start) q ++ items (child start false)
                 else items (child start true) ++ ritems (total_of start) q.
Proof.
  intros Hn Ha Hp. unfold eraseHalf.
  assert (Hset : settle 0 start = start) by (destruct start; cbn; now rewrite ?Z.sub_0_r).
  assert (Hst : half_state 0 0 (h start) (total_of start) start).
  { unfold half_state. rewrite Hset. repeat split; auto; try lia. destruct start; [exact I|]. destruct Ha as (? & ? & ? & _).
    cbn. auto. }
  destruct (eraseHalf_loop_ok e q start (negb e) 0 0 fr (h start) (total_of start) d x b tot sib Hst Hp)
    as (node & b' & md & hd & fr' & E & Hst' & Ha' & Ht' & Hi').
  exists node, b', md, hd, fr'. rewrite path_h_plug in Hst'. rewrite path_tot_plug in Ht'.
  repeat split; auto; try apply Hst'. rewrite Hi'. unfold kept. rewrite Hset. destruct e; reflexivity.
Qed.

(** The walk from the common root up, rebalancing on the way. *)
Lemma rebalance_up_ok p : forall t md hd hO, t <> Nil -> pre_avl (settle md t) -> h (settle md t) = hO + hd ->
  avl_path hO p ->
  exists root, rebalance_up t p md hd = Some root /\ avl root /\
    items root = litems (total_of t) p ++ items (settle md t) ++ ritems (total_of t) p.
Proof.
  induction p as [|[d y b tot sib] p IH]; intros t md hd hO Hn Hp Hh Hpath;
    (destruct t as [|x tb ttot c0 c1]; [congruence|]); cbn [rebalance_up settle] in *;
    destruct (rebalance_ok _ Hp) as (t' & hc & -> & Ha & Hi & Ht & Hh' & Hr & _); cbn [bind].
  - exists t'. cbn. rewrite app_nil_r. auto.
  - destruct Hpath as (As & Hb & Hbr & Hpath). fold (sg d). cbn [total_of] in *.
    destruct (IH (mknode d y (b + (hd + hc) * sg d) tot t' sib) md
      (Z.max ((b + (hd + hc) * sg d) * sg d) 0 - Z.max (b * sg d) 0) (1 + Z.max hO (h sib))) as (root & -> & Har & Hir); auto.
    + destruct d; discriminate.
    + rewrite settle_mknode. apply pre_avl_mknode; auto. destruct d; cbn [sg] in *; lia.
    + rewrite settle_mknode, h_mknode. destruct d; cbn [sg] in *; lia.
    + exists root. split; [reflexivity|]. split; [exact Har|]. rewrite Hir, settle_mknode, total_mknode, items_mknode, Hi, Ht.
      cbn [litems ritems]. replace (tot - md - (ttot - md) - total_of sib) with (tot - ttot - total_of sib) by lia.
      rewrite <- !app_assoc. reflexivity.
Qed.

(** ** Pointers and the common subtree *)

Lemma same_dirs_spec f l : same_dirs f l = true <-> f = l.
Proof.
  revert l. induction f as [|a f IH]; intros [|b l]; cbn; try (split; congruence).
  rewrite andb_true_iff, IH, eqb_true_iff. split; [intros [-> ->]; reflexivity|intros [= -> ->]; auto].
Qed.

Lemma climb_spec f l : length f = length l ->
  exists f0 l0, f = f0 ++ climb_together f l /\ l = l0 ++ climb_together f l /\
    (f0 = [] /\ l0 = [] \/ exists f1 l1 a, f0 = f1 ++ [a] /\ l0 = l1 ++ [negb a]).
Proof.
  revert l. induction f as [|a f IH]; intros [|b l] Hl; try discriminate.
  { exists [], []. cbn. auto. }
  cbn [climb_together]. destruct (same_dirs (a :: f) (b :: l)) eqn:E.
  - apply same_dirs_spec in E. exists [], []. cbn [app]. rewrite E. auto.
  - injection Hl as Hl. destruct (IH l Hl) as (f0 & l0 & Hf & Hr & Hc). exists (a :: f0), (b :: l0).
    cbn [app]. rewrite <- Hf, <- Hr. repeat split; auto. right. destruct Hc as [[-> ->]|(f1 & l1 & c & -> & ->)].
    + exists [], [], a. split; [reflexivity|]. cbn [app] in *. f_equal.
      destruct a, b; auto; exfalso; assert (Hfl : f = l) by congruence; subst;
        rewrite (proj2 (same_dirs_spec _ _) eq_refl) in E; discriminate.
    + exists (a :: f1), (b :: l1), c. auto.
Qed.

Lemma plug_dirs_inj t1 p1 t2 p2 : plug t1 p1 = plug t2 p2 -> dirs p1 = dirs p2 -> t1 = t2 /\ p1 = p2.
Proof.
  revert t1 t2 p2. induction p1 as [|[d1 x1 b1 tot1 s1] p1 IH]; intros t1 t2 [|[d2 x2 b2 tot2 s2] p2] Hp Hd; try discriminate.
  { cbn in Hp. auto. }
  cbn [plug dirs map fdir] in *. injection Hd as -> Hd. destruct (IH _ _ _ Hp Hd) as [Hf ->].
  unfold plug_frame in Hf. cbn [fdir fdata fbal ftot fsib] in Hf.
  destruct d2; cbn [mknode] in Hf; injection Hf as -> -> -> -> ->; auto.
Qed.

(** A non-empty path leads to its end node through child [d]. *)
Definition ends (d : bool) q : Prop := exists q0 x b tot sib, q = q0 ++ [mkF d x b tot sib].

Lemma ends_some q : q = [] \/ exists d, ends d q.
Proof.
  destruct q as [|f q _] using rev_ind; [auto|]. right. destruct f as [d x b tot sib]. exists d. unfold ends. eauto 10.
Qed.

Lemma ends_nil d : ~ ends d [].
Proof. intros (q0 & x & b & tot & sib & E). destruct q0; discriminate. Qed.

Lemma ends_inj d d' q : ends d q -> ends d' q -> d = d'.
Proof.
  intros (q0 & x & b & tot & sib & ->) (q1 & x' & b' & tot' & sib' & E).
  apply app_inj_tail in E as [_ E]. congruence.
Qed.

Lemma ends_dirs d q r : dirs q = r ++ [d] -> ends d q.
Proof.
  intros Hd. destruct q as [|[d' x b tot sib] q _] using rev_ind; [destruct r; discriminate|].
  unfold dirs in Hd. rewrite map_app in Hd. apply app_inj_tail in Hd as [_ Hd]. cbn in Hd. subst. unfold ends. eauto 10.
Qed.

Lemma firstn_dirs n p : dirs (firstn n p) = firstn n (dirs p).
Proof. symmetry. apply firstn_map. Qed.
Lemma skipn_dirs n p : dirs (skipn n p) = skipn n (dirs p).
Proof. symmetry. apply skipn_map. Qed.

Lemma common_root root t1 p1 t2 p2 : plug t1 p1 = root -> plug t2 p2 = root ->
  let up := ISCommonSubtreeRoot p1 p2 in
  let q1 := firstn (length p1 - length up) p1 in
  let q2 := firstn (length p2 - length up) p2 in
  let p := skipn (length p1 - length up) p1 in
  p1 = q1 ++ p /\ p2 = q2 ++ p /\ plug t1 q1 = plug t2 q2 /\
  (q1 = [] \/ q2 = [] \/ exists a, ends a q1 /\ ends (negb a) q2).
Proof.
  intros H1 H2. cbv zeta. unfold ISCommonSubtreeRoot.
  set (f := skipn (length p1 - length p2) (dirs p1)). set (l := skipn (length p2 - length p1) (dirs p2)).
  assert (Hlen : length f = length l) by (unfold f, l, dirs; rewrite !length_skipn, !length_map; lia).
  destruct (climb_spec f l Hlen) as (f0 & l0 & Hf & Hl & Hc). set (up := climb_together f l) in *.
  assert (D1 : dirs p1 = (firstn (length p1 - length p2) (dirs p1) ++ f0) ++ up)
    by (rewrite <- app_assoc, <- Hf; symmetry; apply firstn_skipn).
  assert (D2 : dirs p2 = (firstn (length p2 - length p1) (dirs p2) ++ l0) ++ up)
    by (rewrite <- app_assoc, <- Hl; symmetry; apply firstn_skipn).
  assert (L1 : length p1 = (length (firstn (length p1 - length p2) (dirs p1) ++ f0) + length up)%nat)
    by (rewrite <- length_app, <- D1; unfold dirs; now rewrite length_map).
  assert (L2 : length p2 = (length (firstn (length p2 - length p1) (dirs p2) ++ l0) + length up)%nat)
    by (rewrite <- length_app, <- D2; unfold dirs; now rewrite length_map).
  set (A1 := firstn (length p1 - length p2) (dirs p1) ++ f0) in *.
  set (A2 := firstn (length p2 - length p1) (dirs p2) ++ l0) in *.
  replace (length p1 - length up)%nat with (length A1) by lia. replace (length p2 - length up)%nat with (length A2) by lia.
  assert (S1 : dirs (skipn (length A1) p1) = up) by (rewrite skipn_dirs, D1; apply skipn_app_length || (rewrite skipn_app, skipn_all, Nat.sub_diag; reflexivity)).
  assert (S2 : dirs (skipn (length A2) p2) = up) by (rewrite skipn_dirs, D2; apply skipn_app_length || (rewrite skipn_app, skipn_all, Nat.sub_diag; reflexivity)).
  assert (F1 : dirs (firstn (length A1) p1) = A1) by (rewrite firstn_dirs, D1, firstn_app, firstn_all, Nat.sub_diag, app_nil_r; reflexivity).
  assert (F2 : dirs (firstn (length A2) p2) = A2) by (rewrite firstn_dirs, D2, firstn_app, firstn_all, Nat.sub_diag, app_nil_r; reflexivity).
  destruct (plug_dirs_inj (plug t1 (firstn (length A1) p1)) (skipn (length A1) p1)
                          (plug t2 (firstn (length A2) p2)) (skipn (length A2) p2)) as [Et Ep].
  { rewrite <- !plug_app, !firstn_skipn. congruence. }
  { congruence. }
  split; [symmetry; apply firstn_skipn|]. split; [rewrite Ep; symmetry; apply firstn_skipn|]. split; [exact Et|].
  destruct Hc as [[-> ->]|(f1 & l1 & a & -> & ->)].
  - destruct (le_lt_dec (length p1) (length p2)).
    + left. apply length_zero_iff_nil. apply (f_equal (@length _)) in F1. unfold dirs in F1 at 1. rewrite length_map in F1.
      rewrite F1. unfold A1. rewrite app_nil_r, length_firstn. lia.
    + right. left. apply length_zero_iff_nil. apply (f_equal (@length _)) in F2. unfold dirs in F2 at 1. rewrite length_map in F2.
      rewrite F2. unfold A2. rewrite app_nil_r, length_firstn. lia.
  - right. right. exists a. split.
    + apply (ends_dirs _ _ (firstn (length p1 - length p2) (dirs p1) ++ f1)). rewrite F1. unfold A1. now rewrite app_assoc.
    + apply (ends_dirs _ _ (firstn (length p2 - length p1) (dirs p2) ++ l1)). rewrite F2. unfold A2. now rewrite app_assoc.
Qed.

(** ** The order of two nodes and the subtree they share *)

Lemma before_app root t q p : before root (Some (t, q ++ p)) =
  litems (total_of (plug t q)) p ++ (litems (total_of t) q ++ items (child t false)).
Proof. cbn [before]. now rewrite litems_app, <- app_assoc. Qed.

Lemma ends_plug d t q : ends d q -> exists q0 x b tot c0 c1,
  plug t q = Node x b tot c0 c1 /\ plug t q0 = (if d then c1 else c0) /\
  q = q0 ++ [mkF d x b tot (if d then c0 else c1)].
Proof.
  intros (q0 & x & b & tot & sib & ->). rewrite plug_app. cbn [plug]. unfold plug_frame. cbn [fdir fdata fbal ftot fsib].
  exists q0, x, b, tot. destruct d; [exists sib, (plug t q0)|exists (plug t q0), sib]; auto.
Qed.

Lemma ends_true_len t q : ends true q ->
  (length (items (child (plug t q) false)) < length (litems (total_of t) q ++ items (child t false)))%nat.
Proof.
  intros He. destruct (ends_plug true t q He) as (q0 & x & b & tot & c0 & c1 & -> & Ht & ->).
  rewrite litems_app. cbn [litems child]. rewrite !length_app. cbn [length]. lia.
Qed.

Lemma ends_false_len t q : t <> Nil -> ends false q ->
  (length (litems (total_of t) q ++ items (child t false)) < length (items (child (plug t q) false)))%nat.
Proof.
  intros Hn He. destruct (ends_plug false t q He) as (q0 & x & b & tot & c0 & c1 & -> & Ht & ->).
  rewrite litems_app. cbn [litems child app]. rewrite <- Ht, items_plug. destruct t as [|y yb yt d0 d1]; [congruence|].
  cbn [items child]. rewrite !length_app. cbn [length app]. lia.
Qed.

Lemma order_ends root t1 q1 t2 q2 p : t1 <> Nil -> t2 <> Nil -> plug t1 q1 = plug t2 q2 ->
  (length (before root (Some (t1, q1 ++ p))) <= length (before root (Some (t2, q2 ++ p))))%nat ->
  (q1 = [] \/ q2 = [] \/ exists a, ends a q1 /\ ends (negb a) q2) ->
  (q1 = [] \/ ends false q1) /\ (q2 = [] \/ ends true q2).
Proof.
  intros N1 N2 Et Hle Hc. rewrite !before_app, !length_app in Hle. rewrite Et in Hle.
  rewrite <- !length_app in Hle. rewrite !length_app in Hle.
  destruct (ends_some q1) as [-> |[[|] E1]], (ends_some q2) as [-> |[[|] E2]]; auto.
  - pose proof (ends_false_len t2 q2 N2 E2) as L. rewrite length_app in L. cbn [plug] in Et. subst t1. cbn [litems length Nat.add] in Hle. lia.
  - pose proof (ends_true_len t1 q1 E1) as L. rewrite length_app in L. cbn [plug] in Et. rewrite Et in L. cbn [litems length Nat.add] in Hle. lia.
  - exfalso. destruct Hc as [-> |[-> |(a & Ha & Hb)]]; [now apply ends_nil in E1|now apply ends_nil in E2|].
    pose proof (ends_inj _ _ _ Ha E1). pose proof (ends_inj _ _ _ Hb E2). destruct a; discriminate.
  - pose proof (ends_true_len t1 q1 E1) as L1. pose proof (ends_false_len t2 q2 N2 E2) as L2.
    rewrite length_app in L1, L2. rewrite Et in L1. lia.
  - exfalso. destruct Hc as [-> |[-> |(a & Ha & Hb)]]; [now apply ends_nil in E1|now apply ends_nil in E2|].
    pose proof (ends_inj _ _ _ Ha E1). pose proof (ends_inj _ _ _ Hb E2). destruct a; discriminate.
Qed.

Lemma frames_to_app sub q0 d x b tot sib :
  frames_to sub (q0 ++ [mkF d x b tot sib]) =
  match sub with
  | Nil => []
  | Node x b tot _ _ => q0 ++ [mkF d x b tot (child sub (negb d))]
  end.
Proof. unfold frames_to. rewrite rev_app_distr. cbn [rev app fdir]. destruct sub; [reflexivity|]. now rewrite rev_involutive. Qed.

(** Erasing the right part of the left subtree of [S]. *)
Lemma left_half first q x b tot c0 c1 : first <> Nil -> plug first q = Node x b tot c0 c1 ->
  avl (Node x b tot c0 c1) -> (q = [] \/ ends false q) ->
  exists c0' b1 md hd fr,
    eraseHalf first (frames_to (plug first q) q) true [] = Some (Node x b1 tot c0' c1, md, hd, fr) /\
    avl c0' /\ total_of c0' = total_of c0 - md /\ b1 = h c1 - h c0' /\
    1 + Z.max (h c0') (h c1) = 1 + Z.max (h c0) (h c1) + hd /\
    items c0' = litems (total_of first) q ++ items (child first false).
Proof.
  intros Hn Hp Ha [-> |He].
  - cbn [plug frames_to rev] in *. subst first. destruct Ha as (A0 & A1 & Hb & _).
    exists c0, b, 0, 0, []. split; [reflexivity|]. repeat split; auto; lia.
  - destruct (ends_plug false first q He) as (q0 & x' & b' & tot' & c0' & c1' & Hp' & Ht & Hq).
    rewrite Hp in Hp'. injection Hp' as <- <- <- <- <-. rewrite Hp.
    replace (frames_to _ q) with (q0 ++ [mkF false x b tot c1]) by (rewrite Hq, frames_to_app; reflexivity).
    pose proof Ha as (A0 & A1 & Hb & _). rewrite <- Ht in A0. apply avl_unplug in A0 as [Af Aq].
    destruct (eraseHalf_ok true first q0 false x b tot c1 [] Hn Af) as (node & bb & md & hd & fr & -> & Hst & An & Hto & Hi).
    { apply bal_path_snoc; auto. cbn [fbal fdir fsib sg]. rewrite Ht. lia. }
    cbn [mknode] in *. destruct Hst as (_ & _ & Hpre & Hh & _). cbn [settle pre_avl] in Hpre, Hh. rewrite h_node in Hh.
    exists node, bb, md, hd, fr. rewrite Ht in *. split; [reflexivity|]. repeat split; auto; try tauto.
    rewrite Hi, Hq, litems_app. reflexivity.
Qed.

Lemma right_half last q x b tot c0 c1 b1 c0' fr0 : last <> Nil -> plug last q = Node x b tot c0 c1 ->
  avl (Node x b tot c0 c1) -> avl c0' -> b1 = h c1 - h c0' -> (q = [] \/ ends true q) ->
  let S1 := Node x b1 tot c0' c1 in
  exists c1' b2 md hd fr,
    eraseHalf (match q with [] => S1 | _ => last end) (frames_to S1 q) false fr0 = Some (Node x b2 tot c0' c1', md, hd, fr) /\
    avl c1' /\ total_of c1' = total_of c1 - md /\ b2 = h c1' - h c0' /\
    1 + Z.max (h c0') (h c1') = 1 + Z.max (h c0') (h c1) + hd /\
    items c1' = items (child last true) ++ ritems (total_of last) q.
Proof.
  intros Hn Hp Ha Ha0 Hb1 [-> |He] S1.
  - cbn [plug frames_to rev] in *. subst last. destruct Ha as (A0 & A1 & Hb & _).
    exists c1, b1, 0, 0, fr0. split; [reflexivity|]. cbn [ritems child]. rewrite app_nil_r. repeat split; auto; lia.
  - destruct (ends_plug true last q He) as (q0 & x' & b' & tot' & d0 & d1 & Hp' & Ht & Hq).
    rewrite Hp in Hp'. injection Hp' as <- <- <- <- <-. rewrite Hq, frames_to_app. cbn [S1 child negb].
    pose proof Ha as (A0 & A1 & Hb & _). rewrite <- Ht in A1. apply avl_unplug in A1 as [Af Aq].
    destruct (eraseHalf_ok false last q0 true x b1 tot c0' fr0 Hn Af) as (node & bb & md & hd & fr & E & Hst & An & Hto & Hi).
    { apply bal_path_snoc; auto. cbn [fbal fdir fsib sg]. rewrite Ht. lia. }
    cbn [mknode] in *. destruct Hst as (_ & _ & Hpre & Hh & _). cbn [settle pre_avl] in Hpre, Hh. rewrite h_node in Hh.
    exists node, bb, md, hd, fr. rewrite Ht in *. split; [destruct q0; exact E|]. repeat split; auto; try tauto; try lia.
    rewrite Hi, ritems_app. cbn [ritems app]. now rewrite app_nil_r.
Qed.

(** ** The range *)

Lemma kept_left first q x b tot c0 c1 : first <> Nil -> plug first q = Node x b tot c0 c1 -> (q = [] \/ ends false q) ->
  exists A, items c0 = (litems (total_of first) q ++ items (child first false)) ++ A.
Proof.
  intros Hn Hp [-> |He].
  - cbn [plug] in Hp. subst. exists []. cbn. now rewrite app_nil_r.
  - destruct (ends_plug false first q He) as (q0 & x' & b' & tot' & d0 & d1 & Hp' & Ht & ->).
    rewrite Hp in Hp'. injection Hp' as <- <- <- <- <-. rewrite litems_app. cbn [litems app]. rewrite <- Ht, items_plug.
    destruct first as [|y yb yt e0 e1]; [congruence|]. cbn [items child total_of].
    eexists. rewrite <- !app_assoc. cbn [app]. reflexivity.
Qed.

Lemma kept_right last q x b tot c0 c1 : last <> Nil -> plug last q = Node x b tot c0 c1 -> (q = [] \/ ends true q) ->
  exists B, items c1 = B ++ (items (child last true) ++ ritems (total_of last) q).
Proof.
  intros Hn Hp [-> |He].
  - cbn [plug] in Hp. subst. exists []. cbn. now rewrite app_nil_r.
  - destruct (ends_plug true last q He) as (q0 & x' & b' & tot' & d0 & d1 & Hp' & Ht & ->).
    rewrite Hp in Hp'. injection Hp' as <- <- <- <- <-. rewrite ritems_app. cbn [ritems app]. rewrite app_nil_r, <- Ht, items_plug.
    destruct last as [|y yb yt e0 e1]; [congruence|]. cbn [items child total_of].
    exists (litems yt q0 ++ items e0 ++ [(y, yt - total_of e0 - total_of e1)]). rewrite <- !app_assoc. cbn [app]. reflexivity.
Qed.

(** Two nodes of a sorted tree with the same key are the same node. *)
Lemma find_plug key t p r : t <> Nil -> around key (total_of t) p -> find_at key (plug t p) r = find_at key t (p ++ r).
Proof.
  intros Hn. revert t Hn. induction p as [|[d x b tot sib] p IH]; intros t Hn [Hl Hr]; [reflexivity|].
  cbn [plug app litems ritems] in *. rewrite IH; [|unfold plug_frame; destruct d; discriminate|].
  - unfold plug_frame. cbn [fdir fdata fbal ftot fsib]. destruct d; cbn [mknode find_at].
    + apply below_app in Hl as [_ Hl]. apply below_app in Hl as [_ Hl]. apply Forall_inv in Hl. cbn [fst] in Hl.
      apply compare_gt in Hl. now rewrite Hl.
    + apply above_app in Hr as [Hr _]. apply Forall_inv in Hr. cbn [fst] in Hr. now rewrite Hr.
  - rewrite total_plug_frame. cbn [ftot]. apply below_app in Hl as [Hl _]. apply above_app in Hr as [_ Hr]. split; assumption.
Qed.

Lemma node_around root x b tot c0 c1 p : sorted (items root) -> plug (Node x b tot c0 c1) p = root -> around x tot p.
Proof.
  intros Hs Hp. rewrite <- Hp, items_plug in Hs. cbn [items total_of] in Hs.
  rewrite <- app_assoc in Hs. cbn [app] in Hs. rewrite app_assoc in Hs. apply sorted_mid in Hs as (_ & _ & B & A).
  apply below_app in B as [B _]. apply above_app in A as [_ A]. split; assumption.
Qed.

Lemma find_node root x b tot c0 c1 p : sorted (items root) -> plug (Node x b tot c0 c1) p = root ->
  find root x = Some (Node x b tot c0 c1, p).
Proof.
  intros Hs Hp. unfold find. pose proof (node_around _ _ _ _ _ _ _ Hs Hp) as Har. rewrite <- Hp at 1.
  rewrite (find_plug x _ p []); [|discriminate|exact Har]. cbn [find_at]. rewrite compare_refl, app_nil_r. reflexivity.
Qed.

(** Two positions in a sorted sequence compare as their keys. *)
Lemma sorted_positions (l a c b d : list (T * Z)) x m y n : sorted l -> l = a ++ (x, m) :: b -> l = c ++ (y, n) :: d ->
  (length a <= length c)%nat -> compare x y = Lt \/ (x = y /\ a = c).
Proof.
  intros Hs Ha Hc Hle. rewrite Ha in Hc. pose proof Hc as Hc'. apply app_eq_app in Hc' as (r & [[-> E]|[-> E]]).
  - rewrite length_app in Hle. assert (r = []) as -> by (apply length_zero_iff_nil; lia).
    cbn [app] in E. injection E as <- _ _. rewrite app_nil_r. auto.
  - destruct r as [|i r]; cbn [app] in E; [injection E as <- _ _; rewrite app_nil_r; auto|].
    injection E as <- ->. left. rewrite Ha, app_comm_cons, app_assoc in Hs. apply sorted_mid in Hs as (_ & _ & B & _).
    apply below_app in B as [_ B]. exact (Forall_inv B).
Qed.

Lemma from_app root t q p : t <> Nil -> exists it,
  from root (Some (t, q ++ p)) = it :: (items (child t true) ++ ritems (total_of t) q) ++ ritems (total_of (plug t q)) p.
Proof.
  intros Hn. destruct t as [|x b tot c0 c1]; [congruence|]. cbn [from child]. eexists. f_equal.
  change tot with (total_of (Node x b tot c0 c1)) at 1. now rewrite ritems_app, app_assoc.
Qed.

(** Erasing from [first] to [last], both nodes of the tree. *)
Lemma erase_between root first pf last pl : wf root -> valid root (Some (first, pf)) -> valid root (Some (last, pl)) ->
  (length (before root (Some (first, pf))) <= length (before root (Some (last, pl))))%nat ->
  let up := ISCommonSubtreeRoot pf pl in
  let qf := firstn (length pf - length up) pf in
  let ql := firstn (length pl - length up) pl in
  let p := skipn (length pf - length up) pf in
  exists t' fr,
    bind (eraseHalf first (frames_to (plug first qf) qf) true []) (fun '(subRoot, md1, leftHeightDelta, toFree) =>
    let last := match ql with [] => subRoot | _ => last end in
    bind (eraseHalf last (frames_to subRoot ql) false toFree) (fun '(subRoot, md2, rightHeightDelta, toFree) =>
    match subRoot with
    | Nil => None
    | Node x _ _ _ _ =>
        bind (rebalance_up subRoot p (0 + md1 + md2) (leftHeightDelta + rightHeightDelta)) (fun root =>
        bind (erase_key root x) (fun root => Some (root, toFree)))
    end)) = Some (t', fr) /\ wf t' /\
    exists it, from root (Some (last, pl)) = it :: skipn 1 (from root (Some (last, pl))) /\
      items t' = before root (Some (first, pf)) ++ skipn 1 (from root (Some (last, pl))).
Proof.
  intros [Ha Hs] [Hf Nf] [Hl Nl] Hle. pose proof (common_root root first pf last pl Hf Hl) as Hcr. cbv zeta in *.
  set (qf := firstn _ pf) in *. set (ql := firstn _ pl) in *. set (p := skipn _ pf) in *.
  destruct Hcr as (Epf & Epl & Esub & Hc). rewrite Epf, Epl in Hle.
  destruct (order_ends root first qf last ql p Nf Nl Esub Hle Hc) as [Of Ol].
  assert (Hsub : plug (plug first qf) p = root) by (rewrite <- plug_app, <- Epf; exact Hf).
  destruct (plug first qf) as [|x b tot c0 c1] eqn:ES.
  { exfalso. destruct Of as [-> |(q0 & y & bb & tt & ss & ->)]; [contradiction|].
    rewrite plug_app in ES. cbn [plug] in ES. unfold plug_frame in ES. discriminate. }
  rewrite <- Hsub in Ha. apply avl_unplug in Ha as [AS Ap]. rewrite h_node in Ap.
  rewrite <- ES.
  destruct (left_half first qf x b tot c0 c1 Nf ES AS Of) as (c0' & b1 & md1 & hd1 & fr1 & -> & A0 & T0 & B1 & H1 & I0).
  cbn [bind].
  destruct (right_half last ql x b tot c0 c1 b1 c0' fr1 Nl (eq_sym Esub) AS A0 B1 Ol)
    as (c1' & b2 & md2 & hd2 & fr2 & -> & A1 & T1 & B2 & H2 & I1). cbn [bind].
  destruct (rebalance_up_ok p (Node x b2 tot c0' c1') (0 + md1 + md2) (hd1 + hd2) (1 + Z.max (h c0) (h c1)))
    as (r2 & -> & Ar & Ir); [discriminate|cbn; auto|cbn [settle]; rewrite h_node; lia|exact Ap|].
  cbn [bind settle items total_of] in *.
  replace (tot - (0 + md1 + md2) - total_of c0' - total_of c1') with (tot - total_of c0 - total_of c1) in Ir by lia.
  rewrite <- Hsub, items_plug in Hs. cbn [items total_of] in Hs.
  destruct (from_app root last ql p Nl) as [it Hfr]. rewrite <- Esub in Hfr. cbn [total_of] in Hfr.
  assert (Hbf : before root (Some (first, qf ++ p)) = litems tot p ++ items c0').
  { rewrite before_app, ES, I0. reflexivity. }
  rewrite <- I1 in Hfr.
  assert (Hsplit : exists A' B', items c0 = items c0' ++ A' /\ items c1 = B' ++ items c1').
  { destruct (kept_left first qf x b tot c0 c1 Nf ES Of) as [A' EA]. rewrite <- I0 in EA.
    destruct (kept_right last ql x b tot c0 c1 Nl (eq_sym Esub) Ol) as [B' EB]. rewrite <- I1 in EB. eauto. }
  destruct Hsplit as (A' & B' & E0 & E1). rewrite E0, E1 in Hs.
  assert (Wr : wf r2).
  { split; [exact Ar|]. rewrite Ir. clear - Hs H0.
    repeat (rewrite <- app_assoc in Hs; cbn [app] in Hs). rewrite <- app_assoc. cbn [app].
    rewrite app_assoc in Hs |- *. rewrite app_assoc in Hs. rewrite sorted_mid in Hs |- *.
    destruct Hs as (S1 & S2 & B & A). apply sorted_app in S1 as (S1 & _). apply sorted_app in S2 as (_ & S2 & _).
    apply below_app in B as [B _]. apply above_app in A as [_ A]. auto. }
  destruct (erase_key_ok r2 x Wr) as (t' & -> & Wt & It). cbn [bind]. exists t', fr2. split; [reflexivity|].
  split; [exact Wt|]. exists it. rewrite <- Epl in Hfr. rewrite <- Epf in Hbf. unfold path in *.
  rewrite Hfr, Hbf. cbn [skipn]. split; [reflexivity|].
  rewrite It, Ir. destruct Wr as [_ Ws]. rewrite Ir in Ws. rewrite <- app_assoc in Ws |- *. cbn [app] in Ws |- *.
  rewrite app_assoc in Ws |- *. apply sorted_mid in Ws as (_ & _ & B & A).
  unfold lerase. rewrite filter_app. cbn [filter]. rewrite (proj2 (is_key_spec x (x, _)) eq_refl). cbn [negb].
  fold (lerase x (litems tot p ++ items c0')) (lerase x (items c1' ++ ritems tot p)).
  rewrite !lerase_none by (apply below_neq, B || apply above_neq, A). reflexivity.
Qed.

Lemma same_node_dirs t p u q : same_node (Some (t, p)) (Some (u, q)) = true <-> dirs p = dirs q.
Proof.
  cbn [same_node]. rewrite andb_true_iff, Nat.eqb_eq. revert q. induction p as [|f p IH]; intros [|g q]; cbn; try (split; [intros [? ?]; discriminate|discriminate]); [tauto|].
  rewrite andb_true_iff, eqb_true_iff. specialize (IH q). split.
  - intros (Hl & -> & Hd). injection Hl as Hl. f_equal. now apply IH.
  - intros [= -> Hd]. apply IH in Hd as [Hl Hd]. rewrite Hl. auto.
Qed.

Lemma valid_item root t p : valid root (Some (t, p)) -> exists x b tot c0 c1, t = Node x b tot c0 c1 /\
  items root = before root (Some (t, p)) ++ (x, tot - total_of c0 - total_of c1) :: skipn 1 (from root (Some (t, p))).
Proof.
  intros Hv. pose proof (valid_split _ _ Hv) as Hs. destruct Hv as [_ Hn]. destruct t as [|x b tot c0 c1]; [congruence|].
  eexists _, _, _, _, _. split; [reflexivity|]. rewrite Hs. reflexivity.
Qed.

Lemma erase_range_ok root b e : wf root -> valid root b -> valid root e ->
  (length (before root b) <= length (before root e))%nat ->
  exists t' fr, erase_range root b e = Some (t', fr) /\ wf t' /\ items t' = before root b ++ from root e.
Proof.
  intros Hw Hb He Hle. unfold erase_range. destruct b as [[first pf]|].
  2:{ destruct e as [[u pu]|].
      - destruct (valid_item root u pu He) as (y & ? & ? & ? & ? & _ & Hi). change (before root None) with (items root) in Hle.
        rewrite Hi in Hle at 1. rewrite length_app in Hle. cbn [length] in Hle. lia.
      - cbn. exists root, []. rewrite app_nil_r. auto. }
  destruct (valid_item root first pf Hb) as (x & xb & xt & xc0 & xc1 & -> & Hix).
  assert (Hrest : forall last pl, previous root e = Some (last, pl) -> valid root (Some (last, pl)) ->
    (length (before root (Some (Node x xb xt xc0 xc1, pf))) <= length (before root (Some (last, pl))))%nat ->
    (exists it, from root (Some (last, pl)) = it :: from root e) ->
    same_node (Some (Node x xb xt xc0 xc1, pf)) e = false ->
    exists t' fr, (if same_node (Some (Node x xb xt xc0 xc1, pf)) e then Some (root, [])
      else match previous root e with
      | Some (last, pl) =>
        let up := ISCommonSubtreeRoot pf pl in
        let qf := firstn (length pf - length up) pf in
        let ql := firstn (length pl - length up) pl in
        let p := skipn (length pf - length up) pf in
        let subRoot := plug (Node x xb xt xc0 xc1) qf in
        bind (eraseHalf (Node x xb xt xc0 xc1) (frames_to subRoot qf) true []) (fun '(subRoot, md1, leftHeightDelta, toFree) =>
        let last := match ql with [] => subRoot | _ => last end in
        bind (eraseHalf last (frames_to subRoot ql) false toFree) (fun '(subRoot, md2, rightHeightDelta, toFree) =>
        match subRoot with
        | Nil => None
        | Node x _ _ _ _ =>
            bind (rebalance_up subRoot p (0 + md1 + md2) (leftHeightDelta + rightHeightDelta)) (fun root =>
            bind (erase_key root x) (fun root => Some (root, toFree)))
        end))
      | None => None end) = Some (t', fr) /\ wf t' /\
      items t' = before root (Some (Node x xb xt xc0 xc1, pf)) ++ from root e).
  { intros last pl Hprev Hvl Hl2 [it Hit] Hsn. rewrite Hsn, Hprev.
    destruct (erase_between root _ pf last pl Hw Hb Hvl Hl2) as (t' & fr & E & Wt & it' & _ & Hi).
    exists t', fr. split; [exact E|]. split; [exact Wt|]. rewrite Hi, Hit. reflexivity. }
  destruct e as [[u pu]|].
  - destruct (valid_item root u pu He) as (y & yb & yt & yc0 & yc1 & -> & Hiy). destruct Hw as [Ha Hs].
    destruct (sorted_positions _ _ _ _ _ _ _ _ _ Hs Hix Hiy Hle) as [Hlt|[-> Heq]].
    + rewrite Hlt. cbn [gtb negb].
      assert (Hstrict : (length (before root (Some (Node x xb xt xc0 xc1, pf))) < length (before root (Some (Node y yb yt yc0 yc1, pu))))%nat).
      { destruct (le_lt_dec (length (before root (Some (Node y yb yt yc0 yc1, pu)))) (length (before root (Some (Node x xb xt xc0 xc1, pf))))) as [G|G]; [|exact G].
        exfalso. destruct (sorted_positions _ _ _ _ _ _ _ _ _ Hs Hiy Hix G) as [Hgt|[-> _]].
        - pose proof (compare_trans _ _ _ Hlt Hgt) as Hc. rewrite compare_refl in Hc. discriminate.
        - rewrite compare_refl in Hlt. discriminate. }
      destruct (previous_ok root (Some (Node y yb yt yc0 yc1, pu)) He) as (it & Hf & Hbf & Hv & Hn).
      { intros E. rewrite E in Hstrict. cbn in Hstrict. lia. }
      destruct (previous root _) as [[last pl]|] eqn:Ep; [|congruence].
      apply (Hrest last pl); auto.
      * rewrite Hbf, length_app in Hstrict. cbn [length] in Hstrict. lia.
      * eauto.
      * destruct (same_node _ _) eqn:Esn; [|reflexivity]. apply same_node_dirs in Esn.
        destruct (plug_dirs_inj _ _ _ _ (eq_trans (proj1 Hb) (eq_sym (proj1 He))) Esn) as [[= -> _ _ _ _] _].
        rewrite compare_refl in Hlt. discriminate.
    + rewrite compare_refl. cbn [gtb negb].
      pose proof (find_node root _ _ _ _ _ _ Hs (proj1 Hb)) as F1. pose proof (find_node root _ _ _ _ _ _ Hs (proj1 He)) as F2.
      rewrite F1 in F2. injection F2 as -> -> -> -> ->.
      rewrite (proj2 (same_node_dirs _ _ _ _) eq_refl). exists root, []. split; [reflexivity|]. split; [split; assumption|].
      now apply valid_split.
  - cbn [negb]. destruct (previous_ok root None I) as (it & Hf & Hbf & Hv & Hn).
    { cbn [before]. rewrite Hix. intros E. now apply app_eq_nil in E. }
    destruct (previous root None) as [[last pl]|] eqn:Ep; [|congruence].
    apply (Hrest last pl); auto; [|eauto].
    apply (f_equal (@length _)) in Hbf. change (before root None) with (items root) in Hbf.
    rewrite Hix, !length_app in Hbf. cbn [length] in Hbf. lia.
Qed.

Lemma erase_keys_ok root a b : wf root -> compare a b <> Gt ->
  exists t' fr, erase_keys root a b = Some (t', fr) /\ wf t' /\
    items t' = filter (fun it => ltb (compare (fst it) a) || negb (ltb (compare (fst it) b))) (items root).
Proof.
  intros Hw Hab. destruct (lower_bounds_between root a b Hw Hab) as (M & E1 & E2 & HM).
  destruct (lower_bound_ok root a Hw) as (Va & Ba & _). destruct (lower_bound_ok root b Hw) as (Vb & _ & Fb).
  destruct (erase_range_ok root _ _ Hw Va Vb) as (t' & fr & E & Wt & Hi); [rewrite E1, length_app; lia|].
  exists t', fr. split; [exact E|]. split; [exact Wt|]. rewrite Hi, (valid_split _ _ Va), E2, !filter_app.
  rewrite filter_all, filter_none, filter_all; [reflexivity|..].
  - eapply Forall_impl; [|exact Fb]. cbv beta. intros it Hk. destruct (compare (fst it) b); cbn; rewrite ?orb_true_r; congruence.
  - eapply Forall_impl; [|exact HM]. cbv beta. intros it [H1 ->]. destruct (compare (fst it) a); cbn; congruence.
  - eapply Forall_impl; [|exact Ba]. cbv beta. intros it ->. reflexivity.
Qed.

(** ** Freeing *)

Fixpoint keys t : list T := match t with Nil => [] | Node x _ _ c0 c1 => keys c0 ++ x :: keys c1 end.
Definition forest_keys (l : list tree) : list T := flat_map keys l.
Definition no_nil (l : list (@tree T)) : Prop := Forall (fun t => t <> Nil) l.

Lemma forest_app l r : forest_keys (l ++ r) = forest_keys l ++ forest_keys r.
Proof. apply flat_map_app. Qed.

Lemma prefetch_ok n toFree queue : no_nil toFree -> no_nil queue ->
  let '(tf, qu) := prefetch n toFree queue in
  no_nil tf /\ no_nil qu /\ Permutation (forest_keys (toFree ++ queue)) (forest_keys (tf ++ qu)) /\
  (qu = [] -> n = 0%nat \/ toFree ++ queue = []) /\ (queue <> [] -> qu <> []).
Proof.
  revert toFree queue. induction n as [|n IH]; intros toFree queue Ht Hq; cbn [prefetch]; [repeat split; auto|].
  destruct (_ && _) eqn:E.
  - apply andb_true_iff in E as [_ E]. destruct toFree as [|t l _] using rev_ind; [discriminate|].
    rewrite removelast_last, last_last. apply Forall_app in Ht as [Hl Ht]. apply Forall_inv in Ht.
    specialize (IH l (queue ++ [t]) Hl ltac:(apply Forall_app; split; [exact Hq|repeat constructor; exact Ht])).
    destruct (prefetch n l (queue ++ [t])) as [tf qu]. destruct IH as (H1 & H2 & H3 & H4 & H5). repeat split; auto.
    + etransitivity; [|exact H3]. rewrite !forest_app. cbn. rewrite app_nil_r, <- app_assoc.
      apply Permutation_app_head. apply Permutation_app_comm.
    + intros Hqu. exfalso. apply (H5 ltac:(destruct queue; discriminate) Hqu).
    + intros _. apply H5. destruct queue; discriminate.
  - repeat split; auto. intros ->. destruct toFree; [right; reflexivity|]. cbn in E. discriminate.
Qed.

(** Each call frees one node of the forest and keeps the rest. *)
Lemma free_one toFree queue : no_nil toFree -> no_nil queue -> toFree ++ queue <> [] ->
  exists x tf qu, ISFreeNodeImpl toFree queue = Some (Some x, tf, qu) /\ no_nil tf /\ no_nil qu /\
    Permutation (forest_keys (toFree ++ queue)) (x :: forest_keys (tf ++ qu)).
Proof.
  intros Ht Hq Hne. unfold ISFreeNodeImpl. pose proof (prefetch_ok 10 toFree queue Ht Hq) as Hp.
  destruct (prefetch 10 toFree queue) as [tf qu]. destruct Hp as (H1 & H2 & H3 & H4 & _).
  assert (Hqu : qu <> []) by (intros E; destruct (H4 E); [discriminate|contradiction]).
  destruct qu as [|t qu]; [congruence|]. pose proof (Forall_inv H2) as Hn. apply Forall_inv_tail in H2. cbv beta in Hn.
  destruct t as [|x b tot c0 c1]; [congruence|].
  exists x, ((if is_nil c1 then (if is_nil c0 then tf else tf ++ [c0]) else (if is_nil c0 then tf else tf ++ [c0]) ++ [c1])), qu.
  split; [destruct queue; [destruct toFree; [contradiction|]|]; reflexivity|].
  split; [|split; [exact H2|]].
  - destruct c0, c1; cbn [is_nil]; repeat (apply Forall_app; split); auto; repeat constructor; discriminate.
  - etransitivity; [exact H3|]. rewrite !forest_app. cbn [forest_keys flat_map keys]. fold (forest_keys qu).
    assert (Hk : forall c l, forest_keys (if is_nil c then l else l ++ [c]) = forest_keys l ++ keys c).
    { intros [|] l; cbn [is_nil keys]; [now rewrite app_nil_r|]. rewrite forest_app. cbn. now rewrite app_nil_r. }
    rewrite !Hk. rewrite <- !app_assoc. cbn [app].
    rewrite !(app_assoc (forest_keys tf)). symmetry. apply Permutation_middle.
Qed.

Lemma free_all fuel : forall toFree queue, no_nil toFree -> no_nil queue ->
  (length (forest_keys (toFree ++ queue)) < fuel)%nat ->
  exists l, ISFreeNodesSync fuel toFree queue = Some (map Some l) /\ Permutation (forest_keys (toFree ++ queue)) l.
Proof.
  induction fuel as [|fuel IH]; intros toFree queue Ht Hq Hf; [lia|]. cbn [ISFreeNodesSync].
  destruct (toFree ++ queue) as [|t0 r0] eqn:E.
  - apply app_eq_nil in E as [-> ->]. exists []. auto.
  - destruct (free_one toFree queue Ht Hq) as (x & tf & qu & -> & H1 & H2 & H3); [congruence|].
    rewrite E in H3. pose proof (Permutation_length H3) as HL. cbn [length] in HL.
    destruct (IH tf qu H1 H2 ltac:(lia)) as (l & -> & Hl). exists (x :: l). split; [reflexivity|].
    etransitivity; [exact H3|]. now constructor.
Qed.

End Range.
