(* ===== verification/IndexedSetVector.v ===== *)
(** IndexedSet.h: inserting a sorted vector does what inserting its elements
    one by one does. *)

From Stdlib Require Import ZArith List Lia Bool.
From S2P Require Import Prelude IndexedSet IndexedSetProofs IndexedSetQueries.
Import ListNotations.
#[local] Open Scope Z_scope.

Section Vector.

Context {T : Type} `{CompareLaws T}.
Implicit Types (t root : @tree T) (p : @path T).

(** [p] leads to a null child that splits the items of [root] at [L] and [R]. *)
Definition hole root p (L R : list (T * Z)) : Prop :=
  avl_path 0 p /\ litems 0 p = L /\ ritems 0 p = R /\ items root = L ++ R.

Lemma attach_ok root p L R x m : hole root p L R -> exists t',
  insert_up m (Node x 0 m Nil Nil) p = Some t' /\ avl t' /\ items t' = L ++ (x, m) :: R.
Proof.
  intros (Ha & HL & HR & _). destruct (insert_up_ok m p (Node x 0 m Nil Nil) 0 0) as (t' & E & At & It); auto; try reflexivity; try lia.
  - cbn. repeat split; auto; lia.
  - exists t'. rewrite It, HL, HR. cbn [items total_of app]. replace (m - 0 - 0) with m by lia. auto.
Qed.

(** A zipper of an AVL tree whose focus is null is a hole. *)
Lemma plug_hole root p : avl root -> plug Nil p = root -> hole root p (litems 0 p) (ritems 0 p).
Proof.
  intros Ha Hp. unfold hole. rewrite <- Hp in Ha. apply avl_unplug in Ha as [_ Ha].
  rewrite <- Hp, items_plug. repeat split; auto.
Qed.

Lemma left_hole_ok t p : plug Nil (left_hole t p) = plug t p /\
  litems 0 (left_hole t p) = litems (total_of t) p.
Proof.
  revert p. induction t as [|x b tot c0 IH0 c1 _]; intros p; cbn [left_hole total_of]; [auto|].
  destruct (IH0 (mkF false x b tot c1 :: p)) as [E1 E2]. rewrite E1, E2. cbn [litems]. rewrite app_nil_r. auto.
Qed.

Lemma hole_after_ok root x b tot c0 c1 p : avl root -> plug (Node x b tot c0 c1) p = root ->
  exists p', hole_after (Node x b tot c0 c1) p = Some p' /\
    hole root p' (before root (Some (Node x b tot c0 c1, p)) ++ [(x, tot - total_of c0 - total_of c1)])
                 (skipn 1 (from root (Some (Node x b tot c0 c1, p)))).
Proof.
  intros Ha Hp. eexists. split; [reflexivity|]. destruct (left_hole_ok c1 (mkF true x b tot c0 :: p)) as [E1 E2].
  assert (Hpl : plug Nil (left_hole c1 (mkF true x b tot c0 :: p)) = root) by (rewrite E1; exact Hp).
  destruct (plug_hole _ _ Ha Hpl) as (A & _ & _ & I). rewrite E2 in I. cbn [litems] in E2, I.
  replace (tot - total_of c1 - total_of c0) with (tot - total_of c0 - total_of c1) in * by lia.
  assert (HL : before root (Some (Node x b tot c0 c1, p)) ++ [(x, tot - total_of c0 - total_of c1)]
    = litems tot p ++ items c0 ++ [(x, tot - total_of c0 - total_of c1)]) by (cbn; now rewrite <- app_assoc).
  rewrite HL. pose proof (valid_split root (Some (Node x b tot c0 c1, p))) as S.
  assert (Hs : items root = (litems tot p ++ items c0 ++ [(x, tot - total_of c0 - total_of c1)]) ++ skipn 1 (from root (Some (Node x b tot c0 c1, p)))).
  { rewrite S by (split; [exact Hp|discriminate]). cbn [before from child total_of skipn]. rewrite <- !app_assoc. reflexivity. }
  rewrite Hs in I. apply app_inv_head in I. repeat split; auto.
Qed.

Definition head_key (l : list (T * Z)) : option T := option_map fst (hd_error l).

Lemma linsert_found x m m' repl L R : below x L -> linsert x m repl (L ++ (x, m') :: R) = L ++ (x, if repl then m else m') :: R.
Proof. intros HL. rewrite linsert_below by exact HL. cbn [linsert]. rewrite compare_refl. destruct repl; reflexivity. Qed.

Lemma linsert_hole x m repl L R : below x L -> above x R -> linsert x m repl (L ++ R) = L ++ (x, m) :: R.
Proof.
  intros HL HR. rewrite linsert_below by exact HL. f_equal. destruct HR as [|[y n] R Hy _]; [reflexivity|].
  cbn [linsert fst] in *. now rewrite Hy.
Qed.

Lemma vsearch_ok root x m repl t : forall p be, t <> Nil -> wf root -> plug t p = root -> around x (total_of t) p ->
  be = head_key (ritems (total_of t) p) ->
  exists r be', vsearch x m repl t p be = Some (r, be') /\
  match r with
  | Found root' s => s = x /\ be' = Some x /\ avl root' /\ items root' = linsert x m repl (items root) /\
      exists L R m', items root = L ++ (x, m') :: R
  | Hole p' _ => exists L R, hole root p' L R /\ below x L /\ above x R /\ be' = head_key R
  end.
Proof.
  induction t as [|y b tot c0 IH0 c1 IH1]; intros p be Hn Hw Hp [HL HR] Hbe; [congruence|]. cbn [vsearch total_of] in *.
  pose proof Hw as [Ha Hs]. pose proof Hs as Hs'. rewrite <- Hp, items_plug in Hs'. cbn [items total_of] in Hs'.
  repeat (rewrite <- app_assoc in Hs'; cbn [app] in Hs'). rewrite app_assoc in Hs'. apply sorted_mid in Hs' as (_ & _ & B & A).
  apply below_app in B as [_ B]. apply above_app in A as [A _].
  destruct (compare x y) eqn:E; cbn [gtb].
  - apply compare_eq in E as <-. eexists _, _. split; [reflexivity|]. repeat split.
    + destruct repl; [|now rewrite Hp].
      rewrite <- Hp in Ha. apply avl_unplug in Ha as [Ht Hpa]. apply avl_plug; [exact Ht|]. apply avl_add_totals.
      now rewrite h_node in *.
    + assert (Hit : items root = (litems tot p ++ items c0) ++ (x, tot - total_of c0 - total_of c1) :: (items c1 ++ ritems tot p)).
      { rewrite <- Hp, items_plug. cbn [items total_of]. same_items. }
      rewrite Hit, linsert_found by (apply below_app; auto).
      destruct repl; [|now rewrite Hp].
      set (tt := if is_nil c1 then _ else _).
      assert (Htt : tt = m + total_of c0 + total_of c1) by (unfold tt; destruct c0, c1; cbn [is_nil total_of]; lia). clearbody tt.
      rewrite items_plug. cbn [total_of items]. destruct (add_totals_items (tt - tot) tot p) as [EL ER].
      replace (tot + (tt - tot)) with tt in EL, ER by lia. rewrite EL, ER.
      replace (tt - total_of c0 - total_of c1) with m by lia. same_items.
    + exists (litems tot p ++ items c0), (items c1 ++ ritems tot p), (tot - total_of c0 - total_of c1).
      rewrite <- Hp, items_plug. cbn [items total_of]. same_items.
  - assert (Har : around x (total_of c0) (mkF false y b tot c1 :: p)).
    { split; cbn [litems ritems]; [now rewrite app_nil_r|]. constructor; [exact E|]. apply above_app. split; [eapply above_trans; eauto|exact HR]. }
    assert (Hp0 : plug c0 (mkF false y b tot c1 :: p) = root) by exact Hp.
    destruct c0 as [|z zb zt d0 d1] eqn:E0.
    + eexists _, _. split; [reflexivity|]. destruct Har as [H1 H2].
      exists (litems 0 (mkF false y b tot c1 :: p)), (ritems 0 (mkF false y b tot c1 :: p)).
      split; [now apply plug_hole|]. repeat split; auto.
    + rewrite <- E0 in *. apply IH0; auto. subst; discriminate.
  - apply compare_gt in E. assert (Har : around x (total_of c1) (mkF true y b tot c0 :: p)).
    { split; cbn [litems ritems]; [|exact HR]. apply below_app. split; [exact HL|]. apply below_app. split; [eapply below_trans; eauto|].
      repeat constructor. exact E. }
    assert (Hp1 : plug c1 (mkF true y b tot c0 :: p) = root) by exact Hp.
    destruct c1 as [|z zb zt d0 d1] eqn:E1.
    + eexists _, _. split; [reflexivity|]. destruct Har as [H1 H2].
      exists (litems 0 (mkF true y b tot c0 :: p)), (ritems 0 (mkF true y b tot c0 :: p)).
      split; [now apply plug_hole|]. repeat split; auto.
    + rewrite <- E1 in *. apply IH1; auto. subst; discriminate.
Qed.

Lemma sorted_split_unique (L L' R R' : list (T * Z)) s m m' : L ++ (s, m) :: R = L' ++ (s, m') :: R' ->
  sorted (L ++ (s, m) :: R) -> L' = L /\ R' = R.
Proof.
  intros E Hs. pose proof Hs as Hs'. rewrite E in Hs'. apply sorted_mid in Hs as (_ & _ & B & A). apply sorted_mid in Hs' as (_ & _ & B' & A').
  apply app_eq_app in E as (r & [[-> E]|[-> E]]); destruct r as [|i r]; cbn [app] in E.
  - injection E as _ ->. now rewrite app_nil_r.
  - injection E as <- ->. apply below_app in B as [_ B]. apply Forall_inv in B. cbn in B. rewrite compare_refl in B. discriminate.
  - injection E as _ ->. now rewrite app_nil_r.
  - injection E as <- ->. apply below_app in B' as [_ B']. apply Forall_inv in B'. cbn in B'. rewrite compare_refl in B'. discriminate.
Qed.

(** The reference: one insertion after the other, counting as the source does. *)
Definition lcount (replaceExisting : bool) (s : list (T * Z) * Z) (i : T * Z) : list (T * Z) * Z :=
  let '(l, n) := s in let '(x, m) := i in
  (linsert x m replaceExisting l,
   if replaceExisting || match lmetric x l with None => true | Some _ => false end then n + 1 else n).

(** What the loop keeps: the block starts at an item, and ends at the next one
    or at itself when the item was found. *)
Definition vinv (st : vstate) : Prop :=
  wf (vroot st) /\
  match blockStart st with
  | None => True
  | Some s => exists L m R, items (vroot st) = L ++ (s, m) :: R /\ (blockEnd st = Some s \/ blockEnd st = head_key R)
  end.

Definition starts_below (st : vstate) (x : T) : Prop :=
  match blockStart st with None => True | Some s => compare s x = Lt end.

Lemma lmetric_hole x L R : below x L -> above x R -> lmetric x (L ++ R) = None.
Proof.
  intros HL HR. apply lmetric_none. intros m Hin. apply in_app_iff in Hin as [Hin|Hin].
  - apply (proj1 (Forall_forall _ _) HL) in Hin. cbn in Hin. rewrite compare_refl in Hin. discriminate.
  - apply (proj1 (Forall_forall _ _) HR) in Hin. cbn in Hin. rewrite compare_refl in Hin. discriminate.
Qed.

Lemma vattach_ok st be p x m repl L R : sorted (items (vroot st)) -> hole (vroot st) p L R -> below x L -> above x R -> be = head_key R ->
  exists st', vattach st be p x m = Some st' /\ vinv st' /\ blockStart st' = Some x /\
    (items (vroot st'), num_inserted st') = lcount repl (items (vroot st), num_inserted st) (x, m).
Proof.
  intros Hs Hh HL HR ->. pose proof Hh as (_ & _ & _ & Hi). destruct (attach_ok _ _ _ _ x m Hh) as (t' & E & At & It).
  unfold vattach. rewrite E. cbn [option_map]. eexists. split; [reflexivity|]. unfold vinv. cbn [vroot blockStart blockEnd num_inserted lcount].
  assert (Hl : linsert x m repl (items (vroot st)) = L ++ (x, m) :: R) by (rewrite Hi; now apply linsert_hole).
  split; [split|].
  - split; [exact At|]. rewrite It, <- Hl. now apply linsert_sorted.
  - exists L, m, R. auto.
  - split; [reflexivity|]. rewrite It, Hl, Hi, lmetric_hole, orb_true_r by assumption. reflexivity.
Qed.

Lemma vinsert_one_ok repl st x m : vinv st -> starts_below st x ->
  exists st', vinsert_one repl st (x, m) = Some st' /\ vinv st' /\ blockStart st' = Some x /\
    (items (vroot st'), num_inserted st') = lcount repl (items (vroot st), num_inserted st) (x, m).
Proof.
  intros [Hw Hb] Hx. unfold vinsert_one. set (search := match blockStart st with None => _ | _ => _ end).
  destruct search eqn:Es.
  - destruct (vroot st) as [|y yb yt c0 c1] eqn:Er.
    + eexists. split; [reflexivity|]. unfold vinv. cbn. rewrite orb_true_r. replace (m - 0 - 0) with m by lia.
      repeat split; auto; try lia; try constructor. exists [], m, []. auto.
    + rewrite <- Er in *.
      destruct (vsearch_ok (vroot st) x m repl (vroot st) [] None) as (r & be & -> & Hr); auto; [rewrite Er; discriminate|split; constructor|].
      cbn [bind]. destruct r as [root' s|p s].
      * destruct Hr as (-> & -> & Ha & Hi & L & R & m' & Hl). eexists. split; [reflexivity|]. unfold vinv. cbn [vroot blockStart blockEnd num_inserted lcount].
        assert (HB : below x L) by (destruct Hw as [_ Hs]; rewrite Hl in Hs; apply sorted_mid in Hs; tauto).
        assert (Hit : items root' = L ++ (x, if repl then m else m') :: R) by (rewrite Hi, Hl; now apply linsert_found).
        split; [split; [split|]|].
        -- exact Ha.
        -- rewrite Hi. now apply linsert_sorted, Hw.
        -- exists L, (if repl then m else m'), R. auto.
        -- split; [reflexivity|]. rewrite Hi. f_equal. rewrite Hl, lmetric_split by exact HB. now destruct repl.
      * destruct Hr as (L & R & Hh & HL & HR & ->). apply (vattach_ok st _ p x m repl L R); auto. apply Hw.
  - unfold search, starts_below in *. destruct (blockStart st) as [s|]; [|discriminate]. destruct Hb as (L & ms & R & Hi & He).
    pose proof (find_ok (vroot st) s Hw) as Hf. destruct (find (vroot st) s) as [[t p]|].
    2:{ exfalso. apply (Hf ms). rewrite Hi. apply in_app_iff. right. now left. }
    destruct Hf as (Hv & m' & r & Hfr). pose proof (valid_split _ _ Hv) as Hsp. rewrite Hfr in Hsp.
    destruct Hw as [Ha Hs]. destruct Hv as [Hp Hn]. destruct t as [|x' b tot c0 c1]; [congruence|].
    destruct (hole_after_ok (vroot st) x' b tot c0 c1 p Ha Hp) as (p' & -> & Hh). cbn [bind].
    remember (before (vroot st) (Some (Node x' b tot c0 c1, p))) as L' eqn:EL. rewrite Hfr in Hh. cbn [skipn] in Hh.
    cbn [from] in Hfr. injection Hfr as -> <- <-.
    assert (Hsame : L' = L /\ items c1 ++ ritems tot p = R).
    { rewrite Hi in Hsp, Hs. clear - Hsp Hs H0. apply sorted_split_unique in Hsp; [tauto|exact Hs]. }
    destruct Hsame as [-> ER]. rewrite ER in *.
    rewrite Hi in Hs. apply sorted_mid in Hs as (SL & SR & BL & AR).
    apply (vattach_ok st (blockEnd st) p' x m repl (L ++ [(s, tot - total_of c0 - total_of c1)]) R); auto.
    + rewrite Hi. apply sorted_mid. auto.
    + apply below_app. split; [eapply below_trans; eauto|]. repeat constructor. exact Hx.
    + destruct He as [He|He]; rewrite He in Es.
      * apply negb_false_iff in Es. destruct (compare x s) eqn:Exs; try discriminate.
        pose proof (compare_trans _ _ _ Hx Exs) as Hc. rewrite compare_refl in Hc. discriminate.
      * destruct R as [|[e me] R]; [constructor|]. cbn [head_key hd_error option_map fst] in Es.
        apply negb_false_iff in Es. destruct (compare x e) eqn:Exe; try discriminate.
        constructor; [exact Exe|]. cbn [sorted fst] in SR. eapply above_trans; [exact Exe|tauto].
    + destruct He as [He|He]; [|exact He]. exfalso. rewrite He in Es.
      apply negb_false_iff in Es. destruct (compare x s) eqn:Exs; try discriminate.
      pose proof (compare_trans _ _ _ Hx Exs) as Hc. rewrite compare_refl in Hc. discriminate.
Qed.

Lemma vinsert_loop_ok repl data : forall st, vinv st -> sorted data ->
  match data with [] => True | i :: _ => starts_below st (fst i) end ->
  exists st', vinsert_loop repl data st = Some st' /\ wf (vroot st') /\
    (items (vroot st'), num_inserted st') = fold_left (lcount repl) data (items (vroot st), num_inserted st).
Proof.
  induction data as [|[x m] data IH]; intros st Hv Hs Hb; [exists st; split; [reflexivity|]; split; [apply Hv|reflexivity]|].
  cbn [vinsert_loop fold_left sorted fst] in *. destruct Hs as [Hab Hs].
  destruct (vinsert_one_ok repl st x m Hv Hb) as (st' & -> & Hv' & Hbs & Heq). cbn [bind]. rewrite <- Heq. apply IH; auto.
  destruct data as [|[y n] data]; [exact I|]. unfold starts_below. rewrite Hbs. exact (Forall_inv Hab).
Qed.

End Vector.
