(* ===== verification/IndexedSetTheorems.v ===== *)
(** IndexedSet.h: the properties of the component. *)

From Stdlib Require Import ZArith List Lia Bool Permutation.
From S2P Require Import Prelude IndexedSet IndexedSetProofs IndexedSetQueries IndexedSetRange IndexedSetVector.
Import ListNotations.
#[local] Open Scope Z_scope.

(** Integers as keys, for concrete sets. *)
#[export] Instance Z_Compare : Compare Z := Z.compare.
#[export] Instance Z_CompareLaws : CompareLaws Z.
Proof.
  split; unfold compare, Z_Compare.
  - apply Z.compare_eq_iff.
  - intros x y. apply Z.compare_antisym.
  - intros x y z. rewrite !Z.compare_lt_iff. apply Z.lt_trans.
Qed.

(** A left chain of three, unbalanced by two. *)
Definition tall : @tree Z := Node 10 (-2) 4 (Node 5 (-1) 3 (Node 3 0 1 Nil Nil) Nil) Nil.

(** Given a node with AVL children of any heights and an accurate balance,
    ISRebalance returns (its ASSERT never fails, no null is dereferenced and
    its recursion ends) an AVL tree with the same items and metrics, and the
    change of height it reports is the actual one, 0 or -1. *)
Theorem ISRebalance_correct {T} (t : @tree T) : pre_avl t ->
  exists t' hc, ISRebalance t = Some (t', hc) /\ avl t' /\ items t' = items t /\
    total_of t' = total_of t /\ h t' = h t + hc /\ -1 <= hc <= 0.
Proof.
  intros Hp. destruct (rebalance_ok t Hp) as (t' & hc & E & Ha & Hi & Ht & Hh & Hr & _).
  exists t', hc. auto 10.
Qed.

Lemma ISRebalance_witness : pre_avl tall /\
  exists t' hc, ISRebalance tall = Some (t', hc) /\ avl t'.
Proof.
  assert (H : pre_avl tall) by (cbn; unfold h; cbn; lia).
  split; [exact H|]. destruct (ISRebalance_correct tall H) as (t' & hc & E & Ha & _). exists t', hc. auto.
Defined.

(** C4: after any sequence of insert (replacing or not), addMetric and erase
    by key on an empty set, the tree is an AVL tree in key order whose nodes
    hold exactly the items and metrics that the same operations leave in a
    sorted association list; no operation dereferences null. *)
Theorem IndexedSet_refines_list {T} `{CompareLaws T} (ops : list sop) :
  exists t, set_run ops Nil = Some t /\ wf t /\ items t = fold_left list_step ops [].
Proof. apply (set_run_ok ops Nil). split; constructor. Qed.

Lemma IndexedSet_refines_witness :
  exists t, set_run [SInsert 5 1 true; SAddMetric 5 2; SInsert 7 4 false; SErase 9] Nil = Some t /\ wf t /\
    items t = [(5, 3); (7, 4)].
Proof. exact (IndexedSet_refines_list [SInsert 5 1 true; SAddMetric 5 2; SInsert 7 4 false; SErase 9]). Defined.

(** Find returns the item with the key or end() when there is none;
    lower_bound, upper_bound and lastLessOrEqual return the first item not
    below the key, the first above it and the last not above it, end()
    standing for none. *)
Theorem IndexedSet_search_correct {T} `{CompareLaws T} (root : @tree T) (key : T) : wf root ->
  match find root key with
  | None => forall m, ~ In (key, m) (items root)
  | Some (t, p) => valid root (Some (t, p)) /\ exists m r, from root (Some (t, p)) = (key, m) :: r
  end /\
  (let i := lower_bound root key in valid root i /\
     Forall (fun it => compare (fst it) key = Lt) (before root i) /\
     Forall (fun it => compare (fst it) key <> Lt) (from root i)) /\
  (let i := upper_bound root key in valid root i /\
     Forall (fun it => compare key (fst it) <> Lt) (before root i) /\
     Forall (fun it => compare key (fst it) = Lt) (from root i)) /\
  (let i := lastLessOrEqual root key in valid root i /\
     match i with
     | None => Forall (fun it => compare key (fst it) = Lt) (items root)
     | _ => exists it, from root i = it :: from root (upper_bound root key) /\ compare key (fst it) <> Lt
     end).
Proof.
  intros Hw. split; [now apply find_ok|]. split; [now apply lower_bound_ok|]. split; [now apply upper_bound_ok|].
  destruct (lastLessOrEqual_ok root key Hw) as [Hv Hl]. split; [exact Hv|].
  destruct (lastLessOrEqual root key); [|exact Hl]. destruct Hl as (it & Hf & _ & Hk). eauto.
Qed.

(** Items 3, 5 and 10. *)
Definition sample : @tree Z := Node 5 0 6 (Node 3 0 1 Nil Nil) (Node 10 0 3 Nil Nil).

Lemma sample_wf : wf sample.
Proof. split; cbn; unfold h; cbn; repeat split; try lia; repeat constructor. Qed.

Lemma IndexedSet_search_witness : wf sample /\
  Forall (fun it => compare (fst it) 4 = Lt) (before sample (lower_bound sample 4)).
Proof. split; [exact sample_wf|]. apply (IndexedSet_search_correct sample 4 sample_wf). Defined.

(** SumTo at an iterator is the sum of the metrics of the items before it,
    so sumRange over two keys is the sum of the metrics of the items from the
    first key up to the second. *)
Theorem IndexedSet_sums_correct {T} `{CompareLaws T} (root : @tree T) (i : iterator) (a b : T) :
  wf root -> valid root i -> compare a b <> Gt ->
  sumTo root i = sum_metrics (before root i) /\
  sumRange root (lower_bound root a) (lower_bound root b) =
  sum_metrics (filter (fun it => negb (ltb (compare (fst it) a)) && ltb (compare (fst it) b)) (items root)).
Proof.
  intros Hw Hv Hab. split; [now apply sumTo_before|]. unfold sumRange.
  destruct (lower_bound_ok root a Hw) as (Va & _). destruct (lower_bound_ok root b Hw) as (Vb & _).
  rewrite !sumTo_before, (lower_bounds_split root a b Hw Hab), sum_app by assumption. lia.
Qed.

(** With non-negative metrics, index(m) is the first item whose metric
    brings the running sum above m, or end() when the total does not exceed m. *)
Theorem IndexedSet_index_correct {T} `{CompareLaws T} (root : @tree T) (metric : Z) :
  Forall (fun it => 0 <= snd it) (items root) ->
  first_above root metric (index root metric) /\
  (index root metric = None -> items root = [] \/ sum_metrics (items root) <= metric).
Proof. apply index_ok. Qed.

Lemma IndexedSet_index_witness : Forall (fun it => 0 <= snd it) (items sample) /\
  first_above sample 1 (index sample 1).
Proof.
  assert (Hn : Forall (fun it => 0 <= snd it) (items sample)) by (repeat constructor; cbn; lia).
  split; [exact Hn|]. apply (IndexedSet_index_correct sample 1 Hn).
Defined.

Lemma IndexedSet_sums_witness : compare 3 10 <> Gt /\ wf sample /\
  sumRange sample (lower_bound sample 3) (lower_bound sample 10) = 3.
Proof.
  split; [discriminate|]. split; [exact sample_wf|].
  rewrite (proj2 (IndexedSet_sums_correct sample None 3 10 sample_wf I ltac:(discriminate))). reflexivity.
Defined.

(** Iterating from begin() with ++ visits the items in order, each once,
    and ends at end(); -- and previous() undo ++. *)
Theorem IndexedSet_iteration_correct {T} `{CompareLaws T} (root : @tree T) :
  visit (length (items root)) (begin root) = (items root, None) /\
  forall t p, valid root (Some (t, p)) -> moveIterator true t p <> None ->
    before root (previous root (moveIterator true t p)) = before root (Some (t, p)).
Proof.
  split; [apply visit_all|]. intros t p Hv Hn. destruct (next_ok root t p Hv) as (it & Hf & Hb & Hv').
  destruct (previous_ok root _ Hv') as (it' & _ & Hb' & _).
  - rewrite Hb. intros E. now apply app_eq_nil in E.
  - rewrite Hb in Hb'. now apply app_inj_tail in Hb' as [<- _].
Qed.

Lemma IndexedSet_iteration_witness : visit 3 (begin sample) = ([(3, 1); (5, 2); (10, 3)], None).
Proof. exact (proj1 (IndexedSet_iteration_correct sample)). Defined.

(** Erase(begin, end) over a key range, which splits the tree at both
    bounds, rebalances with ISRebalance all the way up and deletes the common
    root, removes exactly the items of the range and leaves a well-formed
    set; it never fails. *)
Theorem IndexedSet_erase_range_correct {T} `{CompareLaws T} (root : @tree T) (a b : T) :
  wf root -> compare a b <> Gt ->
  exists t' toFree, erase_keys root a b = Some (t', toFree) /\ wf t' /\
    items t' = filter (fun it => ltb (compare (fst it) a) || negb (ltb (compare (fst it) b))) (items root).
Proof. apply erase_keys_ok. Qed.

Lemma IndexedSet_erase_range_witness : wf sample /\
  exists t' toFree, erase_keys sample 2 7 = Some (t', toFree) /\ wf t' /\ items t' = [(10, 3)].
Proof.
  split; [exact sample_wf|].
  destruct (IndexedSet_erase_range_correct sample 2 7 sample_wf ltac:(discriminate)) as (t' & fr & E & Hw & Hi).
  exists t', fr. auto.
Defined.

(** Inserting a vector of items with strictly increasing keys gives the
    set and the count that inserting them one after the other gives, although
    the search is resumed from the previous element. *)
Theorem IndexedSet_insert_vector_correct {T} `{CompareLaws T} (root : @tree T) (data : list (T * Z)) (replaceExisting : bool) :
  wf root -> sorted data ->
  exists t' n, insert_vector root data replaceExisting = Some (t', n) /\ wf t' /\
    (items t', n) = fold_left (lcount replaceExisting) data (items root, 0).
Proof.
  intros Hw Hs. destruct (vinsert_loop_ok replaceExisting data (mkV root 0 None None)) as (st & E & Hw' & Heq); auto.
  - split; [exact Hw|exact I].
  - destruct data; exact I.
  - exists (vroot st), (num_inserted st). unfold insert_vector. rewrite E. auto.
Qed.

Lemma IndexedSet_insert_vector_witness : wf sample /\ sorted [(4, 1); (5, 9); (6, 1)] /\
  exists t' n, insert_vector sample [(4, 1); (5, 9); (6, 1)] true = Some (t', n) /\
    (items t', n) = ([(3, 1); (4, 1); (5, 9); (6, 1); (10, 3)], 3).
Proof.
  assert (Hs : sorted [(4, 1); (5, 9); (6, 1)]) by (cbn; repeat split; repeat constructor).
  split; [exact sample_wf|]. split; [exact Hs|].
  destruct (IndexedSet_insert_vector_correct sample [(4, 1); (5, 9); (6, 1)] true sample_wf Hs) as (t' & n & E & _ & Hi).
  exists t', n. split; [exact E|]. rewrite Hi. reflexivity.
Defined.

(** A vector that repeats a key, which the interface does not exclude,
    leaves the key in the set twice. *)
Theorem insert_vector_duplicates :
  option_map (fun r => (items (fst r), snd r)) (insert_vector Nil [(1, 10); (1, 20)] true)
  = Some ([(1, 10); (1, 20)], 2).
Proof. vm_compute. reflexivity. Qed.

(** Freeing a forest of detached subtrees through the prefetch queue ends,
    and deletes every node exactly once. *)
Theorem ISFreeNodes_correct {T} (toFree : list (@tree T)) :
  Forall (fun t => t <> Nil) toFree ->
  exists l, ISFreeNodesSync (S (length (forest_keys toFree))) toFree [] = Some (map Some l) /\
    Permutation (forest_keys toFree) l.
Proof.
  intros Hn. destruct (free_all (S (length (forest_keys toFree))) toFree []) as (l & E & Hp); auto.
  - constructor.
  - rewrite app_nil_r. lia.
  - rewrite app_nil_r in Hp. eauto.
Qed.

Lemma ISFreeNodes_witness : exists l, ISFreeNodesSync 4 [sample] [] = Some (map Some l) /\ Permutation [3; 5; 10] l.
Proof. apply (ISFreeNodes_correct [sample]). repeat constructor. discriminate. Defined.
