(* ===== verification/GuestContent.v ===== *)
(** The Scheme content of the RISC-V guest: loot.scm, combat.scm and
    progression.scm, translated procedure by procedure.

    The guest runs s7 without multiprecision arithmetic, so an integer is a
    64-bit [s7_int].  The arithmetic procedures return [None] where the exact
    result is not an [s7_int] (s7 then continues with a floating-point
    number, which no procedure of the content expects) or where s7 raises an
    error; [option] is threaded through every procedure that computes. *)

From Stdlib Require Import ZArith List Bool.
Import ListNotations.
From S2P Require Import Prelude.
#[local] Open Scope Z_scope.

Declare Scope content_scope.
Delimit Scope content_scope with content.

Definition obind {A B} (o : option A) (k : A -> option B) : option B :=
  match o with Some a => k a | None => None end.

Notation "'let*' x ':=' e 'in' k" := (obind e (fun x => k))
  (at level 61, x pattern, e at next level, right associativity) : content_scope.
#[local] Open Scope content_scope.

(** * s7's integer procedures *)

Module S7Int.

Definition s7_int_ok (x : Z) : bool := (- 2 ^ 63 <=? x) && (x <? 2 ^ 63).

Definition s7_int (x : Z) : option Z := if s7_int_ok x then Some x else None.

Definition add (x y : Z) : option Z := s7_int (x + y).

Definition sub (x y : Z) : option Z := s7_int (x - y).

(** [c_ash]: left shifts drop the high bits and reread the result as signed;
    a shift by 64 or more is an error; right shifts are arithmetic. *)
Definition c_ash (arg1 arg2 : Z) : option Z :=
  if arg1 =? 0 then Some 0
  else if arg2 >=? 64 then None
  else if arg2 <? -64 then (if arg1 <? 0 then Some (-1) else Some 0)
  else if arg2 >=? 0 then Some (i64 (Z.shiftl arg1 arg2))
  else Some (Z.shiftr arg1 (- arg2)).

Definition c_logxor (x y : Z) : Z := Z.lxor x y.

Definition c_logand (x y : Z) : Z := Z.land x y.

End S7Int.

(** * loot.scm *)

Module Loot.
Import S7Int.

(** Entries are [(item . weight)] pairs. *)
Definition table := list (Z * Z).

Definition u32 (x : Z) : Z := c_logand x 0xFFFFFFFF.

Definition xorshift32_next32 (s : Z) : option Z :=
  let* a := c_ash s 13 in
  let s := u32 (c_logxor s (u32 a)) in
  let* b := c_ash s (-17) in
  let s := u32 (c_logxor s b) in
  let* c := c_ash s 5 in
  Some (u32 (c_logxor s (u32 c))).

Definition rng_range (seed bound : Z) : option Z :=
  if bound =? 0 then Some 0
  else let* r := xorshift32_next32 seed in Some (r mod bound).

Fixpoint total_weight_loop (t : table) (acc : Z) : option Z :=
  match t with
  | [] => Some acc
  | e :: t' => let* acc' := add acc (snd e) in total_weight_loop t' acc'
  end.

Definition total_weight (t : table) : option Z := total_weight_loop t 0.

Fixpoint pick (t : table) (r acc : Z) : option Z :=
  match t with
  | [] => Some 0
  | (item, w) :: t' =>
      let* new_acc := add acc w in
      if r <? new_acc then Some item else pick t' r new_acc
  end.

Definition loot_roll (seed : Z) (t : table) : option Z :=
  let* tot := total_weight t in
  if tot =? 0 then Some 0
  else let* r := rng_range seed tot in pick t r 0.

End Loot.

(** * combat.scm *)

Module Combat.
Import S7Int.

Definition combo_min_gap : Z := 6.
Definition combo_max_gap : Z := 18.
Definition invuln_ticks : Z := 30.
Definition enemy_max_hp : Z := 100.

Definition damage_of (stage : Z) : Z :=
  if stage =? 0 then 10 else if stage =? 1 then 15 else 25.

Record state := make_state {
  tick : Z;
  combo : Z;
  last_attack : Z;
  hp : Z;
  spawn : Z;
  alive : bool
}.

Definition initial_state : state := make_state 0 0 0 0 0 false.

(** [record-with]: each update keeps the fields it does not name. *)
Definition with_tick v s := make_state v (combo s) (last_attack s) (hp s) (spawn s) (alive s).
Definition with_combo v s := make_state (tick s) v (last_attack s) (hp s) (spawn s) (alive s).
Definition with_last_attack v s := make_state (tick s) (combo s) v (hp s) (spawn s) (alive s).
Definition with_hp v s := make_state (tick s) (combo s) (last_attack s) v (spawn s) (alive s).
Definition with_spawn v s := make_state (tick s) (combo s) (last_attack s) (hp s) v (alive s).
Definition with_alive v s := make_state (tick s) (combo s) (last_attack s) (hp s) (spawn s) v.

(** Any other datum falls through [combat-step]'s [cond]: [EvOther]. *)
Inductive event := EvTick | EvSpawn | EvAttack | EvOther.

Inductive output :=
| Swing (stage : Z)
| Blocked
| Hit (dmg : Z)
| Death
| ComboDrop
| Whiff.

Definition resolve_swing (s : state) (stage : Z) : option (state * list output) :=
  if negb (alive s) then Some (s, [Swing stage])
  else
    let* until := add (spawn s) invuln_ticks in
    if tick s <? until then Some (s, [Swing stage; Blocked])
    else
      let dmg := damage_of stage in
      if hp s <=? dmg
      then Some (with_hp 0 (with_alive false s), [Swing stage; Hit dmg; Death])
      else
        let* hp' := sub (hp s) dmg in
        Some (with_hp hp' s, [Swing stage; Hit dmg]).

Definition combat_step (s : state) (e : event) : option (state * list output) :=
  match e with
  | EvTick =>
      let* t := add (tick s) 1 in
      let s1 := with_tick t s in
      if combo s1 >? 0 then
        let* limit := add (last_attack s1) combo_max_gap in
        if tick s1 >? limit then Some (with_combo 0 s1, [ComboDrop]) else Some (s1, [])
      else Some (s1, [])
  | EvSpawn => Some (with_alive true (with_hp enemy_max_hp (with_spawn (tick s) s)), [])
  | EvAttack =>
      if combo s =? 0
      then resolve_swing (with_combo 1 (with_last_attack (tick s) s)) 0
      else
        let* gap := sub (tick s) (last_attack s) in
        if (combo_min_gap <=? gap) && (gap <=? combo_max_gap)
        then
          let stage := combo s in
          let* next := if stage >=? 2 then Some 0 else add stage 1 in
          resolve_swing (with_combo next (with_last_attack (tick s) s)) stage
        else Some (with_combo 0 s, [Whiff])
  | EvOther => Some (s, [])
  end.

Fixpoint combat_replay_loop (evs : list event) (s : state) (out : list output)
  : option (state * list output) :=
  match evs with
  | [] => Some (s, out)
  | e :: evs' =>
      let* (s', o) := combat_step s e in
      combat_replay_loop evs' s' (out ++ o)
  end.

Definition combat_replay (evs : list event) : option (state * list output) :=
  combat_replay_loop evs initial_state [].

End Combat.

(** * progression.scm *)

Module Progression.
Import S7Int.

Record profile := make_profile {
  credits : Z;
  affinity : Z;
  items : list (Z * Z);
  arts : list Z
}.

Definition initial_profile : profile := make_profile 200 15 [] [].

Definition with_credits v p := make_profile v (affinity p) (items p) (arts p).
Definition with_affinity v p := make_profile (credits p) v (items p) (arts p).
Definition with_items v p := make_profile (credits p) (affinity p) v (arts p).
Definition with_arts v p := make_profile (credits p) (affinity p) (items p) v.

Definition art_cost (a : Z) : Z := if a =? 1 then 100 else if a =? 2 then 250 else 500.

Definition art_affinity_req (a : Z) : Z := if a =? 1 then 10 else if a =? 2 then 25 else 40.

(** [assoc] on an association list with integer keys. *)
Fixpoint assoc (k : Z) (l : list (Z * Z)) : option (Z * Z) :=
  match l with
  | [] => None
  | e :: l' => if fst e =? k then Some e else assoc k l'
  end.

Definition member (k : Z) (l : list Z) : bool := existsb (Z.eqb k) l.

Fixpoint filter {A} (pred : A -> bool) (lst : list A) : list A :=
  match lst with
  | [] => []
  | x :: lst' => if pred x then x :: filter pred lst' else filter pred lst'
  end.

(** [map] with a procedure that computes. *)
Fixpoint omap {A B} (f : A -> option B) (l : list A) : option (list B) :=
  match l with
  | [] => Some []
  | x :: l' => let* y := f x in let* ys := omap f l' in Some (y :: ys)
  end.

Definition count_of (p : profile) (item : Z) : Z :=
  match assoc item (items p) with Some e => snd e | None => 0 end.

Definition add_item (p : profile) (item d : Z) : option profile :=
  match assoc item (items p) with
  | Some _ =>
      let* its := omap (fun e =>
        if fst e =? item then let* n := add (snd e) d in Some (fst e, n) else Some e)
        (items p) in
      Some (with_items its p)
  | None => Some (with_items (items p ++ [(item, d)]) p)
  end.

Definition remove_item (p : profile) (item : Z) : option profile :=
  let* its := omap (fun e =>
    if fst e =? item then let* n := sub (snd e) 1 in Some (fst e, n) else Some e)
    (items p) in
  Some (with_items (filter (fun e => snd e >? 0) its) p).

Inductive event :=
| Grant (item : Z)
| Sell (item price : Z)
| BuyArt (art : Z)
| Train
| EvOther.

Inductive output :=
| Granted (item : Z)
| RefusedNoItem (item : Z)
| Sold (item price : Z)
| RefusedDup (art : Z)
| RefusedGate (art : Z)
| RefusedPoor (art : Z)
| Learned (art : Z)
| Trained (a : Z).

Definition progression_step (p : profile) (e : event) : option (profile * list output) :=
  match e with
  | Grant item =>
      let* p' := add_item p item 1 in Some (p', [Granted item])
  | Sell item price =>
      if count_of p item =? 0 then Some (p, [RefusedNoItem item])
      else
        let* c := add (credits p) price in
        let* p' := remove_item (with_credits c p) item in
        Some (p', [Sold item price])
  | BuyArt art =>
      if member art (arts p) then Some (p, [RefusedDup art])
      else if affinity p <? art_affinity_req art then Some (p, [RefusedGate art])
      else if credits p <? art_cost art then Some (p, [RefusedPoor art])
      else
        let* c := sub (credits p) (art_cost art) in
        Some (with_credits c (with_arts (arts p ++ [art]) p), [Learned art])
  | Train =>
      let* a := add (affinity p) 1 in
      Some (with_affinity a p, [Trained a])
  | EvOther => Some (p, [])
  end.

Fixpoint progression_replay_loop (evs : list event) (p : profile) (out : list output)
  : option (profile * list output) :=
  match evs with
  | [] => Some (p, out)
  | e :: evs' =>
      let* (p', o) := progression_step p e in
      progression_replay_loop evs' p' (out ++ o)
  end.

Definition progression_replay (evs : list event) : option (profile * list output) :=
  progression_replay_loop evs initial_profile [].

End Progression.

(** * Reference vectors of the content's golden tests *)

Example loot_golden : Loot.loot_roll 42 [(1, 10); (2, 20); (3, 5)] = Some 3.
Proof. reflexivity. Qed.

Example combat_golden :
  option_map fst (Combat.combat_replay
    ([Combat.EvSpawn] ++ repeat Combat.EvTick 30 ++ [Combat.EvAttack]))
  = Some (Combat.make_state 30 1 30 90 0 true).
Proof. reflexivity. Qed.

Example progression_golden :
  option_map fst (Progression.progression_replay
    [Progression.Grant 1; Progression.Grant 1; Progression.Sell 1 50;
     Progression.Train; Progression.BuyArt 1])
  = Some (Progression.make_profile 150 16 [(1, 1)] [1]).
Proof. reflexivity. Qed.
