(* ===== verification/LootProofs.v ===== *)
(** loot.scm: the 32-bit generator computed with 64-bit integers, and the
    weighted pick. *)

From Stdlib Require Import ZArith List Bool Lia.
Import ListNotations.
From S2P Require Import Prelude GuestContent.
Import S7Int Loot.
#[local] Open Scope Z_scope.
#[local] Open Scope content_scope.

(** * Words of w bits under xor and shifts *)

Lemma wrap_bits w x n : 0 <= w -> 0 <= n ->
  Z.testbit (wrap w x) n = (n <? w) && Z.testbit x n.
Proof.
  intros Hw Hn. unfold wrap. destruct (Z.ltb_spec n w) as [L|L].
  - apply Z.mod_pow2_bits_low; lia.
  - apply Z.mod_pow2_bits_high; lia.
Qed.

Lemma wrap_lxor w x y : 0 <= w -> wrap w (Z.lxor x y) = Z.lxor (wrap w x) (wrap w y).
Proof.
  intros Hw. apply Z.bits_inj'. intros n Hn.
  rewrite Z.lxor_spec, !wrap_bits, Z.lxor_spec by lia.
  destruct (n <? w); reflexivity.
Qed.

Lemma wrap_shiftl w x k : 0 <= w -> 0 <= k ->
  wrap w (Z.shiftl (wrap w x) k) = wrap w (Z.shiftl x k).
Proof.
  intros Hw Hk. rewrite !Z.shiftl_mul_pow2 by lia. apply wrap_mul_l.
Qed.

Lemma wrap_swrap v w x : 0 <= v < w -> wrap v (swrap w x) = wrap v x.
Proof.
  intros H. unfold wrap, swrap.
  set (a := 2 ^ (w - 1)). set (m := x + a).
  assert (E : 2 ^ w = 2 ^ (w - v) * 2 ^ v) by (rewrite <- Z.pow_add_r by lia; f_equal; lia).
  assert (P : 0 < 2 ^ v) by (apply Z.pow_pos_nonneg; lia).
  assert (Q : 0 < 2 ^ w) by (apply Z.pow_pos_nonneg; lia).
  replace (m mod 2 ^ w - a) with (x + (- (m / 2 ^ w) * 2 ^ (w - v)) * 2 ^ v).
  - apply Z.mod_add; lia.
  - rewrite Z.mod_eq by lia. generalize (m / 2 ^ w). intros q. rewrite E. subst m. ring.
Qed.

Lemma lxor_range w x y : 0 <= w -> 0 <= x < 2 ^ w -> 0 <= y < 2 ^ w ->
  0 <= Z.lxor x y < 2 ^ w.
Proof.
  intros Hw Hx Hy. rewrite <- (wrap_id w x Hx), <- (wrap_id w y Hy), <- wrap_lxor by lia.
  apply wrap_range; lia.
Qed.

Lemma shiftr_word w x k : 0 <= k -> 0 <= x < 2 ^ w -> 0 <= Z.shiftr x k < 2 ^ w.
Proof.
  intros Hk Hx. rewrite Z.shiftr_div_pow2 by lia.
  assert (0 < 2 ^ k) by (apply Z.pow_pos_nonneg; lia).
  split; [apply Z.div_pos; lia|].
  apply Z.le_lt_trans with x; [|lia]. apply Z.div_le_upper_bound; nia.
Qed.

(** A word equal to its own left shift, or to its own right shift, is 0. *)
Lemma shiftl_fixpoint w x k : 0 <= w -> 0 < k ->
  x = wrap w (Z.shiftl x k) -> x = 0.
Proof.
  intros Hw Hk E.
  assert (B : forall m n, 0 <= n < Z.of_nat m -> Z.testbit x n = false).
  { induction m as [|m IH]; intros n Hn; [lia|].
    rewrite E, wrap_bits, Z.shiftl_spec by lia. apply andb_false_iff. right.
    destruct (Z.ltb_spec n k) as [L|L]; [apply Z.testbit_neg_r; lia|apply IH; lia]. }
  apply Z.bits_inj'. intros n Hn. rewrite Z.bits_0. apply (B (S (Z.to_nat n))). lia.
Qed.

Lemma shiftr_fixpoint x k : 0 < k -> 0 <= x -> x = Z.shiftr x k -> x = 0.
Proof.
  intros Hk Hx E. rewrite Z.shiftr_div_pow2 in E by lia.
  assert (2 ^ 1 <= 2 ^ k) by (apply Z.pow_le_mono_r; lia).
  destruct (Z.eq_dec x 0) as [->|N]; [reflexivity|].
  assert (x / 2 ^ k < x) by (apply Z.div_lt; lia). lia.
Qed.

(** * xorshift32 on 32-bit words *)

(** The generator as the 32-bit recurrence
    [x ^= x << 13; x ^= x >> 17; x ^= x << 5]. *)
Definition shl_step (k x : Z) : Z := Z.lxor x (wrap 32 (Z.shiftl x k)).
Definition shr_step (k x : Z) : Z := Z.lxor x (Z.shiftr x k).
Definition xorshift32 (x : Z) : Z := shl_step 5 (shr_step 17 (shl_step 13 x)).

Lemma shl_step_range k x : 0 <= x < 2 ^ 32 -> 0 <= shl_step k x < 2 ^ 32.
Proof. intros H. apply lxor_range; [lia|lia|apply wrap_range; lia]. Qed.

Lemma shr_step_range k x : 0 <= k -> 0 <= x < 2 ^ 32 -> 0 <= shr_step k x < 2 ^ 32.
Proof. intros K H. apply lxor_range; [lia|lia|apply shiftr_word; lia]. Qed.

Lemma lxor_eq_shift a b c d : Z.lxor a b = Z.lxor c d -> Z.lxor a c = Z.lxor b d.
Proof.
  intros H. apply Z.bits_inj'. intros n Hn. apply (f_equal (fun z => Z.testbit z n)) in H.
  cbv beta in H. rewrite !Z.lxor_spec in *.
  destruct (Z.testbit a n), (Z.testbit b n), (Z.testbit c n), (Z.testbit d n); easy.
Qed.

Lemma shl_step_inj k x y : 0 < k -> shl_step k x = shl_step k y -> x = y.
Proof.
  intros K H. apply lxor_eq_shift in H. rewrite <- wrap_lxor, <- Z.shiftl_lxor in H by lia.
  apply Z.lxor_eq. eapply shiftl_fixpoint; [| |exact H]; lia.
Qed.

Lemma shr_step_inj k x y : 0 < k -> 0 <= x -> 0 <= y -> shr_step k x = shr_step k y -> x = y.
Proof.
  intros K Hx Hy H. apply lxor_eq_shift in H. rewrite <- Z.shiftr_lxor in H.
  apply Z.lxor_eq. eapply shiftr_fixpoint; [exact K| |exact H].
  apply Z.lxor_nonneg. tauto.
Qed.

Lemma xorshift32_range x : 0 <= x < 2 ^ 32 -> 0 <= xorshift32 x < 2 ^ 32.
Proof. intros H. apply shl_step_range, shr_step_range, shl_step_range; lia. Qed.

Lemma xorshift32_inj x y : 0 <= x < 2 ^ 32 -> 0 <= y < 2 ^ 32 ->
  xorshift32 x = xorshift32 y -> x = y.
Proof.
  intros Hx Hy H. apply shl_step_inj in H; [|lia].
  apply shr_step_inj in H; [|lia|apply shl_step_range; lia|apply shl_step_range; lia].
  apply shl_step_inj in H; [exact H|lia].
Qed.

(** * The content's generator *)

Lemma loot_u32 x : Loot.u32 x = wrap 32 x.
Proof. exact (Z.land_ones x 32 ltac:(lia)). Qed.

Lemma c_ash_left x k : 0 <= k < 64 -> exists a, c_ash x k = Some a /\ wrap 32 a = wrap 32 (Z.shiftl x k).
Proof.
  intros K. unfold c_ash. destruct (Z.eqb_spec x 0) as [->|N].
  { exists 0. rewrite Z.shiftl_0_l. auto. }
  rewrite !Z.geb_leb. zcases; try lia.
  eexists; split; [reflexivity|]. apply wrap_swrap. lia.
Qed.

Lemma c_ash_right x k : 0 < k <= 64 -> c_ash x (- k) = Some (Z.shiftr x k).
Proof.
  intros K. unfold c_ash. destruct (Z.eqb_spec x 0) as [->|N].
  { rewrite Z.shiftr_0_l. reflexivity. }
  rewrite !Z.geb_leb. zcases; try lia. now rewrite Z.opp_involutive.
Qed.

Lemma next32_eq s : xorshift32_next32 s = Some (xorshift32 (wrap 32 s)).
Proof.
  unfold xorshift32_next32.
  destruct (c_ash_left s 13 ltac:(lia)) as (a & -> & Ea). cbn [obind].
  unfold c_logxor. rewrite !loot_u32, wrap_lxor, wrap_wrap, Ea by lia.
  rewrite <- wrap_shiftl by lia. fold (shl_step 13 (wrap 32 s)).
  pose proof (shl_step_range 13 (wrap 32 s) (wrap_range 32 s ltac:(lia))) as R1.
  rewrite (c_ash_right _ 17) by lia. cbn [obind]. fold (shr_step 17 (shl_step 13 (wrap 32 s))).
  pose proof (shr_step_range 17 _ ltac:(lia) R1) as R2.
  rewrite loot_u32, (wrap_id 32 (shr_step _ _)) by exact R2.
  destruct (c_ash_left (shr_step 17 (shl_step 13 (wrap 32 s))) 5 ltac:(lia)) as (c & -> & Ec).
  cbn [obind]. rewrite !loot_u32, Ec. fold (shl_step 5 (shr_step 17 (shl_step 13 (wrap 32 s)))).
  rewrite wrap_id; [reflexivity|]. apply shl_step_range, R2.
Qed.

(** * Weighted pick *)

Fixpoint weights (t : table) : Z :=
  match t with [] => 0 | e :: t' => snd e + weights t' end.

Definition weights_ok (t : table) : Prop := Forall (fun e => 0 <= snd e) t.

Lemma weights_nonneg t : weights_ok t -> 0 <= weights t.
Proof. induction 1 as [|e t He Ht IH]; cbn [weights]; lia. Qed.

Lemma s7_int_some x : - 2 ^ 63 <= x < 2 ^ 63 -> s7_int x = Some x.
Proof.
  intros H. unfold s7_int, s7_int_ok.
  destruct (Z.leb_spec (- 2 ^ 63) x), (Z.ltb_spec x (2 ^ 63)); try lia. reflexivity.
Qed.

Lemma s7_int_inv x y : s7_int x = Some y -> y = x /\ - 2 ^ 63 <= x < 2 ^ 63.
Proof.
  unfold s7_int, s7_int_ok.
  destruct (Z.leb_spec (- 2 ^ 63) x), (Z.ltb_spec x (2 ^ 63)); cbn; intros E; inversion E; lia.
Qed.

Lemma total_weight_eq t : weights_ok t -> forall acc, 0 <= acc -> acc + weights t < 2 ^ 63 ->
  total_weight_loop t acc = Some (acc + weights t).
Proof.
  induction 1 as [|e t He Ht IH]; intros acc Ha B; cbn [total_weight_loop weights] in *.
  - f_equal. lia.
  - pose proof (weights_nonneg t Ht).
    unfold add. rewrite s7_int_some by lia. cbn [obind]. rewrite IH by lia. f_equal. lia.
Qed.

(** The entry whose interval of the cumulated weights holds [r]. *)
Definition picks (t : table) (r item : Z) : Prop :=
  exists l w l', t = l ++ (item, w) :: l' /\ weights l <= r < weights l + w.

Lemma pick_picks t : weights_ok t -> forall r acc, 0 <= acc <= r -> acc + weights t < 2 ^ 63 ->
  r < acc + weights t -> exists item, pick t r acc = Some item /\ picks t (r - acc) item.
Proof.
  induction 1 as [|[i w] t He Ht IH]; intros r acc Ha B R; cbn [weights] in *; [lia|].
  cbn [snd] in *. pose proof (weights_nonneg t Ht).
  cbn [pick]. unfold add. rewrite s7_int_some by lia. cbn [obind].
  destruct (Z.ltb_spec r (acc + w)) as [L|L].
  - exists i. split; [reflexivity|]. exists [], w, t. cbn. split; [reflexivity|lia].
  - destruct (IH r (acc + w)) as (j & -> & l & v & l' & -> & Hr); [lia|lia|lia|].
    exists j. split; [reflexivity|]. exists ((i, w) :: l), v, l'. cbn. split; [reflexivity|lia].
Qed.

Lemma loot_roll_eq seed t : weights_ok t -> 0 < weights t < 2 ^ 63 ->
  exists item, loot_roll seed t = Some item /\
    picks t (xorshift32 (wrap 32 seed) mod weights t) item.
Proof.
  intros Hw Ht. unfold loot_roll, total_weight.
  rewrite total_weight_eq by (assumption || lia). cbn [obind]. rewrite Z.add_0_l.
  unfold rng_range. rewrite (proj2 (Z.eqb_neq (weights t) 0)) by lia.
  rewrite next32_eq. cbn [obind].
  pose proof (Z.mod_pos_bound (xorshift32 (wrap 32 seed)) (weights t) ltac:(lia)).
  destruct (pick_picks t Hw (xorshift32 (wrap 32 seed) mod weights t) 0)
    as (item & E & P); [lia|lia|lia|].
  exists item. rewrite Z.sub_0_r in P. auto.
Qed.

Lemma picks_cons k w t r i : picks ((k, w) :: t) r i ->
  (0 <= r < w /\ i = k) \/ picks t (r - w) i.
Proof.
  intros ([|e l] & v & l' & E & P); cbn [app weights] in E, P; injection E as ? ?; subst.
  - left. split; [lia|congruence].
  - right. exists l, v, l'. cbn [snd] in P. split; [reflexivity|lia].
Qed.

Lemma picks_nonneg t r i : weights_ok t -> picks t r i -> 0 <= r.
Proof.
  intros Hw (l & w & l' & -> & P). apply Forall_app in Hw.
  pose proof (weights_nonneg l (proj1 Hw)). lia.
Qed.

(** The interval of cumulated weights determines the entry. *)
Lemma picks_unique t r i j : weights_ok t -> picks t r i -> picks t r j -> i = j.
Proof.
  intros Hw. revert r. induction Hw as [|[k w] t He Ht IH]; intros r P Q.
  - destruct P as ([|? ?] & ? & ? & ? & ?); discriminate.
  - apply picks_cons in P, Q. destruct P as [[P ->]|P], Q as [[Q ->]|Q].
    + reflexivity.
    + apply picks_nonneg in Q; [lia|exact Ht].
    + apply picks_nonneg in P; [lia|exact Ht].
    + eapply IH; eauto.
Qed.

(** * Properties *)

(** Loot.scm's [xorshift32-next32], computed with s7's signed 64-bit
    integers, [ash] and masks, is for every seed the 32-bit xorshift
    recurrence on the seed's low 32 bits; its result is a 32-bit word, and on
    32-bit seeds the generator is injective and only maps 0 to 0. *)
Theorem xorshift32_next32_correct (s : Z) :
  xorshift32_next32 s = Some (xorshift32 (wrap 32 s)) /\
  0 <= xorshift32 (wrap 32 s) < 2 ^ 32 /\
  (forall s', in_range 32 s -> in_range 32 s' ->
     xorshift32_next32 s = xorshift32_next32 s' -> s = s') /\
  (in_range 32 s -> xorshift32_next32 s = Some 0 -> s = 0).
Proof.
  unfold in_range. split; [apply next32_eq|]. split; [apply xorshift32_range, wrap_range; lia|].
  assert (I : forall s', 0 <= s < 2 ^ 32 -> 0 <= s' < 2 ^ 32 ->
    xorshift32_next32 s = xorshift32_next32 s' -> s = s').
  { intros s' H H'. rewrite !next32_eq, !wrap_id by assumption. intros [= E].
    now apply xorshift32_inj. }
  split; [exact I|]. intros H E. apply (I 0 H); [lia|]. rewrite E. reflexivity.
Qed.

(** [loot-roll] on a table of nonnegative weights whose sum is positive
    and fits an s7 integer always returns an item of the table: the only one
    whose interval of cumulated weights contains the generator's output modulo
    the total weight (an entry of weight 0 is never returned). *)
Theorem loot_roll_correct (seed : Z) (t : table)
  (Hw : weights_ok t) (Ht : 0 < weights t < 2 ^ 63) :
  exists item, loot_roll seed t = Some item /\
    (forall j, picks t (xorshift32 (wrap 32 seed) mod weights t) j <-> j = item).
Proof.
  destruct (loot_roll_eq seed t Hw Ht) as (item & E & P). exists item. split; [exact E|].
  intros j. split; [|intros ->; exact P]. intros Q. eapply picks_unique; eauto.
Qed.

Lemma loot_roll_correct_witness :
  let t := [(1, 10); (2, 20); (3, 5)] in
  weights_ok t /\ weights t = 35 /\ exists item, loot_roll 42 t = Some item /\
    (forall j, picks t (xorshift32 (wrap 32 42) mod weights t) j <-> j = item).
Proof.
  intros t. assert (Hw : weights_ok t) by (repeat constructor; cbn; lia).
  split; [exact Hw|]. split; [reflexivity|].
  apply (loot_roll_correct 42 t Hw). cbn. lia.
Defined.
