(* ===== verification/CombatProofs.v ===== *)
(** combat.scm: the invariant of the combat reducer, the effect of every event
    and the totality of replays. *)

From Stdlib Require Import ZArith List Bool Lia.
Import ListNotations.
From S2P Require Import Prelude GuestContent LootProofs.
Import S7Int Combat.
#[local] Open Scope Z_scope.
#[local] Open Scope content_scope.

(** * Invariant *)

(** Clocks never run ahead of [tick]; an enemy is alive exactly when it has hit
    points; an open combo is never older than [combo_max_gap]. *)
Record combat_inv (s : state) : Prop := {
  ci_spawn : 0 <= spawn s <= tick s;
  ci_last : 0 <= last_attack s <= tick s;
  ci_combo : 0 <= combo s <= 2;
  ci_window : 0 < combo s -> tick s <= last_attack s + combo_max_gap;
  ci_hp : 0 <= hp s <= enemy_max_hp;
  ci_alive : alive s = true <-> 0 < hp s
}.

Definition hits (out : list output) : Z :=
  fold_right (fun o n => match o with Hit d => d + n | _ => n end) 0 out.

Definition is_death (o : output) : bool := match o with Death => true | _ => false end.
Definition is_swing (o : output) : bool := match o with Swing _ => true | _ => false end.
Definition is_break (o : output) : bool :=
  match o with ComboDrop | Whiff => true | _ => false end.
Definition is_tick (e : event) : bool := match e with EvTick => true | _ => false end.
Definition is_spawn (e : event) : bool := match e with EvSpawn => true | _ => false end.
Definition countb {A} (f : A -> bool) (l : list A) : Z := Z.of_nat (length (List.filter f l)).

(** What one event may do to the enemy. *)
Record step_effect (s : state) (e : event) (s' : state) (out : list output) : Prop := {
  se_tick : tick s' = tick s + (if is_tick e then 1 else 0);
  se_spawn : is_spawn e = true -> spawn s' = tick s /\ hp s' = enemy_max_hp;
  se_keep : is_spawn e = false -> spawn s' = spawn s /\ hp s' = Z.max 0 (hp s - hits out);
  se_invuln : 0 < hits out -> e = EvAttack /\ alive s = true /\ spawn s + invuln_ticks <= tick s;
  se_death : countb is_death out = (if alive s && negb (alive s') then 1 else 0);
  se_revive : is_spawn e = false -> alive s' = true -> alive s = true;
  se_blocked : In Blocked out <->
    alive s = true /\ tick s < spawn s + invuln_ticks /\ exists n, In (Swing n) out;
  se_whiff : In Whiff out <->
    e = EvAttack /\ 0 < combo s /\ tick s < last_attack s + combo_min_gap;
  se_next : forall n, In (Swing n) out <->
    e = EvAttack /\ n = combo s /\ (n = 0 \/ last_attack s + combo_min_gap <= tick s);
  se_drop : In ComboDrop out <->
    e = EvTick /\ 0 < combo s /\ tick s = last_attack s + combo_max_gap;
  se_chain :
    if existsb is_swing out
    then last_attack s' = tick s /\ combo s' = (combo s + 1) mod 3
    else last_attack s' = last_attack s /\
         combo s' = if existsb is_break out then 0 else combo s
}.

Lemma combat_inv_initial : combat_inv initial_state.
Proof. constructor; cbn; try lia. intuition (discriminate || lia). Qed.

(** Constants and arithmetic of the reducer, evaluated. *)
Ltac combat_unfold :=
  unfold add, sub, combo_min_gap, combo_max_gap, invuln_ticks, enemy_max_hp in *;
  cbn [tick combo last_attack hp spawn alive with_tick with_combo with_last_attack with_hp
       with_spawn with_alive] in *.

(** Membership in a literal list of outputs, and the remaining arithmetic. *)
Ltac combat_solve :=
  try (match goal with |- countb _ _ = if alive ?s && _ then _ else _ =>
         destruct (alive s) eqn:?; try congruence; reflexivity end);
  cbn [In hits fold_right is_tick is_spawn existsb is_swing is_break orb]; intros;
  repeat match goal with
  | H : _ /\ _ |- _ => destruct H
  | H : _ \/ _ |- _ => destruct H
  | H : exists _, _ |- _ => destruct H
  | H : Swing _ = Swing _ |- _ => injection H as H; subst
  | H : False |- _ => destruct H
  | H : false = true |- _ => discriminate H
  | H : true = false |- _ => discriminate H
  | |- _ <-> _ => split; intros
  | |- _ /\ _ => split
  end; try discriminate; try congruence; try lia; try tauto; try (left; congruence); eauto 6 with zarith.

(** * resolve-swing *)

Inductive swing_spec (s : state) (stage : Z) : state -> list output -> Prop :=
| swing_dead : alive s = false -> swing_spec s stage s [Swing stage]
| swing_blocked : alive s = true -> tick s < spawn s + invuln_ticks ->
    swing_spec s stage s [Swing stage; Blocked]
| swing_kill : alive s = true -> spawn s + invuln_ticks <= tick s -> hp s <= damage_of stage ->
    swing_spec s stage (with_hp 0 (with_alive false s)) [Swing stage; Hit (damage_of stage); Death]
| swing_hit : alive s = true -> spawn s + invuln_ticks <= tick s -> damage_of stage < hp s ->
    swing_spec s stage (with_hp (hp s - damage_of stage) s) [Swing stage; Hit (damage_of stage)].

Lemma damage_of_range stage : 10 <= damage_of stage <= 25.
Proof. unfold damage_of. zcases; lia. Qed.

Lemma resolve_swing_spec s stage :
  0 <= spawn s <= tick s -> tick s + 30 < 2 ^ 63 -> 0 <= hp s <= enemy_max_hp ->
  exists s' out, resolve_swing s stage = Some (s', out) /\ swing_spec s stage s' out.
Proof.
  intros Hs Ht Hh. unfold resolve_swing. pose proof (damage_of_range stage).
  destruct (alive s) eqn:A; cbn [negb]; [|repeat econstructor; assumption].
  combat_unfold. rewrite s7_int_some by lia. cbn [obind].
  destruct (Z.ltb_spec (tick s) (spawn s + 30)); [repeat econstructor; assumption|].
  destruct (Z.leb_spec (hp s) (damage_of stage)); [repeat econstructor; assumption|].
  rewrite s7_int_some by lia. cbn [obind]. do 2 eexists. split; [reflexivity|].
  apply swing_hit; assumption.
Qed.

(** * combat-step *)

Definition step_ok (s : state) (e : event) : Prop :=
  exists s' out, combat_step s e = Some (s', out) /\ combat_inv s' /\ step_effect s e s' out.

Lemma combat_tick_ok s : combat_inv s -> tick s + 30 < 2 ^ 63 -> step_ok s EvTick.
Proof.
  intros [] Ht. unfold step_ok, combat_step. combat_unfold.
  rewrite s7_int_some by lia. cbn [obind]. combat_unfold.
  rewrite Z.gtb_ltb. destruct (Z.ltb_spec 0 (combo s)).
  - rewrite s7_int_some by lia. cbn [obind]. rewrite Z.gtb_ltb. combat_unfold.
    destruct (Z.ltb_spec (last_attack s + 18) (tick s + 1));
      (do 2 eexists; split; [reflexivity|]); split; constructor; combat_unfold; combat_solve.
  - do 2 eexists; split; [reflexivity|]. split; constructor; combat_unfold; combat_solve.
Qed.

Lemma combat_spawn_ok s : combat_inv s -> step_ok s EvSpawn.
Proof.
  intros []. do 2 eexists. split; [reflexivity|].
  split; constructor; combat_unfold; combat_solve.
Qed.

(** A swing of the right stage from the updated combo state is a step. *)
Lemma combat_swing_ok s next stage : combat_inv s -> tick s + 30 < 2 ^ 63 ->
  0 <= next <= 2 -> next = (combo s + 1) mod 3 -> stage = combo s -> (stage = 0 \/ last_attack s + combo_min_gap <= tick s) ->
  forall s' out, swing_spec (with_combo next (with_last_attack (tick s) s)) stage s' out ->
  combat_inv s' /\ step_effect s EvAttack s' out.
Proof.
  intros [] Ht Hn Hm Hs Hw s' out H. pose proof (damage_of_range stage).
  destruct H; combat_unfold; split; constructor; combat_unfold; combat_solve.
Qed.

Lemma combat_attack_ok s : combat_inv s -> tick s + 30 < 2 ^ 63 -> step_ok s EvAttack.
Proof.
  intros I Ht. pose proof I as []. unfold step_ok, combat_step.
  destruct (Z.eqb_spec (combo s) 0) as [C|C].
  - destruct (resolve_swing_spec (with_combo 1 (with_last_attack (tick s) s)) 0)
      as (s' & out & E & H); [exact ci_spawn0|exact Ht|exact ci_hp0|].
    exists s', out. split; [exact E|]. eapply (combat_swing_ok s 1 0); eauto; try lia. now rewrite C.
  - combat_unfold. rewrite s7_int_some by lia. cbn [obind].
    destruct (Z.leb_spec 6 (tick s - last_attack s)) as [L|L]; cbn [andb].
    + destruct (Z.leb_spec (tick s - last_attack s) 18) as [L'|L']; [|lia].
      set (next := if combo s >=? 2 then 0 else combo s + 1).
      assert (Hm : next = (combo s + 1) mod 3)
        by (assert (C' : combo s = 1 \/ combo s = 2) by lia;
            unfold next; destruct C' as [-> | ->]; reflexivity).
      assert (Hn : 0 <= next <= 2) by (unfold next; rewrite Z.geb_leb; zcases; lia).
      replace (if combo s >=? 2 then Some 0 else s7_int (combo s + 1)) with (Some next)
        by (unfold next; rewrite Z.geb_leb, s7_int_some by lia; zcases; reflexivity).
      cbn [obind].
      destruct (resolve_swing_spec (with_combo next (with_last_attack (tick s) s)) (combo s))
        as (s' & out & E & H); [exact ci_spawn0|exact Ht|exact ci_hp0|].
      exists s', out. split; [exact E|].
      eapply (combat_swing_ok s next (combo s)); eauto. right. unfold combo_min_gap. lia.
    + do 2 eexists. split; [reflexivity|]. split; constructor; combat_unfold; combat_solve.
Qed.

Lemma combat_step_ok s e : combat_inv s -> tick s + 30 < 2 ^ 63 -> step_ok s e.
Proof.
  destruct e; auto using combat_tick_ok, combat_spawn_ok, combat_attack_ok.
  intros [] Ht. do 2 eexists. split; [reflexivity|].
  split; constructor; combat_unfold; combat_solve.
Qed.

(** * combat-replay *)

Lemma countb_cons {A} (f : A -> bool) x l :
  countb f (x :: l) = (if f x then 1 else 0) + countb f l.
Proof. unfold countb. cbn [List.filter]. destruct (f x); cbn [length]; lia. Qed.

Lemma countb_app {A} (f : A -> bool) l l' : countb f (l ++ l') = countb f l + countb f l'.
Proof. unfold countb. rewrite filter_app, length_app. lia. Qed.

Lemma countb_bound {A} (f : A -> bool) l : 0 <= countb f l <= Z.of_nat (length l).
Proof. unfold countb. pose proof (filter_length_le f l). lia. Qed.

(** An event reports at most one death, and an enemy must be spawned for it. *)
Lemma step_deaths s e s' out : step_effect s e s' out ->
  countb is_death out + (if alive s' then 1 else 0)
  <= (if alive s then 1 else 0) + (if is_spawn e then 1 else 0).
Proof.
  intros E. rewrite (se_death _ _ _ _ E).
  pose proof (se_revive _ _ _ _ E). destruct (alive s), (alive s'), e; cbn; try lia;
    intuition discriminate.
Qed.

Lemma combat_replay_loop_ok evs : forall s out, combat_inv s ->
  tick s + Z.of_nat (length evs) + 30 < 2 ^ 63 ->
  exists s' o, combat_replay_loop evs s out = Some (s', out ++ o) /\ combat_inv s' /\
    tick s' = tick s + countb is_tick evs /\
    countb is_death o + (if alive s' then 1 else 0)
    <= (if alive s then 1 else 0) + countb is_spawn evs.
Proof.
  induction evs as [|e evs IH]; intros s out I Ht; cbn [combat_replay_loop length] in *.
  - exists s, []. rewrite app_nil_r. change (countb is_death []) with 0. cbn. auto with zarith.
  - destruct (combat_step_ok s e I) as (s1 & o1 & E & I1 & F); [lia|].
    pose proof (se_tick _ _ _ _ F). pose proof (step_deaths _ _ _ _ F).
    destruct (IH s1 (out ++ o1) I1) as (s' & o & R & I' & T & D).
    { destruct (is_tick e); lia. }
    exists s', (o1 ++ o). rewrite E. cbn [obind]. rewrite R, app_assoc.
    rewrite !countb_cons, countb_app. intuition lia.
Qed.

(** * Properties *)

(** C31: every event of [combat-step] from a state that satisfies the reducer's
    invariant is handled without leaving s7's integers, preserves the
    invariant (an enemy is alive exactly when it has hit points, at most 100;
    combo stage 0..2, an open combo at most 18 ticks old) and has exactly the
    effect the outputs report: hit points drop by the reported hits and only
    by them, hits are only dealt to a living enemy after its 30 invulnerable
    ticks, a death is reported exactly when the enemy dies, a swing of the
    current stage happens exactly when the combo window is open and advances
    the combo through 0, 1, 2, a whiff exactly when the attack comes too early
    and a combo drop exactly on the tick that closes the window; both reset the
    combo. *)
Theorem combat_step_correct (s : state) (e : event)
  (I : combat_inv s) (Ht : tick s + 30 < 2 ^ 63) :
  exists s' out, combat_step s e = Some (s', out) /\ combat_inv s' /\ step_effect s e s' out.
Proof. exact (combat_step_ok s e I Ht). Qed.

Lemma combat_step_correct_witness :
  exists s' out,
    combat_step (make_state 40 1 30 12 5 true) EvAttack = Some (s', out) /\
    combat_inv s' /\ step_effect (make_state 40 1 30 12 5 true) EvAttack s' out.
Proof.
  apply combat_step_correct; [|cbn; lia].
  constructor; cbn; try (unfold combo_max_gap, enemy_max_hp); intuition (reflexivity || lia).
Defined.

(** [combat-replay] of any event list shorter than 2^63 - 30 returns a
    state that satisfies the invariant, whose tick counts the tick events; the
    deaths reported plus the enemy still alive never exceed the spawns. *)
Theorem combat_replay_correct (evs : list event)
  (H : Z.of_nat (length evs) + 30 < 2 ^ 63) :
  exists s out, combat_replay evs = Some (s, out) /\ combat_inv s /\
    tick s = countb is_tick evs /\
    countb is_death out + (if alive s then 1 else 0) <= countb is_spawn evs.
Proof.
  destruct (combat_replay_loop_ok evs initial_state [] combat_inv_initial) as (s & o & R).
  { cbn [tick initial_state]. lia. }
  exists s, o. exact R.
Qed.

Lemma combat_replay_correct_witness :
  exists s out, combat_replay [EvSpawn; EvTick; EvAttack] = Some (s, out) /\ combat_inv s /\
    tick s = countb is_tick [EvSpawn; EvTick; EvAttack] /\
    countb is_death out + (if alive s then 1 else 0) <= countb is_spawn [EvSpawn; EvTick; EvAttack].
Proof. apply combat_replay_correct. cbn. lia. Defined.
