(* ===== verification/ProgressionProofs.v ===== *)
(** progression.scm: the profile is at all times the ledger of what the reducer
    reported. *)

From Stdlib Require Import ZArith List Bool Lia.
Import ListNotations.
From S2P Require Import Prelude GuestContent LootProofs.
Import S7Int Progression.
#[local] Open Scope Z_scope.
#[local] Open Scope content_scope.

(** * Item lists *)

Lemma filter_eq {A} (f : A -> bool) l : filter f l = List.filter f l.
Proof. induction l as [|x l IH]; cbn; [reflexivity|]. now rewrite IH. Qed.

Definition bump (i d : Z) (e : Z * Z) : Z * Z :=
  if fst e =? i then (fst e, snd e + d) else e.

Definition cnt (j : Z) (l : list (Z * Z)) : Z :=
  match assoc j l with Some e => snd e | None => 0 end.

(** Keys occur once and every count is positive and at most [m]. *)
Definition items_ok (m : Z) (l : list (Z * Z)) : Prop :=
  NoDup (map fst l) /\ Forall (fun e => 0 < snd e <= m) l.

Lemma omap_bump i d m l : Forall (fun e => 0 < snd e <= m) l ->
  - 2 ^ 62 <= d -> m + d < 2 ^ 63 ->
  omap (fun e => if fst e =? i then let* n := s7_int (snd e + d) in Some (fst e, n) else Some e) l
  = Some (map (bump i d) l).
Proof.
  intros H Hd Hm. induction H as [|e l He Hl IH]; [reflexivity|].
  cbn [omap map]. unfold bump at 1.
  destruct (fst e =? i); [rewrite s7_int_some by lia|]; cbn [obind];
    rewrite IH; reflexivity.
Qed.

Lemma cnt_cons j e l : cnt j (e :: l) = if fst e =? j then snd e else cnt j l.
Proof. unfold cnt. cbn [assoc]. destruct (fst e =? j); reflexivity. Qed.

Lemma cnt_absent j l : ~ In j (map fst l) -> cnt j l = 0.
Proof.
  induction l as [|e l IH]; cbn [map]; intros H; [reflexivity|].
  rewrite cnt_cons. destruct (Z.eqb_spec (fst e) j); [exfalso|]; cbn in H; intuition.
Qed.

Lemma assoc_in k l : assoc k l <> None <-> In k (map fst l).
Proof.
  induction l as [|e l IH]; cbn; [intuition|].
  destruct (Z.eqb_spec (fst e) k); [intuition congruence|]. rewrite IH. intuition.
Qed.

Lemma cnt_range j l m : 0 <= m -> Forall (fun e => 0 < snd e <= m) l -> 0 <= cnt j l <= m.
Proof.
  intros Hm. induction 1 as [|e l He Hl IH]; [cbn; lia|].
  rewrite cnt_cons. destruct (fst e =? j); lia.
Qed.

Lemma cnt_zero j l m : Forall (fun e => 0 < snd e <= m) l -> cnt j l = 0 <-> ~ In j (map fst l).
Proof.
  intros H. split; [|apply cnt_absent]. induction H as [|e l He Hl IH]; [tauto|].
  rewrite cnt_cons. cbn. destruct (Z.eqb_spec (fst e) j); [lia|tauto].
Qed.

Lemma bump_keys i d l : map fst (map (bump i d) l) = map fst l.
Proof.
  rewrite map_map. apply map_ext. intros e. unfold bump. destruct (fst e =? i); reflexivity.
Qed.

Lemma bump_absent i d l : ~ In i (map fst l) -> map (bump i d) l = l.
Proof.
  induction l as [|e l IH]; cbn [map]; intros H; [reflexivity|].
  unfold bump at 1. destruct (Z.eqb_spec (fst e) i); cbn in H; [exfalso; tauto|].
  f_equal. apply IH. tauto.
Qed.

Lemma cnt_bump i d j l : NoDup (map fst l) -> In i (map fst l) ->
  cnt j (map (bump i d) l) = cnt j l + (if j =? i then d else 0).
Proof.
  induction l as [|e l IH]; cbn [map]; intros N H; [destruct H|].
  inversion N as [|? ? Hn N']; subst. rewrite !cnt_cons.
  assert (F : fst (bump i d e) = fst e) by (unfold bump; destruct (fst e =? i); reflexivity).
  rewrite F. destruct (Z.eqb_spec (fst e) i) as [E|E].
  - rewrite bump_absent by congruence. unfold bump. subst i.
    rewrite Z.eqb_refl, (Z.eqb_sym j). destruct (fst e =? j); cbn; lia.
  - destruct H as [H|H]; [congruence|]. rewrite IH by assumption.
    unfold bump. destruct (Z.eqb_spec (fst e) i); [congruence|].
    destruct (Z.eqb_spec (fst e) j); [|lia]. subst j.
    destruct (Z.eqb_spec (fst e) i); [congruence|lia].
Qed.

Lemma cnt_app_new i d j l : ~ In i (map fst l) ->
  cnt j (l ++ [(i, d)]) = cnt j l + (if j =? i then d else 0).
Proof.
  induction l as [|e l IH]; cbn [map app]; intros H; rewrite !cnt_cons.
  - cbn. rewrite (Z.eqb_sym i). destruct (j =? i); lia.
  - rewrite IH by (cbn in H; tauto). destruct (Z.eqb_spec (fst e) j); [|lia].
    destruct (Z.eqb_spec j i); [|lia]. cbn in H. exfalso. apply H. left. congruence.
Qed.

Lemma cnt_filter j l : NoDup (map fst l) -> Forall (fun e => 0 <= snd e) l ->
  cnt j (List.filter (fun e => snd e >? 0) l) = cnt j l.
Proof.
  intros N H. revert N. induction H as [|e l He Hl IH]; cbn [map]; intros N; [reflexivity|].
  inversion N as [|? ? Hn N']; subst. cbn [List.filter]. rewrite Z.gtb_ltb.
  destruct (Z.ltb_spec 0 (snd e)); rewrite !cnt_cons, IH by assumption; [reflexivity|].
  destruct (Z.eqb_spec (fst e) j); [|reflexivity]. subst j. rewrite cnt_absent by assumption. lia.
Qed.

Lemma filter_keys (f : Z * Z -> bool) l : NoDup (map fst l) -> NoDup (map fst (List.filter f l)).
Proof.
  induction l as [|e l IH]; cbn [map List.filter]; intros N; [constructor|].
  inversion N as [|? ? Hn N']; subst. destruct (f e); [|auto].
  cbn [map]. constructor; [|auto]. intros H. apply Hn. apply in_map_iff in H.
  destruct H as (x & E & Hx). apply filter_In in Hx. apply in_map_iff. exists x. tauto.
Qed.

Lemma add_item_ok p i m : items_ok m (items p) -> 0 <= m -> m + 1 < 2 ^ 63 ->
  exists its, add_item p i 1 = Some (with_items its p) /\ items_ok (m + 1) its /\
    forall j, cnt j its = cnt j (items p) + (if j =? i then 1 else 0).
Proof.
  intros [N F] H0 Hm. unfold add_item. destruct (assoc i (items p)) eqn:A.
  - assert (I : In i (map fst (items p))) by (apply assoc_in; congruence).
    unfold add. rewrite (omap_bump i 1 m) by (assumption || lia). cbn [obind].
    eexists. split; [reflexivity|]. split; [split|].
    + now rewrite bump_keys.
    + apply Forall_map. eapply Forall_impl; [|exact F]. intros e He. cbv beta in He.
      unfold bump. destruct (fst e =? i); cbn; lia.
    + intros j. now apply cnt_bump.
  - assert (I : ~ In i (map fst (items p))) by (rewrite <- assoc_in; congruence).
    eexists. split; [reflexivity|]. split; [split|].
    + rewrite map_app. cbn. apply NoDup_app; [exact N|repeat constructor; auto|].
      intros a Ha [<-|[]]. contradiction.
    + apply Forall_app. split; [|repeat constructor; cbn; lia].
      eapply Forall_impl; [|exact F]. cbn. intros. lia.
    + intros j. now apply cnt_app_new.
Qed.

Lemma remove_item_ok p i m : items_ok m (items p) -> m < 2 ^ 63 -> count_of p i <> 0 ->
  exists its, remove_item p i = Some (with_items its p) /\ items_ok m its /\
    forall j, cnt j its = cnt j (items p) - (if j =? i then 1 else 0).
Proof.
  intros [N F] Hm Hc. unfold remove_item, sub.
  rewrite (omap_bump i (-1) m) by (assumption || lia). cbn [obind]. rewrite filter_eq.
  assert (I : In i (map fst (items p))).
  { destruct (in_dec Z.eq_dec i (map fst (items p))) as [I|I]; [exact I|].
    exfalso. apply Hc. exact (cnt_absent i _ I). }
  assert (P : Forall (fun e => 0 <= snd e <= m) (map (bump i (-1)) (items p))).
  { apply Forall_map. eapply Forall_impl; [|exact F]. intros e He. cbv beta in He.
    unfold bump. destruct (fst e =? i); cbn; lia. }
  eexists. split; [reflexivity|]. split; [split|].
  - apply filter_keys. now rewrite bump_keys.
  - apply Forall_forall. intros e He. apply filter_In in He. destruct He as [He G].
    rewrite Z.gtb_ltb in G. apply Z.ltb_lt in G.
    rewrite Forall_forall in P. specialize (P e He). cbv beta in P. lia.
  - intros j. rewrite cnt_filter, cnt_bump by
      (rewrite ?bump_keys; assumption || (eapply Forall_impl; [|exact P]; cbn; intros; lia)).
    destruct (j =? i); lia.
Qed.

(** * The ledger of the outputs *)

Fixpoint sum_out (f : output -> Z) (out : list output) : Z :=
  match out with [] => 0 | o :: out' => f o + sum_out f out' end.

Definition balance (o : output) : Z :=
  match o with Sold _ price => price | Learned a => - art_cost a | _ => 0 end.

Definition stock (i : Z) (o : output) : Z :=
  match o with
  | Granted j => if i =? j then 1 else 0
  | Sold j _ => if i =? j then -1 else 0
  | _ => 0
  end.

Definition training (o : output) : Z := match o with Trained _ => 1 | _ => 0 end.

Definition learned (out : list output) : list Z :=
  flat_map (fun o => match o with Learned a => [a] | _ => [] end) out.

Lemma sum_out_app f out o : sum_out f (out ++ o) = sum_out f out + sum_out f o.
Proof. induction out as [|x out IH]; cbn [app sum_out]; lia. Qed.

(** The profile after outputs [out]: initial values plus what was reported;
    [m] bounds the item counts. *)
Record ledger (m : Z) (p : profile) (out : list output) : Prop := {
  lg_credits : credits p = 200 + sum_out balance out;
  lg_solvent : 0 <= credits p;
  lg_affinity : affinity p = 15 + sum_out training out;
  lg_trained : 15 <= affinity p;
  lg_stock : forall i, count_of p i = sum_out (stock i) out;
  lg_items : items_ok m (items p);
  lg_arts : arts p = learned out;
  lg_once : NoDup (arts p);
  lg_gate : Forall (fun a => art_affinity_req a <= affinity p) (arts p)
}.

Lemma ledger_initial : ledger 0 initial_profile [].
Proof. split; try reflexivity; try (cbn; lia); try constructor; constructor. Qed.

Definition price_of (e : event) : Z := match e with Sell _ price => price | _ => 0 end.

Definition event_ok (e : event) : Prop := 0 <= price_of e.

Definition income (evs : list event) : Z := fold_right (fun e n => price_of e + n) 0 evs.

Lemma income_nonneg evs : Forall event_ok evs -> 0 <= income evs.
Proof.
  induction 1 as [|e evs He Hl IH]; [reflexivity|].
  change (0 <= price_of e + income evs). unfold event_ok in He. lia.
Qed.

Lemma member_in a l : member a l = true <-> In a l.
Proof.
  unfold member. rewrite existsb_exists. split.
  - intros (x & H & E). apply Z.eqb_eq in E. congruence.
  - intros H. exists a. split; [exact H|apply Z.eqb_refl].
Qed.

Lemma art_cost_range a : 100 <= art_cost a <= 500.
Proof. unfold art_cost. zcases; lia. Qed.

(** Reduces a ledger after one more output to its fields. *)
Ltac ledger_fields :=
  intros; rewrite ?sum_out_app; unfold learned, count_of, cnt in *; rewrite ?flat_map_app;
  cbn [credits affinity items arts with_credits with_affinity with_items with_arts
       sum_out balance training stock flat_map app] in *.

Definition stepped (m : Z) (p : profile) (e : event) (out : list output) : Prop :=
  exists p' o, progression_step p e = Some (p', o) /\ ledger (m + 1) p' (out ++ o) /\
    credits p' <= credits p + price_of e /\ affinity p' <= affinity p + 1.

Lemma items_ok_weaken m m' l : m <= m' -> items_ok m l -> items_ok m' l.
Proof.
  intros L [N F]. split; [exact N|]. eapply Forall_impl; [|exact F]. cbn. intros. lia.
Qed.

(** An output that reports no change of the profile. *)
Definition silent (o : output) : Prop :=
  balance o = 0 /\ training o = 0 /\ (forall i, stock i o = 0) /\ learned [o] = [].

Lemma ledger_silent m p out o : ledger m p out -> silent o -> ledger (m + 1) p (out ++ [o]).
Proof.
  intros [] (B & T & S & L). unfold learned in L. cbn [flat_map] in L.
  constructor; try assumption; rewrite ?sum_out_app; cbn [sum_out]; try lia.
  - intros i. rewrite lg_stock0, sum_out_app. cbn [sum_out]. rewrite S. lia.
  - eapply items_ok_weaken; [|exact lg_items0]. lia.
  - unfold learned. rewrite flat_map_app. cbn [flat_map]. rewrite L, app_nil_r. exact lg_arts0.
Qed.

Lemma stepped_silent m p e o out : ledger m p out -> silent o -> event_ok e ->
  progression_step p e = Some (p, [o]) -> stepped m p e out.
Proof.
  intros L S K E. exists p, [o]. split; [exact E|]. split; [now apply ledger_silent|].
  unfold event_ok in K. lia.
Qed.

Lemma step_grant m p i out : ledger m p out -> 0 <= m -> m + 1 < 2 ^ 63 ->
  stepped m p (Grant i) out.
Proof.
  intros [] H0 Hm. destruct (add_item_ok p i m lg_items0 H0 Hm) as (its & E & I & C).
  unfold stepped, progression_step. rewrite E. cbn [obind].
  do 2 eexists. split; [reflexivity|]. split; [|cbn; lia].
  constructor; ledger_fields; try assumption; try lia.
  - rewrite C, lg_stock0. lia.
  - now rewrite app_nil_r.
Qed.

Lemma step_sell m p i price out : ledger m p out -> 0 <= m < 2 ^ 63 -> 0 <= price ->
  credits p + price < 2 ^ 63 -> stepped m p (Sell i price) out.
Proof.
  intros L Hm Hp Hc. pose proof L as [].
  destruct (Z.eqb_spec (count_of p i) 0) as [Z0|NZ].
  - apply (stepped_silent _ _ _ (RefusedNoItem i)); [exact L|easy|exact Hp|].
    cbn [progression_step]. rewrite Z0. reflexivity.
  - unfold stepped, progression_step, add. rewrite (proj2 (Z.eqb_neq _ 0) NZ).
    rewrite s7_int_some by lia. cbn [obind].
    destruct (remove_item_ok (with_credits (credits p + price) p) i m lg_items0)
      as (its & E & I & C); [lia|exact NZ|].
    rewrite E. cbn [obind]. do 2 eexists. split; [reflexivity|]. split; [|cbn; lia].
    constructor; ledger_fields; try assumption; try lia.
    + rewrite C, lg_stock0. destruct (i0 =? i); lia.
    + eapply items_ok_weaken; [|exact I]. lia.
    + now rewrite app_nil_r.
Qed.

Lemma step_buy m p a out : ledger m p out -> credits p < 2 ^ 63 -> stepped m p (BuyArt a) out.
Proof.
  intros L Hc. pose proof L as []. pose proof (art_cost_range a).
  destruct (member a (arts p)) eqn:M.
  { apply (stepped_silent _ _ _ (RefusedDup a)); [exact L|easy|easy|]. cbn. now rewrite M. }
  destruct (Z.ltb_spec (affinity p) (art_affinity_req a)) as [G|G].
  { apply (stepped_silent _ _ _ (RefusedGate a)); [exact L|easy|easy|].
    cbn. rewrite M. now rewrite (proj2 (Z.ltb_lt _ _) G). }
  destruct (Z.ltb_spec (credits p) (art_cost a)) as [C|C].
  { apply (stepped_silent _ _ _ (RefusedPoor a)); [exact L|easy|easy|].
    cbn. rewrite M, (proj2 (Z.ltb_ge _ _) G). now rewrite (proj2 (Z.ltb_lt _ _) C). }
  unfold stepped, progression_step, sub.
  rewrite M, (proj2 (Z.ltb_ge _ _) G), (proj2 (Z.ltb_ge _ _) C), s7_int_some by lia. cbn [obind].
  do 2 eexists. split; [reflexivity|]. split; [|cbn; lia].
  assert (N : ~ In a (arts p)) by (rewrite <- member_in; congruence).
  constructor; ledger_fields; try assumption; try lia.
  - rewrite lg_stock0. lia.
  - eapply items_ok_weaken; [|exact lg_items0]. lia.
  - now rewrite lg_arts0.
  - apply NoDup_app; [exact lg_once0|repeat constructor; auto|].
    intros x Hx [<-|[]]. contradiction.
  - apply Forall_app. split; [exact lg_gate0|repeat constructor; exact G].
Qed.

Lemma step_train m p out : ledger m p out -> affinity p + 1 < 2 ^ 63 -> stepped m p Train out.
Proof.
  intros [] Ha. unfold stepped, progression_step, add. rewrite s7_int_some by lia. cbn [obind].
  do 2 eexists. split; [reflexivity|]. split; [|cbn; lia].
  constructor; ledger_fields; try assumption; try lia.
  - rewrite lg_stock0. lia.
  - eapply items_ok_weaken; [|exact lg_items0]. lia.
  - now rewrite app_nil_r.
  - eapply Forall_impl; [|exact lg_gate0]. cbn. intros. lia.
Qed.

Lemma step_other m p out : ledger m p out -> stepped m p EvOther out.
Proof.
  intros L. exists p, []. rewrite app_nil_r. split; [reflexivity|].
  split; [|cbn; lia]. destruct L. constructor; try assumption.
  eapply items_ok_weaken; [|exact lg_items0]. lia.
Qed.

Lemma progression_step_ok m p e out : ledger m p out -> 0 <= m -> m + 1 < 2 ^ 63 ->
  event_ok e -> credits p + price_of e < 2 ^ 63 -> affinity p + 1 < 2 ^ 63 -> stepped m p e out.
Proof.
  intros L H0 Hm He Hc Ha. destruct e; cbn [price_of] in *.
  - now apply step_grant.
  - apply step_sell; auto. lia.
  - apply step_buy; auto. lia.
  - now apply step_train.
  - now apply step_other.
Qed.

Lemma progression_replay_loop_ok evs : forall m p out, ledger m p out -> 0 <= m ->
  Forall event_ok evs ->
  m + Z.of_nat (length evs) < 2 ^ 63 -> affinity p + Z.of_nat (length evs) < 2 ^ 63 ->
  credits p + income evs < 2 ^ 63 ->
  exists p' o, progression_replay_loop evs p out = Some (p', out ++ o) /\
    ledger (m + Z.of_nat (length evs)) p' (out ++ o).
Proof.
  induction evs as [|e evs IH]; intros m p out L H0 He Hm Ha Hc.
  - exists p, []. rewrite app_nil_r, Z.add_0_r. auto.
  - inversion He; subst. cbn [progression_replay_loop length income fold_right] in *.
    fold (income evs) in *.
    pose proof (income_nonneg evs ltac:(assumption)).
    destruct (progression_step_ok m p e out L) as (p1 & o1 & E & L1 & C1 & A1);
      [lia|lia|assumption|lia|lia|].
    rewrite E. cbn [obind].
    destruct (IH (m + 1) p1 (out ++ o1) L1) as (p' & o & R & L'); [lia|assumption|lia|lia|lia|].
    exists p', (o1 ++ o). rewrite app_assoc. split; [exact R|].
    replace (m + Z.of_nat (S (length evs))) with (m + 1 + Z.of_nat (length evs)) by lia.
    exact L'.
Qed.

(** * Property *)

(** C30: [progression-replay] of an event list with nonnegative prices, whose
    total income and length stay below 2^63, always returns, and the profile is
    the ledger of the outputs: credits are 200 plus the sales minus the cost
    of the arts learned and never negative, affinity is 15 plus the trainings,
    each item's count is its grants minus its sales (items listed once, with a
    positive count), the arts are the ones learned, in order, each once, each
    with its affinity requirement met. *)
Theorem progression_replay_correct (evs : list event) (He : Forall event_ok evs)
  (Hn : 15 + Z.of_nat (length evs) < 2 ^ 63) (Hc : 200 + income evs < 2 ^ 63) :
  exists p out, progression_replay evs = Some (p, out) /\
    ledger (Z.of_nat (length evs)) p out.
Proof.
  destruct (progression_replay_loop_ok evs 0 initial_profile [] ledger_initial) as (p & o & R & L);
    cbn [affinity credits initial_profile]; try (assumption || lia).
  exists p, o. split; [exact R|exact L].
Qed.

Lemma progression_replay_correct_witness :
  let evs := [Grant 1; Grant 1; Sell 1 50; Train; BuyArt 1; BuyArt 2; Sell 7 5] in
  exists p out, progression_replay evs = Some (p, out) /\
    ledger (Z.of_nat (length evs)) p out.
Proof.
  intros evs. apply progression_replay_correct; [|cbn; lia|cbn; lia].
  repeat constructor; cbn; unfold event_ok; cbn; lia.
Defined.

(** The prices of the events are not checked: a sale at a negative price takes
    the profile below zero. *)
Lemma negative_price_insolvent :
  option_map (fun r => credits (fst r)) (progression_replay [Grant 1; Sell 1 (-1000)]) = Some (-800).
Proof. reflexivity. Qed.
