(* ===== verification/Guest.v ===== *)
(** The guest programs (c_src/guest/weft_guest.c and
    riscv-guests/s7_sandbox_guest.c) and the host's capability dispatch
    (c_src/nif/weft_sandbox_nif.cpp).

    The s7 interpreter and the libriscv machine are parameters: records of the
    operations the C code calls.  Nothing is assumed of them: the theorems say
    which texts the guest hands to the interpreter, and which values the
    content's procedures have on the calls these texts spell. *)

From Stdlib Require Import String Ascii ZArith List Bool.
Import ListNotations.
From S2P Require Import Prelude GuestContent.
#[local] Open Scope Z_scope.
#[local] Open Scope content_scope.

(** * C strings and snprintf *)

(** A text is the list of its byte values. *)
Definition text := list Z.

Definition str (s : string) : text :=
  map (fun a => Z.of_N (N_of_ascii a)) (list_ascii_of_string s).

(** The C string that starts at the buffer's first byte. *)
Fixpoint c_string (buf : list Z) : text :=
  match buf with
  | [] => []
  | b :: buf' => if b =? 0 then [] else b :: c_string buf'
  end.

(** [snprintf(buf + off, size, "%s", t)]: the written prefix and its NUL, and
    the length of the whole text; [None] when a byte is written outside the
    buffer.  [size] is a [size_t]. *)
Definition snprintf (buf : list Z) (off : nat) (size : Z) (t : text) : option (list Z * Z) :=
  if size =? 0 then Some (buf, Z.of_nat (length t))
  else
    let w := firstn (Z.to_nat (size - 1)) t ++ [0] in
    if (off + length w <=? length buf)%nat
    then Some (memcpy buf off w (length w), Z.of_nat (length t))
    else None.

(** [%lld]. *)
Fixpoint digits (fuel : nat) (n : Z) (acc : text) : text :=
  match fuel with
  | O => acc
  | S f => if n <? 10 then (48 + n) :: acc else digits f (n / 10) ((48 + n mod 10) :: acc)
  end.

Definition fmt_lld (z : Z) : text :=
  if z <? 0 then 45 :: digits 19 (- z) [] else digits 19 z [].

(** * Scheme values and the expressions the guest sends *)

Inductive sval :=
| SInt (z : Z)
| SBool (b : bool)
| SSym (s : string)
| SNil
| SCons (a d : sval)
| SVec (l : list sval).

Fixpoint slist (l : list sval) : sval :=
  match l with [] => SNil | x :: l' => SCons x (slist l') end.

Fixpoint slist_inv (v : sval) : option (list sval) :=
  match v with
  | SNil => Some []
  | SCons a d => let* l := slist_inv d in Some (a :: l)
  | _ => None
  end.

Inductive expr :=
| EInt (z : Z)
| EQuote (s : string)
| ECall (f : string) (args : list expr).

Fixpoint print (e : expr) : text :=
  match e with
  | EInt z => fmt_lld z
  | EQuote s => 39 :: str s
  | ECall f args => 40 :: str f ++ flat_map (fun a => 32 :: print a) args ++ [41]
  end.

(** ** The content's procedures on Scheme values *)

Definition as_int (v : sval) : option Z := match v with SInt z => Some z | _ => None end.

Definition as_entry (v : sval) : option (Z * Z) :=
  match v with SCons (SInt i) (SInt w) => Some (i, w) | _ => None end.

Definition combat_event (v : sval) : Combat.event :=
  match v with
  | SSym s =>
      if (s =? "tick")%string then Combat.EvTick
      else if (s =? "spawn")%string then Combat.EvSpawn
      else if (s =? "attack")%string then Combat.EvAttack
      else Combat.EvOther
  | _ => Combat.EvOther
  end.

(** [define-record] builds vectors in field order. *)
Definition sval_of_state (s : Combat.state) : sval :=
  SVec [SInt (Combat.tick s); SInt (Combat.combo s); SInt (Combat.last_attack s);
        SInt (Combat.hp s); SInt (Combat.spawn s); SBool (Combat.alive s)].

Definition sval_of_combat_output (o : Combat.output) : sval :=
  match o with
  | Combat.Swing n => slist [SSym "swing"; SInt n]
  | Combat.Blocked => SSym "blocked"
  | Combat.Hit d => slist [SSym "hit"; SInt d]
  | Combat.Death => SSym "death"
  | Combat.ComboDrop => SSym "comboDrop"
  | Combat.Whiff => SSym "whiff"
  end.

(** [None] when [progression-step] would take the [cadr] or [caddr] of
    something shorter, or compute with a non-integer. *)
Definition progression_event (v : sval) : option Progression.event :=
  match v with
  | SSym s => Some (if (s =? "train")%string then Progression.Train else Progression.EvOther)
  | SCons (SSym s) d =>
      if (s =? "grant")%string then
        match d with SCons (SInt i) _ => Some (Progression.Grant i) | _ => None end
      else if (s =? "sell")%string then
        match d with SCons (SInt i) (SCons (SInt p) _) => Some (Progression.Sell i p) | _ => None end
      else if (s =? "buyArt")%string then
        match d with SCons (SInt a) _ => Some (Progression.BuyArt a) | _ => None end
      else Some Progression.EvOther
  | _ => Some Progression.EvOther
  end.

Definition sval_of_profile (p : Progression.profile) : sval :=
  SVec [SInt (Progression.credits p); SInt (Progression.affinity p);
        slist (map (fun e => SCons (SInt (fst e)) (SInt (snd e))) (Progression.items p));
        slist (map SInt (Progression.arts p))].

Definition sval_of_progression_output (o : Progression.output) : sval :=
  match o with
  | Progression.Granted i => slist [SSym "granted"; SInt i]
  | Progression.RefusedNoItem i => slist [SSym "refusedNoItem"; SInt i]
  | Progression.Sold i p => slist [SSym "sold"; SInt i; SInt p]
  | Progression.RefusedDup a => slist [SSym "refusedDup"; SInt a]
  | Progression.RefusedGate a => slist [SSym "refusedGate"; SInt a]
  | Progression.RefusedPoor a => slist [SSym "refusedPoor"; SInt a]
  | Progression.Learned a => slist [SSym "learned"; SInt a]
  | Progression.Trained a => slist [SSym "trained"; SInt a]
  end.

Definition call (f : string) (args : list sval) : option sval :=
  if (f =? "list")%string then Some (slist args)
  else if (f =? "cons")%string then
    match args with [a; d] => Some (SCons a d) | _ => None end
  else if (f =? "car")%string then
    match args with [SCons a _] => Some a | _ => None end
  else if (f =? "loot-roll")%string then
    match args with
    | [SInt seed; t] =>
        let* l := slist_inv t in
        let* t := Progression.omap as_entry l in
        let* r := Loot.loot_roll seed t in Some (SInt r)
    | _ => None
    end
  else if (f =? "combat-replay")%string then
    match args with
    | [evs] =>
        let* l := slist_inv evs in
        let* (s, out) := Combat.combat_replay (map combat_event l) in
        Some (slist [sval_of_state s; slist (map sval_of_combat_output out)])
    | _ => None
    end
  else if (f =? "progression-replay")%string then
    match args with
    | [evs] =>
        let* l := slist_inv evs in
        let* l := Progression.omap progression_event l in
        let* (p, out) := Progression.progression_replay l in
        Some (slist [sval_of_profile p; slist (map sval_of_progression_output out)])
    | _ => None
    end
  else None.

Fixpoint eval (e : expr) : option sval :=
  match e with
  | EInt z => Some (SInt z)
  | EQuote s => Some (SSym s)
  | ECall f args =>
      let* vs := (fix evals (l : list expr) : option (list sval) :=
        match l with
        | [] => Some []
        | a :: l' => let* v := eval a in let* vs := evals l' in Some (v :: vs)
        end) args in
      call f vs
  end.

(** The event lists and the table the C code spells out as text. *)
Definition loot_expr (seed : Z) : expr :=
  ECall "loot-roll" [EInt seed; ECall "list"
    [ECall "cons" [EInt 1; EInt 10]; ECall "cons" [EInt 2; EInt 20]; ECall "cons" [EInt 3; EInt 5]]].

Definition combat_expr : expr :=
  ECall "car" [ECall "combat-replay" [ECall "list"
    (EQuote "spawn" :: repeat (EQuote "tick") 30 ++ [EQuote "attack"])]].

Definition progression_expr : expr :=
  ECall "car" [ECall "progression-replay" [ECall "list"
    [ECall "list" [EQuote "grant"; EInt 1]; ECall "list" [EQuote "grant"; EInt 1];
     ECall "list" [EQuote "sell"; EInt 1; EInt 50]; EQuote "train";
     ECall "list" [EQuote "buyArt"; EInt 1]]]].

(** * The interpreter *)

Record s7_api := {
  s7_scheme : Type;
  s7_pointer : Type;
  s7_init : s7_scheme;
  s7_eval_c_string : s7_scheme -> text -> s7_scheme * s7_pointer;
  s7_integer : s7_pointer -> Z;
  s7_vector_ref : s7_scheme -> s7_pointer -> Z -> s7_pointer;
  s7_boolean : s7_scheme -> s7_pointer -> bool
}.

(** * weft_guest.c *)

Module WeftGuest.
Section Guest.
Context (S : s7_api).

(** The embedded content, each blob up to its NUL. *)
Record content := {
  g_record_macros_scm : text;
  g_loot_scm : text;
  g_combat_scm : text;
  g_progression_scm : text
}.

Record guest := mkGuest {
  g_sc : option (s7_scheme S);
  g_source_buf : list Z
}.

Definition initial_guest : guest := mkGuest None (repeat 0 (Z.to_nat 20000)).

(** A member of [values] that the function never assigns is [None]. *)
Record GuestResult := { values : list (option Z); count : Z }.

(** [n += snprintf(g_source_buf + n, sizeof(g_source_buf) - n, "%s", t)]; the
    size is computed in [size_t]. *)
Definition append_source (st : list Z * Z) (t : text) : option (list Z * Z) :=
  let '(buf, n) := st in
  let* (buf', k) := snprintf buf (Z.to_nat n) (u64 (20000 - n)) t in
  Some (buf', u64 (n + k)).

Definition guest_init (c : content) (g : guest) : option guest :=
  let sc := s7_init S in
  let* st := append_source (g_source_buf g, 0) (str "(begin ") in
  let* st := append_source st (g_record_macros_scm c) in
  let* st := append_source st (g_loot_scm c) in
  let* st := append_source st (g_combat_scm c) in
  let* st := append_source st (g_progression_scm c) in
  let* (buf, _) := append_source st (str ")") in
  let '(sc', _) := s7_eval_c_string S sc (c_string buf) in
  Some (mkGuest (Some sc') buf).

(** [s7_eval_c_string(g_sc, t)]; a NULL interpreter is [None]. *)
Definition guest_eval (g : guest) (t : text) : option (guest * s7_scheme S * s7_pointer S) :=
  let* sc := g_sc g in
  let '(sc', p) := s7_eval_c_string S sc t in
  Some (mkGuest (Some sc') (g_source_buf g), sc', p).

Definition guest_loot_roll (g : guest) (seed : Z) : option (guest * Z) :=
  let t := str "(loot-roll " ++ fmt_lld seed
           ++ str " (list (cons 1 10) (cons 2 20) (cons 3 5)))" in
  let* (e, _) := snprintf (repeat 0 160) 0 160 t in
  let* (g', _, result) := guest_eval g (c_string e) in
  Some (g', s7_integer S result).

Definition guest_combat_replay (g : guest) : option (guest * GuestResult) :=
  let* (g', sc, result) := guest_eval g (str
    "(car (combat-replay (list 'spawn 'tick 'tick 'tick 'tick 'tick 'tick 'tick 'tick 'tick 'tick 'tick 'tick 'tick 'tick 'tick 'tick 'tick 'tick 'tick 'tick 'tick 'tick 'tick 'tick 'tick 'tick 'tick 'tick 'tick 'tick 'attack)))") in
  let tick := s7_integer S (s7_vector_ref S sc result 0) in
  let hp := s7_integer S (s7_vector_ref S sc result 3) in
  let alive := if s7_boolean S sc (s7_vector_ref S sc result 5) then 1 else 0 in
  Some (g', {| values := [Some tick; Some hp; Some alive; None]; count := 3 |}).

Definition guest_progression_replay (g : guest) : option (guest * GuestResult) :=
  let* (g', sc, result) := guest_eval g (str
    "(car (progression-replay (list (list 'grant 1) (list 'grant 1) (list 'sell 1 50) 'train (list 'buyArt 1))))") in
  let credits := s7_integer S (s7_vector_ref S sc result 0) in
  let affinity := s7_integer S (s7_vector_ref S sc result 1) in
  Some (g', {| values := [Some credits; Some affinity; None; None]; count := 2 |}).

(** [main] initialises and leaves the interpreter in memory. *)
Definition main (c : content) : option guest := guest_init c initial_guest.

End Guest.
End WeftGuest.

(** * s7_sandbox_guest.c *)

Module SandboxGuest.
Section Sandbox.
Context (S : s7_api).

Record GuestVariant := mkVariant { type : Z; v_i : Z }.

Definition VT_INT : Z := 2.
Definition VT_ARRAY : Z := 28.

(** The host call that builds an array from [method] variants. *)
Context (sys_vcreate : Z -> Z -> list GuestVariant -> GuestVariant).

Definition make_int (x : Z) : GuestVariant := mkVariant VT_INT x.

Definition guest_init (k_loot_scm k_combat_scm : text) : s7_scheme S :=
  let sc := s7_init S in
  let '(sc, _) := s7_eval_c_string S sc k_loot_scm in
  let '(sc, _) := s7_eval_c_string S sc k_combat_scm in
  sc.

Definition guest_loot_roll (sc : s7_scheme S) (seed : Z) : option (s7_scheme S * Z) :=
  let t := str "(loot-roll " ++ fmt_lld seed
           ++ str " (list (cons 1 10) (cons 2 20) (cons 3 5)))" in
  let* (e, _) := snprintf (repeat 0 160) 0 160 t in
  let '(sc', result) := s7_eval_c_string S sc (c_string e) in
  Some (sc', s7_integer S result).

Definition guest_combat_replay (sc : s7_scheme S) : s7_scheme S * GuestVariant :=
  let '(sc', result) := s7_eval_c_string S sc (str
    "(car (combat-replay (list 'spawn 'tick 'tick 'tick 'tick 'tick 'tick 'tick 'tick 'tick 'tick 'tick 'tick 'tick 'tick 'tick 'tick 'tick 'tick 'tick 'tick 'tick 'tick 'tick 'tick 'tick 'tick 'tick 'tick 'tick 'tick 'attack)))") in
  let tickV := s7_vector_ref S sc' result 0 in
  let hpV := s7_vector_ref S sc' result 3 in
  let aliveV := s7_vector_ref S sc' result 5 in
  let tick := s7_integer S tickV in
  let hp := s7_integer S hpV in
  let alive := if s7_boolean S sc' aliveV then 1 else 0 in
  (sc', sys_vcreate VT_ARRAY 3 [make_int tick; make_int hp; make_int alive]).

End Sandbox.
End SandboxGuest.

(** * weft_sandbox_nif.cpp *)

Module Nif.

(** How a run of the machine ends: the guest returns, the fuel runs out
    ([MachineTimeoutException]), the machine faults (any other
    [MachineException]) or another exception is thrown. *)
Inductive outcome (A : Type) :=
| Returned (a : A)
| MachineTimeout
| MachineFault
| StdException.
Arguments Returned {A}.
Arguments MachineTimeout {A}.
Arguments MachineFault {A}.
Arguments StdException {A}.

Section Sandbox.

(** libriscv: constructing a machine from an ELF image and running its start
    code with a fuel budget, and running one exported function with a fuel
    budget, with an integer argument and result or with a struct result. *)
Record riscv_api := {
  machine : Type;
  construct : list Z -> Z -> outcome machine;
  simulate_scalar : machine -> string -> Z -> Z -> machine * outcome Z;
  simulate_struct : machine -> string -> Z -> machine * outcome (list Z * Z)
}.

Context (M : riscv_api).

Inductive reply :=
| Ok1 (a : Z)
| Ok2 (a b : Z)
| Ok3 (a b c : Z)
| Error (reason : string).

Definition new_sandbox_nif (fileContents : list Z) : machine M + string :=
  match fileContents with
  | [] => inr "guest_elf_not_found"%string
  | _ =>
      match construct M fileContents 50000000 with
      | Returned m => inl m
      | _ => inr "guest_init_failed"%string
      end
  end.

(** The catch clauses of [call_capability_nif] with [machineExceptionToAtom]. *)
Definition catch {A} (o : outcome A) (ok : A -> reply) : reply :=
  match o with
  | Returned a => ok a
  | MachineTimeout => Error "gas_exhausted"
  | MachineFault => Error "guest_trap"
  | StdException => Error "guest_trap"
  end.

Definition call_capability_nif (m : machine M) (capability : string) (fuel : Z)
  : machine M * reply :=
  if (capability =? "loot_roll")%string then
    let '(m', o) := simulate_scalar M m "guest_loot_roll" fuel 42 in
    (m', catch o Ok1)
  else if (capability =? "combat_replay")%string then
    let '(m', o) := simulate_struct M m "guest_combat_replay" fuel in
    (m', catch o (fun r => Ok3 (nth 0 (fst r) 0) (nth 1 (fst r) 0) (nth 2 (fst r) 0)))
  else if (capability =? "progression_replay")%string then
    let '(m', o) := simulate_struct M m "guest_progression_replay" fuel in
    (m', catch o (fun r => Ok2 (nth 0 (fst r) 0) (nth 1 (fst r) 0)))
  else (m, Error "unknown_capability").

End Sandbox.
End Nif.
