(* ===== verification/GuestProofs.v ===== *)
(** The guest programs: what [snprintf] leaves in the buffers, and the values
    of the capabilities. *)

From Stdlib Require Import String Ascii ZArith List Bool Lia.
Import ListNotations.
From S2P Require Import Prelude GuestContent LootProofs Guest.
#[local] Open Scope Z_scope.
#[local] Open Scope content_scope.

(** * Texts in buffers *)

Definition nul_free (t : text) : Prop := Forall (fun b => b <> 0) t.

Definition nul_freeb (t : text) : bool := forallb (fun b => negb (b =? 0)) t.

Lemma nul_freeb_spec t : nul_freeb t = true -> nul_free t.
Proof.
  unfold nul_freeb. rewrite forallb_forall. intros H. apply Forall_forall. intros b Hb.
  specialize (H b Hb). apply negb_true_iff, Z.eqb_neq in H. exact H.
Qed.

Lemma nul_free_app t t' : nul_free (t ++ t') <-> nul_free t /\ nul_free t'.
Proof. apply Forall_app. Qed.

Lemma c_string_nul t r : nul_free t -> c_string (t ++ 0 :: r) = t.
Proof.
  induction 1 as [|b t Hb Ht IH]; [reflexivity|].
  cbn [app c_string]. destruct (Z.eqb_spec b 0); [contradiction|]. now rewrite IH.
Qed.

(** A text that fits is written whole, with its NUL. *)
Lemma snprintf_fits buf off size t : Z.of_nat (length t) < size ->
  (off + length t < length buf)%nat ->
  exists r, snprintf buf off size t =
    Some (firstn off buf ++ t ++ 0 :: r, Z.of_nat (length t)) /\
    length (firstn off buf ++ t ++ 0 :: r) = length buf.
Proof.
  intros Hs Hb. unfold snprintf. rewrite (proj2 (Z.eqb_neq size 0)) by lia.
  rewrite firstn_all2 by lia. rewrite length_app. cbn [length].
  destruct (Nat.leb_spec (off + (length t + 1)) (length buf)); [|lia].
  exists (skipn (off + (length t + 1)) buf). unfold memcpy.
  rewrite (firstn_all2 (t ++ [0])) by (rewrite length_app; cbn; lia).
  rewrite <- app_assoc. split; [reflexivity|].
  rewrite !length_app. cbn [length]. rewrite length_firstn, length_skipn. lia.
Qed.

(** * Decimal numbers *)

Definition is_digit (b : Z) : Prop := 48 <= b <= 57.

Lemma digits_length fuel : forall n acc, (length (digits fuel n acc) <= fuel + length acc)%nat.
Proof.
  induction fuel as [|f IH]; intros n acc; cbn [digits]; [lia|].
  destruct (n <? 10); [cbn; lia|]. specialize (IH (n / 10) ((48 + n mod 10) :: acc)).
  cbn [length] in IH. lia.
Qed.

Lemma digits_digits fuel : forall n acc, 0 <= n -> Forall is_digit acc ->
  Forall is_digit (digits fuel n acc).
Proof.
  induction fuel as [|f IH]; intros n acc Hn Ha; cbn [digits]; [exact Ha|].
  destruct (Z.ltb_spec n 10).
  - constructor; [unfold is_digit; lia|exact Ha].
  - apply IH; [apply Z.div_pos; lia|]. constructor; [|exact Ha].
    pose proof (Z.mod_pos_bound n 10 ltac:(lia)). unfold is_digit. lia.
Qed.

(** The value of a digit string read after the prefix value [v]. *)
Definition digits_value (v : Z) (t : text) : Z := fold_left (fun v b => v * 10 + (b - 48)) t v.

Lemma digits_read fuel : forall n acc, 0 <= n < 10 ^ Z.of_nat fuel ->
  digits_value 0 (digits fuel n acc) = digits_value n acc.
Proof.
  induction fuel as [|f IH]; intros n acc Hn.
  { change (10 ^ Z.of_nat 0) with 1 in Hn. cbn [digits]. f_equal. lia. }
  rewrite Nat2Z.inj_succ, Z.pow_succ_r in Hn by lia.
  cbn [digits]. destruct (Z.ltb_spec n 10).
  - unfold digits_value. cbn [fold_left]. f_equal. lia.
  - rewrite IH.
    + unfold digits_value. cbn [fold_left]. f_equal. pose proof (Z.div_mod n 10 ltac:(lia)). lia.
    + split; [apply Z.div_pos; lia|apply Z.div_lt_upper_bound; lia].
Qed.

Lemma digit_nul_free t : Forall is_digit t -> nul_free t.
Proof. apply Forall_impl. unfold is_digit. intros. lia. Qed.

Lemma fmt_lld_length z : (length (fmt_lld z) <= 20)%nat.
Proof.
  unfold fmt_lld. pose proof (digits_length 19 (- z) []). pose proof (digits_length 19 z []).
  cbn [length] in *. destruct (z <? 0); cbn [length]; lia.
Qed.

Lemma fmt_lld_nul_free z : nul_free (fmt_lld z).
Proof.
  unfold fmt_lld. destruct (Z.ltb_spec z 0); [constructor; [lia|]|];
    apply digit_nul_free, digits_digits; auto; lia.
Qed.

(** Reading a number back, up to the first byte that is not a digit. *)
Fixpoint span_digits (t : text) : text :=
  match t with
  | b :: t' => if (48 <=? b) && (b <=? 57) then b :: span_digits t' else []
  | [] => []
  end.

Definition read_lld (t : text) : Z :=
  match t with
  | b :: t' => if b =? 45 then - digits_value 0 (span_digits t')
               else digits_value 0 (span_digits t)
  | [] => 0
  end.

Lemma span_digits_app t r : Forall is_digit t -> span_digits (t ++ 32 :: r) = t.
Proof.
  induction 1 as [|b t Hb Ht IH]; [reflexivity|]. unfold is_digit in Hb.
  cbn [app span_digits]. destruct (Z.leb_spec 48 b), (Z.leb_spec b 57); try lia.
  cbn [andb]. now rewrite IH.
Qed.

Lemma digits_nonempty f n acc : exists b t, digits (S f) n acc = b :: t.
Proof.
  revert n acc. induction f as [|f IH]; intros n acc.
  - cbn [digits]. destruct (n <? 10); eauto.
  - change (digits (S (S f)) n acc) with
      (if n <? 10 then (48 + n) :: acc else digits (S f) (n / 10) ((48 + n mod 10) :: acc)).
    destruct (n <? 10); eauto.
Qed.

Lemma read_fmt_lld z r : - 2 ^ 63 <= z < 2 ^ 63 -> read_lld (fmt_lld z ++ 32 :: r) = z.
Proof.
  intros Hz. assert (P : 2 ^ 63 < 10 ^ Z.of_nat 19) by reflexivity.
  unfold fmt_lld. destruct (Z.ltb_spec z 0) as [N|N].
  - cbn [app read_lld]. rewrite Z.eqb_refl, span_digits_app by (apply digits_digits; auto; lia).
    rewrite digits_read by lia. cbn. lia.
  - pose proof (digits_digits 19 z [] N (Forall_nil _)) as D.
    pose proof (span_digits_app _ r D) as E. pose proof (digits_read 19 z []) as V.
    destruct (digits_nonempty 18 z []) as (b & t & B). rewrite B in *.
    inversion D as [|? ? Hb _]; subst. unfold is_digit in Hb.
    cbn [app read_lld] in *. rewrite (proj2 (Z.eqb_neq b 45)), E, V by lia. reflexivity.
Qed.

(** * The source buffer *)

(** The buffer holds [pre], a NUL and the rest; [n] counts [pre]. *)
Definition holds (st : list Z * Z) (pre : text) : Prop :=
  exists r, fst st = pre ++ r /\ length (fst st) = Z.to_nat 20000 /\
    snd st = Z.of_nat (length pre).

Lemma append_source_ok st pre t : holds st pre -> (length (pre ++ t) < Z.to_nat 20000)%nat ->
  exists st' r, WeftGuest.append_source st t = Some st' /\ holds st' (pre ++ t) /\
    fst st' = (pre ++ t) ++ 0 :: r.
Proof.
  destruct st as [buf n]. intros (r & B & Lb & N) L. cbn [fst snd] in *.
  rewrite length_app in L. unfold WeftGuest.append_source.
  rewrite wrap_id by lia.
  destruct (snprintf_fits buf (Z.to_nat n) (20000 - n) t) as (r' & E & L'); [lia|lia|].
  rewrite E. cbn [obind].
  assert (F : firstn (Z.to_nat n) buf = pre).
  { rewrite B, firstn_app, firstn_all2 by lia.
    replace (Z.to_nat n - length pre)%nat with 0%nat by lia. now rewrite firstn_O, app_nil_r. }
  rewrite F in *. rewrite wrap_id by lia. rewrite app_assoc in *.
  eexists _, r'. split; [reflexivity|]. cbn [fst].
  split; [|reflexivity]. exists (0 :: r'). cbn [fst snd].
  split; [reflexivity|]. split; [congruence|]. rewrite length_app. lia.
Qed.

(** The program text of the content. *)
Definition source_of (c : WeftGuest.content) : text :=
  str "(begin " ++ WeftGuest.g_record_macros_scm c ++ WeftGuest.g_loot_scm c
  ++ WeftGuest.g_combat_scm c ++ WeftGuest.g_progression_scm c ++ str ")".

Lemma guest_init_ok (S : s7_api) c : nul_free (source_of c) ->
  (length (source_of c) < Z.to_nat 20000)%nat ->
  exists buf, WeftGuest.guest_init S c (WeftGuest.initial_guest S) =
    Some (WeftGuest.mkGuest S
            (Some (fst (s7_eval_c_string S (s7_init S) (source_of c)))) buf) /\
    length buf = Z.to_nat 20000.
Proof.
  unfold source_of. intros Hn HL. rewrite !length_app in HL.
  unfold WeftGuest.guest_init. cbn [WeftGuest.initial_guest WeftGuest.g_source_buf].
  assert (H0 : holds (repeat 0 (Z.to_nat 20000), 0) []).
  { eexists. split; [reflexivity|]. split; [apply repeat_length|reflexivity]. }
  repeat match goal with
  | H : holds ?st ?pre |- context [WeftGuest.append_source ?st ?t] =>
      let st' := fresh "st" in let r := fresh "r" in let E := fresh "E" in
      let H' := fresh "H" in let F := fresh "F" in
      destruct (append_source_ok st pre t H) as (st' & r & E & H' & F);
      [rewrite ?length_app; cbn [length]; lia|];
      rewrite E; cbn [obind]; clear E H
  end.
  match goal with H : holds ?st ?pre, F : fst ?st = ?pre ++ _ |- _ =>
    destruct st as [buf n]; destruct H as (? & _ & Lb & _); cbn [fst] in F, Lb;
    assert (C : c_string buf = pre) by
      (rewrite F; apply c_string_nul; rewrite <- !app_assoc; exact Hn)
  end.
  rewrite C, <- !app_assoc. cbn [app].
  destruct (s7_eval_c_string S (s7_init S) _) as [sc p]. eexists. split; [reflexivity|exact Lb].
Qed.

(** * Capabilities *)

Definition loot_table : Loot.table := [(1, 10); (2, 20); (3, 5)].

(** The texts of the C code are the printed expressions. *)
Lemma loot_text seed : str "(loot-roll " ++ fmt_lld seed
  ++ str " (list (cons 1 10) (cons 2 20) (cons 3 5)))" = print (loot_expr seed).
Proof. cbn -[fmt_lld]. rewrite <- app_assoc. reflexivity. Qed.

Lemma loot_text_fits seed : (length (print (loot_expr seed)) < 160)%nat.
Proof.
  rewrite <- loot_text, !length_app. pose proof (fmt_lld_length seed) as H.
  change (length (str "(loot-roll ")) with 11%nat.
  change (length (str " (list (cons 1 10) (cons 2 20) (cons 3 5)))")) with 43%nat. lia.
Qed.

Lemma loot_text_nul_free seed : nul_free (print (loot_expr seed)).
Proof.
  rewrite <- loot_text, !nul_free_app. split; [apply nul_freeb_spec; reflexivity|].
  split; [apply fmt_lld_nul_free|apply nul_freeb_spec; reflexivity].
Qed.

(** The 160-byte stack buffer holds the whole call. *)
Lemma loot_buffer seed : exists e n,
  snprintf (repeat 0 160) 0 160 (str "(loot-roll " ++ fmt_lld seed
    ++ str " (list (cons 1 10) (cons 2 20) (cons 3 5)))") = Some (e, n) /\
  c_string e = print (loot_expr seed).
Proof.
  rewrite loot_text. pose proof (loot_text_fits seed).
  destruct (snprintf_fits (repeat 0 160) 0 160 (print (loot_expr seed))) as (r & E & _).
  - lia.
  - rewrite repeat_length. lia.
  - rewrite E. do 2 eexists. split; [reflexivity|]. cbn [firstn app].
    apply c_string_nul, loot_text_nul_free.
Qed.

Lemma eval_loot seed : exists item, eval (loot_expr seed) = Some (SInt item) /\
  picks loot_table (xorshift32 (wrap 32 seed) mod 35) item.
Proof.
  destruct (loot_roll_eq seed loot_table) as (item & E & P).
  - repeat constructor; cbn; lia.
  - cbn. lia.
  - exists item. split; [|exact P].
    change (eval (loot_expr seed)) with (let* r := Loot.loot_roll seed loot_table in Some (SInt r)).
    rewrite E. reflexivity.
Qed.

Lemma eval_combat : eval combat_expr =
  Some (sval_of_state (Combat.make_state 30 1 30 90 0 true)).
Proof. reflexivity. Qed.

Lemma eval_progression : eval progression_expr =
  Some (sval_of_profile (Progression.make_profile 150 16 [(1, 1)] [1])).
Proof. reflexivity. Qed.

(** The 160-byte stack buffer never truncates a call: for every seed both guests
    hand the interpreter the whole text of the roll. *)
Lemma guest_loot_text (S : s7_api) (g : WeftGuest.guest S) (sc : s7_scheme S) (seed : Z) :
  WeftGuest.g_sc S g = Some sc ->
  WeftGuest.guest_loot_roll S g seed =
    let '(sc', p) := s7_eval_c_string S sc (print (loot_expr seed)) in
    Some (WeftGuest.mkGuest S (Some sc') (WeftGuest.g_source_buf S g), s7_integer S p).
Proof.
  intros G. unfold WeftGuest.guest_loot_roll. destruct (loot_buffer seed) as (e & n & -> & E). cbn [obind].
  rewrite E. unfold WeftGuest.guest_eval. rewrite G. cbn [obind]. now destruct (s7_eval_c_string S sc _).
Qed.

Lemma sandbox_loot_text (S : s7_api) (sc : s7_scheme S) (seed : Z) :
  SandboxGuest.guest_loot_roll S sc seed =
    let '(sc', p) := s7_eval_c_string S sc (print (loot_expr seed)) in Some (sc', s7_integer S p).
Proof.
  unfold SandboxGuest.guest_loot_roll. destruct (loot_buffer seed) as (e & n & -> & E). cbn [obind].
  rewrite E. now destruct (s7_eval_c_string S sc _).
Qed.

(** * The host's dispatch *)

(** The guest symbols a capability may run. *)
Definition capability_symbols : list (string * string) :=
  [("loot_roll", "guest_loot_roll"); ("combat_replay", "guest_combat_replay");
   ("progression_replay", "guest_progression_replay")]%string.

(** The capability set is closed: whatever atom and fuel the caller
    passes, the machine is left untouched and [unknown_capability] answered
    unless the atom names one of the three capabilities; then exactly one run
    happens, of that capability's own symbol with the caller's fuel (and the
    fixed seed 42), and running out of fuel is the only failure reported as
    [gas_exhausted], every other one as [guest_trap]. *)
Theorem call_capability_closed (M : Nif.riscv_api) (m : Nif.machine M) (cap : string) (fuel : Z) :
  let '(m', r) := Nif.call_capability_nif M m cap fuel in
  if existsb (fun p => (cap =? fst p)%string) capability_symbols then
    exists sym, In (cap, sym) capability_symbols /\
      ((exists o, Nif.simulate_scalar M m sym fuel 42 = (m', o) /\
          (r = Nif.Error "gas_exhausted" <-> o = Nif.MachineTimeout) /\
          (r = Nif.Error "guest_trap" <-> o = Nif.MachineFault \/ o = Nif.StdException)) \/
       (exists o, Nif.simulate_struct M m sym fuel = (m', o) /\
          (r = Nif.Error "gas_exhausted" <-> o = Nif.MachineTimeout) /\
          (r = Nif.Error "guest_trap" <-> o = Nif.MachineFault \/ o = Nif.StdException)))
  else m' = m /\ r = Nif.Error "unknown_capability".
Proof.
  unfold Nif.call_capability_nif, capability_symbols. cbn [existsb fst].
  destruct (String.eqb_spec cap "loot_roll") as [->|]; [|
  destruct (String.eqb_spec cap "combat_replay") as [->|]; [|
  destruct (String.eqb_spec cap "progression_replay") as [->|]; [|cbn; auto]]]; cbn [orb].
  - destruct (Nif.simulate_scalar M m _ fuel 42) as [m' o] eqn:E.
    eexists. split; [left; reflexivity|]. left. exists o. split; [exact E|].
    destruct o; cbn; intuition congruence.
  - destruct (Nif.simulate_struct M m _ fuel) as [m' o] eqn:E.
    eexists. split; [right; left; reflexivity|]. right. exists o. split; [exact E|].
    destruct o; cbn; intuition congruence.
  - destruct (Nif.simulate_struct M m _ fuel) as [m' o] eqn:E.
    eexists. split; [right; right; left; reflexivity|]. right. exists o. split; [exact E|].
    destruct o; cbn; intuition congruence.
Qed.
