(* ===== verification/Float32.v ===== *)
(** Single-precision arithmetic on nonnegative values, as exact rationals.

    A nonnegative finite [float] is a fraction whose denominator is a power of
    two; every operation rounds its exact result to 24 significant bits, to
    nearest, ties to even.  Exponents are unbounded: the quotients and products
    of [int]s the models compute stay far inside the range of normal numbers. *)

From Stdlib Require Import ZArith Lia Bool.
From S2P Require Import Prelude.
#[local] Open Scope Z_scope.

Record f32 := mkF32 { num : Z; den : Z }.

(** N / D to the nearest integer, ties to even. *)
Definition rne (N D : Z) : Z :=
  let q := N / D in
  let r := N mod D in
  if 2 * r <? D then q
  else if D <? 2 * r then q + 1
  else if Z.even q then q else q + 1.

(** n * 2^e' / d for the exponent e', over a common integer fraction. *)
Definition scale_num (n e : Z) : Z := n * 2 ^ Z.max 0 (- e).
Definition scale_den (d e : Z) : Z := d * 2 ^ Z.max 0 e.

(** The exponent at which n / d has 24 bits before the point. *)
Definition exponent (n d : Z) : Z :=
  let e := Z.log2 n - Z.log2 d - 24 in
  if 2 ^ 24 * scale_den d e <=? scale_num n e then e + 1 else e.

(** The float nearest to n / d. *)
Definition fl (n d : Z) : f32 :=
  if n =? 0 then mkF32 0 1
  else
    let e := exponent n d in
    let m := rne (scale_num n e) (scale_den d e) in
    mkF32 (m * 2 ^ Z.max 0 e) (2 ^ Z.max 0 (- e)).

Definition of_int (z : Z) : f32 := fl z 1.
Definition fdiv (a b : f32) : f32 := fl (num a * den b) (den a * num b).
Definition fmul (a b : f32) : f32 := fl (num a * num b) (den a * den b).

Definition fceil (a : f32) : Z := - ((- num a) / den a).

Example third : fdiv (of_int 1) (of_int 3) = mkF32 11184811 33554432.
Proof. reflexivity. Qed.

Lemma rne_bound N D : 0 < D -> 2 * (N - rne N D * D) <= D.
Proof.
  intros HD. unfold rne. pose proof (Z.div_mod N D ltac:(lia)). pose proof (Z.mod_pos_bound N D HD).
  zcases; [nia|nia|]. destruct (Z.even (N / D)); nia.
Qed.

Lemma rne_exact q D : 0 < D -> rne (q * D) D = q.
Proof.
  intros HD. unfold rne. rewrite Z.div_mul, Z.mod_mul by lia.
  destruct (Z.ltb_spec (2 * 0) D); [reflexivity|lia].
Qed.

Lemma scale_den_pos d e : 0 < d -> 0 < scale_den d e.
Proof. intros. unfold scale_den. pose proof (Z.pow_pos_nonneg 2 (Z.max 0 e)). nia. Qed.

(** n / d >= 2^(log2 n - log2 d - 1), after scaling. *)
Lemma scale_low n d e : 0 < n -> 0 < d -> e = Z.log2 n - Z.log2 d - 24 ->
  2 ^ 23 * scale_den d e <= scale_num n e.
Proof.
  intros Hn Hd He. unfold scale_den, scale_num.
  pose proof (Z.log2_spec n Hn) as [Ln _]. pose proof (Z.log2_spec d Hd) as [_ Ld].
  pose proof (Z.log2_nonneg n). pose proof (Z.log2_nonneg d).
  set (a := Z.log2 n) in *. set (b := Z.log2 d) in *.
  assert (P : 0 < 2 ^ Z.max 0 e) by (apply Z.pow_pos_nonneg; lia).
  assert (Q : 0 < 2 ^ Z.max 0 (- e)) by (apply Z.pow_pos_nonneg; lia).
  assert (E : 2 ^ 23 * (2 ^ Z.succ b * 2 ^ Z.max 0 e) = 2 ^ a * 2 ^ Z.max 0 (- e)).
  { rewrite <- !Z.pow_add_r by lia. f_equal. lia. }
  nia.
Qed.

Lemma exponent_low n d : 0 < n -> 0 < d ->
  2 ^ 23 * scale_den d (exponent n d) <= scale_num n (exponent n d).
Proof.
  intros Hn Hd. unfold exponent. set (e := Z.log2 n - Z.log2 d - 24).
  destruct (Z.leb_spec (2 ^ 24 * scale_den d e) (scale_num n e)) as [L|L].
  - unfold scale_den, scale_num in *.
    destruct (Z.leb_spec 0 e) as [G|G].
    + rewrite !Z.max_r, !Z.max_l in * by lia. rewrite Z.pow_add_r by lia. lia.
    + rewrite (Z.max_l 0 e), (Z.max_l 0 (e + 1)), (Z.max_r 0 (- e)), (Z.max_r 0 (- (e + 1))) in * by lia.
      replace (- e) with (- (e + 1) + 1) in L by lia. rewrite Z.pow_add_r in L by lia. lia.
  - now apply scale_low.
Qed.

(** The relative error of rounding is at most 2^-24 from below. *)
Lemma fl_error n d : 0 < n -> 0 < d ->
  (2 ^ 24 - 1) * (n * den (fl n d)) <= 2 ^ 24 * (num (fl n d) * d) /\
  0 < num (fl n d) /\ 0 < den (fl n d).
Proof.
  intros Hn Hd. unfold fl. rewrite (proj2 (Z.eqb_neq n 0)) by lia. cbn [num den].
  set (e := exponent n d). pose proof (exponent_low n d Hn Hd) as L. fold e in L.
  pose proof (scale_den_pos d e Hd) as PD. pose proof (rne_bound (scale_num n e) _ PD) as B.
  set (m := rne _ _) in *.
  assert (P : 0 < 2 ^ Z.max 0 e) by (apply Z.pow_pos_nonneg; lia).
  assert (Q : 0 < 2 ^ Z.max 0 (- e)) by (apply Z.pow_pos_nonneg; lia).
  assert (M : (2 ^ 24 - 1) * scale_num n e <= 2 ^ 24 * (m * scale_den d e)) by lia.
  assert (M0 : 0 < m).
  { destruct (Z.leb_spec m 0); [|assumption]. nia. }
  unfold scale_num, scale_den in M. split; [|split]; nia.
Qed.

(** An integer below 2^24 is represented exactly. *)
Lemma fl_exact c d : 0 < c < 2 ^ 24 -> 0 < d ->
  exists k, 0 < k /\ fl (c * d) d = mkF32 (c * k) k.
Proof.
  intros Hc Hd. unfold fl. rewrite (proj2 (Z.eqb_neq (c * d) 0)) by nia.
  set (e := exponent (c * d) d).
  assert (E : e <= 0).
  { unfold e, exponent. pose proof (Z.log2_mul_above c d ltac:(lia) ltac:(lia)) as A.
    assert (Z.log2 c < 24) by (apply Z.log2_lt_pow2; lia).
    set (e0 := Z.log2 (c * d) - Z.log2 d - 24) in *.
    destruct (Z.leb_spec (2 ^ 24 * scale_den d e0) (scale_num (c * d) e0)) as [L|L]; [|lia].
    destruct (Z.eq_dec e0 0) as [E0|]; [|lia]. rewrite E0 in L. unfold scale_den, scale_num in L.
    cbn [Z.max Z.opp] in L. change (2 ^ Z.max 0 0) with 1 in L. change (2 ^ Z.max 0 (- 0)) with 1 in L. nia. }
  exists (2 ^ Z.max 0 (- e)). split; [apply Z.pow_pos_nonneg; lia|].
  unfold scale_num, scale_den. rewrite (Z.max_l 0 e) by lia.
  change (2 ^ 0) with 1. rewrite !Z.mul_1_r.
  replace (c * d * 2 ^ Z.max 0 (- e)) with (c * 2 ^ Z.max 0 (- e) * d) by ring.
  now rewrite rne_exact.
Qed.

Lemma fceil_lower a : 0 < den a -> num a <= fceil a * den a.
Proof.
  intros H. unfold fceil. pose proof (Z.div_mod (- num a) (den a) ltac:(lia)).
  pose proof (Z.mod_pos_bound (- num a) (den a) H). nia.
Qed.

Lemma fceil_exact c k : 0 < k -> fceil (mkF32 (c * k) k) = c.
Proof.
  intros H. unfold fceil. cbn [num den].
  replace (- (c * k)) with (- c * k) by ring. rewrite Z.div_mul by lia. lia.
Qed.
