(* ===== verification/PriorityMultiLock.v ===== *)
(** The weighted lock of flow/include/flow/PriorityMultiLock.h.

    The runner coroutine is a phase of the state: waiting on its trigger, in
    its launch loop, inside the callbacks of the promise it has just sent a
    lock to, or stopped.  Callers act while the runner waits and, reentrantly,
    while it is inside those callbacks; a trigger that finds the runner waiting
    resumes it before anything else happens. *)

From Stdlib Require Import ZArith List Bool.
Import ListNotations.
From S2P Require Import Prelude Float32.
#[local] Open Scope Z_scope.

(** * State *)

Record Priority := mkPriority {
  queue : list Z;      (* waiters, by identity *)
  runners : Z;
  weight : Z
}.

(** An iterator of [waitingPriorities]: the priority it points to, or [end()]. *)
Definition iter := option nat.

Inductive phase :=
| Waiting (p : iter)                          (* at wakeRunner.onTrigger() *)
| Launching (p : iter)                        (* at the head of the launch loop *)
| Sending (p : iter) (pr : nat) (released : bool) (* in lockPromise.send(lock) *)
| Stopped.                                    (* cancelled, or ended by an error *)

Record pml := mkPml {
  concurrency : Z;
  available : Z;
  waiting : Z;
  totalPendingWeights : Z;
  priorities : list Priority;
  waitingPriorities : list nat;
  runner : phase;
  broken : bool;       (* brokenOnDestruct has been reset *)
  killed : bool
}.

(** The constructor; the runner runs to its first wait. *)
Definition PriorityMultiLock (c : Z) (weightsByPriority : list Z) : pml :=
  mkPml c c 0 0 (map (mkPriority [] 0) weightsByPriority) [] (Waiting None) false false.

(** * Field updates *)

Definition with_runner (ph : phase) (s : pml) : pml :=
  mkPml (concurrency s) (available s) (waiting s) (totalPendingWeights s) (priorities s)
        (waitingPriorities s) ph (broken s) (killed s).

Definition with_priority (i : nat) (p : Priority) (s : pml) : pml :=
  mkPml (concurrency s) (available s) (waiting s) (totalPendingWeights s)
        (set_nth (priorities s) i p) (waitingPriorities s) (runner s) (broken s) (killed s).

Definition with_available (v : Z) (s : pml) : pml :=
  mkPml (concurrency s) v (waiting s) (totalPendingWeights s) (priorities s)
        (waitingPriorities s) (runner s) (broken s) (killed s).

Definition with_waiting (v : Z) (s : pml) : pml :=
  mkPml (concurrency s) (available s) v (totalPendingWeights s) (priorities s)
        (waitingPriorities s) (runner s) (broken s) (killed s).

Definition with_pending (v : Z) (wl : list nat) (s : pml) : pml :=
  mkPml (concurrency s) (available s) (waiting s) v (priorities s) wl (runner s)
        (broken s) (killed s).

Definition is_empty {A} (l : list A) : bool := match l with [] => true | _ => false end.

(** * Operations *)

(** [ceil((float)weight / totalPendingWeights * concurrency)]. *)
Definition currentCapacity (weight totalPendingWeights concurrency : Z) : Z :=
  fceil (fmul (fdiv (of_int weight) (of_int totalPendingWeights)) (of_int concurrency)).

(** A granted lock whose promise can still be set: its release handler is
    registered. *)
Definition addRunner (s : pml) (pr : nat) : option pml :=
  match nth_error (priorities s) pr with
  | None => None
  | Some p =>
      Some (with_available (available s - 1)
             (with_priority pr (mkPriority (queue p) (runners p + 1) (weight p)) s))
  end.

Inductive lock_result := Granted | Queued | BrokenPromise.

Definition enqueue (s : pml) (pr : nat) (p : Priority) (w : Z) : pml :=
  with_waiting (waiting s + 1)
    (with_priority pr (mkPriority (queue p ++ [w]) (runners p) (weight p)) s).

(** [lock(pr)] by the caller [w]; [None] for a priority outside the vector. *)
Definition lock (s : pml) (pr : nat) (w : Z) : option (pml * lock_result) :=
  if killed s then Some (s, BrokenPromise)
  else
    match nth_error (priorities s) pr with
    | None => None
    | Some p =>
        if is_empty (queue p) then
          let total := totalPendingWeights s + weight p in
          if (available s >? 0) && (runners p <? currentCapacity (weight p) total (concurrency s))
          then option_map (fun s' => (s', Granted)) (addRunner s pr)
          else
            Some (enqueue (with_pending total (waitingPriorities s ++ [pr]) s) pr p w, Queued)
        else Some (enqueue s pr p w, Queued)
    end.

(** [releaseRunner], with [wakeRunner.trigger()]. *)
Definition releaseRunner (s : pml) (pr : nat) : option pml :=
  match nth_error (priorities s) pr with
  | None => None
  | Some p =>
      let s := with_available (available s + 1)
                 (with_priority pr (mkPriority (queue p) (runners p - 1) (weight p)) s) in
      Some (if waiting s >? 0
            then match runner s with
                 | Waiting it => with_runner (Launching it) s
                 | _ => s
                 end
            else s)
  end.

(** [halt]: a runner that waits is cancelled on the spot, one that is running
    sees the broken promise after its send. *)
Definition halt (s : pml) : pml :=
  mkPml 0 (available s - concurrency s) (waiting s) (totalPendingWeights s) (priorities s) []
        (match runner s with Sending _ _ _ => runner s | _ => Stopped end) true (killed s).

Definition kill (s : pml) : pml :=
  if killed s then s
  else
    let s := halt (mkPml (concurrency s) (available s) (waiting s) (totalPendingWeights s)
                         (priorities s) (waitingPriorities s) (runner s) (broken s) true) in
    mkPml (concurrency s) (available s) (waiting s) (totalPendingWeights s)
          (map (fun p => mkPriority [] (runners p) (weight p)) (priorities s))
          (waitingPriorities s) (runner s) (broken s) (killed s).

Definition getRunnersCount (s : pml) : Z := concurrency s - available s.
Definition getWaitersCount (s : pml) : Z := waiting s.

(** * The runner *)

(** [++p]. *)
Fixpoint next (wl : list nat) (q : nat) : iter :=
  match wl with
  | [] => None
  | x :: wl' => if Nat.eqb x q then hd_error wl' else next wl' q
  end.

Definition launchable (s : pml) (q : nat) : bool :=
  match nth_error (priorities s) q with
  | None => false
  | Some p =>
      negb (is_empty (queue p)) &&
      (runners p <? currentCapacity (weight p) (totalPendingWeights s) (concurrency s))
  end.

(** The search for the next priority with waiters and capacity; [None] when it
    has not ended within the fuel or dereferences [end()]. *)
Fixpoint scan (fuel : nat) (s : pml) (p : iter) : option nat :=
  match fuel with
  | O => None
  | S f =>
      match (match p with None => hd_error (waitingPriorities s) | Some q => Some q end) with
      | None => None
      | Some q => if launchable s q then Some q else scan f s (next (waitingPriorities s) q)
      end
  end.

Definition scan_fuel (s : pml) : nat := 2 * length (waitingPriorities s) + 1.

(** One turn of the launch loop up to [lockPromise.send(lock)]; the waiter that
    is sent the lock is returned. *)
Definition launch (s : pml) (it : iter) : option (pml * option (nat * Z)) :=
  if (available s >? 0) && (waiting s >? 0) then
    match scan (scan_fuel s) s it with
    | None => None
    | Some q =>
        match nth_error (priorities s) q with
        | Some (mkPriority (w :: ws) r wt) =>
            let s1 := with_priority q (mkPriority ws r wt) s in
            let '(it', s2) :=
              if is_empty ws
              then (next (waitingPriorities s1) q,
                    with_pending (totalPendingWeights s1 - wt)
                      (remove Nat.eq_dec q (waitingPriorities s1)) s1)
              else (Some q, s1) in
            Some (with_runner (Sending it' q false) (with_waiting (waiting s2 - 1) s2),
                  Some (q, w))
        | _ => None
        end
    end
  else Some (with_runner (Waiting it) s, None).

(** The rest of the turn, after the callbacks of the send. *)
Definition after_send (s : pml) (it : iter) (pr : nat) (released : bool) : option pml :=
  if broken s then Some (with_runner Stopped s)
  else
    option_map (with_runner (Launching it))
      (if released then Some s else addRunner s pr).

(** * Traces *)

Inductive action :=
| ALock (pr : nat) (w : Z)
| ARelease (pr : nat)       (* a lock with a registered handler is released *)
| AReleaseSent              (* the lock being sent is released by its receiver *)
| AHalt
| AKill
| ARunner.                  (* the runner continues *)

(** Callers act while the runner waits, is stopped, or is in its callbacks. *)
Definition callers_run (s : pml) : bool :=
  match runner s with Launching _ => false | _ => true end.

Definition step (s : pml) (a : action) : option pml :=
  match a with
  | ALock pr w => if callers_run s then option_map fst (lock s pr w) else None
  | ARelease pr =>
      if callers_run s then
        match nth_error (priorities s) pr with
        | Some p => if 0 <? runners p then releaseRunner s pr else None
        | None => None
        end
      else None
  | AReleaseSent =>
      match runner s with
      | Sending it pr false => Some (with_runner (Sending it pr true) s)
      | _ => None
      end
  | AHalt => if callers_run s then Some (halt s) else None
  | AKill => if callers_run s then Some (kill s) else None
  | ARunner =>
      match runner s with
      | Launching it => option_map fst (launch s it)
      | Sending it pr released => after_send s it pr released
      | _ => None
      end
  end.

Fixpoint run (s : pml) (l : list action) : option pml :=
  match l with
  | [] => Some s
  | a :: l' => match step s a with Some s' => run s' l' | None => None end
  end.

(** Weights 3 and 1 share four slots three to one. *)
Example capacity_shares : currentCapacity 3 4 4 = 3 /\ currentCapacity 1 4 4 = 1.
Proof. split; reflexivity. Qed.

Example handover :
  option_map (fun s => (runner s, available s, waiting s))
    (run (PriorityMultiLock 1 [2; 1])
       [ALock 0 1; ALock 1 2; ALock 0 3; ARelease 0; ARunner; ARunner; ARunner])
  = Some (Waiting (Some 0%nat), 0, 1).
Proof. reflexivity. Qed.
