(* ===== verification/PriorityMultiLockProofs.v ===== *)
(** PriorityMultiLock: accounting, scheduling progress and the concurrency
    limit. *)

From Stdlib Require Import ZArith List Bool Lia Arith.
Import ListNotations.
From S2P Require Import Prelude Float32 PriorityMultiLock.
#[local] Open Scope Z_scope.

(** * Capacity *)

Lemma of_int_exact z : 0 < z < 2 ^ 24 -> exists k, 0 < k /\ of_int z = mkF32 (z * k) k.
Proof.
  intros H. unfold of_int. destruct (fl_exact z 1 H ltac:(lia)) as (k & K & E).
  rewrite Z.mul_1_r in E. eauto.
Qed.

(** A priority that alone has waiters may use every slot. *)
Lemma capacity_alone w c : 0 < w < 2 ^ 24 -> 0 < c < 2 ^ 24 -> currentCapacity w w c = c.
Proof.
  intros Hw Hc. unfold currentCapacity, fdiv, fmul.
  destruct (of_int_exact w Hw) as (k & K & ->). destruct (of_int_exact c Hc) as (j & J & ->).
  cbn [num den]. replace (w * k * k) with (1 * (k * (w * k))) by ring.
  destruct (fl_exact 1 (k * (w * k)) ltac:(lia) ltac:(nia)) as (i & I & ->). cbn [num den].
  replace (1 * i * (c * j)) with (c * (i * j)) by ring.
  destruct (fl_exact c (i * j) Hc ltac:(nia)) as (h & H & ->). now apply fceil_exact.
Qed.

(** Two roundings lose at most 2^-24 of the exact share each. *)
Lemma capacity_lower w W c : 0 < w < 2 ^ 24 -> 0 < W < 2 ^ 24 -> 0 < c < 2 ^ 24 ->
  (2 ^ 24 - 1) * (2 ^ 24 - 1) * (w * c) <= 2 ^ 48 * (W * currentCapacity w W c).
Proof.
  intros Hw HW Hc. unfold currentCapacity, fdiv, fmul.
  destruct (of_int_exact w Hw) as (a & A & ->). destruct (of_int_exact W HW) as (b & B & ->).
  destruct (of_int_exact c Hc) as (d & D & ->). cbn [num den].
  destruct (fl_error (w * a * b) (a * (W * b)) ltac:(nia) ltac:(nia)) as (E1 & N1 & D1).
  set (x := fl (w * a * b) (a * (W * b))) in *.
  destruct (fl_error (num x * (c * d)) (den x * d) ltac:(nia) ltac:(nia)) as (E2 & N2 & D2).
  set (y := fl (num x * (c * d)) (den x * d)) in *.
  pose proof (fceil_lower y D2) as L. set (q := fceil y) in *.
  assert (F1 : (2 ^ 24 - 1) * (w * den x) <= 2 ^ 24 * (num x * W)) by nia.
  assert (F2 : (2 ^ 24 - 1) * (num x * c * den y) <= 2 ^ 24 * (num y * den x)) by nia.
  assert (F3 : (2 ^ 24 - 1) * (num x * c) <= 2 ^ 24 * (q * den x)) by nia.
  clear E1 E2 F2 L. change (2 ^ 48) with (2 ^ 24 * 2 ^ 24).
  set (m := 2 ^ 24 - 1) in *. set (t := 2 ^ 24) in *.
  assert (T : 0 < t) by (subst t; lia). assert (M : 0 < m) by (subst m t; lia).
  assert (G : den x * (m * m * (w * c)) <= den x * (t * t * (W * q))).
  { apply Z.le_trans with (m * c * (t * (num x * W))).
    - replace (den x * (m * m * (w * c))) with (m * c * (m * (w * den x))) by ring.
      apply Z.mul_le_mono_nonneg_l; [nia|exact F1].
    - replace (m * c * (t * (num x * W))) with (t * W * (m * (num x * c))) by ring.
      replace (den x * (t * t * (W * q))) with (t * W * (t * (q * den x))) by ring.
      apply Z.mul_le_mono_nonneg_l; [nia|exact F3]. }
  nia.
Qed.

(** * Sums over the priorities *)

Fixpoint sumP (f : Priority -> Z) (l : list Priority) : Z :=
  match l with [] => 0 | p :: l' => f p + sumP f l' end.

Lemma sumP_app f l l' : sumP f (l ++ l') = sumP f l + sumP f l'.
Proof. induction l; cbn [app sumP]; lia. Qed.

Lemma sumP_set f l i p x : nth_error l i = Some p ->
  sumP f (set_nth l i x) = sumP f l - f p + f x.
Proof.
  intros H. destruct (set_nth_split l i p x H) as (l1 & l2 & -> & _ & ->).
  rewrite !sumP_app. cbn [sumP]. lia.
Qed.

(** Length of the queue, and the weight a priority contributes to the pending
    weights. *)
Definition qlen (p : Priority) : Z := Z.of_nat (length (queue p)).
Definition pweight (p : Priority) : Z := if is_empty (queue p) then 0 else weight p.

Definition pri_ok (p : Priority) : Prop := 0 <= runners p /\ 0 < weight p.

Lemma sumP_nonneg f l : (forall p, In p l -> 0 <= f p) -> 0 <= sumP f l.
Proof.
  induction l as [|p l IH]; intros H; cbn [sumP]; [lia|].
  pose proof (H p (or_introl eq_refl)). assert (0 <= sumP f l) by (apply IH; intros; apply H; now right).
  lia.
Qed.

Lemma sumP_member f l i p : (forall p, In p l -> 0 <= f p) -> nth_error l i = Some p ->
  f p <= sumP f l.
Proof.
  intros H E. destruct (nth_error_split l i E) as (l1 & l2 & -> & _).
  rewrite sumP_app. cbn [sumP].
  assert (0 <= sumP f l1) by (apply sumP_nonneg; intros; apply H, in_app_iff; auto).
  assert (0 <= sumP f l2) by (apply sumP_nonneg; intros; apply H, in_app_iff; right; now right).
  lia.
Qed.

Lemma pweight_le l : Forall pri_ok l -> 0 <= sumP pweight l <= sumP weight l.
Proof.
  induction 1 as [|p l [_ W] F IH]; cbn [sumP]; [lia|].
  unfold pweight at 1 3. destruct (is_empty (queue p)); lia.
Qed.

Lemma queues_empty l : sumP qlen l = 0 -> Forall (fun p => queue p = []) l.
Proof.
  induction l as [|p l IH]; cbn [sumP]; intros H; constructor.
  - assert (0 <= sumP qlen l) by (apply sumP_nonneg; unfold qlen; lia).
    unfold qlen in H at 1. destruct (queue p); [reflexivity|cbn [length] in H; lia].
  - apply IH. assert (0 <= sumP qlen l) by (apply sumP_nonneg; unfold qlen; lia).
    unfold qlen in H at 1. lia.
Qed.

Lemma queues_empty_weight l : Forall (fun p => queue p = []) l -> sumP pweight l = 0.
Proof. induction 1 as [|p l E F IH]; cbn [sumP]; [lia|]. unfold pweight at 1. rewrite E. cbn. lia. Qed.

Lemma pweight_pos l : Forall pri_ok l -> 0 < sumP qlen l -> 0 < sumP pweight l.
Proof.
  induction 1 as [|p l [_ W] F IH]; cbn [sumP]; [lia|]. intros H.
  pose proof (pweight_le l F). unfold pweight at 1. unfold qlen at 1 in H.
  destruct (queue p); cbn [is_empty length] in *; [apply IH in H|]; lia.
Qed.

(** * Some waiting priority has capacity *)

(** If every priority with waiters has used up its capacity, the capacities
    have been used up together. *)
Lemma capacity_used W c l : Forall pri_ok l -> sumP weight l < 2 ^ 24 ->
  0 < W < 2 ^ 24 -> 0 < c < 2 ^ 24 ->
  (forall p, In p l -> queue p <> [] -> currentCapacity (weight p) W c <= runners p) ->
  (2 ^ 24 - 1) * (2 ^ 24 - 1) * (sumP pweight l * c) <= 2 ^ 48 * (W * sumP runners l).
Proof.
  intros F. induction F as [|p l [R P] F IH]; intros HS HW Hc H; cbn [sumP] in *; [lia|].
  pose proof (pweight_le l F).
  assert (I : (2 ^ 24 - 1) * (2 ^ 24 - 1) * (sumP pweight l * c) <= 2 ^ 48 * (W * sumP runners l)).
  { apply IH; [lia|assumption|assumption|]. intros q Hq. apply H. now right. }
  assert (J : (2 ^ 24 - 1) * (2 ^ 24 - 1) * (pweight p * c) <= 2 ^ 48 * (W * runners p)).
  { unfold pweight. destruct (queue p) eqn:Q; cbn [is_empty]; [nia|].
    pose proof (capacity_lower (weight p) W c ltac:(lia) HW Hc) as L.
    specialize (H p (or_introl eq_refl) ltac:(congruence)). nia. }
  lia.
Qed.

Lemma capacity_exists c l : Forall pri_ok l -> sumP weight l < 2 ^ 24 -> 0 < c <= 2 ^ 22 ->
  0 < sumP pweight l -> sumP runners l < c ->
  exists i p, nth_error l i = Some p /\ queue p <> [] /\
    runners p < currentCapacity (weight p) (sumP pweight l) c.
Proof.
  intros F HS Hc HW HR. set (W := sumP pweight l) in *.
  set (free := fun p => negb (is_empty (queue p)) && (runners p <? currentCapacity (weight p) W c)).
  destruct (existsb free l) eqn:E.
  - apply existsb_exists in E. destruct E as (p & Hp & G). apply In_nth_error in Hp.
    destruct Hp as (i & Hi). exists i, p. unfold free in G. apply andb_true_iff in G.
    destruct G as [G1 G2]. apply Z.ltb_lt in G2. split; [exact Hi|]. split; [|exact G2].
    destruct (queue p); [discriminate|congruence].
  - exfalso. pose proof (pweight_le l F) as B. fold W in B.
    assert (U : (2 ^ 24 - 1) * (2 ^ 24 - 1) * (W * c) <= 2 ^ 48 * (W * sumP runners l)).
    { apply capacity_used; [exact F|exact HS|lia|lia|]. intros p Hp Q.
      destruct (Z.leb_spec (currentCapacity (weight p) W c) (runners p)) as [L|L]; [exact L|].
      assert (X : existsb free l = true).
      { apply existsb_exists. exists p. split; [exact Hp|]. unfold free.
        rewrite (proj2 (Z.ltb_lt _ _) L). destruct (queue p); [contradiction|reflexivity]. }
      congruence. }
    assert (V : (2 ^ 24 - 1) * (2 ^ 24 - 1) * c <= 2 ^ 48 * sumP runners l) by nia.
    lia.
Qed.

(** * The search *)

Lemma next_app l1 q l2 : NoDup (l1 ++ q :: l2) -> next (l1 ++ q :: l2) q = hd_error l2.
Proof.
  induction l1 as [|x l1 IH]; cbn [app next]; intros N.
  - now rewrite Nat.eqb_refl.
  - inversion N; subst. destruct (Nat.eqb_spec x q) as [->|]; [|auto].
    exfalso. apply H1, in_app_iff. right. now left.
Qed.

(** From the head of a suffix of the list the search finds the first
    launchable priority of the suffix, or reaches the end. *)
Lemma scan_suffix s suf : forall pre fuel, NoDup (pre ++ suf) ->
  waitingPriorities s = pre ++ suf -> suf <> [] -> (length suf <= fuel)%nat ->
  (exists q, In q suf /\ launchable s q = true /\ scan fuel s (hd_error suf) = Some q) \/
  (forallb (fun q => negb (launchable s q)) suf = true /\
   scan fuel s (hd_error suf) = scan (fuel - length suf) s None).
Proof.
  induction suf as [|q suf IH]; intros pre fuel N E NE L; [congruence|].
  destruct fuel as [|f]; [cbn in L; lia|]. cbn [hd_error scan length] in *.
  destruct (launchable s q) eqn:Q; [left; exists q; cbn; auto|].
  rewrite E, next_app by exact N. destruct suf as [|q' suf].
  - right. cbn [forallb hd_error]. rewrite Q. split; [reflexivity|]. cbn [length]. f_equal. lia.
  - destruct (IH (pre ++ [q]) f) as [(x & I & X & Sx)|[A B]].
    + rewrite <- app_assoc. exact N.
    + rewrite <- app_assoc. exact E.
    + congruence.
    + cbn [length] in *. lia.
    + left. exists x. split; [now right|auto].
    + right. cbn [forallb] in *. rewrite Q. split; [exact A|]. rewrite B. f_equal.
Qed.

Definition iter_ok (it : iter) (wl : list nat) : Prop :=
  match it with Some q => In q wl | None => True end.

Lemma scan_finds s it : NoDup (waitingPriorities s) -> iter_ok it (waitingPriorities s) ->
  (exists q, In q (waitingPriorities s) /\ launchable s q = true) ->
  exists q, scan (scan_fuel s) s it = Some q /\ In q (waitingPriorities s) /\ launchable s q = true.
Proof.
  intros N I (q & Hq & Q).
  assert (W : forall fuel, (length (waitingPriorities s) <= fuel)%nat ->
    exists q, scan fuel s None = Some q /\ In q (waitingPriorities s) /\ launchable s q = true).
  { intros fuel L. destruct (waitingPriorities s) as [|x wl] eqn:E; [destruct Hq|].
    destruct fuel as [|f]; [cbn in L; lia|].
    assert (Z : scan (S f) s None = scan (S f) s (hd_error (x :: wl))).
    { cbn [scan hd_error]. now rewrite E. }
    rewrite Z. destruct (scan_suffix s (x :: wl) [] (S f)) as [(y & Iy & Y & Sy)|[A _]];
      [exact N|exact E|congruence|exact L|eauto|].
    rewrite forallb_forall in A. specialize (A q Hq). rewrite Q in A. discriminate. }
  unfold scan_fuel. destruct it as [p|]; [|apply W; lia].
  cbn [iter_ok] in I. apply in_split in I. destruct I as (l1 & l2 & E).
  rewrite E in N. assert (L : length (waitingPriorities s) = (length l1 + S (length l2))%nat)
    by (rewrite E, length_app; reflexivity).
  destruct (scan_suffix s (p :: l2) l1 (2 * length (waitingPriorities s) + 1))
    as [(y & Iy & Y & Sy)|[_ B]]; [exact N|exact E|congruence|cbn [length]; lia| |].
  - exists y. split; [exact Sy|]. split; [|exact Y]. rewrite E. apply in_app_iff. now right.
  - cbn [hd_error] in B. rewrite B. apply W. cbn [length]. lia.
Qed.

(** * Invariant *)

(** The counters count what they name, and the list of waiting priorities is
    the set of priorities with waiters. *)
Record accounts (C : Z) (s : pml) : Prop := {
  ac_conc : concurrency s = C;
  ac_avail : available s + sumP runners (priorities s) = C;
  ac_wait : waiting s = sumP qlen (priorities s);
  ac_total : totalPendingWeights s = sumP pweight (priorities s);
  ac_nodup : NoDup (waitingPriorities s);
  ac_mem : forall i, In i (waitingPriorities s) <->
    exists p, nth_error (priorities s) i = Some p /\ queue p <> [];
  ac_ok : Forall pri_ok (priorities s);
  ac_wsum : sumP weight (priorities s) < 2 ^ 24
}.

(** A waiting runner leaves no slot free while somebody waits. *)
Definition phase_ok (s : pml) : Prop :=
  match runner s with
  | Waiting it => iter_ok it (waitingPriorities s) /\ (available s <= 0 \/ waiting s = 0)
  | Launching it => iter_ok it (waitingPriorities s)
  | Sending it pr _ =>
      iter_ok it (waitingPriorities s) /\ (pr < length (priorities s))%nat
  | Stopped => False
  end.

(** After [halt] no slot is ever free again. *)
Record halted (s : pml) : Prop := {
  ha_conc : concurrency s = 0;
  ha_avail : available s + sumP runners (priorities s) = 0;
  ha_ok : Forall pri_ok (priorities s);
  ha_phase : match runner s with Sending _ _ _ | Stopped => True | _ => False end
}.

Definition inv (C : Z) (s : pml) : Prop :=
  if broken s then halted s else accounts C s /\ phase_ok s /\ killed s = false.

Lemma accounts_update C s pr p p' av wt tw wl ph b k : accounts C s ->
  nth_error (priorities s) pr = Some p ->
  pri_ok p' -> weight p' = weight p ->
  av + runners p' = available s + runners p ->
  wt = waiting s - qlen p + qlen p' ->
  tw = totalPendingWeights s - pweight p + pweight p' ->
  NoDup wl ->
  (forall i, In i wl <-> if Nat.eqb i pr then queue p' <> [] else In i (waitingPriorities s)) ->
  accounts C (mkPml (concurrency s) av wt tw (set_nth (priorities s) pr p') wl ph b k).
Proof.
  intros [] E K Wt Av Qt Tt N M.
  constructor; cbn [concurrency available waiting totalPendingWeights priorities waitingPriorities];
    try assumption; try (rewrite (sumP_set _ _ _ _ _ E); lia).
  - intros i. rewrite M, (nth_error_set _ _ _ _ i E). destruct (Nat.eqb_spec i pr) as [->|].
    + split; [intros; eexists; split; [reflexivity|assumption]|].
      intros (q & [= <-] & Q). exact Q.
    + apply ac_mem0.
  - eapply Forall_set; eauto.
Qed.

Lemma accounts_runner C s ph : accounts C s -> accounts C (with_runner ph s).
Proof. intros []. constructor; assumption. Qed.

(** The waiting list is unchanged when a queue keeps its emptiness. *)
Lemma mem_same C s pr p (q : list Z) : accounts C s -> nth_error (priorities s) pr = Some p ->
  (queue p <> [] <-> q <> []) ->
  forall i, In i (waitingPriorities s) <->
    if Nat.eqb i pr then q <> [] else In i (waitingPriorities s).
Proof.
  intros A E Q i. destruct (Nat.eqb_spec i pr) as [->|]; [|reflexivity].
  rewrite (ac_mem C s A), <- Q. split; [|eauto].
  intros (p' & E' & Q'). congruence.
Qed.

Lemma accounts_addRunner C s pr p : accounts C s -> nth_error (priorities s) pr = Some p ->
  exists s', addRunner s pr = Some s' /\ accounts C s' /\
    available s' = available s - 1 /\ waiting s' = waiting s /\
    waitingPriorities s' = waitingPriorities s /\ runner s' = runner s /\
    broken s' = broken s /\ killed s' = killed s /\
    length (priorities s') = length (priorities s).
Proof.
  intros A E. unfold addRunner. rewrite E. eexists. split; [reflexivity|].
  destruct (nth_error_Forall _ _ _ _ (ac_ok C s A) E) as [R W].
  split; [|cbn; rewrite set_nth_length; auto 10].
  eapply (accounts_update C s pr p); eauto; cbn [runners weight queue]; try lia.
  - split; cbn; lia.
  - unfold qlen. cbn. lia.
  - unfold pweight. cbn. lia.
  - apply (ac_nodup C s A).
  - eapply (mem_same C s pr p); eauto. reflexivity.
Qed.

Lemma accounts_enqueue C s pr p w : accounts C s -> nth_error (priorities s) pr = Some p ->
  queue p <> [] -> accounts C (enqueue s pr p w).
Proof.
  intros A E Q. destruct (nth_error_Forall _ _ _ _ (ac_ok C s A) E) as [R W].
  eapply (accounts_update C s pr p); eauto; cbn [runners weight queue]; try lia.
  - split; cbn; lia.
  - unfold qlen. cbn [queue]. rewrite length_app. cbn [with_waiting with_priority waiting length]. lia.
  - unfold pweight. cbn [queue weight]. destruct (queue p); [contradiction|]. cbn. lia.
  - apply (ac_nodup C s A).
  - eapply (mem_same C s pr p); eauto. split; [|auto]. intros _. apply not_eq_sym, app_cons_not_nil.
Qed.

Lemma accounts_enqueue_first C s pr p w : accounts C s -> nth_error (priorities s) pr = Some p ->
  queue p = [] ->
  accounts C (enqueue (with_pending (totalPendingWeights s + weight p)
                         (waitingPriorities s ++ [pr]) s) pr p w).
Proof.
  intros A E Q. destruct (nth_error_Forall _ _ _ _ (ac_ok C s A) E) as [R W].
  assert (N : ~ In pr (waitingPriorities s)).
  { rewrite (ac_mem C s A). intros (p' & E' & Q'). congruence. }
  eapply (accounts_update C s pr p); eauto; cbn [runners weight queue]; try lia.
  - split; cbn; lia.
  - unfold qlen. cbn [queue]. rewrite Q. cbn. lia.
  - unfold pweight. cbn [queue weight]. rewrite Q. cbn. lia.
  - apply NoDup_app; [apply (ac_nodup C s A)|repeat constructor; auto|].
    intros x Hx [<-|[]]. contradiction.
  - intros i. rewrite Q. cbn [with_priority with_pending waitingPriorities app].
    rewrite in_app_iff. cbn. destruct (Nat.eqb_spec i pr) as [->|D].
    + split; [intros _; discriminate|auto].
    + split; [intros [H|[H|[]]]; congruence|auto].
Qed.

Lemma accounts_release C s pr p : accounts C s -> nth_error (priorities s) pr = Some p ->
  0 < runners p ->
  accounts C (with_available (available s + 1)
    (with_priority pr (mkPriority (queue p) (runners p - 1) (weight p)) s)).
Proof.
  intros A E Hr. destruct (nth_error_Forall _ _ _ _ (ac_ok C s A) E) as [R W].
  eapply (accounts_update C s pr p); eauto; cbn [runners weight queue]; try lia.
  - split; cbn; lia.
  - unfold qlen. cbn. lia.
  - unfold pweight. cbn. lia.
  - apply (ac_nodup C s A).
  - eapply (mem_same C s pr p); eauto. reflexivity.
Qed.

Lemma in_remove_iff q wl i : In i (remove Nat.eq_dec q wl) <-> In i wl /\ i <> q.
Proof.
  split; [apply in_remove|]. intros [H N]. now apply in_in_remove.
Qed.

Lemma remove_NoDup q wl : NoDup wl -> NoDup (remove Nat.eq_dec q wl).
Proof.
  induction 1 as [|x wl H N IH]; cbn [remove]; [constructor|].
  destruct (Nat.eq_dec q x); [exact IH|]. constructor; [|exact IH].
  rewrite in_remove_iff. tauto.
Qed.

(** [erase] returns the position after the erased one, which stays valid. *)
Lemma next_iter_ok q wl : NoDup wl -> In q wl -> iter_ok (next wl q) (remove Nat.eq_dec q wl).
Proof.
  intros N H. apply in_split in H. destruct H as (l1 & l2 & ->).
  rewrite next_app by exact N. destruct l2 as [|x l2]; cbn [hd_error iter_ok]; [exact I|].
  apply in_remove_iff. split; [apply in_app_iff; right; right; now left|].
  intros ->. apply NoDup_remove_2 in N. apply N, in_app_iff. right. now left.
Qed.

(** * Preservation *)

(** A free slot and no waiters mean that a first waiter is served at once. *)
Lemma first_waiter_granted C s pr p : accounts C s -> 0 < C < 2 ^ 24 ->
  nth_error (priorities s) pr = Some p -> 0 < available s -> waiting s = 0 ->
  runners p < currentCapacity (weight p) (totalPendingWeights s + weight p) C.
Proof.
  intros [] HC E Av Wt. rewrite ac_wait0 in Wt. apply queues_empty in Wt.
  rewrite ac_total0, (queues_empty_weight _ Wt), Z.add_0_l.
  destruct (nth_error_Forall _ _ _ _ ac_ok0 E) as [R W].
  assert (weight p <= sumP weight (priorities s)).
  { apply (sumP_member weight _ pr); [|exact E]. intros q Hq.
    rewrite Forall_forall in ac_ok0. specialize (ac_ok0 q Hq). unfold pri_ok in *. lia. }
  assert (runners p <= sumP runners (priorities s)).
  { apply (sumP_member runners _ pr); [|exact E]. intros q Hq.
    rewrite Forall_forall in ac_ok0. specialize (ac_ok0 q Hq). unfold pri_ok in *. lia. }
  rewrite capacity_alone by lia. lia.
Qed.

(** A phase that stays valid when the waiting list only grows. *)
Lemma phase_grow s s' : phase_ok s -> runner s' = runner s ->
  (forall i, In i (waitingPriorities s) -> In i (waitingPriorities s')) ->
  length (priorities s') = length (priorities s) ->
  (available s' <= 0 \/ waiting s' = 0 \/ forall it, runner s <> Waiting it) -> phase_ok s'.
Proof.
  unfold phase_ok. intros P -> M L A. rewrite L.
  assert (G : forall it, iter_ok it (waitingPriorities s) -> iter_ok it (waitingPriorities s')).
  { intros [q|]; cbn; auto. }
  destruct (runner s) as [it|it|it pr r|]; [|auto|destruct P; auto|exact P].
  destruct P as [P _]. split; [auto|]. destruct A as [A|[A|A]]; auto. destruct (A it eq_refl).
Qed.

Lemma lock_live C s pr w : accounts C s -> phase_ok s -> killed s = false -> broken s = false ->
  0 < C < 2 ^ 24 -> (pr < length (priorities s))%nat ->
  exists s' r, lock s pr w = Some (s', r) /\ accounts C s' /\ phase_ok s' /\
    killed s' = false /\ broken s' = false /\ runner s' = runner s.
Proof.
  intros A P K B HC Hpr. unfold lock. rewrite K.
  destruct (nth_error (priorities s) pr) as [p|] eqn:E; [|apply nth_error_None in E; lia].
  rewrite (ac_conc C s A).
  destruct (queue p) as [|w0 ws] eqn:Q; cbn [is_empty].
  - rewrite Z.gtb_ltb. destruct (Z.ltb_spec 0 (available s)) as [Av|Av]; cbn [andb];
      [destruct (Z.ltb_spec (runners p) (currentCapacity (weight p) (totalPendingWeights s + weight p) C))
         as [Cp|Cp]|].
    + destruct (accounts_addRunner C s pr p A E) as (s' & -> & A' & Av' & W' & L' & R' & B' & K' & Len).
      exists s', Granted. cbn [option_map]. split; [reflexivity|]. split; [exact A'|].
      split; [|rewrite K', B', R'; auto].
      eapply phase_grow; [exact P|exact R'|rewrite L'; auto|exact Len|].
      unfold phase_ok in P. destruct (runner s) as [it| | |]; try (right; right; congruence).
      destruct P as [_ [Z|Z]]; [left|right; left]; lia.
    + do 2 eexists. split; [reflexivity|]. split; [now apply accounts_enqueue_first|].
      split; [|auto]. eapply phase_grow; [exact P|reflexivity| | |].
      * cbn. intros i Hi. apply in_app_iff. auto.
      * cbn. apply set_nth_length.
      * cbn. unfold phase_ok in P. destruct (runner s) as [it| | |] eqn:R; try (right; right; congruence).
        destruct P as [_ [Z|Z]]; [lia|]. exfalso.
        pose proof (first_waiter_granted C s pr p A HC E Av Z). lia.
    + do 2 eexists. split; [reflexivity|]. split; [now apply accounts_enqueue_first|].
      split; [|auto]. eapply phase_grow; [exact P|reflexivity| | |left; exact Av].
      * cbn. intros i Hi. apply in_app_iff. auto.
      * cbn. apply set_nth_length.
  - do 2 eexists. split; [reflexivity|].
    split; [apply accounts_enqueue; [exact A|exact E|congruence]|].
    split; [|auto]. eapply phase_grow; [exact P|reflexivity|auto| |].
    + cbn. apply set_nth_length.
    + unfold phase_ok in P. destruct (runner s) as [it| | |]; try (right; right; congruence).
      destruct P as [_ [Z|Z]]; [left; exact Z|exfalso].
      rewrite (ac_wait C s A) in Z. apply queues_empty in Z.
      pose proof (nth_error_Forall _ _ _ _ Z E) as X. cbv beta in X. congruence.
Qed.

Lemma release_live C s pr p : accounts C s -> phase_ok s -> callers_run s = true ->
  nth_error (priorities s) pr = Some p -> 0 < runners p ->
  exists s', releaseRunner s pr = Some s' /\ accounts C s' /\ phase_ok s' /\
    killed s' = killed s /\ broken s' = broken s /\ available s' = available s + 1 /\
    ((exists it, runner s = Waiting it) \/ runner s' = runner s).
Proof.
  intros A P R E Hr. unfold releaseRunner. rewrite E.
  pose proof (accounts_release C s pr p A E Hr) as A'.
  eexists. split; [reflexivity|]. cbv zeta. set (s1 := with_available _ _) in *.
  assert (Q : runner s1 = runner s) by reflexivity. rewrite Z.gtb_ltb, Q.
  assert (L : length (priorities s1) = length (priorities s)) by apply set_nth_length.
  assert (W0 : 0 <= waiting s1).
  { rewrite (ac_wait C s1 A'). apply sumP_nonneg. unfold qlen. lia. }
  unfold phase_ok, callers_run in *.
  destruct (runner s) as [it|it|it q r|] eqn:Rs; [|discriminate| |contradiction].
  - destruct P as [I _]. destruct (Z.ltb_spec 0 (waiting s1)) as [W|W].
    + split; [now apply accounts_runner|]. cbn [with_runner runner]. eauto 10.
    + rewrite Q. split; [exact A'|]. split; [split; [exact I|right; lia]|]. eauto 10.
  - replace (if 0 <? waiting s1 then s1 else s1) with s1 by (destruct (0 <? waiting s1); reflexivity).
    rewrite Q, L. auto 10.
Qed.

(** The search of the launch loop succeeds, and the turn keeps the accounts. *)
Lemma launch_live C s it : accounts C s -> runner s = Launching it -> phase_ok s ->
  killed s = false -> broken s = false -> 0 < C <= 2 ^ 22 ->
  exists s' o, launch s it = Some (s', o) /\ accounts C s' /\ phase_ok s' /\
    killed s' = false /\ broken s' = false /\ available s' = available s /\
    match o with
    | None => runner s' = Waiting it
    | Some (q, w) => 0 < available s /\ waiting s' = waiting s - 1 /\
        (exists it', runner s' = Sending it' q false) /\
        exists p, nth_error (priorities s) q = Some p /\ hd_error (queue p) = Some w /\
          runners p < currentCapacity (weight p) (totalPendingWeights s) C
    end.
Proof.
  intros A R P K B HC. unfold phase_ok in P. rewrite R in P. unfold launch. rewrite !Z.gtb_ltb.
  destruct (Z.ltb_spec 0 (available s)) as [Av|Av]; cbn [andb];
    [destruct (Z.ltb_spec 0 (waiting s)) as [Wt|Wt]|].
  2,3: do 2 eexists; split; [reflexivity|]; split; [now apply accounts_runner|];
    pose proof (ac_wait C s A); assert (0 <= sumP qlen (priorities s))
      by (apply sumP_nonneg; unfold qlen; lia);
    unfold phase_ok; cbn; repeat split; auto; lia.
  pose proof A as []. rewrite ac_wait0 in Wt.
  destruct (capacity_exists C (priorities s)) as (i & p & E & Q & Cp);
    [assumption|assumption|lia|now apply pweight_pos|lia|].
  destruct (scan_finds s it ac_nodup0 P) as (q & Sc & Iq & Lq).
  { exists i. split; [apply ac_mem0; eauto|]. unfold launchable. rewrite E, ac_conc0, ac_total0.
    rewrite (proj2 (Z.ltb_lt _ _) Cp). destruct (queue p); [contradiction|reflexivity]. }
  rewrite Sc. clear i p E Q Cp. unfold launchable in Lq.
  destruct (nth_error (priorities s) q) as [[qu r wt]|] eqn:E; [|discriminate].
  cbn [queue runners weight] in Lq. destruct qu as [|w ws]; [discriminate|].
  cbn [is_empty negb andb] in Lq. apply Z.ltb_lt in Lq. rewrite ac_conc0 in Lq.
  destruct (nth_error_Forall _ _ _ _ ac_ok0 E) as [Ro Wo]. cbn [runners weight] in Ro, Wo.
  destruct ws as [|w' ws]; cbn [is_empty].
  - do 2 eexists. split; [reflexivity|]. split.
    + eapply (accounts_update C s q (mkPriority [w] r wt)); eauto; cbn [runners weight queue];
        try (split; cbn; lia); try lia.
      * unfold qlen. cbn. lia.
      * unfold pweight. cbn. lia.
      * apply remove_NoDup. exact ac_nodup0.
      * intros i. cbn. rewrite in_remove_iff. destruct (Nat.eqb_spec i q) as [->|]; tauto.
    + unfold phase_ok. cbn. rewrite set_nth_length.
      assert (q < length (priorities s))%nat by (apply nth_error_Some; congruence).
      repeat split; eauto. now apply next_iter_ok.
  - do 2 eexists. split; [reflexivity|]. split.
    + eapply (accounts_update C s q (mkPriority (w :: w' :: ws) r wt)); eauto;
        cbn [runners weight queue]; try (split; cbn; lia); try lia.
      * unfold qlen. cbn [queue]. cbn [length with_priority with_waiting waiting]. lia.
      * unfold pweight. cbn. lia.
      * intros i. cbn. destruct (Nat.eqb_spec i q) as [->|]; [|reflexivity].
        split; [discriminate|auto].
    + unfold phase_ok. cbn. rewrite set_nth_length.
      assert (q < length (priorities s))%nat by (apply nth_error_Some; congruence).
      repeat split; eauto.
Qed.

Lemma after_send_live C s it pr rel : accounts C s -> runner s = Sending it pr rel -> phase_ok s ->
  killed s = false -> broken s = false ->
  exists s', after_send s it pr rel = Some s' /\ accounts C s' /\ phase_ok s' /\
    killed s' = false /\ broken s' = false /\ runner s' = Launching it /\
    waiting s' = waiting s /\ available s' = available s - (if rel then 0 else 1).
Proof.
  intros A R P K B. unfold after_send. rewrite B. unfold phase_ok in P. rewrite R in P.
  destruct P as [I L]. destruct rel.
  - eexists. split; [reflexivity|]. split; [now apply accounts_runner|].
    unfold phase_ok. cbn. repeat split; auto. lia.
  - destruct (nth_error (priorities s) pr) as [p|] eqn:E; [|apply nth_error_None in E; lia].
    destruct (accounts_addRunner C s pr p A E) as (s' & -> & A' & Av' & W' & L' & R' & B' & K' & Len).
    eexists. split; [reflexivity|]. split; [now apply accounts_runner|].
    unfold phase_ok. cbn. rewrite L', K', B', W'. repeat split; auto.
Qed.

(** ** After halt *)

Lemma halted_update s pr p p' av ph wt tw wl b k : halted s ->
  nth_error (priorities s) pr = Some p -> pri_ok p' ->
  av + runners p' = available s + runners p ->
  match ph with Sending _ _ _ | Stopped => True | _ => False end ->
  halted (mkPml (concurrency s) av wt tw (set_nth (priorities s) pr p') wl ph b k).
Proof.
  intros [] E K Av Ph. constructor; cbn; auto.
  - rewrite (sumP_set _ _ _ _ _ E). lia.
  - eapply Forall_set; eauto.
Qed.

Lemma halted_available s : halted s -> available s <= 0.
Proof.
  intros []. assert (0 <= sumP runners (priorities s)); [|lia].
  apply sumP_nonneg. intros p Hp. rewrite Forall_forall in ha_ok0.
  specialize (ha_ok0 p Hp). unfold pri_ok in *. lia.
Qed.

(** Nobody is granted a lock after [halt]. *)
Lemma lock_halted s pr w : halted s -> (pr < length (priorities s))%nat ->
  exists s' r, lock s pr w = Some (s', r) /\ halted s' /\ broken s' = broken s /\ r <> Granted.
Proof.
  intros H L. pose proof (halted_available s H). unfold lock.
  destruct (killed s); [do 2 eexists; split; [reflexivity|]; split; [exact H|]; split; [reflexivity|discriminate]|].
  destruct (nth_error (priorities s) pr) as [p|] eqn:E; [|apply nth_error_None in E; lia].
  rewrite Z.gtb_ltb. destruct (Z.ltb_spec 0 (available s)); [lia|]. cbn [andb].
  pose proof (nth_error_Forall _ _ _ _ (ha_ok s H) E) as K.
  destruct (is_empty (queue p)); do 2 eexists; split; try reflexivity;
    (split; [apply (halted_update s pr p); [exact H|exact E|exact K|cbn; lia|exact (ha_phase s H)]
            |split; [reflexivity|discriminate]]).
Qed.

Lemma release_halted s pr p : halted s -> nth_error (priorities s) pr = Some p ->
  0 < runners p -> exists s', releaseRunner s pr = Some s' /\ halted s' /\ broken s' = broken s.
Proof.
  intros H E R. unfold releaseRunner. rewrite E. eexists. split; [reflexivity|]. cbv zeta.
  pose proof (nth_error_Forall _ _ _ _ (ha_ok s H) E) as [K K'].
  set (s1 := with_available _ _).
  assert (H1 : halted s1).
  { apply (halted_update s pr p);
      [exact H|exact E|split; cbn; lia|cbn; lia|exact (ha_phase s H)]. }
  pose proof (ha_phase s1 H1) as Ph. destruct (waiting s1 >? 0); [|auto].
  destruct (runner s1); try contradiction; auto.
Qed.

Lemma halt_inv C s : inv C s -> callers_run s = true -> halted (halt s).
Proof.
  unfold inv, callers_run. intros H R. destruct (broken s).
  - destruct H. constructor; cbn; auto; [lia|]. destruct (runner s); tauto.
  - destruct H as (A & P & _). pose proof A as []. constructor; cbn; auto; [lia|].
    destruct (runner s); auto.
Qed.

Lemma sumP_map f g l : (forall p, f (g p) = f p) -> sumP f (map g l) = sumP f l.
Proof. intros H. induction l; cbn [map sumP]; [reflexivity|]. rewrite H. lia. Qed.

Lemma kill_inv C s : inv C s -> callers_run s = true -> inv C (kill s).
Proof.
  intros H R. unfold kill. destruct (killed s); [exact H|].
  pose proof (halt_inv C s H R) as []. cbn in *. unfold inv. cbn.
  constructor; cbn; auto.
  - rewrite sumP_map by reflexivity. exact ha_avail0.
  - apply Forall_map. eapply Forall_impl; [|exact ha_ok0]. auto.
Qed.

(** * Steps *)

(** The actions a caller can take: priorities exist, and only held locks are
    released. *)
Definition enabled (s : pml) (a : action) : Prop :=
  match a with
  | ALock pr _ => callers_run s = true /\ (pr < length (priorities s))%nat
  | ARelease pr =>
      callers_run s = true /\ exists p, nth_error (priorities s) pr = Some p /\ 0 < runners p
  | AReleaseSent => exists it pr, runner s = Sending it pr false
  | AHalt | AKill => callers_run s = true
  | ARunner => match runner s with Launching _ | Sending _ _ _ => True | _ => False end
  end.

Lemma step_halted s a : halted s -> broken s = true -> enabled s a ->
  exists s', step s a = Some s' /\ halted s' /\ broken s' = true.
Proof.
  intros H B En. destruct a; cbn [step enabled] in *.
  - destruct En as [-> L]. destruct (lock_halted s pr w H L) as (s' & r & -> & H' & B' & _).
    exists s'. rewrite B', B. auto.
  - destruct En as (-> & p & E & R). rewrite E, (proj2 (Z.ltb_lt _ _) R).
    destruct (release_halted s pr p H E R) as (s' & -> & H' & B'). exists s'. rewrite B', B. auto.
  - destruct En as (it & pr & R). rewrite R. eexists. split; [reflexivity|].
    split; [|exact B]. destruct H. constructor; cbn; auto.
  - rewrite En. eexists. split; [reflexivity|]. split; [|reflexivity].
    apply (halt_inv 0); [|exact En]. unfold inv. now rewrite B.
  - rewrite En. eexists. split; [reflexivity|].
    assert (I : inv 0 (kill s)) by (apply kill_inv; [unfold inv; now rewrite B|exact En]).
    assert (B' : broken (kill s) = true) by (unfold kill; destruct (killed s); auto).
    unfold inv in I. rewrite B' in I. auto.
  - pose proof (ha_phase s H) as Ph. destruct (runner s); try contradiction.
    unfold after_send. rewrite B. eexists. split; [reflexivity|]. split; [|exact B].
    destruct H. constructor; cbn; auto.
Qed.

Lemma pml_step_inv C s a : inv C s -> 0 < C <= 2 ^ 22 -> enabled s a ->
  exists s', step s a = Some s' /\ inv C s'.
Proof.
  intros Iv HC En. destruct (broken s) eqn:B.
  { unfold inv in Iv. rewrite B in Iv. destruct (step_halted s a Iv B En) as (s' & E & H & B').
    exists s'. unfold inv. rewrite B'. auto. }
  pose proof Iv as Iv'. unfold inv in Iv'. rewrite B in Iv'. destruct Iv' as (A & P & K).
  destruct a; cbn [step enabled] in *.
  - destruct En as [-> L].
    destruct (lock_live C s pr w A P K B ltac:(lia) L) as (s' & r & -> & A' & P' & K' & B' & _).
    exists s'. unfold inv. rewrite B'. auto.
  - destruct En as (R & p & E & Rp). rewrite R, E, (proj2 (Z.ltb_lt _ _) Rp).
    destruct (release_live C s pr p A P R E Rp) as (s' & -> & A' & P' & K' & B' & _).
    exists s'. unfold inv. rewrite B', B, K'. auto.
  - destruct En as (it & pr & R). rewrite R. eexists. split; [reflexivity|].
    unfold inv. cbn. rewrite B. split; [now apply accounts_runner|]. split; [|exact K].
    unfold phase_ok in *. rewrite R in P. exact P.
  - rewrite En. eexists. split; [reflexivity|]. exact (halt_inv C s Iv En).
  - rewrite En. eexists. split; [reflexivity|]. exact (kill_inv C s Iv En).
  - destruct (runner s) as [|it|it pr rel|] eqn:R; try contradiction.
    + destruct (launch_live C s it A R P K B HC) as (s' & o & -> & A' & P' & K' & B' & _).
      exists s'. unfold inv. rewrite B'. auto.
    + destruct (after_send_live C s it pr rel A R P K B) as (s' & -> & A' & P' & K' & B' & _).
      exists s'. unfold inv. rewrite B'. auto.
Qed.

(** States reached from a fresh lock by any interleaving of callers and
    runner. *)
Inductive reachable (C : Z) (ws : list Z) : pml -> Prop :=
| reach_init : reachable C ws (PriorityMultiLock C ws)
| reach_step s a s' : reachable C ws s -> enabled s a -> step s a = Some s' ->
    reachable C ws s'.

(** A configuration: a positive number of slots, positive weights, and few
    enough of both for single-precision arithmetic to count them. *)
Definition config_ok (C : Z) (ws : list Z) : Prop :=
  0 < C <= 2 ^ 22 /\ Forall (fun w => 0 < w) ws /\ fold_right Z.add 0 ws < 2 ^ 24.

Lemma sumP_init f g ws : (forall w, f (mkPriority [] 0 w) = g w) ->
  sumP f (map (mkPriority [] 0) ws) = fold_right (fun w n => g w + n) 0 ws.
Proof. intros H. induction ws; cbn; [reflexivity|]. now rewrite H, IHws. Qed.

Lemma inv_init C ws : config_ok C ws -> inv C (PriorityMultiLock C ws).
Proof.
  intros (HC & HW & HS). unfold inv. cbn.
  assert (Z0 : forall f, (forall w, f (mkPriority [] 0 w) = 0) ->
    sumP f (map (mkPriority [] 0) ws) = 0).
  { intros f H. clear - H. induction ws; cbn [map sumP]; [reflexivity|]. rewrite H. lia. }
  split; [|split; [unfold phase_ok; cbn; auto|reflexivity]].
  constructor; cbn; rewrite ?Z0 by reflexivity; try reflexivity; try lia.
  - constructor.
  - intros i. split; [contradiction|]. intros (p & E & Q).
    apply nth_error_In, in_map_iff in E. destruct E as (w & <- & _). now apply Q.
  - apply Forall_map. eapply Forall_impl; [|exact HW]. intros w Hw. split; cbn [runners weight]; [lia|exact Hw].
  - rewrite (sumP_init weight (fun w => w) ws) by reflexivity. exact HS.
Qed.

Lemma pml_reachable_inv C ws s : config_ok C ws -> reachable C ws s -> inv C s.
Proof.
  intros K R. induction R as [|s a s' R IH En St]; [now apply inv_init|].
  destruct (pml_step_inv C s a IH (proj1 K) En) as (s'' & E & I). congruence.
Qed.

(** * The concurrency limit *)

(** No caller asks for a lock from inside the callbacks of a send. *)
Definition no_reentry (s : pml) (a : action) : Prop :=
  match a, runner s with ALock _ _, Sending _ _ _ => False | _, _ => True end.

Inductive reachable_nr (C : Z) (ws : list Z) : pml -> Prop :=
| reach_nr_init : reachable_nr C ws (PriorityMultiLock C ws)
| reach_nr_step s a s' : reachable_nr C ws s -> enabled s a -> no_reentry s a ->
    step s a = Some s' -> reachable_nr C ws s'.

(** Slots are never oversubscribed; a lock in flight has its slot. *)
Definition limit (s : pml) : Prop :=
  broken s = false ->
  match runner s with Sending _ _ false => 1 <= available s | _ => 0 <= available s end.

Lemma reachable_nr_reachable C ws s : reachable_nr C ws s -> reachable C ws s.
Proof. induction 1; [constructor|econstructor; eauto]. Qed.

Lemma lock_available s pr w s' r : lock s pr w = Some (s', r) ->
  available s' = available s \/ (0 < available s /\ available s' = available s - 1).
Proof.
  unfold lock. destruct (killed s); [intros [= <- _]; auto|].
  destruct (nth_error (priorities s) pr) as [p|] eqn:E; [|discriminate].
  destruct (is_empty (queue p)); [|intros [= <- _]; auto].
  rewrite Z.gtb_ltb. destruct (Z.ltb_spec 0 (available s)); cbn [andb]; [|intros [= <- _]; auto].
  destruct (runners p <? _); [|intros [= <- _]; auto].
  unfold addRunner. rewrite E. intros [= <- _]. cbn. auto.
Qed.

Lemma limit_step C s a s' : inv C s -> 0 < C <= 2 ^ 22 -> limit s -> enabled s a ->
  no_reentry s a -> step s a = Some s' -> limit s'.
Proof.
  intros Iv HC L En NR St B'. destruct (broken s) eqn:B.
  { unfold inv in Iv. rewrite B in Iv. destruct (step_halted s a Iv B En) as (s2 & E & _ & B2).
    congruence. }
  unfold limit in L. specialize (L B). unfold inv in Iv. rewrite B in Iv.
  destruct Iv as (A & P & K). destruct a; cbn [step enabled no_reentry] in *.
  - destruct En as [R Lp]. rewrite R in St.
    destruct (lock_live C s pr w A P K B ltac:(lia) Lp) as (s2 & r & E & _ & _ & _ & _ & R2).
    rewrite E in St. injection St as <-. apply lock_available in E. rewrite R2.
    destruct (runner s) as [| | |]; try contradiction; lia.
  - destruct En as (R & p & E & Rp). rewrite R, E, (proj2 (Z.ltb_lt _ _) Rp) in St.
    destruct (release_live C s pr p A P R E Rp) as (s2 & E2 & _ & _ & _ & _ & Av & _).
    assert (s2 = s') by congruence. subst s2. rewrite Av.
    assert (0 <= available s) by (destruct (runner s) as [| |? ? []|]; lia).
    destruct (runner s') as [| |? ? []|]; lia.
  - destruct En as (it & pr & R). rewrite R in *. injection St as <-. cbn. lia.
  - rewrite En in St. injection St as <-. discriminate B'.
  - rewrite En in St. injection St as <-. unfold kill in B'. rewrite K in B'. discriminate B'.
  - destruct (runner s) as [|it|it pr rel|] eqn:R; try contradiction.
    + destruct (launch_live C s it A R P K B HC) as (s2 & o & E & _ & _ & _ & _ & Av & O).
      rewrite E in St. injection St as <-. rewrite Av. destruct o as [[q w]|].
      * destruct O as (Pos & _ & (it' & ->) & _). lia.
      * rewrite O. exact L.
    + destruct (after_send_live C s it pr rel A R P K B)
        as (s2 & E & _ & _ & _ & _ & R2 & _ & Av).
      assert (s2 = s') by congruence. subst s2. rewrite R2, Av. destruct rel; lia.
Qed.

Lemma reachable_nr_limit C ws s : config_ok C ws -> reachable_nr C ws s -> limit s.
Proof.
  intros K R. induction R as [|s a s' R IH En NR St].
  - intros _. cbn. destruct K. lia.
  - eapply limit_step; eauto; [|exact (proj1 K)].
    apply (pml_reachable_inv C ws s K). now apply reachable_nr_reachable.
Qed.

(** * The launch loop alone *)

(** Without callers in between, the runner serves at most one waiter per two
    steps and goes back to waiting. *)
Lemma launch_ends C n : forall s it, inv C s -> 0 < C <= 2 ^ 22 -> broken s = false ->
  runner s = Launching it -> waiting s = Z.of_nat n ->
  exists k s' it', (k <= 2 * n + 1)%nat /\ run s (repeat ARunner k) = Some s' /\
    runner s' = Waiting it' /\ inv C s' /\ broken s' = false.
Proof.
  induction n as [|n IH]; intros s it Iv HC B R W.
  all: pose proof Iv as Iv'; unfold inv in Iv'; rewrite B in Iv'; destruct Iv' as (A & P & K);
    destruct (launch_live C s it A R P K B HC) as (s1 & o & E & A1 & P1 & K1 & B1 & _ & O);
    assert (I1 : inv C s1) by (unfold inv; rewrite B1; auto).
  - destruct o as [[q w]|].
    + exfalso. destruct O as (_ & W1 & _). rewrite (ac_wait C s1 A1) in W1.
      assert (0 <= sumP qlen (priorities s1)) by (apply sumP_nonneg; unfold qlen; lia). lia.
    + exists 1%nat, s1, it. cbn [repeat run step]. rewrite R, E. cbn. auto.
  - destruct o as [[q w]|].
    + destruct O as (_ & W1 & (it1 & R1) & _).
      destruct (after_send_live C s1 it1 q false A1 R1 P1 K1 B1)
        as (s2 & E2 & A2 & P2 & K2 & B2 & R2 & W2 & _).
      destruct (IH s2 it1) as (k & s' & it' & Hk & Rn & R' & I' & B');
        [unfold inv; rewrite B2; auto|exact HC|exact B2|exact R2|lia|].
      exists (S (S k)), s', it'. split; [lia|]. split; [|auto].
      cbn [repeat run]. cbn [step]. rewrite R, E. cbn [option_map fst]. rewrite R1, E2. exact Rn.
    + exists 1%nat, s1, it. split; [lia|]. cbn [repeat run step]. rewrite R, E. cbn. auto.
Qed.

(** * Properties *)

(** C7: in every state reached by any interleaving of callers (lock, release,
    release from a callback, halt, kill) with the runner coroutine, every
    enabled action succeeds: in particular the search of the runner for a
    priority with waiters and capacity, an unbounded loop in the code, always
    finds one within two rounds of the waiting list, with the capacities
    computed in single precision.  Until a halt the counters count what they
    name (free slots plus runners are the concurrency, [waiting] the queued
    callers, [totalPendingWeights] the weights of the priorities with waiters,
    the waiting list exactly those priorities), and afterwards no slot is ever
    free. *)
Theorem pml_invariant (C : Z) (ws : list Z) (K : config_ok C ws) (s : pml)
  (R : reachable C ws s) :
  (if broken s then concurrency s = 0 /\ available s <= 0
   else accounts C s) /\
  (forall a, enabled s a -> exists s', step s a = Some s').
Proof.
  pose proof (pml_reachable_inv C ws s K R) as I. split.
  - unfold inv in I. destruct (broken s); [|tauto].
    split; [apply (ha_conc s I)|apply (halted_available s I)].
  - intros a En. destruct (pml_step_inv C s a I (proj1 K) En) as (s' & E & _). eauto.
Qed.

Lemma pml_invariant_witness :
  let s := PriorityMultiLock 2 [3; 1] in
  (if broken s then concurrency s = 0 /\ available s <= 0 else accounts 2 s) /\
  (forall a, enabled s a -> exists s', step s a = Some s').
Proof.
  apply (pml_invariant 2 [3; 1]); [|constructor].
  split; [lia|]. split; [repeat constructor|cbn; lia].
Defined.

(** C39: the lock is work-conserving: whenever the runner waits for its trigger
    and the lock has not been halted, no slot is free or nobody waits; and
    whenever the runner has been triggered it goes back to waiting within two
    steps per waiter unless callers act in between. *)
Theorem pml_progress (C : Z) (ws : list Z) (K : config_ok C ws) (s : pml)
  (R : reachable C ws s) (B : broken s = false) :
  (forall it, runner s = Waiting it -> available s <= 0 \/ waiting s = 0) /\
  (forall it, runner s = Launching it ->
    exists k s' it', (k <= 2 * Z.to_nat (waiting s) + 1)%nat /\
      run s (repeat ARunner k) = Some s' /\ runner s' = Waiting it' /\
      (available s' <= 0 \/ waiting s' = 0)).
Proof.
  pose proof (pml_reachable_inv C ws s K R) as I. split; intros it Ph.
  - unfold inv in I. rewrite B in I. destruct I as (_ & P & _). unfold phase_ok in P.
    rewrite Ph in P. tauto.
  - assert (W : 0 <= waiting s).
    { unfold inv in I. rewrite B in I. destruct I as (A & _). rewrite (ac_wait C s A).
      apply sumP_nonneg. unfold qlen. lia. }
    destruct (launch_ends C (Z.to_nat (waiting s)) s it I (proj1 K) B Ph ltac:(lia))
      as (k & s' & it' & Hk & Rn & R' & I' & B').
    exists k, s', it'. split; [exact Hk|]. split; [exact Rn|]. split; [exact R'|].
    unfold inv in I'. rewrite B' in I'. destruct I' as (_ & P' & _). unfold phase_ok in P'.
    rewrite R' in P'. tauto.
Qed.

Lemma pml_progress_witness :
  let s := PriorityMultiLock 2 [3; 1] in
  config_ok 2 [3; 1] /\
  (forall it, runner s = Waiting it -> available s <= 0 \/ waiting s = 0).
Proof.
  assert (H : config_ok 2 [3; 1]) by (split; [lia|]; split; [repeat constructor|cbn; lia]).
  split; [exact H|]. apply (pml_progress 2 [3; 1] H); [constructor|reflexivity].
Defined.

(** As long as no caller requests a lock from inside the callbacks of a
    send, the locks held never exceed the concurrency. *)
Theorem pml_concurrency_limit (C : Z) (ws : list Z) (K : config_ok C ws) (s : pml)
  (R : reachable_nr C ws s) (B : broken s = false) :
  sumP runners (priorities s) <= C.
Proof.
  pose proof (reachable_nr_limit C ws s K R B) as L.
  pose proof (pml_reachable_inv C ws s K (reachable_nr_reachable C ws s R)) as I.
  unfold inv in I. rewrite B in I. destruct I as (A & _). pose proof (ac_avail C s A).
  destruct (runner s) as [| |? ? []|]; lia.
Qed.

Lemma pml_concurrency_limit_witness :
  sumP runners (priorities (PriorityMultiLock 2 [3; 1])) <= 2.
Proof.
  apply (pml_concurrency_limit 2 [3; 1]); [|constructor|reflexivity].
  split; [lia|]. split; [repeat constructor|cbn; lia].
Defined.

(** With reentry the limit fails: the slot of the lock being sent is only
    taken after the callbacks of the send, so a receiver that asks for another
    lock from its callback is granted it at once, and a lock with one slot ends
    up with two holders. *)
Theorem pml_reentry_exceeds :
  option_map (fun s => (sumP runners (priorities s), available s, concurrency s))
    (run (PriorityMultiLock 1 [1])
       [ALock 0 1; ALock 0 2; ARelease 0; ARunner; ALock 0 3; ARunner])
  = Some (2, -1, 1).
Proof. reflexivity. Qed.
