(* ===== verification/ThreadSafeQueue.v ===== *)
(** The multi-producer, single-consumer queue of
    flow/include/flow/ThreadSafeQueue.h.

    Every atomic access is one step of the machine (the accesses are
    sequentially consistent); the private work of a thread between two of its
    accesses is part of the step before it.  A producer's [push] is two steps:
    the exchange of [head], which allocates and publishes the node, and the
    store of the link in the node before.  Producers are the links they still
    have to store. *)

From Stdlib Require Import List Bool Arith.
Import ListNotations.
From S2P Require Import Prelude.

Section Queue.
Context (T : Type).

(** The two nodes embedded in the queue, and the allocated ones, numbered in
    the order of their exchanges. *)
Inductive node := Stub | Sleeping | Data (id : nat).

Definition node_eq_dec (x y : node) : {x = y} + {x <> y}.
Proof. decide equality; apply Nat.eq_dec. Defined.

Definition node_eqb (x y : node) : bool := if node_eq_dec x y then true else false.

(** Where the consumer is: outside the queue, or before an access of
    [popNode] (its first or second call by [pop]) or of [canSleep]. *)
Inductive consumer :=
| Idle
| PopLoadNext (second : bool)                    (* tail->next.load() *)
| PopLoadNext2 (second : bool)                   (* next->next.load(), stub skipped *)
| PopLoadHead (second : bool) (t : node)         (* head.load() *)
| PopClearStub (second : bool) (t : node)        (* stub.next.store(nullptr) *)
| PopExchange (second : bool) (t : node)         (* head.exchange(&stub) *)
| PopLinkStub (second : bool) (t prev : node)    (* prev->next.store(&stub) *)
| PopReload (second : bool) (t : node)           (* tail->next.load() *)
| SleepLoad                                      (* tail->next.load() *)
| SleepClear                                     (* sleeping.next.store(nullptr) *)
| SleepExchange                                  (* head.exchange(&sleeping) *)
| SleepLink (prev : node)                        (* prev->next.store(&sleeping) *)
| AssertFailed.

Record queue := mkQueue {
  head : node;
  tail : node;
  next : node -> option node;
  sleepy : bool;
  pc : consumer;
  producers : list (node * node);    (* links still to be stored *)
  pushed : list T;                   (* data of the nodes, by number *)
  popped : list T;                   (* what pop() has returned *)
  slept : bool;   (* the consumer's last call is a canSleep() that returned true *)
  woken : bool    (* a push() has found [sleeping] before it since canSleep() queued it *)
}.

Definition upd (f : node -> option node) (x : node) (v : option node) : node -> option node :=
  fun y => if node_eq_dec y x then v else f y.

(** The constructor. *)
Definition ThreadSafeQueue : queue :=
  mkQueue Stub Stub (fun _ => None) false Idle [] [] [] false false.

(** * Producers *)

(** [new Node(data)] and the exchange of [pushNode]; [push] will return whether
    the node before is [sleeping]. *)
Definition push_exchange (q : queue) (v : T) : queue :=
  let n := Data (length (pushed q)) in
  mkQueue n (tail q) (upd (next q) n None) (sleepy q) (pc q) ((head q, n) :: producers q)
    (pushed q ++ [v]) (popped q) (slept q) (woken q || node_eqb (head q) Sleeping).

Definition pair_eq_dec (x y : node * node) : {x = y} + {x <> y}.
Proof. decide equality; apply node_eq_dec. Defined.

(** The store of [pushNode] by the producer of [n]. *)
Definition push_link (q : queue) (l : node * node) : queue :=
  mkQueue (head q) (tail q) (upd (next q) (fst l) (Some (snd l))) (sleepy q) (pc q)
    (remove pair_eq_dec l (producers q)) (pushed q) (popped q) (slept q) (woken q).

(** * The consumer *)

Definition with_pc (p : consumer) (q : queue) : queue :=
  mkQueue (head q) (tail q) (next q) (sleepy q) p (producers q) (pushed q) (popped q)
    (slept q) (woken q).

Definition with_tail (t : node) (q : queue) : queue :=
  mkQueue (head q) t (next q) (sleepy q) (pc q) (producers q) (pushed q) (popped q)
    (slept q) (woken q).

Definition with_sleepy (b : bool) (q : queue) : queue :=
  mkQueue (head q) (tail q) (next q) b (pc q) (producers q) (pushed q) (popped q)
    (slept q) (woken q).

Definition with_next (x : node) (v : option node) (q : queue) : queue :=
  mkQueue (head q) (tail q) (upd (next q) x v) (sleepy q) (pc q) (producers q) (pushed q)
    (popped q) (slept q) (woken q).

Definition with_woken (b : bool) (q : queue) : queue :=
  mkQueue (head q) (tail q) (next q) (sleepy q) (pc q) (producers q) (pushed q) (popped q)
    (slept q) b.

Definition with_head (h : node) (q : queue) : queue :=
  mkQueue h (tail q) (next q) (sleepy q) (pc q) (producers q) (pushed q) (popped q)
    (slept q) (woken q).

Definition with_slept (b : bool) (q : queue) : queue :=
  mkQueue (head q) (tail q) (next q) (sleepy q) (pc q) (producers q) (pushed q) (popped q)
    b (woken q).

(** The calls of the consumer. *)
Definition pop_call (q : queue) : queue := with_slept false (with_pc (PopLoadNext false) q).

Definition canSleep_call (q : queue) : queue :=
  let q := with_slept false q in
  if sleepy q then q
  else if node_eqb (tail q) Stub then with_pc SleepLoad q
  else q.

(** [pop] after [popNode] has returned [b]. *)
Definition pop_return (second : bool) (b : option node) (q : queue) : queue :=
  match b with
  | None => with_pc Idle q
  | Some Sleeping =>
      if second then with_pc AssertFailed q
      else with_pc (PopLoadNext true) (with_sleepy false q)
  | Some Stub => with_pc AssertFailed q
  | Some (Data id) =>
      match nth_error (pushed q) id with
      | None => with_pc AssertFailed q
      | Some v =>
          mkQueue (head q) (tail q) (next q) (sleepy q) Idle (producers q) (pushed q)
            (popped q ++ [v]) (slept q) (woken q)
      end
  end.

(** The consumer's next access. *)
Definition consumer_step (q : queue) : option queue :=
  match pc q with
  | Idle | AssertFailed => None
  | PopLoadNext b =>
      let t := tail q in
      match next q t with
      | None =>
          if node_eqb t Stub then Some (pop_return b None q)
          else Some (with_pc (PopLoadHead b t) q)
      | Some n =>
          if node_eqb t Stub then Some (with_pc (PopLoadNext2 b) (with_tail n q))
          else Some (pop_return b (Some t) (with_tail n q))
      end
  | PopLoadNext2 b =>
      let t := tail q in
      match next q t with
      | None => Some (with_pc (PopLoadHead b t) q)
      | Some n => Some (pop_return b (Some t) (with_tail n q))
      end
  | PopLoadHead b t =>
      if node_eqb t (head q) then Some (with_pc (PopClearStub b t) q)
      else Some (pop_return b None q)
  | PopClearStub b t => Some (with_pc (PopExchange b t) (with_next Stub None q))
  | PopExchange b t => Some (with_pc (PopLinkStub b t (head q)) (with_head Stub q))
  | PopLinkStub b t prev => Some (with_pc (PopReload b t) (with_next prev (Some Stub) q))
  | PopReload b t =>
      match next q t with
      | None => Some (pop_return b None q)
      | Some n => Some (pop_return b (Some t) (with_tail n q))
      end
  | SleepLoad =>
      match next q (tail q) with
      | None => Some (with_pc SleepClear q)
      | Some _ => Some (with_pc Idle q)
      end
  | SleepClear => Some (with_pc SleepExchange (with_next Sleeping None q))
  | SleepExchange =>
      Some (with_pc (SleepLink (head q)) (with_head Sleeping (with_woken false q)))
  | SleepLink prev =>
      Some (with_slept (node_eqb prev Stub)
             (with_pc Idle (with_sleepy true (with_next prev (Some Sleeping) q))))
  end.

(** * Interleavings *)

Inductive step (q : queue) : queue -> Prop :=
| step_push v : step q (push_exchange q v)
| step_link l : In l (producers q) -> step q (push_link q l)
| step_pop : pc q = Idle -> step q (pop_call q)
| step_can_sleep : pc q = Idle -> step q (canSleep_call q)
| step_consumer q' : consumer_step q = Some q' -> step q q'.

Inductive reachable : queue -> Prop :=
| reach_new : reachable ThreadSafeQueue
| reach_next q q' : reachable q -> step q q' -> reachable q'.

(** The consumer running alone. *)
Fixpoint consumer_run (fuel : nat) (q : queue) : option queue :=
  match fuel with
  | O => None
  | S f =>
      match pc q with
      | Idle | AssertFailed => Some q
      | _ => match consumer_step q with Some q' => consumer_run f q' | None => None end
      end
  end.

End Queue.
