(* ===== verification/ThreadSafeQueueProofs.v ===== *)
(** ThreadSafeQueue: the chain of nodes from [tail] to [head], first-in
    first-out delivery, memory safety and the sleep protocol. *)

From Stdlib Require Import List Bool Arith Lia.
Import ListNotations.
From S2P Require Import Prelude ThreadSafeQueue.

Section Proofs.
Context (T : Type).
Abbreviation queue := (queue T).

(** * Chains *)

(** Each node but the last is linked to the one after it, or the link is still
    to be stored; the last node has no successor. *)
Fixpoint linked (nx : node -> option node) (pend : list (node * node)) (c : list node) : Prop :=
  match c with
  | [] => False
  | x :: c' =>
      match c' with
      | [] => nx x = None
      | y :: _ =>
          ((nx x = Some y /\ ~ In (x, y) pend) \/ (nx x = None /\ In (x, y) pend)) /\
          linked nx pend c'
      end
  end.

Definition adjacent (c : list node) (l : node * node) : Prop :=
  exists c1 c2, c = c1 ++ fst l :: snd l :: c2.

Lemma linked_tail nx pend x y c : linked nx pend (x :: y :: c) -> linked nx pend (y :: c).
Proof. cbn [linked]. tauto. Qed.

Lemma linked_last nx pend c d : linked nx pend c -> nx (last c d) = None.
Proof.
  induction c as [|x c IH]; [contradiction|]. destruct c as [|y c]; [cbn; auto|].
  intros H. apply linked_tail in H. apply IH in H. exact H.
Qed.

Lemma last_app (c : list node) n d : last (c ++ [n]) d = n.
Proof. induction c as [|x c IH]; [reflexivity|]. cbn [app last]. destruct (c ++ [n]) eqn:E; [now destruct c|exact IH]. Qed.

(** Changing the link of a node outside the chain, or adding and removing links
    between others, does not matter. *)
Lemma linked_ext nx nx' pend pend' c : linked nx pend c ->
  (forall x, In x c -> nx' x = nx x) ->
  (forall x y, In x c -> (In (x, y) pend' <-> In (x, y) pend)) ->
  linked nx' pend' c.
Proof.
  induction c as [|x c IH]; [contradiction|]. intros H Hn Hp. destruct c as [|y c].
  - cbn in *. rewrite Hn; auto.
  - destruct H as [A B]. split.
    + rewrite (Hn x (or_introl eq_refl)). rewrite (Hp x y (or_introl eq_refl)). exact A.
    + apply IH; [exact B| |]; intros; [apply Hn|apply Hp]; now right.
Qed.

(** A node published behind the last one. *)
Lemma linked_snoc nx nx' pend pend' c n d : linked nx pend c -> ~ In n c ->
  nx' n = None -> (forall x, x <> n -> nx' x = nx x) ->
  (forall l, In l pend' <-> l = (last c d, n) \/ In l pend) ->
  linked nx' pend' (c ++ [n]).
Proof.
  intros H. induction c as [|x c IH]; [contradiction|]. intros F Nn Nx P. destruct c as [|y c].
  - cbn in *. split; [|exact Nn]. right. split; [|apply P; auto].
    rewrite Nx; [exact H|]. intros ->. apply F. now left.
  - destruct H as [A B]. split.
    + rewrite (Nx x) by (intros ->; apply F; now left). rewrite P.
      assert (D : (x, y) <> (last (x :: y :: c) d, n)).
      { intros [= _ E]. apply F. right. left. exact E. }
      tauto.
    + apply (IH B); auto. intros K. apply F. now right.
Qed.

Lemma adjacent_cons x y c l : NoDup (x :: y :: c) -> adjacent (x :: y :: c) l ->
  l = (x, y) \/ (fst l <> x /\ adjacent (y :: c) l).
Proof.
  destruct l as [a b]. cbn [fst snd]. intros N (c1 & c2 & E). cbn [fst snd] in E.
  destruct c1 as [|z c1].
  - left. now inversion E.
  - right. assert (E2 : y :: c = c1 ++ a :: b :: c2) by now inversion E.
    split; [|exists c1, c2; exact E2]. intros ->. inversion N as [|? ? Hx _]; subst.
    apply Hx. rewrite E2. apply in_app_iff. right. now left.
Qed.

Lemma adjacent_in c l : adjacent c l -> In (fst l) c /\ In (snd l) c.
Proof.
  intros (c1 & c2 & ->). split; apply in_app_iff; right; [now left|right; now left].
Qed.

(** A pending link is stored. *)
Lemma linked_store nx pend pend' c l : linked nx pend c -> NoDup c -> adjacent c l ->
  (forall l', In l' pend' <-> In l' pend /\ l' <> l) ->
  linked (upd nx (fst l) (Some (snd l))) pend' c.
Proof.
  intros H. induction c as [|x c IH]; [contradiction|]. intros N A P. destruct c as [|y c].
  - destruct A as ([|? [|? ?]] & c2 & E); discriminate.
  - pose proof (adjacent_cons x y c l N A) as [->|[Nx A']]; destruct H as [B C]; split.
    + left. split; [|rewrite P; tauto].
      cbn [fst snd]. unfold upd. destruct (node_eq_dec x x); [reflexivity|contradiction].
    + inversion N as [|? ? Hx N']; subst. cbn [fst snd]. apply (linked_ext nx _ pend); [exact C| |].
      * intros z Hz. unfold upd. destruct (node_eq_dec z x); congruence.
      * intros z w Hz. rewrite P. split; [tauto|]. intros I. split; [exact I|].
        intros [= -> _]. contradiction.
    + unfold upd. destruct (node_eq_dec x (fst l)) as [E|_]; [congruence|]. rewrite P.
      assert ((x, y) <> l) by (intros <-; now apply Nx). tauto.
    + inversion N; subst. now apply IH.
Qed.

Lemma adjacent_snoc c n l : adjacent c l -> adjacent (c ++ [n]) l.
Proof. intros (c1 & c2 & ->). exists c1, (c2 ++ [n]). rewrite <- app_assoc. reflexivity. Qed.

Lemma adjacent_last c n d : c <> [] -> adjacent (c ++ [n]) (last c d, n).
Proof.
  intros H. destruct (exists_last H) as (c' & x & ->). rewrite last_app.
  exists c', []. cbn. now rewrite <- app_assoc.
Qed.

(** The head of the chain is unlinked exactly when its link is pending. *)
Lemma linked_head nx pend x y c : linked nx pend (x :: y :: c) ->
  nx x = None \/ (nx x = Some y /\ ~ In (x, y) pend).
Proof. cbn [linked]. tauto. Qed.

(** * Invariant *)

Definition ids (c : list node) : list nat :=
  flat_map (fun n => match n with Data i => [i] | _ => [] end) c.

Lemma ids_app c c' : ids (c ++ c') = ids c ++ ids c'.
Proof. apply flat_map_app. Qed.

Lemma ids_in i c : In (Data i) c <-> In i (ids c).
Proof.
  unfold ids. rewrite in_flat_map. split.
  - intros H. exists (Data i). cbn. auto.
  - intros ([| |j] & H & E); cbn in E; try contradiction. destruct E as [->|[]]. exact H.
Qed.

(** The consumer's own link to be stored. *)
Definition own (p : consumer) : list (node * node) :=
  match p with
  | PopLinkStub _ _ prev => [(prev, Stub)]
  | SleepLink prev => [(prev, Sleeping)]
  | _ => []
  end.

Definition pend (q : queue) : list (node * node) := own (pc T q) ++ producers T q.

(** What the consumer knows at each access. *)
Definition pc_ok (q : queue) (c : list node) : Prop :=
  let second b := b = true -> sleepy T q = false in
  match pc T q with
  | Idle => True
  | PopLoadNext b => second b
  | PopLoadNext2 b => tail T q <> Stub /\ second b
  | PopLoadHead b t | PopReload b t | PopLinkStub b t _ =>
      t = tail T q /\ t <> Stub /\ second b
  | PopClearStub b t => t = tail T q /\ t <> Stub /\ second b /\ ~ In Stub c
  | PopExchange b t =>
      t = tail T q /\ t <> Stub /\ second b /\ ~ In Stub c /\ next T q Stub = None
  | SleepLoad | SleepClear => tail T q = Stub /\ sleepy T q = false
  | SleepExchange => tail T q = Stub /\ sleepy T q = false /\ next T q Sleeping = None
  | SleepLink _ =>
      tail T q = Stub /\ sleepy T q = false /\ (woken T q = true \/ head T q = Sleeping)
  | AssertFailed => False
  end.

Definition sleeping_queued (q : queue) : bool :=
  match pc T q with SleepLink _ => true | _ => sleepy T q end.

(** [c] is the chain of nodes from [tail] to [head]. *)
Record chain (q : queue) (c : list node) : Prop := {
  ch_tail : hd_error c = Some (tail T q);
  ch_head : last c Stub = head T q;
  ch_nodup : NoDup c;
  ch_linked : linked (next T q) (pend q) c;
  ch_adj : forall l, In l (pend q) -> adjacent c l;
  ch_once : NoDup (pend q);
  ch_ids : ids c = seq (length (popped T q)) (length (pushed T q) - length (popped T q));
  ch_popped : popped T q = firstn (length (popped T q)) (pushed T q);
  ch_sleeping : In Sleeping c <-> sleeping_queued q = true;
  ch_pc : pc_ok q c;
  ch_slept : slept T q = true ->
    pc T q = Idle /\ (woken T q = true \/ c = [Stub; Sleeping])
}.

Definition inv (q : queue) : Prop := exists c, chain q c.

Lemma chain_new : chain (ThreadSafeQueue T) [Stub].
Proof.
  constructor; cbn; auto; try (constructor; auto; fail); try easy.
  - repeat constructor; auto.
  - split; [intros [|[]]; discriminate|discriminate].
Qed.

Lemma chain_popped_le q c : chain q c -> length (popped T q) <= length (pushed T q).
Proof.
  intros []. pose proof (f_equal (@length T) ch_popped0) as E. rewrite length_firstn in E. lia.
Qed.

(** Numbers of queued nodes are those not yet popped. *)
Lemma chain_ids q c i : chain q c -> In (Data i) c <->
  length (popped T q) <= i < length (pushed T q).
Proof.
  intros H. pose proof (chain_popped_le q c H). rewrite ids_in, (ch_ids q c H), in_seq. lia.
Qed.

Lemma chain_nonempty q c : chain q c -> c <> [].
Proof. intros [] ->. discriminate. Qed.

Lemma seq_snoc a n : seq a (S n) = seq a n ++ [a + n].
Proof. rewrite <- Nat.add_1_r, seq_app. reflexivity. Qed.

Lemma upd_same f x v : upd f x v x = v.
Proof. unfold upd. destruct (node_eq_dec x x); [reflexivity|contradiction]. Qed.

Lemma upd_other f x v y : y <> x -> upd f x v y = f y.
Proof. intros H. unfold upd. destruct (node_eq_dec y x); [contradiction|reflexivity]. Qed.

Lemma slept_idle q c : chain q c -> pc T q <> Idle -> slept T q = false.
Proof. intros [] H. destruct (slept T q); [|reflexivity]. destruct (ch_slept0 eq_refl). contradiction. Qed.

(** ** Producers *)

Lemma chain_push q c v : chain q c ->
  chain (push_exchange T q v) (c ++ [Data (length (pushed T q))]).
Proof.
  intros H. pose proof (chain_popped_le q c H) as Le. pose proof (chain_nonempty q c H) as NE.
  set (n := Data (length (pushed T q))).
  assert (F : ~ In n c) by (unfold n; rewrite (chain_ids q c _ H); lia).
  pose proof H as [].
  assert (Fp : forall x, ~ In (x, n) (pend q)).
  { intros x I. apply ch_adj0, adjacent_in in I. tauto. }
  assert (P : forall l, In l (pend (push_exchange T q v)) <-> l = (last c Stub, n) \/ In l (pend q)).
  { intros l. unfold pend. cbn [push_exchange pc producers]. rewrite !in_app_iff, ch_head0. fold n.
    cbn. intuition congruence. }
  constructor; cbn [push_exchange tail head next popped pushed slept woken sleepy pc].
  - destruct c; [contradiction|exact ch_tail0].
  - apply last_app.
  - apply NoDup_app; [exact ch_nodup0|repeat constructor; auto|]. intros x Hx [<-|[]]. contradiction.
  - eapply linked_snoc; [exact ch_linked0|exact F|apply upd_same| |exact P].
    intros x Hx. now apply upd_other.
  - intros l Hl. apply P in Hl. destruct Hl as [->|Hl]; [now apply adjacent_last|].
    now apply adjacent_snoc, ch_adj0.
  - unfold pend. cbn [push_exchange pc producers]. apply NoDup_Add with (l := pend q) (a := (head T q, n)).
    + apply Add_app.
    + split; [exact ch_once0|apply Fp].
  - rewrite ids_app, ch_ids0, length_app. unfold n. cbn [ids flat_map length app].
    replace (length (pushed T q) + 1 - length (popped T q))
      with (S (length (pushed T q) - length (popped T q))) by lia.
    rewrite seq_snoc. do 2 f_equal. lia.
  - rewrite firstn_app. replace (length (popped T q) - length (pushed T q)) with 0 by lia.
    cbn [firstn]. rewrite app_nil_r. exact ch_popped0.
  - rewrite in_app_iff. cbn [In]. rewrite ch_sleeping0.
    unfold sleeping_queued, n. cbn. intuition discriminate.
  - unfold pc_ok in *. cbn [push_exchange tail head next sleepy pc woken] in *.
    assert (G : ~ In Stub c -> ~ In Stub (c ++ [n])).
    { intros N. rewrite in_app_iff. unfold n. cbn. intuition discriminate. }
    destruct (pc T q); rewrite ?upd_other by discriminate; auto; try tauto.
    + destruct ch_pc0 as (A & B & [W|W]); [rewrite W; auto|]. rewrite W. cbn. rewrite orb_true_r. auto.
  - intros S. destruct (ch_slept0 S) as [I [W|W]]; (split; [exact I|left]).
    + now rewrite W.
    + rewrite <- ch_head0, W. cbn. apply orb_true_r.
Qed.

Lemma in_remove_pair l l' (ls : list (node * node)) :
  In l' (remove pair_eq_dec l ls) <-> In l' ls /\ l' <> l.
Proof. split; [apply in_remove|]. intros [H N]. now apply in_in_remove. Qed.

Lemma remove_once l (ls : list (node * node)) : NoDup ls -> NoDup (remove pair_eq_dec l ls).
Proof.
  induction 1 as [|x ls H N IH]; cbn [remove]; [constructor|].
  destruct (pair_eq_dec l x); [exact IH|]. constructor; [|exact IH].
  rewrite in_remove_pair. tauto.
Qed.

Lemma chain_link q c l : chain q c -> In l (producers T q) -> chain (push_link T q l) c.
Proof.
  intros H Hl. pose proof H as [].
  assert (No : ~ In l (own (pc T q))).
  { unfold pend in ch_once0. intros I. destruct (in_split _ _ I) as (o1 & o2 & E).
    rewrite E, <- app_assoc in ch_once0. apply NoDup_app_remove_l in ch_once0.
    cbn in ch_once0. inversion ch_once0; subst. apply H2, in_app_iff. auto. }
  assert (P : forall l', In l' (pend (push_link T q l)) <-> In l' (pend q) /\ l' <> l).
  { intros l'. unfold pend. cbn [push_link pc producers]. rewrite !in_app_iff, in_remove_pair.
    split; [intros [I|I]; [split; [auto|congruence]|tauto]|tauto]. }
  assert (A : adjacent c l) by (apply ch_adj0; unfold pend; apply in_app_iff; auto).
  (* a node that is not in the chain keeps its link *)
  assert (K : forall x, ~ In x c -> upd (next T q) (fst l) (Some (snd l)) x = next T q x).
  { intros x Hx. apply upd_other. intros ->. apply Hx. now apply adjacent_in. }
  constructor; cbn [push_link tail head next popped pushed slept woken sleepy pc]; auto.
  - eapply linked_store; eauto.
  - intros l' Hl'. apply P in Hl'. now apply ch_adj0.
  - unfold pend in *. cbn [push_link pc producers]. apply NoDup_app_remove_l in ch_once0 as Np.
    apply NoDup_app_remove_r in ch_once0 as No'.
    apply NoDup_app; [exact No'|now apply remove_once|].
    intros x Hx Hx'. apply in_remove_pair in Hx'. 
    destruct (in_split _ _ Hx) as (o1 & o2 & E). rewrite E, <- app_assoc in ch_once0.
    apply NoDup_app_remove_l in ch_once0. cbn in ch_once0. inversion ch_once0; subst.
    apply H2, in_app_iff. tauto.
  - unfold pc_ok, sleeping_queued in *. cbn [push_link tail head next sleepy pc woken].
    destruct (pc T q); auto.
    + destruct ch_pc0 as (E & N & B & S & X). rewrite K; auto.
    + destruct ch_pc0 as (E & B & X). rewrite K; auto. rewrite ch_sleeping0. congruence.
Qed.

(** ** The consumer *)

Lemma chain_pc q c p : chain q c -> own p = own (pc T q) ->
  sleeping_queued (with_pc T p q) = sleeping_queued q -> pc_ok (with_pc T p q) c ->
  slept T q = false -> chain (with_pc T p q) c.
Proof.
  intros [] O S K F. constructor; cbn [with_pc tail head next popped pushed slept woken]; auto.
  - unfold pend in *. cbn [with_pc pc producers]. now rewrite O.
  - unfold pend in *. cbn [with_pc pc producers]. now rewrite O.
  - unfold pend in *. cbn [with_pc pc producers]. now rewrite O.
  - now rewrite S.
  - congruence.
Qed.

(** The facts about a chain that do not depend on its first node. *)
Lemma chain_rest q t c0 n : chain q (t :: c0) -> next T q t = Some n ->
  exists c1, c0 = n :: c1 /\ linked (next T q) (pend q) c0 /\ NoDup c0 /\ ~ In t c0 /\
    last c0 Stub = head T q /\ (forall l, In l (pend q) -> adjacent c0 l).
Proof.
  intros [] E. destruct c0 as [|y c1]; [cbn in ch_linked0; congruence|].
  destruct ch_linked0 as [[[A B]|[A B]] C]; [|congruence].
  assert (y = n) by congruence. subst y. exists c1. inversion ch_nodup0; subst.
  repeat split; auto. intros l Hl. pose proof (ch_adj0 l Hl) as D.
  apply adjacent_cons in D; [|assumption]. destruct D as [->|[_ D]]; [contradiction|exact D].
Qed.

(** [pop] finishes with a data node, or goes on after [sleeping]. *)
Lemma chain_pop q t c0 n b : chain q (t :: c0) -> own (pc T q) = [] -> slept T q = false ->
  sleeping_queued q = sleepy T q -> t <> Stub -> (b = true -> sleepy T q = false) ->
  next T q t = Some n -> inv (pop_return T b (Some t) (with_tail T n q)).
Proof.
  intros H O F SQ NS Sb E.
  destruct (chain_rest q t c0 n H E) as (c1 & -> & Lk & Nd & Nt & Hd & Adj).
  pose proof (chain_popped_le q _ H) as Le. pose proof H as [].
  assert (Pe : pend q = producers T q) by (unfold pend; now rewrite O). rewrite Pe in *.
  exists (n :: c1). destruct t as [| |i]; [contradiction| |]; cbn [pop_return].
  - assert (S : sleepy T q = true) by (rewrite <- SQ; apply ch_sleeping0; now left).
    destruct b; [rewrite Sb in S; congruence|].
    constructor; unfold pend; cbn [with_pc with_sleepy with_tail tail head next popped pushed slept
      woken producers pc own app]; auto.
    + split; [contradiction|discriminate].
    + exact (fun _ => eq_refl).
    + congruence.
  - change (ids (Data i :: n :: c1)) with (i :: ids (n :: c1)) in ch_ids0.
    destruct (length (pushed T q) - length (popped T q)) as [|m] eqn:Em; [discriminate|].
    cbn [seq] in ch_ids0. injection ch_ids0 as -> Ids. cbn [with_tail pushed].
    destruct (nth_error (pushed T q) (length (popped T q))) as [v|] eqn:Ev;
      [|apply nth_error_None in Ev; lia].
    assert (Pp : popped T q ++ [v] = firstn (length (popped T q) + 1) (pushed T q)).
    { destruct (nth_error_split _ _ Ev) as (l1 & l2 & E1 & L1). rewrite E1, <- L1 in *.
      rewrite firstn_app, firstn_all2 by lia.
      replace (length l1 + 1 - length l1) with 1 by lia. cbn [firstn]. f_equal.
      rewrite ch_popped0, firstn_app, L1, firstn_all2, Nat.sub_diag by lia. cbn. apply app_nil_r. }
    constructor; unfold pend; cbn [with_tail tail head next popped pushed slept woken producers pc
      own app]; auto.
    + rewrite length_app. cbn [length]. etransitivity; [exact Ids|]. f_equal; lia.
    + rewrite length_app. exact Pp.
    + unfold sleeping_queued at 1. cbn [pc sleepy with_tail]. rewrite <- SQ, <- ch_sleeping0.
      cbn [In]. intuition discriminate.
    + exact I.
    + congruence.
Qed.

Lemma chain_skip q c0 n b : chain q (Stub :: c0) -> pc T q = PopLoadNext b ->
  next T q Stub = Some n -> chain (with_pc T (PopLoadNext2 b) (with_tail T n q)) c0.
Proof.
  intros H P E. assert (F : slept T q = false) by (apply (slept_idle q _ H); congruence).
  destruct (chain_rest q Stub c0 n H E) as (c1 & -> & Lk & Nd & Nt & Hd & Adj).
  pose proof H as []. unfold pend, sleeping_queued, pc_ok in *. rewrite P in *.
  constructor; unfold pend; cbn [with_pc with_tail tail head next popped pushed slept woken producers
    pc own app] in *; auto.
  - rewrite <- ch_sleeping0. unfold sleeping_queued. cbn [pc sleepy In]. intuition discriminate.
  - split; [|exact ch_pc0]. cbn. intros ->. apply Nt. now left.
  - congruence.
Qed.

(** The consumer queues [stub] or [sleeping] behind the last node. *)
Lemma chain_requeue q c n p : chain q c -> own (pc T q) = [] -> ~ In n c ->
  next T q n = None -> own p = [(head T q, n)] -> ids [n] = [] ->
  forall q', q' = with_pc T p (with_head T n q) \/ q' = with_pc T p (with_head T n (with_woken T false q)) ->
  (In Sleeping (c ++ [n]) <-> sleeping_queued q' = true) -> pc_ok q' (c ++ [n]) ->
  slept T q = false -> chain q' (c ++ [n]).
Proof.
  intros H O F X Op Id q' Eq Sl Pc Fl. pose proof (chain_nonempty q c H) as NE. pose proof H as [].
  assert (Pe : pend q = producers T q) by (unfold pend; now rewrite O). rewrite Pe in *.
  assert (Pq : pend q' = (head T q, n) :: producers T q).
  { unfold pend. destruct Eq as [-> | ->]; cbn [with_pc with_head with_woken pc producers];
      rewrite Op; reflexivity. }
  assert (Fields : head T q' = n /\ tail T q' = tail T q /\ next T q' = next T q /\
    popped T q' = popped T q /\ pushed T q' = pushed T q /\ slept T q' = slept T q)
    by (destruct Eq as [-> | ->]; cbn; auto 10).
  destruct Fields as (E1 & E2 & E3 & E4 & E5 & E6). clear Eq.
  constructor; rewrite ?Pq, ?E1, ?E2, ?E3, ?E4, ?E5, ?E6; auto.
  - destruct c; [contradiction|exact ch_tail0].
  - apply last_app.
  - apply NoDup_app; [exact ch_nodup0|repeat constructor; auto|]. intros x Hx [<-|[]]. contradiction.
  - eapply (linked_snoc (next T q) (next T q) (producers T q)); eauto.
    rewrite ch_head0. intros l. cbn. intuition congruence.
  - intros l [<-|Hl]; [rewrite <- ch_head0; now apply adjacent_last|].
    now apply adjacent_snoc, ch_adj0.
  - constructor; [|exact ch_once0]. intros I. apply ch_adj0, adjacent_in in I. tauto.
  - rewrite ids_app, Id, app_nil_r. exact ch_ids0.
  - congruence.
Qed.

(** The link of a node outside the chain is cleared. *)
Lemma chain_clear q c n p : chain q c -> own (pc T q) = [] -> own p = [] -> ~ In n c ->
  sleeping_queued (with_pc T p (with_next T n None q)) = sleeping_queued q ->
  pc_ok (with_pc T p (with_next T n None q)) c -> slept T q = false ->
  chain (with_pc T p (with_next T n None q)) c.
Proof.
  intros [] O O' F S K Fl.
  assert (Pe : pend (with_pc T p (with_next T n None q)) = pend q).
  { unfold pend. cbn [with_pc with_next pc producers]. now rewrite O, O'. }
  constructor; rewrite ?Pe, ?S; cbn [with_pc with_next tail head next popped pushed slept woken]; auto.
  - eapply linked_ext; [exact ch_linked0| |reflexivity].
    intros x Hx. apply upd_other. congruence.
  - congruence.
Qed.

(** The consumer stores its own link. *)
Lemma linked_own q c prev n : chain q c -> own (pc T q) = [(prev, n)] ->
  linked (upd (next T q) prev (Some n)) (producers T q) c /\
  (forall l, In l (producers T q) -> adjacent c l) /\ NoDup (producers T q) /\ adjacent c (prev, n).
Proof.
  intros [] O. unfold pend in *. rewrite O in *. cbn [app] in *.
  inversion ch_once0 as [|? ? N1 N2]; subst.
  assert (A : adjacent c (prev, n)) by (apply ch_adj0; now left).
  split; [|split; [intros l Hl; apply ch_adj0; now right|auto]].
  apply (linked_store _ _ (producers T q) c (prev, n) ch_linked0 ch_nodup0 A).
  intros l. cbn [In]. split; [intros I; split; [auto|congruence]|].
  intros [[<-|I] N]; [now destruct N|exact I].
Qed.

Lemma chain_own_store q c prev n p : chain q c -> own (pc T q) = [(prev, n)] -> own p = [] ->
  sleeping_queued (with_pc T p (with_next T prev (Some n) q)) = sleeping_queued q ->
  pc_ok (with_pc T p (with_next T prev (Some n) q)) c -> slept T q = false ->
  chain (with_pc T p (with_next T prev (Some n) q)) c.
Proof.
  intros H O O' S K Fl. destruct (linked_own q c prev n H O) as (Lk & Adj & On & _).
  pose proof H as [].
  assert (Pe : pend (with_pc T p (with_next T prev (Some n) q)) = producers T q).
  { unfold pend. cbn [with_pc with_next pc producers]. now rewrite O'. }
  constructor; rewrite ?Pe, ?S; cbn [with_pc with_next tail head next popped pushed slept woken]; auto.
  congruence.
Qed.

Lemma chain_single (c : list node) t d : NoDup c -> hd_error c = Some t -> last c d = t -> c = [t].
Proof.
  destruct c as [|x c]; [discriminate|]. intros N [= ->] L. destruct c as [|y c]; [reflexivity|].
  exfalso. inversion N; subst. apply H1. change (last (t :: y :: c) d) with (last (y :: c) d) in L.
  destruct (exists_last (l := y :: c)) as (c' & z & E); [discriminate|].
  rewrite E, last_app in L. subst z. rewrite E. apply in_app_iff. right. now left.
Qed.

(** [SleepLink]: the end of [canSleep]. *)
Lemma chain_sleep q c prev : chain q c -> pc T q = SleepLink prev ->
  chain (with_slept T (node_eqb prev Stub)
          (with_pc T Idle (with_sleepy T true (with_next T prev (Some Sleeping) q)))) c.
Proof.
  intros H P. destruct (linked_own q c prev Sleeping H) as (Lk & Adj & On & A);
    [now rewrite P|].
  pose proof H as []. unfold sleeping_queued, pc_ok in *. rewrite P in *.
  destruct ch_pc0 as (Tl & Sl & W).
  constructor; unfold pend; cbn [with_slept with_pc with_sleepy with_next tail head next popped pushed
    slept woken producers pc own app]; auto.
  - exact I.
  - unfold node_eqb. destruct (node_eq_dec prev Stub) as [->|]; [|discriminate]. intros _.
    split; [reflexivity|]. destruct W as [W|W]; [auto|right].
    destruct c as [|x c]; [discriminate|]. cbn in ch_tail0. assert (x = Stub) by congruence. subst x.
    destruct c as [|y c]; [destruct A as ([|? [|? ?]] & ? & ?); discriminate|].
    apply adjacent_cons in A; [|exact ch_nodup0]. destruct A as [E|[X _]]; [|now destruct X].
    assert (y = Sleeping) by congruence. subst y. f_equal. inversion ch_nodup0; subst.
    change (last (Stub :: Sleeping :: c) Stub) with (last (Sleeping :: c) Stub) in ch_head0.
    apply (chain_single _ Sleeping Stub); [assumption|reflexivity|congruence].
Qed.

Ltac node_cases :=
  unfold node_eqb in *;
  match goal with
  | |- context [node_eq_dec ?a ?b] => destruct (node_eq_dec a b)
  | H : context [node_eq_dec ?a ?b] |- _ => destruct (node_eq_dec a b)
  end.

Lemma consumer_step_inv q q' : inv q -> consumer_step T q = Some q' -> inv q'.
Proof.
  intros (c & H) St. pose proof H as []. unfold consumer_step in St. unfold pc_ok in ch_pc0.
  destruct (pc T q) eqn:P; try discriminate;
    assert (F : slept T q = false) by (apply (slept_idle q c H); congruence);
    assert (SQ : forall p, match p with SleepLink _ => False | _ => True end ->
      sleeping_queued (with_pc T p q) = sleepy T q)
      by (intros []; cbn; tauto).
  - (* PopLoadNext *)
    destruct c as [|t c0]; [discriminate|]. injection ch_tail0 as ->.
    destruct (next T q (tail T q)) as [n|] eqn:E; node_cases; injection St as <-.
    + exists c0. rewrite e in H, E. now apply chain_skip.
    + eapply chain_pop; eauto; [now rewrite P|unfold sleeping_queued; now rewrite P].
    + exists (tail T q :: c0). apply chain_pc; auto; [now rewrite P|unfold sleeping_queued; now rewrite P|exact I].
    + exists (tail T q :: c0). apply chain_pc; auto; [now rewrite P|unfold sleeping_queued; now rewrite P|].
      unfold pc_ok. cbn. auto.
  - (* PopLoadNext2 *)
    destruct c as [|t c0]; [discriminate|]. injection ch_tail0 as ->. destruct ch_pc0 as [NS Sb].
    destruct (next T q (tail T q)) as [n|] eqn:E; injection St as <-.
    + eapply chain_pop; eauto; [now rewrite P|unfold sleeping_queued; now rewrite P].
    + exists (tail T q :: c0). apply chain_pc; auto; [now rewrite P|unfold sleeping_queued; now rewrite P|].
      unfold pc_ok. cbn. auto.
  - (* PopLoadHead *)
    destruct ch_pc0 as (Et & NS & Sb). node_cases; injection St as <-; exists c.
    + apply chain_pc; auto; [now rewrite P|unfold sleeping_queued; now rewrite P|].
      unfold pc_ok. cbn. repeat split; auto.
      rewrite (chain_single c t Stub); [|assumption|congruence|congruence].
      intros [X|[]]. congruence.
    + apply chain_pc; auto; [now rewrite P|unfold sleeping_queued; now rewrite P|exact I].
  - (* PopClearStub *)
    destruct ch_pc0 as (Et & NS & Sb & NI). injection St as <-. exists c.
    apply chain_clear; auto; [now rewrite P|unfold sleeping_queued; now rewrite P|].
    unfold pc_ok. cbn -[upd]. rewrite upd_same. auto.
  - (* PopExchange *)
    destruct ch_pc0 as (Et & NS & Sb & NI & Nx). injection St as <-. exists (c ++ [Stub]).
    eapply (chain_requeue q c Stub); auto; [now rewrite P|reflexivity| |].
    + unfold sleeping_queued in *. rewrite P in *. cbn [with_pc with_head pc sleepy].
      rewrite <- ch_sleeping0, in_app_iff. cbn. intuition discriminate.
    + unfold pc_ok. cbn. auto.
  - (* PopLinkStub *)
    injection St as <-. exists c.
    apply chain_own_store; auto; [now rewrite P|unfold sleeping_queued; now rewrite P].
  - (* PopReload *)
    destruct ch_pc0 as (Et & NS & Sb). subst t.
    destruct (next T q (tail T q)) as [n|] eqn:E; injection St as <-.
    + destruct c as [|t c0]; [discriminate|]. injection ch_tail0 as ->.
      eapply chain_pop; eauto; [now rewrite P|unfold sleeping_queued; now rewrite P].
    + exists c. apply chain_pc; auto; [now rewrite P|unfold sleeping_queued; now rewrite P|exact I].
  - (* SleepLoad *)
    destruct (next T q (tail T q)) as [n|] eqn:E; injection St as <-; exists c;
      (apply chain_pc; [exact H|now rewrite P|unfold sleeping_queued; now rewrite P| |exact F]).
    + exact I.
    + exact ch_pc0.
  - (* SleepClear *)
    destruct ch_pc0 as (Et & Sl). injection St as <-. exists c.
    apply chain_clear; auto; [now rewrite P| |unfold sleeping_queued; now rewrite P|].
    + rewrite ch_sleeping0. unfold sleeping_queued. rewrite P. congruence.
    + unfold pc_ok. cbn -[upd]. rewrite upd_same. auto.
  - (* SleepExchange *)
    destruct ch_pc0 as (Et & Sl & Nx). injection St as <-. exists (c ++ [Sleeping]).
    eapply (chain_requeue q c Sleeping); auto; [now rewrite P| |reflexivity| |].
    + rewrite ch_sleeping0. unfold sleeping_queued. rewrite P. congruence.
    + cbn. rewrite in_app_iff. cbn. tauto.
    + unfold pc_ok. cbn. auto.
  - (* SleepLink *)
    injection St as <-. exists c. now apply chain_sleep.
Qed.

Lemma step_inv q q' : inv q -> step T q q' -> inv q'.
Proof.
  intros (c & H) St. destruct St as [v|l Hl|P|P|q' St].
  - eexists. exact (chain_push q c v H).
  - exists c. now apply chain_link.
  - exists c. pose proof H as []. unfold pop_call, pend, sleeping_queued, pc_ok in *. rewrite P in *.
    constructor; unfold pend; cbn; auto; discriminate.
  - exists c. pose proof H as []. unfold canSleep_call, pend, sleeping_queued, pc_ok in *.
    rewrite P in *. cbn [with_slept sleepy tail].
    destruct (sleepy T q) eqn:Sl; [|node_cases];
      constructor; unfold pend, sleeping_queued, pc_ok; cbn; rewrite ?P, ?Sl; auto; discriminate.
  - apply (consumer_step_inv q q'); [exists c; exact H|exact St].
Qed.

Lemma reachable_inv q : reachable T q -> inv q.
Proof.
  induction 1 as [|q q' R IH St]; [exists [Stub]; apply chain_new|].
  eapply step_inv; eauto.
Qed.

(** * The consumer running alone *)

Fixpoint steps (k : nat) (q : queue) : option queue :=
  match k with
  | O => Some q
  | S k' => match consumer_step T q with Some q' => steps k' q' | None => None end
  end.

Lemma steps_run k : forall f q q', steps k q = Some q' ->
  consumer_run T (k + f) q = consumer_run T f q'.
Proof.
  induction k as [|k IH]; intros f q q' H; cbn [steps] in H; [now injection H as <-|].
  destruct (consumer_step T q) as [q1|] eqn:E; [|discriminate].
  cbn [Nat.add consumer_run]. rewrite E.
  destruct (pc T q) eqn:P; try now apply IH.
  all: unfold consumer_step in E; rewrite P in E; discriminate.
Qed.

Lemma steps_app k j : forall q q', steps k q = Some q' -> steps (k + j) q = steps j q'.
Proof.
  induction k as [|k IH]; intros q q' H; cbn [Nat.add steps] in *; [now injection H as <-|].
  destruct (consumer_step T q); [now apply IH|discriminate].
Qed.

Lemma steps_inv k : forall q q', inv q -> steps k q = Some q' -> inv q'.
Proof.
  induction k as [|k IH]; intros q q' I H; cbn [steps] in H; [now injection H as <-|].
  destruct (consumer_step T q) as [q1|] eqn:E; [|discriminate].
  eapply IH; [|exact H]. eapply consumer_step_inv; eauto.
Qed.

Definition first_node (c : list node) : option node :=
  match c with
  | Stub :: c' => hd_error c'
  | t :: _ => Some t
  | [] => None
  end.

Lemma linked_quiet nx c : linked nx [] c -> forall x y c', c = x :: y :: c' -> nx x = Some y.
Proof. intros H x y c' ->. cbn in H. tauto. Qed.

(** The step that stores a node's link behind a lone node [t]. *)
Lemma requeue_steps q t b : pc T q = PopLoadHead b t -> head T q = t -> tail T q = t ->
  t <> Stub -> exists q2, steps 5 q = Some (pop_return T b (Some t) q2) /\
    pushed T q2 = pushed T q /\ popped T q2 = popped T q /\ producers T q2 = producers T q.
Proof.
  intros P Hd Tl NS. cbn [steps]. unfold consumer_step at 1. rewrite P, Hd.
  unfold node_eqb. destruct (node_eq_dec t t); [|contradiction].
  unfold consumer_step at 1. cbn [with_pc pc]. unfold consumer_step at 1. cbn [with_pc with_next pc].
  unfold consumer_step at 1. cbn [with_pc with_next with_head pc head]. rewrite Hd.
  unfold consumer_step at 1. cbn [with_pc with_next with_head pc head next].
  rewrite upd_same. eexists. split; [reflexivity|]. cbn. auto.
Qed.

(** Without producers, [popNode] returns the first node that is not [stub]. *)
Lemma pop_node_quiet q c b : chain q c -> producers T q = [] -> pc T q = PopLoadNext b ->
  exists k q2, k <= 7 /\ steps k q = Some (pop_return T b (first_node c) q2) /\
    pushed T q2 = pushed T q /\ popped T q2 = popped T q /\ producers T q2 = [].
Proof.
  intros H Pr P. pose proof H as []. unfold pend in *. rewrite P, Pr in *. cbn [own app] in *.
  destruct c as [|t c0]; [discriminate|]. cbn [hd_error] in ch_tail0. injection ch_tail0 as Tl.
  pose proof (linked_quiet _ _ ch_linked0) as Q.
  destruct (node_eq_dec t Stub) as [Et|NS].
  - rewrite Et in *. clear Et t. cbn [first_node]. destruct c0 as [|n c1].
    + exists 1, q. cbn [steps]. unfold consumer_step. rewrite P, <- Tl. cbn [linked] in ch_linked0.
      rewrite ch_linked0. cbn. repeat split; auto; lia.
    + pose proof (Q _ _ _ eq_refl) as E.
      assert (Nn : n <> Stub) by (intros ->; inversion ch_nodup0; subst; apply H2; now left).
      assert (S1 : consumer_step T q = Some (with_pc T (PopLoadNext2 b) (with_tail T n q))).
      { unfold consumer_step. rewrite P, <- Tl, E. reflexivity. }
      set (q1 := with_pc T (PopLoadNext2 b) (with_tail T n q)) in *. cbn [hd_error].
      destruct c1 as [|y c1].
      * destruct ch_linked0 as [_ E2]. cbn [linked] in E2.
        destruct (requeue_steps (with_pc T (PopLoadHead b n) q1) n b) as (q2 & S2 & A);
          [reflexivity|exact (eq_sym ch_head0)|reflexivity|exact Nn|].
        exists 7, q2. split; [lia|]. split; [|cbn in A; rewrite Pr in A; exact A].
        change (steps 7 q) with (match consumer_step T q with Some q' => steps 6 q' | None => None end).
        rewrite S1. change (steps 6 q1) with
          (match consumer_step T q1 with Some q' => steps 5 q' | None => None end).
        assert (S3 : consumer_step T q1 = Some (with_pc T (PopLoadHead b n) q1)).
        { unfold consumer_step. cbn [q1 with_pc with_tail pc tail next]. rewrite E2. reflexivity. }
        rewrite S3. exact S2.
      * assert (E2 : next T q n = Some y) by (destruct ch_linked0 as [_ L]; cbn in L; tauto).
        exists 2, (with_tail T y q1). split; [lia|]. split; [|cbn; auto].
        cbn [steps]. rewrite S1. unfold consumer_step. cbn [q1 with_pc with_tail pc tail next].
        rewrite E2. reflexivity.
  - assert (Ft : first_node (t :: c0) = Some t) by (destruct t; [contradiction|reflexivity|reflexivity]).
    rewrite Ft. clear Ft.
    assert (NE : node_eqb t Stub = false) by (unfold node_eqb; destruct (node_eq_dec t Stub); congruence).
    destruct c0 as [|y c0].
    + destruct (requeue_steps (with_pc T (PopLoadHead b t) q) t b) as (q2 & S2 & A);
        [reflexivity|exact (eq_sym ch_head0)|exact (eq_sym Tl)|exact NS|].
      exists 6, q2. split; [lia|]. split; [|cbn in A; rewrite Pr in A; exact A].
      change (steps 6 q) with (match consumer_step T q with Some q' => steps 5 q' | None => None end).
      assert (S1 : consumer_step T q = Some (with_pc T (PopLoadHead b t) q)).
      { unfold consumer_step. rewrite P, <- Tl, NE. cbn [linked] in ch_linked0.
        now rewrite ch_linked0. }
      rewrite S1. exact S2.
    + pose proof (Q _ _ _ eq_refl) as E. exists 1, (with_tail T y q). split; [lia|].
      split; [|cbn; auto]. cbn [steps]. unfold consumer_step. rewrite P, <- Tl, E, NE. reflexivity.
Qed.

(** The data the queue holds. *)
Definition contents (q : queue) : list T := skipn (length (popped T q)) (pushed T q).

Lemma chain_contents q c : chain q c -> pushed T q = popped T q ++ contents q.
Proof.
  intros H. unfold contents. pose proof (ch_popped q c H) as E.
  rewrite <- (firstn_skipn (length (popped T q)) (pushed T q)) at 1. now rewrite <- E.
Qed.

(** What [pop_return] leaves of a first node. *)
Lemma pop_return_data q2 c q i b : chain q (c) -> first_node c = Some (Data i) ->
  pushed T q2 = pushed T q -> popped T q2 = popped T q ->
  exists v, contents q = v :: skipn (S (length (popped T q))) (pushed T q) /\
    pc T (pop_return T b (Some (Data i)) q2) = Idle /\
    popped T (pop_return T b (Some (Data i)) q2) = popped T q ++ [v] /\
    pushed T (pop_return T b (Some (Data i)) q2) = pushed T q.
Proof.
  intros H F Pu Po. pose proof H as [].
  assert (Ei : i = length (popped T q) /\ length (popped T q) < length (pushed T q)).
  { assert (X : exists r, ids c = i :: r).
    { destruct c as [|[| |j] [|[| |k] c]]; cbn in F; try discriminate; injection F as ->;
        eexists; reflexivity. }
    destruct X as [r X]. rewrite X in ch_ids0.
    destruct (length (pushed T q) - length (popped T q)) eqn:E; [discriminate|].
    cbn in ch_ids0. injection ch_ids0 as -> _. split; [reflexivity|lia]. }
  destruct Ei as [-> L]. destruct (nth_error (pushed T q) (length (popped T q))) as [v|] eqn:Ev;
    [|apply nth_error_None in Ev; lia].
  exists v. split.
  - unfold contents. destruct (nth_error_split _ _ Ev) as (l1 & l2 & -> & <-).
    rewrite !skipn_app, skipn_all2, (skipn_all2 (n := S (length l1))), Nat.sub_diag by lia.
    replace (S (length l1) - length l1) with 1 by lia. reflexivity.
  - cbn [pop_return]. rewrite Pu, Ev. cbn. rewrite Po, ?Pu. auto.
Qed.

Lemma pop_node_none q c : chain q c -> first_node c = None -> contents q = [].
Proof.
  intros H F. pose proof H as []. assert (I : ids c = []).
  { destruct c as [|[| |j] [|x c]]; cbn in F; try discriminate; reflexivity. }
  rewrite I in ch_ids0. destruct (length (pushed T q) - length (popped T q)) eqn:E; [|discriminate].
  unfold contents. apply skipn_all2. lia.
Qed.

(** The second call of [popNode] by [pop] cannot find [sleeping] again. *)
Lemma pop_second_quiet q : inv q -> producers T q = [] -> pc T q = PopLoadNext true ->
  exists k q', k <= 7 /\ steps k q = Some q' /\ pc T q' = Idle /\ pushed T q' = pushed T q /\
    popped T q' = popped T q ++ firstn 1 (contents q).
Proof.
  intros (c & H) Pr P. destruct (pop_node_quiet q c true H Pr P) as (k & q2 & K & S & Pu & Po & _).
  pose proof (ch_pc q c H) as Pc. unfold pc_ok in Pc. rewrite P in Pc.
  destruct (first_node c) as [[| |i]|] eqn:F.
  - exfalso. destruct (steps_inv k q _ (ex_intro _ c H) S) as (c' & [_ _ _ _ _ _ _ _ _ X _]). exact X.
  - exfalso. destruct (steps_inv k q _ (ex_intro _ c H) S) as (c' & [_ _ _ _ _ _ _ _ _ X _]). exact X.
  - destruct (pop_return_data q2 c q i true H F Pu Po) as (v & C & I & Po' & Pu').
    exists k, (pop_return T true (Some (Data i)) q2). rewrite Po', Pu', C. cbn. auto.
  - exists k, (pop_return T true None q2). rewrite (pop_node_none q c H F). cbn.
    rewrite Pu, Po, app_nil_r. auto.
Qed.

Lemma pop_quiet q : inv q -> producers T q = [] -> pc T q = PopLoadNext false ->
  exists k q', k <= 14 /\ steps k q = Some q' /\ pc T q' = Idle /\ pushed T q' = pushed T q /\
    popped T q' = popped T q ++ firstn 1 (contents q).
Proof.
  intros (c & H) Pr P. destruct (pop_node_quiet q c false H Pr P) as (k & q2 & K & S & Pu & Po & Pr2).
  pose proof (steps_inv k q _ (ex_intro _ c H) S) as I'.
  destruct (first_node c) as [[| |i]|] eqn:F.
  - exfalso. destruct I' as (c' & [_ _ _ _ _ _ _ _ _ X _]). exact X.
  - destruct (pop_second_quiet _ I') as (k2 & q' & K2 & S2 & R); [exact Pr2|reflexivity|].
    exists (k + k2), q'. split; [lia|]. split.
    + now rewrite (steps_app k k2 q _ S).
    + unfold contents in *. cbn in R. rewrite Pu, Po in R. exact R.
  - destruct (pop_return_data q2 c q i false H F Pu Po) as (v & C & I & Po' & Pu').
    exists k, (pop_return T false (Some (Data i)) q2). rewrite Po', Pu', C. cbn.
    repeat split; auto. lia.
  - exists k, (pop_return T false None q2). rewrite (pop_node_none q c H F). cbn.
    rewrite Pu, Po, app_nil_r. repeat split; auto. lia.
Qed.
End Proofs.

Lemma consumer_run_reachable (T : Type) f : forall q q' : queue T, reachable T q ->
  consumer_run T f q = Some q' -> reachable T q'.
Proof.
  induction f as [|f IH]; intros q q' R H; [discriminate|]. cbn [consumer_run] in H.
  destruct (consumer_step T q) as [q1|] eqn:E; destruct (pc T q); try discriminate;
    try (injection H as <-; exact R);
    (apply (IH q1); [|exact H]; econstructor; [exact R|now apply step_consumer]).
Qed.

(** * Properties *)

(** C6: in every interleaving of any number of producers with the consumer,
    what [pop] has returned is a prefix of what was pushed, in the order of the
    exchanges: nothing is lost, duplicated or reordered; the assertions of
    [pop] hold; and no thread is ever about to store a link into a node that
    [pop] has already deleted. *)
Theorem tsq_fifo (T : Type) (q : queue T) (R : reachable T q) :
  pushed T q = popped T q ++ contents T q /\
  pc T q <> AssertFailed /\
  (forall i n, In (Data i, n) (pend T q) -> length (popped T q) <= i) /\
  (forall i, tail T q = Data i -> length (popped T q) <= i < length (pushed T q)).
Proof.
  destruct (reachable_inv T q R) as (c & H). split; [exact (chain_contents T q c H)|].
  split; [|split].
  - intros P. pose proof (ch_pc T q c H) as X. unfold pc_ok in X. now rewrite P in X.
  - intros i n I. apply (ch_adj T q c H), adjacent_in in I. apply (chain_ids T q c i H). tauto.
  - intros i E. apply (chain_ids T q c i H). pose proof (ch_tail T q c H) as X.
    destruct c; [discriminate|]. cbn in X. left. congruence.
Qed.

(** A [pop] that no producer interrupts and that finds no push half done
    ends within 14 accesses and returns the oldest element, or nothing exactly
    when the queue is empty. *)
Theorem tsq_pop_quiescent (T : Type) (q : queue T) (R : reachable T q)
  (P : pc T q = Idle) (N : producers T q = []) :
  exists q', consumer_run T 15 (pop_call T q) = Some q' /\ pc T q' = Idle /\
    pushed T q' = pushed T q /\ popped T q' = popped T q ++ firstn 1 (contents T q).
Proof.
  assert (R' : reachable T (pop_call T q)) by (econstructor; [exact R|now constructor]).
  destruct (pop_quiet T (pop_call T q) (reachable_inv T _ R') N eq_refl)
    as (k & q' & K & S & I & Pu & Po).
  exists q'. split; [|auto]. replace 15 with (k + (15 - k)) by lia.
  rewrite (steps_run T k _ _ _ S). destruct (15 - k) as [|f] eqn:E; [lia|].
  cbn [consumer_run]. now rewrite I.
Qed.

(** A [canSleep] that returned true is never missed: while the consumer
    sleeps, either some push has found [sleeping] before its node (it returned
    true, waking the consumer), or the queue is empty and the next push will. *)
Theorem tsq_sleep (T : Type) (q : queue T) (R : reachable T q) (S : slept T q = true) :
  woken T q = true \/
  (contents T q = [] /\ forall v, woken T (push_exchange T q v) = true).
Proof.
  destruct (reachable_inv T q R) as (c & H).
  destruct (ch_slept T q c H S) as [_ [W|W]]; [auto|right]. subst c. split.
  - pose proof (ch_ids T q _ H) as I. cbn in I. unfold contents. apply skipn_all2.
    destruct (length (pushed T q) - length (popped T q)) eqn:E; [lia|discriminate].
  - intros v. cbn. rewrite <- (ch_head T q _ H). cbn. apply orb_true_r.
Qed.

(** A run: two pushes whose links are stored in reverse order, then two pops. *)
Definition demo : queue nat :=
  let q := push_exchange nat (push_exchange nat (ThreadSafeQueue nat) 7) 8 in
  push_link nat (push_link nat q (Data 0, Data 1)) (Stub, Data 0).

Lemma demo_reachable : reachable nat demo.
Proof.
  unfold demo. econstructor; [econstructor; [econstructor; [econstructor; [constructor|]|]|]|].
  - apply (step_push nat _ 7).
  - apply (step_push nat _ 8).
  - apply (step_link nat _ (Data 0, Data 1)). cbn. auto.
  - apply (step_link nat _ (Stub, Data 0)). cbn. auto.
Qed.

Lemma tsq_fifo_witness : pushed nat demo = popped nat demo ++ contents nat demo.
Proof. apply (tsq_fifo nat demo demo_reachable). Defined.

Lemma tsq_pop_quiescent_witness :
  exists q', consumer_run nat 15 (pop_call nat demo) = Some q' /\ popped nat q' = [7].
Proof.
  destruct (tsq_pop_quiescent nat demo demo_reachable) as (q' & R & _ & _ & P);
    [reflexivity|reflexivity|]. exists q'. split; [exact R|exact P].
Defined.

(** A consumer that goes to sleep on the empty queue. *)
Definition asleep : queue nat :=
  match consumer_run nat 5 (canSleep_call nat (ThreadSafeQueue nat)) with
  | Some q => q
  | None => ThreadSafeQueue nat
  end.

Lemma asleep_reachable : reachable nat asleep.
Proof.
  apply (consumer_run_reachable nat 5 (canSleep_call nat (ThreadSafeQueue nat))); [|reflexivity].
  econstructor; [constructor|]. apply step_can_sleep. reflexivity.
Qed.

Lemma tsq_sleep_witness : slept nat asleep = true /\
  (woken nat asleep = true \/
   (contents nat asleep = [] /\ forall v, woken nat (push_exchange nat asleep v) = true)).
Proof.
  split; [reflexivity|]. apply (tsq_sleep nat asleep asleep_reachable). reflexivity.
Defined.
