(* ===== verification/TaskQueue.v ===== *)
(** The run loop's task queue, flow/include/flow/TaskQueue.h: ready tasks and
    timers in priority queues, and tasks from other threads. *)

From Stdlib Require Import ZArith List Bool Lia Permutation.
Import ListNotations.
From S2P Require Import Prelude.
#[local] Open Scope Z_scope.

(** * What the task queue needs of the cross-thread queue *)

(** The operations of [ThreadSafeQueue] as seen by the main thread between
    pushes, and what they promise. *)
Class SafeQueue (Q A : Type) := {
  q_new : Q;
  q_push : Q -> A -> Q * bool;
  q_pop : Q -> Q * option A;
  q_canSleep : Q -> Q * bool;
  q_inv : Q -> Prop;
  q_contents : Q -> list A
}.

Class SafeQueueLaws (Q A : Type) {SQ : SafeQueue Q A} := {
  q_new_ok : q_inv q_new /\ q_contents q_new = [];
  q_push_ok : forall q a, q_inv q ->
    q_inv (fst (q_push q a)) /\ q_contents (fst (q_push q a)) = q_contents q ++ [a];
  q_pop_ok : forall q, q_inv q ->
    q_inv (fst (q_pop q)) /\ snd (q_pop q) = hd_error (q_contents q) /\
    q_contents (fst (q_pop q)) = tl (q_contents q);
  q_canSleep_ok : forall q, q_inv q ->
    q_inv (fst (q_canSleep q)) /\ q_contents (fst (q_canSleep q)) = q_contents q /\
    (snd (q_canSleep q) = true -> q_contents q = [])
}.

(** * Priority queues *)

(** A [std::priority_queue] as the bag of its elements; [top] is an element
    that is not less than any other. *)
Section PriorityQueue.
Context {A : Type} (lt : A -> A -> bool).

Fixpoint extract (x : A) (l : list A) : A * list A :=
  match l with
  | [] => (x, [])
  | y :: l' =>
      if lt x y then let '(m, r) := extract y l' in (m, x :: r)
      else let '(m, r) := extract x l' in (m, y :: r)
  end.

Definition pq_push (x : A) (l : list A) : list A := x :: l.

Definition pq_top (l : list A) : option A :=
  match l with [] => None | x :: l' => Some (fst (extract x l')) end.

(** [pop()] on an empty queue is undefined; the model leaves it empty. *)
Definition pq_pop (l : list A) : list A :=
  match l with [] => [] | x :: l' => snd (extract x l') end.

End PriorityQueue.

(** * The task queue *)

Section TaskQueue.
Context (Task Q : Type) {SQ : SafeQueue Q (Z * Task)}.

(** Time instants ([double]s other than NaN): their order, [now + TIME_EPS] and
    subtraction. *)
Context (time : Type) (time_ltb : time -> time -> bool) (plus_eps : time -> time)
  (time_sub : time -> time -> time) (time_zero : time).

Record OrderedTask := mkOrdered { priority : Z; taskID : Z; task : Task }.

Record DelayedTask := mkDelayed { ordered : OrderedTask; at_ : time }.

Definition ordered_lt (a b : OrderedTask) : bool := priority a <? priority b.

(** [at > rhs.at]: reversed. *)
Definition delayed_lt (a b : DelayedTask) : bool := time_ltb (at_ b) (at_ a).

Record TaskQueue := mkTQ {
  tasksIssued : Z;
  ready : list OrderedTask;
  threadReady : Q;
  timers : list DelayedTask;
  countTimers : Z;
  countCantSleep : Z;
  countWontSleep : Z
}.

Definition TaskQueue_new : TaskQueue := mkTQ 0 [] q_new [] 0 0 0.

(** [(int64_t(taskId) << 32) - (++tasksIssued)]: the subtraction is unsigned
    and its result read as signed. *)
Definition getFIFOPriority (s : TaskQueue) (taskId : Z) : TaskQueue * Z :=
  let n := u64 (tasksIssued s + 1) in
  (mkTQ n (ready s) (threadReady s) (timers s) (countTimers s) (countCantSleep s)
     (countWontSleep s),
   i64 (Z.shiftl taskId 32 - n)).

Definition with_ready (r : list OrderedTask) (s : TaskQueue) : TaskQueue :=
  mkTQ (tasksIssued s) r (threadReady s) (timers s) (countTimers s) (countCantSleep s)
    (countWontSleep s).

Definition with_timers (t : list DelayedTask) (n : Z) (s : TaskQueue) : TaskQueue :=
  mkTQ (tasksIssued s) (ready s) (threadReady s) t n (countCantSleep s) (countWontSleep s).

Definition with_thread (q : Q) (s : TaskQueue) : TaskQueue :=
  mkTQ (tasksIssued s) (ready s) q (timers s) (countTimers s) (countCantSleep s)
    (countWontSleep s).

Definition addReady (s : TaskQueue) (taskId : Z) (t : Task) : TaskQueue :=
  let '(s, p) := getFIFOPriority s taskId in
  with_ready (pq_push (mkOrdered p taskId t) (ready s)) s.

Definition addTimer (s : TaskQueue) (at' : time) (taskId : Z) (t : Task) : TaskQueue :=
  let '(s, p) := getFIFOPriority s taskId in
  with_timers (pq_push (mkDelayed (mkOrdered p taskId t) at') (timers s)) (countTimers s) s.

(** The loop ends when the cross-thread queue is empty; [None] if it has not
    within the fuel. *)
Fixpoint processThreadReady (fuel : nat) (s : TaskQueue) : option TaskQueue :=
  match fuel with
  | O => None
  | S f =>
      let '(q, r) := q_pop (threadReady s) in
      match r with
      | None => Some (with_thread q s)
      | Some (taskId, t) => processThreadReady f (addReady (with_thread q s) taskId t)
      end
  end.

Definition addReadyThreadSafe (fuel : nat) (isMainThread : bool) (s : TaskQueue) (taskId : Z)
  (t : Task) : option (TaskQueue * bool) :=
  if isMainThread then
    option_map (fun s => (addReady s taskId t, false)) (processThreadReady fuel s)
  else
    let '(q, wake) := q_push (threadReady s) (taskId, t) in
    Some (with_thread q s, wake).

Definition canSleep (s : TaskQueue) : TaskQueue * bool :=
  match ready s with
  | [] =>
      let '(q, b) := q_canSleep (threadReady s) in
      if b then (with_thread q s, true)
      else (mkTQ (tasksIssued s) (ready s) q (timers s) (countTimers s) (countCantSleep s + 1)
              (countWontSleep s), false)
  | _ =>
      (mkTQ (tasksIssued s) (ready s) (threadReady s) (timers s) (countTimers s)
         (countCantSleep s) (countWontSleep s + 1), false)
  end.

Definition getSleepTime (s : TaskQueue) (now : time) : time :=
  match pq_top delayed_lt (timers s) with
  | Some d => time_sub (at_ d) now
  | None => time_zero
  end.

(** [timers.top().at <= now + TIME_EPS]. *)
Definition due (now : time) (d : DelayedTask) : bool := negb (time_ltb (plus_eps now) (at_ d)).

Fixpoint processReadyTimers (fuel : nat) (s : TaskQueue) (now : time) : option TaskQueue :=
  match fuel with
  | O => None
  | S f =>
      match pq_top delayed_lt (timers s) with
      | Some d =>
          if due now d then
            processReadyTimers f
              (with_ready (pq_push (ordered d) (ready s))
                 (with_timers (pq_pop delayed_lt (timers s)) (countTimers s + 1) s)) now
          else Some s
      | None => Some s
      end
  end.

Definition hasReadyTask (s : TaskQueue) : bool := negb (match ready s with [] => true | _ => false end).
Definition getNumReadyTasks (s : TaskQueue) : Z := Z.of_nat (length (ready s)).
Definition getReadyTaskID (s : TaskQueue) : option Z := option_map taskID (pq_top ordered_lt (ready s)).
Definition getReadyTaskPriority (s : TaskQueue) : option Z :=
  option_map priority (pq_top ordered_lt (ready s)).
Definition getReadyTask (s : TaskQueue) : option Task := option_map task (pq_top ordered_lt (ready s)).
Definition popReadyTask (s : TaskQueue) : TaskQueue := with_ready (pq_pop ordered_lt (ready s)) s.

(** [clear()] of a build without the address sanitizer. *)
Definition clear (s : TaskQueue) : TaskQueue := with_ready [] (with_timers [] (countTimers s) s).

End TaskQueue.

(** TaskQueue: order of the ready tasks, timers, and draining of the
    cross-thread queue, against the interface of that queue. *)

(** * Priority queues *)

(** A strict weak order, as [std::priority_queue] requires. *)
Class WeakOrder {A : Type} (lt : A -> A -> bool) := {
  wo_asym : forall a b, lt a b = true -> lt b a = false;
  wo_ntrans : forall a b c, lt a b = false -> lt b c = false -> lt a c = false
}.

Section PQ.
Context {A : Type} (lt : A -> A -> bool) {WO : WeakOrder lt}.

Lemma extract_perm l : forall x, Permutation (x :: l) (fst (extract lt x l) :: snd (extract lt x l)).
Proof.
  induction l as [|y l IH]; intros x; cbn [extract]; [reflexivity|].
  destruct (lt x y).
  - specialize (IH y). destruct (extract lt y l) as [m r]. cbn [fst snd] in *.
    rewrite IH. apply perm_swap.
  - specialize (IH x). destruct (extract lt x l) as [m r]. cbn [fst snd] in *.
    rewrite (perm_swap y x l), IH. apply perm_swap.
Qed.

Lemma wo_irrefl a : lt a a = false.
Proof. destruct (lt a a) eqn:E; [|reflexivity]. rewrite (wo_asym a a E) in E. discriminate. Qed.

(** The extracted element is not less than the seed nor than any other. *)
Lemma extract_max l : forall x, lt (fst (extract lt x l)) x = false /\
  Forall (fun y => lt (fst (extract lt x l)) y = false) (snd (extract lt x l)).
Proof.
  induction l as [|y l IH]; intros x; cbn [extract].
  - cbn. split; [apply wo_irrefl|constructor].
  - destruct (lt x y) eqn:E.
    + destruct (IH y) as [A1 A2]. destruct (extract lt y l) as [m r]. cbn [fst snd] in *.
      assert (B : lt m x = false) by (apply (wo_ntrans _ y); [exact A1|now apply wo_asym]).
      auto.
    + destruct (IH x) as [A1 A2]. destruct (extract lt x l) as [m r]. cbn [fst snd] in *.
      split; [exact A1|]. constructor; [|exact A2]. now apply (wo_ntrans _ x).
Qed.

Lemma pq_top_spec l t : pq_top lt l = Some t ->
  Permutation l (t :: pq_pop lt l) /\ Forall (fun y => lt t y = false) (pq_pop lt l).
Proof.
  destruct l as [|x l]; [discriminate|]. cbn [pq_top pq_pop]. intros [= <-].
  split; [apply extract_perm|apply extract_max].
Qed.

Lemma pq_top_some l : l <> [] -> exists t, pq_top lt l = Some t.
Proof. destruct l; [contradiction|]. cbn. eauto. Qed.

End PQ.

Section Proofs.
Context (Task Q : Type) {SQ : SafeQueue Q (Z * Task)} {SL : SafeQueueLaws Q (Z * Task)}.
Context (time : Type) (time_ltb : time -> time -> bool) (plus_eps : time -> time).
Context {TO : WeakOrder time_ltb}.

Abbreviation tq := (TaskQueue Task Q time).
Abbreviation otask := (OrderedTask Task).

#[local] Instance ordered_wo : WeakOrder (ordered_lt Task).
Proof.
  constructor; unfold ordered_lt; intros *; zcases; lia || congruence || auto.
Qed.

#[local] Instance delayed_wo : WeakOrder (delayed_lt Task time time_ltb).
Proof.
  constructor; unfold delayed_lt.
  - intros a b H. now apply wo_asym.
  - intros a b c H H'. eapply wo_ntrans; eauto.
Qed.

(** * Operations and their specification *)

Inductive op :=
| OReady (i : Z) (t : Task)
| OTimer (a : time) (i : Z) (t : Task)
| OThread (isMainThread : bool) (i : Z) (t : Task)
| OCanSleep
| OTimers (now : time)
| ODrain
| OPop.

(** The specification has no keys: an entry remembers how many tasks had been
    issued, itself included, when it was. *)
Record entry := mkEntry { e_number : Z; e_id : Z; e_task : Task }.

Record spec := mkSpec {
  sp_count : Z;
  sp_ready : list entry;
  sp_timers : list (time * entry);
  sp_thread : list (Z * Task)
}.

Definition spec_new : spec := mkSpec 0 [] [] [].

Definition spec_issue (a : spec) (i : Z) (t : Task) : entry := mkEntry (sp_count a + 1) i t.

Definition spec_add (a : spec) (p : Z * Task) : spec :=
  mkSpec (sp_count a + 1) (spec_issue a (fst p) (snd p) :: sp_ready a) (sp_timers a) (sp_thread a).

(** The tasks of other threads are issued when they are drained, in the order of
    their pushes. *)
Definition spec_drain (a : spec) : spec :=
  fold_left spec_add (sp_thread a) (mkSpec (sp_count a) (sp_ready a) (sp_timers a) []).

Definition expired (now : time) (x : time * entry) : bool := negb (time_ltb (plus_eps now) (fst x)).

(** [x] waits for [e]: its task priority is lower, or the same and it was issued
    later. *)
Definition after (e x : entry) : Prop :=
  e_id x < e_id e \/ (e_id x = e_id e /\ e_number e < e_number x).

(** One operation, with the tasks it hands out. *)
Inductive spec_step (a : spec) : op -> list Task -> spec -> Prop :=
| sp_add i t : spec_step a (OReady i t) [] (spec_add a (i, t))
| sp_timer w i t : spec_step a (OTimer w i t) []
    (mkSpec (sp_count a + 1) (sp_ready a) ((w, spec_issue a i t) :: sp_timers a) (sp_thread a))
| sp_main i t : spec_step a (OThread true i t) [] (spec_add (spec_drain a) (i, t))
| sp_other i t : spec_step a (OThread false i t) []
    (mkSpec (sp_count a) (sp_ready a) (sp_timers a) (sp_thread a ++ [(i, t)]))
| sp_sleep : spec_step a OCanSleep [] a
| sp_expire now : spec_step a (OTimers now) []
    (mkSpec (sp_count a) (map snd (filter (expired now) (sp_timers a)) ++ sp_ready a)
       (filter (fun x => negb (expired now x)) (sp_timers a)) (sp_thread a))
| sp_drained : spec_step a ODrain [] (spec_drain a)
| sp_pop_none : sp_ready a = [] -> spec_step a OPop [] a
| sp_pop e r : Permutation (sp_ready a) (e :: r) -> Forall (after e) r ->
    spec_step a OPop [e_task e] (mkSpec (sp_count a) r (sp_timers a) (sp_thread a)).

Inductive spec_run : spec -> list op -> list Task -> spec -> Prop :=
| sr_nil a : spec_run a [] [] a
| sr_cons a o l out a1 out1 a2 : spec_step a o out a1 -> spec_run a1 l out1 a2 ->
    spec_run a (o :: l) (out ++ out1) a2.

(** * Invariant of the specification *)

Definition id_ok (i : Z) : Prop := 0 <= i < 2 ^ 30.

Definition op_ok (o : op) : Prop :=
  match o with OReady i _ | OTimer _ i _ | OThread _ i _ => id_ok i | _ => True end.

Definition entries (a : spec) : list entry := sp_ready a ++ map snd (sp_timers a).

(** Entries have different numbers, none above the counter. *)
Record spec_ok (a : spec) : Prop := {
  so_count : 0 <= sp_count a < 2 ^ 32;
  so_entries : Forall (fun e => id_ok (e_id e) /\ 0 < e_number e <= sp_count a) (entries a);
  so_once : NoDup (map e_number (entries a));
  so_thread : Forall (fun p => id_ok (fst p)) (sp_thread a)
}.

Lemma spec_ok_issue a i t r ts q : spec_ok a -> id_ok i -> sp_count a + 1 < 2 ^ 32 ->
  Permutation (r ++ map snd ts) (spec_issue a i t :: entries a) -> Forall (fun p => id_ok (fst p)) q ->
  spec_ok (mkSpec (sp_count a + 1) r ts q).
Proof.
  intros [] Hi Hc P Hq. constructor; unfold entries in *; cbn [sp_count sp_ready sp_timers sp_thread] in *; auto; [lia|..].
  - rewrite P. constructor; [cbn; split; [exact Hi|lia]|].
    eapply Forall_impl; [|exact so_entries0]. intros e [A B]. split; [exact A|lia].
  - rewrite P. cbn [map]. constructor; [|exact so_once0]. intros I. apply in_map_iff in I as (e & E & He).
    rewrite Forall_forall in so_entries0. specialize (so_entries0 e He). cbn in E. lia.
Qed.

Lemma spec_ok_add a i t : spec_ok a -> id_ok i -> sp_count a + 1 < 2 ^ 32 -> spec_ok (spec_add a (i, t)).
Proof. intros H Hi Hc. apply (spec_ok_issue a i t); auto. apply H. Qed.

Lemma spec_ok_part a b : spec_ok a -> sp_count b = sp_count a -> (exists l, Permutation (entries a) (l ++ entries b)) ->
  Forall (fun p => id_ok (fst p)) (sp_thread b) -> spec_ok b.
Proof.
  intros [] E (l & P) Q'. rewrite P in so_entries0. rewrite P, map_app in so_once0.
  apply Forall_app in so_entries0. apply NoDup_app_remove_l in so_once0.
  constructor; rewrite ?E; tauto.
Qed.

(** * Refinement *)

(** The key of an entry: [(taskId << 32) - n]. *)
Definition keyed (e : entry) : otask := mkOrdered Task (e_id e * 2 ^ 32 - e_number e) (e_id e) (e_task e).
Definition keyed_timer (x : time * entry) : DelayedTask Task time := mkDelayed Task time (keyed (snd x)) (fst x).

Record refines (s : tq) (a : spec) : Prop := {
  rf_count : tasksIssued Task Q time s = sp_count a;
  rf_ready : Permutation (ready Task Q time s) (map keyed (sp_ready a));
  rf_timers : Permutation (timers Task Q time s) (map keyed_timer (sp_timers a));
  rf_queue : q_inv (threadReady Task Q time s);
  rf_thread : q_contents (threadReady Task Q time s) = sp_thread a
}.

(** A state of the task queue that stands for one of the specification. *)
Definition tq_ok (s : tq) : Prop := exists a, refines s a /\ spec_ok a.

Lemma fifo_priority (s : tq) i : id_ok i -> 0 <= tasksIssued Task Q time s ->
  tasksIssued Task Q time s + 1 < 2 ^ 32 ->
  getFIFOPriority Task Q time s i =
    (mkTQ Task Q time (tasksIssued Task Q time s + 1) (ready Task Q time s)
       (threadReady Task Q time s) (timers Task Q time s) (countTimers Task Q time s)
       (countCantSleep Task Q time s) (countWontSleep Task Q time s),
     i * 2 ^ 32 - (tasksIssued Task Q time s + 1)).
Proof.
  intros Hi H0 H. unfold getFIFOPriority, id_ok in *. rewrite wrap_id by lia. f_equal.
  rewrite Z.shiftl_mul_pow2 by lia. unfold swrap. rewrite Z.mod_small; lia.
Qed.

Lemma addReady_refines s a i t : refines s a -> spec_ok a -> id_ok i -> sp_count a + 1 < 2 ^ 32 ->
  refines (addReady Task Q time s i t) (spec_add a (i, t)).
Proof.
  intros [] [] Hi Hc. unfold addReady. rewrite fifo_priority by (rewrite ?rf_count0; auto; lia).
  constructor; cbn; auto; [lia|]. rewrite rf_count0. now constructor.
Qed.

Lemma addTimer_refines s a w i t : refines s a -> spec_ok a -> id_ok i -> sp_count a + 1 < 2 ^ 32 ->
  refines (addTimer Task Q time s w i t)
    (mkSpec (sp_count a + 1) (sp_ready a) ((w, spec_issue a i t) :: sp_timers a) (sp_thread a)).
Proof.
  intros [] [] Hi Hc. unfold addTimer. rewrite fifo_priority by (rewrite ?rf_count0; auto; lia).
  constructor; cbn; auto; [lia|]. rewrite rf_count0. now constructor.
Qed.

Lemma with_thread_refines s a q : refines s a -> q_inv q ->
  refines (with_thread Task Q time q s) (mkSpec (sp_count a) (sp_ready a) (sp_timers a) (q_contents q)).
Proof. intros [] Hq. now constructor. Qed.

(** * Draining the cross-thread queue *)

Definition add_all (s : tq) (l : list (Z * Task)) : tq :=
  fold_left (fun s p => addReady Task Q time s (fst p) (snd p)) l s.

Lemma add_all_thread q l : forall s, ready Task Q time (add_all (with_thread Task Q time q s) l) =
  ready Task Q time (add_all s l).
Proof.
  induction l as [|[i t] l IH]; intros s; [reflexivity|]. unfold add_all in *. cbn [fold_left].
  exact (IH (addReady Task Q time s i t)).
Qed.

(** The specification issues one task more: the rest of the drain is the drain
    of what remains. *)
Lemma spec_drain_cons a p l : sp_thread a = p :: l ->
  spec_drain a = spec_drain (spec_add (mkSpec (sp_count a) (sp_ready a) (sp_timers a) l) p).
Proof. intros E. unfold spec_drain. now rewrite E. Qed.

Lemma spec_drain_ok n : forall a, spec_ok a -> length (sp_thread a) = n -> sp_count a + Z.of_nat n < 2 ^ 32 ->
  spec_ok (spec_drain a) /\ sp_count (spec_drain a) = sp_count a + Z.of_nat n /\ sp_thread (spec_drain a) = [].
Proof.
  induction n as [|n IH]; intros a H L C; destruct (sp_thread a) as [|[i t] l] eqn:E; cbn in L; try lia.
  - unfold spec_drain. rewrite E. cbn. split; [|split; [lia|reflexivity]].
    eapply spec_ok_part; [exact H|reflexivity|exists []; reflexivity|constructor].
  - rewrite (spec_drain_cons a (i, t) l E). pose proof (so_thread a H) as T. rewrite E in T.
    apply Forall_cons_iff in T as [Ti Tl]. cbn [fst] in Ti.
    destruct (IH (spec_add (mkSpec (sp_count a) (sp_ready a) (sp_timers a) l) (i, t))) as (A & B & D).
    + apply spec_ok_add; [|exact Ti|cbn; lia]. eapply spec_ok_part; [exact H|reflexivity|exists []; reflexivity|exact Tl].
    + cbn. lia.
    + cbn. lia.
    + change (sp_count (spec_add _ _)) with (sp_count a + 1) in B. split; [exact A|]. split; [lia|exact D].
Qed.

Lemma processThreadReady_ok n : forall fuel s a, refines s a -> spec_ok a ->
  length (sp_thread a) = n -> (n < fuel)%nat -> sp_count a + Z.of_nat n < 2 ^ 32 ->
  exists s', processThreadReady Task Q time fuel s = Some s' /\ refines s' (spec_drain a) /\
    ready Task Q time s' = ready Task Q time (add_all s (sp_thread a)) /\
    timers Task Q time s' = timers Task Q time s.
Proof.
  induction n as [|n IH]; intros [|f] s a R H L F C; try lia; cbn [processThreadReady];
    destruct (q_pop_ok (threadReady Task Q time s) (rf_queue s a R)) as (Qi & Qr & Qc);
    destruct (q_pop (threadReady Task Q time s)) as [q r]; cbn [fst snd] in *;
    rewrite (rf_thread s a R) in Qr, Qc; pose proof (with_thread_refines s a q R Qi) as R1; rewrite Qc in R1;
    destruct (sp_thread a) as [|[i t] l] eqn:E; cbn in L; try lia; cbn [hd_error tl] in *; subst r.
  - exists (with_thread Task Q time q s). unfold spec_drain. rewrite E. auto.
  - pose proof (so_thread a H) as T. rewrite E in T. apply Forall_cons_iff in T as [Ti Tl]. cbn [fst] in Ti.
    set (a1 := mkSpec (sp_count a) (sp_ready a) (sp_timers a) l) in *.
    assert (H1 : spec_ok a1) by (eapply spec_ok_part; [exact H|reflexivity|exists []; reflexivity|exact Tl]).
    destruct (IH f (addReady Task Q time (with_thread Task Q time q s) i t) (spec_add a1 (i, t))) as (s' & P & R' & Rd & Tm).
    + apply addReady_refines; auto. unfold a1. cbn. lia.
    + apply spec_ok_add; auto. unfold a1. cbn. lia.
    + cbn. lia.
    + lia.
    + unfold a1. cbn. lia.
    + exists s'. rewrite (spec_drain_cons a (i, t) l E). split; [exact P|]. split; [exact R'|].
      rewrite Rd, Tm. split; [|reflexivity]. cbn [spec_add sp_thread a1].
      change (addReady Task Q time (with_thread Task Q time q s) i t)
        with (with_thread Task Q time q (addReady Task Q time s i t)).
      now rewrite add_all_thread.
Qed.

(** * Timers *)

Lemma due_mono now d d' : delayed_lt Task time time_ltb d d' = false ->
  due Task time time_ltb plus_eps now d = false -> due Task time time_ltb plus_eps now d' = false.
Proof.
  unfold due, delayed_lt. rewrite !negb_false_iff. intros L D.
  destruct (time_ltb (plus_eps now) (at_ Task time d')) eqn:E; [reflexivity|].
  rewrite (wo_ntrans _ _ _ E L) in D. discriminate.
Qed.

Definition countb {A} (f : A -> bool) (l : list A) : Z := Z.of_nat (length (filter f l)).

Lemma filter_perm {A} (f : A -> bool) l l' : Permutation l l' ->
  Permutation (filter f l) (filter f l').
Proof.
  induction 1 as [|x l l' P IH|x y l|l1 l2 l3 P1 IH1 P2 IH2]; cbn; auto.
  - destruct (f x); auto.
  - destruct (f x), (f y); auto. apply perm_swap.
  - etransitivity; eauto.
Qed.

Lemma processReadyTimers_spec now n : forall fuel (s : tq),
  length (timers Task Q time s) = n -> (n < fuel)%nat ->
  let isdue := due Task time time_ltb plus_eps now in
  exists s', processReadyTimers Task Q time time_ltb plus_eps fuel s now = Some s' /\
    Permutation (ready Task Q time s')
      (map (ordered Task time) (filter isdue (timers Task Q time s)) ++ ready Task Q time s) /\
    Permutation (timers Task Q time s') (filter (fun d => negb (isdue d)) (timers Task Q time s)) /\
    countTimers Task Q time s' = countTimers Task Q time s + countb isdue (timers Task Q time s) /\
    tasksIssued Task Q time s' = tasksIssued Task Q time s /\
    threadReady Task Q time s' = threadReady Task Q time s.
Proof.
  induction n as [|n IH]; intros [|f] s L F isdue; try lia; cbn [processReadyTimers].
  - destruct (timers Task Q time s) eqn:E; [|discriminate]. cbn [pq_top].
    exists s. rewrite E. cbn. repeat split; auto. unfold countb. cbn. lia.
  - destruct (timers Task Q time s) as [|d0 l0] eqn:E0; [discriminate|]. rewrite <- E0 in *.
    destruct (pq_top_some (delayed_lt Task time time_ltb) (timers Task Q time s)) as (d & Td);
      [congruence|].
    rewrite Td. destruct (pq_top_spec _ _ _ Td) as [P M].
    assert (Pf : forall g, Permutation (filter g (timers Task Q time s))
                   (filter g (d :: pq_pop (delayed_lt Task time time_ltb) (timers Task Q time s))))
      by (intros; now apply filter_perm).
    set (rest := pq_pop (delayed_lt Task time time_ltb) (timers Task Q time s)) in *.
    assert (Cn : countb isdue (timers Task Q time s) = countb isdue (d :: rest))
      by (unfold countb; now rewrite (Permutation_length (Pf isdue))).
    assert (Ln : length rest = n) by (apply Permutation_length in P; cbn in P; lia).
    destruct (due Task time time_ltb plus_eps now d) eqn:D; fold isdue in D.
    + edestruct (IH f) as (s' & R & Pr & Pt & Ct & Ci & Ch); [| |exists s'; split; [exact R|]].
      * cbn. exact Ln.
      * lia.
      * cbn [with_ready with_timers ready timers countTimers tasksIssued threadReady] in *.
        rewrite (Pf isdue), (Pf (fun d => negb (isdue d))), Cn. unfold countb in *.
        cbn [filter]. rewrite D. cbn [negb map app length].
        split; [|split; [exact Pt|split; [unfold isdue in *; lia|auto]]].
        rewrite Pr. symmetry. apply Permutation_middle.
    + exists s. split; [reflexivity|].
      rewrite (Pf isdue), (Pf (fun d => negb (isdue d))), Cn. unfold countb.
      cbn [filter]. rewrite D. cbn [negb].
      assert (Z : filter isdue rest = []).
      { clear - M D TO. induction M as [|x r Mx Mr IHr]; [reflexivity|]. cbn.
        unfold isdue at 1. rewrite (due_mono now d x Mx D). exact IHr. }
      assert (Z' : filter (fun d => negb (isdue d)) rest = rest).
      { clear - M D TO. induction M as [|x r Mx Mr IHr]; [reflexivity|]. cbn.
        unfold isdue at 1. rewrite (due_mono now d x Mx D). cbn. now rewrite IHr. }
      rewrite Z, Z'. cbn. repeat split; auto. lia.
Qed.

(** * Runs *)

(** The loops are given one turn more than they have elements to move. *)
Definition drain_fuel (s : tq) : nat := S (length (q_contents (threadReady Task Q time s))).

(** One operation on the task queue; a pop hands out the top task. *)
Definition apply (s : tq) (o : op) : option (tq * list Task) :=
  match o with
  | OReady i t => Some (addReady Task Q time s i t, [])
  | OTimer a i t => Some (addTimer Task Q time s a i t, [])
  | OThread m i t =>
      option_map (fun r => (fst r, [])) (addReadyThreadSafe Task Q time (drain_fuel s) m s i t)
  | OCanSleep => Some (fst (canSleep Task Q time s), [])
  | OTimers now =>
      option_map (fun s' => (s', []))
        (processReadyTimers Task Q time time_ltb plus_eps (S (length (timers Task Q time s))) s now)
  | ODrain => option_map (fun s' => (s', [])) (processThreadReady Task Q time (drain_fuel s) s)
  | OPop =>
      Some (popReadyTask Task Q time s, match getReadyTask Task Q time s with Some t => [t] | None => [] end)
  end.

Fixpoint run (s : tq) (l : list op) : option (tq * list Task) :=
  match l with
  | [] => Some (s, [])
  | o :: l' =>
      match apply s o with
      | Some (s1, out) => match run s1 l' with Some (s2, out') => Some (s2, out ++ out') | None => None end
      | None => None
      end
  end.

(** Tasks issued, and those that will be when they are drained. *)
Definition load (a : spec) : Z := sp_count a + Z.of_nat (length (sp_thread a)).

Definition op_load (o : op) : Z :=
  match o with OReady _ _ | OTimer _ _ _ | OThread _ _ _ => 1 | _ => 0 end.

Lemma filter_split {A} (f : A -> bool) l :
  Permutation l (filter f l ++ filter (fun x => negb (f x)) l).
Proof.
  induction l as [|x l IH]; cbn; [reflexivity|]. destruct (f x); cbn; [now rewrite IH at 1|].
  rewrite IH at 1. apply Permutation_middle.
Qed.

Lemma filter_keyed f g l : (forall x, f (keyed_timer x) = g x) ->
  filter f (map keyed_timer l) = map keyed_timer (filter g l).
Proof. intros E. induction l as [|x l IH]; cbn; [reflexivity|]. rewrite E, IH. now destruct (g x). Qed.

Lemma timers_refines s a now : refines s a -> spec_ok a ->
  exists s' a', apply s (OTimers now) = Some (s', []) /\ spec_step a (OTimers now) [] a' /\
    refines s' a' /\ spec_ok a' /\ load a' = load a.
Proof.
  intros R H. destruct (processReadyTimers_spec now _ _ s eq_refl (Nat.lt_succ_diag_r _))
    as (s' & E & Pr & Pt & _ & Ci & Ch).
  exists s'. eexists. cbn [apply]. rewrite E. split; [reflexivity|]. split; [constructor|]. destruct R as [Rc Rr Rt Rq Rh].
  rewrite (filter_perm _ _ _ Rt) in Pr. rewrite (filter_perm _ _ _ Rt) in Pt.
  rewrite (filter_keyed _ (expired now)) in Pr by reflexivity.
  rewrite (filter_keyed _ (fun x => negb (expired now x))) in Pt by reflexivity. split; [|split; [|reflexivity]].
  - constructor; cbn [sp_count sp_ready sp_timers sp_thread]; rewrite ?Ch; auto; [congruence|].
    rewrite Pr, Rr, map_app, !map_map. reflexivity.
  - eapply spec_ok_part; [exact H|reflexivity| |apply H]. exists []. unfold entries. cbn [app sp_ready sp_timers].
    rewrite (filter_split (expired now) (sp_timers a)) at 1.
    rewrite map_app, <- app_assoc, Permutation_app_comm, <- app_assoc. apply Permutation_app_head, Permutation_app_comm.
Qed.

(** Among entries of different numbers below 2^32 the keys order by task
    priority first and by number second. *)
Lemma keyed_after a e x : spec_ok a -> In e (entries a) -> In x (entries a) -> e_number e <> e_number x ->
  ordered_lt Task (keyed e) (keyed x) = false -> after e x.
Proof.
  intros [] He Hx N L. rewrite Forall_forall in so_entries0. pose proof (so_entries0 e He). pose proof (so_entries0 x Hx).
  unfold ordered_lt, after, id_ok in *. apply Z.ltb_ge in L. cbn in L. lia.
Qed.

Lemma pop_refines s a : refines s a -> spec_ok a ->
  exists s' out a', apply s OPop = Some (s', out) /\ spec_step a OPop out a' /\ refines s' a' /\ spec_ok a' /\ load a' = load a.
Proof.
  intros R H. cbn [apply]. unfold getReadyTask. destruct (sp_ready a) as [|e0 r0] eqn:E.
  - assert (E0 : ready Task Q time s = []).
    { apply Permutation_nil. rewrite (rf_ready s a R), E. reflexivity. }
    rewrite E0. do 3 eexists. split; [reflexivity|]. split; [now apply sp_pop_none|].
    split; [|split; [exact H|reflexivity]]. destruct R. constructor; cbn; rewrite ?E0; auto. now rewrite E.
  - destruct (pq_top_some (ordered_lt Task) (ready Task Q time s)) as (t & Tt).
    { intros E0. pose proof (rf_ready s a R) as P. rewrite E0, E in P. now apply Permutation_nil_cons in P. }
    rewrite Tt. cbn [option_map]. destruct (pq_top_spec _ _ _ Tt) as [P M].
    pose proof (rf_ready s a R) as P2. rewrite P in P2. apply Permutation_map_inv in P2 as (l3 & El & Pl).
    destruct l3 as [|e r]; [discriminate|]. injection El as Et Er. rewrite Er in M. subst t.
    assert (Pe : Permutation (entries a) (e :: r ++ map snd (sp_timers a))) by (unfold entries; now rewrite Pl).
    pose proof (so_once a H) as O. rewrite Pe in O. cbn [map] in O. inversion O as [|? ? Ne _]; subst.
    do 3 eexists. split; [reflexivity|]. split; [apply (sp_pop a e r)|split; [|split; [|reflexivity]]].
    + exact Pl.
    + rewrite Forall_map in M. rewrite Forall_forall in *. intros x Hx. apply (keyed_after a); auto.
      * rewrite Pe. now left.
      * rewrite Pe. right. apply in_app_iff. now left.
      * intros En. apply Ne. rewrite En, map_app. apply in_app_iff. left. now apply in_map.
    + destruct R. constructor; cbn; auto. now rewrite Er.
    + eapply spec_ok_part; [exact H|reflexivity|exists [e]; exact Pe|apply H].
Qed.

Lemma apply_refines s a o : refines s a -> spec_ok a -> op_ok o -> load a + op_load o < 2 ^ 32 ->
  exists s' out a', apply s o = Some (s', out) /\ spec_step a o out a' /\
    refines s' a' /\ spec_ok a' /\ load a' = load a + op_load o.
Proof.
  intros R H K L. pose proof (spec_drain_ok _ a H eq_refl) as D. unfold load in *.
  assert (Lf : drain_fuel s = S (length (sp_thread a))) by (unfold drain_fuel; now rewrite (rf_thread s a R)).
  pose proof (fun l => processThreadReady_ok _ (drain_fuel s) s a R H eq_refl l) as Pt. rewrite Lf in Pt.
  destruct o as [i t|w i t|[] i t| |now| |]; cbn [apply op_ok op_load] in *.
  - do 3 eexists. split; [reflexivity|]. split; [constructor|].
    split; [apply addReady_refines; auto; lia|]. split; [apply spec_ok_add; auto; lia|cbn; lia].
  - do 3 eexists. split; [reflexivity|]. split; [constructor|].
    split; [apply addTimer_refines; auto; lia|]. split; [|cbn; lia].
    apply (spec_ok_issue a i t); auto; [lia| |apply H]. cbn. symmetry. apply Permutation_middle.
  - destruct (Pt ltac:(lia) ltac:(lia)) as (s1 & E & R1 & _). destruct D as (H1 & C1 & T1); [lia|].
    unfold addReadyThreadSafe. rewrite Lf, E. do 3 eexists. split; [reflexivity|]. split; [constructor|].
    split; [apply addReady_refines; auto; lia|]. split; [apply spec_ok_add; auto; lia|cbn; rewrite T1; cbn; lia].
  - unfold addReadyThreadSafe.
    destruct (q_push_ok (threadReady Task Q time s) (i, t) (rf_queue s a R)) as [A B].
    destruct (q_push (threadReady Task Q time s) (i, t)) as [q w]. cbn [fst] in *.
    do 3 eexists. split; [reflexivity|]. split; [constructor|]. pose proof (with_thread_refines s a q R A) as R1.
    rewrite B, (rf_thread s a R) in R1. split; [exact R1|].
    split; [|cbn; rewrite length_app; cbn; lia].
    eapply spec_ok_part; [exact H|reflexivity|exists []; reflexivity|]. apply Forall_app. split; [apply H|auto].
  - do 3 eexists. split; [reflexivity|]. split; [constructor|]. split; [|split; [exact H|lia]]. unfold canSleep.
    destruct (ready Task Q time s) eqn:Er; [|destruct R; constructor; cbn; rewrite <- ?Er; auto].
    destruct (q_canSleep_ok (threadReady Task Q time s) (rf_queue s a R)) as (A & B & _).
    destruct (q_canSleep (threadReady Task Q time s)) as [q b]. cbn [fst] in *.
    destruct b; destruct R; constructor; cbn; rewrite <- ?Er; auto; congruence.
  - destruct (timers_refines s a now R H) as (s' & a' & E & S & R' & H' & L'). cbn [apply] in E. unfold load in L'.
    exists s', [], a'. repeat split; auto; try apply R'; try apply H'. lia.
  - destruct (Pt ltac:(lia) ltac:(lia)) as (s1 & E & R1 & _). destruct D as (H1 & C1 & T1); [lia|].
    rewrite Lf, E. do 3 eexists. split; [reflexivity|]. split; [constructor|]. split; [exact R1|]. split; [exact H1|].
    rewrite C1, T1. cbn. lia.
  - destruct (pop_refines s a R H) as (s' & out & a' & E & S & R' & H' & L'). cbn [apply] in E. unfold load in L'.
    exists s', out, a'. repeat split; auto; try apply R'; try apply H'. lia.
Qed.

Fixpoint ops_load (l : list op) : Z :=
  match l with [] => 0 | o :: l' => op_load o + ops_load l' end.

Lemma ops_load_nonneg l : 0 <= ops_load l.
Proof. induction l as [|o l IH]; cbn [ops_load]; [lia|]. destruct o; cbn [op_load]; lia. Qed.

Lemma tq_run_refines l : forall s a, refines s a -> spec_ok a -> Forall op_ok l -> load a + ops_load l < 2 ^ 32 ->
  exists s' out a', run s l = Some (s', out) /\ spec_run a l out a' /\ refines s' a'.
Proof.
  induction l as [|o l IH]; intros s a R H K L; cbn [run ops_load] in *; [exists s, [], a; repeat split; auto; constructor || apply R|].
  pose proof (ops_load_nonneg l).
  destruct (apply_refines s a o R H (Forall_inv K)) as (s1 & o1 & a1 & E & S1 & R1 & H1 & L1); [lia|].
  destruct (IH s1 a1 R1 H1 (Forall_inv_tail K)) as (s2 & o2 & a2 & E2 & S2 & R2); [lia|].
  rewrite E, E2. exists s2, (o1 ++ o2), a2. split; [reflexivity|]. split; [econstructor; eauto|exact R2].
Qed.

Lemma refines_new : refines (TaskQueue_new Task Q time) spec_new /\ spec_ok spec_new.
Proof.
  destruct q_new_ok as [A B]. split; constructor; cbn; auto; try constructor; lia.
Qed.

End Proofs.
