(* ===== verification/TaskQueueTheorems.v ===== *)
(** ThreadSafeQueue as the cross-thread queue of TaskQueue, and the properties
    of the task queue. *)

From Stdlib Require Import ZArith List Bool Lia Permutation.
Import ListNotations.
From S2P Require Import Prelude.
From S2P Require Import ThreadSafeQueue.
From S2P Require Import ThreadSafeQueueProofs.
From S2P Require Import TaskQueue.
#[local] Open Scope nat_scope.

(** * ThreadSafeQueue as the cross-thread queue *)

Section Thread.
Context (A : Type).

(** Between the calls of the main thread no push is half done. *)
Definition quiet (q : queue A) : Prop :=
  inv A q /\ pc A q = Idle /\ producers A q = [].

Definition run_or (fuel : nat) (q : queue A) : queue A :=
  match consumer_run A fuel q with Some q' => q' | None => q end.

#[export] Instance tsq_queue : SafeQueue (queue A) A := {
  q_new := ThreadSafeQueue A;
  q_push q a :=
    let q1 := push_exchange A q a in
    (push_link A q1 (head A q, head A q1), node_eqb (head A q) Sleeping);
  q_pop q :=
    let q' := run_or 15 (pop_call A q) in
    (q', nth_error (popped A q') (length (popped A q)));
  q_canSleep q :=
    let q' := run_or 5 (canSleep_call A q) in (q', slept A q');
  q_inv := quiet;
  q_contents := contents A
}.

Lemma pop_return_producers b r q : producers A (pop_return A b r q) = producers A q.
Proof.
  destruct r as [[| |i]|]; cbn; auto; [destruct b; reflexivity|].
  destruct (nth_error (pushed A q) i); reflexivity.
Qed.

Lemma consumer_step_producers q q' : consumer_step A q = Some q' -> producers A q' = producers A q.
Proof.
  unfold consumer_step. destruct (pc A q); try discriminate;
    repeat match goal with
    | |- context [match ?x with _ => _ end] => destruct x
    end; intros H;
    apply (f_equal (fun o => match o with Some x => producers A x | None => [] end)) in H;
    cbv beta iota in H; rewrite <- H, ?pop_return_producers; reflexivity.
Qed.

Lemma steps_producers k : forall q q', steps A k q = Some q' -> producers A q' = producers A q.
Proof.
  induction k as [|k IH]; intros q q' H; cbn [steps] in H; [now injection H as <-|].
  destruct (consumer_step A q) as [q1|] eqn:E; [|discriminate].
  rewrite (IH q1 q' H). now apply consumer_step_producers.
Qed.

Lemma push_quiet q a : quiet q ->
  quiet (fst (q_push q a)) /\ contents A (fst (q_push q a)) = contents A q ++ [a].
Proof.
  intros (I & P & N). cbn [q_push tsq_queue fst]. split; [split; [|split]|].
  - apply (step_inv A (push_exchange A q a)); [apply (step_inv A q); [exact I|constructor]|].
    constructor. cbn. auto.
  - exact P.
  - cbn [push_link push_exchange producers head]. rewrite N. cbn [remove].
    match goal with |- context [pair_eq_dec ?x ?y] => destruct (pair_eq_dec x y) end;
      [reflexivity|contradiction].
  - destruct I as (c & H). pose proof (chain_popped_le A q c H). unfold contents. cbn.
    rewrite skipn_app. replace (length (popped A q) - length (pushed A q)) with 0 by lia. reflexivity.
Qed.

Lemma pop_quiet_run q : quiet q -> exists q', consumer_run A 15 (pop_call A q) = Some q' /\
  quiet q' /\ pushed A q' = pushed A q /\ popped A q' = popped A q ++ firstn 1 (contents A q).
Proof.
  intros (I & P & N).
  assert (I1 : inv A (pop_call A q)) by (apply (step_inv A q); [exact I|now constructor]).
  destruct (pop_quiet A (pop_call A q) I1 N eq_refl) as (k & q' & K & S & Id & Pu & Po).
  exists q'. split.
  - replace 15 with (k + (15 - k)) by lia. rewrite (steps_run A k _ _ _ S).
    destruct (15 - k) as [|f] eqn:E; [lia|]. cbn [consumer_run]. now rewrite Id.
  - split; [|auto]. split; [exact (steps_inv A k _ _ I1 S)|]. split; [exact Id|].
    rewrite (steps_producers k _ _ S). exact N.
Qed.

Lemma pop_quiet_ok q : quiet q ->
  quiet (fst (q_pop q)) /\ snd (q_pop q) = hd_error (contents A q) /\
  contents A (fst (q_pop q)) = tl (contents A q).
Proof.
  intros H. destruct (pop_quiet_run q H) as (q' & R & H' & Pu & Po).
  cbn [q_pop tsq_queue fst snd]. unfold run_or. rewrite R. split; [exact H'|].
  destruct H as ((c & H) & _). pose proof (chain_contents A q c H) as E.
  rewrite Po. destruct (contents A q) as [|v l] eqn:C; cbn [firstn hd_error tl].
  - rewrite app_nil_r in *. split; [apply nth_error_None; lia|]. unfold contents.
    rewrite Po, Pu, E. apply skipn_all.
  - split; [rewrite nth_error_app2, Nat.sub_diag by lia; reflexivity|].
    unfold contents. rewrite Po, Pu, E, length_app. cbn [length firstn].
    rewrite skipn_app, skipn_all2 by lia.
    replace (length (popped A q) + 1 - length (popped A q)) with 1 by lia. reflexivity.
Qed.

Lemma canSleep_quiet_ok q : quiet q ->
  quiet (fst (q_canSleep q)) /\ contents A (fst (q_canSleep q)) = contents A q /\
  (snd (q_canSleep q) = true -> contents A q = []).
Proof.
  intros (I & P & N). cbn [q_canSleep tsq_queue fst snd]. unfold run_or.
  assert (I1 : inv A (canSleep_call A q)) by (apply (step_inv A q); [exact I|now constructor]).
  remember (canSleep_call A q) as q1 eqn:E1.
  assert (F : pushed A q1 = pushed A q /\ popped A q1 = popped A q /\ producers A q1 = [] /\
    slept A q1 = false /\ (pc A q1 = Idle \/ pc A q1 = SleepLoad)).
  { subst q1. unfold canSleep_call. cbn [with_slept sleepy tail].
    destruct (sleepy A q); [cbn; auto 10|]. destruct (node_eqb (tail A q) Stub); cbn; auto 10. }
  destruct F as (Pu & Po & N1 & S1 & [P1|P1]).
  - cbn [consumer_run]. rewrite P1. split; [split; auto|]. unfold contents.
    rewrite Pu, Po, S1. split; [reflexivity|discriminate].
  - assert (X : exists k q', k <= 4 /\ steps A k q1 = Some q' /\ pc A q' = Idle /\
      pushed A q' = pushed A q1 /\ popped A q' = popped A q1 /\
      (slept A q' = true -> woken A q' = false)).
    { destruct (next A q1 (tail A q1)) eqn:E.
      - exists 1. eexists. split; [lia|]. cbn [steps]. unfold consumer_step. rewrite P1, E.
        split; [reflexivity|]. cbn. rewrite S1. repeat split; auto. discriminate.
      - exists 4. eexists. split; [lia|]. cbn [steps]. unfold consumer_step at 1. rewrite P1, E.
        cbn [consumer_step with_pc pc]. cbn. repeat split; auto. }
    destruct X as (k & q' & K & S & Id & Pu' & Po' & W).
    assert (R : consumer_run A 5 q1 = Some q').
    { replace 5 with (k + (5 - k)) by lia. rewrite (steps_run A k _ _ _ S).
      destruct (5 - k) as [|f] eqn:E; [lia|]. cbn [consumer_run]. now rewrite Id. }
    rewrite R. pose proof (steps_inv A k _ _ I1 S) as I'.
    split; [split; [exact I'|split; [exact Id|rewrite (steps_producers k _ _ S); exact N1]]|].
    unfold contents. rewrite Pu', Po', Pu, Po. split; [reflexivity|]. intros Sl.
    destruct I' as (c & H). destruct (ch_slept A q' c H Sl) as [_ [Wk|Ec]]; [rewrite W in Wk; congruence|].
    pose proof (ch_ids A q' c H) as Ids. rewrite Ec, Pu', Po', Pu, Po in Ids. cbn in Ids.
    apply skipn_all2. destruct (length (pushed A q) - length (popped A q)) eqn:L; [lia|discriminate].
Qed.

#[export] Instance tsq_laws : SafeQueueLaws (queue A) A.
Proof.
  constructor.
  - split; [|reflexivity]. split; [exists [Stub]; apply chain_new|auto].
  - exact push_quiet.
  - exact pop_quiet_ok.
  - exact canSleep_quiet_ok.
Qed.
End Thread.

(** * Properties *)

#[local] Open Scope Z_scope.

#[export] Instance Z_weak_order : WeakOrder Z.ltb.
Proof. constructor; intros *; zcases; lia || congruence || auto. Qed.

(** C28: any sequence of the run loop's operations (ready tasks, timers, tasks
    from this or another thread, expiring timers, draining, sleeping checks,
    pops) on an empty queue that issues fewer than 2^32 tasks of priorities below
    2^30 runs to its end, and the tasks its pops hand out are those of a queue
    without keys, in which tasks are numbered by the order of the operations
    that issue them and a pop takes, of the tasks ready, one of the highest
    task priority and among those the one issued first. *)
Theorem taskqueue_order (Task Q : Type) {SQ : SafeQueue Q (Z * Task)}
  {SL : SafeQueueLaws Q (Z * Task)} (time : Type) (time_ltb : time -> time -> bool)
  (plus_eps : time -> time) {TO : WeakOrder time_ltb} (l : list (op Task time))
  (K : Forall (op_ok Task time) l) (N : ops_load Task time l < 2 ^ 32) :
  exists s out a, run Task Q time time_ltb plus_eps (TaskQueue_new Task Q time) l = Some (s, out) /\
    spec_run Task time time_ltb plus_eps (spec_new Task time) l out a /\ refines Task Q time s a.
Proof.
  destruct (refines_new Task Q time) as [R H].
  apply (tq_run_refines Task Q time time_ltb plus_eps l _ _ R H K). unfold load. cbn. lia.
Qed.

Lemma taskqueue_order_witness :
  let l := [OReady nat Z 5 1%nat; OThread nat Z false 7 2%nat; OTimer nat Z 3 7 3%nat; ODrain nat Z;
    OTimers nat Z 4; OPop nat Z; OPop nat Z; OPop nat Z; OPop nat Z] in
  exists s a, run nat (queue (Z * nat)) Z Z.ltb (fun t => t) (TaskQueue_new nat (queue (Z * nat)) Z) l
      = Some (s, [3; 2; 1]%nat) /\
    spec_run nat Z Z.ltb (fun t => t) (spec_new nat Z) l [3; 2; 1]%nat a /\ refines nat (queue (Z * nat)) Z s a.
Proof.
  intros l. destruct (taskqueue_order nat (queue (Z * nat)) Z Z.ltb (fun t => t) l) as (s & out & a & R & S & F);
    [repeat constructor; cbn; unfold id_ok; lia|cbn; lia|].
  assert (out = [3; 2; 1]%nat) by (vm_compute in R; now injection R as _ <-). subst out. eauto.
Defined.

(** [processReadyTimers] ends after at most one turn per timer and moves
    exactly the timers that are due at [now + TIME_EPS] to the ready queue,
    keeping the others, and counts them. *)
Theorem taskqueue_timers (Task Q time : Type) (time_ltb : time -> time -> bool)
  (plus_eps : time -> time) {TO : WeakOrder time_ltb} (s : TaskQueue Task Q time) (now : time) :
  let isdue := due Task time time_ltb plus_eps now in
  exists s',
    processReadyTimers Task Q time time_ltb plus_eps (S (length (timers Task Q time s))) s now = Some s' /\
    Permutation (ready Task Q time s')
      (map (ordered Task time) (filter isdue (timers Task Q time s)) ++ ready Task Q time s) /\
    Permutation (timers Task Q time s') (filter (fun d => negb (isdue d)) (timers Task Q time s)) /\
    countTimers Task Q time s' = countTimers Task Q time s + countb isdue (timers Task Q time s).
Proof.
  destruct (processReadyTimers_spec Task Q time time_ltb plus_eps now _ _ s eq_refl
    (Nat.lt_succ_diag_r _)) as (s' & A & B & C & D & _). exists s'. auto.
Qed.

Lemma taskqueue_timers_witness :
  let d a := mkDelayed nat Z (mkOrdered nat (a * 10) 1 0%nat) a in
  let s := mkTQ nat unit Z 0 [] tt [d 4; d 9; d 2] 0 0 0 in
  exists s', processReadyTimers nat unit Z Z.ltb (fun t => t) 4 s 5 = Some s' /\
    Permutation (timers nat unit Z s') [d 9].
Proof.
  intros d s. destruct (taskqueue_timers nat unit Z Z.ltb (fun t => t) s 5) as (s' & A & _ & C & _).
  exists s'. split; [exact A|exact C].
Defined.

(** Draining the cross-thread queue ends, leaves it empty, and makes its
    tasks ready in the order in which they were pushed, as if each had been
    added by [addReady]; timers are untouched. *)
Theorem taskqueue_drain (Task Q : Type) {SQ : SafeQueue Q (Z * Task)}
  {SL : SafeQueueLaws Q (Z * Task)} (time : Type) (s : TaskQueue Task Q time)
  (H : tq_ok Task Q time s)
  (L : tasksIssued Task Q time s + Z.of_nat (length (q_contents (threadReady Task Q time s))) < 2 ^ 32) :
  exists s', processThreadReady Task Q time (drain_fuel Task Q time s) s = Some s' /\
    q_contents (threadReady Task Q time s') = [] /\
    ready Task Q time s' =
      ready Task Q time (add_all Task Q time s (q_contents (threadReady Task Q time s))) /\
    timers Task Q time s' = timers Task Q time s.
Proof.
  destruct H as (a & R & H). rewrite (rf_count Task Q time s a R), (rf_thread Task Q time s a R) in *.
  destruct (processThreadReady_ok Task Q time _ (drain_fuel Task Q time s) s a R H eq_refl)
    as (s' & A & R' & C & D); [unfold drain_fuel; rewrite (rf_thread Task Q time s a R); lia|exact L|].
  exists s'. split; [exact A|]. split; [|auto]. rewrite (rf_thread Task Q time s' _ R').
  now apply (spec_drain_ok Task time _ a H eq_refl).
Qed.

Lemma taskqueue_drain_witness :
  let s := TaskQueue_new nat (queue (Z * nat)) Z in
  exists s', processThreadReady nat (queue (Z * nat)) Z (drain_fuel nat (queue (Z * nat)) Z s) s = Some s' /\
    ready nat (queue (Z * nat)) Z s' = [].
Proof.
  intros s. destruct (taskqueue_drain nat (queue (Z * nat)) Z s) as (s' & A & _ & C & _).
  - destruct (refines_new nat (queue (Z * nat)) Z). eexists. eauto.
  - cbn. lia.
  - exists s'. split; [exact A|exact C].
Defined.
