(* ===== verification/FastRef.v ===== *)
(** Reference counting, flow/include/flow/FastRef.h.

    The store has counted objects, which own references as members, the
    program's [Reference] variables, and the raw pointers that own a count
    (returned by [extractPtr], not yet adopted).  A deleted object stays as an
    empty cell, so that a use after free is visible. *)

From Stdlib Require Import ZArith List Bool.
Import ListNotations.
From S2P Require Import Prelude.
#[local] Open Scope Z_scope.

(** A pointer to an object is its cell; [nullptr] is [None]. *)
Definition ptr := option nat.

Record object := mkObject {
  referenceCount : Z;      (* int32_t *)
  members : list nat       (* the references its destructor drops *)
}.

Definition heap := list (option object).

Record store := mkStore {
  cells : heap;
  vars : list ptr;         (* Reference variables *)
  raws : list nat          (* owning raw pointers *)
}.

Definition object_at (h : heap) (x : nat) : option object :=
  match nth_error h x with Some o => o | None => None end.

(** * ReferenceCounted *)

(** [addref]; [None] on a deleted object. *)
Definition addref (h : heap) (x : nat) : option heap :=
  match object_at h x with
  | None => None
  | Some o => Some (set_nth h x (Some (mkObject (i32 (referenceCount o + 1)) (members o))))
  end.

(** [delref_no_destroy]: the new count, and whether it is 0. *)
Definition delref_no_destroy (h : heap) (x : nat) : option (heap * bool) :=
  match object_at h x with
  | None => None
  | Some o =>
      let c := i32 (referenceCount o - 1) in
      Some (set_nth h x (Some (mkObject c (members o))), c =? 0)
  end.

Definition isSoleOwner (o : object) : bool := referenceCount o =? 1.

(** [delref] of every pointer of the list: deleting an object drops its members
    before going on.  [None] on a deleted object or out of fuel. *)
Fixpoint release (fuel : nat) (h : heap) (l : list nat) : option heap :=
  match l with
  | [] => Some h
  | x :: l' =>
      match fuel with
      | O => None
      | S f =>
          match delref_no_destroy h x with
          | None => None
          | Some (h', false) => release f h' l'
          | Some (h', true) =>
              match object_at h' x with
              | None => None
              | Some o => release f (set_nth h' x None) (members o ++ l')
              end
          end
      end
  end.

(** A delref per member of every object, and one more. *)
Definition member_count (o : option object) : Z :=
  match o with Some o => Z.of_nat (length (members o)) | None => 0 end.

Definition release_fuel (h : heap) : nat := S (Z.to_nat (sumL member_count h)).

Definition delref (h : heap) (x : nat) : option heap := release (release_fuel h) h [x].

(** * Reference *)

Definition getPtr (s : store) (i : nat) : ptr :=
  match nth_error (vars s) i with Some p => p | None => None end.

Definition set_var (s : store) (i : nat) (p : ptr) : store :=
  mkStore (cells s) (set_nth (vars s) i p) (raws s).

Definition with_cells (s : store) (o : option heap) : option store :=
  match o with Some h => Some (mkStore h (vars s) (raws s)) | None => None end.

Definition addref_ptr (s : store) (p : ptr) : option store :=
  match p with None => Some s | Some x => with_cells s (addref (cells s) x) end.

Definition delref_ptr (s : store) (p : ptr) : option store :=
  match p with None => Some s | Some x => with_cells s (delref (cells s) x) end.

Definition bind {A B} (o : option A) (k : A -> option B) : option B :=
  match o with Some a => k a | None => None end.

(** The copy constructor of variable [i] from [j]. *)
Definition Reference_copy (s : store) (i j : nat) : option store :=
  let p := getPtr s j in
  bind (addref_ptr s p) (fun s => Some (set_var s i p)).

(** The move constructor. *)
Definition Reference_move (s : store) (i j : nat) : option store :=
  let p := getPtr s j in
  Some (set_var (set_var s i p) j None).

(** The destructor. *)
Definition Reference_destroy (s : store) (i : nat) : option store :=
  bind (delref_ptr s (getPtr s i)) (fun s => Some (set_var s i None)).

Definition ptr_eqb (p q : ptr) : bool :=
  match p, q with
  | Some x, Some y => Nat.eqb x y
  | None, None => true
  | _, _ => false
  end.

(** [operator=(const Reference&)]. *)
Definition Reference_assign (s : store) (i j : nat) : option store :=
  let oldPtr := getPtr s i in
  let newPtr := getPtr s j in
  if ptr_eqb oldPtr newPtr then Some s
  else
    bind (addref_ptr s newPtr) (fun s =>
    delref_ptr (set_var s i newPtr) oldPtr).

(** [operator=(Reference&&)]. *)
Definition Reference_move_assign (s : store) (i j : nat) : option store :=
  let oldPtr := getPtr s i in
  let newPtr := getPtr s j in
  if ptr_eqb oldPtr newPtr then Some s
  else delref_ptr (set_var (set_var s j None) i newPtr) oldPtr.

Definition Reference_clear (s : store) (i : nat) : option store :=
  let oldPtr := getPtr s i in
  match oldPtr with
  | None => Some s
  | Some _ => delref_ptr (set_var s i None) oldPtr
  end.

Definition isValid (s : store) (i : nat) : bool :=
  match getPtr s i with Some _ => true | None => false end.

(** [extractPtr]: the count goes with the raw pointer. *)
Definition extractPtr (s : store) (i : nat) : store * ptr :=
  match getPtr s i with
  | None => (set_var s i None, None)
  | Some x => (mkStore (cells s) (set_nth (vars s) i None) (x :: raws s), Some x)
  end.

Fixpoint drop_one (x : nat) (l : list nat) : list nat :=
  match l with [] => [] | y :: l' => if Nat.eqb y x then l' else y :: drop_one x l' end.

(** The constructor from a raw pointer, adopting its count into variable [i]. *)
Definition Reference_adopt (s : store) (i x : nat) : store :=
  mkStore (cells s) (set_nth (vars s) i (Some x)) (drop_one x (raws s)).

(** [addRef] of a pointer to an object that is alive, into variable [i]. *)
Definition Reference_addRef (s : store) (i x : nat) : option store :=
  bind (addref_ptr s (Some x)) (fun s => Some (set_var s i (Some x))).

(** [castTo] of variable [j] into variable [i]: [addRef] of its pointer, null
    or not. *)
Definition castTo (s : store) (i j : nat) : option store :=
  match getPtr s j with
  | None => None
  | Some x => Reference_addRef s i x
  end.

(** [makeReference]: a new object whose constructor copies the references of
    the variables [js] into members. *)
Fixpoint addref_all (h : heap) (l : list nat) : option heap :=
  match l with
  | [] => Some h
  | x :: l' => bind (addref h x) (fun h => addref_all h l')
  end.

Definition pointers (s : store) (js : list nat) : list nat :=
  flat_map (fun j => match getPtr s j with Some x => [x] | None => [] end) js.

Definition makeReference (s : store) (i : nat) (js : list nat) : option store :=
  let ms := pointers s js in
  bind (addref_all (cells s) ms) (fun h =>
  Some (mkStore (h ++ [Some (mkObject 1 ms)]) (set_nth (vars s) i (Some (length h))) (raws s))).

(** * Programs *)

(** Constructors are applied to variables that are not alive (null). *)
Inductive op :=
| OMake (i : nat) (js : list nat)
| OCopy (i j : nat)
| OMove (i j : nat)
| OCast (i j : nat)
| OAssign (i j : nat)
| OMoveAssign (i j : nat)
| OClear (i : nat)
| ODestroy (i : nat)
| OExtract (i : nat)
| OAdopt (i x : nat).

Definition step (s : store) (o : op) : option store :=
  match o with
  | OMake i js => makeReference s i js
  | OCopy i j => Reference_copy s i j
  | OMove i j => Reference_move s i j
  | OCast i j => castTo s i j
  | OAssign i j => Reference_assign s i j
  | OMoveAssign i j => Reference_move_assign s i j
  | OClear i => Reference_clear s i
  | ODestroy i => Reference_destroy s i
  | OExtract i => Some (fst (extractPtr s i))
  | OAdopt i x => Some (Reference_adopt s i x)
  end.

Fixpoint run (s : store) (l : list op) : option store :=
  match l with
  | [] => Some s
  | o :: l' => bind (step s o) (fun s => run s l')
  end.

(** A list of two objects, dropped through its head. *)
Example chain_freed :
  option_map cells (run (mkStore [] [None; None] [])
    [OMake 0 []; OMake 1 [0%nat]; OClear 0; OClear 1])
  = Some [None; None].
Proof. reflexivity. Qed.
