(* ===== verification/FastRefProofs.v ===== *)
(** FastRef: an object is alive exactly as long as references to it exist. *)

From Stdlib Require Import ZArith List Bool Lia Arith.
Import ListNotations.
From S2P Require Import Prelude FastRef.
#[local] Open Scope Z_scope.

(** * Counting references *)

Definition is_x (x y : nat) : Z := if Nat.eqb x y then 1 else 0.

Definition occ (x : nat) (l : list nat) : Z := sumL (is_x x) l.

Definition var_occ (x : nat) (p : ptr) : Z := match p with Some y => is_x x y | None => 0 end.

Definition member_occ (x : nat) (o : option object) : Z :=
  match o with Some o => occ x (members o) | None => 0 end.

(** References to [x] in variables, raw pointers and members. *)
Definition refs (h : heap) (vs : list ptr) (rs : list nat) (x : nat) : Z :=
  sumL (var_occ x) vs + occ x rs + sumL (member_occ x) h.

(** The counts are right when the counts of [l] are in hand: about to be
    dropped or to be given to a new reference. *)
Definition counted (h : heap) (vs : list ptr) (rs : list nat) (l : list nat) : Prop :=
  forall x, match object_at h x with
  | Some o => referenceCount o = refs h vs rs x + occ x l /\ 0 < referenceCount o
  | None => refs h vs rs x + occ x l = 0
  end.

Definition size (h : heap) (vs : list ptr) (rs : list nat) (l : list nat) : Z :=
  Z.of_nat (length vs) + Z.of_nat (length rs) + sumL member_count h + Z.of_nat (length l).

Lemma is_x_range x y : 0 <= is_x x y <= 1.
Proof. unfold is_x. destruct (Nat.eqb x y); lia. Qed.

Lemma is_x_refl x : is_x x x = 1.
Proof. unfold is_x. now rewrite Nat.eqb_refl. Qed.

Lemma occ_nonneg x l : 0 <= occ x l.
Proof. apply sumL_nonneg. intros y. apply is_x_range. Qed.

Lemma occ_le x l : occ x l <= Z.of_nat (length l).
Proof.
  unfold occ. induction l as [|y l IH]; cbn [sumL length]; [lia|].
  pose proof (is_x_range x y). lia.
Qed.

Lemma occ_app x l l' : occ x (l ++ l') = occ x l + occ x l'.
Proof. apply sumL_app. Qed.

Lemma var_occ_range x p : 0 <= var_occ x p <= 1.
Proof. destruct p; cbn; [apply is_x_range|lia]. Qed.

Lemma member_occ_range x o : 0 <= member_occ x o <= member_count o.
Proof. destruct o; cbn; [split; [apply occ_nonneg|apply occ_le]|lia]. Qed.

Lemma refs_nonneg h vs rs x : 0 <= refs h vs rs x.
Proof.
  unfold refs. pose proof (sumL_nonneg (var_occ x) vs (fun p => proj1 (var_occ_range x p))).
  pose proof (sumL_nonneg (member_occ x) h (fun o => proj1 (member_occ_range x o))).
  pose proof (occ_nonneg x rs). lia.
Qed.

Lemma sumL_le {A} (f g : A -> Z) l : (forall a, f a <= g a) -> sumL f l <= sumL g l.
Proof. intros H. induction l as [|a l IH]; cbn [sumL]; [lia|]. specialize (H a). lia. Qed.

Lemma sumL_length {A} (f : A -> Z) l : (forall a, f a <= 1) -> sumL f l <= Z.of_nat (length l).
Proof. intros H. induction l as [|a l IH]; cbn [sumL length]; [lia|]. specialize (H a). lia. Qed.

Lemma refs_size h vs rs x l : refs h vs rs x + occ x l <= size h vs rs l.
Proof.
  unfold refs, size. pose proof (sumL_length (var_occ x) vs (fun p => proj2 (var_occ_range x p))).
  pose proof (sumL_le (member_occ x) member_count h (fun o => proj2 (member_occ_range x o))).
  pose proof (occ_le x rs). pose proof (occ_le x l). lia.
Qed.

Lemma i32_small c : - 2 ^ 31 <= c < 2 ^ 31 -> i32 c = c.
Proof. intros H. unfold swrap. rewrite Z.mod_small; lia. Qed.

Lemma object_at_some h x o : object_at h x = Some o -> nth_error h x = Some (Some o).
Proof. unfold object_at. destruct (nth_error h x) as [[]|]; congruence. Qed.

Lemma object_at_set h x o v y : object_at h x = Some o ->
  object_at (set_nth h x v) y = if Nat.eqb y x then v else object_at h y.
Proof.
  intros H. apply object_at_some in H. unfold object_at. rewrite (nth_error_set _ _ _ _ _ H).
  now destruct (Nat.eqb y x).
Qed.

(** Replacing an object changes the references to others by its members. *)
Lemma refs_set h vs rs x o v y : object_at h x = Some o ->
  refs (set_nth h x v) vs rs y = refs h vs rs y - occ y (members o) + member_occ y v.
Proof.
  intros H. apply object_at_some in H. unfold refs. rewrite (sumL_set _ _ _ _ _ H).
  cbn [member_occ]. lia.
Qed.

(** * Changing hands *)

(** A count in hand belongs to an object that is alive. *)
Lemma in_hand h vs rs x l : counted h vs rs (x :: l) -> exists o, object_at h x = Some o.
Proof.
  intros H. specialize (H x). destruct (object_at h x); [eauto|].
  pose proof (refs_nonneg h vs rs x). pose proof (occ_nonneg x l).
  unfold occ in H at 1. cbn [sumL] in H. rewrite is_x_refl in H. fold (occ x l) in H. lia.
Qed.

Lemma var_alive h vs rs l i x : counted h vs rs l -> nth_error vs i = Some (Some x) ->
  exists o, object_at h x = Some o.
Proof.
  intros H E. specialize (H x). destruct (object_at h x); [eauto|].
  pose proof (sumL_member (var_occ x) vs (Some x) (fun p => proj1 (var_occ_range x p))
    (nth_error_In _ _ E)) as M. cbn [var_occ] in M. rewrite is_x_refl in M.
  pose proof (occ_nonneg x l). pose proof (occ_nonneg x rs).
  pose proof (sumL_nonneg (member_occ x) h (fun o => proj1 (member_occ_range x o))).
  unfold refs in H. lia.
Qed.

Lemma counted_ext h vs rs l vs' rs' l' : counted h vs rs l ->
  (forall x, refs h vs' rs' x + occ x l' = refs h vs rs x + occ x l) -> counted h vs' rs' l'.
Proof. intros H E x. specialize (H x). rewrite E. exact H. Qed.

(** A variable takes a count that is in hand, or gives it up. *)
Lemma counted_give h vs rs l i x : counted h vs rs (x :: l) -> nth_error vs i = Some None ->
  counted h (set_nth vs i (Some x)) rs l.
Proof.
  intros H E. eapply counted_ext; [exact H|]. intros y. unfold refs.
  rewrite (sumL_set _ _ _ _ _ E). unfold occ. cbn [sumL var_occ]. lia.
Qed.

Lemma counted_take h vs rs l i x : counted h vs rs l -> nth_error vs i = Some (Some x) ->
  counted h (set_nth vs i None) rs (x :: l).
Proof.
  intros H E. eapply counted_ext; [exact H|]. intros y. unfold refs.
  rewrite (sumL_set _ _ _ _ _ E). unfold occ. cbn [sumL var_occ]. lia.
Qed.

Lemma addref_ok h vs rs l x o : counted h vs rs l -> object_at h x = Some o ->
  size h vs rs l + 1 < 2 ^ 31 ->
  exists h', addref h x = Some h' /\ counted h' vs rs (x :: l) /\ length h' = length h /\
    sumL member_count h' = sumL member_count h /\
    (forall y, object_at h y = None <-> object_at h' y = None).
Proof.
  intros H E S. pose proof (H x) as Hx. rewrite E in Hx. pose proof (refs_size h vs rs x l).
  unfold addref. rewrite E, i32_small by lia. eexists. split; [reflexivity|]. split; [|split; [|split]].
  - intros y. specialize (H y). rewrite (object_at_set _ _ _ _ _ E), (refs_set _ _ _ _ _ _ _ E).
    unfold occ in *. cbn [member_occ members sumL]. fold (occ y (members o)) (occ y l) in *.
    unfold is_x. destruct (Nat.eqb_spec y x) as [->|N].
    + rewrite E in H. cbn [referenceCount]. lia.
    + destruct (object_at h y); lia.
  - apply set_nth_length.
  - rewrite (sumL_set _ _ _ _ _ (object_at_some _ _ _ E)). cbn. lia.
  - intros y. rewrite (object_at_set _ _ _ _ _ E). destruct (Nat.eqb_spec y x) as [->|]; [|reflexivity].
    split; congruence.
Qed.

(** Dropping the counts in hand, with everything that dies, ends. *)
Lemma release_ok fuel : forall h vs rs l, counted h vs rs l -> size h vs rs l < 2 ^ 31 ->
  Z.of_nat (length l) + sumL member_count h <= Z.of_nat fuel ->
  exists h', release fuel h l = Some h' /\ counted h' vs rs [] /\
    sumL member_count h' <= sumL member_count h.
Proof.
  induction fuel as [|f IH]; intros h vs rs [|x l] H S F; cbn [release].
  - exists h. auto with zarith.
  - exfalso. pose proof (sumL_nonneg member_count h (fun o => Z.le_trans _ _ _
      (proj1 (member_occ_range 0 o)) (proj2 (member_occ_range 0 o)))). cbn [length] in F. lia.
  - exists h. auto with zarith.
  - destruct (in_hand h vs rs x l H) as (o & E). pose proof (H x) as Hx. rewrite E in Hx.
    pose proof (refs_size h vs rs x (x :: l)). unfold delref_no_destroy. rewrite E, i32_small by lia.
    assert (Ox : forall y, occ y (x :: l) = is_x y x + occ y l) by reflexivity.
    cbn [length] in F. unfold size in S. cbn [length] in S.
    destruct (Z.eqb_spec (referenceCount o - 1) 0) as [Z0|NZ].
    + assert (E' : object_at (set_nth h x (Some (mkObject (referenceCount o - 1) (members o)))) x
                   = Some (mkObject (referenceCount o - 1) (members o))).
      { rewrite (object_at_set _ _ _ _ _ E), Nat.eqb_refl. reflexivity. }
      rewrite E'. cbn [members].
      set (h2 := set_nth (set_nth h x _) x None).
      assert (M2 : sumL member_count h2 = sumL member_count h - Z.of_nat (length (members o))).
      { unfold h2. rewrite (sumL_set _ _ _ _ _ (object_at_some _ _ _ E')),
          (sumL_set _ _ _ _ _ (object_at_some _ _ _ E)). cbn [member_count members]. lia. }
      destruct (IH h2 vs rs (members o ++ l)) as (h' & R & C & M).
      * intros y. unfold h2. rewrite (object_at_set _ _ _ _ _ E'), (refs_set _ _ _ _ _ _ _ E'),
          (object_at_set _ _ _ _ _ E), (refs_set _ _ _ _ _ _ _ E), occ_app.
        cbn [member_occ members]. specialize (H y). rewrite Ox in H.
        unfold is_x in H. destruct (Nat.eqb_spec y x) as [Ey|N].
        -- subst y. rewrite E in H. pose proof (refs_nonneg h vs rs x). pose proof (occ_nonneg x l). lia.
        -- destruct (object_at h y); lia.
      * unfold size. rewrite length_app. lia.
      * rewrite length_app. lia.
      * exists h'. split; [exact R|]. split; [exact C|]. lia.
    + set (h2 := set_nth h x _).
      assert (M2 : sumL member_count h2 = sumL member_count h).
      { unfold h2. rewrite (sumL_set _ _ _ _ _ (object_at_some _ _ _ E)). cbn. lia. }
      destruct (IH h2 vs rs l) as (h' & R & C & M).
      * intros y. unfold h2. rewrite (object_at_set _ _ _ _ _ E), (refs_set _ _ _ _ _ _ _ E).
        cbn [member_occ members]. specialize (H y). rewrite Ox in H.
        unfold is_x in H. destruct (Nat.eqb_spec y x) as [Ey|N].
        -- subst y. rewrite E in H. cbn [referenceCount]. lia.
        -- destruct (object_at h y); lia.
      * unfold size. lia.
      * lia.
      * exists h'. split; [exact R|]. split; [exact C|]. lia.
Qed.

(** * Operations *)

Definition good (s : store) : Prop := counted (cells s) (vars s) (raws s) [].

Definition total (s : store) : Z := size (cells s) (vars s) (raws s) [].

Lemma getPtr_some s i x : getPtr s i = Some x -> nth_error (vars s) i = Some (Some x).
Proof.
  unfold getPtr. destruct (nth_error (vars s) i) as [p|]; [intros ->; reflexivity|discriminate].
Qed.

Lemma getPtr_none s i : (i < length (vars s))%nat -> getPtr s i = None ->
  nth_error (vars s) i = Some None.
Proof.
  unfold getPtr. intros L. destruct (nth_error (vars s) i) as [p|] eqn:E; [intros ->; reflexivity|].
  apply nth_error_None in E. lia.
Qed.

Lemma set_nth_set {A} (l : list A) i p a b : nth_error l i = Some p ->
  set_nth (set_nth l i a) i b = set_nth l i b.
Proof.
  intros E. assert (E' : nth_error (set_nth l i a) i = Some a)
    by (rewrite (nth_error_set _ _ _ _ _ E), Nat.eqb_refl; reflexivity).
  apply nth_error_ext. intros n.
  rewrite (nth_error_set _ _ _ _ _ E'), !(nth_error_set _ _ _ _ _ E).
  now destruct (Nat.eqb n i).
Qed.

Lemma set_nth_same {A} (l : list A) i p : nth_error l i = Some p -> set_nth l i p = l.
Proof.
  intros E. destruct (set_nth_split l i p p E) as (l1 & l2 & -> & _ & ->). reflexivity.
Qed.

(** The reference that was in the pointer [p] is dropped. *)
Definition hand (p : ptr) : list nat := match p with Some x => [x] | None => [] end.

Lemma delref_ptr_ok s p : counted (cells s) (vars s) (raws s) (hand p) ->
  size (cells s) (vars s) (raws s) (hand p) < 2 ^ 31 ->
  exists h, delref_ptr s p = Some (mkStore h (vars s) (raws s)) /\
    good (mkStore h (vars s) (raws s)) /\ total (mkStore h (vars s) (raws s)) <= total s.
Proof.
  destruct p as [x|]; cbn [hand delref_ptr]; intros H S.
  - unfold delref. destruct (release_ok (release_fuel (cells s)) _ _ _ _ H S) as (h & -> & C & M).
    { cbn [length]. unfold release_fuel. lia. }
    exists h. split; [reflexivity|]. split; [exact C|]. unfold total, size in *. cbn. lia.
  - exists (cells s). destruct s. cbn in *. split; [reflexivity|]. split; [exact H|lia].
Qed.

(** A variable gives up its reference, whatever it is. *)
Lemma counted_take_var s i l : counted (cells s) (vars s) (raws s) l ->
  (i < length (vars s))%nat ->
  counted (cells s) (set_nth (vars s) i None) (raws s) (hand (getPtr s i) ++ l).
Proof.
  intros H L. destruct (getPtr s i) as [x|] eqn:E; cbn [hand app].
  - apply counted_take; [exact H|now apply getPtr_some].
  - rewrite set_nth_same; [exact H|now apply getPtr_none].
Qed.

(** A null variable receives a reference that is in hand. *)
Lemma counted_give_var h vs rs i p l : counted h vs rs (hand p ++ l) ->
  nth_error vs i = Some None -> counted h (set_nth vs i p) rs l.
Proof.
  destruct p as [x|]; cbn [hand app]; intros H E; [now apply counted_give|].
  now rewrite set_nth_same.
Qed.

(** A copy of variable [j]'s reference comes into hand. *)
Lemma addref_ptr_ok s j : good s -> total s + 1 < 2 ^ 31 ->
  exists h, addref_ptr s (getPtr s j) = Some (mkStore h (vars s) (raws s)) /\
    counted h (vars s) (raws s) (hand (getPtr s j)) /\ length h = length (cells s) /\
    sumL member_count h = sumL member_count (cells s).
Proof.
  intros H S. destruct (getPtr s j) as [x|] eqn:E; cbn [addref_ptr hand].
  - destruct (var_alive _ _ _ _ j x H (getPtr_some s j x E)) as (o & O).
    destruct (addref_ok _ _ _ _ x o H O S) as (h & -> & C & L & M & _). exists h. auto.
  - exists (cells s). destruct s. auto.
Qed.

Lemma Reference_copy_ok s i j : good s -> total s + 1 < 2 ^ 31 -> nth_error (vars s) i = Some None ->
  exists s', Reference_copy s i j = Some s' /\ good s' /\ total s' <= total s.
Proof.
  intros H S E. unfold Reference_copy.
  destruct (addref_ptr_ok s j H S) as (h & -> & C & L & M). cbn [bind].
  eexists. split; [reflexivity|]. cbn. split.
  - unfold good. cbn. apply counted_give_var; [rewrite app_nil_r; exact C|exact E].
  - unfold total, size. cbn. rewrite set_nth_length. lia.
Qed.

Lemma Reference_assign_ok s i j : good s -> total s + 2 < 2 ^ 31 -> (i < length (vars s))%nat ->
  exists s', Reference_assign s i j = Some s' /\ good s' /\ total s' <= total s.
Proof.
  intros H S L. unfold Reference_assign. destruct (ptr_eqb (getPtr s i) (getPtr s j)).
  { exists s. auto with zarith. }
  destruct (addref_ptr_ok s j H ltac:(lia)) as (h & -> & C & Lh & M). cbn [bind].
  assert (Li : (i < length (vars (mkStore h (vars s) (raws s))))%nat) by exact L.
  pose proof (counted_take_var (mkStore h (vars s) (raws s)) i _ C Li) as C2.
  assert (G : getPtr (mkStore h (vars s) (raws s)) i = getPtr s i) by reflexivity.
  rewrite G in C2. cbn [cells vars raws] in C2. destruct (nth_error (vars s) i) as [pi|] eqn:Ei;
    [|apply nth_error_None in Ei; lia].
  assert (C3 : counted h (set_nth (vars s) i (getPtr s j)) (raws s) (hand (getPtr s i))).
  { rewrite <- (set_nth_set _ i pi None _ Ei). apply counted_give_var.
    - eapply counted_ext; [exact C2|]. intros x. rewrite !occ_app. lia.
    - rewrite (nth_error_set _ _ _ _ _ Ei), Nat.eqb_refl. reflexivity. }
  destruct (delref_ptr_ok (mkStore h (set_nth (vars s) i (getPtr s j)) (raws s)) (getPtr s i))
    as (h' & E' & H' & T').
  - exact C3.
  - unfold total, size in *. cbn [cells vars raws] in *. rewrite set_nth_length.
    destruct (getPtr s i); cbn [hand length] in *; lia.
  - eexists. split; [exact E'|]. split; [exact H'|]. unfold total, size in *.
    cbn [cells vars raws] in *. rewrite set_nth_length in *. lia.
Qed.

(** Dropping variable [i]'s reference, before or after it is cleared. *)
Lemma drop_var_ok s i : good s -> total s + 1 < 2 ^ 31 -> (i < length (vars s))%nat ->
  exists h, delref_ptr (set_var s i None) (getPtr s i) =
      Some (mkStore h (set_nth (vars s) i None) (raws s)) /\
    delref_ptr s (getPtr s i) = Some (mkStore h (vars s) (raws s)) /\
    good (mkStore h (set_nth (vars s) i None) (raws s)) /\
    total (mkStore h (set_nth (vars s) i None) (raws s)) <= total s.
Proof.
  intros H S L. pose proof (counted_take_var s i [] H L) as C. rewrite app_nil_r in C.
  destruct (delref_ptr_ok (set_var s i None) (getPtr s i) C) as (h & E & H' & T).
  - unfold total, size in *. cbn. rewrite set_nth_length. destruct (getPtr s i); cbn; cbn in S; lia.
  - exists h. split; [exact E|]. split; [|split; [exact H'|]].
    + destruct (getPtr s i) as [x|]; cbn [delref_ptr with_cells set_var cells] in *.
      * destruct (delref (cells s) x); [|discriminate]. now injection E as ->.
      * injection E as <-. now destruct s.
    + unfold total, size in *. cbn in *. rewrite !set_nth_length in *. lia.
Qed.

Lemma Reference_destroy_ok s i : good s -> total s + 1 < 2 ^ 31 -> (i < length (vars s))%nat ->
  exists s', Reference_destroy s i = Some s' /\ good s' /\ total s' <= total s.
Proof.
  intros H S L. destruct (drop_var_ok s i H S L) as (h & _ & E & H' & T).
  unfold Reference_destroy. rewrite E. eexists. split; [reflexivity|]. auto.
Qed.

Lemma Reference_clear_ok s i : good s -> total s + 1 < 2 ^ 31 -> (i < length (vars s))%nat ->
  exists s', Reference_clear s i = Some s' /\ good s' /\ total s' <= total s.
Proof.
  intros H S L. destruct (drop_var_ok s i H S L) as (h & E & _ & H' & T).
  unfold Reference_clear. destruct (getPtr s i) as [x|]; [eauto|exists s; auto with zarith].
Qed.

(** Moving a reference between variables keeps every count. *)
Lemma counted_move s i j : good s -> nth_error (vars s) i = Some None ->
  (j < length (vars s))%nat -> i <> j ->
  counted (cells s) (set_nth (set_nth (vars s) i (getPtr s j)) j None) (raws s) [].
Proof.
  intros H E L N. destruct (getPtr s j) as [x|] eqn:G.
  - pose proof (getPtr_some s j x G) as Ej. eapply counted_ext; [exact H|]. intros y. unfold refs.
    assert (Ej' : nth_error (set_nth (vars s) i (Some x)) j = Some (Some x)).
    { rewrite (nth_error_set _ _ _ _ _ E). destruct (Nat.eqb_spec j i); [congruence|exact Ej]. }
    rewrite (sumL_set _ _ _ _ _ Ej'), (sumL_set _ _ _ _ _ E). cbn [var_occ]. lia.
  - pose proof (getPtr_none s j L G) as Ej. rewrite (set_nth_same _ i) by exact E.
    rewrite set_nth_same by exact Ej. exact H.
Qed.

Lemma Reference_move_ok s i j : good s -> nth_error (vars s) i = Some None ->
  (j < length (vars s))%nat -> i <> j ->
  exists s', Reference_move s i j = Some s' /\ good s' /\ total s' <= total s.
Proof.
  intros H E L N. eexists. split; [reflexivity|]. split; [exact (counted_move s i j H E L N)|].
  unfold total, size. cbn. rewrite !set_nth_length. lia.
Qed.

Lemma Reference_move_assign_ok s i j : good s -> total s + 1 < 2 ^ 31 ->
  (i < length (vars s))%nat -> (j < length (vars s))%nat ->
  exists s', Reference_move_assign s i j = Some s' /\ good s' /\ total s' <= total s.
Proof.
  intros H S Li Lj. unfold Reference_move_assign.
  destruct (ptr_eqb (getPtr s i) (getPtr s j)) eqn:Q; [exists s; auto with zarith|].
  assert (N : i <> j).
  { intros <-. destruct (getPtr s i); cbn in Q; [rewrite Nat.eqb_refl in Q|]; discriminate. }
  destruct (nth_error (vars s) i) as [pi|] eqn:Ei; [|apply nth_error_None in Ei; lia].
  destruct (nth_error (vars s) j) as [pj|] eqn:Ej; [|apply nth_error_None in Ej; lia].
  assert (Gj : getPtr s j = pj) by (unfold getPtr; now rewrite Ej).
  assert (Gi : getPtr s i = pi) by (unfold getPtr; now rewrite Ei).
  assert (Ei' : nth_error (set_nth (vars s) j None) i = Some pi).
  { rewrite (nth_error_set _ _ _ _ _ Ej). destruct (Nat.eqb_spec i j); [contradiction|exact Ei]. }
  assert (C : counted (cells s) (set_nth (set_nth (vars s) j None) i pj) (raws s) (hand pi)).
  { eapply counted_ext; [exact H|]. intros y. unfold refs.
    rewrite (sumL_set _ _ _ _ _ Ei'), (sumL_set _ _ _ _ _ Ej). cbn [var_occ].
    unfold occ. destruct pi; cbn; lia. }
  rewrite Gi, Gj.
  destruct (delref_ptr_ok (set_var (set_var s j None) i pj) pi C) as (h & E & H' & T).
  - unfold total, size in *. cbn. rewrite !set_nth_length. destruct pi; cbn; cbn in S; lia.
  - rewrite E. eexists. split; [reflexivity|]. split; [exact H'|].
    unfold total, size in *. cbn in *. rewrite !set_nth_length in *. lia.
Qed.

Lemma extract_ok s i : good s -> (i < length (vars s))%nat ->
  good (fst (extractPtr s i)) /\ total (fst (extractPtr s i)) <= total s + 1.
Proof.
  intros H L. unfold extractPtr. destruct (getPtr s i) as [x|] eqn:E; cbn [fst]; split.
  - unfold good. cbn. pose proof (counted_take _ _ _ _ i x H (getPtr_some s i x E)) as C.
    eapply counted_ext; [exact C|]. intros y. unfold refs, occ. cbn. lia.
  - unfold total, size. cbn [cells vars raws length]. rewrite set_nth_length. lia.
  - unfold good, set_var. cbn. rewrite set_nth_same; [exact H|now apply getPtr_none].
  - unfold total, size, set_var. cbn. rewrite set_nth_length. lia.
Qed.

Lemma drop_one_occ x l y : In x l -> occ y (drop_one x l) = occ y l - is_x y x.
Proof.
  induction l as [|z l IH]; [contradiction|]. cbn [drop_one]. intros I.
  destruct (Nat.eqb_spec z x) as [->|N]; [unfold occ; cbn; lia|].
  destruct I as [->|I]; [contradiction|]. specialize (IH I). unfold occ in *. cbn [sumL]. lia.
Qed.

Lemma drop_one_length x l : In x l -> S (length (drop_one x l)) = length l.
Proof.
  induction l as [|z l IH]; [contradiction|]. cbn [drop_one]. intros I.
  destruct (Nat.eqb_spec z x) as [->|N]; [reflexivity|].
  destruct I as [->|I]; [contradiction|]. cbn. now rewrite IH.
Qed.

Lemma adopt_ok s i x : good s -> nth_error (vars s) i = Some None -> In x (raws s) ->
  good (Reference_adopt s i x) /\ total (Reference_adopt s i x) <= total s.
Proof.
  intros H E I. split.
  - unfold good. cbn. eapply counted_ext; [exact H|]. intros y. unfold refs.
    rewrite (sumL_set _ _ _ _ _ E), (drop_one_occ x _ y I). cbn [var_occ]. lia.
  - unfold total, size. cbn. rewrite set_nth_length. pose proof (drop_one_length x _ I). lia.
Qed.

(** * New objects *)

Lemma addref_all_ok ms : forall h vs rs l, counted h vs rs l ->
  (forall x, In x ms -> object_at h x <> None) ->
  size h vs rs l + Z.of_nat (length ms) < 2 ^ 31 ->
  exists h', addref_all h ms = Some h' /\ counted h' vs rs (ms ++ l) /\
    length h' = length h /\ sumL member_count h' = sumL member_count h.
Proof.
  induction ms as [|x ms IH]; intros h vs rs l H A S; cbn [addref_all].
  - exists h. auto.
  - destruct (object_at h x) as [o|] eqn:E; [|exfalso; exact (A x (or_introl eq_refl) E)].
    cbn [length] in S.
    destruct (addref_ok h vs rs l x o H E ltac:(lia)) as (h1 & -> & C & L & M & Al). cbn [bind].
    destruct (IH h1 vs rs (x :: l) C) as (h' & R & C' & L' & M').
    + intros y Hy. rewrite <- Al. apply A. now right.
    + unfold size in *. cbn [length]. lia.
    + exists h'. split; [exact R|]. split; [|split; congruence].
      eapply counted_ext; [exact C'|]. intros y. unfold occ. cbn [app sumL].
      rewrite !sumL_app. cbn [sumL]. lia.
Qed.

Lemma pointers_alive s js x : good s -> In x (pointers s js) -> object_at (cells s) x <> None.
Proof.
  intros H I. unfold pointers in I. apply in_flat_map in I. destruct I as (j & _ & I).
  destruct (getPtr s j) as [y|] eqn:E; [|destruct I]. destruct I as [->|[]].
  destruct (var_alive _ _ _ _ j x H (getPtr_some s j x E)) as (o & O). congruence.
Qed.

Lemma pointers_length s js : (length (pointers s js) <= length js)%nat.
Proof.
  unfold pointers. induction js as [|j js IH]; cbn [flat_map length]; [lia|].
  rewrite length_app. destruct (getPtr s j); cbn [length]; lia.
Qed.

Lemma makeReference_ok s i js : good s -> nth_error (vars s) i = Some None ->
  total s + Z.of_nat (length js) < 2 ^ 31 ->
  exists s', makeReference s i js = Some s' /\ good s' /\
    total s' <= total s + Z.of_nat (length js).
Proof.
  intros H E S. unfold makeReference. set (ms := pointers s js).
  pose proof (pointers_length s js) as Lm. fold ms in Lm.
  destruct (addref_all_ok ms _ _ _ _ H) as (h & -> & C & L & M).
  - intros x. now apply pointers_alive.
  - unfold total in S. lia.
  - cbn [bind]. eexists. split; [reflexivity|]. rewrite app_nil_r in C. split.
    + unfold good. cbn [cells vars raws]. intros x. pose proof (C x) as Cx. unfold refs in *.
      rewrite (sumL_set _ _ _ _ _ E), sumL_app. cbn [sumL member_occ members var_occ].
      unfold object_at in *. destruct (Nat.lt_trichotomy x (length h)) as [Lt|[Eq|Gt]].
      * rewrite nth_error_app1 by exact Lt. unfold is_x.
        rewrite (proj2 (Nat.eqb_neq x (length h))) by lia.
        destruct (nth_error h x) as [[o|]|]; unfold occ at 3; cbn [sumL]; lia.
      * subst x. rewrite nth_error_app2, Nat.sub_diag by lia. cbn [nth_error].
        rewrite (proj2 (nth_error_None h (length h))) in Cx by lia.
        rewrite is_x_refl. cbn [referenceCount]. unfold occ at 3. cbn [sumL]. lia.
      * rewrite nth_error_app2 by lia. rewrite (proj2 (nth_error_None h x)) in Cx by lia.
        assert (X : nth_error [Some (mkObject 1 ms)] (x - length h) = None)
          by (apply nth_error_None; cbn; lia).
        rewrite X. unfold is_x. rewrite (proj2 (Nat.eqb_neq x (length h))) by lia.
        unfold occ at 3. cbn [sumL]. lia.
    + unfold total, size in *. cbn [cells vars raws length]. rewrite sumL_app, set_nth_length.
      cbn [sumL member_count members]. lia.
Qed.

(** * Programs *)

(** What a program may do: constructors build variables that hold nothing, a
    moved-from variable is another one, a raw pointer is adopted once, [castTo]
    is called on a valid reference; and the counts fit 32 bits. *)
Definition enabled (s : store) (o : op) : Prop :=
  let fresh i := nth_error (vars s) i = Some None in
  let var i := (i < length (vars s))%nat in
  match o with
  | OMake i js => fresh i /\ total s + Z.of_nat (length js) + 2 < 2 ^ 31
  | OCopy i j => fresh i
  | OMove i j => fresh i /\ var j /\ i <> j
  | OCast i j => fresh i /\ isValid s j = true
  | OAssign i j | OMoveAssign i j => var i /\ var j
  | OClear i | ODestroy i => var i
  | OExtract i => var i
  | OAdopt i x => fresh i /\ In x (raws s)
  end /\ total s + 2 < 2 ^ 31.

Lemma castTo_copy s i j : isValid s j = true -> castTo s i j = Reference_copy s i j.
Proof.
  unfold isValid, castTo, Reference_copy, Reference_addRef. now destruct (getPtr s j).
Qed.

Lemma fastref_step s o : good s -> enabled s o -> exists s', step s o = Some s' /\ good s'.
Proof.
  intros H [En S]. destruct o; cbn [step] in *.
  - destruct En as [E T]. destruct (makeReference_ok s i js H E ltac:(lia)) as (s' & ? & ? & _). eauto.
  - destruct (Reference_copy_ok s i j H ltac:(lia) En) as (s' & ? & ? & _). eauto.
  - destruct En as (E & L & N). destruct (Reference_move_ok s i j H E L N) as (s' & ? & ? & _). eauto.
  - destruct En as [E V]. rewrite castTo_copy by exact V.
    destruct (Reference_copy_ok s i j H ltac:(lia) E) as (s' & ? & ? & _). eauto.
  - destruct (Reference_assign_ok s i j H S (proj1 En)) as (s' & ? & ? & _). eauto.
  - destruct (Reference_move_assign_ok s i j H ltac:(lia) (proj1 En) (proj2 En)) as (s' & ? & ? & _).
    eauto.
  - destruct (Reference_clear_ok s i H ltac:(lia) En) as (s' & ? & ? & _). eauto.
  - destruct (Reference_destroy_ok s i H ltac:(lia) En) as (s' & ? & ? & _). eauto.
  - eexists. split; [reflexivity|]. now apply extract_ok.
  - eexists. split; [reflexivity|]. destruct En. now apply adopt_ok.
Qed.

(** Stores reached from [n] null variables. *)
Inductive fr_reachable (n : nat) : store -> Prop :=
| fr_init : fr_reachable n (mkStore [] (repeat None n) [])
| fr_step s o s' : fr_reachable n s -> enabled s o -> step s o = Some s' -> fr_reachable n s'.

Lemma good_init n : good (mkStore [] (repeat None n) []).
Proof.
  intros x. unfold object_at. cbn [cells vars raws]. rewrite nth_error_nil. unfold refs, occ. cbn [sumL].
  induction n as [|n IH]; cbn [repeat sumL var_occ]; lia.
Qed.

Lemma fr_good n s : fr_reachable n s -> good s.
Proof.
  induction 1 as [|s o s' R IH En St]; [apply good_init|].
  destruct (fastref_step s o IH En) as (s2 & E & H). rewrite E in St. now injection St as <-.
Qed.

(** * Property *)

(** C8: in every state of every program that uses [Reference] (construction,
    copies, moves, assignments, casts, clearing, destruction, extraction and
    adoption of raw pointers, objects that own references themselves) an object
    is alive exactly as long as some variable, raw pointer or living object
    refers to it, and its count is the number of those references: nothing is
    freed while referenced, and what is no longer referenced has been freed;
    every allowed operation ends, cascading deletions included, without
    touching a freed object. *)
Theorem fastref_correct (n : nat) (s : store) (R : fr_reachable n s) :
  (forall x, match object_at (cells s) x with
    | Some o => referenceCount o = refs (cells s) (vars s) (raws s) x /\ 0 < referenceCount o
    | None => refs (cells s) (vars s) (raws s) x = 0
    end) /\
  (forall o, enabled s o -> exists s', step s o = Some s').
Proof.
  pose proof (fr_good n s R) as H. split.
  - intros x. specialize (H x). rewrite Z.add_0_r in H. exact H.
  - intros o En. destruct (fastref_step s o H En) as (s' & E & _). eauto.
Qed.

Lemma fastref_correct_witness :
  exists s, run (mkStore [] (repeat None 2) []) [OMake 0 []; OMake 1 [0%nat]; OClear 0] = Some s /\
    (forall o, enabled s o -> exists s', step s o = Some s').
Proof.
  eexists. split; [reflexivity|].
  apply (fastref_correct 2).
  assert (B : forall s o s', fr_reachable 2 s -> step s o = Some s' -> enabled s o -> fr_reachable 2 s')
    by (intros s o s' Rs St En; exact (fr_step 2 s o s' Rs En St)).
  refine (B _ (OClear 0) _ (B _ (OMake 1 [0%nat]) _ (B _ (OMake 0 []) _ (fr_init 2) eq_refl _)
    eq_refl _) eq_refl _); cbn; unfold total, size; cbn; repeat split; try reflexivity; cbn; lia.
Defined.
