(* ===== verification/WriteOnlySet.v ===== *)
(** flow/WriteOnlySet.h and WriteOnlySet.cpp: the lock-free set of counted objects.

    A slot holds 0 or an address whose last bit is the lock.  The writers (any
    number, each the owner of the indices its inserts returned) and one copier run
    in steps of one atomic access each: a load, a compare-and-swap, a store, a
    push or pop of a queue, an [addref] or a [delref].  [rc] counts the references
    of the object at an address and is 0 where there is none, so an address can be
    used again after its object died.  [bad] records an [addref] or [delref] of a
    dead object or a failed assertion, [aborted] the assertion of [replace] that
    the free list has room; a push to a full free list in [eraseImpl] is ignored
    there and leaks its reference. *)

From Stdlib Require Import ZArith List Bool Lia PeanoNat.
From S2P Require Import Prelude.
Import ListNotations Counting.
#[local] Open Scope Z_scope.

Definition slot := option (nat * bool).

(** Where a writer is in its operation; [a] and [new] are the caller's reference,
    held for the whole call. *)
Inductive wpc :=
| WIdle
| WInsPop (a : nat)
| WInsCheck (a idx : nat)
| WInsAdd (a idx : nat)
| WInsStore (a idx : nat)
| WEraLoad (idx : nat)
| WEraTry (idx : nat) (v : slot)
| WEraPush (idx p : nat)
| WEraDel (idx p : nat)
| WEraFree (idx : nat)
| WRepAdd (idx : nat) (new : option nat)
| WRepLoad (idx : nat) (new : option nat)
| WRepTry (idx : nat) (new : option nat) (v : slot)
| WRepPush (idx p : nat) (new : option nat)
| WRepDel (idx p : nat) (new : option nat).

Record writer := mkWriter { pc : wpc; owned : list nat }.

Inductive cpc :=
| CIdle
| CLoad (i : nat) (res : list nat)
| CLock (i p : nat) (res : list nat)
| CAdd (i p : nat) (res : list nat)
| CUnlock (i p : nat) (res : list nat)
| CConsume (res : list nat)
| CDel (p : nat) (res : list nat).

Record shared := mkShared {
  rc : nat -> Z; slots : list slot; freeQueue : list nat; freeList : list nat;
  ext : list nat; leaked : list nat; bad : bool; aborted : bool
}.

Definition CAPACITY (s : shared) : nat := length (slots s).

(** * Accesses *)

Definition upd (f : nat -> Z) (a : nat) (v : Z) : nat -> Z := fun x => if Nat.eqb x a then v else f x.

Definition with_rc (s : shared) (a : nat) (d : Z) : shared :=
  mkShared (upd (rc s) a (rc s a + d)) (slots s) (freeQueue s) (freeList s) (ext s) (leaked s) (bad s || (rc s a <=? 0)) (aborted s).
Definition addref (s : shared) (a : nat) : shared := with_rc s a 1.
Definition delref (s : shared) (a : nat) : shared := with_rc s a (-1).

Definition load (s : shared) (i : nat) : slot := nth i (slots s) None.
Definition store (s : shared) (i : nat) (v : slot) : shared :=
  mkShared (rc s) (set_nth (slots s) i v) (freeQueue s) (freeList s) (ext s) (leaked s) (bad s) (aborted s).
Definition slot_eqb (u v : slot) : bool :=
  match u, v with
  | None, None => true
  | Some (p, l), Some (q, k) => Nat.eqb p q && Bool.eqb l k
  | _, _ => false
  end.
Definition locked (v : slot) : bool := match v with Some (_, l) => l | None => false end.
Definition pointer (v : slot) : option nat := option_map fst v.
Definition set_ext (s : shared) (e : list nat) : shared :=
  mkShared (rc s) (slots s) (freeQueue s) (freeList s) e (leaked s) (bad s) (aborted s).
Definition set_queue (s : shared) (q : list nat) : shared :=
  mkShared (rc s) (slots s) q (freeList s) (ext s) (leaked s) (bad s) (aborted s).
Definition set_list (s : shared) (l : list nat) : shared :=
  mkShared (rc s) (slots s) (freeQueue s) l (ext s) (leaked s) (bad s) (aborted s).
Definition leak (s : shared) (p : nat) : shared :=
  mkShared (rc s) (slots s) (freeQueue s) (freeList s) (ext s) (p :: leaked s) (bad s) (aborted s).
Definition fail (s : shared) (b : bool) : shared :=
  mkShared (rc s) (slots s) (freeQueue s) (freeList s) (ext s) (leaked s) (bad s || b) (aborted s).
Definition abort (s : shared) : shared :=
  mkShared (rc s) (slots s) (freeQueue s) (freeList s) (ext s) (leaked s) (bad s) true.

Definition list_full (s : shared) : bool := (CAPACITY s <=? length (freeList s))%nat.
Definition queue_full (s : shared) : bool := (CAPACITY s <=? length (freeQueue s))%nat.

Definition opt (o : option nat) : list nat := match o with Some a => [a] | None => [] end.

(** * The writers' steps *)

Definition writer_step (s : shared) (w : writer) : shared * writer :=
  let go pc' := mkWriter pc' (owned w) in
  match pc w with
  | WIdle => (s, w)
  (* insert *)
  | WInsPop a =>
      match freeQueue s with
      | [] => (set_ext s (a :: ext s), go WIdle)
      | idx :: q => (set_queue s q, go (WInsCheck a idx))
      end
  | WInsCheck a idx => (fail s (negb (slot_eqb (load s idx) None)), go (WInsAdd a idx))
  | WInsAdd a idx => (addref s a, go (WInsStore a idx))
  | WInsStore a idx => (set_ext (store s idx (Some (a, false))) (a :: ext s), mkWriter WIdle (idx :: owned w))
  (* eraseImpl and erase *)
  | WEraLoad idx => (s, go (WEraTry idx (load s idx)))
  | WEraTry idx v =>
      match v with
      | Some (p, true) => (store s idx None, go (WEraPush idx p))
      | _ => if slot_eqb (load s idx) v then
               match v with
               | Some (p, _) => (store s idx None, go (WEraDel idx p))
               | None => (fail s true, go (WEraFree idx))
               end
             else (s, go (WEraLoad idx))
      end
  | WEraPush idx p => (if list_full s then leak s p else set_list s (freeList s ++ [p]), go (WEraFree idx))
  | WEraDel idx p => (delref s p, go (WEraFree idx))
  | WEraFree idx => (if queue_full s then fail s true else set_queue s (freeQueue s ++ [idx]), go WIdle)
  (* replace *)
  | WRepAdd idx new => (match new with Some a => addref s a | None => s end, go (WRepLoad idx new))
  | WRepLoad idx new => (s, go (WRepTry idx new (load s idx)))
  | WRepTry idx new v =>
      let nv := option_map (fun a => (a, false)) new in
      match v with
      | Some (p, true) => (store s idx nv, go (WRepPush idx p new))
      | _ => if slot_eqb (load s idx) v then
               match v with
               | Some (p, _) => (store s idx nv, go (WRepDel idx p new))
               | None => (set_ext (store s idx nv) (opt new ++ ext s), mkWriter WIdle (idx :: owned w))
               end
             else (s, go (WRepLoad idx new))
      end
  | WRepPush idx p new =>
      if list_full s then (abort (leak (set_ext s (opt new ++ ext s)) p), mkWriter WIdle (idx :: owned w))
      else (set_ext (set_list s (freeList s ++ [p])) (opt new ++ ext s), mkWriter WIdle (idx :: owned w))
  | WRepDel idx p new => (set_ext (delref s p) (opt new ++ ext s), mkWriter WIdle (idx :: owned w))
  end.

(** * The copier's steps *)

Definition copier_step (s : shared) (c : cpc) : shared * cpc :=
  match c with
  | CIdle => (s, c)
  | CLoad i res =>
      if (CAPACITY s <=? i)%nat then (s, CConsume res)
      else match load s i with
           | None => (s, CLoad (S i) res)
           | Some (p, l) => (fail s l, CLock i p res)
           end
  | CLock i p res =>
      if slot_eqb (load s i) (Some (p, false)) then (store s i (Some (p, true)), CAdd i p res) else (s, CLoad (S i) res)
  | CAdd i p res => (addref s p, CUnlock i p res)
  | CUnlock i p res =>
      (if slot_eqb (load s i) (Some (p, true)) then store s i (Some (p, false)) else s, CLoad (S i) (res ++ [p]))
  | CConsume res =>
      match freeList s with
      | [] => (set_ext s (res ++ ext s), CIdle)
      | p :: l => (set_list s l, CDel p res)
      end
  | CDel p res => (delref s p, CConsume res)
  end.

(** * Interleavings *)

Record state := mkState { sh : shared; writers : list writer; copier : cpc }.

(** [New a]: an object is made at a free address; [Drop a]: a reference outside
    the set is given up; then calls of the set, and steps of threads.  A call is
    made with a reference the caller holds, on an index it owns; an index whose
    slot was replaced by null is not erased. *)
Inductive event :=
| New (a : nat)
| Drop (a : nat)
| Insert (w a : nat)
| Erase (w idx : nat)
| Replace (w idx : nat) (new : option nat)
| Step (w : nat)
| Copy
| CopyStep.

Definition idle (w : writer) : bool := match pc w with WIdle => true | _ => false end.

Definition step (st : state) (e : event) : option state :=
  let s := sh st in
  if aborted s then None else
  match e with
  | New a => if rc s a =? 0 then Some (mkState (set_ext (mkShared (upd (rc s) a 1) (slots s) (freeQueue s) (freeList s) (ext s) (leaked s) (bad s) (aborted s)) (a :: ext s)) (writers st) (copier st)) else None
  | Drop a => if holds a (ext s) then Some (mkState (delref (set_ext s (remove1 a (ext s))) a) (writers st) (copier st)) else None
  | Insert i a =>
      match nth_error (writers st) i with
      | Some w => if idle w && holds a (ext s)
                  then Some (mkState (set_ext s (remove1 a (ext s))) (set_nth (writers st) i (mkWriter (WInsPop a) (owned w))) (copier st)) else None
      | None => None
      end
  | Erase i idx =>
      match nth_error (writers st) i with
      | Some w => if idle w && holds idx (owned w) && negb (slot_eqb (load s idx) None)
                  then Some (mkState s (set_nth (writers st) i (mkWriter (WEraLoad idx) (remove1 idx (owned w)))) (copier st)) else None
      | None => None
      end
  | Replace i idx new =>
      match nth_error (writers st) i with
      | Some w => if idle w && holds idx (owned w) && forallb (fun a => holds a (ext s)) (opt new)
                  then Some (mkState (set_ext s (match new with Some a => remove1 a (ext s) | None => ext s end))
                               (set_nth (writers st) i (mkWriter (WRepAdd idx new) (remove1 idx (owned w)))) (copier st)) else None
      | None => None
      end
  | Step i =>
      match nth_error (writers st) i with
      | Some w => let '(s', w') := writer_step s w in Some (mkState s' (set_nth (writers st) i w') (copier st))
      | None => None
      end
  | Copy => match copier st with CIdle => Some (mkState s (writers st) (CLoad 0 [])) | _ => None end
  | CopyStep => let '(s', c') := copier_step s (copier st) in Some (mkState s' (writers st) c')
  end.

Fixpoint run (st : state) (es : list event) : option state :=
  match es with [] => Some st | e :: es => match step st e with Some st' => run st' es | None => None end end.

(** The constructor: every slot empty, the indices in reverse order. *)
Definition new_set (capacity threads : nat) : state :=
  mkState (mkShared (fun _ => 0) (repeat None capacity) (rev (seq 0 capacity)) [] [] [] false false)
    (repeat (mkWriter WIdle []) threads) CIdle.

(** * WriteOnlyVariable: a set of one slot whose index is never taken from the
    queue; every thread that may call [replace] names it.  No operation of the
    variable reads the queue, which is left empty here. *)
Definition new_variable (threads : nat) : state :=
  mkState (mkShared (fun _ => 0) [None] [] [] [] [] false false) (repeat (mkWriter WIdle [O]) threads) CIdle.
Definition variable_replace (w : nat) (element : option nat) : event := Replace w 0 element.
Definition variable_get (result : list nat) : option nat := hd_error result.
