(* ===== verification/WriteOnlySetProofs.v ===== *)
(** Safety of the lock-free set: in every interleaving of the writers and the
    copier no dead object is touched, the counts are the references that exist,
    and a copy holds every object that stays in the set while it runs. *)

From Stdlib Require Import ZArith List Bool Lia PeanoNat.
From S2P Require Import Prelude WriteOnlySet.
Import ListNotations Counting.
#[local] Open Scope Z_scope.

(** * Where references and indices are *)

Definition slot_refs (a : nat) (v : slot) : Z := cnt a (opt (pointer v)).

Definition writer_refs (a : nat) (w : writer) : Z :=
  match pc w with
  | WInsPop x | WInsCheck x _ | WInsAdd x _ => one a x
  | WInsStore x _ => 2 * one a x
  | WEraPush _ p | WEraDel _ p => one a p
  | WRepAdd _ new => cnt a (opt new)
  | WRepLoad _ new | WRepTry _ new _ => 2 * cnt a (opt new)
  | WRepPush _ p new | WRepDel _ p new => cnt a (opt new) + one a p
  | _ => 0
  end.

Definition copier_refs (a : nat) (c : cpc) : Z :=
  match c with
  | CIdle => 0
  | CLoad _ res | CLock _ _ res | CAdd _ _ res | CConsume res => cnt a res
  | CUnlock _ p res | CDel p res => cnt a res + one a p
  end.

(** References to [a] in the shared state, and in all. *)
Definition shared_refs (a : nat) (s : shared) : Z :=
  cnt a (ext s) + sumL (slot_refs a) (slots s) + cnt a (freeList s) + cnt a (leaked s).
Definition references (st : state) (a : nat) : Z :=
  shared_refs a (sh st) + sumL (writer_refs a) (writers st) + copier_refs a (copier st).

(** The index a writer works on. *)
Definition pc_index (c : wpc) : option nat :=
  match c with
  | WIdle | WInsPop _ => None
  | WInsCheck _ i | WInsAdd _ i | WInsStore _ i | WEraLoad i | WEraTry i _ | WEraPush i _ | WEraDel i _ | WEraFree i
  | WRepAdd i _ | WRepLoad i _ | WRepTry i _ _ | WRepPush i _ _ | WRepDel i _ _ => Some i
  end.
Definition writer_index (i : nat) (w : writer) : Z := cnt i (owned w) + cnt i (opt (pc_index (pc w))).

(** References that only the copier can drop. *)
Definition pushing (a : nat) (w : writer) : Z :=
  match pc w with WEraPush _ p | WRepPush _ p _ => one a p | _ => 0 end.
Definition parked (a : nat) (s : shared) : Z := cnt a (freeList s) + cnt a (leaked s).

Definition at_slot (s : shared) (i : nat) : option nat := pointer (load s i).

(** What a writer knows about the slot it works on. *)
Definition writer_ok (s : shared) (w : writer) : Prop :=
  match pc w with
  | WInsCheck _ i | WInsAdd _ i | WInsStore _ i | WEraPush i _ | WEraDel i _ | WEraFree i => at_slot s i = None
  | WEraLoad i => at_slot s i <> None
  | WEraTry i v => at_slot s i = pointer v /\ pointer v <> None
  | WRepTry i _ v => at_slot s i = pointer v
  | _ => True
  end.

(** A locked slot is the copier's; an object it is about to count stays counted. *)
Definition lock_ok (s : shared) (c : cpc) : Prop :=
  forall i p, load s i = Some (p, true) -> exists res, c = CAdd i p res \/ c = CUnlock i p res.
Definition pending_ok (st : state) : Prop :=
  match copier st with
  | CAdd i p _ => load (sh st) i = Some (p, true) \/ 0 < parked p (sh st) + sumL (pushing p) (writers st)
  | _ => True
  end.

Record inv (st : state) : Prop := {
  inv_refs : forall a, rc (sh st) a = references st a;
  inv_index : forall i, cnt i (freeQueue (sh st)) + sumL (writer_index i) (writers st) = if (i <? CAPACITY (sh st))%nat then 1 else 0;
  inv_free : forall i, In i (freeQueue (sh st)) -> at_slot (sh st) i = None;
  inv_writers : Forall (writer_ok (sh st)) (writers st);
  inv_lock : lock_ok (sh st) (copier st);
  inv_pending : pending_ok st;
  inv_good : bad (sh st) = false
}.

(** * Counting *)

Lemma writer_refs_nonneg a w : 0 <= writer_refs a w.
Proof.
  unfold writer_refs. destruct (pc w); counts; lia.
Qed.
Lemma writer_index_nonneg i w : 0 <= writer_index i w.
Proof. unfold writer_index. counts; lia. Qed.
Lemma pushing_nonneg a w : 0 <= pushing a w.
Proof. unfold pushing. destruct (pc w); counts; lia. Qed.
Lemma slot_refs_nonneg a v : 0 <= slot_refs a v.
Proof. apply cnt_nonneg. Qed.
Lemma copier_refs_nonneg a c : 0 <= copier_refs a c.
Proof. unfold copier_refs. destruct c; counts; lia. Qed.
Lemma pushing_refs a w : pushing a w <= writer_refs a w.
Proof. unfold pushing, writer_refs. destruct (pc w); counts; lia. Qed.

(** * Slots *)

Lemma slot_eqb_spec u v : slot_eqb u v = true <-> u = v.
Proof.
  destruct u as [[p l]|], v as [[q k]|]; cbn; try (split; congruence).
  rewrite andb_true_iff, Nat.eqb_eq, eqb_true_iff. split; [intros [-> ->]; reflexivity|intros [= -> ->]; auto].
Qed.

Lemma load_store s i v j : (i < CAPACITY s)%nat -> load (store s i v) j = if Nat.eqb j i then v else load s j.
Proof.
  intros H. unfold load, store. cbn [slots]. destruct (nth_error (slots s) i) eqn:E.
  - rewrite <- !nth_default_eq. unfold nth_default. rewrite (nth_error_set _ _ _ _ _ E). now destruct (Nat.eqb j i).
  - apply nth_error_None in E. unfold CAPACITY in H. lia.
Qed.

Lemma load_error s i : (i < CAPACITY s)%nat -> nth_error (slots s) i = Some (load s i).
Proof. intros H. unfold load. now apply nth_error_nth'. Qed.

Lemma refs_store s i v a : (i < CAPACITY s)%nat ->
  sumL (slot_refs a) (slots (store s i v)) = sumL (slot_refs a) (slots s) - slot_refs a (load s i) + slot_refs a v.
Proof. intros H. apply sumL_set, load_error, H. Qed.

Lemma capacity_store s i v : CAPACITY (store s i v) = CAPACITY s.
Proof. apply set_nth_length. Qed.

Lemma load_in s i : load s i <> None -> (i < CAPACITY s)%nat.
Proof. intros H. destruct (Nat.lt_ge_cases i (CAPACITY s)) as [L|L]; [exact L|]. destruct H. now apply nth_overflow. Qed.

Lemma shared_refs_nonneg a s : 0 <= shared_refs a s.
Proof. unfold shared_refs. pose proof (sumL_nonneg (slot_refs a) (slots s) (slot_refs_nonneg a)). counts. lia. Qed.

(** * One writer moves *)

Lemma own_index w i : pc_index (pc w) = Some i -> 0 < writer_index i w.
Proof. intros E. unfold writer_index. rewrite E. cbn [opt]. autorewrite with cntdb. counts. lia. Qed.

(** What a step of one writer, from [s] and [w] to [s'] and [w'], may do. *)
Record moves (s : shared) (w : writer) (s' : shared) (w' : writer) : Prop := {
  moves_refs : forall a, rc s' a - rc s a = shared_refs a s' + writer_refs a w' - shared_refs a s - writer_refs a w;
  moves_index : forall i, cnt i (freeQueue s') + writer_index i w' = cnt i (freeQueue s) + writer_index i w;
  moves_capacity : CAPACITY s' = CAPACITY s;
  moves_slots : forall i, at_slot s' i = at_slot s i \/ pc_index (pc w) = Some i;
  moves_free : forall i, In i (freeQueue s') -> at_slot s' i = None;
  moves_ok : writer_ok s' w';
  moves_locks : forall i p, load s' i = Some (p, true) -> load s i = Some (p, true);
  moves_parked : forall p, parked p s + pushing p w <= parked p s' + pushing p w';
  moves_unlock : forall i p, load s i = Some (p, true) -> load s' i = Some (p, true) \/ 0 < pushing p w';
  moves_good : bad s' = false
}.

Lemma writer_ok_frame s s' w : (forall i, at_slot s' i = at_slot s i \/ writer_index i w <= 0) -> writer_ok s w -> writer_ok s' w.
Proof.
  intros H. unfold writer_ok.
  assert (K : forall i, pc_index (pc w) = Some i -> at_slot s' i = at_slot s i).
  { intros i E. destruct (H i) as [?|L]; [assumption|]. exfalso. unfold writer_index in L. rewrite E in L. cbn [opt] in L.
    autorewrite with cntdb in L. counts. lia. }
  destruct (pc w) eqn:E; cbn [pc_index] in K; auto; now rewrite K.
Qed.

Lemma inv_move st i w s' w' : inv st -> nth_error (writers st) i = Some w -> moves (sh st) w s' w' ->
  inv (mkState s' (set_nth (writers st) i w') (copier st)).
Proof.
  intros I E M. destruct I as [R X F W L P G], M. constructor; cbn [sh writers copier]; auto.
  - intros a. unfold references in *. cbn [sh writers copier]. rewrite (sumL_set _ _ _ _ _ E). specialize (R a). specialize (moves_refs0 a). lia.
  - intros j. rewrite (sumL_set _ _ _ _ _ E), moves_capacity0, <- X. specialize (moves_index0 j). lia.
  - apply Forall_forall. intros w2 I2. apply In_nth_error in I2. destruct I2 as (k & Hk). rewrite (nth_error_set _ _ _ _ _ E) in Hk.
    destruct (Nat.eqb_spec k i) as [_|N]; [injection Hk as <-; exact moves_ok0|].
    apply (writer_ok_frame (sh st)); [|apply (nth_error_Forall _ _ _ _ W Hk)].
    intros j. destruct (moves_slots0 j) as [?|J]; [auto|]. right. apply own_index in J. specialize (X j).
    pose proof (sumL_two _ _ _ _ _ _ (writer_index_nonneg j) E Hk N). counts.
    destruct (j <? CAPACITY (sh st))%nat; lia.
  - intros j p H. apply L, moves_locks0, H.
  - unfold pending_ok in *. cbn [sh writers copier]. destruct (copier st); auto. rewrite (sumL_set _ _ _ _ _ E).
    pose proof (moves_parked0 p). destruct P as [P|P]; [|right; lia].
    destruct (moves_unlock0 _ _ P) as [?|Q]; [auto|]. right.
    assert (0 <= parked p s') by (unfold parked; counts; lia).
    pose proof (sumL_member _ _ _ (pushing_nonneg p) (nth_error_In _ _ E)). lia.
Qed.

(** * The accesses, seen by the counts *)

Lemma rc_with_rc s a d x : rc (with_rc s a d) x = rc s x + d * one x a.
Proof. unfold with_rc, upd, one. cbn [rc]. destruct (Nat.eqb_spec x a) as [->|N]; lia. Qed.
Lemma rc_set_ext s e x : rc (set_ext s e) x = rc s x.
Proof. reflexivity. Qed.
Lemma bad_with_rc s a d : 0 < rc s a -> bad (with_rc s a d) = bad s.
Proof. intros H. cbn. destruct (Z.leb_spec (rc s a) 0); [lia|apply orb_false_r]. Qed.

Lemma shared_with_rc s a d x : shared_refs x (with_rc s a d) = shared_refs x s.
Proof. reflexivity. Qed.
Lemma shared_set_queue s q x : shared_refs x (set_queue s q) = shared_refs x s.
Proof. reflexivity. Qed.
Lemma shared_fail s b x : shared_refs x (fail s b) = shared_refs x s.
Proof. reflexivity. Qed.
Lemma shared_abort s x : shared_refs x (abort s) = shared_refs x s.
Proof. reflexivity. Qed.
Lemma shared_set_ext s e x : shared_refs x (set_ext s e) = shared_refs x s - cnt x (ext s) + cnt x e.
Proof. unfold shared_refs. cbn [set_ext set_list ext slots freeList leaked]. lia. Qed.
Lemma shared_set_list s l x : shared_refs x (set_list s l) = shared_refs x s - cnt x (freeList s) + cnt x l.
Proof. unfold shared_refs. cbn [set_ext set_list ext slots freeList leaked]. lia. Qed.
Lemma shared_leak s p x : shared_refs x (leak s p) = shared_refs x s + one x p.
Proof. unfold shared_refs. cbn [leak ext slots freeList leaked]. rewrite cnt_head. lia. Qed.
Lemma shared_store s i v x : (i < CAPACITY s)%nat ->
  shared_refs x (store s i v) = shared_refs x s - slot_refs x (load s i) + slot_refs x v.
Proof. intros H. unfold shared_refs. rewrite refs_store by exact H. cbn [store ext freeList leaked]. lia. Qed.

Lemma parked_set_list s l x : parked x (set_list s l) = parked x s - cnt x (freeList s) + cnt x l.
Proof. unfold parked. cbn [set_list freeList leaked]. lia. Qed.
Lemma parked_leak s p x : parked x (leak s p) = parked x s + one x p.
Proof. unfold parked. cbn [leak freeList leaked]. rewrite cnt_head. lia. Qed.

Lemma parked_set_ext s e x : parked x (set_ext s e) = parked x s.
Proof. reflexivity. Qed.
Lemma parked_abort s x : parked x (abort s) = parked x s.
Proof. reflexivity. Qed.

Lemma at_store s i v j : (i < CAPACITY s)%nat -> at_slot (store s i v) j = if Nat.eqb j i then pointer v else at_slot s j.
Proof. intros H. unfold at_slot. rewrite load_store by exact H. now destruct (Nat.eqb j i). Qed.

#[export] Hint Rewrite rc_with_rc rc_set_ext shared_with_rc shared_set_queue shared_fail shared_abort shared_set_ext shared_set_list
  shared_leak parked_set_list parked_leak parked_set_ext parked_abort : cntdb.

(** A step that changes no slot. *)
Lemma moves_still s w s' w' : slots s' = slots s ->
  (forall a, rc s' a - rc s a = shared_refs a s' + writer_refs a w' - shared_refs a s - writer_refs a w) ->
  (forall i, cnt i (freeQueue s') + writer_index i w' = cnt i (freeQueue s) + writer_index i w) ->
  (forall i, In i (freeQueue s') -> at_slot s i = None) ->
  writer_ok s w' -> (forall p, parked p s + pushing p w <= parked p s' + pushing p w') -> bad s' = false ->
  moves s w s' w'.
Proof.
  intros S R X F O P G.
  assert (L : forall i, load s' i = load s i) by (intros i; unfold load; now rewrite S).
  assert (A : forall i, at_slot s' i = at_slot s i) by (intros i; unfold at_slot; now rewrite L).
  constructor; auto.
  - unfold CAPACITY. now rewrite S.
  - intros i H. rewrite A. auto.
  - apply (writer_ok_frame s); auto.
  - intros i p. now rewrite L.
  - intros i p. rewrite L. auto.
Qed.

(** A store to the writer's own slot, and a reference returned to the caller. *)
Lemma moves_store s w i v e w' : (i < CAPACITY s)%nat -> pc_index (pc w) = Some i -> ~ In i (freeQueue s) ->
  (forall k, In k (freeQueue s) -> at_slot s k = None) -> bad s = false -> locked v = false ->
  (forall a, cnt a e + slot_refs a v + writer_refs a w' = cnt a (ext s) + slot_refs a (load s i) + writer_refs a w) ->
  (forall k, writer_index k w' = writer_index k w) ->
  (forall p, pushing p w <= pushing p w') -> (forall p, load s i = Some (p, true) -> 0 < pushing p w') ->
  writer_ok (store s i v) w' -> moves s w (set_ext (store s i v) e) w'.
Proof.
  intros H X N F G K R W P U O.
  assert (L : forall k, load (set_ext (store s i v) e) k = if Nat.eqb k i then v else load s k) by (intros k; apply (load_store s i v k H)).
  assert (A : forall k, at_slot (set_ext (store s i v) e) k = if Nat.eqb k i then pointer v else at_slot s k) by (intros k; apply (at_store s i v k H)).
  constructor; auto.
  - intros a. rewrite shared_set_ext, shared_store by exact H. cbn [set_ext store rc ext]. specialize (R a). lia.
  - intros k. now rewrite W.
  - apply capacity_store.
  - intros k. rewrite A. destruct (Nat.eqb_spec k i) as [->|_]; auto.
  - intros k I. rewrite A. destruct (Nat.eqb_spec k i) as [->|_]; [destruct (N I)|auto].
  - intros k p. rewrite L. destruct (Nat.eqb_spec k i) as [->|_]; [|auto]. intros ->. discriminate K.
  - intros p. specialize (P p). change (parked p (set_ext (store s i v) e)) with (parked p s). lia.
  - intros k p E. rewrite L. destruct (Nat.eqb_spec k i) as [->|_]; auto.
Qed.

(** * Every step of a writer *)

Section WriterSteps.
Context (s : shared) (w : writer).
Hypothesis OK : writer_ok s w.
Hypothesis HELD : forall a, writer_refs a w <= rc s a.
Hypothesis OWN : forall i, 0 < writer_index i w -> (i < CAPACITY s)%nat /\ ~ In i (freeQueue s) /\ queue_full s = false.
Hypothesis FREE : forall i, In i (freeQueue s) -> at_slot s i = None.
Hypothesis GOOD : bad s = false.

Ltac counted :=
  intros; unfold writer_refs, writer_index, pushing, slot_refs, addref, delref in *;
  repeat match goal with E : pc w = _ |- _ => rewrite E in * end;
  autorewrite with cntdb;
  cbn [pc owned pc_index opt pointer option_map fst rc freeQueue freeList ext set_queue set_ext set_list fail leak abort with_rc app store] in *;
  repeat match goal with E : freeQueue s = _ |- _ => rewrite E in * end;
  autorewrite with cntdb; rewrite ?cnt_head, ?cnt_nil, ?one_same in *; counts; try lia.

Lemma insert_moves : match pc w with WInsPop _ | WInsCheck _ _ | WInsAdd _ _ | WInsStore _ _ => True | _ => False end ->
  moves s w (fst (writer_step s w)) (snd (writer_step s w)).
Proof.
  intros B. unfold writer_step. pose proof (own_index w) as O. unfold writer_ok in OK. destruct (pc w) eqn:E; try destruct B; cbn [pc_index] in O.
  - destruct (freeQueue s) as [|k q] eqn:Q; cbn [fst snd]; apply moves_still; auto; try reflexivity; try (now counted).
    + intros i I. apply FREE. now right.
    + cbn. apply FREE. now left.
  - cbn [fst snd]. apply moves_still; auto; try reflexivity; try (now counted).
    unfold at_slot in OK. destruct (load s idx); [discriminate OK|]. cbn. now rewrite GOOD.
  - assert (0 < rc s a) by (specialize (HELD a); counted).
    cbn [fst snd]. apply moves_still; auto; try reflexivity; try (now counted).
    unfold addref. now rewrite bad_with_rc.
  - destruct (OWN idx (O _ eq_refl)) as (H & N & _). unfold at_slot in OK. destruct (load s idx) eqn:Ld; [discriminate OK|].
    cbn [fst snd]. apply moves_store; auto; try (now counted).
    + rewrite Ld. counted.
    + rewrite Ld. discriminate.
Qed.

Lemma erase_moves : match pc w with WEraLoad _ | WEraTry _ _ | WEraPush _ _ | WEraDel _ _ | WEraFree _ => True | _ => False end ->
  moves s w (fst (writer_step s w)) (snd (writer_step s w)).
Proof.
  intros B. unfold writer_step. pose proof (own_index w) as O. unfold writer_ok in OK. destruct (pc w) eqn:E; try destruct B; cbn [pc_index] in O.
  - cbn [fst snd]. apply moves_still; auto; try reflexivity; try (now counted).
  - destruct (OWN idx (O _ eq_refl)) as (H & N & _). destruct OK as [A V].
    destruct v as [[p []]|]; [| |now destruct V].
    + assert (Ld : exists l, load s idx = Some (p, l)) by (unfold at_slot in A; destruct (load s idx) as [[q l]|]; [injection A as ->; eauto|discriminate]).
      destruct Ld as [l Ld]. cbn [fst snd]. apply (moves_store s w idx None (ext s)); auto; try (now counted).
      * rewrite Ld. counted.
      * rewrite Ld. intros q [= <- ->]. counted.
      * cbn. rewrite at_store by exact H. now rewrite Nat.eqb_refl.
    + destruct (slot_eqb (load s idx) (Some (p, false))) eqn:C; cbn [fst snd].
      * apply slot_eqb_spec in C. apply (moves_store s w idx None (ext s)); auto; try (now counted).
        -- rewrite C. counted.
        -- rewrite C. discriminate.
        -- cbn. rewrite at_store by exact H. now rewrite Nat.eqb_refl.
      * apply moves_still; auto; try reflexivity; try (now counted). cbn. rewrite A. exact V.
  - cbn [fst snd]. destruct (list_full s); apply moves_still; auto; try reflexivity; try (now counted).
  - assert (0 < rc s p) by (specialize (HELD p); counted).
    cbn [fst snd]. apply moves_still; auto; try reflexivity; try (now counted).
    unfold delref. now rewrite bad_with_rc.
  - destruct (OWN idx (O _ eq_refl)) as (H & N & R). rewrite R. cbn [fst snd].
    apply moves_still; auto; try reflexivity; try (now counted).
    intros i I. cbn in I. apply in_app_or in I. destruct I as [I|[<-|[]]]; auto.
Qed.

Lemma replace_moves : match pc w with WRepAdd _ _ | WRepLoad _ _ | WRepTry _ _ _ | WRepPush _ _ _ | WRepDel _ _ _ => True | _ => False end ->
  moves s w (fst (writer_step s w)) (snd (writer_step s w)).
Proof.
  intros B. unfold writer_step. pose proof (own_index w) as O. unfold writer_ok in OK. destruct (pc w) eqn:E; try destruct B; cbn [pc_index] in O.
  - cbn [fst snd]. destruct new as [a|].
    + assert (0 < rc s a) by (specialize (HELD a); counted).
      apply moves_still; auto; try reflexivity; try (now counted). unfold addref. now rewrite bad_with_rc.
    + apply moves_still; auto; try reflexivity; try (now counted).
  - cbn [fst snd]. apply moves_still; auto; try reflexivity; try (now counted).
  - destruct (OWN idx (O _ eq_refl)) as (H & N & _).
    set (nv := option_map (fun a => (a, false)) new). assert (NL : locked nv = false) by (now destruct new).
    assert (NR : forall a, slot_refs a nv = cnt a (opt new)) by (now destruct new).
    destruct v as [[p []]|].
    + assert (Ld : exists l, load s idx = Some (p, l)) by (unfold at_slot in OK; destruct (load s idx) as [[q l]|]; [injection OK as ->; eauto|discriminate]).
      destruct Ld as [l Ld]. cbn [fst snd]. apply (moves_store s w idx nv (ext s)); auto; try (now counted).
      * intros a. rewrite NR, Ld. counted.
      * rewrite Ld. intros q [= <- ->]. counted.
    + destruct (slot_eqb (load s idx) (Some (p, false))) eqn:C; cbn [fst snd].
      * apply slot_eqb_spec in C. apply (moves_store s w idx nv (ext s)); auto; try (now counted).
        -- intros a. rewrite NR, C. counted.
        -- rewrite C. discriminate.
      * apply moves_still; auto; try reflexivity; try (now counted).
    + assert (Ld : load s idx = None) by (unfold at_slot in OK; destruct (load s idx); [discriminate|reflexivity]).
      rewrite Ld. cbn [slot_eqb fst snd]. apply moves_store; auto; try (now counted).
      * intros a. rewrite NR, Ld. counted.
      * rewrite Ld. discriminate.
  - destruct (list_full s); cbn [fst snd]; apply moves_still; auto; try reflexivity; try (now counted).
  - assert (0 < rc s p) by (specialize (HELD p); counted).
    cbn [fst snd]. apply moves_still; auto; try reflexivity; try (now counted).
    change (bad (with_rc s p (-1)) = false). now rewrite bad_with_rc.
Qed.

Lemma writer_moves : moves s w (fst (writer_step s w)) (snd (writer_step s w)).
Proof.
  destruct (pc w) eqn:E; try (apply insert_moves; now rewrite E); try (apply erase_moves; now rewrite E); try (apply replace_moves; now rewrite E).
  unfold writer_step. rewrite E. cbn [fst snd]. apply moves_still; auto; intros; lia.
Qed.
End WriterSteps.

(** * The invariant in every step *)

Lemma inv_holds st i w : inv st -> nth_error (writers st) i = Some w ->
  forall a, writer_refs a w <= rc (sh st) a.
Proof.
  intros I E a. rewrite (inv_refs _ I a). unfold references.
  pose proof (sumL_member _ _ _ (writer_refs_nonneg a) (nth_error_In _ _ E)).
  pose proof (shared_refs_nonneg a (sh st)). pose proof (copier_refs_nonneg a (copier st)). lia.
Qed.

Lemma inv_unique st i : inv st -> cnt i (freeQueue (sh st)) + sumL (writer_index i) (writers st) <= 1.
Proof. intros I. rewrite (inv_index _ I i). destruct (i <? CAPACITY (sh st))%nat; lia. Qed.

Lemma queue_room st i : inv st -> (i < CAPACITY (sh st))%nat -> ~ In i (freeQueue (sh st)) -> queue_full (sh st) = false.
Proof.
  intros I R N. unfold queue_full. apply Nat.leb_gt.
  assert (ND : NoDup (i :: freeQueue (sh st))).
  { constructor; [exact N|]. apply (NoDup_count_occ Nat.eq_dec). intros x. pose proof (inv_unique st x I).
    pose proof (sumL_nonneg _ (writers st) (writer_index_nonneg x)). rewrite cnt_occ in *. lia. }
  assert (IN : incl (i :: freeQueue (sh st)) (seq 0 (CAPACITY (sh st)))).
  { intros x [<-|X]; apply in_seq; [lia|]. apply cnt_in in X. pose proof (inv_index _ I x) as K.
    pose proof (sumL_nonneg _ (writers st) (writer_index_nonneg x)). destruct (Nat.ltb_spec x (CAPACITY (sh st))); lia. }
  pose proof (NoDup_incl_length ND IN) as L. rewrite length_seq in L. cbn [length] in L. lia.
Qed.

Lemma inv_owns st k w i : inv st -> nth_error (writers st) k = Some w -> 0 < writer_index i w ->
  (i < CAPACITY (sh st))%nat /\ ~ In i (freeQueue (sh st)) /\ queue_full (sh st) = false.
Proof.
  intros I E X. pose proof (sumL_member _ _ _ (writer_index_nonneg i) (nth_error_In _ _ E)) as M.
  pose proof (inv_index _ I i) as J. pose proof (cnt_nonneg i (freeQueue (sh st))).
  destruct (Nat.ltb_spec i (CAPACITY (sh st))) as [L|L]; [|lia].
  assert (N : ~ In i (freeQueue (sh st))) by (rewrite <- cnt_in; lia).
  split; [exact L|]. split; [exact N|]. apply (queue_room st i); assumption.
Qed.

Lemma inv_moves st i w : inv st -> nth_error (writers st) i = Some w ->
  moves (sh st) w (fst (writer_step (sh st) w)) (snd (writer_step (sh st) w)).
Proof.
  intros I E. apply writer_moves; try apply I.
  - apply (nth_error_Forall _ _ _ _ (inv_writers _ I) E).
  - apply (inv_holds st i w I E).
  - intros k. apply (inv_owns st i w k I E).
Qed.

(** Steps that leave the writers alone. *)
Lemma inv_copier st s' c' : inv st ->
  (forall a, rc s' a - rc (sh st) a = shared_refs a s' + copier_refs a c' - shared_refs a (sh st) - copier_refs a (copier st)) ->
  freeQueue s' = freeQueue (sh st) -> CAPACITY s' = CAPACITY (sh st) -> (forall i, at_slot s' i = at_slot (sh st) i) ->
  lock_ok s' c' -> pending_ok (mkState s' (writers st) c') -> bad s' = false ->
  inv (mkState s' (writers st) c').
Proof.
  intros I R Q C A L P G. constructor; cbn [sh writers copier]; auto.
  - intros a. pose proof (inv_refs _ I a) as J. unfold references in *. cbn [sh writers copier]. specialize (R a). lia.
  - intros i. rewrite Q, C. apply (inv_index _ I).
  - intros i. rewrite Q, A. apply (inv_free _ I).
  - apply (Forall_impl _ (fun w => writer_ok_frame (sh st) s' w (fun i => or_introl (A i))) (inv_writers _ I)).
Qed.

Lemma idle_pc w : idle w = true -> pc w = WIdle.
Proof. unfold idle. destruct (pc w); congruence. Qed.

Ltac call_counts w :=
  intros; unfold writer_refs, writer_index, pushing, parked in *; repeat match goal with E : pc w = _ |- _ => rewrite E in * end;
  autorewrite with cntdb; rewrite ?cnt_remove1 by assumption; cbn [pc owned pc_index opt rc set_ext freeQueue freeList leaked ext] in *;
  autorewrite with cntdb; rewrite ?cnt_remove1 by assumption; counts; try lia.

Lemma inv_call st i w s' w' : inv st -> nth_error (writers st) i = Some w -> pc w = WIdle ->
  slots s' = slots (sh st) -> freeQueue s' = freeQueue (sh st) -> freeList s' = freeList (sh st) -> leaked s' = leaked (sh st) ->
  bad s' = bad (sh st) -> rc s' = rc (sh st) ->
  (forall a, cnt a (ext s') + writer_refs a w' = cnt a (ext (sh st))) ->
  (forall k, writer_index k w' = cnt k (owned w)) -> writer_ok (sh st) w' -> (forall p, 0 <= pushing p w') ->
  inv (mkState s' (set_nth (writers st) i w') (copier st)).
Proof.
  intros I E D S Q F K B R X W O P. apply (inv_move st i w); [exact I|exact E|]. apply moves_still; auto.
  - intros a. rewrite R. unfold shared_refs. rewrite S, F, K. specialize (X a). unfold writer_refs at 2. rewrite D. lia.
  - intros k. rewrite Q, W. unfold writer_index. rewrite D. cbn [pc_index opt]. rewrite cnt_nil. lia.
  - rewrite Q. apply (inv_free _ I).
  - intros p. unfold parked. rewrite F, K. unfold pushing at 1. rewrite D. specialize (P p). lia.
  - rewrite B. apply (inv_good _ I).
Qed.

Lemma inv_step_call st e st' : inv st -> step st e = Some st' ->
  match e with Insert _ _ | Erase _ _ | Replace _ _ _ => inv st' | _ => True end.
Proof.
  intros I. unfold step. destruct (aborted (sh st)); [discriminate|].
  destruct e as [| |k a|k idx|k idx new| | |]; auto; destruct (nth_error (writers st) k) as [w|] eqn:E; try discriminate.
  - destruct (idle w) eqn:D; [|discriminate]. destruct (holds a (ext (sh st))) eqn:H; [|discriminate].
    apply idle_pc in D. apply holds_in in H. intros [= <-]. apply (inv_call st k w); auto; try reflexivity; try (now call_counts w).
  - destruct (idle w) eqn:D; [|discriminate]. destruct (holds idx (owned w)) eqn:H; [|discriminate].
    destruct (slot_eqb (load (sh st) idx) None) eqn:V; [discriminate|].
    apply idle_pc in D. apply holds_in in H. intros [= <-]. apply (inv_call st k w); auto; try reflexivity; try (now call_counts w).
    cbn. unfold at_slot. destruct (load (sh st) idx); [discriminate|discriminate V].
  - destruct (idle w) eqn:D; [|discriminate]. destruct (holds idx (owned w)) eqn:H; [|discriminate].
    destruct (forallb _ (opt new)) eqn:N; [|discriminate].
    apply idle_pc in D. apply holds_in in H. intros [= <-]. destruct new as [a|]; cbn in N; rewrite ?andb_true_r in N.
    + apply holds_in in N. apply (inv_call st k w); auto; try reflexivity; try (now call_counts w).
    + apply (inv_call st k w); auto; try reflexivity; try (now call_counts w).
Qed.

Lemma references_positive st a : inv st ->
  0 < shared_refs a (sh st) + sumL (writer_refs a) (writers st) + copier_refs a (copier st) -> 0 < rc (sh st) a.
Proof. intros I H. rewrite (inv_refs _ I a). exact H. Qed.

Lemma pushing_le a ws : sumL (pushing a) ws <= sumL (writer_refs a) ws.
Proof. induction ws as [|w ws IH]; cbn [sumL]; [lia|]. pose proof (pushing_refs a w). lia. Qed.

Lemma slot_counted s i p l : load s i = Some (p, l) -> 0 < sumL (slot_refs p) (slots s).
Proof.
  intros E. assert (H : (i < CAPACITY s)%nat) by (apply load_in; congruence).
  pose proof (sumL_member _ _ _ (slot_refs_nonneg p) (nth_error_In _ _ (load_error s i H))) as M.
  rewrite E in M. unfold slot_refs at 1 in M. cbn in M. rewrite one_same in M. lia.
Qed.

(** The object the copier is about to count is alive. *)
Lemma pending_alive st i p res : inv st -> copier st = CAdd i p res -> 0 < rc (sh st) p.
Proof.
  intros I E. apply (references_positive st p I). pose proof (inv_pending _ I) as P. unfold pending_ok in P. rewrite E in *.
  pose proof (sumL_nonneg _ (writers st) (writer_refs_nonneg p)). pose proof (pushing_le p (writers st)).
  pose proof (sumL_nonneg _ (slots (sh st)) (slot_refs_nonneg p)). unfold shared_refs, parked in *. cbn [copier_refs]. counts.
  destruct P as [P|P]; [apply slot_counted in P|]; lia.
Qed.

Lemma no_locks st : inv st -> match copier st with CAdd _ _ _ | CUnlock _ _ _ => False | _ => True end ->
  forall i p, load (sh st) i <> Some (p, true).
Proof. intros I H i p E. destruct (inv_lock _ I i p E) as (res & [K|K]); rewrite K in H; destruct H. Qed.

Lemma inv_objects st e st' : inv st -> step st e = Some st' -> match e with New _ | Drop _ | Copy => inv st' | _ => True end.
Proof.
  intros I. unfold step. destruct (aborted (sh st)); [discriminate|]. destruct e as [a|a| | | | | |]; auto.
  - destruct (Z.eqb_spec (rc (sh st) a) 0) as [Z0|]; [|discriminate]. intros [= <-].
    apply inv_copier; auto; try apply I.
    intros x. autorewrite with cntdb. cbn [rc set_ext ext]. unfold shared_refs. cbn [ext slots freeList leaked].
    unfold upd, one. destruct (Nat.eqb_spec x a) as [->|N]; lia.
  - destruct (holds a (ext (sh st))) eqn:H; [|discriminate]. apply holds_in in H. intros [= <-].
    assert (0 < rc (sh st) a).
    { apply (references_positive st a I). pose proof (proj2 (cnt_in a _) H). unfold shared_refs.
      pose proof (sumL_nonneg _ (writers st) (writer_refs_nonneg a)). pose proof (copier_refs_nonneg a (copier st)).
      pose proof (sumL_nonneg _ (slots (sh st)) (slot_refs_nonneg a)). counts. lia. }
    apply inv_copier; auto; try apply I.
    + intros x. unfold delref. autorewrite with cntdb. rewrite cnt_remove1 by exact H. lia.
    + unfold delref. rewrite bad_with_rc by assumption. apply I.
  - destruct (copier st) eqn:C; try discriminate. intros [= <-].
    apply inv_copier; auto; try apply I.
    + intros x. rewrite C. cbn [copier_refs]. rewrite cnt_nil. lia.
    + intros i p E. destruct (no_locks st I) with (i := i) (p := p); [now rewrite C|exact E].
    + exact Logic.I.
Qed.

(** A step of the copier while it holds no lock and changes no slot. *)
Lemma inv_quiet st s' c' : inv st -> (forall i p, load (sh st) i <> Some (p, true)) ->
  slots s' = slots (sh st) -> freeQueue s' = freeQueue (sh st) -> bad s' = false ->
  match c' with CAdd _ _ _ => False | _ => True end ->
  (forall a, rc s' a - rc (sh st) a = shared_refs a s' + copier_refs a c' - shared_refs a (sh st) - copier_refs a (copier st)) ->
  inv (mkState s' (writers st) c').
Proof.
  intros I U S Q G C R. assert (L : forall i, load s' i = load (sh st) i) by (intros i; unfold load; now rewrite S).
  apply inv_copier; auto.
  - unfold CAPACITY. now rewrite S.
  - intros i. unfold at_slot. now rewrite L.
  - intros i p E. rewrite L in E. now destruct (U i p).
  - unfold pending_ok. cbn [copier]. destruct c'; easy.
Qed.

(** The copier locks a slot it read, and unlocks the one it locked. *)
Lemma inv_relock st i p l l' c' : inv st -> load (sh st) i = Some (p, l) ->
  (forall a, copier_refs a c' = copier_refs a (copier st)) ->
  lock_ok (store (sh st) i (Some (p, l'))) c' -> pending_ok (mkState (store (sh st) i (Some (p, l'))) (writers st) c') ->
  inv (mkState (store (sh st) i (Some (p, l'))) (writers st) c').
Proof.
  intros I E R L P. assert (H : (i < CAPACITY (sh st))%nat) by (apply load_in; congruence).
  apply inv_copier; auto; try apply I.
  - intros a. rewrite shared_store, R, E by exact H. cbn [store rc]. unfold slot_refs. cbn [pointer option_map fst]. lia.
  - apply capacity_store.
  - intros k. rewrite at_store by exact H. destruct (Nat.eqb_spec k i) as [->|_]; [|reflexivity]. unfold at_slot. now rewrite E.
Qed.

Lemma inv_lock_slot st i p res : inv st -> copier st = CLock i p res -> load (sh st) i = Some (p, false) ->
  inv (mkState (store (sh st) i (Some (p, true))) (writers st) (CAdd i p res)).
Proof.
  intros I C E. assert (H : (i < CAPACITY (sh st))%nat) by (apply load_in; congruence).
  apply (inv_relock st i p false); auto.
  - intros a. now rewrite C.
  - intros k q. rewrite load_store by exact H. destruct (Nat.eqb_spec k i) as [->|_]; [intros [= <-]; eauto|].
    intros F. destruct (no_locks st I) with (i := k) (p := q); [now rewrite C|exact F].
  - left. cbn [sh]. rewrite load_store by exact H. now rewrite Nat.eqb_refl.
Qed.

Lemma inv_count st i p res : inv st -> copier st = CAdd i p res ->
  inv (mkState (addref (sh st) p) (writers st) (CUnlock i p res)).
Proof.
  intros I C. pose proof (pending_alive st i p res I C). apply inv_copier; auto; try apply I.
  - intros a. rewrite C. unfold addref. autorewrite with cntdb. cbn [copier_refs]. lia.
  - intros k q F. destruct (inv_lock _ I k q F) as (r & [K|K]); rewrite C in K; [|discriminate]. injection K as <- <- _. eauto.
  - exact Logic.I.
  - unfold addref. rewrite bad_with_rc by assumption. apply I.
Qed.

Lemma inv_unlock st i p res : inv st -> copier st = CUnlock i p res ->
  inv (mkState (fst (copier_step (sh st) (CUnlock i p res))) (writers st) (CLoad (S i) (res ++ [p]))).
Proof.
  intros I C. pose proof (inv_lock _ I) as L. rewrite C in L. cbn [copier_step fst].
  destruct (slot_eqb (load (sh st) i) (Some (p, true))) eqn:E.
  - apply slot_eqb_spec in E. assert (H : (i < CAPACITY (sh st))%nat) by (apply load_in; congruence).
    apply (inv_relock st i p true); auto.
    + intros a. rewrite C. cbn [copier_refs]. autorewrite with cntdb. lia.
    + intros k q. rewrite load_store by exact H. destruct (Nat.eqb_spec k i) as [->|N]; [discriminate|].
      intros F. destruct (L k q F) as (r & [K|K]); congruence.
    + exact Logic.I.
  - apply inv_quiet; auto; try apply I.
    + intros k q F. destruct (L k q F) as (r & [K|K]); [discriminate|]. injection K as <- <- _.
      rewrite F, (proj2 (slot_eqb_spec _ _) eq_refl) in E. discriminate.
    + intros a. rewrite C. cbn [copier_refs]. autorewrite with cntdb. lia.
Qed.

Lemma inv_step_copier st : inv st ->
  inv (mkState (fst (copier_step (sh st) (copier st))) (writers st) (snd (copier_step (sh st) (copier st)))).
Proof.
  intros I. pose proof (no_locks st I) as U. pose proof (inv_good _ I) as G.
  destruct (copier st) as [|i res|i p res|i p res|i p res|res|p res] eqn:C; cbn in U; try specialize (U Logic.I).
  - cbn. rewrite <- C. destruct st. exact I.
  - cbn [copier_step]. destruct (CAPACITY (sh st) <=? i)%nat; [|destruct (load (sh st) i) as [[p l]|] eqn:E]; cbn [fst snd];
      apply inv_quiet; auto; try (intros a; rewrite C; autorewrite with cntdb; cbn [rc fail copier_refs]; lia).
    destruct l; [now destruct (U i p)|]. cbn. now rewrite G.
  - cbn [copier_step]. destruct (slot_eqb (load (sh st) i) (Some (p, false))) eqn:E; cbn [fst snd].
    + apply inv_lock_slot; auto. now apply slot_eqb_spec.
    + apply inv_quiet; auto. intros a. rewrite C. cbn [copier_refs]. lia.
  - apply inv_count; auto.
  - apply (inv_unlock st i p res I C).
  - cbn [copier_step]. destruct (freeList (sh st)) as [|p l] eqn:F; cbn [fst snd]; apply inv_quiet; auto;
      intros a; rewrite C; autorewrite with cntdb; rewrite ?F; cbn [rc set_list set_ext copier_refs]; autorewrite with cntdb; lia.
  - assert (0 < rc (sh st) p).
    { apply (references_positive st p I). rewrite C. cbn [copier_refs]. rewrite one_same.
      pose proof (sumL_nonneg _ (writers st) (writer_refs_nonneg p)). pose proof (shared_refs_nonneg p (sh st)). counts. lia. }
    cbn [copier_step fst snd]. unfold delref. apply inv_quiet; auto.
    + now rewrite bad_with_rc.
    + intros a. rewrite C. autorewrite with cntdb. cbn [copier_refs]. lia.
Qed.

(** * Every interleaving *)

Lemma inv_step st e st' : inv st -> step st e = Some st' -> inv st'.
Proof.
  intros I E. pose proof (inv_step_call st e st' I E) as A. pose proof (inv_objects st e st' I E) as B.
  destruct e as [| | | | |i| |]; auto; unfold step in E; destruct (aborted (sh st)); try discriminate.
  - destruct (nth_error (writers st) i) as [w|] eqn:W; [|discriminate].
    pose proof (inv_move _ _ _ _ _ I W (inv_moves st i w I W)) as K. destruct (writer_step (sh st) w). now injection E as <-.
  - pose proof (inv_step_copier st I) as K. destruct (copier_step (sh st) (copier st)). now injection E as <-.
Qed.

Lemma inv_run es st st' : inv st -> run st es = Some st' -> inv st'.
Proof.
  revert st. induction es as [|e es IH]; cbn [run]; intros st I E; [now injection E as <-|].
  destruct (step st e) as [st1|] eqn:S; [|discriminate]. apply (IH st1); [now apply (inv_step st e)|exact E].
Qed.

Lemma sumL_repeat {A} (f : A -> Z) x n : f x = 0 -> sumL f (repeat x n) = 0.
Proof. intros H. induction n as [|n IH]; cbn [repeat sumL]; lia. Qed.

Lemma cnt_seq i n k : cnt i (seq k n) = if ((k <=? i) && (i <? k + n))%nat then 1 else 0.
Proof.
  revert k. induction n as [|n IH]; intros k; cbn [seq].
  - rewrite cnt_nil. destruct (Nat.leb_spec k i), (Nat.ltb_spec i (k + 0)); cbn; lia.
  - rewrite cnt_head, IH. unfold one.
    destruct (Nat.leb_spec k i), (Nat.ltb_spec i (k + S n)), (Nat.leb_spec (S k) i), (Nat.ltb_spec i (S k + n)), (Nat.eqb_spec i k); cbn; lia.
Qed.

Lemma cnt_rev i l : cnt i (rev l) = cnt i l.
Proof. induction l as [|x l IH]; [reflexivity|]. cbn [rev]. autorewrite with cntdb. rewrite IH. lia. Qed.

Lemma load_empty n i q l e k b c f : load (mkShared f (repeat None n) q l e k b c) i = None.
Proof. unfold load. cbn [slots]. apply nth_repeat. Qed.

Lemma inv_new capacity threads : inv (new_set capacity threads).
Proof.
  constructor; cbn [sh writers copier new_set]; try easy.
  - intros a. unfold references, shared_refs. cbn [sh writers copier new_set rc ext slots freeList leaked].
    rewrite !sumL_repeat by reflexivity. reflexivity.
  - intros i. cbn [freeQueue]. rewrite cnt_rev, cnt_seq, sumL_repeat by reflexivity. unfold CAPACITY. cbn [slots]. rewrite repeat_length.
    destruct (Nat.ltb_spec i capacity), (Nat.ltb_spec i (0 + capacity)); cbn; lia.
  - intros i _. unfold at_slot. now rewrite load_empty.
  - apply Forall_forall. intros w H. apply repeat_spec in H. now subst.
  - intros i p. now rewrite load_empty.
Qed.

(** * The promise of copy *)

Definition touches (i : nat) (e : event) : bool :=
  match e with Erase _ k | Replace _ k _ => Nat.eqb k i | _ => false end.

(** Where a copy stands with the object [p] of slot [i]. *)
Definition covers (i p : nat) (c : cpc) : Prop :=
  match c with
  | CIdle => True
  | CLoad k res => (k <= i)%nat \/ In p res
  | CLock k q res | CAdd k q res | CUnlock k q res => (k < i)%nat \/ (k = i /\ q = p) \/ In p res
  | CConsume res | CDel _ res => In p res
  end.

Record stays (i p : nat) (st : state) : Prop := {
  stays_inv : inv st;
  stays_owned : exists k w, nth_error (writers st) k = Some w /\ In i (owned w);
  stays_slot : at_slot (sh st) i = Some p;
  stays_covered : covers i p (copier st)
}.

(** No writer works on an index that is owned. *)
Lemma owned_apart st i k w k2 w2 : inv st -> nth_error (writers st) k = Some w -> In i (owned w) ->
  nth_error (writers st) k2 = Some w2 -> pc_index (pc w2) <> Some i.
Proof.
  intros I E O E2 P. pose proof (inv_unique st i I). pose proof (cnt_nonneg i (freeQueue (sh st))). apply cnt_in in O.
  destruct (Nat.eq_dec k2 k) as [->|N].
  - assert (w2 = w) by congruence. subst. pose proof (sumL_member _ _ _ (writer_index_nonneg i) (nth_error_In _ _ E)) as M.
    unfold writer_index at 1 in M. rewrite P in M. cbn [opt] in M. rewrite cnt_head, one_same, cnt_nil in M. lia.
  - pose proof (sumL_two _ _ _ _ _ _ (writer_index_nonneg i) E E2 N) as M. apply own_index in P.
    unfold writer_index at 1 in M. pose proof (cnt_nonneg i (opt (pc_index (pc w)))). lia.
Qed.

Lemma owned_set ws i j w w' : (exists k v, nth_error ws k = Some v /\ In i (owned v)) ->
  nth_error ws j = Some w -> (In i (owned w) -> In i (owned w')) ->
  exists k v, nth_error (set_nth ws j w') k = Some v /\ In i (owned v).
Proof.
  intros (k & v & E & O) J H. exists k, (if Nat.eqb k j then w' else v). rewrite (nth_error_set _ _ _ _ _ J).
  destruct (Nat.eqb_spec k j) as [->|N]; [|auto]. assert (v = w) by congruence. subst. auto.
Qed.

Lemma writer_step_owned s w i : In i (owned w) -> In i (owned (snd (writer_step s w))).
Proof.
  intros H. unfold writer_step. destruct (pc w); cbn; auto; repeat (match goal with |- context [match ?x with _ => _ end] => destruct x end; cbn; auto).
Qed.

Lemma copier_keeps st i : at_slot (fst (copier_step (sh st) (copier st))) i = at_slot (sh st) i.
Proof.
  unfold copier_step. destruct (copier st) as [|k res|k q res|k q res|k q res|res|q res]; cbn [fst]; auto.
  - destruct (CAPACITY (sh st) <=? k)%nat; [reflexivity|]. now destruct (load (sh st) k) as [[]|].
  - destruct (slot_eqb _ _) eqn:E; [|reflexivity]. apply slot_eqb_spec in E. cbn [fst].
    rewrite at_store by (apply load_in; congruence). destruct (Nat.eqb_spec i k) as [->|_]; [|reflexivity]. unfold at_slot. now rewrite E.
  - destruct (slot_eqb _ _) eqn:E; [|reflexivity]. apply slot_eqb_spec in E.
    rewrite at_store by (apply load_in; congruence). destruct (Nat.eqb_spec i k) as [->|_]; [|reflexivity]. unfold at_slot. now rewrite E.
  - now destruct (freeList (sh st)).
Qed.

Lemma covers_step st i p : inv st -> at_slot (sh st) i = Some p -> covers i p (copier st) ->
  covers i p (snd (copier_step (sh st) (copier st))).
Proof.
  intros I S C. pose proof (no_locks st I) as U. unfold copier_step. unfold at_slot in S.
  destruct (load (sh st) i) as [[p' l]|] eqn:E; [|discriminate]. injection S as ->.
  assert (H : (i < CAPACITY (sh st))%nat) by (apply load_in; congruence).
  destruct (copier st) as [|k res|k q res|k q res|k q res|res|q res]; cbn in C, U; auto.
  - destruct (Nat.leb_spec (CAPACITY (sh st)) k) as [L|L]; cbn; [destruct C; [lia|assumption]|].
    destruct (Nat.eq_dec k i) as [->|N]; [rewrite E; cbn; auto|].
    destruct (load (sh st) k) as [[q l2]|]; cbn; destruct C as [C|C]; auto; left; lia.
  - specialize (U Logic.I). destruct (slot_eqb (load (sh st) k) (Some (q, false))) eqn:B; cbn; [exact C|].
    destruct C as [C|[[-> ->]|C]]; [left; lia| |auto]. destruct l; [now destruct (U i p)|].
    rewrite E, (proj2 (slot_eqb_spec _ _) eq_refl) in B. discriminate.
  - cbn. rewrite in_app_iff. cbn. destruct C as [C|[[-> ->]|C]]; auto.
  - destruct (freeList (sh st)); cbn; auto.
Qed.

Lemma stays_step i p st e st' : stays i p st -> touches i e = false -> step st e = Some st' -> stays i p st'.
Proof.
  intros [I O S C] T E. assert (I' : inv st') by (now apply (inv_step st e)).
  unfold step in E. destruct (aborted (sh st)); [discriminate|].
  destruct e as [a|a|k a|k idx|k idx new|k| |]; cbn [touches] in T.
  - destruct (rc (sh st) a =? 0); [|discriminate]. injection E as <-. now constructor.
  - destruct (holds a (ext (sh st))); [|discriminate]. injection E as <-. now constructor.
  - destruct (nth_error (writers st) k) as [w|] eqn:W; [|discriminate]. destruct (_ && _); [|discriminate]. injection E as <-.
    constructor; auto. now apply (owned_set _ _ _ w).
  - destruct (nth_error (writers st) k) as [w|] eqn:W; [|discriminate]. destruct (_ && _); [|discriminate]. injection E as <-.
    constructor; auto. apply (owned_set _ _ _ w); auto. intros H. apply remove1_other; [|exact H]. now apply Nat.eqb_neq in T; auto.
  - destruct (nth_error (writers st) k) as [w|] eqn:W; [|discriminate]. destruct (_ && _); [|discriminate]. injection E as <-.
    constructor; auto. apply (owned_set _ _ _ w); auto. intros H. apply remove1_other; [|exact H]. now apply Nat.eqb_neq in T; auto.
  - destruct (nth_error (writers st) k) as [w|] eqn:W; [|discriminate]. pose proof (writer_step_owned (sh st) w i) as K.
    pose proof (moves_slots _ _ _ _ (inv_moves st k w I W) i) as M. destruct O as (k0 & w0 & E0 & O0).
    destruct (writer_step (sh st) w) as [s' w']. injection E as <-. cbn [fst snd] in *.
    destruct M as [M|M]; [|destruct (owned_apart st i k0 w0 k w I E0 O0 W M)].
    constructor; auto; [apply (owned_set _ _ _ w); eauto|]. cbn [sh]. congruence.
  - destruct (copier st); try discriminate. injection E as <-. constructor; auto. left. lia.
  - pose proof (copier_keeps st i) as K. pose proof (covers_step st i p I S C) as V.
    destruct (copier_step (sh st) (copier st)) as [s' c']. injection E as <-. cbn [fst snd] in *. constructor; auto. cbn [sh]. congruence.
Qed.

Lemma stays_run i p es st st' : stays i p st -> existsb (touches i) es = false -> run st es = Some st' -> stays i p st'.
Proof.
  revert st. induction es as [|e es IH]; cbn [run existsb]; intros st K T E; [now injection E as <-|].
  apply orb_false_iff in T. destruct T as [T T2]. destruct (step st e) as [st1|] eqn:S; [|discriminate].
  apply (IH st1); auto. now apply (stays_step i p st e).
Qed.

Lemma inv_variable : inv (new_variable 1).
Proof.
  constructor; cbn [sh writers copier new_variable]; try easy.
  - intros [|i]; reflexivity.
  - repeat constructor.
  - intros [|[|i]] p; discriminate.
Qed.

Lemma owned_index w i : In i (owned w) -> 0 < writer_index i w.
Proof. intros H. apply cnt_in in H. unfold writer_index. counts. lia. Qed.

Lemma sumL_idle a ws : forallb idle ws = true -> sumL (writer_refs a) ws = 0.
Proof.
  induction ws as [|w ws IH]; cbn [forallb sumL]; [easy|]. intros H. apply andb_true_iff in H. destruct H as [H K].
  rewrite (IH K). apply idle_pc in H. unfold writer_refs. rewrite H. reflexivity.
Qed.

(** * Theorems *)

(** C10: in every interleaving of any number of writers (insert, erase, replace) with a
    copier, and of a variable's writer with its copier, no dead object's count is
    touched and no assertion of insert, erase or copy fails; the count of every
    object is the number of references to it, in the set, in the free list, held by
    callers or in transit, so an object of the set is alive; between calls, with the
    free list consumed and nothing lost, it is the callers' references and the slots. *)
Theorem write_only_set_safe st0 es st :
  (exists capacity threads, st0 = new_set capacity threads) \/ st0 = new_variable 1 ->
  run st0 es = Some st ->
  bad (sh st) = false /\
  (forall a, rc (sh st) a = references st a) /\
  (forall i p l, load (sh st) i = Some (p, l) -> 0 < rc (sh st) p) /\
  (forall i k1 w1 k2 w2, nth_error (writers st) k1 = Some w1 -> nth_error (writers st) k2 = Some w2 ->
     In i (owned w1) -> In i (owned w2) -> k1 = k2) /\
  (forallb idle (writers st) = true -> copier st = CIdle -> freeList (sh st) = [] -> leaked (sh st) = [] ->
   forall a, rc (sh st) a = cnt a (ext (sh st)) + sumL (slot_refs a) (slots (sh st))).
Proof.
  intros H E. assert (I : inv st).
  { apply (inv_run es st0); [|exact E]. destruct H as [(c & n & ->)| ->]; [apply inv_new|apply inv_variable]. }
  repeat split; try apply I.
  - intros i p l L. apply (references_positive st p I). apply slot_counted in L. unfold shared_refs.
    pose proof (sumL_nonneg _ (writers st) (writer_refs_nonneg p)). pose proof (copier_refs_nonneg p (copier st)). counts. lia.
  - intros i k1 w1 k2 w2 E1 E2 O1 O2. destruct (Nat.eq_dec k2 k1) as [|N]; [auto|].
    pose proof (inv_unique st i I). pose proof (sumL_two _ _ _ _ _ _ (writer_index_nonneg i) E1 E2 N).
    apply owned_index in O1, O2. counts. lia.
  - intros D C F K a. rewrite (inv_refs _ I a). unfold references, shared_refs. rewrite C, F, K, sumL_idle by exact D.
    cbn [copier_refs]. rewrite cnt_nil. lia.
Qed.

(** The promise of copy: an object that is in the set when a copy starts, at an
    index its owner neither erases nor replaces before the copy is done, is in the
    copy's result, in every interleaving with the other writers. *)
Theorem copy_contract capacity threads es0 st0 k w i p es st res :
  run (new_set capacity threads) es0 = Some st0 -> copier st0 = CIdle ->
  nth_error (writers st0) k = Some w -> In i (owned w) -> at_slot (sh st0) i = Some p ->
  existsb (touches i) es = false -> run st0 es = Some st ->
  copier st = CConsume res -> In p res.
Proof.
  intros E0 C0 W O S T E C. assert (K : stays i p st0).
  { constructor; auto; [apply (inv_run es0 (new_set capacity threads)); [apply inv_new|exact E0]|eauto|now rewrite C0]. }
  apply (stays_run i p es st0 st K T) in E. pose proof (stays_covered _ _ _ E) as V. now rewrite C in V.
Qed.

(** * Runs *)

Definition steps (n w : nat) : list event := repeat (Step w) n.
Definition copy_steps (n : nat) : list event := repeat CopyStep n.

(** One slot: an object is erased while the copier holds its lock, and dies when the copy's reference does. *)
Definition contended : list event :=
  [New 7; Insert 0 7] ++ steps 4 0 ++ [Copy] ++ copy_steps 2 ++ [Drop 7; Erase 0 0] ++ steps 4 0 ++ copy_steps 6 ++ [Drop 7].

Lemma write_only_set_safe_witness :
  exists st, run (new_set 1 2) contended = Some st /\ bad (sh st) = false /\ rc (sh st) 7%nat = 0.
Proof.
  destruct (run (new_set 1 2) contended) as [st|] eqn:E; [|vm_compute in E; discriminate E].
  exists st. split; [reflexivity|].
  destruct (write_only_set_safe (new_set 1 2) contended st (or_introl (ex_intro _ 1%nat (ex_intro _ 2%nat eq_refl))) E) as (B & R & _).
  split; [exact B|]. rewrite (R 7%nat). vm_compute in E. injection E as <-. reflexivity.
Defined.

Definition inserted : list event := [New 7; Insert 0 7] ++ steps 4 0 ++ [New 8; Insert 1 8].

Lemma copy_contract_witness :
  exists st0 st res, run (new_set 2 2) inserted = Some st0 /\
    run st0 ([Copy] ++ copy_steps 2 ++ steps 4 1 ++ copy_steps 4) = Some st /\ copier st = CConsume res /\ In 7%nat res.
Proof.
  destruct (run (new_set 2 2) inserted) as [st0|] eqn:E0; [|vm_compute in E0; discriminate E0].
  destruct (run st0 ([Copy] ++ copy_steps 2 ++ steps 4 1 ++ copy_steps 4)) as [st|] eqn:E;
    [|vm_compute in E0; injection E0 as <-; vm_compute in E; discriminate E].
  exists st0, st, [7%nat].
  assert (C : copier st = CConsume [7%nat]) by (vm_compute in E0; injection E0 as <-; vm_compute in E; injection E as <-; reflexivity).
  split; [reflexivity|]. split; [exact E|]. split; [exact C|].
  apply (copy_contract 2 2 inserted st0 0 (mkWriter WIdle [1%nat]) 1 7 ([Copy] ++ copy_steps 2 ++ steps 4 1 ++ copy_steps 4) st [7%nat]);
    auto; try (vm_compute in E0; injection E0 as <-; vm_compute; auto).
Defined.

(** A push to a full free list: [replace] fails its assertion, [erase] loses the
    reference for ever.  A writer that read a locked slot is slow, and pushes
    after the copy that held the lock has consumed the list. *)
Definition slow_copy : list event := copy_steps 4.

Lemma replace_aborts :
  option_map (fun st => aborted (sh st)) (run (new_variable 1) ([New 1; New 2; New 3; variable_replace 0 (Some 1%nat)] ++ steps 3 0 ++ [Copy] ++ copy_steps 2 ++
    [variable_replace 0 (Some 2%nat)] ++ steps 2 0 ++ slow_copy ++ steps 2 0 ++ [Copy] ++ copy_steps 2 ++
    [variable_replace 0 (Some 3%nat)] ++ steps 4 0)) = Some true.
Proof. vm_compute. reflexivity. Qed.

Lemma erase_leaks :
  option_map (fun st => (ext (sh st), slots (sh st), freeList (sh st), rc (sh st) 2%nat)) (run (new_set 1 1) ([New 1; New 2; Insert 0 1] ++ steps 4 0 ++ [Copy] ++ copy_steps 2 ++ [Erase 0 0] ++ steps 1 0 ++ slow_copy ++
    steps 3 0 ++ [Insert 0 2] ++ steps 4 0 ++ [Copy] ++ copy_steps 2 ++ [Erase 0 0] ++ steps 4 0 ++ slow_copy ++ copy_steps 2 ++
    [Drop 2; Drop 2])) = Some ([1; 1]%nat, [None], [], 1).
Proof. vm_compute. reflexivity. Qed.

(** Two threads that call [replace] of a variable while the copier holds its lock
    both push the object they replace: its count is dropped once too often, on
    an object that is already gone. *)
Lemma variable_replace_race :
  option_map (fun st => bad (sh st)) (run (new_variable 2) ([New 1; New 2; New 3; variable_replace 0 (Some 1%nat)] ++ steps 3 0 ++ [Drop 1; Copy] ++ copy_steps 2 ++
    [variable_replace 0 (Some 2%nat); variable_replace 1 (Some 3%nat)] ++ steps 2 0 ++ steps 2 1 ++ steps 2 0 ++ copy_steps 6 ++ [Drop 1] ++
    steps 2 1 ++ [Copy] ++ copy_steps 7)) = Some true.
Proof. vm_compute. reflexivity. Qed.
