(* ===== verification/CallbackRing.v ===== *)
(** flow/include/flow/flow.h, Callback: the circular doubly linked list that a
    SAV is the head of, and that it holds the list of the waiting callbacks. *)

From Stdlib Require Import List Bool Lia PeanoNat Permutation.
From S2P Require Import Prelude.
Import ListNotations.

(** The fields of the callback at each address. *)
Record ring := mkRing { prev : nat -> nat; next : nat -> nat }.

Definition point (f : nat -> nat) (x y : nat) : nat -> nat := fun a => if Nat.eqb a x then y else f a.
Definition set_prev (r : ring) (x y : nat) : ring := mkRing (point (prev r) x y) (next r).
Definition set_next (r : ring) (x y : nat) : ring := mkRing (prev r) (point (next r) x y).

Definition new_ring (r : ring) (this : nat) : ring := set_next (set_prev r this this) this this.

Definition insert (r : ring) (this into : nat) : ring :=
  let r := set_prev r this into in
  let r := set_next r this (next r into) in
  let r := set_prev r (next r into) this in
  set_next r into this.

Definition insertBack (r : ring) (this into : nat) : ring :=
  let r := set_next r this into in
  let r := set_prev r this (prev r into) in
  let r := set_next r (prev r into) this in
  set_prev r into this.

Definition insertChain (r : ring) (this into : nat) : ring :=
  let p := prev r this in
  let n := next r into in
  let r := set_prev r this into in
  let r := set_next r into this in
  let r := set_next r p n in
  set_prev r n p.

(** [remove], and the callback on which it calls [unwait], if any. *)
Definition remove (r : ring) (this : nat) : ring * option nat :=
  let r := set_prev r (next r this) (prev r this) in
  let r := set_next r (prev r this) (next r this) in
  (r, if Nat.eqb (prev r this) (next r this) then Some (next r this) else None).

Fixpoint count_from (fuel : nat) (r : ring) (this c : nat) : option nat :=
  match fuel with
  | O => None
  | S fuel => if Nat.eqb c this then Some 0 else option_map S (count_from fuel r this (next r c))
  end.
Definition countCallbacks (fuel : nat) (r : ring) (this : nat) : option nat := count_from fuel r this (next r this).

(** * The list a ring stands for *)

Fixpoint linked (r : ring) (l : list nat) : Prop :=
  match l with
  | x :: ((y :: _) as l') => next r x = y /\ prev r y = x /\ linked r l'
  | _ => True
  end.

(** [h] is the head of a ring of the callbacks [l], in the order of [next]. *)
Definition waits (r : ring) (h : nat) (l : list nat) : Prop := NoDup (h :: l) /\ linked r (h :: l ++ [h]).

Lemma point_same f x y : point f x y x = y.
Proof. unfold point. now rewrite Nat.eqb_refl. Qed.
Lemma point_other f x y a : a <> x -> point f x y a = f a.
Proof. unfold point. intros H. now destruct (Nat.eqb_spec a x). Qed.

Lemma linked_app r l1 x l2 : linked r (l1 ++ x :: l2) <-> linked r (l1 ++ [x]) /\ linked r (x :: l2).
Proof.
  induction l1 as [|a l1 IH]; [cbn; tauto|]. destruct l1 as [|b l1]; cbn [app] in *.
  - cbn. tauto.
  - change (linked r (a :: b :: l1 ++ x :: l2)) with (next r a = b /\ prev r b = a /\ linked r (b :: l1 ++ x :: l2)).
    change (linked r (a :: b :: l1 ++ [x])) with (next r a = b /\ prev r b = a /\ linked r (b :: l1 ++ [x])). tauto.
Qed.

(** A part of a ring that keeps its pointers stays linked. *)
Lemma linked_frame r r' l : linked r l ->
  (forall x, In x (removelast l) -> next r' x = next r x) -> (forall x, In x (tl l) -> prev r' x = prev r x) -> linked r' l.
Proof.
  induction l as [|a l IH]; [easy|]. destruct l as [|b l]; [easy|]. intros (N & P & L) HN HP.
  change (next r' a = b /\ prev r' b = a /\ linked r' (b :: l)). repeat split.
  - rewrite HN; [exact N|]. now left.
  - rewrite HP; [exact P|]. now left.
  - apply IH; [exact L| |]; intros x H; [apply HN|apply HP; now right]. right. exact H.
Qed.

(** Any callback of a ring can be taken as its head. *)
Lemma waits_rotate r h l1 x l2 : waits r h (l1 ++ x :: l2) <-> waits r x (l2 ++ h :: l1).
Proof.
  assert (K : forall h l1 x l2, waits r h (l1 ++ x :: l2) -> waits r x (l2 ++ h :: l1)).
  { clear. intros h l1 x l2 [ND L]. split.
    - apply (Permutation_NoDup (l := h :: l1 ++ x :: l2)); [|exact ND].
      rewrite app_comm_cons, (app_comm_cons l2). apply Permutation_app_comm.
    - rewrite <- !app_assoc in *. cbn [app] in *. rewrite app_comm_cons, linked_app in *. tauto. }
  split; apply K.
Qed.

Lemma waits_ext r r' h l : (forall x, next r' x = next r x) -> (forall x, prev r' x = prev r x) -> waits r h l -> waits r' h l.
Proof. intros N P [D L]. split; [exact D|]. apply (linked_frame r); auto. Qed.

(** The last callback of a ring, or its head. *)
Lemma waits_last r h l : waits r h l -> prev r h = last l h.
Proof.
  intros [_ L]. destruct (exists_last (l := h :: l)) as (m & p & E); [discriminate|].
  rewrite app_comm_cons, E, <- app_assoc in L. cbn [app] in L. apply linked_app in L. destruct L as [_ (_ & P & _)]. rewrite P.
  destruct m as [|z m]; [injection E as <- ->; reflexivity|]. injection E as _ ->. now rewrite last_last.
Qed.

Lemma waits_first r h l : waits r h l -> next r h = hd h l.
Proof. intros [_ L]. destruct l; apply L. Qed.

Ltac pointers := cbn [insert insertBack insertChain remove set_prev set_next prev next fst snd];
  repeat first [rewrite point_same | rewrite point_other by (first [assumption | congruence])].

Lemma insert_waits r c h l : waits r h l -> ~ In c (h :: l) -> waits (insert r c h) h (c :: l).
Proof.
  intros W N. pose proof (waits_first _ _ _ W) as F. destruct W as [D L].
  assert (CH : c <> h) by (intros ->; apply N; now left).
  split. { constructor; [|constructor; [intros H; apply N; now right|]]; inversion D; auto. intros [?|?]; auto. }
  destruct (l ++ [h]) as [|n t] eqn:E; [destruct l; discriminate|].
  assert (n = hd h l) as -> by (destruct l; injection E as <- _; reflexivity). rewrite <- F in *.
  assert (NC : next r h <> c) by (intros H; apply N; rewrite F in H; destruct l; cbn in *; auto).
  assert (DT : NoDup (next r h :: t)) by (rewrite <- E; apply (Permutation_NoDup (Permutation_cons_append l h)), D).
  cbn [app]. rewrite E. change (linked r (next r h :: t)) with (linked r (next r h :: t)) in L. destruct L as (_ & _ & L).
  repeat split; [..|apply (linked_frame r); [exact L| |]]; unfold insert; cbn [set_prev set_next prev next];
    rewrite ?(point_other (next r) c (next r h)) by congruence.
  - apply point_same.
  - now rewrite (point_other _ (next r h)), point_same by congruence.
  - now rewrite (point_other _ h), point_same by congruence.
  - apply point_same.
  - intros x H. assert (X : In x l).
    { rewrite <- E, removelast_last in H. exact H. }
    rewrite !point_other; [reflexivity|intros ->; apply N; now right|intros ->; inversion D; auto].
  - intros x H. cbn [tl] in H. rewrite !point_other; [reflexivity| |intros ->; inversion DT; auto].
    intros ->. apply N. assert (X : In c (l ++ [h])) by (rewrite E; now right). apply in_app_or in X. destruct X as [X|[X|[]]]; [now right|now left].
Qed.

Lemma waits_prev r h l : waits r h l -> next r (prev r h) = h.
Proof.
  intros W. rewrite (waits_last _ _ _ W). destruct W as [_ L]. destruct (exists_last (l := h :: l)) as (m & p & E); [discriminate|].
  rewrite app_comm_cons, E, <- app_assoc in L. cbn [app] in L. apply linked_app in L. destruct L as [_ (N & _)].
  destruct m as [|z m]; [injection E as <- ->; exact N|]. injection E as _ ->. now rewrite last_last.
Qed.

(** Before the head is after the last. *)
Lemma insertBack_waits r c h l : waits r h l -> ~ In c (h :: l) -> waits (insertBack r c h) h (l ++ [c]).
Proof.
  intros W N. pose proof (waits_last _ _ _ W) as P. pose proof (waits_prev _ _ _ W) as X.
  assert (CH : c <> h) by (intros ->; apply N; now left).
  assert (CP : prev r h <> c).
  { rewrite P. intros H. apply N. destruct l as [|y l]; [now left|]. right. rewrite <- H. destruct (exists_last (l := y :: l)) as (m & p & ->); [discriminate|].
    rewrite last_last. apply in_or_app. right. now left. }
  apply (waits_ext (insert r c (prev r h))).
  - intros x. unfold insertBack, insert. cbn [set_prev set_next prev next]. rewrite X. unfold point.
    destruct (Nat.eqb_spec h c); [congruence|]. destruct (Nat.eqb_spec (prev r h) c); [congruence|]. reflexivity.
  - intros x. unfold insertBack, insert. cbn [set_prev set_next prev next]. rewrite (point_other (next r)), X by congruence. reflexivity.
  - destruct l as [|y l0] eqn:E; [cbn in P; rewrite P; now apply insert_waits|]. rewrite <- E in *.
    destruct (exists_last (l := l)) as (m & p & M); [congruence|]. rewrite M in *. rewrite last_last in P. rewrite P.
    rewrite <- app_assoc. cbn [app]. apply waits_rotate. apply (waits_rotate _ _ m p []) in W. cbn [app] in *.
    apply insert_waits; [exact W|]. intros H. apply N. cbn in H. destruct H as [H|[H|H]]; [right|now left|right]; apply in_or_app; [right; now left|auto].
Qed.

Lemma remove_head r c x m : waits r c (x :: m) -> waits (fst (remove r c)) x m.
Proof.
  intros W. pose proof (waits_last _ _ _ W) as P. pose proof (waits_first _ _ _ W) as F. cbn [hd] in F. destruct W as [D L].
  pose proof (proj1 (NoDup_cons_iff _ _) D) as [NI D2]. split; [exact D2|].
  assert (CX : c <> x) by (intros ->; apply NI; now left).
  unfold remove. cbn [fst set_prev set_next prev next]. rewrite F, (point_other (prev r)) by congruence.
  cbn [app] in L. destruct L as (_ & _ & L).
  destruct m as [|y m0] eqn:E.
  { cbn in P. rewrite P. cbn. rewrite !point_same. auto. }
  rewrite <- E in *. destruct (exists_last (l := m)) as (t & p & M); [congruence|].
  assert (EP : prev r c = p).
  { rewrite P, M. change (x :: t ++ [p]) with ((x :: t) ++ [p]). apply last_last. }
  rewrite EP, M in *. rewrite <- !app_assoc in *. cbn [app] in *. rewrite app_comm_cons in *. apply linked_app in L. destruct L as [L _].
  pose proof (proj1 (NoDup_cons_iff _ _) D2) as [NX D3].
  apply linked_app. split.
  - apply (linked_frame r); [exact L| |]; cbn [prev next].
    + rewrite removelast_last. intros z H. apply point_other. intros ->. destruct H as [<-|H].
      * apply NX. apply in_or_app. right. now left.
      * apply (NoDup_remove_2 t [] p D3). rewrite app_nil_r. exact H.
    + intros z H. apply point_other. intros ->. auto.
  - cbn. rewrite !point_same. auto.
Qed.

(** [remove] takes the callback out, and tells the head when it was the last one. *)
Lemma remove_waits r h l1 c l2 : waits r h (l1 ++ c :: l2) ->
  waits (fst (remove r c)) h (l1 ++ l2) /\
  snd (remove r c) = match l1 ++ l2 with [] => Some h | _ => None end.
Proof.
  intros W. apply waits_rotate in W. destruct (l2 ++ h :: l1) as [|x m] eqn:E; [destruct l2; discriminate|]. split.
  - pose proof (remove_head _ _ _ _ W) as R. destruct l2 as [|y l2]; injection E as <- <-; [now rewrite app_nil_r|].
    now apply waits_rotate.
  - pose proof (waits_last _ _ _ W) as P. pose proof (waits_first _ _ _ W) as F. cbn [hd] in F. destruct W as [D _].
    pose proof (proj1 (NoDup_cons_iff _ _) D) as [NI D2]. assert (CX : c <> x) by (intros ->; apply NI; now left).
    unfold remove. cbn [snd set_prev set_next prev next]. rewrite F, (point_other (prev r)), P by congruence.
    assert (CP : last (x :: m) c <> c).
    { intros H. apply NI. rewrite <- H at 1. destruct (exists_last (l := x :: m)) as (t & p & ->); [discriminate|]. rewrite last_last. apply in_or_app. right. now left. }
    destruct m as [|y m].
    + destruct l2 as [|z l2]; [injection E as <- ->|destruct l2; discriminate]. cbn [last app]. rewrite point_other, F, Nat.eqb_refl by congruence. reflexivity.
    + assert (NX : last (x :: y :: m) c <> x).
      { intros H. pose proof (proj1 (NoDup_cons_iff _ _) D2) as [NX _]. apply NX. rewrite <- H at 1. change (last (x :: y :: m) c) with (last (y :: m) c).
        destruct (exists_last (l := y :: m)) as (t & p & ->); [discriminate|]. rewrite last_last. apply in_or_app. right. now left. }
      rewrite (point_other _ _ _ c) by congruence. rewrite F. destruct (Nat.eqb_spec (last (x :: y :: m) c) x); [congruence|].
      destruct l1 as [|a l1]; [|reflexivity]. destruct l2 as [|b l2]; [discriminate|reflexivity].
Qed.

Lemma linked_prefix r l1 l2 : linked r (l1 ++ l2) -> linked r l1.
Proof.
  induction l1 as [|a l1 IH]; [easy|]. destruct l1 as [|b l1]; [easy|]. intros (N & P & L). repeat split; auto.
Qed.

Lemma linked_suffix r l1 l2 : linked r (l1 ++ l2) -> linked r l2.
Proof. induction l1 as [|a l1 IH]; [easy|]. intros L. apply IH. cbn [app] in L. destruct (l1 ++ l2); [easy|apply L]. Qed.

Lemma last_cons (x : nat) l d : last (x :: l) d = last l x.
Proof. revert x d. induction l as [|y l IH]; intros x d; [reflexivity|]. change (last (y :: l) d = last (y :: l) x). now rewrite !IH. Qed.

Lemma linked_join r a l1 b l2 : linked r (a :: l1) -> linked r (b :: l2) ->
  next r (last l1 a) = b -> prev r b = last l1 a -> linked r (a :: l1 ++ b :: l2).
Proof.
  revert a. induction l1 as [|x l1 IH]; intros a L1 L2 N P; [cbn in *; auto|].
  destruct L1 as (N1 & P1 & L1). cbn [app]. repeat split; auto. rewrite last_cons in *. now apply IH.
Qed.

Lemma snoc_last (h : nat) l : h :: l = removelast (h :: l) ++ [last l h].
Proof. rewrite (app_removelast_last (l := h :: l) h) at 1 by discriminate. f_equal. f_equal. now destruct l. Qed.

Lemma removelast_in (x : nat) l : In x (removelast l) -> In x l.
Proof. intros H. destruct l as [|h l]; [destruct H|]. rewrite snoc_last. apply in_or_app. now left. Qed.

Lemma last_in (h : nat) l : In (last l h) (h :: l).
Proof. rewrite snoc_last. apply in_or_app. right. now left. Qed.

Lemma last_once (h : nat) l : NoDup (h :: l) -> ~ In (last l h) (removelast (h :: l)).
Proof. rewrite snoc_last at 1. intros D H. apply (NoDup_remove_2 _ [] _) in D. now rewrite app_nil_r in D. Qed.

Lemma insertChain_waits r c m h l : waits r h l -> waits r c m -> NoDup (c :: m ++ h :: l) ->
  waits (insertChain r c h) h (c :: m ++ l).
Proof.
  intros W V D. pose proof (waits_first _ _ _ W) as F. pose proof (waits_last _ _ _ V) as P. destruct W as [DW LW], V as [DV LV].
  split; [apply (Permutation_NoDup (Permutation_sym (Permutation_middle (c :: m) l h))), D|].
  assert (A : forall x, In x (c :: m) -> ~ In x (h :: l)).
  { intros x X Y. rewrite app_comm_cons in D. apply in_split in X. destruct X as (t1 & t2 & E). rewrite E, <- app_assoc in D.
    cbn [app] in D. apply NoDup_remove_2 in D. apply D, in_or_app. right. apply in_or_app. now right. }
  assert (LP : In (prev r c) (c :: m)) by (rewrite P; apply last_in).
  assert (FN : In (next r h) (h :: l)) by (rewrite F; destruct l; cbn; auto).
  set (r' := insertChain r c h).
  assert (PN : forall x, next r' x = if Nat.eqb x (prev r c) then next r h else if Nat.eqb x h then c else next r x) by reflexivity.
  assert (PP : forall x, prev r' x = if Nat.eqb x (next r h) then prev r c else if Nat.eqb x c then h else prev r x) by reflexivity.
  clearbody r'.
  assert (L1 : linked r' (c :: m)).
  { apply (linked_frame r); [apply (linked_prefix r _ [c]), LV| |]; intros x X; rewrite ?PN, ?PP.
    - destruct (Nat.eqb_spec x (prev r c)) as [->|_]; [rewrite P in X; destruct (last_once _ _ DV X)|].
      destruct (Nat.eqb_spec x h) as [->|_]; [destruct (A h); [now apply removelast_in|now left]|reflexivity].
    - cbn [tl] in X. destruct (Nat.eqb_spec x (next r h)) as [->|_]; [destruct (A (next r h)); [now right|exact FN]|].
      destruct (Nat.eqb_spec x c) as [->|_]; [now apply NoDup_cons_iff in DV|reflexivity]. }
  assert (DS : NoDup (l ++ [h])) by (apply (Permutation_NoDup (Permutation_cons_append l h)), DW).
  assert (L2 : linked r' (l ++ [h])).
  { apply (linked_frame r); [apply (linked_suffix r [h]), LW| |]; intros x X; rewrite ?PN, ?PP.
    - rewrite removelast_last in X. destruct (Nat.eqb_spec x (prev r c)) as [->|_]; [destruct (A _ LP); now right|].
      destruct (Nat.eqb_spec x h) as [->|_]; [now apply NoDup_cons_iff in DW|reflexivity].
    - destruct (Nat.eqb_spec x (next r h)) as [->|_].
      + exfalso. rewrite F in X. destruct l as [|y l]; [destruct X|]. cbn [app tl hd] in *. now apply NoDup_cons_iff in DS.
      + destruct (Nat.eqb_spec x c) as [->|_]; [|reflexivity]. destruct (A c); [now left|].
        assert (X2 : In c (l ++ [h])) by (destruct (l ++ [h]); [destruct X|now right]). apply in_app_or in X2. destruct X2 as [?|[?|[]]]; [now right|now left]. }
  assert (HC : next r' h = c /\ prev r' c = h).
  { rewrite PN, PP, Nat.eqb_refl, Nat.eqb_refl. split.
    - destruct (Nat.eqb_spec h (prev r c)) as [E|_]; [destruct (A _ LP); now left|reflexivity].
    - destruct (Nat.eqb_spec c (next r h)) as [E|_]; [destruct (A c); [now left|now rewrite E]|reflexivity]. }
  assert (PF : next r' (last m c) = hd h l /\ prev r' (hd h l) = last m c).
  { rewrite PN, PP, P, F, !Nat.eqb_refl. auto. }
  destruct HC as [HC1 HC2], PF as [PF1 PF2]. cbn [app]. rewrite <- app_assoc. repeat split; auto.
  destruct l as [|y l]; cbn [app hd] in *; now apply linked_join.
Qed.

Lemma count_waits r h l fuel : waits r h l -> length l < fuel -> countCallbacks fuel r h = Some (length l).
Proof.
  intros [D L] B. unfold countCallbacks.
  assert (K : forall l x, linked r (x :: l ++ [h]) -> ~ In h l -> length l < fuel -> count_from fuel r h (next r x) = Some (length l)).
  { clear. induction fuel as [|n IH]; intros l x L N B; [lia|]. cbn [count_from]. destruct l as [|y l]; cbn [app] in L; destruct L as (-> & _ & L).
    - now rewrite Nat.eqb_refl.
    - destruct (Nat.eqb_spec y h) as [->|_]; [destruct N; now left|]. rewrite (IH l y L); [reflexivity| |cbn in B; lia].
      intros H. apply N. now right. }
  apply K; [exact L| |exact B]. now apply NoDup_cons_iff in D.
Qed.

(** * A store of rings *)

Definition addresses (R : list (nat * list nat)) : list nat := flat_map (fun p => fst p :: snd p) R.
Definition rings (r : ring) (R : list (nat * list nat)) : Prop :=
  NoDup (addresses R) /\ Forall (fun p => waits r (fst p) (snd p)) R.

(** [r'] differs from [r] only at the callbacks of [l]. *)
Definition only (l : list nat) (r r' : ring) : Prop := forall x, ~ In x l -> next r' x = next r x /\ prev r' x = prev r x.

Lemma waits_only l r r' g k : only l r r' -> waits r g k -> (forall x, In x (g :: k) -> ~ In x l) -> waits r' g k.
Proof.
  intros O [D L] N. split; [exact D|]. apply (linked_frame r); [exact L| |]; intros x X; apply O, N.
  - apply removelast_in in X. change (In x (g :: k ++ [g])) in X. destruct X as [->|X]; [now left|]. apply in_app_or in X. destruct X as [X|[->|[]]]; [now right|now left].
  - cbn [tl] in X. apply in_app_or in X. destruct X as [X|[->|[]]]; [now right|now left].
Qed.

Lemma point_only l f x y a : In x l -> ~ In a l -> point f x y a = f a.
Proof. intros X A. apply point_other. intros ->. auto. Qed.

Lemma insert_only r c h l : waits r h l -> only (c :: h :: l) r (insert r c h).
Proof.
  intros W x X. pose proof (waits_first _ _ _ W) as F. unfold insert. cbn [set_prev set_next prev next].
  assert (N : In (next r h) (c :: h :: l)) by (right; rewrite F; destruct l; cbn; auto).
  rewrite !(point_only (c :: h :: l)); cbn; auto.
  unfold point. destruct (Nat.eqb h c); auto.
Qed.

Lemma insertBack_only r c h l : waits r h l -> only (c :: h :: l) r (insertBack r c h).
Proof.
  intros W x X. pose proof (waits_last _ _ _ W) as P. unfold insertBack. cbn [set_prev set_next prev next].
  assert (N : In (prev r h) (c :: h :: l)) by (right; rewrite P; apply last_in).
  rewrite !(point_only (c :: h :: l)); cbn; auto.
  unfold point. destruct (Nat.eqb h c); auto.
Qed.

Lemma remove_only r h l1 c l2 : waits r h (l1 ++ c :: l2) -> only (h :: l1 ++ c :: l2) r (fst (remove r c)).
Proof.
  intros W x X. apply waits_rotate in W. pose proof (waits_first _ _ _ W) as F. pose proof (waits_last _ _ _ W) as P.
  assert (S : forall y, In y (c :: l2 ++ h :: l1) -> In y (h :: l1 ++ c :: l2)).
  { intros y Y. apply (Permutation_in y (l := c :: l2 ++ h :: l1)); [|exact Y]. rewrite app_comm_cons, (app_comm_cons l1). apply Permutation_app_comm. }
  assert (N : In (next r c) (h :: l1 ++ c :: l2)) by (apply S; right; rewrite F; destruct l2; cbn; auto).
  assert (Q : In (prev r c) (h :: l1 ++ c :: l2)) by (apply S; rewrite P; apply last_in).
  unfold remove. cbn [fst set_prev set_next prev next]. split.
  - apply (point_only (h :: l1 ++ c :: l2)); auto. unfold point. destruct (Nat.eqb c (next r c)); auto.
  - apply (point_only (h :: l1 ++ c :: l2)); auto.
Qed.

Lemma addresses_app R1 R2 : addresses (R1 ++ R2) = addresses R1 ++ addresses R2.
Proof. apply flat_map_app. Qed.

Lemma addresses_perm R1 h l R2 : Permutation (addresses (R1 ++ (h, l) :: R2)) ((h :: l) ++ addresses R1 ++ addresses R2).
Proof.
  rewrite addresses_app. change (addresses ((h, l) :: R2)) with ((h :: l) ++ addresses R2).
  rewrite Permutation_app_swap_app. reflexivity.
Qed.

(** One ring of the store changes within its own callbacks and [x]. *)
Lemma rings_update r r' R1 h l l' R2 x : rings r (R1 ++ (h, l) :: R2) ->
  NoDup (addresses (R1 ++ (h, l') :: R2)) -> (forall c, In c x -> ~ In c (addresses R1 ++ addresses R2)) ->
  only (x ++ h :: l) r r' -> waits r' h l' -> rings r' (R1 ++ (h, l') :: R2).
Proof.
  intros [D F] D' C O W. split; [exact D'|].
  assert (K : forall g k, In (g, k) R1 \/ In (g, k) R2 -> forall a, In a (g :: k) -> In a (addresses R1 ++ addresses R2)).
  { intros g k H a X. apply in_or_app. destruct H as [H|H]; [left|right]; apply in_flat_map; exists (g, k); auto. }
  assert (A : forall a, In a (addresses R1 ++ addresses R2) -> ~ In a (x ++ h :: l)).
  { intros a X Y. apply in_app_or in Y. destruct Y as [Y|Y]; [destruct (C a Y X)|].
    apply (Permutation_NoDup (addresses_perm R1 h l R2)) in D. apply in_split in Y. destruct Y as (t1 & t2 & Y).
    rewrite Y, <- app_assoc in D. cbn [app] in D. apply NoDup_remove_2 in D. apply D. rewrite !in_app_iff in *. tauto. }
  apply Forall_app in F. destruct F as [F1 F2]. apply Forall_cons_iff in F2. destruct F2 as [_ F2].
  rewrite Forall_forall in F1, F2. apply Forall_app. split; [|constructor; [exact W|]]; apply Forall_forall; intros [g k] H;
    apply (waits_only (x ++ h :: l) r); auto; intros a X; apply A, (K g k); auto.
Qed.

Lemma addresses_nodup R1 h l l' R2 x : Permutation (x ++ l) l' ->
  NoDup (x ++ addresses (R1 ++ (h, l) :: R2)) -> NoDup (addresses (R1 ++ (h, l') :: R2)).
Proof.
  intros P D. apply (Permutation_NoDup (l := (h :: l') ++ addresses R1 ++ addresses R2)); [symmetry; apply addresses_perm|].
  apply (Permutation_NoDup (l := x ++ (h :: l) ++ addresses R1 ++ addresses R2)).
  - rewrite app_assoc. apply Permutation_app_tail. rewrite <- Permutation_middle. now constructor.
  - eapply Permutation_NoDup; [|exact D]. apply Permutation_app_head, addresses_perm.
Qed.

Lemma addresses_shrink R1 h l l' R2 x : Permutation l (x ++ l') ->
  NoDup (addresses (R1 ++ (h, l) :: R2)) -> NoDup (addresses (R1 ++ (h, l') :: R2)).
Proof.
  intros P D. apply (Permutation_NoDup (l := (h :: l') ++ addresses R1 ++ addresses R2)); [symmetry; apply addresses_perm|].
  refine (NoDup_app_remove_l x _ _). eapply Permutation_NoDup; [|exact D].
  rewrite addresses_perm, P. cbn [app]. rewrite <- Permutation_middle, <- app_assoc. reflexivity.
Qed.

Lemma rings_head r R1 h l R2 : rings r (R1 ++ (h, l) :: R2) -> waits r h l.
Proof. intros [_ F]. apply Forall_app in F. destruct F as [_ F]. now apply Forall_cons_iff in F. Qed.

Lemma fresh_apart R1 h l R2 x : ~ In x (addresses (R1 ++ (h, l) :: R2)) -> ~ In x (addresses R1 ++ addresses R2) /\ ~ In x (h :: l).
Proof. intros X. split; intros Y; apply X, (Permutation_in _ (Permutation_sym (addresses_perm R1 h l R2))), in_or_app; auto. Qed.

Lemma rings_insert r R1 h l R2 c : rings r (R1 ++ (h, l) :: R2) -> ~ In c (addresses (R1 ++ (h, l) :: R2)) ->
  rings (insert r c h) (R1 ++ (h, c :: l) :: R2).
Proof.
  intros R C. pose proof (rings_head _ _ _ _ _ R) as W. destruct (fresh_apart _ _ _ _ _ C) as [C1 C2].
  apply (rings_update r _ R1 h l _ R2 [c]); auto.
  - apply (addresses_nodup R1 h l _ R2 [c]); [reflexivity|constructor; [exact C|apply R]].
  - now intros ? [<-|[]].
  - now apply insert_only.
  - now apply insert_waits.
Qed.

Lemma rings_insertBack r R1 h l R2 c : rings r (R1 ++ (h, l) :: R2) -> ~ In c (addresses (R1 ++ (h, l) :: R2)) ->
  rings (insertBack r c h) (R1 ++ (h, l ++ [c]) :: R2).
Proof.
  intros R C. pose proof (rings_head _ _ _ _ _ R) as W. destruct (fresh_apart _ _ _ _ _ C) as [C1 C2].
  apply (rings_update r _ R1 h l _ R2 [c]); auto.
  - apply (addresses_nodup R1 h l _ R2 [c]); [apply Permutation_cons_append|constructor; [exact C|apply R]].
  - now intros ? [<-|[]].
  - now apply insertBack_only.
  - now apply insertBack_waits.
Qed.

Lemma rings_remove r R1 h l1 c l2 R2 : rings r (R1 ++ (h, l1 ++ c :: l2) :: R2) ->
  rings (fst (remove r c)) (R1 ++ (h, l1 ++ l2) :: R2).
Proof.
  intros R. pose proof (rings_head _ _ _ _ _ R) as W. apply (rings_update r _ R1 h (l1 ++ c :: l2) _ R2 []); auto.
  - apply (addresses_shrink R1 h (l1 ++ c :: l2) _ R2 [c]); [cbn [app]; symmetry; apply Permutation_middle|apply R].
  - now apply remove_only.
  - now apply remove_waits.
Qed.

Lemma insertChain_only r c m h l : waits r h l -> waits r c m -> only ((c :: m) ++ h :: l) r (insertChain r c h).
Proof.
  intros W V x X. pose proof (waits_first _ _ _ W) as F. pose proof (waits_last _ _ _ V) as P.
  assert (N : In (next r h) ((c :: m) ++ h :: l)) by (apply in_or_app; right; rewrite F; destruct l; cbn; auto).
  assert (Q : In (prev r c) ((c :: m) ++ h :: l)) by (apply in_or_app; left; rewrite P; apply last_in).
  assert (H : In h ((c :: m) ++ h :: l)) by (apply in_or_app; right; now left).
  assert (C : In c ((c :: m) ++ h :: l)) by (now left).
  unfold insertChain. cbn [set_prev set_next prev next]. rewrite !(point_only ((c :: m) ++ h :: l)); auto.
Qed.

Lemma rings_insertChain r c m R1 h l R2 : rings r ((c, m) :: R1 ++ (h, l) :: R2) ->
  rings (insertChain r c h) (R1 ++ (h, c :: m ++ l) :: R2).
Proof.
  intros [D F]. apply Forall_cons_iff in F. destruct F as [V F]. cbn [fst snd] in V.
  change (addresses ((c, m) :: R1 ++ (h, l) :: R2)) with ((c :: m) ++ addresses (R1 ++ (h, l) :: R2)) in D.
  assert (R : rings r (R1 ++ (h, l) :: R2)) by (split; [now apply NoDup_app_remove_l in D|exact F]).
  pose proof (rings_head _ _ _ _ _ R) as W. apply (rings_update r _ R1 h l _ R2 (c :: m)); auto.
  - apply (addresses_nodup R1 h l _ R2 (c :: m)); [reflexivity|exact D].
  - intros x X. apply (fresh_apart R1 h l R2). intros Y. apply in_split in X. destruct X as (t1 & t2 & E). rewrite E, <- app_assoc in D. cbn [app] in D.
    apply NoDup_remove_2 in D. apply D. rewrite !in_app_iff. tauto.
  - now apply insertChain_only.
  - apply insertChain_waits; auto. apply (Permutation_NoDup (Permutation_app_head (c :: m) (addresses_perm R1 h l R2))) in D.
    rewrite app_assoc in D. now apply NoDup_app_remove_r in D.
Qed.

(** C35: a store of callbacks linked in rings, each headed by a SAV, is kept so by every
    operation, which changes one ring's list as its comment says and no other ring:
    insert puts the callback first, insertBack last, insertChain puts a whole ring
    first, remove takes the callback out and calls unwait on the head exactly when it
    was the last one; countCallbacks is the length of the list. *)
Theorem callback_ring_correct r R1 h l R2 : rings r (R1 ++ (h, l) :: R2) ->
  (forall c, ~ In c (addresses (R1 ++ (h, l) :: R2)) ->
     rings (insert r c h) (R1 ++ (h, c :: l) :: R2) /\ rings (insertBack r c h) (R1 ++ (h, l ++ [c]) :: R2)) /\
  (forall l1 c l2, l = l1 ++ c :: l2 ->
     rings (fst (remove r c)) (R1 ++ (h, l1 ++ l2) :: R2) /\
     snd (remove r c) = match l1 ++ l2 with [] => Some h | _ => None end) /\
  (forall c m R3, R1 = (c, m) :: R3 -> rings (insertChain r c h) (R3 ++ (h, c :: m ++ l) :: R2)) /\
  (forall fuel, length l < fuel -> countCallbacks fuel r h = Some (length l)).
Proof.
  intros R. pose proof (rings_head _ _ _ _ _ R) as W. split; [|split; [|split]].
  - intros c C. split; [now apply rings_insert|now apply rings_insertBack].
  - intros l1 c l2 ->. split; [now apply rings_remove|now apply remove_waits].
  - intros c m R3 ->. now apply rings_insertChain.
  - intros fuel. now apply count_waits.
Qed.

Definition two_heads : ring := new_ring (new_ring (mkRing (fun x => x) (fun x => x)) 0) 9.

Lemma callback_ring_witness :
  rings (insert two_heads 1 0) [(9, []); (0, [1])] /\ rings (insertChain two_heads 9 0) [(0, [9])] /\ countCallbacks 1 two_heads 0 = Some 0.
Proof.
  assert (R : rings two_heads ([(9, [])] ++ (0, []) :: [])).
  { split; [repeat constructor; cbn; intuition discriminate|]. repeat constructor; cbn; tauto. }
  destruct (callback_ring_correct two_heads [(9, [])] 0 [] [] R) as (I & _ & C & N).
  split; [apply (I 1); cbn; intuition discriminate|]. split; [exact (C 9 [] [] eq_refl)|apply N; cbn; lia].
Defined.
