(* ===== verification/Sav.v ===== *)
(** flow/include/flow/flow.h: SAV, Promise and Future.

    One thread runs programs that make, copy, drop and use Promise and Future
    objects; a [send] runs the waiting callbacks, each of which may do the same
    things before the send goes on, and dropping the last future of an actor runs
    its cancellation.  The machine keeps the calls in progress on a stack.  What the
    programs do is the client: any function from what is running and the whole state
    to the next command.  The SAVs are a heap in which a destroyed one is [None];
    the objects of the clients are two lists of the SAVs they point to.

    The contract of a client is in the guards: a command names an object it holds,
    a promise is set once, a callback waits on one future at a time, and a future is
    waited for when it is not ready.  The Promise on which [send] is called stays
    until the call returns.  A callback removes itself when it is fired, as the code
    of actors does.  [Misuse] is a client that breaks the contract, [Corrupt] the
    use of a destroyed SAV, the destruction of one with callbacks, or a failed
    assertion of the SAV itself. *)

From Stdlib Require Import ZArith List Bool Lia PeanoNat.
From S2P Require Import Prelude.
Import ListNotations Counting.
#[local] Open Scope Z_scope.

Definition UNSET_ERROR_CODE : Z := -3.
Definition NEVER_ERROR_CODE : Z := -2.
Definition SET_ERROR_CODE : Z := -1.
(** The code of broken_promise in error_definitions.h. *)
Definition broken_promise : Z := 1100.

Record SAV := mkSAV { promises : Z; futures : Z; error_state : Z; value : Z; callbacks : list nat }.

Definition isSet (v : SAV) : bool := NEVER_ERROR_CODE <? error_state v.
Definition canBeSet (v : SAV) : bool := error_state v =? UNSET_ERROR_CODE.
Definition isError (v : SAV) : bool := SET_ERROR_CODE <? error_state v.

(** [get]: the value, the exception, or the failed assertion. *)
Inductive got := Got (v : Z) | Thrown (code : Z) | NotReady.
Definition sav_get (v : SAV) : got :=
  if isSet v then if isError v then Thrown (error_state v) else Got (value v) else NotReady.

Definition set_promises (v : SAV) (n : Z) : SAV := mkSAV n (futures v) (error_state v) (value v) (callbacks v).
Definition set_futures (v : SAV) (n : Z) : SAV := mkSAV (promises v) n (error_state v) (value v) (callbacks v).
Definition set_state (v : SAV) (code x : Z) : SAV := mkSAV (promises v) (futures v) code x (callbacks v).
Definition set_callbacks (v : SAV) (l : list nat) : SAV := mkSAV (promises v) (futures v) (error_state v) (value v) l.

(** What a loop over the callbacks ends in: the return of [send], the rest of
    [sendAndDelPromiseRef], the rest of [delPromiseRef]. *)
Inductive after := Return | DelPromise | Broken.

(** Which code of the client runs. *)
Inductive code_of := Main | OnFire (cb s : nat) | OnCancel (s : nat).

Inductive frame :=
| Client (c : code_of) (n : nat)
| Loop (s : nat) (k : after).

Inductive entry :=
| Waited (cb s : nat)
| Fired (cb s : nat) (code x : Z)
| Removed (cb s : nat).

Record machine := mkMachine {
  heap : list (option SAV); promise_objects : list nat; future_objects : list nat;
  stack : list frame; log : list entry
}.

Inductive outcome := Next (m : machine) | Misuse | Corrupt.
Definition andthen (o : outcome) (f : machine -> outcome) : outcome :=
  match o with Next m => f m | Misuse => Misuse | Corrupt => Corrupt end.

Definition put (m : machine) (s : nat) (v : option SAV) : machine :=
  mkMachine (set_nth (heap m) s v) (promise_objects m) (future_objects m) (stack m) (log m).
Definition push (m : machine) (f : frame) : machine :=
  mkMachine (heap m) (promise_objects m) (future_objects m) (f :: stack m) (log m).
Definition pop (m : machine) : machine :=
  mkMachine (heap m) (promise_objects m) (future_objects m) (tl (stack m)) (log m).
Definition set_objects (m : machine) (ps fs : list nat) : machine := mkMachine (heap m) ps fs (stack m) (log m).
Definition note (m : machine) (e : entry) : machine :=
  mkMachine (heap m) (promise_objects m) (future_objects m) (stack m) (e :: log m).
Definition alloc (m : machine) (v : SAV) : machine :=
  mkMachine (heap m ++ [Some v]) (promise_objects m) (future_objects m) (stack m) (log m).

Definition find_sav (m : machine) (s : nat) : option SAV :=
  match nth_error (heap m) s with Some (Some v) => Some v | _ => None end.
Definition on (m : machine) (s : nat) (f : SAV -> outcome) : outcome :=
  match find_sav m s with Some v => f v | None => Corrupt end.

Definition destroy (m : machine) (s : nat) : outcome :=
  on m s (fun v => match callbacks v with [] => Next (put m s None) | _ => Corrupt end).

Definition delFutureRef (m : machine) (s : nat) : outcome :=
  on m s (fun v =>
    let v := set_futures v (futures v - 1) in
    let m := put m s (Some v) in
    if futures v =? 0 then
      if promises v =? 0 then destroy m s else Next (push m (Client (OnCancel s) 0))
    else Next m).

(** Callback::remove, and unwait on the SAV when the list is empty. *)
Definition remove_callback (m : machine) (s cb : nat) : outcome :=
  on m s (fun v =>
    let v := set_callbacks v (remove1 cb (callbacks v)) in
    let m := put m s (Some v) in
    match callbacks v with [] => delFutureRef m s | _ => Next m end).

(** [if (!--promises && !futures) destroy()] *)
Definition dropPromise (m : machine) (s : nat) : outcome :=
  on m s (fun v =>
    let v := set_promises v (promises v - 1) in
    let m := put m s (Some v) in
    if (promises v =? 0) && (futures v =? 0) then destroy m s else Next m).

Definition finish (m : machine) (s : nat) (k : after) : outcome :=
  match k with
  | Return => Next (set_objects m (s :: promise_objects m) (future_objects m))
  | DelPromise => dropPromise m s
  | Broken =>
      on m s (fun v =>
        if promises v =? 1 then
          let m := put m s (Some (set_promises v 0)) in
          if futures v =? 0 then destroy m s else Next m
        else Corrupt)
  end.

(** [while (next != this) next->fire(value())], one turn. *)
Definition loop_turn (m : machine) (s : nat) (k : after) : outcome :=
  on m s (fun v =>
    match callbacks v with
    | [] => finish (pop m) s k
    | cb :: _ => remove_callback (note (push m (Client (OnFire cb s) 0)) (Fired cb s (error_state v) (value v))) s cb
    end).

Definition delPromiseRef (m : machine) (s : nat) : outcome :=
  on m s (fun v =>
    if promises v =? 1 then
      if negb (futures v =? 0) && canBeSet v
      then Next (push (put m s (Some (set_state v broken_promise (value v)))) (Loop s Broken))
      else finish m s Broken
    else Next (put m s (Some (set_promises v (promises v - 1))))).

(** [send], [sendError] with the code of the error, and their AndDelPromiseRef forms. *)
Definition send (m : machine) (s : nat) (code x : Z) : outcome :=
  on m s (fun v =>
    if canBeSet v then Next (push (put m s (Some (set_state v code x))) (Loop s Return)) else Misuse).

Definition sendAndDelPromiseRef (m : machine) (s : nat) (code x : Z) : outcome :=
  on m s (fun v =>
    if canBeSet v then
      if (promises v =? 1) && (futures v =? 0) then destroy m s
      else Next (push (put m s (Some (set_state v code x))) (Loop s DelPromise))
    else Misuse).

Definition sendNever (m : machine) (s : nat) : outcome :=
  on m s (fun v => if canBeSet v then Next (put m s (Some (set_state v NEVER_ERROR_CODE (value v)))) else Misuse).

Definition sendNeverAndDelPromiseRef (m : machine) (s : nat) : outcome := andthen (sendNever m s) (fun m => dropPromise m s).

Definition addCallbackAndDelFutureRef (m : machine) (s cb : nat) (back : bool) : outcome :=
  on m s (fun v =>
    andthen (match callbacks v with [] => Next m | _ => delFutureRef m s end) (fun m =>
    on m s (fun v => Next (put m s (Some (set_callbacks v (if back then callbacks v ++ [cb] else cb :: callbacks v))))))).

(** * Commands *)

Inductive command :=
| NewPromise
| CopyPromise (s : nat)
| DropPromise (s : nat)
| GetFuture (s : nat)
| CopyFuture (s : nat)
| DropFuture (s : nat)
| Present (code x : Z)
| Send (s : nat) (x : Z)
| SendError (s : nat) (code : Z)
| SendNever (s : nat)
| SendAndDel (s : nat) (x : Z)
| SendErrorAndDel (s : nat) (code : Z)
| SendNeverAndDel (s : nat)
| Wait (s cb : nat) (back : bool)
| Unwait (s cb : nat)
| Cancel (s : nat).

Definition waiting (m : machine) (cb : nat) : bool :=
  existsb (fun v => match v with Some v => holds cb (callbacks v) | None => false end) (heap m).

Definition with_promise (m : machine) (s : nat) (f : machine -> outcome) : outcome :=
  if holds s (promise_objects m) then f m else Misuse.
Definition take_promise (m : machine) (s : nat) (f : machine -> outcome) : outcome :=
  with_promise m s (fun m => f (set_objects m (remove1 s (promise_objects m)) (future_objects m))).
Definition with_future (m : machine) (s : nat) (f : machine -> outcome) : outcome :=
  if holds s (future_objects m) then f m else Misuse.
Definition take_future (m : machine) (s : nat) (f : machine -> outcome) : outcome :=
  with_future m s (fun m => f (set_objects m (promise_objects m) (remove1 s (future_objects m)))).

Definition exec (m : machine) (c : command) : outcome :=
  match c with
  | NewPromise => Next (alloc (set_objects m (length (heap m) :: promise_objects m) (future_objects m)) (mkSAV 1 0 UNSET_ERROR_CODE 0 []))
  | CopyPromise s => with_promise m s (fun m => on m s (fun v =>
      Next (set_objects (put m s (Some (set_promises v (promises v + 1)))) (s :: promise_objects m) (future_objects m))))
  | DropPromise s => take_promise m s (fun m => delPromiseRef m s)
  | GetFuture s => with_promise m s (fun m => on m s (fun v =>
      Next (set_objects (put m s (Some (set_futures v (futures v + 1)))) (promise_objects m) (s :: future_objects m))))
  | CopyFuture s => with_future m s (fun m => on m s (fun v =>
      Next (set_objects (put m s (Some (set_futures v (futures v + 1)))) (promise_objects m) (s :: future_objects m))))
  | DropFuture s => take_future m s (fun m => delFutureRef m s)
  | Present code x =>
      if (NEVER_ERROR_CODE <=? code) && negb (code =? 0)
      then Next (alloc (set_objects m (promise_objects m) (length (heap m) :: future_objects m)) (mkSAV 0 1 code x []))
      else Misuse
  | Send s x => take_promise m s (fun m => send m s SET_ERROR_CODE x)
  | SendError s code => if 0 <? code then take_promise m s (fun m => send m s code 0) else Misuse
  | SendNever s => with_promise m s (fun m => sendNever m s)
  | SendAndDel s x => take_promise m s (fun m => sendAndDelPromiseRef m s SET_ERROR_CODE x)
  | SendErrorAndDel s code => if 0 <? code then take_promise m s (fun m => sendAndDelPromiseRef m s code 0) else Misuse
  | SendNeverAndDel s => take_promise m s (fun m => sendNeverAndDelPromiseRef m s)
  | Wait s cb back =>
      if waiting m cb then Misuse else
      take_future m s (fun m => on m s (fun v =>
        if isSet v then Misuse else andthen (addCallbackAndDelFutureRef m s cb back) (fun m => Next (note m (Waited cb s)))))
  | Unwait s cb =>
      match find_sav m s with
      | Some v => if holds cb (callbacks v) then remove_callback (note m (Removed cb s)) s cb else Misuse
      | None => Misuse
      end
  | Cancel s => with_future m s (fun m => Next (push m (Client (OnCancel s) 0)))
  end.

(** * The machine *)

Section Machine.
Context (client : code_of -> nat -> machine -> option command).

Definition step (m : machine) : outcome :=
  match stack m with
  | [] => Next m
  | Client c n :: k =>
      match client c n m with
      | None => Next (pop m)
      | Some cmd => exec (push (pop m) (Client c (S n))) cmd
      end
  | Loop s k :: _ => loop_turn m s k
  end.

Fixpoint run (n : nat) (m : machine) : outcome :=
  match n with O => Next m | S n => andthen (step m) (run n) end.

Definition start : machine := mkMachine [] [] [] [Client Main 0] [].
End Machine.
