(* ===== verification/SavProofs.v ===== *)
(** Promises and futures: no client, whatever its callbacks do while a value is sent,
    makes a SAV touch memory that is gone; counts are the objects that exist; and
    every wait ends once, with the one outcome of the promise. *)

From Stdlib Require Import ZArith List Bool Lia PeanoNat.
From S2P Require Import Prelude Sav.
Import ListNotations Counting.
#[local] Open Scope Z_scope.

(** * What refers to a SAV *)

Definition in_loop (t : nat) (f : frame) : Z := match f with Loop s _ => one t s | Client _ _ => 0 end.
Definition loops (t : nat) (k : list frame) : Z := sumL (in_loop t) k.
Definition waited_on (l : list nat) : Z := match l with [] => 0 | _ => 1 end.

(** The lists a callback is in, and its entries in the log. *)
Definition listed (cb : nat) (o : option SAV) : Z := match o with Some v => cnt cb (callbacks v) | None => 0 end.
Definition began (cb : nat) (e : entry) : Z := match e with Waited c _ => one cb c | _ => 0 end.
Definition ended (cb : nat) (e : entry) : Z := match e with Fired c _ _ _ | Removed c _ => one cb c | _ => 0 end.

Record local_ok (m : machine) (s : nat) (v : SAV) : Prop := {
  ok_code : UNSET_ERROR_CODE <= error_state v /\ error_state v <> 0;
  ok_promise : canBeSet v = true -> 0 < promises v;
  ok_waiting : isSet v = true -> callbacks v <> [] -> 0 < loops s (stack m);
  ok_loops : 0 < loops s (stack m) -> isSet v = true;
  ok_broken : In (Loop s Broken) (stack m) -> promises v = 1
}.

(** The invariant but for one SAV [s]: its counts exceed its objects by [dp] and
    [df], and the lists have [q] more of [cb] than the log says. *)
Record base (m : machine) (s : nat) (dp df : Z) (cb : nat) (q : Z) : Prop := {
  b_promises : forall t v, find_sav m t = Some v -> promises v = cnt t (promise_objects m) + loops t (stack m) + dp * one t s;
  b_futures : forall t v, find_sav m t = Some v -> futures v = cnt t (future_objects m) + waited_on (callbacks v) + df * one t s;
  b_dead : forall t, find_sav m t = None -> cnt t (promise_objects m) = 0 /\ cnt t (future_objects m) = 0 /\ loops t (stack m) = 0;
  b_once : forall c, sumL (listed c) (heap m) <= 1;
  b_log : forall c, sumL (listed c) (heap m) = sumL (began c) (log m) - sumL (ended c) (log m) + q * one c cb;
  b_fired : forall c t code x, In (Fired c t code x) (log m) -> NEVER_ERROR_CODE < code /\ (t < length (heap m))%nat /\
              forall v, find_sav m t = Some v -> error_state v = code /\ value v = x;
  b_agree : forall c t code x c' code' x', In (Fired c t code x) (log m) -> In (Fired c' t code' x') (log m) -> code = code' /\ x = x';
  b_others : forall t v, t <> s -> find_sav m t = Some v -> local_ok m t v /\ 0 < promises v + futures v
}.

Definition full (m : machine) : Prop :=
  base m 0 0 0 0 0 /\ (forall t v, find_sav m t = Some v -> local_ok m t v /\ 0 < promises v + futures v).

Lemma full_base m s cb : full m -> base m s 0 0 cb 0.
Proof.
  intros [B O]. destruct B. now constructor; auto.
Qed.

Lemma close m s cb : base m s 0 0 cb 0 ->
  (forall v, find_sav m s = Some v -> local_ok m s v /\ 0 < promises v + futures v) -> full m.
Proof.
  intros B L. split.
  - destruct B. constructor; auto. intros t v _ E. destruct (Nat.eq_dec t s) as [->|N]; auto.
  - intros t v E. destruct (Nat.eq_dec t s) as [->|N]; [auto|]. apply (b_others _ _ _ _ _ _ B); auto.
Qed.

(** * Heap cells *)

Lemma find_put m s o t v : find_sav m s = Some v -> find_sav (put m s o) t = if Nat.eqb t s then o else find_sav m t.
Proof.
  unfold find_sav. cbn [put heap]. destruct (nth_error (heap m) s) as [o'|] eqn:E; [|discriminate]. intros _.
  rewrite (nth_error_set _ _ _ _ _ E). destruct (Nat.eqb t s); [now destruct o|reflexivity].
Qed.

Lemma find_cell m s v : find_sav m s = Some v -> nth_error (heap m) s = Some (Some v).
Proof. unfold find_sav. destruct (nth_error (heap m) s) as [[]|]; congruence. Qed.

Lemma listed_put m s v o c : find_sav m s = Some v ->
  sumL (listed c) (heap (put m s o)) = sumL (listed c) (heap m) - cnt c (callbacks v) + listed c o.
Proof. intros E. apply find_cell in E. cbn [put heap]. rewrite (sumL_set _ _ _ _ _ E). reflexivity. Qed.

Lemma listed_nonneg c o : 0 <= listed c o.
Proof. destruct o; cbn; [apply cnt_nonneg|lia]. Qed.

Lemma in_loop_nonneg t f : 0 <= in_loop t f.
Proof. destruct f; cbn; [lia|apply one_nonneg]. Qed.
Lemma loops_nonneg t k : 0 <= loops t k.
Proof. apply sumL_nonneg, in_loop_nonneg. Qed.
Lemma broken_loops s k : In (Loop s Broken) k -> 1 <= loops s k.
Proof. intros H. pose proof (sumL_member _ _ _ (in_loop_nonneg s) H) as M. cbn in M. now rewrite one_same in M. Qed.

(** * The moves of the operations *)

(** The SAV itself changes. *)
Lemma base_put m s dp df cb q v v' dp' df' q' :
  base m s dp df cb q -> find_sav m s = Some v ->
  promises v' = promises v + (dp' - dp) -> futures v' - waited_on (callbacks v') = futures v - waited_on (callbacks v) + (df' - df) ->
  (forall c, cnt c (callbacks v') = cnt c (callbacks v) + (q' - q) * one c cb) ->
  (q' <= q \/ q' = q + 1 /\ sumL (listed cb) (heap m) = 0) ->
  (canBeSet v = true \/ error_state v' = error_state v /\ value v' = value v) ->
  base (put m s (Some v')) s dp' df' cb q'.
Proof.
  intros B E P F C Q S. pose proof (fun t => find_put m s (Some v') t v E) as FP. destruct B.
  constructor; cbn [put promise_objects future_objects stack log]; auto.
  - intros t u. rewrite FP. destruct (Nat.eqb_spec t s) as [->|N]; intros K; [injection K as <-; rewrite P, (b_promises0 _ _ E)|rewrite (b_promises0 _ _ K), !one_other by auto]; rewrite ?one_same; lia.
  - intros t u. rewrite FP. destruct (Nat.eqb_spec t s) as [->|N]; intros K; [injection K as <-; pose proof (b_futures0 _ _ E) as U|rewrite (b_futures0 _ _ K), !one_other by auto]; rewrite ?one_same in *; lia.
  - intros t. rewrite FP. destruct (Nat.eqb_spec t s) as [->|N]; [discriminate|auto].
  - intros c. rewrite (listed_put m s v _ c E). cbn [listed]. rewrite C. specialize (b_once0 c). unfold one.
    destruct (Nat.eqb_spec c cb) as [->|N]; lia.
  - intros c. rewrite (listed_put m s v _ c E), b_log0. cbn [listed]. rewrite C. lia.
  - intros c t code x I. destruct (b_fired0 c t code x I) as (A & L & M). split; [exact A|]. split; [cbn [put heap]; now rewrite set_nth_length|].
    intros u. rewrite FP. destruct (Nat.eqb_spec t s) as [->|N]; [|auto]. intros [= <-]. destruct (M v E) as [M1 M2].
    destruct S as [S|[-> ->]]; [|auto]. unfold canBeSet in S. apply Z.eqb_eq in S. unfold UNSET_ERROR_CODE, NEVER_ERROR_CODE in *. lia.
  - intros t u N. rewrite FP. destruct (Nat.eqb_spec t s) as [->|_]; [congruence|]. intros K. destruct (b_others0 t u N K) as [[] ?]. split; [constructor; auto|auto].
Qed.

(** The client's objects change, those of other SAVs do not. *)
Lemma base_objects m s dp df cb q v ps fs dp' df' :
  base m s dp df cb q -> find_sav m s = Some v ->
  (forall t, cnt t ps = cnt t (promise_objects m) - (dp' - dp) * one t s) ->
  (forall t, cnt t fs = cnt t (future_objects m) - (df' - df) * one t s) ->
  base (set_objects m ps fs) s dp' df' cb q.
Proof.
  intros B E P F. destruct B. constructor; cbn [set_objects promise_objects future_objects stack log heap]; auto.
  - intros t u K. rewrite P. pose proof (b_promises0 t u K). lia.
  - intros t u K. rewrite F. pose proof (b_futures0 t u K). lia.
  - intros t K. destruct (b_dead0 t K) as (? & ? & ?). assert (N : t <> s) by (intros ->; change (find_sav m s = None) in K; congruence).
    rewrite P, F, !one_other by exact N. lia.
  - intros t u N K. destruct (b_others0 t u N K) as [[] ?]. split; [constructor; auto|auto].
Qed.

(** A call begins or ends. *)
Lemma base_stack m s dp df cb q v k dp' :
  base m s dp df cb q -> find_sav m s = Some v ->
  (forall t, loops t k = loops t (stack m) - (dp' - dp) * one t s) ->
  (forall t, t <> s -> In (Loop t Broken) k -> In (Loop t Broken) (stack m)) ->
  base (mkMachine (heap m) (promise_objects m) (future_objects m) k (log m)) s dp' df cb q.
Proof.
  intros B E L K. destruct B. constructor; cbn [promise_objects future_objects stack log heap]; auto.
  - intros t u U. rewrite L. pose proof (b_promises0 t u U). lia.
  - intros t U. destruct (b_dead0 t U) as (? & ? & ?). assert (N : t <> s) by (intros ->; change (find_sav m s = None) in U; congruence).
    rewrite L, one_other by exact N. lia.
  - intros t u N U. destruct (b_others0 t u N U) as [[] ?]. split; [|assumption].
    assert (LT : loops t k = loops t (stack m)) by (rewrite L, one_other by exact N; lia).
    constructor; cbn [stack]; rewrite ?LT; auto.
Qed.

Lemma base_note m s dp df cb q e q' :
  base m s dp df cb q -> (forall c, began c e - ended c e = (q - q') * one c cb) ->
  match e with
  | Fired _ t code x => NEVER_ERROR_CODE < code /\ exists v, find_sav m t = Some v /\ error_state v = code /\ value v = x
  | _ => True
  end -> base (note m e) s dp df cb q'.
Proof.
  intros B Q F. destruct B. constructor; cbn [note promise_objects future_objects stack log heap sumL]; auto.
  - intros c. rewrite b_log0. specialize (Q c). lia.
  - intros c t code x [->|I]; [|exact (b_fired0 _ _ _ _ I)]. destruct F as [A (v & E & S & X)]. split; [exact A|]. split.
    + apply nth_error_Some. apply find_cell in E. congruence.
    + intros u U. change (find_sav m t = Some u) in U. rewrite E in U. injection U as <-. auto.
  - intros c t code x c' code' x' [->|I] [J|J]; [now injection J as <- <- <-| | |exact (b_agree0 _ _ _ _ _ _ _ I J)].
    + destruct F as [_ (v & E & S & X)]. destruct (b_fired0 _ _ _ _ J) as (_ & _ & M). destruct (M v E). split; congruence.
    + subst e. destruct F as [_ (v & E & S & X)]. destruct (b_fired0 _ _ _ _ I) as (_ & _ & M). destruct (M v E). split; congruence.
  - intros t u N K. destruct (b_others0 t u N K) as [[] ?]. split; [constructor; auto|auto].
Qed.

(** Nothing refers to the SAV any more. *)
Lemma destroy_full m s dp df cb v : base m s dp df cb 0 -> find_sav m s = Some v -> promises v = dp -> futures v = df ->
  exists m', destroy m s = Next m' /\ full m'.
Proof.
  intros B E P F. pose proof (b_promises _ _ _ _ _ _ B s v E) as BP. pose proof (b_futures _ _ _ _ _ _ B s v E) as BF.
  rewrite one_same in BP, BF. pose proof (loops_nonneg s (stack m)). assert (C : callbacks v = []) by (destruct (callbacks v); [reflexivity|cbn [waited_on] in BF; counts; lia]).
  unfold destroy, on. rewrite E, C. eexists. split; [reflexivity|]. pose proof (fun t => find_put m s None t v E) as FP.
  assert (LP : forall c, sumL (listed c) (heap (put m s None)) = sumL (listed c) (heap m)) by (intros c; rewrite (listed_put m s v _ c E), C; cbn; lia).
  apply (close _ s cb); [|intros u; rewrite FP, Nat.eqb_refl; discriminate]. rewrite C in BF. cbn [waited_on] in BF. counts.
  destruct B. constructor; cbn [put promise_objects future_objects stack log]; auto.
  - intros t u. rewrite FP. destruct (Nat.eqb_spec t s) as [->|N]; [discriminate|]. intros K. rewrite (b_promises0 _ _ K), one_other by exact N. lia.
  - intros t u. rewrite FP. destruct (Nat.eqb_spec t s) as [->|N]; [discriminate|]. intros K. rewrite (b_futures0 _ _ K), one_other by exact N. lia.
  - intros t. rewrite FP. destruct (Nat.eqb_spec t s) as [->|N]; [intros _; lia|auto].
  - intros c. rewrite LP. auto.
  - intros c. rewrite LP. auto.
  - intros c t code x I. destruct (b_fired0 c t code x I) as (A & L & M). split; [exact A|]. split; [cbn [put heap]; now rewrite set_nth_length|].
    intros u. rewrite FP. destruct (Nat.eqb t s); [discriminate|auto].
  - intros t u N. rewrite FP. destruct (Nat.eqb t s); [discriminate|]. intros K. destruct (b_others0 t u N K) as [[] ?]. split; [constructor; auto|auto].
Qed.

(** * The operations keep the invariant *)

Lemma local_move m s v m' v' : local_ok m s v -> error_state v' = error_state v -> promises v' = promises v ->
  (callbacks v' <> [] -> callbacks v <> []) -> loops s (stack m') = loops s (stack m) ->
  (In (Loop s Broken) (stack m') -> In (Loop s Broken) (stack m)) -> local_ok m' s v'.
Proof.
  intros [] E P C L K. unfold isSet, canBeSet in *. constructor; unfold isSet, canBeSet; rewrite ?E, ?P, ?L; auto.
Qed.

Lemma find_same m s v v' : find_sav m s = Some v -> find_sav (put m s (Some v')) s = Some v'.
Proof. intros E. rewrite (find_put m s (Some v') s v E), Nat.eqb_refl. reflexivity. Qed.

Lemma find_push m f t : find_sav (push m f) t = find_sav m t.
Proof. reflexivity. Qed.

Lemma loops_client t c n k : loops t (Client c n :: k) = loops t k.
Proof. reflexivity. Qed.

Lemma base_push m s dp df cb q v c n : base m s dp df cb q -> find_sav m s = Some v -> base (push m (Client c n)) s dp df cb q.
Proof.
  intros B E. apply (base_stack m s dp df cb q v); auto.
  - intros t. rewrite loops_client. lia.
  - intros t _ [H|H]; [discriminate|exact H].
Qed.

Lemma local_push m s v c n : local_ok m s v -> local_ok (push m (Client c n)) s v.
Proof. intros L. apply (local_move m s v); auto. intros [H|H]; [discriminate|exact H]. Qed.

(** The side conditions of [base_put]. *)
Ltac puts := cbn [set_promises set_futures set_state set_callbacks promises futures error_state value callbacks];
  first [lia | solve [intros; lia] | solve [auto] | idtac].

Lemma delFutureRef_full m s cb v : base m s 0 1 cb 0 -> find_sav m s = Some v -> local_ok m s v ->
  exists m', delFutureRef m s = Next m' /\ full m'.
Proof.
  intros B E L. unfold delFutureRef, on. rewrite E. set (v1 := set_futures v (futures v - 1)). set (m1 := put m s (Some v1)).
  assert (B1 : base m1 s 0 0 cb 0) by (apply (base_put m s 0 1 cb 0 v v1); auto; unfold v1; puts).
  assert (E1 : find_sav m1 s = Some v1) by (apply (find_same m s v), E).
  assert (L1 : local_ok m1 s v1) by (now apply (local_move m s v)).
  pose proof (b_promises _ _ _ _ _ _ B1 s v1 E1) as P1. pose proof (b_futures _ _ _ _ _ _ B1 s v1 E1) as F1.
  pose proof (loops_nonneg s (stack m1)). assert (0 <= waited_on (callbacks v1)) by (destruct (callbacks v1); cbn; lia). counts.
  destruct (Z.eqb_spec (futures v1) 0) as [F0|F0]; [destruct (Z.eqb_spec (promises v1) 0) as [P0|P0]|].
  - now apply (destroy_full m1 s 0 0 cb v1).
  - eexists. split; [reflexivity|]. apply (close _ s cb); [now apply (base_push m1 s 0 0 cb 0 v1)|].
    intros u U. rewrite find_push, E1 in U. injection U as <-. split; [now apply local_push|lia].
  - eexists. split; [reflexivity|]. apply (close _ s cb); [exact B1|]. intros u U. rewrite E1 in U. injection U as <-. split; [exact L1|lia].
Qed.

Lemma remove_callback_full m s cb v : base m s 0 0 cb 1 -> find_sav m s = Some v -> local_ok m s v -> In cb (callbacks v) ->
  exists m', remove_callback m s cb = Next m' /\ full m'.
Proof.
  intros B E L I. unfold remove_callback, on. rewrite E. set (v1 := set_callbacks v (remove1 cb (callbacks v))). set (m1 := put m s (Some v1)).
  assert (E1 : find_sav m1 s = Some v1) by (apply (find_same m s v), E).
  assert (W : waited_on (callbacks v) = 1) by (destruct (callbacks v); [destruct I|reflexivity]).
  assert (B1 : base m1 s 0 (1 - waited_on (callbacks v1)) cb 0).
  { apply (base_put m s 0 0 cb 1 v v1); auto; unfold v1; puts. intros c. rewrite cnt_remove1 by exact I. lia. }
  assert (L1 : local_ok m1 s v1) by (apply (local_move m s v); auto; intros _ H; rewrite H in I; destruct I).
  destruct (callbacks v1) as [|c l] eqn:C.
  - now apply (delFutureRef_full m1 s cb v1).
  - eexists. split; [reflexivity|]. apply (close _ s cb); [exact B1|]. intros u U. rewrite E1 in U. injection U as <-. split; [exact L1|].
    pose proof (b_promises _ _ _ _ _ _ B1 s v1 E1). pose proof (b_futures _ _ _ _ _ _ B1 s v1 E1) as F1. rewrite C in F1. cbn [waited_on] in F1.
    pose proof (loops_nonneg s (stack m1)). counts. lia.
Qed.

(** [if (!--promises && !futures) destroy()] by the holder of a promise that is set or never. *)
Lemma dropPromise_full m s cb v : base m s 1 0 cb 0 -> find_sav m s = Some v -> local_ok m s v -> canBeSet v = false ->
  exists m', dropPromise m s = Next m' /\ full m'.
Proof.
  intros B E L U. unfold dropPromise, on. rewrite E. set (v1 := set_promises v (promises v - 1)). set (m1 := put m s (Some v1)).
  assert (B1 : base m1 s 0 0 cb 0) by (apply (base_put m s 1 0 cb 0 v v1); auto; unfold v1; puts).
  assert (E1 : find_sav m1 s = Some v1) by (apply (find_same m s v), E).
  pose proof (b_promises _ _ _ _ _ _ B s v E) as P0. pose proof (b_promises _ _ _ _ _ _ B1 s v1 E1) as P1. rewrite one_same in P0.
  pose proof (b_futures _ _ _ _ _ _ B1 s v1 E1) as F1. pose proof (loops_nonneg s (stack m)).
  assert (0 <= waited_on (callbacks v1)) by (destruct (callbacks v1); cbn; lia). cbn [m1 put promise_objects future_objects stack] in *. counts.
  destruct ((promises v1 =? 0) && (futures v1 =? 0)) eqn:Z.
  - apply andb_true_iff in Z. rewrite !Z.eqb_eq in Z. destruct Z. now apply (destroy_full m1 s 0 0 cb v1).
  - eexists. split; [reflexivity|]. apply (close _ s cb); [exact B1|]. intros u X. rewrite E1 in X. injection X as <-.
    apply andb_false_iff in Z. rewrite !Z.eqb_neq in Z. split; [|lia]. destruct L. constructor; auto.
    + intros X. change (canBeSet v = true) in X. congruence.
    + intros X. change (In (Loop s Broken) (stack m)) in X. pose proof (ok_broken0 X). apply broken_loops in X. lia.
Qed.

Lemma no_broken m s df cb v : base m s 1 df cb 0 -> find_sav m s = Some v -> local_ok m s v -> ~ In (Loop s Broken) (stack m).
Proof.
  intros B E L X. pose proof (ok_broken _ _ _ L X). apply broken_loops in X. pose proof (b_promises _ _ _ _ _ _ B s v E) as P.
  rewrite one_same in P. counts. lia.
Qed.

Lemma finish_broken m s cb v : base m s 1 0 cb 0 -> find_sav m s = Some v -> local_ok m s v -> promises v = 1 ->
  futures v = 0 \/ canBeSet v = false -> exists m', finish m s Broken = Next m' /\ full m'.
Proof.
  intros B E L P H. unfold finish, on. rewrite E, P. cbn [Z.eqb Pos.eqb]. set (v1 := set_promises v 0). set (m1 := put m s (Some v1)).
  assert (B1 : base m1 s 0 0 cb 0) by (apply (base_put m s 1 0 cb 0 v v1); auto; unfold v1; puts).
  assert (E1 : find_sav m1 s = Some v1) by (apply (find_same m s v), E).
  destruct (Z.eqb_spec (futures v) 0) as [F|F]; [now apply (destroy_full m1 s 0 0 cb v1)|].
  eexists. split; [reflexivity|]. apply (close _ s cb); [exact B1|]. intros u X. rewrite E1 in X. injection X as <-.
  destruct H as [H|H]; [contradiction|]. split.
  - pose proof (no_broken m s 0 cb v B E L) as N. destruct L. constructor; auto; intros X.
    + change (canBeSet v = true) in X. congruence.
    + destruct (N X).
  - pose proof (b_futures _ _ _ _ _ _ B1 s v1 E1) as F1. assert (0 <= waited_on (callbacks v1)) by (destruct (callbacks v1); cbn; lia).
    change (futures v1) with (futures v) in *. change (promises v1) with 0. counts. lia.
Qed.

Lemma set_not_unset v : isSet v = true -> canBeSet v = false.
Proof. unfold isSet, canBeSet, NEVER_ERROR_CODE, UNSET_ERROR_CODE. rewrite Z.ltb_lt. intros H. apply Z.eqb_neq. lia. Qed.

Lemma finish_full m s k cb v : base m s 1 0 cb 0 -> find_sav m s = Some v -> local_ok m s v -> isSet v = true ->
  (k = Broken -> promises v = 1) -> exists m', finish m s k = Next m' /\ full m'.
Proof.
  intros B E L S K. destruct k.
  - eexists. split; [reflexivity|].
    assert (B1 : base (set_objects m (s :: promise_objects m) (future_objects m)) s 0 0 cb 0).
    { apply (base_objects m s 1 0 cb 0 v); auto; intros t; rewrite ?cnt_head; lia. }
    apply (close _ s cb); [exact B1|]. intros u U. change (find_sav m s = Some u) in U. rewrite E in U. injection U as <-.
    split; [now apply (local_move m s v)|]. pose proof (b_promises _ _ _ _ _ _ B s v E) as P. pose proof (b_futures _ _ _ _ _ _ B s v E) as F.
    rewrite one_same in P. pose proof (loops_nonneg s (stack m)). assert (0 <= waited_on (callbacks v)) by (destruct (callbacks v); cbn; lia). counts. lia.
  - apply (dropPromise_full m s cb v); auto. now apply set_not_unset.
  - apply (finish_broken m s cb v); auto. right. now apply set_not_unset.
Qed.

Lemma loop_turn_full m s k rest : full m -> stack m = Loop s k :: rest -> exists m', loop_turn m s k = Next m' /\ full m'.
Proof.
  intros F K. pose proof (full_base m s 0 F) as B. unfold loop_turn, on.
  assert (LP : 1 <= loops s (stack m)).
  { rewrite K. pose proof (loops_nonneg s rest). unfold loops in *. cbn [sumL in_loop]. rewrite one_same. lia. }
  destruct (find_sav m s) as [v|] eqn:E; [|destruct (b_dead _ _ _ _ _ _ B s E) as (_ & _ & D); lia].
  destruct (proj2 F s v E) as [L P]. assert (S : isSet v = true) by (apply (ok_loops _ _ _ L); lia).
  destruct (callbacks v) as [|cb l] eqn:C.
  - assert (B1 : base (pop m) s 1 0 0 0).
    { apply (base_stack m s 0 0 0 0 v); auto; rewrite K; cbn [tl].
      - intros t. unfold loops. cbn [sumL in_loop]. lia.
      - intros t N H. now right. }
    apply (finish_full (pop m) s k 0 v); auto.
    + destruct L. constructor; auto; cbn [pop stack]; rewrite K; cbn [tl]; try (intros; congruence).
      intros H. apply ok_broken0. rewrite K. now right.
    + intros ->. apply (ok_broken _ _ _ L). rewrite K. now left.
  - assert (NV : NEVER_ERROR_CODE < error_state v) by (unfold isSet in S; now apply Z.ltb_lt in S).
    apply (remove_callback_full _ s cb v); auto.
    + apply (base_note _ s 0 0 cb 0); [apply (base_push m s 0 0 cb 0 v); [now apply full_base|exact E]| |].
      * intros c. cbn [began ended]. lia.
      * split; [exact NV|]. exists v. auto.
    + apply (local_move (push m (Client (OnFire cb s) 0)) s v); auto. now apply local_push.
    + rewrite C. now left.
Qed.

(** A promise is set while a call holds one of its objects. *)
Lemma set_loop m s k cb v code x : base m s 1 0 cb 0 -> find_sav m s = Some v -> local_ok m s v -> canBeSet v = true ->
  NEVER_ERROR_CODE < code -> code <> 0 -> (k = Broken -> promises v = 1) ->
  full (push (put m s (Some (set_state v code x))) (Loop s k)).
Proof.
  intros B E L U C C0 K. set (v1 := set_state v code x). set (m1 := put m s (Some v1)).
  assert (B1 : base m1 s 1 0 cb 0) by (apply (base_put m s 1 0 cb 0 v v1); auto; unfold v1; puts).
  assert (E1 : find_sav m1 s = Some v1) by (apply (find_same m s v), E).
  assert (S1 : isSet v1 = true) by (unfold isSet; now apply Z.ltb_lt).
  pose proof (no_broken m s 0 cb v B E L) as NB.
  assert (LP : 1 <= loops s (Loop s k :: stack m)).
  { pose proof (loops_nonneg s (stack m)). unfold loops in *. cbn [sumL in_loop]. rewrite one_same. lia. }
  apply (close _ s cb).
  - apply (base_stack m1 s 1 0 cb 0 v1); auto.
    + intros t. unfold loops. cbn [sumL in_loop]. change (stack m1) with (stack m). lia.
    + intros t N [H|H]; [congruence|exact H].
  - intros u X. rewrite find_push, E1 in X. injection X as <-.
    pose proof (b_promises _ _ _ _ _ _ B1 s v1 E1) as P. pose proof (b_futures _ _ _ _ _ _ B1 s v1 E1) as F. rewrite one_same in P.
    pose proof (loops_nonneg s (stack m1)). assert (0 <= waited_on (callbacks v1)) by (destruct (callbacks v1); cbn; lia). counts. split; [|lia].
    constructor; cbn [push stack]; try (intros; assumption).
    + cbn. unfold UNSET_ERROR_CODE, NEVER_ERROR_CODE in *. lia.
    + intros X. apply set_not_unset in S1. congruence.
    + intros _ _. change (stack m1) with (stack m). lia.
    + intros [X|X]; [injection X as ->; now apply K|destruct (NB X)].
Qed.

Lemma delPromiseRef_full m s cb v : base m s 1 0 cb 0 -> find_sav m s = Some v -> local_ok m s v ->
  exists m', delPromiseRef m s = Next m' /\ full m'.
Proof.
  intros B E L. unfold delPromiseRef, on. rewrite E. destruct (Z.eqb_spec (promises v) 1) as [P|P].
  - destruct (negb (futures v =? 0) && canBeSet v) eqn:H.
    + apply andb_true_iff in H. destruct H as [_ H]. eexists. split; [reflexivity|].
      apply (set_loop m s Broken cb v); auto; unfold broken_promise, NEVER_ERROR_CODE; lia.
    + apply (finish_broken m s cb v); auto. apply andb_false_iff in H. rewrite negb_false_iff, Z.eqb_eq in H. exact H.
  - eexists. split; [reflexivity|]. set (v1 := set_promises v (promises v - 1)).
    assert (B1 : base (put m s (Some v1)) s 0 0 cb 0) by (apply (base_put m s 1 0 cb 0 v v1); auto; unfold v1; puts).
    assert (E1 : find_sav (put m s (Some v1)) s = Some v1) by (apply (find_same m s v), E).
    pose proof (no_broken m s 0 cb v B E L) as NB.
    pose proof (b_promises _ _ _ _ _ _ B s v E) as P0. pose proof (b_futures _ _ _ _ _ _ B s v E) as F. rewrite one_same in P0.
    pose proof (loops_nonneg s (stack m)). assert (0 <= waited_on (callbacks v)) by (destruct (callbacks v); cbn; lia). counts.
    apply (close _ s cb); [exact B1|]. intros u X. rewrite E1 in X. injection X as <-. cbn [v1 set_promises promises futures]. split; [|lia].
    destruct L. constructor; auto; cbn [v1 set_promises promises].
    + lia.
    + intros X. destruct (NB X).
Qed.

Lemma send_full m s cb v code x : base m s 1 0 cb 0 -> find_sav m s = Some v -> local_ok m s v ->
  NEVER_ERROR_CODE < code -> code <> 0 -> send m s code x = Misuse \/ exists m', send m s code x = Next m' /\ full m'.
Proof.
  intros B E L C C0. unfold send, on. rewrite E. destruct (canBeSet v) eqn:U; [|now left]. right. eexists. split; [reflexivity|].
  apply (set_loop m s Return cb v); auto. discriminate.
Qed.

Lemma sendAndDel_full m s cb v code x : base m s 1 0 cb 0 -> find_sav m s = Some v -> local_ok m s v ->
  NEVER_ERROR_CODE < code -> code <> 0 ->
  sendAndDelPromiseRef m s code x = Misuse \/ exists m', sendAndDelPromiseRef m s code x = Next m' /\ full m'.
Proof.
  intros B E L C C0. unfold sendAndDelPromiseRef, on. rewrite E. destruct (canBeSet v) eqn:U; [|now left]. right.
  destruct ((promises v =? 1) && (futures v =? 0)) eqn:Z.
  - apply andb_true_iff in Z. rewrite !Z.eqb_eq in Z. destruct Z. now apply (destroy_full m s 1 0 cb v).
  - eexists. split; [reflexivity|]. apply (set_loop m s DelPromise cb v); auto. discriminate.
Qed.

(** * Commands *)

Definition safe (o : outcome) : Prop := o = Misuse \/ exists m, o = Next m /\ full m.

Lemma safe_next m : full m -> safe (Next m).
Proof. intros F. right. eauto. Qed.
Lemma safe_misuse : safe Misuse.
Proof. now left. Qed.
Lemma safe_some o : (exists m, o = Next m /\ full m) -> safe o.
Proof. intros H. now right. Qed.
Create HintDb savdb.
#[export] Hint Resolve safe_next safe_misuse safe_some : savdb.

Lemma promise_alive m s : full m -> In s (promise_objects m) -> exists v, find_sav m s = Some v.
Proof.
  intros F I. destruct (find_sav m s) as [v|] eqn:E; [eauto|]. destruct (b_dead _ _ _ _ _ _ (full_base m s 0 F) s E) as (D & _). apply cnt_in in I. lia.
Qed.
Lemma future_alive m s : full m -> In s (future_objects m) -> exists v, find_sav m s = Some v.
Proof.
  intros F I. destruct (find_sav m s) as [v|] eqn:E; [eauto|]. destruct (b_dead _ _ _ _ _ _ (full_base m s 0 F) s E) as (_ & D & _). apply cnt_in in I. lia.
Qed.

(** An object taken from the client is a count without an object. *)
Lemma take_promise_safe m s f : full m ->
  (forall v m', find_sav m' s = Some v -> base m' s 1 0 0 0 -> local_ok m' s v -> safe (f m')) -> safe (take_promise m s f).
Proof.
  intros F H. unfold take_promise, with_promise. destruct (holds s (promise_objects m)) eqn:I; [|auto with savdb].
  apply holds_in in I. destruct (promise_alive m s F I) as [v E]. apply (H v); [exact E| |].
  - apply (base_objects m s 0 0 0 0 v); auto using full_base; intros t; rewrite ?cnt_remove1 by exact I; lia.
  - destruct (proj2 F s v E) as [L _]. now apply (local_move m s v).
Qed.

Lemma take_future_safe m s f : full m ->
  (forall v m', find_sav m' s = Some v -> base m' s 0 1 0 0 -> local_ok m' s v -> heap m' = heap m -> safe (f m')) -> safe (take_future m s f).
Proof.
  intros F H. unfold take_future, with_future. destruct (holds s (future_objects m)) eqn:I; [|auto with savdb].
  apply holds_in in I. destruct (future_alive m s F I) as [v E]. apply (H v); [exact E| | |reflexivity].
  - apply (base_objects m s 0 0 0 0 v); auto using full_base; intros t; rewrite ?cnt_remove1 by exact I; lia.
  - destruct (proj2 F s v E) as [L _]. now apply (local_move m s v).
Qed.

(** A new object for a SAV that is alive. *)
Lemma copy_full m s v v' ps fs : full m -> find_sav m s = Some v ->
  promises v <= promises v' -> futures v <= futures v' -> error_state v' = error_state v -> value v' = value v -> callbacks v' = callbacks v ->
  (In (Loop s Broken) (stack m) -> promises v' = 1) ->
  (forall t, cnt t ps = cnt t (promise_objects m) + (promises v' - promises v) * one t s) ->
  (forall t, cnt t fs = cnt t (future_objects m) + (futures v' - futures v) * one t s) ->
  full (set_objects (put m s (Some v')) ps fs).
Proof.
  intros F E HP HF HE HV HC HB P Q. destruct (proj2 F s v E) as [L POS].
  assert (B1 : base (put m s (Some v')) s (promises v' - promises v) (futures v' - futures v) 0 0).
  { apply (base_put m s 0 0 0 0 v v'); auto using full_base; rewrite ?HC; try lia. }
  assert (E1 : find_sav (put m s (Some v')) s = Some v') by (apply (find_same m s v), E).
  apply (close _ s 0); [apply (base_objects _ s _ _ 0 0 v' _ _ 0 0 B1 E1); intros t; cbn [put promise_objects future_objects]; [rewrite P|rewrite Q]; lia|].
  intros u U. change (find_sav (put m s (Some v')) s = Some u) in U. rewrite E1 in U. injection U as <-. split; [|lia].
  destruct L. unfold canBeSet, isSet in *. constructor; unfold canBeSet, isSet; rewrite ?HE, ?HC; auto. intros X. specialize (ok_promise0 X). lia.
Qed.

Lemma find_alloc m v t : find_sav (alloc m v) t = if Nat.eqb t (length (heap m)) then Some v else find_sav m t.
Proof.
  unfold find_sav. cbn [alloc heap]. destruct (Nat.eqb_spec t (length (heap m))) as [->|N].
  - now rewrite nth_error_app2, Nat.sub_diag by lia.
  - destruct (Nat.lt_ge_cases t (length (heap m))) as [L|L]; [now rewrite nth_error_app1|].
    rewrite nth_error_app2, (proj2 (nth_error_None (heap m) t)) by lia. destruct (t - length (heap m))%nat as [|[|k]] eqn:D; [lia|reflexivity|reflexivity].
Qed.

Lemma find_beyond m : find_sav m (length (heap m)) = None.
Proof. unfold find_sav. now rewrite (proj2 (nth_error_None _ _)). Qed.

Lemma alloc_full m p f ps fs code x : full m -> 0 <= p -> 0 <= f -> 0 < p + f ->
  UNSET_ERROR_CODE <= code -> code <> 0 -> (code = UNSET_ERROR_CODE -> 0 < p) ->
  (forall t, cnt t ps = cnt t (promise_objects m) + p * one t (length (heap m))) ->
  (forall t, cnt t fs = cnt t (future_objects m) + f * one t (length (heap m))) ->
  full (alloc (set_objects m ps fs) (mkSAV p f code x [])).
Proof.
  intros F P0 F0 PF C C0 U P Q. pose proof (full_base m 0 0 F) as B. pose proof (b_dead _ _ _ _ _ _ B _ (find_beyond m)) as (D1 & D2 & D3).
  set (n := length (heap m)) in *. set (m' := alloc _ _).
  assert (FA : forall t, find_sav m' t = if Nat.eqb t n then Some (mkSAV p f code x []) else find_sav m t) by (intros t; exact (find_alloc (set_objects m ps fs) _ t)).
  assert (LS : forall c, sumL (listed c) (heap m') = sumL (listed c) (heap m)).
  { intros c. cbn [m' alloc set_objects heap]. rewrite sumL_app. cbn. lia. }
  assert (LO : forall t v, find_sav m' t = Some v -> local_ok m' t v /\ 0 < promises v + futures v).
  { intros t v. rewrite FA. destruct (Nat.eqb_spec t n) as [->|N].
    - intros [= <-]. cbn [promises futures]. split; [|lia]. constructor; cbn [error_state promises callbacks]; auto.
      + unfold canBeSet. cbn [error_state]. rewrite Z.eqb_eq. auto.
      + congruence.
      + change (stack m') with (stack m). lia.
      + change (stack m') with (stack m). intros H. apply broken_loops in H. lia.
    - intros E. destruct (proj2 F t v E) as [L X]. split; [now apply (local_move m t v)|exact X]. }
  split; [|exact LO]. destruct B. constructor; cbn [m' alloc set_objects promise_objects future_objects stack log]; auto.
  - intros t v. rewrite FA, P. destruct (Nat.eqb_spec t n) as [->|N]; [intros [= <-]; rewrite one_same; cbn [promises]; lia|].
    intros E. rewrite (b_promises0 _ _ E), (one_other t n) by exact N. lia.
  - intros t v. rewrite FA, Q. destruct (Nat.eqb_spec t n) as [->|N]; [intros [= <-]; rewrite one_same; cbn [futures callbacks waited_on]; lia|].
    intros E. rewrite (b_futures0 _ _ E), (one_other t n) by exact N. lia.
  - intros t. rewrite FA, P, Q. destruct (Nat.eqb_spec t n) as [->|N]; [discriminate|]. rewrite (one_other t n), !Z.mul_0_r, !Z.add_0_r by exact N. auto.
  - intros c. change (sumL (listed c) (heap m') <= 1). rewrite LS. auto.
  - intros c. change (sumL (listed c) (heap m') = sumL (began c) (log m) - sumL (ended c) (log m) + 0 * one c 0). rewrite LS. auto.
  - intros c t code' x' I. destruct (b_fired0 c t code' x' I) as (A & L & M). split; [exact A|]. split.
    + cbn [m' alloc set_objects heap]. rewrite length_app. cbn [length]. lia.
    + intros v. change (find_sav m' t = Some v -> error_state v = code' /\ value v = x'). rewrite FA. destruct (Nat.eqb_spec t n) as [->|N]; [lia|auto].
Qed.

Lemma never_put m s dp v : base m s dp 0 0 0 -> find_sav m s = Some v -> local_ok m s v -> canBeSet v = true ->
  let v1 := set_state v NEVER_ERROR_CODE (value v) in
  base (put m s (Some v1)) s dp 0 0 0 /\ local_ok (put m s (Some v1)) s v1.
Proof.
  intros B E L U v1. split; [apply (base_put m s dp 0 0 0 v v1); auto; unfold v1; puts|].
  destruct L. constructor; cbn [v1 set_state error_state promises callbacks put stack].
  - unfold UNSET_ERROR_CODE, NEVER_ERROR_CODE. lia.
  - discriminate.
  - discriminate.
  - intros X. apply ok_loops0 in X. apply set_not_unset in X. congruence.
  - exact ok_broken0.
Qed.

Lemma sendNever_safe m s v : full m -> find_sav m s = Some v -> safe (sendNever m s).
Proof.
  intros F E. unfold sendNever, on. rewrite E. destruct (canBeSet v) eqn:U; [|auto with savdb]. destruct (proj2 F s v E) as [L P].
  destruct (never_put m s 0 v (full_base m s 0 F) E L U) as [B1 L1]. apply safe_next, (close _ s 0); [exact B1|].
  intros u X. rewrite (find_same m s v _ E) in X. injection X as <-. split; [exact L1|exact P].
Qed.

Lemma sendNeverAndDel_safe m s v : base m s 1 0 0 0 -> find_sav m s = Some v -> local_ok m s v -> safe (sendNeverAndDelPromiseRef m s).
Proof.
  intros B E L. unfold sendNeverAndDelPromiseRef, sendNever, on. rewrite E. destruct (canBeSet v) eqn:U; [|auto with savdb].
  destruct (never_put m s 1 v B E L U) as [B1 L1]. cbn [andthen]. apply safe_some.
  eapply (dropPromise_full _ s 0); [exact B1|apply (find_same m s v), E|exact L1|reflexivity].
Qed.

Lemma sumL_zero {A} (f : A -> Z) l : (forall x, In x l -> f x = 0) -> sumL f l = 0.
Proof. induction l as [|x l IH]; intros H; [reflexivity|]. cbn [sumL]. rewrite IH, (H x); [lia|now left|]. intros y Y. apply H. now right. Qed.

Lemma not_waiting m cb : waiting m cb = false -> sumL (listed cb) (heap m) = 0.
Proof.
  intros H. apply sumL_zero. intros o I. destruct o as [v|]; [|reflexivity]. cbn [listed].
  destruct (Z.eq_dec (cnt cb (callbacks v)) 0) as [|N]; [assumption|]. exfalso.
  assert (X : In cb (callbacks v)) by (apply cnt_in; counts; lia).
  enough (waiting m cb = true) by congruence. unfold waiting. apply existsb_exists. exists (Some v). split; [exact I|].
  unfold holds. apply existsb_exists. exists cb. split; [exact X|apply Nat.eqb_refl].
Qed.

(** The callback is added where no one waited, or next to others. *)
Lemma add_put m s cb v l : base m s 0 (1 - waited_on (callbacks v)) 0 0 -> find_sav m s = Some v -> local_ok m s v -> isSet v = false ->
  sumL (listed cb) (heap m) = 0 -> l = cb :: callbacks v \/ l = callbacks v ++ [cb] ->
  full (note (put m s (Some (set_callbacks v l))) (Waited cb s)).
Proof.
  intros B E L S N H. set (v1 := set_callbacks v l).
  assert (C : forall c, cnt c l = cnt c (callbacks v) + one c cb) by (intros c; destruct H as [-> | ->]; autorewrite with cntdb; lia).
  assert (W : waited_on l = 1) by (destruct H as [-> | ->]; [reflexivity|destruct (callbacks v); reflexivity]).
  assert (B' : base m s 0 (1 - waited_on (callbacks v)) cb 0) by (destruct B; constructor; auto; intros; rewrite b_log0; lia).
  assert (B1 : base (put m s (Some v1)) s 0 0 cb 1).
  { apply (base_put m s 0 (1 - waited_on (callbacks v)) cb 0 v v1); auto; cbn [v1 set_callbacks promises futures callbacks]; try lia.
    intros c. rewrite C. lia. }
  assert (E1 : find_sav (put m s (Some v1)) s = Some v1) by (apply (find_same m s v), E).
  apply (close _ s cb).
  - apply (base_note _ s 0 0 cb 1); [exact B1| |exact I]. intros c. cbn [began ended]. lia.
  - intros u U. change (find_sav (put m s (Some v1)) s = Some u) in U. rewrite E1 in U. injection U as <-. split.
    + destruct L. unfold isSet in *. constructor; unfold isSet; cbn [v1 set_callbacks error_state promises callbacks note put stack]; auto. congruence.
    + pose proof (b_promises _ _ _ _ _ _ B1 s v1 E1). pose proof (b_futures _ _ _ _ _ _ B1 s v1 E1) as F1. cbn [v1 set_callbacks callbacks] in F1.
      rewrite W in F1. pose proof (loops_nonneg s (stack (put m s (Some v1)))). counts. fold v1 in F1. lia.
Qed.

Lemma wait_safe m s cb back v : base m s 0 1 0 0 -> find_sav m s = Some v -> local_ok m s v -> sumL (listed cb) (heap m) = 0 ->
  safe (on m s (fun v => if isSet v then Misuse else andthen (addCallbackAndDelFutureRef m s cb back) (fun m => Next (note m (Waited cb s))))).
Proof.
  intros B E L N. unfold on. rewrite E. destruct (isSet v) eqn:S; [auto with savdb|]. unfold addCallbackAndDelFutureRef, on. rewrite E.
  assert (BK : forall l : list nat, (if back then l ++ [cb] else cb :: l) = cb :: l \/ (if back then l ++ [cb] else cb :: l) = l ++ [cb]) by (destruct back; auto).
  destruct (callbacks v) as [|c l] eqn:C.
  - cbn [andthen]. rewrite E. cbn [andthen]. rewrite C. apply safe_next, (add_put m s cb v); auto; rewrite C; [exact B|apply BK].
  - unfold delFutureRef, on. rewrite E. set (v1 := set_futures v (futures v - 1)).
    pose proof (b_futures _ _ _ _ _ _ B s v E) as F. rewrite C, one_same in F. cbn [waited_on] in F.
    assert (F1 : (futures v1 =? 0) = false) by (apply Z.eqb_neq; cbn [v1 set_futures futures]; counts; lia).
    rewrite F1. cbn [andthen]. rewrite (find_same m s v v1 E). cbn [andthen].
    assert (C1 : callbacks v1 = c :: l) by exact C.
    assert (B1 : base (put m s (Some v1)) s 0 0 0 0) by (apply (base_put m s 0 1 0 0 v v1); auto; unfold v1; puts).
    apply safe_next, (add_put (put m s (Some v1)) s cb v1); auto.
    + rewrite C1. exact B1.
    + apply (find_same m s v), E.
    + now apply (local_move m s v).
    + rewrite (listed_put m s v _ cb E). cbn [listed]. rewrite C1, <- C. lia.
Qed.

Lemma exec_safe m c : full m -> safe (exec m c).
Proof.
  intros F. destruct c; cbn [exec].
  - apply safe_next, alloc_full; auto; try discriminate; try lia; intros t; rewrite ?cnt_head; lia.
  - unfold with_promise. destruct (holds s (promise_objects m)) eqn:H; [|auto with savdb]. apply holds_in in H. destruct (promise_alive m s F H) as [v E].
    unfold on. rewrite E. apply safe_next, (copy_full m s v); auto; cbn [set_promises promises futures]; try lia; try (intros t; rewrite ?cnt_head; lia).
    intros X. pose proof (b_promises _ _ _ _ _ _ (full_base m s 0 F) s v E) as P. destruct (proj2 F s v E) as [L _].
    pose proof (ok_broken _ _ _ L X). apply broken_loops in X. apply cnt_in in H. lia.
  - apply take_promise_safe; [exact F|]. intros v m' E B L. apply safe_some. now apply (delPromiseRef_full m' s 0 v).
  - unfold with_promise. destruct (holds s (promise_objects m)) eqn:H; [|auto with savdb]. apply holds_in in H. destruct (promise_alive m s F H) as [v E].
    unfold on. rewrite E. apply safe_next, (copy_full m s v); auto; cbn [set_futures promises futures]; try lia; try (intros t; rewrite ?cnt_head; lia).
    apply (proj2 F s v E).
  - unfold with_future. destruct (holds s (future_objects m)) eqn:H; [|auto with savdb]. apply holds_in in H. destruct (future_alive m s F H) as [v E].
    unfold on. rewrite E. apply safe_next, (copy_full m s v); auto; cbn [set_futures promises futures]; try lia; try (intros t; rewrite ?cnt_head; lia).
    apply (proj2 F s v E).
  - apply take_future_safe; [exact F|]. intros v m' E B L _. apply safe_some. now apply (delFutureRef_full m' s 0 v).
  - destruct (_ && _) eqn:G; [|auto with savdb]. apply andb_true_iff in G. rewrite Z.leb_le, negb_true_iff, Z.eqb_neq in G. destruct G.
    apply safe_next, alloc_full; auto; unfold NEVER_ERROR_CODE, UNSET_ERROR_CODE in *; try lia; intros t; rewrite ?cnt_head; lia.
  - apply take_promise_safe; [exact F|]. intros v m' E B L. now apply (send_full m' s 0 v).
  - destruct (Z.ltb_spec 0 code); [|auto with savdb]. apply take_promise_safe; [exact F|]. intros v m' E B L.
    apply (send_full m' s 0 v); auto; unfold NEVER_ERROR_CODE; lia.
  - unfold with_promise. destruct (holds s (promise_objects m)) eqn:H; [|auto with savdb]. apply holds_in in H. destruct (promise_alive m s F H) as [v E].
    now apply (sendNever_safe m s v).
  - apply take_promise_safe; [exact F|]. intros v m' E B L. now apply (sendAndDel_full m' s 0 v).
  - destruct (Z.ltb_spec 0 code); [|auto with savdb]. apply take_promise_safe; [exact F|]. intros v m' E B L.
    apply (sendAndDel_full m' s 0 v); auto; unfold NEVER_ERROR_CODE; lia.
  - apply take_promise_safe; [exact F|]. intros v m' E B L. now apply (sendNeverAndDel_safe m' s v).
  - destruct (waiting m cb) eqn:W; [auto with savdb|]. apply not_waiting in W. apply take_future_safe; [exact F|]. intros v m' E B L K.
    apply (wait_safe m' s cb back v); auto. now rewrite K.
  - destruct (find_sav m s) as [v|] eqn:E; [|auto with savdb]. destruct (holds cb (callbacks v)) eqn:H; [|auto with savdb]. apply holds_in in H.
    destruct (proj2 F s v E) as [L _]. apply safe_some. apply (remove_callback_full _ s cb v); auto.
    + apply (base_note m s 0 0 cb 0); [now apply full_base| |exact I]. intros c. cbn [began ended]. lia.
    + now apply (local_move m s v).
  - unfold with_future. destruct (holds s (future_objects m)) eqn:H; [|auto with savdb]. apply holds_in in H. destruct (future_alive m s F H) as [v E].
    apply safe_next, (close _ s 0); [apply (base_push m s 0 0 0 0 v); auto using full_base|]. intros u U. destruct (proj2 F s u U) as [L P].
    split; [now apply local_push|exact P].
Qed.

(** * Runs *)

Lemma full_stack m k : full m -> (forall t, loops t k = loops t (stack m)) ->
  (forall t, In (Loop t Broken) k -> In (Loop t Broken) (stack m)) ->
  full (mkMachine (heap m) (promise_objects m) (future_objects m) k (log m)).
Proof.
  intros [B O] L K. split.
  - destruct B. constructor; cbn [promise_objects future_objects stack log heap]; auto.
    + intros t u U. rewrite L. exact (b_promises0 t u U).
    + intros t U. rewrite L. exact (b_dead0 t U).
    + intros t u _ U. destruct (O t u U) as [X ?]. split; [apply (local_move m t u); auto; apply L|assumption].
  - intros t u U. destruct (O t u U) as [X ?]. split; [apply (local_move m t u); auto; apply L|assumption].
Qed.

Lemma sav_step_safe client m : full m -> safe (step client m).
Proof.
  intros F. unfold step. destruct (stack m) as [|f k] eqn:K; [auto with savdb|]. destruct f as [c n|s a].
  - assert (P : forall k', (forall t, loops t k' = loops t k) -> (forall t, In (Loop t Broken) k' -> In (Loop t Broken) k) ->
      full (mkMachine (heap m) (promise_objects m) (future_objects m) k' (log m))).
    { intros k' L I. apply full_stack; auto; rewrite K; intros t; [now rewrite L, loops_client|intros H; right; auto]. }
    destruct (client c n m) as [cmd|].
    + apply exec_safe. unfold push, pop. cbn [heap promise_objects future_objects stack log]. rewrite K. apply P; auto. intros t [H|H]; [discriminate|exact H].
    + apply safe_next. unfold pop. rewrite K. apply P; auto.
  - apply safe_some. now apply (loop_turn_full m s a k).
Qed.

Lemma sav_run_safe client n m : full m -> safe (run client n m).
Proof.
  revert m. induction n as [|n IH]; intros m F; cbn [run]; [auto with savdb|].
  destruct (sav_step_safe client m F) as [-> | (m' & -> & F')]; cbn [andthen]; auto with savdb.
Qed.

Lemma start_full : full start.
Proof.
  assert (E : forall t, find_sav start t = None) by (intros [|t]; reflexivity).
  split; [constructor; try (intros; rewrite E in *; discriminate)|intros; rewrite E in *; discriminate].
  - intros t _. auto.
  - intros c. cbn. lia.
  - intros c. cbn. lia.
  - intros c t code x [].
  - intros c t code x c' code' x' [].
Qed.

Lemma run_start client n : match run client n start with Next m => full m | Misuse => True | Corrupt => False end.
Proof. destruct (sav_run_safe client n start start_full) as [-> | (m & -> & F)]; [exact I|exact F]. Qed.

(** * Theorems *)

(** C5: promises and futures are safe under every client: whatever commands run, also from
    callbacks while a value is being sent and from cancellations, no destroyed SAV is
    used, none is destroyed with callbacks, and no assertion of a SAV fails unless the
    client breaks its contract.  The counts are the client's objects, the sends in
    progress and one for any callbacks; a SAV exists exactly while something refers to
    it; one that is still unset has a promise that can set it; and once it is set,
    callbacks are left only while the send that runs them is in progress. *)
Theorem sav_safe client n :
  match run client n start with
  | Corrupt => False
  | Misuse => True
  | Next m => forall s,
      match find_sav m s with
      | None => cnt s (promise_objects m) = 0 /\ cnt s (future_objects m) = 0 /\ loops s (stack m) = 0
      | Some v =>
          promises v = cnt s (promise_objects m) + loops s (stack m) /\
          futures v = cnt s (future_objects m) + waited_on (callbacks v) /\
          0 < promises v + futures v /\
          (canBeSet v = true -> 0 < promises v) /\
          (isSet v = true -> callbacks v <> [] -> 0 < loops s (stack m))
      end
  end.
Proof.
  pose proof (run_start client n) as F. destruct (run client n start) as [m| |]; auto. intros s. pose proof (full_base m s 0 F) as B.
  destruct (find_sav m s) as [v|] eqn:E; [|exact (b_dead _ _ _ _ _ _ B s E)]. destruct (proj2 F s v E) as [[] P].
  pose proof (b_promises _ _ _ _ _ _ B s v E). pose proof (b_futures _ _ _ _ _ _ B s v E). repeat split; auto; lia.
Qed.

(** C13: every wait ends at most once and with the promise's one outcome: a callback has as
    many entries as it was registered, less one while it still waits; all callbacks fired
    for a promise see the same outcome, which is the one later reads see; and when the
    client's code is done no callback waits for a promise that was set. *)
Theorem sav_delivers client n :
  match run client n start with
  | Corrupt => False
  | Misuse => True
  | Next m =>
      (forall cb, sumL (began cb) (log m) = sumL (ended cb) (log m) + if waiting m cb then 1 else 0) /\
      (forall c1 c2 s code1 x1 code2 x2, In (Fired c1 s code1 x1) (log m) -> In (Fired c2 s code2 x2) (log m) -> code1 = code2 /\ x1 = x2) /\
      (forall cb s code x v, In (Fired cb s code x) (log m) -> find_sav m s = Some v ->
         sav_get v = if SET_ERROR_CODE <? code then Thrown code else Got x) /\
      (stack m = [] -> forall s v, find_sav m s = Some v -> isSet v = true -> callbacks v = [])
  end.
Proof.
  pose proof (run_start client n) as F. destruct (run client n start) as [m| |]; auto. pose proof (full_base m 0 0 F) as B.
  split; [|split; [|split]].
  - intros cb. pose proof (b_log _ _ _ _ _ _ B cb) as L. pose proof (b_once _ _ _ _ _ _ B cb) as O.
    destruct (waiting m cb) eqn:W; [|apply not_waiting in W; lia]. apply existsb_exists in W. destruct W as (o & I & H).
    destruct o as [v|]; [|discriminate]. apply holds_in, cnt_in in H. pose proof (sumL_member _ _ _ (listed_nonneg cb) I) as M. cbn [listed] in M. lia.
  - intros c1 c2 s code1 x1 code2 x2. apply (b_agree _ _ _ _ _ _ B).
  - intros cb s code x v H E. destruct (b_fired _ _ _ _ _ _ B cb s code x H) as (A & _ & M). destruct (M v E) as [S X].
    unfold sav_get, isSet, isError. rewrite S, X, (proj2 (Z.ltb_lt _ _) A). reflexivity.
  - intros K s v E S. destruct (callbacks v) eqn:C; [reflexivity|]. destruct (proj2 F s v E) as [[] _].
    assert (X : 0 < loops s (stack m)) by (apply ok_waiting0; congruence). rewrite K in X. cbn in X. lia.
Qed.

(** * A run: the first callback fired removes the second one, and the last promise is
    dropped while a future waits. *)
Definition sample (c : code_of) (n : nat) (m : machine) : option command :=
  match c with
  | Main => nth_error [NewPromise; GetFuture 0; GetFuture 0; Wait 0 5 false; Wait 0 6 false; SendAndDel 0 42;
                       NewPromise; GetFuture 1; Wait 1 7 true; DropPromise 1] n
  | OnFire 6 0 => nth_error [Unwait 0 5] n
  | _ => None
  end.

Example sample_log :
  match run sample 30 start with
  | Next m => log m = [Fired 7 1 1100 0; Waited 7 1; Removed 5 0; Fired 6 0 (-1) 42; Waited 6 0; Waited 5 0] /\ stack m = [] /\ heap m = [None; None]
  | _ => False
  end.
Proof. vm_compute. repeat split. Qed.
