(* ===== verification/NotifiedQueue.v ===== *)
(** flow/include/flow/flow.h: NotifiedQueue, PromiseStream and FutureStream.

    One queue and the client's stream objects that point to it.  An operation runs a
    callback only as its last act, so what a callback does is the events that follow.
    The callback takes itself off the queue when it is fired.  [Misuse] is an event of
    an object the client does not have, or a wait on a stream that is ready or already
    waited for; [Corrupt] the use of the queue after it was destroyed, or its
    destruction under a waiting callback.  No code of the repository gives the queue
    an onError promise, which stays null. *)

From Stdlib Require Import ZArith List Bool Lia.
From S2P Require Import Prelude.
Import ListNotations.
#[local] Open Scope Z_scope.

Definition broken_promise : Z := 1100.

Record NotifiedQueue := mkNQ {
  promises : Z; futures : Z; queue : list Z; error : option Z; callback : option nat; onEmpty : bool
}.

Definition isReady (q : NotifiedQueue) : bool := match queue q, error q with [], None => false | _, _ => true end.
Definition isError (q : NotifiedQueue) : bool := match queue q, error q with [], Some _ => true | _, _ => false end.
Definition hasError (q : NotifiedQueue) : bool := match error q with Some _ => true | None => false end.

(** What clients see: values taken, the stream's error thrown or passed to a
    callback, the internal_error of a pop from a stream that is not ready, the
    onEmpty promise set. *)
Inductive seen := Took (v : Z) | Failed (code : Z) | TooEarly | Emptied.

(** [accepted] are the values that [send] did not drop. *)
Record state := mkState { obj : option NotifiedQueue; streams : Z; readers : Z; accepted : list Z; log : list seen }.

Inductive outcome := Next (s : state) | Misuse | Corrupt.

Definition on (s : state) (f : NotifiedQueue -> outcome) : outcome := match obj s with Some q => f q | None => Corrupt end.
Definition put (s : state) (q : NotifiedQueue) : state := mkState (Some q) (streams s) (readers s) (accepted s) (log s).
Definition note (s : state) (e : seen) : state := mkState (obj s) (streams s) (readers s) (accepted s) (log s ++ [e]).
Definition accept (s : state) (v : Z) : state := mkState (obj s) (streams s) (readers s) (accepted s ++ [v]) (log s).
Definition set_counts (q : NotifiedQueue) (p f : Z) : NotifiedQueue := mkNQ p f (queue q) (error q) (callback q) (onEmpty q).
Definition set_queue (q : NotifiedQueue) (l : list Z) (e : bool) : NotifiedQueue := mkNQ (promises q) (futures q) l (error q) (callback q) e.
Definition set_error (q : NotifiedQueue) (e : Z) : NotifiedQueue := mkNQ (promises q) (futures q) (queue q) (Some e) (callback q) (onEmpty q).
Definition set_callback (q : NotifiedQueue) (c : option nat) : NotifiedQueue := mkNQ (promises q) (futures q) (queue q) (error q) c (onEmpty q).

Definition destroy (s : state) : outcome :=
  on s (fun q => match callback q with None => Next (mkState None (streams s) (readers s) (accepted s) (log s)) | Some _ => Corrupt end).

Definition delFutureRef (s : state) : outcome :=
  on s (fun q =>
    let q := set_counts q (promises q) (futures q - 1) in
    if futures q =? 0 then if promises q =? 0 then destroy (put s q) else Next (put s q) else Next (put s q)).

(** SingleCallback::remove and unwait. *)
Definition remove (s : state) : outcome :=
  on s (fun q => match callback q with Some _ => delFutureRef (put s (set_callback q None)) | None => Corrupt end).

Definition send (s : state) (v : Z) : outcome :=
  on s (fun q =>
    match error q with
    | Some _ => Next s
    | None =>
        match callback q with
        | Some _ => remove (note (accept s v) (Took v))
        | None => Next (put (accept s v) (set_queue q (queue q ++ [v]) (onEmpty q)))
        end
    end).

Definition sendError (s : state) (err : Z) : outcome :=
  on s (fun q =>
    match error q with
    | Some _ => Next s
    | None =>
        let s := put s (set_error q err) in
        match callback q with Some _ => remove (note s (Failed err)) | None => Next s end
    end).

Definition pop (s : state) : outcome :=
  on s (fun q =>
    match queue q with
    | [] => Next (note s (match error q with Some e => Failed e | None => TooEarly end))
    | v :: l =>
        let s := note s (Took v) in
        match l with
        | [] => if onEmpty q then Next (put (note s Emptied) (set_queue q l false)) else Next (put s (set_queue q l false))
        | _ => Next (put s (set_queue q l (onEmpty q)))
        end
    end).

Definition delPromiseRef (s : state) : outcome :=
  on s (fun q =>
    let q := set_counts q (promises q - 1) (futures q) in
    let s := put s q in
    if promises q =? 0 then if futures q =? 0 then destroy s else sendError s broken_promise else Next s).

Definition addCallbackAndDelFutureRef (s : state) (cb : nat) : outcome :=
  on s (fun q => match callback q with None => Next (put s (set_callback q (Some cb))) | Some _ => Misuse end).

Definition PromiseStream_onEmpty (s : state) : outcome :=
  on s (fun q => if isReady q then Next (put s (set_queue q (queue q) true)) else Next (note s Emptied)).

(** * Events *)

Inductive event :=
| CopyStream | DropStream | GetFuture | CopyFuture | DropFuture
| Send (v : Z) | SendError (err : Z) | Pop | Wait (cb : nat) | Unwait | OnEmpty.

Definition objects (s : state) (p f : Z) : state := mkState (obj s) p f (accepted s) (log s).
Definition with_stream (s : state) (f : state -> outcome) : outcome := if 0 <? streams s then f s else Misuse.
Definition with_reader (s : state) (f : state -> outcome) : outcome := if 0 <? readers s then f s else Misuse.

Definition step (s : state) (e : event) : outcome :=
  match e with
  | CopyStream => with_stream s (fun s => on s (fun q => Next (objects (put s (set_counts q (promises q + 1) (futures q))) (streams s + 1) (readers s))))
  | DropStream => with_stream s (fun s => delPromiseRef (objects s (streams s - 1) (readers s)))
  | GetFuture => with_stream s (fun s => on s (fun q => Next (objects (put s (set_counts q (promises q) (futures q + 1))) (streams s) (readers s + 1))))
  | CopyFuture => with_reader s (fun s => on s (fun q => Next (objects (put s (set_counts q (promises q) (futures q + 1))) (streams s) (readers s + 1))))
  | DropFuture => with_reader s (fun s => delFutureRef (objects s (streams s) (readers s - 1)))
  | Send v => with_stream s (fun s => send s v)
  | SendError err => with_stream s (fun s => if 0 <? err then sendError s err else Misuse)
  | Pop => with_reader s pop
  | Wait cb => with_reader s (fun s => on s (fun q =>
      if isReady q then Misuse else addCallbackAndDelFutureRef (objects s (streams s) (readers s - 1)) cb))
  | Unwait => match obj s with Some q => match callback q with Some _ => remove s | None => Misuse end | None => Misuse end
  | OnEmpty => with_stream s PromiseStream_onEmpty
  end.

Fixpoint run (s : state) (es : list event) : outcome :=
  match es with [] => Next s | e :: es => match step s e with Next s' => run s' es | o => o end end.

(** PromiseStream(): a queue with one promise. *)
Definition start : state := mkState (Some (mkNQ 1 0 [] None None false)) 1 0 [] [].

(** * What holds *)

Definition taken (l : list seen) : list Z := flat_map (fun e => match e with Took v => [v] | _ => [] end) l.
Definition failures (l : list seen) : list Z := flat_map (fun e => match e with Failed c => [c] | _ => [] end) l.
Definition waits (q : NotifiedQueue) : Z := match callback q with Some _ => 1 | None => 0 end.

(** The queue's counts exceed the client's objects by [dp] and [df]. *)
Record inv (dp df : Z) (s : state) (q : NotifiedQueue) : Prop := {
  i_obj : obj s = Some q;
  i_streams : 0 <= streams s /\ promises q = streams s + dp;
  i_readers : 0 <= readers s /\ futures q = readers s + waits q + df;
  i_waiting : callback q <> None -> queue q = [] /\ error q = None;
  i_fifo : accepted s = taken (log s) ++ queue q;
  i_failed : forall c, In c (failures (log s)) -> error q = Some c /\ queue q = []
}.

(** A queue that is there has a stream object or an error, and someone refers to it. *)
Definition good (s : state) : Prop :=
  match obj s with
  | Some q => inv 0 0 s q /\ 0 < promises q + futures q /\ (error q = None -> 0 < promises q)
  | None => streams s = 0 /\ readers s = 0 /\ (exists rest, accepted s = taken (log s) ++ rest /\ (failures (log s) <> [] -> rest = [])) /\
            (forall c c', In c (failures (log s)) -> In c' (failures (log s)) -> c = c')
  end.

Lemma taken_app l l' : taken (l ++ l') = taken l ++ taken l'.
Proof. apply flat_map_app. Qed.
Lemma failures_app l l' : failures (l ++ l') = failures l ++ failures l'.
Proof. apply flat_map_app. Qed.

Definition safe (o : outcome) : Prop := match o with Next s => good s | Misuse => True | Corrupt => False end.

Lemma destroy_safe s q : inv 0 0 s q -> promises q = 0 -> futures q = 0 -> safe (destroy s).
Proof.
  intros [] P F. unfold destroy, on. rewrite i_obj0. unfold waits in *. destruct (callback q); [lia|]. unfold safe, good. cbn [obj streams readers accepted log]. repeat split; try lia.
  - exists (queue q). split; [exact i_fifo0|]. intros H. destruct (failures (log s)) as [|c l]; [congruence|]. now apply (i_failed0 c (or_introl eq_refl)).
  - intros c c' H H'. destruct (i_failed0 c H), (i_failed0 c' H'). congruence.
Qed.

Lemma delFutureRef_safe s q : inv 0 1 s q -> (error q = None -> 0 < promises q) -> safe (delFutureRef s).
Proof.
  intros I E. unfold delFutureRef, on. rewrite (i_obj _ _ _ _ I). set (q1 := set_counts q (promises q) (futures q - 1)).
  assert (I1 : inv 0 0 (put s q1) q1).
  { destruct I. constructor; auto; cbn [put streams readers q1 set_counts promises futures]; change (waits q1) with (waits q); lia. }
  pose proof (i_streams _ _ _ _ I1). pose proof (i_readers _ _ _ _ I1). assert (0 <= waits q1) by (unfold waits; destruct (callback q1); lia).
  destruct (Z.eqb_spec (futures q1) 0) as [F|F]; [destruct (Z.eqb_spec (promises q1) 0) as [P|P]|].
  - now apply (destroy_safe (put s q1) q1).
  - unfold safe, good. cbn [put obj]. split; [exact I1|]. split; [lia|exact E].
  - unfold safe, good. cbn [put obj]. split; [exact I1|]. split; [lia|exact E].
Qed.

Lemma remove_safe s q cb : inv 0 0 s q -> callback q = Some cb -> (error q = None -> 0 < promises q) -> safe (remove s).
Proof.
  intros I C E. unfold remove, on. rewrite (i_obj _ _ _ _ I), C. apply (delFutureRef_safe _ (set_callback q None)); [|exact E].
  destruct I. unfold waits in *. rewrite C in *. constructor; unfold waits; cbn [put set_callback obj streams readers accepted log promises futures queue error callback]; auto; try lia.
Qed.

(** An entry is added to the log and the queue changes. *)
Lemma inv_note dp df s q e q' acc dp' df' : inv dp df s q ->
  promises q' = promises q + (dp' - dp) -> futures q' - waits q' = futures q - waits q + (df' - df) ->
  (callback q' <> None -> queue q' = [] /\ error q' = None) ->
  acc = taken (log s) ++ taken e ++ queue q' ->
  (forall c, In c (failures (log s)) \/ In c (failures e) -> error q' = Some c /\ queue q' = []) ->
  inv dp' df' (mkState (Some q') (streams s) (readers s) acc (log s ++ e)) q'.
Proof.
  intros [] P F W A X. constructor; cbn [obj streams readers accepted log]; auto; try lia.
  - now rewrite taken_app, <- app_assoc.
  - intros c. rewrite failures_app, in_app_iff. apply X.
Qed.

Lemma send_safe s q v : inv 0 0 s q -> 0 < promises q -> safe (send s v).
Proof.
  intros I P. unfold send, on. rewrite (i_obj _ _ _ _ I). pose proof (i_readers _ _ _ _ I). pose proof (i_fifo _ _ _ _ I) as FI.
  assert (0 <= waits q) by (unfold waits; destruct (callback q); lia).
  assert (NF : error q = None -> forall c, ~ In c (failures (log s))) by (intros N c H2; destruct (i_failed _ _ _ _ I c H2); congruence).
  destruct (error q) as [e|] eqn:E; [unfold safe, good; rewrite (i_obj _ _ _ _ I); split; [exact I|split; [lia|auto]]|].
  destruct (callback q) as [cb|] eqn:C.
  - destruct (i_waiting _ _ _ _ I) as [Q _]; [congruence|]. apply (remove_safe _ q cb); auto.
    assert (K : obj s = Some q) by apply I. unfold note, accept. cbn [obj streams readers accepted log]. rewrite K.
    apply (inv_note 0 0 s q); auto; try lia; rewrite ?Q.
    + rewrite FI, Q, app_nil_r. reflexivity.
    + intros c [H2|[]]. destruct (NF eq_refl c H2).
  - unfold safe, good, put, accept. cbn [obj streams readers accepted log]. split; [|split; [cbn; lia|auto]].
    rewrite <- (app_nil_r (log s)). apply (inv_note 0 0 s q); auto; try (cbn [set_queue promises]; lia).
    + unfold waits. cbn [set_queue futures callback]. lia.
    + cbn [set_queue callback]. congruence.
    + cbn [set_queue queue taken flat_map app]. now rewrite FI, app_assoc.
    + intros c [H2|[]]. destruct (NF eq_refl c H2).
Qed.

Lemma sendError_safe s q err : inv 0 0 s q -> 0 < promises q + futures q -> safe (sendError s err).
Proof.
  intros I P. unfold sendError, on. rewrite (i_obj _ _ _ _ I). pose proof (i_fifo _ _ _ _ I) as FI.
  assert (NF : error q = None -> forall c, ~ In c (failures (log s))) by (intros N c H2; destruct (i_failed _ _ _ _ I c H2); congruence).
  destruct (error q) as [e|] eqn:E; [unfold safe, good; rewrite (i_obj _ _ _ _ I); split; [exact I|split; [lia|congruence]]|].
  assert (I1 : callback q = None -> inv 0 0 (put s (set_error q err)) (set_error q err)).
  { intros C. unfold put. rewrite <- (app_nil_r (log s)). apply (inv_note 0 0 s q); auto; try (cbn [set_error promises]; lia).
    - unfold waits. cbn [set_error futures callback]. lia.
    - cbn [set_error callback]. congruence.
    - intros c [H2|[]]. destruct (NF eq_refl c H2). }
  destruct (callback q) as [cb|] eqn:C; [|unfold safe, good; cbn [put obj]; split; [now apply I1|split; [exact P|discriminate]]].
  destruct (i_waiting _ _ _ _ I) as [Q _]; [congruence|].
  (* the callback is removed first, so that the queue satisfies its own invariant again *)
  unfold remove, on. cbn [note put obj set_error callback]. rewrite C.
  apply (delFutureRef_safe _ (set_callback (set_error q err) None)); [|discriminate].
  unfold note, put. cbn [obj streams readers accepted log]. apply (inv_note 0 0 s q); auto; try (cbn [set_error set_callback promises]; lia).
  - unfold waits. rewrite C. cbn [set_error set_callback futures callback]. lia.
  - cbn [set_callback callback]. congruence.
  - intros c [H2|[<-|[]]]; [destruct (NF eq_refl c H2)|]. cbn [set_callback set_error error queue]. auto.
Qed.

Lemma delPromiseRef_safe s q : inv 1 0 s q -> (error q = None -> 0 < promises q) -> safe (delPromiseRef s).
Proof.
  intros I E. unfold delPromiseRef, on. rewrite (i_obj _ _ _ _ I). set (q1 := set_counts q (promises q - 1) (futures q)).
  assert (I1 : inv 0 0 (put s q1) q1).
  { destruct I. constructor; auto; cbn [put streams readers q1 set_counts promises futures]; change (waits q1) with (waits q); lia. }
  pose proof (i_streams _ _ _ _ I1). pose proof (i_readers _ _ _ _ I1). assert (0 <= waits q1) by (unfold waits; destruct (callback q1); lia).
  destruct (Z.eqb_spec (promises q1) 0) as [P|P]; [destruct (Z.eqb_spec (futures q1) 0) as [F|F]|].
  - now apply (destroy_safe (put s q1) q1).
  - apply (sendError_safe (put s q1) q1); [exact I1|lia].
  - unfold safe, good. cbn [put obj]. split; [exact I1|]. split; lia.
Qed.

Lemma pop_safe s q : inv 0 0 s q -> 0 < promises q + futures q -> (error q = None -> 0 < promises q) -> safe (pop s).
Proof.
  intros I P E. unfold pop, on. rewrite (i_obj _ _ _ _ I). pose proof (i_fifo _ _ _ _ I) as FI. pose proof (i_obj _ _ _ _ I) as O.
  assert (NW : queue q <> [] -> callback q = None).
  { intros N. destruct (callback q) eqn:C; [|reflexivity]. destruct (i_waiting _ _ _ _ I); congruence. }
  assert (NF : queue q <> [] -> forall c, ~ In c (failures (log s))) by (intros N c H; destruct (i_failed _ _ _ _ I c H); congruence).
  destruct (queue q) as [|v l] eqn:Q.
  - unfold safe, good, note. cbn [obj streams readers accepted log]. rewrite O. split; [|auto].
    apply (inv_note 0 0 s q); auto; try lia.
    + apply (i_waiting _ _ _ _ I).
    + rewrite FI, Q. destruct (error q); reflexivity.
    + intros c [H|H]; [now apply (i_failed _ _ _ _ I)|]. destruct (error q) as [e|]; [destruct H as [<-|[]]; auto|destruct H].
  - assert (K : forall es e', taken es = [v] -> failures es = [] ->
      safe (Next (mkState (Some (set_queue q l e')) (streams s) (readers s) (accepted s) (log s ++ es)))).
    { intros es e' T F. unfold safe, good. cbn [obj]. split; [|auto]. apply (inv_note 0 0 s q); auto; try (cbn [set_queue promises]; lia).
      - unfold waits. cbn [set_queue futures callback]. lia.
      - cbn [set_queue callback]. intros X. destruct X. apply NW. discriminate.
      - now rewrite FI, T.
      - rewrite F. intros c [H|[]]. destruct (NF ltac:(discriminate) c H). }
    unfold note, put. cbn [obj streams readers accepted log]. destruct l; [destruct (onEmpty q)|]; rewrite <- ?app_assoc; now apply K.
Qed.

Lemma good_obj s : good s -> 0 < streams s \/ 0 < readers s -> exists q, inv 0 0 s q /\ 0 < promises q + futures q /\ (error q = None -> 0 < promises q).
Proof. unfold good. destruct (obj s) as [q|] eqn:O; [intros G _; exists q; exact G|lia]. Qed.

(** The client gains or gives up objects. *)
Lemma stream_objects dp df s q p f dp' df' : inv dp df s q -> 0 <= p -> 0 <= f -> p = streams s + (dp - dp') -> f = readers s + (df - df') ->
  inv dp' df' (objects s p f) q.
Proof. intros [] P F HP HF. constructor; cbn [objects obj streams readers accepted log]; auto; lia. Qed.

Lemma copy_good s q a b : inv 0 0 s q -> 0 <= a -> 0 <= b -> 0 < promises q + futures q -> (error q = None -> 0 < promises q) ->
  safe (Next (objects (put s (set_counts q (promises q + a) (futures q + b))) (streams s + a) (readers s + b))).
Proof.
  intros I A B P E. unfold safe, good. cbn [objects put obj]. split; [|cbn [set_counts promises futures error]; split; [lia|intros N; specialize (E N); lia]].
  destruct I. constructor; cbn [objects put obj streams readers accepted log set_counts promises futures queue error callback]; auto; try lia.
  change (waits (set_counts q (promises q + a) (futures q + b))) with (waits q). lia.
Qed.

Lemma step_safe s e : good s -> safe (step s e).
Proof.
  intros G. assert (W : forall f, (forall q, 0 < streams s -> inv 0 0 s q -> 0 < promises q + futures q -> (error q = None -> 0 < promises q) -> safe (f s)) -> safe (with_stream s f)).
  { intros f H. unfold with_stream. destruct (Z.ltb_spec 0 (streams s)) as [L|L]; [|exact I]. destruct (good_obj s G (or_introl L)) as (q & ? & ? & ?). eauto. }
  assert (R : forall f, (forall q, 0 < readers s -> inv 0 0 s q -> 0 < promises q + futures q -> (error q = None -> 0 < promises q) -> safe (f s)) -> safe (with_reader s f)).
  { intros f H. unfold with_reader. destruct (Z.ltb_spec 0 (readers s)) as [L|L]; [|exact I]. destruct (good_obj s G (or_intror L)) as (q & ? & ? & ?). eauto. }
  destruct e; cbn [step].
  - apply W. intros q L Q P E. unfold on. rewrite (i_obj _ _ _ _ Q). rewrite <- (Z.add_0_r (futures q)), <- (Z.add_0_r (readers s)) at 1. apply copy_good; auto; lia.
  - apply W. intros q L Q P E. apply (delPromiseRef_safe _ q); [|exact E]. destruct (i_readers _ _ _ _ Q). apply (stream_objects 0 0); auto; lia.
  - apply W. intros q L Q P E. unfold on. rewrite (i_obj _ _ _ _ Q). rewrite <- (Z.add_0_r (promises q)), <- (Z.add_0_r (streams s)) at 1. apply copy_good; auto; lia.
  - apply R. intros q L Q P E. unfold on. rewrite (i_obj _ _ _ _ Q). rewrite <- (Z.add_0_r (promises q)), <- (Z.add_0_r (streams s)) at 1. apply copy_good; auto; lia.
  - apply R. intros q L Q P E. apply (delFutureRef_safe _ q); [|exact E]. destruct (i_streams _ _ _ _ Q). apply (stream_objects 0 0); auto; lia.
  - apply W. intros q L Q P E. apply (send_safe s q); [exact Q|]. destruct (i_streams _ _ _ _ Q). lia.
  - apply W. intros q L Q P E. destruct (0 <? err); [|exact I]. now apply (sendError_safe s q).
  - apply R. intros q L Q P E. now apply (pop_safe s q).
  - apply R. intros q L Q P E. unfold on. rewrite (i_obj _ _ _ _ Q). destruct (isReady q) eqn:RD; [exact I|].
    unfold addCallbackAndDelFutureRef, on. cbn [objects obj]. rewrite (i_obj _ _ _ _ Q). destruct (callback q) eqn:C; [exact I|].
    assert (QE : queue q = [] /\ error q = None) by (unfold isReady in RD; destruct (queue q), (error q); try discriminate; auto).
    unfold safe, good. cbn [objects put obj]. split; [|split; [exact P|exact E]]. destruct Q. unfold waits in *. rewrite C in *.
    constructor; unfold waits; cbn [objects put obj streams readers accepted log set_callback promises futures queue error callback]; auto; lia.
  - unfold good in G. destruct (obj s) as [q|]; [|exact I]. destruct G as (Q & P & E). destruct (callback q) as [cb|] eqn:C; [|exact I]. now apply (remove_safe s q cb).
  - apply W. intros q L Q P E. unfold PromiseStream_onEmpty, on. rewrite (i_obj _ _ _ _ Q). pose proof (i_fifo _ _ _ _ Q) as FI. destruct (isReady q).
    + unfold safe, good. cbn [put obj]. split; [|split; [exact P|exact E]]. destruct Q. constructor; auto.
    + unfold safe, good, note. cbn [obj]. rewrite (i_obj _ _ _ _ Q). split; [|auto]. apply (inv_note 0 0 s q); auto; try lia; [apply Q|].
      intros c [H|[]]. now apply (i_failed _ _ _ _ Q).
Qed.

Lemma run_safe es s : good s -> safe (run s es).
Proof.
  revert s. induction es as [|e es IH]; intros s G; [exact G|]. cbn [run]. pose proof (step_safe s e G) as S. destruct (step s e); auto.
Qed.

Lemma start_good : good start.
Proof.
  unfold good, start. cbn [obj]. split; [constructor; cbn; auto; try lia; intros; contradiction|cbn; lia].
Qed.

(** C14: a stream is a queue: in every sequence of sends, errors, pops, waits and copies and
    drops of its objects, also by the callbacks it runs, the values readers take are the
    values accepted, in order and each once; readers see the stream's error only after
    they took every value, and one error at most; the queue is not used after it was
    destroyed and is destroyed exactly when no object or callback is left; a callback
    waits only on a queue without values and without an error; and a queue whose last
    stream object is gone has an error for its readers. *)
Theorem stream_correct es :
  match run start es with
  | Corrupt => False
  | Misuse => True
  | Next s =>
      (exists rest, accepted s = taken (log s) ++ rest /\ (failures (log s) <> [] -> rest = []) /\
         forall q, obj s = Some q -> rest = queue q) /\
      (forall c c', In c (failures (log s)) -> In c' (failures (log s)) -> c = c') /\
      match obj s with
      | Some q => promises q = streams s /\ futures q = readers s + waits q /\ 0 < promises q + futures q /\
                  (callback q <> None -> queue q = [] /\ error q = None) /\ (promises q = 0 -> error q <> None)
      | None => streams s = 0 /\ readers s = 0
      end
  end.
Proof.
  pose proof (run_safe es start start_good) as S. destruct (run start es) as [s| |]; auto. unfold safe, good in S.
  destruct (obj s) as [q|] eqn:O.
  - destruct S as ([] & P & E). split; [|split].
    + exists (queue q). split; [exact i_fifo0|]. split; [|intros q' [= <-]; reflexivity].
      intros H. destruct (failures (log s)) as [|c l]; [congruence|]. now apply (i_failed0 c (or_introl eq_refl)).
    + intros c c' H H'. destruct (i_failed0 c H), (i_failed0 c' H'). congruence.
    + repeat split; auto; try lia; try (now apply i_waiting0). intros Z N. specialize (E N). lia.
  - destruct S as (ST & RD & (rest & A & F) & C). split; [exists rest; repeat split; auto; discriminate|auto].
Qed.

(** A run: values before and after a reader waits, the last stream object dropped. *)
Example stream_run :
  match run start [GetFuture; Send 1; Send 2; Pop; Pop; CopyFuture; Wait 3; Send 4; CopyFuture; Wait 3; DropStream; Pop; DropFuture] with
  | Next s => log s = [Took 1; Took 2; Took 4; Failed 1100; Failed 1100] /\ obj s = None
  | _ => False
  end.
Proof. vm_compute. split; reflexivity. Qed.
