(* ===== verification/OrderedMap.v ===== *)
(** Strings, and maps keyed by strings with [tsl::ordered_map]'s insertion order.

    A map is the list of its bindings.  Assigning to a key keeps the place of a
    binding that exists and appends one that does not; [unordered_map]s, whose
    iteration order the code never relies on, use the same type. *)

From Stdlib Require Import NArith String List Bool Lia Permutation.
From S2P Require Import Prelude.
Import ListNotations.
#[local] Open Scope string_scope.

Definition dict (V : Type) := list (string * V).

Section Dict.
Context {V : Type}.

Fixpoint dict_find (k : string) (d : dict V) : option V :=
  match d with
  | [] => None
  | (k', v) :: r => if String.eqb k k' then Some v else dict_find k r
  end.

(** [d.count(k) > 0]. *)
Definition dict_count (k : string) (d : dict V) : bool :=
  match dict_find k d with Some _ => true | None => false end.

(** [d[k] = v]. *)
Fixpoint dict_set (k : string) (v : V) (d : dict V) : dict V :=
  match d with
  | [] => [(k, v)]
  | (k', v') :: r => if String.eqb k k' then (k', v) :: r else (k', v') :: dict_set k v r
  end.

Definition keys (d : dict V) : list string := map fst d.

Lemma dict_find_set k v d k' :
  dict_find k' (dict_set k v d) = if String.eqb k' k then Some v else dict_find k' d.
Proof.
  induction d as [|[k0 v0] d IH]; cbn [dict_set dict_find]; [reflexivity|].
  destruct (String.eqb_spec k k0) as [<-|N]; cbn [dict_find].
  - destruct (String.eqb_spec k' k); reflexivity.
  - destruct (String.eqb_spec k' k0) as [->|]; [|exact IH].
    destruct (String.eqb_spec k0 k); [congruence|reflexivity].
Qed.

Lemma dict_find_none k d : dict_find k d = None <-> ~ In k (keys d).
Proof.
  induction d as [|[k0 v0] d IH]; cbn [dict_find keys map fst In]; [tauto|].
  destruct (String.eqb_spec k k0) as [->|N]; [intuition congruence|].
  rewrite IH. unfold keys. intuition congruence.
Qed.

Lemma dict_find_in k v d : dict_find k d = Some v -> In (k, v) d.
Proof.
  induction d as [|[k0 v0] d IH]; cbn [dict_find In]; [discriminate|].
  destruct (String.eqb_spec k k0) as [->|N]; [intros [= ->]; auto|auto].
Qed.

Lemma dict_in_find k v d : NoDup (keys d) -> In (k, v) d -> dict_find k d = Some v.
Proof.
  induction d as [|[k0 v0] d IH]; cbn [dict_find keys map fst In]; [tauto|].
  intros ND. inversion ND as [|? ? N ND']; subst. intros [[= -> ->]|I].
  - now rewrite String.eqb_refl.
  - destruct (String.eqb_spec k k0) as [->|]; [|auto].
    exfalso. apply N. apply (in_map fst) in I. exact I.
Qed.

Lemma dict_find_perm k d d' : NoDup (keys d) -> Permutation d d' -> dict_find k d = dict_find k d'.
Proof.
  intros ND P. assert (ND' : NoDup (keys d')) by (eapply Permutation_NoDup; [apply Permutation_map, P|exact ND]).
  destruct (dict_find k d) as [v|] eqn:E.
  - symmetry. apply dict_in_find; [exact ND'|]. eapply Permutation_in; [exact P|]. now apply dict_find_in.
  - symmetry. apply dict_find_none. apply dict_find_none in E. intros I. apply E.
    eapply Permutation_in; [apply Permutation_map, Permutation_sym, P|exact I].
Qed.

Lemma dict_set_new k v d : ~ In k (keys d) -> dict_set k v d = (d ++ [(k, v)])%list.
Proof.
  induction d as [|[k0 v0] d IH]; cbn [dict_set keys map fst In app]; [reflexivity|].
  intros N. destruct (String.eqb_spec k k0) as [->|]; [exfalso; auto|]. rewrite IH; [reflexivity|auto].
Qed.

Lemma dict_set_keys k v d : keys (dict_set k v d) = if dict_count k d then keys d else (keys d ++ [k])%list.
Proof.
  unfold dict_count. induction d as [|[k0 v0] d IH]; cbn [dict_set dict_find keys map fst app]; [reflexivity|].
  destruct (String.eqb_spec k k0) as [->|]; cbn [map fst]; [reflexivity|].
  fold (keys d) (keys (dict_set k v d)). rewrite IH. now destruct (dict_find k d).
Qed.

Lemma dict_set_NoDup k v d : NoDup (keys d) -> NoDup (keys (dict_set k v d)).
Proof.
  rewrite dict_set_keys. unfold dict_count. destruct (dict_find k d) eqn:E; [auto|].
  intros ND. apply dict_find_none in E. apply NoDup_app; [exact ND|repeat constructor; auto|].
  intros x Hx [->|[]]. auto.
Qed.

End Dict.

(** * Sorted keys *)

Definition string_ltb (a b : string) : bool :=
  match String.compare a b with Lt => true | _ => false end.

Fixpoint insert_sorted (x : string) (l : list string) : list string :=
  match l with
  | [] => [x]
  | y :: r => if string_ltb y x then y :: insert_sorted x r else x :: l
  end.

(** [std::sort] on strings: any correct sort gives this list. *)
Fixpoint sort_strings (l : list string) : list string :=
  match l with [] => [] | x :: r => insert_sorted x (sort_strings r) end.

Lemma string_compare_trans a : forall b c, String.compare a b = Lt -> String.compare b c = Lt -> String.compare a c = Lt.
Proof.
  induction a as [|x a IH]; intros [|y b] [|z c]; cbn [String.compare]; try discriminate; auto.
  unfold Ascii.compare. destruct (N.compare_spec (Ascii.N_of_ascii x) (Ascii.N_of_ascii y)) as [E|L|L],
    (N.compare_spec (Ascii.N_of_ascii y) (Ascii.N_of_ascii z)) as [E'|L'|L']; try discriminate.
  - rewrite E, E', N.compare_refl. apply IH.
  - rewrite E. intros _ _. now apply N.compare_lt_iff in L' as ->.
  - rewrite <- E'. intros _ _. now apply N.compare_lt_iff in L as ->.
  - intros _ _. now apply (N.lt_trans _ _ _ L), N.compare_lt_iff in L' as ->.
Qed.

Lemma string_ltb_trans a b c : string_ltb a b = true -> string_ltb b c = true -> string_ltb a c = true.
Proof.
  unfold string_ltb. destruct (String.compare a b) eqn:E1; try discriminate.
  destruct (String.compare b c) eqn:E2; try discriminate. now rewrite (string_compare_trans a b c E1 E2).
Qed.

Lemma string_ltb_irrefl a : string_ltb a a = false.
Proof.
  unfold string_ltb. pose proof (String.compare_antisym a a) as H. destruct (String.compare a a); [reflexivity|discriminate|reflexivity].
Qed.

Lemma string_ltb_total a b : string_ltb a b = false -> string_ltb b a = false -> a = b.
Proof.
  unfold string_ltb. rewrite (String.compare_antisym b a). destruct (String.compare a b) eqn:E; cbn; try discriminate.
  intros _ _. now apply String.compare_eq_iff.
Qed.

Lemma insert_sorted_comm x y l : insert_sorted x (insert_sorted y l) = insert_sorted y (insert_sorted x l).
Proof.
  assert (T : forall a b c, string_ltb a b = true -> string_ltb a c = false -> string_ltb c b = true).
  { intros a b c H1 H2. destruct (string_ltb c b) eqn:E; [reflexivity|]. exfalso.
    destruct (string_ltb b c) eqn:E'; [rewrite (string_ltb_trans a b c H1 E') in H2; discriminate|].
    rewrite (string_ltb_total c b E E') in H2. congruence. }
  induction l as [|z l IH]; cbn [insert_sorted].
  - destruct (string_ltb y x) eqn:E, (string_ltb x y) eqn:E'; try reflexivity.
    + pose proof (string_ltb_trans _ _ _ E E') as F. rewrite string_ltb_irrefl in F. discriminate.
    + now rewrite (string_ltb_total x y E' E).
  - destruct (string_ltb z y) eqn:Ey, (string_ltb z x) eqn:Ex; cbn [insert_sorted]; rewrite ?Ex, ?Ey; try reflexivity.
    + now rewrite IH.
    + now rewrite (T z y x Ey Ex).
    + now rewrite (T z x y Ex Ey).
    + destruct (string_ltb y x) eqn:E, (string_ltb x y) eqn:E'; try reflexivity.
      * pose proof (string_ltb_trans _ _ _ E E') as F. rewrite string_ltb_irrefl in F. discriminate.
      * now rewrite (string_ltb_total x y E' E).
Qed.

Lemma insert_sorted_perm x l : Permutation (insert_sorted x l) (x :: l).
Proof.
  induction l as [|y l IH]; cbn [insert_sorted]; [reflexivity|]. destruct (string_ltb y x); [|reflexivity].
  rewrite IH. apply perm_swap.
Qed.

(** Sorting forgets the order of the input, and keeps its elements. *)
Lemma sort_strings_perm l : Permutation (sort_strings l) l.
Proof. induction l as [|x l IH]; cbn [sort_strings]; [reflexivity|]. rewrite insert_sorted_perm. now constructor. Qed.

Lemma sort_strings_unique l l' : Permutation l l' -> sort_strings l = sort_strings l'.
Proof.
  induction 1 as [|x l l' _ IH|x y l|l l' l'' _ IH1 _ IH2]; cbn [sort_strings]; try congruence.
  apply insert_sorted_comm.
Qed.

(** * Strings *)

Lemma str_app_assoc (a b c : string) : ((a ++ b) ++ c = a ++ (b ++ c))%string.
Proof. induction a as [|x a IH]; cbn [String.append]; [reflexivity|]. now rewrite IH. Qed.

Lemma str_app_nil (a : string) : (a ++ "" = a)%string.
Proof. induction a as [|x a IH]; cbn [String.append]; [reflexivity|]. now rewrite IH. Qed.

Lemma str_length_app (a b : string) : String.length (a ++ b) = String.length a + String.length b.
Proof. induction a as [|x a IH]; cbn [String.append String.length]; [reflexivity|]. now rewrite IH. Qed.

Lemma str_app_cons x (a b : string) : (String x a ++ b = String x (a ++ b))%string.
Proof. reflexivity. Qed.

Create Rewrite HintDb strdb.
#[export] Hint Rewrite str_app_assoc str_app_cons str_app_nil str_length_app : strdb.
