(* ===== verification/TwValue.v ===== *)
(** taskweft_nif/standalone/tw_value.hpp: the tagged value of the planner.

    [_i] is a 64-bit integer, [_f] a binary64 ([spec_float] at precision 53),
    [Dict] a map in insertion order.  [as_array] and [as_dict] of a value of
    another type dereference a null pointer; the code guards every use, and the
    models match on the constructor instead. *)

From Stdlib Require Import ZArith String Ascii List Bool Lia Permutation SpecFloat.
From S2P Require Import Prelude OrderedMap.
Import ListNotations.
#[local] Open Scope Z_scope.
#[local] Set Warnings "-register-all".

Inductive TwValue :=
| NIL
| BOOL (b : bool)
| INT (i : Z)
| FLOAT (f : spec_float)
| STRING (s : string)
| ARRAY (a : list TwValue)
| DICT (d : list (string * TwValue)).

Definition Dict := dict TwValue.

(** Induction through arrays and dictionaries. *)
Section TwValueInd.
Variable P : TwValue -> Prop.
Hypothesis Hnil : P NIL.
Hypothesis Hbool : forall b, P (BOOL b).
Hypothesis Hint : forall i, P (INT i).
Hypothesis Hfloat : forall f, P (FLOAT f).
Hypothesis Hstring : forall s, P (STRING s).
Hypothesis Harray : forall a, Forall P a -> P (ARRAY a).
Hypothesis Hdict : forall d, Forall (fun kv => P (snd kv)) d -> P (DICT d).

Fixpoint TwValue_nested_ind (v : TwValue) : P v :=
  match v with
  | NIL => Hnil | BOOL b => Hbool b | INT i => Hint i | FLOAT f => Hfloat f | STRING s => Hstring s
  | ARRAY a => Harray a ((fix go l := match l return Forall P l with
                           | [] => Forall_nil _
                           | x :: r => Forall_cons _ (TwValue_nested_ind x) (go r)
                           end) a)
  | DICT d => Hdict d ((fix go l := match l return Forall (fun kv => P (snd kv)) l with
                           | [] => Forall_nil _
                           | x :: r => Forall_cons _ (TwValue_nested_ind (snd x)) (go r)
                           end) d)
  end.
End TwValueInd.

(** * Tests and accessors *)

Definition is_nil (v : TwValue) : bool := match v with NIL => true | _ => false end.
Definition is_bool (v : TwValue) : bool := match v with BOOL _ => true | _ => false end.
Definition is_int (v : TwValue) : bool := match v with INT _ => true | _ => false end.
Definition is_float (v : TwValue) : bool := match v with FLOAT _ => true | _ => false end.
Definition is_string (v : TwValue) : bool := match v with STRING _ => true | _ => false end.
Definition is_array (v : TwValue) : bool := match v with ARRAY _ => true | _ => false end.
Definition is_dict (v : TwValue) : bool := match v with DICT _ => true | _ => false end.
Definition is_number (v : TwValue) : bool := is_int v || is_float v.

Definition as_bool (v : TwValue) : bool := match v with BOOL b => b | _ => false end.
Definition as_int (v : TwValue) : Z := match v with INT i => i | _ => 0 end.
Definition as_float (v : TwValue) : spec_float := match v with FLOAT f => f | _ => S754_zero false end.
Definition as_string (v : TwValue) : string := match v with STRING s => s | _ => EmptyString end.

(** [double(_i)]. *)
Definition double (i : Z) : spec_float := binary_normalize 53 1024 i 0 false.
Definition as_number (v : TwValue) : spec_float := if is_int v then double (as_int v) else as_float v.

(** The value of the [Type] enumerator. *)
Definition type (v : TwValue) : Z :=
  match v with NIL => 0 | BOOL _ => 1 | INT _ => 2 | FLOAT _ => 3 | STRING _ => 4 | ARRAY _ => 5 | DICT _ => 6 end.

(** * Comparison *)

Fixpoint value_eq (v o : TwValue) {struct v} : bool :=
  if is_number v && is_number o then SFeqb (as_number v) (as_number o)
  else match v, o with
  | NIL, NIL => true
  | BOOL b, BOOL b' => Bool.eqb b b'
  | INT i, INT i' => i =? i'
  | FLOAT f, FLOAT f' => SFeqb f f'
  | STRING s, STRING s' => String.eqb s s'
  | ARRAY a, ARRAY a' =>
      (fix go (l l' : list TwValue) : bool :=
         match l, l' with
         | [], [] => true
         | x :: r, x' :: r' => value_eq x x' && go r r'
         | _, _ => false
         end) a a'
  | _, _ => false
  end.

Definition value_lt (v o : TwValue) : bool :=
  if is_number v && is_number o then SFltb (as_number v) (as_number o)
  else if negb (type v =? type o) then type v <? type o
  else match v, o with
  | INT i, INT i' => i <? i'
  | FLOAT f, FLOAT f' => SFltb f f'
  | STRING s, STRING s' => string_ltb s s'
  | _, _ => false
  end.
Definition value_le (v o : TwValue) : bool := negb (value_lt o v).
Definition value_gt (v o : TwValue) : bool := value_lt o v.
Definition value_ge (v o : TwValue) : bool := negb (value_lt v o).

(** * Printing *)

Definition digit (n : Z) : ascii := ascii_of_nat (Z.to_nat (48 + n)).

Fixpoint digits_acc (fuel : nat) (n : Z) (acc : string) : string :=
  match fuel with
  | O => acc
  | S f => if n <? 10 then String (digit n) acc else digits_acc f (n / 10) (String (digit (n mod 10)) acc)
  end.

(** The decimal digits of a natural number: it has at most [log2 n + 1]. *)
Definition show_nat (n : Z) : string := digits_acc (S (Z.to_nat (Z.log2 n))) n EmptyString.

(** [oss << _i]. *)
Definition show_int (i : Z) : string :=
  if i <? 0 then String "-" (show_nat (- i)) else show_nat i.

Fixpoint zeros (n : nat) : string := match n with O => EmptyString | S n => String "0" (zeros n) end.

Fixpoint string_take (n : nat) (s : string) : string :=
  match n, s with S n, String c s => String c (string_take n s) | _, _ => EmptyString end.
Fixpoint string_drop (n : nat) (s : string) : string :=
  match n, s with S n, String c s => string_drop n s | _, s => s end.

(** Without its trailing zeros. *)
Fixpoint strip_zeros (s : string) : string :=
  match s with
  | EmptyString => EmptyString
  | String c r => match strip_zeros r with
                  | EmptyString => if Ascii.eqb c "0" then EmptyString else String c EmptyString
                  | r' => String c r'
                  end
  end.

(** N / D to the nearest integer, ties to even. *)
Definition round_div (N D : Z) : Z :=
  let q := N / D in let r := N mod D in
  if 2 * r <? D then q else if D <? 2 * r then q + 1 else if Z.even q then q else q + 1.

(** The six digits and the decimal exponent of [N / D > 0] as [%e] prints them. *)
Definition scientific (N D : Z) : Z * Z :=
  let le10 x := if 0 <=? x then 10 ^ x * D <=? N else D <=? N * 10 ^ (- x) in
  let x0 := (Z.log2 N - Z.log2 D) * 30103 / 100000 in
  let x := if le10 (x0 + 1) then x0 + 1 else if le10 x0 then x0 else x0 - 1 in
  let sh := 5 - x in
  let d := if 0 <=? sh then round_div (N * 10 ^ sh) D else round_div N (D * 10 ^ (- sh)) in
  if d =? 1000000 then (100000, x + 1) else (d, x).

Definition point (int frac : string) : string :=
  match strip_zeros frac with EmptyString => int | f => int ++ String "." f end.

(** [oss << _f]: [%g] with six significant digits. *)
Definition show_float (f : spec_float) : string :=
  match f with
  | S754_zero s => (if s then "-0" else "0")%string
  | S754_infinity s => (if s then "-inf" else "inf")%string
  | S754_nan => "nan"%string
  | S754_finite s m e =>
      let '(d, x) := scientific (Zpos m * 2 ^ Z.max 0 e) (2 ^ Z.max 0 (- e)) in
      let t := show_nat d in
      let body :=
        if (-4 <=? x) && (x <? 6) then
          if 0 <=? x then point (string_take (Z.to_nat (x + 1)) t) (string_drop (Z.to_nat (x + 1)) t)
          else point "0" (zeros (Z.to_nat (- x - 1)) ++ t)%string
        else
          let sgn := if x <? 0 then "e-"%string else "e+"%string in
          let pad := if Z.abs x <? 10 then "0"%string else EmptyString in
          (point (string_take 1 t) (string_drop 1 t) ++ sgn ++ pad ++ show_nat (Z.abs x))%string
      in if s then String "-" body else body
  end.

Fixpoint to_string (v : TwValue) : string :=
  match v with
  | NIL => "nil"
  | BOOL b => if b then "true" else "false"
  | INT i => show_int i
  | FLOAT f => show_float f
  | STRING s => s
  | ARRAY a => "[" ++ String.concat ", " (map to_string a) ++ "]"
  | DICT d => "{" ++ String.concat ", " (map (fun kv => fst kv ++ ": " ++ to_string (snd kv)) d) ++ "}"
  end%string.

Example show_floats :
  map show_float [double 100000; double 1000000; SFdiv 53 1024 (double 1) (double 3); SFdiv 53 1024 (double 1) (double (-40000)); double 1234567; SFdiv 53 1024 (double 5) (double 2)]
  = ["100000"; "1e+06"; "0.333333"; "-2.5e-05"; "1.23457e+06"; "2.5"]%string.
Proof. vm_compute. reflexivity. Qed.

(** * The structural hash

    [std::hash<std::string>] is the implementation's; equal strings have equal
    hashes because it is a function. *)

Class StdHash := std_hash : string -> Z.

Definition mix (h v : Z) : Z :=
  Z.lxor h (u64 (v + 0x9e3779b97f4a7c15 + u64 (Z.shiftl h 6) + Z.shiftr h 2)).

Definition offset_basis : Z := 1469598103934665603.

(** The bits of a binary64, with one zero and one NaN. *)
Definition float_bits (f : spec_float) : Z :=
  match f with
  | S754_zero _ => 0
  | S754_infinity s => (if s then 2 ^ 63 else 0) + 0x7ff0000000000000
  | S754_nan => 0x7ff8000000000000
  | S754_finite s m e =>
      (if s then 2 ^ 63 else 0) +
      (if Zpos m <? 2 ^ 52 then Zpos m else (e + 1075) * 2 ^ 52 + (Zpos m - 2 ^ 52))
  end.

Section Hash.
Context `{StdHash}.

Fixpoint stable_hash (v : TwValue) : Z :=
  let h := mix offset_basis (type v) in
  match v with
  | NIL => h
  | BOOL b => mix h (if b then 1 else 0)
  | INT i => mix h (u64 i)
  | FLOAT f => mix h (float_bits f)
  | STRING s => mix h (std_hash s)
  | ARRAY a => fold_left (fun out v => mix out (stable_hash v)) a (mix h (Z.of_nat (length a)))
  | DICT d =>
      let entries := map (fun kv => (fst kv, stable_hash (snd kv))) d in
      fold_left (fun out k =>
          mix (mix out (std_hash k)) (match dict_find k entries with Some x => x | None => 0 end))
        (sort_strings (map fst d)) (mix h (Z.of_nat (length d)))
  end.

End Hash.
