(* ===== verification/TwJson.v ===== *)
(** taskweft_nif/standalone/tw_json.hpp: the JSON printer and parser.

    The parser's [const char *p] is the rest of the text; a text that is over
    stands for [p >= end].  [std::stod] throws, and no caller inside the parser
    catches what it throws. *)

From Stdlib Require Import ZArith String Ascii List Bool Lia SpecFloat.
From S2P Require Import Prelude OrderedMap TwValue.
Import ListNotations.
#[local] Open Scope Z_scope.

(** * Results of code that can throw *)

Inductive exn := InvalidArgument | OutOfRange | BudgetExceeded.

Inductive res (A : Type) :=
| Ok (a : A)
| Throw (e : exn).
Arguments Ok {A}.
Arguments Throw {A}.

Definition rbind {A B} (r : res A) (k : A -> res B) : res B :=
  match r with Ok a => k a | Throw e => Throw e end.

Declare Scope tw_scope.
Notation "'do' x <- m ; k" := (rbind m (fun x => k))
  (at level 10, x binder, m at level 100, k at level 200) : tw_scope.
#[local] Open Scope tw_scope.
#[local] Notation "a =c b" := (Ascii.eqb a b) (at level 70).

(** * Printing *)

Definition quote : ascii := ascii_of_nat 34.
Definition backslash : ascii := ascii_of_nat 92.
Definition newline : ascii := ascii_of_nat 10.
Definition carriage_return : ascii := ascii_of_nat 13.
Definition tab : ascii := ascii_of_nat 9.

Definition escape_char (c : ascii) : string :=
  if c =c quote then String backslash (String quote EmptyString)
  else if c =c backslash then String backslash (String backslash EmptyString)
  else if c =c newline then String backslash "n"
  else if c =c carriage_return then String backslash "r"
  else if c =c tab then String backslash "t"
  else String c EmptyString.

Fixpoint escape_chars (s : string) : string :=
  match s with EmptyString => EmptyString | String c r => escape_char c ++ escape_chars r end%string.

Definition escape_string (s : string) : string :=
  String quote (escape_chars s ++ String quote EmptyString)%string.

Fixpoint to_json (v : TwValue) : string :=
  match v with
  | NIL => "null"
  | BOOL b => if b then "true" else "false"
  | INT i => show_int i
  | FLOAT f => show_float f
  | STRING s => escape_string s
  | ARRAY a => "[" ++ String.concat "," (map to_json a) ++ "]"
  | DICT d => "{" ++ String.concat "," (map (fun kv => escape_string (fst kv) ++ ":" ++ to_json (snd kv)) d) ++ "}"
  end%string.

(** * Parsing *)

(** [std::isspace] and [std::isdigit] in the C locale. *)
Definition code (c : ascii) : Z := Z.of_N (N_of_ascii c).
Definition isspace (c : ascii) : bool := ((9 <=? code c) && (code c <=? 13)) || (code c =? 32).
Definition isdigit (c : ascii) : bool := (48 <=? code c) && (code c <=? 57).

Fixpoint skip_ws (p : string) : string :=
  match p with String c r => if isspace c then skip_ws r else p | EmptyString => p end.

(** What an escape sequence stands for. *)
Definition unescape (c : ascii) : ascii :=
  if c =c "n"%char then newline else if c =c "r"%char then carriage_return else if c =c "t"%char then tab else c.

(** The loop of [parse_json_string], from behind the opening quote. *)
Fixpoint string_loop (p : string) : string * string :=
  match p with
  | EmptyString => (EmptyString, EmptyString)
  | String c r =>
      if c =c quote then (EmptyString, r)
      else match c =c backslash, r with
      | true, String c' r' => let '(s, q) := string_loop r' in (String (unescape c') s, q)
      | _, _ => let '(s, q) := string_loop r in (String c s, q)
      end
  end.

Definition tail (p : string) : string := match p with String _ r => r | EmptyString => p end.

Definition parse_json_string (p : string) : string * string := string_loop (tail p).

Fixpoint span_digits (p : string) : string * string :=
  match p with
  | String c r => if isdigit c then let '(d, q) := span_digits r in (String c d, q) else (EmptyString, p)
  | EmptyString => (EmptyString, EmptyString)
  end.

Fixpoint read_digits (acc : Z) (d : string) : Z :=
  match d with EmptyString => acc | String c r => read_digits (acc * 10 + (code c - 48)) r end.

Definition is_empty (s : string) : bool := match s with EmptyString => true | _ => false end.
Definition starts (c : ascii) (p : string) : bool := match p with String c' _ => c' =c c | EmptyString => false end.

(** The binary64 nearest to [n * 10^e]; [OutOfRange] as glibc's [strtod]
    reports it: the value overflows, or is subnormal and inexact. *)
Definition strtod (neg : bool) (n e : Z) : res spec_float :=
  if n =? 0 then Ok (S754_zero neg)
  else
    let N := n * 10 ^ Z.max 0 e in
    let D := 10 ^ Z.max 0 (- e) in
    let '(q, ex, loc) := SFdiv_core_binary 53 1024 N 0 D 0 in
    let f := binary_round_aux 53 1024 neg q ex loc in
    match f with
    | S754_finite _ m x =>
        if (N * 2 ^ 1022 <? D) && negb (N * 2 ^ Z.max 0 (- x) =? Zpos m * 2 ^ Z.max 0 x * D)
        then Throw OutOfRange else Ok f
    | _ => Throw OutOfRange
    end.

(** The token of a number: sign, digits, fraction and exponent with its sign. *)
Record token := mkToken {
  t_neg : bool; t_int : string; t_frac : option string; t_exp : option (bool * string)
}.

Definition is_float_token (t : token) : bool :=
  match t_frac t, t_exp t with None, None => false | _, _ => true end.

Definition scan_number (p : string) : token * string :=
  let neg := starts "-"%char p in
  let p := if neg then tail p else p in
  let '(i, p) := span_digits p in
  let '(fr, p) :=
    if starts "."%char p then let '(d, q) := span_digits (tail p) in (Some d, q) else (None, p) in
  let '(ex, p) :=
    if starts "e"%char p || starts "E"%char p then
      let p := tail p in
      let eneg := starts "-"%char p in
      let p := if eneg || starts "+"%char p then tail p else p in
      let '(d, q) := span_digits p in (Some (eneg, d), q)
    else (None, p) in
  (mkToken neg i fr ex, p).

Definition stod (t : token) : res spec_float :=
  let fr := match t_frac t with Some d => d | None => EmptyString end in
  if is_empty (t_int t) && is_empty fr then Throw InvalidArgument
  else
    let e := match t_exp t with
             | Some (eneg, d) => if eneg then - read_digits 0 d else read_digits 0 d
             | None => 0
             end in
    strtod (t_neg t) (read_digits (read_digits 0 (t_int t)) fr) (e - Z.of_nat (String.length fr)).

(** [std::stoll], [None] for what it throws. *)
Definition stoll (t : token) : option Z :=
  if is_empty (t_int t) then None
  else
    let n := read_digits 0 (t_int t) in
    let n := if t_neg t then - n else n in
    if (- 2 ^ 63 <=? n) && (n <? 2 ^ 63) then Some n else None.

Definition parse_json_number (p : string) : res (TwValue * string) :=
  let '(t, q) := scan_number p in
  match is_float_token t, stoll t with
  | false, Some i => Ok (INT i, q)
  | _, _ => do f <- stod t; Ok (FLOAT f, q)
  end.

(** [strncmp(p, w, len) == 0] with [p + len <= end]: the rest behind the word. *)
Fixpoint strip_prefix (w p : string) : option string :=
  match w, p with
  | EmptyString, _ => Some p
  | String c w, String c' p => if c =c c' then strip_prefix w p else None
  | _, _ => None
  end.

Section Loops.
Variable parse_json : string -> res (TwValue * string).

Fixpoint array_loop (fuel : nat) (p : string) (arr : list TwValue) : res (list TwValue * string) :=
  match fuel, p with
  | S fuel, String _ _ =>
      do vq <- parse_json p;
      let arr := (arr ++ [fst vq])%list in
      let p := skip_ws (snd vq) in
      if starts ","%char p then array_loop fuel (tail p) arr else Ok (arr, p)
  | _, _ => Ok (arr, p)
  end.

Fixpoint dict_loop (fuel : nat) (p : string) (d : Dict) : res (Dict * string) :=
  match fuel, p with
  | S fuel, String _ _ =>
      let '(key, p) := parse_json_string (skip_ws p) in
      let p := skip_ws p in
      let p := if starts ":"%char p then tail p else p in
      do vq <- parse_json p;
      let d := dict_set key (fst vq) d in
      let p := skip_ws (snd vq) in
      if starts ","%char p then dict_loop fuel (tail p) d else Ok (d, p)
  | _, _ => Ok (d, p)
  end.
End Loops.

(** [parse_json] on a text shorter than the fuel. *)
Fixpoint parse_json_fuel (fuel : nat) (p : string) : res (TwValue * string) :=
  match fuel with
  | O => Ok (NIL, p)
  | S fuel =>
  let p := skip_ws p in
  match p with
  | EmptyString => Ok (NIL, p)
  | String c r =>
      if c =c quote then let '(s, q) := parse_json_string p in Ok (STRING s, q)
      else if c =c "["%char then
        let q := skip_ws r in
        if starts "]"%char q then Ok (ARRAY [], tail q)
        else
          do aq <- array_loop (parse_json_fuel fuel) (S (String.length q)) q [];
          let '(a, q) := aq in
          Ok (ARRAY a, if starts "]"%char q then tail q else q)
      else if c =c "{"%char then
        let q := skip_ws r in
        if starts "}"%char q then Ok (DICT [], tail q)
        else
          do dq <- dict_loop (parse_json_fuel fuel) (S (String.length q)) q [];
          let '(d, q) := dq in
          Ok (DICT d, if starts "}"%char q then tail q else q)
      else if (c =c "-"%char) || isdigit c then parse_json_number p
      else match strip_prefix "true" p with
      | Some q => Ok (BOOL true, q)
      | None => match strip_prefix "false" p with
      | Some q => Ok (BOOL false, q)
      | None => match strip_prefix "null" p with
      | Some q => Ok (NIL, q)
      | None => Ok (NIL, r)
      end end end
  end end.

Definition parse_json (p : string) : res (TwValue * string) := parse_json_fuel (S (String.length p)) p.

Definition parse_json_str (json : string) : res TwValue := do vq <- parse_json json; Ok (fst vq).
