(* ===== verification/TwJsonProofs.v ===== *)
(** tw_json.hpp: the parser ends, and reads back what the printer writes. *)

From Stdlib Require Import ZArith String Ascii List Bool Lia SpecFloat.
From S2P Require Import Prelude OrderedMap TwValue TwJson.
Import ListNotations.
#[local] Open Scope Z_scope.
#[local] Open Scope tw_scope.
#[local] Set Warnings "-register-all".

(** * Decimal numbers *)

Fixpoint digits_only (s : string) : bool :=
  match s with EmptyString => true | String c r => isdigit c && digits_only r end.

Lemma digit_code n : 0 <= n < 10 -> code (digit n) = 48 + n.
Proof.
  intros H. unfold code, digit, ascii_of_nat. rewrite N_ascii_embedding by lia. lia.
Qed.

Lemma isdigit_digit n : 0 <= n < 10 -> isdigit (digit n) = true.
Proof. intros H. unfold isdigit. rewrite digit_code by exact H. rewrite andb_true_iff, !Z.leb_le. lia. Qed.

Lemma digits_acc_ok fuel : forall n acc, 0 <= n < 2 ^ Z.of_nat fuel -> digits_only acc = true ->
  digits_only (digits_acc fuel n acc) = true /\ read_digits 0 (digits_acc fuel n acc) = read_digits n acc /\
  (fuel = O \/ exists c s, digits_acc fuel n acc = String c s).
Proof.
  induction fuel as [|f IH]; intros n acc Hn Ha; cbn [digits_acc].
  { change (2 ^ Z.of_nat 0) with 1 in Hn. split; [exact Ha|]. split; [f_equal; lia|auto]. }
  rewrite Nat2Z.inj_succ, Z.pow_succ_r in Hn by lia. destruct (Z.ltb_spec n 10).
  - split; [cbn [digits_only]; rewrite isdigit_digit by lia; exact Ha|]. split; [|eauto].
    cbn [read_digits]. rewrite digit_code by lia. f_equal. lia.
  - assert (0 <= n mod 10 < 10) by (apply Z.mod_pos_bound; lia). pose proof (Z.div_mod n 10 ltac:(lia)).
    destruct (IH (n / 10) (String (digit (n mod 10)) acc)) as (D & R & E).
    + split; [apply Z.div_pos; lia|]. apply Z.div_lt_upper_bound; lia.
    + cbn [digits_only]. now rewrite isdigit_digit.
    + split; [exact D|]. split.
      * rewrite R. cbn [read_digits]. rewrite digit_code by lia. f_equal. lia.
      * right. destruct E as [->|E]; [cbn [digits_acc]; eauto|exact E].
Qed.

Lemma show_nat_ok n : 0 <= n ->
  digits_only (show_nat n) = true /\ read_digits 0 (show_nat n) = n /\ exists c s, show_nat n = String c s.
Proof.
  intros Hn. unfold show_nat.
  destruct (digits_acc_ok (S (Z.to_nat (Z.log2 n))) n EmptyString) as (D & R & E); [|reflexivity|].
  - rewrite Nat2Z.inj_succ, Z2Nat.id by apply Z.log2_nonneg.
    destruct (Z.eq_dec n 0) as [->|]; [cbn; lia|]. pose proof (Z.log2_spec n ltac:(lia)). lia.
  - destruct E as [E|E]; [discriminate|]. auto.
Qed.

Lemma span_digits_ok d : forall r, digits_only d = true -> (match r with String c _ => isdigit c = false | _ => True end) ->
  span_digits (d ++ r) = (d, r).
Proof.
  induction d as [|c d IH]; intros r Hd Hr.
  - destruct r as [|c r]; cbn; [reflexivity|]. now rewrite Hr.
  - cbn [digits_only] in Hd. apply andb_true_iff in Hd as [Hc Hd]. cbn [String.append span_digits].
    now rewrite Hc, (IH r Hd Hr).
Qed.

(** What may follow a printed value: the end of the text or a character no
    number continues with. *)
Definition delimited (r : string) : Prop :=
  match r with
  | EmptyString => True
  | String c _ => isdigit c = false /\ c <> "."%char /\ c <> "e"%char /\ c <> "E"%char
  end.

Lemma starts_other c r : delimited r -> (c = "."%char \/ c = "e"%char \/ c = "E"%char) -> starts c r = false.
Proof.
  destruct r as [|x r]; cbn [delimited starts]; [reflexivity|]. intros (_ & H1 & H2 & H3) Hc.
  destruct (Ascii.eqb_spec x c) as [->|]; [|reflexivity]. intuition congruence.
Qed.

Lemma minus_not_digit : isdigit "-"%char = false.
Proof. reflexivity. Qed.

Lemma parse_int i r : - 2 ^ 63 <= i < 2 ^ 63 -> delimited r -> parse_json_number (show_int i ++ r) = Ok (INT i, r).
Proof.
  intros Hi Hr. unfold parse_json_number.
  assert (E : scan_number (show_int i ++ r) = (mkToken (i <? 0) (show_nat (Z.abs i)) None None, r)).
  { unfold scan_number, show_int. destruct (show_nat_ok (Z.abs i) (Z.abs_nonneg i)) as (D & _ & c & s & E).
    assert (H : span_digits (show_nat (Z.abs i) ++ r) = (show_nat (Z.abs i), r)).
    { apply span_digits_ok; [exact D|]. destruct r; [exact I|apply Hr]. }
    destruct (Z.ltb_spec i 0) as [L|L].
    - replace (- i) with (Z.abs i) by lia. cbn [String.append starts Ascii.eqb Bool.eqb tail]. rewrite H.
      rewrite !(starts_other _ r Hr) by auto. reflexivity.
    - replace (show_nat i) with (show_nat (Z.abs i)) by (f_equal; lia).
      assert (N : starts "-"%char (show_nat (Z.abs i) ++ r) = false).
      { rewrite E in *. cbn [digits_only] in D. apply andb_true_iff in D as [D _]. cbn [String.append starts].
        destruct (Ascii.eqb_spec c "-"%char) as [->|]; [discriminate|reflexivity]. }
      rewrite N, H. rewrite !(starts_other _ r Hr) by auto. reflexivity. }
  rewrite E. destruct (show_nat_ok (Z.abs i) (Z.abs_nonneg i)) as (_ & R & c & s & Ec).
  cbn [is_float_token t_frac t_exp]. unfold stoll. cbn [t_int t_neg].
  replace (is_empty (show_nat (Z.abs i))) with false by now rewrite Ec.
  rewrite R. replace (if i <? 0 then - Z.abs i else Z.abs i) with i by (destruct (Z.ltb_spec i 0); lia).
  replace ((- 2 ^ 63 <=? i) && (i <? 2 ^ 63)) with true; [reflexivity|].
  symmetry. rewrite andb_true_iff, Z.leb_le, Z.ltb_lt. exact Hi.
Qed.

(** * Strings *)

Lemma string_loop_escape s : forall r, string_loop (escape_chars s ++ String quote r) = (s, r).
Proof.
  induction s as [|c s IH]; intros r; [reflexivity|]. cbn [escape_chars]. unfold escape_char.
  repeat match goal with |- context [Ascii.eqb c ?d] => destruct (Ascii.eqb_spec c d) as [->|?]; [cbn; now rewrite IH|] end.
  cbn [String.append string_loop]. destruct (Ascii.eqb_spec c quote); [congruence|].
  destruct (Ascii.eqb_spec c backslash); [congruence|]. now rewrite IH.
Qed.

Lemma parse_escaped s r : parse_json_string (escape_string s ++ r) = (s, r).
Proof.
  unfold parse_json_string, escape_string. cbn [String.append tail]. rewrite str_app_assoc.
  apply string_loop_escape.
Qed.

(** * Values *)

(** What the printer renders without loss: no binary64, 64-bit integers,
    dictionaries with one binding per key. *)
Inductive printable : TwValue -> Prop :=
| pr_nil : printable NIL
| pr_bool b : printable (BOOL b)
| pr_int i : - 2 ^ 63 <= i < 2 ^ 63 -> printable (INT i)
| pr_string s : printable (STRING s)
| pr_array a : Forall printable a -> printable (ARRAY a)
| pr_dict d : NoDup (keys d) -> Forall (fun kv => printable (snd kv)) d -> printable (DICT d).

(** The first character of a printed value. *)
Lemma json_head v : printable v ->
  exists c s, to_json v = String c s /\ isspace c = false /\ c <> "]"%char /\ c <> "}"%char.
Proof.
  intros [|b|i Hi|s|a Ha|d Hd Hd'].
  - eexists _, _. repeat split; discriminate.
  - destruct b; eexists _, _; repeat split; discriminate.
  - cbn [to_json]. unfold show_int. destruct (Z.ltb_spec i 0).
    + eexists _, _. repeat split; discriminate.
    + destruct (show_nat_ok i) as (D & _ & c & s & E); [lia|]. exists c, s. rewrite E in *. cbn in D.
      apply andb_true_iff in D as [D _]. unfold isdigit in D. apply andb_true_iff in D as [D1 D2].
      apply Z.leb_le in D1, D2. split; [reflexivity|]. split.
      * unfold isspace. rewrite orb_false_iff, andb_false_iff, !Z.leb_gt, Z.eqb_neq. lia.
      * split; intros ->; vm_compute in D2; congruence.
  - eexists _, _. repeat split; discriminate.
  - eexists _, _. repeat split; discriminate.
  - eexists _, _. repeat split; discriminate.
Qed.

Lemma skip_ws_head c s : isspace c = false -> skip_ws (String c s) = String c s.
Proof. intros H. cbn. now rewrite H. Qed.

Lemma concat_cons sep x y l : String.concat sep (x :: y :: l) = (x ++ sep ++ String.concat sep (y :: l))%string.
Proof. reflexivity. Qed.

(** [parse] reads back [v] from texts of length at most [n]. *)
Definition reads (parse : string -> res (TwValue * string)) (n : nat) (v : TwValue) : Prop :=
  forall r, delimited r -> (String.length (to_json v ++ r) <= n)%nat -> parse (to_json v ++ r)%string = Ok (v, r).

Lemma concat_length l : Forall (fun s => (0 < String.length s)%nat) l ->
  (List.length l <= String.length (String.concat "," l))%nat.
Proof.
  induction 1 as [|s l Hs Hl IH]; [cbn; lia|]. destruct l as [|s' l]; [cbn; lia|].
  rewrite concat_cons, !str_length_app. cbn [List.length String.length] in *. lia.
Qed.

Section Loops.
Variable parse : string -> res (TwValue * string).
Variable n : nat.

(** The separator sends the loop on. *)
Ltac after_comma :=
  match goal with |- context [skip_ws ("," ++ ?x)%string] =>
    change (skip_ws ("," ++ x)%string) with (String "," x); cbv zeta;
    change (starts "," (String "," x)) with true; cbv iota; cbn [tail]
  end.

Lemma array_loop_ok a : forall fuel arr r, a <> [] -> Forall (reads parse n) a -> Forall printable a ->
  (String.length (String.concat "," (map to_json a) ++ String "]" r) <= n)%nat -> (List.length a <= fuel)%nat ->
  array_loop parse fuel (String.concat "," (map to_json a) ++ String "]" r) arr = Ok ((arr ++ a)%list, String "]" r).
Proof.
  induction a as [|v a IH]; intros fuel arr r Hne HR HP Hn Hf; [congruence|].
  inversion HR as [|? ? Rv Ra]; inversion HP as [|? ? Pv Pa]; subst.
  destruct fuel as [|fuel]; [cbn in Hf; lia|]. destruct (json_head v Pv) as (c & t & E & _).
  assert (Hstep : forall rest, delimited rest -> (String.length (to_json v ++ rest) <= n)%nat ->
     array_loop parse (S fuel) (to_json v ++ rest) arr =
     let p := skip_ws rest in if starts "," p then array_loop parse fuel (tail p) (arr ++ [v]) else Ok ((arr ++ [v])%list, p)).
  { intros rest Hd Hl. specialize (Rv rest Hd Hl). rewrite E in *. cbn [String.append] in *.
    cbn [array_loop]. rewrite Rv. reflexivity. }
  destruct a as [|v' a].
  - cbn [map String.concat] in *. rewrite Hstep by (try exact Hn; cbn; repeat split; discriminate). reflexivity.
  - cbn [map] in *. rewrite concat_cons, !str_app_assoc in *.
    rewrite Hstep by (try exact Hn; cbn; repeat split; discriminate).
    after_comma. rewrite IH; auto; [now rewrite <- app_assoc|discriminate| |cbn in *; lia].
    rewrite str_length_app in Hn. cbn [String.append String.length] in Hn. cbn [map]. lia.
Qed.

Definition entry (kv : string * TwValue) : string := (escape_string (fst kv) ++ ":" ++ to_json (snd kv))%string.

Lemma entry_head kv : exists s, entry kv = String quote s.
Proof. unfold entry, escape_string. cbn [String.append]. eauto. Qed.

Lemma dict_loop_ok d : forall fuel acc r, d <> [] -> Forall (fun kv => reads parse n (snd kv)) d ->
  NoDup (keys (acc ++ d)) ->
  (String.length (String.concat "," (map entry d) ++ String "}" r) <= n)%nat -> (List.length d <= fuel)%nat ->
  dict_loop parse fuel (String.concat "," (map entry d) ++ String "}" r) acc = Ok ((acc ++ d)%list, String "}" r).
Proof.
  induction d as [|[k v] d IH]; intros fuel acc r Hne HR HN Hn Hf; [congruence|].
  inversion HR as [|? ? Rv Rd]; subst. cbn [snd] in Rv.
  destruct fuel as [|fuel]; [cbn in Hf; lia|].
  assert (Hset : dict_set k v acc = (acc ++ [(k, v)])%list).
  { apply dict_set_new. unfold keys in *. rewrite map_app in HN. cbn in HN. apply NoDup_remove_2 in HN.
    intros I. apply HN, in_or_app. auto. }
  assert (Hstep : forall rest, delimited rest -> (String.length (entry (k, v) ++ rest) <= n)%nat ->
     dict_loop parse (S fuel) (entry (k, v) ++ rest) acc =
     let p := skip_ws rest in if starts "," p then dict_loop parse fuel (tail p) (acc ++ [(k, v)]) else Ok ((acc ++ [(k, v)])%list, p)).
  { intros rest Hd Hl. unfold entry in *. cbn [fst snd] in *. rewrite !str_app_assoc in *.
    assert (Hs : skip_ws (escape_string k ++ ":" ++ to_json v ++ rest)%string = (escape_string k ++ ":" ++ to_json v ++ rest)%string) by reflexivity.
    rewrite str_length_app in Hl. cbn [String.append String.length] in Hl.
    specialize (Rv rest Hd ltac:(lia)).
    pose proof (parse_escaped k (":" ++ to_json v ++ rest)%string) as Hp.
    destruct (escape_string k ++ ":" ++ to_json v ++ rest)%string as [|c p] eqn:Ep; [discriminate|].
    cbn [dict_loop]. rewrite Hs, Hp. cbn [String.append].
    change (skip_ws (String ":" (to_json v ++ rest))) with (String ":" (to_json v ++ rest)).
    change (starts ":" (String ":" (to_json v ++ rest))) with true. cbv iota.
    cbn [tail]. rewrite Rv. cbn [rbind fst snd]. now rewrite Hset. }
  destruct d as [|kv' d].
  - cbn [map String.concat] in *. rewrite Hstep by (try exact Hn; cbn; repeat split; discriminate). reflexivity.
  - cbn [map] in *. rewrite concat_cons, !str_app_assoc in *.
    rewrite Hstep by (try exact Hn; cbn; repeat split; discriminate).
    after_comma. rewrite IH; auto; [now rewrite <- app_assoc|discriminate|now rewrite <- app_assoc| |cbn in *; lia].
    rewrite str_length_app in Hn. cbn [String.append String.length] in Hn. cbn [map]. lia.
Qed.
End Loops.

(** * Round trip *)

Lemma starts_head c d s : c <> d -> starts d (String c s) = false.
Proof. intros N. cbn [starts]. destruct (Ascii.eqb_spec c d); congruence. Qed.

Lemma json_lengths a : Forall printable a -> Forall (fun s => (0 < String.length s)%nat) (map to_json a).
Proof.
  intros Ha. apply Forall_map. eapply Forall_impl; [|exact Ha]. cbv beta. intros v Hv.
  destruct (json_head v Hv) as (c & s & -> & _). cbn. lia.
Qed.

Lemma parse_array parse fuel a r : parse = parse_json_fuel (S fuel) -> Forall printable a -> Forall (reads parse fuel) a ->
  (String.length (to_json (ARRAY a) ++ r) <= S fuel)%nat ->
  parse_json_fuel (S (S fuel)) (to_json (ARRAY a) ++ r) = Ok (ARRAY a, r).
Proof.
  intros Hpar HP HR Hl. cbn [to_json] in *. rewrite !str_app_assoc in *. cbn [String.append] in Hl |- *.
  remember (S fuel) as fuel' eqn:Ef. cbn [parse_json_fuel skip_ws]. rewrite <- Hpar. change (isspace "[") with false. cbv iota.
  change (Ascii.eqb "[" quote) with false. change (Ascii.eqb "[" "[") with true. cbv iota.
  destruct a as [|v a].
  - cbn [map String.concat String.append skip_ws]. change (isspace "]") with false. cbv iota. reflexivity.
  - set (q := (String.concat "," (map to_json (v :: a)) ++ String "]" r)%string) in *.
    assert (Eq : skip_ws q = q /\ starts "]" q = false).
    { inversion HP as [|? ? Pv Pa]; subst. destruct (json_head v Pv) as (c & s & E & Hs & H1 & _).
      assert (exists s', q = String c s') as [s' ->].
      { unfold q. destruct a; cbn [map String.concat]; rewrite E; cbn [String.append]; eauto. }
      split; [now apply skip_ws_head|now apply starts_head]. }
    destruct Eq as [-> ->]. pose proof (concat_length _ (json_lengths _ HP)) as Hc. rewrite length_map in Hc.
    unfold q at 2. rewrite (array_loop_ok parse fuel (v :: a)); auto; [discriminate| |].
    + cbn [String.length] in Hl. fold q. lia.
    + unfold q. rewrite str_length_app. lia.
Qed.

Lemma entry_eq d : map (fun kv => (escape_string (fst kv) ++ ":" ++ to_json (snd kv))%string) d = map entry d.
Proof. reflexivity. Qed.

Lemma entry_lengths d : Forall (fun s => (0 < String.length s)%nat) (map entry d).
Proof.
  apply Forall_map, Forall_forall. intros kv _. destruct (entry_head kv) as (s & ->). cbn. lia.
Qed.

Lemma parse_dict parse fuel d r : parse = parse_json_fuel (S fuel) -> NoDup (keys d) ->
  Forall (fun kv => reads parse fuel (snd kv)) d ->
  (String.length (to_json (DICT d) ++ r) <= S fuel)%nat ->
  parse_json_fuel (S (S fuel)) (to_json (DICT d) ++ r) = Ok (DICT d, r).
Proof.
  intros Hpar HN HR Hl. cbn [to_json] in *. rewrite entry_eq, !str_app_assoc in *. cbn [String.append] in Hl |- *.
  remember (S fuel) as fuel' eqn:Ef. cbn [parse_json_fuel skip_ws]. rewrite <- Hpar. change (isspace "{") with false. cbv iota.
  change (Ascii.eqb "{" quote) with false. change (Ascii.eqb "{" "[") with false. change (Ascii.eqb "{" "{") with true. cbv iota.
  destruct d as [|kv d].
  - cbn [map String.concat String.append skip_ws]. change (isspace "}") with false. cbv iota. reflexivity.
  - set (q := (String.concat "," (map entry (kv :: d)) ++ String "}" r)%string) in *.
    assert (Eq : skip_ws q = q /\ starts "}" q = false).
    { destruct (entry_head kv) as (s & E). assert (exists s', q = String quote s') as [s' ->].
      { unfold q. destruct d; cbn [map String.concat]; rewrite E; cbn [String.append]; eauto. }
      split; reflexivity. }
    destruct Eq as [-> ->]. pose proof (concat_length _ (entry_lengths (kv :: d))) as Hc. rewrite length_map in Hc.
    unfold q at 2. rewrite (dict_loop_ok parse fuel (kv :: d)); auto; [discriminate| |].
    + cbn [String.length] in Hl. fold q. lia.
    + unfold q. rewrite str_length_app. lia.
Qed.

Lemma digit_char c : isdigit c = true -> Ascii.eqb c quote = false /\ Ascii.eqb c "[" = false /\ Ascii.eqb c "{" = false.
Proof.
  intros D. repeat split;
    match goal with |- Ascii.eqb c ?d = false => destruct (Ascii.eqb_spec c d) as [e|]; [rewrite e in D; discriminate|reflexivity] end.
Qed.

Lemma parse_printed v : printable v -> forall fuel, reads (parse_json_fuel (S fuel)) fuel v.
Proof.
  induction v as [|b|i|f|s|a IH|d IH] using TwValue_nested_ind; intros HP fuel r Hr Hl.
  - reflexivity.
  - destruct b; reflexivity.
  - inversion HP; subst. cbn [to_json]. destruct (json_head (INT i) HP) as (c & s & E & Hs & _).
    assert (Hd : Ascii.eqb c quote = false /\ Ascii.eqb c "[" = false /\ Ascii.eqb c "{" = false /\ ((Ascii.eqb c "-") || isdigit c = true)).
    { cbn [to_json] in E. unfold show_int in E. destruct (Z.ltb_spec i 0); [injection E as <- _; auto|].
      destruct (show_nat_ok i ltac:(lia)) as (D & _). rewrite E in D. cbn in D. apply andb_true_iff in D as [D _].
      rewrite D, orb_true_r. destruct (digit_char c D) as (-> & -> & ->). auto. }
    destruct Hd as (H1' & H2 & H3 & H4). cbn [to_json] in E. pose proof (parse_int i r ltac:(assumption) Hr) as P. rewrite E in *.
    cbn [String.append] in *. cbn [parse_json_fuel]. rewrite skip_ws_head by exact Hs. now rewrite H1', H2, H3, H4.
  - inversion HP.
  - cbn [to_json]. pose proof (parse_escaped s r) as P. unfold escape_string in *. cbn [String.append] in *.
    cbn [parse_json_fuel skip_ws]. change (isspace quote) with false. cbv iota. change (Ascii.eqb quote quote) with true. cbv iota.
    now rewrite P.
  - inversion HP as [| | | |? Ha|]; subst. destruct fuel as [|fuel]; [cbn [to_json String.append String.length] in Hl; lia|].
    apply (parse_array (parse_json_fuel (S fuel))); auto. rewrite Forall_forall in *. auto.
  - inversion HP as [| | | | |? Hk Hd]; subst. destruct fuel as [|fuel]; [cbn [to_json String.append String.length] in Hl; lia|].
    apply (parse_dict (parse_json_fuel (S fuel))); auto. rewrite Forall_forall in *. auto.
Qed.

Lemma parse_json_printed v r : printable v -> delimited r -> parse_json (to_json v ++ r) = Ok (v, r).
Proof. intros HP Hr. now apply parse_printed. Qed.

(** * How far the parser reads, and what it throws *)

#[local] Abbreviation len := String.length.

(** [q] is what is left of [p] behind some of its characters. *)
Definition rest_of (q p : string) : Prop := exists pre, p = (pre ++ q)%string.

(** [e] is what [std::stod] throws on a number that starts inside [p]. *)
Definition blamed (p : string) (e : exn) : Prop :=
  exists q, rest_of q p /\ (starts "-" q = true \/ exists c r, q = String c r /\ isdigit c = true) /\
    stod (fst (scan_number q)) = Throw e.

Definition advances {A} (p : string) (r : res (A * string)) : Prop :=
  match r with Ok (_, q) => rest_of q p | Throw e => blamed p e end.

Lemma rest_refl p : rest_of p p.
Proof. now exists EmptyString. Qed.

Lemma rest_cons c q p : rest_of q p -> rest_of q (String c p).
Proof. intros (x & ->). now exists (String c x). Qed.

Lemma rest_trans q p r : rest_of r q -> rest_of q p -> rest_of r p.
Proof. intros (x & ->) (y & ->). exists (y ++ x)%string. now rewrite str_app_assoc. Qed.

Lemma blamed_trans q p e : blamed q e -> rest_of q p -> blamed p e.
Proof. intros (r & H & K) Hp. exists r. split; [eapply rest_trans; eassumption|exact K]. Qed.

Lemma advances_trans {A} q p (r : res (A * string)) : advances q r -> rest_of q p -> advances p r.
Proof. destruct r as [[a x]|e]; cbn; eauto using rest_trans, blamed_trans. Qed.

Lemma rest_skip_ws p : rest_of (skip_ws p) p.
Proof. induction p as [|c p IH]; cbn; [apply rest_refl|]. destruct (isspace c); [now apply rest_cons|apply rest_refl]. Qed.

Lemma rest_tail p : rest_of (tail p) p.
Proof. destruct p; [apply rest_refl|apply rest_cons, rest_refl]. Qed.

Lemma rest_tail_if (b : bool) p : rest_of (if b then tail p else p) p.
Proof. destruct b; [apply rest_tail|apply rest_refl]. Qed.

Lemma rest_span p : rest_of (snd (span_digits p)) p.
Proof.
  induction p as [|c p IH]; cbn; [apply rest_refl|]. destruct (isdigit c); [|apply rest_refl].
  destruct (span_digits p). now apply rest_cons.
Qed.

Lemma rest_string_loop n : forall p, (len p <= n)%nat -> rest_of (snd (string_loop p)) p.
Proof.
  induction n as [|n IH]; intros [|c r] H; cbn [string_loop String.length snd] in *; try lia; try apply rest_refl.
  destruct (Ascii.eqb c quote); [apply rest_cons, rest_refl|].
  assert (A : forall x r', (len r' <= n)%nat -> rest_of (snd (let '(s, q) := string_loop r' in (String x s, q))) r').
  { intros x r' Hr. specialize (IH r' Hr). now destruct (string_loop r'). }
  destruct (Ascii.eqb c backslash); [destruct r as [|c' r']|]; cbn [String.length] in H;
    [apply rest_cons, rest_refl|apply rest_cons, rest_cons, A; lia|apply rest_cons, A; lia].
Qed.

Lemma rest_parse_string p : rest_of (snd (parse_json_string p)) p.
Proof. eapply rest_trans; [apply (rest_string_loop _ _ (le_n _))|apply rest_tail]. Qed.

Lemma rest_scan p : rest_of (snd (scan_number p)) p.
Proof.
  unfold scan_number. pose proof (rest_tail_if (starts "-" p) p) as H1.
  set (p1 := if starts "-" p then tail p else p) in *.
  pose proof (rest_span p1) as H2. destruct (span_digits p1) as [i p2]. cbn [snd] in H2.
  assert (H3 : rest_of (snd (if starts "." p2 then let '(d, q) := span_digits (tail p2) in (Some d, q) else (None, p2))) p2).
  { destruct (starts "." p2); [|apply rest_refl]. pose proof (rest_span (tail p2)) as H.
    destruct (span_digits (tail p2)). exact (rest_trans _ _ _ H (rest_tail p2)). }
  destruct (if starts "." p2 then _ else _) as [fr p3]. cbn [snd] in H3.
  assert (H4 : rest_of p3 p) by eauto using rest_trans.
  destruct (starts "e" p3 || starts "E" p3); [|exact H4].
  pose proof (rest_tail_if (starts "-" (tail p3) || starts "+" (tail p3)) (tail p3)) as H5.
  set (p4 := if starts "-" (tail p3) || starts "+" (tail p3) then tail (tail p3) else tail p3) in *.
  pose proof (rest_span p4) as H6. destruct (span_digits p4). cbn [snd] in *.
  eauto using rest_trans, rest_tail.
Qed.

Lemma rest_strip w : forall p q, strip_prefix w p = Some q -> rest_of q p.
Proof.
  induction w as [|c w IH]; intros [|c' p] q; cbn; try congruence; [intros [= <-]; apply rest_refl..|].
  destruct (Ascii.eqb c c'); [|discriminate]. intros H. apply rest_cons. now apply IH.
Qed.

#[local] Hint Resolve rest_refl rest_cons rest_skip_ws rest_tail rest_tail_if rest_strip : json_rest.

Section LoopReads.
Variable f : string -> res (TwValue * string).
Hypothesis Hf : forall p, advances p (f p).

Lemma array_loop_advances k : forall p arr, advances p (array_loop f k p arr).
Proof.
  induction k as [|k IH]; intros [|c p] arr; cbn [array_loop]; try apply rest_refl.
  specialize (Hf (String c p)). destruct (f (String c p)) as [[v r]|]; [|exact Hf]. cbn [rbind fst snd advances] in *.
  assert (rest_of (skip_ws r) (String c p)) by (eapply rest_trans; [apply rest_skip_ws|exact Hf]).
  destruct (starts "," (skip_ws r)); [|assumption].
  eapply advances_trans; [apply IH|]. eapply rest_trans; [apply rest_tail|assumption].
Qed.

Lemma dict_loop_advances k : forall p d, advances p (dict_loop f k p d).
Proof.
  induction k as [|k IH]; intros [|c p] d; cbn [dict_loop]; try apply rest_refl.
  pose proof (rest_trans _ _ _ (rest_parse_string (skip_ws (String c p))) (rest_skip_ws _)) as L1.
  destruct (parse_json_string (skip_ws (String c p))) as [key p1]. cbn [snd] in L1.
  pose proof (rest_tail_if (starts ":" (skip_ws p1)) (skip_ws p1)) as L2.
  set (p2 := if starts ":" (skip_ws p1) then tail (skip_ws p1) else skip_ws p1) in *.
  assert (L : rest_of p2 (String c p)) by eauto using rest_trans, rest_skip_ws.
  pose proof (Hf p2) as H2. destruct (f p2) as [[v r]|]; cbn [rbind fst snd advances] in *; [|eapply blamed_trans; eassumption].
  assert (rest_of (skip_ws r) (String c p)) by eauto using rest_trans, rest_skip_ws.
  destruct (starts "," (skip_ws r)); [|assumption].
  eapply advances_trans; [apply IH|]. eapply rest_trans; [apply rest_tail|assumption].
Qed.
End LoopReads.

Lemma number_advances c r : (Ascii.eqb c "-" || isdigit c) = true -> advances (String c r) (parse_json_number (String c r)).
Proof.
  intros Hc. unfold parse_json_number. pose proof (rest_scan (String c r)) as L.
  destruct (scan_number (String c r)) as [t q] eqn:E. cbn [snd] in L.
  assert (B : forall e, stod t = Throw e -> blamed (String c r) e).
  { intros e He. exists (String c r). rewrite E. split; [apply rest_refl|]. split; [|exact He].
    apply orb_true_iff in Hc as [Hc|Hc]; [now left|right; eauto]. }
  destruct (is_float_token t), (stoll t), (stod t); cbn [rbind advances]; auto.
Qed.

Lemma parse_advances n : forall p, advances p (parse_json_fuel n p).
Proof.
  induction n as [|n IH]; intros p; cbn [parse_json_fuel]; [apply rest_refl|].
  apply (advances_trans (skip_ws p)); [|apply rest_skip_ws]. destruct (skip_ws p) as [|c r]; [apply rest_refl|].
  destruct (Ascii.eqb c quote).
  { pose proof (rest_parse_string (String c r)). now destruct (parse_json_string (String c r)). }
  destruct (Ascii.eqb c "[").
  { apply (advances_trans (skip_ws r)); [|auto with json_rest]. destruct (starts "]" (skip_ws r)); [apply rest_tail|].
    pose proof (array_loop_advances _ IH (S (len (skip_ws r))) (skip_ws r) []) as L.
    destruct (array_loop _ _ _ _) as [[a q]|]; [|exact L]. exact (rest_trans _ _ _ (rest_tail_if _ _) L). }
  destruct (Ascii.eqb c "{").
  { apply (advances_trans (skip_ws r)); [|auto with json_rest]. destruct (starts "}" (skip_ws r)); [apply rest_tail|].
    pose proof (dict_loop_advances _ IH (S (len (skip_ws r))) (skip_ws r) []) as L.
    destruct (dict_loop _ _ _ _) as [[a q]|]; [|exact L]. exact (rest_trans _ _ _ (rest_tail_if _ _) L). }
  destruct (_ || isdigit c) eqn:N; [now apply number_advances|].
  repeat match goal with |- context [strip_prefix ?w ?x] => destruct (strip_prefix w x) eqn:?; [cbn [advances]; eauto with json_rest|] end.
  cbn [advances]. auto with json_rest.
Qed.

(** * Termination: the fuel does not matter *)

Lemma rest_len q p : rest_of q p -> (len q <= len p)%nat.
Proof. intros (x & ->). rewrite str_length_app. lia. Qed.

Lemma len_skip_ws p : (len (skip_ws p) <= len p)%nat.
Proof. apply rest_len, rest_skip_ws. Qed.

Lemma len_tail p : (len (tail p) <= len p)%nat.
Proof. apply rest_len, rest_tail. Qed.

Lemma len_parse_string p : (len (snd (parse_json_string p)) <= len p)%nat.
Proof. apply rest_len, rest_parse_string. Qed.

Definition shrinks (f : string -> res (TwValue * string)) : Prop :=
  forall p v q, f p = Ok (v, q) -> (len q <= len p)%nat.

Lemma starts_len c p : starts c p = true -> (len (tail p) < len p)%nat.
Proof. destruct p; cbn; [discriminate|lia]. Qed.

Ltac len_facts :=
  repeat match goal with
  | |- context [skip_ws ?p] => lazymatch goal with H : (len (skip_ws p) <= _)%nat |- _ => fail | _ => pose proof (len_skip_ws p) end
  | H : context [skip_ws ?p] |- _ => lazymatch goal with H : (len (skip_ws p) <= _)%nat |- _ => fail | _ => pose proof (len_skip_ws p) end
  | H : starts ?c ?p = true |- _ => lazymatch goal with H : (len (tail p) < _)%nat |- _ => fail | _ => pose proof (starts_len c p H) end
  | |- context [tail ?p] => lazymatch goal with H : (len (tail p) <= _)%nat |- _ => fail | _ => pose proof (len_tail p) end
  end.

Section LoopLengths.
Variables f g : string -> res (TwValue * string).
Hypothesis Hf : shrinks f.

Lemma array_loop_ext k : forall k' p arr, (len p < k)%nat -> (len p < k')%nat ->
  (forall p', (len p' <= len p)%nat -> f p' = g p') -> array_loop f k p arr = array_loop g k' p arr.
Proof.
  induction k as [|k IH]; intros [|k'] p arr H1 H2 He; try lia.
  destruct p as [|c p]; [reflexivity|]. cbn [array_loop]. rewrite <- He by lia.
  destruct (f (String c p)) as [[v r]|] eqn:E; [|reflexivity]. cbn [rbind fst snd]. apply Hf in E.
  destruct (starts "," (skip_ws r)) eqn:S; [|reflexivity]. len_facts.
  apply IH; [lia|lia|]. intros p' Hp. apply He. lia.
Qed.

Lemma dict_loop_ext k : forall k' p d, (len p < k)%nat -> (len p < k')%nat ->
  (forall p', (len p' <= len p)%nat -> f p' = g p') -> dict_loop f k p d = dict_loop g k' p d.
Proof.
  induction k as [|k IH]; intros [|k'] p d H1 H2 He; try lia.
  destruct p as [|c p]; [reflexivity|]. cbn [dict_loop].
  pose proof (len_skip_ws (String c p)) as L0. pose proof (len_parse_string (skip_ws (String c p))) as L1.
  destruct (parse_json_string (skip_ws (String c p))) as [key p1]. cbn [snd] in L1.
  set (p2 := if starts ":" (skip_ws p1) then tail (skip_ws p1) else skip_ws p1) in *.
  assert (L2 : (len p2 <= len p1)%nat) by (unfold p2; destruct (starts ":" _); len_facts; lia).
  rewrite <- He by lia.
  destruct (f p2) as [[v r]|] eqn:E; [|reflexivity]. cbn [rbind fst snd]. apply Hf in E.
  destruct (starts "," (skip_ws r)) eqn:S; [|reflexivity]. len_facts.
  apply IH; [lia|lia|]. intros p' Hp. apply He. lia.
Qed.
End LoopLengths.

Lemma parse_shrinks n : shrinks (parse_json_fuel n).
Proof. intros p v q H. pose proof (parse_advances n p) as A. rewrite H in A. exact (rest_len _ _ A). Qed.

Lemma parse_fuel n : forall m p, (len p < n)%nat -> (len p < m)%nat -> parse_json_fuel n p = parse_json_fuel m p.
Proof.
  induction n as [|n IH]; intros [|m] p Hn Hm; try lia. cbn [parse_json_fuel].
  pose proof (len_skip_ws p) as L0. destruct (skip_ws p) as [|c r]; [reflexivity|]. cbn [String.length] in L0.
  pose proof (len_skip_ws r) as L1.
  assert (He : forall p', (len p' <= len (skip_ws r))%nat -> parse_json_fuel n p' = parse_json_fuel m p').
  { intros p' Hp. apply IH; lia. }
  rewrite (array_loop_ext _ _ (parse_shrinks n) (S (len (skip_ws r))) (S (len (skip_ws r))) (skip_ws r) [] ltac:(lia) ltac:(lia) He).
  rewrite (dict_loop_ext _ _ (parse_shrinks n) (S (len (skip_ws r))) (S (len (skip_ws r))) (skip_ws r) [] ltac:(lia) ltac:(lia) He).
  reflexivity.
Qed.

(** * The parser's values *)

(** Integers fit 64 bits, dictionaries have one binding per key. *)
Inductive well_formed : TwValue -> Prop :=
| wf_nil : well_formed NIL
| wf_bool b : well_formed (BOOL b)
| wf_int i : - 2 ^ 63 <= i < 2 ^ 63 -> well_formed (INT i)
| wf_float f : well_formed (FLOAT f)
| wf_string s : well_formed (STRING s)
| wf_array a : Forall well_formed a -> well_formed (ARRAY a)
| wf_dict d : NoDup (keys d) -> Forall (fun kv => well_formed (snd kv)) d -> well_formed (DICT d).

Definition yields_wf (f : string -> res (TwValue * string)) : Prop :=
  forall p v q, f p = Ok (v, q) -> well_formed v.

Lemma Forall_dict_set (P : string * TwValue -> Prop) k v d :
  Forall P d -> (forall k', P (k', v)) -> Forall P (dict_set k v d).
Proof.
  intros Hd Hv. induction Hd as [|[k' v'] d Hx Hd IH]; cbn [dict_set]; [auto|].
  destruct (String.eqb k k'); constructor; auto.
Qed.

Lemma array_loop_wf f k : yields_wf f -> forall p arr a q, Forall well_formed arr ->
  array_loop f k p arr = Ok (a, q) -> Forall well_formed a.
Proof.
  intros Hf. induction k as [|k IH]; intros p arr a q Ha H; [cbn in H; now injection H as <- _|].
  destruct p as [|c p]; [cbn in H; now injection H as <- _|]. cbn [array_loop] in H.
  destruct (f (String c p)) as [[v r]|] eqn:E; [|discriminate]. cbn [rbind fst snd] in H. apply Hf in E.
  assert (Forall well_formed (arr ++ [v])) by (apply Forall_app; auto).
  destruct (starts _ _); [eapply IH; eauto|now injection H as <- _].
Qed.

Lemma dict_loop_wf f k : yields_wf f -> forall p d a q, NoDup (keys d) -> Forall (fun kv => well_formed (snd kv)) d ->
  dict_loop f k p d = Ok (a, q) -> NoDup (keys a) /\ Forall (fun kv => well_formed (snd kv)) a.
Proof.
  intros Hf. induction k as [|k IH]; intros p d a q Hn Hd H; [cbn in H; now injection H as <- _|].
  destruct p as [|c p]; [cbn in H; now injection H as <- _|]. cbn [dict_loop] in H.
  destruct (parse_json_string (skip_ws (String c p))) as [key p1].
  destruct (f _) as [[v r]|] eqn:E; [|discriminate]. cbn [rbind fst snd] in H. apply Hf in E.
  assert (Hn' := dict_set_NoDup key v d Hn).
  assert (Hd' : Forall (fun kv => well_formed (snd kv)) (dict_set key v d)) by (apply Forall_dict_set; auto).
  destruct (starts _ _); [eapply IH; eauto|now injection H as <- _].
Qed.

Lemma parse_wf n : yields_wf (parse_json_fuel n).
Proof.
  induction n as [|n IH]; intros p v q H; [cbn in H; injection H as <- _; constructor|]. cbn [parse_json_fuel] in H.
  destruct (skip_ws p) as [|c r]; [injection H as <- _; constructor|].
  destruct (Ascii.eqb c quote); [destruct (parse_json_string _); injection H as <- _; constructor|].
  destruct (Ascii.eqb c "[").
  { destruct (starts "]" (skip_ws r)); [injection H as <- _; repeat constructor|].
    destruct (array_loop _ _ _ _) as [[a q']|] eqn:E; [|discriminate]. cbn [rbind] in H. injection H as <- _.
    constructor. eapply array_loop_wf; [exact IH|constructor|exact E]. }
  destruct (Ascii.eqb c "{").
  { destruct (starts "}" (skip_ws r)); [injection H as <- _; repeat constructor|].
    destruct (dict_loop _ _ _ _) as [[a q']|] eqn:E; [|discriminate]. cbn [rbind] in H. injection H as <- _.
    apply dict_loop_wf in E; [|exact IH|constructor|constructor]. now constructor. }
  destruct (_ || isdigit c).
  { unfold parse_json_number in H. destruct (scan_number _) as [t q'].
    assert (Hs : forall i, stoll t = Some i -> - 2 ^ 63 <= i < 2 ^ 63).
    { intros i. unfold stoll. destruct (is_empty (t_int t)); [discriminate|].
      destruct ((- 2 ^ 63 <=? _) && _) eqn:B; [|discriminate]. intros [= <-].
      apply andb_true_iff in B as [B1 B2]. apply Z.leb_le in B1. apply Z.ltb_lt in B2. lia. }
    destruct (is_float_token t), (stoll t) as [i|], (stod t); cbn [rbind] in H; try discriminate; injection H as <- _;
      constructor; auto. }
  repeat match type of H with context [match ?x with _ => _ end] => destruct x end; injection H as <- _; constructor.
Qed.

(** [std::stod] throws [invalid_argument] or [out_of_range] and nothing else. *)
Lemma stod_throws t e : stod t = Throw e -> e = InvalidArgument \/ e = OutOfRange.
Proof.
  unfold stod, strtod. intros H.
  repeat match type of H with context [match ?x with _ => _ end] => destruct x end; try discriminate; injection H as <-; auto.
Qed.

Lemma parse_throws p : match parse_json p with Ok _ => True | Throw e => e = InvalidArgument \/ e = OutOfRange end.
Proof.
  pose proof (parse_advances (S (len p)) p) as A. unfold parse_json. destruct (parse_json_fuel _ p) as [[v q]|e]; [exact I|].
  destruct A as (q & _ & _ & He). exact (stod_throws _ _ He).
Qed.

(** * Theorems *)

(** C34: reading the text [to_json] prints for a value gives the value back, for
    every value built without binary64s, with integers of 64 bits and with one
    binding per key in each dictionary, whatever characters its strings and
    keys hold.  Binary64s are not read back ([float_not_reread]). *)
Theorem json_roundtrip (v : TwValue) (P : printable v) : parse_json_str (to_json v) = Ok v.
Proof.
  unfold parse_json_str. rewrite <- (str_app_nil (to_json v)). rewrite parse_json_printed by (auto; exact I).
  reflexivity.
Qed.

Lemma json_roundtrip_witness :
  parse_json_str (to_json (DICT [("k"%string, ARRAY [INT (-5); STRING (String newline (String quote EmptyString)); NIL])]))
  = Ok (DICT [("k"%string, ARRAY [INT (-5); STRING (String newline (String quote EmptyString)); NIL])]).
Proof.
  apply json_roundtrip. constructor; [repeat constructor; intros []|].
  repeat constructor; lia.
Defined.

(** A binary64 is printed with the six digits of an output stream, and without
    a point when it is an integer: 2.0 is read back as the integer 2, and a
    third as another number. *)
Lemma float_not_reread :
  parse_json_str (to_json (FLOAT (double 2))) = Ok (INT 2) /\
  match parse_json_str (to_json (FLOAT (SFdiv 53 1024 (double 1) (double 3)))) with
  | Ok (FLOAT f) => SFeqb f (SFdiv 53 1024 (double 1) (double 3)) = false
  | _ => False
  end.
Proof. split; vm_compute; reflexivity. Qed.

(** C38: the parser ends on every text with a value or an exception.  Neither
    its recursion nor its two loops run out when given more steps than
    characters.  When it returns, what it leaves is the end of the text and the
    value has 64-bit integers and dictionaries with unique keys.  When it
    throws, the exception is [invalid_argument] or [out_of_range], and it is the
    one [std::stod] throws on the number token that starts at some minus sign
    or digit of the text. *)
Theorem json_parse_total (p : string) :
  (forall n, (String.length p < n)%nat -> parse_json_fuel n p = parse_json p) /\
  (forall n k q arr, (String.length q < k)%nat ->
     array_loop (parse_json_fuel n) k q arr = array_loop (parse_json_fuel n) (S (String.length q)) q arr) /\
  (forall n k q d, (String.length q < k)%nat ->
     dict_loop (parse_json_fuel n) k q d = dict_loop (parse_json_fuel n) (S (String.length q)) q d) /\
  match parse_json p with
  | Ok (v, q) => (exists pre, p = (pre ++ q)%string) /\ well_formed v
  | Throw e =>
      (e = InvalidArgument \/ e = OutOfRange) /\
      exists pre c r, p = (pre ++ String c r)%string /\ (c = "-"%char \/ isdigit c = true) /\
        stod (fst (scan_number (String c r))) = Throw e
  end.
Proof.
  split; [intros n H; apply parse_fuel; lia|].
  split; [intros; apply array_loop_ext; auto using parse_shrinks with arith|].
  split; [intros; apply dict_loop_ext; auto using parse_shrinks with arith|].
  pose proof (parse_advances (S (len p)) p) as A. pose proof (parse_throws p) as T. unfold parse_json in *.
  destruct (parse_json_fuel _ p) as [[v q]|e] eqn:E.
  - split; [exact A|exact (parse_wf _ p v q E)].
  - destruct A as (q & (pre & Hp) & Hq & He). split; [exact T|].
    destruct Hq as [Hq|(c & r & -> & Hc)]; [|exists pre, c, r; auto].
    destruct q as [|c r]; [discriminate|]. apply Ascii.eqb_eq in Hq. subst c. exists pre, "-"%char, r. auto.
Qed.

(** Malformed numbers are not read as null: the parser lets the exception
    of [std::stod] escape. *)
Theorem json_malformed_throws :
  parse_json_str "[-]" = Throw InvalidArgument /\ parse_json_str "[1e999]" = Throw OutOfRange.
Proof. split; vm_compute; reflexivity. Qed.
