(* ===== verification/TwRebac.v ===== *)
(** taskweft_nif/standalone/tw_rebac.hpp: the relation graph and its queries.

    Edges are kept in a vector with two indices, from subjects and from objects
    to edge positions, and the positions of the membership edges.  Recursion is
    bounded by the code's own fuel and depth arguments. *)

From Stdlib Require Import ZArith String Ascii List Bool Lia.
From S2P Require Import Prelude OrderedMap TwValue TwJson.
Import ListNotations.
#[local] Open Scope Z_scope.
#[local] Open Scope string_scope.
#[local] Open Scope tw_scope.

Inductive RelationType :=
| HAS_CAPABILITY | CONTROLS | OWNS | IS_MEMBER_OF | DELEGATED_TO | SUPERVISOR_OF | PARTNER_OF | UNKNOWN.

Definition rel_eqb (a b : RelationType) : bool :=
  match a, b with
  | HAS_CAPABILITY, HAS_CAPABILITY | CONTROLS, CONTROLS | OWNS, OWNS | IS_MEMBER_OF, IS_MEMBER_OF
  | DELEGATED_TO, DELEGATED_TO | SUPERVISOR_OF, SUPERVISOR_OF | PARTNER_OF, PARTNER_OF | UNKNOWN, UNKNOWN => true
  | _, _ => false
  end.

Definition parse_rel (s : string) : RelationType :=
  if s =? "HAS_CAPABILITY" then HAS_CAPABILITY
  else if s =? "CONTROLS" then CONTROLS
  else if s =? "OWNS" then OWNS
  else if s =? "IS_MEMBER_OF" then IS_MEMBER_OF
  else if s =? "DELEGATED_TO" then DELEGATED_TO
  else if s =? "SUPERVISOR_OF" then SUPERVISOR_OF
  else if s =? "PARTNER_OF" then PARTNER_OF
  else UNKNOWN.

Definition rel_str (r : RelationType) : string :=
  match r with
  | HAS_CAPABILITY => "HAS_CAPABILITY" | CONTROLS => "CONTROLS" | OWNS => "OWNS" | IS_MEMBER_OF => "IS_MEMBER_OF"
  | DELEGATED_TO => "DELEGATED_TO" | SUPERVISOR_OF => "SUPERVISOR_OF" | PARTNER_OF => "PARTNER_OF" | UNKNOWN => "UNKNOWN"
  end.

Record TwEdge := mkEdge { subject : string; object : string; rel : RelationType; rel_name : string }.

Record TwReBACGraph := mkGraph {
  edges : list TwEdge;
  subj_idx : dict (list nat);
  obj_idx : dict (list nat);
  member_edges : list nat;
  definitions : Dict
}.

Definition empty_graph : TwReBACGraph := mkGraph [] [] [] [] [].

(** [m[k].push_back(i)]. *)
Definition idx_push (k : string) (i : nat) (m : dict (list nat)) : dict (list nat) :=
  dict_set k (match dict_find k m with Some l => l | None => [] end ++ [i])%list m.

Definition add_edge (g : TwReBACGraph) (subj obj rel_str : string) : TwReBACGraph :=
  let idx := List.length (edges g) in
  let e := mkEdge subj obj (parse_rel rel_str) rel_str in
  mkGraph (edges g ++ [e])%list
    (idx_push subj idx (subj_idx g)) (idx_push obj idx (obj_idx g))
    (if rel_eqb (rel e) IS_MEMBER_OF then member_edges g ++ [idx] else member_edges g)%list
    (definitions g).

Definition add_edge_rel (g : TwReBACGraph) (subj obj : string) (r : RelationType) : TwReBACGraph :=
  add_edge g subj obj (rel_str r).

Definition define (g : TwReBACGraph) (name : string) (expr : TwValue) : TwReBACGraph :=
  mkGraph (edges g) (subj_idx g) (obj_idx g) (member_edges g) (dict_set name expr (definitions g)).

(** The edges at the indices a lookup finds; [None] when it finds no entry. *)
Definition at_indices (g : TwReBACGraph) (l : list nat) : list TwEdge :=
  flat_map (fun i => match nth_error (edges g) i with Some e => [e] | None => [] end) l.
Definition edges_from (g : TwReBACGraph) (s : string) : option (list TwEdge) :=
  option_map (at_indices g) (dict_find s (subj_idx g)).
Definition edges_to (g : TwReBACGraph) (o : string) : option (list TwEdge) :=
  option_map (at_indices g) (dict_find o (obj_idx g)).

(** Built-in relations match by enumerator, the others by name. *)
Definition rel_match (r : RelationType) (name : string) (e : TwEdge) : bool :=
  if negb (rel_eqb r UNKNOWN) then rel_eqb (rel e) r else rel_name e =? name.

Definition base_expr (name : string) : TwValue := DICT [("type", STRING "base"); ("rel", STRING name)].

(** [check_base] calls [check_expr] with one unit of fuel less. *)
Definition check_base (check_expr : string -> TwValue -> string -> bool)
    (g : TwReBACGraph) (subj : string) (r : RelationType) (name obj : string) : bool :=
  (match edges_from g subj with
   | Some es =>
       existsb (fun e => rel_match r name e && (object e =? obj)) es ||
       existsb (fun e => rel_eqb (rel e) IS_MEMBER_OF && check_expr (object e) (base_expr name) obj) es
   | None => false
   end) ||
  (rel_eqb r CONTROLS &&
   match edges_to g subj with
   | Some es => existsb (fun e => rel_eqb (rel e) DELEGATED_TO && (subject e =? obj)) es
   | None => false
   end).

Fixpoint check_expr (g : TwReBACGraph) (fuel : nat) (subj : string) (expr : TwValue) (obj : string) : bool :=
  match fuel, expr with
  | S fuel', DICT m =>
      match dict_find "type" m with
      | None => false
      | Some t =>
          let ty := as_string t in
          let both (op : bool -> bool -> bool) :=
            match dict_find "a" m, dict_find "b" m with
            | Some a, Some b => op (check_expr g fuel' subj a obj) (check_expr g fuel' subj b obj)
            | _, _ => false
            end in
          if ty =? "base" then
            match dict_find "rel" m with
            | None => false
            | Some r => check_base (check_expr g fuel') g subj (parse_rel (as_string r)) (as_string r) obj
            end
          else if ty =? "union" then both orb
          else if ty =? "intersection" then both andb
          else if ty =? "difference" then both (fun x y => x && negb y)
          else if ty =? "tuple_to_userset" then
            match dict_find "pivot_rel" m, dict_find "inner" m with
            | Some p, Some inner =>
                match edges_from g subj with
                | None => false
                | Some es =>
                    existsb (fun e => rel_eqb (rel e) (parse_rel (as_string p)) &&
                                      check_expr g fuel' (object e) inner obj) es
                end
            | _, _ => false
            end
          else false
      end
  | _, _ => false
  end.

Definition check_base_str (g : TwReBACGraph) (subj name obj : string) (fuel : nat) : bool :=
  match fuel with
  | O => false
  | S f => check_base (check_expr g f) g subj (parse_rel name) name obj
  end.

(** [unordered_set::insert]. *)
Definition set_insert (s : string) (l : list string) : list string :=
  if existsb (String.eqb s) l then l else (l ++ [s])%list.

(** The holders of a relation to an object; the order of the result is the
    set's, which the standard leaves open. *)
Definition tw_expand (g : TwReBACGraph) (name obj : string) (fuel : nat) : list string :=
  let r := parse_rel name in
  let direct := match edges_to g obj with
    | Some es => fold_left (fun res e => if rel_match r name e then set_insert (subject e) res else res) es []
    | None => []
    end in
  if (0 <? fuel)%nat then
    fold_left (fun res e => if check_expr g fuel (object e) (base_expr name) obj then set_insert (subject e) res else res)
      (at_indices g (member_edges g)) direct
  else direct.

(** [_rebac_dfs]: the path when the target is reached.  [visited] is copied for
    every branch. *)
Fixpoint rebac_dfs (g : TwReBACGraph) (depth : nat) (current target : string) (visited : list string)
    : option (list string) :=
  match depth with
  | O => None
  | S d =>
      if current =? target then Some [current]
      else if existsb (String.eqb current) visited then None
      else
        let visited := current :: visited in
        match edges_from g current with
        | None => None
        | Some es =>
            match find (fun e => (object e =? target) &&
                     (rel_eqb (rel e) HAS_CAPABILITY || rel_eqb (rel e) CONTROLS || rel_eqb (rel e) OWNS)) es with
            | Some e => Some [current; "[" ++ rel_name e ++ "]"; target]
            | None =>
                (fix hops (l : list TwEdge) : option (list string) :=
                   match l with
                   | [] => None
                   | e :: l' =>
                       match rebac_dfs g d (object e) target visited with
                       | Some sub => Some (current :: ("[" ++ rel_name e ++ "]") :: List.tl sub)
                       | None => hops l'
                       end
                   end) es
            end
        end
  end.

Definition rebac_can (g : TwReBACGraph) (subj capability : string) (max_depth : nat) : bool * list string :=
  match rebac_dfs g max_depth subj capability [] with
  | Some path => (true, path)
  | None => (false, [])
  end.

Definition rebac_can_json (g : TwReBACGraph) (subj capability : string) (max_depth : nat) : string :=
  let '(found, path) := rebac_can g subj capability max_depth in
  String "{" (escape_string "authorized" ++ ":" ++ (if found then "true" else "false") ++ "," ++
    escape_string "path" ++ ":[" ++ String.concat "," (map escape_string path) ++ "]}").

Definition get_entity_capabilities (g : TwReBACGraph) (entity : string) : list string :=
  match edges_from g entity with
  | None => []
  | Some es => map object (filter (fun e => rel_eqb (rel e) HAS_CAPABILITY) es)
  end.

Definition get_entities_with_capability (g : TwReBACGraph) (capability : string) : list string :=
  match edges_to g capability with
  | None => []
  | Some es => map subject (filter (fun e => rel_eqb (rel e) HAS_CAPABILITY) es)
  end.

(** * JSON *)

Definition add_json_edge (g : TwReBACGraph) (ev : TwValue) : TwReBACGraph :=
  match ev with
  | DICT em =>
      match dict_find "subject" em, dict_find "object" em, dict_find "rel" em with
      | Some s, Some o, Some r => add_edge g (as_string s) (as_string o) (as_string r)
      | _, _, _ => g
      end
  | _ => g
  end.

Definition graph_of_value (root : TwValue) : TwReBACGraph :=
  match root with
  | DICT m =>
      let g := match dict_find "edges" m with
               | Some (ARRAY a) => fold_left add_json_edge a empty_graph
               | _ => empty_graph
               end in
      match dict_find "definitions" m with
      | Some (DICT d) => fold_left (fun g kv => define g (fst kv) (snd kv)) d g
      | _ => g
      end
  | _ => empty_graph
  end.

Definition graph_from_json (json : string) : res TwReBACGraph :=
  do root <- parse_json_str json; Ok (graph_of_value root).

Definition edge_to_json (e : TwEdge) : string :=
  String "{" (escape_string "subject" ++ ":" ++ escape_string (subject e) ++
    "," ++ escape_string "object" ++ ":" ++ escape_string (object e) ++
    "," ++ escape_string "rel" ++ ":" ++ escape_string (rel_name e) ++ "}").

Definition graph_to_json (g : TwReBACGraph) : string :=
  String "{" (escape_string "edges" ++ ":[" ++ String.concat "," (map edge_to_json (edges g)) ++
    "]," ++ escape_string "definitions" ++ ":{" ++
    String.concat "," (map (fun kv => escape_string (fst kv) ++ ":" ++ to_json (snd kv)) (definitions g)) ++ "}}").
