(* ===== verification/TwRebacProofs.v ===== *)
(** tw_rebac.hpp: the indices agree with the edges, the bounded queries decide
    the relations they stand for, and graphs survive their JSON form. *)

From Stdlib Require Import ZArith String Ascii List Bool Lia.
From S2P Require Import Prelude OrderedMap TwValue TwJson TwJsonProofs TwRebac.
Import ListNotations.
#[local] Open Scope string_scope.
#[local] Open Scope list_scope.
#[local] Open Scope tw_scope.

(** * Graphs built by the interface *)

Inductive built : TwReBACGraph -> Prop :=
| built_empty : built empty_graph
| built_edge g s o r : built g -> built (add_edge g s o r)
| built_define g n v : built g -> built (define g n v).

Lemma rel_eqb_spec a b : reflect (a = b) (rel_eqb a b).
Proof. destruct a, b; cbn; constructor; congruence. Qed.

Lemma parse_rel_str r : r <> UNKNOWN -> parse_rel (rel_str r) = r.
Proof. destruct r; (reflexivity || congruence). Qed.

(** The edges a test selects, by position. *)
Definition positions (f : TwEdge -> bool) (es : list TwEdge) : list nat :=
  filter (fun i => match nth_error es i with Some e => f e | None => false end) (seq 0 (List.length es)).

Lemma positions_snoc f es e : positions f (es ++ [e]) = positions f es ++ (if f e then [List.length es] else []).
Proof.
  unfold positions. rewrite length_app, Nat.add_1_r, seq_S, filter_app. cbn [filter Nat.add].
  rewrite nth_error_app2, Nat.sub_diag by lia. cbn [nth_error].
  f_equal. apply filter_ext_in. intros i Hi. apply in_seq in Hi.
  now rewrite nth_error_app1 by lia.
Qed.

(** What an index entry holds: the positions, or no entry when there are none. *)
Definition indexes (key : TwEdge -> string) (es : list TwEdge) (m : dict (list nat)) : Prop :=
  forall k, dict_find k m = match positions (fun e => key e =? k) es with [] => None | l => Some l end.

Lemma indexes_push key es m e : indexes key es m -> indexes key (es ++ [e]) (idx_push (key e) (List.length es) m).
Proof.
  intros H k. unfold idx_push. rewrite dict_find_set, positions_snoc.
  rewrite String.eqb_sym. destruct (String.eqb_spec (key e) k) as [<-|N].
  - rewrite (H (key e)). destruct (positions _ es) as [|i l]; reflexivity.
  - rewrite app_nil_r. apply H.
Qed.

Record graph_ok (g : TwReBACGraph) : Prop := {
  ok_subj : indexes subject (edges g) (subj_idx g);
  ok_obj : indexes object (edges g) (obj_idx g);
  ok_member : member_edges g = positions (fun e => rel_eqb (rel e) IS_MEMBER_OF) (edges g);
  ok_rel : Forall (fun e => rel e = parse_rel (rel_name e)) (edges g);
  ok_def : NoDup (keys (definitions g))
}.

Lemma built_ok g : built g -> graph_ok g.
Proof.
  induction 1 as [|g s o r _ [H1 H2 H3 H4 H5]|g n v _ [H1 H2 H3 H4 H5]].
  - split; [intros k; reflexivity|intros k; reflexivity|reflexivity|constructor|constructor].
  - set (e := mkEdge s o (parse_rel r) r). split; cbn [edges subj_idx obj_idx member_edges definitions add_edge].
    + apply (indexes_push subject (edges g) (subj_idx g) e H1).
    + apply (indexes_push object (edges g) (obj_idx g) e H2).
    + rewrite positions_snoc. fold e. rewrite H3. destruct (rel_eqb (rel e) IS_MEMBER_OF); [reflexivity|now rewrite app_nil_r].
    + apply Forall_app. split; [exact H4|repeat constructor].
    + exact H5.
  - split; auto. cbn [definitions define]. now apply dict_set_NoDup.
Qed.

Lemma at_positions g f : at_indices g (positions f (edges g)) = filter f (edges g).
Proof.
  unfold at_indices, positions. generalize (edges g) as es. intros es.
  induction es as [|e es IH] using rev_ind; [reflexivity|].
  rewrite length_app, Nat.add_1_r, seq_S, !filter_app, flat_map_app. f_equal.
  - rewrite <- IH. rewrite !flat_map_concat_map. f_equal.
    erewrite filter_ext_in; [apply map_ext_in|].
    + intros i Hi. apply filter_In in Hi as [Hi _]. apply in_seq in Hi. now rewrite nth_error_app1 by lia.
    + intros i Hi. apply in_seq in Hi. now rewrite nth_error_app1 by lia.
  - cbn [filter Nat.add]. rewrite nth_error_app2, Nat.sub_diag by lia. cbn [nth_error].
    destruct (f e); cbn [flat_map]; [|reflexivity].
    rewrite nth_error_app2, Nat.sub_diag by lia. reflexivity.
Qed.

Lemma existsb_indexed (key : TwEdge -> string) g m k (f : TwEdge -> bool) : indexes key (edges g) m ->
  match option_map (at_indices g) (dict_find k m) with Some es => existsb f es | None => false end =
  existsb (fun e => (key e =? k) && f e) (edges g).
Proof.
  intros H. rewrite H. assert (E : existsb f (filter (fun e => key e =? k) (edges g)) = existsb (fun e => (key e =? k) && f e) (edges g)).
  { clear H. induction (edges g) as [|e es IH]; [reflexivity|]. cbn [filter existsb]. destruct (key e =? k); cbn [existsb andb orb]; rewrite ?IH; reflexivity. }
  rewrite <- E, <- at_positions. destruct (positions _ _); reflexivity.
Qed.

(** * Base relations: membership chains *)

Section Chains.
Variable g : TwReBACGraph.

(** [subj] reaches [x] through [n] membership edges. *)
Inductive member_chain : nat -> string -> string -> Prop :=
| chain_refl s : member_chain 0 s s
| chain_step n e x : In e (edges g) -> rel e = IS_MEMBER_OF -> member_chain n (object e) x ->
    member_chain (S n) (subject e) x.

(** [x] itself holds the relation [name] to [obj]: an edge says so, or for
    CONTROLS the object delegated to [x]. *)
Definition holds (name x obj : string) : Prop :=
  (exists e, In e (edges g) /\ subject e = x /\ object e = obj /\ rel_match (parse_rel name) name e = true) \/
  (parse_rel name = CONTROLS /\ exists e, In e (edges g) /\ object e = x /\ subject e = obj /\ rel e = DELEGATED_TO).

Definition granted (fuel : nat) (name subj obj : string) : Prop :=
  exists n x, n < fuel /\ member_chain n subj x /\ holds name x obj.

Hypothesis OK : graph_ok g.

Lemma check_base_iff (check : string -> TwValue -> string -> bool) subj name obj :
  check_base check g subj (parse_rel name) name obj = true <->
  holds name subj obj \/
  exists e, In e (edges g) /\ subject e = subj /\ rel e = IS_MEMBER_OF /\ check (object e) (base_expr name) obj = true.
Proof.
  unfold check_base, edges_from, edges_to, holds.
  assert (E : forall (f h : TwEdge -> bool), match option_map (at_indices g) (dict_find subj (subj_idx g)) with
     | Some es => existsb f es || existsb h es | None => false end =
     existsb (fun e => (subject e =? subj) && f e) (edges g) || existsb (fun e => (subject e =? subj) && h e) (edges g)).
  { intros f h. rewrite <- !(existsb_indexed subject g (subj_idx g) subj _ (ok_subj g OK)).
    destruct (option_map _ _); reflexivity. }
  rewrite E, (existsb_indexed object g (obj_idx g) subj _ (ok_obj g OK)). clear E.
  rewrite !orb_true_iff, andb_true_iff, !existsb_exists. 
  setoid_rewrite andb_true_iff. setoid_rewrite andb_true_iff. setoid_rewrite String.eqb_eq.
  assert (RE : forall a b, rel_eqb a b = true <-> a = b) by (intros a b; destruct (rel_eqb_spec a b); intuition congruence).
  setoid_rewrite RE. firstorder.
Qed.

Lemma check_expr_base fuel subj name obj :
  check_expr g (S fuel) subj (base_expr name) obj = check_base (check_expr g fuel) g subj (parse_rel name) name obj.
Proof. reflexivity. Qed.

Lemma check_granted fuel : forall subj name obj, check_expr g fuel subj (base_expr name) obj = true <-> granted fuel name subj obj.
Proof.
  induction fuel as [|fuel IH]; intros subj name obj.
  { split; [discriminate|]. intros (n & x & Hn & _). lia. }
  rewrite check_expr_base, check_base_iff. split.
  - intros [H|(e & He & <- & Hr & H)]; [exists 0, subj; repeat split; [lia|constructor|exact H]|].
    apply IH in H as (n & x & Hn & Hc & Hh). exists (S n), x. repeat split; [lia| |exact Hh].
    now econstructor.
  - intros (n & x & Hn & Hc & Hh). destruct Hc as [s|n e x He Hr Hc]; [auto|]. right.
    exists e. repeat split; auto. apply IH. exists n, x. repeat split; auto. lia.
Qed.
End Chains.

(** * Expansion *)

Lemma set_insert_in s l x : In x (set_insert s l) <-> x = s \/ In x l.
Proof.
  unfold set_insert. destruct (existsb (String.eqb s) l) eqn:E.
  - apply existsb_exists in E as (y & Hy & E). apply String.eqb_eq in E as <-. intuition congruence.
  - rewrite in_app_iff. cbn [In]. intuition congruence.
Qed.

Lemma set_insert_NoDup s l : NoDup l -> NoDup (set_insert s l).
Proof.
  intros H. unfold set_insert. destruct (existsb (String.eqb s) l) eqn:E; [exact H|].
  apply NoDup_app; [exact H|repeat constructor; auto|]. intros x Hx [->|[]].
  assert (existsb (String.eqb x) l = true); [|congruence]. apply existsb_exists. exists x. split; [exact Hx|apply String.eqb_refl].
Qed.

Lemma fold_insert (f : TwEdge -> bool) es : forall acc, NoDup acc ->
  let r := fold_left (fun res e => if f e then set_insert (subject e) res else res) es acc in
  NoDup r /\ forall x, In x r <-> In x acc \/ exists e, In e es /\ f e = true /\ subject e = x.
Proof.
  induction es as [|e es IH]; intros acc H; cbn [fold_left]; [split; [exact H|]; firstorder|].
  destruct (IH (if f e then set_insert (subject e) acc else acc)) as [N I].
  { destruct (f e); [now apply set_insert_NoDup|exact H]. }
  split; [exact N|]. intros x. rewrite I. cbn [In]. destruct (f e) eqn:E.
  - rewrite set_insert_in. split; [intros [[->|?]|?]|intros [?|(e' & [->|?] & ? & ?)]]; firstorder.
  - split; [firstorder|]. intros [?|(e' & [<-|?] & ? & ?)]; [auto|congruence|firstorder].
Qed.

Lemma tw_expand_iff g name obj fuel : graph_ok g ->
  NoDup (tw_expand g name obj fuel) /\
  forall x, In x (tw_expand g name obj fuel) <->
    (exists e, In e (edges g) /\ subject e = x /\ object e = obj /\ rel_match (parse_rel name) name e = true) \/
    (exists e, In e (edges g) /\ subject e = x /\ rel e = IS_MEMBER_OF /\ granted g fuel name (object e) obj).
Proof.
  intros OK. unfold tw_expand.
  set (direct := match edges_to g obj with Some _ => _ | None => _ end).
  assert (D : NoDup direct /\ forall x, In x direct <->
    exists e, In e (edges g) /\ subject e = x /\ object e = obj /\ rel_match (parse_rel name) name e = true).
  { unfold direct, edges_to. pose proof (ok_obj g OK obj) as Ed.
    pose proof (at_positions g (fun e => object e =? obj)) as A.
    assert (R : forall l, l = filter (fun e => object e =? obj) (edges g) ->
      let r := fold_left (fun res e => if rel_match (parse_rel name) name e then set_insert (subject e) res else res) l [] in
      NoDup r /\ forall x, In x r <-> exists e, In e (edges g) /\ subject e = x /\ object e = obj /\ rel_match (parse_rel name) name e = true).
    { intros l ->. destruct (fold_insert (rel_match (parse_rel name) name) (filter (fun e => object e =? obj) (edges g)) [] (NoDup_nil _)) as [N I].
      split; [exact N|]. intros x. rewrite I. setoid_rewrite filter_In. setoid_rewrite String.eqb_eq. firstorder. }
    destruct (positions _ _) as [|i l]; rewrite Ed; cbn [option_map]; [apply (R []); rewrite <- A; reflexivity|apply R, A]. }
  destruct D as [DN DI]. destruct (Nat.ltb_spec 0 fuel) as [L|L].
  - rewrite (ok_member g OK), at_positions.
    destruct (fold_insert (fun e => check_expr g fuel (object e) (base_expr name) obj)
      (filter (fun e => rel_eqb (rel e) IS_MEMBER_OF) (edges g)) direct DN) as [N I].
    split; [exact N|]. intros x. rewrite I, DI. setoid_rewrite filter_In.
    setoid_rewrite (check_granted g OK). split; (intros [?|H]; [auto|right]).
    + destruct H as (e & [He Hr] & Hg & Hs). destruct (rel_eqb_spec (rel e) IS_MEMBER_OF); [eauto 6|discriminate].
    + destruct H as (e & He & Hs & Hr & Hg). exists e. repeat split; auto. now rewrite Hr.
  - split; [exact DN|]. intros x. rewrite DI. split; [auto|]. intros [?|(e & _ & _ & _ & n & y & Hn & _)]; [auto|lia].
Qed.

(** * Capability traversal *)

Definition terminal (e : TwEdge) : bool :=
  rel_eqb (rel e) HAS_CAPABILITY || rel_eqb (rel e) CONTROLS || rel_eqb (rel e) OWNS.

Section Traversal.
Variable g : TwReBACGraph.
Variable target : string.
Hypothesis OK : graph_ok g.

(** [n] hops over edges of any kind lead to the target itself, or to an entity
    with a terminal edge to it. *)
Inductive access : nat -> string -> Prop :=
| access_here : access 0 target
| access_edge e : In e (edges g) -> terminal e = true -> object e = target -> access 0 (subject e)
| access_hop n e : In e (edges g) -> access n (object e) -> access (S n) (subject e).

Fixpoint accessb (n : nat) (c : string) : bool :=
  match n with
  | O => (c =? target) || existsb (fun e => (subject e =? c) && ((object e =? target) && terminal e)) (edges g)
  | S n => existsb (fun e => (subject e =? c) && accessb n (object e)) (edges g)
  end.

Lemma accessb_iff n : forall c, accessb n c = true <-> access n c.
Proof.
  induction n as [|n IH]; intros c; cbn [accessb].
  - rewrite orb_true_iff, existsb_exists. setoid_rewrite andb_true_iff. setoid_rewrite andb_true_iff.
    setoid_rewrite String.eqb_eq. split.
    + intros [->|(e & He & <- & Ho & Ht)]; [constructor|now constructor].
    + inversion 1; subst; [auto|right; eauto].
  - rewrite existsb_exists. setoid_rewrite andb_true_iff. setoid_rewrite String.eqb_eq. setoid_rewrite IH. split.
    + intros (e & He & <- & Ha). now constructor.
    + inversion 1; subst; eauto.
Qed.

Lemma least_access n c : accessb n c = true ->
  exists m, m <= n /\ accessb m c = true /\ forall k, k < m -> accessb k c = false.
Proof.
  induction n as [n IH] using lt_wf_ind. intros H.
  destruct (existsb (fun k => accessb k c) (seq 0 n)) eqn:E.
  - apply existsb_exists in E as (k & Hk & Ek). apply in_seq in Hk. destruct (IH k ltac:(lia) Ek) as (m & Hm & Hr).
    exists m. split; [lia|exact Hr].
  - exists n. repeat split; auto. intros k Hk. destruct (accessb k c) eqn:F; [|reflexivity].
    assert (existsb (fun k => accessb k c) (seq 0 n) = true); [|congruence].
    apply existsb_exists. exists k. split; [apply in_seq; lia|exact F].
Qed.

(** The edges of the current entity, as the traversal finds them. *)
Lemma edges_from_filter c :
  match edges_from g c with Some es => es = filter (fun e => subject e =? c) (edges g) | None => filter (fun e => subject e =? c) (edges g) = [] end.
Proof.
  unfold edges_from. rewrite (ok_subj g OK). rewrite <- (at_positions g (fun e => subject e =? c)).
  destruct (positions _ _); reflexivity.
Qed.

Lemma in_from c e : In e (filter (fun e => subject e =? c) (edges g)) <-> In e (edges g) /\ subject e = c.
Proof. now rewrite filter_In, String.eqb_eq. Qed.

Definition hops (d : nat) (c : string) (visited : list string) :=
  fix hops (l : list TwEdge) : option (list string) :=
    match l with
    | [] => None
    | e :: l' =>
        match rebac_dfs g d (object e) target visited with
        | Some sub => Some (c :: ("[" ++ rel_name e ++ "]")%string :: List.tl sub)
        | None => hops l'
        end
    end.

Lemma hops_some d c V l : hops d c V l <> None <-> exists e, In e l /\ rebac_dfs g d (object e) target V <> None.
Proof.
  induction l as [|e l IH]; cbn [hops]; [split; [congruence|intros (e & [] & _)]|].
  destruct (rebac_dfs g d (object e) target V) as [s|] eqn:E.
  - split; [intros _; exists e; split; [now left|congruence]|congruence].
  - rewrite IH. split; [intros (e' & H & N); exists e'; split; [now right|exact N]|].
    intros (e' & [<-|H] & N); [congruence|eauto].
Qed.

Lemma dfs_unfold d c V :
  rebac_dfs g (S d) c target V <> None <->
  c = target \/ ~ In c V /\
    ((exists e, In e (edges g) /\ subject e = c /\ object e = target /\ terminal e = true) \/
     (exists e, In e (edges g) /\ subject e = c /\ rebac_dfs g d (object e) target (c :: V) <> None)).
Proof.
  cbn [rebac_dfs]. destruct (String.eqb_spec c target) as [->|N]; [split; [auto|discriminate]|].
  destruct (existsb (String.eqb c) V) eqn:EV.
  - apply existsb_exists in EV as (x & Hx & E). apply String.eqb_eq in E as <-. split; [congruence|tauto].
  - assert (NV : ~ In c V).
    { intros H. assert (existsb (String.eqb c) V = true); [|congruence]. apply existsb_exists. exists c. split; [exact H|apply String.eqb_refl]. }
    pose proof (edges_from_filter c) as F.
    assert (R : forall (P : TwEdge -> Prop), (exists e, In e (filter (fun e => subject e =? c) (edges g)) /\ P e) <->
      (exists e, In e (edges g) /\ subject e = c /\ P e)).
    { intros P. setoid_rewrite in_from. firstorder. }
    assert (R1 := R (fun e => object e = target /\ terminal e = true)).
    assert (R2 := R (fun e => rebac_dfs g d (object e) target (c :: V) <> None)). cbv beta in R1, R2.
    rewrite <- R1, <- R2. destruct (edges_from g c) as [es|].
    + rewrite <- F. change (find _ es) with (find (fun e => (object e =? target) && terminal e) es).
      destruct (find _ es) as [e|] eqn:Ef.
      * apply find_some in Ef as [He Hp]. apply andb_true_iff in Hp as [Ho Ht]. apply String.eqb_eq in Ho.
        split; [|discriminate]. intros _. right. split; [exact NV|]. left. eauto.
      * fold (hops d c (c :: V)). rewrite hops_some. split; [auto|]. intros [?|[_ [(e & He & Ho & Ht)|H]]]; [congruence| |exact H].
        pose proof (find_none _ _ Ef e He) as X. cbv beta in X. rewrite Ho, String.eqb_refl, Ht in X. discriminate.
    + rewrite F. split; [congruence|]. intros [?|[_ [(e & [] & _)|(e & [] & _)]]]; congruence.
Qed.

Lemma dfs_sound d : forall c V, rebac_dfs g d c target V <> None -> exists n, n < d /\ access n c.
Proof.
  induction d as [|d IH]; intros c V H; [now cbn in H|]. apply dfs_unfold in H as [->|[_ [(e & He & <- & Ho & Ht)|(e & He & <- & H)]]].
  - exists 0. split; [lia|constructor].
  - exists 0. split; [lia|now constructor].
  - apply IH in H as (n & Hn & Ha). exists (S n). split; [lia|now constructor].
Qed.

Lemma dfs_complete n : forall d c V, n < d -> accessb n c = true -> (forall k, k < n -> accessb k c = false) ->
  (forall v k, In v V -> k <= n -> accessb k v = false) -> rebac_dfs g d c target V <> None.
Proof.
  induction n as [n IH] using lt_wf_ind. intros [|d] c V Hd Ha Hmin HV; [lia|]. apply dfs_unfold.
  assert (NV : ~ In c V) by (intros H; rewrite (HV c n H (le_n _)) in Ha; discriminate).
  pose proof Ha as A. apply accessb_iff in A. destruct A as [|e He Ht Ho|n e He A]; [auto| |].
  - right. split; [exact NV|]. left. eauto.
  - right. split; [exact NV|]. right. exists e. repeat split; auto. apply accessb_iff in A.
    destruct (least_access n (object e) A) as (m & Hm & Am & Hl).
    apply (IH m); [lia|lia|exact Am|exact Hl|]. intros v k [<-|Hv] Hk; [apply Hmin; lia|apply HV; [exact Hv|lia]].
Qed.

Lemma dfs_iff d c : rebac_dfs g d c target [] <> None <-> exists n, n < d /\ access n c.
Proof.
  split; [apply dfs_sound|]. intros (n & Hn & A). apply accessb_iff in A.
  destruct (least_access n c A) as (m & Hm & Am & Hl). apply (dfs_complete m); auto; [lia|]. intros v k [].
Qed.
End Traversal.

(** * The JSON form *)

Definition edge_value (e : TwEdge) : TwValue :=
  DICT [("subject", STRING (subject e)); ("object", STRING (object e)); ("rel", STRING (rel_name e))].

Definition graph_value (g : TwReBACGraph) : TwValue :=
  DICT [("edges", ARRAY (map edge_value (edges g))); ("definitions", DICT (definitions g))].

Lemma edge_json e : edge_to_json e = to_json (edge_value e).
Proof. unfold edge_to_json, edge_value. cbn [to_json map fst snd String.concat]. autorewrite with strdb. reflexivity. Qed.

Lemma graph_json g : graph_to_json g = to_json (graph_value g).
Proof.
  unfold graph_to_json, graph_value. cbn [to_json map fst snd String.concat]. rewrite map_map.
  rewrite (map_ext _ _ edge_json). autorewrite with strdb. reflexivity.
Qed.

Definition with_defs (g : TwReBACGraph) (d : Dict) : TwReBACGraph :=
  mkGraph (edges g) (subj_idx g) (obj_idx g) (member_edges g) d.

Definition rebuild (es : list TwEdge) : TwReBACGraph :=
  fold_left (fun g e => add_edge g (subject e) (object e) (rel_name e)) es empty_graph.

Lemma built_rebuild g : built g -> g = with_defs (rebuild (edges g)) (definitions g).
Proof.
  induction 1 as [|g s o r _ IH|g n v _ IH]; [reflexivity| |].
  - cbn [edges definitions add_edge]. unfold rebuild. rewrite fold_left_app. cbn [fold_left subject object rel_name].
    fold (rebuild (edges g)). rewrite IH at 1. unfold with_defs, add_edge. cbn [edges subj_idx obj_idx member_edges definitions].
    assert (E : edges (rebuild (edges g)) = edges g) by (rewrite IH at 2; reflexivity). now rewrite !E.
  - cbn [edges definitions define]. unfold define. rewrite IH at 1 2 3 4. reflexivity.
Qed.

Lemma fold_define d : forall g, NoDup (keys (definitions g ++ d)) ->
  fold_left (fun g kv => define g (fst kv) (snd kv)) d g = with_defs g (definitions g ++ d).
Proof.
  induction d as [|[k v] d IH]; intros g ND; cbn [fold_left fst snd].
  - rewrite app_nil_r. destruct g; reflexivity.
  - rewrite IH; cbn [definitions define].
    + rewrite dict_set_new, <- app_assoc; [reflexivity|].
      unfold keys in ND. rewrite map_app in ND. apply NoDup_remove_2 in ND. intros H. apply ND, in_or_app. auto.
    + rewrite dict_set_new, <- app_assoc; [exact ND|].
      unfold keys in ND. rewrite map_app in ND. apply NoDup_remove_2 in ND. intros H. apply ND, in_or_app. auto.
Qed.

Lemma fold_json_edges es : forall g, fold_left add_json_edge (map edge_value es) g =
  fold_left (fun g e => add_edge g (subject e) (object e) (rel_name e)) es g.
Proof. induction es as [|e es IH]; intros g; [reflexivity|]. cbn [map fold_left]. apply IH. Qed.

Lemma graph_value_back g : built g -> graph_of_value (graph_value g) = g.
Proof.
  intros B. unfold graph_value, graph_of_value. cbn [dict_find String.eqb Ascii.eqb Bool.eqb].
  rewrite fold_json_edges. fold (rebuild (edges g)). pose proof (ok_def g (built_ok g B)) as ND.
  rewrite fold_define.
  - replace (definitions (rebuild (edges g))) with (@nil (string * TwValue)); [|].
    + cbn [app]. symmetry. now apply built_rebuild.
    + unfold rebuild. induction (edges g) as [|e es IH] using rev_ind; [reflexivity|]. rewrite fold_left_app. exact IH.
  - replace (definitions (rebuild (edges g))) with (@nil (string * TwValue)); [exact ND|].
    unfold rebuild. clear ND. induction (edges g) as [|e es IH] using rev_ind; [reflexivity|]. rewrite fold_left_app. exact IH.
Qed.

(** * Theorems *)

(** C15: a check of a base relation is true exactly when a chain of fewer than
    [fuel] membership edges leads from the subject to an entity that an edge,
    or for CONTROLS a delegation back, relates to the object; more fuel never
    takes a relation away. *)
Theorem check_base_correct (g : TwReBACGraph) (B : built g) (fuel : nat) (subj name obj : string) :
  (check_base_str g subj name obj fuel = true <-> granted g fuel name subj obj) /\
  (forall fuel', fuel <= fuel' -> check_base_str g subj name obj fuel = true ->
     check_base_str g subj name obj fuel' = true).
Proof.
  assert (E : forall f, check_base_str g subj name obj f = check_expr g f subj (base_expr name) obj) by (intros [|f]; reflexivity).
  split; [rewrite E; apply check_granted, built_ok, B|]. intros fuel' L. rewrite !E, !(check_granted g (built_ok g B)).
  intros (n & x & Hn & H). exists n, x. split; [lia|exact H].
Qed.

(** Two users, the second a member of the first's team. *)
Definition team : TwReBACGraph :=
  add_edge (add_edge (add_edge empty_graph "bob" "team" "IS_MEMBER_OF") "team" "door" "OWNS") "bob" "eve" "PARTNER_OF".

Lemma team_built : built team.
Proof. repeat constructor. Qed.

Lemma check_base_witness : check_base_str team "bob" "OWNS" "door" 2 = true /\ granted team 2 "OWNS" "bob" "door".
Proof.
  split; [reflexivity|]. apply (proj1 (check_base_correct team team_built 2 "bob" "OWNS" "door")). reflexivity.
Defined.

(** The expansion of a relation lists without repetition the subjects that
    have it, following only the membership index: a subject is listed exactly
    when checking it with one more unit of fuel succeeds, except that for
    CONTROLS delegations are not expanded. *)
Theorem tw_expand_correct (g : TwReBACGraph) (B : built g) (name obj : string) (fuel : nat) (C : parse_rel name <> CONTROLS) :
  NoDup (tw_expand g name obj fuel) /\
  forall x, In x (tw_expand g name obj fuel) <-> check_expr g (S fuel) x (base_expr name) obj = true.
Proof.
  pose proof (built_ok g B) as OK. destruct (tw_expand_iff g name obj fuel OK) as [N I]. split; [exact N|].
  intros x. rewrite I, check_expr_base, check_base_iff by exact OK. setoid_rewrite (check_granted g OK). unfold holds.
  split; [intros [?|?]; auto|]. intros [[?|[? _]]|?]; auto. congruence.
Qed.

Lemma tw_expand_witness : In "bob" (tw_expand team "OWNS" "door" 3).
Proof. apply (tw_expand_correct team team_built "OWNS" "door" 3); [discriminate|reflexivity]. Defined.

(** C29: On a graph built by the graph's operations the capability traversal
    answers yes exactly when fewer than [max_depth] hops, over edges of any
    relation, lead from the subject to the target itself, or to an entity with a
    HAS_CAPABILITY, CONTROLS or OWNS edge to it: neither the visited set, which
    is copied for every branch, nor stopping at the first way found loses a
    path. *)
Theorem rebac_can_correct (g : TwReBACGraph) (B : built g) (subj capability : string) (max_depth : nat) :
  fst (rebac_can g subj capability max_depth) = true <->
  exists n, n < max_depth /\ access g capability n subj.
Proof.
  rewrite <- (dfs_iff g capability (built_ok g B)). unfold rebac_can.
  destruct (rebac_dfs g max_depth subj capability []); cbn; split; congruence.
Qed.

Lemma rebac_can_witness : exists n, n < 3 /\ access team "door" n "bob".
Proof. apply (rebac_can_correct team team_built "bob" "door" 3). reflexivity. Defined.

(** So the restriction of the last edge to HAS_CAPABILITY, CONTROLS and OWNS
    has no effect: being somebody's partner is enough, and the path reported
    leaves out the entities between the first and the last, and the target. *)
Theorem rebac_can_any_edge :
  rebac_can team "bob" "eve" 8 = (true, ["bob"; "[PARTNER_OF]"]) /\
  rebac_can team "bob" "door" 8 = (true, ["bob"; "[IS_MEMBER_OF]"; "[OWNS]"; "door"]).
Proof. split; reflexivity. Qed.

(** A banned user nine groups deep. *)
Definition nested : TwReBACGraph :=
  fold_left (fun g p => add_edge g (fst p) (snd p) "IS_MEMBER_OF")
    [("u", "g1"); ("g1", "g2"); ("g2", "g3"); ("g3", "g4"); ("g4", "g5"); ("g5", "g6"); ("g6", "g7"); ("g7", "banned")]
    (add_edge (add_edge empty_graph "u" "door" "OWNS") "banned" "door" "CONTROLS").

Definition unless_banned : TwValue :=
  DICT [("type", STRING "difference"); ("a", base_expr "OWNS"); ("b", base_expr "CONTROLS")].

(** A difference fails open: when the fuel runs out inside the subtracted
    relation the subject counts as not having it, so the default fuel of 8
    grants what 10 units deny. *)
Theorem difference_fails_open :
  check_expr nested 8 "u" unless_banned "door" = true /\
  check_expr nested 10 "u" unless_banned "door" = false.
Proof. split; vm_compute; reflexivity. Qed.

(** A graph built by add_edge and define, whose definitions hold no
    binary64, is read back from its JSON form with its edges in order, its
    definitions and the indices of both. *)
Theorem graph_json_roundtrip (g : TwReBACGraph) (B : built g) (P : Forall (fun kv => printable (snd kv)) (definitions g)) :
  graph_from_json (graph_to_json g) = Ok g.
Proof.
  unfold graph_from_json, parse_json_str. rewrite graph_json. rewrite <- (str_app_nil (to_json _)).
  rewrite parse_json_printed; [cbn [rbind fst]; now rewrite graph_value_back| |exact I].
  constructor; [repeat constructor; cbn; intuition discriminate|].
  repeat constructor; cbn [snd].
  - apply Forall_map, Forall_forall. intros e _. constructor; [repeat constructor; cbn; intuition discriminate|repeat constructor].
  - apply (ok_def g (built_ok g B)).
  - exact P.
Qed.

Lemma graph_json_witness : graph_from_json (graph_to_json team) = Ok team.
Proof. apply (graph_json_roundtrip team team_built). constructor. Defined.
