(* ===== verification/TwState.v ===== *)
(** taskweft_nif/standalone/tw_state.hpp: the planning state.

    The cached signature hash is a pair of mutable fields of the state; the
    shared graph is immutable, so sharing and copying it are the same. *)

From Stdlib Require Import ZArith String Ascii List Bool Lia Permutation SpecFloat Morphisms.
From S2P Require Import Prelude OrderedMap TwValue TwJson TwJsonProofs TwRebac.
Import ListNotations.
#[local] Open Scope Z_scope.
#[local] Set Warnings "-register-all".

Record TwState := mkState {
  vars : Dict;
  rebac_graph : option TwReBACGraph;
  rebac_fuel : Z;
  sig_hash_valid : bool;
  sig_hash_cache : Z
}.

Definition empty_state : TwState := mkState [] None 8 false 0.

Definition set_var (s : TwState) (key : string) (val : TwValue) : TwState :=
  mkState (dict_set key val (vars s)) (rebac_graph s) (rebac_fuel s) false (sig_hash_cache s).

Definition get_var (s : TwState) (key : string) : TwValue :=
  match dict_find key (vars s) with Some v => v | None => NIL end.

Definition has_var (s : TwState) (key : string) : bool := dict_count key (vars s).

Definition set_nested (s : TwState) (var : string) (key val : TwValue) : TwState :=
  let d := match dict_find var (vars s) with Some (DICT d) => d | _ => [] end in
  mkState (dict_set var (DICT (dict_set (to_string key) val d)) (vars s)) (rebac_graph s) (rebac_fuel s)
    false (sig_hash_cache s).

Definition get_nested (s : TwState) (var : string) (key : TwValue) : TwValue :=
  match dict_find var (vars s) with
  | Some (DICT d) => match dict_find (to_string key) d with Some v => v | None => NIL end
  | _ => NIL
  end.

Definition has_nested (s : TwState) (var : string) (key : TwValue) : bool :=
  match dict_find var (vars s) with
  | Some (DICT d) => dict_count (to_string key) d
  | _ => false
  end.

(** The content of the copy is that of the state; the copy as an object of its
    own is modelled where states are shared, as a new cell ([TwNif.copy_loaded]). *)
Definition copy (s : TwState) : TwState := s.

Definition signature (s : TwState) : string :=
  fold_left (fun acc k => (acc ++ k ++ "=" ++
      (match dict_find k (vars s) with Some v => to_string v | None => EmptyString end) ++ ";")%string)
    (sort_strings (keys (vars s))) EmptyString.

Definition fnv_prime : Z := 1099511628211.

Fixpoint mix_bytes (h : Z) (s : string) : Z :=
  match s with
  | EmptyString => h
  | String c r => mix_bytes (u64 (Z.lxor h (code c) * fnv_prime)) r
  end.

Definition mix_str (h : Z) (s : string) : Z :=
  u64 (Z.lxor (mix_bytes h s) 0x9e3779b97f4a7c15 * fnv_prime).

Section Signature.
Context `{StdHash}.

(** The hash of the variables, computed. *)
Definition hash_vars (d : Dict) : Z :=
  fold_left (fun h k =>
      u64 (Z.lxor (mix_str h k) (match dict_find k d with Some v => stable_hash v | None => 0 end) * fnv_prime))
    (sort_strings (keys d)) offset_basis.

(** The value returned and the state with its cache filled. *)
Definition signature_hash (s : TwState) : Z * TwState :=
  if sig_hash_valid s then (sig_hash_cache s, s)
  else let h := hash_vars (vars s) in
       (h, mkState (vars s) (rebac_graph s) (rebac_fuel s) true h).
End Signature.

(** tw_value.hpp and tw_state.hpp: the structural hash forgets insertion
    orders, the cached hash is never stale, and the store behaves as a map of
    maps. *)

(** * Values up to the order of their dictionaries *)

Inductive same_value : TwValue -> TwValue -> Prop :=
| same_refl v : same_value v v
| same_array a a' : Forall2 same_value a a' -> same_value (ARRAY a) (ARRAY a')
| same_dict d d1 d' : Permutation d d1 ->
    Forall2 (fun x y => fst x = fst y /\ same_value (snd x) (snd y)) d1 d' -> same_value (DICT d) (DICT d').

Section Hash.
Context `{StdHash}.

Definition entry_hash (kv : string * TwValue) : string * Z := (fst kv, stable_hash (snd kv)).

Lemma fold_hash a a' : Forall2 (fun v v' => stable_hash v = stable_hash v') a a' ->
  forall h, fold_left (fun out v => mix out (stable_hash v)) a h = fold_left (fun out v => mix out (stable_hash v)) a' h.
Proof. induction 1 as [|v v' a a' E _ IH]; intros h; [reflexivity|]. cbn [fold_left]. now rewrite E. Qed.

Lemma hash_dict_perm d d' : NoDup (keys d) -> Permutation (map entry_hash d) (map entry_hash d') ->
  stable_hash (DICT d) = stable_hash (DICT d').
Proof.
  intros ND P. assert (Ek : forall l, keys (map entry_hash l) = keys l) by (intros l; unfold keys; rewrite map_map; reflexivity).
  assert (Pk : Permutation (keys d) (keys d')) by (rewrite <- !Ek; apply Permutation_map, P).
  assert (L : List.length d = List.length d') by (apply Permutation_length in P; now rewrite !length_map in P).
  assert (ND' : NoDup (keys (map entry_hash d))) by now rewrite Ek.
  cbn [stable_hash type]. fold (keys d) (keys d'). rewrite (sort_strings_unique _ _ Pk), L.
  change (map (fun kv => (fst kv, stable_hash (snd kv)))) with (map entry_hash).
  generalize (mix (mix offset_basis 6) (Z.of_nat (List.length d'))) as h. induction (sort_strings (keys d')) as [|k l IH]; intros h; [reflexivity|].
  cbn [fold_left]. rewrite (dict_find_perm k _ _ ND' P). apply IH.
Qed.

Lemma stable_hash_same v : well_formed v -> forall v', same_value v v' -> stable_hash v = stable_hash v'.
Proof.
  induction v as [|b|i|f|s|a IH|d IH] using TwValue_nested_ind; intros W v' S; inversion S as [| a0 a' F|d0 d1 d' P F]; subst; try reflexivity.
  - inversion W as [| | | | |? Wa|]; subst. cbn [stable_hash type]. rewrite (Forall2_length F). apply fold_hash.
    clear - IH Wa F. induction F as [|x y l l' E F IHF]; constructor; inversion IH; inversion Wa; subst; auto.
  - inversion W as [| | | | | |? ND Wd]; subst. apply hash_dict_perm; [exact ND|].
    rewrite P. assert (Wd1 : Forall (fun kv => well_formed (snd kv)) d1) by (eapply Permutation_Forall; eauto).
    assert (IH1 : Forall (fun kv => well_formed (snd kv) -> forall v', same_value (snd kv) v' -> stable_hash (snd kv) = stable_hash v') d1)
      by (eapply Permutation_Forall; eauto).
    replace (map entry_hash d') with (map entry_hash d1); [reflexivity|].
    clear - IH1 Wd1 F. induction F as [|[k v] [k' v'] l l' [E1 E2] F IHF]; [reflexivity|]. cbn [fst snd] in *.
    inversion IH1; inversion Wd1; subst. cbn [map entry_hash fst snd]. unfold entry_hash at 1 3. cbn [fst snd]. f_equal; auto. f_equal; auto.
Qed.

Lemma hash_vars_same d d' : well_formed (DICT d) -> same_value (DICT d) (DICT d') -> hash_vars d = hash_vars d'.
Proof.
  intros W S. inversion W as [| | | | | |? ND Wd]; subst.
  inversion S as [|? ? ?|? d1 ? P F]; subst; [reflexivity|].
  assert (Wd1 : Forall (fun kv => well_formed (snd kv)) d1) by (eapply Permutation_Forall; eauto).
  assert (Pk : Permutation (keys d) (keys d')).
  { rewrite (Permutation_map fst P). unfold keys. clear - F. induction F as [|? ? ? ? [E _] _ IH]; cbn [map]; [constructor|]. rewrite E. now constructor. }
  assert (L : forall k, match dict_find k d with Some v => stable_hash v | None => 0 end = match dict_find k d' with Some v => stable_hash v | None => 0 end).
  { intros k. rewrite (dict_find_perm k d d1 ND P). clear - F Wd1.
    induction F as [|[k1 v1] [k2 v2] l l' [E1 E2] F IH]; [reflexivity|]. cbn [fst snd] in *. subst k2.
    inversion Wd1; subst. cbn [dict_find]. destruct (String.eqb k k1); [now apply stable_hash_same|auto]. }
  unfold hash_vars. rewrite (sort_strings_unique _ _ Pk). generalize offset_basis as h.
  induction (sort_strings (keys d')) as [|k l IH]; intros h; [reflexivity|]. cbn [fold_left]. rewrite L. apply IH.
Qed.

(** * The cache *)

Definition cache_ok (s : TwState) : Prop := sig_hash_valid s = true -> sig_hash_cache s = hash_vars (vars s).

Inductive state_op :=
| SetVar (key : string) (val : TwValue)
| SetNested (var : string) (key val : TwValue)
| Hash.

Definition apply_op (s : TwState) (o : state_op) : TwState :=
  match o with
  | SetVar k v => set_var s k v
  | SetNested x k v => set_nested s x k v
  | Hash => snd (signature_hash s)
  end.

Lemma apply_cache_ok s o : cache_ok s -> cache_ok (apply_op s o).
Proof.
  unfold cache_ok. destruct o; cbn [apply_op set_var set_nested sig_hash_valid]; try discriminate.
  intros C. unfold signature_hash. destruct (sig_hash_valid s) eqn:E; cbn; auto.
Qed.

Lemma run_cache_ok ops : forall s, cache_ok s -> cache_ok (fold_left apply_op ops s).
Proof. induction ops as [|o ops IH]; intros s C; [exact C|]. apply IH. now apply apply_cache_ok. Qed.
End Hash.

(** * Integers compared as binary64 *)

Lemma digits2_size m : Z.pos (digits2_pos m) = Z.log2 (Z.pos m) + 1.
Proof.
  induction m as [m IH|m IH|]; cbn [digits2_pos]; [..|reflexivity]; rewrite Pos2Z.inj_succ, IH.
  - change (Z.pos m~1) with (2 * Z.pos m + 1). rewrite Z.log2_succ_double by lia. lia.
  - change (Z.pos m~0) with (2 * Z.pos m). rewrite Z.log2_double by lia. lia.
Qed.

Lemma iter_xO m d : Z.pos (Pos.iter xO m d) = Z.pos m * 2 ^ Z.pos d.
Proof.
  induction d as [|d IH] using Pos.peano_ind; [cbn; lia|]. rewrite Pos.iter_succ, Pos2Z.inj_succ, Z.pow_succ_r by lia.
  change (Z.pos (Pos.iter xO m d)~0) with (2 * Z.pos (Pos.iter xO m d)). rewrite IH. lia.
Qed.

(** Below 2^53 the conversion is exact: the integer shifted to 53 bits. *)
Lemma round_small s m : Z.pos m < 2 ^ 53 ->
  exists m', binary_round 53 1024 s m 0 = S754_finite s m' (Z.log2 (Z.pos m) - 52) /\
    Z.pos m' = Z.pos m * 2 ^ (52 - Z.log2 (Z.pos m)).
Proof.
  intros Hm. assert (Hl : 0 <= Z.log2 (Z.pos m) <= 52).
  { split; [apply Z.log2_nonneg|]. apply Z.log2_lt_pow2 in Hm; lia. }
  unfold binary_round, shl_align, fexp, emin. rewrite digits2_size, Z.add_0_r, Z.sub_0_r.
  set (l := Z.log2 (Z.pos m)) in *. replace (Z.max (l + 1 - 53) (3 - 1024 - 53)) with (l - 52) by lia.
  assert (Main : forall mz, Z.pos mz = Z.pos m * 2 ^ (52 - l) ->
    binary_round_aux 53 1024 s (Z.pos mz) (l - 52) loc_Exact = S754_finite s mz (l - 52)).
  { intros mz Emz. assert (Lz : Z.log2 (Z.pos mz) = 52).
    { rewrite Emz, Z.log2_mul_pow2 by lia. fold l. lia. }
    assert (F : shr_fexp 53 1024 (Z.pos mz) (l - 52) loc_Exact = (Build_shr_record (Z.pos mz) false false, l - 52)).
    { unfold shr_fexp, fexp, emin, Zdigits2. rewrite digits2_size, Lz. replace (Z.max (52 + 1 + (l - 52) - 53) (3 - 1024 - 53) - (l - 52)) with 0 by lia. reflexivity. }
    unfold binary_round_aux. rewrite F. cbn [shr_m loc_of_shr_record round_nearest_even]. rewrite F. cbn [shr_m].
    destruct (Z.leb_spec (l - 52) (1024 - 53)); [reflexivity|lia]. }
  destruct (l - 52) as [|p|p] eqn:E; [|lia|].
  - exists m. rewrite Main; [split; [reflexivity|]|]; replace (52 - l) with 0 by lia; lia.
  - exists (Pos.iter xO m p). assert (Ei : Z.pos (Pos.iter xO m p) = Z.pos m * 2 ^ (52 - l)).
    { rewrite iter_xO. replace (52 - l) with (Z.pos p) by lia. reflexivity. }
    rewrite Main by exact Ei. split; [reflexivity|exact Ei].
Qed.

Lemma round_eq s m n : Z.pos m < 2 ^ 53 -> Z.pos n < 2 ^ 53 ->
  SFeqb (binary_round 53 1024 s m 0) (binary_round 53 1024 s n 0) = (Z.pos m =? Z.pos n).
Proof.
  intros Hm Hn. destruct (round_small s m Hm) as (m' & -> & Em). destruct (round_small s n Hn) as (n' & -> & En).
  assert (E : SFeqb (S754_finite s m' (Z.log2 (Z.pos m) - 52)) (S754_finite s n' (Z.log2 (Z.pos n) - 52)) =
    match Z.compare (Z.log2 (Z.pos m) - 52) (Z.log2 (Z.pos n) - 52), Pos.compare m' n' with Eq, Eq => true | _, _ => false end).
  { unfold SFeqb, SFcompare. change (Pos.compare_cont Eq m' n') with (Pos.compare m' n').
    destruct s, (Z.compare _ _), (Pos.compare m' n'); reflexivity. }
  rewrite E. destruct (Z.eqb_spec (Z.pos m) (Z.pos n)) as [Emn|N].
  - injection Emn as <-. rewrite Z.compare_refl. assert (m' = n') as <- by (apply Pos2Z.inj; congruence). now rewrite Pos.compare_refl.
  - destruct (Z.compare_spec (Z.log2 (Z.pos m) - 52) (Z.log2 (Z.pos n) - 52)) as [L| |]; [|reflexivity..].
    destruct (Pos.compare_spec m' n') as [->| |]; [|reflexivity..]. exfalso. apply N.
    replace (Z.log2 (Z.pos n)) with (Z.log2 (Z.pos m)) in En by lia. rewrite Em in En.
    apply Z.mul_reg_r in En; [exact En|]. apply Z.pow_nonzero; [lia|].
    assert (Z.log2 (Z.pos m) < 53) by (apply Z.log2_lt_pow2; lia). lia.
Qed.

Lemma double_eq i j : Z.abs i < 2 ^ 53 -> Z.abs j < 2 ^ 53 -> SFeqb (double i) (double j) = (i =? j).
Proof.
  intros Hi Hj. unfold double, binary_normalize.
  destruct i as [|m|m], j as [|n|n]; try (apply round_eq; assumption); try reflexivity.
  - destruct (round_small false n Hj) as (n' & -> & _). reflexivity.
  - destruct (round_small true n Hj) as (n' & -> & _). reflexivity.
  - destruct (round_small false m Hi) as (m' & -> & _). reflexivity.
  - destruct (round_small false m Hi) as (m' & -> & _), (round_small true n Hj) as (n' & -> & _). reflexivity.
  - destruct (round_small true m Hi) as (m' & -> & _). reflexivity.
  - destruct (round_small true m Hi) as (m' & -> & _), (round_small false n Hj) as (n' & -> & _). reflexivity.
Qed.

(** * Theorems *)

(** [==] on integers, which converts both to binary64, is equality for
    integers below 2^53 in absolute value, and identifies 2^53 with 2^53 + 1. *)
Theorem value_eq_integers :
  (forall i j, Z.abs i < 2 ^ 53 -> Z.abs j < 2 ^ 53 -> value_eq (INT i) (INT j) = (i =? j)) /\
  value_eq (INT (2 ^ 53)) (INT (2 ^ 53 + 1)) = true.
Proof. split; [intros i j Hi Hj; cbn; now apply double_eq|vm_compute; reflexivity]. Qed.

(** Equal values hash alike whatever the insertion order of their
    dictionaries, at any depth, for every hash of strings; so do states whose
    variables were created in different orders. *)
Theorem stable_hash_order (H : StdHash) (v v' : TwValue) (W : well_formed v) (S : same_value v v') :
  stable_hash v = stable_hash v' /\
  (forall d d', v = DICT d -> v' = DICT d' -> hash_vars d = hash_vars d').
Proof.
  split; [now apply stable_hash_same|]. intros d d' -> ->. now apply hash_vars_same.
Qed.

Definition toy_hash : StdHash := fun s => u64 (Z.of_nat (String.length s) * 2654435761).

Lemma stable_hash_witness :
  @stable_hash toy_hash (DICT [("a"%string, INT 1); ("b"%string, NIL)]) = @stable_hash toy_hash (DICT [("b"%string, NIL); ("a"%string, INT 1)]).
Proof.
  apply (stable_hash_order toy_hash).
  - constructor; [repeat constructor; cbn; intuition discriminate|repeat constructor; lia].
  - eapply same_dict; [apply perm_swap|]. repeat constructor.
Defined.

(** Whatever sequence of writes and hash queries a state has seen, the
    signature hash it returns is the hash of its current variables: the cached
    value is never stale. *)
Theorem signature_hash_fresh (H : StdHash) (ops : list state_op) :
  fst (signature_hash (fold_left apply_op ops empty_state)) = hash_vars (vars (fold_left apply_op ops empty_state)).
Proof.
  assert (C : cache_ok (fold_left apply_op ops empty_state)) by (apply run_cache_ok; discriminate).
  revert C. generalize (fold_left apply_op ops empty_state) as s. intros s C. unfold signature_hash.
  destruct (sig_hash_valid s) eqn:E; [exact (C E)|reflexivity].
Qed.

(** The state is a map of maps: a nested write is read back at its variable
    and key and nowhere else, and no other variable changes. *)
Theorem set_nested_correct (s : TwState) (var var' : string) (key key' val : TwValue) :
  get_nested (set_nested s var key val) var' key' =
    (if String.eqb var' var && String.eqb (to_string key') (to_string key) then val else get_nested s var' key') /\
  (var' <> var -> get_var (set_nested s var key val) var' = get_var s var').
Proof.
  unfold get_nested, get_var, set_nested. cbn [vars]. rewrite !dict_find_set. split.
  - destruct (String.eqb_spec var' var) as [->|]; cbn [andb]; [|reflexivity]. rewrite dict_find_set.
    destruct (String.eqb (to_string key') (to_string key)); [reflexivity|].
    destruct (dict_find var (vars s)) as [[]|]; reflexivity.
  - intros N. destruct (String.eqb_spec var' var); [congruence|reflexivity].
Qed.

Lemma set_nested_witness :
  get_var (set_nested (set_var empty_state "x" (INT 1)) "y" (STRING "k") NIL) "x" = INT 1.
Proof.
  apply (set_nested_correct (set_var empty_state "x" (INT 1)) "y" "x" (STRING "k") NIL NIL). discriminate.
Defined.
