(* ===== verification/TwDomain.v ===== *)
(** taskweft_nif/standalone/tw_domain.hpp and tw_soltree.hpp: tasks, goals,
    domains and the solution tree.

    Actions and methods are functions of the state: an action receives a copy
    and returns the new state or null, a method returns its subtasks or none. *)

From Stdlib Require Import ZArith String Ascii List Bool Lia.
From S2P Require Import Prelude OrderedMap TwValue TwJson TwRebac TwState.
Import ListNotations.
#[local] Open Scope string_scope.
#[local] Open Scope Z_scope.
#[local] Open Scope tw_scope.

Record TwCall := mkCall { name : string; args : list TwValue }.

Record TwGoalBinding := mkBinding { var : string; key : string; desired : TwValue }.

(** Whether a binding holds: by the relation graph when the state has one with
    edges, by equality otherwise.  A variable that starts with a brace is
    parsed, which can throw. *)
Definition satisfied (b : TwGoalBinding) (s : TwState) : res bool :=
  let by_equality := Ok (value_eq (get_nested s (var b) (STRING (key b))) (desired b)) in
  match rebac_graph s with
  | Some g =>
      match edges g with
      | [] => by_equality
      | _ :: _ =>
          let check expr := Ok (check_expr g (Z.to_nat (rebac_fuel s)) (key b) expr (as_string (desired b))) in
          if starts "{" (var b) then
            do expr <- parse_json_str (var b);
            if is_dict expr then check expr else Ok false
          else check (base_expr (var b))
      end
  | None => by_equality
  end.

Definition TwGoal := list TwGoalBinding.

(** [is_satisfied] and [unsatisfied], the same for goals and multigoals. *)
Fixpoint is_satisfied (bs : TwGoal) (s : TwState) : res bool :=
  match bs with
  | [] => Ok true
  | b :: bs => do ok <- satisfied b s; if ok then is_satisfied bs s else Ok false
  end.

Fixpoint unsatisfied (bs : TwGoal) (s : TwState) : res TwGoal :=
  match bs with
  | [] => Ok []
  | b :: bs => do ok <- satisfied b s; do unmet <- unsatisfied bs s; Ok (if ok then unmet else b :: unmet)
  end.

Inductive TwTask :=
| Call (c : TwCall)
| Goal (g : TwGoal)
| MultiGoal (g : TwGoal).

Definition TwActionFn := TwState -> list TwValue -> option TwState.
Definition TwMethodFn := TwState -> list TwValue -> option (list TwTask).

Record TwDomain := mkDomain {
  actions : dict TwActionFn;
  task_methods : dict (list TwMethodFn);
  action_durations : dict string
}.

Definition has_action (d : TwDomain) (n : string) : bool := dict_count n (actions d).
Definition has_task (d : TwDomain) (n : string) : bool := dict_count n (task_methods d).

(** * The solution tree *)

Inductive Kind := KRoot | KTask | KAction | KGoal | KMultiGoal.

Record TwSolNode := mkNode {
  kind : Kind;
  parent : Z;
  children : list Z;
  node_name : string;
  node_args : list TwValue;
  method_idx : Z;
  plan_step : Z;
  first_step : Z
}.

Record TwSolTree := mkTree { nodes : list TwSolNode; action_nodes : list Z }.

Definition node_at (t : TwSolTree) (i : Z) : option TwSolNode :=
  if i <? 0 then None else nth_error (nodes t) (Z.to_nat i).

Definition set_node (l : list TwSolNode) (i : Z) (f : TwSolNode -> TwSolNode) : list TwSolNode :=
  match nth_error l (Z.to_nat i) with Some n => set_nth l (Z.to_nat i) (f n) | None => l end.

Definition with_children (n : TwSolNode) (c : list Z) : TwSolNode :=
  mkNode (kind n) (parent n) c (node_name n) (node_args n) (method_idx n) (plan_step n) (first_step n).
Definition with_plan_step (n : TwSolNode) (i : Z) : TwSolNode :=
  mkNode (kind n) (parent n) (children n) (node_name n) (node_args n) (method_idx n) i (first_step n).
Definition with_first_step (n : TwSolNode) (i : Z) : TwSolNode :=
  mkNode (kind n) (parent n) (children n) (node_name n) (node_args n) (method_idx n) (plan_step n) i.

Definition size (t : TwSolTree) : Z := Z.of_nat (List.length (nodes t)).

Definition add_node (t : TwSolTree) (k : Kind) (parent_id : Z) (nm : string) (ar : list TwValue) (midx : Z)
    : TwSolTree * Z :=
  let id := size t in
  let ns := (nodes t ++ [mkNode k parent_id [] nm ar midx (-1) (-1)])%list in
  let ns := if (0 <=? parent_id) && (parent_id <? id)
            then set_node ns parent_id (fun n => with_children n (children n ++ [id])%list) else ns in
  (mkTree ns (action_nodes t), id).

Definition checkpoint (t : TwSolTree) : Z := size t.

(** Unlink the nodes [i >= cp] from their parents below [cp]. *)
Fixpoint unlink (cp : Z) (i : Z) (fuel : nat) (ns : list TwSolNode) : list TwSolNode :=
  match fuel with
  | O => ns
  | S f =>
      match nth_error ns (Z.to_nat i) with
      | Some n =>
          let p := parent n in
          let ns := if (0 <=? p) && (p <? cp)
                    then set_node ns p (fun m => with_children m (filter (fun c => negb (c =? i)) (children m)))
                    else ns in
          unlink cp (i + 1) f ns
      | None => ns
      end
  end.

(** [while (!l.empty() && l.back() >= cp) l.pop_back()]. *)
Fixpoint pop_from (cp : Z) (rl : list Z) : list Z :=
  match rl with
  | x :: r => if cp <=? x then pop_from cp r else rl
  | [] => []
  end.

Definition restore (t : TwSolTree) (cp : Z) : TwSolTree :=
  mkTree (firstn (Z.to_nat cp) (unlink cp cp (List.length (nodes t)) (nodes t)))
    (rev (pop_from cp (rev (action_nodes t)))).

(** The loop follows parents, which have smaller indices. *)
Fixpoint retryable (fuel : nat) (t : TwSolTree) (d : TwDomain) (cur : Z) : Z :=
  match fuel with
  | O => -1
  | S f =>
      if cur <=? 0 then -1
      else match node_at t cur with
      | None => -1
      | Some n =>
          let more := match dict_find (node_name n) (task_methods d) with
                      | Some ms => method_idx n + 1 <? Z.of_nat (List.length ms)
                      | None => false
                      end in
          match kind n with
          | KTask | KGoal => if more then cur else retryable f t d (parent n)
          | _ => retryable f t d (parent n)
          end
      end
  end.

Definition nearest_retryable_ancestor (t : TwSolTree) (node_id : Z) (d : TwDomain) : Z :=
  match node_at t node_id with
  | Some n => retryable (S (List.length (nodes t))) t d (parent n)
  | None => -1
  end.

Definition prefix_length (t : TwSolTree) (node_id : Z) : Z :=
  match node_at t node_id with
  | Some n => if first_step n <? 0 then 0 else first_step n
  | None => 0
  end.
