(* ===== verification/TwPlanner.v ===== *)
(** taskweft_nif/standalone/tw_planner.hpp: the memoizing depth-first planner.

    The search threads its budget, its two caches and its method statistics
    through every call, and throws when the wall clock passes the deadline.
    [late t] says whether it has when the clock is read at tick [t].  [fuel] is
    the code's own bound on the branching depth. *)

From Stdlib Require Import ZArith String Ascii List Bool Lia.
From S2P Require Import Prelude OrderedMap TwValue TwJson TwRebac TwState TwDomain.
Import ListNotations.
#[local] Open Scope Z_scope.
#[local] Open Scope tw_scope.

Definition TW_MAX_DEPTH : nat := 400.
Definition TW_BUDGET_SAMPLE_EVERY : Z := 256.

Definition tw_call_key (c : TwCall) : string :=
  fold_left (fun k a => (k ++ String (ascii_of_nat 31) (to_string a))%string) (args c) (name c).

(** [nullptr] or a set. *)
Definition TwBlacklist := option (list string).
Definition blacklisted (bl : TwBlacklist) (c : TwCall) : bool :=
  match bl with None => false | Some l => existsb (String.eqb (tw_call_key c)) l end.

(** * The state of a search *)

Record search := mkSearch {
  tick : Z;
  fired : bool;
  fail_cache : list Z;
  success_cache : list (Z * list TwCall);
  method_stats : list (Z * list Z)
}.

Definition new_search : search := mkSearch 0 false [] [] [].

(** Computations that update a state and can throw. *)
Definition stateful (S A : Type) := S -> res (A * S).
Definition ret {S A} (a : A) : stateful S A := fun s => Ok (a, s).
Definition mbind {S A B} (m : stateful S A) (k : A -> stateful S B) : stateful S B :=
  fun s => do r <- m s; k (fst r) (snd r).
Definition lift {S A} (r : res A) : stateful S A := fun s => do a <- r; Ok (a, s).
Definition M := stateful search.

Declare Scope search_scope.
Notation "'let!' x := m ; k" := (mbind m (fun x => k))
  (at level 10, x binder, m at level 100, k at level 200) : search_scope.
#[local] Open Scope search_scope.

Definition mem (k : Z) (l : list Z) : bool := existsb (Z.eqb k) l.

Definition find_key {A} (k : Z) (l : list (Z * A)) : option A :=
  option_map snd (find (fun p => fst p =? k) l).

Definition put {A} (k : Z) (a : A) (l : list (Z * A)) : list (Z * A) :=
  (k, a) :: filter (fun p => negb (fst p =? k)) l.

(** * Hashes of tasks *)

Section Hashes.
Context `{StdHash}.

Definition tw_goal_binding_hash (b : TwGoalBinding) : Z :=
  mix (mix (mix offset_basis (std_hash (var b))) (std_hash (key b))) (stable_hash (desired b)).

Definition tw_task_hash (t : TwTask) : Z :=
  match t with
  | Call c => fold_left (fun h a => mix h (stable_hash a)) (args c) (mix 0x43554c4c (std_hash (name c)))
  | Goal g => fold_left (fun h b => mix h (tw_goal_binding_hash b)) g 0x474f414c
  | MultiGoal g => fold_left (fun h b => mix h (tw_goal_binding_hash b)) g 0x4d554c54
  end.

Definition tw_tasks_hash (ts : list TwTask) : Z :=
  fold_left (fun h t => mix h (tw_task_hash t)) ts 0x5441534b.

Definition tw_search_key (s : TwState) (ts : list TwTask) : Z :=
  mix (fst (signature_hash s)) (tw_tasks_hash ts).

Definition tw_method_call_hash (nm : string) (ar : list TwValue) : Z :=
  fold_left (fun h a => mix h (stable_hash a)) ar (mix 0x4d455448 (std_hash nm)).
End Hashes.

(** * Method order *)

Definition resize (n : nat) (l : list Z) : list Z :=
  if (List.length l <? n)%nat then (l ++ repeat 0 (n - List.length l))%list else l.

(** The first index with the greatest score among the first [count]. *)
Fixpoint best (i : nat) (scores : list Z) (best_idx : nat) (best_score : Z) : nat * Z :=
  match scores with
  | [] => (best_idx, best_score)
  | x :: r => if best_score <? x then best (S i) r i x else best (S i) r best_idx best_score
  end.

(** [std::swap(order[0], order[k])] on [0, 1, ..., count - 1]. *)
Definition swap_front (k count : nat) : list nat :=
  map (fun i => if (i =? 0)%nat then k else if (i =? k)%nat then 0%nat else i) (seq 0 count).

Definition tw_order_methods (k : Z) (count : nat) : M (list nat) := fun s =>
  if (count <=? 1)%nat then Ok (seq 0 count, s)
  else
    let scores := resize count (match find_key k (method_stats s) with Some l => l | None => [] end) in
    let s := mkSearch (tick s) (fired s) (fail_cache s) (success_cache s) (put k scores (method_stats s)) in
    let '(bi, bs) := match firstn count scores with x :: r => best 1 r 0 x | [] => (0%nat, 0) end in
    Ok (if (0 <? bs) && negb (bi =? 0)%nat then swap_front bi count else seq 0 count, s).

Definition tw_note_method_result (k : Z) (midx : nat) (success : bool) : M unit := fun s =>
  let scores := resize (S midx) (match find_key k (method_stats s) with Some l => l | None => [] end) in
  let delta := if success then 2 else -1 in
  let x := Z.max (-64) (Z.min 64 (nth midx scores 0 + delta)) in
  Ok (tt, mkSearch (tick s) (fired s) (fail_cache s) (success_cache s) (put k (set_nth scores midx x) (method_stats s))).

(** * Pruning *)

Section Pruning.
Variable domain : TwDomain.

Definition has_methods (d : TwDomain) (n : string) : bool :=
  match dict_find n (task_methods d) with Some (_ :: _) => true | _ => false end.

Definition goal_plausible (g : TwGoal) (s : TwState) : res bool :=
  do ok <- is_satisfied g s;
  if ok then Ok true
  else do unmet <- unsatisfied g s; Ok (existsb (fun b => has_task domain (var b)) unmet).

Definition tw_task_shallow_plausible (bl : TwBlacklist) (t : TwTask) (s : TwState) : res bool :=
  match t with
  | Call c => if has_action domain (name c) then Ok (negb (blacklisted bl c)) else Ok (has_task domain (name c))
  | Goal g => goal_plausible g s
  | MultiGoal g => goal_plausible g s
  end.

Fixpoint all_plausible (bl : TwBlacklist) (ts : list TwTask) (s : TwState) : res bool :=
  match ts with
  | [] => Ok true
  | t :: ts => do ok <- tw_task_shallow_plausible bl t s; if ok then all_plausible bl ts s else Ok false
  end.

Definition tw_prefix_plausible (bl : TwBlacklist) (ts : list TwTask) (s : TwState) : res bool :=
  all_plausible bl (firstn 2 ts) s.

Record TwWitnessResult := mkWitness { found : bool; certified : Z; skipped : Z }.

Definition witness_result (c k : Z) : TwWitnessResult := mkWitness ((0 <? c) || (k =? 0)) c k.

(** What an unmet goal adds: its first unmet binding has a method or not. *)
Definition goal_witness (g : TwGoal) (s : TwState) (ck : Z * Z) : res (Z * Z) :=
  do unmet <- unsatisfied g s;
  Ok (match unmet with
      | [] => ck
      | b :: _ => if has_methods domain (var b) then (fst ck + 1, snd ck) else (fst ck, snd ck + 1)
      end).

(** One task of the scan: counts are (certified, skipped). *)
Definition witness_task (s : TwState) (t : TwTask) (ck : Z * Z) : res (Z * Z) :=
  match t with
  | Goal g => do ok <- is_satisfied g s; if ok then Ok ck else goal_witness g s ck
  | MultiGoal g => do ok <- is_satisfied g s; Ok ck
  | Call c =>
      if has_action domain (name c) then Ok ck
      else if has_methods domain (name c) then Ok (fst ck + 1, snd ck) else Ok (fst ck, snd ck + 1)
  end.

Fixpoint witness_scan (s : TwState) (ts : list TwTask) (ck : Z * Z) : res (Z * Z) :=
  match ts with
  | [] => Ok ck
  | t :: ts => do ck <- witness_task s t ck; witness_scan s ts ck
  end.

Definition tw_witness_oracle_goal_reach (s : TwState) (ts : list TwTask) : res TwWitnessResult :=
  do ck <- witness_scan s ts (0, 0); Ok (witness_result (fst ck) (snd ck)).

Record TwWitnessScanCache := mkCache {
  certified_prefix : list Z; skipped_prefix : list Z; goal_indices : list nat
}.

(** The static contribution of a task. *)
Definition static_cert (t : TwTask) : Z :=
  match t with Call c => if has_action domain (name c) then 0 else if has_methods domain (name c) then 1 else 0 | _ => 0 end.
Definition static_skip (t : TwTask) : Z :=
  match t with Call c => if has_action domain (name c) then 0 else if has_methods domain (name c) then 0 else 1 | _ => 0 end.

Fixpoint prefix_sums (f : TwTask -> Z) (acc : Z) (ts : list TwTask) : list Z :=
  acc :: match ts with [] => [] | t :: ts => prefix_sums f (acc + f t) ts end.

Fixpoint goal_positions (i : nat) (ts : list TwTask) : list nat :=
  match ts with
  | [] => []
  | Call _ :: ts => goal_positions (S i) ts
  | _ :: ts => i :: goal_positions (S i) ts
  end.

Definition tw_build_witness_scan_cache (ts : list TwTask) : TwWitnessScanCache :=
  mkCache (prefix_sums static_cert 0 ts) (prefix_sums static_skip 0 ts) (goal_positions 0 ts).

Fixpoint goal_scan (s : TwState) (ts : list TwTask) (from_idx : nat) (gis : list nat) (ck : Z * Z) : res (Z * Z) :=
  match gis with
  | [] => Ok ck
  | gi :: gis =>
      if (gi <? from_idx)%nat then goal_scan s ts from_idx gis ck
      else
        do ck <- match nth_error ts gi with
                 | Some (Goal g) => do ok <- is_satisfied g s; if ok then Ok ck else goal_witness g s ck
                 | Some (MultiGoal g) => do ok <- is_satisfied g s; Ok ck
                 | _ => Ok ck
                 end;
        goal_scan s ts from_idx gis ck
  end.

Definition tw_witness_oracle_goal_reach_cached (s : TwState) (ts : list TwTask) (cache : TwWitnessScanCache)
    (from_idx : nat) : res TwWitnessResult :=
  let c := last (certified_prefix cache) 0 - nth from_idx (certified_prefix cache) 0 in
  let k := last (skipped_prefix cache) 0 - nth from_idx (skipped_prefix cache) 0 in
  do ck <- goal_scan s ts from_idx (goal_indices cache) (c, k);
  Ok (witness_result (fst ck) (snd ck)).
End Pruning.

(** * The search *)

Section Planner.
Context `{StdHash}.
Variable domain : TwDomain.
Variable blacklist : TwBlacklist.
Variable late : Z -> bool.

Definition exceeded : M bool := fun s =>
  if fired s then Ok (true, s)
  else
    let t := tick s + 1 in
    let s' := mkSearch t false (fail_cache s) (success_cache s) (method_stats s) in
    if negb (t mod TW_BUDGET_SAMPLE_EVERY =? 0) then Ok (false, s')
    else if late t then Ok (true, mkSearch t true (fail_cache s) (success_cache s) (method_stats s))
    else Ok (false, s').

Definition check_budget : M unit :=
  let! over := exceeded; if over then lift (Throw BudgetExceeded) else ret tt.

Definition mark_fail (k : Z) : M (option (list TwCall)) := fun s =>
  Ok (None, if k =? 0 then s
            else mkSearch (tick s) (fired s) (k :: fail_cache s) (success_cache s) (method_stats s)).

(** [mark_success], and the plan returned. *)
Definition mark_success (k : Z) (plan : list TwCall) : M (option (list TwCall)) := fun s =>
  Ok (Some plan, if k =? 0 then s
                 else mkSearch (tick s) (fired s) (fail_cache s) (put k plan (success_cache s)) (method_stats s)).

Inductive walk :=
| Done (prefix : list TwCall)
| Stuck
| Branch (s : TwState) (t : TwTask) (remaining : list TwTask) (prefix : list TwCall).

(** The fast path, at [tasks[idx] = head of todo]. *)
Fixpoint fast_path (tasks : list TwTask) (cache : TwWitnessScanCache) (todo : list TwTask) (idx : nat)
    (s : TwState) (prefix : list TwCall) : M walk :=
  let! _ := check_budget;
  match todo with
  | [] => ret (Done prefix)
  | t :: todo' =>
      let! wr := lift (tw_witness_oracle_goal_reach_cached domain s tasks cache idx);
      if negb (found wr) then ret Stuck
      else match t with
      | Goal g | MultiGoal g =>
          let! ok := lift (is_satisfied g s);
          if ok then fast_path tasks cache todo' (S idx) s prefix else ret (Branch s t todo' prefix)
      | Call c =>
          match dict_find (name c) (actions domain) with
          | None => ret (Branch s t todo' prefix)
          | Some action =>
              if blacklisted blacklist c then ret Stuck
              else match action (copy s) (args c) with
              | None => ret Stuck
              | Some s' => fast_path tasks cache todo' (S idx) s' (prefix ++ [c])
              end
          end
      end
  end.

(** The loop over the methods of a goal's variable or of a compound task;
    [rest] follows the subtasks. *)
Fixpoint try_methods (seek : TwState -> list TwTask -> M (option (list TwCall)))
    (methods : list TwMethodFn) (s : TwState) (ar : list TwValue) (k : Z) (rest : list TwTask)
    (seen : list Z) (order : list nat) : M (option (list TwCall)) :=
  match order with
  | [] => ret None
  | midx :: order =>
      let next seen := try_methods seek methods s ar k rest seen order in
      match nth_error methods midx with
      | None => next seen
      | Some method =>
          match method s ar with
          | None => next seen
          | Some subs =>
              let new_tasks := (subs ++ rest)%list in
              let decomp_sig := tw_tasks_hash new_tasks in
              if mem decomp_sig seen then next seen
              else
                let seen := decomp_sig :: seen in
                let! plausible := lift (tw_prefix_plausible domain blacklist new_tasks s);
                if negb plausible then next seen
                else
                  let! result := seek s new_tasks;
                  match result with
                  | Some p => let! _ := tw_note_method_result k midx true; ret (Some p)
                  | None => let! _ := tw_note_method_result k midx false; next seen
                  end
          end
      end
  end.

Fixpoint try_bindings (seek : TwState -> list TwTask -> M (option (list TwCall)))
    (s : TwState) (rest : list TwTask) (unmet : TwGoal) : M (option (list TwCall)) :=
  match unmet with
  | [] => ret None
  | b :: unmet =>
      let! result := seek s (Goal [b] :: rest);
      match result with
      | Some p => ret (Some p)
      | None => try_bindings seek s rest unmet
      end
  end.

(** [finish], and the failure after a loop without result. *)
Definition finish (k : Z) (prefix : list TwCall) (result : option (list TwCall)) : M (option (list TwCall)) :=
  match result with
  | Some p => mark_success k (prefix ++ p)
  | None => mark_fail k
  end.

Fixpoint tw_seek_plan (fuel : nat) (s : TwState) (tasks : list TwTask) : M (option (list TwCall)) :=
  let! _ := check_budget;
  match tasks with
  | [] => ret (Some [])
  | _ :: _ =>
      let k := tw_search_key s tasks in
      fun st =>
      if mem k (fail_cache st) then Ok (None, st)
      else match find_key k (success_cache st) with
      | Some p => Ok (Some p, st)
      | None =>
          (let! w := fast_path tasks (tw_build_witness_scan_cache domain tasks) tasks 0 s [];
           match w with
           | Done prefix => mark_success k prefix
           | Stuck => mark_fail k
           | Branch s t remaining prefix =>
               match fuel with
               | O => mark_fail k
               | S fuel =>
                   match t with
                   | Goal g =>
                       let! unmet := lift (unsatisfied g s);
                       match unmet with
                       | [] => mark_fail k
                       | b :: _ =>
                           match dict_find (var b) (task_methods domain) with
                           | None => mark_fail k
                           | Some methods =>
                               let goal_args := [STRING (key b); desired b] in
                               let gkey := tw_method_call_hash (var b) goal_args in
                               let! order := tw_order_methods gkey (List.length methods);
                               let! r := try_methods (tw_seek_plan fuel) methods s goal_args gkey (t :: remaining) [] order;
                               finish k prefix r
                           end
                       end
                   | MultiGoal g =>
                       let! unmet := lift (unsatisfied g s);
                       match unmet with
                       | [] => mark_fail k
                       | _ :: _ =>
                           let! r := try_bindings (tw_seek_plan fuel) s (t :: remaining) unmet;
                           finish k prefix r
                       end
                   | Call c =>
                       match dict_find (name c) (task_methods domain) with
                       | None => mark_fail k
                       | Some methods =>
                           let tkey := tw_method_call_hash (name c) (args c) in
                           let! order := tw_order_methods tkey (List.length methods);
                           let! r := try_methods (tw_seek_plan fuel) methods s (args c) tkey remaining [] order;
                           finish k prefix r
                       end
                   end
               end
           end) st
      end
  end.

Definition tw_plan (s : TwState) (tasks : list TwTask) : res (option (list TwCall)) :=
  do r <- tw_seek_plan TW_MAX_DEPTH s tasks new_search; Ok (fst r).
End Planner.
