(* ===== verification/TwPlannerProofs.v ===== *)
(** tw_planner.hpp: the search only returns plans that the task list derives,
    the cached pruning scan is the full one, and what the search throws. *)

From Stdlib Require Import ZArith String Ascii List Bool Lia.
From S2P Require Import Prelude OrderedMap TwValue TwJson TwJsonProofs TwRebac TwState TwDomain TwPlanner.
Import ListNotations.
#[local] Open Scope Z_scope.
#[local] Open Scope tw_scope.
#[local] Open Scope search_scope.

(** * The derivations of a task list *)

Section Derivations.
Variable domain : TwDomain.
Variable blacklist : TwBlacklist.

(** [solves s tasks plan s']: from [s] the tasks decompose into [plan], whose
    execution ends in [s']. *)
Inductive solves : TwState -> list TwTask -> list TwCall -> TwState -> Prop :=
| solves_done s : solves s [] [] s
| solves_action s c ts action s1 p s2 :
    dict_find (name c) (actions domain) = Some action -> blacklisted blacklist c = false ->
    action s (args c) = Some s1 -> solves s1 ts p s2 -> solves s (Call c :: ts) (c :: p) s2
| solves_method s c ts methods m subs p s2 :
    dict_find (name c) (actions domain) = None -> dict_find (name c) (task_methods domain) = Some methods ->
    In m methods -> m s (args c) = Some subs -> solves s (subs ++ ts) p s2 -> solves s (Call c :: ts) p s2
| solves_goal_met s g ts p s2 : is_satisfied g s = Ok true -> solves s ts p s2 -> solves s (Goal g :: ts) p s2
| solves_goal s g ts b unmet methods m subs p s2 :
    unsatisfied g s = Ok (b :: unmet) -> dict_find (var b) (task_methods domain) = Some methods ->
    In m methods -> m s [STRING (key b); desired b] = Some subs ->
    solves s (subs ++ Goal g :: ts) p s2 -> solves s (Goal g :: ts) p s2
| solves_multi_met s g ts p s2 : is_satisfied g s = Ok true -> solves s ts p s2 -> solves s (MultiGoal g :: ts) p s2
| solves_multi s g ts b unmet p s2 :
    unsatisfied g s = Ok unmet -> In b unmet ->
    solves s (Goal [b] :: MultiGoal g :: ts) p s2 -> solves s (MultiGoal g :: ts) p s2.

(** The subproblems a derivation can meet. *)
Inductive meets : TwState * list TwTask -> TwState * list TwTask -> Prop :=
| meets_refl x : meets x x
| meets_action s c ts action s1 y :
    dict_find (name c) (actions domain) = Some action -> action s (args c) = Some s1 ->
    meets (s1, ts) y -> meets (s, Call c :: ts) y
| meets_method s c ts methods m subs y :
    dict_find (name c) (actions domain) = None -> dict_find (name c) (task_methods domain) = Some methods ->
    In m methods -> m s (args c) = Some subs -> meets (s, subs ++ ts) y -> meets (s, Call c :: ts) y
| meets_goal_met s g ts y : is_satisfied g s = Ok true -> meets (s, ts) y -> meets (s, Goal g :: ts) y
| meets_goal s g ts b unmet methods m subs y :
    unsatisfied g s = Ok (b :: unmet) -> dict_find (var b) (task_methods domain) = Some methods ->
    In m methods -> m s [STRING (key b); desired b] = Some subs ->
    meets (s, subs ++ Goal g :: ts) y -> meets (s, Goal g :: ts) y
| meets_multi_met s g ts y : is_satisfied g s = Ok true -> meets (s, ts) y -> meets (s, MultiGoal g :: ts) y
| meets_multi s g ts b unmet y :
    unsatisfied g s = Ok unmet -> In b unmet ->
    meets (s, Goal [b] :: MultiGoal g :: ts) y -> meets (s, MultiGoal g :: ts) y.

Lemma meets_trans x y z : meets x y -> meets y z -> meets x z.
Proof.
  induction 1; intros Hz; [assumption|..]; specialize (IHmeets Hz).
  - eapply meets_action; eassumption.
  - eapply meets_method; eassumption.
  - eapply meets_goal_met; eassumption.
  - eapply meets_goal; eassumption.
  - eapply meets_multi_met; eassumption.
  - eapply meets_multi; eassumption.
Qed.
End Derivations.

(** * Inverting the monad *)

Lemma mbind_ok {S A B} (m : stateful S A) (k : A -> stateful S B) s r :
  mbind m k s = Ok r -> exists a s1, m s = Ok (a, s1) /\ k a s1 = Ok r.
Proof. unfold mbind, rbind. destruct (m s) as [[a s1]|]; [eauto|discriminate]. Qed.

Lemma lift_ok {S A} (r : res A) (s : S) a s' : lift r s = Ok (a, s') -> r = Ok a /\ s' = s.
Proof. unfold lift, rbind. destruct r; [|discriminate]. intros [= -> ->]. auto. Qed.

Ltac minv :=
  repeat match goal with
  | H : mbind _ _ _ = Ok _ |- _ => apply mbind_ok in H as (? & ? & ? & H)
  | H : lift _ _ = Ok (_, _) |- _ => apply lift_ok in H as [? ->]
  | H : ret _ _ = Ok (_, _) |- _ => injection H as <- <-
  end.

(** The parts of the search state that hold plans. *)
Definition same_plans (s s' : search) : Prop := success_cache s' = success_cache s.

Section Soundness.
Context `{StdHash}.
Variable domain : TwDomain.
Variable blacklist : TwBlacklist.
Variable late : Z -> bool.

Lemma budget_plans s u s' : check_budget late s = Ok (u, s') -> same_plans s s'.
Proof.
  unfold check_budget. intros E. minv. unfold exceeded in *. unfold same_plans.
  destruct (fired s); [injection H0 as <- <-; minv; discriminate|].
  destruct (negb _); [injection H0 as <- <-; minv; reflexivity|].
  destruct (late _); injection H0 as <- <-; minv; [discriminate|reflexivity].
Qed.

(** What the fast path returns. *)
Definition walk_ok (s : TwState) (todo : list TwTask) (prefix : list TwCall) (w : walk) : Prop :=
  match w with
  | Done p => exists q s', p = (prefix ++ q)%list /\ solves domain blacklist s todo q s'
  | Stuck => True
  | Branch s1 t rest p => exists q, p = (prefix ++ q)%list /\ meets domain (s, todo) (s1, t :: rest) /\
      (forall r s2, solves domain blacklist s1 (t :: rest) r s2 -> solves domain blacklist s todo (q ++ r) s2) /\
      match t with Call c => dict_find (name c) (actions domain) = None | _ => True end
  end.

Lemma walk_ok_skip s s1 t todo prefix c w :
  (forall y, meets domain (s1, todo) y -> meets domain (s, t :: todo) y) ->
  (forall r s2, solves domain blacklist s1 todo r s2 -> solves domain blacklist s (t :: todo) (c ++ r) s2) ->
  walk_ok s1 todo (prefix ++ c) w -> walk_ok s (t :: todo) prefix w.
Proof.
  intros Hm Hs. destruct w as [p| |s2 u rest p]; cbn [walk_ok]; auto.
  - intros (q & s' & -> & Hq). exists (c ++ q)%list, s'. rewrite app_assoc. auto.
  - intros (q & -> & Hq & Hr & Hc). exists (c ++ q)%list. rewrite app_assoc. repeat split; auto.
    intros r s3 Hr'. rewrite <- app_assoc. auto.
Qed.

Lemma walk_ok_here s t todo prefix : match t with Call c => dict_find (name c) (actions domain) = None | _ => True end ->
  walk_ok s (t :: todo) prefix (Branch s t todo prefix).
Proof.
  intros Hc. exists []. rewrite app_nil_r. repeat split; auto. constructor.
Qed.

Lemma fast_path_ok tasks cache todo : forall idx s prefix st w st',
  fast_path domain blacklist late tasks cache todo idx s prefix st = Ok (w, st') ->
  walk_ok s todo prefix w /\ same_plans st st'.
Proof.
  induction todo as [|t todo IH]; intros idx s prefix st w st' E; cbn [fast_path] in E; minv.
  { apply budget_plans in H0. split; [|exact H0]. exists [], s. rewrite app_nil_r. split; [reflexivity|constructor]. }
  apply budget_plans in H0. destruct (negb (found x1)); [minv; split; [exact I|exact H0]|].
  assert (G : forall g, t = Goal g \/ t = MultiGoal g ->
    (let! ok := lift (is_satisfied g s);
      if ok then fast_path domain blacklist late tasks cache todo (S idx) s prefix else ret (Branch s t todo prefix)) x0 = Ok (w, st') ->
    walk_ok s (t :: todo) prefix w /\ same_plans st st').
  { intros g Hg E'. minv. destruct x2; minv.
    - destruct (IH _ _ _ _ _ _ E') as [W P]. split; [|unfold same_plans in *; congruence].
      apply (walk_ok_skip s s t todo prefix []); [| |now rewrite app_nil_r].
      + intros y Hy. destruct Hg as [-> | ->]; [now apply meets_goal_met|now apply meets_multi_met].
      + intros r s2 Hr. cbn [app]. destruct Hg as [-> | ->]; [now apply solves_goal_met|now apply solves_multi_met].
    - split; [|exact H0]. apply walk_ok_here. destruct Hg as [-> | ->]; exact I. }
  destruct t as [c|g|g]; [|eapply G; eauto..]. clear G.
  destruct (dict_find (name c) (actions domain)) as [action|] eqn:Ea; [|minv; split; [now apply walk_ok_here|exact H0]].
  destruct (blacklisted blacklist c) eqn:Eb; [minv; split; [exact I|exact H0]|].
  destruct (action (copy s) (args c)) as [s1|] eqn:Es; [|minv; split; [exact I|exact H0]].
  destruct (IH _ _ _ _ _ _ E) as [W P]. split; [|unfold same_plans in *; congruence].
  apply (walk_ok_skip s s1 (Call c) todo prefix [c]); [| |exact W].
  - intros y Hy. eapply meets_action; eauto.
  - intros r s2 Hr. cbn [app]. eapply solves_action; eauto.
Qed.

(** ** The memo of plans *)

(** What a search for a subproblem leaves.  The tasks of a subproblem are all
    that is left to do, so a plan for it ends the whole search: as long as the
    search goes on, no plan has been stored, and none is ever looked up under
    the key of another subproblem. *)
Definition found_ok (s : TwState) (ts : list TwTask) (r : option (list TwCall)) (st : search) : Prop :=
  match r with
  | Some p => exists s', solves domain blacklist s ts p s'
  | None => success_cache st = []
  end.

Definition seek_ok (seek : TwState -> list TwTask -> M (option (list TwCall))) : Prop :=
  forall s ts st r st', success_cache st = [] -> seek s ts st = Ok (r, st') -> found_ok s ts r st'.

Lemma order_plans k n st o st' : tw_order_methods k n st = Ok (o, st') -> same_plans st st'.
Proof.
  unfold tw_order_methods, same_plans. destruct (n <=? 1)%nat; [now intros [= _ <-]|].
  destruct (match firstn _ _ with [] => _ | _ => _ end). now intros [= _ <-].
Qed.

Lemma note_plans k m b st u st' : tw_note_method_result k m b st = Ok (u, st') -> same_plans st st'.
Proof. unfold tw_note_method_result, same_plans. now intros [= _ <-]. Qed.

Lemma mark_fail_ok k s ts st r st' : success_cache st = [] -> mark_fail k st = Ok (r, st') -> found_ok s ts r st'.
Proof. unfold mark_fail. intros C [= <- <-]. now destruct (k =? 0). Qed.

Lemma mark_success_ok k s ts p s' st r st' : solves domain blacklist s ts p s' ->
  mark_success k p st = Ok (r, st') -> found_ok s ts r st'.
Proof. unfold mark_success. intros S [= <- <-]. now exists s'. Qed.

(** The subproblem a method opens. *)
Lemma try_methods_ok seek (methods : list TwMethodFn) s ar k rest ts : seek_ok seek ->
  (forall (m : TwMethodFn) subs, In m methods -> m s ar = Some subs ->
     forall p s2, solves domain blacklist s (subs ++ rest) p s2 -> solves domain blacklist s ts p s2) ->
  forall order seen st r st', success_cache st = [] ->
    try_methods domain blacklist seek methods s ar k rest seen order st = Ok (r, st') -> found_ok s ts r st'.
Proof.
  intros Seek Open. induction order as [|midx order IH]; intros seen st r st' C E; cbn [try_methods] in E.
  { minv. exact C. }
  destruct (nth_error methods midx) as [m|] eqn:Em; [|eapply IH; eauto].
  destruct (m s ar) as [subs|] eqn:Es; [|eapply IH; eauto].
  destruct (mem _ seen); [eapply IH; eauto|]. minv. destruct (negb x); [eapply IH; eauto|]. minv.
  match goal with Hs : seek _ _ _ = _ |- _ => apply (Seek _ _ _ _ _ C) in Hs as R end.
  destruct x0 as [p|]; minv; match goal with Hn : tw_note_method_result _ _ _ _ = _ |- _ => apply note_plans in Hn end.
  - destruct R as (s' & R). exists s'. eapply Open; eauto using nth_error_In.
  - eapply IH; [|exact E]. unfold same_plans in *. congruence.
Qed.

Lemma try_bindings_ok seek s g rest unmet : seek_ok seek -> unsatisfied g s = Ok unmet ->
  forall todo st r st', (forall b, In b todo -> In b unmet) -> success_cache st = [] ->
    try_bindings seek s (MultiGoal g :: rest) todo st = Ok (r, st') -> found_ok s (MultiGoal g :: rest) r st'.
Proof.
  intros Seek Hu. induction todo as [|b todo IH]; intros st r st' Hin C E; cbn [try_bindings] in E; minv; [exact C|].
  match goal with Hs : seek _ _ _ = _ |- _ => apply (Seek _ _ _ _ _ C) in Hs as R end.
  destruct x as [p|]; minv.
  - destruct R as (s' & R). exists s'. eapply solves_multi; eauto. apply Hin. now left.
  - eapply IH; eauto. intros b' Hb'. apply Hin. now right.
Qed.

(** From the branching point back to the subproblem the search was entered with. *)
Lemma finish_ok k s ts s1 t rest q st r0 r st' :
  (forall p s2, solves domain blacklist s1 (t :: rest) p s2 -> solves domain blacklist s ts (q ++ p) s2) ->
  found_ok s1 (t :: rest) r0 st -> finish k q r0 st = Ok (r, st') -> found_ok s ts r st'.
Proof.
  intros Back R E. destruct r0 as [p|]; cbn [finish] in E; [|eapply mark_fail_ok; eauto].
  destruct R as (s2 & R). eapply mark_success_ok; eauto.
Qed.

Lemma seek_plan_ok fuel : seek_ok (tw_seek_plan domain blacklist late fuel).
Proof.
  induction fuel as [|fuel IH]; intros s ts st r st' C E; cbn [tw_seek_plan] in E; minv;
    match goal with Hb : check_budget _ _ = _ |- _ => apply budget_plans in Hb; unfold same_plans in Hb; rewrite C in Hb end;
    (destruct ts as [|t0 ts]; [minv; exists s; constructor|]);
    (destruct (mem _ (fail_cache x0)); [injection E as <- <-; assumption|]);
    (destruct (find_key _ (success_cache x0)) as [p|] eqn:Ef; [rewrite H0 in Ef; discriminate|]);
    minv;
    match goal with Hf : fast_path _ _ _ _ _ _ _ _ _ _ = _ |- _ => apply fast_path_ok in Hf as [W P]; unfold same_plans in P; rewrite H0 in P end;
    (destruct x1 as [p| |s1 t rest p]; cbn [walk_ok] in W;
     [destruct W as (q & s' & -> & Sq); eapply mark_success_ok; eauto|eapply mark_fail_ok; eauto|]).
  - eapply mark_fail_ok; eauto.
  - destruct W as (q & -> & _ & Back & Hc). destruct t as [c|g|g]; minv.
    + destruct (dict_find (name c) (task_methods domain)) as [methods|] eqn:Em; [|eapply mark_fail_ok; eauto]. minv.
      match goal with Ho : tw_order_methods _ _ _ = _ |- _ => apply order_plans in Ho; unfold same_plans in Ho; rewrite P in Ho end.
      eapply finish_ok; [exact Back| |exact E]. eapply try_methods_ok; eauto. intros; eapply solves_method; eauto.
    + destruct x1 as [|b unmet]; [eapply mark_fail_ok; eauto|].
      destruct (dict_find (var b) (task_methods domain)) as [methods|] eqn:Em; [|eapply mark_fail_ok; eauto]. minv.
      match goal with Ho : tw_order_methods _ _ _ = _ |- _ => apply order_plans in Ho; unfold same_plans in Ho; rewrite P in Ho end.
      eapply finish_ok; [exact Back| |exact E]. eapply try_methods_ok; eauto. intros; eapply solves_goal; eauto.
    + destruct x1 as [|b unmet]; [eapply mark_fail_ok; eauto|]. minv.
      eapply finish_ok; [exact Back| |exact E]. eapply try_bindings_ok; eauto.
Qed.
End Soundness.

(** * The cached witness scan *)

Section Witness.
Variable domain : TwDomain.
Variable s : TwState.

Definition shift (a b : Z) (r : res (Z * Z)) : res (Z * Z) := do ck <- r; Ok (fst ck + a, snd ck + b).

(** The tasks whose contribution depends on the state. *)
Fixpoint dynamic_scan (ts : list TwTask) (ck : Z * Z) : res (Z * Z) :=
  match ts with
  | [] => Ok ck
  | Call _ :: ts => dynamic_scan ts ck
  | t :: ts => do ck <- witness_task domain s t ck; dynamic_scan ts ck
  end.

Fixpoint total (f : TwTask -> Z) (ts : list TwTask) : Z :=
  match ts with [] => 0 | t :: ts => f t + total f ts end.

Lemma goal_witness_shift g c k a b : goal_witness domain g s (c + a, k + b) = shift a b (goal_witness domain g s (c, k)).
Proof.
  unfold goal_witness, shift. destruct (unsatisfied g s) as [[|x u]|]; cbn [rbind fst snd]; [reflexivity| |reflexivity].
  destruct (has_methods domain (var x)); cbn [fst snd]; f_equal; f_equal; lia.
Qed.

Lemma witness_task_shift t c k a b : witness_task domain s t (c + a, k + b) = shift a b (witness_task domain s t (c, k)).
Proof.
  destruct t as [x|g|g]; cbn [witness_task].
  - unfold shift. destruct (has_action domain (name x)), (has_methods domain (name x)); cbn [rbind fst snd]; do 2 f_equal; lia.
  - destruct (is_satisfied g s) as [[]|]; cbn [rbind]; [reflexivity|apply goal_witness_shift|reflexivity].
  - destruct (is_satisfied g s); reflexivity.
Qed.

Lemma dynamic_shift ts : forall c k a b, dynamic_scan ts (c + a, k + b) = shift a b (dynamic_scan ts (c, k)).
Proof.
  induction ts as [|t ts IH]; intros c k a b; [reflexivity|].
  assert (G : (do ck <- witness_task domain s t (c + a, k + b); dynamic_scan ts ck) =
    shift a b (do ck <- witness_task domain s t (c, k); dynamic_scan ts ck)).
  { rewrite witness_task_shift. unfold shift at 1. destruct (witness_task domain s t (c, k)) as [[c' k']|]; cbn [rbind fst snd]; [apply IH|reflexivity]. }
  destruct t; cbn [dynamic_scan]; [apply IH|exact G|exact G].
Qed.

Lemma scan_split ts : forall c k,
  witness_scan domain s ts (c, k) = dynamic_scan ts (c + total (static_cert domain) ts, k + total (static_skip domain) ts).
Proof.
  induction ts as [|t ts IH]; intros c k; cbn [witness_scan dynamic_scan total]; [now rewrite !Z.add_0_r|].
  assert (G : static_cert domain t = 0 -> static_skip domain t = 0 ->
    (do ck <- witness_task domain s t (c, k); witness_scan domain s ts ck) =
    do ck <- witness_task domain s t (c + (static_cert domain t + total (static_cert domain) ts), k + (static_skip domain t + total (static_skip domain) ts)); dynamic_scan ts ck).
  { intros -> ->. rewrite witness_task_shift. unfold shift. destruct (witness_task domain s t (c, k)) as [[c' k']|]; cbn [rbind fst snd]; [|reflexivity].
    rewrite IH. f_equal. }
  destruct t as [x|g|g]; [|apply G; reflexivity..]. cbn [witness_task static_cert static_skip].
  destruct (has_action domain (name x)), (has_methods domain (name x)); cbn [rbind fst snd]; rewrite IH;
    match goal with |- dynamic_scan _ (?a, ?b) = dynamic_scan _ (?a', ?b') => replace a with a' by lia; replace b with b' by lia; reflexivity end.
Qed.

Lemma goal_scan_dynamic ts i suf : forall pre ck, ts = (pre ++ suf)%list ->
  goal_scan domain s ts i (goal_positions (List.length pre) suf) ck = dynamic_scan (skipn (i - List.length pre) suf) ck.
Proof.
  induction suf as [|t suf IH]; intros pre ck Hts; [now rewrite skipn_nil|].
  assert (Hn : nth_error ts (List.length pre) = Some t) by (rewrite Hts, nth_error_app2, Nat.sub_diag by lia; reflexivity).
  assert (IH' : forall ck, goal_scan domain s ts i (goal_positions (S (List.length pre)) suf) ck = dynamic_scan (skipn (i - S (List.length pre)) suf) ck).
  { intros ck'. specialize (IH (pre ++ [t])%list ck'). rewrite length_app, Nat.add_1_r, <- app_assoc in IH. apply IH. exact Hts. }
  destruct (Nat.ltb_spec (List.length pre) i) as [L|L].
  - replace (i - List.length pre)%nat with (S (i - S (List.length pre))) by lia. cbn [skipn].
    destruct t; cbn [goal_positions goal_scan]; rewrite ?(proj2 (Nat.ltb_lt _ _) L); apply IH'.
  - replace (i - List.length pre)%nat with 0%nat by lia. cbn [skipn].
    replace (i - S (List.length pre))%nat with 0%nat in IH' by lia. cbn [skipn] in IH'.
    destruct t as [c|g|g]; cbn [goal_positions goal_scan dynamic_scan]; [apply IH'|..];
      rewrite (proj2 (Nat.ltb_ge _ _) L), Hn; cbn [witness_task]; (destruct (is_satisfied g s) as [[]|]; cbn [rbind]; [| |reflexivity]).
    + apply IH'.
    + destruct (goal_witness domain g s ck); cbn [rbind]; [apply IH'|reflexivity].
    + apply IH'.
    + apply IH'.
Qed.

Lemma prefix_sums_nth f ts : forall i a, (i <= List.length ts)%nat -> nth i (prefix_sums f a ts) 0 = a + total f (firstn i ts).
Proof.
  induction ts as [|t ts IH]; intros [|i] a Hi; cbn [prefix_sums nth firstn total List.length] in *; try lia.
  rewrite IH by lia. lia.
Qed.

Lemma prefix_sums_last f ts : forall a, last (prefix_sums f a ts) 0 = a + total f ts.
Proof.
  induction ts as [|t ts IH]; intros a; [cbn; lia|]. cbn [total]. rewrite Z.add_assoc, <- IH. destruct ts; reflexivity.
Qed.

Lemma total_skip f ts i : total f ts = total f (firstn i ts) + total f (skipn i ts).
Proof.
  revert i. induction ts as [|t ts IH]; intros [|i]; cbn [firstn skipn total]; try lia. rewrite (IH i). lia.
Qed.

Lemma cached_scan ts i : (i <= List.length ts)%nat ->
  tw_witness_oracle_goal_reach_cached domain s ts (tw_build_witness_scan_cache domain ts) i =
  tw_witness_oracle_goal_reach domain s (skipn i ts).
Proof.
  intros Hi. unfold tw_witness_oracle_goal_reach_cached, tw_witness_oracle_goal_reach. rewrite scan_split.
  cbn [tw_build_witness_scan_cache certified_prefix skipped_prefix goal_indices].
  rewrite !prefix_sums_last, !prefix_sums_nth by exact Hi. rewrite (goal_scan_dynamic ts i ts [] _ eq_refl).
  cbn [List.length]. rewrite Nat.sub_0_r.
  rewrite (total_skip (static_cert domain) ts i), (total_skip (static_skip domain) ts i).
  do 2 f_equal. f_equal; lia.
Qed.
End Witness.

(** * Exceptions *)

(** The bindings of the goals in a task list. *)
Definition bindings (ts : list TwTask) : TwGoal :=
  flat_map (fun t => match t with Call _ => [] | Goal g | MultiGoal g => g end) ts.

(** What a check of the bindings [bs] in state [s] may throw. *)
Definition raised {A} (s : TwState) (bs : TwGoal) (r : res A) : Prop :=
  match r with Ok _ => True | Throw e => exists b, In b bs /\ satisfied b s = Throw e end.

Lemma raised_bind {A B} s bs (r : res A) (k : A -> res B) :
  raised s bs r -> (forall a, raised s bs (k a)) -> raised s bs (rbind r k).
Proof. intros Hr Hk. destruct r as [a|e]; [apply Hk|exact Hr]. Qed.

Lemma raised_incl {A} s bs bs' (r : res A) : raised s bs r -> incl bs bs' -> raised s bs' r.
Proof. intros Hr Hi. destruct r as [a|e]; [exact I|]. destruct Hr as (b & Hb & E). exists b. auto. Qed.

Lemma raised_satisfied b s bs : In b bs -> raised s bs (satisfied b s).
Proof. intros Hb. destruct (satisfied b s) eqn:E; [exact I|]. exists b. auto. Qed.

(** Checking a binding throws only what the parser of its variable does. *)
Lemma satisfied_throws b s : satisfied b s <> Throw BudgetExceeded.
Proof.
  unfold satisfied. destruct (rebac_graph s) as [g|]; [|discriminate]. destruct (edges g); [discriminate|].
  destruct (starts "{" (var b)); [|discriminate]. destruct (parse_json_str (var b)) as [v|e] eqn:E; cbn [rbind].
  - destruct (is_dict v); discriminate.
  - intros [= ->]. unfold parse_json_str, rbind in E. pose proof (parse_throws (var b)) as P.
    destruct (parse_json (var b)) as [[v q]|e]; [discriminate|]. injection E as ->. now destruct P.
Qed.

Create HintDb raises.
#[local] Hint Resolve raised_satisfied incl_refl in_eq in_cons incl_tl incl_appl incl_appr : raises.

Ltac raises :=
  repeat match goal with
  | |- raised _ _ (rbind _ _) => apply raised_bind; [|intros ?]
  | |- raised _ _ (match ?x with _ => _ end) => destruct x
  | |- raised _ _ (Ok _) => exact I
  end; auto with raises.

Lemma raised_is_satisfied g s : raised s g (is_satisfied g s).
Proof. induction g as [|b g IH]; cbn [is_satisfied]; raises. eapply raised_incl; eauto with raises. Qed.

Lemma raised_unsatisfied g s : raised s g (unsatisfied g s).
Proof. induction g as [|b g IH]; cbn [unsatisfied]; raises. eapply raised_incl; eauto with raises. Qed.

(** The same for a goal that is one of several tasks. *)
Lemma raised_goal g s bs : incl g bs -> raised s bs (is_satisfied g s) /\ raised s bs (unsatisfied g s).
Proof. intros Hi. split; (eapply raised_incl; [|exact Hi]); [apply raised_is_satisfied|apply raised_unsatisfied]. Qed.

Lemma incl_bindings t ts : In t ts -> incl (bindings [t]) (bindings ts).
Proof. intros Ht b Hb. unfold bindings in *. rewrite in_flat_map in *. destruct Hb as (u & [<-|[]] & Hu). eauto. Qed.

Section Raises.
Variable domain : TwDomain.
Variable s : TwState.

Lemma raised_witness_task t bs ck : incl (bindings [t]) bs -> raised s bs (witness_task domain s t ck).
Proof.
  cbn [bindings flat_map]. rewrite app_nil_r. intros Hi. destruct t as [c|g|g]; cbn [witness_task]; raises;
    try apply (raised_goal g s bs Hi). unfold goal_witness. raises. apply (raised_goal g s bs Hi).
Qed.

Lemma raised_witness ts : raised s (bindings ts) (tw_witness_oracle_goal_reach domain s ts).
Proof.
  assert (L : forall l ck, incl l ts -> raised s (bindings ts) (witness_scan domain s l ck)).
  { induction l as [|t l IH]; intros ck Hi; cbn [witness_scan]; raises.
    - apply raised_witness_task, incl_bindings, Hi. now left.
    - apply IH. intros x Hx. apply Hi. now right. }
  unfold tw_witness_oracle_goal_reach. raises.
Qed.

Lemma raised_plausible bl ts : raised s (bindings ts) (tw_prefix_plausible domain bl ts s).
Proof.
  unfold tw_prefix_plausible. assert (Hi : incl (firstn 2 ts) ts) by (intros x Hx; rewrite <- (firstn_skipn 2 ts); apply in_app_iff; auto).
  induction (firstn 2 ts) as [|t l IH]; cbn [all_plausible]; raises; [|apply IH; intros x Hx; apply Hi; now right].
  assert (Ht : incl (bindings [t]) (bindings ts)) by (apply incl_bindings, Hi; now left).
  cbn [bindings flat_map] in Ht. rewrite app_nil_r in Ht. unfold tw_task_shallow_plausible, goal_plausible.
  destruct t as [c|g|g]; raises; apply (raised_goal g s _ Ht).
Qed.
End Raises.

Section Exceptions.
Context `{StdHash}.
Variable domain : TwDomain.
Variable blacklist : TwBlacklist.
Variable init : TwState * list TwTask.

(** [e] comes from checking a binding of a subproblem that [init] leads to. *)
Definition blamed_goal (e : exn) : Prop := exists s ts b,
  meets domain init (s, ts) /\ In b (bindings ts) /\ satisfied b s = Throw e.

(** No reading of the clock behind tick [a] up to tick [b] is late. *)
Definition quiet (late : Z -> bool) (a b : Z) : Prop :=
  forall t, a < t <= b -> t mod TW_BUDGET_SAMPLE_EVERY = 0 -> late t = false.

(** A run is cut off at the first reading of the clock that is late, if it gets
    there, and otherwise does the same under every clock. *)
Definition budgeted {A} (m : (Z -> bool) -> M A) (Q : A -> Prop) : Prop := forall late st, fired st = false ->
  match m late st with
  | Ok (a, st') =>
      Q a /\ fired st' = false /\ tick st <= tick st' /\ quiet late (tick st) (tick st') /\
      forall late', quiet late' (tick st) (tick st') -> m late' st = Ok (a, st')
  | Throw e =>
      (e = BudgetExceeded /\ exists t, tick st < t /\ t mod TW_BUDGET_SAMPLE_EVERY = 0 /\ late t = true /\
         quiet late (tick st) (t - 1) /\
         forall late', quiet late' (tick st) (t - 1) -> late' t = true -> m late' st = Throw e) \/
      (blamed_goal e /\ exists t, tick st <= t /\ quiet late (tick st) t /\
         forall late', quiet late' (tick st) t -> m late' st = Throw e)
  end.

Lemma quiet_trans late a b c : quiet late a b -> quiet late b c -> quiet late a c.
Proof. intros H1 H2 t Ht E. destruct (Z.le_gt_cases t b); [apply H1|apply H2]; auto; lia. Qed.

Lemma quiet_part late a b c d : quiet late a d -> a <= b -> c <= d -> quiet late b c.
Proof. intros H1 L1 L2 t Ht E. apply H1; auto; lia. Qed.

Lemma quiet_none late a : quiet late a a.
Proof. intros t Ht. lia. Qed.

(** A step that reads no clock and leaves the budget alone. *)
Lemma bg_steady {A} (m : M A) Q :
  (forall st, exists a st', m st = Ok (a, st') /\ Q a /\ fired st' = fired st /\ tick st' = tick st) -> budgeted (fun _ => m) Q.
Proof.
  intros Hm late st F. destruct (Hm st) as (a & st' & -> & HQ & F' & T). rewrite T, F'. repeat split; auto; [lia|apply quiet_none].
Qed.

Lemma bg_ret {A} (a : A) (Q : A -> Prop) : Q a -> budgeted (fun _ => ret a) Q.
Proof. intros HQ. apply bg_steady. intros st. exists a, st. auto. Qed.

Lemma bg_lift {A} s ts (r : res A) : meets domain init (s, ts) -> raised s (bindings ts) r -> budgeted (fun _ => lift r) (fun a => r = Ok a).
Proof.
  intros Hm Hr. destruct r as [a|e]; [apply bg_steady; intros st; exists a, st; auto|].
  intros late st F. right. split; [destruct Hr as (b & Hb & E); exists s, ts, b; auto|].
  exists (tick st). split; [lia|]. split; [apply quiet_none|reflexivity].
Qed.

Lemma bg_bind {A B} (m : (Z -> bool) -> M A) (k : (Z -> bool) -> A -> M B) Q R : budgeted m Q ->
  (forall a, Q a -> budgeted (fun l => k l a) R) -> budgeted (fun l => mbind (m l) (k l)) R.
Proof.
  intros Hm Hk late st F. specialize (Hm late st F). unfold mbind, rbind.
  destruct (m late st) as [[a st1]|e].
  - destruct Hm as (HQ & F1 & T1 & Q1 & E1). specialize (Hk a HQ late st1 F1). cbn [fst snd].
    assert (Ex : forall late' t, quiet late' (tick st) t -> tick st1 <= t -> m late' st = Ok (a, st1)).
    { intros late' t Ht L. apply E1. eapply quiet_part; [exact Ht|lia|lia]. }
    destruct (k late a st1) as [[b st2]|e].
    + destruct Hk as (HR & F2 & T2 & Q2 & E2). repeat split; auto; [lia|eapply quiet_trans; eauto|].
      intros late' Ht. rewrite (Ex late' _ Ht T2). cbn [fst snd]. apply E2. eapply quiet_part; [exact Ht|lia|lia].
    + destruct Hk as [(-> & t & T2 & Tm & L & Q2 & E2)|(Be & t & T2 & Q2 & E2)]; [left|right].
      * split; [reflexivity|]. exists t. repeat split; auto; [lia|eapply quiet_trans; eauto|].
        intros late' Ht Lt. rewrite (Ex late' _ Ht) by lia. cbn [fst snd]. apply E2; auto. eapply quiet_part; [exact Ht|lia|lia].
      * split; [exact Be|]. exists t. repeat split; [lia|eapply quiet_trans; eauto|].
        intros late' Ht. rewrite (Ex late' _ Ht) by lia. cbn [fst snd]. apply E2. eapply quiet_part; [exact Ht|lia|lia].
  - destruct Hm as [(-> & t & T & Tm & L & Q1 & E1)|(Be & t & T & Q1 & E1)]; [left|right]; (split; [auto|]); exists t; repeat split; auto.
    + intros late' Ht Lt. now rewrite E1.
    + intros late' Ht. now rewrite E1.
Qed.

Lemma bg_budget : budgeted (fun l => check_budget l) (fun _ => True).
Proof.
  intros late st F. unfold check_budget, mbind, exceeded, rbind. rewrite F.
  destruct (Z.eqb_spec ((tick st + 1) mod TW_BUDGET_SAMPLE_EVERY) 0) as [E|N]; cbn [negb fst snd].
  - destruct (late (tick st + 1)) eqn:L; cbn [fst snd lift ret rbind].
    + left. split; [reflexivity|]. exists (tick st + 1). repeat split; auto; [lia|intros t Ht; lia|].
      intros late' _ ->. reflexivity.
    + cbn [fired tick]. split; [exact I|]. split; [reflexivity|]. split; [lia|].
      split; [intros t Ht _; replace t with (tick st + 1) by lia; exact L|].
      intros late' Ht. rewrite (Ht (tick st + 1)) by (auto; lia). reflexivity.
  - cbn [ret fired tick]. split; [exact I|]. split; [reflexivity|]. split; [lia|]. split; [|reflexivity].
    intros t Ht E. replace t with (tick st + 1) in E by lia. contradiction.
Qed.

Lemma bg_fail k : budgeted (fun _ => mark_fail k) (fun _ => True).
Proof. apply bg_steady. intros st. unfold mark_fail. destruct (k =? 0); eauto 8. Qed.

Lemma bg_success k p : budgeted (fun _ => mark_success k p) (fun _ => True).
Proof. apply bg_steady. intros st. unfold mark_success. destruct (k =? 0); eauto 8. Qed.

Lemma bg_order k n : budgeted (fun _ => tw_order_methods k n) (fun _ => True).
Proof.
  apply bg_steady. intros st. unfold tw_order_methods. destruct (n <=? 1)%nat; [eauto 8|].
  destruct (match firstn _ _ with [] => _ | _ => _ end). eauto 8.
Qed.

Lemma bg_note k m b : budgeted (fun _ => tw_note_method_result k m b) (fun _ => True).
Proof. apply bg_steady. intros st. unfold tw_note_method_result. eauto 8. Qed.

Lemma bg_cached k (m : (Z -> bool) -> M (option (list TwCall))) : budgeted m (fun _ => True) ->
  budgeted (fun l st => if mem k (fail_cache st) then Ok (None, st)
                        else match find_key k (success_cache st) with Some p => Ok (Some p, st) | None => m l st end) (fun _ => True).
Proof.
  intros Hm late st F. specialize (Hm late st F).
  destruct (mem k (fail_cache st)); [repeat split; auto; [lia|apply quiet_none]|].
  destruct (find_key k (success_cache st)); [repeat split; auto; [lia|apply quiet_none]|exact Hm].
Qed.

Create HintDb budgets.
#[local] Hint Resolve bg_budget bg_fail bg_success bg_order bg_note : budgets.

(** Where the fast path stops: a subproblem of [init]. *)
Definition stops (w : walk) : Prop :=
  match w with
  | Branch s t rest _ => meets domain init (s, t :: rest) /\
      match t with Call c => dict_find (name c) (actions domain) = None | _ => True end
  | _ => True
  end.

Lemma bg_fast tasks todo : forall idx s prefix, todo = skipn idx tasks -> (idx <= List.length tasks)%nat -> meets domain init (s, todo) ->
  budgeted (fun l => fast_path domain blacklist l tasks (tw_build_witness_scan_cache domain tasks) todo idx s prefix) stops.
Proof.
  induction todo as [|t todo IH]; intros idx s prefix Et Hi Hm; cbn [fast_path]; (eapply bg_bind; [apply bg_budget|intros _ _]).
  { now apply bg_ret. }
  assert (Hs : todo = skipn (S idx) tasks /\ (S idx <= List.length tasks)%nat).
  { assert (idx < List.length tasks)%nat by (destruct (Nat.eq_dec idx (List.length tasks)) as [->|]; [rewrite skipn_all in Et; discriminate|lia]).
    split; [|lia]. change (S idx) with (1 + idx)%nat. rewrite <- skipn_skipn, <- Et. reflexivity. }
  eapply bg_bind; [apply (bg_lift s (t :: todo)); [exact Hm|rewrite cached_scan, <- Et by exact Hi; apply raised_witness]|].
  intros wr _. destruct (negb (found wr)); [now apply bg_ret|].
  assert (Hg : forall g, t = Goal g \/ t = MultiGoal g ->
    budgeted (fun l => let! ok := lift (is_satisfied g s);
      if ok then fast_path domain blacklist l tasks (tw_build_witness_scan_cache domain tasks) todo (S idx) s prefix
      else ret (Branch s t todo prefix)) stops).
  { intros g Hg. eapply bg_bind; [apply (bg_lift s (t :: todo) _ Hm)|].
    - apply raised_goal. destruct Hg as [-> | ->]; cbn [bindings flat_map]; auto with raises.
    - intros [] E; [apply IH; try apply Hs; eapply meets_trans; [exact Hm|]; destruct Hg as [-> | ->]|apply bg_ret; split; [exact Hm|destruct Hg as [-> | ->]; exact I]].
      + apply meets_goal_met; [exact E|constructor].
      + apply meets_multi_met; [exact E|constructor]. }
  destruct t as [c|g|g]; [|apply Hg; auto..]. clear Hg.
  destruct (dict_find (name c) (actions domain)) as [action|] eqn:Ea; [|now apply bg_ret].
  destruct (blacklisted blacklist c); [now apply bg_ret|].
  destruct (action (copy s) (args c)) as [s1|] eqn:Es; [|now apply bg_ret].
  apply IH; try apply Hs. eapply meets_trans; [exact Hm|]. eapply meets_action; eauto. constructor.
Qed.

Section Next.
Variable seek : (Z -> bool) -> TwState -> list TwTask -> M (option (list TwCall)).
Hypothesis Hseek : forall s ts, meets domain init (s, ts) -> budgeted (fun l => seek l s ts) (fun _ => True).

Lemma bg_methods (methods : list TwMethodFn) s ar k rest :
  (forall (m : TwMethodFn) subs, In m methods -> m s ar = Some subs -> meets domain init (s, (subs ++ rest)%list)) ->
  forall order seen, budgeted (fun l => try_methods domain blacklist (seek l) methods s ar k rest seen order) (fun _ => True).
Proof.
  intros Open. induction order as [|i order IH]; intros seen; cbn [try_methods]; [now apply bg_ret|].
  destruct (nth_error methods i) as [m|] eqn:Em; [|apply IH]. destruct (m s ar) as [subs|] eqn:Es; [|apply IH].
  destruct (mem _ seen); [apply IH|]. pose proof (Open m subs (nth_error_In _ _ Em) Es) as Hm.
  eapply bg_bind; [apply (bg_lift s _ _ Hm), raised_plausible|]. intros [] _; cbn [negb]; [|apply IH].
  eapply bg_bind; [now apply Hseek|]. intros [p|] _; (eapply bg_bind; [apply bg_note|intros _ _]); [now apply bg_ret|apply IH].
Qed.

Lemma bg_bindings s g rest unmet : meets domain init (s, MultiGoal g :: rest) -> unsatisfied g s = Ok unmet ->
  forall todo, incl todo unmet -> budgeted (fun l => try_bindings (seek l) s (MultiGoal g :: rest) todo) (fun _ => True).
Proof.
  intros Hm Hu. induction todo as [|b todo IH]; intros Hi; cbn [try_bindings]; [now apply bg_ret|].
  eapply bg_bind; [apply Hseek|].
  - eapply meets_trans; [exact Hm|]. eapply meets_multi; [exact Hu|apply Hi; now left|constructor].
  - intros [p|] _; [now apply bg_ret|]. apply IH. intros x Hx. apply Hi. now right.
Qed.
End Next.

Lemma bg_finish k prefix r : budgeted (fun _ => finish k prefix r) (fun _ => True).
Proof. destruct r; [apply bg_success|apply bg_fail]. Qed.
#[local] Hint Resolve bg_finish : budgets.

Lemma bg_seek fuel : forall s ts, meets domain init (s, ts) ->
  budgeted (fun l => tw_seek_plan domain blacklist l fuel s ts) (fun _ => True).
Proof.
  induction fuel as [|fuel IH]; intros s ts Hm; cbn [tw_seek_plan]; (eapply bg_bind; [apply bg_budget|intros _ _]);
    (destruct ts as [|t0 ts]; [now apply bg_ret|]); apply bg_cached; set (k := tw_search_key s (t0 :: ts));
    (eapply bg_bind; [apply bg_fast; [reflexivity|lia|exact Hm]|]);
    intros [p| |s1 t rest p] W; auto with budgets. destruct W as [Hm1 Hc]. destruct t as [c|g|g].
  - destruct (dict_find (name c) (task_methods domain)) as [methods|] eqn:Em; [|apply bg_fail].
    eapply bg_bind; [apply bg_order|intros order _]. eapply bg_bind; [apply (bg_methods (fun l => tw_seek_plan domain blacklist l fuel)); [exact IH|]|intros; apply bg_finish].
    intros m subs Hi Hs. eapply meets_trans; [exact Hm1|]. eapply meets_method; eauto. constructor.
  - eapply bg_bind; [apply (bg_lift s1 _ _ Hm1), raised_goal; cbn [bindings flat_map]; auto with raises|intros [|b unmet] Eu; [apply bg_fail|]].
    destruct (dict_find (var b) (task_methods domain)) as [methods|] eqn:Em; [|apply bg_fail].
    eapply bg_bind; [apply bg_order|intros order _]. eapply bg_bind; [apply (bg_methods (fun l => tw_seek_plan domain blacklist l fuel)); [exact IH|]|intros; apply bg_finish].
    intros m subs Hi Hs. eapply meets_trans; [exact Hm1|]. eapply meets_goal; eauto. constructor.
  - eapply bg_bind; [apply (bg_lift s1 _ _ Hm1), raised_goal; cbn [bindings flat_map]; auto with raises|intros [|b unmet] Eu; [apply bg_fail|]].
    eapply bg_bind; [eapply (bg_bindings (fun l => tw_seek_plan domain blacklist l fuel)); [exact IH|exact Hm1|exact Eu|apply incl_refl]|intros; apply bg_finish].
Qed.
End Exceptions.
