(* ===== verification/TwPlannerTree.v ===== *)
(** taskweft_nif/standalone/tw_planner.hpp (the tree-building search) and
    tw_replan.hpp.

    The search threads the solution tree besides its budget and fail cache, and
    rolls the tree back before it tries the next alternative.  Here every
    recursive call costs a unit of fuel. *)

From Stdlib Require Import ZArith String Ascii List Bool Lia.
From S2P Require Import Prelude OrderedMap TwValue TwJson TwRebac TwState TwDomain TwPlanner.
Import ListNotations.
#[local] Open Scope Z_scope.
#[local] Open Scope tw_scope.
#[local] Open Scope search_scope.

(** Method indices to skip, by call key; [nullptr] or a map. *)
Definition TwMethodSkip := option (dict (list Z)).

Definition skip_method (ms : TwMethodSkip) (k : string) (m : nat) : bool :=
  match ms with
  | None => false
  | Some d => match dict_find k d with Some l => mem (Z.of_nat m) l | None => false end
  end.

Record tree_search := mkTS { base : search; tree : TwSolTree }.

Definition on_base {A} (m : M A) : stateful tree_search A := fun st =>
  do r <- m (base st); Ok (fst r, mkTS (snd r) (tree st)).

Definition get_tree : stateful tree_search TwSolTree := fun st => Ok (tree st, st).
Definition set_tree (t : TwSolTree) : stateful tree_search unit := fun st => Ok (tt, mkTS (base st) t).

Definition plan_result := stateful tree_search (option (list TwCall)).

(** A node for a decomposition, with [first_step] the actions so far. *)
Definition push_choice (t : TwSolTree) (k : Kind) (parent : Z) (nm : string) (ar : list TwValue) (m : nat)
    : TwSolTree * Z :=
  let first := Z.of_nat (List.length (action_nodes t)) in
  let '(t', id) := add_node t k parent nm ar (Z.of_nat m) in
  (mkTree (set_node (nodes t') id (fun n => with_first_step n first)) (action_nodes t'), id).

Definition push_action (t : TwSolTree) (parent : Z) (c : TwCall) : TwSolTree :=
  let step := Z.of_nat (List.length (action_nodes t)) in
  let '(t', id) := add_node t KAction parent (name c) (args c) (-1) in
  mkTree (set_node (nodes t') id (fun n => with_plan_step n step)) (action_nodes t' ++ [id]).

Section TreePlanner.
Context `{StdHash}.
Variable domain : TwDomain.
Variable blacklist : TwBlacklist.
Variable method_skip : TwMethodSkip.
Variable late : Z -> bool.

Definition tree_mark_fail (k : Z) : plan_result := on_base (mark_fail k).

Definition restore_tree (cp : Z) : stateful tree_search unit :=
  let! t := get_tree; set_tree (restore t cp).

Fixpoint tree_try_methods (seek : TwState -> list TwTask -> Z -> plan_result)
    (k : Kind) (nm : string) (ar : list TwValue) (skip_key : string) (parent : Z)
    (s : TwState) (rest : list TwTask) (seen : list Z) (m : nat) (methods : list TwMethodFn) : plan_result :=
  match methods with
  | [] => ret None
  | method :: methods =>
      let next seen := tree_try_methods seek k nm ar skip_key parent s rest seen (S m) methods in
      if skip_method method_skip skip_key m then next seen
      else match method s ar with
      | None => next seen
      | Some subs =>
          let! t := get_tree;
          let cp := checkpoint t in
          let '(t', id) := push_choice t k parent nm ar m in
          let! _ := set_tree t';
          let new_tasks := (subs ++ rest)%list in
          let decomp_sig := tw_tasks_hash new_tasks in
          if mem decomp_sig seen then let! _ := restore_tree cp; next seen
          else
            let seen := decomp_sig :: seen in
            let! plausible := lift (tw_prefix_plausible domain blacklist new_tasks s);
            if negb plausible then let! _ := restore_tree cp; next seen
            else
              let! result := seek s new_tasks id;
              match result with
              | Some p => ret (Some p)
              | None => let! _ := restore_tree cp; next seen
              end
      end
  end.

Fixpoint tree_try_bindings (seek : TwState -> list TwTask -> Z -> plan_result) (parent : Z)
    (s : TwState) (rest : list TwTask) (unmet : TwGoal) : plan_result :=
  match unmet with
  | [] => ret None
  | b :: unmet =>
      let! result := seek s (Goal [b] :: rest) parent;
      match result with
      | Some p => ret (Some p)
      | None => tree_try_bindings seek parent s rest unmet
      end
  end.

Definition or_fail (k : Z) (r : option (list TwCall)) : plan_result :=
  match r with Some p => ret (Some p) | None => tree_mark_fail k end.

Fixpoint tw_seek_plan_tree (fuel : nat) (s : TwState) (tasks : list TwTask) (tree_parent : Z) : plan_result :=
  let! _ := on_base (check_budget late);
  match fuel, tasks with
  | O, _ => ret None
  | S _, [] => ret (Some [])
  | S fuel, t :: remaining =>
      let k := tw_search_key s tasks in
      fun st =>
      if mem k (fail_cache (base st)) then Ok (None, st)
      else
        (match t with
         | Goal g =>
             let! ok := lift (is_satisfied g s);
             if ok then tw_seek_plan_tree fuel s remaining tree_parent
             else
               let! unmet := lift (unsatisfied g s);
               match unmet with
               | [] => ret None
               | b :: _ =>
                   match dict_find (var b) (task_methods domain) with
                   | None => tree_mark_fail k
                   | Some methods =>
                       let goal_args := [STRING (key b); desired b] in
                       let! r := tree_try_methods (tw_seek_plan_tree fuel) KGoal (var b) goal_args
                                   (tw_call_key (mkCall (var b) goal_args)) tree_parent s (t :: remaining) [] 0 methods;
                       or_fail k r
                   end
               end
         | MultiGoal g =>
             let! ok := lift (is_satisfied g s);
             if ok then tw_seek_plan_tree fuel s remaining tree_parent
             else
               let! unmet := lift (unsatisfied g s);
               match unmet with
               | [] => tree_mark_fail k
               | _ :: _ =>
                   let! r := tree_try_bindings (tw_seek_plan_tree fuel) tree_parent s (t :: remaining) unmet;
                   or_fail k r
               end
         | Call c =>
             match dict_find (name c) (actions domain) with
             | Some action =>
                 if blacklisted blacklist c then tree_mark_fail k
                 else match action (copy s) (args c) with
                 | None => tree_mark_fail k
                 | Some s' =>
                     let! tr := get_tree;
                     let! _ := set_tree (push_action tr tree_parent c);
                     let! sub := tw_seek_plan_tree fuel s' remaining tree_parent;
                     match sub with
                     | None => let! _ := restore_tree (checkpoint tr); tree_mark_fail k
                     | Some p => ret (Some (c :: p))
                     end
                 end
             | None =>
                 match dict_find (name c) (task_methods domain) with
                 | None => tree_mark_fail k
                 | Some methods =>
                     let! r := tree_try_methods (tw_seek_plan_tree fuel) KTask (name c) (args c)
                                 (tw_call_key c) tree_parent s remaining [] 0 methods;
                     or_fail k r
                 end
             end
         end) st
  end.

Definition root_node : TwSolNode := mkNode KRoot (-1) [] EmptyString [] (-1) (-1) (-1).
Definition root_tree : TwSolTree := mkTree [root_node] [].

(** The plan and [out_tree]. *)
Definition tw_plan_with_tree (s : TwState) (tasks : list TwTask) : res (option (list TwCall) * TwSolTree) :=
  do r <- tw_seek_plan_tree TW_MAX_DEPTH s tasks 0 (mkTS new_search root_tree);
  Ok (fst r, tree (snd r)).
End TreePlanner.

(** * Simulation and replanning *)

Record TwSimulateResult := mkSim {
  completed_steps : Z; fail_step : Z; fail_action : string; sim_state : TwState
}.

Fixpoint simulate_from (domain : TwDomain) (i : Z) (cur : TwState) (plan : list TwCall) : TwSimulateResult :=
  match plan with
  | [] => mkSim i (-1) EmptyString cur
  | c :: plan =>
      match dict_find (name c) (actions domain) with
      | None => mkSim i i (name c) cur
      | Some action =>
          match action cur (args c) with
          | None => mkSim i i (name c) cur
          | Some next => simulate_from domain (i + 1) next plan
          end
      end
  end.

Definition tw_simulate (init_state : TwState) (plan : list TwCall) (domain : TwDomain) : TwSimulateResult :=
  simulate_from domain 0 (copy init_state) plan.

Record TwReplanResult := mkReplan {
  simulate : TwSimulateResult;
  new_plan : option (list TwCall);
  recovered : bool;
  r_blacklist : list string
}.

Definition plan_size (p : list TwCall) : Z := Z.of_nat (List.length p).

(** How far the original plan ran, given or simulated. *)
Definition simulate_to (init_state : TwState) (original_plan : list TwCall) (domain : TwDomain) (fs : Z) : TwSimulateResult :=
  if (fs <? 0) || (plan_size original_plan <=? fs) then tw_simulate init_state original_plan domain
  else
    let partial := tw_simulate init_state (firstn (Z.to_nat fs) original_plan) domain in
    mkSim fs fs (match nth_error original_plan (Z.to_nat fs) with Some c => name c | None => EmptyString end)
      (sim_state partial).

Section Replan.
Context `{StdHash}.
Variable domain : TwDomain.
Variable late : Z -> bool.

Definition tw_replan (init_state : TwState) (original_plan : list TwCall) (original_tasks : list TwTask) (fs : Z)
    : res TwReplanResult :=
  let sim := simulate_to init_state original_plan domain fs in
  let bl := match (if fail_step sim <? 0 then None else nth_error original_plan (Z.to_nat (fail_step sim))) with
            | Some c => [tw_call_key c]
            | None => []
            end in
  do p <- tw_plan domain (Some bl) late (sim_state sim) original_tasks;
  Ok (mkReplan sim p (match p with Some _ => true | None => false end) bl).

Definition tw_replan_incremental (init_state : TwState) (original_plan : list TwCall) (original_tasks : list TwTask)
    (sol_tree : TwSolTree) (fs : Z) : res TwReplanResult :=
  let sim := simulate_to init_state original_plan domain fs in
  if fail_step sim <? 0 then Ok (mkReplan sim (Some original_plan) true [])
  else
    let bl := match nth_error original_plan (Z.to_nat (fail_step sim)) with Some c => [tw_call_key c] | None => [] end in
    let ancestor := match nth_error (action_nodes sol_tree) (Z.to_nat (fail_step sim)) with
                    | Some n => nearest_retryable_ancestor sol_tree n domain
                    | None => -1
                    end in
    if ancestor <? 0 then
      do p <- tw_plan domain (Some bl) late (sim_state sim) original_tasks;
      Ok (mkReplan sim p (match p with Some _ => true | None => false end) bl)
    else
      let prefix := firstn (Z.to_nat (prefix_length sol_tree ancestor)) original_plan in
      let replan_state := match prefix with [] => init_state | _ => sim_state (tw_simulate init_state prefix domain) end in
      let skip := match node_at sol_tree ancestor with
                  | Some n => [(tw_call_key (mkCall (node_name n) (node_args n)), [method_idx n])]
                  | None => []
                  end in
      do r <- tw_plan_with_tree domain (Some bl) (Some skip) late replan_state original_tasks;
      Ok (match fst r with
          | None => mkReplan sim None false bl
          | Some suffix => mkReplan sim (Some (prefix ++ suffix)) true bl
          end).
End Replan.
