(* ===== verification/TwPlannerTreeProofs.v ===== *)
(** tw_planner.hpp and tw_replan.hpp: the tree search returns derivable plans
    and a tree that records exactly their actions; failed attempts leave no
    trace in the tree; plans execute; replanning avoids the failed command. *)

From Stdlib Require Import ZArith String Ascii List Bool Lia.
From S2P Require Import Prelude OrderedMap TwValue TwJson TwRebac TwState TwDomain TwPlanner TwPlannerProofs TwPlannerTree.
Import ListNotations.
#[local] Open Scope Z_scope.
#[local] Open Scope tw_scope.
#[local] Open Scope search_scope.

(** * Growing and rolling back the tree *)

(** The step of the plan at which a node starts. *)
Definition start (n : TwSolNode) : Z := match kind n with KAction => plan_step n | _ => first_step n end.

Definition steps (t : TwSolTree) : Z := Z.of_nat (List.length (action_nodes t)).

(** Links point into the tree, parents come before their children, and no node
    starts before its parent. *)
Record tree_ok (t : TwSolTree) : Prop := {
  ok_children : Forall (fun n => Forall (fun c => c < size t) (children n)) (nodes t);
  ok_actions : Forall (fun a => 0 <= a < size t) (action_nodes t);
  ok_parent : forall i n, node_at t i = Some n -> parent n < i;
  ok_first : forall i n, node_at t i = Some n -> start n <= steps t;
  ok_start : forall i n m, node_at t i = Some n -> node_at t (parent n) = Some m -> start m <= start n
}.

(** All of a node but its children. *)
Definition same_node (n m : TwSolNode) : Prop :=
  kind m = kind n /\ parent m = parent n /\ node_name m = node_name n /\ node_args m = node_args n /\
  method_idx m = method_idx n /\ plan_step m = plan_step n /\ first_step m = first_step n.

(** A tree with one more node: the new node, its parent's link, and whether the
    node is logged as an action. *)
Definition push_node (t : TwSolTree) (n : TwSolNode) (logged : bool) : TwSolTree :=
  let id := size t in
  let ns := if (0 <=? parent n) && (parent n <? id)
            then set_node (nodes t) (parent n) (fun p => with_children p (children p ++ [id])%list) else nodes t in
  mkTree (ns ++ [n]) (if logged then action_nodes t ++ [id] else action_nodes t).

Lemma set_node_app l x i f : 0 <= i < Z.of_nat (List.length l) -> set_node (l ++ [x]) i f = (set_node l i f ++ [x])%list.
Proof.
  intros Hi. unfold set_node. rewrite nth_error_app1 by lia.
  destruct (nth_error l (Z.to_nat i)) as [n|] eqn:E; [|apply nth_error_None in E; lia].
  unfold set_nth. rewrite nth_error_app1, E by lia. rewrite firstn_app, skipn_app.
  replace (Z.to_nat i - List.length l)%nat with 0%nat by lia. replace (S (Z.to_nat i) - List.length l)%nat with 0%nat by lia.
  cbn [firstn skipn]. rewrite app_nil_r, <- app_assoc. reflexivity.
Qed.

Lemma set_node_last l x f : set_node (l ++ [x]) (Z.of_nat (List.length l)) f = (l ++ [f x])%list.
Proof.
  unfold set_node. rewrite Nat2Z.id, nth_error_app2, Nat.sub_diag by lia. cbn [nth_error].
  unfold set_nth. rewrite nth_error_app2, Nat.sub_diag by lia. cbn [nth_error].
  rewrite firstn_app, firstn_all, Nat.sub_diag. cbn [firstn]. rewrite app_nil_r, skipn_all2 by (rewrite length_app; cbn; lia). reflexivity.
Qed.

Lemma set_node_length l i f : List.length (set_node l i f) = List.length l.
Proof. unfold set_node. destruct (nth_error l (Z.to_nat i)); [apply set_nth_length|reflexivity]. Qed.

Lemma add_node_push t k p nm ar m (f : TwSolNode -> TwSolNode) (logged : bool) :
  parent (f (mkNode k p [] nm ar m (-1) (-1))) = p ->
  let '(t', id) := add_node t k p nm ar m in
  id = size t /\
  mkTree (set_node (nodes t') id f) (if logged then action_nodes t' ++ [id] else action_nodes t') =
  push_node t (f (mkNode k p [] nm ar m (-1) (-1))) logged.
Proof.
  intros Hp. unfold add_node, push_node, size. cbn [nodes action_nodes]. split; [reflexivity|]. rewrite Hp. f_equal.
  destruct ((0 <=? p) && (p <? Z.of_nat (List.length (nodes t)))) eqn:E.
  - apply andb_true_iff in E as [E1 E2]. apply Z.leb_le in E1. apply Z.ltb_lt in E2.
    rewrite set_node_app by lia. set (g := fun n => with_children n _).
    replace (List.length (nodes t)) with (List.length (set_node (nodes t) p g)) at 1 by apply set_node_length. apply set_node_last.
  - apply set_node_last.
Qed.

Lemma push_choice_push t k p nm ar m :
  push_choice t k p nm ar m =
  (push_node t (mkNode k p [] nm ar (Z.of_nat m) (-1) (Z.of_nat (List.length (action_nodes t)))) false, size t).
Proof.
  unfold push_choice. pose proof (add_node_push t k p nm ar (Z.of_nat m) (fun n => with_first_step n (Z.of_nat (List.length (action_nodes t)))) false eq_refl) as A.
  destruct (add_node t k p nm ar (Z.of_nat m)) as [t' id]. destruct A as [-> A]. f_equal. exact A.
Qed.

Lemma push_action_push t p c :
  push_action t p c = push_node t (mkNode KAction p [] (name c) (args c) (-1) (Z.of_nat (List.length (action_nodes t))) (-1)) true.
Proof.
  unfold push_action. pose proof (add_node_push t KAction p (name c) (args c) (-1) (fun n => with_plan_step n (Z.of_nat (List.length (action_nodes t)))) true eq_refl) as A.
  destruct (add_node t KAction p (name c) (args c) (-1)) as [t' id]. destruct A as [-> A]. exact A.
Qed.

Lemma push_size t n (l : bool) : size (push_node t n l) = size t + 1.
Proof.
  unfold size, push_node. cbn [nodes]. rewrite length_app. cbn [List.length].
  destruct (_ && _); [rewrite set_node_length|]; lia.
Qed.

Lemma pop_below cp (l : list Z) : Forall (fun a => a < cp) l -> pop_from cp l = l.
Proof. destruct 1 as [|a l Ha _]; cbn [pop_from]; [reflexivity|]. destruct (Z.leb_spec cp a); [lia|reflexivity]. Qed.

Lemma unlink_last cp f l n : 0 <= cp -> Z.of_nat (List.length l) = cp ->
  unlink cp cp (S f) (l ++ [n]) =
  ((if (0 <=? parent n) && (parent n <? cp)
    then set_node l (parent n) (fun m => with_children m (filter (fun c => negb (c =? cp)) (children m))) else l) ++ [n])%list.
Proof.
  intros Hc Hl. cbn [unlink]. rewrite nth_error_app2 by lia. replace (Z.to_nat cp - List.length l)%nat with 0%nat by lia. cbn [nth_error].
  assert (Hend : forall m f, List.length m = List.length l -> unlink cp (cp + 1) f (m ++ [n]) = (m ++ [n])%list).
  { intros m [|g] Hm; [reflexivity|]. cbn [unlink]. rewrite (proj2 (nth_error_None _ _)); [reflexivity|]. rewrite length_app. cbn [List.length]. lia. }
  destruct (Z.leb_spec 0 (parent n)), (Z.ltb_spec (parent n) cp); cbn [andb]; try (apply Hend; reflexivity).
  rewrite set_node_app by lia. apply Hend, set_node_length.
Qed.

Lemma set_node_undo l i f g : (forall m, nth_error l (Z.to_nat i) = Some m -> g (f m) = m) ->
  set_node (set_node l i f) i g = l.
Proof.
  intros Hg. unfold set_node. destruct (nth_error l (Z.to_nat i)) as [m|] eqn:E; [|now rewrite E].
  rewrite (nth_error_set _ _ _ _ _ E), Nat.eqb_refl, (Hg m eq_refl).
  assert (E2 : nth_error (set_nth l (Z.to_nat i) (f m)) (Z.to_nat i) = Some (f m)) by (rewrite (nth_error_set _ _ _ _ _ E), Nat.eqb_refl; reflexivity).
  apply nth_error_ext. intros j. rewrite (nth_error_set _ _ _ _ _ E2), (nth_error_set _ _ _ _ _ E).
  destruct (Nat.eqb_spec j (Z.to_nat i)) as [->|]; [now rewrite E|reflexivity].
Qed.

Lemma filter_fresh x l : Forall (fun c => c < x) l -> filter (fun c => negb (c =? x)) (l ++ [x]) = l.
Proof.
  intros F. rewrite filter_app. cbn [filter]. rewrite Z.eqb_refl. cbn [negb]. rewrite app_nil_r.
  induction F as [|c l Hc _ IH]; [reflexivity|]. cbn [filter]. destruct (Z.eqb_spec c x); [lia|]. cbn [negb]. now rewrite IH.
Qed.

(** Rolling back to before one node restores the tree exactly. *)
Lemma restore_push t n (l : bool) : tree_ok t -> restore (push_node t n l) (size t) = t.
Proof.
  intros [H1 H2 _ _ _]. unfold restore. destruct t as [ns an]. cbn [nodes action_nodes] in H1, H2.
  set (sz := size (mkTree ns an)) in *. assert (Hsz : sz = Z.of_nat (List.length ns)) by reflexivity.
  unfold push_node. fold sz. cbn [nodes action_nodes]. f_equal.
  - rewrite length_app, Nat.add_1_r. rewrite unlink_last;
      [|lia|destruct (_ && _); rewrite ?set_node_length; lia].
    destruct ((0 <=? parent n) && (parent n <? sz)).
    + rewrite set_node_undo.
      * rewrite firstn_app, Hsz, Nat2Z.id, Nat.sub_diag, firstn_all. cbn [firstn]. apply app_nil_r.
      * intros m Em. cbn [with_children children]. rewrite filter_fresh by exact (nth_error_Forall _ _ _ _ H1 Em). now destruct m.
    + rewrite firstn_app, Hsz, Nat2Z.id, Nat.sub_diag, firstn_all. cbn [firstn]. apply app_nil_r.
  - assert (Hr : Forall (fun a => a < sz) (rev an)).
    { apply Forall_rev. eapply Forall_impl; [|exact H2]. cbv beta. lia. }
    destruct l; [rewrite rev_app_distr; cbn [rev app pop_from]; rewrite Z.leb_refl|];
      rewrite pop_below by exact Hr; apply rev_involutive.
Qed.

Lemma node_at_push t n (l : bool) i : 0 <= i < size t ->
  exists m m', node_at t i = Some m /\ node_at (push_node t n l) i = Some m' /\ same_node m m'.
Proof.
  intros Hi. unfold node_at, push_node, size in *. destruct (Z.ltb_spec i 0); [lia|]. cbn [nodes].
  destruct (nth_error (nodes t) (Z.to_nat i)) as [m|] eqn:E; [|apply nth_error_None in E; lia].
  exists m. assert (R : forall m, same_node m m) by (intros x; repeat split).
  destruct (_ && _).
  - rewrite nth_error_app1 by (rewrite set_node_length; lia). unfold set_node.
    destruct (nth_error (nodes t) (Z.to_nat (parent n))) as [q|] eqn:Eq; [|rewrite E; eauto].
    rewrite (nth_error_set _ _ _ _ _ Eq). destruct (Nat.eqb_spec (Z.to_nat i) (Z.to_nat (parent n))) as [Ei|]; [|rewrite E; eauto].
    rewrite Ei in E. assert (q = m) as -> by congruence. eexists. repeat split.
  - rewrite nth_error_app1 by lia. rewrite E. eauto.
Qed.

Lemma node_at_new t n (l : bool) : node_at (push_node t n l) (size t) = Some n.
Proof.
  unfold node_at, push_node, size. destruct (Z.ltb_spec (Z.of_nat (List.length (nodes t))) 0); [lia|]. cbn [nodes].
  rewrite Nat2Z.id. destruct (_ && _); [rewrite nth_error_app2; rewrite set_node_length, ?Nat.sub_diag by lia; [reflexivity|lia]|].
  rewrite nth_error_app2, Nat.sub_diag by lia. reflexivity.
Qed.

Lemma node_at_range t i n : node_at t i = Some n -> 0 <= i < size t.
Proof.
  unfold node_at, size. destruct (Z.ltb_spec i 0); [discriminate|]. intros E.
  assert (Z.to_nat i < List.length (nodes t))%nat by (apply nth_error_Some; congruence). lia.
Qed.

Lemma node_at_inv t n (l : bool) i m' : node_at (push_node t n l) i = Some m' ->
  (i = size t /\ m' = n) \/ exists m, node_at t i = Some m /\ same_node m m'.
Proof.
  intros E. pose proof (node_at_range _ _ _ E) as R. rewrite push_size in R.
  destruct (Z.eq_dec i (size t)) as [->|N]; [left; rewrite node_at_new in E; split; congruence|right].
  destruct (node_at_push t n l i) as (m & m2 & Em & E2 & Sm); [lia|]. exists m. split; [exact Em|congruence].
Qed.

Lemma push_steps t n (l : bool) : steps t <= steps (push_node t n l).
Proof. unfold steps, push_node. cbn [action_nodes]. destruct l; [rewrite length_app; cbn [List.length]|]; lia. Qed.

Lemma same_start m m' : same_node m m' -> start m' = start m.
Proof. unfold start. intros (-> & _ & _ & _ & _ & -> & ->). reflexivity. Qed.

Lemma push_ok t n (l : bool) : tree_ok t -> children n = [] -> 0 <= parent n < size t ->
  start n = steps t -> tree_ok (push_node t n l).
Proof.
  intros [H1 H2 H3 H4 H5] Hc Hp Hs. assert (Hz : 0 <= size t) by (unfold size; lia). pose proof (push_steps t n l) as Hst. constructor.
  - rewrite push_size. cbn [push_node nodes]. apply Forall_app. split; [|repeat constructor; rewrite Hc; constructor].
    assert (H1' : Forall (fun n => Forall (fun c => c < size t + 1) (children n)) (nodes t)).
    { eapply Forall_impl; [|exact H1]. cbv beta. intros m. apply Forall_impl. intros; lia. }
    destruct (_ && _); [|exact H1']. unfold set_node. destruct (nth_error _ _) as [m|] eqn:E; [|exact H1'].
    eapply Forall_set; [exact E|exact H1'|]. cbn [with_children children]. apply Forall_app. split; [|repeat constructor; lia].
    exact (nth_error_Forall _ _ _ _ H1' E).
  - rewrite push_size. cbn [push_node action_nodes]. destruct l; [apply Forall_app; split; [|repeat constructor; lia]|];
      (eapply Forall_impl; [|exact H2]; cbv beta; lia).
  - intros i m E. destruct (node_at_inv _ _ _ _ _ E) as [[-> ->]|(m0 & E0 & S0)]; [lia|].
    destruct S0 as (_ & -> & _). eauto.
  - intros i m E. destruct (node_at_inv _ _ _ _ _ E) as [[-> ->]|(m0 & E0 & S0)]; [lia|].
    rewrite (same_start _ _ S0). specialize (H4 _ _ E0). lia.
  - intros i m q E Eq. destruct (node_at_inv _ _ _ _ _ E) as [[-> ->]|(m0 & E0 & S0)];
      (destruct (node_at_inv _ _ _ _ _ Eq) as [[Ei ->]|(q0 & Eq0 & Sq)]).
    + lia.
    + rewrite (same_start _ _ Sq), Hs. eauto.
    + pose proof (H3 _ _ E0). pose proof (node_at_range _ _ _ E0). destruct S0 as (_ & Sp & _). lia.
    + rewrite (same_start _ _ S0), (same_start _ _ Sq). destruct S0 as (_ & Sp & _). rewrite Sp in Eq0. eauto.
Qed.

(** * What a successful search adds to the tree *)

(** The nodes [ids] are the actions of [p], from step [k]. *)
Fixpoint logged (t : TwSolTree) (k : Z) (ids : list Z) (p : list TwCall) : Prop :=
  match ids, p with
  | [], [] => True
  | id :: ids, c :: p =>
      (exists n, node_at t id = Some n /\ kind n = KAction /\ node_name n = name c /\ node_args n = args c /\ plan_step n = k) /\
      logged t (k + 1) ids p
  | _, _ => False
  end.

Section Growth.
Variable domain : TwDomain.
Variable method_skip : TwMethodSkip.

(** A decomposition node names a method of the domain that may be used. *)
Definition choice_ok (n : TwSolNode) : Prop :=
  match kind n with
  | KAction => True
  | KTask | KGoal => exists methods, dict_find (node_name n) (task_methods domain) = Some methods /\
      0 <= method_idx n < Z.of_nat (List.length methods) /\
      skip_method method_skip (tw_call_key (mkCall (node_name n) (node_args n))) (Z.to_nat (method_idx n)) = false
  | _ => False
  end.

(** The actions recorded before node [i]. *)
Definition before (t : TwSolTree) (i : Z) : nat := List.length (filter (fun a => a <? i) (action_nodes t)).

Record grows (t t' : TwSolTree) (p : list TwCall) : Prop := {
  grows_ok : tree_ok t';
  grows_size : size t <= size t';
  grows_old : forall i m, node_at t i = Some m -> exists m', node_at t' i = Some m' /\ same_node m m';
  grows_new : forall i m, size t <= i -> node_at t' i = Some m -> choice_ok m;
  grows_first : forall i m, size t <= i -> node_at t' i = Some m -> kind m <> KAction -> first_step m = Z.of_nat (before t' i);
  grows_actions : exists ids, action_nodes t' = (action_nodes t ++ ids)%list /\ Forall (fun a => size t <= a) ids /\
    logged t' (steps t) ids p
}.

Lemma before_split t i old new : action_nodes t = (old ++ new)%list ->
  Forall (fun a => a < i) old -> Forall (fun a => i <= a) new -> before t i = List.length old.
Proof.
  intros E Ho Hn. unfold before. rewrite E, filter_app.
  assert (filter (fun a => a <? i) new = []) as ->.
  { clear E. induction Hn as [|a l Ha _ IH]; [reflexivity|]. cbn [filter]. destruct (Z.ltb_spec a i); [lia|exact IH]. }
  rewrite app_nil_r. clear E. induction Ho as [|a l Ha _ IH]; [reflexivity|]. cbn [filter].
  destruct (Z.ltb_spec a i); [cbn [List.length]; congruence|lia].
Qed.

Lemma same_node_trans m1 m2 m3 : same_node m1 m2 -> same_node m2 m3 -> same_node m1 m3.
Proof. unfold same_node. intuition congruence. Qed.

Lemma choice_same m m' : same_node m m' -> choice_ok m -> choice_ok m'.
Proof. unfold choice_ok. intros (-> & _ & -> & -> & -> & _). auto. Qed.

Lemma grows_refl t : tree_ok t -> grows t t [].
Proof.
  intros Ht. constructor; auto; [lia|intros i m E; exists m; repeat split; auto|..|exists []; rewrite app_nil_r; repeat split; constructor];
    intros i m Hi E; apply node_at_range in E; lia.
Qed.

Lemma grows_push t n (l : bool) t' p c : tree_ok t -> children n = [] -> choice_ok n ->
  (if l then kind n = KAction /\ node_name n = name c /\ node_args n = args c /\ plan_step n = steps t
   else first_step n = steps t) ->
  grows (push_node t n l) t' p -> grows t t' (if l then c :: p else p).
Proof.
  intros Ht Hc Hn Hl [G1 G2 G3 G4 Gf (ids & G5 & Gi & G6)]. rewrite push_size in G2. setoid_rewrite push_size in Gf. rewrite push_size in Gi.
  assert (Gi' : Forall (fun a => size t <= a) ids) by (eapply Forall_impl; [|exact Gi]; cbv beta; lia).
  destruct (G3 (size t) n (node_at_new t n l)) as (n' & En & Sn). constructor; [exact G1|lia|..].
  - intros i m E. destruct (node_at_push t n l i (node_at_range _ _ _ E)) as (m0 & m1 & E0 & E1 & S1).
    destruct (G3 _ _ E1) as (m2 & E2 & S2). exists m2. split; [exact E2|]. eapply same_node_trans; [|exact S2]. congruence.
  - intros i m Hi E. destruct (Z.eq_dec i (size t)) as [->|N].
    + assert (m = n') as -> by congruence. eapply choice_same; eauto.
    + eapply G4; eauto. rewrite push_size. lia.
  - intros i m Hi E K. destruct (Z.eq_dec i (size t)) as [->|N]; [|apply Gf; auto; lia].
    assert (m = n') as -> by congruence. destruct Sn as (Sk & _ & _ & _ & _ & _ & ->).
    destruct l; [destruct Hl; congruence|]. rewrite Hl. unfold steps. f_equal. symmetry. eapply before_split; [exact G5| |exact Gi'].
    eapply Forall_impl; [|exact (ok_actions _ Ht)]. cbv beta. lia.
  - destruct l; cbn [push_node action_nodes steps] in *.
    + exists (size t :: ids). rewrite G5. split; [cbn [push_node action_nodes]; now rewrite <- app_assoc|].
      split; [constructor; [lia|exact Gi']|]. cbn [logged]. split.
      * exists n'. destruct Hl as (K & Nm & Ar & Ps). destruct Sn as (Sk & _ & Snm & Sar & _ & Sps & _). repeat split; congruence.
      * unfold steps in *. cbn [push_node action_nodes] in G6. rewrite length_app in G6. cbn [List.length] in G6.
        replace (Z.of_nat (List.length (action_nodes t)) + 1) with (Z.of_nat (List.length (action_nodes t) + 1)) by lia. exact G6.
    + exists ids. repeat split; assumption.
Qed.
End Growth.

(** * The search *)

Section TreeSearch.
Context `{StdHash}.
Variable domain : TwDomain.
Variable blacklist : TwBlacklist.
Variable method_skip : TwMethodSkip.
Variable late : Z -> bool.

(** A failed search leaves the tree as it was; a successful one returns a
    derivable plan and records it. *)
Definition tree_result (s : TwState) (ts : list TwTask) (t t' : TwSolTree) (r : option (list TwCall)) : Prop :=
  match r with
  | None => t' = t
  | Some p => (exists s', solves domain blacklist s ts p s') /\ grows domain method_skip t t' p
  end.

Definition tree_seek_ok (seek : TwState -> list TwTask -> Z -> plan_result) : Prop :=
  forall s ts par st r st', tree_ok (tree st) -> 0 <= par < size (tree st) -> seek s ts par st = Ok (r, st') ->
    tree_result s ts (tree st) (tree st') r.

Lemma on_base_ok {A} (m : M A) st a st' : on_base m st = Ok (a, st') -> tree st' = tree st.
Proof. unfold on_base, rbind. destruct (m (base st)); [|discriminate]. now intros [= _ <-]. Qed.

Lemma get_tree_ok st t st' : get_tree st = Ok (t, st') -> t = tree st /\ st' = st.
Proof. now intros [= <- <-]. Qed.

Lemma set_tree_ok t st u st' : set_tree t st = Ok (u, st') -> tree st' = t.
Proof. now intros [= _ <-]. Qed.

Lemma restore_tree_ok cp st u st' : restore_tree cp st = Ok (u, st') -> tree st' = restore (tree st) cp.
Proof. unfold restore_tree. intros E. minv. apply get_tree_ok in H0 as [-> ->]. now apply set_tree_ok in E. Qed.

Lemma tree_mark_fail_ok k st r st' : tree_mark_fail k st = Ok (r, st') -> r = None /\ tree st' = tree st.
Proof.
  unfold tree_mark_fail. intros E. split; [|now apply on_base_ok in E].
  revert E. unfold on_base, mark_fail, rbind. cbn. now intros [= <- _].
Qed.

Lemma or_fail_ok k s ts t r0 st r st' : or_fail k r0 st = Ok (r, st') ->
  tree_result s ts t (tree st) r0 -> tree_result s ts t (tree st') r.
Proof.
  destruct r0 as [p|]; cbn [or_fail].
  - intros E R. minv. exact R.
  - intros E R. apply tree_mark_fail_ok in E as [-> E]. cbn [tree_result] in *. congruence.
Qed.

Ltac tinv :=
  minv; repeat match goal with
  | E : get_tree _ = Ok _ |- _ => apply get_tree_ok in E as [-> ->]
  | E : set_tree _ _ = Ok _ |- _ => apply set_tree_ok in E
  | E : restore_tree _ _ = Ok _ |- _ => apply restore_tree_ok in E
  | E : on_base _ _ = Ok _ |- _ => apply on_base_ok in E
  end.

Lemma tree_result_mono s ts ts' t t' r :
  (forall p s2, solves domain blacklist s ts p s2 -> solves domain blacklist s ts' p s2) ->
  tree_result s ts t t' r -> tree_result s ts' t t' r.
Proof. intros Hs. destruct r as [p|]; [|auto]. intros [(s' & Hp) G]. split; [eauto|exact G]. Qed.

(** The node of a method choice. *)
Definition choice_node (t : TwSolTree) (k : Kind) (par : Z) (nm : string) (ar : list TwValue) (m : nat) : TwSolNode :=
  mkNode k par [] nm ar (Z.of_nat m) (-1) (steps t).

Lemma choice_push_ok t k par nm ar m : tree_ok t -> 0 <= par < size t -> k = KTask \/ k = KGoal ->
  tree_ok (push_node t (choice_node t k par nm ar m) false).
Proof. intros Ht Hp Hk. apply push_ok; auto. destruct Hk as [-> | ->]; reflexivity. Qed.

Lemma tree_try_methods_ok seek k nm ar par s rest ts (all : list TwMethodFn) :
  tree_seek_ok seek -> k = KTask \/ k = KGoal -> dict_find nm (task_methods domain) = Some all ->
  (forall (m : TwMethodFn) subs p s2, In m all -> m s ar = Some subs ->
     solves domain blacklist s (subs ++ rest) p s2 -> solves domain blacklist s ts p s2) ->
  forall (methods : list TwMethodFn) done seen st r st', all = (done ++ methods)%list ->
    tree_ok (tree st) -> 0 <= par < size (tree st) ->
    tree_try_methods domain blacklist method_skip seek k nm ar (tw_call_key (mkCall nm ar)) par s rest seen (List.length done) methods st = Ok (r, st') ->
    tree_result s ts (tree st) (tree st') r.
Proof.
  intros Seek Hk Hd Open. induction methods as [|m methods IH]; intros done seen st r st' Hall Ht Hp E; cbn [tree_try_methods] in E.
  { tinv. reflexivity. }
  assert (Next : forall seen st1, tree st1 = tree st ->
    tree_try_methods domain blacklist method_skip seek k nm ar (tw_call_key (mkCall nm ar)) par s rest seen (S (List.length done)) methods st1 = Ok (r, st') ->
    tree_result s ts (tree st) (tree st') r).
  { intros seen1 st1 Et E1. rewrite <- Et in *. apply (IH (done ++ [m])%list seen1 st1); auto; [now rewrite <- app_assoc|].
    rewrite length_app, Nat.add_1_r. exact E1. }
  destruct (skip_method _ _ _) eqn:Esk; [exact (Next _ _ eq_refl E)|].
  destruct (m s ar) as [subs|] eqn:Em; [|exact (Next _ _ eq_refl E)].
  tinv. rewrite push_choice_push in E. fold (steps (tree st)) in E. fold (choice_node (tree st) k par nm ar (List.length done)) in E. tinv.
  set (n := choice_node (tree st) k par nm ar (List.length done)) in *. unfold checkpoint in E.
  assert (Back : restore (push_node (tree st) n false) (size (tree st)) = tree st) by (apply restore_push, Ht).
  destruct (mem _ seen); [tinv; eapply Next; [|exact E]; congruence|]. tinv.
  match type of E with (if negb ?b then _ else _) _ = _ => destruct b end; cbn [negb] in E; [|tinv; eapply Next; [|exact E]; congruence].
  tinv. match goal with E1 : seek _ _ _ ?st1 = Ok (?r1, _), Et : tree ?st1 = _ |- _ =>
    assert (R : tree_result s (subs ++ rest) (tree st1) (tree x2) r1)
      by (eapply Seek; [..|exact E1]; rewrite Et; [now apply choice_push_ok|rewrite push_size; lia]);
    rewrite Et in R; destruct r1 as [p|] end; tinv.
  - destruct R as [(s' & R) G]. split; [exists s'; eapply Open; eauto; subst all; apply in_elt|].
    apply (grows_push _ _ _ _ false _ p (mkCall nm ar)) in G; auto. unfold choice_ok, n, choice_node. cbn [kind node_name node_args method_idx].
    destruct Hk as [-> | ->]; exists all; rewrite Nat2Z.id; subst all; rewrite length_app; cbn [List.length]; repeat split; auto; lia.
  - cbn [tree_result] in R. eapply Next; [|exact E]. congruence.
Qed.

Lemma tree_try_bindings_ok seek par s g rest unmet : tree_seek_ok seek -> unsatisfied g s = Ok unmet ->
  forall todo st r st', (forall b, In b todo -> In b unmet) -> tree_ok (tree st) -> 0 <= par < size (tree st) ->
    tree_try_bindings seek par s (MultiGoal g :: rest) todo st = Ok (r, st') ->
    tree_result s (MultiGoal g :: rest) (tree st) (tree st') r.
Proof.
  intros Seek Hu. induction todo as [|b todo IH]; intros st r st' Hin Ht Hp E; cbn [tree_try_bindings] in E; tinv; [reflexivity|].
  match goal with E1 : seek _ _ _ _ = Ok (?r1, ?st2) |- _ => pose proof (Seek _ _ _ _ _ _ Ht Hp E1) as R; destruct r1 as [p|] end; tinv.
  - eapply tree_result_mono; [|exact R]. intros q s2 Hq. eapply solves_multi; eauto. apply Hin. now left.
  - cbn [tree_result] in R. rewrite <- R in *. apply IH; auto. intros b' Hb. apply Hin. now right.
Qed.

Lemma action_push_ok t par c : tree_ok t -> 0 <= par < size t -> tree_ok (push_action t par c).
Proof. intros Ht Hp. rewrite push_action_push. now apply push_ok. Qed.

Lemma tree_action_ok s c ts action s1 par t t' p : tree_ok t ->
  dict_find (name c) (actions domain) = Some action -> blacklisted blacklist c = false -> action s (args c) = Some s1 ->
  tree_result s1 ts (push_action t par c) t' (Some p) -> tree_result s (Call c :: ts) t t' (Some (c :: p)).
Proof.
  intros Ht Ha Hb Hs [(s2 & Hp) G]. split; [exists s2; eapply solves_action; eauto|].
  rewrite push_action_push in G. apply (grows_push _ _ _ _ true _ p c) in G; auto; repeat split.
Qed.

Lemma seek_plan_tree_ok fuel : tree_seek_ok (tw_seek_plan_tree domain blacklist method_skip late fuel).
Proof.
  induction fuel as [|fuel IH]; intros s ts par st r st' Ht Hp E; cbn [tw_seek_plan_tree] in E; tinv.
  { congruence. }
  destruct ts as [|t ts]; tinv.
  { rewrite H0. split; [exists s; constructor|now apply grows_refl]. }
  rewrite <- H0 in *. clear H0 st x. rename x0 into st.
  destruct (mem _ (fail_cache (base st))); [injection E as <- <-; reflexivity|].
  destruct t as [c|g|g].
  - destruct (dict_find (name c) (actions domain)) as [action|] eqn:Ea.
    + destruct (blacklisted blacklist c) eqn:Eb; [now apply tree_mark_fail_ok in E as [-> E]|].
      destruct (action (copy s) (args c)) as [s1|] eqn:Es; [|now apply tree_mark_fail_ok in E as [-> E]]. tinv.
      match goal with E1 : tw_seek_plan_tree _ _ _ _ _ _ _ _ ?st1 = Ok (?r1, ?st2), Et : tree ?st1 = _ |- _ =>
        assert (R : tree_result s1 ts (tree st1) (tree st2) r1)
          by (eapply IH; [..|exact E1]; rewrite Et; [now apply action_push_ok|rewrite push_action_push, push_size; lia]);
        rewrite Et in R; destruct r1 as [p|] end; tinv.
      * eapply tree_action_ok; eauto.
      * apply tree_mark_fail_ok in E as [-> E]. cbn [tree_result] in *. unfold checkpoint in *.
        rewrite push_action_push in *. rewrite R in *. rewrite restore_push in * by exact Ht. congruence.
    + destruct (dict_find (name c) (task_methods domain)) as [methods|] eqn:Em; [|now apply tree_mark_fail_ok in E as [-> E]]. tinv.
      eapply or_fail_ok; [exact E|]. destruct c as [nm ar].
      eapply (tree_try_methods_ok _ KTask nm ar par s ts _ methods IH (or_introl eq_refl) Em ltac:(eauto using solves_method) methods []); eauto.
  - tinv. destruct x as [|]; tinv.
    { eapply tree_result_mono; [|eapply IH; eauto]. intros; now apply solves_goal_met. }
    destruct x as [|b unmet]; tinv; [reflexivity|].
    destruct (dict_find (var b) (task_methods domain)) as [methods|] eqn:Em; [|now apply tree_mark_fail_ok in E as [-> E]]. tinv.
    eapply or_fail_ok; [exact E|].
    eapply (tree_try_methods_ok _ KGoal (var b) _ par s (Goal g :: ts) _ methods IH (or_intror eq_refl) Em ltac:(eauto using solves_goal) methods []); eauto.
  - tinv. destruct x as [|]; tinv.
    { eapply tree_result_mono; [|eapply IH; eauto]. intros; now apply solves_multi_met. }
    destruct x as [|b unmet]; tinv; [now apply tree_mark_fail_ok in E as [-> E]|]. tinv.
    eapply or_fail_ok; [exact E|]. eapply tree_try_bindings_ok; eauto.
Qed.

Lemma root_ok : tree_ok root_tree.
Proof.
  assert (R : forall i n, node_at root_tree i = Some n -> i = 0 /\ n = root_node).
  { intros i n E. pose proof (node_at_range _ _ _ E) as Hi. change (size root_tree) with 1 in Hi.
    assert (i = 0) as -> by lia. injection E as <-. auto. }
  constructor; [repeat constructor|constructor|..].
  - intros i n E. apply R in E as [-> ->]. reflexivity.
  - intros i n E. apply R in E as [-> ->]. discriminate.
  - intros i n m E Em. apply R in E as [-> ->]. discriminate.
Qed.

Lemma plan_with_tree_ok s ts r t : tw_plan_with_tree domain blacklist method_skip late s ts = Ok (r, t) ->
  tree_result s ts root_tree t r.
Proof.
  unfold tw_plan_with_tree, rbind. destruct (tw_seek_plan_tree _ _ _ _ _ _ _ _ _) as [[r1 st1]|] eqn:E; [|discriminate].
  intros [= <- <-]. cbn [fst snd]. eapply (seek_plan_tree_ok _ _ _ _ (mkTS new_search root_tree)) in E; [exact E|exact root_ok|].
  cbn [tree]. change (size root_tree) with 1. lia.
Qed.
End TreeSearch.
