(* ===== verification/TwPlanTheorems.v ===== *)
(** tw_planner.hpp and tw_replan.hpp: the theorems.  Plans execute, the tree
    records them, replanning avoids the failed command, and what the planners
    throw or miss. *)

From Stdlib Require Import ZArith String Ascii List Bool Lia.
From S2P Require Import Prelude OrderedMap TwValue TwJson TwRebac TwState TwDomain TwPlanner TwPlannerProofs TwPlannerTree TwPlannerTreeProofs.
Import ListNotations.
#[local] Open Scope string_scope.
#[local] Open Scope Z_scope.
#[local] Open Scope tw_scope.
#[local] Open Scope search_scope.
#[local] Open Scope list_scope.

(** * Execution *)

(** The plan executes completely from [s], to [s']. *)
Definition runs (domain : TwDomain) (s : TwState) (p : list TwCall) (s' : TwState) : Prop :=
  tw_simulate s p domain = mkSim (plan_size p) (-1) EmptyString s'.

Lemma simulate_from_app domain p q : forall i s s1, simulate_from domain i s p = mkSim (i + plan_size p) (-1) EmptyString s1 ->
  0 <= i -> simulate_from domain i s (p ++ q) = simulate_from domain (i + plan_size p) s1 q.
Proof.
  unfold plan_size. induction p as [|c p IH]; intros i s s1 E Hi; cbn [simulate_from app List.length] in *.
  { injection E as Ei ->. f_equal. lia. }
  destruct (dict_find (name c) (actions domain)) as [a|]; [|injection E as _ E _; lia].
  destruct (a s (args c)) as [s2|]; [|injection E as _ E _; lia].
  replace (i + Z.of_nat (S (List.length p))) with (i + 1 + Z.of_nat (List.length p)) in * by lia.
  apply IH; [exact E|lia].
Qed.

Lemma simulate_from_shift domain p : forall i j s r, 0 <= i -> 0 <= j -> simulate_from domain i s p = mkSim (i + plan_size p) (-1) EmptyString r ->
  simulate_from domain j s p = mkSim (j + plan_size p) (-1) EmptyString r.
Proof.
  unfold plan_size. induction p as [|c p IH]; intros i j s r Hi Hj E; cbn [simulate_from List.length] in *.
  { injection E as _ ->. f_equal. lia. }
  destruct (dict_find (name c) (actions domain)) as [a|]; [|injection E as _ E _; lia].
  destruct (a s (args c)) as [s2|]; [|injection E as _ E _; lia].
  replace (j + Z.of_nat (S (List.length p))) with (j + 1 + Z.of_nat (List.length p)) by lia.
  eapply (IH (i + 1)); try lia. rewrite E. f_equal. lia.
Qed.

Lemma plan_size_app p q : plan_size (p ++ q) = plan_size p + plan_size q.
Proof. unfold plan_size. rewrite length_app. lia. Qed.

Lemma runs_app domain s p s1 q s2 : runs domain s p s1 -> runs domain s1 q s2 -> runs domain s (p ++ q) s2.
Proof.
  unfold runs, tw_simulate, copy. intros E1 E2. assert (0 <= plan_size p) by (unfold plan_size; lia).
  rewrite (simulate_from_app domain p q 0 s s1 E1) by lia. rewrite plan_size_app. now apply (simulate_from_shift domain q 0).
Qed.

Lemma solves_runs domain bl s ts p s' : solves domain bl s ts p s' -> runs domain s p s'.
Proof.
  induction 1; auto; [reflexivity|]. apply (runs_app _ _ [c] s1 p s2); [|assumption].
  unfold runs, tw_simulate, copy. cbn [simulate_from]. now rewrite H, H1.
Qed.

Lemma solves_prefix domain bl s ts p s' k : solves domain bl s ts p s' -> exists s1, runs domain s (firstn k p) s1.
Proof.
  intros Hs. revert k. induction Hs; intros k; auto.
  - rewrite firstn_nil. exists s. reflexivity.
  - destruct k as [|k]; [exists s; reflexivity|]. destruct (IHHs k) as (s3 & Hr). exists s3. cbn [firstn].
    apply (runs_app _ _ [c] s1); [|exact Hr]. unfold runs, tw_simulate, copy. cbn [simulate_from]. now rewrite H, H1.
Qed.

Lemma solves_allowed domain bl s ts p s' : solves domain bl s ts p s' -> Forall (fun c => blacklisted bl c = false) p.
Proof. induction 1; auto. Qed.

Lemma avoids domain c s ts p s' : solves domain (Some [tw_call_key c]) s ts p s' -> ~ In (tw_call_key c) (map tw_call_key p).
Proof.
  intros Hs Hi. apply in_map_iff in Hi as (d & Ed & Hd). apply solves_allowed in Hs.
  pose proof (proj1 (Forall_forall _ _) Hs d Hd) as B. cbn [blacklisted existsb] in B. rewrite Ed, String.eqb_refl in B. discriminate.
Qed.

Section Sound.
Context `{StdHash}.
Variable domain : TwDomain.
Variable blacklist : TwBlacklist.
Variable late : Z -> bool.

Lemma plan_solves s ts p : tw_plan domain blacklist late s ts = Ok (Some p) ->
  exists s', solves domain blacklist s ts p s'.
Proof.
  unfold tw_plan, rbind. destruct (tw_seek_plan _ _ _ _ _ _ _) as [[r st]|] eqn:E; [|discriminate]. intros [= Er]. cbn [fst] in Er. subst r.
  exact (seek_plan_ok domain blacklist late TW_MAX_DEPTH s ts new_search _ _ eq_refl E).
Qed.
End Sound.

(** * Retrying *)

Section Ancestors.
Variable t : TwSolTree.
Variable domain : TwDomain.

Inductive above : Z -> Z -> Prop :=
| above_parent i n : node_at t i = Some n -> above i (parent n)
| above_step i n a : node_at t i = Some n -> above (parent n) a -> above i a.

(** A decomposition of a task or goal with methods left to try. *)
Definition can_retry (a : Z) : Prop := exists m methods,
  node_at t a = Some m /\ (kind m = KTask \/ kind m = KGoal) /\
  dict_find (node_name m) (task_methods domain) = Some methods /\ method_idx m + 1 < Z.of_nat (List.length methods).

(** What the comment on the walk promises to stop at: a multigoal with methods
    left, too. *)
Definition promised (a : Z) : Prop := exists m methods,
  node_at t a = Some m /\ (kind m = KTask \/ kind m = KGoal \/ kind m = KMultiGoal) /\
  dict_find (node_name m) (task_methods domain) = Some methods /\ method_idx m + 1 < Z.of_nat (List.length methods).

Lemma promised_retry : (forall i n, node_at t i = Some n -> kind n <> KMultiGoal) -> forall a, can_retry a <-> promised a.
Proof.
  intros N a. split; intros (m & ms & Em & K & R); exists m, ms; (split; [exact Em|split; [|exact R]]); [tauto|].
  destruct K as [K|[K|K]]; auto. now destruct (N a m Em).
Qed.

Hypothesis Ok_t : tree_ok t.

Lemma above_lt i a : above i a -> a < i.
Proof.
  induction 1 as [i n E|i n a E _ IH]; pose proof (ok_parent _ Ok_t _ _ E); lia.
Qed.

(** The nodes met from [cur] upwards: [cur] and its ancestors. *)
Definition upward (cur a : Z) : Prop := a = cur \/ above cur a.

Definition retry_spec (cur r : Z) : Prop :=
  (0 < r /\ upward cur r /\ can_retry r /\ forall b, upward cur b -> r < b -> ~ can_retry b) \/
  (r = -1 /\ forall b, 0 < b -> upward cur b -> ~ can_retry b).

Lemma retry_dec n methods cur : node_at t cur = Some n -> dict_find (node_name n) (task_methods domain) = methods ->
  (match kind n with KTask | KGoal => match methods with Some ms => method_idx n + 1 <? Z.of_nat (List.length ms) | None => false end | _ => false end = true <-> can_retry cur).
Proof.
  intros En <-. unfold can_retry. split.
  - destruct (kind n) eqn:K; try discriminate; (destruct (dict_find _ _) as [ms|] eqn:D; [|discriminate]); intros L%Z.ltb_lt; eauto 10.
  - intros (m & ms & Em & K & D & L). assert (m = n) as -> by congruence. rewrite D. destruct K as [-> | ->]; now apply Z.ltb_lt.
Qed.

Lemma retry_up cur n r : node_at t cur = Some n -> ~ can_retry cur -> retry_spec (parent n) r -> retry_spec cur r.
Proof.
  intros En Hc. assert (U : forall b, upward (parent n) b -> upward cur b).
  { intros b [-> | Hb]; right; [now constructor|now apply above_step with n]. }
  assert (D : forall b, upward cur b -> b = cur \/ upward (parent n) b).
  { intros b [-> | Hb]; [now left|right]. inversion Hb as [i m Em|i m a Em Ha]; subst; assert (m = n) as -> by congruence; [now left|now right]. }
  intros [(H1 & H2 & H3 & H4)|[H1 H2]]; [left|right].
  - repeat split; auto. intros b Hb L. destruct (D b Hb) as [-> | Hb']; auto.
  - split; [exact H1|]. intros b Hp Hb. destruct (D b Hb) as [-> | Hb']; auto.
Qed.

Lemma retryable_ok fuel : forall cur, cur < Z.of_nat fuel -> cur < size t -> retry_spec cur (retryable fuel t domain cur).
Proof.
  induction fuel as [|fuel IH]; intros cur Hf Hs; cbn [retryable].
  - right. split; [reflexivity|]. intros b Hb [-> | Ha]; [lia|apply above_lt in Ha; lia].
  - destruct (Z.leb_spec cur 0).
    { right. split; [reflexivity|]. intros b Hb [-> | Ha]; [lia|apply above_lt in Ha; lia]. }
    assert (exists n, node_at t cur = Some n) as (n & En).
    { unfold node_at, size in *. destruct (Z.ltb_spec cur 0); [lia|]. destruct (nth_error _ _) eqn:E; [eauto|]. apply nth_error_None in E. lia. }
    rewrite En. pose proof (retry_dec n _ cur En eq_refl) as R. pose proof (ok_parent _ Ok_t _ _ En).
    assert (Up : ~ can_retry cur -> retry_spec cur (retryable fuel t domain (parent n))) by (intros Hn; eapply retry_up; eauto; apply IH; lia).
    assert (Here : can_retry cur -> retry_spec cur cur).
    { intros Hc. left. repeat split; auto; [now left|]. intros b [-> | Hb]; [lia|apply above_lt in Hb; lia]. }
    destruct (kind n); try (apply Up; rewrite <- R; discriminate);
      (destruct (match dict_find _ _ with Some _ => _ | None => _ end); [apply Here, R; reflexivity|apply Up; rewrite <- R; discriminate]).
Qed.

Lemma above_start i a n m : above i a -> node_at t i = Some n -> node_at t a = Some m -> start m <= start n.
Proof.
  intros Ha. revert n m. induction Ha as [i k E|i k a E Ha IH]; intros n m En Em; assert (k = n) as -> by congruence.
  - exact (ok_start _ Ok_t _ _ _ En Em).
  - assert (exists q, node_at t (parent n) = Some q) as (q & Eq) by (inversion Ha; eauto).
    pose proof (ok_start _ Ok_t _ _ _ En Eq). specialize (IH q m Eq Em). lia.
Qed.

Lemma nearest_ok id n : node_at t id = Some n ->
  let a := nearest_retryable_ancestor t id domain in
  (0 < a /\ above id a /\ can_retry a /\ (forall b, above id b -> a < b -> ~ can_retry b) /\ prefix_length t a <= Z.max 0 (start n)) \/
  (a = -1 /\ forall b, 0 < b -> above id b -> ~ can_retry b).
Proof.
  intros En a. assert (Ea : a = retryable (S (List.length (nodes t))) t domain (parent n)) by (unfold a, nearest_retryable_ancestor; now rewrite En).
  pose proof (ok_parent _ Ok_t _ _ En). pose proof (node_at_range _ _ _ En).
  assert (U : forall b, above id b <-> upward (parent n) b).
  { intros b. split.
    - inversion 1 as [i m Em|i m c Em Ha]; subst; assert (m = n) as -> by congruence; [now left|now right].
    - intros [-> | Hb]; [now constructor|now apply above_step with n]. }
  destruct (retryable_ok (S (List.length (nodes t))) (parent n)) as [(H1 & H2 & H3 & H4)|[H1 H2]]; [unfold size in *; lia|lia| |]; rewrite <- Ea in *.
  - left. assert (Ha : above id a) by now apply U. repeat split; auto; [intros b Hb; apply H4; now apply U|].
    destruct H3 as (m & ms & Em & K & _). unfold prefix_length. rewrite Em. pose proof (above_start _ _ _ _ Ha En Em) as L.
    assert (start m = first_step m) by (unfold start; destruct K as [-> | ->]; reflexivity). destruct (Z.ltb_spec (first_step m) 0); lia.
  - right. split; [exact H1|]. intros b Hb Ha. apply H2; [exact Hb|now apply U].
Qed.
End Ancestors.

Lemma logged_nth t p : forall ids k j c, logged t k ids p -> nth_error p j = Some c ->
  exists id n, nth_error ids j = Some id /\ node_at t id = Some n /\ kind n = KAction /\
    node_name n = name c /\ node_args n = args c /\ plan_step n = k + Z.of_nat j.
Proof.
  induction p as [|d p IH]; intros [|id ids] k j c L E; cbn [logged] in L; try contradiction; [destruct j; discriminate|].
  destruct L as [(n & En & K & Nm & Ar & Ps) L]. destruct j as [|j]; cbn [nth_error] in *.
  - injection E as <-. exists id, n. rewrite Z.add_0_r. auto 10.
  - destruct (IH _ _ _ _ L E) as (i & m & H1 & H2 & H3 & H4 & H5 & H6). exists i, m. repeat split; auto. lia.
Qed.

(** * A domain to run *)

Module Travel.
(** A hash for the examples: FNV-1a. *)
Definition fnv : StdHash := fun s =>
  fold_left (fun h c => u64 (Z.lxor h (Z.of_nat (nat_of_ascii c)) * 1099511628211)) (list_ascii_of_string s) 14695981039346656037.
#[export] Existing Instance fnv | 100.

Definition me : TwValue := STRING "me".
Definition park : TwValue := STRING "park".
Definition home : TwState := set_var empty_state "loc" (DICT [("me", STRING "home")]).

Definition move : TwActionFn := fun s args =>
  match args with [p; d] => Some (set_nested s "loc" p d) | _ => None end.

(** Packing twice fails. *)
Definition pack : TwActionFn := fun s _ =>
  if has_var s "packed" then None else Some (set_var s "packed" (BOOL true)).

Definition go_by (how : string) : TwMethodFn := fun _ args => Some [Call (mkCall how args)].

Definition domain : TwDomain :=
  mkDomain [("walk", move); ("ride", move); ("pack", pack)]
    [("travel", [go_by "walk"; go_by "ride"]); ("loc", [go_by "travel"])] [].

(** Without methods for the goal. *)
Definition no_goals : TwDomain := mkDomain (actions domain) [("travel", [go_by "walk"; go_by "ride"])] [].

Definition at_park : TwGoal := [mkBinding "loc" "me" park].
Definition trip : list TwTask := [Call (mkCall "travel" [me; park]); Goal at_park].
Definition walk : TwCall := mkCall "walk" [me; park].
Definition ride : TwCall := mkCall "ride" [me; park].
Definition there : TwState := set_nested home "loc" me park.

Definition never : Z -> bool := fun _ => false.

End Travel.
#[local] Existing Instance Travel.fnv | 100.

(** * The memoizing planner *)

(** C1: A plan [tw_plan] returns is a decomposition of the task list that uses no
    blacklisted command, and it executes completely: simulating it from the
    start state reports all its steps done and no failure.  This holds whatever
    the 64-bit keys of the memo tables are: a stored plan is never looked up
    for another subproblem, since the first plan found ends the search. *)
Theorem tw_plan_sound `{StdHash} domain blacklist late s tasks plan :
  tw_plan domain blacklist late s tasks = Ok (Some plan) ->
  exists s', solves domain blacklist s tasks plan s' /\
    tw_simulate s plan domain = mkSim (plan_size plan) (-1) EmptyString s' /\
    Forall (fun c => blacklisted blacklist c = false) plan.
Proof.
  intros E. destruct (plan_solves domain blacklist late s tasks plan E) as (s' & Hs). exists s'.
  repeat split; [exact Hs|exact (solves_runs _ _ _ _ _ _ Hs)|exact (solves_allowed _ _ _ _ _ _ Hs)].
Qed.

Lemma tw_plan_sound_witness :
  tw_plan Travel.domain None Travel.never Travel.home Travel.trip = Ok (Some [Travel.walk]) /\
  exists s', solves Travel.domain None Travel.home Travel.trip [Travel.walk] s' /\
    tw_simulate Travel.home [Travel.walk] Travel.domain = mkSim 1 (-1) EmptyString s' /\
    Forall (fun c => blacklisted None c = false) [Travel.walk].
Proof.
  split; [vm_compute; reflexivity|].
  apply (tw_plan_sound Travel.domain None Travel.never Travel.home Travel.trip [Travel.walk]).
  vm_compute. reflexivity.
Defined.

(** The pruning scan that reads the prefix sums of the cache and visits only
    the goals from an index on gives the same verdict and counts as the full
    scan of the tasks from that index, and throws exactly when that does. *)
Theorem witness_cache_correct domain s tasks i : (i <= List.length tasks)%nat ->
  tw_witness_oracle_goal_reach_cached domain s tasks (tw_build_witness_scan_cache domain tasks) i =
  tw_witness_oracle_goal_reach domain s (skipn i tasks).
Proof. apply cached_scan. Qed.

Lemma witness_cache_witness :
  tw_witness_oracle_goal_reach_cached Travel.domain Travel.home Travel.trip (tw_build_witness_scan_cache Travel.domain Travel.trip) 1 =
  Ok (mkWitness true 1 0).
Proof. rewrite (witness_cache_correct Travel.domain Travel.home Travel.trip 1) by (cbn; lia). vm_compute. reflexivity. Defined.

(** C37: When [tw_plan] throws, either the exception is the budget's and there is
    a first reading of the clock (one every 256 ticks) that is past the
    deadline and that the search gets to: it is cut off there also when that
    reading is the only late one; or the exception is the one that checking a
    goal binding throws, a binding of a task that decomposing the given tasks
    leads to, in the state it is met in. *)
Theorem tw_plan_throws `{StdHash} domain blacklist late s tasks e :
  tw_plan domain blacklist late s tasks = Throw e ->
  (e = BudgetExceeded /\ exists t, 0 < t /\ t mod TW_BUDGET_SAMPLE_EVERY = 0 /\ late t = true /\
     (forall t', 0 < t' < t -> t' mod TW_BUDGET_SAMPLE_EVERY = 0 -> late t' = false) /\
     tw_plan domain blacklist (Z.eqb t) s tasks = Throw BudgetExceeded) \/
  (e <> BudgetExceeded /\ exists s1 ts b,
     meets domain (s, tasks) (s1, ts) /\ In b (bindings ts) /\ satisfied b s1 = Throw e).
Proof.
  unfold tw_plan, rbind.
  pose proof (bg_seek domain blacklist (s, tasks) TW_MAX_DEPTH s tasks (meets_refl _ _) late new_search eq_refl) as C.
  cbv beta in C. destruct (tw_seek_plan _ _ _ _ _ _ _) as [[r st]|e']; [discriminate|]. intros [= <-].
  destruct C as [(-> & t & T & Tm & L & Q & E)|[(s1 & ts & b & B) _]]; [left|right].
  - split; [reflexivity|]. exists t. repeat split; auto.
    + intros t' Ht. apply Q. cbn [tick new_search]. lia.
    + rewrite E; [reflexivity| |apply Z.eqb_refl]. intros t' Ht _. apply Z.eqb_neq. lia.
  - split; [|eauto 6]. destruct B as (_ & _ & B). intros ->. revert B. apply satisfied_throws.
Qed.

Lemma tw_plan_throws_witness :
  (BudgetExceeded = BudgetExceeded /\ exists t, 0 < t /\ t mod TW_BUDGET_SAMPLE_EVERY = 0 /\ (fun t => 200 <? t) t = true /\
     (forall t', 0 < t' < t -> t' mod TW_BUDGET_SAMPLE_EVERY = 0 -> (fun t => 200 <? t) t' = false) /\
     tw_plan Travel.domain None (Z.eqb t) Travel.home (repeat (Call Travel.walk) 300) = Throw BudgetExceeded) \/
  (BudgetExceeded <> BudgetExceeded /\ exists s1 ts b,
     meets Travel.domain (Travel.home, repeat (Call Travel.walk) 300) (s1, ts) /\ In b (bindings ts) /\ satisfied b s1 = Throw BudgetExceeded).
Proof.
  apply (tw_plan_throws Travel.domain None (fun t => 200 <? t) Travel.home (repeat (Call Travel.walk) 300) BudgetExceeded).
  vm_compute. reflexivity.
Defined.

(** A goal whose variable is a malformed relation expression makes the search
    throw, in a state with relations. *)
Lemma malformed_goal_throws :
  tw_plan Travel.domain None Travel.never (mkState [] (Some (add_edge empty_graph "a" "b" "owns")) 8 false 0)
    [Goal [mkBinding ("{" ++ String quote (String quote ":-")) "a" (STRING "b")]] = Throw InvalidArgument.
Proof. vm_compute. reflexivity. Qed.

(** The pruning scan rejects a task list when no task in it is certified and one
    is skipped, so a goal that an earlier action of the same list achieves is
    never reached. *)
Lemma witness_oracle_incomplete :
  let tasks := [Call Travel.walk; Goal Travel.at_park] in
  tw_plan Travel.no_goals None Travel.never Travel.home tasks = Ok None /\
  solves Travel.no_goals None Travel.home tasks [Travel.walk] Travel.there /\
  (exists t, tw_plan_with_tree Travel.no_goals None None Travel.never Travel.home tasks = Ok (Some [Travel.walk], t)).
Proof.
  cbv zeta. split; [vm_compute; reflexivity|]. split; [|eexists; vm_compute; reflexivity].
  eapply solves_action; [reflexivity..|]. apply solves_goal_met; [vm_compute; reflexivity|constructor].
Qed.

(** * The tree-building planner *)

(** C3: When [tw_plan_with_tree] returns a plan, the plan is a decomposition of
    the task list that executes completely, the tree is well formed, its action
    nodes are exactly the plan's commands in order with their step numbers, and
    every decomposition in it uses a method of the domain that was not to be
    skipped.  When it returns none, every attempt has been rolled back and the
    tree is the root alone. *)
Theorem tree_plan_correct `{StdHash} domain blacklist method_skip late s tasks r t :
  tw_plan_with_tree domain blacklist method_skip late s tasks = Ok (r, t) ->
  match r with
  | None => t = root_tree
  | Some plan =>
      (exists s', solves domain blacklist s tasks plan s' /\
         tw_simulate s plan domain = mkSim (plan_size plan) (-1) EmptyString s') /\
      tree_ok t /\ logged t 0 (action_nodes t) plan /\
      (forall i n, 0 < i -> node_at t i = Some n -> choice_ok domain method_skip n)
  end.
Proof.
  intros E. apply plan_with_tree_ok in E. destruct r as [p|]; [|exact E].
  destruct E as [(s' & Hs) [G1 G2 _ G4 _ (ids & G5 & _ & G6)]]. split; [exists s'; split; [exact Hs|exact (solves_runs _ _ _ _ _ _ Hs)]|].
  split; [exact G1|]. cbn [root_tree action_nodes app] in G5. rewrite G5. split; [exact G6|].
  intros i n Hi En. apply (G4 i n); [change (size root_tree) with 1; lia|exact En].
Qed.

Definition trip_tree : TwSolTree :=
  mkTree [with_children root_node [1]; mkNode KTask 0 [2] "travel" [Travel.me; Travel.park] 0 (-1) 0;
          mkNode KAction 1 [] "walk" [Travel.me; Travel.park] (-1) 0 (-1)] [2].

Lemma tree_plan_witness :
  (exists s', solves Travel.domain None Travel.home Travel.trip [Travel.walk] s' /\
     tw_simulate Travel.home [Travel.walk] Travel.domain = mkSim (plan_size [Travel.walk]) (-1) EmptyString s') /\
  tree_ok trip_tree /\ logged trip_tree 0 (action_nodes trip_tree) [Travel.walk] /\
  (forall i n, 0 < i -> node_at trip_tree i = Some n -> choice_ok Travel.domain None n).
Proof.
  apply (tree_plan_correct Travel.domain None None Travel.never Travel.home Travel.trip (Some [Travel.walk]) trip_tree).
  vm_compute. reflexivity.
Defined.

(** The trees of the planner have no node for a multigoal. *)
Lemma planner_no_multigoal `{StdHash} domain blacklist method_skip late s tasks plan t :
  tw_plan_with_tree domain blacklist method_skip late s tasks = Ok (Some plan, t) ->
  forall i n, node_at t i = Some n -> kind n <> KMultiGoal.
Proof.
  intros E i n En. apply plan_with_tree_ok in E as [_ [_ _ G3 G4 _ _]]. pose proof (node_at_range _ _ _ En) as Hi.
  destruct (Z.eq_dec i 0) as [->|].
  - destruct (G3 0 root_node eq_refl) as (m & Em & K & _). assert (n = m) as -> by congruence. rewrite K. discriminate.
  - specialize (G4 i n ltac:(change (size root_tree) with 1; lia) En). unfold choice_ok in G4. intros K. now rewrite K in G4.
Qed.

(** C40: On a well-formed tree the walk from a node to its nearest retryable
    ancestor terminates within its bound and finds it: an ancestor that
    decomposes a task or goal and has methods left, such that none below it has
    any, and whose subtree starts no later than the node; it answers -1 only
    when no such ancestor has a method left.  Multigoals are passed over, though
    the comment on the function names them; on trees without multigoals, as all
    trees of the planner are, the walk stops where the comment says. *)
Theorem nearest_retryable_correct t domain id n : tree_ok t -> node_at t id = Some n ->
  let a := nearest_retryable_ancestor t id domain in
  ((0 < a /\ above t id a /\ can_retry t domain a /\ (forall b, above t id b -> a < b -> ~ can_retry t domain b) /\
      prefix_length t a <= Z.max 0 (start n)) \/
   (a = -1 /\ forall b, 0 < b -> above t id b -> ~ can_retry t domain b)) /\
  ((forall i m, node_at t i = Some m -> kind m <> KMultiGoal) -> forall b, can_retry t domain b <-> promised t domain b).
Proof. intros Ht En. split; [exact (nearest_ok t domain Ht id n En)|apply promised_retry]. Qed.

(** A multigoal between the root and an action, with methods left under its
    name, is not stopped at. *)
Definition multigoal_tree : TwSolTree :=
  mkTree [with_children root_node [1]; mkNode KMultiGoal 0 [2] "travel" [] 0 (-1) 0; mkNode KAction 1 [] "walk" [] (-1) 0 (-1)] [2].

Lemma multigoal_ancestor_skipped :
  nearest_retryable_ancestor multigoal_tree 2 Travel.domain = -1 /\ above multigoal_tree 2 1 /\ promised multigoal_tree Travel.domain 1.
Proof.
  split; [reflexivity|]. split; [exact (above_parent multigoal_tree 2 _ eq_refl)|].
  eexists _, _. split; [reflexivity|]. split; [auto|]. split; reflexivity.
Qed.

Lemma trip_tree_ok : tree_ok trip_tree.
Proof.
  pose proof (plan_with_tree_ok Travel.domain None None Travel.never Travel.home Travel.trip (Some [Travel.walk]) trip_tree) as R.
  exact (grows_ok _ _ _ _ _ (proj2 (R ltac:(vm_compute; reflexivity)))).
Qed.

Lemma nearest_retryable_witness :
  ((0 < 1 /\ above trip_tree 2 1 /\ can_retry trip_tree Travel.domain 1 /\
     (forall b, above trip_tree 2 b -> 1 < b -> ~ can_retry trip_tree Travel.domain b) /\ prefix_length trip_tree 1 <= 0) \/
  (1 = -1 /\ forall b, 0 < b -> above trip_tree 2 b -> ~ can_retry trip_tree Travel.domain b)) /\
  ((forall i m, node_at trip_tree i = Some m -> kind m <> KMultiGoal) ->
   forall b, can_retry trip_tree Travel.domain b <-> promised trip_tree Travel.domain b).
Proof.
  exact (nearest_retryable_correct trip_tree Travel.domain 2 (mkNode KAction 1 [] "walk" [Travel.me; Travel.park] (-1) 0 (-1)) trip_tree_ok eq_refl).
Defined.

(** * Replanning *)

Lemma fail_step_range domain plan : forall i s, 0 <= i ->
  let r := simulate_from domain i s plan in
  (fail_step r = -1 /\ completed_steps r = i + plan_size plan) \/
  (i <= fail_step r < i + plan_size plan /\ completed_steps r = fail_step r).
Proof.
  unfold plan_size. induction plan as [|c plan IH]; intros i s Hi; cbn [simulate_from List.length].
  { left. cbn. lia. }
  destruct (dict_find (name c) (actions domain)) as [a|]; [|right; cbn; lia].
  destruct (a s (args c)) as [s1|]; [|right; cbn; lia].
  destruct (IH (i + 1) s1) as [[H1 H2]|[H1 H2]]; [lia|left|right]; lia.
Qed.

Lemma simulate_to_step domain s plan fs : let sim := simulate_to s plan domain fs in
  fail_step sim < 0 \/ exists c, nth_error plan (Z.to_nat (fail_step sim)) = Some c.
Proof.
  cbv zeta. assert (R : forall i, 0 <= i < plan_size plan -> exists c, nth_error plan (Z.to_nat i) = Some c).
  { intros i Hi. unfold plan_size in Hi. destruct (nth_error plan (Z.to_nat i)) eqn:E; [eauto|]. apply nth_error_None in E. lia. }
  unfold simulate_to. destruct (Z.ltb_spec fs 0), (Z.leb_spec (plan_size plan) fs); cbn [orb]; try (right; apply R; cbn; lia);
    (destruct (fail_step_range domain plan 0 (copy s)) as [[F _]|[F _]]; [lia|left|right; apply R]; unfold tw_simulate; lia).
Qed.

(** [tw_replan] plans the original tasks from the state the original plan
    failed in.  A new plan decomposes the tasks from that state and executes
    completely from it, and the command that failed is not in it;
    [recovered] says whether there is a new plan. *)
Theorem tw_replan_correct `{StdHash} domain late s plan tasks fs r :
  tw_replan domain late s plan tasks fs = Ok r ->
  simulate r = simulate_to s plan domain fs /\
  (recovered r = true <-> new_plan r <> None) /\
  forall p, new_plan r = Some p -> exists s',
    solves domain (Some (r_blacklist r)) (sim_state (simulate r)) tasks p s' /\
    tw_simulate (sim_state (simulate r)) p domain = mkSim (plan_size p) (-1) EmptyString s' /\
    (0 <= fail_step (simulate r) -> exists c, nth_error plan (Z.to_nat (fail_step (simulate r))) = Some c /\
       ~ In (tw_call_key c) (map tw_call_key p)).
Proof.
  unfold tw_replan. pose proof (simulate_to_step domain s plan fs) as Step. cbv zeta in Step.
  set (sim := simulate_to s plan domain fs) in *. set (bl := match (if fail_step sim <? 0 then None else _) with Some c => [tw_call_key c] | None => [] end).
  unfold rbind. destruct (tw_plan _ _ _ _ _) as [p|] eqn:E; [|discriminate]. intros [= <-]. cbn [simulate new_plan recovered r_blacklist] in *.
  split; [reflexivity|]. split; [destruct p; split; congruence|]. intros q ->.
  destruct (plan_solves _ _ _ _ _ _ E) as (s' & Hs). exists s'. split; [exact Hs|]. split; [exact (solves_runs _ _ _ _ _ _ Hs)|].
  intros Hf. destruct Step as [Step|(c & Ec)]; [lia|]. exists c. split; [exact Ec|].
  subst bl. destruct (Z.ltb_spec (fail_step sim) 0); [lia|]. rewrite Ec in Hs. exact (avoids _ _ _ _ _ _ Hs).
Qed.

Lemma tw_replan_witness :
  let sim := mkSim 0 0 "walk" Travel.home in
  sim = simulate_to Travel.home [Travel.walk] Travel.domain 0 /\
  (true = true <-> Some [Travel.ride] <> None) /\
  forall p, Some [Travel.ride] = Some p -> exists s',
    solves Travel.domain (Some [tw_call_key Travel.walk]) Travel.home Travel.trip p s' /\
    tw_simulate Travel.home p Travel.domain = mkSim (plan_size p) (-1) EmptyString s' /\
    (0 <= 0 -> exists c, nth_error [Travel.walk] (Z.to_nat 0) = Some c /\ ~ In (tw_call_key c) (map tw_call_key p)).
Proof.
  apply (tw_replan_correct Travel.domain Travel.never Travel.home [Travel.walk] Travel.trip 0
    (mkReplan (mkSim 0 0 "walk" Travel.home) (Some [Travel.ride]) true [tw_call_key Travel.walk])); vm_compute; reflexivity.
Defined.

Lemma rbind_ok {A B} (m : res A) (k : A -> res B) b : rbind m k = Ok b -> exists a, m = Ok a /\ k a = Ok b.
Proof. destruct m as [a|]; [eauto|discriminate]. Qed.

Lemma runs_state domain s p s' : runs domain s p s' -> match p with [] => s | _ => sim_state (tw_simulate s p domain) end = s'.
Proof. intros R. destruct p; [injection R as <-; reflexivity|]. now rewrite R. Qed.

Lemma in_range_fail domain s plan fs : 0 <= fs < plan_size plan -> fail_step (simulate_to s plan domain fs) = fs.
Proof.
  intros Hfs. unfold simulate_to. destruct (Z.ltb_spec fs 0), (Z.leb_spec (plan_size plan) fs); cbn [orb]; try lia. reflexivity.
Qed.

(** Without a failure the plan is kept. *)
Lemma incremental_no_failure `{StdHash} domain late s plan tasks t fs s' : ~ 0 <= fs < plan_size plan -> runs domain s plan s' ->
  tw_replan_incremental domain late s plan tasks t fs = Ok (mkReplan (tw_simulate s plan domain) (Some plan) true []).
Proof.
  intros Hfs R. assert (F : fail_step (tw_simulate s plan domain) = -1) by now rewrite R.
  unfold tw_replan_incremental, simulate_to.
  destruct (Z.ltb_spec fs 0), (Z.leb_spec (plan_size plan) fs); cbn [orb]; try lia; now rewrite F.
Qed.

(** With one, the two ways to go on. *)
Lemma incremental_unfold `{StdHash} domain late s plan tasks t fs c id : 0 <= fs < plan_size plan ->
  nth_error plan (Z.to_nat fs) = Some c -> nth_error (action_nodes t) (Z.to_nat fs) = Some id ->
  let a := nearest_retryable_ancestor t id domain in
  let sim := simulate_to s plan domain fs in
  tw_replan_incremental domain late s plan tasks t fs =
  if a <? 0 then
    do p <- tw_plan domain (Some [tw_call_key c]) late (sim_state (tw_simulate s (firstn (Z.to_nat fs) plan) domain)) tasks;
    Ok (mkReplan sim p (match p with Some _ => true | None => false end) [tw_call_key c])
  else
    let prefix := firstn (Z.to_nat (prefix_length t a)) plan in
    do r <- tw_plan_with_tree domain (Some [tw_call_key c])
              (Some match node_at t a with Some m => [(tw_call_key (mkCall (node_name m) (node_args m)), [method_idx m])] | None => [] end)
              late (match prefix with [] => s | _ => sim_state (tw_simulate s prefix domain) end) tasks;
    Ok (match fst r with
        | None => mkReplan sim None false [tw_call_key c]
        | Some suffix => mkReplan sim (Some (prefix ++ suffix)) true [tw_call_key c]
        end).
Proof.
  intros Hfs Ec Eid. cbv zeta. unfold tw_replan_incremental. rewrite (in_range_fail domain s plan fs Hfs), Ec, Eid.
  destruct (Z.ltb_spec fs 0); [lia|]. unfold simulate_to at 1.
  destruct (Z.ltb_spec fs 0), (Z.leb_spec (plan_size plan) fs); cbn [orb]; try lia. reflexivity.
Qed.

Section Incremental.
Context `{StdHash}.
Variables (domain : TwDomain) (late : Z -> bool) (s : TwState) (tasks : list TwTask) (plan : list TwCall) (t : TwSolTree).

(** A plan for the tasks from [s1] that avoids the command [c]. *)
Definition recovers (c : TwCall) (s1 : TwState) (p : list TwCall) (s' : TwState) : Prop :=
  solves domain (Some [tw_call_key c]) s1 tasks p s' /\ ~ In (tw_call_key c) (map tw_call_key p) /\ runs domain s1 p s'.

(** No decomposition of the tree makes the choice of node [m] again. *)
Definition avoids_choice (t2 : TwSolTree) (m : TwSolNode) : Prop := forall i n, 0 < i -> node_at t2 i = Some n ->
  kind n = KTask \/ kind n = KGoal -> node_name n = node_name m -> node_args n = node_args m -> method_idx n <> method_idx m.

(** [a] is the nearest ancestor of [id] with a method left, [m] its node. *)
Definition nearest (id a : Z) (m : TwSolNode) : Prop :=
  0 < a /\ above t id a /\ node_at t a = Some m /\ can_retry t domain a /\ forall b, above t id b -> a < b -> ~ can_retry t domain b.

(** From the ancestor: the actions recorded before it are kept, and the tasks
    planned again from the state they lead to. *)
Definition from_ancestor (fs : Z) (c : TwCall) (id : Z) (r : TwReplanResult) : Prop :=
  exists a m s1 o t2, nearest id a m /\ Z.of_nat (before t a) <= fs /\ runs domain s (firstn (before t a) plan) s1 /\
    tw_plan_with_tree domain (Some [tw_call_key c])
      (Some [(tw_call_key (mkCall (node_name m) (node_args m)), [method_idx m])]) late s1 tasks = Ok (o, t2) /\
    new_plan r = option_map (app (firstn (before t a) plan)) o /\
    forall suffix, o = Some suffix -> exists s', recovers c s1 suffix s' /\
      runs domain s (firstn (before t a) plan ++ suffix) s' /\ avoids_choice t2 m.

(** From the failure, when no ancestor has a method left. *)
Definition from_failure (fs : Z) (c : TwCall) (id : Z) (r : TwReplanResult) : Prop :=
  (forall b, 0 < b -> above t id b -> ~ can_retry t domain b) /\
  exists s1, runs domain s (firstn (Z.to_nat fs) plan) s1 /\ tw_plan domain (Some [tw_call_key c]) late s1 tasks = Ok (new_plan r) /\
    forall p, new_plan r = Some p -> exists s', recovers c s1 p s'.

Lemma solves_recovers c s1 p s' : solves domain (Some [tw_call_key c]) s1 tasks p s' -> recovers c s1 p s'.
Proof. intros Hs. split; [exact Hs|]. split; [exact (avoids _ _ _ _ _ _ Hs)|exact (solves_runs _ _ _ _ _ _ Hs)]. Qed.

Lemma skipped_choice c m s1 p t2 :
  tw_plan_with_tree domain (Some [tw_call_key c])
    (Some [(tw_call_key (mkCall (node_name m) (node_args m)), [method_idx m])]) late s1 tasks = Ok (Some p, t2) ->
  (exists s', recovers c s1 p s') /\ avoids_choice t2 m.
Proof.
  intros E. apply plan_with_tree_ok in E as [(s' & Hs) [_ _ _ G4 _ _]]. split; [exists s'; now apply solves_recovers|].
  intros i n Hi En K Nm Ar Em. specialize (G4 i n ltac:(change (size root_tree) with 1; lia) En). unfold choice_ok in G4.
  assert (C : exists methods, dict_find (node_name n) (task_methods domain) = Some methods /\ 0 <= method_idx n < Z.of_nat (List.length methods) /\
    skip_method (Some [(tw_call_key (mkCall (node_name m) (node_args m)), [method_idx m])]) (tw_call_key (mkCall (node_name n) (node_args n))) (Z.to_nat (method_idx n)) = false)
    by (destruct K as [K|K]; rewrite K in G4; exact G4).
  destruct C as (ms & _ & R & C). cbn [skip_method dict_find] in C. rewrite Nm, Ar, String.eqb_refl in C.
  cbn [mem existsb] in C. rewrite Z2Nat.id, Em, Z.eqb_refl in C by lia. discriminate.
Qed.

Lemma prefix_before a m : (exists bl skip late1, tw_plan_with_tree domain bl skip late1 s tasks = Ok (Some plan, t)) ->
  node_at t a = Some m -> can_retry t domain a -> 0 < a -> prefix_length t a = Z.of_nat (before t a).
Proof.
  intros (bl & skip & late1 & E) Em (m' & ms & Em' & K & _) Ha. apply plan_with_tree_ok in E as [_ [_ _ _ _ Gf _]].
  assert (m' = m) as -> by congruence. unfold prefix_length. rewrite Em.
  rewrite (Gf a m); [|change (size root_tree) with 1; lia|exact Em|destruct K as [-> | ->]; discriminate].
  destruct (Z.ltb_spec (Z.of_nat (before t a)) 0); lia.
Qed.

Lemma ancestor_branch fs c id a m s1 o t2 sim : nearest id a m -> Z.of_nat (before t a) <= fs ->
  runs domain s (firstn (before t a) plan) s1 ->
  tw_plan_with_tree domain (Some [tw_call_key c])
    (Some [(tw_call_key (mkCall (node_name m) (node_args m)), [method_idx m])]) late s1 tasks = Ok (o, t2) ->
  from_ancestor fs c id
    (match o with
     | None => mkReplan sim None false [tw_call_key c]
     | Some suffix => mkReplan sim (Some (firstn (before t a) plan ++ suffix)) true [tw_call_key c]
     end).
Proof.
  intros N L R E. exists a, m, s1, o, t2. split; [exact N|]. split; [exact L|]. split; [exact R|]. split; [exact E|].
  split; [destruct o; reflexivity|]. intros suffix ->. destruct (skipped_choice _ _ _ _ _ E) as [(s' & Rs) Av].
  exists s'. split; [exact Rs|]. split; [|exact Av]. exact (runs_app _ _ _ _ _ _ R (proj2 (proj2 Rs))).
Qed.

Lemma failure_branch fs c id s1 p sim : (forall b, 0 < b -> above t id b -> ~ can_retry t domain b) ->
  runs domain s (firstn (Z.to_nat fs) plan) s1 -> tw_plan domain (Some [tw_call_key c]) late s1 tasks = Ok p ->
  from_failure fs c id (mkReplan sim p (match p with Some _ => true | None => false end) [tw_call_key c]).
Proof.
  intros N R E. split; [exact N|]. exists s1. split; [exact R|]. split; [exact E|]. cbn [new_plan]. intros q ->.
  destruct (plan_solves _ _ _ _ _ _ E) as (s' & Hp). exists s'. now apply solves_recovers.
Qed.
End Incremental.

(** C19: Let a plan and its tree come from [tw_plan_with_tree].  Without a failing
    step in range [tw_replan_incremental] returns the plan itself.  When step [fs]
    fails, with command [c] at action node [id]: if an ancestor of [id] has a
    method left, the nearest one is taken; the result keeps exactly the actions
    recorded before that ancestor, none of them behind the failed step, and
    continues with what [tw_plan_with_tree] finds for the tasks from the state
    after them, a decomposition without [c] that nowhere repeats the ancestor's
    choice of method, and the whole executes from the start state; it is no plan
    when none is found.  If no ancestor has a method left, the result is what
    [tw_plan] finds from the state of the failure, without a prefix. *)
Theorem tw_replan_incremental_correct `{StdHash} domain blacklist method_skip late1 late2 s tasks plan t fs r :
  tw_plan_with_tree domain blacklist method_skip late1 s tasks = Ok (Some plan, t) ->
  tw_replan_incremental domain late2 s plan tasks t fs = Ok r ->
  (recovered r = true <-> new_plan r <> None) /\
  (~ 0 <= fs < plan_size plan -> new_plan r = Some plan) /\
  (0 <= fs < plan_size plan -> exists c id,
     nth_error plan (Z.to_nat fs) = Some c /\ nth_error (action_nodes t) (Z.to_nat fs) = Some id /\
     (from_ancestor domain late2 s tasks plan t fs c id r \/ from_failure domain late2 s tasks plan t fs c id r)).
Proof.
  intros E Er. pose proof (fun a m => prefix_before domain s tasks plan t a m ltac:(eauto)) as Pre.
  pose proof E as E'. apply plan_with_tree_ok in E' as [(s0 & Hs) [G1 _ _ _ _ (ids & G5 & _ & G6)]]. cbn [root_tree action_nodes app] in G5. subst ids.
  assert (D : (0 <= fs < plan_size plan) \/ ~ 0 <= fs < plan_size plan) by lia. destruct D as [Hfs|Hfs].
  2: { rewrite (incremental_no_failure _ _ _ _ _ _ _ s0 Hfs (solves_runs _ _ _ _ _ _ Hs)) in Er. injection Er as <-. cbn. repeat split; auto; easy. }
  destruct (nth_error plan (Z.to_nat fs)) as [c|] eqn:Ec; [|apply nth_error_None in Ec; unfold plan_size in Hfs; lia].
  destruct (logged_nth _ _ _ _ _ _ G6 Ec) as (id & n & Eid & En & K & _ & _ & Ps).
  rewrite (incremental_unfold domain late2 s plan tasks t fs c id Hfs Ec Eid) in Er. cbv zeta in Er.
  destruct (nearest_ok t domain G1 id n En) as [(A1 & A2 & A3 & A4 & A5)|[A1 A2]].
  - rewrite (proj2 (Z.ltb_ge _ _)) in Er by lia. pose proof A3 as (m & _ & Em & _).
    rewrite (Pre _ m Em A3 A1), Nat2Z.id, Em in *.
    destruct (solves_prefix _ _ _ _ _ _ (before t (nearest_retryable_ancestor t id domain)) Hs) as (s1 & R1).
    rewrite (runs_state _ _ _ _ R1) in Er. apply rbind_ok in Er as ([o t2] & E2 & Er). cbn [fst] in Er.
    apply (f_equal (fun x => match x with Ok y => y | Throw _ => r end)) in Er.
    split; [rewrite <- Er; destruct o; split; easy|]. split; [lia|]. intros _. exists c, id. split; [reflexivity|]. split; [exact Eid|]. left.
    rewrite <- Er. eapply ancestor_branch; [| |exact R1|exact E2].
    + split; [exact A1|]. split; [exact A2|]. split; [exact Em|]. split; [exact A3|exact A4].
    + unfold start in A5. rewrite K, Ps in A5. unfold steps in A5. cbn [root_tree action_nodes List.length] in A5. lia.
  - rewrite (proj2 (Z.ltb_lt _ _)) in Er by lia.
    destruct (solves_prefix _ _ _ _ _ _ (Z.to_nat fs) Hs) as (s1 & R1).
    assert (Es : sim_state (tw_simulate s (firstn (Z.to_nat fs) plan) domain) = s1) by now rewrite R1. rewrite Es in Er.
    apply rbind_ok in Er as (o & E2 & Er). apply (f_equal (fun x => match x with Ok y => y | Throw _ => r end)) in Er.
    split; [rewrite <- Er; destruct o; split; easy|]. split; [lia|]. intros _. exists c, id. split; [reflexivity|]. split; [exact Eid|]. right.
    rewrite <- Er. eapply failure_branch; eassumption.
Qed.

Lemma tw_replan_incremental_witness :
  let r := mkReplan (mkSim 0 0 "walk" Travel.home) (Some [Travel.ride]) true [tw_call_key Travel.walk] in
  (true = true <-> Some [Travel.ride] <> None) /\
  (~ 0 <= 0 < 1 -> Some [Travel.ride] = Some [Travel.walk]) /\
  (0 <= 0 < 1 -> exists c id,
     nth_error [Travel.walk] 0 = Some c /\ nth_error (action_nodes trip_tree) 0 = Some id /\
     (from_ancestor Travel.domain Travel.never Travel.home Travel.trip [Travel.walk] trip_tree 0 c id r \/
      from_failure Travel.domain Travel.never Travel.home Travel.trip [Travel.walk] trip_tree 0 c id r)).
Proof.
  apply (tw_replan_incremental_correct Travel.domain None None Travel.never Travel.never Travel.home Travel.trip [Travel.walk] trip_tree 0
    (mkReplan (mkSim 0 0 "walk" Travel.home) (Some [Travel.ride]) true [tw_call_key Travel.walk])); vm_compute; reflexivity.
Defined.

(** The replanner starts the whole task list again after the prefix, so a prefix
    that cannot be executed twice makes it give up where a recovery exists. *)
Lemma incremental_restarts_tasks :
  let tasks := Call (mkCall "pack" []) :: Travel.trip in
  let plan := [mkCall "pack" []; Travel.walk] in
  let packed := set_var Travel.home "packed" (BOOL true) in
  (do pt <- tw_plan_with_tree Travel.domain None None Travel.never Travel.home tasks;
   do r <- tw_replan_incremental Travel.domain Travel.never Travel.home plan tasks (snd pt) 1;
   Ok (fst pt, new_plan r)) = Ok (Some plan, None) /\
  solves Travel.domain (Some [tw_call_key Travel.walk]) Travel.home tasks [mkCall "pack" []; Travel.ride] (set_nested packed "loc" Travel.me Travel.park).
Proof.
  cbv zeta. split; [vm_compute; reflexivity|].
  apply (solves_action _ _ _ (mkCall "pack" []) _ Travel.pack (set_var Travel.home "packed" (BOOL true))); [reflexivity..|].
  apply (solves_method _ _ _ _ _ [Travel.go_by "walk"; Travel.go_by "ride"] (Travel.go_by "ride") [Call Travel.ride]); [reflexivity|reflexivity|cbn; auto|reflexivity|].
  apply (solves_action _ _ _ _ _ Travel.move (set_nested (set_var Travel.home "packed" (BOOL true)) "loc" Travel.me Travel.park)); [reflexivity|vm_compute; reflexivity|reflexivity|].
  apply solves_goal_met; [vm_compute; reflexivity|constructor].
Qed.
