(* ===== verification/TwTemporal.v ===== *)
(** taskweft_nif/standalone/tw_temporal.hpp: ISO 8601 durations, the simple
    temporal network and the timing of plans, with the part of
    thirdparty/date/date.h that the civil calendar uses.

    Times are [int64_t] milliseconds; [None] is signed overflow.  The
    character at index [i] is the head of the rest of the text, and a text
    that is over stands for [i >= dur.size()]. *)

From Stdlib Require Import ZArith String Ascii List Bool Lia.
From Stdlib Require Import Floats.SpecFloat.
From S2P Require Import Prelude OrderedMap TwValue TwJson TwRebac TwState TwDomain.
Import ListNotations.
#[local] Open Scope string_scope.
#[local] Open Scope Z_scope.

Definition MS_Y : Z := 365 * 86400 * 1000.
Definition MS_MO : Z := 30 * 86400 * 1000.
Definition MS_W : Z := 7 * 86400 * 1000.
Definition MS_D : Z := 86400 * 1000.
Definition MS_H : Z := 3600 * 1000.
Definition MS_MI : Z := 60 * 1000.
Definition MS_S : Z := 1000.

Definition obind {A B} (o : option A) (k : A -> option B) : option B :=
  match o with Some a => k a | None => None end.
Notation "'get' x <- m ; k" := (obind m (fun x => k))
  (at level 10, x binder, m at level 100, k at level 200) : tw_scope.
#[local] Open Scope tw_scope.

(** The value of an exact result in [int64_t]. *)
Definition int64 (x : Z) : option Z := if (- 2 ^ 63 <=? x) && (x <? 2 ^ 63) then Some x else None.

(** * The parser of durations

    [tw_parse_duration_ms] and [tw_civil_duration_ms] scan alike and differ in
    what a component adds; [add_component] is that part, and [C] the cursor it
    moves, which is also moved when the text turns out to be malformed later. *)

Definition unit_of (in_time : bool) (c : ascii) : option (Z * Z) :=
  if in_time then
    if Ascii.eqb c "H" then Some (3, MS_H)
    else if Ascii.eqb c "M" then Some (4, MS_MI)
    else if Ascii.eqb c "S" then Some (5, MS_S)
    else None
  else
    if Ascii.eqb c "Y" then Some (0, MS_Y)
    else if Ascii.eqb c "M" then Some (1, MS_MO)
    else if Ascii.eqb c "W" then Some (99, MS_W)
    else if Ascii.eqb c "D" then Some (2, MS_D)
    else None.

(** A number as read: its integer digits and the digits after the point. *)
Record number := mkNumber { whole : string; frac : option string }.

(** [acc] of the first three digits, padded. *)
Definition frac_milli (d : string) : Z :=
  let d3 := string_take 3 d in
  read_digits 0 d3 * 10 ^ (3 - Z.of_nat (String.length d3)).

(** The number at a digit; [None] for a trailing point. *)
Definition scan_duration_number (p : string) : option (number * string) :=
  let '(w, q) := span_digits p in
  match q with
  | String c r =>
      if Ascii.eqb c "." then
        let '(f, r') := span_digits r in
        if is_empty f then None else Some (mkNumber w (Some f), r')
      else Some (mkNumber w None, q)
  | EmptyString => Some (mkNumber w None, q)
  end.

Section Durations.
Variable C : Type.

Record dstate := mkD {
  total_ms : Z; in_time : bool; saw_t : bool; frac_seen : bool; saw_w : bool; saw_any : bool; last_rank : Z; cursor : C
}.

Definition d_init (c : C) : dstate := mkD 0 false false false false false (-1) c.

(** [whole], [in_time], [unit_c], [frac_milli] if there is a fraction,
    [unit_ms], and the total and cursor before. *)
Variable add_component : Z -> bool -> ascii -> option Z -> Z -> Z -> C -> option (Z * C).

Fixpoint duration_loop (fuel : nat) (p : string) (st : dstate) : option (Z * C) :=
  let error := Some (-1, cursor st) in
  match p, fuel with
  | EmptyString, _ => Some (total_ms st, cursor st)
  | String _ _, O => None
  | String c r, S fuel =>
      if frac_seen st then error
      else if Ascii.eqb c "T" then
        if saw_t st then error
        else if is_empty r then error
        else duration_loop fuel r (mkD (total_ms st) true true (frac_seen st) (saw_w st) (saw_any st) (last_rank st) (cursor st))
      else if negb (isdigit c) then error
      else
        let '(w, _) := span_digits p in
        get whole <- int64 (read_digits 0 w);
        match scan_duration_number p with
        | None => error
        | Some (_, EmptyString) => error
        | Some (n, String unit_c p') =>
            match unit_of (in_time st) unit_c with
            | None => error
            | Some (rank, unit_ms) =>
                let is_w := Ascii.eqb unit_c "W" in
                if is_w && (saw_any st || in_time st) then error
                else if saw_w st then error
                else if negb (rank =? 99) && (rank <=? last_rank st) then error
                else
                  get tc <- add_component whole (in_time st) unit_c (option_map frac_milli (frac n)) unit_ms (total_ms st) (cursor st);
                  duration_loop fuel p'
                    (mkD (fst tc) (in_time st) (saw_t st) (match frac n with Some _ => true | None => frac_seen st end)
                      (is_w || saw_w st) true (if rank =? 99 then last_rank st else rank) (snd tc))
            end
        end
  end.

Definition parse_duration (dur : string) (c : C) : option (Z * C) :=
  match dur with
  | String c0 r => if negb (Ascii.eqb c0 "P") then Some (-1, c) else if is_empty r then Some (0, c) else duration_loop (String.length r) r (d_init c)
  | EmptyString => Some (-1, c)
  end.
End Durations.
Arguments duration_loop {C}. Arguments parse_duration {C}. Arguments d_init {C}. Arguments mkD {C}.
Arguments total_ms {C}. Arguments in_time {C}. Arguments saw_t {C}. Arguments frac_seen {C}.
Arguments saw_w {C}. Arguments saw_any {C}. Arguments last_rank {C}. Arguments cursor {C}.

(** [total_ms += whole * unit_ms], and the fraction. *)
Definition add_fixed (whole : Z) (fm : option Z) (unit_ms total : Z) : option Z :=
  get x <- int64 (whole * unit_ms);
  get t <- int64 (total + x);
  match fm with Some f => int64 (t + f * (unit_ms / 1000)) | None => Some t end.

Definition add_ms (whole : Z) (_ : bool) (_ : ascii) (fm : option Z) (unit_ms total : Z) (c : unit) : option (Z * unit) :=
  option_map (fun t => (t, c)) (add_fixed whole fm unit_ms total).

Definition tw_parse_duration_ms (dur : string) : option Z := option_map fst (parse_duration add_ms dur tt).

(** * Printing durations *)

Definition pad3 (n : Z) : string :=
  String (digit (n / 100)) (String (digit (n / 10 mod 10)) (String (digit (n mod 10)) EmptyString)).

Definition tw_format_duration_ms (ms : Z) : string :=
  let ms := if ms <? 0 then 0 else ms in
  let total_s := ms / 1000 in
  let milli := ms mod 1000 in
  let h := total_s / 3600 in
  let total_s := total_s - h * 3600 in
  let m := total_s / 60 in
  let s := total_s mod 60 in
  let hours := if 0 <? h then (show_nat h ++ "H")%string else EmptyString in
  let minutes := if 0 <? m then (show_nat m ++ "M")%string else EmptyString in
  let fraction := if 0 <? milli then ("." ++ strip_zeros (pad3 milli))%string else EmptyString in
  let seconds := if (0 <? s) || (0 <? milli) || ((h =? 0) && (m =? 0))
                 then (show_nat s ++ fraction ++ "S")%string else EmptyString in
  ("PT" ++ hours ++ minutes ++ seconds)%string.

(** * The civil calendar (date.h) *)

Record year_month_day := mkYmd { year : Z; month : Z; day : Z }.

Definition is_leap (y : Z) : bool := (Z.rem y 4 =? 0) && (negb (Z.rem y 100 =? 0) || (Z.rem y 400 =? 0)).

Definition last_day (y m : Z) : Z :=
  if (negb (m =? 2) || negb (is_leap y)) && ((1 <=? m) && (m <=? 12))
  then nth (Z.to_nat (m - 1)) [31; 28; 31; 30; 31; 30; 31; 31; 30; 31; 30; 31] 0 else 29.

Definition ymd_ok (c : year_month_day) : bool :=
  negb (year c =? -32768) && ((1 <=? month c) && (month c <=? 12)) && ((1 <=? day c) && (day c <=? last_day (year c) (month c))).

Definition to_days (c : year_month_day) : Z :=
  let y := year c - (if month c <=? 2 then 1 else 0) in
  let m := month c in
  let era := Z.quot (if 0 <=? y then y else y - 399) 400 in
  let yoe := y - era * 400 in
  let doy := (153 * (if 2 <? m then m - 3 else m + 9) + 2) / 5 + day c - 1 in
  let doe := yoe * 365 + yoe / 4 - yoe / 100 + doy in
  era * 146097 + doe - 719468.

(** [year + years]: an [int] sum, stored in a [short]. *)
Definition add_years (y n : Z) : option Z :=
  if (- 2 ^ 31 <=? y + n) && (y + n <? 2 ^ 31) then Some (swrap 16 (y + n)) else None.

(** [month + months]: the month alone, modulo 12. *)
Definition add_months (m n : Z) : Z :=
  let mu := m + n - 1 in
  let yr := Z.quot (if 0 <=? mu then mu else mu - 11) 12 in
  mu - yr * 12 + 1.

(** Clamp to the last day of the month. *)
Definition clamp (c : year_month_day) : year_month_day :=
  if ymd_ok c then c else mkYmd (year c) (month c) (last_day (year c) (month c)).

Definition add_civil (whole : Z) (in_time : bool) (unit_c : ascii) (fm : option Z) (unit_ms total : Z)
    (c : year_month_day) : option (Z * year_month_day) :=
  let is_y := Ascii.eqb unit_c "Y" in
  if negb in_time && (is_y || Ascii.eqb unit_c "M") && ymd_ok c then
    let n := i32 whole in
    get c1 <- (if is_y then option_map (fun y => mkYmd y (month c) (day c)) (add_years (year c) n)
               else Some (mkYmd (year c) (add_months (month c) n) (day c)));
    let c' := clamp c1 in
    get t <- int64 (total + (to_days c' - to_days c) * 86400 * 1000);
    get t <- match fm with Some f => int64 (t + f * (unit_ms / 1000)) | None => Some t end;
    Some (t, c')
  else option_map (fun t => (t, c)) (add_fixed whole fm unit_ms total).

Definition tw_civil_duration_ms (dur : string) (c : year_month_day) : option (Z * year_month_day) :=
  parse_duration add_civil dur c.

Definition char_at (s : string) (i : nat) : ascii := match String.get i s with Some c => c | None => zero end.

Fixpoint date_field (s : string) (i n : nat) (acc : Z) : option Z :=
  match n with
  | O => Some acc
  | S n => if isdigit (char_at s i) then date_field s (S i) n (acc * 10 + (code (char_at s i) - 48)) else None
  end.

Definition tw_parse_date (s : string) : option year_month_day :=
  if (String.length s <? 10)%nat || negb (Ascii.eqb (char_at s 4) "-") || negb (Ascii.eqb (char_at s 7) "-") then None
  else
    get y <- date_field s 0 4 0; get m <- date_field s 5 2 0; get d <- date_field s 8 2 0;
    let c := mkYmd y m d in
    if ymd_ok c then Some c else None.

(** * The simple temporal network *)

Definition INF : spec_float := S754_infinity false.
Definition fadd : spec_float -> spec_float -> spec_float := SFadd 53 1024.
Definition flt : spec_float -> spec_float -> bool := SFltb.
Definition is_inf (x : spec_float) : bool := SFeqb x INF.

Definition matrix := list (list spec_float).
Definition at2 (d : matrix) (i j : nat) : spec_float := nth j (nth i d []) INF.
Definition set2 (d : matrix) (i j : nat) (x : spec_float) : matrix := set_nth d i (set_nth (nth i d []) j x).

Record STN := mkSTN { points : list string; idx : dict nat; dist : matrix }.
Definition empty_stn : STN := mkSTN [] [] [].

Definition add_point (s : STN) (p : string) : STN :=
  if dict_count p (idx s) then s
  else
    let n := List.length (points s) in
    mkSTN (points s ++ [p])%list (dict_set p n (idx s))
      (map (fun row => row ++ [INF]) (dist s) ++ [repeat INF n ++ [S754_zero false]])%list.

(** [idx.at] of the two points, which are present. *)
Definition add_constraint (s : STN) (from to : string) (lo hi : spec_float) : STN :=
  let s := add_point (add_point s from) to in
  match dict_find from (idx s), dict_find to (idx s) with
  | Some fi, Some ti =>
      let d := if flt hi (at2 (dist s) fi ti) then set2 (dist s) fi ti hi else dist s in
      let d := if flt (SFopp lo) (at2 d ti fi) then set2 d ti fi (SFopp lo) else d in
      mkSTN (points s) (idx s) d
  | _, _ => s
  end.

Definition relax_entry (k i : nat) (d : matrix) (j : nat) : matrix :=
  if is_inf (at2 d k j) then d
  else let via := fadd (at2 d i k) (at2 d k j) in
       if flt via (at2 d i j) then set2 d i j via else d.

Definition relax_row (n k : nat) (d : matrix) (i : nat) : matrix :=
  if is_inf (at2 d i k) then d else fold_left (relax_entry k i) (seq 0 n) d.

Definition relax (n : nat) (d : matrix) (k : nat) : matrix := fold_left (relax_row n k) (seq 0 n) d.

Definition consistent (s : STN) : bool :=
  let n := List.length (points s) in
  let d := fold_left (relax n) (seq 0 n) (dist s) in
  forallb (fun i => negb (flt (at2 d i i) (S754_zero false))) (seq 0 n).

(** * Timing of a plan *)

Record TwTemporalStep := mkStep { action_name : string; duration_iso : string; start_iso : string; end_iso : string }.
Record TwTemporalResult := mkTemporal { is_consistent : bool; total_iso : string; origin_iso : string; t_steps : list TwTemporalStep }.

(** [static_cast<double>(dur_ms) / 1000.0]. *)
Definition seconds (ms : Z) : spec_float := SFdiv 53 1024 (double ms) (double 1000).

(** The duration of an action, and the calendar after it.  Both checks run the
    same loop; without a calendar the cursor is [None]. *)
Definition action_ms (domain : TwDomain) (nm : string) (civil : option year_month_day)
    : option (Z * string * option year_month_day) :=
  match dict_find nm (action_durations domain) with
  | None => Some (0, EmptyString, civil)
  | Some iso =>
      get r <- match civil with
               | Some c => if ymd_ok c then option_map (fun tc => (fst tc, Some (snd tc))) (tw_civil_duration_ms iso c)
                           else option_map (fun t => (t, civil)) (tw_parse_duration_ms iso)
               | None => option_map (fun t => (t, civil)) (tw_parse_duration_ms iso)
               end;
      Some (if 0 <=? fst r then fst r else 0, iso, snd r)
  end.

Record timing := mkTiming {
  stn : STN; prev_end : string; current : Z; plan_total : Z; civil : option year_month_day; steps_done : list TwTemporalStep
}.

Definition time_step (domain : TwDomain) (t : timing) (i : nat) (nm : string) : option timing :=
  get r <- action_ms domain nm (civil t);
  let '(dur_ms, dur_iso, civil') := r in
  get fin <- int64 (current t + dur_ms);
  get total <- int64 (plan_total t + dur_ms);
  let step := mkStep nm (if is_empty dur_iso then "PT0S" else dur_iso)
                (tw_format_duration_ms (current t)) (tw_format_duration_ms fin) in
  let dur_s := seconds dur_ms in
  let a_s := ("a" ++ show_nat (Z.of_nat i) ++ "_start")%string in
  let a_e := ("a" ++ show_nat (Z.of_nat i) ++ "_end")%string in
  let zero := S754_zero false in
  let n := add_constraint (add_constraint (stn t) (prev_end t) a_s zero zero) a_s a_e dur_s dur_s in
  Some (mkTiming n a_e fin total civil' (steps_done t ++ [step])%list).

Fixpoint time_plan (domain : TwDomain) (t : timing) (i : nat) (plan : list TwCall) : option timing :=
  match plan with
  | [] => Some t
  | c :: plan => get t' <- time_step domain t i (name c); time_plan domain t' (S i) plan
  end.

Definition check_temporal (plan : list TwCall) (domain : TwDomain) (origin : string) (civil : option year_month_day)
    : option TwTemporalResult :=
  get origin_ms <- tw_parse_duration_ms origin;
  let origin_ms := if origin_ms <? 0 then 0 else origin_ms in
  match plan with
  | [] => Some (mkTemporal true "PT0S" origin [])
  | _ :: _ =>
      get t <- time_plan domain (mkTiming (add_point empty_stn "t0") "t0" origin_ms 0 civil []) 0 plan;
      Some (mkTemporal (consistent (stn t)) (tw_format_duration_ms (plan_total t)) origin (steps_done t))
  end.

Definition tw_check_temporal (plan : list TwCall) (domain : TwDomain) (origin_iso : string) : option TwTemporalResult :=
  check_temporal plan domain origin_iso None.

Definition tw_check_temporal_civil (plan : list TwCall) (domain : TwDomain) (origin_iso reference_date : string)
    : option TwTemporalResult :=
  check_temporal plan domain origin_iso (if is_empty reference_date then None else tw_parse_date reference_date).
