(* ===== verification/TwDurationProofs.v ===== *)
(** tw_temporal.hpp: the parser accepts exactly the canonical ISO 8601
    durations with their value, and printed durations are read back. *)

From Stdlib Require Import ZArith String Ascii List Bool Lia.
From S2P Require Import Prelude OrderedMap TwValue TwJson TwJsonProofs TwRebac TwState TwDomain TwTemporal.
Import ListNotations.
#[local] Open Scope string_scope.
#[local] Open Scope Z_scope.
#[local] Open Scope tw_scope.

(** * Canonical durations *)

Definition print_number (n : number) : string :=
  (whole n ++ match frac n with Some f => "." ++ f | None => EmptyString end)%string.

Definition digits (s : string) : Prop := digits_only s = true /\ s <> EmptyString.
Definition valid_number (n : number) : Prop :=
  digits (whole n) /\ match frac n with Some f => digits f | None => True end.

(** Split conjunctions, but not the definitions above. *)
Ltac conjs := repeat match goal with |- valid_number _ => assumption | |- _ /\ _ => split end; auto.

(** A component: a number and its unit. *)
Definition component := (number * ascii)%type.
Definition c_text (c : component) : string := (print_number (fst c) ++ String (snd c) EmptyString)%string.
Definition c_ms (unit_ms : Z) (n : number) : Z :=
  read_digits 0 (whole n) * unit_ms + match frac n with Some f => frac_milli f * (unit_ms / 1000) | None => 0 end.

Definition text (cs : list component) : string := fold_right (fun c s => c_text c ++ s)%string EmptyString cs.

Fixpoint value (in_time : bool) (cs : list component) : Z :=
  match cs with
  | [] => 0
  | c :: cs => match unit_of in_time (snd c) with Some (_, ms) => c_ms ms (fst c) | None => 0 end + value in_time cs
  end.

(** Units in strictly decreasing size, weeks apart. *)
Fixpoint ordered (in_time : bool) (last : Z) (cs : list component) : Prop :=
  match cs with
  | [] => True
  | c :: cs => valid_number (fst c) /\
      exists r ms, unit_of in_time (snd c) = Some (r, ms) /\ r <> 99 /\ last < r /\ ordered in_time r cs
  end.

(** Only the last component may have a fraction. *)
Fixpoint lowest_frac (cs : list component) : Prop :=
  match cs with
  | [] => True
  | c :: cs => (frac (fst c) = None \/ cs = []) /\ lowest_frac cs
  end.

Inductive duration :=
| Weeks (n : number)
| Parts (dates times : list component).

Definition time_text (times : list component) : string :=
  match times with [] => EmptyString | _ => ("T" ++ text times)%string end.

Definition print_duration (d : duration) : string :=
  match d with
  | Weeks n => ("P" ++ c_text (n, "W"%char))%string
  | Parts dates times => ("P" ++ text dates ++ time_text times)%string
  end.

Definition canonical (d : duration) : Prop :=
  match d with
  | Weeks n => valid_number n
  | Parts dates times => ordered false (-1) dates /\ ordered true 2 times /\ lowest_frac (dates ++ times)
  end.

Definition duration_ms (d : duration) : Z :=
  match d with
  | Weeks n => c_ms MS_W n
  | Parts dates times => value false dates + value true times
  end.

(** * Numbers *)

Lemma code_digit c : isdigit c = true -> 48 <= code c <= 57.
Proof. unfold isdigit. rewrite andb_true_iff, !Z.leb_le. lia. Qed.

Lemma read_digits_nonneg d : forall acc, 0 <= acc -> digits_only d = true -> 0 <= read_digits acc d.
Proof.
  induction d as [|c d IH]; intros acc Ha Hd; cbn [read_digits digits_only] in *; [exact Ha|].
  apply andb_true_iff in Hd as [Hc Hd]. apply code_digit in Hc. apply IH; [lia|exact Hd].
Qed.

Lemma digits_take n : forall d, digits_only d = true -> digits_only (string_take n d) = true.
Proof.
  induction n as [|n IH]; intros [|c d] Hd; cbn in *; auto. apply andb_true_iff in Hd as [Hc Hd]. now rewrite Hc, IH.
Qed.

Lemma frac_milli_nonneg d : digits_only d = true -> 0 <= frac_milli d.
Proof.
  intros Hd. unfold frac_milli. apply Z.mul_nonneg_nonneg; [apply read_digits_nonneg; [lia|now apply digits_take]|].
  apply Z.pow_nonneg. lia.
Qed.

Lemma unit_ms_pos it u r ms : unit_of it u = Some (r, ms) -> 1000 <= ms.
Proof. unfold unit_of. destruct it; repeat (destruct (Ascii.eqb _ _); [intros E; injection E as _ <-; apply Z.leb_le; vm_compute; reflexivity|]); discriminate. Qed.

Lemma valid_parts n : valid_number n -> 0 <= read_digits 0 (whole n) /\ match frac n with Some f => 0 <= frac_milli f | None => True end.
Proof.
  intros [[Hw _] Hf]. split; [now apply read_digits_nonneg|]. destruct (frac n); [|exact I]. apply frac_milli_nonneg, Hf.
Qed.

Lemma c_ms_bounds ms n : valid_number n -> 1000 <= ms ->
  0 <= read_digits 0 (whole n) <= read_digits 0 (whole n) * ms /\ read_digits 0 (whole n) * ms <= c_ms ms n.
Proof.
  intros Hv Hm. destruct (valid_parts n Hv) as [Hw Hf]. unfold c_ms.
  assert (0 <= ms / 1000) by (apply Z.div_pos; lia). split; [nia|]. destruct (frac n); nia.
Qed.

Lemma int64_id x : - 2 ^ 63 <= x < 2 ^ 63 -> int64 x = Some x.
Proof. intros Hx. unfold int64. destruct (Z.leb_spec (- 2 ^ 63) x), (Z.ltb_spec x (2 ^ 63)); cbn [andb]; auto; lia. Qed.

Lemma int64_inv x y : int64 x = Some y -> y = x /\ - 2 ^ 63 <= x < 2 ^ 63.
Proof.
  unfold int64. destruct (Z.leb_spec (- 2 ^ 63) x), (Z.ltb_spec x (2 ^ 63)); cbn [andb]; try discriminate. intros [= <-]. lia.
Qed.

Lemma obind_some {A B} (o : option A) (k : A -> option B) b : obind o k = Some b -> exists a, o = Some a /\ k a = Some b.
Proof. destruct o as [a|]; [eauto|discriminate]. Qed.

(** What a component adds, as long as the sum fits. *)
Lemma add_fixed_iff n ms total t : valid_number n -> 1000 <= ms -> 0 <= total < 2 ^ 63 ->
  (add_fixed (read_digits 0 (whole n)) (option_map frac_milli (frac n)) ms total = Some t <-> t = total + c_ms ms n /\ t < 2 ^ 63).
Proof.
  intros Hv Hm Ht. destruct (c_ms_bounds ms n Hv Hm) as [B1 B2]. destruct (valid_parts n Hv) as [Hw Hf].
  assert (D : 0 <= ms / 1000) by (apply Z.div_pos; lia). unfold add_fixed, c_ms in *. split.
  - intros E. apply obind_some in E as (x & E1 & E). apply int64_inv in E1 as [-> R1].
    apply obind_some in E as (y & E2 & E). apply int64_inv in E2 as [-> R2].
    destruct (frac n) as [f|]; cbn [option_map] in E; [apply int64_inv in E as [-> R3]|injection E as <-]; lia.
  - intros [-> R]. rewrite int64_id by (destruct (frac n); nia). cbn [obind].
    rewrite int64_id by (destruct (frac n); nia). cbn [obind]. destruct (frac n) as [f|]; cbn [option_map].
    + rewrite int64_id by nia. f_equal. lia.
    + f_equal. lia.
Qed.

(** * Scanning a number *)

Definition after_number (u : ascii) : Prop := isdigit u = false /\ u <> "."%char.

Lemma unit_after it u x : unit_of it u = Some x -> after_number u.
Proof.
  unfold unit_of. destruct it;
    repeat match goal with |- context [Ascii.eqb u ?c] => destruct (Ascii.eqb_spec u c) as [->|]; [intros _; split; [reflexivity|discriminate]|] end; discriminate.
Qed.

Lemma scan_print n u r : valid_number n -> after_number u -> scan_duration_number (print_number n ++ String u r) = Some (n, String u r).
Proof.
  intros [[Hw Hw0] Hf] [Hu Hd]. unfold scan_duration_number, print_number. destruct n as [w [f|]]; cbn [whole frac] in *.
  - destruct Hf as [Hf Hf0]. rewrite str_app_assoc, span_digits_ok by (auto; reflexivity).
    cbn [append]. change (Ascii.eqb "." ".") with true. cbv iota. rewrite span_digits_ok by auto.
    destruct f; [congruence|reflexivity].
  - rewrite str_app_assoc. cbn [append]. rewrite span_digits_ok by auto. destruct (Ascii.eqb_spec u "."); [contradiction|reflexivity].
Qed.

Lemma span_sound p : forall d q, span_digits p = (d, q) -> p = (d ++ q)%string /\ digits_only d = true /\
  match q with String c _ => isdigit c = false | EmptyString => True end.
Proof.
  induction p as [|c p IH]; intros d q E; cbn [span_digits] in E; [injection E as <- <-; auto|].
  destruct (isdigit c) eqn:Hc.
  - destruct (span_digits p) as [d' q'] eqn:Ep. injection E as <- <-. destruct (IH _ _ eq_refl) as (-> & Hd & Hq).
    cbn [digits_only append]. rewrite Hc. auto.
  - injection E as <- <-. auto.
Qed.

Lemma scan_sound c r n q : isdigit c = true -> scan_duration_number (String c r) = Some (n, q) ->
  String c r = (print_number n ++ q)%string /\ valid_number n /\ fst (span_digits (String c r)) = whole n.
Proof.
  intros Hc. unfold scan_duration_number. destruct (span_digits (String c r)) as [w p] eqn:E.
  pose proof (span_sound _ _ _ E) as (Ep & Hw & _). cbn [fst].
  assert (Hw0 : w <> EmptyString).
  { cbn [span_digits] in E. rewrite Hc in E. destruct (span_digits r). injection E as <- _. discriminate. }
  assert (W : digits w) by (split; assumption). unfold print_number.
  destruct p as [|u p]; [intros [= <- <-]; cbn [whole frac]; rewrite Ep, !str_app_nil; repeat split; auto|].
  destruct (Ascii.eqb_spec u ".") as [->|N].
  - destruct (span_digits p) as [f p'] eqn:Ef. pose proof (span_sound _ _ _ Ef) as (Epf & Hf & _).
    destruct (is_empty f) eqn:E0; [discriminate|]. intros [= <- <-]. cbn [whole frac]. rewrite Ep, Epf, str_app_assoc.
    split; [reflexivity|]. split; [|reflexivity]. split; [exact W|]. split; [exact Hf|]. destruct f; [discriminate|discriminate].
  - intros [= <- <-]. cbn [whole frac]. rewrite Ep, str_app_nil. repeat split; auto; apply W.
Qed.

Lemma print_number_head n q : valid_number n -> exists c r, (print_number n ++ q)%string = String c r /\ isdigit c = true.
Proof.
  intros [[Hw Hw0] _]. unfold print_number. destruct (whole n) as [|c w]; [congruence|]. cbn [digits_only] in Hw.
  apply andb_true_iff in Hw as [Hc _]. cbn [append]. eauto.
Qed.

Lemma digit_not_T c : isdigit c = true -> Ascii.eqb c "T" = false.
Proof. intros Hc. destruct (Ascii.eqb_spec c "T") as [->|]; [discriminate|reflexivity]. Qed.

(** * One component *)

Definition run (fuel : nat) (p : string) (st : dstate unit) : option Z := option_map fst (duration_loop add_ms fuel p st).

Definition next_state (st : dstate unit) (n : number) (u : ascii) (rank t : Z) : dstate unit :=
  mkD t (in_time st) (saw_t st) (match frac n with Some _ => true | None => frac_seen st end)
    (Ascii.eqb u "W" || saw_w st) true (if rank =? 99 then last_rank st else rank) (cursor st).

(** Weeks come first and alone, other units in order. *)
Definition acceptable (st : dstate unit) (u : ascii) (rank : Z) : Prop :=
  Ascii.eqb u "W" && (saw_any st || in_time st) = false /\ saw_w st = false /\ negb (rank =? 99) && (rank <=? last_rank st) = false.

Definition in_int64 (t : Z) : Prop := 0 <= t < 2 ^ 63.

Lemma run_end fuel st : run fuel EmptyString st = Some (total_ms st).
Proof. destruct fuel; reflexivity. Qed.

Lemma run_T fuel r st v : 0 <= v -> frac_seen st = false ->
  (run (S fuel) (String "T" r) st = Some v <-> saw_t st = false /\ r <> EmptyString /\
   run fuel r (mkD (total_ms st) true true false (saw_w st) (saw_any st) (last_rank st) (cursor st)) = Some v).
Proof.
  intros Hv Hf. unfold run at 1. cbn [duration_loop]. rewrite Hf. change (Ascii.eqb "T" "T") with true. cbv iota.
  destruct (saw_t st); [split; [intros [= E]; lia|intros (? & _); discriminate]|].
  destruct r as [|c r]; cbn [is_empty]; [split; [intros [= E]; lia|intros (_ & N & _); congruence]|].
  split; [intros E; repeat split; [discriminate|exact E]|intros (_ & _ & E); exact E].
Qed.

Lemma run_component fuel c r st v : 0 <= v -> frac_seen st = false -> in_int64 (total_ms st) -> isdigit c = true ->
  (run (S fuel) (String c r) st = Some v <->
   exists n u q rank ms, String c r = (print_number n ++ String u q)%string /\ valid_number n /\
     unit_of (in_time st) u = Some (rank, ms) /\ acceptable st u rank /\ total_ms st + c_ms ms n < 2 ^ 63 /\
     run fuel q (next_state st n u rank (total_ms st + c_ms ms n)) = Some v).
Proof.
  intros Hv Hf Ht Hc. unfold run at 1. cbn [duration_loop]. rewrite Hf, (digit_not_T c Hc), Hc. cbn [negb].
  destruct (span_digits (String c r)) as [w p0] eqn:Es. split.
  - intros E. destruct (int64 (read_digits 0 w)) as [wh|] eqn:Ew; cbn [obind] in E; [|discriminate].
    apply int64_inv in Ew as [-> _].
    destruct (scan_duration_number (String c r)) as [[n [|u q]]|] eqn:Esc; try (injection E as E; lia).
    destruct (scan_sound c r n _ Hc Esc) as (Ep & Hn & Ewn). rewrite Es in Ewn. cbn [fst] in Ewn. subst w.
    destruct (unit_of (in_time st) u) as [[rank ms]|] eqn:Eu; [|injection E as E; lia].
    destruct (Ascii.eqb u "W" && (saw_any st || in_time st)) eqn:A1; [injection E as E; lia|].
    destruct (saw_w st) eqn:A2; [injection E as E; lia|].
    destruct (negb (rank =? 99) && (rank <=? last_rank st)) eqn:A3; [injection E as E; lia|].
    unfold add_ms in E. destruct (add_fixed _ _ _ _) as [t|] eqn:Ea; cbn [option_map obind fst snd] in E; [|discriminate].
    apply add_fixed_iff in Ea as [-> R]; [|exact Hn|eapply unit_ms_pos; eauto|exact Ht].
    exists n, u, q, rank, ms. unfold acceptable, next_state. rewrite A2. conjs.
    unfold run. rewrite Hf. exact E.
  - intros (n & u & q & rank & ms & Ep & Hn & Eu & (A1 & A2 & A3) & R & E).
    pose proof (unit_ms_pos _ _ _ _ Eu) as Hm. destruct (c_ms_bounds ms n Hn Hm) as [B1 B2].
    assert (Esc : scan_duration_number (String c r) = Some (n, String u q)) by (rewrite Ep; apply scan_print; [exact Hn|eapply unit_after; eauto]).
    destruct (scan_sound c r n _ Hc Esc) as (_ & _ & Ewn). rewrite Es in Ewn. cbn [fst] in Ewn. subst w.
    unfold in_int64 in Ht. rewrite int64_id by lia. cbn [obind]. rewrite Esc, Eu, A1, A2, A3. unfold add_ms.
    rewrite (proj2 (add_fixed_iff n ms (total_ms st) _ Hn Hm Ht) (conj eq_refl R)). cbn [option_map obind fst snd].
    unfold run, next_state in E. rewrite A2, Hf in E. exact E.
Qed.

Lemma run_bad fuel c r st v : 0 <= v -> run (S fuel) (String c r) st = Some v -> frac_seen st = false /\ (c = "T"%char \/ isdigit c = true).
Proof.
  intros Hv. unfold run. cbn [duration_loop]. destruct (frac_seen st); [intros [= E]; lia|].
  destruct (Ascii.eqb_spec c "T") as [->|]; [auto|]. destruct (isdigit c) eqn:Hc; [auto|]. cbn [negb]. intros [= E]. lia.
Qed.

Lemma print_number_length n : valid_number n -> (1 <= String.length (print_number n))%nat.
Proof. intros Hv. destruct (print_number_head n EmptyString Hv) as (c & r & E & _). rewrite str_app_nil in E. rewrite E. cbn. lia. Qed.

(** * The time part *)

Lemma text_cons n u cs : text ((n, u) :: cs) = (print_number n ++ String u (text cs))%string.
Proof. unfold text at 1. cbn [fold_right]. unfold c_text. cbn [fst snd]. now rewrite str_app_assoc. Qed.

Lemma text_empty it last cs : ordered it last cs -> text cs = EmptyString -> cs = [].
Proof.
  destruct cs as [|[n u] cs]; [reflexivity|]. intros [Hn _] E. rewrite text_cons in E. cbn [fst] in Hn.
  destruct (print_number_head n (String u (text cs)) Hn) as (c & r & Eh & _). congruence.
Qed.

Lemma time_rank u ms : unit_of true u <> Some (99, ms).
Proof. unfold unit_of. repeat (destruct (Ascii.eqb _ _); [intros E; discriminate E|]). discriminate. Qed.


Lemma value_nonneg it cs : forall last, ordered it last cs -> 0 <= value it cs.
Proof.
  induction cs as [|c cs IH]; intros last Ho; cbn [value]; [lia|]. destruct Ho as (Hn & r & ms & Eu & _ & _ & Ho).
  rewrite Eu. pose proof (c_ms_bounds ms (fst c) Hn (unit_ms_pos _ _ _ _ Eu)). specialize (IH _ Ho). lia.
Qed.

Lemma time_phase fuel : forall p st v, (String.length p <= fuel)%nat -> in_time st = true -> saw_t st = true ->
  in_int64 (total_ms st) -> 0 <= v ->
  (run fuel p st = Some v <->
   exists t, p = text t /\ ordered true (last_rank st) t /\ lowest_frac t /\ (frac_seen st = true \/ saw_w st = true -> t = []) /\
     v = total_ms st + value true t /\ v < 2 ^ 63).
Proof.
  induction fuel as [|fuel IH]; intros p st v Hl Hit Hst Ht Hv.
  - destruct p; [|cbn in Hl; lia]. rewrite run_end. split.
    + intros [= <-]. exists []. cbn. unfold in_int64 in Ht. repeat split; auto; lia.
    + intros (t & E & Ho & _ & _ & -> & _). apply eq_sym, (text_empty _ _ _ Ho) in E as ->. cbn. f_equal. lia.
  - destruct p as [|c r].
    { rewrite run_end. split.
      - intros [= <-]. exists []. cbn. unfold in_int64 in Ht. repeat split; auto; lia.
      - intros (t & E & Ho & _ & _ & -> & _). apply eq_sym, (text_empty _ _ _ Ho) in E as ->. cbn. f_equal. lia. }
    split.
    + intros E. destruct (run_bad _ _ _ _ _ Hv E) as [Hf [-> | Hc]].
      { apply run_T in E as (E & _); [congruence|assumption..]. }
      apply run_component in E as (n & u & q & rank & ms & Ep & Hn & Eu & (A1 & A2 & A3) & R & E); auto.
      assert (Hr : rank <> 99) by (intros ->; rewrite Hit in Eu; exact (time_rank _ _ Eu)).
      pose proof (c_ms_bounds ms n Hn (unit_ms_pos _ _ _ _ Eu)).
      assert (Hlt : last_rank st < rank) by (destruct (Z.eqb_spec rank 99); [contradiction|]; destruct (Z.leb_spec rank (last_rank st)); [discriminate|lia]).
      apply IH in E as (t & -> & Ho & Hlf & Hz & -> & Hb); cbn [next_state in_time saw_t total_ms last_rank frac_seen saw_w] in *; auto.
      * destruct (Z.eqb_spec rank 99); [contradiction|]. exists ((n, u) :: t). rewrite text_cons. cbn [value ordered lowest_frac fst snd].
        rewrite Hit in Eu. rewrite Eu. conjs; try lia.
        -- exists rank, ms. auto.
        -- destruct (frac n); [right; apply Hz; auto|auto].
        -- intros [? | ?]; congruence.
      * pose proof (print_number_length n Hn). apply (f_equal String.length) in Ep. rewrite str_length_app in Ep. cbn in Ep, Hl. lia.
      * unfold in_int64 in *. lia.
    + intros ([|[n u] t] & Ep & Ho & Hlf & Hz & -> & Hb); [discriminate|].
      rewrite text_cons in Ep. cbn [value ordered lowest_frac fst snd] in *.
      destruct Ho as (Hn & rank & ms & Eu & Hr & Hlt & Ho). rewrite Eu in *.
      destruct (print_number_head n (String u (text t)) Hn) as (c0 & r0 & Eh & Hc). rewrite Eh in Ep. injection Ep as -> ->.
      pose proof (c_ms_bounds ms n Hn (unit_ms_pos _ _ _ _ Eu)). pose proof (value_nonneg _ _ _ Ho).
      assert (Hfw : frac_seen st = false /\ saw_w st = false) by (split; apply not_true_is_false; intros X; assert (X' : (n, u) :: t = []) by auto; discriminate X').
      destruct Hfw as [Hf Hw]. apply run_component; auto. exists n, u, (text t), rank, ms. rewrite <- Eh, Hit. conjs; try lia.
      * unfold acceptable. assert (Ascii.eqb u "W" = false) as ->.
        { destruct (Ascii.eqb_spec u "W") as [->|]; [discriminate Eu|reflexivity]. }
        rewrite Hw. repeat split. destruct (Z.leb_spec rank (last_rank st)); [lia|]. apply andb_false_r.
      * apply IH; cbn [next_state in_time saw_t total_ms last_rank frac_seen saw_w]; auto.
        -- apply (f_equal String.length) in Eh. rewrite str_length_app in Eh. pose proof (print_number_length n Hn). cbn in Eh, Hl. lia.
        -- unfold in_int64 in *. lia.
        -- exists t. destruct (Z.eqb_spec rank 99); [contradiction|]. conjs; try lia; [apply Hlf|].
           intros [Hx|Hx]; [destruct (frac n) eqn:Efr; [|congruence]; destruct Hlf as [[?|?] _]; [congruence|assumption]|].
           rewrite Hw, orb_false_r in Hx. destruct (Ascii.eqb_spec u "W") as [->|]; [discriminate Eu|discriminate].
Qed.

(** * The date part *)

Definition weeks_form (st : dstate unit) (p : string) (v : Z) : Prop :=
  saw_any st = false /\ exists n, valid_number n /\ p = c_text (n, "W"%char) /\ v = total_ms st + c_ms MS_W n /\ v < 2 ^ 63.

Definition parts_form (st : dstate unit) (p : string) (v : Z) : Prop :=
  exists d t, p = (text d ++ time_text t)%string /\ ordered false (last_rank st) d /\ ordered true 2 t /\ lowest_frac (d ++ t) /\
    v = total_ms st + value false d + value true t /\ v < 2 ^ 63.

(** After a fraction or a week nothing follows. *)
Lemma run_closed fuel p st v : (String.length p <= fuel)%nat -> 0 <= v -> in_int64 (total_ms st) ->
  in_time st = false -> saw_t st = false -> frac_seen st = true \/ saw_w st = true ->
  (run fuel p st = Some v <-> p = EmptyString /\ v = total_ms st).
Proof.
  intros Hl Hv Ht Hi Hs Hx. split; [|intros [-> ->]; apply run_end].
  destruct p as [|c r]; [rewrite run_end; intros [= <-]; auto|]. destruct fuel as [|fuel]; [cbn in Hl; lia|].
  intros E. exfalso. destruct (run_bad _ _ _ _ _ Hv E) as [Hf [-> | Hc]]; (destruct Hx as [Hx|Hx]; [congruence|]).
  - apply run_T in E as (_ & Hr & E); auto. apply time_phase in E as (t & -> & _ & _ & Hz & _); auto.
    + rewrite (Hz (or_intror Hx)) in Hr. now apply Hr.
    + cbn in Hl. lia.
  - apply run_component in E as (n & u & q & rank & ms & _ & _ & _ & (_ & A & _) & _); auto. congruence.
Qed.

Lemma time_text_T t : ordered true 2 t -> t <> [] -> time_text t = ("T" ++ text t)%string /\ text t <> EmptyString.
Proof.
  intros Ho Ht. split; [destruct t; [congruence|reflexivity]|]. intros E. apply Ht. eapply text_empty; eauto.
Qed.

(** The three ways a component can end the date part's step. *)
Lemma parts_cons st n u ms rank q v : in_time st = false -> valid_number n -> unit_of false u = Some (rank, ms) -> rank <> 99 ->
  last_rank st < rank ->
  (parts_form (next_state st n u rank (total_ms st + c_ms ms n)) q v /\ (frac n <> None -> q = EmptyString) ->
   parts_form st (print_number n ++ String u q) v).
Proof.
  intros Hi Hn Eu Hr Hlt [(d & t & -> & Ho & Hot & Hlf & -> & Hb) Hfr]. cbn [next_state last_rank total_ms] in *.
  destruct (Z.eqb_spec rank 99); [contradiction|]. exists ((n, u) :: d), t. rewrite text_cons, str_app_assoc. cbn [append].
  cbn [ordered lowest_frac value fst snd app]. rewrite Eu. conjs; try lia; [exists rank, ms; auto|].
  destruct (frac n) eqn:Ef; [right|now left]. assert (E : (text d ++ time_text t)%string = EmptyString) by (apply Hfr; discriminate).
  destruct (text d) eqn:Ed; [|discriminate]. apply (text_empty _ _ _ Ho) in Ed as ->. destruct t; [reflexivity|discriminate].
Qed.

Lemma date_units u x : unit_of false u = Some x -> In (u, x)
  [("Y"%char, (0, MS_Y)); ("M"%char, (1, MS_MO)); ("W"%char, (99, MS_W)); ("D"%char, (2, MS_D))].
Proof.
  unfold unit_of. repeat match goal with |- context [Ascii.eqb u ?c] => destruct (Ascii.eqb_spec u c) as [->|] end;
    intros E; try discriminate E; injection E as <-; cbn; auto.
Qed.

Lemma date_rank u rank ms : unit_of false u = Some (rank, ms) -> rank <> 99 -> rank <= 2 /\ Ascii.eqb u "W" = false.
Proof.
  intros Hin%date_units Hr. cbn [In] in Hin. destruct Hin as [E|[E|[E|[E|[]]]]]; injection E as <- <- _; first [split; [lia|reflexivity]|now elim Hr].
Qed.

Lemma week_unit u ms : unit_of false u = Some (99, ms) -> u = "W"%char /\ ms = MS_W.
Proof.
  intros Hin%date_units. cbn [In] in Hin. repeat (destruct Hin as [E|Hin]; [first [discriminate E|injection E as <- <-; auto]|]). contradiction.
Qed.

(** The first unit decides where the order starts. *)
Lemma ordered_from it cs l l' : (forall r ms u, unit_of it u = Some (r, ms) -> l' < r \/ r = 99) -> ordered it l cs -> ordered it l' cs.
Proof.
  intros Hu. destruct cs as [|c cs]; [auto|]. intros (Hn & r & ms & Eu & Hr & _ & Ho). split; [exact Hn|]. exists r, ms. conjs.
  destruct (Hu _ _ _ Eu); [assumption|contradiction].
Qed.

Lemma time_after_dates l r ms u : l <= 2 -> unit_of true u = Some (r, ms) -> l < r \/ r = 99.
Proof.
  unfold unit_of. repeat (match goal with |- context [Ascii.eqb u ?c] => destruct (Ascii.eqb u c) end);
    intros Hl E; try discriminate E; injection E as <- _; lia.
Qed.

Lemma date_end st v : frac_seen st = false -> in_int64 (total_ms st) ->
  (Some (total_ms st) = Some v <-> parts_form st EmptyString v \/ weeks_form st EmptyString v).
Proof.
  intros Hf Ht. unfold in_int64 in Ht. split.
  - intros [= <-]. left. exists [], []. cbn. conjs; lia.
  - intros [(d & t & E & Ho & Hot & _ & -> & _)|(_ & n & Hn & E & _)].
    + destruct (text d) eqn:Ed; [|discriminate]. apply (text_empty _ _ _ Ho) in Ed as ->. destruct t; [cbn; f_equal; lia|discriminate].
    + unfold c_text in E. cbn [fst] in E. destruct (print_number_head n (String (snd (n, "W"%char)) EmptyString) Hn) as (c & r & Eh & _). congruence.
Qed.

Lemma date_phase fuel : forall p st v, (String.length p <= fuel)%nat -> in_time st = false -> saw_t st = false ->
  frac_seen st = false -> saw_w st = false -> last_rank st <= 2 -> in_int64 (total_ms st) -> 0 <= v ->
  (run fuel p st = Some v <-> parts_form st p v \/ weeks_form st p v).
Proof.
  induction fuel as [|fuel IH]; intros p st v Hl Hi Hs Hf Hw Hk Ht Hv.
  { destruct p; [|cbn in Hl; lia]. rewrite run_end. now apply date_end. }
  destruct p as [|c r]; [rewrite run_end; now apply date_end|]. cbn [String.length] in Hl. split.
  - intros E. destruct (run_bad _ _ _ _ _ Hv E) as [_ [-> | Hc]].
    + apply run_T in E as (_ & Hr & E); auto. apply time_phase in E as (t & -> & Ho & Hlf & Hz & -> & Hb); auto; [|lia].
      left. exists [], t. cbn [last_rank total_ms] in *. apply ordered_from with (l' := 2) in Ho; [|intros; now apply (time_after_dates 2 _ ms u)].
      assert (Ht0 : t <> []) by (intros ->; now apply Hr). destruct (time_text_T t Ho Ht0) as [-> _]. cbn [text fold_right value ordered app append]. conjs; lia.
    + apply run_component in E as (n & u & q & rank & ms & Ep & Hn & Eu & (A1 & A2 & A3) & R & E); auto. rewrite Hi in Eu. rewrite Ep in *.
      pose proof (c_ms_bounds ms n Hn (unit_ms_pos _ _ _ _ Eu)). pose proof (print_number_length n Hn) as Hpl.
      assert (Hq : (String.length q <= fuel)%nat) by (apply (f_equal String.length) in Ep; rewrite str_length_app in Ep; cbn in Ep; lia).
      assert (Ht' : in_int64 (total_ms st + c_ms ms n)) by (unfold in_int64 in *; lia).
      destruct (Z.eq_dec rank 99) as [->|Hr].
      * right. destruct (week_unit u ms Eu) as [-> ->]. apply run_closed in E as [-> ->]; auto.
        rewrite Hi, orb_false_r in A1. change (saw_any st = false) in A1. split; [exact A1|]. exists n. unfold c_text. cbn [fst snd next_state total_ms]. conjs.
      * left. destruct (date_rank _ _ _ Eu Hr) as [Hr2 Hu]. assert (Hlt : last_rank st < rank).
        { destruct (Z.eqb_spec rank 99); [contradiction|]. destruct (Z.leb_spec rank (last_rank st)); [discriminate|lia]. }
        apply (parts_cons st n u ms rank q v); auto. destruct (frac n) eqn:Ef.
        -- apply run_closed in E as [-> ->]; auto; [|left; cbn [next_state frac_seen]; now rewrite Ef].
           split; [|auto]. exists [], []. cbn [text fold_right value ordered app append time_text lowest_frac next_state total_ms]. conjs; unfold in_int64 in *; lia.
        -- apply IH in E as [E|(E & _)]; cbn [next_state in_time saw_t frac_seen saw_w last_rank total_ms]; auto; rewrite ?Ef, ?Hu, ?Hw; auto.
           ++ split; [exact E|congruence].
           ++ discriminate.
           ++ destruct (Z.eqb_spec rank 99); lia.
  - intros [(d & t & Ep & Ho & Hot & Hlf & -> & Hb)|(Ha & n & Hn & Ep & -> & Hb)].
    + destruct d as [|[n u] d].
      * destruct t as [|x t]; [discriminate|]. destruct (time_text_T (x :: t) Hot ltac:(discriminate)) as [Et Ht0].
        cbn [text fold_right append] in Ep. rewrite Et in Ep. cbn [append] in Ep. injection Ep as -> ->. apply run_T; auto. conjs.
        apply time_phase; cbn [in_time saw_t total_ms last_rank frac_seen saw_w]; auto; [lia|]. exists (x :: t).
        apply ordered_from with (l' := last_rank st) in Hot; [|intros; now apply (time_after_dates _ _ ms u)]. cbn [value app] in *. conjs; try lia. intros [? | ?]; congruence.
      * rewrite text_cons, str_app_assoc in Ep. cbn [append ordered fst snd value app lowest_frac] in *.
        destruct Ho as (Hn & rank & ms & Eu & Hr & Hlt & Ho). rewrite Eu in *. destruct (date_rank _ _ _ Eu Hr) as [Hr2 Hu].
        pose proof (c_ms_bounds ms n Hn (unit_ms_pos _ _ _ _ Eu)). pose proof (value_nonneg _ _ _ Ho). pose proof (value_nonneg _ _ _ Hot).
        set (q := (text d ++ time_text t)%string) in *. destruct (print_number_head n (String u q) Hn) as (c0 & r0 & Eh & Hc). rewrite Eh in Ep. injection Ep as -> ->.
        pose proof (print_number_length n Hn) as Hpl.
        assert (Hq : (String.length q <= fuel)%nat) by (apply (f_equal String.length) in Eh; rewrite str_length_app in Eh; cbn in Eh; lia).
        assert (Ht' : in_int64 (total_ms st + c_ms ms n)) by (unfold in_int64 in *; lia).
        apply run_component; auto. exists n, u, q, rank, ms. rewrite <- Eh, Hi. conjs; try lia.
        { unfold acceptable. rewrite Hu, Hw. conjs. destruct (Z.leb_spec rank (last_rank st)); [lia|]. apply andb_false_r. }
        destruct (frac n) eqn:Ef.
        -- destruct Hlf as [[Hlf|Hlf] _]; [discriminate|]. apply app_eq_nil in Hlf as [-> ->].
           apply run_closed; auto; [left; cbn [next_state frac_seen]; now rewrite Ef|]. split; [reflexivity|]. cbn. lia.
        -- apply IH; cbn [next_state in_time saw_t frac_seen saw_w last_rank total_ms]; auto; rewrite ?Ef, ?Hu, ?Hw; auto; try lia.
           ++ destruct (Z.eqb_spec rank 99); lia.
           ++ left. exists d, t. cbn [next_state last_rank total_ms]. destruct (Z.eqb_spec rank 99); [contradiction|]. conjs; try lia. apply Hlf.
    + unfold c_text in Ep. cbn [fst snd] in Ep. destruct (print_number_head n (String "W" EmptyString) Hn) as (c0 & r0 & Eh & Hc). rewrite Eh in Ep. injection Ep as -> ->.
      pose proof (c_ms_bounds MS_W n Hn ltac:(vm_compute; discriminate)).
      apply run_component; auto. exists n, "W"%char, EmptyString, 99, MS_W. rewrite <- Eh, Hi. conjs.
      { unfold acceptable. rewrite Ha, Hi, Hw. conjs. }
      apply run_end.
Qed.

(** * The theorems *)

Lemma run_range fuel : forall p st v, in_int64 (total_ms st) -> run fuel p st = Some v -> v = -1 \/ 0 <= v.
Proof.
  induction fuel as [|fuel IH]; intros p st v Ht E; (destruct p as [|c r]; [rewrite run_end in E; injection E as <-; unfold in_int64 in Ht; lia|]); [discriminate|].
  destruct (Z.leb_spec 0 v); [now right|left]. unfold run in E. cbn [duration_loop] in E.
  destruct (frac_seen st) eqn:Hf; [injection E; auto|]. destruct (Ascii.eqb c "T").
  { destruct (saw_t st); [injection E; auto|]. destruct (is_empty r); [injection E; auto|]. apply IH in E; [lia|exact Ht]. }
  destruct (isdigit c) eqn:Hc; cbn [negb] in E; [|injection E; auto]. destruct (span_digits (String c r)) as [w p0] eqn:Es.
  destruct (int64 (read_digits 0 w)) as [wh|] eqn:Ew; cbn [obind] in E; [|discriminate]. apply int64_inv in Ew as [-> _].
  destruct (scan_duration_number (String c r)) as [[n [|u q]]|] eqn:Esc; [injection E; auto| |injection E; auto].
  destruct (scan_sound c r n _ Hc Esc) as (_ & Hn & Ewn). rewrite Es in Ewn. cbn [fst] in Ewn. subst w.
  destruct (unit_of (in_time st) u) as [[rank ms]|] eqn:Eu; [|injection E; auto].
  destruct (_ && (saw_any st || in_time st)); [injection E; auto|]. destruct (saw_w st); [injection E; auto|].
  destruct (_ && (rank <=? last_rank st)); [injection E; auto|].
  unfold add_ms in E at 1. destruct (add_fixed _ _ _ _) as [t|] eqn:Ea; cbn [option_map obind fst snd] in E; [|discriminate].
  pose proof (unit_ms_pos _ _ _ _ Eu) as Hm. apply add_fixed_iff in Ea as [-> R]; [|exact Hn|exact Hm|exact Ht].
  apply IH in E; [lia|]. pose proof (c_ms_bounds ms n Hn Hm). unfold in_int64 in *. cbn [total_ms]. lia.
Qed.

Lemma duration_parse_correct_aux (s : string) (v : Z) :
  (0 <= v -> (tw_parse_duration_ms s = Some v <-> exists d, canonical d /\ s = print_duration d /\ v = duration_ms d /\ v < 2 ^ 63)) /\
  (tw_parse_duration_ms s = Some v -> v = -1 \/ 0 <= v).
Proof.
  assert (R : forall c r, tw_parse_duration_ms (String c r) =
    if negb (Ascii.eqb c "P") then Some (-1) else if is_empty r then Some 0 else run (String.length r) r (d_init tt)).
  { intros c r. unfold tw_parse_duration_ms, parse_duration. destruct (Ascii.eqb c "P"); cbn [negb]; [|reflexivity]. now destruct r. }
  assert (I : in_int64 (total_ms (d_init tt))) by (cbn; unfold in_int64; lia). split.
  - intros Hv. destruct s as [|c r]; [split; [intros [= E]; lia|intros ([n|d t] & _ & E & _); discriminate]|]. rewrite R.
    destruct (Ascii.eqb_spec c "P") as [->|N]; cbn [negb]; [|split; [intros [= E]; lia|intros ([n|d t] & _ & [= -> _] & _); congruence]].
    assert (E : (if is_empty r then Some 0 else run (String.length r) r (d_init tt)) = run (String.length r) r (d_init tt)) by (destruct r; reflexivity).
    rewrite E. rewrite date_phase by (auto; cbn; lia). unfold parts_form, weeks_form. cbn [d_init total_ms last_rank saw_any]. split.
    + intros [(d & t & -> & Ho & Hot & Hlf & -> & Hb)|(_ & n & Hn & -> & -> & Hb)].
      * exists (Parts d t). cbn [canonical print_duration duration_ms]. conjs; lia.
      * exists (Weeks n). cbn [canonical print_duration duration_ms]. conjs; lia.
    + intros ([n|d t] & Hc & [= ->] & -> & Hb); cbn [canonical duration_ms] in *; [right|left].
      * split; [reflexivity|]. exists n. conjs; lia.
      * destruct Hc as (Ho & Hot & Hlf). exists d, t. conjs; lia.
  - destruct s as [|c r]; [intros [= <-]; auto|]. rewrite R. destruct (Ascii.eqb c "P"); cbn [negb]; [|intros [= <-]; auto].
    destruct r as [|c' r]; cbn [is_empty]; [intros [= <-]; lia|]. now apply run_range.
Qed.

(** [tw_parse_duration_ms] accepts exactly the canonical ISO 8601 durations
    that fit in 64 bits - weeks alone, or years to seconds in order, with a
    fraction on the last component only - and returns their length in
    milliseconds; every other text that does not overflow gives -1. *)
Theorem duration_parse_correct (s : string) (v : Z) :
  (0 <= v -> (tw_parse_duration_ms s = Some v <-> exists d, canonical d /\ s = print_duration d /\ v = duration_ms d /\ v < 2 ^ 63)) /\
  (tw_parse_duration_ms s = Some v -> v = -1 \/ 0 <= v).
Proof. apply duration_parse_correct_aux. Qed.

Lemma milli_digits : forallb (fun n => let m := Z.of_nat n in
  (frac_milli (strip_zeros (pad3 m)) =? m) && digits_only (strip_zeros (pad3 m)) && negb (is_empty (strip_zeros (pad3 m)))) (seq 1 999) = true.
Proof. vm_compute. reflexivity. Qed.

Lemma milli_ok m : 0 < m < 1000 -> frac_milli (strip_zeros (pad3 m)) = m /\ digits (strip_zeros (pad3 m)).
Proof.
  intros Hm. pose proof milli_digits as F. rewrite forallb_forall in F. specialize (F (Z.to_nat m)). cbv zeta in F. rewrite Z2Nat.id in F by lia.
  assert (Hin : In (Z.to_nat m) (seq 1 999)) by (apply in_seq; lia). specialize (F Hin). rewrite !andb_true_iff in F. destruct F as [[F1 F2] F3].
  split; [now apply Z.eqb_eq|]. split; [exact F2|]. intros E. rewrite E in F3. discriminate.
Qed.

Definition plain (n : Z) : number := mkNumber (show_nat n) None.

Lemma plain_ok n : 0 <= n -> valid_number (plain n) /\ read_digits 0 (whole (plain n)) = n.
Proof.
  intros Hn. destruct (show_nat_ok n Hn) as (D & R & c & s & E). split; [|exact R]. split; [|exact I]. split; [exact D|]. cbn [plain whole]. rewrite E. discriminate.
Qed.

(** The components of a printed duration. *)
Definition time_of (h m s milli : Z) : list component :=
  ((if 0 <? h then [(plain h, "H"%char)] else []) ++ (if 0 <? m then [(plain m, "M"%char)] else []) ++
   (if (0 <? s) || (0 <? milli) || ((h =? 0) && (m =? 0))
    then [(mkNumber (show_nat s) (if 0 <? milli then Some (strip_zeros (pad3 milli)) else None), "S"%char)] else []))%list.

Lemma time_of_text h m s milli : 0 <= h -> 0 <= m -> 0 <= s -> 0 <= milli ->
  ("T" ++ (if (0 <? h)%Z then show_nat h ++ "H" else EmptyString) ++ (if (0 <? m)%Z then show_nat m ++ "M" else EmptyString) ++
   (if (0 <? s)%Z || (0 <? milli)%Z || ((h =? 0)%Z && (m =? 0)%Z)
    then show_nat s ++ (if (0 <? milli)%Z then "." ++ strip_zeros (pad3 milli) else EmptyString) ++ "S" else EmptyString))%string =
  time_text (time_of h m s milli).
Proof.
  intros Hh Hm Hs Hl. unfold time_of.
  destruct (Z.ltb_spec 0 h), (Z.ltb_spec 0 m), (Z.ltb_spec 0 s), (Z.ltb_spec 0 milli); cbn [orb];
    repeat match goal with |- context [?x =? 0] => destruct (Z.eqb_spec x 0); try lia end; cbn [andb orb app time_text];
    rewrite ?text_cons; unfold print_number, plain; cbn [text fold_right whole frac]; rewrite ?str_app_nil, ?str_app_assoc; reflexivity.
Qed.

Lemma time_of_ok h m s milli : 0 <= h -> 0 <= m -> 0 <= s -> 0 <= milli < 1000 ->
  ordered true 2 (time_of h m s milli) /\ lowest_frac (time_of h m s milli) /\ time_of h m s milli <> [] /\
  value true (time_of h m s milli) = h * MS_H + m * MS_MI + s * MS_S + milli.
Proof.
  intros Hh Hm Hs Hl. unfold time_of. destruct (plain_ok h Hh) as [Vh Rh], (plain_ok m Hm) as [Vm Rm], (plain_ok s Hs) as [Vs Rs].
  assert (Vf : 0 < milli -> valid_number (mkNumber (show_nat s) (Some (strip_zeros (pad3 milli)))) /\ frac_milli (strip_zeros (pad3 milli)) = milli).
  { intros Hp. destruct (milli_ok milli) as [F D]; [lia|]. split; [split; [apply Vs|exact D]|exact F]. }
  change (plain s) with (mkNumber (show_nat s) None) in *.
  destruct (Z.ltb_spec 0 h), (Z.ltb_spec 0 m), (Z.ltb_spec 0 s), (Z.ltb_spec 0 milli); cbn [orb];
    repeat match goal with |- context [?x =? 0] => destruct (Z.eqb_spec x 0); try lia end; cbn [andb orb app];
    try (destruct Vf as [Vf Ff]; [assumption|]);
    (split; [cbn [ordered fst snd]; conjs; repeat (eexists; eexists; split; [reflexivity|]; split; [discriminate|]; split; [lia|]; conjs)|]);
    (split; [cbn [lowest_frac fst frac plain]; auto 10|]); (split; [discriminate|]); cbn [value fst snd unit_of];
    unfold c_ms; cbn [whole frac] in *; unfold MS_H, MS_MI, MS_S in *; cbn [Ascii.eqb Bool.eqb]; cbn [plain whole frac] in *; rewrite ?Rh, ?Rm, ?Rs, ?Ff; change (1000 / 1000) with 1; lia.
Qed.

Lemma format_parse (ms : Z) : - 2 ^ 63 <= ms < 2 ^ 63 ->
  tw_parse_duration_ms (tw_format_duration_ms ms) = Some (Z.max 0 ms).
Proof.
  intros Hms. set (x := Z.max 0 ms). assert (Hx : 0 <= x < 2 ^ 63) by lia.
  assert (Ex : (if ms <? 0 then 0 else ms) = x) by (destruct (Z.ltb_spec ms 0); lia).
  pose (ts := x / 1000). pose (h := ts / 3600). pose (m := (ts - h * 3600) / 60). pose (s := (ts - h * 3600) mod 60). pose (milli := x mod 1000).
  assert (Hts : 0 <= ts) by (apply Z.div_pos; lia). assert (Hh : 0 <= h) by (apply Z.div_pos; lia).
  pose proof (Z.div_mod ts 3600 ltac:(lia)) as D1. fold h in D1. pose proof (Z.mod_pos_bound ts 3600 ltac:(lia)) as B1.
  assert (Hm : 0 <= m) by (apply Z.div_pos; lia). assert (Hs : 0 <= s < 60) by (apply Z.mod_pos_bound; lia).
  assert (Hl : 0 <= milli < 1000) by (apply Z.mod_pos_bound; lia).
  destruct (time_of_ok h m s milli Hh Hm (proj1 Hs) Hl) as (Ho & Hf & Hne & Hval).
  apply (proj1 (duration_parse_correct_aux _ x)); [lia|]. exists (Parts [] (time_of h m s milli)).
  cbn [canonical print_duration duration_ms app text fold_right append value]. conjs; [exact I| |  |lia].
  - unfold tw_format_duration_ms. cbv zeta. rewrite Ex. rewrite <- time_of_text by lia. reflexivity.
  - rewrite Hval. pose proof (Z.div_mod x 1000 ltac:(lia)). pose proof (Z.div_mod (ts - h * 3600) 60 ltac:(lia)).
    fold ts milli in H. fold m s in H0. unfold MS_H, MS_MI, MS_S. lia.
Qed.

(** A duration that [tw_format_duration_ms] prints is parsed back to the same
    number of milliseconds, for every nonnegative 64-bit integer; negative ones
    are printed as zero. *)
Theorem duration_roundtrip (ms : Z) : - 2 ^ 63 <= ms < 2 ^ 63 ->
  tw_parse_duration_ms (tw_format_duration_ms ms) = Some (Z.max 0 ms).
Proof. apply format_parse. Qed.

Lemma duration_roundtrip_witness : - 2 ^ 63 <= 3661001 < 2 ^ 63 /\ tw_parse_duration_ms (tw_format_duration_ms 3661001) = Some (Z.max 0 3661001).
Proof. split; [lia|]. apply (duration_roundtrip 3661001). lia. Defined.
