(* ===== verification/TwTemporalProofs.v ===== *)
(** tw_temporal.hpp: the relaxation of the temporal network, the consistency of
    the network of a sequential plan in floating point, and the schedule. *)

From Stdlib Require Import ZArith String Ascii List Bool Lia.
From Stdlib Require Import Floats.SpecFloat.
From S2P Require Import Prelude OrderedMap TwValue TwJson TwJsonProofs TwRebac TwState TwDomain TwTemporal TwDurationProofs.
Import ListNotations.
#[local] Open Scope string_scope.
#[local] Open Scope Z_scope.
#[local] Open Scope tw_scope.
#[local] Open Scope list_scope.

(** * Binary64 facts *)

Definition fzero : spec_float := S754_zero false.
Definition is_zero (x : spec_float) : bool := match x with S754_zero _ => true | _ => false end.
Definition finite (x : spec_float) : bool := match x with S754_zero _ | S754_finite _ _ _ => true | _ => false end.

(** [y] is the negation of [x], up to the sign of zero. *)
Definition anti (x y : spec_float) : Prop := y = SFopp x \/ (is_zero x = true /\ is_zero y = true).

Lemma flt_irrefl x : flt x x = false.
Proof.
  unfold flt, SFltb, SFcompare. destruct x as [s|s| |s m e]; [reflexivity|now destruct s|reflexivity|].
  rewrite Z.compare_refl, Pos.compare_cont_refl. now destruct s.
Qed.

Lemma flt_zeros x y : is_zero x = true -> is_zero y = true -> flt x y = false.
Proof. destruct x, y; try discriminate. reflexivity. Qed.

Lemma flt_finite_inf x : finite x = true -> flt x INF = true.
Proof. destruct x; try discriminate; reflexivity. Qed.

Lemma finite_not_inf x : finite x = true -> is_inf x = false.
Proof. destruct x; try discriminate; reflexivity. Qed.

Lemma fadd_zero_r x : flt (fadd x fzero) x = false.
Proof. destruct x as [[]|[]| |s m e]; first [reflexivity|apply flt_irrefl]. Qed.

Lemma fadd_zero_l x : flt (fadd fzero x) x = false.
Proof. destruct x as [[]|[]| |s m e]; first [reflexivity|apply flt_irrefl]. Qed.

Lemma zero_add_l x : finite x = true -> is_zero x = false -> fadd fzero x = x.
Proof. destruct x; try discriminate; reflexivity. Qed.

Lemma finite_opp x : finite (SFopp x) = finite x.
Proof. now destruct x. Qed.

Lemma anti_finite x y : anti x y -> finite x = true -> finite y = true.
Proof. intros [-> | [Hx Hy]] Hf; [now rewrite finite_opp|]. now destruct y. Qed.

Lemma round_aux_opp s m e l : binary_round_aux 53 1024 (negb s) m e l = SFopp (binary_round_aux 53 1024 s m e l).
Proof.
  unfold binary_round_aux. destruct (shr_fexp 53 1024 m e l) as [r1 e1].
  destruct (shr_fexp 53 1024 _ e1 loc_Exact) as [r2 e2]. destruct (shr_m r2); try reflexivity. now destruct (e2 <=? 1024 - 53).
Qed.

Lemma normalize_opp m e s : anti (binary_normalize 53 1024 m e s) (binary_normalize 53 1024 (- m) e s).
Proof.
  destruct m as [|p|p]; cbn [Z.opp binary_normalize]; [right; auto|left..]; unfold binary_round;
    destruct (shl_align p e _) as [mz ez]; [exact (round_aux_opp false _ _ _)|exact (round_aux_opp true _ _ _)].
Qed.

Lemma cond_Zopp_negb s m : cond_Zopp (negb s) m = - cond_Zopp s m.
Proof. destruct s; cbn; lia. Qed.

(** Extending a path by an edge and the way back by its reverse. *)
Lemma anti_add x y w : finite x = true -> finite w = true -> anti x y -> anti (fadd x w) (fadd (SFopp w) y).
Proof.
  intros Hx Hw [-> | [Zx Zy]].
  - destruct x as [s|s| |s m e], w as [s'|s'| |s' m' e']; try discriminate; cbn [SFopp fadd SFadd].
    + right. destruct s, s'; split; reflexivity.
    + now left.
    + left. now destruct s.
    + rewrite (Z.min_comm e' e), !cond_Zopp_negb.
      replace (- cond_Zopp s' _ + - cond_Zopp s _) with (- (cond_Zopp s (Z.pos (fst (shl_align m e (Z.min e e')))) + cond_Zopp s' (Z.pos (fst (shl_align m' e' (Z.min e e')))))) by lia.
      apply normalize_opp.
  - destruct x as [s|s| |s m e], y as [t|t| |t n f]; try discriminate. destruct w as [s'|s'| |s' m' e']; try discriminate; cbn [SFopp fadd SFadd].
    + right. destruct s, s', t; split; reflexivity.
    + now left.
Qed.

Lemma anti_cancel x y : finite x = true -> anti x y -> is_zero (fadd x y) = true.
Proof.
  intros Hx [-> | [Zx Zy]].
  - destruct x as [s|s| |s m e]; try discriminate; cbn [SFopp fadd SFadd]; [now destruct s|].
    rewrite Z.min_id, cond_Zopp_negb, Z.add_opp_diag_r. reflexivity.
  - destruct x as [s|s| |s m e], y as [t|t| |t n f]; try discriminate. now destruct s, t.
Qed.

Lemma anti_sym x y : anti x y -> anti y x.
Proof. intros [-> | [Zx Zy]]; [left|now right]. destruct x as [[]|[]| |[]]; reflexivity. Qed.

(** * Matrices *)

Definition square (n : nat) (d : matrix) : Prop := List.length d = n /\ Forall (fun row => List.length row = n) d.

Lemma square_row n d i : square n d -> (i < n)%nat -> List.length (nth i d []) = n.
Proof. intros [Hl Hr] Hi. rewrite Forall_forall in Hr. apply Hr, nth_In. lia. Qed.

Lemma set_nth_at {A} (l : list A) i x j (d : A) : (i < List.length l)%nat -> nth j (set_nth l i x) d = if (j =? i)%nat then x else nth j l d.
Proof.
  intros Hi. destruct (nth_error l i) as [p|] eqn:E; [|apply nth_error_None in E; lia].
  pose proof (nth_error_set l i p x j E) as S.
  destruct (Nat.eqb_spec j i) as [->|N]; rewrite <- !nth_default_eq; unfold nth_default; rewrite S; reflexivity.
Qed.

Lemma set2_at n d i j x a b : square n d -> (i < n)%nat -> (j < n)%nat ->
  at2 (set2 d i j x) a b = if (a =? i)%nat && (b =? j)%nat then x else at2 d a b.
Proof.
  intros S Hi Hj. unfold at2, set2. rewrite set_nth_at by (destruct S; lia). destruct (Nat.eqb_spec a i) as [->|]; cbn [andb]; [|reflexivity].
  apply set_nth_at. now rewrite (square_row n d i S Hi).
Qed.

Lemma set2_square n d i j x : square n d -> (i < n)%nat -> square n (set2 d i j x).
Proof.
  intros S Hi. destruct S as [Hl Hr]. unfold set2. split; [now rewrite set_nth_length|].
  destruct (nth_error d i) as [p|] eqn:E; [|apply nth_error_None in E; lia].
  eapply Forall_set; [exact E|exact Hr|]. rewrite set_nth_length. apply square_row; [split; assumption|exact Hi].
Qed.

(** * One round of relaxation

    Every entry is updated once, from the row and column of [k], which the round
    leaves as they are. *)

Definition relaxed (d : matrix) (k i j : nat) : spec_float :=
  if is_inf (at2 d i k) || is_inf (at2 d k j) then at2 d i j
  else let via := fadd (at2 d i k) (at2 d k j) in if flt via (at2 d i j) then via else at2 d i j.

Lemma relaxed_col d k i : at2 d k k = fzero -> relaxed d k i k = at2 d i k.
Proof. intros E. unfold relaxed. rewrite E. destruct (_ || _); [reflexivity|]. now rewrite fadd_zero_r. Qed.

Lemma relaxed_row d k j : at2 d k k = fzero -> relaxed d k k j = at2 d k j.
Proof. intros E. unfold relaxed. rewrite E. destruct (_ || _); [reflexivity|]. now rewrite fadd_zero_l. Qed.

Definition inb (x : nat) (l : list nat) : bool := existsb (Nat.eqb x) l.

Lemma inb_spec x l : inb x l = true <-> In x l.
Proof.
  unfold inb. rewrite existsb_exists. split; [intros (y & Hy & E); apply Nat.eqb_eq in E; now subst|]. intros Hx. exists x. now rewrite Nat.eqb_refl.
Qed.

Lemma inb_snoc x l y : inb x (l ++ [y]) = inb x l || (x =? y)%nat.
Proof. unfold inb. rewrite existsb_app. cbn. now rewrite orb_false_r. Qed.

Section Relax.
Variables (n k : nat).
Hypothesis Hk : (k < n)%nat.

Lemma relax_entries d i : square n d -> (i < n)%nat -> at2 d k k = fzero -> is_inf (at2 d i k) = false ->
  forall js don d', NoDup (don ++ js) -> (forall j, In j js -> (j < n)%nat) -> square n d' ->
    (forall a b, at2 d' a b = if (a =? i)%nat && inb b don then relaxed d k i b else at2 d a b) ->
    let r := fold_left (relax_entry k i) js d' in
    square n r /\ forall a b, at2 r a b = if (a =? i)%nat && inb b (don ++ js) then relaxed d k i b else at2 d a b.
Proof.
  intros Sd Hi Ekk Hf. induction js as [|j js IH]; intros don d' Nd Hj Sd' Hd'; [cbn; rewrite app_nil_r; auto|].
  assert (Nj : inb j don = false).
  { apply not_true_is_false. rewrite inb_spec. intros Hin. apply NoDup_remove_2 in Nd. apply Nd, in_or_app. auto. }
  assert (E1 : at2 d' i k = at2 d i k) by (rewrite Hd', Nat.eqb_refl; cbn [andb]; destruct (inb k don); [now apply relaxed_col|reflexivity]).
  assert (E2 : at2 d' k j = at2 d k j) by (rewrite Hd', Nj, andb_false_r; reflexivity).
  assert (E3 : at2 d' i j = at2 d i j) by (rewrite Hd', Nj, andb_false_r; reflexivity).
  cbn [fold_left]. replace (don ++ j :: js) with ((don ++ [j]) ++ js) in * by (rewrite <- app_assoc; reflexivity).
  apply IH; [exact Nd|intros; apply Hj; now right| |].
  - unfold relax_entry. destruct (is_inf (at2 d' k j)); [exact Sd'|]. destruct (flt _ _); [now apply set2_square|exact Sd'].
  - intros a b. rewrite inb_snoc. unfold relax_entry. rewrite E1, E2, E3.
    assert (R : relaxed d k i j = if is_inf (at2 d k j) then at2 d i j else if flt (fadd (at2 d i k) (at2 d k j)) (at2 d i j) then fadd (at2 d i k) (at2 d k j) else at2 d i j)
      by (unfold relaxed; now rewrite Hf).
    destruct (is_inf (at2 d k j)); [|destruct (flt _ _)]; rewrite ?(set2_at n) by (auto; apply Hj; now left);
      rewrite Hd'; destruct (Nat.eqb_spec a i) as [->|]; cbn [andb]; auto;
      destruct (Nat.eqb_spec b j) as [->|]; rewrite ?Nj, ?orb_true_r, ?orb_false_r; cbn [orb]; rewrite ?R; auto.
Qed.

Lemma relax_row_ok d i : square n d -> (i < n)%nat -> at2 d k k = fzero ->
  square n (relax_row n k d i) /\ forall a b, (b < n)%nat -> at2 (relax_row n k d i) a b = if (a =? i)%nat then relaxed d k i b else at2 d a b.
Proof.
  intros Sd Hi Ekk. unfold relax_row. destruct (is_inf (at2 d i k)) eqn:E.
  - split; [exact Sd|]. intros a b _. destruct (Nat.eqb_spec a i) as [->|]; [|reflexivity]. unfold relaxed. now rewrite E.
  - destruct (relax_entries d i Sd Hi Ekk E (seq 0 n) [] d) as [Sr Hr]; auto.
    + apply seq_NoDup.
    + intros j Hj. apply in_seq in Hj. lia.
    + intros a b. now rewrite andb_false_r.
    + split; [exact Sr|]. intros a b Hb. rewrite Hr. cbn [app]. replace (inb b (seq 0 n)) with true; [now rewrite andb_true_r|].
      symmetry. apply inb_spec, in_seq. lia.
Qed.

Lemma relax_ok d : square n d -> at2 d k k = fzero ->
  square n (relax n d k) /\ forall a b, (a < n)%nat -> (b < n)%nat -> at2 (relax n d k) a b = relaxed d k a b.
Proof.
  intros Sd Ekk.
  assert (G : forall rows don d', NoDup (don ++ rows) -> (forall i, In i rows -> (i < n)%nat) -> square n d' ->
    (forall a b, (b < n)%nat -> at2 d' a b = if inb a don then relaxed d k a b else at2 d a b) ->
    let r := fold_left (relax_row n k) rows d' in
    square n r /\ forall a b, (b < n)%nat -> at2 r a b = if inb a (don ++ rows) then relaxed d k a b else at2 d a b).
  { induction rows as [|i rows IH]; intros don d' Nd Hi Sd' Hd'; [cbn; rewrite app_nil_r; auto|].
    assert (Ni : inb i don = false).
    { apply not_true_is_false. rewrite inb_spec. intros Hin. apply NoDup_remove_2 in Nd. apply Nd, in_or_app. auto. }
    assert (C : forall a, at2 d' a k = at2 d a k) by (intros a; rewrite Hd' by exact Hk; destruct (inb a don); [now apply relaxed_col|reflexivity]).
    assert (R : forall b, (b < n)%nat -> at2 d' k b = at2 d k b) by (intros b Hb; rewrite Hd' by exact Hb; destruct (inb k don); [now apply relaxed_row|reflexivity]).
    cbn [fold_left]. replace (don ++ i :: rows) with ((don ++ [i]) ++ rows) in * by (rewrite <- app_assoc; reflexivity).
    destruct (relax_row_ok d' i Sd') as [Sr Hr]; [apply Hi; now left|now rewrite C|].
    apply IH; [exact Nd|intros; apply Hi; now right|exact Sr|]. intros a b Hb. rewrite Hr by exact Hb. rewrite inb_snoc.
    destruct (Nat.eqb_spec a i) as [->|]; [|rewrite orb_false_r; now apply Hd']. rewrite orb_true_r.
    unfold relaxed. rewrite C, R, Hd', Ni by exact Hb. reflexivity. }
  destruct (G (seq 0 n) [] d) as [Sr Hr]; auto; [apply seq_NoDup|intros i Hi; apply in_seq in Hi; lia|].
  split; [exact Sr|]. intros a b Ha Hb. unfold relax. rewrite Hr by exact Hb. cbn [app]. replace (inb a (seq 0 n)) with true; [reflexivity|].
  symmetry. apply inb_spec, in_seq. lia.
Qed.
End Relax.

(** * Chains *)

Definition chain_entry (ws : list spec_float) (i j : nat) : spec_float :=
  if (i =? j)%nat then fzero
  else if (j =? S i)%nat then nth i ws INF
  else if (i =? S j)%nat then SFopp (nth j ws INF)
  else INF.

(** The sum of the weights from [i], left to right. *)
Fixpoint run_sum (x : spec_float) (ws : list spec_float) : spec_float :=
  match ws with [] => x | w :: ws => run_sum (fadd x w) ws end.
Definition seg (ws : list spec_float) (i j : nat) : spec_float :=
  match firstn (j - i) (skipn i ws) with [] => fzero | w :: r => run_sum w r end.

(** No sum of consecutive weights overflows. *)
Definition sums_finite (ws : list spec_float) : bool :=
  forallb (fun i => forallb (fun j => finite (seg ws i j)) (seq (S i) (List.length ws - i))) (seq 0 (List.length ws)).

Lemma sums_finite_seg ws i j : sums_finite ws = true -> (i < j)%nat -> (j <= List.length ws)%nat -> finite (seg ws i j) = true.
Proof.
  unfold sums_finite. rewrite forallb_forall. intros F Hij Hj. specialize (F i). rewrite forallb_forall in F.
  apply F; apply in_seq; lia.
Qed.

Lemma run_sum_snoc ws : forall x w, run_sum x (ws ++ [w]) = fadd (run_sum x ws) w.
Proof. induction ws as [|y ws IH]; intros x w; [reflexivity|]. cbn [app run_sum]. apply IH. Qed.

Lemma firstn_snoc {A} (l : list A) : forall m d, (m < List.length l)%nat -> firstn (S m) l = firstn m l ++ [nth m l d].
Proof.
  induction l as [|x l IH]; intros [|m] d Hm; cbn [List.length] in *; try lia; [reflexivity|].
  cbn [firstn nth app]. f_equal. apply IH. lia.
Qed.

Lemma seg_one ws i : (i < List.length ws)%nat -> seg ws i (S i) = nth i ws INF.
Proof.
  intros Hi. unfold seg. replace (S i - i)%nat with 1%nat by lia.
  rewrite (firstn_snoc (skipn i ws) 0 INF) by (rewrite length_skipn; lia). cbn. rewrite nth_skipn. f_equal. lia.
Qed.

Lemma seg_step ws i j : (i < j)%nat -> (j < List.length ws)%nat -> seg ws i (S j) = fadd (seg ws i j) (nth j ws INF).
Proof.
  intros Hij Hj. unfold seg. replace (S j - i)%nat with (S (j - i)) by lia.
  rewrite (firstn_snoc (skipn i ws) (j - i) INF) by (rewrite length_skipn; lia). rewrite nth_skipn. replace (i + (j - i))%nat with j by lia.
  destruct (firstn (j - i) (skipn i ws)) as [|w r] eqn:E.
  - apply (f_equal (@List.length _)) in E. rewrite length_firstn, length_skipn in E. cbn in E. lia.
  - cbn [app]. apply run_sum_snoc.
Qed.

Section Chain.
Variable ws : list spec_float.
Hypothesis Fin : sums_finite ws = true.
Let n := S (List.length ws).

(** Before round [k]: the diagonal is zero, what lies beyond [k] is as built, and
    the column and row of [k] hold the sums from and to it. *)
Record front (k : nat) (d : matrix) : Prop := {
  f_square : square n d;
  f_diag : forall i, (i < n)%nat -> at2 d i i = fzero;
  f_far : forall i j, (i < n)%nat -> (j < n)%nat -> (k < Nat.max i j)%nat -> at2 d i j = chain_entry ws i j;
  f_seg : forall i, (i < k)%nat -> (k < n)%nat -> at2 d i k = seg ws i k /\ anti (seg ws i k) (at2 d k i)
}.

Lemma chain_next i : chain_entry ws i (S i) = nth i ws INF /\ chain_entry ws (S i) i = SFopp (nth i ws INF).
Proof.
  unfold chain_entry. rewrite Nat.eqb_refl. destruct (Nat.eqb_spec i (S i)); [lia|]. destruct (Nat.eqb_spec (S i) i); [lia|].
  destruct (Nat.eqb_spec i (S (S i))); [lia|]. auto.
Qed.

Lemma chain_far i j : (S i < j)%nat -> chain_entry ws i j = INF /\ chain_entry ws j i = INF.
Proof.
  intros Hij. unfold chain_entry.
  repeat match goal with |- context [(?x =? ?y)%nat] => destruct (Nat.eqb_spec x y); [lia|] end. auto.
Qed.

Lemma weight_finite i : (i < List.length ws)%nat -> finite (nth i ws INF) = true.
Proof. intros Hi. rewrite <- seg_one by exact Hi. apply sums_finite_seg; auto; lia. Qed.

Lemma inf_inf : is_inf INF = true.
Proof. reflexivity. Qed.

(** Going to [k] and back costs nothing. *)
Lemma via_diag k d i : front k d -> (k < n)%nat -> (i < n)%nat -> is_inf (at2 d i k) || is_inf (at2 d k i) = true \/ is_zero (fadd (at2 d i k) (at2 d k i)) = true.
Proof.
  intros F Hk Hi. destruct (lt_eq_lt_dec i k) as [[L|E]|L].
  - right. destruct (f_seg k d F i L Hk) as [E A]. rewrite E. apply anti_cancel; [|exact A]. apply sums_finite_seg; auto. unfold n in Hk. lia.
  - subst i. right. rewrite (f_diag k d F k Hk). reflexivity.
  - rewrite !(f_far k d F) by lia. destruct (Nat.eq_dec i (S k)) as [->|N].
    + right. destruct (chain_next k) as [-> ->]. assert (Hw : finite (nth k ws INF) = true) by (apply weight_finite; unfold n in Hi; lia).
      apply anti_cancel; [now rewrite finite_opp|]. apply anti_sym. now left.
    + left. destruct (chain_far k i) as [-> ->]; [lia|]. reflexivity.
Qed.

Lemma front_far k d i j : front k d -> (k < n)%nat -> (i < n)%nat -> (j < n)%nat -> (S k < Nat.max i j)%nat -> relaxed d k i j = chain_entry ws i j.
Proof.
  intros F Hk Hi Hj Hm. unfold relaxed.
  assert (E : is_inf (at2 d i k) || is_inf (at2 d k j) = true).
  { destruct (le_lt_dec i (S k)) as [L|L].
    - rewrite (f_far k d F k j) by lia. destruct (chain_far k j) as [-> _]; [lia|]. apply orb_true_r.
    - rewrite (f_far k d F i k) by lia. destruct (chain_far k i) as [_ ->]; [lia|]. reflexivity. }
  rewrite E. apply (f_far k d F); lia.
Qed.

Lemma front_next k d i : front k d -> (S k < n)%nat -> (i <= k)%nat ->
  relaxed d k i (S k) = seg ws i (S k) /\ anti (seg ws i (S k)) (relaxed d k (S k) i).
Proof.
  intros F Hk Hi. assert (Hlen : (k < List.length ws)%nat) by (unfold n in Hk; lia).
  pose proof (weight_finite k Hlen) as Hw. destruct (chain_next k) as [C1 C2].
  assert (E1 : at2 d k (S k) = nth k ws INF) by (rewrite (f_far k d F) by lia; exact C1).
  assert (E2 : at2 d (S k) k = SFopp (nth k ws INF)) by (rewrite (f_far k d F) by lia; exact C2).
  destruct (Nat.eq_dec i k) as [->|N].
  - rewrite relaxed_row by (apply (f_diag k d F); lia). rewrite relaxed_col by (apply (f_diag k d F); lia).
    rewrite E1, E2, seg_one by exact Hlen. split; [reflexivity|now left].
  - assert (L : (i < k)%nat) by lia. destruct (f_seg k d F i L ltac:(lia)) as [Es As]. pose proof (sums_finite_seg ws i k Fin L ltac:(lia)) as Hs.
    rewrite seg_step by lia. unfold relaxed. rewrite E1, E2, Es.
    rewrite !(f_far k d F i (S k)), !(f_far k d F (S k) i) by lia. destruct (chain_far i (S k)) as [-> ->]; [lia|].
    rewrite (finite_not_inf _ Hs), (finite_not_inf _ Hw). cbn [orb].
    rewrite (finite_not_inf (SFopp _)) by (now rewrite finite_opp). rewrite (finite_not_inf (at2 d k i)) by (eapply anti_finite; eauto). cbn [orb].
    pose proof (anti_add _ _ _ Hs Hw As) as A. assert (Hv : finite (fadd (seg ws i k) (nth k ws INF)) = true).
    { rewrite <- seg_step by lia. apply sums_finite_seg; auto; lia. }
    rewrite (flt_finite_inf _ Hv), (flt_finite_inf _ (anti_finite _ _ A Hv)). auto.
Qed.

Lemma front_step k d : front k d -> (k < n)%nat -> front (S k) (relax n d k).
Proof.
  intros F Hk. destruct (relax_ok n k Hk d (f_square k d F) (f_diag k d F k Hk)) as [Sr Hr]. constructor.
  - exact Sr.
  - intros i Hi. rewrite Hr by exact Hi. unfold relaxed. rewrite (f_diag k d F i Hi).
    destruct (via_diag k d i F Hk Hi) as [E|E]; [now rewrite E|]. destruct (_ || _); [reflexivity|]. now rewrite (flt_zeros _ fzero E).
  - intros i j Hi Hj Hm. rewrite Hr by assumption. now apply front_far.
  - intros i Hi HS. rewrite !Hr by lia. apply front_next; auto. lia.
Qed.

Lemma chain_consistent s : List.length (points s) = n -> square n (dist s) ->
  (forall i j, (i < n)%nat -> (j < n)%nat -> at2 (dist s) i j = chain_entry ws i j) -> consistent s = true.
Proof.
  intros Hl Sq He. unfold consistent. rewrite Hl.
  assert (F0 : front 0 (dist s)).
  { constructor; auto; [|lia]. intros i Hi. rewrite He by exact Hi. unfold chain_entry. now rewrite Nat.eqb_refl. }
  assert (G : forall m, (m <= n)%nat -> front m (fold_left (relax n) (seq 0 m) (dist s))).
  { induction m as [|m IH]; intros Hm; [exact F0|]. rewrite seq_S, fold_left_app. cbn [fold_left Nat.add]. apply front_step; [apply IH; lia|lia]. }
  apply forallb_forall. intros i Hi. apply in_seq in Hi. rewrite (f_diag _ _ (G n (le_n _)) i) by lia. reflexivity.
Qed.
End Chain.

(** * Building the chain *)

Record is_chain (s : STN) (ws : list spec_float) (lastp : string) : Prop := {
  c_len : List.length (points s) = S (List.length ws);
  c_idx : forall p i, dict_find p (idx s) = Some i <-> nth_error (points s) i = Some p;
  c_square : square (S (List.length ws)) (dist s);
  c_at : forall i j, (i <= List.length ws)%nat -> (j <= List.length ws)%nat -> at2 (dist s) i j = chain_entry ws i j;
  c_last : nth_error (points s) (List.length ws) = Some lastp
}.

Lemma grown_at n d i j : square n d -> (i <= n)%nat -> (j <= n)%nat ->
  at2 (map (fun row => row ++ [INF]) d ++ [repeat INF n ++ [fzero]]) i j =
  if (i <? n)%nat && (j <? n)%nat then at2 d i j else if (i =? j)%nat then fzero else INF.
Proof.
  intros Sd Hi Hj. pose proof Sd as [Hl _]. unfold at2. destruct (Nat.ltb_spec i n) as [Li|Li]; cbn [andb].
  - rewrite app_nth1 by (rewrite length_map; lia). rewrite (nth_indep _ [] ((fun row => row ++ [INF]) [])) by (rewrite length_map; lia).
    rewrite (map_nth (fun row => row ++ [INF])). pose proof (square_row n d i Sd Li) as Hr. destruct (Nat.ltb_spec j n) as [Lj|Lj].
    + now rewrite app_nth1 by lia.
    + assert (j = n) as -> by lia. rewrite app_nth2, Hr, Nat.sub_diag by lia. destruct (Nat.eqb_spec i n); [lia|reflexivity].
  - assert (i = n) as -> by lia. rewrite app_nth2, length_map, Hl, Nat.sub_diag by (rewrite length_map; lia). cbn [nth].
    destruct (Nat.eqb_spec n j) as [<-|N].
    + rewrite app_nth2, repeat_length, Nat.sub_diag by (rewrite repeat_length; lia). reflexivity.
    + rewrite app_nth1 by (rewrite repeat_length; lia). apply nth_repeat_lt. lia.
Qed.

Lemma grown_square n d : square n d -> square (S n) (map (fun row => row ++ [INF]) d ++ [repeat INF n ++ [fzero]]).
Proof.
  intros [Hl Hr]. split; [rewrite length_app, length_map; cbn; lia|]. apply Forall_app. split.
  - apply Forall_map. eapply Forall_impl; [|exact Hr]. cbv beta. intros row E. rewrite length_app. cbn. lia.
  - repeat constructor. rewrite length_app, repeat_length. cbn. lia.
Qed.

Lemma chain_snoc ws w i j : (i <= S (List.length ws))%nat -> (j <= S (List.length ws))%nat ->
  chain_entry (ws ++ [w]) i j =
  if (i =? List.length ws)%nat && (j =? S (List.length ws))%nat then w
  else if (i =? S (List.length ws))%nat && (j =? List.length ws)%nat then SFopp w
  else if (i <? S (List.length ws))%nat && (j <? S (List.length ws))%nat then chain_entry ws i j
  else if (i =? j)%nat then fzero else INF.
Proof.
  intros Hi Hj. set (m := List.length ws) in *. unfold chain_entry.
  assert (Hn : forall k, (k < m)%nat -> nth k (ws ++ [w]) INF = nth k ws INF) by (intros k Hk; now apply app_nth1).
  assert (Hw : nth m (ws ++ [w]) INF = w) by (rewrite app_nth2 by (unfold m; lia); unfold m; now rewrite Nat.sub_diag).
  destruct (Nat.eqb_spec i j) as [->|Nij].
  { destruct (Nat.eqb_spec j m), (Nat.eqb_spec j (S m)); cbn [andb]; try lia; now destruct (Nat.ltb_spec j (S m)). }
  destruct (Nat.eqb_spec j (S i)) as [->|N1].
  { destruct (Nat.eqb_spec i m) as [->|]; [rewrite Nat.eqb_refl; cbn [andb]; exact Hw|]. cbn [andb].
    destruct (Nat.eqb_spec i (S m)); [lia|]. cbn [andb]. destruct (Nat.ltb_spec i (S m)), (Nat.ltb_spec (S i) (S m)); cbn [andb]; try lia. apply Hn. lia. }
  destruct (Nat.eqb_spec i (S j)) as [->|N2].
  { destruct (Nat.eqb_spec (S j) m), (Nat.eqb_spec j (S m)); cbn [andb]; try lia;
      destruct (Nat.eqb_spec (S j) (S m)), (Nat.eqb_spec j m); cbn [andb]; try lia; subst; rewrite ?Hw; auto;
      destruct (Nat.ltb_spec (S j) (S m)), (Nat.ltb_spec j (S m)); cbn [andb]; try lia; f_equal; apply Hn; lia. }
  destruct (Nat.eqb_spec i m), (Nat.eqb_spec j (S m)); cbn [andb]; try lia; destruct (Nat.eqb_spec i (S m)), (Nat.eqb_spec j m); cbn [andb]; try lia;
    destruct ((i <? S m)%nat && (j <? S m)%nat); reflexivity.
Qed.

Lemma add_edge_chain s ws lastp p w : is_chain s ws lastp -> dict_find p (idx s) = None -> finite w = true ->
  is_chain (add_constraint s lastp p w w) (ws ++ [w]) p /\ points (add_constraint s lastp p w w) = points s ++ [p].
Proof.
  intros [Hl Hi Hs Ha Hlast] Hp Hw. set (m := List.length ws) in *.
  assert (Efrom : dict_find lastp (idx s) = Some m) by now apply Hi.
  assert (E1 : add_point s lastp = s) by (unfold add_point, dict_count; now rewrite Efrom).
  assert (N : String.eqb lastp p = false) by (apply String.eqb_neq; congruence).
  unfold add_constraint. rewrite E1. unfold add_point, dict_count. rewrite Hp. cbn [points idx dist].
  rewrite !dict_find_set, String.eqb_refl, N, Efrom, Hl.
  set (d0 := map (fun row => row ++ [INF]) (dist s) ++ [repeat INF (S m) ++ [S754_zero false]]).
  assert (S0 : square (S (S m)) d0) by now apply grown_square.
  assert (A0 : forall i j, (i <= S m)%nat -> (j <= S m)%nat -> at2 d0 i j = if (i <? S m)%nat && (j <? S m)%nat then at2 (dist s) i j else if (i =? j)%nat then fzero else INF)
    by (intros; now apply grown_at).
  assert (B : (m <? S m)%nat = true /\ (S m <? S m)%nat = false /\ (m =? S m)%nat = false /\ (S m =? m)%nat = false).
  { repeat split; [apply Nat.ltb_lt|apply Nat.ltb_ge|apply Nat.eqb_neq|apply Nat.eqb_neq]; lia. }
  destruct B as (B1 & B2 & B3 & B4).
  assert (I1 : at2 d0 m (S m) = INF) by (rewrite A0 by lia; now rewrite B1, B2, B3).
  rewrite I1, (flt_finite_inf w Hw). set (d1 := set2 d0 m (S m) w).
  assert (S1 : square (S (S m)) d1) by (apply set2_square; [exact S0|lia]).
  assert (A1 : forall a b, at2 d1 a b = if (a =? m)%nat && (b =? S m)%nat then w else at2 d0 a b) by (intros; apply (set2_at (S (S m))); auto; lia).
  assert (I2 : at2 d1 (S m) m = INF) by (rewrite A1, B4; cbn [andb]; rewrite A0 by lia; now rewrite B1, B2, B4).
  rewrite I2, (flt_finite_inf (SFopp w)) by now rewrite finite_opp. split; [|reflexivity].
  constructor; cbn [points idx dist]; rewrite ?length_app, ?Nat.add_1_r; cbn [List.length]; fold m.
  - lia.
  - intros q i. rewrite dict_find_set. destruct (String.eqb_spec q p) as [->|Nq].
    + split; [intros [= <-]; rewrite nth_error_app2, Hl, Nat.sub_diag by lia; reflexivity|]. intros E. f_equal.
      destruct (Nat.lt_ge_cases i (List.length (points s))) as [L|L].
      * rewrite nth_error_app1 in E by exact L. apply Hi in E. congruence.
      * rewrite nth_error_app2 in E by exact L. destruct (i - List.length (points s))%nat as [|x] eqn:Ex; [lia|]. destruct x; discriminate E.
    + rewrite Hi. destruct (Nat.lt_ge_cases i (List.length (points s))) as [L|L]; [now rewrite nth_error_app1 by exact L|].
      rewrite nth_error_app2 by exact L. split; intros E; [assert (i < List.length (points s))%nat by (apply nth_error_Some; congruence); lia|].
      destruct (i - List.length (points s))%nat as [|x]; [injection E as E; congruence|destruct x; discriminate E].
  - apply set2_square; [exact S1|lia].
  - intros i j Hi' Hj'. rewrite (set2_at (S (S m))) by (auto; lia). rewrite A1, chain_snoc by lia. fold m.
    destruct ((i =? S m)%nat && (j =? m)%nat) eqn:Eb.
    { apply andb_true_iff in Eb as [->%Nat.eqb_eq ->%Nat.eqb_eq]. now rewrite B4. }
    destruct ((i =? m)%nat && (j =? S m)%nat); [reflexivity|]. rewrite A0 by lia.
    destruct (Nat.ltb_spec i (S m)), (Nat.ltb_spec j (S m)); cbn [andb]; try reflexivity. apply Ha; lia.
  - rewrite nth_error_app2, Hl, Nat.sub_diag by lia. reflexivity.
Qed.

(** * The schedule *)

Definition a_start (i : nat) : string := ("a" ++ show_nat (Z.of_nat i) ++ "_start")%string.
Definition a_end (i : nat) : string := ("a" ++ show_nat (Z.of_nat i) ++ "_end")%string.
Definition names (m : nat) : list string := "t0"%string :: flat_map (fun i => [a_start i; a_end i]) (seq 0 m).

Lemma point_name_inj i j x y : ("a" ++ show_nat (Z.of_nat i) ++ String "_" x = "a" ++ show_nat (Z.of_nat j) ++ String "_" y)%string -> i = j /\ x = y.
Proof.
  intros [= E]. destruct (show_nat_ok (Z.of_nat i)) as (Di & Ri & _); [lia|]. destruct (show_nat_ok (Z.of_nat j)) as (Dj & Rj & _); [lia|].
  pose proof (span_digits_ok _ (String "_" x) Di eq_refl) as Si. pose proof (span_digits_ok _ (String "_" y) Dj eq_refl) as Sj.
  rewrite E, Sj in Si. injection Si as Es Ex. rewrite Es in Rj. split; [lia|congruence].
Qed.

Lemma in_names m p : In p (names m) <-> p = "t0"%string \/ exists i, (i < m)%nat /\ (p = a_start i \/ p = a_end i).
Proof.
  unfold names. cbn [In]. rewrite in_flat_map. split.
  - intros [<- | (i & Hi & Hp)]; [now left|right]. apply in_seq in Hi. cbn [In] in Hp. exists i. split; [lia|]. intuition congruence.
  - intros [-> | (i & Hi & Hp)]; [now left|right]. exists i. split; [apply in_seq; lia|]. cbn [In]. intuition congruence.
Qed.

Lemma fresh_start m : ~ In (a_start m) (names m).
Proof.
  rewrite in_names. intros [E|(i & Hi & [E|E])]; [discriminate E| |]; apply point_name_inj in E as [E1 E2]; [lia|discriminate E2].
Qed.

Lemma fresh_end m : ~ In (a_end m) (names m ++ [a_start m]).
Proof.
  rewrite in_app_iff, in_names. cbn [In]. intros [[E|(i & Hi & [E|E])]|[E|[]]]; [discriminate E| | |]; apply point_name_inj in E as [E1 E2]; try discriminate E2. lia.
Qed.

Lemma names_S m : names (S m) = (names m ++ [a_start m]) ++ [a_end m].
Proof. unfold names. rewrite seq_S, flat_map_app. cbn [flat_map Nat.add app]. now rewrite <- app_assoc. Qed.

Lemma chain_fresh s ws l p : is_chain s ws l -> ~ In p (points s) -> dict_find p (idx s) = None.
Proof.
  intros C Hp. destruct (dict_find p (idx s)) as [i|] eqn:E; [|reflexivity]. exfalso. apply (c_idx _ _ _ C) in E. apply Hp. eapply nth_error_In; eauto.
Qed.

Definition weights (durs : list Z) : list spec_float := flat_map (fun d => [fzero; seconds d]) durs.
Definition sum (durs : list Z) : Z := fold_right Z.add 0 durs.

Lemma sum_durs_app a b : sum (a ++ b) = sum a + sum b.
Proof. unfold sum. induction a as [|x a IH]; [reflexivity|]. cbn [app fold_right]. rewrite IH. lia. Qed.

(** The duration of an action: none declared, or declared but malformed, is zero. *)
Definition action_dur (domain : TwDomain) (nm : string) : option Z :=
  match dict_find nm (action_durations domain) with
  | None => Some 0
  | Some iso => option_map (Z.max 0) (tw_parse_duration_ms iso)
  end.

Fixpoint durations (domain : TwDomain) (plan : list TwCall) : option (list Z) :=
  match plan with
  | [] => Some []
  | c :: plan => get d <- action_dur domain (name c); get ds <- durations domain plan; Some (d :: ds)
  end.

Definition iso_of (domain : TwDomain) (nm : string) : string :=
  match dict_find nm (action_durations domain) with Some iso => if is_empty iso then "PT0S" else iso | None => "PT0S" end.

Fixpoint schedule (domain : TwDomain) (cur : Z) (plan : list TwCall) (durs : list Z) : list TwTemporalStep :=
  match plan, durs with
  | c :: plan, d :: durs =>
      mkStep (name c) (iso_of domain (name c)) (tw_format_duration_ms cur) (tw_format_duration_ms (cur + d)) :: schedule domain (cur + d) plan durs
  | _, _ => []
  end.

Lemma action_ms_dur domain nm d : action_dur domain nm = Some d ->
  exists iso, action_ms domain nm None = Some (d, iso, None) /\ (if is_empty iso then "PT0S" else iso) = iso_of domain nm /\ 0 <= d.
Proof.
  unfold action_dur, action_ms, iso_of. destruct (dict_find nm (action_durations domain)) as [iso|].
  - destruct (tw_parse_duration_ms iso) as [v|]; [|discriminate]. intros [= <-]. exists iso. cbn [option_map obind fst snd]. split; [|split; [reflexivity|lia]].
    destruct (Z.leb_spec 0 v); do 3 f_equal; lia.
  - intros [= <-]. exists EmptyString. split; [reflexivity|]. split; [reflexivity|lia].
Qed.

(** The state of the timing loop after the actions with durations [don]. *)
Definition timed (origin : Z) (don : list Z) (st : list TwTemporalStep) (t : timing) : Prop :=
  is_chain (stn t) (weights don) (prev_end t) /\ points (stn t) = names (List.length don) /\ current t = origin + sum don /\
  plan_total t = sum don /\ civil t = None /\ steps_done t = st.

Lemma time_plan_ok domain origin plan : forall don rest st t, durations domain plan = Some rest -> 0 <= origin -> Forall (Z.le 0) don ->
  timed origin don st t -> origin + sum (don ++ rest) < 2 ^ 63 -> forallb finite (weights rest) = true ->
  exists t', time_plan domain t (List.length don) plan = Some t' /\ timed origin (don ++ rest) (st ++ schedule domain (origin + sum don) plan rest) t' /\
    Forall (Z.le 0) (don ++ rest).
Proof.
  induction plan as [|c plan IH]; intros don rest st t D Ho Hd T Hs Hf; cbn [durations time_plan] in *.
  { injection D as <-. exists t. rewrite !app_nil_r. auto. }
  apply obind_some in D as (d & Ed & D). apply obind_some in D as (ds & Eds & D). injection D as <-.
  destruct (action_ms_dur _ _ _ Ed) as (iso & Ea & Eiso & Hd0). destruct T as (C & P & Cu & To & Ci & St).
  change (weights (d :: ds)) with ([fzero; seconds d] ++ weights ds) in Hf. rewrite forallb_app in Hf. apply andb_true_iff in Hf as [Hf1 Hf2].
  cbn [forallb] in Hf1. rewrite andb_true_r in Hf1. cbn [finite fzero andb] in Hf1.
  assert (Hds : Forall (Z.le 0) ds).
  { clear -Eds. revert ds Eds. induction plan as [|c plan IH]; intros ds E; cbn [durations] in E; [injection E as <-; constructor|].
    apply obind_some in E as (d & Ed & E). apply obind_some in E as (es & Ees & E). injection E as <-.
    destruct (action_ms_dur _ _ _ Ed) as (iso & _ & _ & Hd0). constructor; auto. }
  assert (Hn : forall l, Forall (Z.le 0) l -> 0 <= sum l) by (induction 1; cbn [sum fold_right] in *; [lia|unfold sum in *; lia]).
  pose proof (Hn _ Hd) as Hdon. pose proof (Hn _ Hds) as Hrest. rewrite sum_durs_app in Hs. change (sum (d :: ds)) with (d + sum ds) in Hs.
  assert (Es : sum (don ++ [d]) = sum don + d) by (rewrite sum_durs_app; unfold sum at 2; cbn [fold_right]; lia).
  destruct (add_edge_chain _ _ _ (a_start (List.length don)) fzero C) as [C1 P1]; [eapply chain_fresh; [exact C|rewrite P; apply fresh_start]|reflexivity|].
  destruct (add_edge_chain _ _ _ (a_end (List.length don)) (seconds d) C1) as [C2 P2]; [eapply chain_fresh; [exact C1|rewrite P1, P; apply fresh_end]|exact Hf1|].
  assert (T' : timed origin (don ++ [d]) (st ++ [mkStep (name c) (iso_of domain (name c)) (tw_format_duration_ms (origin + sum don)) (tw_format_duration_ms (origin + sum don + d))])
    (mkTiming (add_constraint (add_constraint (stn t) (prev_end t) (a_start (List.length don)) fzero fzero) (a_start (List.length don)) (a_end (List.length don)) (seconds d) (seconds d))
      (a_end (List.length don)) (origin + sum don + d) (sum don + d) None (st ++ [mkStep (name c) (iso_of domain (name c)) (tw_format_duration_ms (origin + sum don)) (tw_format_duration_ms (origin + sum don + d))]))).
  { unfold timed. cbn [stn prev_end current plan_total civil steps_done]. rewrite Es. split; [|split; [|repeat split; lia]].
    - unfold weights in *. rewrite flat_map_app. cbn [flat_map app]. rewrite <- app_assoc in C2. exact C2.
    - rewrite P2, P1, P, length_app, Nat.add_1_r. symmetry. apply names_S. }
  destruct (IH (don ++ [d]) ds _ _ Eds Ho ltac:(apply Forall_app; auto) T') as (t' & E' & Tt & Hall); [|exact Hf2|].
  { rewrite sum_durs_app, Es. lia. }
  exists t'. rewrite length_app, Nat.add_1_r in E'. rewrite Es, <- !app_assoc, Z.add_assoc in Tt. rewrite <- app_assoc in Hall.
  split; [|split; [exact Tt|exact Hall]]. unfold time_step. rewrite Ci, Ea. cbn [obind]. rewrite Cu, To, !int64_id by lia. cbn [obind].
  rewrite Eiso, St. exact E'.
Qed.

Lemma weights_finite durs : sums_finite (weights durs) = true -> forallb finite (weights durs) = true.
Proof.
  intros F. apply forallb_forall. intros x Hx. apply (In_nth _ _ INF) in Hx as (i & Hi & <-). rewrite <- seg_one by exact Hi.
  apply sums_finite_seg; auto; lia.
Qed.

Lemma start_timed origin : timed origin [] [] (mkTiming (add_point empty_stn "t0") "t0" origin 0 None []).
Proof.
  unfold timed. cbn [stn prev_end current plan_total civil steps_done].
  split; [|repeat split; cbn; lia]. constructor; cbn.
  - reflexivity.
  - intros p i. destruct (String.eqb_spec p "t0") as [->|N].
    + split; [intros [= <-]; reflexivity|]. destruct i as [|[|i]]; [reflexivity|discriminate|discriminate].
    + split; [discriminate|]. destruct i as [|[|i]]; [intros [= E]; congruence|discriminate|discriminate].
  - split; repeat constructor.
  - intros i j Hi Hj. assert (i = 0%nat) as -> by lia. assert (j = 0%nat) as -> by lia. reflexivity.
  - reflexivity.
Qed.

Lemma durations_length domain plan : forall durs, durations domain plan = Some durs -> List.length durs = List.length plan /\ Forall (Z.le 0) durs.
Proof.
  induction plan as [|c plan IH]; intros durs E; cbn [durations] in E; [injection E as <-; auto|].
  apply obind_some in E as (d & Ed & E). apply obind_some in E as (es & Ees & E). injection E as <-. destruct (IH _ Ees).
  destruct (action_ms_dur _ _ _ Ed) as (iso & _ & _ & Hd0). cbn [List.length]. auto.
Qed.

Lemma sum_firstn durs i : Forall (Z.le 0) durs -> 0 <= sum (firstn i durs) <= sum durs.
Proof.
  intros F. revert i. induction F as [|d durs Hd F IH]; intros [|i]; cbn [firstn]; unfold sum in *; cbn [fold_right]; try lia.
  - specialize (IH O). cbn in IH. lia.
  - specialize (IH i). lia.
Qed.

Lemma schedule_nth domain plan : forall cur durs i c, List.length durs = List.length plan -> nth_error plan i = Some c ->
  exists iso, nth_error (schedule domain cur plan durs) i =
    Some (mkStep (name c) iso (tw_format_duration_ms (cur + sum (firstn i durs))) (tw_format_duration_ms (cur + sum (firstn (S i) durs)))).
Proof.
  induction plan as [|c0 plan IH]; intros cur [|d durs] i c L E; cbn [List.length] in L; try discriminate; [destruct i; discriminate|].
  cbn [schedule]. destruct i as [|i]; cbn [nth_error] in *.
  - injection E as <-. exists (iso_of domain (name c0)). cbn [firstn]. unfold sum. cbn [fold_right]. do 3 f_equal; lia.
  - destruct (IH (cur + d) durs i c ltac:(lia) E) as (iso & Es). exists iso. rewrite Es. unfold sum. cbn [firstn fold_right]. do 3 f_equal; lia.
Qed.

Lemma schedule_length domain plan : forall cur durs, List.length durs = List.length plan -> List.length (schedule domain cur plan durs) = List.length plan.
Proof.
  induction plan as [|c plan IH]; intros cur [|d durs] L; cbn [List.length] in L; try discriminate; [reflexivity|]. cbn [schedule List.length]. f_equal. apply IH. lia.
Qed.

(** C32: [tw_check_temporal] schedules a plan's actions back to back from the
    origin: each step starts when the one before ends and lasts its action's
    duration, the total is the sum of the durations, and the temporal network
    is found consistent although its distances are sums of doubles, as long as
    no sum of the durations overflows. *)
Theorem temporal_schedule_correct domain plan origin o durs :
  durations domain plan = Some durs -> tw_parse_duration_ms origin = Some o ->
  Z.max 0 o + sum durs < 2 ^ 63 -> sums_finite (weights durs) = true ->
  exists r, tw_check_temporal plan domain origin = Some r /\ is_consistent r = true /\
    tw_parse_duration_ms (total_iso r) = Some (sum durs) /\ List.length (t_steps r) = List.length plan /\
    forall i c, nth_error plan i = Some c -> exists st, nth_error (t_steps r) i = Some st /\ action_name st = name c /\
      tw_parse_duration_ms (start_iso st) = Some (Z.max 0 o + sum (firstn i durs)) /\
      tw_parse_duration_ms (end_iso st) = Some (Z.max 0 o + sum (firstn (S i) durs)).
Proof.
  intros Ed Eo Hs Hf. destruct (durations_length _ _ _ Ed) as [Hl Hpos].
  assert (Ho : (if o <? 0 then 0 else o) = Z.max 0 o) by (destruct (Z.ltb_spec o 0); lia).
  assert (P : forall x, 0 <= x < 2 ^ 63 -> tw_parse_duration_ms (tw_format_duration_ms x) = Some x) by (intros x Hx; rewrite format_parse by lia; f_equal; lia).
  unfold tw_check_temporal, check_temporal. rewrite Eo. cbn [obind]. rewrite Ho. set (b := Z.max 0 o) in *.
  destruct plan as [|c0 plan].
  { injection Ed as <-. eexists. split; [reflexivity|]. repeat split. intros [|i] c; discriminate. }
  destruct (time_plan_ok domain b (c0 :: plan) [] durs [] _ Ed ltac:(lia) ltac:(constructor) (start_timed b)) as (t & Et & (C & Pn & _ & To & _ & St) & _);
    [exact Hs|now apply weights_finite|]. cbn [List.length app] in Et, To, St, C. rewrite Et. cbn [obind]. eexists. split; [reflexivity|].
  cbn [is_consistent total_iso t_steps]. rewrite To, St. cbn [app sum fold_right]. rewrite Z.add_0_r.
  assert (Hsum : 0 <= sum durs) by (pose proof (sum_firstn durs 0 Hpos); lia). split; [|split; [apply P; lia|split; [now apply schedule_length|]]].
  - apply (chain_consistent (weights durs) Hf); [apply (c_len _ _ _ C)|apply (c_square _ _ _ C)|]. intros i j Hi Hj. apply (c_at _ _ _ C); lia.
  - intros i c Ec. destruct (schedule_nth domain (c0 :: plan) b durs i c Hl Ec) as (iso & En). rewrite En. eexists. split; [reflexivity|].
    cbn [action_name start_iso end_iso]. pose proof (sum_firstn durs i Hpos). pose proof (sum_firstn durs (S i) Hpos).
    rewrite !P by lia. auto.
Qed.

Definition two_steps : TwDomain := mkDomain [] [] [("a", "PT0.1S"); ("b", "PT0.7S")]%string.

Lemma temporal_schedule_witness :
  sums_finite (weights [100; 700; 100]) = true /\
  exists r, tw_check_temporal [mkCall "a" []; mkCall "b" []; mkCall "a" []] two_steps "PT1M" = Some r /\ is_consistent r = true /\
    tw_parse_duration_ms (total_iso r) = Some (sum [100; 700; 100]) /\ List.length (t_steps r) = 3%nat /\
    forall i c, nth_error [mkCall "a" []; mkCall "b" []; mkCall "a" []] i = Some c -> exists st, nth_error (t_steps r) i = Some st /\ action_name st = name c /\
      tw_parse_duration_ms (start_iso st) = Some (Z.max 0 60000 + sum (firstn i [100; 700; 100])) /\
      tw_parse_duration_ms (end_iso st) = Some (Z.max 0 60000 + sum (firstn (S i) [100; 700; 100])).
Proof.
  split; [vm_compute; reflexivity|].
  apply (temporal_schedule_correct two_steps [mkCall "a" []; mkCall "b" []; mkCall "a" []] "PT1M" 60000 [100; 700; 100]); vm_compute; reflexivity.
Defined.

(** * The civil calendar *)

(** Adding months wraps around the year without carrying: a month after
    December lies in the past, and its negative length is taken for an error. *)
Lemma civil_months_wrap :
  tw_civil_duration_ms "P1M" (mkYmd 2024 12 15) = Some (- 335 * 86400000, mkYmd 2024 1 15) /\
  tw_civil_duration_ms "P13M" (mkYmd 2024 1 15) = tw_civil_duration_ms "P1M" (mkYmd 2024 1 15).
Proof. split; vm_compute; reflexivity. Qed.

(** Days do not move the cursor: a month after 31 days is still measured from the
    reference date. *)
Lemma civil_days_ignored :
  tw_civil_duration_ms "P31D" (mkYmd 2024 1 1) = Some (31 * 86400000, mkYmd 2024 1 1).
Proof. vm_compute. reflexivity. Qed.
