(* ===== verification/TwPointer.v ===== *)
(** taskweft_nif/standalone/tw_loader.hpp: parameter templates and RFC 6901
    pointers, the addresses by which a domain's actions and methods name state
    variables, and the proof that substituted values cannot escape their
    reference token. *)

From Stdlib Require Import ZArith String Ascii List Bool Lia.
From S2P Require Import Prelude OrderedMap TwValue TwJson.
Import ListNotations.
#[local] Open Scope string_scope.

Definition Params := dict TwValue.

(** * Templates *)

(** [find('}')]: the text before the first closing brace and after it. *)
Fixpoint split_close (p : string) : option (string * string) :=
  match p with
  | EmptyString => None
  | String c r =>
      if Ascii.eqb c "}" then Some (EmptyString, r)
      else match split_close r with Some (n, q) => Some (String c n, q) | None => None end
  end.

(** The scanning loop: every [{name}] is replaced by the text of its value;
    unknown names and an unclosed brace are copied. *)
Fixpoint expand (show : TwValue -> string) (params : Params) (fuel : nat) (p : string) : string :=
  match p, fuel with
  | EmptyString, _ => EmptyString
  | String _ _, O => EmptyString
  | String c r, S fuel =>
      if Ascii.eqb c "{" then
        match split_close r with
        | None => p
        | Some (nm, q) =>
            (match dict_find nm params with
             | Some v => show v
             | None => String "{" (nm ++ String "}" EmptyString)
             end ++ expand show params fuel q)%string
        end
      else String c (expand show params fuel r)
  end.

Fixpoint has_char (c : ascii) (s : string) : bool :=
  match s with EmptyString => false | String d r => Ascii.eqb d c || has_char c r end.

Fixpoint last_char (s : string) : option ascii :=
  match s with EmptyString => None | String c EmptyString => Some c | String _ r => last_char r end.

Definition resolve_param (val : TwValue) (params : Params) : TwValue :=
  match val with
  | STRING s =>
      if (3 <=? String.length s)%nat && starts "{" s && match last_char s with Some c => Ascii.eqb c "}" | None => false end
         && negb (has_char "{" (tail s))
      then match dict_find (string_take (String.length s - 2) (tail s)) params with Some v => v | None => val end
      else if negb (has_char "{" s) then val
      else STRING (expand to_string params (String.length s) s)
  | _ => val
  end.

(** * RFC 6901 *)

Fixpoint escape_rfc6901 (s : string) : string :=
  match s with
  | EmptyString => EmptyString
  | String c r =>
      if Ascii.eqb c "~" then String "~" (String "0" (escape_rfc6901 r))
      else if Ascii.eqb c "/" then String "~" (String "1" (escape_rfc6901 r))
      else String c (escape_rfc6901 r)
  end.

Fixpoint is_valid_rfc6901_token (t : string) : bool :=
  match t with
  | EmptyString => true
  | String c r =>
      if negb (Ascii.eqb c "~") then is_valid_rfc6901_token r
      else match r with
           | EmptyString => false
           | String d r' => (Ascii.eqb d "0" || Ascii.eqb d "1") && is_valid_rfc6901_token r'
           end
  end.

(** One pass: replace every [~code] by [by]. *)
Fixpoint unescape_pass (code by_ : ascii) (t : string) : string :=
  match t with
  | EmptyString => EmptyString
  | String c r =>
      if Ascii.eqb c "~" then
        match r with
        | String d r' => if Ascii.eqb d code then String by_ (unescape_pass code by_ r') else String c (unescape_pass code by_ r)
        | EmptyString => String c EmptyString
        end
      else String c (unescape_pass code by_ r)
  end.

Definition unescape_rfc6901 (t : string) : string := unescape_pass "0" "~" (unescape_pass "1" "/" t).

Definition substitute_pointer (raw : string) (params : Params) : string :=
  expand (fun v => escape_rfc6901 (to_string v)) params (String.length raw) raw.

Fixpoint pointer_loop (p cur : string) (tokens : list string) : list string :=
  let flush (k : list string -> list string) :=
    if is_valid_rfc6901_token cur then k (tokens ++ [unescape_rfc6901 cur])%list else [] in
  match p with
  | EmptyString => flush (fun t => t)
  | String c r =>
      if Ascii.eqb c "/" then flush (fun t => pointer_loop r EmptyString t)
      else pointer_loop r (cur ++ String c EmptyString)%string tokens
  end.

Definition parse_rfc6901 (ptr : string) : list string :=
  match ptr with
  | EmptyString => []
  | String c r => if Ascii.eqb c "/" then pointer_loop r EmptyString [] else []
  end.

Definition parse_pointer (ptr : string) (params : Params) : string * TwValue :=
  match parse_rfc6901 (substitute_pointer ptr params) with
  | [a; b] => (a, STRING b)
  | _ => (EmptyString, NIL)
  end.

(** * Round trips *)

(** A text without the characters that have a meaning in pointers. *)
Definition inert (s : string) : bool := negb (has_char "/" s) && negb (has_char "~" s).

Lemma has_char_app c a b : has_char c (a ++ b) = has_char c a || has_char c b.
Proof. induction a as [|d a IH]; [reflexivity|]. cbn [append has_char]. now rewrite IH, orb_assoc. Qed.

Lemma valid_app a b : is_valid_rfc6901_token a = true -> is_valid_rfc6901_token (a ++ b) = is_valid_rfc6901_token b.
Proof.
  remember (String.length a) as n eqn:En. revert a En. induction n as [n IH] using lt_wf_ind. intros a En Ha.
  destruct a as [|c a]; [reflexivity|]. cbn [is_valid_rfc6901_token append] in *. destruct (Ascii.eqb c "~"); cbn [negb] in *.
  - destruct a as [|d a]; [discriminate|]. cbn [append]. apply andb_true_iff in Ha as [Hd Ha]. rewrite Hd. cbn [andb].
    apply (IH (String.length a)); [cbn in En; lia|reflexivity|exact Ha].
  - apply (IH (String.length a)); [cbn in En; lia|reflexivity|exact Ha].
Qed.

Lemma escape_valid s : is_valid_rfc6901_token (escape_rfc6901 s) = true.
Proof.
  induction s as [|c s IH]; [reflexivity|]. cbn [escape_rfc6901]. destruct (Ascii.eqb_spec c "~"); [exact IH|].
  destruct (Ascii.eqb_spec c "/"); [exact IH|]. cbn [is_valid_rfc6901_token]. destruct (Ascii.eqb_spec c "~"); [contradiction|exact IH].
Qed.

Lemma escape_no_slash s : has_char "/" (escape_rfc6901 s) = false.
Proof.
  induction s as [|c s IH]; [reflexivity|]. cbn [escape_rfc6901]. destruct (Ascii.eqb_spec c "~"); [exact IH|].
  destruct (Ascii.eqb_spec c "/"); [exact IH|]. cbn [has_char]. destruct (Ascii.eqb_spec c "/"); [contradiction|exact IH].
Qed.

Lemma unescape_0 x : unescape_rfc6901 (String "~" (String "0" x)) = String "~" (unescape_rfc6901 x).
Proof. reflexivity. Qed.

Lemma unescape_1 x : unescape_rfc6901 (String "~" (String "1" x)) = String "/" (unescape_rfc6901 x).
Proof. reflexivity. Qed.

Lemma unescape_other c x : c <> "~"%char -> unescape_rfc6901 (String c x) = String c (unescape_rfc6901 x).
Proof.
  intros N. apply Ascii.eqb_neq in N. unfold unescape_rfc6901. cbn [unescape_pass]. rewrite N. cbn [unescape_pass]. now rewrite N.
Qed.

(** A valid token is read from the left: decoding splits over concatenation. *)
Lemma unescape_app a b : is_valid_rfc6901_token a = true -> unescape_rfc6901 (a ++ b) = (unescape_rfc6901 a ++ unescape_rfc6901 b)%string.
Proof.
  remember (String.length a) as n eqn:En. revert a En. induction n as [n IH] using lt_wf_ind. intros a En Ha.
  destruct a as [|c a]; [reflexivity|]. cbn [is_valid_rfc6901_token append] in *. destruct (Ascii.eqb_spec c "~") as [->|N]; cbn [negb] in *.
  - destruct a as [|d a]; [discriminate|]. apply andb_true_iff in Ha as [Hd Ha]. cbn [append].
    assert (E : unescape_rfc6901 (a ++ b) = (unescape_rfc6901 a ++ unescape_rfc6901 b)%string) by (apply (IH (String.length a)); [cbn in En; lia|reflexivity|exact Ha]).
    apply orb_true_iff in Hd as [->%Ascii.eqb_eq | ->%Ascii.eqb_eq]; rewrite ?unescape_0, ?unescape_1, E; reflexivity.
  - rewrite !unescape_other by exact N. cbn [append]. f_equal. apply (IH (String.length a)); [cbn in En; lia|reflexivity|exact Ha].
Qed.

Lemma unescape_escape s : unescape_rfc6901 (escape_rfc6901 s) = s.
Proof.
  induction s as [|c s IH]; [reflexivity|]. cbn [escape_rfc6901]. destruct (Ascii.eqb_spec c "~") as [->|N1]; [now rewrite unescape_0, IH|].
  destruct (Ascii.eqb_spec c "/") as [->|N2]; [now rewrite unescape_1, IH|]. now rewrite unescape_other, IH.
Qed.

Lemma inert_valid s : inert s = true -> is_valid_rfc6901_token s = true /\ unescape_rfc6901 s = s /\ has_char "/" s = false.
Proof.
  unfold inert. rewrite andb_true_iff, !negb_true_iff. induction s as [|c s IH]; [auto|]. cbn [has_char]. intros [H1 H2].
  apply orb_false_iff in H1 as [S1 H1]. apply orb_false_iff in H2 as [S2 H2]. destruct (IH (conj H1 H2)) as (V & U & _).
  cbn [is_valid_rfc6901_token]. rewrite S2. split; [exact V|]. split; [|now rewrite S1, H1].
  rewrite unescape_other by now apply Ascii.eqb_neq. now rewrite U.
Qed.

(** * Pointers *)

Lemma loop_token r tok : forall cur tokens, has_char "/" tok = false -> is_valid_rfc6901_token (cur ++ tok) = true ->
  pointer_loop (tok ++ String "/" r) cur tokens = pointer_loop r EmptyString (tokens ++ [unescape_rfc6901 (cur ++ tok)]) /\
  pointer_loop tok cur tokens = (tokens ++ [unescape_rfc6901 (cur ++ tok)])%list.
Proof.
  induction tok as [|c tok IH]; intros cur tokens Hs Hv.
  - rewrite str_app_nil in Hv |- *. cbn [append pointer_loop]. change (Ascii.eqb "/" "/") with true. now rewrite Hv.
  - cbn [has_char] in Hs. apply orb_false_iff in Hs as [Hc Hs]. cbn [append pointer_loop]. rewrite Hc.
    replace (cur ++ String c tok)%string with ((cur ++ String c EmptyString) ++ tok)%string in * by (rewrite str_app_assoc; reflexivity).
    now apply IH.
Qed.

Definition join (tokens : list string) : string := fold_right (fun t s => String "/" (t ++ s)) EmptyString tokens.

(** Tokens that are written without a slash and decode to [vs]. *)
Definition encodes (t v : string) : Prop := has_char "/" t = false /\ is_valid_rfc6901_token t = true /\ unescape_rfc6901 t = v.

Lemma loop_join ts vs : Forall2 encodes ts vs -> forall t v tokens, encodes t v ->
  pointer_loop (t ++ join ts) EmptyString tokens = (tokens ++ v :: vs)%list.
Proof.
  induction 1 as [|t' v' ts vs E _ IH]; intros t v tokens (Hs & Hv & <-); cbn [join fold_right].
  - rewrite str_app_nil. exact (proj2 (loop_token EmptyString t EmptyString tokens Hs Hv)).
  - rewrite (proj1 (loop_token _ t EmptyString tokens Hs Hv)). fold (join ts). rewrite (IH _ _ _ E), <- app_assoc. reflexivity.
Qed.

Lemma parse_join ts vs : Forall2 encodes ts vs -> parse_rfc6901 (join ts) = vs.
Proof.
  destruct 1 as [|t v ts vs E F]; [reflexivity|]. cbn [join fold_right parse_rfc6901]. change (Ascii.eqb "/" "/") with true.
  exact (loop_join ts vs F t v [] E).
Qed.

(** Encoding texts as reference tokens and joining them gives a pointer that
    parses back to exactly those texts, whatever slashes and tildes they hold. *)
Theorem pointer_roundtrip (texts : list string) : parse_rfc6901 (join (map escape_rfc6901 texts)) = texts.
Proof.
  apply parse_join. induction texts as [|t ts IH]; constructor; [|exact IH].
  repeat split; [apply escape_no_slash|apply escape_valid|apply unescape_escape].
Qed.

(** * Templates *)

Inductive piece := Lit (s : string) | Var (n : string).

Definition piece_text (p : piece) : string :=
  match p with Lit s => s | Var n => String "{" (n ++ String "}" EmptyString) end.

(** Literal text without special characters; names that are bound. *)
Definition piece_ok (params : Params) (p : piece) : Prop :=
  match p with
  | Lit s => inert s = true /\ has_char "{" s = false
  | Var n => has_char "}" n = false /\ exists v, dict_find n params = Some v
  end.

Definition piece_value (params : Params) (p : piece) : string :=
  match p with Lit s => s | Var n => match dict_find n params with Some v => to_string v | None => EmptyString end end.

Definition concat_map {A} (f : A -> string) (l : list A) : string := fold_right (fun x s => f x ++ s)%string EmptyString l.

Lemma split_close_app n r : has_char "}" n = false -> split_close (n ++ String "}" r) = Some (n, r).
Proof.
  induction n as [|c n IH]; intros Hn; [reflexivity|]. cbn [has_char append split_close] in *. apply orb_false_iff in Hn as [Hc Hn].
  rewrite Hc, (IH Hn). reflexivity.
Qed.

Lemma split_close_length p : forall n q, split_close p = Some (n, q) -> (String.length q < String.length p)%nat.
Proof.
  induction p as [|c p IH]; intros n q E; cbn [split_close] in E; [discriminate|]. destruct (Ascii.eqb c "}"); [injection E as <- <-; cbn; lia|].
  destruct (split_close p) as [[n' q']|]; [|discriminate]. injection E as <- <-. specialize (IH _ _ eq_refl). cbn. lia.
Qed.

Lemma expand_fuel show params : forall f p, (String.length p <= f)%nat -> expand show params f p = expand show params (String.length p) p.
Proof.
  intros f p. remember (String.length p) as n eqn:En. revert f p En. induction n as [n IH] using lt_wf_ind. intros f p En Hf.
  destruct p as [|c r]; [destruct f, n; reflexivity|]. cbn [String.length] in En. subst n. destruct f as [|f]; [lia|]. cbn [expand].
  destruct (Ascii.eqb c "{").
  - destruct (split_close r) as [[nm q]|] eqn:E; [|reflexivity]. apply split_close_length in E. f_equal.
    rewrite (IH (String.length q)) by (auto; lia). symmetry. apply (IH (String.length q)); auto; lia.
  - f_equal. apply (IH (String.length r)); auto; lia.
Qed.

Definition subst (show : TwValue -> string) (params : Params) (p : string) : string := expand show params (String.length p) p.

Lemma subst_lit show params s r : has_char "{" s = false -> subst show params (s ++ r) = (s ++ subst show params r)%string.
Proof.
  unfold subst. induction s as [|c s IH]; intros Hs; [reflexivity|]. cbn [has_char append String.length expand] in *.
  apply orb_false_iff in Hs as [Hc Hs]. rewrite Hc. now rewrite IH.
Qed.

Lemma subst_var show params n v r : has_char "}" n = false -> dict_find n params = Some v ->
  subst show params (piece_text (Var n) ++ r) = (show v ++ subst show params r)%string.
Proof.
  intros Hn Hv. unfold subst. cbn [piece_text append String.length expand]. change (Ascii.eqb "{" "{") with true. cbv iota.
  rewrite str_app_assoc. cbn [append]. rewrite split_close_app by exact Hn. rewrite Hv. f_equal. apply expand_fuel.
  rewrite str_length_app. cbn. lia.
Qed.

Lemma subst_pieces show params ps r : Forall (piece_ok params) ps ->
  subst show params (concat_map piece_text ps ++ r) =
  (concat_map (fun p => match p with Lit s => s | Var n => match dict_find n params with Some v => show v | None => EmptyString end end) ps
   ++ subst show params r)%string.
Proof.
  induction 1 as [|p ps Hp _ IH]; [reflexivity|]. unfold concat_map in *. cbn [fold_right]. rewrite !str_app_assoc. destruct p as [s|n].
  - destruct Hp as [_ Hs]. cbn [piece_text]. rewrite subst_lit by exact Hs. now rewrite IH.
  - destruct Hp as [Hn (v & Hv)]. rewrite (subst_var _ _ _ _ _ Hn Hv), Hv, IH. reflexivity.
Qed.

Definition escaped_value (params : Params) (p : piece) : string :=
  match p with Lit s => s | Var n => match dict_find n params with Some v => escape_rfc6901 (to_string v) | None => EmptyString end end.

Lemma segment_encodes params ps : Forall (piece_ok params) ps ->
  encodes (concat_map (escaped_value params) ps) (concat_map (piece_value params) ps).
Proof.
  induction 1 as [|p ps Hp _ (IH1 & IH2 & IH3)]; [repeat split|]. unfold concat_map in *. cbn [fold_right].
  assert (E : encodes (escaped_value params p) (piece_value params p)).
  { destruct p as [s|n]; cbn [escaped_value piece_value].
    - destruct Hp as [Hs _]. destruct (inert_valid s Hs) as (V & U & S). repeat split; assumption.
    - destruct Hp as [_ (v & ->)]. repeat split; [apply escape_no_slash|apply escape_valid|apply unescape_escape]. }
  destruct E as (E1 & E2 & E3). repeat split; [now rewrite has_char_app, E1, IH1|now rewrite valid_app|]. rewrite unescape_app by exact E2. congruence.
Qed.

Lemma join_cons t ts : join (t :: ts) = (String "/" EmptyString ++ (t ++ join ts))%string.
Proof. reflexivity. Qed.

Lemma substitute_segments params segments : Forall (Forall (piece_ok params)) segments ->
  subst (fun v => escape_rfc6901 (to_string v)) params (join (map (concat_map piece_text) segments)) = join (map (concat_map (escaped_value params)) segments).
Proof.
  induction 1 as [|ps segs Hps _ IH]; [reflexivity|]. cbn [map]. rewrite !join_cons. rewrite subst_lit by reflexivity.
  rewrite subst_pieces by exact Hps. rewrite IH. reflexivity.
Qed.

(** A pointer template made of segments of literal text and parameters resolves
    to exactly one reference token per segment, holding the literal text and the
    parameters' values as they print: no value, whatever slashes, tildes or
    braces it holds, can add a token, end one or be substituted again. *)
Theorem pointer_template_correct (params : Params) (segments : list (list piece)) : Forall (Forall (piece_ok params)) segments ->
  parse_rfc6901 (substitute_pointer (join (map (concat_map piece_text) segments)) params) = map (concat_map (piece_value params)) segments.
Proof.
  intros Hs. unfold substitute_pointer. fold (subst (fun v => escape_rfc6901 (to_string v)) params (join (map (concat_map piece_text) segments))).
  rewrite substitute_segments by exact Hs. apply parse_join. induction Hs as [|ps segs Hps _ IH]; constructor; [now apply segment_encodes|exact IH].
Qed.

Lemma pointer_template_witness :
  let params := [("who", STRING "a/b~{x}"); ("x", STRING "y")] in
  parse_rfc6901 (substitute_pointer "/loc/{who}" params) = ["loc"; "a/b~{x}"].
Proof.
  apply (pointer_template_correct [("who", STRING "a/b~{x}"); ("x", STRING "y")] [[Lit "loc"]; [Var "who"]]).
  repeat constructor. exists (STRING "a/b~{x}"). reflexivity.
Defined.
