(* ===== verification/TwMatrix.v ===== *)
(** taskweft_nif/standalone/tw_loader.hpp: the matrix helpers of the expression
    nodes, on flat row-major matrices.

    The operations are written over a record of arithmetic, of which [double]
    is the code's; the algorithms are also run on exact numbers, where they can
    be compared with the determinant and the inverse of linear algebra. *)

From Stdlib Require Import ZArith List Bool Lia PeanoNat.
From Stdlib Require Import Floats.SpecFloat.
From S2P Require Import TwValue.
Import ListNotations.

Record arith (T : Type) := mkArith {
  zero : T; one : T; minus_one : T;
  add : T -> T -> T; sub : T -> T -> T; mul : T -> T -> T; div : T -> T -> T;
  (** A determinant that is zero, a NaN or infinite. *)
  singular : T -> bool
}.
Arguments mkArith {T}. Arguments zero {T}. Arguments one {T}. Arguments minus_one {T}. Arguments add {T}.
Arguments sub {T}. Arguments mul {T}. Arguments div {T}. Arguments singular {T}.

Definition double_arith : arith spec_float := {|
  zero := S754_zero false; one := double 1; minus_one := double (-1);
  add := SFadd 53 1024; sub := SFsub 53 1024; mul := SFmul 53 1024; div := SFdiv 53 1024;
  singular := fun det => match det with S754_finite _ _ _ => false | _ => true end
|}.

(** Row-major flat length to dimension. *)
Definition mat_dim (n : nat) : nat := match n with 4 => 2 | 9 => 3 | 16 => 4 | _ => 0 end.

(** The array filled by the nested loops over rows and columns. *)
Definition fill {T} (n : nat) (f : nat -> nat -> T) : list T :=
  flat_map (fun i => map (f i) (seq 0 n)) (seq 0 n).

Section Matrices.
Context {T : Type} (A : arith T).

(** [m[i * n + j]]. *)
Definition entry (m : list T) (n i j : nat) : T := nth (i * n + j) m (zero A).

Definition mat_minor (m : list T) (n r c : nat) : list T :=
  flat_map (fun i => map (entry m n i) (filter (fun j => negb (j =? c)) (seq 0 n))) (filter (fun i => negb (i =? r)) (seq 0 n)).

Definition mat_sign (k : nat) : T := if k mod 2 =? 0 then one A else minus_one A.

Fixpoint mat_det (n : nat) (m : list T) : T :=
  match n with
  | 0 => zero A
  | 1 => nth 0 m (zero A)
  | S n1 =>
      if n =? 2 then sub A (mul A (nth 0 m (zero A)) (nth 3 m (zero A))) (mul A (nth 1 m (zero A)) (nth 2 m (zero A)))
      else fold_left (fun det j => add A det (mul A (mul A (mat_sign j) (nth j m (zero A))) (mat_det n1 (mat_minor m n 0 j))))
             (seq 0 n) (zero A)
  end.

Definition mat_transpose_v (m : list T) (n : nat) : list T := fill n (fun j i => entry m n i j).

Definition mat_mul_v (a b : list T) (n : nat) : list T :=
  fill n (fun i j => fold_left (fun sum k => add A sum (mul A (entry a n i k) (entry b n k j))) (seq 0 n) (zero A)).

Definition mat_inverse_v (m : list T) (n : nat) : bool * list T :=
  let det := mat_det n m in
  if singular A det then (false, repeat (zero A) (n * n))
  else
    let cof := fill n (fun i j => mul A (mat_sign (i + j)) (mat_det (n - 1) (mat_minor m n i j))) in
    (true, map (fun x => div A x det) (mat_transpose_v cof n)).
End Matrices.

(** * Reading what the loops wrote *)

Lemma length_rows {X T} (f : X -> nat -> T) n rows : length (flat_map (fun i => map (f i) (seq 0 n)) rows) = length rows * n.
Proof. induction rows as [|x rows IH]; [reflexivity|]. cbn. now rewrite length_app, length_map, length_seq, IH. Qed.

Lemma fill_length {T} n (f : nat -> nat -> T) : length (fill n f) = n * n.
Proof. unfold fill. now rewrite length_rows, length_seq. Qed.

Lemma nth_rows {X T} (f : X -> nat -> T) n d x0 : forall rows i j, j < n -> i < length rows ->
  nth (i * n + j) (flat_map (fun x => map (f x) (seq 0 n)) rows) d = f (nth i rows x0) j.
Proof.
  induction rows as [|x rows IH]; intros i j Hj Hi; [inversion Hi|]. cbn [flat_map]. destruct i as [|i].
  - rewrite app_nth1 by (rewrite length_map, length_seq; lia).
    rewrite (nth_indep _ _ (f x 0)) by (rewrite length_map, length_seq; lia). rewrite map_nth, seq_nth by lia. reflexivity.
  - rewrite app_nth2 by (rewrite length_map, length_seq; lia). rewrite length_map, length_seq.
    replace (S i * n + j - n) with (i * n + j) by lia. apply IH; [exact Hj|cbn in Hi; lia].
Qed.

Lemma nth_fill {T} n (f : nat -> nat -> T) d i j : i < n -> j < n -> nth (i * n + j) (fill n f) d = f i j.
Proof. intros Hi Hj. unfold fill. rewrite (nth_rows f n d 0) by (rewrite ?length_seq; lia). now rewrite seq_nth by lia. Qed.

(** The indices other than [r]. *)
Definition skip (r i : nat) : nat := if i <? r then i else S i.

Lemma filter_skip r k n : r <= k -> filter (fun i => negb (i =? r)) (seq (S k) n) = seq (S k) n.
Proof.
  revert k. induction n as [|n IH]; intros k Hk; [reflexivity|]. cbn [seq filter].
  destruct (Nat.eqb_spec (S k) r); [lia|]. cbn. f_equal. apply IH. lia.
Qed.

Lemma filter_indices r n : forall k, k <= r <= k + n -> filter (fun i => negb (i =? r)) (seq k (S n)) = map (skip r) (seq k n).
Proof.
  induction n as [|n IH]; intros k Hr.
  - cbn. destruct (Nat.eqb_spec k r); [reflexivity|lia].
  - change (seq k (S (S n))) with (k :: seq (S k) (S n)). cbn [filter]. destruct (Nat.eqb_spec k r) as [->|N]; cbn [negb].
    + rewrite filter_skip by lia. rewrite <- seq_shift. apply map_ext_in. intros i Hi. apply in_seq in Hi.
      unfold skip. destruct (Nat.ltb_spec i r); [lia|reflexivity].
    + cbn [seq map]. f_equal; [unfold skip; destruct (Nat.ltb_spec k r); lia|]. apply IH. lia.
Qed.

Lemma mat_minor_skip {T} (A : arith T) m n r c : r <= n -> c <= n ->
  mat_minor A m (S n) r c = fill n (fun i j => entry A m (S n) (skip r i) (skip c j)).
Proof.
  intros Hr Hc. unfold mat_minor, fill. rewrite !filter_indices by lia. rewrite flat_map_concat_map, map_map, <- flat_map_concat_map.
  apply flat_map_ext. intros i. now rewrite map_map.
Qed.
