(* ===== verification/TwMatrixProofs.v ===== *)
(** taskweft_nif/standalone/tw_loader.hpp: the matrix helpers compute the
    determinant, product and inverse of linear algebra, when run on the numbers
    of a field. *)

From Stdlib Require Import List.
From mathcomp Require Import boot nmodule rings_modules_and_algebras divalg matrix.
From S2P Require Import TwMatrix.
Set Implicit Arguments.
Unset Strict Implicit.
Unset Printing Implicit Defensive.
Import GRing.Theory.
#[local] Open Scope ring_scope.

(** The arithmetic of a field; the code's test for a singular matrix is the test
    for zero. *)
Definition field_arith (F : fieldType) : arith F := {|
  TwMatrix.zero := 0; TwMatrix.one := 1; TwMatrix.minus_one := -1;
  TwMatrix.add := fun x y => x + y; TwMatrix.sub := fun x y => x - y; TwMatrix.mul := fun x y => x * y;
  TwMatrix.div := fun x y => x / y; TwMatrix.singular := fun x => x == 0
|}.

Section Exact.
Variable F : fieldType.
#[local] Notation A := (field_arith F).

(** The matrix a flat list stands for. *)
Definition matrix_of (n : nat) (m : list F) : 'M[F]_n := \matrix_(i, j) entry A m n i j.

Lemma fold_sum (g : nat -> F) n k x :
  fold_left (fun s i => s + g i) (List.seq k n) x = x + \sum_(i < n) g (k + i)%N.
Proof.
elim: n k x => [|n IH] k x /=; first by rw big_ord0 addr0.
rw IH big_ord_recl addn0 addrA; congr (_ + _).
by apply: eq_bigr => i _; rw addSnnS.
Qed.

Lemma matrix_fill n (f : nat -> nat -> F) : matrix_of n (fill n f) = \matrix_(i, j) f i j.
Proof.
apply/matrixP => i j; rw !mxE /entry.
by apply: nth_fill; apply/ltP.
Qed.

Lemma sign_exp k : mat_sign A k = (-1) ^+ k.
Proof.
rw /mat_sign -signr_odd /=.
have -> : Nat.eqb (PeanoNat.Nat.modulo k 2) 0 = ~~ odd k.
  elim: k {-2}k (leqnn k) => [|k IH] [|[|l]] // Hl.
  have -> : PeanoNat.Nat.modulo l.+2 2 = PeanoNat.Nat.modulo l 2.
    by rw -(PeanoNat.Nat.Div0.mod_add l 1 2) PeanoNat.Nat.add_comm.
  rw IH /= ?negbK //; exact: leq_trans (leqnSn l) Hl.
by case: (odd k); rw ?expr0 ?expr1.
Qed.

Lemma skip_lift n (r : 'I_n.+1) (i : 'I_n) : skip r i = lift r i.
Proof.
rw /skip /= /bump.
have -> : Nat.ltb i r = (i < r)%N by apply/PeanoNat.Nat.ltb_spec0/ltP.
by rw ltnNge; case: (r <= i)%N.
Qed.

Lemma matrix_minor n (m : list F) (r c : 'I_n.+1) :
  matrix_of n (mat_minor A m n.+1 r c) = row' r (col' c (matrix_of n.+1 m)).
Proof.
have le_n (x : 'I_n.+1) : (x <= n)%coq_nat by apply/leP; rw -ltnS.
rw (mat_minor_skip _ _ _ _ _ (le_n r) (le_n c)).
by rw matrix_fill; apply/matrixP => i j; rw !mxE !skip_lift.
Qed.

Lemma det_laplace n (m : list F) : mat_det A n.+3 m =
  fold_left (fun d j => d + (mat_sign A j * List.nth j m 0) * mat_det A n.+2 (mat_minor A m n.+3 0 j)) (List.seq 0 n.+3) 0.
Proof. by []. Qed.

Lemma mat_det_correct n (m : list F) : mat_det A n.+1 m = \det (matrix_of n.+1 m).
Proof.
elim: n m => [|[|n] IH] m; first by rw det_mx11 mxE.
  rw (expand_det_row _ ord0) !big_ord_recl big_ord0 addr0 /cofactor !det_mx11 !mxE /entry /=.
  by rw /bump /= expr0 mul1r expr1 mulN1r mulrN.
rw det_laplace fold_sum add0r (expand_det_row _ ord0).
apply: eq_bigr => j _; rw add0n IH (matrix_minor m ord0 j) /cofactor !mxE /entry /= sign_exp !add0n.
by rw [_ * List.nth _ _ _]mulrC mulrA.
Qed.

Lemma mat_mul_correct n (a b : list F) : matrix_of n (mat_mul_v A a b n) = matrix_of n a *m matrix_of n b.
Proof.
rw matrix_fill; apply/matrixP => i j; rw !mxE fold_sum add0r.
by apply: eq_bigr => k _; rw add0n !mxE.
Qed.

Lemma entry_map n (f : F -> F) (m : list F) i j : f 0 = 0 -> entry A (List.map f m) n i j = f (entry A m n i j).
Proof. by move=> f0; rw /entry /= -{1}f0 List.map_nth. Qed.

Lemma matrix_repeat n k : matrix_of n (repeat 0 k) = 0.
Proof. by apply/matrixP => i j; rw !mxE /entry; apply: List.nth_repeat. Qed.

(** The adjugate over the determinant, as the loops write it. *)
Definition adjugate_over (n : nat) (m : list F) (det : F) : list F :=
  List.map (fun x => x / det)
    (mat_transpose_v A (fill n (fun i j => mat_sign A (i + j)%coq_nat * mat_det A (n - 1)%coq_nat (mat_minor A m n i j))) n).

Lemma mat_inverse_cases n (m : list F) : let det := \det (matrix_of n.+1 m) in
  mat_inverse_v A m n.+1 = if det == 0 then (false, repeat 0 (n.+1 * n.+1)) else (true, adjugate_over n.+1 m det).
Proof. by rw -mat_det_correct. Qed.

Lemma adjugate_over_correct n (m : list F) det : matrix_of n.+2 (adjugate_over n.+2 m det) = det^-1 *: \adj (matrix_of n.+2 m).
Proof.
apply/matrixP => i j; rw 2!mxE entry_map ?mul0r // mulrC mxE; congr (_ * _).
have lt_n (x : 'I_n.+2) : (x < n.+2)%coq_nat by apply/ltP.
rw /mat_transpose_v /entry (nth_fill _ _ _ _ _ (lt_n i) (lt_n j)) /entry (nth_fill _ _ _ _ _ (lt_n j) (lt_n i)).
by rw [(n.+2 - 1)%coq_nat]/= mat_det_correct matrix_minor sign_exp.
Qed.
End Exact.

(** On exact numbers the matrix helpers of the expression nodes compute what
    linear algebra calls the determinant, the transpose and the product, and
    [mat_inverse_v] reports whether the matrix is invertible and returns its
    two-sided inverse, or zeros: for matrices of every size from 2 on, so for
    the 2x2, 3x3 and 4x4 that [mat_dim] admits. *)
Theorem matrix_helpers_correct (F : fieldType) (n : nat) (a b : list F) :
  let Ar := field_arith F in let N := n.+2 in let M := matrix_of N a in let '(ok, inv) := mat_inverse_v Ar a N in
  mat_det Ar N a = \det M /\ matrix_of N (mat_transpose_v Ar a N) = M^T /\
  matrix_of N (mat_mul_v Ar a b N) = M *m matrix_of N b /\
  ok = (M \in unitmx) /\ length inv = (N * N)%N /\
  if ok then matrix_of N inv *m M = 1%:M /\ M *m matrix_of N inv = 1%:M else matrix_of N inv = 0.
Proof.
move=> Ar N M; case E: (mat_inverse_v Ar a N) => [ok inv].
split; first exact: mat_det_correct.
split; first by rw matrix_fill; apply/matrixP => i j; rw !mxE.
split; first exact: mat_mul_correct.
rw unitmxE unitfE -/M; move: E; rw mat_inverse_cases -/M; case: eqVneq => [D|D] E.
  have <- : false = ok := congr1 fst E; have <- : repeat 0 (N * N) = inv := congr1 snd E.
  by rw repeat_length matrix_repeat.
case: E => <- <-; split=> //; split; first by rw length_map fill_length.
by rw adjugate_over_correct -scalemxAl -scalemxAr mul_adj_mx mul_mx_adj scale_scalar_mx mulVf.
Qed.
