(* ===== verification/TwNodes.v ===== *)
(** taskweft_nif/standalone/tw_loader.hpp: the table of expression nodes
    ([kNodeTypes]).

    A node is a function of four values.  Numbers are 64-bit integers or
    binary64; the basic operations, [sqrt], [fmod] and the roundings are those
    of the standard, and the functions whose results depend on the mathematical
    library are the members of [Libm].  A node whose operation is undefined
    (signed overflow, a float that does not fit an integer) ends in
    [Undefined]. *)

From Stdlib Require Import ZArith String Ascii List Bool Lia Floats.SpecFloat Znumtheory.
From S2P Require Import Prelude OrderedMap TwValue TwTemporal TwMatrix.
Import ListNotations.
#[local] Open Scope string_scope.
#[local] Open Scope Z_scope.

(** * Computations

    Values, undefined behaviour, and draws from the random number generator,
    each of which continues with a number. *)

Inductive prog (A : Type) :=
| Ret (a : A)
| Undefined
| Draw (k : spec_float -> prog A).
Arguments Ret {A}. Arguments Undefined {A}. Arguments Draw {A}.

Fixpoint bind {A B} (m : prog A) (f : A -> prog B) : prog B :=
  match m with Ret a => f a | Undefined => Undefined | Draw k => Draw (fun x => bind (k x) f) end.
Declare Scope prog_scope.
Notation "'let!' x := m 'in' k" := (bind m (fun x => k)) (at level 10, x binder, m at level 100, k at level 200) : prog_scope.
#[local] Open Scope prog_scope.

(** The integer an exact result is, when it fits. *)
Definition ret_int (x : Z) : prog TwValue := match int64 x with Some i => Ret (INT i) | None => Undefined end.
Definition ret_float (x : spec_float) : prog TwValue := Ret (FLOAT x).
Definition ret_bool (b : bool) : prog TwValue := Ret (BOOL b).

(** * Arithmetic of doubles *)

Definition fneg := SFopp.
Definition fabs := SFabs.
Definition fsub := SFsub 53 1024.
Definition fmul := SFmul 53 1024.
Definition fdiv := SFdiv 53 1024.
Definition fsqrt := SFsqrt 53 1024.
Definition feq := SFeqb.
Definition f0 : spec_float := S754_zero false.
Definition f1 : spec_float := double 1.
Definition f2 : spec_float := double 2.
Definition half : spec_float := fdiv f1 f2.

Declare Scope double_scope.
Notation "x +f y" := (fadd x y) (at level 50, left associativity) : double_scope.
Notation "x -f y" := (fsub x y) (at level 50, left associativity) : double_scope.
Notation "x *f y" := (fmul x y) (at level 40, left associativity) : double_scope.
Notation "x /f y" := (fdiv x y) (at level 40, left associativity) : double_scope.
Notation "x <f y" := (flt x y) (at level 70) : double_scope.
#[local] Open Scope double_scope.

(** [M_PI] and [M_E]. *)
Definition M_PI : spec_float := S754_finite false 7074237752028440 (-51).
Definition M_E : spec_float := S754_finite false 6121026514868073 (-51).

Definition isnan (x : spec_float) : bool := match x with S754_nan => true | _ => false end.
Definition isinf (x : spec_float) : bool := match x with S754_infinity _ => true | _ => false end.

(** Round the magnitude [m * 2^e], [e < 0], to an integer by [f] of it and
    [2^(-e)]. *)
Definition to_integral (f : Z -> Z -> Z) (x : spec_float) : spec_float :=
  match x with
  | S754_finite s m e => if 0 <=? e then x else binary_normalize 53 1024 (f (cond_Zopp s (Zpos m)) (2 ^ (- e))) 0 s
  | _ => x
  end.
Definition floor : spec_float -> spec_float := to_integral (fun n d => n / d).
Definition ceil (x : spec_float) : spec_float := fneg (floor (fneg x)).
Definition trunc : spec_float -> spec_float := to_integral (fun n d => Z.quot n d).
(** Halves away from zero. *)
Definition round : spec_float -> spec_float := to_integral (fun n d => Z.sgn n * ((2 * Z.abs n + d) / (2 * d))).

(** The exact remainder, with the sign of the dividend. *)
Definition fmod (x y : spec_float) : spec_float :=
  match x, y with
  | S754_nan, _ | _, S754_nan | S754_infinity _, _ | _, S754_zero _ => S754_nan
  | _, S754_infinity _ => x
  | S754_zero _, _ => x
  | S754_finite s m e, S754_finite _ m' e' =>
      let e0 := Z.min e e' in
      binary_normalize 53 1024 (cond_Zopp s (Z.rem (Zpos m * 2 ^ (e - e0)) (Zpos m' * 2 ^ (e' - e0)))) e0 s
  end.

(** [static_cast<int64_t>]. *)
Definition float_to_int (x : spec_float) : prog TwValue :=
  match x with
  | S754_zero _ => Ret (INT 0)
  | S754_finite s m e => ret_int (cond_Zopp s (if 0 <=? e then Zpos m * 2 ^ e else Zpos m / 2 ^ (- e)))
  | _ => Undefined
  end.

Definition fmin (x y : spec_float) : spec_float := if y <f x then y else x.
Definition fclamp (x lo hi : spec_float) : spec_float := if x <f lo then lo else if hi <f x then hi else x.

(** The mathematical library. *)
Class Libm := {
  std_cbrt : spec_float -> spec_float; std_exp : spec_float -> spec_float; std_log : spec_float -> spec_float;
  std_log2 : spec_float -> spec_float; std_log10 : spec_float -> spec_float; std_pow : spec_float -> spec_float -> spec_float;
  std_sin : spec_float -> spec_float; std_cos : spec_float -> spec_float; std_tan : spec_float -> spec_float;
  std_asin : spec_float -> spec_float; std_acos : spec_float -> spec_float; std_atan : spec_float -> spec_float;
  std_atan2 : spec_float -> spec_float -> spec_float;
  std_sinh : spec_float -> spec_float; std_cosh : spec_float -> spec_float; std_tanh : spec_float -> spec_float;
  std_asinh : spec_float -> spec_float; std_acosh : spec_float -> spec_float; std_atanh : spec_float -> spec_float
}.

Definition NodeFn := TwValue -> TwValue -> TwValue -> TwValue -> prog TwValue.

Definition unary (f : spec_float -> spec_float) : NodeFn := fun a _ _ _ => ret_float (f (as_number a)).
Definition binary (f : spec_float -> spec_float -> spec_float) : NodeFn :=
  fun a b _ _ => ret_float (f (as_number a) (as_number b)).

(** An integer operation on two integers, a float operation otherwise. *)
Definition poly (fi : Z -> Z -> prog TwValue) (ff : spec_float -> spec_float -> prog TwValue) : NodeFn :=
  fun a b _ _ => if is_int a && is_int b then fi (as_int a) (as_int b) else ff (as_number a) (as_number b).

(** * Arithmetic, rounding, comparison and logic *)

Definition saturate (v : spec_float) : spec_float := if v <f f0 then f0 else if f1 <f v then f1 else v.

Definition smoothStep : NodeFn := fun a b c _ =>
  let av := as_number a in let bv := as_number b in let cv := as_number c in
  let t := saturate ((cv -f fmin av bv) /f fabs (bv -f av)) in
  ret_float (t *f t *f (double 3 -f f2 *f t)).

Definition arithmetic_nodes : dict NodeFn := [
  ("add", poly (fun x y => ret_int (x + y)) (fun x y => ret_float (x +f y)));
  ("sub", poly (fun x y => ret_int (x - y)) (fun x y => ret_float (x -f y)));
  ("mul", poly (fun x y => ret_int (x * y)) (fun x y => ret_float (x *f y)));
  ("div", poly (fun x y => if y =? 0 then Ret NIL else ret_int (Z.quot x y))
            (fun x y => if feq y f0 then Ret NIL else ret_float (x /f y)));
  ("rem", poly (fun x y => if y =? 0 then Ret (INT 0) else if (x =? - 2 ^ 63) && (y =? -1) then Undefined else Ret (INT (Z.rem x y)))
            (fun x y => ret_float (if feq y f0 then f0 else fmod x y)));
  ("fract", unary (fun v => v -f floor v));
  ("neg", fun a _ _ _ => if is_int a then ret_int (- as_int a) else ret_float (fneg (as_number a)));
  ("abs", fun a _ _ _ => if is_int a then ret_int (Z.abs (as_int a)) else ret_float (fabs (as_number a)));
  ("min", fun a b _ _ => Ret (if value_lt a b then a else b));
  ("max", fun a b _ _ => Ret (if value_gt a b then a else b));
  ("saturate", unary saturate);
  ("smoothStep", smoothStep);
  ("sign", fun a _ _ _ =>
     if is_int a then Ret (INT (Z.sgn (as_int a)))
     else ret_float (if f0 <f as_number a then f1 else if as_number a <f f0 then double (-1) else f0));
  ("trunc", fun a _ _ _ => if is_int a then Ret a else ret_float (trunc (as_number a)));
  ("floor", unary floor);
  ("ceil", unary ceil);
  ("round", unary (fun v => if v <f f0 then fneg (round (fneg v)) else round v))
].

Definition logic_nodes : dict NodeFn := [
  ("eq", fun a b _ _ => ret_bool (value_eq a b));
  ("neq", fun a b _ _ => ret_bool (negb (value_eq a b)));
  ("lt", fun a b _ _ => ret_bool (value_lt a b));
  ("le", fun a b _ _ => ret_bool (value_le a b));
  ("gt", fun a b _ _ => ret_bool (value_gt a b));
  ("ge", fun a b _ _ => ret_bool (value_ge a b));
  ("and", fun a b _ _ => ret_bool (as_bool a && as_bool b));
  ("or", fun a b _ _ => ret_bool (as_bool a || as_bool b));
  ("not", fun a _ _ _ => if is_int a then Ret (INT (Z.lnot (i32 (as_int a)))) else ret_bool (negb (as_bool a)));
  ("xor", fun a b _ _ =>
     if is_int a && is_int b then Ret (INT (Z.lxor (i32 (as_int a)) (i32 (as_int b))))
     else ret_bool (xorb (as_bool a) (as_bool b)));
  ("isNaN", fun a _ _ _ => ret_bool (isnan (as_number a)));
  ("isInf", fun a _ _ _ => ret_bool (isinf (as_number a)))
].

(** * 32-bit integers and conversions *)

Fixpoint ctz_pos (p : positive) : Z := match p with xO p => 1 + ctz_pos p | _ => 0 end.
Fixpoint popcount_pos (p : positive) : Z := match p with xO p => popcount_pos p | xI p => 1 + popcount_pos p | xH => 1 end.

Definition countl_zero (v : Z) : Z := if v =? 0 then 32 else 31 - Z.log2 v.
Definition countr_zero (v : Z) : Z := match v with Zpos p => ctz_pos p | _ => 32 end.
Definition popcount (v : Z) : Z := match v with Zpos p => popcount_pos p | _ => 0 end.

Definition integer_nodes : dict NodeFn := [
  ("asr", fun a b _ _ => Ret (INT (Z.shiftr (i32 (as_int a)) (Z.land (as_int b) 31))));
  ("lsl", fun a b _ _ => Ret (INT (i32 (Z.shiftl (u32 (as_int a)) (Z.land (as_int b) 31)))));
  ("clz", fun a _ _ _ => Ret (INT (countl_zero (u32 (as_int a)))));
  ("ctz", fun a _ _ _ => Ret (INT (countr_zero (u32 (as_int a)))));
  ("popcnt", fun a _ _ _ => Ret (INT (popcount (u32 (as_int a)))));
  ("boolToInt", fun a _ _ _ => Ret (INT (if as_bool a then 1 else 0)));
  ("boolToFloat", fun a _ _ _ => ret_float (if as_bool a then f1 else f0));
  ("intToBool", fun a _ _ _ => ret_bool (negb (as_int a =? 0)));
  ("intToFloat", fun a _ _ _ => ret_float (as_number a));
  ("floatToInt", fun a _ _ _ => float_to_int (as_number a));
  ("floatToBool", fun a _ _ _ => ret_bool (negb (feq (as_number a) f0)))
].

(** * Vectors, quaternions and matrices *)

(** [as_array()[i].as_number()]. *)
Definition num (l : list TwValue) (i : nat) : spec_float := as_number (nth i l NIL).
Definition floats (l : list spec_float) : TwValue := ARRAY (map FLOAT l).

(** The elements of an array with at least [n]. *)
Definition at_least (n : nat) (v : TwValue) : option (list TwValue) :=
  match v with ARRAY l => if (n <=? List.length l)%nat then Some l else None | _ => None end.

Definition pack (n : nat) : NodeFn := fun a b c d => Ret (ARRAY (firstn n [a; b; c; d])).

Definition extract : NodeFn := fun a b _ _ =>
  match a with
  | ARRAY l => let i := u64 (as_int b) in Ret (if i <? Z.of_nat (List.length l) then nth (Z.to_nat i) l NIL else NIL)
  | _ => Ret NIL
  end.

Definition swizzle_nodes : dict NodeFn := [
  ("combine2", pack 2); ("combine3", pack 3); ("combine4", pack 4);
  ("extract2", extract); ("extract3", extract); ("extract4", extract);
  ("extract2x2", extract); ("extract3x3", extract); ("extract4x4", extract);
  ("combine2x2", pack 4)
].

(** [sum += x * y] along two lists of numbers. *)
Definition sum_products (l : list (spec_float * spec_float)) : spec_float :=
  fold_left (fun sum xy => sum +f fst xy *f snd xy) l f0.
Definition squares (l : list TwValue) : list (spec_float * spec_float) := map (fun v => (as_number v, as_number v)) l.
Definition pairs (l l' : list TwValue) : list (spec_float * spec_float) := combine (map as_number l) (map as_number l').

Definition vec_length : NodeFn := fun a _ _ _ =>
  match a with ARRAY l => ret_float (fsqrt (sum_products (squares l))) | _ => ret_float (fabs (as_number a)) end.

Definition dot : NodeFn := fun a b _ _ =>
  match a, b with
  | ARRAY l, ARRAY l' => ret_float (sum_products (pairs l l'))
  | _, _ => ret_float (as_number a *f as_number b)
  end.

Definition normalize : NodeFn := fun a _ _ _ =>
  match a with
  | ARRAY l =>
      let len := fsqrt (sum_products (squares l)) in
      if feq len f0 || isnan len || isinf len then Ret (floats (map (fun _ => f0) l))
      else Ret (floats (map (fun c => as_number c /f len) l))
  | _ => ret_float f1
  end.

Definition cross3 (ax ay az bx by_ bz : spec_float) : list spec_float :=
  [ay *f bz -f az *f by_; az *f bx -f ax *f bz; ax *f by_ -f ay *f bx].

Definition cross : NodeFn := fun a b _ _ =>
  match at_least 3 a, at_least 3 b with
  | Some l, Some l' => Ret (floats (cross3 (num l 0) (num l 1) (num l 2) (num l' 0) (num l' 1) (num l' 2)))
  | _, _ => Ret NIL
  end.

(** The Hamilton product. *)
Definition qmul (a b : list TwValue) : TwValue :=
  let ax := num a 0 in let ay := num a 1 in let az := num a 2 in let aw := num a 3 in
  let bx := num b 0 in let by_ := num b 1 in let bz := num b 2 in let bw := num b 3 in
  floats [aw *f bx +f ax *f bw +f ay *f bz -f az *f by_;
          aw *f by_ +f ay *f bw +f az *f bx -f ax *f bz;
          aw *f bz +f az *f bw +f ax *f by_ -f ay *f bx;
          aw *f bw -f ax *f bx -f ay *f by_ -f az *f bz].

Definition quatMul : NodeFn := fun a b _ _ =>
  match at_least 4 a, at_least 4 b with Some l, Some l' => Ret (qmul l l') | _, _ => Ret NIL end.

Definition quatConjugate : NodeFn := fun a _ _ _ =>
  match at_least 4 a with
  | Some l => Ret (ARRAY [FLOAT (fneg (num l 0)); FLOAT (fneg (num l 1)); FLOAT (fneg (num l 2)); nth 3 l NIL])
  | None => Ret NIL
  end.

(** [a + 2 * (r x (r x a) + rw * (r x a))]. *)
Definition rotate (ax ay az rx ry rz rw : spec_float) : list spec_float :=
  let tx := ry *f az -f rz *f ay in let ty := rz *f ax -f rx *f az in let tz := rx *f ay -f ry *f ax in
  let ux := ry *f tz -f rz *f ty in let uy := rz *f tx -f rx *f tz in let uz := rx *f ty -f ry *f tx in
  [ax +f f2 *f (ux +f rw *f tx); ay +f f2 *f (uy +f rw *f ty); az +f f2 *f (uz +f rw *f tz)].

Definition rotate3D : NodeFn := fun a rot _ _ =>
  match at_least 3 a, at_least 4 rot with
  | Some l, Some r => Ret (floats (rotate (num l 0) (num l 1) (num l 2) (num r 0) (num r 1) (num r 2) (num r 3)))
  | _, _ => Ret NIL
  end.

(** A flat matrix and its dimension, when it has one. *)
Definition matrix_arg (v : TwValue) : option (nat * list spec_float) :=
  match v with
  | ARRAY l => let m := map as_number l in match mat_dim (List.length m) with O => None | n => Some (n, m) end
  | _ => None
  end.

Definition transform : NodeFn := fun a b _ _ =>
  match a, matrix_arg b with
  | ARRAY v, Some (n, m) =>
      if (n =? List.length v)%nat then
        Ret (floats (map (fun i => fold_left (fun sum j => sum +f entry double_arith m n i j *f num v j) (seq 0 n) f0) (seq 0 n)))
      else Ret NIL
  | _, _ => Ret NIL
  end.

Definition with_matrix (k : nat -> list spec_float -> prog TwValue) (v : TwValue) : prog TwValue :=
  match matrix_arg v with Some (n, m) => k n m | None => Ret NIL end.

Definition matMul : NodeFn := fun a b _ _ =>
  match b with
  | ARRAY lb => with_matrix (fun n m =>
      if (List.length lb =? List.length m)%nat then Ret (floats (mat_mul_v double_arith m (map as_number lb) n)) else Ret NIL) a
  | _ => Ret NIL
  end.

Definition inverse : NodeFn := fun a b _ _ =>
  with_matrix (fun n m =>
    let '(ok, inv) := mat_inverse_v double_arith m n in if as_int b =? 1 then ret_bool ok else Ret (floats inv)) a.

(** Translation, rotation and scale as a 4x4 matrix. *)
Definition matCompose : NodeFn := fun a b c _ =>
  match at_least 3 a, at_least 4 b, at_least 3 c with
  | Some t, Some r, Some s =>
      let rx := num r 0 in let ry := num r 1 in let rz := num r 2 in let rw := num r 3 in
      let sx := num s 0 in let sy := num s 1 in let sz := num s 2 in
      Ret (floats [
        sx *f (f1 -f f2 *f (ry *f ry +f rz *f rz)); sy *f f2 *f (rx *f ry -f rz *f rw); sz *f f2 *f (rx *f rz +f ry *f rw); num t 0;
        sx *f f2 *f (rx *f ry +f rz *f rw); sy *f (f1 -f f2 *f (rx *f rx +f rz *f rz)); sz *f f2 *f (ry *f rz -f rx *f rw); num t 1;
        sx *f f2 *f (rx *f rz -f ry *f rw); sy *f f2 *f (ry *f rz +f rx *f rw); sz *f (f1 -f f2 *f (rx *f rx +f ry *f ry)); num t 2;
        f0; f0; f0; f1])
  | _, _, _ => Ret NIL
  end.

Definition vector_nodes : dict NodeFn := [
  ("length", vec_length); ("dot", dot); ("normalize", normalize); ("cross", cross);
  ("quatMul", quatMul); ("quatConjugate", quatConjugate); ("rotate3D", rotate3D); ("transform", transform);
  ("transpose", fun a _ _ _ => with_matrix (fun n m => Ret (floats (mat_transpose_v double_arith m n))) a);
  ("determinant", fun a _ _ _ => with_matrix (fun n m => ret_float (mat_det double_arith n m)) a);
  ("inverse", inverse); ("matMul", matMul); ("matCompose", matCompose)
].

(** * Nodes that call the mathematical library *)

Section Libm.
Context `{Libm}.

Definition transcendental_nodes : dict NodeFn := [
  ("sqrt", unary fsqrt); ("cbrt", unary std_cbrt); ("exp", unary std_exp); ("log", unary std_log);
  ("log2", unary std_log2); ("log10", unary std_log10); ("pow", binary std_pow);
  ("sin", unary std_sin); ("cos", unary std_cos); ("tan", unary std_tan);
  ("asin", unary std_asin); ("acos", unary std_acos); ("atan", unary std_atan); ("atan2", binary std_atan2);
  ("sinh", unary std_sinh); ("cosh", unary std_cosh); ("tanh", unary std_tanh);
  ("asinh", unary std_asinh); ("acosh", unary std_acosh); ("atanh", unary std_atanh);
  ("deg", unary (fun v => v *f (double 180 /f M_PI))); ("rad", unary (fun v => v *f (M_PI /f double 180)));
  ("E", fun _ _ _ _ => ret_float M_E); ("Pi", fun _ _ _ _ => ret_float M_PI);
  ("Tau", fun _ _ _ _ => ret_float (f2 *f M_PI));
  ("Inf", fun _ _ _ _ => ret_float (S754_infinity false)); ("NaN", fun _ _ _ _ => ret_float S754_nan)
].

Definition rotate2D : NodeFn := fun a angle _ _ =>
  match at_least 2 a with
  | Some l =>
      let ax := num l 0 in let ay := num l 1 in
      let s := std_sin (as_number angle) in let cc := std_cos (as_number angle) in
      Ret (floats [ax *f cc -f ay *f s; ax *f s +f ay *f cc])
  | None => Ret NIL
  end.

Definition quatAngleBetween : NodeFn := fun a b _ _ =>
  match at_least 4 a, at_least 4 b with
  | Some l, Some l' =>
      let d := sum_products (firstn 4 (pairs l l')) in
      ret_float (f2 *f std_acos (fclamp d (double (-1)) f1))
  | _, _ => Ret NIL
  end.

Definition quatFromAxisAngle : NodeFn := fun axis angle _ _ =>
  match at_least 3 axis with
  | Some l =>
      let s := std_sin (half *f as_number angle) in let w := std_cos (half *f as_number angle) in
      Ret (floats [num l 0 *f s; num l 1 *f s; num l 2 *f s; w])
  | None => Ret NIL
  end.

Definition quatSlerp : NodeFn := fun a b c _ =>
  match at_least 4 a, at_least 4 b with
  | Some l, Some l' =>
      let t := as_number c in
      let ax := num l 0 in let ay := num l 1 in let az := num l 2 in let aw := num l 3 in
      let bx := num l' 0 in let by_ := num l' 1 in let bz := num l' 2 in let bw := num l' 3 in
      let d := ax *f bx +f ay *f by_ +f az *f bz +f aw *f bw in
      let flip x := if d <f f0 then fneg x else x in
      let d' := flip d in
      let '(ka, kb) :=
        if (double 9995 /f double 10000) <f d' then (f1 -f t, t)
        else let om := std_acos d' in let so := std_sin om in
             (std_sin ((f1 -f t) *f om) /f so, std_sin (t *f om) /f so) in
      Ret (floats [ax *f ka +f flip bx *f kb; ay *f ka +f flip by_ *f kb; az *f ka +f flip bz *f kb; aw *f ka +f flip bw *f kb])
  | _, _ => Ret NIL
  end.

Definition kEps : spec_float := f1 /f double 100000000.

Definition lerp (t : spec_float) (av bv : list TwValue) : TwValue :=
  floats (map (fun xy => (f1 -f t) *f fst xy +f t *f snd xy) (pairs av bv)).

(** [rx, ry, rz] divided by their length. *)
Definition unit3 (rx ry rz : spec_float) : list spec_float :=
  let rl := fsqrt (rx *f rx +f ry *f ry +f rz *f rz) in [rx /f rl; ry /f rl; rz /f rl].

(** A unit vector perpendicular to [x y z]. *)
Definition perpendicular (x y z : spec_float) : list spec_float :=
  let '(rx, ry) := if fabs x <f (double 9 /f double 10) then (f1, f0) else (f0, f1) in
  let dp := rx *f x +f ry *f y +f f0 *f z in
  unit3 (rx -f dp *f x) (ry -f dp *f y) (f0 -f dp *f z).

Definition nf (l : list spec_float) (i : nat) : spec_float := nth i l f0.

(** The two directions turned into each other by [t], and scaled to [L]. *)
Definition slerp2 (t L d : spec_float) (ah bh : list spec_float) : TwValue :=
  let theta := std_acos d in
  let theta := if (nf ah 0 *f nf bh 1 -f nf ah 1 *f nf bh 0) <f f0 then fneg theta else theta in
  let ang := t *f theta in
  let s := std_sin ang in let cc := std_cos ang in
  floats [(nf ah 0 *f cc -f nf ah 1 *f s) *f L; (nf ah 0 *f s +f nf ah 1 *f cc) *f L].

Definition slerp3 (t L d : spec_float) (ah bh : list spec_float) : TwValue :=
  let r := if d <f (double (-1) +f kEps) then perpendicular (nf ah 0) (nf ah 1) (nf ah 2)
           else match cross3 (nf ah 0) (nf ah 1) (nf ah 2) (nf bh 0) (nf bh 1) (nf bh 2) with
                | [rx; ry; rz] => unit3 rx ry rz | _ => [] end in
  let ang := t *f std_acos d in
  let qs := std_sin (half *f ang) in let qw := std_cos (half *f ang) in
  floats (map (fun x => x *f L)
    (rotate (nf ah 0) (nf ah 1) (nf ah 2) (nf r 0 *f qs) (nf r 1 *f qs) (nf r 2 *f qs) qw)).

Definition slerp : NodeFn := fun a b c _ =>
  match a, b with
  | ARRAY av, ARRAY bv =>
      let n := List.length av in
      if negb (n =? List.length bv)%nat || (negb (n =? 2)%nat && negb (n =? 3)%nat) then Ret NIL
      else
        let t := as_number c in
        let la := fsqrt (sum_products (squares av)) in let lb := fsqrt (sum_products (squares bv)) in
        if (la <f kEps) || (lb <f kEps) then Ret (lerp t av bv)
        else
          let ah := map (fun v => as_number v /f la) av in let bh := map (fun v => as_number v /f lb) bv in
          let d := fclamp (sum_products (combine ah bh)) (double (-1)) f1 in
          let L := (f1 -f t) *f la +f t *f lb in
          if (n =? 2)%nat then Ret (slerp2 t L d ah bh)
          else if (f1 -f kEps) <f d then Ret (lerp t av bv)
          else Ret (slerp3 t L d ah bh)
  | _, _ => Ret NIL
  end.

Definition rotation_nodes : dict NodeFn := [
  ("rotate2D", rotate2D); ("quatAngleBetween", quatAngleBetween); ("quatFromAxisAngle", quatFromAxisAngle);
  ("quatSlerp", quatSlerp); ("slerp", slerp)
].

Definition kNodeTypes : dict NodeFn :=
  (arithmetic_nodes ++ transcendental_nodes ++ logic_nodes ++ integer_nodes ++ swizzle_nodes ++ rotation_nodes ++ vector_nodes)%list.

(** [math/quatFromAngles]: half-angle quaternions per axis, composed in order. *)
Definition axis_quat (axis : ascii) (a : spec_float) : list TwValue :=
  let s := std_sin (half *f a) in let c := std_cos (half *f a) in
  map FLOAT (if Ascii.eqb axis "x" then [s; f0; f0; c] else if Ascii.eqb axis "y" then [f0; s; f0; c] else [f0; f0; s; c]).

Definition quat_from_angles (order : string) (x y z : spec_float) : TwValue :=
  let axis i := match String.get i order with Some c => c | None => "z"%char end in
  let angle c := if Ascii.eqb c "x" then x else if Ascii.eqb c "y" then y else z in
  let q i := axis_quat (axis i) (angle (axis i)) in
  match qmul (q 0%nat) (q 1%nat) with ARRAY q01 => qmul q01 (q 2%nat) | _ => NIL end.
End Libm.

(** taskweft_nif/standalone/tw_loader.hpp: the integer nodes of the table compute
    what their names say, within the width they say. *)

(** * Counting bits *)

(** The number of set bits of [v] below position [n]. *)
Fixpoint bits_set (n : nat) (v : Z) : Z :=
  match n with O => 0 | S n => Z.b2z (Z.testbit v (Z.of_nat n)) + bits_set n v end.

Lemma bits_set_double n v b : bits_set (S n) (2 * v + Z.b2z b) = Z.b2z b + bits_set n v.
Proof.
  induction n as [|n IH]; [cbn [bits_set]; change (Z.of_nat 0) with 0; now rewrite Z.testbit_0_r|]. remember (S n) as m. cbn [bits_set]. rewrite IH. subst m. cbn [bits_set].
  rewrite Nat2Z.inj_succ, Z.testbit_succ_r by lia. lia.
Qed.

Lemma popcount_bits p : forall n, Zpos p < 2 ^ Z.of_nat n -> popcount_pos p = bits_set n (Zpos p).
Proof.
  induction p as [p IH|p IH|]; intros [|n] Hn; try (cbn in Hn; lia); rewrite Nat2Z.inj_succ, Z.pow_succ_r in Hn by lia.
  - change (Zpos p~1) with (2 * Zpos p + Z.b2z true). rewrite bits_set_double. cbn [popcount_pos]. rewrite (IH n) by lia. reflexivity.
  - change (Zpos p~0) with (2 * Zpos p + Z.b2z false). rewrite bits_set_double. cbn [popcount_pos]. rewrite (IH n) by lia. reflexivity.
  - rewrite (bits_set_double n 0 true : bits_set (S n) 1 = _). cbn [popcount_pos]. enough (bits_set n 0 = 0) as -> by reflexivity.
    clear. induction n as [|n IH]; [reflexivity|]. cbn [bits_set]. now rewrite IH, Z.testbit_0_l.
Qed.

Lemma ctz_divides p : (2 ^ ctz_pos p | Zpos p) /\ ~ (2 ^ (ctz_pos p + 1) | Zpos p) /\ 0 <= ctz_pos p.
Proof.
  induction p as [p _|p (D & N & P)|]; cbn [ctz_pos].
  - split; [exists (Zpos p~1); lia|split; [|lia]]. intros (k & E). cbn in E. lia.
  - split; [|split; [|lia]].
    + rewrite Z.pow_add_r by lia. change (Zpos p~0) with (2 * Zpos p). apply Z.mul_divide_mono_l. exact D.
    + intros Hd. apply N. replace (1 + ctz_pos p + 1) with (1 + (ctz_pos p + 1)) in Hd by lia. rewrite Z.pow_add_r in Hd by lia.
      change (Zpos p~0) with (2 ^ 1 * Zpos p) in Hd. apply Z.mul_divide_cancel_l in Hd; [exact Hd|lia].
  - split; [exists 1; lia|split; [|lia]]. intros (k & E). cbn in E. lia.
Qed.

Lemma clz_ok v : 0 <= v < 2 ^ 32 -> 0 <= countl_zero v <= 32 /\ v < 2 ^ (32 - countl_zero v) /\ (v <> 0 -> 2 ^ (31 - countl_zero v) <= v).
Proof.
  intros Hv. unfold countl_zero. destruct (Z.eqb_spec v 0) as [->|N]; [cbn; lia|].
  assert (L : Z.log2 v < 32) by (apply Z.log2_lt_pow2; lia). pose proof (Z.log2_nonneg v). pose proof (Z.log2_spec v ltac:(lia)) as [S1 S2].
  replace (32 - (31 - Z.log2 v)) with (Z.succ (Z.log2 v)) by lia. replace (31 - (31 - Z.log2 v)) with (Z.log2 v) by lia. lia.
Qed.

Lemma ctz_ok v : 0 <= v < 2 ^ 32 -> 0 <= countr_zero v <= 32 /\ (2 ^ countr_zero v | v) /\ (v <> 0 -> ~ (2 ^ (countr_zero v + 1) | v)).
Proof.
  intros Hv. unfold countr_zero. destruct v as [|p|p]; [|destruct (ctz_divides p) as (D & N & P)|lia].
  - split; [lia|split; [exists 0; lia|contradiction]].
  - repeat split; auto. apply Z.divide_pos_le in D; [|lia]. destruct (Z.le_gt_cases (ctz_pos p) 32); [assumption|].
    assert (2 ^ 32 <= 2 ^ ctz_pos p) by (apply Z.pow_le_mono_r; lia). lia.
Qed.

Lemma popcount_ok v : 0 <= v < 2 ^ 32 -> popcount v = bits_set 32 v.
Proof.
  intros Hv. destruct v as [|p|p]; [reflexivity| |lia]. apply (popcount_bits p 32). change (Z.of_nat 32) with 32. apply Hv.
Qed.

(** * The nodes *)

Section Integers.
Context `{Libm}.

(** The value a table entry computes of integers. *)
Definition int_node (nm : string) (a b : Z) : prog TwValue :=
  match dict_find nm kNodeTypes with Some f => f (INT a) (INT b) NIL NIL | None => Ret NIL end.

Lemma swrap_range w x : 1 <= w -> - 2 ^ (w - 1) <= swrap w x < 2 ^ (w - 1).
Proof.
  intros Hw. unfold swrap. assert (E : 2 ^ w = 2 * 2 ^ (w - 1)) by (rewrite <- Z.pow_succ_r by lia; f_equal; lia).
  pose proof (Z.mod_pos_bound (x + 2 ^ (w - 1)) (2 ^ w)). assert (0 < 2 ^ (w - 1)) by (apply Z.pow_pos_nonneg; lia). lia.
Qed.

Lemma i32_range x : - 2 ^ 31 <= swrap 32 x < 2 ^ 31.
Proof. apply (swrap_range 32 x). lia. Qed.

Lemma swrap_mod w x : 1 <= w -> swrap w x mod 2 ^ w = x mod 2 ^ w.
Proof.
  intros Hw. unfold swrap. rewrite Zminus_mod_idemp_l. f_equal. lia.
Qed.
End Integers.

(** The integer nodes within their widths.  Addition, subtraction and
    multiplication give the exact result when it fits 64 bits and are undefined
    otherwise; the 32-bit shifts take their count modulo 32, [asr] divides
    rounding down and [lsl] keeps the product modulo 2^32, both within 32 signed
    bits; [clz], [ctz] and [popcnt] count the leading zeros, the trailing zeros
    and the set bits of the low 32 bits. *)
Theorem integer_nodes_correct `{Libm} (a b : Z) :
  let v := a mod 2 ^ 32 in let n := b mod 32 in
  (forall nm op, In (nm, op) [("add", Z.add); ("sub", Z.sub); ("mul", Z.mul)] ->
     int_node nm a b = if (- 2 ^ 63 <=? op a b) && (op a b <? 2 ^ 63) then Ret (INT (op a b)) else Undefined) /\
  (int_node "asr" a b = Ret (INT (swrap 32 a / 2 ^ n)) /\ - 2 ^ 31 <= swrap 32 a / 2 ^ n < 2 ^ 31) /\
  (exists r, int_node "lsl" a b = Ret (INT r) /\ - 2 ^ 31 <= r < 2 ^ 31 /\ r mod 2 ^ 32 = a * 2 ^ n mod 2 ^ 32) /\
  (exists k, int_node "clz" a b = Ret (INT k) /\ 0 <= k <= 32 /\ v < 2 ^ (32 - k) /\ (v <> 0 -> 2 ^ (31 - k) <= v)) /\
  (exists k, int_node "ctz" a b = Ret (INT k) /\ 0 <= k <= 32 /\ (2 ^ k | v) /\ (v <> 0 -> ~ (2 ^ (k + 1) | v))) /\
  int_node "popcnt" a b = Ret (INT (bits_set 32 v)).
Proof.
  intros v n. assert (En : Z.land b 31 = n) by (change 31 with (Z.ones 5); now rewrite Z.land_ones by lia).
  assert (Hn : 0 <= n < 32) by (apply Z.mod_pos_bound; lia). assert (Hv : 0 <= v < 2 ^ 32) by (apply Z.mod_pos_bound; lia).
  unfold int_node. split; [|split; [|split; [|split; [|split]]]].
  - intros nm op [E|[E|[E|[]]]]; injection E as <- <-; cbn; unfold ret_int, int64; destruct (_ && _); reflexivity.
  - change (dict_find "asr" kNodeTypes) with (Some (fun a b (_ _ : TwValue) => Ret (INT (Z.shiftr (swrap 32 (as_int a)) (Z.land (as_int b) 31))))).
    cbn [as_int]. rewrite En, Z.shiftr_div_pow2 by lia. split; [reflexivity|]. pose proof (i32_range a) as R.
    assert (P : 1 <= 2 ^ n) by (change 1 with (2 ^ 0); apply Z.pow_le_mono_r; lia).
    split; [apply Z.div_le_lower_bound; [lia|nia]|apply Z.div_lt_upper_bound; [lia|nia]].
  - eexists. split; [reflexivity|]. cbn [as_int]. rewrite En, Z.shiftl_mul_pow2 by lia. split; [apply i32_range|].
    rewrite swrap_mod by lia. unfold wrap. apply Zmult_mod_idemp_l.
  - eexists. split; [reflexivity|]. cbn [as_int]. unfold wrap. fold v. apply clz_ok. exact Hv.
  - eexists. split; [reflexivity|]. cbn [as_int]. unfold wrap. fold v. apply ctz_ok. exact Hv.
  - change (Ret (INT (popcount v)) = Ret (INT (bits_set 32 v))). do 2 f_equal. now apply popcount_ok.
Qed.
