(* ===== verification/TwLoader.v ===== *)
(** taskweft_nif/standalone/tw_loader.hpp: expressions, actions, methods and the
    loading of a domain from its JSON value.

    Evaluating an expression can draw random numbers and be undefined, so the
    loaded actions and methods are computations ([prog]).  The enums a domain
    declares are passed along by the code and read by no evaluation. *)

From Stdlib Require Import ZArith String Ascii List Bool Lia.
From Stdlib Require Import Floats.SpecFloat.
From S2P Require Import Prelude OrderedMap TwValue TwJson TwRebac TwState TwDomain TwTemporal TwPointer TwNodes.
Import ListNotations.
#[local] Open Scope string_scope.
#[local] Open Scope Z_scope.
#[local] Open Scope prog_scope.
#[local] Open Scope double_scope.

(** * Expressions *)

(** The text after the last slash. *)
Fixpoint after_slash (s : string) : string :=
  match s with
  | EmptyString => EmptyString
  | String c r => if has_char "/" r then after_slash r else if Ascii.eqb c "/" then r else s
  end.

Definition node_type (expr : Dict) : string :=
  match dict_find "type" expr with Some (STRING s) => after_slash s | _ => EmptyString end.

Definition angle_order (expr : Dict) : string :=
  match dict_find "configuration" expr with
  | Some (DICT cfg) =>
      match dict_find "order" cfg with
      | Some (STRING o) => if existsb (String.eqb o) ["xyz"; "xzy"; "yxz"; "yzx"; "zxy"; "zyx"] then o else "yxz"
      | _ => "yxz"
      end
  | _ => "yxz"
  end.

Section Eval.
Context `{Libm}.
Variable params : Params.
Variable state : TwState.

(** [get(k)] on the evaluations of the members. *)
Definition getk (members : dict (prog TwValue)) (k : string) : prog TwValue :=
  match dict_find k members with Some m => m | None => Ret NIL end.

Fixpoint get_all (members : dict (prog TwValue)) (ks : list string) : prog (list TwValue) :=
  match ks with
  | [] => Ret []
  | k :: ks => let! v := getk members k in let! vs := get_all members ks in Ret (v :: vs)
  end.

(** [expr] and what each of its members evaluates to, of which only those the
    node asks for are run, in the order it asks. *)
Definition eval_node (expr : Dict) (members : dict (prog TwValue)) : prog TwValue :=
  let getk := getk members in
  let type := node_type expr in
  if is_empty type then Ret NIL
  else if String.eqb type "get" then
    match dict_find "pointer" expr with
    | None => Ret NIL
    | Some p => let '(var, key) := parse_pointer (as_string p) params in Ret (if is_empty var then NIL else get_nested state var key)
    end
  else if String.eqb type "check" && dict_count "rel" expr then
    match rebac_graph state with
    | None => ret_bool false
    | Some g =>
        let rel := match dict_find "rel" expr with Some (STRING s) => base_expr s | Some e => e | None => NIL end in
        let! subject := getk "subject" in
        let! object := getk "object" in
        ret_bool (check_expr g (Z.to_nat (rebac_fuel state)) (as_string subject) rel (as_string object))
    end
  else if String.eqb type "combine3x3" then
    let! vs := get_all members ["a"; "b"; "c"; "d"; "e"; "f"; "g"; "h"; "i"] in Ret (ARRAY vs)
  else if String.eqb type "combine4x4" then
    let! vs := get_all members ["a"; "b"; "c"; "d"; "e"; "f"; "g"; "h"; "i"; "j"; "k"; "l"; "m"; "n"; "o"; "p"] in Ret (ARRAY vs)
  else if String.eqb type "quatFromAngles" then
    let! x := getk "x" in let! y := getk "y" in let! z := getk "z" in
    Ret (quat_from_angles (angle_order expr) (as_number x) (as_number y) (as_number z))
  else if String.eqb type "select" then
    let! cond := getk "condition" in if as_bool cond then getk "a" else getk "b"
  else if String.eqb type "switch" then
    let! sel := getk "selection" in
    match dict_find (show_int (as_int sel)) members with Some m => m | None => getk "default" end
  else if String.eqb type "clamp" then
    let! a := getk "a" in let! lo := getk "b" in let! hi := getk "c" in
    Ret (if value_lt a lo then lo else if value_gt a hi then hi else a)
  else if String.eqb type "mix" then
    let! a := getk "a" in let! b := getk "b" in
    let! t := match dict_find "c" members, dict_find "t" members with
              | Some m, _ => let! v := m in Ret (as_number v)
              | None, Some m => let! v := m in Ret (as_number v)
              | None, None => Ret f0
              end in
    ret_float ((f1 -f t) *f as_number a +f t *f as_number b)
  else if String.eqb type "random" then Draw (fun x => ret_float x)
  else
    let! a := getk "a" in let! b := getk "b" in let! c := getk "c" in let! d := getk "d" in
    match dict_find type kNodeTypes with Some f => f a b c d | None => Ret NIL end.

Fixpoint eval_expr (expr : TwValue) : prog TwValue :=
  match expr with
  | DICT d => if dict_count "type" d then eval_node d (map (fun kv => (fst kv, eval_expr (snd kv))) d) else Ret (resolve_param expr params)
  | _ => Ret (resolve_param expr params)
  end.
End Eval.

(** * Actions and methods *)

Fixpoint build_params_from (p : Params) (names : list TwValue) (args : list TwValue) : Params :=
  match names, args with
  | n :: names, a :: args => build_params_from (dict_set (as_string n) a p) names args
  | _, _ => p
  end.
Definition build_params : list TwValue -> list TwValue -> Params := build_params_from [].

Definition run_bind (state : TwState) (params : Params) (bind : TwValue) : Params :=
  match bind with
  | DICT bd =>
      match dict_find "name" bd, dict_find "pointer" bd with
      | Some nm, Some ptr =>
          let '(var, key) := parse_pointer (as_string ptr) params in
          if is_empty var then params else dict_set (as_string nm) (get_nested state var key) params
      | _, _ => params
      end
  | _ => params
  end.
Definition run_binds (binds : list TwValue) (params : Params) (state : TwState) : Params :=
  fold_left (run_bind state) binds params.

(** [get_arr]. *)
Definition get_arr (def : Dict) (k : string) : list TwValue :=
  match dict_find k def with Some (ARRAY a) => a | _ => [] end.

Definition is_true_value (v : TwValue) : bool := is_bool v && as_bool v.

Definition expand_subtask (params : Params) (def : TwValue) : list TwTask :=
  match def with
  | ARRAY (h :: arr) => [Call (mkCall (as_string (resolve_param h params)) (map (fun a => resolve_param a params) arr))]
  | _ => []
  end.
Definition expand_subtasks (defs : list TwValue) (params : Params) : list TwTask := flat_map (expand_subtask params) defs.

Definition ActionProg := TwState -> list TwValue -> prog (option TwState).
Definition MethodProg := TwState -> list TwValue -> prog (option (list TwTask)).

Section Builders.
Context `{Libm}.

Fixpoint run_checks (checks : list TwValue) (params : Params) (state : TwState) : prog bool :=
  match checks with
  | [] => Ret true
  | DICT cs :: checks =>
      match dict_find "eval" cs with
      | Some e => let! r := eval_expr params state e in if is_true_value r then run_checks checks params state else Ret false
      | None => Ret false
      end
  | _ :: _ => Ret false
  end.

(** The body of an action: guards and writes, in order. *)
Fixpoint run_body (body : list TwValue) (params : Params) (state : TwState) : prog (option TwState) :=
  match body with
  | [] => Ret (Some state)
  | DICT s :: body =>
      match dict_find "eval" s, dict_find "pointer/set" s with
      | Some e, _ =>
          let! r := eval_expr params state e in if is_true_value r then run_body body params state else Ret None
      | None, Some ptr =>
          let '(var, key) := parse_pointer (as_string ptr) params in
          if is_empty var then Ret None
          else match dict_find "value" s with
               | None => Ret None
               | Some e => let! v := eval_expr params state e in run_body body params (set_nested state var key v)
               end
      | None, None => Ret None
      end
  | _ :: _ => Ret None
  end.

Definition build_action (def : Dict) : ActionProg := fun state args =>
  let params := run_binds (get_arr def "bind") (build_params (get_arr def "params") args) state in
  run_body (get_arr def "body") params (copy state).

(** The part an alternative of a method and a branch of a scan share. *)
Definition run_branch (alt : Dict) (params : Params) (state : TwState) : prog (option (list TwTask)) :=
  let params := run_binds (get_arr alt "bind") params state in
  let! ok := run_checks (get_arr alt "check") params state in
  Ret (if ok then Some (expand_subtasks (get_arr alt "subtasks") params) else None).

Definition build_method_alt (param_names : list TwValue) (alt : Dict) : MethodProg := fun state args =>
  run_branch alt (build_params param_names args) state.

Definition string_member (d : Dict) (k : string) : string :=
  match dict_find k d with Some v => as_string v | None => EmptyString end.

Definition dicts (l : list TwValue) : list Dict := flat_map (fun v => match v with DICT d => [d] | _ => [] end) l.

(** The first key for which the branch holds. *)
Fixpoint scan_keys (state : TwState) (br : Dict) (ks : list string) : prog (option (list TwTask)) :=
  match ks with
  | [] => Ret None
  | k :: ks =>
      let! r := run_branch br [("_key", STRING k)] state in
      match r with Some subtasks => Ret (Some subtasks) | None => scan_keys state br ks end
  end.

(** Each branch over all keys before the next. *)
Fixpoint scan_branches (state : TwState) (ks : list string) (brs : list Dict) : prog (option (list TwTask)) :=
  match brs with
  | [] => Ret None
  | br :: brs =>
      let! r := scan_keys state br ks in
      match r with Some subtasks => Ret (Some subtasks) | None => scan_branches state ks brs end
  end.

Definition build_scan_method (scan_def : Dict) : MethodProg := fun state _ =>
  let over_var := string_member scan_def "over" in
  let recurse_name := string_member scan_def "recurse" in
  let ks := match dict_find over_var (vars state) with Some (DICT d) => keys d | _ => [] end in
  let! r := scan_branches state ks (dicts (get_arr scan_def "branches")) in
  match r with
  | Some subtasks => Ret (Some (if is_empty recurse_name then subtasks else subtasks ++ [Call (mkCall recurse_name [])])%list)
  | None =>
      let done := get_arr scan_def "done" in
      let! ok := match done with [] => Ret true | _ => run_checks done [] state end in
      Ret (if ok then Some (expand_subtasks (get_arr scan_def "done_subtasks") []) else None)
  end.
End Builders.

(** * Domains *)

Record LDomain := mkLDomain {
  l_actions : dict ActionProg;
  l_task_methods : dict (list MethodProg);
  l_action_durations : dict string
}.

(** [l_state] is [None] for the null pointer of a failed load. *)
Record TwLoaded := mkLoaded {
  l_domain : LDomain;
  l_state : option TwState;
  l_tasks : list TwTask;
  l_enums : Dict
}.

Definition empty_ldomain : LDomain := mkLDomain [] [] [].
Definition not_loaded : TwLoaded := mkLoaded empty_ldomain None [] [].

Definition kKnownKeys : list string :=
  ["@context"; "@type"; "name"; "description"; "version"; "source"; "enums"; "variables"; "actions"; "methods"; "todo_list";
   "capabilities"].

Definition get_dict (d : Dict) (k : string) : Dict := match dict_find k d with Some (DICT m) => m | _ => [] end.

Definition load_variable (s : TwState) (var_def : TwValue) : TwState :=
  match var_def with
  | DICT vd =>
      match dict_find "name" vd, dict_find "init" vd with
      | Some nm, Some (DICT init) => fold_left (fun s kv => set_nested s (as_string nm) (STRING (fst kv)) (snd kv)) init s
      | Some nm, Some init => set_var s (as_string nm) init
      | _, _ => s
      end
  | _ => s
  end.

(** An entity's capabilities: an edge each, and a variable. *)
Definition load_capability (entity : string) (gs : TwReBACGraph * TwState) (cv : TwValue) : TwReBACGraph * TwState :=
  let cap := as_string cv in
  (add_edge (fst gs) entity cap "HAS_CAPABILITY",
   set_nested (snd gs) ("_cap_" ++ cap)%string (STRING entity) (BOOL true)).

Definition load_entity (gs : TwReBACGraph * TwState) (ep : string * TwValue) : TwReBACGraph * TwState :=
  match snd ep with ARRAY caps => fold_left (load_capability (fst ep)) caps gs | _ => gs end.

(** The explicit graph, merged. *)
Definition load_graph (gm : Dict) (g : TwReBACGraph) : TwReBACGraph :=
  fold_left (fun g dp => define g (fst dp) (snd dp)) (get_dict gm "definitions") (fold_left add_json_edge (get_arr gm "edges") g).

Definition load_capabilities (caps : Dict) (s : TwState) : TwReBACGraph * TwState :=
  let '(g, s) := fold_left load_entity (get_dict caps "entities") (empty_graph, s) in
  (load_graph (get_dict caps "graph") g, s).

Definition with_graph (s : TwState) (g : TwReBACGraph) : TwState :=
  mkState (vars s) (Some g) (rebac_fuel s) (sig_hash_valid s) (sig_hash_cache s).

(** One item of the todo list; [None] fails the load. *)
Definition multigoal_bindings (m : Dict) : TwGoal :=
  flat_map (fun vp => match snd vp with
                      | DICT kd => map (fun kp => mkBinding (fst vp) (fst kp) (snd kp)) kd
                      | _ => []
                      end) m.

Definition goal_binding (entry : TwValue) : list TwGoalBinding :=
  match entry with
  | DICT ed =>
      match dict_find "pointer" ed, dict_find "eq" ed with
      | Some ptr, Some eq =>
          let '(var, key) := parse_pointer (as_string ptr) [] in
          if is_empty var then [] else [mkBinding var (to_string key) eq]
      | _, _ => []
      end
  | _ => []
  end.

Definition load_task (task_def : TwValue) : option TwTask :=
  match task_def with
  | DICT td =>
      match dict_find "multigoal" td, dict_find "goal" td with
      | Some (DICT m), _ => match multigoal_bindings m with [] => None | bs => Some (MultiGoal bs) end
      | _, Some (ARRAY es) => match flat_map goal_binding es with [] => None | bs => Some (Goal bs) end
      | _, _ => None
      end
  | ARRAY (h :: arr) => Some (Call (mkCall (as_string h) arr))
  | _ => None
  end.

(** The tasks up to the first malformed item, and whether there is none. *)
Fixpoint load_tasks (defs : list TwValue) : list TwTask * bool :=
  match defs with
  | [] => ([], true)
  | d :: defs => match load_task d with
                 | Some t => let '(ts, ok) := load_tasks defs in (t :: ts, ok)
                 | None => ([], false)
                 end
  end.

Section Load.
Context `{Libm}.

Definition load_action (dom : LDomain) (np : string * TwValue) : LDomain :=
  match snd np with
  | DICT adef =>
      mkLDomain (dict_set (fst np) (build_action adef) (l_actions dom)) (l_task_methods dom)
        (match dict_find "duration" adef with
         | Some (STRING iso) => dict_set (fst np) iso (l_action_durations dom)
         | _ => l_action_durations dom
         end)
  | _ => dom
  end.

Definition load_method (dom : LDomain) (np : string * TwValue) : LDomain :=
  let set fns := mkLDomain (l_actions dom) (dict_set (fst np) fns (l_task_methods dom)) (l_action_durations dom) in
  match snd np with
  | DICT gd =>
      match dict_find "scan" gd, dict_find "alternatives" gd with
      | Some (DICT scan), _ => set [build_scan_method scan]
      | _, Some (ARRAY alts) => set (map (build_method_alt (get_arr gd "params")) (dicts alts))
      | _, _ => dom
      end
  | _ => dom
  end.

Definition load_domain (data : TwValue) : TwLoaded :=
  match data with
  | DICT d =>
      if negb (forallb (fun kv => existsb (String.eqb (fst kv)) kKnownKeys) d) then not_loaded
      else
        let s := fold_left load_variable (get_arr d "variables") empty_state in
        let '(g, s) := load_capabilities (get_dict d "capabilities") s in
        let dom := fold_left load_action (get_dict d "actions") empty_ldomain in
        let dom := fold_left load_method (get_dict d "methods") dom in
        let '(tasks, ok) := load_tasks (get_arr d "todo_list") in
        mkLoaded dom (if ok then Some (with_graph s g) else None) tasks (get_dict d "enums")
  | _ => not_loaded
  end.

Definition load_json (json : string) : res TwLoaded :=
  match parse_json_str json with Ok v => Ok (load_domain v) | Throw e => Throw e end.

(** [for (k, v : b) a[k] = v]. *)
Definition merge {V} (a b : dict V) : dict V := fold_left (fun a kv => dict_set (fst kv) (snd kv) a) b a.

(** [load_file_pair] on what the two files load as. *)
Definition merge_loaded (dom prob : TwLoaded) : TwLoaded :=
  match l_state dom, l_state prob with
  | Some s, Some sp =>
      mkLoaded
        (mkLDomain (merge (l_actions (l_domain dom)) (l_actions (l_domain prob)))
                   (merge (l_task_methods (l_domain dom)) (l_task_methods (l_domain prob)))
                   (l_action_durations (l_domain dom)))
        (Some (mkState (merge (vars s) (vars sp)) (rebac_graph s) (rebac_fuel s) (sig_hash_valid s) (sig_hash_cache s)))
        (match l_tasks prob with [] => l_tasks dom | ts => ts end)
        (l_enums dom)
  | _, _ => not_loaded
  end.
End Load.

(** * Plans as text *)

Definition plan_entry (c : TwCall) : string :=
  ("[" ++ String quote (name c ++ String quote (String.concat "" (map (fun a => ", " ++ String quote (to_string a ++ String quote "")) (args c)) ++ "]")))%string.

Definition plan_to_json (plan : list TwCall) : string :=
  ("[" ++ String.concat ", " (map plan_entry plan) ++ "]")%string.

(** * Running a loaded domain

    The planners are modelled for actions and methods that are functions; these
    are the loaded ones where they are.  An action that draws a random number or
    is undefined has no result here, while the planners would run it: what is
    shown of plans is for domains without such actions
    ([TwLoaderProofs.draw_free], [TwMcExecutor.functional]). *)
Definition settled {A} (m : prog (option A)) : option A := match m with Ret r => r | _ => None end.

Definition domain_of (d : LDomain) : TwDomain :=
  mkDomain (map (fun na => (fst na, fun s args => settled (snd na s args))) (l_actions d))
    (map (fun nm => (fst nm, map (fun m s args => settled (m s args)) (snd nm))) (l_task_methods d))
    (l_action_durations d).
