(* ===== verification/TwLoaderProofs.v ===== *)
(** taskweft_nif/standalone/tw_loader.hpp: what a loaded domain means.  Actions
    write only the variables they name, guards hold in every execution and every
    plan, capabilities become the graph that decides them, and which documents
    load at all. *)

From Stdlib Require Import ZArith String Ascii List Bool Lia.
From Stdlib Require Import Floats.SpecFloat.
From S2P Require Import Prelude OrderedMap TwValue TwJson TwRebac TwRebacProofs TwState TwDomain.
From S2P Require Import TwPlanner TwPlannerProofs TwPlannerTree TwPlannerTreeProofs TwPlanTheorems.
From S2P Require Import TwTemporal TwPointer TwNodes TwLoader.
Import ListNotations.
#[local] Open Scope string_scope.
#[local] Open Scope list_scope.
#[local] Existing Instance Travel.fnv | 100.

(** * Outcomes of computations *)

Inductive outcome {A} : prog A -> A -> Prop :=
| outcome_ret a : outcome (Ret a) a
| outcome_draw k x a : outcome (k x) a -> outcome (Draw k) a.

Lemma outcome_ret_inv {A} (a b : A) : outcome (Ret a) b -> b = a.
Proof. now inversion 1. Qed.

Lemma outcome_bind {A B} (m : prog A) (f : A -> prog B) b : outcome (bind m f) b <-> exists a, outcome m a /\ outcome (f a) b.
Proof.
  split.
  - induction m as [a| |k IH]; cbn [bind]; intros H; [eauto using outcome_ret|inversion H|].
    inversion H as [|k' x b' Hx]; subst. destruct (IH x Hx) as (a & Ha & Hb). exists a. split; [now apply outcome_draw with x|exact Hb].
  - intros (a & Ha & Hb). induction Ha; cbn [bind]; [exact Hb|]. apply outcome_draw with x. auto.
Qed.

(** Split the hypotheses about outcomes. *)
Ltac outcomes :=
  repeat match goal with
  | H : outcome (bind _ _) _ |- _ => apply outcome_bind in H as (? & ? & H)
  | H : outcome (Ret _) _ |- _ => apply outcome_ret_inv in H; subst
  | H : outcome (ret_bool _) _ |- _ => apply outcome_ret_inv in H; subst
  | H : outcome Undefined _ |- _ => inversion H
  end.

Lemma find_members {A B} (f : A -> B) k (d : dict A) : dict_find k (map (fun kv => (fst kv, f (snd kv))) d) = option_map f (dict_find k d).
Proof. induction d as [|[k' v] d IH]; [reflexivity|]. cbn [map dict_find fst snd]. destruct (String.eqb k k'); [reflexivity|exact IH]. Qed.

(** * Actions *)

Section Actions.
Context `{Libm}.

(** The variables a body writes. *)
Definition step_writes (params : Params) (step : TwValue) : list string :=
  match step with
  | DICT s => match dict_find "eval" s, dict_find "pointer/set" s with
              | None, Some ptr => [fst (parse_pointer (as_string ptr) params)]
              | _, _ => []
              end
  | _ => []
  end.
Definition writes (params : Params) (body : list TwValue) : list string := flat_map (step_writes params) body.

(** The effect of a body that succeeds. *)
Record framed (ws : list string) (s s' : TwState) : Prop := {
  fr_graph : rebac_graph s' = rebac_graph s;
  fr_fuel : rebac_fuel s' = rebac_fuel s;
  fr_vars : forall v, ~ In v ws -> dict_find v (vars s') = dict_find v (vars s)
}.

Lemma framed_refl ws s : framed ws s s.
Proof. now split. Qed.

Lemma framed_set ws s s' var key v : In var ws -> framed ws (set_nested s var key v) s' -> framed ws s s'.
Proof.
  intros Hi [F1 F2 F3]. split; [exact F1|exact F2|]. intros x Hx. rewrite F3 by exact Hx. cbn [set_nested vars]. rewrite dict_find_set.
  destruct (String.eqb_spec x var) as [->|]; [contradiction|reflexivity].
Qed.

Lemma framed_incl ws ws' s s' : incl ws ws' -> framed ws s s' -> framed ws' s s'.
Proof. intros I [F1 F2 F3]. split; auto. Qed.

Lemma run_body_framed body params : forall s s', outcome (run_body body params s) (Some s') -> framed (writes params body) s s'.
Proof.
  induction body as [|step body IH]; intros s s' O; cbn [run_body] in O.
  { outcomes. injection O as ->. apply framed_refl. }
  unfold writes. cbn [flat_map]. destruct step as [| | | | | |d]; outcomes; try discriminate. cbn [step_writes].
  destruct (dict_find "eval" d) as [e|].
  - outcomes. destruct (is_true_value _); outcomes; [|discriminate]. apply IH. exact O.
  - destruct (dict_find "pointer/set" d) as [ptr|]; outcomes; try discriminate.
    destruct (parse_pointer (as_string ptr) params) as [var key] eqn:P. cbn [fst app].
    destruct (is_empty var); outcomes; try discriminate. destruct (dict_find "value" d) as [e|]; outcomes; try discriminate.
    eapply framed_set; [now left|]. eapply framed_incl; [|apply IH; exact O]. intros y Hy. now right.
Qed.

Definition action_writes (adef : Dict) (s : TwState) (args : list TwValue) : list string :=
  writes (run_binds (get_arr adef "bind") (build_params (get_arr adef "params") args) s) (get_arr adef "body").

Lemma build_action_framed adef s args s' : outcome (build_action adef s args) (Some s') -> framed (action_writes adef s args) s s'.
Proof. unfold build_action, copy. apply run_body_framed. Qed.

Definition text (params : Params) (t : string) : string := as_string (resolve_param (STRING t) params).

(** What the guard evaluates to. *)
Lemma eval_guard params s e rel subj obj : node_type e = "check" ->
  dict_find "rel" e = Some (STRING rel) -> dict_find "subject" e = Some (STRING subj) -> dict_find "object" e = Some (STRING obj) ->
  eval_expr params s (DICT e) =
  ret_bool match rebac_graph s with
           | Some g => check_expr g (Z.to_nat (rebac_fuel s)) (text params subj) (base_expr rel) (text params obj)
           | None => false
           end.
Proof.
  intros Ht Hr Hs Ho. cbn [eval_expr]. assert (dict_count "type" e = true) as ->.
  { unfold node_type in Ht. unfold dict_count. destruct (dict_find "type" e); [reflexivity|discriminate]. }
  unfold eval_node. rewrite Ht. assert (dict_count "rel" e = true) as -> by (unfold dict_count; now rewrite Hr).
  cbn [String.eqb Ascii.eqb Bool.eqb is_empty andb]. rewrite Hr. unfold getk. rewrite !find_members, Hs, Ho. cbn [option_map eval_expr bind].
  destruct (rebac_graph s); reflexivity.
Qed.

Lemma run_body_app pre params : forall post s s', outcome (run_body (pre ++ post) params s) (Some s') ->
  exists s1, outcome (run_body pre params s) (Some s1) /\ outcome (run_body post params s1) (Some s').
Proof.
  induction pre as [|step pre IH]; intros post s s' O; [exists s; split; [constructor|exact O]|]. cbn [app run_body] in *.
  destruct step as [| | | | | |d]; outcomes; try discriminate. destruct (dict_find "eval" d) as [e|].
  - apply outcome_bind in O as (v & Hv & O). destruct (is_true_value v) eqn:T; outcomes; [|discriminate].
    destruct (IH _ _ _ O) as (s1 & O1 & O2). exists s1. split; [|exact O2]. apply outcome_bind. exists v. now rewrite T.
  - destruct (dict_find "pointer/set" d) as [ptr|]; outcomes; try discriminate.
    destruct (parse_pointer (as_string ptr) params) as [var key]. destruct (is_empty var); outcomes; try discriminate.
    destruct (dict_find "value" d) as [e|]; [|outcomes; discriminate]. apply outcome_bind in O as (v & Hv & O).
    destruct (IH _ _ _ O) as (s1 & O1 & O2). exists s1. split; [|exact O2]. apply outcome_bind. eauto.
Qed.

(** A step that is a guard: what it evaluates is true when the body goes on. *)
Lemma run_body_eval g e post params s s' : dict_find "eval" g = Some e -> outcome (run_body (DICT g :: post) params s) (Some s') ->
  outcome (eval_expr params s e) (BOOL true) /\ outcome (run_body post params s) (Some s').
Proof.
  intros Ee O. cbn [run_body] in O. rewrite Ee in O. apply outcome_bind in O as (v & Hv & O).
  destruct v as [|b| | | | |]; try (cbn in O; outcomes; discriminate). destruct b; [now split|]. cbn in O. outcomes. discriminate.
Qed.
End Actions.

(** * Executions *)

(** The commands run one after the other, each with a possible result. *)
Inductive executes (dom : LDomain) : TwState -> list TwCall -> TwState -> Prop :=
| executes_nil s : executes dom s [] s
| executes_cons s c a s1 plan s2 : dict_find (name c) (l_actions dom) = Some a -> outcome (a s (args c)) (Some s1) ->
    executes dom s1 plan s2 -> executes dom s (c :: plan) s2.

Lemma settled_outcome {A} (m : prog (option A)) a : settled m = Some a -> outcome m (Some a).
Proof. destruct m; cbn; intros E; try discriminate. subst. constructor. Qed.

(** A plan for the domain's functions is an execution of the loaded domain. *)
Lemma solves_executes dom bl s ts plan s' : solves (domain_of dom) bl s ts plan s' -> executes dom s plan s'.
Proof.
  induction 1; auto; [constructor|]. cbn [domain_of actions] in H.
  rewrite (find_members (fun (a : ActionProg) s args => settled (a s args))) in H.
  destruct (dict_find (name c) (l_actions dom)) as [a|] eqn:Ea; [|discriminate]. injection H as <-.
  econstructor; [exact Ea|apply settled_outcome; eassumption|assumption].
Qed.

Lemma executes_app dom s p1 p2 s' : executes dom s (p1 ++ p2) s' <-> exists s1, executes dom s p1 s1 /\ executes dom s1 p2 s'.
Proof.
  revert s. induction p1 as [|c p1 IH]; intros s; cbn [app].
  - split; [intros X; exists s; split; [constructor|exact X]|]. intros (s1 & X1 & X2). now inversion X1; subst.
  - split.
    + inversion 1 as [|? ? a s1 ? ? Ea O X]; subst. apply IH in X as (s2 & X1 & X2). exists s2. split; [econstructor; eauto|exact X2].
    + intros (s2 & X1 & X2). inversion X1 as [|? ? a s1 ? ? Ea O X]; subst. econstructor; eauto. apply IH. eauto.
Qed.

(** Actions and methods that are functions: they draw no random numbers and are
    defined everywhere. *)
Definition settles {A} (m : prog A) : Prop := exists r, m = Ret r.
Definition draw_free (dom : LDomain) : Prop :=
  (forall nm a s args, dict_find nm (l_actions dom) = Some a -> settles (a s args)) /\
  (forall nm ms m s args, dict_find nm (l_task_methods dom) = Some ms -> In m ms -> settles (m s args)).

Section Executions.
Context `{Libm}.
Variable dom : LDomain.

(** Every action of the domain was built from a definition. *)
Definition all_built : Prop := forall nm a, dict_find nm (l_actions dom) = Some a -> exists def, a = build_action def.

Lemma executes_framed s plan s' : executes dom s plan s' -> all_built -> rebac_graph s' = rebac_graph s /\ rebac_fuel s' = rebac_fuel s.
Proof.
  intros X B. induction X as [|s c a s1 plan s2 Ea O X IH]; [auto|]. destruct (B _ _ Ea) as (def & ->).
  destruct (build_action_framed _ _ _ _ O) as [F1 F2 _]. destruct IH. split; congruence.
Qed.

(** Where a command of an execution ran, and what its guards evaluated to. *)
Definition guarded (adef : Dict) (c : TwCall) (s0 s1 : TwState) : Prop :=
  let params := run_binds (get_arr adef "bind") (build_params (get_arr adef "params") (args c)) s0 in
  forall pre g e post, get_arr adef "body" = pre ++ DICT g :: post -> dict_find "eval" g = Some e ->
  exists sm, outcome (run_body pre params s0) (Some sm) /\ outcome (eval_expr params sm e) (BOOL true) /\
    outcome (run_body post params sm) (Some s1).

Lemma action_guarded adef c s0 s1 : outcome (build_action adef s0 (args c)) (Some s1) -> guarded adef c s0 s1.
Proof.
  intros O pre g e post Eb Ee. unfold build_action, copy in O. rewrite Eb in O.
  destruct (run_body_app _ _ _ _ _ O) as (sm & O1 & O2). destruct (run_body_eval _ _ _ _ _ _ Ee O2) as [O3 O4]. eauto.
Qed.

Lemma executes_guarded adef s p1 c p2 s' : executes dom s (p1 ++ c :: p2) s' ->
  dict_find (name c) (l_actions dom) = Some (build_action adef) ->
  exists s0 s1, executes dom s p1 s0 /\ outcome (build_action adef s0 (args c)) (Some s1) /\ executes dom s1 p2 s' /\ guarded adef c s0 s1.
Proof.
  intros X Ec. apply executes_app in X as (s0 & X1 & X2). inversion X2 as [|? ? a s1 ? ? Ea O X3]; subst.
  assert (a = build_action adef) as -> by congruence. exists s0, s1. split; [exact X1|]. split; [exact O|]. split; [exact X3|]. now apply action_guarded.
Qed.

(** A guard on a relation named by a text, between two texts of the parameters. *)
Lemma guard_granted params s sm e rel subj obj g : graph_ok g -> rebac_graph s = Some g -> rebac_fuel s = 8%Z ->
  rebac_graph sm = rebac_graph s -> rebac_fuel sm = rebac_fuel s -> node_type e = "check" ->
  dict_find "rel" e = Some (STRING rel) -> dict_find "subject" e = Some (STRING subj) -> dict_find "object" e = Some (STRING obj) ->
  outcome (eval_expr params sm (DICT e)) (BOOL true) -> granted g 8 rel (text params subj) (text params obj).
Proof.
  intros Ok Eg Ef Egm Efm Ht Hr Hs Ho O. rewrite (eval_guard _ _ _ _ _ _ Ht Hr Hs Ho), Egm, Efm, Eg, Ef in O.
  apply outcome_ret_inv in O. change 8%nat with (Z.to_nat 8). apply check_granted; [exact Ok|].
  destruct (check_expr _ _ _ _ _); [reflexivity|discriminate].
Qed.
End Executions.

(** * What is loaded *)

Section Loading.
Context `{Libm}.

Lemma load_actions_find nm acts : NoDup (keys acts) -> forall dom,
  dict_find nm (l_actions (fold_left load_action acts dom)) =
  match dict_find nm acts with Some (DICT adef) => Some (build_action adef) | _ => dict_find nm (l_actions dom) end.
Proof.
  induction acts as [|[k v] acts IH]; intros ND dom; [reflexivity|]. apply NoDup_cons_iff in ND as [Hk ND]. cbn [fst] in Hk. cbn [fold_left dict_find].
  rewrite (IH ND). destruct (String.eqb_spec nm k) as [->|N].
  - apply dict_find_none in Hk. rewrite Hk. destruct v; try reflexivity. cbn [load_action snd fst l_actions]. now rewrite dict_find_set, String.eqb_refl.
  - assert (E : dict_find nm (l_actions (load_action dom (k, v))) = dict_find nm (l_actions dom)).
    { destruct v; try reflexivity. cbn [load_action snd fst l_actions]. rewrite dict_find_set. destruct (String.eqb_spec nm k); [contradiction|reflexivity]. }
    now rewrite E.
Qed.

Lemma load_actions_built acts : forall dom, all_built dom -> all_built (fold_left load_action acts dom).
Proof.
  induction acts as [|[k v] acts IH]; intros dom B; [exact B|]. apply IH. destruct v as [| | | | | |def]; try exact B.
  intros nm a. cbn [load_action snd fst l_actions]. rewrite dict_find_set. destruct (String.eqb nm k); [intros [= <-]; eauto|apply B].
Qed.

Lemma load_durations_find nm acts : NoDup (keys acts) -> forall dom,
  dict_find nm (l_action_durations (fold_left load_action acts dom)) =
  match dict_find nm acts with
  | Some (DICT adef) => match dict_find "duration" adef with Some (STRING iso) => Some iso | _ => dict_find nm (l_action_durations dom) end
  | _ => dict_find nm (l_action_durations dom)
  end.
Proof.
  induction acts as [|[k v] acts IH]; intros ND dom; [reflexivity|]. apply NoDup_cons_iff in ND as [Hk ND]. cbn [fst] in Hk. cbn [fold_left dict_find].
  rewrite (IH ND). destruct (String.eqb_spec nm k) as [->|N].
  - apply dict_find_none in Hk. rewrite Hk. destruct v as [| | | | | |adef]; try reflexivity. cbn [load_action snd fst l_action_durations].
    destruct (dict_find "duration" adef) as [[]|]; try reflexivity. now rewrite dict_find_set, String.eqb_refl.
  - assert (E : dict_find nm (l_action_durations (load_action dom (k, v))) = dict_find nm (l_action_durations dom)).
    { destruct v as [| | | | | |adef]; try reflexivity. cbn [load_action snd fst l_action_durations]. destruct (dict_find "duration" adef) as [[]|]; try reflexivity.
      rewrite dict_find_set. destruct (String.eqb_spec nm k); [contradiction|reflexivity]. }
    now rewrite E.
Qed.

(** The methods a group of the document stands for. *)
Definition group_methods (group : TwValue) : option (list MethodProg) :=
  match group with
  | DICT gd =>
      match dict_find "scan" gd, dict_find "alternatives" gd with
      | Some (DICT scan), _ => Some [build_scan_method scan]
      | _, Some (ARRAY alts) => Some (map (build_method_alt (get_arr gd "params")) (dicts alts))
      | _, _ => None
      end
  | _ => None
  end.

Lemma load_method_group dom k v : load_method dom (k, v) =
  match group_methods v with
  | Some fns => mkLDomain (l_actions dom) (dict_set k fns (l_task_methods dom)) (l_action_durations dom)
  | None => dom
  end.
Proof. destruct v as [| | | | | |gd]; try reflexivity. cbn. destruct (dict_find "scan" gd) as [[]|], (dict_find "alternatives" gd) as [[]|]; reflexivity. Qed.

Lemma load_methods_find nm groups : NoDup (keys groups) -> forall dom,
  dict_find nm (l_task_methods (fold_left load_method groups dom)) =
  match dict_find nm groups with
  | Some group => match group_methods group with Some fns => Some fns | None => dict_find nm (l_task_methods dom) end
  | None => dict_find nm (l_task_methods dom)
  end.
Proof.
  induction groups as [|[k v] groups IH]; intros ND dom; [reflexivity|]. apply NoDup_cons_iff in ND as [Hk ND]. cbn [fst] in Hk. cbn [fold_left dict_find].
  rewrite (IH ND), load_method_group. apply dict_find_none in Hk. destruct (String.eqb_spec nm k) as [->|N].
  - rewrite Hk. destruct (group_methods v); [|reflexivity]. cbn [l_task_methods]. now rewrite dict_find_set, String.eqb_refl.
  - assert (E : forall fns, dict_find nm (dict_set k fns (l_task_methods dom)) = dict_find nm (l_task_methods dom)).
    { intros fns. rewrite dict_find_set. destruct (String.eqb_spec nm k); [contradiction|reflexivity]. }
    destruct (group_methods v); cbn [l_task_methods]; [now rewrite E|reflexivity].
Qed.

Lemma load_methods_actions groups : forall dom,
  l_actions (fold_left load_method groups dom) = l_actions dom /\
  l_action_durations (fold_left load_method groups dom) = l_action_durations dom.
Proof.
  induction groups as [|[k v] groups IH]; intros dom; [split; reflexivity|]. cbn [fold_left]. destruct (IH (load_method dom (k, v))) as [-> ->].
  rewrite load_method_group. destruct (group_methods v); split; reflexivity.
Qed.

Lemma load_actions_methods acts : forall dom, l_task_methods (fold_left load_action acts dom) = l_task_methods dom.
Proof. induction acts as [|[k v] acts IH]; intros dom; [reflexivity|]. cbn [fold_left]. rewrite IH. destruct v; reflexivity. Qed.
End Loading.

(** * Capabilities *)

Definition capability_edge (entity : string) (cv : TwValue) : TwEdge := mkEdge entity (as_string cv) HAS_CAPABILITY "HAS_CAPABILITY".

Definition entity_edges (ep : string * TwValue) : list TwEdge :=
  match snd ep with ARRAY caps => map (capability_edge (fst ep)) caps | _ => [] end.

(** The edges the document's explicit graph lists. *)
Definition json_edge (ev : TwValue) : list TwEdge :=
  match ev with
  | DICT em =>
      match dict_find "subject" em, dict_find "object" em, dict_find "rel" em with
      | Some s, Some o, Some r => [mkEdge (as_string s) (as_string o) (parse_rel (as_string r)) (as_string r)]
      | _, _, _ => []
      end
  | _ => []
  end.

(** [g'] is [g] with the edges [es] added. *)
Definition extends (g g' : TwReBACGraph) (es : list TwEdge) : Prop := edges g' = edges g ++ es /\ (built g -> built g').

Lemma extends_refl g : extends g g [].
Proof. split; [now rewrite app_nil_r|auto]. Qed.

Lemma extends_trans g g1 g2 es es' : extends g g1 es -> extends g1 g2 es' -> extends g g2 (es ++ es').
Proof. intros [E1 B1] [E2 B2]. split; [now rewrite E2, E1, app_assoc|auto]. Qed.

Lemma extends_fold {A S} (graph : S -> TwReBACGraph) (f : S -> A -> S) (es : A -> list TwEdge) :
  (forall st x, extends (graph st) (graph (f st x)) (es x)) -> forall l st, extends (graph st) (graph (fold_left f l st)) (flat_map es l).
Proof.
  intros Hf. induction l as [|x l IH]; intros st; [apply extends_refl|]. cbn [fold_left flat_map]. eapply extends_trans; [apply Hf|apply IH].
Qed.

Lemma extends_entity gs ep : extends (fst gs) (fst (load_entity gs ep)) (entity_edges ep).
Proof.
  unfold load_entity, entity_edges. destruct (snd ep) as [| | | | |caps|]; try apply extends_refl.
  replace (map (capability_edge (fst ep)) caps) with (flat_map (fun cv => [capability_edge (fst ep) cv]) caps) by (induction caps; cbn; congruence).
  apply (extends_fold fst). intros st cv. split; [reflexivity|]. intros B. now apply built_edge.
Qed.

Lemma extends_json g ev : extends g (add_json_edge g ev) (json_edge ev).
Proof.
  unfold add_json_edge, json_edge. destruct ev as [| | | | | |em]; try apply extends_refl.
  destruct (dict_find "subject" em), (dict_find "object" em), (dict_find "rel" em); try apply extends_refl.
  split; [reflexivity|]. intros B. now apply built_edge.
Qed.

Lemma extends_definitions defs : forall g, extends g (fold_left (fun g dp => define g (fst dp) (snd dp)) defs g) [].
Proof.
  induction defs as [|dp defs IH]; intros g; [apply extends_refl|]. cbn [fold_left]. change (@nil TwEdge) with (@nil TwEdge ++ []).
  eapply extends_trans; [|apply IH]. split; [cbn; now rewrite app_nil_r|]. intros B. now apply built_define.
Qed.

Definition document_edges (caps : Dict) : list TwEdge :=
  flat_map entity_edges (get_dict caps "entities") ++ flat_map json_edge (get_arr (get_dict caps "graph") "edges").

Lemma capabilities_graph caps s : let g := fst (load_capabilities caps s) in edges g = document_edges caps /\ built g.
Proof.
  cbv zeta. unfold load_capabilities. pose proof (extends_fold fst load_entity entity_edges extends_entity (get_dict caps "entities") (empty_graph, s)) as E1.
  destruct (fold_left load_entity _ _) as [g1 s1]. cbn [fst] in *. unfold load_graph.
  pose proof (extends_fold (fun g => g) add_json_edge json_edge extends_json (get_arr (get_dict caps "graph") "edges") g1) as E2.
  pose proof (extends_trans _ _ _ _ _ E1 (extends_trans _ _ _ _ _ E2 (extends_definitions (get_dict (get_dict caps "graph") "definitions") _))) as [E B].
  rewrite app_nil_r in E. split; [exact E|apply B; constructor].
Qed.

(** The capability variables. *)
Lemma get_set_true s x k x' k' : get_nested s x k = BOOL true \/ (x = x' /\ to_string k = to_string k') ->
  get_nested (set_nested s x' k' (BOOL true)) x k = BOOL true.
Proof.
  unfold get_nested, set_nested. cbn [vars]. rewrite dict_find_set. destruct (String.eqb_spec x x') as [->|N].
  - rewrite dict_find_set. destruct (String.eqb_spec (to_string k) (to_string k')) as [->|Nk]; [reflexivity|].
    intros [Hg|[_ E]]; [|contradiction]. destruct (dict_find x' (vars s)) as [[| | | | | |d]|]; try discriminate. exact Hg.
  - intros [Hg|[E _]]; [exact Hg|contradiction].
Qed.

Definition cap_true (s : TwState) (entity cap : string) : Prop := get_nested s ("_cap_" ++ cap) (STRING entity) = BOOL true.

Lemma cap_true_keep e c entity caps : forall gs, cap_true (snd gs) e c -> cap_true (snd (fold_left (load_capability entity) caps gs)) e c.
Proof.
  induction caps as [|cv caps IH]; intros gs Hc; [exact Hc|]. apply IH. apply get_set_true. now left.
Qed.

Lemma cap_true_listed entity caps c : In c (map as_string caps) -> forall gs, cap_true (snd (fold_left (load_capability entity) caps gs)) entity c.
Proof.
  induction caps as [|cv caps IH]; [contradiction|]. intros [<-|Hi] gs; cbn [fold_left]; [|now apply IH].
  apply cap_true_keep. apply get_set_true. now right.
Qed.

Definition listed (ents : Dict) (entity cap : string) : Prop := exists caps, In (entity, ARRAY caps) ents /\ In cap (map as_string caps).

Lemma cap_true_entities ents e c : forall gs, cap_true (snd gs) e c \/ listed ents e c -> cap_true (snd (fold_left load_entity ents gs)) e c.
Proof.
  induction ents as [|[k v] ents IH]; intros gs [Hc|Hl].
  - exact Hc.
  - destruct Hl as (? & [] & _).
  - apply IH. left. unfold load_entity. destruct v; auto. now apply cap_true_keep.
  - destruct Hl as (caps & [E|Hi] & Hc); cbn [fold_left]; apply IH; [left|right; now exists caps].
    injection E as -> ->. unfold load_entity. cbn [fst snd]. now apply cap_true_listed.
Qed.

(** Without other edges a granted capability is a listed one. *)
Lemma granted_listed g ents fuel entity cap : edges g = flat_map entity_edges ents ->
  granted g (S fuel) "HAS_CAPABILITY" entity cap <-> listed ents entity cap.
Proof.
  intros Ee. assert (I : forall e, In e (edges g) <-> exists ep, In ep ents /\ In e (entity_edges ep)) by (intros e; rewrite Ee; apply in_flat_map).
  split.
  - intros (n & x & _ & C & [(e & He & Es & Eo & _)|[E _]]); [|discriminate].
    assert (x = entity) as ->.
    { destruct C as [|n e' y He' Hr _]; [reflexivity|]. apply I in He' as ([k v] & _ & He'). unfold entity_edges in He'. cbn [snd fst] in He'.
      destruct v; try contradiction. apply in_map_iff in He' as (cv & <- & _). discriminate. }
    apply I in He as ([k v] & Hi & He). unfold entity_edges in He. cbn [snd fst] in He. destruct v as [| | | | |caps|]; try contradiction.
    apply in_map_iff in He as (cv & <- & Hc). cbn in Es, Eo. subst. exists caps. split; [exact Hi|]. now apply in_map.
  - intros (caps & Hi & Hc). apply in_map_iff in Hc as (cv & <- & Hc). exists 0, entity. split; [lia|split; [constructor|]]. left.
    exists (capability_edge entity cv). split; [|now repeat split]. apply I. exists (entity, ARRAY caps). split; [exact Hi|]. now apply in_map.
Qed.

(** * Variables *)

(** The name a variable declaration sets. *)
Definition var_name (v : TwValue) : list string :=
  match v with
  | DICT vd => match dict_find "name" vd, dict_find "init" vd with Some nm, Some _ => [as_string nm] | _, _ => [] end
  | _ => []
  end.

Definition declares (v : TwValue) (x : string) (init : TwValue) : Prop := exists vd nm,
  v = DICT vd /\ dict_find "name" vd = Some nm /\ as_string nm = x /\ dict_find "init" vd = Some init.

(** An initial value that is stored as it is; an empty object declares nothing. *)
Definition storable (init : TwValue) : Prop := match init with DICT i => i <> [] /\ NoDup (keys i) | _ => True end.

Definition members_of (s : TwState) (x : string) : Dict := match dict_find x (vars s) with Some (DICT d) => d | _ => [] end.

Lemma find_set_nested s x k v y : dict_find y (vars (set_nested s x k v)) =
  if String.eqb y x then Some (DICT (dict_set (to_string k) v (members_of s x))) else dict_find y (vars s).
Proof. unfold set_nested. cbn [vars]. now rewrite dict_find_set. Qed.

Lemma fold_nested_other x y init : x <> y -> forall s,
  dict_find y (vars (fold_left (fun s kv => set_nested s x (STRING (fst kv)) (snd kv)) init s)) = dict_find y (vars s).
Proof.
  intros N. induction init as [|kv init IH]; intros s; [reflexivity|]. cbn [fold_left]. rewrite IH, find_set_nested.
  destruct (String.eqb_spec y x); [congruence|reflexivity].
Qed.

Lemma fold_nested_set x init : init <> [] -> forall s, NoDup (keys (members_of s x ++ init)) ->
  dict_find x (vars (fold_left (fun s kv => set_nested s x (STRING (fst kv)) (snd kv)) init s)) = Some (DICT (members_of s x ++ init)).
Proof.
  induction init as [|[k v] init IH]; intros Hn s ND; [contradiction|]. cbn [fold_left fst snd].
  assert (Hk : ~ In k (keys (members_of s x))).
  { unfold keys in *. rewrite map_app in ND. cbn [map fst] in ND. apply NoDup_remove_2 in ND. intros Hi. apply ND. apply in_or_app. now left. }
  assert (M : members_of (set_nested s x (STRING k) v) x = members_of s x ++ [(k, v)]).
  { unfold members_of at 1. rewrite find_set_nested, String.eqb_refl. cbn [to_string]. now rewrite dict_set_new. }
  destruct init as [|kv init].
  - cbn [fold_left]. rewrite find_set_nested, String.eqb_refl. cbn [to_string]. now rewrite dict_set_new.
  - rewrite IH; [|discriminate|]; rewrite M, <- app_assoc; [reflexivity|exact ND].
Qed.

Lemma load_variable_other v y s : ~ In y (var_name v) -> dict_find y (vars (load_variable s v)) = dict_find y (vars s).
Proof.
  destruct v as [| | | | | |vd]; try reflexivity. cbn [load_variable var_name]. destruct (dict_find "name" vd) as [nm|]; [|reflexivity].
  destruct (dict_find "init" vd) as [init|]; [|reflexivity]. cbn [In]. intros N.
  assert (N' : as_string nm <> y) by tauto. destruct init; try (cbn [set_var vars]; rewrite dict_find_set; destruct (String.eqb_spec y (as_string nm)); [congruence|reflexivity]).
  now apply fold_nested_other.
Qed.

Lemma load_variable_declared v x init s : declares v x init -> storable init -> dict_find x (vars s) = None ->
  dict_find x (vars (load_variable s v)) = Some init.
Proof.
  intros (vd & nm & -> & En & <- & Ei) St Nn. cbn [load_variable]. rewrite En, Ei.
  destruct init as [| | | | | |i]; try (cbn [set_var vars]; rewrite dict_find_set, String.eqb_refl; reflexivity).
  destruct St as [Hi Hk]. assert (M : members_of s (as_string nm) = []) by (unfold members_of; now rewrite Nn).
  rewrite (fold_nested_set _ _ Hi); rewrite M; [reflexivity|exact Hk].
Qed.

Lemma variables_other l y : forall s, ~ In y (flat_map var_name l) -> dict_find y (vars (fold_left load_variable l s)) = dict_find y (vars s).
Proof.
  induction l as [|v l IH]; intros s N; [reflexivity|]. cbn [flat_map] in N. rewrite in_app_iff in N. cbn [fold_left]. rewrite IH by tauto.
  apply load_variable_other. tauto.
Qed.

Lemma NoDup_app_apart {A} (l l' : list A) x : NoDup (l ++ l') -> In x l -> ~ In x l'.
Proof.
  induction l as [|y l IH]; [contradiction|]. cbn [app]. intros ND. apply NoDup_cons_iff in ND as [Hy ND]. intros [->|Hi]; [|now apply IH].
  intros Hx. apply Hy. apply in_or_app. now right.
Qed.

Lemma variables_declared l x init v : In v l -> declares v x init -> storable init -> NoDup (flat_map var_name l) -> forall s,
  dict_find x (vars s) = None -> dict_find x (vars (fold_left load_variable l s)) = Some init.
Proof.
  intros Hi D St. assert (Hx : In x (var_name v)) by (destruct D as (vd & nm & -> & En & <- & Ei); cbn [var_name]; rewrite En, Ei; now left).
  induction l as [|w l IH]; intros ND s Nn; [destruct Hi|]. cbn [flat_map fold_left] in *. destruct Hi as [->|Hi].
  - rewrite variables_other; [now apply load_variable_declared|]. intros Hl. destruct D as (vd & nm & -> & En & <- & Ei). cbn [var_name] in ND. rewrite En, Ei in ND.
    now apply NoDup_cons_iff in ND as [ND _].
  - apply IH; [exact Hi|now apply NoDup_app_remove_l in ND|]. rewrite load_variable_other; [exact Nn|]. intros Hw.
    apply (NoDup_app_apart _ _ x ND Hw). apply in_flat_map. eauto.
Qed.

(** Loading capabilities leaves the other variables alone. *)
Lemma capabilities_other caps s x : String.prefix "_cap_" x = false -> dict_find x (vars (snd (load_capabilities caps s))) = dict_find x (vars s).
Proof.
  intros Hp. assert (C : forall c, x <> ("_cap_" ++ c)%string) by (intros c ->; cbn in Hp; now destruct c).
  assert (F : forall ents gs, dict_find x (vars (snd (fold_left load_entity ents gs))) = dict_find x (vars (snd gs))).
  { induction ents as [|[k v] ents IH]; intros gs; [reflexivity|]. cbn [fold_left]. rewrite IH. unfold load_entity. destruct v as [| | | | |l|]; try reflexivity.
    cbn [snd fst]. revert gs. induction l as [|c l IHl]; intros gs; [reflexivity|]. cbn [fold_left]. rewrite IHl. cbn [load_capability snd].
    rewrite find_set_nested. destruct (String.eqb_spec x ("_cap_" ++ as_string c)%string) as [E|]; [now apply C in E|reflexivity]. }
  unfold load_capabilities. specialize (F (get_dict caps "entities") (empty_graph, s)). destruct (fold_left load_entity _ _) as [g s']. exact F.
Qed.

(** * A document to load *)

Module Gate.
(** A mathematical library for the examples, which call none of it. *)
Definition libm : Libm := {|
  std_cbrt := fun x => x; std_exp := fun x => x; std_log := fun x => x; std_log2 := fun x => x; std_log10 := fun x => x;
  std_pow := fun x _ => x; std_sin := fun x => x; std_cos := fun x => x; std_tan := fun x => x; std_asin := fun x => x;
  std_acos := fun x => x; std_atan := fun x => x; std_atan2 := fun x _ => x; std_sinh := fun x => x; std_cosh := fun x => x;
  std_tanh := fun x => x; std_asinh := fun x => x; std_acosh := fun x => x; std_atanh := fun x => x
|}.
#[export] Existing Instance libm | 100.

Definition guard : TwValue := DICT [("eval", DICT [("type", STRING "rebac/check"); ("rel", STRING "HAS_CAPABILITY");
  ("subject", STRING "{who}"); ("object", STRING "open_door")])].
Definition write : TwValue := DICT [("pointer/set", STRING "/door/{which}"); ("value", STRING "open")].
Definition open_def : Dict := [("params", ARRAY [STRING "who"; STRING "which"]); ("duration", STRING "PT5S"); ("body", ARRAY [guard; write])].
Definition door : TwValue := DICT [("name", STRING "door"); ("init", DICT [("main", STRING "closed")])].

Definition document : Dict := [
  ("name", STRING "gate");
  ("variables", ARRAY [door]);
  ("capabilities", DICT [("entities", DICT [("alice", ARRAY [STRING "open_door"]); ("bob", ARRAY [])])]);
  ("actions", DICT [("open", DICT open_def)]);
  ("methods", DICT [("enter", DICT [("params", ARRAY [STRING "who"]); ("alternatives", ARRAY [
     DICT [("subtasks", ARRAY [ARRAY [STRING "open"; STRING "bob"; STRING "main"]])];
     DICT [("subtasks", ARRAY [ARRAY [STRING "open"; STRING "{who}"; STRING "main"]])]])])]);
  ("todo_list", ARRAY [ARRAY [STRING "enter"; STRING "alice"]])
].

Definition start : TwState := match l_state (load_domain (DICT document)) with Some s => s | None => empty_state end.
Definition opened : TwState := set_nested start "door" (STRING "main") (STRING "open").
Definition alice_opens : TwCall := mkCall "open" [STRING "alice"; STRING "main"].
End Gate.
#[local] Existing Instance Gate.libm | 100.

(** * The theorems *)

Lemma forallb_exists {A} (f : A -> bool) l : forallb f l = false <-> Exists (fun x => f x = false) l.
Proof.
  induction l as [|x l IH]; cbn [forallb]; [split; [discriminate|inversion 1]|]. rewrite andb_false_iff, Exists_cons, IH. reflexivity.
Qed.

Section Theorems.
Context `{Libm}.

Definition known (d : Dict) : bool := forallb (fun kv => existsb (String.eqb (fst kv)) kKnownKeys) d.

Lemma known_exists d : known d = false <-> Exists (fun kv => ~ In (fst kv) kKnownKeys) d.
Proof.
  unfold known. rewrite forallb_exists. split; apply Exists_impl; intros kv; [intros E Hi|intros N].
  - rewrite <- not_true_iff_false in E. apply E. apply existsb_exists. exists (fst kv). now rewrite String.eqb_refl.
  - apply not_true_iff_false. intros E. apply existsb_exists in E as (x & Hx & E). apply String.eqb_eq in E. now subst.
Qed.

(** The state before the graph is attached, and the graph. *)
Definition loaded_parts (d : Dict) : TwReBACGraph * TwState :=
  load_capabilities (get_dict d "capabilities") (fold_left load_variable (get_arr d "variables") empty_state).

Lemma load_domain_parts d : known d = true -> let L := load_domain (DICT d) in
  l_domain L = fold_left load_method (get_dict d "methods") (fold_left load_action (get_dict d "actions") empty_ldomain) /\
  l_tasks L = fst (load_tasks (get_arr d "todo_list")) /\
  l_state L = if snd (load_tasks (get_arr d "todo_list")) then Some (with_graph (snd (loaded_parts d)) (fst (loaded_parts d))) else None.
Proof.
  intros K. unfold load_domain. fold (known d). rewrite K. cbn [negb]. unfold loaded_parts. destruct (load_capabilities _ _) as [g s].
  destruct (load_tasks _) as [ts ok]. destruct ok; repeat split.
Qed.

Lemma load_domain_unknown d : known d = false -> load_domain (DICT d) = not_loaded.
Proof. intros K. unfold load_domain. fold (known d). now rewrite K. Qed.

Lemma load_tasks_ok defs : snd (load_tasks defs) = forallb (fun t => match load_task t with Some _ => true | None => false end) defs.
Proof.
  induction defs as [|t defs IH]; [reflexivity|]. cbn [load_tasks forallb]. destruct (load_task t); [|reflexivity].
  destruct (load_tasks defs) as [ts ok]. exact IH.
Qed.

Lemma load_tasks_all defs : snd (load_tasks defs) = true -> map load_task defs = map Some (fst (load_tasks defs)).
Proof.
  induction defs as [|t defs IH]; [reflexivity|]. cbn [load_tasks map]. destruct (load_task t); [|discriminate].
  destruct (load_tasks defs) as [ts ok]. cbn. intros E. now rewrite (IH E).
Qed.

Lemma loaded_state d s : l_state (load_domain (DICT d)) = Some s ->
  known d = true /\ snd (load_tasks (get_arr d "todo_list")) = true /\ s = with_graph (snd (loaded_parts d)) (fst (loaded_parts d)).
Proof.
  destruct (known d) eqn:K; [|rewrite (load_domain_unknown d K); discriminate].
  destruct (load_domain_parts d K) as (_ & _ & ->). destruct (snd (load_tasks _)); [|discriminate]. intros [= <-]. auto.
Qed.

Lemma loaded_actions d : known d = true -> let dom := l_domain (load_domain (DICT d)) in
  all_built dom /\ (NoDup (keys (get_dict d "actions")) -> forall nm, dict_find nm (l_actions dom) =
    match dict_find nm (get_dict d "actions") with Some (DICT adef) => Some (build_action adef) | _ => None end).
Proof.
  intros K dom. subst dom. destruct (load_domain_parts d K) as (-> & _). unfold all_built.
  destruct (load_methods_actions (get_dict d "methods") (fold_left load_action (get_dict d "actions") empty_ldomain)) as [-> _]. split.
  - apply (load_actions_built (get_dict d "actions") empty_ldomain). intros n a. discriminate.
  - intros ND nm. now rewrite (load_actions_find _ _ ND).
Qed.

Lemma variables_fuel l : forall s, rebac_fuel (fold_left load_variable l s) = rebac_fuel s.
Proof.
  induction l as [|v l IH]; intros s; [reflexivity|]. cbn [fold_left]. rewrite IH. destruct v as [| | | | | |vd]; try reflexivity.
  cbn [load_variable]. destruct (dict_find "name" vd); [|reflexivity]. destruct (dict_find "init" vd) as [[| | | | | |init]|]; try reflexivity.
  revert s. induction init as [|kv init IHi]; intros s; [reflexivity|]. cbn [fold_left]. now rewrite IHi.
Qed.

Lemma capabilities_fuel caps s : rebac_fuel (snd (load_capabilities caps s)) = rebac_fuel s.
Proof.
  assert (F : forall ents gs, rebac_fuel (snd (fold_left load_entity ents gs)) = rebac_fuel (snd gs)).
  { induction ents as [|[k v] ents IH]; intros gs; [reflexivity|]. cbn [fold_left]. rewrite IH. unfold load_entity. destruct v as [| | | | |l|]; try reflexivity.
    cbn [snd fst]. revert gs. induction l as [|c l IHl]; intros gs; [reflexivity|]. cbn [fold_left]. now rewrite IHl. }
  unfold load_capabilities. specialize (F (get_dict caps "entities") (empty_graph, s)). destruct (fold_left load_entity _ _) as [g s']. exact F.
Qed.

Lemma loaded_graph d s : l_state (load_domain (DICT d)) = Some s ->
  exists g, rebac_graph s = Some g /\ rebac_fuel s = 8%Z /\ edges g = document_edges (get_dict d "capabilities") /\ graph_ok g.
Proof.
  intros E. apply loaded_state in E as (_ & _ & ->). exists (fst (loaded_parts d)). split; [reflexivity|].
  destruct (capabilities_graph (get_dict d "capabilities") (fold_left load_variable (get_arr d "variables") empty_state)) as [Ee B].
  split; [|split; [exact Ee|now apply built_ok]]. cbn [with_graph rebac_fuel]. unfold loaded_parts. now rewrite capabilities_fuel, variables_fuel.
Qed.
End Theorems.

(** A document fails to load, leaving the state null, exactly when it is not an
    object, has a member outside the known keys, or lists a todo item of none of
    the three shapes; otherwise every item of the todo list is a task. *)
Theorem load_errors `{Libm} (data : TwValue) :
  l_state (load_domain data) = None <->
  match data with
  | DICT d => Exists (fun kv => ~ In (fst kv) kKnownKeys) d \/ Exists (fun t => load_task t = None) (get_arr d "todo_list")
  | _ => True
  end.
Proof.
  destruct data as [| | | | | |d]; try (split; reflexivity). rewrite <- known_exists. destruct (known d) eqn:K.
  - destruct (load_domain_parts d K) as (_ & _ & ->). rewrite load_tasks_ok. destruct (forallb _ _) eqn:F.
    + split; [discriminate|]. intros [C|E]; [discriminate|]. rewrite <- not_false_iff_true, forallb_exists in F. destruct F.
      eapply Exists_impl; [|exact E]. now intros t ->.
    + split; [|reflexivity]. intros _. right. apply forallb_exists in F. eapply Exists_impl; [|exact F]. intros t.
      cbv beta. destruct (load_task t); [discriminate|reflexivity].
  - rewrite (load_domain_unknown d K). split; [now left|reflexivity].
Qed.

(** The shapes of the items of a todo list and of the entries of a goal. *)
Inductive entry_reads : TwValue -> list TwGoalBinding -> Prop :=
| entry_binding ed ptr des var key : dict_find "pointer" ed = Some ptr -> dict_find "eq" ed = Some des ->
    parse_pointer (as_string ptr) [] = (var, key) -> var <> EmptyString -> entry_reads (DICT ed) [mkBinding var (to_string key) des]
| entry_nowhere ed ptr key : dict_find "pointer" ed = Some ptr -> parse_pointer (as_string ptr) [] = (EmptyString, key) -> entry_reads (DICT ed) []
| entry_incomplete ed : dict_find "pointer" ed = None \/ dict_find "eq" ed = None -> entry_reads (DICT ed) []
| entry_other v : is_dict v = false -> entry_reads v [].

Inductive variable_reads : string * TwValue -> list TwGoalBinding -> Prop :=
| variable_bindings var kd : variable_reads (var, DICT kd) (map (fun kp => mkBinding var (fst kp) (snd kp)) kd)
| variable_other var v : is_dict v = false -> variable_reads (var, v) [].

Inductive item_reads : TwValue -> TwTask -> Prop :=
| item_call h ar : item_reads (ARRAY (h :: ar)) (Call (mkCall (as_string h) ar))
| item_multigoal td m bss : dict_find "multigoal" td = Some (DICT m) -> Forall2 variable_reads m bss -> concat bss <> [] ->
    item_reads (DICT td) (MultiGoal (concat bss))
| item_goal td es bss : (forall m, dict_find "multigoal" td <> Some (DICT m)) -> dict_find "goal" td = Some (ARRAY es) ->
    Forall2 entry_reads es bss -> concat bss <> [] -> item_reads (DICT td) (Goal (concat bss)).

Lemma goal_binding_reads v : entry_reads v (goal_binding v).
Proof.
  destruct v as [| | | | | |ed]; try (now constructor). cbn [goal_binding].
  destruct (dict_find "pointer" ed) as [ptr|] eqn:E1; [|constructor; auto].
  destruct (dict_find "eq" ed) as [des|] eqn:E2; [|now apply entry_incomplete; right].
  destruct (parse_pointer (as_string ptr) []) as [[|c var] key] eqn:E3; cbn [is_empty].
  - eapply entry_nowhere; eauto.
  - eapply entry_binding; eauto. discriminate.
Qed.

Lemma Forall2_map_r {A B} (R : A -> B -> Prop) (f : A -> B) l : (forall x, R x (f x)) -> Forall2 R l (map f l).
Proof. intros Hf. induction l; cbn [map]; auto. Qed.

Lemma load_task_reads v t : load_task v = Some t -> item_reads v t.
Proof.
  destruct v as [| | | | |[|h ar]|td]; try discriminate; cbn [load_task]; [intros [= <-]; constructor|].
  assert (G : (forall m, dict_find "multigoal" td <> Some (DICT m)) ->
    match dict_find "goal" td with Some (ARRAY es) => match flat_map goal_binding es with [] => None | bs => Some (Goal bs) end | _ => None end = Some t -> item_reads (DICT td) t).
  { intros Nm. destruct (dict_find "goal" td) as [[| | | | |es|]|] eqn:Eg; try discriminate. rewrite flat_map_concat_map.
    pose proof (Forall2_map_r _ _ es goal_binding_reads) as F. destruct (concat (map goal_binding es)) as [|b bs] eqn:Eb; [discriminate|].
    intros [= <-]. rewrite <- Eb. apply item_goal with es; auto. now rewrite Eb. }
  destruct (dict_find "multigoal" td) as [[| | | | | |m]|] eqn:Em; try (apply G; intros m'; discriminate).
  unfold multigoal_bindings. rewrite flat_map_concat_map. set (f := fun vp : string * TwValue => _).
  assert (F : Forall2 variable_reads m (map f m)).
  { apply Forall2_map_r. intros [var v]. unfold f. cbn [fst snd]. destruct v; now constructor. }
  destruct (concat (map f m)) as [|b bs] eqn:Eb; [discriminate|]. intros [= <-]. rewrite <- Eb. apply item_multigoal with m; auto. now rewrite Eb.
Qed.

(** C33: What a document that loads is loaded as.  When its action names are
    unique, each action object is found under its name, runs its declared body,
    and has its duration when that is a text.  When its method names are unique,
    a group with a scan object is found as that scan, and one without a scan but
    with a list of alternatives as its alternatives that are objects, in order.
    The tasks are the items of the todo list, in order: calls, multigoals with a
    binding per variable and key, goals with a binding per entry that has a
    pointer to a variable and a value, none without bindings.  When the
    declarations with an initial value name different variables, each such
    variable starts with it, unless that is an empty object or has a key twice,
    or the name starts with _cap_, where capabilities are stored. *)
Theorem load_domain_correct `{Libm} (d : Dict) (s : TwState) : l_state (load_domain (DICT d)) = Some s ->
  let dom := l_domain (load_domain (DICT d)) in
  (NoDup (keys (get_dict d "actions")) -> forall nm adef, dict_find nm (get_dict d "actions") = Some (DICT adef) ->
     dict_find nm (l_actions dom) = Some (build_action adef) /\
     dict_find nm (l_action_durations dom) = match dict_find "duration" adef with Some (STRING iso) => Some iso | _ => None end) /\
  (NoDup (keys (get_dict d "methods")) -> forall nm gd, dict_find nm (get_dict d "methods") = Some (DICT gd) ->
     (forall scan, dict_find "scan" gd = Some (DICT scan) -> dict_find nm (l_task_methods dom) = Some [build_scan_method scan]) /\
     (forall alts, dict_find "scan" gd = None -> dict_find "alternatives" gd = Some (ARRAY alts) ->
        exists objects, dict_find nm (l_task_methods dom) = Some (map (build_method_alt (get_arr gd "params")) objects) /\
          map DICT objects = filter is_dict alts)) /\
  Forall2 item_reads (get_arr d "todo_list") (l_tasks (load_domain (DICT d))) /\
  (NoDup (flat_map var_name (get_arr d "variables")) -> forall v x init, In v (get_arr d "variables") -> declares v x init -> storable init ->
     String.prefix "_cap_" x = false -> get_var s x = init).
Proof.
  intros E dom. pose proof (loaded_state d s E) as (K & Ot & ->). destruct (load_domain_parts d K) as (Ed & Et & _). subst dom. rewrite Ed, Et.
  destruct (load_methods_actions (get_dict d "methods") (fold_left load_action (get_dict d "actions") empty_ldomain)) as [-> ->].
  split; [|split; [|split]].
  - intros ND nm adef Ea. rewrite (load_actions_find _ _ ND), (load_durations_find _ _ ND), Ea. split; [reflexivity|].
    destruct (dict_find "duration" adef) as [[]|]; reflexivity.
  - intros ND nm gd Eg. rewrite (load_methods_find _ _ ND), Eg. cbn [group_methods]. split.
    + intros scan ->. reflexivity.
    + intros alts -> ->. exists (dicts alts). split; [reflexivity|]. clear. induction alts as [|v alts IH]; [reflexivity|].
      destruct v; cbn [filter is_dict dicts flat_map app map]; [exact IH..|]. f_equal. exact IH.
  - apply load_tasks_all in Ot. revert Ot. generalize (fst (load_tasks (get_arr d "todo_list"))). generalize (get_arr d "todo_list").
    induction l as [|v l IH]; intros [|t ts]; cbn [map]; try discriminate; [constructor|]. intros [= E1 E2]. constructor; [now apply load_task_reads|auto].
  - intros ND v x init Hv D St Hp. unfold get_var. cbn [with_graph vars]. unfold loaded_parts. rewrite capabilities_other by exact Hp.
    now rewrite (variables_declared _ _ _ v Hv D St ND).
Qed.

Lemma load_domain_witness :
  Forall2 item_reads [ARRAY [STRING "enter"; STRING "alice"]] (l_tasks (load_domain (DICT Gate.document))) /\
  dict_find "open" (l_action_durations (l_domain (load_domain (DICT Gate.document)))) = Some "PT5S" /\
  get_var Gate.start "door" = DICT [("main", STRING "closed")].
Proof.
  destruct (load_domain_correct Gate.document Gate.start) as (A & _ & T & V); [vm_compute; reflexivity|].
  split; [exact T|split].
  - apply (A ltac:(vm_compute; repeat constructor; auto) "open" Gate.open_def). reflexivity.
  - apply (V ltac:(vm_compute; repeat constructor; auto) Gate.door); [now left| | |reflexivity].
    + exists [("name", STRING "door"); ("init", DICT [("main", STRING "closed")])], (STRING "door"). repeat split.
    + split; [discriminate|repeat constructor; auto].
Defined.

(** The capabilities of a document become the graph that decides them.  The
    graph's edges are those of the entities and of the explicit graph; when there
    is no explicit graph, asking for a capability says yes exactly for those
    listed for the entity; and every listed capability also sets its variable. *)
Theorem capabilities_loaded `{Libm} (d : Dict) (s : TwState) : l_state (load_domain (DICT d)) = Some s ->
  let caps := get_dict d "capabilities" in
  exists g, rebac_graph s = Some g /\ edges g = document_edges caps /\
    (get_arr (get_dict caps "graph") "edges" = [] -> forall entity cap,
       check_expr g (Z.to_nat (rebac_fuel s)) entity (base_expr "HAS_CAPABILITY") cap = true <-> listed (get_dict caps "entities") entity cap) /\
    (forall entity cap, listed (get_dict caps "entities") entity cap -> get_nested s ("_cap_" ++ cap) (STRING entity) = BOOL true).
Proof.
  intros E caps. destruct (loaded_graph d s E) as (g & Eg & Ef & Ee & Ok). exists g. split; [exact Eg|split; [exact Ee|split]].
  - intros Ng entity cap. rewrite (check_granted g Ok), Ef. fold caps in Ee. unfold document_edges in Ee. rewrite Ng, app_nil_r in Ee. apply granted_listed, Ee.
  - intros entity cap Hl. apply loaded_state in E as (_ & _ & ->). unfold loaded_parts, load_capabilities. fold caps.
    pose proof (cap_true_entities (get_dict caps "entities") entity cap (empty_graph, fold_left load_variable (get_arr d "variables") empty_state) (or_intror Hl)) as C.
    destruct (fold_left load_entity _ _) as [g' s']. exact C.
Qed.

Lemma capabilities_witness : exists g, rebac_graph Gate.start = Some g /\
  check_expr g 8 "alice" (base_expr "HAS_CAPABILITY") "open_door" = true /\
  ~ (check_expr g 8 "bob" (base_expr "HAS_CAPABILITY") "open_door" = true).
Proof.
  destruct (capabilities_loaded Gate.document Gate.start) as (g & Eg & _ & C & _); [vm_compute; reflexivity|]. exists g.
  split; [exact Eg|]. change 8%nat with (Z.to_nat (rebac_fuel Gate.start)). rewrite !(C eq_refl). split.
  - exists [STRING "open_door"]. split; now left.
  - intros (caps & [E|[E|[]]] & Hc); [discriminate|]. injection E as <-. destruct Hc.
Defined.

(** A successful action of a loaded domain changes only the variables that its
    writes address, whatever random numbers it draws; it never changes the
    relation graph or the fuel of its queries. *)
Theorem loaded_action_frame `{Libm} (adef : Dict) (s s' : TwState) (args : list TwValue) : outcome (build_action adef s args) (Some s') ->
  rebac_graph s' = rebac_graph s /\ rebac_fuel s' = rebac_fuel s /\
  forall x, ~ In x (action_writes adef s args) -> get_var s' x = get_var s x.
Proof.
  intros O. destruct (build_action_framed _ _ _ _ O) as [F1 F2 F3]. repeat split; auto. intros x Hx. unfold get_var. now rewrite F3.
Qed.

Lemma loaded_action_frame_witness :
  outcome (build_action Gate.open_def Gate.start (args Gate.alice_opens)) (Some Gate.opened) /\
  get_var Gate.opened "_cap_open_door" = get_var Gate.start "_cap_open_door".
Proof.
  assert (O : outcome (build_action Gate.open_def Gate.start (args Gate.alice_opens)) (Some Gate.opened)) by (vm_compute; constructor).
  split; [exact O|]. apply (loaded_action_frame Gate.open_def Gate.start Gate.opened (args Gate.alice_opens) O).
  vm_compute. intros [E|[]]. discriminate.
Defined.

(** C18: The guards in the body of an action hold wherever the action is used.
    Take a document that loads, with unique action names, and one of its
    actions.  In every execution of commands from the loaded state, wherever a
    command names that action, the state it starts in and the one it leads to
    are such that every step of its body with an expression to evaluate was
    reached by running the steps before it, evaluated to true there, and was
    followed by the rest of the body.  When the expression is a relation check
    whose relation, subject and object are texts, the document's graph grants
    that relation between the subject and object that the command's arguments
    and bindings give.  And when the actions and methods of the domain draw no
    random numbers and are defined, which is where [domain_of] is what the
    planners search, every plan of either planner for the document's todo list
    is such an execution. *)
Theorem guards_enforced `{Libm} `{StdHash} (d adef : Dict) (s : TwState) (nm : string) :
  l_state (load_domain (DICT d)) = Some s -> NoDup (keys (get_dict d "actions")) ->
  dict_find nm (get_dict d "actions") = Some (DICT adef) ->
  let L := load_domain (DICT d) in
  (forall p1 c p2 s', executes (l_domain L) s (p1 ++ c :: p2) s' -> name c = nm ->
     exists s0 s1, executes (l_domain L) s p1 s0 /\ outcome (build_action adef s0 (args c)) (Some s1) /\ executes (l_domain L) s1 p2 s' /\
       let params := run_binds (get_arr adef "bind") (build_params (get_arr adef "params") (args c)) s0 in
       forall pre g e post, get_arr adef "body" = pre ++ DICT g :: post -> dict_find "eval" g = Some e ->
       (exists sm, outcome (run_body pre params s0) (Some sm) /\ outcome (eval_expr params sm e) (BOOL true) /\
          outcome (run_body post params sm) (Some s1)) /\
       forall ed rel subj obj, e = DICT ed -> node_type ed = "check" -> dict_find "rel" ed = Some (STRING rel) ->
         dict_find "subject" ed = Some (STRING subj) -> dict_find "object" ed = Some (STRING obj) ->
         exists gr, rebac_graph s = Some gr /\ edges gr = document_edges (get_dict d "capabilities") /\
           granted gr 8 rel (text params subj) (text params obj)) /\
  (draw_free (l_domain L) -> forall blacklist late plan,
     tw_plan (domain_of (l_domain L)) blacklist late s (l_tasks L) = Ok (Some plan) \/
     (exists skip t, tw_plan_with_tree (domain_of (l_domain L)) blacklist skip late s (l_tasks L) = Ok (Some plan, t)) ->
     exists s', executes (l_domain L) s plan s').
Proof.
  intros E ND Ea L. destruct (loaded_graph d s E) as (gr & Eg & Ef & Ee & Ok).
  destruct (loaded_actions d (proj1 (loaded_state d s E))) as [B F]. split.
  - intros p1 c p2 s' X <-. assert (Ec : dict_find (name c) (l_actions (l_domain L)) = Some (build_action adef)) by (unfold L; now rewrite (F ND), Ea).
    destruct (executes_guarded _ adef _ _ _ _ _ X Ec) as (s0 & s1 & X1 & O & X2 & G). exists s0, s1.
    split; [exact X1|]. split; [exact O|]. split; [exact X2|]. intros params pre g e post Eb Ev.
    destruct (G pre g e post Eb Ev) as (sm & O1 & O2 & O3). fold params in O1, O2, O3. split; [eauto|].
    intros ed rel subj obj -> Ht Hr Hs Ho. exists gr. split; [exact Eg|]. split; [exact Ee|].
    destruct (executes_framed _ _ _ _ X1 B) as [Fg Ff]. destruct (run_body_framed _ _ _ _ O1) as [Gg Gf _].
    exact (guard_granted params s sm ed rel subj obj gr Ok Eg Ef (eq_trans Gg Fg) (eq_trans Gf Ff) Ht Hr Hs Ho O2).
  - intros _ blacklist late plan [P|(skip & t & P)].
    + destruct (plan_solves _ _ _ _ _ _ P) as (s' & Hs). exists s'. now apply solves_executes in Hs.
    + apply plan_with_tree_ok in P. destruct P as [(s' & Hs) _]. exists s'. now apply solves_executes in Hs.
Qed.

Lemma gate_draw_free : draw_free (l_domain (load_domain (DICT Gate.document))).
Proof.
  split.
  - intros nm a s ar. cbn [Gate.document load_domain]. intros E.
    destruct (loaded_actions Gate.document eq_refl) as [_ F]. specialize (F ltac:(repeat constructor; auto) nm).
    change (dict_find nm (l_actions (l_domain (load_domain (DICT Gate.document)))) = Some a) in E. rewrite F in E. cbn [Gate.document get_dict dict_find String.eqb Ascii.eqb Bool.eqb] in E.
    destruct (String.eqb nm "open"); [|discriminate]. injection E as <-. unfold build_action, settles. cbn [Gate.open_def get_arr dict_find String.eqb Ascii.eqb Bool.eqb run_body Gate.guard Gate.write].
    rewrite (eval_guard _ _ _ "HAS_CAPABILITY" "{who}" "open_door") by reflexivity. cbn [ret_bool bind]. destruct (is_true_value _); [|eauto].
    destruct (parse_pointer _ _) as [var key]. destruct (is_empty var); [eauto|]. cbn [eval_expr bind]. eauto.
  - intros nm ms m s ar E Hm. pose proof (load_methods_find nm (get_dict Gate.document "methods") ltac:(repeat constructor; auto) (fold_left load_action (get_dict Gate.document "actions") empty_ldomain)) as F.
    destruct (load_domain_parts Gate.document eq_refl) as (Ed & _). rewrite Ed, F, load_actions_methods in E.
    cbn [Gate.document get_dict dict_find String.eqb Ascii.eqb Bool.eqb empty_ldomain l_task_methods] in E.
    destruct (String.eqb nm "enter"); [|discriminate]. injection E as <-. destruct Hm as [<-|[<-|[]]]; eexists; reflexivity.
Qed.

Lemma guards_witness : exists g, rebac_graph Gate.start = Some g /\ edges g = document_edges (get_dict Gate.document "capabilities") /\
  granted g 8 "HAS_CAPABILITY" "alice" "open_door" /\
  exists s', executes (l_domain (load_domain (DICT Gate.document))) Gate.start [Gate.alice_opens] s'.
Proof.
  assert (Hs : l_state (load_domain (DICT Gate.document)) = Some Gate.start) by reflexivity.
  assert (Hn : NoDup (keys (get_dict Gate.document "actions"))) by (repeat constructor; auto).
  destruct (guards_enforced Gate.document Gate.open_def Gate.start "open" Hs Hn eq_refl) as [X P].
  destruct (P gate_draw_free None Travel.never [Gate.alice_opens]) as (s' & E).
  { right. exists None, (snd (match tw_plan_with_tree (domain_of (l_domain (load_domain (DICT Gate.document)))) None None Travel.never Gate.start
            (l_tasks (load_domain (DICT Gate.document))) with Ok r => r | Throw _ => (None, root_tree) end)). vm_compute. reflexivity. }
  destruct (X [] Gate.alice_opens [] s' E eq_refl) as (s0 & s1 & _ & _ & _ & G).
  destruct (G [] _ _ [Gate.write] eq_refl eq_refl) as [_ R].
  destruct (R _ "HAS_CAPABILITY" "{who}" "open_door" eq_refl eq_refl eq_refl eq_refl eq_refl) as (g & Eg & Ee & Gr).
  exists g. split; [exact Eg|]. split; [exact Ee|]. split; [exact Gr|eauto].
Defined.

(** * Where the loader falls short *)

(** Merging a problem into a domain takes the problem's variables, among them the
    capability variables, but keeps the domain's graph, which decides the guards,
    and none of the durations of the problem's actions. *)
Lemma merge_drops_graph : let dom := load_domain (DICT [("name", STRING "d")]) in
  let m := merge_loaded dom (load_domain (DICT Gate.document)) in
  match l_state m with
  | Some s => get_nested s "_cap_open_door" (STRING "alice") = BOOL true /\
      settled (build_action Gate.open_def s (args Gate.alice_opens)) = None /\ dict_find "open" (l_action_durations (l_domain m)) = None
  | None => False
  end.
Proof. vm_compute. repeat split. Qed.

(** The text of a plan does not escape its strings, so that different plans print
    alike. *)
Lemma plan_json_ambiguous :
  plan_to_json [mkCall "a" [STRING ("x" ++ String quote (", " ++ String quote "y"))]] = plan_to_json [mkCall "a" [STRING "x"; STRING "y"]].
Proof. reflexivity. Qed.

(** A variable whose initial value is an empty object is not created. *)
Lemma empty_variable_lost :
  has_var (load_variable empty_state (DICT [("name", STRING "seen"); ("init", DICT [])])) "seen" = false.
Proof. reflexivity. Qed.
