(* ===== verification/TwSha256.v ===== *)
(** taskweft_nif/standalone/tw_hrr.hpp, namespace [_sha256]: the hash behind the
    atoms of the vector memory, and its agreement with FIPS 180-4. *)

From Stdlib Require Import ZArith List Bool Lia PeanoNat.
From S2P Require Import Prelude.
Import ListNotations.
#[local] Open Scope Z_scope.

(** * The code *)

(** The table, two words to a literal. *)
Definition K_pairs : list Z := [
  0x428a2f9871374491; 0xb5c0fbcfe9b5dba5; 0x3956c25b59f111f1; 0x923f82a4ab1c5ed5;
  0xd807aa9812835b01; 0x243185be550c7dc3; 0x72be5d7480deb1fe; 0x9bdc06a7c19bf174;
  0xe49b69c1efbe4786; 0x0fc19dc6240ca1cc; 0x2de92c6f4a7484aa; 0x5cb0a9dc76f988da;
  0x983e5152a831c66d; 0xb00327c8bf597fc7; 0xc6e00bf3d5a79147; 0x06ca635114292967;
  0x27b70a852e1b2138; 0x4d2c6dfc53380d13; 0x650a7354766a0abb; 0x81c2c92e92722c85;
  0xa2bfe8a1a81a664b; 0xc24b8b70c76c51a3; 0xd192e819d6990624; 0xf40e3585106aa070;
  0x19a4c1161e376c08; 0x2748774c34b0bcb5; 0x391c0cb34ed8aa4a; 0x5b9cca4f682e6ff3;
  0x748f82ee78a5636f; 0x84c878148cc70208; 0x90befffaa4506ceb; 0xbef9a3f7c67178f2].
Definition K : list Z := flat_map (fun x => [Z.shiftr x 32; u32 x]) K_pairs.

Definition rotr (x n : Z) : Z := Z.lor (Z.shiftr x n) (u32 (Z.shiftl x (32 - n))).
Definition ch (e f g : Z) : Z := Z.lxor (Z.land e f) (Z.land (u32 (Z.lnot e)) g).
Definition maj (a b c : Z) : Z := Z.lxor (Z.lxor (Z.land a b) (Z.land a c)) (Z.land b c).
Definition s0 (x : Z) : Z := Z.lxor (Z.lxor (rotr x 2) (rotr x 13)) (rotr x 22).
Definition s1 (x : Z) : Z := Z.lxor (Z.lxor (rotr x 6) (rotr x 11)) (rotr x 25).
Definition g0 (x : Z) : Z := Z.lxor (Z.lxor (rotr x 7) (rotr x 18)) (Z.shiftr x 3).
Definition g1 (x : Z) : Z := Z.lxor (Z.lxor (rotr x 17) (rotr x 19)) (Z.shiftr x 10).

Definition initial_h : list Z :=
  [0x6a09e667; 0xbb67ae85; 0x3c6ef372; 0xa54ff53a; 0x510e527f; 0x9b05688c; 0x1f83d9ab; 0x5be0cd19].

(** [msg]: the data in a zeroed buffer, the marker, and the length's bytes. *)
Definition padded_size (len : nat) : nat := ((len + 9 + 63) / 64) * 64.

Fixpoint write_length (fuel : nat) (i : nat) (bit_len : Z) (padded : nat) (msg : list Z) : list Z :=
  match fuel with
  | O => msg
  | S f => write_length f (S i) bit_len padded
             (set_nth msg (padded - 8 + i) (u8 (Z.shiftr bit_len (56 - 8 * Z.of_nat i))))
  end.

Definition pad (data : list Z) : list Z :=
  let len := length data in
  let bit_len := u64 (Z.of_nat len * 8) in
  let padded := padded_size len in
  let msg := memcpy (repeat 0 padded) 0 data len in
  let msg := set_nth msg len 0x80 in
  write_length 8 0 bit_len padded msg.

(** [w[i]] for [i < 16], from the four bytes at [p]. *)
Definition load_word (msg : list Z) (p : nat) : Z :=
  let b i := nth (p + i)%nat msg 0 in
  Z.lor (Z.lor (Z.lor (Z.shiftl (b 0%nat) 24) (Z.shiftl (b 1%nat) 16)) (Z.shiftl (b 2%nat) 8)) (b 3%nat).

(** The words from 16 on, each written after those it reads. *)
Fixpoint extend (fuel i : nat) (w : list Z) : list Z :=
  match fuel with
  | O => w
  | S f =>
      let at_ k := nth (i - k) w 0 in
      extend f (S i) (w ++ [u32 (g1 (at_ 2%nat) + at_ 7%nat + g0 (at_ 15%nat) + at_ 16%nat)])
  end.

Definition schedule (msg : list Z) (offset : nat) : list Z :=
  extend 48 16 (map (fun i => load_word msg (offset + 4 * i)) (seq 0 16)).

Record regs := mkRegs { ra : Z; rb : Z; rc : Z; rd : Z; re : Z; rf : Z; rg : Z; rh : Z }.

Definition round (r : regs) (k w : Z) : regs :=
  let t1 := u32 (rh r + s1 (re r) + ch (re r) (rf r) (rg r) + k + w) in
  let t2 := u32 (s0 (ra r) + maj (ra r) (rb r) (rc r)) in
  mkRegs (u32 (t1 + t2)) (ra r) (rb r) (rc r) (u32 (rd r + t1)) (re r) (rf r) (rg r).

Fixpoint rounds (fuel i : nat) (w : list Z) (r : regs) : regs :=
  match fuel with
  | O => r
  | S f => rounds f (S i) w (round r (nth i K 0) (nth i w 0))
  end.

Definition add_regs (h r : regs) : regs :=
  mkRegs (u32 (ra h + ra r)) (u32 (rb h + rb r)) (u32 (rc h + rc r)) (u32 (rd h + rd r))
    (u32 (re h + re r)) (u32 (rf h + rf r)) (u32 (rg h + rg r)) (u32 (rh h + rh r)).

Definition compress (msg : list Z) (h : regs) (offset : nat) : regs :=
  add_regs h (rounds 64 0 (schedule msg offset) h).

(** The loop over blocks of 64 bytes. *)
Fixpoint blocks (fuel offset : nat) (msg : list Z) (h : regs) : regs :=
  match fuel with
  | O => h
  | S f => if (offset <? length msg)%nat then blocks f (offset + 64) msg (compress msg h offset) else h
  end.

Definition regs_of (l : list Z) : regs :=
  mkRegs (nth 0 l 0) (nth 1 l 0) (nth 2 l 0) (nth 3 l 0) (nth 4 l 0) (nth 5 l 0) (nth 6 l 0) (nth 7 l 0).
Definition list_of (r : regs) : list Z := [ra r; rb r; rc r; rd r; re r; rf r; rg r; rh r].

Definition be_bytes (x : Z) : list Z := [u8 (Z.shiftr x 24); u8 (Z.shiftr x 16); u8 (Z.shiftr x 8); u8 x].

Definition hash (data : list Z) : list Z :=
  let msg := pad data in
  flat_map be_bytes (list_of (blocks (length msg) 0 msg (regs_of initial_h))).

(** Known answers. *)
Definition hex (l : list Z) : Z := fold_left (fun a b => 256 * a + b) l 0.

Example hash_empty : hex (hash []) = 0xe3b0c44298fc1c149afbf4c8996fb92427ae41e4649b934ca495991b7852b855.
Proof. vm_compute. reflexivity. Qed.

Example hash_abc : hex (hash [97; 98; 99]) = 0xba7816bf8f01cfea414140de5dae2223b00361a396177a9cb410ff61f20015ad.
Proof. vm_compute. reflexivity. Qed.

(** taskweft_nif/standalone/tw_hrr.hpp: [_sha256::hash] is SHA-256.

    The reference follows FIPS 180-4: padding by a count of bits, words of
    bytes, the message schedule as a recurrence, rotation and choice of bits as
    arithmetic, and the constants as roots of the first primes. *)

(** * The standard *)

(** The integer root of degree [d], by its bits. *)
Fixpoint root_bits (d : Z) (n : nat) (x r : Z) : Z :=
  match n with
  | O => r
  | S n => let r' := r + 2 ^ Z.of_nat n in root_bits d n x (if r' ^ d <=? x then r' else r)
  end.
Definition root (d x : Z) : Z := root_bits d 40 x 0.

Definition is_prime (n : nat) : bool := forallb (fun k => negb (n mod k =? 0)%nat) (seq 2 (n - 2)).
Definition first_primes : list Z := map Z.of_nat (filter is_prime (seq 2 310)).

(** The first 32 bits of the fractional parts of cube roots and square roots. *)
Definition fips_K : list Z := map (fun p => root 3 (p * 2 ^ 96) mod 2 ^ 32) first_primes.
Definition fips_H0 : list Z := map (fun p => root 2 (p * 2 ^ 64) mod 2 ^ 32) (firstn 8 first_primes).

Definition be_encode (n : nat) (x : Z) : list Z := rev (le_encode n x).
Definition be_decode (l : list Z) : Z := le_decode (rev l).

Definition ROTR (n x : Z) : Z := x / 2 ^ n + (x mod 2 ^ n) * 2 ^ (32 - n).
Definition SHR (n x : Z) : Z := x / 2 ^ n.
(** [x] chooses between [y] and [z]; the majority of the three. *)
Definition Ch (x y z : Z) : Z := Z.lor (Z.land x y) (Z.ldiff z x).
Definition Maj (x y z : Z) : Z := Z.lor (Z.land x y) (Z.land z (Z.lor x y)).
Definition Sigma0 (x : Z) : Z := Z.lxor (Z.lxor (ROTR 2 x) (ROTR 13 x)) (ROTR 22 x).
Definition Sigma1 (x : Z) : Z := Z.lxor (Z.lxor (ROTR 6 x) (ROTR 11 x)) (ROTR 25 x).
Definition sigma0 (x : Z) : Z := Z.lxor (Z.lxor (ROTR 7 x) (ROTR 18 x)) (SHR 3 x).
Definition sigma1 (x : Z) : Z := Z.lxor (Z.lxor (ROTR 17 x) (ROTR 19 x)) (SHR 10 x).

(** A one, the least number [k] of zeros that completes 448 bits modulo 512, and
    the length in 64 bits. *)
Definition fips_pad (data : list Z) : list Z :=
  let l := 8 * Z.of_nat (length data) in
  let k := (448 - (l + 1)) mod 512 in
  data ++ [128] ++ repeat 0 (Z.to_nat ((k - 7) / 8)) ++ be_encode 8 l.

Definition block_word (blk : list Z) (t : nat) : Z := be_decode (firstn 4 (skipn (4 * t) blk)).

Fixpoint W_upto (fuel : nat) (blk : list Z) (t : nat) : Z :=
  match fuel with
  | O => 0
  | S f =>
      if (t <? 16)%nat then block_word blk t
      else (sigma1 (W_upto f blk (t - 2)) + W_upto f blk (t - 7) + sigma0 (W_upto f blk (t - 15)) + W_upto f blk (t - 16)) mod 2 ^ 32
  end.
Definition W (blk : list Z) (t : nat) : Z := W_upto (S t) blk t.

Definition fips_round (r : regs) (kw : Z * Z) : regs :=
  let T1 := rh r + Sigma1 (re r) + Ch (re r) (rf r) (rg r) + fst kw + snd kw in
  let T2 := Sigma0 (ra r) + Maj (ra r) (rb r) (rc r) in
  mkRegs ((T1 + T2) mod 2 ^ 32) (ra r) (rb r) (rc r) ((rd r + T1) mod 2 ^ 32) (re r) (rf r) (rg r).

Definition fips_block (h : regs) (blk : list Z) : regs :=
  add_regs h (fold_left fips_round (combine fips_K (map (W blk) (seq 0 64))) h).

Definition chunks (l : list Z) : list (list Z) := map (fun i => firstn 64 (skipn (64 * i) l)) (seq 0 (length l / 64)).

Definition fips_sha256 (data : list Z) : list Z :=
  flat_map (be_encode 4) (list_of (fold_left fips_block (chunks (fips_pad data)) (regs_of fips_H0))).

(** * The constants *)

Lemma root_bits_spec d n : forall x r, 0 < d -> 0 <= r -> r ^ d <= x < (r + 2 ^ Z.of_nat n) ^ d ->
  let s := root_bits d n x r in 0 <= s /\ s ^ d <= x < (s + 1) ^ d.
Proof.
  induction n as [|n IH]; intros x r Hd Hr Hx; cbn [root_bits]; [split; [lia|exact Hx]|].
  rewrite Nat2Z.inj_succ, Z.pow_succ_r in Hx by lia. assert (0 < 2 ^ Z.of_nat n) by (apply Z.pow_pos_nonneg; lia).
  destruct (Z.leb_spec ((r + 2 ^ Z.of_nat n) ^ d) x) as [L|L]; apply IH; auto; try lia.
  replace (r + 2 ^ Z.of_nat n + 2 ^ Z.of_nat n) with (r + 2 * 2 ^ Z.of_nat n) by lia. lia.
Qed.

Lemma root_spec d x : 0 < d -> 0 <= x < (2 ^ 40) ^ d -> 0 <= root d x /\ root d x ^ d <= x < (root d x + 1) ^ d.
Proof.
  intros Hd Hx. assert (B : 0 ^ d <= x < (0 + 2 ^ Z.of_nat 40) ^ d) by (rewrite Z.pow_0_l by lia; exact Hx).
  exact (root_bits_spec d 40 x 0 Hd (Z.le_refl 0) B).
Qed.

Lemma K_fips : K = fips_K.
Proof. vm_compute. reflexivity. Qed.

Lemma H0_fips : initial_h = fips_H0.
Proof. vm_compute. reflexivity. Qed.

(** * Words *)

Definition word (x : Z) : Prop := 0 <= x < 2 ^ 32.

Lemma word_wrap x : word (u32 x).
Proof. apply wrap_range. lia. Qed.

Lemma word_bits x : 0 <= x -> (forall i, 32 <= i -> Z.testbit x i = false) -> word x.
Proof.
  intros H0 Hb. split; [exact H0|]. destruct (Z.eq_dec x 0) as [->|N]; [reflexivity|]. apply Z.log2_lt_pow2; [lia|].
  destruct (Z.lt_ge_cases (Z.log2 x) 32) as [L|L]; [exact L|]. specialize (Hb _ L). rewrite Z.bit_log2 in Hb by lia. discriminate.
Qed.

Lemma bits_word x i : word x -> 32 <= i -> Z.testbit x i = false.
Proof. intros [H0 H1] Hi. rewrite <- (Z.mod_small x (2 ^ 32)) by lia. apply Z.mod_pow2_bits_high. lia. Qed.

Lemma word_lxor x y : word x -> word y -> word (Z.lxor x y).
Proof.
  intros Hx Hy. apply word_bits; [apply Z.lxor_nonneg; destruct Hx, Hy; lia|]. intros i Hi. now rewrite Z.lxor_spec, (bits_word x), (bits_word y).
Qed.

Lemma rotr_ROTR x n : word x -> 0 < n < 32 -> rotr x n = ROTR n x.
Proof.
  intros Hx Hn. unfold rotr, ROTR. rewrite Z.shiftr_div_pow2, Z.shiftl_mul_pow2 by lia.
  assert (E : u32 (x * 2 ^ (32 - n)) = x mod 2 ^ n * 2 ^ (32 - n)).
  { unfold wrap. replace (2 ^ 32) with (2 ^ n * 2 ^ (32 - n)) by (rewrite <- Z.pow_add_r by lia; f_equal; lia).
    rewrite Z.mul_mod_distr_r; [reflexivity|apply Z.pow_nonzero; lia|apply Z.pow_nonzero; lia]. }
  rewrite E, lor_disjoint_r; [lia|lia|]. split; [apply Z.div_pos; [apply Hx|apply Z.pow_pos_nonneg; lia]|].
  apply Z.div_lt_upper_bound; [apply Z.pow_pos_nonneg; lia|]. rewrite <- Z.pow_add_r by lia. replace (n + (32 - n)) with 32 by lia. apply Hx.
Qed.

Lemma word_rotr x n : word x -> 0 < n < 32 -> word (rotr x n).
Proof.
  intros Hx Hn. unfold rotr. pose proof (word_wrap (Z.shiftl x (32 - n))) as Hw.
  apply word_bits; [apply Z.lor_nonneg; split; [apply Z.shiftr_nonneg, Hx|apply Hw]|]. intros i Hi.
  rewrite Z.lor_spec, Z.shiftr_spec, (bits_word x), (bits_word (u32 _)) by (auto; lia). reflexivity.
Qed.
Create HintDb wordsdb.
#[local] Hint Resolve word_wrap word_lxor word_rotr : wordsdb.

Lemma word_shiftr x n : word x -> 0 <= n -> word (Z.shiftr x n).
Proof.
  intros Hx Hn. apply word_bits; [apply Z.shiftr_nonneg, Hx|]. intros i Hi. rewrite Z.shiftr_spec, (bits_word x) by (auto; lia). reflexivity.
Qed.
#[local] Hint Resolve word_shiftr : wordsdb.

Lemma s0_Sigma0 x : word x -> s0 x = Sigma0 x.
Proof. intros Hx. unfold s0, Sigma0. now rewrite !rotr_ROTR by (auto; lia). Qed.
Lemma s1_Sigma1 x : word x -> s1 x = Sigma1 x.
Proof. intros Hx. unfold s1, Sigma1. now rewrite !rotr_ROTR by (auto; lia). Qed.
Lemma g0_sigma0 x : word x -> g0 x = sigma0 x.
Proof. intros Hx. unfold g0, sigma0, SHR. rewrite !rotr_ROTR by (auto; lia). now rewrite Z.shiftr_div_pow2 by lia. Qed.
Lemma g1_sigma1 x : word x -> g1 x = sigma1 x.
Proof. intros Hx. unfold g1, sigma1, SHR. rewrite !rotr_ROTR by (auto; lia). now rewrite Z.shiftr_div_pow2 by lia. Qed.

Lemma ch_Ch e f g : word g -> ch e f g = Ch e f g.
Proof.
  intros Hg. unfold ch, Ch. apply Z.bits_inj'. intros i Hi. rewrite Z.lxor_spec, Z.lor_spec, !Z.land_spec, Z.ldiff_spec.
  destruct (Z.lt_ge_cases i 32) as [L|L].
  - unfold wrap. rewrite Z.mod_pow2_bits_low, Z.lnot_spec by lia. destruct (Z.testbit e i), (Z.testbit f i), (Z.testbit g i); reflexivity.
  - rewrite (bits_word g i Hg L), !andb_false_r. cbn. now rewrite xorb_false_r, orb_false_r.
Qed.

Lemma maj_Maj a b c : maj a b c = Maj a b c.
Proof.
  unfold maj, Maj. apply Z.bits_inj'. intros i Hi. rewrite !Z.lxor_spec, !Z.lor_spec, !Z.land_spec, Z.lor_spec.
  destruct (Z.testbit a i), (Z.testbit b i), (Z.testbit c i); reflexivity.
Qed.

(** * Rounds *)

Record words (r : regs) : Prop := {
  w_a : word (ra r); w_b : word (rb r); w_c : word (rc r); w_d : word (rd r);
  w_e : word (re r); w_f : word (rf r); w_g : word (rg r); w_h : word (rh r)
}.

Lemma round_fips r k w : words r -> round r k w = fips_round r (k, w).
Proof.
  intros [Ha Hb Hc Hd He Hf Hg Hh]. unfold round, fips_round. cbn [fst snd].
  rewrite s0_Sigma0, s1_Sigma1, ch_Ch, maj_Maj by assumption. f_equal; unfold wrap.
  - now rewrite Zplus_mod_idemp_l, Zplus_mod_idemp_r.
  - now rewrite Zplus_mod_idemp_r.
Qed.

Lemma round_words r k w : words r -> words (round r k w).
Proof. intros []. split; cbn; auto with wordsdb. Qed.

Lemma rounds_words fuel : forall i w r, words r -> words (rounds fuel i w r).
Proof. induction fuel as [|f IH]; intros i w r Hr; [exact Hr|]. apply IH. now apply round_words. Qed.

Lemma skipn_nth_cons {A} (l : list A) i d : (i < length l)%nat -> skipn i l = nth i l d :: skipn (S i) l.
Proof.
  revert i. induction l as [|x l IH]; intros [|i] Hi; cbn in *; try lia; [reflexivity|]. apply IH. lia.
Qed.

Lemma rounds_fold w : forall fuel i r, words r -> length K = (i + fuel)%nat -> length w = (i + fuel)%nat ->
  rounds fuel i w r = fold_left fips_round (combine (skipn i K) (skipn i w)) r.
Proof.
  induction fuel as [|f IH]; intros i r Hr HK Hw; cbn [rounds].
  { rewrite (skipn_all2 K) by lia. reflexivity. }
  rewrite IH; [|now apply round_words|lia|lia]. 
  rewrite (skipn_nth_cons K i 0), (skipn_nth_cons w i 0) by lia. cbn [combine fold_left]. now rewrite round_fips.
Qed.

Lemma add_regs_words h r : words (add_regs h r).
Proof. split; apply word_wrap. Qed.

(** * The message schedule *)

Lemma W_upto_enough blk : forall f t, (t < f)%nat -> W_upto f blk t = W blk t.
Proof.
  unfold W. induction f as [f IH] using lt_wf_ind. intros t Ht. destruct f as [|f]; [lia|].
  cbn [W_upto]. destruct (Nat.ltb_spec t 16) as [L|L]; [reflexivity|].
  assert (E : forall k, (0 < k <= 16)%nat -> W_upto f blk (t - k) = W_upto t blk (t - k)).
  { intros k Hk. rewrite (IH f) by lia. destruct t as [|t]; [lia|]. symmetry. destruct (Nat.eq_dec (S t) (S f)) as [Ef|Nf].
    - injection Ef as ->. now apply IH; lia.
    - apply (IH (S t)); lia. }
  now rewrite !E by lia.
Qed.

Lemma W_step blk t : (16 <= t)%nat -> W blk t = (sigma1 (W blk (t - 2)) + W blk (t - 7) + sigma0 (W blk (t - 15)) + W blk (t - 16)) mod 2 ^ 32.
Proof.
  intros Ht. unfold W at 1. cbn [W_upto]. destruct (Nat.ltb_spec t 16); [lia|]. now rewrite !W_upto_enough by lia.
Qed.

(** The words written so far are those of the recurrence. *)
Definition scheduled (blk w : list Z) : Prop := Forall word w /\ forall t, (t < length w)%nat -> nth t w 0 = W blk t.

Lemma extend_scheduled blk : forall fuel w, (16 <= length w)%nat -> scheduled blk w ->
  let w' := extend fuel (length w) w in scheduled blk w' /\ length w' = (length w + fuel)%nat.
Proof.
  induction fuel as [|f IH]; intros w Hl [Hw Hn]; cbn [extend]; [rewrite Nat.add_0_r; repeat split; auto|].
  set (x := u32 _). assert (Ex : x = W blk (length w)).
  { assert (P : forall k, (0 < k <= 16)%nat -> word (nth (length w - k) w 0)) by (intros k Hk; apply (proj1 (Forall_nth word w) Hw); lia).
    unfold x, wrap. rewrite g0_sigma0, g1_sigma1 by (apply P; lia). rewrite !Hn by lia. now rewrite (W_step blk (length w)) by lia. }
  specialize (IH (w ++ [x])). rewrite length_app in IH. cbn [length] in IH. rewrite Nat.add_1_r in IH. cbn zeta in IH.
  destruct IH as [IH1 IH2]; [lia| |split; [exact IH1|rewrite IH2; lia]]. split.
  - apply Forall_app. split; [exact Hw|repeat constructor; apply word_wrap].
  - intros t Ht. rewrite length_app in Ht. cbn [length] in Ht. destruct (Nat.eq_dec t (length w)) as [->|N].
    + rewrite app_nth2, Nat.sub_diag by lia. exact Ex.
    + rewrite app_nth1 by lia. apply Hn. lia.
Qed.

(** Four bytes at a position. *)
Lemma load_word_be msg p : bytes_ok msg -> (p + 4 <= length msg)%nat -> load_word msg p = be_decode (firstn 4 (skipn p msg)) /\ word (load_word msg p).
Proof.
  intros Hb Hp. assert (B : forall i, (i < 4)%nat -> is_byte (nth (p + i) msg 0)) by (intros i Hi; apply (proj1 (Forall_nth is_byte msg) Hb); lia).
  assert (E : firstn 4 (skipn p msg) = [nth (p + 0) msg 0; nth (p + 1) msg 0; nth (p + 2) msg 0; nth (p + 3) msg 0]).
  { rewrite (skipn_nth_cons msg p 0), (skipn_nth_cons msg (S p) 0), (skipn_nth_cons msg (S (S p)) 0), (skipn_nth_cons msg (S (S (S p))) 0) by lia.
    cbn [firstn]. repeat f_equal; lia. }
  rewrite E. unfold load_word. pose proof (B 0%nat ltac:(lia)) as B0. pose proof (B 1%nat ltac:(lia)) as B1. pose proof (B 2%nat ltac:(lia)) as B2. pose proof (B 3%nat ltac:(lia)) as B3.
  generalize dependent (nth (p + 0) msg 0). generalize dependent (nth (p + 1) msg 0). generalize dependent (nth (p + 2) msg 0). generalize dependent (nth (p + 3) msg 0).
  clear. intros d Hd c Hc b Hb a Ha. unfold is_byte in *. unfold be_decode. cbn [rev app le_decode]. rewrite !Z.shiftl_mul_pow2 by lia.
  rewrite (lor_disjoint a (b * 2 ^ 16) 24) by lia. replace (a * 2 ^ 24 + b * 2 ^ 16) with ((a * 2 ^ 8 + b) * 2 ^ 16) by lia.
  rewrite (lor_disjoint _ (c * 2 ^ 8) 16) by lia. replace ((a * 2 ^ 8 + b) * 2 ^ 16 + c * 2 ^ 8) with ((a * 2 ^ 16 + b * 2 ^ 8 + c) * 2 ^ 8) by lia.
  rewrite (lor_disjoint _ d 8) by lia. unfold word. lia.
Qed.

Lemma schedule_W msg offset : bytes_ok msg -> (offset + 64 <= length msg)%nat ->
  schedule msg offset = map (W (firstn 64 (skipn offset msg))) (seq 0 64).
Proof.
  intros Hb Hl. unfold schedule. set (w0 := map _ (seq 0 16)). set (blk := firstn 64 (skipn offset msg)).
  assert (L0 : length w0 = 16%nat) by reflexivity.
  assert (N0 : forall t, (t < 16)%nat -> nth t w0 0 = load_word msg (offset + 4 * t)).
  { intros t Ht. unfold w0. rewrite (nth_indep _ 0 (load_word msg (offset + 4 * 0))) by (rewrite length_map, length_seq; lia).
    rewrite (map_nth (fun i => load_word msg (offset + 4 * i))). now rewrite seq_nth by lia. }
  assert (S0 : scheduled blk w0).
  { split.
    - apply Forall_forall. intros x Hx. apply in_map_iff in Hx as (t & <- & Ht). apply in_seq in Ht. now apply load_word_be; [|lia].
    - intros t Ht. rewrite L0 in Ht. rewrite N0 by exact Ht. unfold W. cbn [W_upto]. destruct (Nat.ltb_spec t 16); [|lia].
      unfold block_word, blk. rewrite skipn_firstn_comm, firstn_firstn, skipn_skipn. rewrite Nat.min_l by lia.
      rewrite (Nat.add_comm (4 * t)). apply load_word_be; [exact Hb|lia]. }
  destruct (extend_scheduled blk 48 w0 ltac:(lia) S0) as [[_ Sn] Sl]. rewrite L0 in *. apply nth_ext with (d := 0) (d' := W blk 0).
  - now rewrite Sl, length_map, length_seq.
  - intros t Ht. rewrite Sn by exact Ht. rewrite map_nth, seq_nth by (rewrite Sl in Ht; lia). reflexivity.
Qed.


(** * Padding *)

Lemma set_nth_exact {A} (l1 l2 : list A) x y i : length l1 = i -> set_nth (l1 ++ x :: l2) i y = l1 ++ y :: l2.
Proof.
  intros <-. unfold set_nth. rewrite nth_error_app2, Nat.sub_diag by lia. cbn [nth_error].
  rewrite firstn_app, firstn_all, Nat.sub_diag, skipn_app, (skipn_all2 l1) by lia. cbn [firstn app].
  replace (S (length l1) - length l1)%nat with 1%nat by lia. cbn [skipn]. now rewrite app_nil_r.
Qed.

Lemma write_length_spec bl padded pre : length pre = (padded - 8)%nat -> forall fuel i acc, length acc = i ->
  write_length fuel i bl padded (pre ++ acc ++ repeat 0 fuel) =
  pre ++ acc ++ map (fun j => u8 (Z.shiftr bl (56 - 8 * Z.of_nat j))) (seq i fuel).
Proof.
  intros Hp. induction fuel as [|f IH]; intros i acc Hi; [reflexivity|]. cbn [write_length repeat seq map].
  rewrite (app_assoc pre), set_nth_exact by (rewrite length_app; lia). rewrite <- app_assoc.
  set (b := u8 _). change (b :: repeat 0 f) with ([b] ++ repeat 0 f). rewrite (app_assoc acc), IH by (rewrite length_app; cbn; lia).
  now rewrite <- app_assoc.
Qed.

Lemma length_bytes x : map (fun j => u8 (Z.shiftr x (56 - 8 * Z.of_nat j))) (seq 0 8) = be_encode 8 x.
Proof.
  cbn [seq map be_encode rev app le_encode]. unfold be_encode. cbn [le_encode rev app]. unfold wrap.
  rewrite !Z.shiftr_div_pow2 by lia. rewrite !Z.div_div by lia. repeat (apply f_equal2; [reflexivity || (f_equal; f_equal; reflexivity)|]).
  cbn. now rewrite Z.div_1_r.
Qed.

(** The zeros between the marker and the length. *)
Definition zeros (len : nat) : nat := (padded_size len - len - 9)%nat.

Lemma zeros_spec len : padded_size len = (len + 1 + zeros len + 8)%nat /\ zeros len = Z.to_nat (((448 - (8 * Z.of_nat len + 1)) mod 512 - 7) / 8).
Proof.
  unfold zeros, padded_size. pose proof (Nat.div_mod (len + 9 + 63) 64 ltac:(lia)) as D. pose proof (Nat.mod_upper_bound (len + 9 + 63) 64 ltac:(lia)) as M.
  remember ((len + 9 + 63) / 64)%nat as q. remember ((len + 9 + 63) mod 64)%nat as m. clear Heqq Heqm. split; [lia|].
  assert (E : (448 - (8 * Z.of_nat len + 1)) mod 512 = 8 * (Z.of_nat q * 64 - Z.of_nat len - 9) + 7).
  { symmetry. apply (Z.mod_unique_pos _ 512 (1 - Z.of_nat q)); lia. }
  rewrite E. replace (8 * (Z.of_nat q * 64 - Z.of_nat len - 9) + 7 - 7) with ((Z.of_nat q * 64 - Z.of_nat len - 9) * 8) by lia.
  rewrite Z.div_mul by lia. lia.
Qed.

Lemma skipn_zeros n m : skipn n (repeat 0 m) = repeat 0 (m - n)%nat.
Proof. revert m. induction n as [|n IH]; intros [|m]; try reflexivity. apply IH. Qed.

Lemma pad_fips data : 8 * Z.of_nat (length data) < 2 ^ 64 -> pad data = fips_pad data.
Proof.
  intros Hd. unfold pad, fips_pad. destruct (zeros_spec (length data)) as [Ep Ez]. rewrite <- Ez. set (len := length data) in *. set (z := zeros len) in *.
  unfold memcpy. cbn [firstn app]. replace (firstn len data) with data by (symmetry; apply firstn_all). rewrite skipn_zeros, Ep. replace (len + 1 + z + 8 - (0 + len))%nat with (S (z + 8)) by lia.
  cbn [repeat]. rewrite set_nth_exact, repeat_app by reflexivity. 
  change (data ++ 128 :: repeat 0 z ++ repeat 0 8) with (data ++ ([128] ++ repeat 0 z) ++ [] ++ repeat 0 8). rewrite app_assoc.
  rewrite write_length_spec; [|rewrite !length_app, repeat_length; cbn [length]; fold len; lia|reflexivity].
  rewrite length_bytes. unfold wrap. rewrite Z.mod_small, Z.mul_comm by lia. cbn [app]. now rewrite <- !app_assoc.
Qed.

Lemma fips_pad_ok data : bytes_ok data -> bytes_ok (fips_pad data) /\ (length (fips_pad data) mod 64 = 0)%nat.
Proof.
  intros Hb. unfold fips_pad. destruct (zeros_spec (length data)) as [Ep Ez]. rewrite <- Ez. split.
  - rewrite !bytes_ok_app. split; [exact Hb|split; [|split]].
    + repeat constructor; unfold is_byte; lia.
    + apply Forall_forall. intros x Hx. apply repeat_spec in Hx as ->. unfold is_byte. lia.
    + unfold be_encode. apply Forall_rev, le_encode_bytes.
  - rewrite !length_app, repeat_length. unfold be_encode. rewrite length_rev, le_encode_length. cbn [length].
    replace (length data + (1 + (zeros (length data) + 8)))%nat with (padded_size (length data)) by lia. unfold padded_size. now apply Nat.Div0.mod_mul.
Qed.

(** * Blocks *)

Lemma compress_fips msg h offset : bytes_ok msg -> (offset + 64 <= length msg)%nat -> words h ->
  compress msg h offset = fips_block h (firstn 64 (skipn offset msg)).
Proof.
  intros Hb Hl Hh. unfold compress, fips_block. rewrite schedule_W by assumption. f_equal.
  rewrite rounds_fold; [|exact Hh|reflexivity|rewrite length_map, length_seq; reflexivity]. cbn [skipn]. now rewrite <- K_fips.
Qed.

Lemma blocks_fold msg : bytes_ok msg -> forall n fuel k h, length msg = (64 * (k + n))%nat -> (n < fuel)%nat -> words h ->
  blocks fuel (64 * k) msg h = fold_left fips_block (map (fun i => firstn 64 (skipn (64 * i) msg)) (seq k n)) h.
Proof.
  intros Hb. induction n as [|n IH]; intros fuel k h Hl Hf Hh; (destruct fuel as [|fuel]; [lia|]); cbn [blocks seq map fold_left].
  - destruct (Nat.ltb_spec (64 * k) (length msg)); [lia|reflexivity].
  - destruct (Nat.ltb_spec (64 * k) (length msg)); [|lia]. rewrite compress_fips by (auto; lia).
    replace (64 * k + 64)%nat with (64 * S k)%nat by lia. apply IH; [lia|lia|apply add_regs_words].
Qed.

Lemma be_bytes_encode x : be_bytes x = be_encode 4 x.
Proof.
  unfold be_bytes, be_encode, wrap. cbn [le_encode rev app]. rewrite !Z.shiftr_div_pow2 by lia. rewrite !Z.div_div by lia. reflexivity.
Qed.

Lemma initial_words : words (regs_of initial_h).
Proof. split; vm_compute; split; congruence. Qed.

(** C16: [hash] is SHA-256: for bytes whose number of bits fits 64 bits, what
    [_sha256::hash] computes with its rotations, masks, in-place buffer and
    tables is the digest of FIPS 180-4, whose initial hash and round constants
    are the first 32 bits of the fractional parts of the square and cube roots of
    the first primes. *)
Theorem sha256_fips data : bytes_ok data -> 8 * Z.of_nat (length data) < 2 ^ 64 -> hash data = fips_sha256 data.
Proof.
  intros Hb Hd. unfold hash, fips_sha256. rewrite pad_fips by exact Hd. destruct (fips_pad_ok data Hb) as [Pb Pm].
  set (msg := fips_pad data) in *. apply Nat.Div0.div_exact in Pm. rewrite <- H0_fips.
  assert (L : (0 < length msg)%nat) by (subst msg; unfold fips_pad; rewrite !length_app; cbn [length]; lia).
  unfold chunks. change 0%nat with (64 * 0)%nat at 1.
  rewrite (blocks_fold msg Pb (length msg / 64)); [|exact Pm|lia|exact initial_words].
  apply flat_map_ext. exact be_bytes_encode.
Qed.

Lemma sha256_fips_witness : hex (fips_sha256 [97; 98; 99]) = 0xba7816bf8f01cfea414140de5dae2223b00361a396177a9cb410ff61f20015ad.
Proof. rewrite <- (sha256_fips [97; 98; 99]); [exact hash_abc|apply bytes_ok_forallb; reflexivity|reflexivity]. Defined.
