(* ===== verification/TwRun.v ===== *)
(** Shared by the entry points of taskweft_nif: outcomes of a call (a value, an
    exception, undefined behaviour), the parts of [<string>] and [<cctype>] the
    memory code uses, and binary64 as eight bytes. *)

From Stdlib Require Import ZArith String Ascii List Bool Lia.
From Stdlib Require Import Floats.SpecFloat.
From S2P Require Import Prelude TwValue TwJson TwNodes.
Import ListNotations.
#[local] Open Scope Z_scope.

(** * Outcomes *)

Inductive failure :=
| Parse (e : exn)
| LengthError
| RuntimeError (what : string).

Inductive call_result (A : Type) :=
| Done (a : A)
| Raised (f : failure)
| Undef.
Arguments Done {A}. Arguments Raised {A}. Arguments Undef {A}.

Definition andthen {A B} (m : call_result A) (k : A -> call_result B) : call_result B :=
  match m with Done a => k a | Raised f => Raised f | Undef => Undef end.
Declare Scope run_scope.
Notation "'let?' x := m 'in' k" := (andthen m (fun x => k)) (at level 10, x binder, m at level 100, k at level 200) : run_scope.
#[local] Open Scope run_scope.

Definition of_res {A} (r : res A) : call_result A := match r with Ok a => Done a | Throw e => Raised (Parse e) end.
Definition of_option {A} (o : option A) : call_result A := match o with Some a => Done a | None => Undef end.

Fixpoint map_run {A B} (f : A -> call_result B) (l : list A) : call_result (list B) :=
  match l with
  | [] => Done []
  | a :: r => let? b := f a in let? bs := map_run f r in Done (b :: bs)
  end.

Lemma andthen_done {A B} (m : call_result A) (k : A -> call_result B) b : andthen m k = Done b -> exists a, m = Done a /\ k a = Done b.
Proof. destruct m as [a| |]; [eauto|discriminate..]. Qed.

Lemma map_run_done {A B} (f : A -> call_result B) l bs : map_run f l = Done bs <-> Forall2 (fun a b => f a = Done b) l bs.
Proof.
  revert bs. induction l as [|a r IH]; intros bs; cbn [map_run].
  - split; [intros [= <-]; constructor|inversion 1; reflexivity].
  - split.
    + intros E. apply andthen_done in E as (b & Eb & E). apply andthen_done in E as (br & Er & [= <-]). constructor; [exact Eb|]. now apply IH.
    + inversion 1 as [|? b ? br Eb Er]; subst. rewrite Eb. cbn [andthen]. apply IH in Er as ->. reflexivity.
Qed.

(** * Characters and strings *)

(** [std::tolower] in the C locale. *)
Definition tolower (c : ascii) : ascii := if (65 <=? code c) && (code c <=? 90) then ascii_of_N (N_of_ascii c + 32) else c.

Fixpoint lower (s : string) : string := match s with EmptyString => EmptyString | String c r => String (tolower c) (lower r) end.

Fixpoint has_char (c : ascii) (s : string) : bool :=
  match s with EmptyString => false | String d r => Ascii.eqb c d || has_char c r end.

Definition push_back (s : string) (c : ascii) : string := (s ++ String c EmptyString)%string.

(** [s[i]], [s.find_first_not_of(set)], [s.find_last_not_of(set)]. *)
Fixpoint find_first_not_of (set s : string) : option nat :=
  match s with
  | EmptyString => None
  | String c r => if has_char c set then option_map S (find_first_not_of set r) else Some O
  end.

Fixpoint find_last_not_of (set s : string) : option nat :=
  match s with
  | EmptyString => None
  | String c r =>
      match find_last_not_of set r with
      | Some i => Some (S i)
      | None => if has_char c set then None else Some O
      end
  end.

(** The bytes of a string. *)
Definition string_bytes (s : string) : list Z := map code (list_ascii_of_string s).

(** * binary64 in memory *)

Definition bits_of_double (f : spec_float) : Z :=
  match f with
  | S754_zero s => if s then 2 ^ 63 else 0
  | S754_infinity s => (if s then 2 ^ 63 else 0) + 0x7ff0000000000000
  | S754_nan => 0x7ff8000000000000
  | S754_finite s m e =>
      (if s then 2 ^ 63 else 0) +
      (if Zpos m <? 2 ^ 52 then Zpos m else (e + 1075) * 2 ^ 52 + (Zpos m - 2 ^ 52))
  end.

Definition double_of_bits (b : Z) : spec_float :=
  let s := Z.testbit b 63 in
  let e := (b / 2 ^ 52) mod 2 ^ 11 in
  let m := b mod 2 ^ 52 in
  if e =? 2047 then (if m =? 0 then S754_infinity s else S754_nan)
  else if e =? 0 then match m with Zpos p => S754_finite s p (-1074) | _ => S754_zero s end
  else S754_finite s (Z.to_pos (m + 2 ^ 52)) (e - 1075).

(** A value of the type [double]. *)
Definition is_double (f : spec_float) : Prop := valid_binary 53 1024 f = true.

Lemma digits2_pos_size p : digits2_pos p = Pos.size p.
Proof. induction p as [p IH|p IH|]; cbn [digits2_pos Pos.size]; congruence. Qed.

Lemma digits2_log2 p : Zpos (digits2_pos p) = Z.log2 (Zpos p) + 1.
Proof. rewrite digits2_pos_size. destruct p; cbn; lia. Qed.

(** The mantissas and exponents of doubles: 53 bits, or fewer at the least
    exponent. *)
Lemma bounded_fields m e : bounded 53 1024 m e = true ->
  e <= 971 /\ ((2 ^ 52 <= Zpos m < 2 ^ 53 /\ -1074 <= e) \/ (Zpos m < 2 ^ 52 /\ e = -1074)).
Proof.
  unfold bounded, canonical_mantissa, fexp, emin. rewrite andb_true_iff, Z.leb_le. intros [C L]. apply Z.eqb_eq in C.
  split; [lia|]. rewrite digits2_log2 in C. pose proof (Z.log2_spec (Zpos m) eq_refl) as [P1 P2].
  destruct (Z.lt_ge_cases (Z.log2 (Zpos m)) 52) as [G|G].
  - right. split; [|lia]. apply Z.lt_le_trans with (1 := P2). apply Z.pow_le_mono_r; lia.
  - left. assert (Z.log2 (Zpos m) = 52) as E by lia. rewrite E in *. change (Z.succ 52) with 53 in P2. lia.
Qed.

Lemma decode_fields (s : bool) E M : 0 <= E < 2 ^ 11 -> 0 <= M < 2 ^ 52 ->
  let b := (if s then 2 ^ 63 else 0) + E * 2 ^ 52 + M in
  Z.testbit b 63 = s /\ (b / 2 ^ 52) mod 2 ^ 11 = E /\ b mod 2 ^ 52 = M.
Proof.
  intros HE HM b.
  assert (Eb : b = (Z.b2z s * 2 ^ 11 + E) * 2 ^ 52 + M) by (subst b; destruct s; cbn [Z.b2z]; lia).
  assert (D : b / 2 ^ 52 = Z.b2z s * 2 ^ 11 + E) by (rewrite Eb, Z.div_add_l by lia; rewrite Z.div_small by lia; lia).
  split; [|split].
  - rewrite Z.testbit_eqb by lia. replace (2 ^ 63) with (2 ^ 52 * 2 ^ 11) by reflexivity. rewrite <- Z.div_div by lia.
    rewrite D, Z.div_add_l, (Z.div_small E) by lia. destruct s; reflexivity.
  - rewrite D, Z.add_comm, Z_mod_plus_full. now apply Z.mod_small.
  - rewrite Eb, Z.add_comm, Z_mod_plus_full. now apply Z.mod_small.
Qed.

Lemma double_of_bits_fields (s : bool) E M : 0 <= E < 2 ^ 11 -> 0 <= M < 2 ^ 52 ->
  double_of_bits ((if s then 2 ^ 63 else 0) + E * 2 ^ 52 + M) =
  if E =? 2047 then (if M =? 0 then S754_infinity s else S754_nan)
  else if E =? 0 then match M with Zpos p => S754_finite s p (-1074) | _ => S754_zero s end
  else S754_finite s (Z.to_pos (M + 2 ^ 52)) (E - 1075).
Proof. intros HE HM. unfold double_of_bits. now destruct (decode_fields s E M HE HM) as (-> & -> & ->). Qed.

Lemma double_bits_roundtrip f : is_double f -> double_of_bits (bits_of_double f) = f.
Proof.
  unfold is_double. destruct f as [[]|[]| |s m e]; try reflexivity. intros V. destruct (bounded_fields m e V) as [Le C]. unfold bits_of_double.
  destruct (Z.ltb_spec (Zpos m) (2 ^ 52)) as [L|L].
  - destruct C as [C|[_ ->]]; [lia|]. replace (_ + Zpos m) with ((if s then 2 ^ 63 else 0) + 0 * 2 ^ 52 + Zpos m) by lia.
    now rewrite double_of_bits_fields by lia.
  - destruct C as [[C Ce]|C]; [|lia]. rewrite Z.add_assoc, double_of_bits_fields by lia.
    destruct (Z.eqb_spec (e + 1075) 2047); [lia|]. destruct (Z.eqb_spec (e + 1075) 0); [lia|].
    f_equal; [|lia]. replace (Zpos m - 2 ^ 52 + 2 ^ 52) with (Zpos m) by lia. reflexivity.
Qed.

Lemma bits_of_double_range f : is_double f -> 0 <= bits_of_double f < 2 ^ 64.
Proof.
  unfold is_double. destruct f as [[]|[]| |s m e]; try (intros _; unfold bits_of_double; lia). intros V.
  destruct (bounded_fields m e V) as [Le C]. unfold bits_of_double. destruct (Z.ltb_spec (Zpos m) (2 ^ 52)); destruct s; lia.
Qed.

Lemma bits_fields b : 0 <= b < 2 ^ 64 ->
  b = (if Z.testbit b 63 then 2 ^ 63 else 0) + (b / 2 ^ 52) mod 2 ^ 11 * 2 ^ 52 + b mod 2 ^ 52.
Proof.
  intros Hb. rewrite Z.testbit_eqb by lia. replace (2 ^ 63) with (2 ^ 52 * 2 ^ 11) at 1 by reflexivity. rewrite <- Z.div_div by lia.
  pose proof (Z.div_mod b (2 ^ 52) ltac:(lia)) as D. pose proof (Z.div_mod (b / 2 ^ 52) (2 ^ 11) ltac:(lia)) as D'.
  assert (0 <= b / 2 ^ 52 < 2 ^ 12) by (split; [apply Z.div_pos; lia|apply Z.div_lt_upper_bound; lia]).
  assert (0 <= b / 2 ^ 52 / 2 ^ 11 < 2) by (split; [apply Z.div_pos; lia|apply Z.div_lt_upper_bound; lia]).
  rewrite (Z.mod_small (b / 2 ^ 52 / 2 ^ 11) 2) by lia.
  destruct (Z.eqb_spec (b / 2 ^ 52 / 2 ^ 11) 1); lia.
Qed.

Lemma bits_double_roundtrip b : 0 <= b < 2 ^ 64 -> double_of_bits b <> S754_nan ->
  is_double (double_of_bits b) /\ bits_of_double (double_of_bits b) = b.
Proof.
  intros Hb. pose proof (bits_fields b Hb) as F. unfold double_of_bits.
  set (s := Z.testbit b 63) in *. set (E := (b / 2 ^ 52) mod 2 ^ 11) in *. set (M := b mod 2 ^ 52) in *.
  assert (0 <= E < 2 ^ 11) by (apply Z.mod_pos_bound; lia). assert (0 <= M < 2 ^ 52) by (apply Z.mod_pos_bound; lia). clearbody s E M.
  destruct (Z.eqb_spec E 2047) as [->|N1]; [destruct (Z.eqb_spec M 0) as [->|]; [|congruence]; intros _; rewrite F; split; destruct s; reflexivity|intros _].
  destruct (Z.eqb_spec E 0) as [->|N0]; [destruct M as [|p|p]; [rewrite F; split; destruct s; reflexivity| |lia]|].
  - split.
    + unfold is_double, valid_binary, bounded, canonical_mantissa, fexp, emin. rewrite andb_true_iff, digits2_log2. split; [|reflexivity].
      apply Z.eqb_eq. assert (Z.log2 (Zpos p) < 52) by (apply Z.log2_lt_pow2; lia). lia.
    + cbn [bits_of_double]. destruct (Z.ltb_spec (Zpos p) (2 ^ 52)); lia.
  - assert (Ep : Zpos (Z.to_pos (M + 2 ^ 52)) = M + 2 ^ 52) by (apply Z2Pos.id; lia). split.
    + unfold is_double, valid_binary, bounded, canonical_mantissa, fexp, emin. rewrite andb_true_iff, digits2_log2, Ep, Z.leb_le. split; [|lia].
      apply Z.eqb_eq. assert (Z.log2 (M + 2 ^ 52) = 52) as -> by (apply Z.log2_unique; lia). lia.
    + cbn [bits_of_double]. rewrite Ep. destruct (Z.ltb_spec (M + 2 ^ 52) (2 ^ 52)); lia.
Qed.
