(* ===== verification/Doubles.v ===== *)
(** Rounding of binary64 as the Standard Library specifies it: results of
    [binary_round_aux] in the normal range, integers as doubles, and the order of
    positive doubles. *)

From Stdlib Require Import ZArith List Bool Lia PeanoNat.
From Stdlib Require Import Floats.SpecFloat.
From S2P Require Import Prelude TwValue TwTemporal TwNodes TwRun.
#[local] Open Scope Z_scope.

(** * Shifting right with a rounding and a sticky bit *)

Definition record_of (m : Z) (k : nat) : shr_record :=
  match k with
  | O => {| shr_m := m; shr_r := false; shr_s := false |}
  | S j => {| shr_m := m / 2 ^ Z.of_nat k; shr_r := Z.odd (m / 2 ^ Z.of_nat j); shr_s := negb (m mod 2 ^ Z.of_nat j =? 0) |}
  end.

Lemma shr_1_nonneg m r s : 0 <= m -> shr_1 {| shr_m := m; shr_r := r; shr_s := s |} = {| shr_m := m / 2; shr_r := Z.odd m; shr_s := r || s |}.
Proof.
  intros Hm. destruct m as [|[p|p|]|]; try lia; cbn [shr_1 Z.odd]; try reflexivity; f_equal.
  - rewrite <- (Z.div_unique_pos (Zpos p~1) 2 (Zpos p) 1); lia.
  - rewrite <- (Z.div_unique_pos (Zpos p~0) 2 (Zpos p) 0); lia.
Qed.

Lemma shr_1_record m k : 0 <= m -> shr_1 (record_of m k) = record_of m (S k).
Proof.
  intros Hm. destruct k as [|j].
  - unfold record_of at 1. rewrite shr_1_nonneg by exact Hm. cbn [record_of]. change (Z.of_nat 1) with 1. change (Z.of_nat 0) with 0.
    rewrite Z.pow_1_r, Z.pow_0_r, Z.div_1_r, Z.mod_1_r. reflexivity.
  - unfold record_of at 1. rewrite shr_1_nonneg by (apply Z.div_pos; lia). cbn [record_of].
    assert (P : 0 < 2 ^ Z.of_nat j) by lia.
    assert (E : 2 ^ Z.of_nat (S j) = 2 ^ Z.of_nat j * 2) by (rewrite Nat2Z.inj_succ, Z.pow_succ_r by lia; lia).
    f_equal.
    + rewrite Z.div_div by lia. rewrite (Nat2Z.inj_succ (S j)), Z.pow_succ_r by lia. f_equal. lia.
    + rewrite E, Z.rem_mul_r by lia. rewrite Zmod_odd. pose proof (Z.mod_pos_bound m (2 ^ Z.of_nat j) P).
      destruct (Z.odd (m / 2 ^ Z.of_nat j)), (Z.eqb_spec (m mod 2 ^ Z.of_nat j) 0), (Z.eqb_spec (m mod 2 ^ Z.of_nat j + 2 ^ Z.of_nat j * 1) 0),
        (Z.eqb_spec (m mod 2 ^ Z.of_nat j + 2 ^ Z.of_nat j * 0) 0); try reflexivity; lia.
Qed.

Lemma iter_pos_nat {A} (f : A -> A) p : forall x, iter_pos f p x = Nat.iter (Pos.to_nat p) f x.
Proof.
  induction p as [p IH|p IH|]; intros x; cbn [iter_pos]; [| |reflexivity].
  - rewrite !IH, <- Nat.iter_add, Pos2Nat.inj_xI. replace (S (2 * Pos.to_nat p)) with ((Pos.to_nat p + Pos.to_nat p) + 1)%nat by lia. now rewrite (Nat.iter_add (Pos.to_nat p + Pos.to_nat p) 1).
  - rewrite !IH, <- Nat.iter_add, Pos2Nat.inj_xO. f_equal. lia.
Qed.

Lemma shr_record m e k : 0 <= m -> 0 <= k -> shr {| shr_m := m; shr_r := false; shr_s := false |} e k = (record_of m (Z.to_nat k), e + k).
Proof.
  intros Hm Hk. destruct k as [|p|p]; [|cbn [shr]|lia]; [cbn; f_equal; lia|]. rewrite iter_pos_nat, Z2Nat.inj_pos. f_equal.
  induction (Pos.to_nat p) as [|n IH]; [reflexivity|]. rewrite Nat.iter_succ, IH. now apply shr_1_record.
Qed.

(** Rounded to the nearest multiple of [2^k]. *)
Definition rounded (m : Z) (k : nat) : Z := round_nearest_even (shr_m (record_of m k)) (loc_of_shr_record (record_of m k)).

Lemma rounded_spec m k : 0 <= m ->
  2 * Z.abs (rounded m k * 2 ^ Z.of_nat k - m) <= 2 ^ Z.of_nat k /\ m / 2 ^ Z.of_nat k <= rounded m k <= m / 2 ^ Z.of_nat k + 1.
Proof.
  intros Hm. unfold rounded. destruct k as [|j]; [cbn [record_of shr_m loc_of_shr_record round_nearest_even]; change (Z.of_nat 0) with 0; rewrite Z.pow_0_r, Z.div_1_r; lia|].
  cbn [record_of shr_m loc_of_shr_record]. assert (P : 0 < 2 ^ Z.of_nat j) by lia.
  assert (E : 2 ^ Z.of_nat (S j) = 2 ^ Z.of_nat j * 2) by (rewrite Nat2Z.inj_succ, Z.pow_succ_r by lia; lia). rewrite E, <- Z.div_div by lia.
  set (D := 2 ^ Z.of_nat j) in *. pose proof (Z.div_mod m D ltac:(lia)) as E1. pose proof (Z.mod_pos_bound m D P) as B1.
  pose proof (Z.div_mod (m / D) 2 ltac:(lia)) as E2. rewrite Zmod_odd in E2. set (q := m / D / 2) in *. set (r := m mod D) in *.
  destruct (Z.odd (m / D)), (Z.eqb_spec r 0); cbn [negb round_nearest_even]; try destruct (Z.even q); nia.
Qed.

(** * Rounding to 53 bits *)

Lemma digits2_range m n : 2 ^ n <= Zpos m < 2 ^ (n + 1) -> 0 <= n -> Zpos (digits2_pos m) = n + 1.
Proof. intros Hm Hn. rewrite digits2_log2. f_equal. now apply Z.log2_unique. Qed.

Lemma shr_fexp_53 m e k : 2 ^ (52 + k) <= m < 2 ^ (53 + k) -> 0 <= k -> -1074 <= e + k ->
  shr_fexp 53 1024 m e loc_Exact = (record_of m (Z.to_nat k), e + k).
Proof.
  intros Hm Hk He. assert (0 < 2 ^ (52 + k)) by lia. destruct m as [|p|p]; try lia. unfold shr_fexp, Zdigits2, fexp, emin, shr_record_of_loc.
  rewrite (digits2_range p (52 + k)) by (try replace (52 + k + 1) with (53 + k) by lia; lia).
  replace (Z.max (52 + k + 1 + e - 53) (3 - 1024 - 53) - e) with k by lia. apply shr_record; lia.
Qed.

Lemma rounded_53 m k : 2 ^ (52 + k) <= m < 2 ^ (53 + k) -> 0 <= k ->
  2 ^ 52 <= rounded m (Z.to_nat k) <= 2 ^ 53 /\ 2 * Z.abs (rounded m (Z.to_nat k) * 2 ^ k - m) <= 2 ^ k.
Proof.
  intros Hm Hk. assert (P : 0 < 2 ^ k) by lia. destruct (rounded_spec m (Z.to_nat k)) as [B1 B]; [lia|].
  rewrite Z2Nat.id in B1, B by lia. split; [|exact B1]. rewrite !Z.pow_add_r in Hm by lia.
  assert (2 ^ 52 <= m / 2 ^ k) by (apply Z.div_le_lower_bound; lia). assert (m / 2 ^ k < 2 ^ 53) by (apply Z.div_lt_upper_bound; lia). lia.
Qed.

(** The result of rounding [m * 2^e]: the nearest multiple of [2^(e+k)], with its
    carry into the exponent. *)
Lemma round_aux_53 s m e k : 2 ^ (52 + k) <= m < 2 ^ (53 + k) -> 0 <= k -> -1074 <= e + k <= 970 ->
  let R := rounded m (Z.to_nat k) in
  binary_round_aux 53 1024 s m e loc_Exact =
    if R =? 2 ^ 53 then S754_finite s (Z.to_pos (2 ^ 52)) (e + k + 1) else S754_finite s (Z.to_pos R) (e + k).
Proof.
  intros Hm Hk He R. unfold binary_round_aux. rewrite (shr_fexp_53 m e k) by lia. fold (rounded m (Z.to_nat k)). fold R.
  destruct (rounded_53 m k Hm Hk) as [HR _]. fold R in HR.
  destruct (Z.eqb_spec R (2 ^ 53)) as [E|N].
  - rewrite E, (shr_fexp_53 (2 ^ 53) (e + k) 1) by lia. change (shr_m (record_of (2 ^ 53) (Z.to_nat 1))) with (2 ^ 52).
    change (2 ^ 52) with (Zpos 4503599627370496). cbv iota. destruct (Z.leb_spec (e + k + 1) (1024 - 53)); [reflexivity|lia].
  - rewrite (shr_fexp_53 R (e + k) 0) by lia. cbn [Z.to_nat record_of shr_m]. rewrite Z.add_0_r.
    destruct R as [|p|p]; try lia. destruct (Z.leb_spec (e + k) (1024 - 53)); [reflexivity|lia].
Qed.

Lemma bounded_53 m e : 2 ^ 52 <= Zpos m < 2 ^ 53 -> -1074 <= e <= 971 -> bounded 53 1024 m e = true.
Proof.
  intros Hm He. unfold bounded, canonical_mantissa, fexp, emin. rewrite (digits2_range m 52) by (change (52 + 1) with 53; lia).
  apply andb_true_iff. split; [apply Z.eqb_eq|apply Z.leb_le]; lia.
Qed.

(** * Integers *)

Lemma iter_xO_pow p d : Zpos (Pos.iter xO p d) = Zpos p * 2 ^ Zpos d.
Proof.
  induction d as [|d IH] using Pos.peano_ind; [cbn; lia|]. rewrite Pos.iter_succ, Pos2Z.inj_succ, Z.pow_succ_r by lia. lia.
Qed.

Lemma double_pos v : 0 < v < 2 ^ 53 -> double v = S754_finite false (Z.to_pos (v * 2 ^ (52 - Z.log2 v))) (Z.log2 v - 52).
Proof.
  intros Hv. destruct v as [|p|p]; try lia. unfold double, binary_normalize, binary_round. rewrite digits2_log2.
  pose proof (Z.log2_spec (Zpos p) ltac:(lia)) as [L1 L2]. set (j := Z.log2 (Zpos p)) in *.
  assert (0 <= j) by apply Z.log2_nonneg. assert (j < 53) by (apply Z.log2_lt_pow2; lia).
  assert (F : fexp 53 1024 (j + 1 + 0) = j - 52) by (unfold fexp, emin; lia). rewrite F.
  assert (A : shl_align p 0 (j - 52) = (Z.to_pos (Zpos p * 2 ^ (52 - j)), j - 52)).
  { unfold shl_align. rewrite Z.sub_0_r. destruct (j - 52) as [|d|d] eqn:D; [|lia|].
    - replace (52 - j) with 0 by lia. now rewrite Z.pow_0_r, Z.mul_1_r.
    - replace (52 - j) with (Zpos d) by lia. f_equal. now rewrite <- iter_xO_pow. }
  rewrite A. assert (M : 2 ^ 52 <= Zpos p * 2 ^ (52 - j) < 2 ^ 53).
  { assert (EP : 2 ^ j * 2 ^ (52 - j) = 2 ^ 52) by (rewrite <- Z.pow_add_r by lia; f_equal; lia).
    rewrite Z.pow_succ_r in L2 by lia. change (2 ^ 53) with (2 * 2 ^ 52). rewrite <- EP. assert (0 < 2 ^ (52 - j)) by lia. nia. }
  rewrite Z2Pos.id by lia. rewrite (round_aux_53 false _ (j - 52) 0) by lia. cbv zeta. change (rounded (Zpos p * 2 ^ (52 - j)) (Z.to_nat 0)) with (Zpos p * 2 ^ (52 - j)).
  destruct (Z.eqb_spec (Zpos p * 2 ^ (52 - j)) (2 ^ 53)); [lia|]. now rewrite Z.add_0_r.
Qed.

(** * Order *)

Lemma SFltb_pos m1 e1 m2 e2 : e1 < e2 \/ (e1 = e2 /\ Zpos m1 < Zpos m2) -> SFltb (S754_finite false m1 e1) (S754_finite false m2 e2) = true.
Proof.
  intros C. unfold SFltb, SFcompare. destruct (Z.compare_spec e1 e2); [|reflexivity|lia].
  destruct C as [C|[_ C]]; [lia|]. change (Pos.compare_cont Eq m1 m2) with (Pos.compare m1 m2). now apply Pos.compare_lt_iff in C as ->.
Qed.
