(* ===== verification/TwHrr.v ===== *)
(** taskweft_nif/standalone/tw_hrr.hpp: vectors of phases that stand for words,
    texts and facts, and their bytes.

    A read past the end of a vector is [Undef]. *)

From Stdlib Require Import ZArith String Ascii List Bool Lia.
From Stdlib Require Import Floats.SpecFloat.
From S2P Require Import Prelude TwValue TwJson TwTemporal TwNodes TwSha256 TwRun.
Import ListNotations.
#[local] Open Scope string_scope.
#[local] Open Scope Z_scope.
#[local] Open Scope double_scope.
#[local] Open Scope run_scope.

Definition PhaseVec := list spec_float.

(** 6.283185307179586 *)
Definition TWO_PI : spec_float := S754_finite false 7074237752028440 (-50).

Example two_pi_literal : strtod false 6283185307179586 (-15) = Ok TWO_PI.
Proof. reflexivity. Qed.

(** * Atoms *)

Definition phase (val : Z) : spec_float := double val *f (TWO_PI /f double 65536).

(** The pairs of bytes of a digest, little-endian. *)
Fixpoint digest_values (digest : list Z) : list Z :=
  match digest with
  | lo :: hi :: r => Z.lor lo (Z.shiftl hi 8) :: digest_values r
  | _ => []
  end.

(** The inner loop: [phases] until it has [dim] elements. *)
Fixpoint push_phases (vals : list Z) (dim : Z) (phases : PhaseVec) : PhaseVec :=
  match vals with
  | [] => phases
  | v :: r => if Z.of_nat (length phases) <? dim then push_phases r dim (phases ++ [phase v])%list else phases
  end.

Definition atom_key (word : string) (i : Z) : string := word ++ ":" ++ show_int i.

Fixpoint atom_blocks (fuel : nat) (i : Z) (word : string) (dim : Z) (phases : PhaseVec) : PhaseVec :=
  match fuel with
  | O => phases
  | S f =>
      if Z.of_nat (length phases) <? dim then
        atom_blocks f (i + 1) word dim (push_phases (digest_values (hash (string_bytes (atom_key word i)))) dim phases)
      else phases
  end.

(** [dim] is an [int]: [dim + 15] may overflow; [reserve] of a negative size
    throws. *)
Definition encode_atom (word : string) (dim : Z) : call_result PhaseVec :=
  if 2 ^ 31 <=? dim + 15 then Undef
  else
    let blocks_needed := Z.quot (dim + 15) 16 in
    if dim <? 0 then Raised LengthError
    else Done (atom_blocks (Z.to_nat blocks_needed) 0 word dim []).

(** * Algebra *)

(** An operation on [a[i]] and [b[i]] for each index of [a]. *)
Fixpoint pointwise {A B C} (f : A -> B -> C) (a : list A) (b : list B) : call_result (list C) :=
  match a with
  | [] => Done []
  | x :: a' => match b with
               | [] => Undef
               | y :: b' => let? r := pointwise f a' b' in Done (f x y :: r)
               end
  end.

Definition positive_phase (v : spec_float) : spec_float := if v <f f0 then v +f TWO_PI else v.

Definition bind : PhaseVec -> PhaseVec -> call_result PhaseVec := pointwise (fun x y => fmod (x +f y) TWO_PI).
Definition unbind : PhaseVec -> PhaseVec -> call_result PhaseVec := pointwise (fun x y => positive_phase (fmod (x -f y) TWO_PI)).

Section Vectors.
Context `{Libm}.

(** One vector's sines and cosines, added to the sums. *)
Definition add_phasor (sum : spec_float * spec_float) (x : spec_float) : spec_float * spec_float :=
  (fst sum +f std_sin x, snd sum +f std_cos x).

Fixpoint add_vectors (vecs : list PhaseVec) (sums : list (spec_float * spec_float)) : call_result (list (spec_float * spec_float)) :=
  match vecs with
  | [] => Done sums
  | v :: r => let? sums := pointwise add_phasor sums v in add_vectors r sums
  end.

Definition bundle (vecs : list PhaseVec) : call_result PhaseVec :=
  match vecs with
  | [] => Done []
  | v0 :: _ =>
      let? sums := add_vectors vecs (repeat (f0, f0) (length v0)) in
      Done (map (fun sc => positive_phase (std_atan2 (fst sc) (snd sc))) sums)
  end.

Definition similarity (a b : PhaseVec) : call_result spec_float :=
  match a with
  | [] => Done f0
  | _ => let? cs := pointwise (fun x y => std_cos (x -f y)) a b in
         Done (fold_left fadd cs f0 /f double (Z.of_nat (length a)))
  end.

(** [1e18] *)
Definition snr_estimate (dim n_items : Z) : spec_float :=
  if n_items <=? 0 then double (10 ^ 18) else fsqrt (double dim /f double n_items).

(** * Text *)

Definition PUNCT : string := ".,!?;:" ++ String quote "'()[]{}-".

Definition flush (tokens : list string) (word : string) : list string :=
  if is_empty word then tokens
  else
    match find_first_not_of PUNCT word, find_last_not_of PUNCT word with
    | Some s, Some e => (tokens ++ [String.substring s (e - s + 1) word])%list
    | _, _ => tokens
    end.

Fixpoint tokenize_from (text : string) (tokens : list string) (word : string) : list string :=
  match text with
  | EmptyString => flush tokens word
  | String c r =>
      if isspace c then tokenize_from r (flush tokens word) EmptyString
      else tokenize_from r tokens (push_back word (tolower c))
  end.
Definition tokenize (text : string) : list string := tokenize_from text [] EmptyString.

Definition encode_text (text : string) (dim : Z) : call_result PhaseVec :=
  match tokenize text with
  | [] => encode_atom "__hrr_empty__" dim
  | tokens => let? vecs := map_run (fun tok => encode_atom tok dim) tokens in bundle vecs
  end.

Definition encode_binding (content entity : string) (dim : Z) : call_result PhaseVec :=
  let? c := encode_text content dim in
  let? e := encode_atom (lower entity) dim in
  bind c e.

Definition encode_fact (content : string) (entities : list string) (dim : Z) : call_result PhaseVec :=
  let? role_content := encode_atom "__hrr_role_content__" dim in
  let? role_entity := encode_atom "__hrr_role_entity__" dim in
  let? c := encode_text content dim in
  let? first := bind c role_content in
  let? rest := map_run (fun e => let? a := encode_atom (lower e) dim in bind a role_entity) entities in
  bundle (first :: rest).

End Vectors.

(** * Bytes *)

(** Each phase copied into its eight bytes of a zeroed buffer. *)
Fixpoint copy_phases (i : nat) (phases : PhaseVec) (out : list Z) : list Z :=
  match phases with
  | [] => out
  | p :: r => copy_phases (S i) r (memcpy out (i * 8) (le_encode 8 (bits_of_double p)) 8)
  end.
Definition phases_to_bytes (phases : PhaseVec) : list Z := copy_phases 0 phases (repeat 0 (length phases * 8)).

Definition bytes_to_phases (data : list Z) : PhaseVec :=
  map (fun i => double_of_bits (le_decode (firstn 8 (skipn (i * 8) data)))) (seq 0 (length data / 8)).
