(* ===== verification/TwHrrProofs.v ===== *)
(** taskweft_nif/standalone/tw_hrr.hpp: atoms are prefixes of a stream of phases
    in [0, 2pi), the encoders stay inside their vectors, tokens are the trimmed
    words of the text, and vectors survive their bytes. *)

From Stdlib Require Import ZArith String Ascii List Bool Lia PeanoNat.
From Stdlib Require Import Floats.SpecFloat.
From S2P Require Import Prelude TwValue TwJson TwTemporal TwNodes TwSha256 TwRun Doubles TwHrr.
Import ListNotations.
#[local] Open Scope Z_scope.
#[local] Open Scope run_scope.

(** * Digests *)

Lemma length_digest_values l n : length l = (2 * n)%nat -> length (digest_values l) = n.
Proof.
  revert l. induction n as [|n IH]; intros l Hl.
  - now destruct l.
  - destruct l as [|a [|b l]]; cbn in *; try lia. f_equal. apply IH. lia.
Qed.

Lemma digest_values_range l : bytes_ok l -> Forall (fun v => 0 <= v < 65536) (digest_values l).
Proof.
  revert l. assert (G : forall n l, (length l <= n)%nat -> bytes_ok l -> Forall (fun v => 0 <= v < 65536) (digest_values l)); [|eauto].
  induction n as [|n IH]; intros [|a [|b l]] Hn Hb; cbn [digest_values]; try constructor; cbn in Hn; try lia.
  - inversion Hb as [|? ? Ha Hb']; subst. inversion Hb' as [|? ? Hb0 _]; subst. unfold is_byte in *. rewrite Z.shiftl_mul_pow2 by lia.
    rewrite (lor_disjoint_r b a 8) by lia. lia.
  - apply IH; [lia|]. inversion Hb as [|? ? Ha Hb']; subst. now inversion Hb'.
Qed.

Lemma hash_shape data : length (hash data) = 32%nat /\ bytes_ok (hash data).
Proof.
  unfold hash. set (r := blocks _ _ _ _). split; [reflexivity|]. unfold list_of. apply Forall_flat_map, Forall_forall.
  intros x _. unfold be_bytes. repeat constructor; apply (wrap_range 8); lia.
Qed.

(** The values a word's blocks draw, without end. *)
Definition block_values (word : string) (i : Z) : list Z := digest_values (hash (string_bytes (atom_key word i))).
Definition atom_values (word : string) (i : Z) (n : nat) : list Z := flat_map (fun j => block_values word (i + Z.of_nat j)) (seq 0 n).

Lemma block_values_shape word i : length (block_values word i) = 16%nat /\ Forall (fun v => 0 <= v < 65536) (block_values word i).
Proof.
  destruct (hash_shape (string_bytes (atom_key word i))) as [L B]. split; [now apply length_digest_values|now apply digest_values_range].
Qed.

Lemma atom_values_S word i n : atom_values word i (S n) = block_values word i ++ atom_values word (i + 1) n.
Proof.
  unfold atom_values. cbn [seq flat_map]. rewrite Z.add_0_r. f_equal. rewrite <- seq_shift, flat_map_concat_map, map_map, flat_map_concat_map.
  f_equal. apply map_ext. intros j. f_equal. lia.
Qed.

Lemma length_atom_values word n : forall i, length (atom_values word i n) = (16 * n)%nat.
Proof. induction n as [|n IH]; intros i; [reflexivity|]. rewrite atom_values_S, length_app, IH. destruct (block_values_shape word i) as [-> _]. lia. Qed.

Lemma atom_values_range word n : forall i, Forall (fun v => 0 <= v < 65536) (atom_values word i n).
Proof. induction n as [|n IH]; intros i; [constructor|]. rewrite atom_values_S. apply Forall_app. split; [apply block_values_shape|apply IH]. Qed.

(** Appending to a stream's end keeps its beginning. *)
Lemma atom_values_app word n m : forall i, atom_values word i (n + m) = atom_values word i n ++ atom_values word (i + Z.of_nat n) m.
Proof.
  induction n as [|n IH]; intros i; cbn [Nat.add]; [rewrite Z.add_0_r; reflexivity|].
  rewrite !atom_values_S, IH, <- app_assoc. do 3 f_equal. lia.
Qed.

(** * Atoms *)

Lemma push_phases_firstn vals dim : forall phases, Z.of_nat (length phases) <= dim ->
  push_phases vals dim phases = phases ++ firstn (Z.to_nat dim - length phases) (map phase vals).
Proof.
  induction vals as [|v r IH]; intros phases Hp; cbn [push_phases map]; [now rewrite firstn_nil, app_nil_r|].
  destruct (Z.ltb_spec (Z.of_nat (length phases)) dim) as [L|L].
  - rewrite IH by (rewrite length_app; cbn; lia). rewrite length_app, <- app_assoc. cbn [length app]. f_equal.
    replace (Z.to_nat dim - length phases)%nat with (S (Z.to_nat dim - (length phases + 1))) by lia. reflexivity.
  - replace (Z.to_nat dim - length phases)%nat with 0%nat by lia. now rewrite app_nil_r.
Qed.

Lemma atom_blocks_firstn word dim n : forall i phases, Z.of_nat (length phases) <= dim ->
  atom_blocks n i word dim phases = phases ++ firstn (Z.to_nat dim - length phases) (map phase (atom_values word i n)).
Proof.
  induction n as [|n IH]; intros i phases Hp; cbn [atom_blocks]; [now rewrite firstn_nil, app_nil_r|].
  destruct (Z.ltb_spec (Z.of_nat (length phases)) dim) as [L|L].
  - fold (block_values word i). rewrite push_phases_firstn by exact Hp.
    set (k := (Z.to_nat dim - length phases)%nat). rewrite IH by (rewrite length_app, length_firstn; lia).
    rewrite atom_values_S, map_app, firstn_app, <- app_assoc. f_equal. f_equal. f_equal. rewrite !length_app, !length_firstn. lia.
  - replace (Z.to_nat dim - length phases)%nat with 0%nat by lia. now rewrite app_nil_r.
Qed.

Definition dim_ok (dim : Z) : Prop := 0 <= dim /\ dim + 15 < 2 ^ 31.

(** Any number of blocks that is enough gives the atom. *)
Lemma encode_atom_values word dim n : dim_ok dim -> dim <= 16 * Z.of_nat n ->
  encode_atom word dim = Done (firstn (Z.to_nat dim) (map phase (atom_values word 0 n))).
Proof.
  intros [D0 D1] Hn. unfold encode_atom. destruct (Z.leb_spec (2 ^ 31) (dim + 15)); [lia|]. destruct (Z.ltb_spec dim 0); [lia|].
  f_equal. rewrite atom_blocks_firstn by (cbn; lia). cbn [length app]. rewrite Nat.sub_0_r.
  assert (Q : Z.quot (dim + 15) 16 = (dim + 15) / 16) by (apply Z.quot_div_nonneg; lia). set (b := Z.to_nat (Z.quot (dim + 15) 16)).
  assert (Hb : (b <= n)%nat).
  { unfold b. rewrite Q. apply Nat2Z.inj_le. rewrite Z2Nat.id by (apply Z.div_pos; lia).
    enough ((dim + 15) / 16 < Z.of_nat n + 1) by lia. apply Z.div_lt_upper_bound; lia. }
  assert (Hd : dim <= 16 * Z.of_nat b).
  { unfold b. rewrite Q, Z2Nat.id by (apply Z.div_pos; lia). pose proof (Z.div_mod (dim + 15) 16 ltac:(lia)). pose proof (Z.mod_pos_bound (dim + 15) 16 ltac:(lia)). lia. }
  replace n with (b + (n - b))%nat by lia. rewrite atom_values_app, map_app, firstn_app, length_map, length_atom_values.
  replace (Z.to_nat dim - 16 * b)%nat with 0%nat by lia. now rewrite app_nil_r.
Qed.

Lemma encode_atom_length word dim : dim_ok dim -> exists v, encode_atom word dim = Done v /\ length v = Z.to_nat dim.
Proof.
  intros D. exists (firstn (Z.to_nat dim) (map phase (atom_values word 0 (Z.to_nat dim)))). split.
  - apply encode_atom_values; [exact D|]. destruct D. lia.
  - rewrite length_firstn, length_map, length_atom_values. destruct D. lia.
Qed.

(** A double from 0 to below 2pi. *)
Definition in_circle (x : spec_float) : Prop := is_double x /\ SFltb x f0 = false /\ SFltb x TWO_PI = true.

(** The quantum of the circle is exact: [TWO_PI] with another exponent. *)
Lemma quantum : fdiv TWO_PI (double 65536) = S754_finite false 7074237752028440 (-66).
Proof. reflexivity. Qed.

(** A positive double in the normal range below 2pi. *)
Lemma in_circle_finite q e : 2 ^ 52 <= q < 2 ^ 53 -> -1074 <= e -> e < -50 \/ (e = -50 /\ q < 7074237752028440) ->
  in_circle (S754_finite false (Z.to_pos q) e).
Proof.
  intros Hq He C. assert (E : Zpos (Z.to_pos q) = q) by (apply Z2Pos.id; lia). split; [|split].
  - apply bounded_53; lia.
  - reflexivity.
  - apply SFltb_pos. rewrite E. exact C.
Qed.

Lemma phase_circle v : 0 <= v < 65536 -> in_circle (phase v).
Proof.
  intros Hv. destruct (Z.eq_dec v 0) as [->|N]; [repeat split|]. unfold phase. rewrite quantum, double_pos by lia.
  pose proof (Z.log2_spec v ltac:(lia)) as [L1 L2]. set (j := Z.log2 v) in *. assert (0 <= j) by apply Z.log2_nonneg.
  assert (j < 16) by (apply Z.log2_lt_pow2; lia). set (C := 7074237752028440). set (a := v * 2 ^ (52 - j)).
  assert (EP : 2 ^ j * 2 ^ (52 - j) = 2 ^ 52) by (rewrite <- Z.pow_add_r by lia; f_equal; lia).
  assert (Ha : 2 ^ 52 <= a < 2 ^ 53) by (rewrite Z.pow_succ_r in L2 by lia; assert (0 < 2 ^ (52 - j)) by lia; unfold a; nia).
  cbn [fmul SFmul xorb]. change (Zpos (Z.to_pos a * 7074237752028440)) with (Zpos (Z.to_pos a) * C). rewrite Z2Pos.id by lia.
  assert (K : exists k, (k = 52 \/ k = 53) /\ 2 ^ (52 + k) <= a * C < 2 ^ (53 + k)).
  { destruct (Z.lt_ge_cases (a * C) (2 ^ 105)); [exists 52; change (52 + 52) with 104; change (53 + 52) with 105|exists 53; change (52 + 53) with 105; change (53 + 53) with 106]; unfold C in *; lia. }
  destruct K as (k & Hk & Hm). rewrite (round_aux_53 false (a * C) (j - 52 + -66) k) by (clear - Hk Hm H H0; lia). cbv zeta.
  destruct (rounded_53 (a * C) k Hm ltac:(lia)) as [HR B1]. set (R := rounded (a * C) (Z.to_nat k)) in *.
  destruct (Z.eqb_spec R (2 ^ 53)) as [E|NE]; apply in_circle_finite; try lia.
  - destruct (Z.eq_dec (j - 52 + -66 + k + 1) (-49)); [exfalso|lia]. assert (j = 15) as Ej by lia. assert (k = 53) as Ek by lia.
    unfold a, C in *. rewrite Ej, Ek in *. lia.
  - destruct (Z.eq_dec (j - 52 + -66 + k) (-50)); [right|lia]. assert (j = 15) as Ej by lia. assert (k = 53) as Ek by lia.
    unfold a, C in *. rewrite Ej, Ek in *. lia.
Qed.

(** C36: An atom of [dim] phases is the first [dim] elements of an endless stream
    that the word alone determines, sixteen from each SHA-256 block: whatever
    number of blocks is enough gives the same vector, a smaller dimension gives a
    prefix, and every phase is a double from 0 to below 2pi. *)
Theorem atom_stream word dim n : dim_ok dim -> dim <= 16 * Z.of_nat n ->
  exists v, encode_atom word dim = Done v /\ v = firstn (Z.to_nat dim) (map phase (atom_values word 0 n)) /\
    length v = Z.to_nat dim /\ Forall in_circle v /\
    (forall dim', 0 <= dim' <= dim -> encode_atom word dim' = Done (firstn (Z.to_nat dim') v)).
Proof.
  intros D Hn. eexists. rewrite (encode_atom_values word dim n D Hn). repeat split.
  - rewrite length_firstn, length_map, length_atom_values. destruct D. lia.
  - rewrite firstn_map. apply Forall_map, Forall_forall. intros x Hx. apply phase_circle.
    pose proof (atom_values_range word n 0) as F. rewrite Forall_forall in F. apply F. rewrite <- (firstn_skipn (Z.to_nat dim)), in_app_iff. now left.
  - intros dim' H. rewrite firstn_firstn, Nat.min_l by lia. apply encode_atom_values; [|lia]. destruct D. split; lia.
Qed.

Lemma atom_stream_witness : exists v, encode_atom "gem" 20 = Done v /\ length v = 20%nat /\ encode_atom "gem" 5 = Done (firstn 5 v).
Proof.
  destruct (atom_stream "gem" 20 2) as (v & E & _ & L & _ & P); [split; [lia|reflexivity]|cbn; lia|].
  exists v. split; [exact E|]. split; [exact L|]. exact (P 5 ltac:(lia)).
Defined.

(** * Vectors of one length *)

Lemma pointwise_done {A B C} (f : A -> B -> C) a : forall b, (length a <= length b)%nat ->
  exists r, pointwise f a b = Done r /\ length r = length a.
Proof.
  induction a as [|x a IH]; intros b Hb; cbn [pointwise]; [now exists []|]. destruct b as [|y b]; cbn in Hb; [lia|].
  destruct (IH b ltac:(lia)) as (r & -> & L). cbn [andthen]. eexists. split; [reflexivity|]. cbn. lia.
Qed.

Lemma pointwise_short {A B C} (f : A -> B -> C) a : forall b, (length b < length a)%nat -> pointwise f a b = Undef.
Proof.
  induction a as [|x a IH]; intros b Hb; cbn in Hb; [lia|]. cbn [pointwise]. destruct b as [|y b]; [reflexivity|].
  now rewrite (IH b) by (cbn in Hb; lia).
Qed.

Section Encoders.
Context `{Libm}.

Definition vector (dim : Z) (r : call_result PhaseVec) : Prop := exists v, r = Done v /\ length v = Z.to_nat dim.

Lemma add_vectors_done n vecs : Forall (fun v => length v = n) vecs -> forall sums, length sums = n ->
  exists r, add_vectors vecs sums = Done r /\ length r = n.
Proof.
  induction 1 as [|v vecs Hv Hs IH]; intros sums L; cbn [add_vectors]; [eauto|].
  destruct (pointwise_done add_phasor sums v ltac:(lia)) as (s & -> & Ls). apply IH. lia.
Qed.

Lemma bundle_vector dim vecs : vecs <> [] -> Forall (fun v => length v = Z.to_nat dim) vecs -> vector dim (bundle vecs).
Proof.
  intros N F. destruct vecs as [|v0 vecs]; [congruence|]. unfold bundle. inversion F as [|? ? L0 _]; subst.
  destruct (add_vectors_done _ _ F (repeat (f0, f0) (length v0))) as (s & -> & Ls); [rewrite repeat_length; exact L0|].
  eexists. split; [reflexivity|]. now rewrite length_map.
Qed.

Lemma atom_vector word dim : dim_ok dim -> vector dim (encode_atom word dim).
Proof. apply encode_atom_length. Qed.

Lemma map_run_vectors {A} dim (f : A -> call_result PhaseVec) l : (forall a, vector dim (f a)) ->
  exists vecs, map_run f l = Done vecs /\ length vecs = length l /\ Forall (fun v => length v = Z.to_nat dim) vecs.
Proof.
  intros Hf. induction l as [|a l (vs & E & L & F)]; [now exists []|]. cbn [map_run]. destruct (Hf a) as (v & -> & Lv).
  cbn [andthen]. rewrite E. cbn [andthen]. eexists. split; [reflexivity|]. cbn. auto.
Qed.

Lemma text_vector text dim : dim_ok dim -> vector dim (encode_text text dim).
Proof.
  intros D. unfold encode_text. destruct (tokenize text) as [|t ts]; [now apply atom_vector|].
  destruct (map_run_vectors dim (fun tok => encode_atom tok dim) (t :: ts)) as (vs & -> & L & F); [intros a; now apply atom_vector|].
  cbn [andthen]. apply bundle_vector; [now intros ->|exact F].
Qed.

Lemma bind_vector dim a b : length a = Z.to_nat dim -> length b = Z.to_nat dim -> vector dim (bind a b).
Proof. intros La Lb. destruct (pointwise_done (fun x y => fmod (fadd x y) TWO_PI) a b ltac:(lia)) as (r & E & L). exists r. split; [exact E|lia]. Qed.

(** The encoders stay inside their vectors: for every dimension an [int] can
    round up, [encode_text], [encode_binding] and [encode_fact] return a vector of
    that dimension whatever the text and the entities, while a negative dimension
    raises [std::length_error] in each of them. *)
Theorem encoders_safe content entity entities dim :
  (dim_ok dim -> vector dim (encode_text content dim) /\ vector dim (encode_binding content entity dim) /\ vector dim (encode_fact content entities dim)) /\
  (dim < 0 -> encode_text content dim = Raised LengthError /\ encode_binding content entity dim = Raised LengthError /\
    encode_fact content entities dim = Raised LengthError).
Proof.
  split.
  - intros D. destruct (text_vector content dim D) as (c & Ec & Lc). split; [now exists c|]. unfold encode_binding, encode_fact. rewrite Ec. cbn [andthen]. split.
    + destruct (atom_vector (lower entity) dim D) as (e & -> & Le). now apply bind_vector.
    + destruct (atom_vector "__hrr_role_content__" dim D) as (rc & -> & Lrc). destruct (atom_vector "__hrr_role_entity__" dim D) as (re & -> & Lre). cbn [andthen].
      destruct (bind_vector dim c rc Lc Lrc) as (b & -> & Lb). cbn [andthen].
      destruct (map_run_vectors dim (fun e => let? a := encode_atom (lower e) dim in bind a re) entities) as (vs & -> & _ & F).
      { intros e. destruct (atom_vector (lower e) dim D) as (a & -> & La). now apply bind_vector. }
      cbn [andthen]. apply bundle_vector; [discriminate|]. constructor; assumption.
  - intros N. assert (A : forall w, encode_atom w dim = Raised LengthError).
    { intros w. unfold encode_atom. destruct (Z.leb_spec (2 ^ 31) (dim + 15)); [lia|]. destruct (Z.ltb_spec dim 0); [reflexivity|lia]. }
    assert (T : encode_text content dim = Raised LengthError).
    { unfold encode_text. destruct (tokenize content); [apply A|]. cbn [map_run]. now rewrite A. }
    unfold encode_binding, encode_fact. rewrite !A, T. repeat split.
Qed.

(** A key shorter than the vector it is compared with is read past its end. *)
Lemma short_key_undefined a b : (length b < length a)%nat -> bind a b = Undef /\ unbind a b = Undef /\ similarity a b = Undef.
Proof.
  intros L. unfold bind, unbind, similarity. destruct a as [|x a]; [cbn in L; lia|]. rewrite !pointwise_short by exact L. repeat split.
Qed.

End Encoders.

(** A library whose angles are all zero, for the examples. *)
Definition flat_libm : Libm := {|
  std_cbrt := fun x => x; std_exp := fun x => x; std_log := fun x => x; std_log2 := fun x => x; std_log10 := fun x => x;
  std_pow := fun x _ => x; std_sin := fun _ => f0; std_cos := fun _ => f1; std_tan := fun x => x; std_asin := fun x => x;
  std_acos := fun x => x; std_atan := fun x => x; std_atan2 := fun x _ => x; std_sinh := fun x => x; std_cosh := fun x => x;
  std_tanh := fun x => x; std_asinh := fun x => x; std_acosh := fun x => x; std_atanh := fun x => x
|}.

Lemma encoders_safe_witness : vector 4 (encode_fact (H := flat_libm) "a red door" ["Bob"%string] 4).
Proof. apply (encoders_safe (H := flat_libm) "a red door" "Bob" ["Bob"%string] 4). split; [lia|reflexivity]. Defined.

(** * Bytes *)

Lemma copy_phases_app phases : forall i pre suf, length pre = (i * 8)%nat -> length suf = (length phases * 8)%nat ->
  copy_phases i phases (pre ++ suf) = pre ++ flat_map (fun p => le_encode 8 (bits_of_double p)) phases.
Proof.
  induction phases as [|p r IH]; intros i pre suf Lp Ls; cbn [copy_phases flat_map length] in *.
  - destruct suf; [reflexivity|cbn in Ls; lia].
  - set (enc := le_encode 8 (bits_of_double p)). assert (Le : length enc = 8%nat) by apply le_encode_length.
    assert (E : memcpy (pre ++ suf) (i * 8) enc 8 = (pre ++ enc) ++ skipn 8 suf).
    { unfold memcpy. rewrite <- Lp at 1. rewrite firstn_app, firstn_all, Nat.sub_diag, app_nil_r. rewrite firstn_all2 by lia.
      rewrite skipn_app, skipn_all2 by lia. replace (i * 8 + 8 - length pre)%nat with 8%nat by lia. now rewrite <- app_assoc. }
    rewrite E, IH, <- app_assoc; [reflexivity| |].
    + rewrite length_app. lia.
    + rewrite length_skipn. lia.
Qed.

Lemma phases_to_bytes_flat phases : phases_to_bytes phases = flat_map (fun p => le_encode 8 (bits_of_double p)) phases.
Proof. apply (copy_phases_app phases 0 []); [reflexivity|apply repeat_length]. Qed.

Definition decode_phase (l : list Z) : spec_float := double_of_bits (le_decode l).

Lemma bytes_to_phases_app x data : length x = 8%nat -> bytes_to_phases (x ++ data) = decode_phase x :: bytes_to_phases data.
Proof.
  intros Lx. unfold bytes_to_phases. rewrite length_app, Lx. replace ((8 + length data) / 8)%nat with (S (length data / 8)).
  2: { change 8%nat with (1 * 8)%nat at 2. rewrite Nat.div_add_l by lia. reflexivity. }
  cbn [seq map]. f_equal.
  - cbn [Nat.mul skipn]. unfold decode_phase. rewrite <- Lx, firstn_app, firstn_all, Nat.sub_diag, app_nil_r. reflexivity.
  - rewrite <- seq_shift, map_map. apply map_ext. intros i. do 3 f_equal. replace (S i * 8)%nat with (i * 8 + length x)%nat by lia.
    rewrite <- skipn_skipn, skipn_app, skipn_all, Nat.sub_diag. reflexivity.
Qed.

Lemma decode_encode_phase p : is_double p -> decode_phase (le_encode 8 (bits_of_double p)) = p.
Proof.
  intros Hp. unfold decode_phase. rewrite le_decode_encode, Z.mod_small by (change (256 ^ Z.of_nat 8) with (2 ^ 64); now apply bits_of_double_range).
  now apply double_bits_roundtrip.
Qed.

Lemma encode_decode_phase l : length l = 8%nat -> bytes_ok l -> decode_phase l <> S754_nan -> le_encode 8 (bits_of_double (decode_phase l)) = l.
Proof.
  intros L B N. pose proof (le_decode_range l B) as R. rewrite L in R. change (256 ^ Z.of_nat 8) with (2 ^ 64) in R.
  unfold decode_phase. destruct (bits_double_roundtrip _ R N) as [_ ->]. rewrite <- L. now apply le_encode_decode.
Qed.

(** Vectors survive their bytes, both ways: every vector of doubles comes
    back from [phases_to_bytes] through [bytes_to_phases] (infinities, signed
    zeros and subnormals included), and every buffer of whole elements none of
    which is a NaN comes back from the vector it decodes to. *)
Theorem phases_bytes_roundtrip :
  (forall phases, Forall is_double phases -> bytes_to_phases (phases_to_bytes phases) = phases /\ length (phases_to_bytes phases) = (8 * length phases)%nat) /\
  (forall n data, bytes_ok data -> length data = (8 * n)%nat -> ~ In S754_nan (bytes_to_phases data) -> phases_to_bytes (bytes_to_phases data) = data).
Proof.
  split.
  - intros phases F. rewrite phases_to_bytes_flat. induction F as [|p r Hp F [IH1 IH2]]; [split; reflexivity|]. cbn [flat_map]. split.
    + rewrite bytes_to_phases_app by apply le_encode_length. now rewrite decode_encode_phase, IH1.
    + rewrite length_app, le_encode_length, IH2. cbn [length]. lia.
  - intros n. induction n as [|n IH]; intros data B L N; [destruct data; [reflexivity|cbn in L; lia]|].
    rewrite <- (firstn_skipn 8 data) in N |- *. rewrite bytes_to_phases_app in N |- * by (rewrite length_firstn; lia).
    rewrite phases_to_bytes_flat. cbn [flat_map]. rewrite <- phases_to_bytes_flat. cbn [In] in N. f_equal.
    + apply encode_decode_phase; [rewrite length_firstn; lia|now apply bytes_ok_firstn|tauto].
    + apply IH; [now apply bytes_ok_skipn|rewrite length_skipn; lia|tauto].
Qed.

Lemma phases_bytes_roundtrip_witness : bytes_to_phases (phases_to_bytes [TWO_PI; S754_zero true; S754_infinity false]) = [TWO_PI; S754_zero true; S754_infinity false].
Proof. apply phases_bytes_roundtrip. repeat constructor. Defined.
