(* ===== verification/TwRetriever.v ===== *)
(** taskweft_nif/standalone/tw_retriever.hpp: scoring facts by keywords and
    vectors, and ordering them. *)

From Stdlib Require Import ZArith String Ascii List Bool Lia.
From Stdlib Require Import Floats.SpecFloat.
From S2P Require Import Prelude OrderedMap TwValue TwJson TwTemporal TwNodes TwRun TwHrr.
Import ListNotations.
#[local] Open Scope string_scope.
#[local] Open Scope Z_scope.
#[local] Open Scope double_scope.
#[local] Open Scope run_scope.

(** * Tokens *)

Definition STRIP : string := ".,;:!?" ++ String quote "'()[]{}#@<>".

(** An [unordered_set] of strings: a list without duplicates, whose order is not
    looked at. *)
Definition token_set := list string.
Definition has_token (t : string) (s : token_set) : bool := existsb (String.eqb t) s.
Definition insert_token (s : token_set) (t : string) : token_set := if has_token t s then s else (s ++ [t])%list.

(** [ss >> word]: the word, and what is left. *)
Fixpoint take_word (p : string) : string * string :=
  match p with
  | String c r => if isspace c then (EmptyString, p) else let '(w, q) := take_word r in (String c w, q)
  | EmptyString => (EmptyString, EmptyString)
  end.
Definition next_word (p : string) : option (string * string) :=
  let '(w, q) := take_word (skip_ws p) in if is_empty w then None else Some (w, q).

Fixpoint strip_start (fuel start : nat) (word : string) : nat :=
  match fuel with
  | O => start
  | S f => match String.get start word with
           | Some c => if has_char c STRIP then strip_start f (S start) word else start
           | None => start
           end
  end.

Fixpoint strip_end (stop start : nat) (word : string) : nat :=
  match stop with
  | O => O
  | S e =>
      if (start <? stop)%nat && match String.get e word with Some c => has_char c STRIP | None => false end
      then strip_end e start word else stop
  end.

Definition add_word (tokens : token_set) (word : string) : token_set :=
  let word := lower word in
  let size := String.length word in
  let start := strip_start size 0 word in
  let stop := strip_end size start word in
  if (start <? stop)%nat then insert_token tokens (String.substring start (stop - start) word) else tokens.

Fixpoint read_words (fuel : nat) (p : string) (tokens : token_set) : token_set :=
  match fuel with
  | O => tokens
  | S f => match next_word p with Some (w, q) => read_words f q (add_word tokens w) | None => tokens end
  end.
Definition tokenize (text : string) : token_set := read_words (S (String.length text)) text [].

(** * Measures *)

Definition jaccard (a b : token_set) : spec_float :=
  if match a, b with [], _ | _, [] => true | _, _ => false end then f0
  else
    let intersection := Z.of_nat (length (filter (fun t => has_token t b) a)) in
    let union_size := Z.of_nat (length a) + Z.of_nat (length b) - intersection in
    if 0 <? union_size then double intersection /f double union_size else f0.

(** * Ordering *)

Record Scored := mkScored { fact : TwValue; score : spec_float }.

(** [std::stable_sort] by descending score.  A comparison that is not a strict
    weak ordering, as [>] is not when a score is a NaN, is undefined. *)
Fixpoint insert_scored (x : Scored) (l : list Scored) : list Scored :=
  match l with
  | [] => [x]
  | y :: r => if score y <f score x then x :: l else y :: insert_scored x r
  end.
Definition stable_sort_desc (l : list Scored) : list Scored := fold_left (fun acc x => insert_scored x acc) l [].
Definition sort_scored (l : list Scored) : call_result (list Scored) :=
  if (2 <=? length l)%nat && existsb (fun x => isnan (score x)) l then Undef else Done (stable_sort_desc l).

(** The array of facts, joined with commas. *)
Definition print_facts (l : list Scored) : string := "[" ++ String.concat "," (map (fun x => to_json (fact x)) l) ++ "]".

(** * Fields *)

Definition get_str (d : Dict) (key : string) : string := match dict_find key d with Some (STRING s) => s | _ => EmptyString end.
Definition get_dbl (d : Dict) (key : string) (def : spec_float) : spec_float :=
  match dict_find key d with Some v => if is_number v then as_number v else def | None => def end.

(** The fact without [k], with its score. *)
Definition out_dict (strip : string -> bool) (d : Dict) (s : spec_float) : Dict :=
  dict_set "score" (FLOAT s) (fold_left (fun o kv => if strip (fst kv) then o else dict_set (fst kv) (snd kv) o) d []).

Definition dict_items (root : TwValue) : list Dict :=
  match root with ARRAY a => flat_map (fun v => match v with DICT d => [d] | _ => [] end) a | _ => [] end.

(** Score the dicts, order them, print them. *)
Definition rank (score_of : Dict -> call_result Scored) (items : list Dict) : call_result string :=
  let? scored := map_run score_of items in
  let? sorted := sort_scored scored in
  Done (print_facts sorted).

Section Retriever.
Context `{Libm}.

Definition temporal_decay (age_days half_life_days : spec_float) : spec_float :=
  if SFleb half_life_days f0 || (age_days <f f0) then f1 else std_pow half (age_days /f half_life_days).

(** [0.5] when there is no vector to compare. *)
Definition hrr_similarity (query_vec : PhaseVec) (hrr_w : spec_float) (d : Dict) : call_result spec_float :=
  match dict_find "hrr_vector" d with
  | Some (STRING hv) =>
      if f0 <f hrr_w then
        match query_vec, bytes_to_phases (string_bytes hv) with
        | [], _ | _, [] => Done half
        | _, fact_vec => let? s := similarity query_vec fact_vec in Done ((s +f f1) /f f2)
        end
      else Done half
  | _ => Done half
  end.

Definition score_candidate (query_tokens : token_set) (query_vec : PhaseVec) (fts_w jaccard_w hrr_w half_life_days : spec_float) (d : Dict) : call_result Scored :=
  let trust := get_dbl d "trust_score" half in
  let fts_rank := get_dbl d "fts_rank" f0 in
  let age_days := get_dbl d "age_days" (fneg f1) in
  let all_tokens := fold_left insert_token (tokenize (get_str d "tags")) (tokenize (get_str d "content")) in
  let jac := jaccard query_tokens all_tokens in
  let? hrr_sim := hrr_similarity query_vec hrr_w d in
  let relevance := fts_w *f fts_rank +f jaccard_w *f jac +f hrr_w *f hrr_sim in
  let s := relevance *f trust *f temporal_decay age_days half_life_days in
  Done (mkScored (DICT (out_dict (String.eqb "hrr_vector") d s)) s).

Definition score_candidates (candidates_json query_text : string) (query_hrr_bytes : list Z) (fts_w jaccard_w hrr_w half_life_days : spec_float) : call_result string :=
  let? root := of_res (parse_json_str candidates_json) in
  if negb (is_array root) then Done "[]"
  else rank (score_candidate (tokenize query_text) (bytes_to_phases query_hrr_bytes) fts_w jaccard_w hrr_w half_life_days) (dict_items root).

(** [static_cast<int>(p_dim)] *)
Definition probe_candidate (entity_vec : PhaseVec) (dim : Z) (d : Dict) : call_result Scored :=
  let trust := get_dbl d "trust_score" half in
  let? hrr_sim :=
    match dict_find "binding_vector" d with
    | Some (STRING bv) =>
        match entity_vec, bytes_to_phases (string_bytes bv) with
        | [], _ | _, [] => Done half
        | _, binding =>
            let? recovered := unbind binding entity_vec in
            let? content_vec := encode_text (get_str d "content") (swrap 32 dim) in
            similarity recovered content_vec
        end
    | _ => Done half
    end in
  let s := (hrr_sim +f f1) /f f2 *f trust in
  Done (mkScored (DICT (out_dict (String.eqb "binding_vector") d s)) s).

Definition probe_score (candidates_json : string) (entity_hrr_bytes : list Z) (dim : Z) : call_result string :=
  let? root := of_res (parse_json_str candidates_json) in
  if negb (is_array root) then Done "[]"
  else rank (probe_candidate (bytes_to_phases entity_hrr_bytes) dim) (dict_items root).

Fixpoint min_similarity (entity_vecs : list PhaseVec) (content_vec : PhaseVec) (min_sim : spec_float) : call_result spec_float :=
  match entity_vecs with
  | [] => Done min_sim
  | [] :: r => min_similarity r content_vec min_sim
  | ev :: r =>
      let? bound := bind content_vec ev in
      let? recovered := unbind bound ev in
      let? sim := similarity recovered content_vec in
      min_similarity r content_vec (if sim <f min_sim then sim else min_sim)
  end.

Definition reason_candidate (entity_vecs : list PhaseVec) (dim : Z) (d : Dict) : call_result Scored :=
  let trust := get_dbl d "trust_score" half in
  let? content_vec := encode_text (get_str d "content") (swrap 32 dim) in
  let? min_sim := min_similarity entity_vecs content_vec f1 in
  let s := (min_sim +f f1) /f f2 *f trust in
  Done (mkScored (DICT (out_dict (fun _ => false) d s)) s).

Definition reason_score (candidates_json : string) (entity_hrr_bytes_list : list (list Z)) (dim : Z) : call_result string :=
  let? root := of_res (parse_json_str candidates_json) in
  if negb (is_array root) || match entity_hrr_bytes_list with [] => true | _ => false end then Done "[]"
  else rank (reason_candidate (map bytes_to_phases entity_hrr_bytes_list) dim) (dict_items root).

End Retriever.
