(* ===== verification/TwRetrieverProofs.v ===== *)
(** taskweft_nif/standalone/tw_retriever.hpp and the tokenizer of tw_hrr.hpp: the
    ranking is the one stable descending order of the scores, tokens are the
    trimmed words of the text, and the keyword measure is that of the sets. *)

From Stdlib Require Import ZArith String Ascii List Bool Lia PeanoNat Permutation Sorted.
From Stdlib Require Import Floats.SpecFloat.
From S2P Require Import Prelude OrderedMap TwValue TwJson TwTemporal TwNodes TwRun Doubles TwHrr TwHrrProofs TwRetriever.
Import ListNotations.
#[local] Open Scope Z_scope.

(** * The order of scores

    A number's place: its class, then exponent and mantissa. *)

Definition place (x : spec_float) : Z * Z * Z :=
  match x with
  | S754_infinity true => (0, 0, 0)
  | S754_finite true m e => (1, - e, - Zpos m)
  | S754_zero _ => (2, 0, 0)
  | S754_finite false m e => (3, e, Zpos m)
  | S754_infinity false => (4, 0, 0)
  | S754_nan => (5, 0, 0)
  end.

Definition before (a b : Z * Z * Z) : Prop :=
  let '(a1, a2, a3) := a in let '(b1, b2, b3) := b in
  a1 < b1 \/ (a1 = b1 /\ (a2 < b2 \/ (a2 = b2 /\ a3 < b3))).

Lemma flt_before x y : isnan x = false -> isnan y = false -> flt x y = true <-> before (place x) (place y).
Proof.
  intros Nx Ny. unfold flt, SFltb. destruct x as [sx|[]| |[] mx ex], y as [sy|[]| |[] my ey]; try discriminate; cbn [SFcompare place before];
    try (split; [intros; discriminate|lia]); try (split; [lia|reflexivity]).
  - destruct (Z.compare_spec ex ey) as [->|L|L]; [|split; [intros; discriminate|lia]|split; [lia|reflexivity]].
    change (Pos.compare_cont Eq mx my) with (Pos.compare mx my).
    destruct (Pos.compare_spec mx my) as [->|L|L]; cbn [CompOpp]; split; try (intros; discriminate); try lia; reflexivity.
  - destruct (Z.compare_spec ex ey) as [->|L|L]; [|split; [lia|reflexivity]|split; [intros; discriminate|lia]].
    change (Pos.compare_cont Eq mx my) with (Pos.compare mx my).
    destruct (Pos.compare_spec mx my) as [->|L|L]; cbn [CompOpp]; split; try (intros; discriminate); try lia; reflexivity.
Qed.

Definition number (x : Scored) : Prop := isnan (score x) = false.
Definition over (x y : Scored) : bool := flt (score y) (score x).
Definition tied (x y : Scored) : bool := negb (over x y) && negb (over y x).

Ltac by_place := repeat match goal with
  | H : context [place ?x] |- _ => let p := fresh "p" in set (p := place x) in *; clearbody p
  | |- context [place ?x] => let p := fresh "p" in set (p := place x) in *; clearbody p
  end; repeat match goal with p : (Z * Z * Z)%type |- _ => destruct p as [[? ?] ?] end; cbn [before] in *; lia.

Lemma over_iff x y : number x -> number y -> over x y = true <-> before (place (score y)) (place (score x)).
Proof. intros. now apply flt_before. Qed.

Lemma over_trans x y z : number x -> number y -> number z -> over x y = true -> over y z = true -> over x z = true.
Proof. intros. rewrite over_iff in * by assumption. by_place. Qed.

Lemma over_asym x y : number x -> number y -> over x y = true -> over y x = false.
Proof. intros Nx Ny E. apply not_true_iff_false. rewrite over_iff in * by assumption. by_place. Qed.

(** What is not over [z] is not over what is not under it. *)
Lemma not_over_trans x y z : number x -> number y -> number z -> over x y = false -> over y z = false -> over x z = false.
Proof. intros Nx Ny Nz E1 E2. apply not_true_iff_false. apply not_true_iff_false in E1, E2. rewrite over_iff in * by assumption. by_place. Qed.

(** * Sorting *)

(** Nothing is over what precedes it. *)
Definition descending (l : list Scored) : Prop := StronglySorted (fun x y => over y x = false) l.

Lemma insert_perm x l : Permutation (insert_scored x l) (x :: l).
Proof.
  induction l as [|y r IH]; cbn [insert_scored]; [reflexivity|]. destruct (flt _ _); [reflexivity|]. rewrite IH. apply perm_swap.
Qed.

Lemma sort_perm_aux l : forall acc, Permutation (fold_left (fun acc x => insert_scored x acc) l acc) (acc ++ l).
Proof.
  induction l as [|x l IH]; intros acc; cbn [fold_left]; [now rewrite app_nil_r|].
  rewrite IH, insert_perm. cbn [app]. apply Permutation_middle.
Qed.

Lemma insert_descending x l : number x -> Forall number l -> descending l -> descending (insert_scored x l).
Proof.
  intros Nx. induction l as [|y r IH]; intros Nl D; cbn [insert_scored]; [repeat constructor|].
  inversion Nl as [|? ? Ny Nr]; subst. apply StronglySorted_inv in D as [D F]. change (flt (score y) (score x)) with (over x y).
  destruct (over x y) eqn:E.
  - constructor; [constructor; assumption|]. constructor; [now apply over_asym|]. apply Forall_forall. intros z Hz.
    rewrite Forall_forall in F, Nr. apply (not_over_trans z y x); auto. now apply over_asym.
  - constructor; [now apply IH|]. apply (Permutation_Forall (Permutation_sym (insert_perm x r))). constructor; assumption.
Qed.

Lemma insert_tied x l k : number x -> number k -> Forall number l -> descending l ->
  filter (tied k) (insert_scored x l) = filter (tied k) (l ++ [x]).
Proof.
  intros Nx Nk. induction l as [|y r IH]; intros Nl D; cbn [insert_scored app filter]; [reflexivity|].
  inversion Nl as [|? ? Ny Nr]; subst. apply StronglySorted_inv in D as [D F]. change (flt (score y) (score x)) with (over x y).
  destruct (over x y) eqn:E; cbn [filter]; [|rewrite IH by assumption; reflexivity].
  rewrite filter_app. cbn [filter]. destruct (tied k x) eqn:Tx; [|now rewrite app_nil_r].
  assert (U : forall z, number z -> over y z = true \/ over z y = false -> tied k z = false).
  { intros z Nz Hz. assert (Ekz : over k z = true); [|unfold tied; now rewrite Ekz]. unfold tied in Tx. apply andb_true_iff in Tx as [T1 T2].
    apply negb_true_iff, not_true_iff_false in T1, T2. assert (Hz' : ~ over z y = true) by (destruct Hz as [Hz|Hz]; [rewrite (over_asym y z)|rewrite Hz]; auto; discriminate).
    apply over_iff; auto. apply over_iff in E; auto. rewrite over_iff in T1, T2, Hz' by assumption. by_place. }
  rewrite (U y Ny) by (right; apply not_true_iff_false; rewrite over_iff by assumption; by_place).
  replace (filter (tied k) r) with (@nil Scored); [reflexivity|]. symmetry.
  clear IH D. induction F as [|z r Hz F IHr]; [reflexivity|]. cbn [filter]. inversion Nr; subst. rewrite (U z) by auto. apply IHr; [constructor|]; assumption.
Qed.

Lemma sort_invariant l : forall acc, Forall number l -> Forall number acc -> descending acc ->
  let s := fold_left (fun acc x => insert_scored x acc) l acc in
  descending s /\ forall k, number k -> filter (tied k) s = filter (tied k) (acc ++ l).
Proof.
  induction l as [|x l IH]; intros acc Nl Na Da; cbn [fold_left]; [split; [exact Da|intros; now rewrite app_nil_r]|].
  inversion Nl as [|? ? Nx Nl']; subst. destruct (IH (insert_scored x acc)) as [D T].
  - exact Nl'.
  - apply (Permutation_Forall (Permutation_sym (insert_perm x acc))). now constructor.
  - now apply insert_descending.
  - split; [exact D|]. intros k Nk. rewrite (T k Nk), filter_app, insert_tied by assumption. rewrite <- filter_app, <- app_assoc. reflexivity.
Qed.

(** A descending list is determined by its ties. *)
Lemma tied_refl x : number x -> tied x x = true.
Proof. intros N. unfold tied. assert (over x x = false) as ->; [|reflexivity]. apply not_true_iff_false. rewrite over_iff by assumption. by_place. Qed.

Lemma descending_unique l1 : forall l2, Forall number l1 -> Forall number l2 -> descending l1 -> descending l2 ->
  (forall k, number k -> filter (tied k) l1 = filter (tied k) l2) -> l1 = l2.
Proof.
  induction l1 as [|x l1 IH]; intros l2 N1 N2 D1 D2 T.
  - destruct l2 as [|y l2]; [reflexivity|]. inversion N2; subst. specialize (T y ltac:(assumption)). cbn [filter] in T. rewrite tied_refl in T by assumption. discriminate.
  - inversion N1 as [|? ? Nx N1']; subst. destruct l2 as [|y l2]; [specialize (T x Nx); cbn [filter] in T; rewrite tied_refl in T by exact Nx; discriminate|].
    inversion N2 as [|? ? Ny N2']; subst. apply StronglySorted_inv in D1 as [D1 F1]. apply StronglySorted_inv in D2 as [D2 F2].
    assert (Txy : tied x y = true).
    { pose proof (T x Nx) as Ex. pose proof (T y Ny) as Ey. cbn [filter] in Ex, Ey. rewrite tied_refl in Ex, Ey by assumption.
      assert (Ix : In x (y :: l2)) by (apply (filter_In (tied x)); cbn [filter]; rewrite <- Ex; now left).
      assert (Iy : In y (x :: l1)) by (apply (filter_In (tied y)); cbn [filter]; rewrite Ey; now left).
      unfold tied. rewrite Forall_forall in F1, F2. destruct Ix as [->|Ix]; [now apply tied_refl|]. destruct Iy as [->|Iy]; [now apply tied_refl|].
      now rewrite (F1 y Iy), (F2 x Ix). }
    assert (Eq : x = y) by (pose proof (T x Nx) as Ex; cbn [filter] in Ex; rewrite Txy, tied_refl in Ex by exact Nx; congruence). subst y.
    f_equal. apply IH; try assumption. intros k Nk. specialize (T k Nk). cbn [filter] in T. destruct (tied k x); congruence.
Qed.

Lemma sort_scored_spec l s : sort_scored l = Done s ->
  Permutation s l /\ descending s /\ (forall k, number k -> filter (tied k) s = filter (tied k) l) /\ (Forall number l \/ s = l).
Proof.
  unfold sort_scored. intros E. destruct (Nat.leb_spec 2 (length l)) as [L|L]; cbn [andb] in E.
  - destruct (existsb _ l) eqn:X; [discriminate|]. injection E as <-.
    assert (Nl : Forall number l).
    { apply Forall_forall. intros x Hx. apply not_true_iff_false. intros Hn. apply not_true_iff_false in X. apply X, existsb_exists. eauto. }
    destruct (sort_invariant l [] Nl) as [D T]; [constructor|constructor|]. split; [apply sort_perm_aux|auto].
  - injection E as <-. destruct l as [|x [|y l]]; cbn in L; try lia; cbn; (split; [reflexivity|]); repeat split; try (right; reflexivity); repeat constructor.
Qed.

(** * The facts that come out *)

Lemma strip_fold (strip : string -> bool) (d : Dict) : forall (o : Dict) k, NoDup (keys d) -> (forall x, In x (keys d) -> dict_find x o = None) ->
  dict_find k (fold_left (fun o kv => if strip (fst kv) then o else dict_set (fst kv) (snd kv) o) d o) =
  if strip k then dict_find k o else match dict_find k d with Some v => Some v | None => dict_find k o end.
Proof.
  induction d as [|[k0 v0] d IH]; intros o k ND F; cbn [fold_left fst snd dict_find]; [now destruct (strip k)|].
  inversion ND as [|? ? Ni ND']; subst. rewrite IH; [|exact ND'|].
  - destruct (strip k0) eqn:S0.
    + destruct (String.eqb_spec k k0) as [->|N]; [now rewrite S0|reflexivity].
    + rewrite dict_find_set. destruct (String.eqb_spec k k0) as [->|N]; [|reflexivity].
      rewrite S0. now rewrite (proj2 (dict_find_none k0 d) Ni).
  - intros x Hx. assert (x <> k0) by (intros ->; contradiction). destruct (strip k0); [apply F; now right|].
    rewrite dict_find_set. destruct (String.eqb_spec x k0); [contradiction|apply F; now right].
Qed.

(** Its members other than those stripped, and its score. *)
Lemma out_dict_find strip d s k : NoDup (keys d) ->
  dict_find k (out_dict strip d s) = if String.eqb k "score" then Some (FLOAT s) else if strip k then None else dict_find k d.
Proof.
  intros ND. unfold out_dict. rewrite dict_find_set. destruct (String.eqb k "score"); [reflexivity|].
  rewrite strip_fold by auto. cbn [dict_find]. destruct (strip k), (dict_find k d); reflexivity.
Qed.

(** [out] prints the facts of [items] in the one stable descending order of their
    scores, each without the stripped members and with its score. *)
Definition ranked (strip : string -> bool) (score_of : Dict -> call_result Scored) (items : list Dict) (out : string) : Prop :=
  exists scored sorted,
    Forall2 (fun d x => score_of d = Done x /\ exists o, fact x = DICT o /\
      forall k, NoDup (keys d) -> dict_find k o = if String.eqb k "score" then Some (FLOAT (score x)) else if strip k then None else dict_find k d) items scored /\
    out = to_json (ARRAY (map fact sorted)) /\ Permutation sorted scored /\ descending sorted /\
    (forall k, number k -> filter (tied k) sorted = filter (tied k) scored) /\
    (forall other, Forall number scored -> Forall number other -> descending other ->
       (forall k, number k -> filter (tied k) other = filter (tied k) scored) -> other = sorted).

Lemma rank_ranked strip score_of items out :
  (forall d x, score_of d = Done x -> fact x = DICT (out_dict strip d (score x))) ->
  rank score_of items = Done out -> ranked strip score_of items out.
Proof.
  intros Hs E. unfold rank in E. apply andthen_done in E as (scored & Em & E). apply andthen_done in E as (sorted & Es & [= <-]).
  apply map_run_done in Em. destruct (sort_scored_spec _ _ Es) as (P & D & T & C). exists scored, sorted. split; [|split; [|split; [exact P|split; [exact D|split; [exact T|]]]]].
  - clear - Em Hs. induction Em as [|d x items scored Hx F IH]; constructor; [|exact IH]. split; [exact Hx|]. exists (out_dict strip d (score x)).
    split; [now apply Hs|]. intros k ND. now apply out_dict_find.
  - unfold print_facts. cbn [to_json]. now rewrite map_map.
  - intros other Ns No Do To. apply descending_unique; auto.
    + apply (Permutation_Forall (Permutation_sym P)). exact Ns.
    + intros k Nk. now rewrite To, T.
Qed.

(** What the three retrieval calls return: each prints the facts of the
    candidates array in descending order of score, ties in the order they came;
    that order is the only one with these two properties, so it does not depend
    on the sorting algorithm.  Every fact keeps its members except the vector that
    was scored, and gains the score it was ordered by. *)
Theorem retrieval_ranked `{Libm} json items out :
  parse_json_str json = Ok (ARRAY items) ->
  (forall query bytes fts jac hrr half_life, score_candidates json query bytes fts jac hrr half_life = Done out ->
     ranked (String.eqb "hrr_vector") (score_candidate (tokenize query) (bytes_to_phases bytes) fts jac hrr half_life) (dict_items (ARRAY items)) out) /\
  (forall bytes dim, probe_score json bytes dim = Done out ->
     ranked (String.eqb "binding_vector") (probe_candidate (bytes_to_phases bytes) dim) (dict_items (ARRAY items)) out) /\
  (forall entities dim, entities <> [] -> reason_score json entities dim = Done out ->
     ranked (fun _ => false) (reason_candidate (map bytes_to_phases entities) dim) (dict_items (ARRAY items)) out).
Proof.
  intros P. unfold score_candidates, probe_score, reason_score. rewrite P. cbn [of_res andthen is_array negb orb].
  split; [|split].
  - intros query bytes fts jac hrr hl E. apply rank_ranked; [|exact E]. intros d x Hx. unfold score_candidate in Hx. cbv zeta in Hx. apply andthen_done in Hx as (h & _ & [= <-]). reflexivity.
  - intros bytes dim E. apply rank_ranked; [|exact E]. intros d x Hx. unfold probe_candidate in Hx. cbv zeta in Hx. apply andthen_done in Hx as (h & _ & [= <-]). reflexivity.
  - intros entities dim N E. destruct entities as [|e es]; [congruence|]. apply rank_ranked; [|exact E]. intros d x Hx.
    unfold reason_candidate in Hx. cbv zeta in Hx. apply andthen_done in Hx as (c & _ & Hx). apply andthen_done in Hx as (h & _ & [= <-]). reflexivity.
Qed.

(** * Tokens *)

#[local] Abbreviation chars := list_ascii_of_string.
#[local] Abbreviation nonempty := (fun w : list ascii => negb (Nat.eqb (length w) 0)).

Section Tokens.

(** The words of a text, and a word without the characters [p] holds of at its
    ends. *)
Fixpoint words_from (l : list ascii) (word : list ascii) : list (list ascii) :=
  match l with
  | [] => [word]
  | c :: r => if isspace c then word :: words_from r [] else words_from r (word ++ [c])
  end.
Definition words (l : list ascii) : list (list ascii) := filter nonempty (words_from l []).

Fixpoint drop_while (p : ascii -> bool) (l : list ascii) : list ascii :=
  match l with [] => [] | c :: r => if p c then drop_while p r else l end.
Definition trim (p : ascii -> bool) (l : list ascii) : list ascii := drop_while p (rev (drop_while p (rev l))).

Definition tokens_of (punct text : string) : list (list ascii) :=
  filter nonempty (map (trim (fun c => has_char c punct)) (words (map tolower (chars text)))).

Lemma isspace_tolower c : isspace (tolower c) = isspace c.
Proof. destruct c as [[] [] [] [] [] [] [] []]; reflexivity. Qed.

Lemma chars_app a b : chars (a ++ b) = (chars a ++ chars b)%list.
Proof. induction a as [|c a IH]; cbn; [reflexivity|]. now rewrite IH. Qed.

Lemma chars_length s : length (chars s) = String.length s.
Proof. induction s; cbn; congruence. Qed.

Lemma chars_lower s : chars (lower s) = map tolower (chars s).
Proof. induction s; cbn; congruence. Qed.

Lemma chars_substring s : forall n m, chars (String.substring n m s) = firstn m (skipn n (chars s)).
Proof.
  induction s as [|c s IH]; intros [|n] [|m]; cbn [String.substring list_ascii_of_string skipn firstn]; try reflexivity.
  - f_equal. apply (IH 0%nat m).
  - rewrite IH. now rewrite firstn_0.
  - apply (IH n (S m)).
Qed.

Lemma chars_get s : forall n, String.get n s = nth_error (chars s) n.
Proof. induction s as [|c s IH]; intros [|n]; cbn; auto. Qed.

Variable p : ascii -> bool.

Lemma drop_while_app l r : drop_while p (l ++ r) = match drop_while p l with [] => drop_while p r | d => d ++ r end.
Proof. induction l as [|c l IH]; cbn [app drop_while]; [reflexivity|]. destruct (p c); [exact IH|reflexivity]. Qed.

Lemma drop_while_nil l : drop_while p l = [] <-> forallb p l = true.
Proof. induction l as [|c l IH]; cbn; [tauto|]. destruct (p c); [exact IH|split; discriminate]. Qed.

(** The leading characters [p] holds of, counted. *)
Lemma drop_while_skipn l n : (n < length l)%nat -> forallb p (firstn n l) = true -> p (nth n l "x"%char) = false -> drop_while p l = skipn n l.
Proof.
  revert n. induction l as [|c l IH]; intros [|n] Hn Hf Hp; cbn [length firstn forallb nth skipn drop_while] in *; try lia; [now rewrite Hp|].
  apply andb_true_iff in Hf as [-> Hf]. apply IH; auto. lia.
Qed.

Lemma drop_tail_firstn l n : (n < length l)%nat -> p (nth n l "x"%char) = false -> forallb p (skipn (S n) l) = true ->
  rev (drop_while p (rev l)) = firstn (S n) l.
Proof.
  intros Hn Hp Hf. rewrite <- (firstn_skipn (S n) l) at 1. rewrite rev_app_distr, drop_while_app.
  assert (drop_while p (rev (skipn (S n) l)) = []) as ->.
  { apply drop_while_nil, forallb_forall. intros c Hc. apply in_rev in Hc. now apply (proj1 (forallb_forall _ _) Hf). }
  assert (E : firstn (S n) l = firstn n l ++ [nth n l "x"%char]).
  { clear Hp Hf. revert n Hn. induction l as [|c l IH]; intros [|n] Hn; cbn in Hn; try lia; [reflexivity|]. cbn [firstn nth app]. f_equal. apply IH. lia. }
  rewrite E, rev_app_distr. cbn [rev app drop_while]. rewrite Hp. cbn [rev]. now rewrite rev_involutive.
Qed.

(** Trimming by the indices of its first and last characters. *)
Lemma trim_indices l s e : (s <= e)%nat -> (e < length l)%nat -> forallb p (firstn s l) = true -> p (nth s l "x"%char) = false ->
  p (nth e l "x"%char) = false -> forallb p (skipn (S e) l) = true -> trim p l = firstn (S e - s) (skipn s l).
Proof.
  intros Hse He H1 H2 H3 H4. unfold trim. rewrite (drop_tail_firstn l e) by assumption.
  rewrite (drop_while_skipn (firstn (S e) l) s).
  - rewrite skipn_firstn_comm. reflexivity.
  - rewrite length_firstn. lia.
  - rewrite firstn_firstn, Nat.min_l by lia. exact H1.
  - rewrite nth_firstn. replace (s <? S e)%nat with true by (symmetry; apply Nat.ltb_lt; lia). exact H2.
Qed.

Lemma trim_nil l : trim p l = [] <-> forallb p l = true.
Proof.
  unfold trim. split.
  - intros E. apply drop_while_nil in E. destruct (drop_while p (rev l)) as [|c r] eqn:D.
    + apply drop_while_nil in D. apply forallb_forall. intros x Hx. apply (proj1 (forallb_forall _ _) D). now apply -> in_rev.
    + exfalso. assert (p c = false).
      { clear - D. revert D. generalize (rev l). intros k. induction k as [|a k IH]; cbn; [discriminate|]. destruct (p a) eqn:Pa; [exact IH|]. intros [= <- _]. exact Pa. }
      cbn [rev] in E. rewrite forallb_app in E. apply andb_true_iff in E as [_ E]. cbn in E. rewrite H in E. discriminate.
  - intros E. assert (drop_while p (rev l) = []) as ->; [|reflexivity]. apply drop_while_nil, forallb_forall. intros x Hx. apply in_rev in Hx.
    now apply (proj1 (forallb_forall _ _) E).
Qed.

End Tokens.

Lemma trim_empty p : trim p [] = [].
Proof. reflexivity. Qed.

Lemma filter_trim p l : filter nonempty (map (trim p) (filter nonempty l)) = filter nonempty (map (trim p) l).
Proof.
  induction l as [|w l IH]; [reflexivity|]. cbn [filter map]. destruct w as [|c w]; cbn [length Nat.eqb negb].
  - rewrite trim_empty. exact IH.
  - cbn [map filter]. now rewrite IH.
Qed.

Lemma find_first_spec set s : match find_first_not_of set s with
  | Some n => (n < length (chars s))%nat /\ forallb (fun c => has_char c set) (firstn n (chars s)) = true /\ has_char (nth n (chars s) "x"%char) set = false
  | None => forallb (fun c => has_char c set) (chars s) = true end.
Proof.
  induction s as [|c s IH]; cbn [find_first_not_of list_ascii_of_string]; [reflexivity|]. destruct (has_char c set) eqn:E; [|cbn; repeat split; [lia|exact E]].
  destruct (find_first_not_of set s) as [n|]; cbn [option_map firstn forallb nth length]; rewrite E; [|exact IH]. destruct IH as (L & F & P). repeat split; auto. lia.
Qed.

Lemma find_last_spec set s : match find_last_not_of set s with
  | Some n => (n < length (chars s))%nat /\ forallb (fun c => has_char c set) (skipn (S n) (chars s)) = true /\ has_char (nth n (chars s) "x"%char) set = false
  | None => forallb (fun c => has_char c set) (chars s) = true end.
Proof.
  induction s as [|c s IH]; cbn [find_last_not_of list_ascii_of_string]; [reflexivity|]. destruct (find_last_not_of set s) as [n|].
  - destruct IH as (L & F & P). cbn [length skipn nth]. repeat split; [lia|exact F|exact P].
  - destruct (has_char c set) eqn:E; [cbn [forallb]; now rewrite E|]. cbn [length skipn nth]. repeat split; [lia|exact IH|exact E].
Qed.

(** Of two characters outside the set, the first is not after the last. *)
Lemma forallb_nth p (l : list ascii) n : forallb p l = true -> (n < length l)%nat -> p (nth n l "x"%char) = true.
Proof. intros F L. apply (proj1 (forallb_forall p l) F). now apply nth_In. Qed.

Lemma first_le_last p (l : list ascii) s e : (s < length l)%nat -> forallb p (skipn (S e) l) = true -> p (nth s l "x"%char) = false -> (s <= e)%nat.
Proof.
  intros L F P. destruct (Nat.le_gt_cases s e) as [C|C]; [exact C|]. exfalso.
  assert (Q : p (nth (s - S e) (skipn (S e) l) "x"%char) = true) by (apply forallb_nth; [exact F|rewrite length_skipn; lia]).
  rewrite nth_skipn in Q. replace (S e + (s - S e))%nat with s in Q by lia. congruence.
Qed.

Lemma flush_spec tokens word : map chars (flush tokens word) = map chars tokens ++ filter nonempty [trim (fun c => has_char c PUNCT) (chars word)].
Proof.
  unfold flush. destruct (is_empty word) eqn:Em; [destruct word; [cbn; now rewrite app_nil_r|discriminate]|].
  pose proof (find_first_spec PUNCT word) as F. pose proof (find_last_spec PUNCT word) as G. set (p := fun c => has_char c PUNCT) in *.
  destruct (find_first_not_of PUNCT word) as [s|]; [destruct (find_last_not_of PUNCT word) as [e|]|].
  - destruct F as (Ls & Fs & Ps). destruct G as (Le & Fe & Pe). assert (Hse : (s <= e)%nat) by (apply (first_le_last p (chars word)); auto).
    rewrite map_app. cbn [map]. rewrite chars_substring. f_equal.
    rewrite (trim_indices p (chars word) s e) by assumption. replace (e - s + 1)%nat with (S e - s)%nat by lia. cbn [filter].
    rewrite length_firstn, length_skipn. destruct (Nat.eqb_spec (Nat.min (S e - s) (length (chars word) - s)) 0); [lia|reflexivity].
  - exfalso. destruct F as (Ls & _ & Ps). pose proof (forallb_nth p (chars word) s G Ls). unfold p in *. congruence.
  - apply (trim_nil p) in F. rewrite F. cbn. now rewrite app_nil_r.
Qed.

Lemma tokenize_from_spec text : forall tokens word,
  map chars (tokenize_from text tokens word) = map chars tokens ++ filter nonempty (map (trim (fun c => has_char c PUNCT)) (words_from (map tolower (chars text)) (chars word))).
Proof.
  induction text as [|c text IH]; intros tokens word; cbn [tokenize_from list_ascii_of_string map words_from]; [apply flush_spec|].
  rewrite isspace_tolower. destruct (isspace c).
  - rewrite IH, flush_spec, <- app_assoc. f_equal. rewrite <- filter_app. reflexivity.
  - rewrite IH. unfold push_back. rewrite chars_app. reflexivity.
Qed.

(** The tokens of a text are its words (split at white space, in lower case)
    without the punctuation at their ends, in order and with repetitions; words
    that are all punctuation give none. *)
Theorem hrr_tokens text : map list_ascii_of_string (TwHrr.tokenize text) = tokens_of PUNCT text.
Proof. unfold TwHrr.tokenize. rewrite tokenize_from_spec. unfold tokens_of, words. now rewrite filter_trim. Qed.

(** * The tokenizer of the retriever *)

Lemma words_from_lower l : forall w, words_from (map tolower l) (map tolower w) = map (map tolower) (words_from l w).
Proof.
  induction l as [|c l IH]; intros w; cbn [map words_from]; [reflexivity|]. rewrite isspace_tolower. destruct (isspace c); cbn [map].
  - f_equal. apply (IH []).
  - rewrite <- IH, map_app. reflexivity.
Qed.

Lemma words_lower l : words (map tolower l) = map (map tolower) (words l).
Proof.
  unfold words. change (words_from (map tolower l) []) with (words_from (map tolower l) (map tolower [])). rewrite words_from_lower. induction (words_from l []) as [|w ws IH]; [reflexivity|]. cbn [map filter]. rewrite length_map.
  destruct (negb (Nat.eqb (length w) 0)); cbn [map]; now rewrite IH.
Qed.

Lemma words_skip_ws p : words (chars (skip_ws p)) = words (chars p).
Proof.
  induction p as [|c p IH]; [reflexivity|]. cbn [skip_ws]. destruct (isspace c) eqn:E; [|reflexivity]. rewrite IH. unfold words. cbn. now rewrite E.
Qed.

Lemma take_word_spec p : forall acc w q, take_word p = (w, q) ->
  filter nonempty (words_from (chars p) acc) = filter nonempty [acc ++ chars w] ++ words (chars q) /\ (String.length q + String.length w = String.length p)%nat.
Proof.
  induction p as [|c p IH]; intros acc w q E; cbn [take_word] in E.
  - injection E as <- <-. cbn. rewrite !app_nil_r. split; reflexivity.
  - destruct (isspace c) eqn:S.
    + injection E as <- <-. cbn [list_ascii_of_string words_from]. rewrite S, app_nil_r. split; [|cbn; lia].
      unfold words. cbn [words_from]. rewrite S. change (acc :: ?l) with ([acc] ++ l). rewrite filter_app. reflexivity.
    + destruct (take_word p) as [w' q'] eqn:T. injection E as <- <-. destruct (IH (acc ++ [c]) w' q' eq_refl) as [F L].
      cbn [list_ascii_of_string words_from]. rewrite S, F, <- app_assoc. split; [reflexivity|]. cbn. lia.
Qed.

Lemma next_word_spec p : match next_word p with
  | Some (w, q) => words (chars p) = chars w :: words (chars q) /\ (String.length q < String.length p)%nat
  | None => words (chars p) = [] end.
Proof.
  unfold next_word. destruct (take_word (skip_ws p)) as [w q] eqn:T. destruct (take_word_spec _ [] _ _ T) as [F L].
  rewrite <- words_skip_ws. assert (L' : (String.length (skip_ws p) <= String.length p)%nat).
  { clear. induction p as [|c p IH]; cbn [skip_ws]; [lia|]. destruct (isspace c); cbn [String.length]; lia. }
  fold (words (chars (skip_ws p))) in F. rewrite F. destruct w as [|c w]; cbn [is_empty].
  - cbn. destruct (skip_ws p) as [|c r] eqn:E; cbn [take_word] in T; [injection T as <-; reflexivity|].
    destruct (isspace c) eqn:Sc; [|destruct (take_word r); discriminate]. exfalso. clear - E Sc.
    induction p as [|a p IH]; cbn [skip_ws] in E; [discriminate|]. destruct (isspace a) eqn:Sa; [now apply IH|]. congruence.
  - split; [reflexivity|]. cbn [String.length] in L. lia.
Qed.

Lemma strip_start_spec (word : string) (l : list ascii) : l = chars word -> forall fuel start, length l = (start + fuel)%nat -> forallb (fun c => has_char c STRIP) (firstn start l) = true ->
  let s := strip_start fuel start word in (s <= length l)%nat /\ forallb (fun c => has_char c STRIP) (firstn s l) = true /\ ((s < length l)%nat -> has_char (nth s l "x"%char) STRIP = false).
Proof.
  intros ->. induction fuel as [|f IH]; intros start L F; cbn [strip_start]; [repeat split; auto; lia|]. rewrite chars_get.
  destruct (nth_error (chars word) start) as [c|] eqn:E; [|apply nth_error_None in E; lia].
  pose proof (nth_error_nth _ _ "x"%char E) as N. destruct (has_char c STRIP) eqn:H; [|repeat split; [lia|exact F|intros; congruence]].
  apply IH; [lia|]. assert (Ef : firstn (S start) (chars word) = firstn start (chars word) ++ [c]).
  { clear - E. revert start E. generalize (chars word). intros l. induction l as [|a l IH]; intros [|n] E; cbn in E; try discriminate; [injection E as ->; reflexivity|].
    change (firstn (S (S n)) (a :: l)) with (a :: firstn (S n) l). rewrite (IH n E). reflexivity. }
  rewrite Ef, forallb_app, F. cbn [forallb andb]. now rewrite H.
Qed.

Lemma strip_end_spec (word : string) (l : list ascii) start : l = chars word -> forall stop, (start <= stop <= length l)%nat -> forallb (fun c => has_char c STRIP) (skipn stop l) = true ->
  let e := strip_end stop start word in (start <= e <= length l)%nat /\ forallb (fun c => has_char c STRIP) (skipn e l) = true /\ ((start < e)%nat -> has_char (nth (e - 1) l "x"%char) STRIP = false).
Proof.
  intros ->. induction stop as [|e IH]; intros B F; cbn [strip_end]; [repeat split; auto; lia|]. rewrite chars_get.
  destruct (Nat.ltb_spec start (S e)) as [L|L]; cbn [andb]; [|repeat split; auto; lia].
  destruct (nth_error (chars word) e) as [c|] eqn:E; [|apply nth_error_None in E; lia]. pose proof (nth_error_nth _ _ "x"%char E) as N.
  destruct (has_char c STRIP) eqn:H; [|repeat split; auto; try lia; intros _; rewrite Nat.sub_1_r; cbn [Nat.pred]; congruence].
  apply IH; [lia|]. assert (Es : skipn e (chars word) = c :: skipn (S e) (chars word)).
  { clear - E. revert e E. generalize (chars word). intros l. induction l as [|a l IH]; intros [|n] E; cbn in E; try discriminate; [injection E as ->; reflexivity|]. cbn [skipn]. now rewrite (IH n E). }
  rewrite Es. cbn [forallb]. now rewrite H.
Qed.

Lemma add_word_spec tokens w : add_word tokens w =
  match trim (fun c => has_char c STRIP) (map tolower (chars w)) with [] => tokens | t => insert_token tokens (string_of_list_ascii t) end.
Proof.
  unfold add_word. set (word := lower w). rewrite <- chars_lower. fold word. rewrite <- chars_length. set (l := chars word). set (p := fun c => has_char c STRIP).
  destruct (strip_start_spec word l eq_refl (length l) 0) as (S1 & S2 & S3); [lia|reflexivity|]. set (s := strip_start (length l) 0 word) in *.
  destruct (strip_end_spec word l s eq_refl (length l)) as (E1 & E2 & E3); [lia|now rewrite skipn_all|]. set (e := strip_end (length l) s word) in *. cbv zeta.
  destruct (Nat.ltb_spec s e) as [L|L].
  - rewrite (trim_indices p l s (e - 1)); [|lia|lia|exact S2|apply S3; lia|apply E3; lia|replace (S (e - 1)) with e by lia; exact E2].
    replace (S (e - 1) - s)%nat with (e - s)%nat by lia. rewrite <- (string_of_list_ascii_of_string (substring s (e - s) word)), chars_substring. fold l.
    destruct (firstn (e - s) (skipn s l)) as [|a t] eqn:F; [|reflexivity]. apply (f_equal (@length ascii)) in F. rewrite length_firstn, length_skipn in F. cbn in F. lia.
  - assert (trim p l = []) as ->; [|reflexivity]. apply trim_nil. rewrite <- (firstn_skipn s l), forallb_app. unfold p at 1. rewrite S2.
    replace s with e by lia. exact E2.
Qed.

Lemma read_words_spec fuel : forall p tokens, (String.length p < fuel)%nat ->
  read_words fuel p tokens = fold_left insert_token (map string_of_list_ascii (tokens_of STRIP p)) tokens.
Proof.
  induction fuel as [|f IH]; intros p tokens L; [lia|]. cbn [read_words]. pose proof (next_word_spec p) as N. unfold tokens_of. rewrite words_lower.
  destruct (next_word p) as [[w q]|]; [|now rewrite N]. destruct N as [N Lq]. rewrite N. cbn [map]. rewrite IH by lia.
  rewrite add_word_spec. unfold tokens_of. rewrite words_lower. cbn [filter]. destruct (trim _ (map tolower (chars w))) as [|c t]; cbn [length Nat.eqb negb map fold_left]; reflexivity.
Qed.

Lemma has_token_In t s : has_token t s = true <-> In t s.
Proof. unfold has_token. rewrite existsb_exists. split; [intros (x & Hx & E); apply String.eqb_eq in E as ->; exact Hx|intros Hx; exists t; split; [exact Hx|apply String.eqb_refl]]. Qed.

Lemma insert_tokens_spec l : forall s, NoDup s -> NoDup (fold_left insert_token l s) /\ forall t, In t (fold_left insert_token l s) <-> In t s \/ In t l.
Proof.
  induction l as [|x l IH]; intros s ND; cbn [fold_left]; [split; [exact ND|cbn; tauto]|].
  assert (ND' : NoDup (insert_token s x) /\ forall t, In t (insert_token s x) <-> In t s \/ t = x).
  { unfold insert_token. destruct (has_token x s) eqn:H.
    - apply has_token_In in H. split; [exact ND|]. intros t. intuition congruence.
    - split.
      + apply (Permutation_NoDup (Permutation_cons_append s x)). constructor; [|exact ND]. intros Hx. apply has_token_In in Hx. congruence.
      + intros t. rewrite in_app_iff. cbn. intuition congruence. }
  destruct ND' as [N1 N2]. destruct (IH _ N1) as [D T]. split; [exact D|]. intros t. rewrite T, N2. cbn. intuition congruence.
Qed.

Lemma retriever_tokens text : NoDup (tokenize text) /\ forall t, In t (tokenize text) <-> In (chars t) (tokens_of STRIP text).
Proof.
  unfold tokenize. rewrite read_words_spec by lia. destruct (insert_tokens_spec (map string_of_list_ascii (tokens_of STRIP text)) [] (NoDup_nil _)) as [D T].
  split; [exact D|]. intros t. rewrite T, in_map_iff. split.
  - intros [[]|(x & <- & Hx)]. now rewrite list_ascii_of_string_of_list_ascii.
  - intros Hx. right. exists (chars t). now rewrite string_of_list_ascii_of_string.
Qed.

(** * The keyword measure *)

(** Lists without duplicates and with the same elements have one length. *)
Lemma same_length {A} (l l' : list A) : NoDup l -> NoDup l' -> (forall x, In x l <-> In x l') -> length l = length l'.
Proof. intros. now apply Permutation_length, NoDup_Permutation. Qed.

Lemma chars_inj a b : chars a = chars b -> a = b.
Proof. intros E. rewrite <- (string_of_list_ascii_of_string a), E. apply string_of_list_ascii_of_string. Qed.

Lemma NoDup_chars l : NoDup l -> NoDup (map chars l).
Proof. intros N. apply NoDup_map_NoDup_ForallPairs; [intros a b _ _; apply chars_inj|exact N]. Qed.

Lemma In_chars t l : In (chars t) (map chars l) <-> In t l.
Proof. rewrite in_map_iff. split; [intros (x & E & Hx); apply chars_inj in E as <-; exact Hx|eauto]. Qed.

Lemma union_count (a b : token_set) : NoDup a -> NoDup b ->
  (length a + length b = length (filter (fun t => has_token t b) a) + length (b ++ filter (fun t => negb (has_token t b)) a))%nat.
Proof.
  intros _ _. rewrite length_app. enough (length a = length (filter (fun t => has_token t b) a) + length (filter (fun t => negb (has_token t b)) a))%nat by lia.
  induction a as [|x a IH]; [reflexivity|]. cbn [filter]. destruct (has_token x b); cbn [negb length]; lia.
Qed.

(** The keyword part of a score is the Jaccard index of two sets of tokens,
    those of the query and those of the content and the tags: the number of common
    tokens over the number of all tokens, each counted once whatever the order and
    the repetitions in the texts, and zero when one of the sets is empty. *)
Theorem keyword_measure (query content tags : string) (i u : list (list ascii)) : NoDup i -> NoDup u ->
  (forall t, In t i <-> In t (tokens_of STRIP query) /\ In t (tokens_of STRIP content ++ tokens_of STRIP tags)) ->
  (forall t, In t u <-> In t (tokens_of STRIP query) \/ In t (tokens_of STRIP content ++ tokens_of STRIP tags)) ->
  jaccard (tokenize query) (fold_left insert_token (tokenize tags) (tokenize content)) =
  match tokens_of STRIP query, (tokens_of STRIP content ++ tokens_of STRIP tags)%list with
  | [], _ | _, [] => f0
  | _, _ => fdiv (double (Z.of_nat (length i))) (double (Z.of_nat (length u)))
  end.
Proof.
  intros Ni Nu Hi Hu. destruct (retriever_tokens query) as [Nq Tq]. destruct (retriever_tokens content) as [Nc Tc]. destruct (retriever_tokens tags) as [Nt Tt].
  destruct (insert_tokens_spec (tokenize tags) (tokenize content) Nc) as [Nb Tb]. set (b := fold_left insert_token (tokenize tags) (tokenize content)) in *. set (a := tokenize query) in *.
  assert (Ta : forall t, In t (map chars a) <-> In t (tokens_of STRIP query)).
  { intros t. rewrite <- (list_ascii_of_string_of_list_ascii t), In_chars. apply Tq. }
  assert (Tb' : forall t, In t (map chars b) <-> In t (tokens_of STRIP content ++ tokens_of STRIP tags)).
  { intros t. rewrite <- (list_ascii_of_string_of_list_ascii t), In_chars, Tb, Tc, Tt, in_app_iff. reflexivity. }
  assert (Ei : length i = length (filter (fun t => has_token t b) a)).
  { rewrite <- (length_map chars (filter _ a)). apply same_length; [exact Ni|apply NoDup_chars; now apply NoDup_filter|]. intros t.
    rewrite Hi, <- Ta, <- Tb', <- (list_ascii_of_string_of_list_ascii t), !In_chars, filter_In, has_token_In. reflexivity. }
  assert (Eu : length u = length (b ++ filter (fun t => negb (has_token t b)) a)).
  { rewrite <- (length_map chars (b ++ _)). apply same_length; [exact Nu| |].
    - apply NoDup_chars, NoDup_app; [exact Nb|now apply NoDup_filter|]. intros t Ht. rewrite filter_In, negb_true_iff, <- not_true_iff_false, has_token_In. tauto.
    - intros t. rewrite Hu, <- Ta, <- Tb', <- (list_ascii_of_string_of_list_ascii t), !In_chars, in_app_iff, filter_In, negb_true_iff, <- not_true_iff_false, has_token_In.
      destruct (in_dec string_dec (string_of_list_ascii t) b); tauto. }
  pose proof (union_count a b Nq Nb) as U. rewrite <- Ei, <- Eu in U. unfold jaccard. cbv zeta. rewrite <- Ei.
  replace (Z.of_nat (length a) + Z.of_nat (length b) - Z.of_nat (length i)) with (Z.of_nat (length u)) by lia.
  destruct (tokens_of STRIP query) as [|q0 q] eqn:Eq; [destruct a as [|x a]; [reflexivity|exfalso; apply (Ta (chars x)); now left]|].
  destruct a as [|x a']; [exfalso; apply (Ta q0); now left|].
  destruct (tokens_of STRIP content ++ tokens_of STRIP tags)%list as [|c0 c] eqn:Ec; [destruct b as [|y b']; [reflexivity|exfalso; apply (Tb' (chars y)); now left]|].
  destruct b as [|y b']; [exfalso; apply (Tb' c0); now left|]. cbn [length app] in Eu. destruct (Z.ltb_spec 0 (Z.of_nat (length u))); [reflexivity|lia].
Qed.

Lemma keyword_measure_witness : jaccard (tokenize "The red door!") (fold_left insert_token (tokenize "red") (tokenize "a RED, red car")) = fdiv (double 1) (double 5).
Proof.
  pose (i := [chars "red"]). pose (u := [chars "the"; chars "red"; chars "door"; chars "a"; chars "car"]).
  apply (keyword_measure "The red door!" "a RED, red car" "red" i u); [repeat constructor; cbn; intuition discriminate|repeat constructor; cbn; intuition discriminate|..];
    intros t; vm_compute; intuition (subst; try discriminate; auto 10).
Defined.

Definition two_facts : list TwValue := [DICT [("content"%string, STRING "a cat"); ("trust_score"%string, INT 1)]; DICT [("content"%string, STRING "a dog"); ("trust_score"%string, INT 1); ("hrr_vector"%string, STRING "")]].

Definition two_ranked : string := to_json (ARRAY [DICT [("content"%string, STRING "a dog"); ("trust_score"%string, INT 1); ("score"%string, FLOAT half)];
  DICT [("content"%string, STRING "a cat"); ("trust_score"%string, INT 1); ("score"%string, FLOAT f0)]]).

Lemma retrieval_ranked_witness :
  ranked (String.eqb "hrr_vector") (score_candidate (H := flat_libm) (tokenize "dog") [] f1 f1 f0 f0) (dict_items (ARRAY two_facts)) two_ranked.
Proof.
  refine (proj1 (retrieval_ranked (H := flat_libm) (to_json (ARRAY two_facts)) two_facts two_ranked _) "dog"%string [] f1 f1 f0 f0 _); vm_compute; reflexivity.
Defined.
