(* ===== verification/TwJsonText.v ===== *)
(** taskweft_nif/standalone/tw_json.hpp: the parser reads every text of a value,
    whatever the white space between its tokens; the printers of the other headers
    put some. *)

From Stdlib Require Import ZArith String Ascii List Bool Lia.
From S2P Require Import Prelude OrderedMap TwValue TwJson TwJsonProofs.
Import ListNotations.
#[local] Open Scope string_scope.
#[local] Open Scope Z_scope.

(** * Texts *)

Fixpoint ws (s : string) : bool := match s with EmptyString => true | String c r => isspace c && ws r end.

Inductive json_text : TwValue -> string -> Prop :=
| jt_nil : json_text NIL "null"
| jt_true : json_text (BOOL true) "true"
| jt_false : json_text (BOOL false) "false"
| jt_int i : - 2 ^ 63 <= i < 2 ^ 63 -> json_text (INT i) (show_int i)
| jt_string s : json_text (STRING s) (escape_string s)
| jt_no_elements w : ws w = true -> json_text (ARRAY []) ("[" ++ w ++ "]")
| jt_array a w t : ws w = true -> elements a t -> json_text (ARRAY a) ("[" ++ w ++ t ++ "]")
| jt_no_members w : ws w = true -> json_text (DICT []) ("{" ++ w ++ "}")
| jt_dict d w t : ws w = true -> NoDup (keys d) -> members d t -> json_text (DICT d) ("{" ++ w ++ t ++ "}")
with elements : list TwValue -> string -> Prop :=
| el_last v t w : json_text v t -> ws w = true -> elements [v] (t ++ w)
| el_more v t w w' a ts : json_text v t -> ws w = true -> ws w' = true -> elements a ts -> elements (v :: a) (t ++ w ++ "," ++ w' ++ ts)
with members : Dict -> string -> Prop :=
| me_last k w w' v t w'' : ws w = true -> ws w' = true -> json_text v t -> ws w'' = true ->
    members [(k, v)] (escape_string k ++ w ++ ":" ++ w' ++ t ++ w'')
| me_more k w w' v t w'' w3 d ts : ws w = true -> ws w' = true -> json_text v t -> ws w'' = true -> ws w3 = true -> members d ts ->
    members ((k, v) :: d) (escape_string k ++ w ++ ":" ++ w' ++ t ++ w'' ++ "," ++ w3 ++ ts).

Scheme json_text_mind := Minimality for json_text Sort Prop
  with elements_mind := Minimality for elements Sort Prop
  with members_mind := Minimality for members Sort Prop.
Combined Scheme json_text_mutind from json_text_mind, elements_mind, members_mind.

(** * White space *)

Lemma skip_ws_app w s : ws w = true -> skip_ws (w ++ s) = skip_ws s.
Proof. induction w as [|c w IH]; cbn; [reflexivity|]. intros H. apply andb_true_iff in H as [-> H]. now apply IH. Qed.

Lemma skip_ws_nonspace w c s : ws w = true -> isspace c = false -> skip_ws (w ++ String c s) = String c s.
Proof. intros W C. rewrite skip_ws_app by exact W. now apply skip_ws_head. Qed.

Lemma parse_skips n w s : ws w = true -> parse_json_fuel (S n) (w ++ s) = parse_json_fuel (S n) s.
Proof. intros W. cbn [parse_json_fuel]. now rewrite skip_ws_app. Qed.

Lemma ws_delimited w c s : ws w = true -> delimited (String c s) -> delimited (w ++ String c s).
Proof.
  intros W D. destruct w as [|x w]; [exact D|]. cbn [ws] in W. apply andb_true_iff in W as [X _]. cbn.
  clear - X. destruct x as [[] [] [] [] [] [] [] []]; try discriminate X; cbn; repeat split; discriminate.
Qed.

(** The first character of a text. *)
Definition opens (t : string) : Prop := exists c s, t = String c s /\ isspace c = false /\ c <> "]"%char /\ c <> "}"%char.

Lemma text_opens v t : json_text v t -> opens t.
Proof.
  intros H. destruct H; try (eexists _, _; split; [reflexivity|repeat split; discriminate]).
  destruct (json_head (INT i) (pr_int i H)) as (c & s & E & P). exists c, s. auto.
Qed.

Lemma elements_open a t : elements a t -> opens t.
Proof. intros H. destruct H as [v t w J|v t w w' a ts J]; destruct (text_opens v t J) as (c & s & -> & P); eexists c, _; split; reflexivity || exact P. Qed.

(** * The parser *)

#[local] Abbreviation len := String.length.

Definition text_ok (v : TwValue) (t : string) : Prop := forall n r, delimited r -> (len (t ++ r) < n)%nat -> parse_json_fuel n (t ++ r) = Ok (v, r).
Definition elements_ok (a : list TwValue) (t : string) : Prop := forall w n k r arr, ws w = true -> (len (t ++ String "]" r) < n)%nat -> (len (t ++ String "]" r) < k)%nat ->
  array_loop (parse_json_fuel n) k (w ++ t ++ String "]" r) arr = Ok ((arr ++ a)%list, String "]" r).
Definition members_ok (d : Dict) (t : string) : Prop := forall w n k r acc, ws w = true -> NoDup (keys (acc ++ d)%list) -> (len (t ++ String "}" r) < n)%nat -> (len (t ++ String "}" r) < k)%nat ->
  dict_loop (parse_json_fuel n) k (w ++ t ++ String "}" r) acc = Ok ((acc ++ d)%list, String "}" r).

(** Texts that are printed values. *)
Lemma printed_ok v : printable v -> text_ok v (to_json v).
Proof. intros P n r D L. destruct n as [|n]; [lia|]. apply parse_printed; [exact P|exact D|lia]. Qed.

Lemma nonempty_app w t r : opens t -> exists c s, w ++ t ++ r = String c s.
Proof. intros (c & s & -> & _). destruct w; eexists _, _; reflexivity. Qed.

(** One turn of the array loop, up to what follows the element. *)
Lemma array_turn w t w' rest v n k arr : text_ok v t -> opens t -> ws w = true -> ws w' = true -> delimited (w' ++ rest) -> (len (t ++ w' ++ rest) < n)%nat ->
  array_loop (parse_json_fuel n) (S k) (w ++ t ++ w' ++ rest) arr =
  let p := skip_ws rest in if starts "," p then array_loop (parse_json_fuel n) k (tail p) (arr ++ [v])%list else Ok ((arr ++ [v])%list, p).
Proof.
  intros T O W W' D L. destruct (nonempty_app w t (w' ++ rest) O) as (c & s & E). destruct n as [|n]; [lia|].
  pose proof (parse_skips n w (t ++ w' ++ rest) W) as P. rewrite (T _ _ D L) in P. rewrite E in *. cbn [array_loop]. rewrite P. cbn [rbind fst snd].
  now rewrite skip_ws_app.
Qed.

Lemma dict_turn w key w1 w2 t w' rest v n k acc : text_ok v t -> ws w = true -> ws w1 = true -> ws w2 = true -> ws w' = true -> delimited (w' ++ rest) ->
  ~ In key (keys acc) -> (len (t ++ w' ++ rest) < n)%nat ->
  dict_loop (parse_json_fuel n) (S k) (w ++ escape_string key ++ w1 ++ ":" ++ w2 ++ t ++ w' ++ rest) acc =
  let p := skip_ws rest in if starts "," p then dict_loop (parse_json_fuel n) k (tail p) (acc ++ [(key, v)])%list else Ok ((acc ++ [(key, v)])%list, p).
Proof.
  intros T W W1 W2 W' D N L. set (body := (w1 ++ ":" ++ w2 ++ t ++ w' ++ rest)%string). destruct n as [|n]; [lia|].
  assert (O : opens (escape_string key)) by (apply (text_opens (STRING key)); constructor).
  destruct (nonempty_app w (escape_string key) body O) as (c & s & E). pose proof (skip_ws_app w (escape_string key ++ body) W) as S1.
  assert (S2 : skip_ws (escape_string key ++ body) = escape_string key ++ body) by reflexivity. rewrite S2 in S1. rewrite E in S1 |- *. cbn [dict_loop].
  rewrite S1, parse_escaped. unfold body. assert (S3 : skip_ws (w1 ++ ":" ++ w2 ++ t ++ w' ++ rest) = String ":" (w2 ++ t ++ w' ++ rest)) by (apply (skip_ws_nonspace w1 ":"); [exact W1|reflexivity]).
  rewrite S3. change (starts ":" (String ":" (w2 ++ t ++ w' ++ rest))) with true. cbv iota. cbn [tail].
  rewrite (parse_skips n w2 (t ++ w' ++ rest) W2), (T _ _ D L). cbn [rbind fst snd]. rewrite dict_set_new by exact N. now rewrite skip_ws_app.
Qed.

Lemma comma_delimited s : delimited (String "," s).
Proof. cbn. repeat split; discriminate. Qed.
Lemma bracket_delimited s : delimited (String "]" s).
Proof. cbn. repeat split; discriminate. Qed.
Lemma brace_delimited s : delimited (String "}" s).
Proof. cbn. repeat split; discriminate. Qed.

Ltac lengths := rewrite ?str_length_app in *; cbn [String.length String.append] in *; lia.

Lemma texts_ok : (forall v t, json_text v t -> text_ok v t) /\ (forall a t, elements a t -> elements_ok a t) /\ (forall d t, members d t -> members_ok d t).
Proof.
  cut (((forall v t, json_text v t -> text_ok v t /\ opens t) /\ (forall a t, elements a t -> elements_ok a t /\ opens t) /\ (forall d t, members d t -> members_ok d t /\ opens t))).
  { intros (A & B & C). split; [intros v t H; apply (A v t H)|split; [intros a t H; apply (B a t H)|intros d t H; apply (C d t H)]]. }
  apply json_text_mutind.
  - split; [exact (printed_ok NIL pr_nil)|exact (text_opens NIL _ jt_nil)].
  - split; [exact (printed_ok (BOOL true) (pr_bool true))|exact (text_opens _ _ jt_true)].
  - split; [exact (printed_ok (BOOL false) (pr_bool false))|exact (text_opens _ _ jt_false)].
  - intros i Hi. split; [exact (printed_ok (INT i) (pr_int i Hi))|exact (text_opens _ _ (jt_int i Hi))].
  - intros s. split; [exact (printed_ok (STRING s) (pr_string s))|exact (text_opens _ _ (jt_string s))].
  - intros w W. split; [|now apply (text_opens _ _ (jt_no_elements w W))]. intros n r D L. destruct n as [|n]; [lia|]. cbn [String.append parse_json_fuel skip_ws].
    change (isspace "[") with false. cbv iota. change (Ascii.eqb "[" quote) with false. change (Ascii.eqb "[" "[") with true. cbv iota.
    rewrite str_app_assoc. change ("]" ++ r) with (String "]" r). now rewrite (skip_ws_nonspace w "]") by (auto; reflexivity).
  - intros a w t W E [IH O]. split; [|eexists "["%char, _; split; [reflexivity|repeat split; discriminate]]. intros n r D L. destruct n as [|n]; [lia|]. cbn [String.append parse_json_fuel skip_ws].
    change (isspace "[") with false. cbv iota. change (Ascii.eqb "[" quote) with false. change (Ascii.eqb "[" "[") with true. cbv iota.
    rewrite !str_app_assoc. change ("]" ++ r) with (String "]" r). destruct O as (c & s & Et & Hc & H1 & _). 
    assert (S1 : skip_ws (w ++ t ++ String "]" r) = t ++ String "]" r) by (rewrite Et; cbn [String.append]; now apply skip_ws_nonspace).
    rewrite S1. assert (S2 : starts "]" (t ++ String "]" r) = false) by (rewrite Et; cbn [String.append]; now apply starts_head). rewrite S2.
    pose proof (IH "" n (S (len (t ++ String "]" r))) r [] eq_refl ltac:(lengths) ltac:(lia)) as R. cbn [String.append] in R. rewrite R. reflexivity.
  - intros w W. split; [|now apply (text_opens _ _ (jt_no_members w W))]. intros n r D L. destruct n as [|n]; [lia|]. cbn [String.append parse_json_fuel skip_ws].
    change (isspace "{") with false. cbv iota. change (Ascii.eqb "{" quote) with false. change (Ascii.eqb "{" "[") with false. change (Ascii.eqb "{" "{") with true. cbv iota.
    rewrite str_app_assoc. change ("}" ++ r) with (String "}" r). now rewrite (skip_ws_nonspace w "}") by (auto; reflexivity).
  - intros d w t W ND M [IH O]. split; [|eexists "{"%char, _; split; [reflexivity|repeat split; discriminate]]. intros n r D L. destruct n as [|n]; [lia|]. cbn [String.append parse_json_fuel skip_ws].
    change (isspace "{") with false. cbv iota. change (Ascii.eqb "{" quote) with false. change (Ascii.eqb "{" "[") with false. change (Ascii.eqb "{" "{") with true. cbv iota.
    rewrite !str_app_assoc. change ("}" ++ r) with (String "}" r). destruct O as (c & s & Et & Hc & _ & H1).
    assert (S1 : skip_ws (w ++ t ++ String "}" r) = t ++ String "}" r) by (rewrite Et; cbn [String.append]; now apply skip_ws_nonspace).
    rewrite S1. assert (S2 : starts "}" (t ++ String "}" r) = false) by (rewrite Et; cbn [String.append]; now apply starts_head). rewrite S2.
    pose proof (IH "" n (S (len (t ++ String "}" r))) r [] eq_refl ND ltac:(lengths) ltac:(lia)) as R. cbn [String.append] in R. rewrite R. reflexivity.
  - intros v t w J [T O] W. split; [|destruct O as (c & s & -> & P); eexists c, _; split; [reflexivity|exact P]].
    intros w0 n k r arr W0 Ln Lk. destruct k as [|k]; [lia|]. rewrite str_app_assoc in *.
    rewrite (array_turn w0 t w (String "]" r) v); auto using ws_delimited, bracket_delimited.
  - intros v t w w' a ts J [T O] W W' E [IH _]. split; [|destruct O as (c & s & -> & P); eexists c, _; split; [reflexivity|exact P]].
    intros w0 n k r arr W0 Ln Lk. destruct k as [|k]; [lia|]. rewrite !str_app_assoc in *.
    rewrite (array_turn w0 t w ("," ++ w' ++ ts ++ String "]" r) v); auto; [|now apply ws_delimited; [|apply comma_delimited]].
    change (skip_ws ("," ++ w' ++ ts ++ String "]" r)) with (String "," (w' ++ ts ++ String "]" r)). cbv zeta. cbn [starts Ascii.eqb Bool.eqb tail]. cbv iota.
    rewrite IH; [now rewrite <- app_assoc|exact W'|lengths|lengths].
  - intros key w w' v t w'' W W' J [T _] W''. split; [|eexists quote, _; split; [reflexivity|repeat split; discriminate]].
    intros w0 n k r acc W0 ND Ln Lk. destruct k as [|k]; [lia|]. rewrite !str_app_assoc in *.
    rewrite (dict_turn w0 key w w' t w'' (String "}" r) v); auto; [now apply ws_delimited; [|apply brace_delimited]| |lengths].
    unfold keys in *; rewrite map_app in ND; apply NoDup_remove_2 in ND; rewrite app_nil_r in ND; exact ND.
  - intros key w w' v t w'' w3 d ts W W' J [T _] W'' W3 M [IH _]. split; [|eexists quote, _; split; [reflexivity|repeat split; discriminate]].
    intros w0 n k r acc W0 ND Ln Lk. destruct k as [|k]; [lia|]. rewrite !str_app_assoc in *.
    assert (Nk : ~ In key (keys acc)) by (unfold keys in *; rewrite map_app in ND; apply NoDup_remove_2 in ND; intros I; apply ND, in_or_app; now left).
    rewrite (dict_turn w0 key w w' t w'' ("," ++ w3 ++ ts ++ String "}" r) v); auto; [|now apply ws_delimited; [|apply comma_delimited]|lengths].
    change (skip_ws ("," ++ w3 ++ ts ++ String "}" r)) with (String "," (w3 ++ ts ++ String "}" r)). cbv zeta. cbn [starts Ascii.eqb Bool.eqb tail]. cbv iota.
    rewrite IH; [now rewrite <- app_assoc|exact W3|now rewrite <- app_assoc|lengths|lengths].
Qed.

Lemma parse_text_str v t w w' : json_text v t -> ws w = true -> ws w' = true -> parse_json_str (w ++ t ++ w') = Ok v.
Proof.
  intros J W W'. unfold parse_json_str, parse_json. rewrite parse_skips by exact W. destruct texts_ok as (T & _).
  assert (D : delimited w').
  { destruct w' as [|c s]; [exact I|]. cbn [ws] in W'. apply andb_true_iff in W' as [C _]. change (String c s) with (String c "" ++ s).
    clear - C. destruct c as [[] [] [] [] [] [] [] []]; try discriminate C; cbn; repeat split; discriminate. }
  rewrite (T v t J _ w' D); [reflexivity|]. rewrite (str_length_app w). lia.
Qed.

(** The parser accepts JSON as JSON is written: every text of a value without
    binary64 numbers, with any white space around the value and between its
    tokens, parses to that value. *)
Theorem json_text_parses (v : TwValue) (t w w' : string) : json_text v t -> ws w = true -> ws w' = true -> parse_json_str (w ++ t ++ w') = Ok v.
Proof. apply parse_text_str. Qed.

Lemma json_text_parses_witness : parse_json_str (" " ++ ("[" ++ " " ++ show_int 7 ++ " " ++ "," ++ "  " ++ "null" ++ "" ++ "]") ++ " ") = Ok (ARRAY [INT 7; NIL]).
Proof.
  apply (json_text_parses (ARRAY [INT 7; NIL]) ("[" ++ " " ++ show_int 7 ++ " " ++ "," ++ "  " ++ "null" ++ "" ++ "]") " " " "); [|reflexivity|reflexivity].
  exact (jt_array [INT 7; NIL] " " _ eq_refl (el_more (INT 7) (show_int 7) " " "  " [NIL] _ (jt_int 7 ltac:(lia)) eq_refl eq_refl (el_last NIL "null" "" jt_nil eq_refl))).
Defined.
