(* ===== verification/TwExplain.v ===== *)
(** taskweft_nif/standalone/tw_explain.hpp: solution trees and unsolved tasks as
    values, and their recovery from the printed text. *)

From Stdlib Require Import ZArith String Ascii List Bool Lia.
From S2P Require Import Prelude OrderedMap TwValue TwJson TwJsonProofs TwRebac TwState TwDomain.
Import ListNotations.
#[local] Open Scope string_scope.
#[local] Open Scope Z_scope.

(** * The code *)

Definition tw_node_kind_name (k : Kind) : string :=
  match k with KRoot => "root" | KTask => "task" | KAction => "action" | KGoal => "goal" | KMultiGoal => "multigoal" end.

Definition tw_call_to_value (c : TwCall) : TwValue := ARRAY (STRING (name c) :: args c).

(** [d[k] = v] when the condition holds. *)
Definition set_if (b : bool) (k : string) (v : TwValue) (d : Dict) : Dict := if b then dict_set k v d else d.

Definition tw_soltree_node_to_value (n : TwSolNode) (id : Z) : TwValue :=
  let d := dict_set "id" (INT id) [] in
  let d := dict_set "kind" (STRING (tw_node_kind_name (kind n))) d in
  let d := dict_set "parent" (INT (parent n)) d in
  let d := set_if (negb (is_empty (node_name n))) "name" (STRING (node_name n)) d in
  let d := set_if (negb (Nat.eqb (List.length (node_args n)) 0)) "args" (ARRAY (node_args n)) d in
  let d := set_if (0 <=? method_idx n) "method_idx" (INT (method_idx n)) d in
  let d := set_if (0 <=? plan_step n) "plan_step" (INT (plan_step n)) d in
  let d := set_if (0 <=? first_step n) "first_step" (INT (first_step n)) d in
  DICT (dict_set "children" (ARRAY (map INT (children n))) d).

Fixpoint node_values (i : Z) (ns : list TwSolNode) : list TwValue :=
  match ns with
  | [] => []
  | n :: r => tw_soltree_node_to_value n i :: node_values (i + 1) r
  end.

Definition tw_solution_tree_value (tree : TwSolTree) (plan : list TwCall) : TwValue :=
  let explain := dict_set "mode" (STRING "native") [] in
  let explain := dict_set "status" (STRING "ok") explain in
  let explain := dict_set "plan_steps" (ARRAY (map tw_call_to_value plan)) explain in
  let explain := dict_set "solution_tree" (ARRAY (node_values 0 (nodes tree))) explain in
  DICT (dict_set "action_nodes" (ARRAY (map INT (action_nodes tree))) explain).

Definition binding_value (b : TwGoalBinding) : TwValue :=
  DICT (dict_set "desired" (desired b) (dict_set "key" (STRING (key b)) (dict_set "var" (STRING (var b)) []))).

Definition tw_failure_task_value (task : TwTask) (domain : TwDomain) (index : Z) : TwValue :=
  let d := dict_set "index" (INT index) [] in
  match task with
  | Call c =>
      let d := dict_set "kind" (STRING "task_call") d in
      let d := dict_set "name" (STRING (name c)) d in
      let d := dict_set "args" (ARRAY (args c)) d in
      let resolvable := has_action domain (name c) || has_task domain (name c) in
      let d := dict_set "resolvable" (BOOL resolvable) d in
      DICT (dict_set "symbol_type" (STRING (if has_action domain (name c) then "action" else if has_task domain (name c) then "method" else "unknown")) d)
  | Goal g => DICT (dict_set "bindings" (ARRAY (map binding_value g)) (dict_set "kind" (STRING "goal") d))
  | MultiGoal g => DICT (dict_set "bindings" (ARRAY (map binding_value g)) (dict_set "kind" (STRING "multigoal") d))
  end.

Fixpoint failure_values (domain : TwDomain) (i : Z) (tasks : list TwTask) : list TwValue :=
  match tasks with
  | [] => []
  | t :: r => tw_failure_task_value t domain i :: failure_values domain (i + 1) r
  end.

Definition no_plan_value (tasks : list TwTask) (domain : TwDomain) : TwValue :=
  let root := dict_set "status" (STRING "no_plan") [] in
  let explain := dict_set "mode" (STRING "native") [] in
  let explain := dict_set "status" (STRING "no_plan") explain in
  let explain := dict_set "summary" (STRING "planner returned no_plan") explain in
  let explain := dict_set "failure_tree" (ARRAY (failure_values domain 0 tasks)) explain in
  DICT (dict_set "explain" (DICT explain) root).

Definition tw_no_plan_explain_json (tasks : list TwTask) (domain : TwDomain) : string := to_json (no_plan_value tasks domain).

(** * Reading an explanation back *)

Definition field (d : Dict) (k : string) : TwValue := match dict_find k d with Some v => v | None => NIL end.
Definition int_field (d : Dict) (k : string) : Z := match dict_find k d with Some (INT i) => i | _ => -1 end.
Definition array_field (d : Dict) (k : string) : list TwValue := match dict_find k d with Some (ARRAY a) => a | _ => [] end.

Definition read_kind (s : string) : Kind :=
  if String.eqb s "root" then KRoot else if String.eqb s "task" then KTask else if String.eqb s "action" then KAction
  else if String.eqb s "goal" then KGoal else KMultiGoal.

Definition read_node (v : TwValue) : TwSolNode :=
  match v with
  | DICT d => mkNode (read_kind (as_string (field d "kind"))) (int_field d "parent") (map as_int (array_field d "children"))
                (as_string (field d "name")) (array_field d "args") (int_field d "method_idx") (int_field d "plan_step") (int_field d "first_step")
  | _ => mkNode KRoot 0 [] "" [] 0 0 0
  end.

Definition read_call (v : TwValue) : TwCall := match v with ARRAY (n :: ar) => mkCall (as_string n) ar | _ => mkCall "" [] end.

Definition read_explanation (v : TwValue) : TwSolTree * list TwCall :=
  match v with
  | DICT d => (mkTree (map read_node (array_field d "solution_tree")) (map as_int (array_field d "action_nodes")), map read_call (array_field d "plan_steps"))
  | _ => (mkTree [] [], [])
  end.

Definition read_binding (v : TwValue) : TwGoalBinding :=
  match v with DICT d => mkBinding (as_string (field d "var")) (as_string (field d "key")) (field d "desired") | _ => mkBinding "" "" NIL end.

Definition read_task (v : TwValue) : TwTask :=
  match v with
  | DICT d =>
      let k := as_string (field d "kind") in
      if String.eqb k "task_call" then Call (mkCall (as_string (field d "name")) (array_field d "args"))
      else if String.eqb k "goal" then Goal (map read_binding (array_field d "bindings"))
      else MultiGoal (map read_binding (array_field d "bindings"))
  | _ => Goal []
  end.

(** * Proofs *)

(** What the planner's nodes hold: [-1] for no index, 32-bit indices, arguments
    that print without loss. *)
Definition index_ok (i : Z) : Prop := -1 <= i < 2 ^ 31.
Definition node_ok (n : TwSolNode) : Prop :=
  index_ok (parent n) /\ index_ok (method_idx n) /\ index_ok (plan_step n) /\ index_ok (first_step n) /\ Forall index_ok (children n) /\ Forall printable (node_args n).
Definition tree_ok (t : TwSolTree) : Prop := Forall node_ok (nodes t) /\ Forall index_ok (action_nodes t) /\ Z.of_nat (List.length (nodes t)) < 2 ^ 31.

Lemma read_kind_name k : read_kind (tw_node_kind_name k) = k.
Proof. destruct k; reflexivity. Qed.

Lemma as_int_INT l : map as_int (map INT l) = l.
Proof. rewrite map_map. apply map_id. Qed.

Lemma absent i : -1 <= i -> (0 <=? i) = false -> i = -1.
Proof. intros H E. apply Z.leb_gt in E. lia. Qed.

Lemma read_node_value n id : node_ok n -> read_node (tw_soltree_node_to_value n id) = n.
Proof.
  destruct n as [k p cs nm ar m ps fs]. intros (_ & Im & Ip & If & _ & _). unfold index_ok in *. cbn [method_idx plan_step first_step] in *.
  unfold tw_soltree_node_to_value, set_if. cbn [kind parent children node_name node_args method_idx plan_step first_step].
  destruct (is_empty nm) eqn:En, (Nat.eqb (List.length ar) 0) eqn:Ea, (0 <=? m) eqn:Em, (0 <=? ps) eqn:Ep, (0 <=? fs) eqn:Ef; cbn;
    rewrite read_kind_name, as_int_INT;
    repeat match goal with
    | H : is_empty ?s = true |- _ => destruct s; [clear H|discriminate H]
    | H : Nat.eqb (List.length ?l) 0 = true |- _ => destruct l; [clear H|discriminate H]
    | H : (0 <=? ?i) = false |- _ => apply absent in H; [subst i|lia]
    end; reflexivity.
Qed.

Lemma read_call_value c : read_call (tw_call_to_value c) = c.
Proof. now destruct c. Qed.

Lemma read_node_values ns : forall i, Forall node_ok ns -> map read_node (node_values i ns) = ns.
Proof.
  induction ns as [|n ns IH]; intros i F; [reflexivity|]. inversion F; subst. cbn [node_values map]. now rewrite read_node_value, IH.
Qed.

(** Dictionaries built by assignments. *)
Lemma printable_set k v d : printable v -> printable (DICT d) -> printable (DICT (dict_set k v d)).
Proof.
  intros Hv Hd. inversion Hd as [| | | | |? ND F]; subst. constructor; [now apply dict_set_NoDup|]. now apply (Forall_dict_set (fun kv => printable (snd kv))).
Qed.

Lemma printable_set_if b k v d : printable v -> printable (DICT d) -> printable (DICT (set_if b k v d)).
Proof. intros Hv Hd. unfold set_if. destruct b; [now apply printable_set|exact Hd]. Qed.

Lemma printable_empty : printable (DICT []).
Proof. repeat constructor. Qed.

Lemma printable_indices l : Forall index_ok l -> printable (ARRAY (map INT l)).
Proof. intros F. constructor. apply Forall_map. refine (Forall_impl _ _ F). intros i Hi. constructor. unfold index_ok in Hi. lia. Qed.

Create HintDb printdb.
#[local] Hint Resolve printable_set printable_set_if printable_empty printable_indices pr_string pr_bool pr_array : printdb.
#[local] Hint Extern 1 (printable (INT _)) => (apply pr_int; unfold index_ok in *; lia) : printdb.

Lemma node_printable n id : node_ok n -> index_ok id -> printable (tw_soltree_node_to_value n id).
Proof. intros (H1 & H2 & H3 & H4 & H5 & H6) Hid. unfold tw_soltree_node_to_value. auto 20 with printdb. Qed.

Lemma nodes_printable ns : forall i, 0 <= i -> i + Z.of_nat (List.length ns) < 2 ^ 31 -> Forall node_ok ns -> Forall printable (node_values i ns).
Proof.
  induction ns as [|n ns IH]; intros i Hi L F; cbn [node_values]; constructor; inversion F; subst; cbn [List.length] in L.
  - apply node_printable; [assumption|]. unfold index_ok. lia.
  - apply IH; auto; lia.
Qed.

Lemma call_printable c : Forall printable (args c) -> printable (tw_call_to_value c).
Proof. intros F. repeat constructor. exact F. Qed.

Lemma tree_printable t plan : tree_ok t -> Forall (fun c => Forall printable (args c)) plan -> printable (tw_solution_tree_value t plan).
Proof.
  intros (F & A & L) P. unfold tw_solution_tree_value. pose proof (nodes_printable (nodes t) 0 ltac:(lia) L F) as N.
  assert (C : Forall printable (map tw_call_to_value plan)) by (apply Forall_map; refine (Forall_impl _ _ P); apply call_printable). auto 20 with printdb.
Qed.

Lemma parse_printable v : printable v -> parse_json_str (to_json v) = Ok v.
Proof.
  intros P. unfold parse_json_str. assert (E : parse_json (to_json v ++ "") = Ok (v, "")) by (apply parse_json_printed; [exact P|exact I]).
  rewrite str_app_nil in E. now rewrite E.
Qed.

(** Nothing of a solved search is lost in its explanation: from the JSON text
    of [tw_solution_tree_value] the parser recovers a value from which the whole
    solution tree, its list of action nodes and the plan can be read back. *)
Theorem explanation_roundtrip (t : TwSolTree) (plan : list TwCall) : tree_ok t -> Forall (fun c => Forall printable (args c)) plan ->
  exists v, parse_json_str (to_json (tw_solution_tree_value t plan)) = Ok v /\ read_explanation v = (t, plan).
Proof.
  intros T P. exists (tw_solution_tree_value t plan). split; [apply parse_printable; now apply tree_printable|].
  unfold tw_solution_tree_value. cbn. rewrite read_node_values by apply T. rewrite as_int_INT, map_map. rewrite (map_ext _ _ read_call_value), map_id.
  now destruct t.
Qed.

Lemma explanation_roundtrip_witness :
  let t := mkTree [mkNode KRoot (-1) [1] "" [] (-1) (-1) (-1); mkNode KAction 0 [] "open" [STRING "door"] (-1) 0 (-1)] [1] in
  exists v, parse_json_str (to_json (tw_solution_tree_value t [mkCall "open" [STRING "door"]])) = Ok v /\ read_explanation v = (t, [mkCall "open" [STRING "door"]]).
Proof.
  intros t. apply (explanation_roundtrip t [mkCall "open" [STRING "door"]]).
  - unfold tree_ok, node_ok, index_ok, t. cbn. repeat constructor; cbn; lia.
  - repeat constructor.
Defined.

Lemma read_binding_value b : read_binding (binding_value b) = b.
Proof. now destruct b. Qed.

Definition task_ok (t : TwTask) : Prop :=
  match t with Call c => Forall printable (args c) | Goal g | MultiGoal g => Forall (fun b => printable (desired b)) g end.

Lemma bindings_printable g : Forall (fun b => printable (desired b)) g -> Forall printable (map binding_value g).
Proof. intros F. apply Forall_map. refine (Forall_impl _ _ F). intros b Hb. unfold binding_value. auto 20 with printdb. Qed.
#[local] Hint Resolve bindings_printable : printdb.

Lemma failure_printable d t i : task_ok t -> index_ok i -> printable (tw_failure_task_value t d i).
Proof. destruct t; cbn [task_ok]; intros T I; unfold tw_failure_task_value; auto 20 with printdb. Qed.

Lemma failures_printable d ts : forall i, 0 <= i -> i + Z.of_nat (List.length ts) < 2 ^ 31 -> Forall task_ok ts -> Forall printable (failure_values d i ts).
Proof.
  induction ts as [|t ts IH]; intros i Hi L F; cbn [failure_values]; constructor; inversion F; subst; cbn [List.length] in L.
  - apply failure_printable; [assumption|]. unfold index_ok. lia.
  - apply IH; auto; lia.
Qed.

Lemma read_task_value d t i : read_task (tw_failure_task_value t d i) = t.
Proof.
  destruct t as [[n a]|g|g]; cbn; [reflexivity|..]; rewrite map_map, (map_ext _ _ read_binding_value), map_id; reflexivity.
Qed.

Lemma read_failure_values d ts : forall i, map read_task (failure_values d i ts) = ts.
Proof. induction ts as [|t ts IH]; intros i; [reflexivity|]. cbn [failure_values map]. now rewrite read_task_value, IH. Qed.

(** The member of an explanation that names what a call resolves to. *)
Definition explained (v : TwValue) : list TwValue :=
  match v with DICT d => match field d "explain" with DICT e => array_field e "failure_tree" | _ => [] end | _ => [] end.

(** The explanation of a failed search: its JSON text parses to a value whose
    failure tree lists the tasks that were given, in order and whole, and marks a
    call resolvable exactly when the domain has an action or methods of its
    name. *)
Theorem no_plan_explained (tasks : list TwTask) (domain : TwDomain) : Forall task_ok tasks -> Z.of_nat (List.length tasks) < 2 ^ 31 ->
  exists v, parse_json_str (tw_no_plan_explain_json tasks domain) = Ok v /\ map read_task (explained v) = tasks /\
    (forall i c, nth_error tasks i = Some (Call c) -> exists d, nth_error (explained v) i = Some (DICT d) /\
       field d "resolvable" = BOOL (has_action domain (name c) || has_task domain (name c)) /\ field d "index" = INT (Z.of_nat i)).
Proof.
  intros F L. exists (no_plan_value tasks domain). pose proof (failures_printable domain tasks 0 ltac:(lia) L F) as P. split; [|split].
  - apply parse_printable. unfold no_plan_value. auto 20 with printdb.
  - apply read_failure_values.
  - change (explained (no_plan_value tasks domain)) with (failure_values domain 0 tasks). clear. intros i c.
    assert (G : forall ts k i, nth_error ts i = Some (Call c) -> exists d, nth_error (failure_values domain k ts) i = Some (DICT d) /\
       field d "resolvable" = BOOL (has_action domain (name c) || has_task domain (name c)) /\ field d "index" = INT (k + Z.of_nat i)); [|apply G].
    clear. induction ts as [|t ts IH]; intros k [|i] E; cbn [nth_error failure_values] in *; try discriminate.
    + injection E as ->. eexists. split; [reflexivity|]. cbn. split; [reflexivity|]. f_equal. lia.
    + destruct (IH (k + 1) i E) as (d & Ed & R & I). exists d. split; [exact Ed|]. split; [exact R|]. rewrite I. f_equal. lia.
Qed.

Lemma no_plan_explained_witness : exists v,
  parse_json_str (tw_no_plan_explain_json [Call (mkCall "fly" [INT 3]); Goal [mkBinding "at" "bob" (STRING "home")]] (mkDomain [] [] [])) = Ok v /\
  map read_task (explained v) = [Call (mkCall "fly" [INT 3]); Goal [mkBinding "at" "bob" (STRING "home")]].
Proof.
  destruct (no_plan_explained [Call (mkCall "fly" [INT 3]); Goal [mkBinding "at" "bob" (STRING "home")]] (mkDomain [] [] [])) as (v & P & R & _).
  - repeat constructor; cbn; lia.
  - reflexivity.
  - exists v. split; [exact P|exact R].
Defined.
