(* ===== verification/TwMcExecutor.v ===== *)
(** taskweft_nif/standalone/tw_mc_executor.hpp: running a plan whose steps succeed
    with given probabilities, and its agreement with the simulation of the plan.

    [draw seed i] is the [i]-th number of the distribution on [0, 1) over the
    generator seeded with [seed]; the standard leaves its algorithm open. *)

From Stdlib Require Import ZArith String Ascii List Bool Lia.
From Stdlib Require Import Floats.SpecFloat.
From S2P Require Import Prelude OrderedMap TwValue TwJson TwJsonProofs TwRebac TwState TwDomain TwPlanner TwPlannerTree TwTemporal TwNodes TwLoader TwExplain.
Import ListNotations.
#[local] Open Scope string_scope.
#[local] Open Scope Z_scope.
#[local] Open Scope tw_scope.
#[local] Open Scope prog_scope.
#[local] Open Scope double_scope.

(** * The code *)

Definition step_call (step : TwValue) : TwCall :=
  match step with ARRAY (n :: ar) => mkCall (as_string n) ar | _ => mkCall "" [] end.

Record mc_result := mkMc { result_steps : list TwValue; completed : Z; failed_at : option Z }.

Definition step_dict (step : TwValue) (succeeded : bool) (state : TwState) : TwValue :=
  let d := dict_set "action" step [] in
  let d := dict_set "succeeded" (BOOL succeeded) d in
  DICT (dict_set "state_json"
    (if succeeded then STRING (to_json (DICT (fold_left (fun d kv => dict_set (fst kv) (snd kv) d) (vars state) []))) else NIL) d).

Section Executor.
Variable draw : Z -> nat -> spec_float.

(** Apply the action of a step that was drawn as successful; one that the domain
    does not have changes nothing. *)
Definition apply_step (dom : LDomain) (c : TwCall) (state : TwState) : prog (bool * TwState) :=
  match dict_find (name c) (l_actions dom) with
  | Some action =>
      let! new_state := action (copy state) (args c) in
      Ret (match new_state with Some s => (true, s) | None => (false, state) end)
  | None => Ret (true, state)
  end.

Fixpoint mc_loop (dom : LDomain) (probs : list spec_float) (seed : Z) (i : nat) (steps : list TwValue) (state : TwState)
    (results : list TwValue) (done : Z) : prog mc_result :=
  match steps with
  | [] => Ret (mkMc results done None)
  | step :: rest =>
      let prob := nth i probs f1 in
      let! r := if draw seed i <f prob then apply_step dom (step_call step) state else Ret (false, state) in
      let results := (results ++ [step_dict step (fst r) (snd r)])%list in
      if fst r then mc_loop dom probs seed (S i) rest (snd r) results (done + 1)
      else Ret (mkMc results done (Some (Z.of_nat i)))
  end.

Definition print_result (r : mc_result) : string :=
  "{" ++ escape_string "steps" ++ ":" ++ to_json (ARRAY (result_steps r)) ++ "," ++ escape_string "completed" ++ ":" ++ show_int (completed r) ++
  (match failed_at r with
   | Some k => "," ++ escape_string "failed_at" ++ ":" ++ show_int k
   | None => "," ++ escape_string "failed_at" ++ ":null"
   end) ++ "}".

Definition array_of (v : TwValue) : list TwValue := match v with ARRAY a => a | _ => [] end.
Definition prob_of (v : TwValue) : spec_float := if is_number v then as_number v else f1.

Definition load_error : string := "{" ++ escape_string "error" ++ ":" ++ escape_string "failed_to_load_domain" ++ "}".

(** [rng] is seeded with [static_cast<uint64_t>(p_seed)]. *)
Definition mc_execute `{Libm} (domain_json plan_json probs_json : string) (seed : Z) : res (prog string) :=
  do loaded <- load_json domain_json;
  match l_state loaded with
  | None => Ok (Ret load_error)
  | Some s =>
      do plan_val <- parse_json_str plan_json;
      do probs_val <- parse_json_str probs_json;
      Ok (let! r := mc_loop (l_domain loaded) (map prob_of (array_of probs_val)) (u64 seed) 0 (array_of plan_val) (copy s) [] 0 in
          Ret (print_result r))
  end.

(** * Agreement with the simulation *)

(** The actions are functions: no random numbers, nothing undefined. *)
Definition functional (dom : LDomain) : Prop :=
  forall n action s ar, dict_find n (l_actions dom) = Some action -> exists r, action s ar = Ret r.

Lemma find_action dom n : dict_find n (actions (domain_of dom)) = option_map (fun a s ar => settled (a s ar)) (dict_find n (l_actions dom)).
Proof.
  unfold domain_of. cbn [actions]. induction (l_actions dom) as [|[k a] d IH]; [reflexivity|]. cbn [map dict_find fst snd].
  destruct (String.eqb n k); [reflexivity|exact IH].
Qed.

Definition known (dom : LDomain) (c : TwCall) : Prop := dict_find (name c) (l_actions dom) <> None.

(** The domain the executor runs a plan in: a name without an action stands for
    one that changes nothing. *)
Definition padded (dom : LDomain) (names : list string) : TwDomain :=
  mkDomain (actions (domain_of dom) ++ map (fun n => (n, fun s _ => Some s)) names)%list (task_methods (domain_of dom)) (action_durations (domain_of dom)).

Definition names (steps : list TwValue) : list string := map (fun st => name (step_call st)) steps.

Lemma find_padded dom l n : dict_find n (actions (padded dom l)) =
  match dict_find n (l_actions dom) with
  | Some a => Some (fun s ar => settled (a s ar))
  | None => if existsb (String.eqb n) l then Some (fun s _ => Some s) else None
  end.
Proof.
  pose proof (find_action dom n) as E. unfold padded. cbn [actions]. revert E. generalize (actions (domain_of dom)) as d.
  induction d as [|[k a] d IH]; cbn [app dict_find]; intros E.
  - destruct (dict_find n (l_actions dom)); [discriminate|]. clear E. induction l as [|k l IH]; [reflexivity|]. cbn [map dict_find existsb].
    destruct (String.eqb n k); [reflexivity|exact IH].
  - destruct (String.eqb n k); [|exact (IH E)]. rewrite E. now destruct (dict_find n (l_actions dom)).
Qed.

Lemma padded_known dom l plan : Forall (known dom) plan -> forall i s,
  simulate_from (padded dom l) i s plan = simulate_from (domain_of dom) i s plan.
Proof.
  induction 1 as [|c plan K _ IH]; intros i s; [reflexivity|]. cbn [simulate_from]. rewrite find_padded, find_action. unfold known in K.
  destruct (dict_find (name c) (l_actions dom)) as [a|]; [|congruence]. cbn [option_map]. destruct (settled (a s (args c))); [apply IH|reflexivity].
Qed.

Section Steps.
Variable dom : LDomain.
Variable l : list string.
Hypothesis F : functional dom.

Lemma apply_step_runs c s : In (name c) l ->
  exists a r, dict_find (name c) (actions (padded dom l)) = Some a /\ a s (args c) = r /\
    apply_step dom c s = Ret (match r with Some s' => (true, s') | None => (false, s) end).
Proof.
  intros K. unfold apply_step, copy. rewrite find_padded. destruct (dict_find (name c) (l_actions dom)) as [a|] eqn:E.
  - destruct (F _ a s (args c) E) as [r R]. rewrite R. eexists _, r. split; [reflexivity|]. cbv beta. rewrite R. split; reflexivity.
  - assert (existsb (String.eqb (name c)) l = true) as -> by (apply existsb_exists; exists (name c); now rewrite String.eqb_refl).
    eexists _, (Some s). repeat split.
Qed.
End Steps.

(** The entry that a step leaves when the plan is at [s]. *)
Fixpoint entries (dom : TwDomain) (s : TwState) (steps : list TwValue) : list TwValue :=
  match steps with
  | [] => []
  | step :: r =>
      match dict_find (name (step_call step)) (actions dom) with
      | Some a => match a s (args (step_call step)) with Some s' => step_dict step true s' :: entries dom s' r | None => [] end
      | None => []
      end
  end.

(** A simulation that failed completed the steps before. *)
Lemma simulate_failed dom plan : forall i s, 0 <= fail_step (simulate_from dom i s plan) ->
  fail_step (simulate_from dom i s plan) = completed_steps (simulate_from dom i s plan).
Proof.
  induction plan as [|c plan IH]; intros i s; cbn [simulate_from]; [cbn; lia|]. destruct (dict_find _ _) as [a|]; [|reflexivity].
  destruct (a s (args c)); [apply IH|reflexivity].
Qed.

(** The loop stops at the first step that is unlucky or fails in the simulation. *)
Definition unlucky (probs : list spec_float) (seed : Z) (i : nat) : Prop := (draw seed i <f nth i probs f1) = false.

(** The entry of the step at which the execution stopped. *)
Definition last_entry (r : mc_result) (steps : list TwValue) (n : nat) (s : TwState) : list TwValue :=
  match failed_at r, nth_error steps n with Some _, Some step => [step_dict step false s] | _, _ => [] end.

Lemma mc_loop_simulates dom l probs seed : functional dom -> forall steps i s results,
  Forall (fun st => In (name (step_call st)) l) steps ->
  exists r, mc_loop dom probs seed i steps s results (Z.of_nat i) = Ret r /\
    let n := (Z.to_nat (completed r) - i)%nat in
    let sim := simulate_from (padded dom l) (Z.of_nat i) s (map step_call steps) in
    let s1 := sim_state (simulate_from (padded dom l) (Z.of_nat i) s (map step_call (firstn n steps))) in
    Z.of_nat i <= completed r /\ (n <= List.length steps)%nat /\
    simulate_from (padded dom l) (Z.of_nat i) s (map step_call (firstn n steps)) = mkSim (completed r) (-1) "" s1 /\
    (forall j, (i <= j < i + n)%nat -> (draw seed j <f nth j probs f1) = true) /\
    result_steps r = (results ++ entries (padded dom l) s (firstn n steps) ++ last_entry r steps n s1)%list /\
    match failed_at r with
    | None => n = List.length steps
    | Some k => k = completed r /\ (n < List.length steps)%nat /\ (unlucky probs seed (Z.to_nat k) \/ fail_step sim = k)
    end.
Proof.
  intros F. induction steps as [|step rest IH]; intros i s results K; cbn [mc_loop map].
  - eexists. split; [reflexivity|]. cbn [completed failed_at result_steps simulate_from sim_state List.length]. rewrite Nat2Z.id, Nat.sub_diag. cbn.
    repeat split; try lia. now rewrite app_nil_r.
  - inversion K as [|? ? Ks Kr]; subst. destruct (apply_step_runs dom l F (step_call step) s Ks) as (a & q & Ea & Eq & Es).
    destruct (draw seed i <f nth i probs f1) eqn:D; [rewrite Es; destruct q as [s'|]|]; cbn [bind fst snd].
    + destruct (IH (S i) s' (results ++ [step_dict step true s'])%list Kr) as (r & Er & C1 & C2 & C3 & C4 & C5 & C6).
      replace (Z.of_nat i + 1) with (Z.of_nat (S i)) by lia. exists r. split; [exact Er|]. cbv zeta in *.
      replace (Z.to_nat (completed r) - i)%nat with (S (Z.to_nat (completed r) - S i)) by lia. set (m := (Z.to_nat (completed r) - S i)%nat) in *.
      cbn [firstn map List.length simulate_from entries]. rewrite !Ea, !Eq. replace (Z.of_nat i + 1) with (Z.of_nat (S i)) by lia.
      split; [lia|]. split; [lia|]. split; [exact C3|]. split; [|split].
      * intros j Hj. destruct (Nat.eq_dec j i) as [->|N]; [exact D|]. apply C4. lia.
      * rewrite C5, <- !app_assoc. reflexivity.
      * destruct (failed_at r) as [k|]; [|lia]. destruct C6 as (-> & L & U). split; [reflexivity|]. split; [lia|exact U].
    + eexists. split; [reflexivity|]. cbn [completed failed_at result_steps]. rewrite Nat2Z.id, Nat.sub_diag.
      cbn [firstn map simulate_from sim_state List.length entries last_entry failed_at nth_error app]. rewrite Ea, Eq.
      repeat split; try lia. right. reflexivity.
    + eexists. split; [reflexivity|]. cbn [completed failed_at result_steps]. rewrite Nat2Z.id, Nat.sub_diag.
      cbn [firstn map simulate_from sim_state List.length entries last_entry failed_at nth_error app]. repeat split; try lia. left. exact D.
Qed.

(** C20: The executor against the simulator.  For a loaded domain whose actions are
    functions (they neither draw random numbers nor run into undefined
    behaviour) the execution of any plan always ends, and it is judged by
    [tw_simulate] in that domain with every unknown name of the plan standing
    for an action that changes nothing; when the plan names only actions of the
    domain, that is [tw_simulate] in the domain itself.  The steps it completed
    are drawn as successful and run to the end in the simulation; each leaves
    the entry with the state the simulation has there, and the step it stopped
    at, if any, leaves one failed entry and nothing follows.  It stops early
    only at a step that was drawn as a failure or at which the simulation of the
    whole plan fails.  In particular a plan whose steps are certain (draws are
    below 1) stops exactly where the simulation does. *)
Theorem mc_follows_simulation (dom : LDomain) (probs : list spec_float) (seed : Z) (steps : list TwValue) (s : TwState) :
  functional dom ->
  let d := padded dom (names steps) in
  (Forall (fun st => known dom (step_call st)) steps ->
     tw_simulate s (map step_call steps) d = tw_simulate s (map step_call steps) (domain_of dom)) /\
  exists r, mc_loop dom probs seed 0 steps s [] 0 = Ret r /\
    let n := Z.to_nat (completed r) in
    let ran := tw_simulate s (map step_call (firstn n steps)) d in
    let sim := tw_simulate s (map step_call steps) d in
    fail_step ran = -1 /\ completed_steps ran = completed r /\ (n <= List.length steps)%nat /\
    (forall j, (j < n)%nat -> (draw seed j <f nth j probs f1) = true) /\
    result_steps r = (entries d s (firstn n steps) ++
      match failed_at r, nth_error steps n with Some _, Some step => [step_dict step false (sim_state ran)] | _, _ => [] end)%list /\
    match failed_at r with
    | None => n = List.length steps
    | Some k => k = completed r /\ (n < List.length steps)%nat /\ (unlucky probs seed n \/ fail_step sim = k)
    end /\
    ((forall i, (draw seed i <f f1) = true) -> Forall (eq f1) probs ->
       failed_at r = (if fail_step sim <? 0 then None else Some (fail_step sim)) /\ completed r = completed_steps sim).
Proof.
  intros F d. split; [intros K; apply padded_known; now apply Forall_map|].
  destruct (mc_loop_simulates dom (names steps) probs seed F steps 0 s []) as (r & E & C1 & C2 & C3 & C4 & C5 & C6).
  { apply Forall_forall. intros st Hs. unfold names. now apply (in_map (fun st => name (step_call st))). }
  exists r. split; [exact E|]. cbv zeta in *. cbn [Z.of_nat] in *. rewrite Nat.sub_0_r in *. unfold tw_simulate, copy, d.
  set (ran := simulate_from _ 0 s (map step_call (firstn _ steps))) in *. set (sim := simulate_from _ 0 s (map step_call steps)) in *.
  split; [now rewrite C3|]. split; [now rewrite C3|]. split; [exact C2|]. split; [intros j Hj; apply C4; lia|]. split; [exact C5|].
  split; [destruct (failed_at r) as [k|]; [destruct C6 as (-> & L & U); auto|exact C6]|].
  intros HD HP. assert (Lucky : forall i, (draw seed i <f nth i probs f1) = true).
  { intros i. assert (nth i probs f1 = f1) as ->; [|apply HD]. destruct (nth_in_or_default i probs f1) as [I|Ed]; [|exact Ed].
    rewrite Forall_forall in HP. symmetry. now apply HP. }
  destruct (failed_at r) as [k|].
  - destruct C6 as (-> & L & [U|Fs]); [unfold unlucky in U; rewrite Lucky in U; discriminate|]. rewrite Fs.
    destruct (Z.ltb_spec (completed r) 0); [lia|]. split; [reflexivity|]. rewrite <- Fs. apply simulate_failed. fold sim. lia.
  - assert (Es : sim = ran) by (unfold sim, ran; now rewrite C6, firstn_all). rewrite Es, C3. split; reflexivity.
Qed.

(** A step that names no action of the domain is reported as a success that
    changed nothing, whatever its arguments, while the simulator of the same plan
    fails at it. *)
Theorem mc_unknown_succeeds (dom : LDomain) (probs : list spec_float) (seed : Z) (n : string) (ar : list TwValue) (s : TwState) :
  dict_find n (l_actions dom) = None -> (draw seed 0 <f nth 0 probs f1) = true ->
  mc_loop dom probs seed 0 [ARRAY (STRING n :: ar)] s [] 0 = Ret (mkMc [step_dict (ARRAY (STRING n :: ar)) true s] 1 None) /\
  fail_step (tw_simulate s [mkCall n ar] (domain_of dom)) = 0.
Proof.
  intros N D. split.
  - cbn [mc_loop]. rewrite D. unfold apply_step. cbn [step_call as_string name]. rewrite N. reflexivity.
  - unfold tw_simulate. cbn [simulate_from name]. rewrite find_action, N. reflexivity.
Qed.

(** The text is the printed dictionary, so it parses to it. *)
Definition mc_value (r : mc_result) : TwValue :=
  DICT [("steps", ARRAY (result_steps r)); ("completed", INT (completed r)); ("failed_at", match failed_at r with Some k => INT k | None => NIL end)].

Lemma print_result_value r : print_result r = to_json (mc_value r).
Proof.
  unfold print_result, mc_value. cbn [to_json map fst snd]. rewrite !concat_cons. cbn [String.concat]. 
  destruct (failed_at r); cbn [to_json]; rewrite ?str_app_assoc; reflexivity.
Qed.

Lemma print_result_parses r : Forall printable (result_steps r) -> - 2 ^ 63 <= completed r < 2 ^ 63 ->
  (forall k, failed_at r = Some k -> - 2 ^ 63 <= k < 2 ^ 63) -> parse_json_str (print_result r) = Ok (mc_value r).
Proof.
  intros F C K. rewrite print_result_value. apply parse_printable. unfold mc_value. constructor.
  - repeat constructor; cbn; intuition discriminate.
  - repeat constructor; cbn; auto; try lia. destruct (failed_at r) as [k|]; constructor. now apply K.
Qed.

End Executor.

(** A switch that can be turned on once. *)
Module Switch.
Definition turn_on : ActionProg := fun s _ => Ret (if value_eq (get_var s "lamp") (BOOL true) then None else Some (set_var s "lamp" (BOOL true))).
Definition dom : LDomain := mkLDomain [("turn_on", turn_on)] [] [].
Definition even_draws (seed : Z) (i : nat) : spec_float := if Nat.even i then f0 else half.

Lemma functional_dom : functional dom.
Proof. intros n a s ar E. cbn in E. destruct (String.eqb n "turn_on"); [|discriminate]. injection E as <-. eexists. reflexivity. Qed.

Lemma mc_follows_simulation_witness : exists r,
  mc_loop even_draws dom [] 7 0 [ARRAY [STRING "turn_on"]; ARRAY [STRING "wait"]; ARRAY [STRING "turn_on"]] empty_state [] 0 = Ret r /\
  failed_at r = Some 2 /\ completed r = 2.
Proof.
  destruct (mc_follows_simulation even_draws dom [] 7 [ARRAY [STRING "turn_on"]; ARRAY [STRING "wait"]; ARRAY [STRING "turn_on"]] empty_state functional_dom)
    as [_ (r & E & _ & _ & _ & _ & _ & _ & C)].
  exists r. split; [exact E|]. apply C; [intros i; unfold even_draws; destruct (Nat.even i); reflexivity|constructor].
Defined.

Lemma mc_unknown_succeeds_witness :
  mc_loop even_draws dom [] 7 0 [ARRAY [STRING "fly"]] empty_state [] 0 = Ret (mkMc [step_dict (ARRAY [STRING "fly"]) true empty_state] 1 None) /\
  fail_step (tw_simulate empty_state [mkCall "fly" []] (domain_of dom)) = 0.
Proof. apply (mc_unknown_succeeds even_draws dom [] 7 "fly" [] empty_state); reflexivity. Defined.
End Switch.
