(* ===== verification/TwBridge.v ===== *)
(** taskweft_nif/standalone/tw_bridge.hpp: relation sentences as edges, and plans
    and states as facts of the memory. *)

From Stdlib Require Import ZArith String Ascii List Bool Lia.
From Stdlib Require Import Floats.SpecFloat.
From S2P Require Import Prelude OrderedMap TwValue TwJson TwRebac TwTemporal TwNodes TwRun TwRetriever.
Import ListNotations.
#[local] Open Scope string_scope.
#[local] Open Scope Z_scope.
#[local] Open Scope tw_scope.

(** * Regular expressions

    The backtracking search of ECMAScript over what is left of the text, for the
    constructs the pattern has: classes, literals without regard to case,
    sequence, ordered choice, lazy repetition and greedy repetition of a class,
    groups, the end of the text.  Captures are the texts of the groups. *)

Inductive regex :=
| Class (p : ascii -> bool)
| Literal (w : string)
| Seq (a b : regex)
| Alt (a b : regex)
| LazyStar (p : ascii -> bool)
| GreedyPlus (p : ascii -> bool)
| Group (n : nat) (r : regex)
| End.

Definition captures := list (nat * string).

Fixpoint match_literal (w s : string) : option string :=
  match w, s with
  | EmptyString, _ => Some s
  | String a w', String c s' => if Ascii.eqb (tolower a) (tolower c) then match_literal w' s' else None
  | String _ _, EmptyString => None
  end.

(** What was consumed between two suffixes of the text. *)
Definition consumed (s rest : string) : string := String.substring 0 (String.length s - String.length rest) s.

Section Match.
Context {X : Type}.

Fixpoint lazy_star (p : ascii -> bool) (k : string -> option X) (s : string) : option X :=
  match k s with
  | Some x => Some x
  | None => match s with String c t => if p c then lazy_star p k t else None | EmptyString => None end
  end.

Fixpoint greedy_plus (p : ascii -> bool) (k : string -> option X) (s : string) : option X :=
  match s with
  | String c t => if p c then match greedy_plus p k t with Some x => Some x | None => k t end else None
  | EmptyString => None
  end.

Fixpoint regex_match (r : regex) (s : string) (caps : captures) (k : string -> captures -> option X) : option X :=
  match r with
  | Class p => match s with String c t => if p c then k t caps else None | EmptyString => None end
  | Literal w => match match_literal w s with Some t => k t caps | None => None end
  | Seq a b => regex_match a s caps (fun t caps => regex_match b t caps k)
  | Alt a b => match regex_match a s caps k with Some x => Some x | None => regex_match b s caps k end
  | LazyStar p => lazy_star p (fun t => k t caps) s
  | GreedyPlus p => greedy_plus p (fun t => k t caps) s
  | Group n r => regex_match r s caps (fun t caps => k t ((n, consumed s t) :: caps))
  | End => if is_empty s then k s caps else None
  end.
End Match.

(** The first position a match starts at. *)
Fixpoint regex_search (r : regex) (s : string) : option (string * captures) :=
  match regex_match r s [] (fun t caps => Some (t, caps)) with
  | Some m => Some m
  | None => match s with String _ t => regex_search r t | EmptyString => None end
  end.

(** [sregex_iterator] over matches that are not empty. *)
Fixpoint regex_matches (fuel : nat) (r : regex) (s : string) : list captures :=
  match fuel with
  | O => []
  | S f => match regex_search r s with Some (t, caps) => caps :: regex_matches f r t | None => [] end
  end.

Fixpoint capture (n : nat) (caps : captures) : string :=
  match caps with [] => EmptyString | (m, s) :: r => if Nat.eqb n m then s else capture n r end.

(** * Relations *)

(** [\w] in the C locale. *)
Definition is_word (c : ascii) : bool :=
  isdigit c || ((65 <=? code c) && (code c <=? 90)) || ((97 <=? code c) && (code c <=? 122)) || (code c =? 95).
Definition word_or_space (c : ascii) : bool := is_word c || isspace c.

Definition verbs : list string :=
  ["owns"; "controls"; "delegated to"; "delegates to"; "has capability"; "is member of"; "belongs to"; "supervises"; "partner of"].

Definition alternatives (l : list string) : regex :=
  match l with [] => Literal "" | w :: r => fold_left (fun a w => Alt a (Literal w)) r (Literal w) end.

Definition RE_REL : regex :=
  Seq (Group 1 (Seq (Class is_word) (LazyStar word_or_space)))
    (Seq (GreedyPlus isspace)
      (Seq (Group 2 (alternatives verbs))
        (Seq (GreedyPlus isspace)
          (Seq (Group 3 (Seq (Class is_word) (LazyStar word_or_space)))
            (Alt (Literal ".") End))))).

Definition relation_keywords : dict string := [
  ("owns", "OWNS"); ("controls", "CONTROLS"); ("delegated", "DELEGATED_TO"); ("delegates", "DELEGATED_TO");
  ("capable", "HAS_CAPABILITY"); ("capability", "HAS_CAPABILITY"); ("member", "IS_MEMBER_OF"); ("belongs", "IS_MEMBER_OF");
  ("supervises", "SUPERVISOR_OF"); ("supervisor", "SUPERVISOR_OF"); ("partner", "PARTNER_OF")].

Definition binding_content (var arg val : string) : string := var ++ " " ++ arg ++ " " ++ val.

(** [while (isspace(s.back())) s.pop_back()] *)
Fixpoint trim_back (s : string) : string :=
  match s with
  | EmptyString => EmptyString
  | String c r => match trim_back r with
                  | EmptyString => if isspace c then EmptyString else String c EmptyString
                  | r' => String c r'
                  end
  end.

Fixpoint first_word (s : string) : string :=
  match s with String c r => if Ascii.eqb c " " then EmptyString else String c (first_word r) | EmptyString => EmptyString end.

Definition relation_edge (g : TwReBACGraph) (m : captures) : TwReBACGraph :=
  match dict_find (first_word (lower (capture 2 m))) relation_keywords with
  | Some rel => add_edge_rel g (trim_back (capture 1 m)) (trim_back (capture 3 m)) (parse_rel rel)
  | None => g
  end.

Definition sentence_edges (g : TwReBACGraph) (content : string) : TwReBACGraph :=
  fold_left relation_edge (regex_matches (S (String.length content)) RE_REL content) g.

Definition fact_edges (threshold : spec_float) (g : TwReBACGraph) (d : Dict) : TwReBACGraph :=
  let distrusted := match dict_find "trust_score" d with Some v => is_number v && flt (as_number v) threshold | None => false end in
  match dict_find "content" d with
  | Some (STRING content) => if distrusted then g else sentence_edges g content
  | _ => g
  end.

Definition parse_relation_edges (facts_json : string) (trust_threshold : spec_float) : res string :=
  do root <- parse_json_str facts_json;
  Ok (graph_to_json (fold_left (fact_edges trust_threshold) (dict_items root) empty_graph)).

(** * States and plans as facts *)

(** [__name__] starts with an underscore too. *)
Definition public_var (n : string) : bool :=
  negb (is_empty n) && negb (starts "_" n) && negb (String.eqb n "__name__") && negb (String.eqb n "rigid").

Definition add_entity (entities : list string) (arg : string) : list string :=
  if String.prefix "rigid" arg then entities else insert_token entities arg.

Definition extract_state_entities (state_json : string) : res (list string) :=
  do root <- parse_json_str state_json;
  Ok (match root with
      | DICT d =>
          fold_left (fun es kv =>
              if public_var (fst kv) then match snd kv with DICT b => fold_left add_entity (keys b) es | _ => es end else es)
            d []
      | _ => []
      end).

Definition memory_fact (content category tags : string) : TwValue :=
  DICT (dict_set "tags" (STRING tags) (dict_set "category" (STRING category) (dict_set "content" (STRING content) []))).

Definition strings_of (v : TwValue) : list string :=
  match v with ARRAY a => flat_map (fun e => match e with STRING s => [s] | _ => [] end) a | _ => [] end.

(** [action_name(args)], arguments joined with commas. *)
Definition step_text (step : TwValue) : string :=
  match step with
  | ARRAY (a :: ar) => as_string a ++ "(" ++ String.concat ", " (map as_string ar) ++ ")"
  | _ => "()"
  end.

Fixpoint step_facts (i : Z) (domain : string) (steps : list TwValue) : list TwValue :=
  match steps with
  | [] => []
  | st :: r => memory_fact ("Plan step " ++ show_int (i + 1) ++ ": " ++ step_text st ++ " in " ++ domain ++ ".") "planning" domain :: step_facts (i + 1) domain r
  end.

Definition plan_result_contents (plan_json domain entities_json : string) : res string :=
  do plan <- parse_json_str plan_json;
  do ents <- parse_json_str entities_json;
  let steps := match plan with ARRAY a => a | _ => [] end in
  let summary := "Plan for " ++ domain ++ ": " ++ show_int (Z.of_nat (List.length steps)) ++ " steps involving " ++
                 String.concat ", " (firstn 5 (strings_of ents)) ++ "." in
  Ok (to_json (ARRAY (memory_fact summary "planning" domain :: step_facts 0 domain (firstn 20 steps)))).

Definition binding_facts (domain category : string) (d : Dict) : list TwValue :=
  flat_map (fun kv =>
      if public_var (fst kv) then
        match snd kv with
        | DICT b => map (fun av => memory_fact (binding_content (fst kv) (fst av) (as_string (snd av))) category domain) b
        | _ => []
        end
      else []) d.

Definition state_bindings_contents (state_json domain category : string) : res string :=
  do root <- parse_json_str state_json;
  Ok (match root with DICT d => to_json (ARRAY (binding_facts domain category d)) | _ => "[]" end).

Example relations_of_text :
  edges (sentence_edges empty_graph "Alice Smith owns the red car. bob DELEGATED TO carol") =
  [mkEdge "Alice Smith" "the red car" OWNS "OWNS"; mkEdge "bob" "carol" DELEGATED_TO "DELEGATED_TO"].
Proof. vm_compute. reflexivity. Qed.
