(* ===== verification/TwBridgeProofs.v ===== *)
(** taskweft_nif/standalone/tw_bridge.hpp: which sentences give edges, which names
    are entities, and what the facts of a state say. *)

From Stdlib Require Import ZArith String Ascii List Bool Lia.
From Stdlib Require Import Floats.SpecFloat.
From S2P Require Import Prelude OrderedMap TwValue TwJson TwJsonProofs TwRebac TwTemporal TwNodes TwRun TwRetriever TwRetrieverProofs TwExplain TwBridge.
Import ListNotations.
#[local] Open Scope string_scope.
#[local] Open Scope Z_scope.

(** * Matching a sentence of single words *)

Fixpoint all_chars (p : ascii -> bool) (s : string) : bool :=
  match s with EmptyString => true | String c r => p c && all_chars p r end.

(** A word of the pattern's class. *)
Definition word (s : string) : Prop := is_empty s = false /\ all_chars is_word s = true.

Lemma word_not_space c : is_word c = true -> isspace c = false.
Proof. destruct c as [[] [] [] [] [] [] [] []]; vm_compute; congruence. Qed.

Lemma word_not_dot c : is_word c = true -> Ascii.eqb "." (tolower c) = false.
Proof. destruct c as [[] [] [] [] [] [] [] []]; vm_compute; congruence. Qed.

Lemma word_in_run c : is_word c = true -> word_or_space c = true.
Proof. unfold word_or_space. now intros ->. Qed.

(** Lazy repetition stops where the rest first matches. *)
Lemma lazy_star_stop {X} p (k : string -> option X) s x w :
  k s = Some x -> all_chars p w = true -> (forall c w', all_chars is_word w = true -> is_word c = true -> k (String c w' ++ s) = None) -> all_chars is_word w = true ->
  lazy_star p k (w ++ s) = Some x.
Proof.
  intros Hk. induction w as [|c w IH]; intros Hp Hn Hw; cbn [String.append].
  - destruct s; cbn [lazy_star]; now rewrite Hk.
  - cbn [all_chars] in Hp, Hw. apply andb_true_iff in Hp as [Hc Hp]. apply andb_true_iff in Hw as [Hc' Hw]. cbn [lazy_star].
    change (String c (w ++ s)) with (String c w ++ s). rewrite (Hn c w) by (cbn; rewrite ?Hc'; auto). rewrite Hc. apply IH; auto.
    intros c' w' _ Hc''. apply Hn; [cbn; now rewrite Hc', Hw|exact Hc''].
Qed.

Lemma words_run w : all_chars is_word w = true -> all_chars word_or_space w = true.
Proof.
  induction w as [|c w IH]; [reflexivity|]. cbn [all_chars]. intros H. apply andb_true_iff in H as [Hc Hw]. now rewrite (word_in_run c Hc), IH.
Qed.

(** One space, then something else. *)
Lemma greedy_one {X} (k : string -> option X) c s : isspace c = false -> greedy_plus isspace k (String " " (String c s)) = k (String c s).
Proof.
  intros Hc. cbn [greedy_plus]. change (isspace " ") with true. cbv iota. now rewrite Hc.
Qed.

Lemma substring_all s t : String.substring 0 (String.length s) (s ++ t) = s.
Proof. induction s as [|c s IH]; cbn; [now destruct t|]. now rewrite IH. Qed.

Lemma consumed_app s t : consumed (s ++ t) t = s.
Proof. unfold consumed. rewrite str_length_app, Nat.add_sub. apply substring_all. Qed.

Lemma trim_back_word s : word s -> trim_back s = s.
Proof.
  intros [_ H]. induction s as [|c s IH]; [reflexivity|]. cbn [all_chars] in H. apply andb_true_iff in H as [Hc Hs]. cbn [trim_back]. rewrite (IH Hs).
  destruct s; [now rewrite (word_not_space c Hc)|reflexivity].
Qed.

Lemma match_seq {X} a b s caps (k : string -> captures -> option X) : regex_match (Seq a b) s caps k = regex_match a s caps (fun t cs => regex_match b t cs k).
Proof. reflexivity. Qed.

Lemma match_plus {X} p s caps (k : string -> captures -> option X) : regex_match (GreedyPlus p) s caps k = greedy_plus p (fun t => k t caps) s.
Proof. reflexivity. Qed.

(** The object and the full stop. *)
Lemma object_matches {X} obj caps (k : string -> captures -> option X) x : word obj -> k "" ((3%nat, obj) :: caps) = Some x ->
  regex_match (Seq (Group 3 (Seq (Class is_word) (LazyStar word_or_space))) (Alt (Literal ".") End)) (obj ++ ".") caps k = Some x.
Proof.
  intros [Ne Hw] Hk. destruct obj as [|c o]; [discriminate|]. cbn [all_chars] in Hw. apply andb_true_iff in Hw as [Hc Ho].
  cbn [regex_match String.append]. rewrite Hc. apply lazy_star_stop; [|now apply words_run| |exact Ho].
  - cbn [match_literal]. change (Ascii.eqb (tolower ".") (tolower ".")) with true. cbv iota.
    change (String c (o ++ ".")) with (String c o ++ "."). rewrite consumed_app, Hk. reflexivity.
  - intros d w _ Hd. cbn [String.append match_literal is_empty]. change (tolower ".") with "."%char. now rewrite (word_not_dot d Hd).
Qed.

(** The rest of the pattern after the subject, and its failure inside a word. *)
Definition after_subject : regex :=
  Seq (GreedyPlus isspace) (Seq (Group 2 (alternatives verbs)) (Seq (GreedyPlus isspace)
    (Seq (Group 3 (Seq (Class is_word) (LazyStar word_or_space))) (Alt (Literal ".") End)))).

Lemma verb_matches {X} verb obj caps (k : string -> captures -> option X) x : In verb verbs -> word obj ->
  k "" ((3%nat, obj) :: (2%nat, verb) :: caps) = Some x -> regex_match after_subject (" " ++ verb ++ " " ++ obj ++ ".") caps k = Some x.
Proof.
  intros Hv Hw Hk. unfold after_subject. rewrite match_seq, match_plus.
  assert (E : exists c r, verb = String c r /\ isspace c = false).
  { repeat (destruct Hv as [<-|Hv]; [eexists _, _; split; reflexivity|]). destruct Hv. }
  destruct E as (c & r & Ev & Hc).
  assert (Eo : exists d o, obj = String d o /\ is_word d = true).
  { destruct Hw as [Ne Ha]. destruct obj as [|d o]; [discriminate|]. exists d, o. cbn in Ha. apply andb_true_iff in Ha. tauto. }
  destruct Eo as (d & o & Eo & Hd).
  replace (" " ++ verb ++ " " ++ obj ++ ".") with (String " " (String c (r ++ String " " (obj ++ ".")))) by (rewrite Ev; reflexivity).
  rewrite greedy_one by exact Hc. replace (String c (r ++ String " " (obj ++ "."))) with (verb ++ String " " (obj ++ ".")) by (rewrite Ev; reflexivity).
  assert (K : regex_match (Seq (GreedyPlus isspace) (Seq (Group 3 (Seq (Class is_word) (LazyStar word_or_space))) (Alt (Literal ".") End)))
    (String " " (obj ++ ".")) ((2%nat, verb) :: caps) k = Some x).
  { rewrite match_seq, match_plus. replace (String " " (obj ++ ".")) with (String " " (String d (o ++ "."))) by (rewrite Eo; reflexivity).
    rewrite greedy_one by now apply word_not_space. replace (String d (o ++ ".")) with (obj ++ ".") by (rewrite Eo; reflexivity). now apply object_matches. }
  rewrite match_seq. set (rest := String " " (obj ++ ".")) in *. set (tail_re := Seq (GreedyPlus isspace) _) in *. clearbody rest tail_re.
  clear Ev Hc c r Hk Eo Hd d o Hw.
  repeat (destruct Hv as [<-|Hv]; [match goal with |- regex_match (Group 2 _) (?w ++ _) _ _ = _ =>
    rewrite <- (consumed_app w rest) in K; cbn [alternatives verbs fold_left regex_match]; cbn - [regex_match consumed] in K |- *; rewrite K; reflexivity end|]). destruct Hv.
Qed.

Definition sentence (subj verb obj : string) : string := subj ++ " " ++ verb ++ " " ++ obj ++ ".".

Lemma sentence_match subj verb obj : word subj -> In verb verbs -> word obj ->
  regex_match RE_REL (sentence subj verb obj) [] (fun t caps => Some (t, caps)) = Some ("", [(3%nat, obj); (2%nat, verb); (1%nat, subj)]).
Proof.
  intros [Ne Hs] Hv Ho. destruct subj as [|c s]; [discriminate|]. cbn [all_chars] in Hs. apply andb_true_iff in Hs as [Hc Hs].
  unfold RE_REL, sentence. fold after_subject. rewrite match_seq. set (rest := " " ++ verb ++ " " ++ obj ++ ".").
  cbn [regex_match String.append]. fold (regex_match (X := string * captures)). rewrite Hc. apply lazy_star_stop; [|now apply words_run| |exact Hs].
  - change (String c (s ++ rest)) with (String c s ++ rest). rewrite consumed_app. now apply verb_matches.
  - intros d w _ Hd. unfold after_subject. rewrite match_seq, match_plus. cbn [String.append greedy_plus]. now rewrite (word_not_space d Hd).
Qed.

Lemma search_here r s m : regex_match r s [] (fun t caps => Some (t, caps)) = Some m -> regex_search r s = Some m.
Proof. intros E. destruct s; cbn [regex_search]; now rewrite E. Qed.

Lemma sentence_matches subj verb obj fuel : word subj -> In verb verbs -> word obj ->
  regex_matches (S (S fuel)) RE_REL (sentence subj verb obj) = [[(3%nat, obj); (2%nat, verb); (1%nat, subj)]].
Proof.
  intros Hs Hv Ho. cbn [regex_matches]. rewrite (search_here _ _ _ (sentence_match subj verb obj Hs Hv Ho)). reflexivity.
Qed.

(** The relation a verb stands for. *)
Definition relation_of (verb : string) : option RelationType :=
  option_map parse_rel (dict_find (first_word verb) relation_keywords).

Lemma lower_verb verb : In verb verbs -> lower verb = verb.
Proof. intros Hv. repeat (destruct Hv as [<-|Hv]; [reflexivity|]). destruct Hv. Qed.

Lemma sentence_edge g subj verb obj : word subj -> In verb verbs -> word obj ->
  sentence_edges g (sentence subj verb obj) = match relation_of verb with Some r => add_edge_rel g subj obj r | None => g end.
Proof.
  intros Hs Hv Ho. unfold sentence_edges. assert (L : exists f, S (String.length (sentence subj verb obj)) = S (S f)).
  { destruct subj as [|c s]; [destruct Hs as [[=] _]|]. eexists. reflexivity. }
  destruct L as [f ->]. rewrite sentence_matches by assumption. cbn [fold_left]. unfold relation_edge, relation_of. cbn [capture Nat.eqb].
  rewrite lower_verb, !trim_back_word by assumption. destruct (dict_find (first_word verb) relation_keywords); reflexivity.
Qed.

(** The facts of sentences about single words, in order. *)
Definition relation_fact (s : string * string * string) : TwValue := DICT [("content", STRING (sentence (fst (fst s)) (snd (fst s)) (snd s)))].

Definition add_relation (g : TwReBACGraph) (s : string * string * string) : TwReBACGraph :=
  match relation_of (snd (fst s)) with Some r => add_edge_rel g (fst (fst s)) (snd s) r | None => g end.

Definition sentence_ok (s : string * string * string) : Prop := word (fst (fst s)) /\ In (snd (fst s)) verbs /\ word (snd s).

Lemma dict_items_facts l : dict_items (ARRAY (map relation_fact l)) = map (fun s => [("content", STRING (sentence (fst (fst s)) (snd (fst s)) (snd s)))]) l.
Proof. cbn. induction l as [|s l IH]; [reflexivity|]. cbn [map flat_map relation_fact app]. now rewrite IH. Qed.

(** From sentences to edges: the facts "subject verb object." whose subject and
    object are single words and whose verb is one the pattern knows give, in
    order, one edge each of the relation of the verb's first word, whatever the
    trust threshold, and no other edge; a verb whose first word the keyword map
    lacks gives none. *)
Theorem relation_sentences (l : list (string * string * string)) (threshold : spec_float) : Forall sentence_ok l ->
  parse_relation_edges (to_json (ARRAY (map relation_fact l))) threshold = Ok (graph_to_json (fold_left add_relation l empty_graph)).
Proof.
  intros F. unfold parse_relation_edges. rewrite parse_printable.
  2: { constructor. apply Forall_map, Forall_forall. intros s _. unfold relation_fact. constructor; repeat constructor; intros []. }
  cbn [rbind]. rewrite dict_items_facts. f_equal. f_equal. generalize empty_graph. induction F as [|s l (Hs & Hv & Ho) F IH]; intros g; [reflexivity|].
  cbn [map fold_left]. rewrite <- IH. f_equal. unfold fact_edges. cbn [dict_find]. cbn [String.eqb Ascii.eqb Bool.eqb]. cbn iota. now apply sentence_edge.
Qed.

Lemma relation_sentences_witness :
  parse_relation_edges (to_json (ARRAY [relation_fact ("alice", "owns", "sword"); relation_fact ("bob", "belongs to", "guild")])) half =
  Ok (graph_to_json (add_edge_rel (add_edge_rel empty_graph "alice" "sword" OWNS) "bob" "guild" IS_MEMBER_OF)).
Proof.
  apply (relation_sentences [("alice", "owns", "sword"); ("bob", "belongs to", "guild")] half).
  repeat (apply Forall_cons || apply Forall_nil); (split; [split; reflexivity|split; [cbn; auto 10|split; reflexivity]]).
Defined.

(** Two of the nine verbs of the pattern give no edge: "has capability" and
    "is member of" match, but the keyword map has no entry for their first words,
    so the sentences are dropped; the other seven verbs have a relation. *)
Theorem lost_verbs : relation_of "has capability" = None /\ relation_of "is member of" = None /\
  (forall g subj obj, word subj -> word obj ->
     sentence_edges g (sentence subj "has capability" obj) = g /\ sentence_edges g (sentence subj "is member of" obj) = g) /\
  map relation_of ["owns"; "controls"; "delegated to"; "delegates to"; "belongs to"; "supervises"; "partner of"] =
  map Some [OWNS; CONTROLS; DELEGATED_TO; DELEGATED_TO; IS_MEMBER_OF; SUPERVISOR_OF; PARTNER_OF].
Proof.
  repeat split; intros; rewrite sentence_edge by (auto; cbn; auto 10); reflexivity.
Qed.

Lemma lost_verbs_witness : sentence_edges empty_graph (sentence "bob" "is member of" "guild") = empty_graph.
Proof. apply lost_verbs; split; reflexivity. Defined.

(** * Entities *)

Lemma add_entities l : forall es, NoDup es ->
  NoDup (fold_left add_entity l es) /\ forall e, In e (fold_left add_entity l es) <-> In e es \/ (In e l /\ String.prefix "rigid" e = false).
Proof.
  induction l as [|x l IH]; intros es ND; cbn [fold_left]; [split; [exact ND|cbn; tauto]|].
  assert (A : NoDup (add_entity es x) /\ forall e, In e (add_entity es x) <-> In e es \/ (e = x /\ String.prefix "rigid" x = false)).
  { unfold add_entity. destruct (String.prefix "rigid" x); [split; [exact ND|intuition congruence]|].
    destruct (insert_tokens_spec [x] es ND) as [D T]. cbn [fold_left] in D, T. split; [exact D|]. intros e. rewrite T. cbn. intuition congruence. }
  destruct A as [N1 T1]. destruct (IH _ N1) as [N2 T2]. split; [exact N2|]. intros e. rewrite T2, T1. cbn [In].
  split; [intros [[H|[-> H]]|[H1 H2]]|intros [H|[[->|H1] H2]]]; auto.
Qed.

(** The name is a key of a dictionary bound to a public variable. *)
Definition is_entity (d : Dict) (e : string) : Prop :=
  String.prefix "rigid" e = false /\ exists v b, In (v, DICT b) d /\ public_var v = true /\ In e (keys b).

(** The entities of a state are exactly the keys of the dictionaries bound to
    its public variables, those that start with "rigid" left out, each once. *)
Theorem state_entities (state_json : string) (d : Dict) : parse_json_str state_json = Ok (DICT d) ->
  exists es, extract_state_entities state_json = Ok es /\ NoDup es /\ forall e, In e es <-> is_entity d e.
Proof.
  intros P. unfold extract_state_entities. rewrite P. cbn [rbind]. eexists. split; [reflexivity|].
  enough (G : forall d es, NoDup es -> let r := fold_left (fun es kv => if public_var (fst kv) then match snd kv with DICT b => fold_left add_entity (keys b) es | _ => es end else es) d es in
    NoDup r /\ forall e, In e r <-> In e es \/ is_entity d e).
  { destruct (G d [] (NoDup_nil _)) as [N T]. split; [exact N|]. intros e. rewrite T. cbn. tauto. }
  clear. induction d as [|[v b] d IH]; intros es ND; cbn [fold_left fst snd].
  - split; [exact ND|]. intros e. unfold is_entity. cbn. split; [auto|]. intros [H|(_ & ? & ? & [] & _)]. exact H.
  - assert (S : exists es', (if public_var v then match b with DICT b => fold_left add_entity (keys b) es | _ => es end else es) = es' /\ NoDup es' /\
      forall e, In e es' <-> In e es \/ is_entity [(v, b)] e).
    { assert (No : (public_var v = false \/ forall x, b <> DICT x) -> NoDup es /\ forall e, In e es <-> In e es \/ is_entity [(v, b)] e).
      { intros C. split; [exact ND|]. intros e. split; [auto|]. intros [H|(_ & v' & b' & [[= <- ->]|[]] & Pv & _)]; [exact H|]. destruct C as [C|C]; [congruence|]. destruct (C b' eq_refl). }
      eexists. split; [reflexivity|]. destruct (public_var v) eqn:Pv; [|now apply No; left]. destruct b as [| | | | | |bd]; try (apply No; right; discriminate).
      destruct (add_entities (keys bd) es ND) as [N T]. split; [exact N|]. intros e. rewrite T. unfold is_entity. split; (intros [H|H]; [now left|right]).
      - destruct H as [H1 H2]. split; [exact H2|]. exists v, bd. cbn. auto.
      - destruct H as (H2 & v' & b' & [[= <- <-]|[]] & _ & H1). auto. }
    destruct S as (es' & -> & N' & T'). destruct (IH es' N') as [N T]. split; [exact N|]. intros e. rewrite T, T'. unfold is_entity. cbn [In]. split.
    + intros [[H|(R & v' & b' & [I|[]] & H)]|(R & v' & b' & I & H)]; [now left| |]; right; split; [exact R|exists v', b'; auto|exact R|exists v', b'; auto].
    + intros [H|(R & v' & b' & [I|I] & H)]; [auto| |]; [left; right|right]; split; try exact R; exists v', b'; cbn; auto.
Qed.

Lemma state_entities_witness : exists es,
  extract_state_entities (to_json (DICT [("at", DICT [("bob", STRING "home"); ("rigid_x", NIL)]); ("_tmp", DICT [("eve", NIL)])])) = Ok es /\ In "bob" es /\ ~ In "eve" es.
Proof.
  destruct (state_entities (to_json (DICT [("at", DICT [("bob", STRING "home"); ("rigid_x", NIL)]); ("_tmp", DICT [("eve", NIL)])])) _ eq_refl) as (es & E & _ & T).
  exists es. split; [exact E|]. rewrite !T. split.
  - split; [reflexivity|]. exists "at", [("bob", STRING "home"); ("rigid_x", NIL)]. cbn. auto.
  - intros (_ & v & b & [[= <- <-]|[[= <- <-]|[]]] & P & K); [|discriminate P]. cbn in K. intuition discriminate.
Defined.

(** * Facts *)

(** The facts of a state do not carry values that are not strings: the text of
    a binding to a number, a boolean or a list ends after the argument, so
    bindings that differ only in such values give one and the same fact. *)
Theorem values_lost (domain category v a : string) (x y : TwValue) : public_var v = true -> is_string x = false -> is_string y = false ->
  binding_facts domain category [(v, DICT [(a, x)])] = [memory_fact (v ++ " " ++ a ++ " ") category domain] /\
  binding_facts domain category [(v, DICT [(a, x)])] = binding_facts domain category [(v, DICT [(a, y)])].
Proof.
  intros P Hx Hy. unfold binding_facts. cbn [flat_map fst snd map]. rewrite P. destruct x, y; try discriminate; split; reflexivity.
Qed.

Lemma values_lost_witness : binding_facts "d" "state" [("fuel", DICT [("car", INT 7)])] = binding_facts "d" "state" [("fuel", DICT [("car", INT 0)])].
Proof. apply (values_lost "d" "state" "fuel" "car" (INT 7) (INT 0)); reflexivity. Defined.
