(* ===== verification/TwWitnessOracle.v ===== *)
(** taskweft_nif/standalone/tw_witness_oracle.hpp: the generator, the test of a
    universal property by samples, and the ladder of levels. *)

From Stdlib Require Import ZArith String Ascii List Bool Lia.
From S2P Require Import Prelude TwValue TwJson TwNodes TwLoaderProofs.
Import ListNotations.
#[local] Open Scope string_scope.
#[local] Open Scope Z_scope.
#[local] Open Scope prog_scope.

(** * The generator *)

Record Rng := mkRng { state : Z; inc : Z }.

Definition multiplier : Z := 6364136223846793005.

Definition step (r : Rng) : Rng := mkRng (u64 (state r * multiplier + inc r)) (inc r).

Definition xorshifted (old : Z) : Z := Z.shiftr (Z.lxor (Z.shiftr old 18) old) 27.

(** A shift of 64 bits by 64 is undefined. *)
Definition output (r : Rng) : option (Z * Rng) :=
  let old := state r in
  let x := xorshifted old in
  let rot := Z.shiftr old 59 in
  if rot =? 0 then None
  else Some (Z.lor (Z.shiftr x rot) (u64 (Z.shiftl x (64 - rot))), step r).

Definition init_fixed (s : Z) : Rng := mkRng (u64 (s * multiplier + 1442695040888963407)) (u64 (s + 1)).
(** [rd] is what [std::random_device] returns, an [unsigned int]. *)
Definition init_csprng (rd : Z) : Rng := mkRng rd (u64 (rd + 1)).

Definition UINT64_MAX : Z := 2 ^ 64 - 1.

(** The loop of [rand]: draws until one is below the greatest multiple of [n].
    Inner [None]: not enough fuel; outer [None]: undefined. *)
Fixpoint rand_loop (fuel : nat) (n max_val : Z) (r : Rng) : option (option (Z * Rng)) :=
  match fuel with
  | O => Some None
  | S f => match output r with
           | None => None
           | Some (v, r') => if v <? max_val then Some (Some (v mod n, r')) else rand_loop f n max_val r'
           end
  end.
Definition rand (fuel : nat) (n : Z) (r : Rng) : option (option (Z * Rng)) :=
  if n <=? 1 then Some (Some (0, r)) else rand_loop fuel n (UINT64_MAX - UINT64_MAX mod n) r.

(** * Testing a property by samples *)

Inductive TestResult := Success | Failure (trace : list string) | GaveUp (n : Z).
Definition is_failure (r : TestResult) : bool := match r with Failure _ => true | _ => false end.

(** [run]: the [i]-th sample is [sample i]. *)
Fixpoint run_test (fuel : nat) (i : nat) (pred : Z -> prog bool) (sample : nat -> Z) : prog TestResult :=
  match fuel with
  | O => Ret Success
  | S f =>
      let w := sample i in
      let! holds := pred w in
      if negb holds then Ret (Failure ["w=" ++ show_int w]) else run_test f (S i) pred sample
  end.

(** * The ladder *)

Record Level := mkLevel { l_idx : Z; walkSteps : Z; finBound : Z; numInst : Z }.

Definition ladder : list Level := [mkLevel 0 64 256 200; mkLevel 1 512 1024 800; mkLevel 2 4000 4096 2000].

Record Readback := mkReadback { rb_value : Z; rb_found : bool; witnessIdx : Z; rb_budgetHit : bool }.

Inductive OutcomeKind := found | provably_none | budgetHit.
Record Outcome := mkOutcome { o_kind : OutcomeKind; witness_idx : Z }.

Record resolution := mkResolution { chosen : Z; lvl_idx : Z; outcome_of : Outcome; resolved : bool }.

(** The numbers [ForallFin<N>] is instantiated with. *)
Definition fin_size (lvl : Level) : Z := if finBound lvl =? 256 then 256 else if finBound lvl =? 1024 then 1024 else 4096.

Definition after_readback (r : resolution) (lvl : Level) (rb : Readback) : resolution :=
  if rb_found rb then mkResolution (rb_value rb) (l_idx lvl) (mkOutcome found (witnessIdx rb)) true
  else if negb (rb_budgetHit rb) then mkResolution (rb_value rb) (l_idx lvl) (mkOutcome provably_none (witness_idx (outcome_of r))) true
  else mkResolution (rb_value rb) (l_idx lvl) (mkOutcome budgetHit (witness_idx (outcome_of r))) false.

Section Resolve.
Variable candidate_is_witness : Z -> prog bool.
Variable readback : Z -> Readback.
(** The samples a level draws below a bound. *)
Variable samples : Level -> Z -> nat -> Z.

Definition try_level (r : resolution) (lvl : Level) : prog resolution :=
  if resolved r then Ret r
  else
    let! tr := run_test (Z.to_nat (numInst lvl)) 0 (fun w => let! c := candidate_is_witness w in Ret (negb c)) (samples lvl (fin_size lvl)) in
    Ret (if is_failure tr then mkResolution (chosen r) (lvl_idx r) (mkOutcome found 0) true
         else after_readback r lvl (readback (walkSteps lvl))).

Fixpoint try_levels (r : resolution) (levels : list Level) : prog resolution :=
  match levels with
  | [] => Ret r
  | lvl :: rest => let! r := try_level r lvl in try_levels r rest
  end.

Definition resolve (levels : list Level) : prog resolution :=
  try_levels (mkResolution 0 0 (mkOutcome provably_none 0) false) levels.
End Resolve.

(** * The generator's numbers *)

Definition rng_ok (r : Rng) : Prop := 0 <= state r < 2 ^ 64 /\ 0 <= inc r < 2 ^ 64.

Lemma step_ok r : rng_ok r -> rng_ok (step r).
Proof. intros [_ I]. split; [apply (wrap_range 64); lia|exact I]. Qed.

Lemma lt_pow_bits x n : 0 <= n -> 0 <= x -> (forall i, n <= i -> Z.testbit x i = false) -> x < 2 ^ n.
Proof.
  intros Hn Hx Hb. destruct (Z.eq_dec x 0) as [->|N]; [lia|]. apply Z.log2_lt_pow2; [lia|].
  destruct (Z.lt_ge_cases (Z.log2 x) n) as [L|L]; [exact L|]. specialize (Hb _ L). rewrite Z.bit_log2 in Hb by lia. discriminate.
Qed.

Lemma bits_above x n i : 0 <= x < 2 ^ n -> n <= i -> 0 <= n -> Z.testbit x i = false.
Proof. intros Hx Hi Hn. rewrite <- (Z.mod_small x (2 ^ n)) by lia. apply Z.mod_pow2_bits_high. lia. Qed.

Lemma xorshifted_range old : 0 <= old < 2 ^ 64 -> 0 <= xorshifted old < 2 ^ 37.
Proof.
  intros H. unfold xorshifted. assert (N : 0 <= Z.lxor (Z.shiftr old 18) old) by (apply Z.lxor_nonneg; rewrite Z.shiftr_nonneg; lia).
  split; [now apply Z.shiftr_nonneg|]. apply lt_pow_bits; [lia|now apply Z.shiftr_nonneg|]. intros i Hi.
  rewrite Z.shiftr_spec, Z.lxor_spec, Z.shiftr_spec by lia. rewrite !(bits_above old 64) by lia. reflexivity.
Qed.

Lemma some_pair {A B} (a c : A) (b d : B) : Some (a, b) = Some (c, d) -> c = a /\ d = b.
Proof. intros H. now inversion H. Qed.

(** The output is its 37 bits turned: 27 bits in a row are zero. *)
Lemma output_bits r v r' : rng_ok r -> output r = Some (v, r') ->
  let rot := Z.shiftr (state r) 59 in
  0 <= v < 2 ^ 64 /\ rng_ok r' /\ forall i, 37 - rot <= i < 64 - rot -> 0 <= i -> Z.testbit v i = false.
Proof.
  intros [Hs Hi]. unfold output. cbv zeta. destruct (Z.eqb_spec (Z.shiftr (state r) 59) 0) as [E|N]; [discriminate|]. intros E'. apply some_pair in E' as [-> ->].
  set (rot := Z.shiftr (state r) 59) in *. assert (Hr : 0 < rot < 32).
  { subst rot. rewrite Z.shiftr_div_pow2 in * by lia. assert (0 <= state r / 2 ^ 59) by (apply Z.div_pos; lia).
    assert (state r / 2 ^ 59 < 32) by (apply Z.div_lt_upper_bound; lia). lia. }
  pose proof (xorshifted_range (state r) Hs) as Hx. set (x := xorshifted (state r)) in *. pose proof (wrap_range 64 (Z.shiftl x (64 - rot)) ltac:(lia)) as Hw.
  assert (B : forall i, 0 <= i -> Z.testbit (Z.lor (Z.shiftr x rot) (u64 (Z.shiftl x (64 - rot)))) i =
    Z.testbit x (i + rot) || ((i <? 64) && Z.testbit x (i - (64 - rot)))).
  { intros i Hi'. rewrite Z.lor_spec, Z.shiftr_spec by lia. f_equal. unfold wrap. destruct (Z.ltb_spec i 64) as [L|L].
    - rewrite Z.mod_pow2_bits_low, Z.shiftl_spec by lia. reflexivity.
    - rewrite Z.mod_pow2_bits_high by lia. reflexivity. }
  split; [|split; [exact (step_ok r (conj Hs Hi))|]].
  - assert (N0 : 0 <= Z.lor (Z.shiftr x rot) (u64 (Z.shiftl x (64 - rot)))) by (apply Z.lor_nonneg; rewrite Z.shiftr_nonneg; lia).
    split; [exact N0|]. apply lt_pow_bits; [lia|exact N0|]. intros i Hi'. rewrite B by lia. rewrite (bits_above x 37) by lia.
    destruct (Z.ltb_spec i 64); [lia|reflexivity].
  - intros i Hi' H0. rewrite B by exact H0. rewrite (bits_above x 37) by lia. rewrite Z.testbit_neg_r by lia. now rewrite andb_false_r.
Qed.

(** A zero bit is missing from the value. *)
Lemma zero_bit_bound v b n : 0 <= v < 2 ^ n -> 0 <= b < n -> Z.testbit v b = false -> v + 2 ^ b < 2 ^ n.
Proof.
  intros Hv Hb Z0. assert (L : Z.land v (2 ^ b) = 0).
  { apply Z.bits_inj'. intros i Hi. rewrite Z.land_spec, Z.pow2_bits_eqb, Z.bits_0 by lia. destruct (Z.eqb_spec b i) as [<-|]; [now rewrite Z0|apply andb_false_r]. }
  assert (E : v + 2 ^ b = Z.lor v (2 ^ b)) by (rewrite <- Z.add_lor_land, L; lia). rewrite E. assert (0 <= 2 ^ b) by lia.
  apply lt_pow_bits; [lia|apply Z.lor_nonneg; lia|]. intros i Hi. rewrite Z.lor_spec, (bits_above v n), Z.pow2_bits_eqb by lia. destruct (Z.eqb_spec b i); [lia|reflexivity].
Qed.

(** [rand] ends at once: an output has only 37 significant bits, turned by at
    most 31 places, so one of its bits from the 32nd on is zero and it lies below
    [2^64 - 2^32]; for every bound up to [2^32] (the code uses 256, 1024 and 4096)
    the first output is accepted, and the result is below the bound. *)
Theorem rand_accepts_first (n : Z) (r : Rng) (v : Z) (r' : Rng) : rng_ok r -> 1 < n <= 2 ^ 32 -> output r = Some (v, r') ->
  forall fuel, (0 < fuel)%nat -> rand fuel n r = Some (Some (v mod n, r')) /\ 0 <= v mod n < n /\ v < 2 ^ 64 - 2 ^ 32.
Proof.
  intros Hr Hn E fuel Hf. destruct (output_bits r v r' Hr E) as (Hv & _ & B). cbv zeta in B.
  set (rot := Z.shiftr (state r) 59) in *. assert (Hrot : 0 <= rot < 32).
  { subst rot. destruct Hr as [Hs _]. rewrite Z.shiftr_div_pow2 by lia. split; [apply Z.div_pos; lia|apply Z.div_lt_upper_bound; lia]. }
  assert (L : v < 2 ^ 64 - 2 ^ 32).
  { pose proof (zero_bit_bound v (63 - rot) 64 Hv ltac:(lia) (B (63 - rot) ltac:(lia) ltac:(lia))) as Q.
    assert (2 ^ 32 <= 2 ^ (63 - rot)) by (apply Z.pow_le_mono_r; lia). lia. }
  destruct fuel as [|f]; [lia|]. unfold rand. destruct (Z.leb_spec n 1); [lia|]. cbn [rand_loop]. rewrite E.
  pose proof (Z.mod_pos_bound UINT64_MAX n ltac:(lia)). unfold UINT64_MAX in *. destruct (Z.ltb_spec v (2 ^ 64 - 1 - (2 ^ 64 - 1) mod n)); [|lia].
  split; [reflexivity|]. split; [apply Z.mod_pos_bound; lia|exact L].
Qed.

Lemma rand_accepts_first_witness : exists w r', rand 1 256 (init_fixed 7) = Some (Some (w, r')) /\ 0 <= w < 256.
Proof.
  destruct (output (init_fixed 7)) as [[v r']|] eqn:E; [|vm_compute in E; discriminate].
  destruct (rand_accepts_first 256 (init_fixed 7) v r') with (fuel := 1%nat) as (R & B & _); [vm_compute; intuition discriminate|lia|exact E|lia|].
  exists (v mod 256), r'. split; [exact R|exact B].
Defined.

(** The generator seeded from the operating system is undefined from its first
    number: the seed is an [unsigned int], so the rotation is by zero places and
    the code shifts a 64-bit integer by 64. *)
Theorem rng_first_output_undefined (rd n : Z) (fuel : nat) : 0 <= rd < 2 ^ 32 -> 1 < n -> rand (S fuel) n (init_csprng rd) = None.
Proof.
  intros H Hn. unfold rand. destruct (Z.leb_spec n 1); [lia|]. cbn [rand_loop output init_csprng state]. unfold output. cbn [state init_csprng].
  replace (Z.shiftr rd 59) with 0; [reflexivity|]. rewrite Z.shiftr_div_pow2 by lia. symmetry. apply Z.div_small. lia.
Qed.

Lemma rng_first_output_undefined_witness : rand 1 256 (init_csprng 123456789) = None.
Proof. apply (rng_first_output_undefined 123456789 256 0); lia. Defined.

(** * What the ladder reports *)

Section Ladder.
Variable candidate_is_witness : Z -> prog bool.
Variable readback : Z -> Readback.
Variable samples : Level -> Z -> nat -> Z.

(** A sample of a level that is a witness. *)
Definition sampled_witness (lvl : Level) : Prop :=
  exists i, (i < Z.to_nat (numInst lvl))%nat /\ outcome (candidate_is_witness (samples lvl (fin_size lvl) i)) true.

Lemma run_test_failure lvl fuel : forall i tr, outcome (run_test fuel i (fun w => let! c := candidate_is_witness w in Ret (negb c)) (samples lvl (fin_size lvl))) tr ->
  is_failure tr = true -> exists j, (i <= j < i + fuel)%nat /\ outcome (candidate_is_witness (samples lvl (fin_size lvl) j)) true.
Proof.
  induction fuel as [|f IH]; intros i tr H F; cbn [run_test] in H.
  - apply outcome_ret_inv in H as ->. discriminate.
  - apply outcome_bind in H as (h & Hh & H). apply outcome_bind in Hh as (c & Hc & Hh). apply outcome_ret_inv in Hh as ->. rewrite negb_involutive in H.
    destruct c; [exists i; split; [lia|exact Hc]|]. destruct (IH (S i) tr H F) as (j & Hj & Hw). exists j. split; [lia|exact Hw].
Qed.

(** Why a ladder that tried [levels] ended as it did. *)
Definition justified (levels : list Level) (r : resolution) : Prop :=
  match o_kind (outcome_of r) with
  | found => resolved r = true /\ exists lvl, In lvl levels /\
      (sampled_witness lvl \/ (rb_found (readback (walkSteps lvl)) = true /\ witness_idx (outcome_of r) = witnessIdx (readback (walkSteps lvl)) /\ chosen r = rb_value (readback (walkSteps lvl))))
  | provably_none => (levels = [] /\ resolved r = false) \/ (resolved r = true /\ exists lvl, In lvl levels /\ rb_found (readback (walkSteps lvl)) = false /\ rb_budgetHit (readback (walkSteps lvl)) = false)
  | budgetHit => resolved r = false /\ levels <> [] /\ forall lvl, In lvl levels -> rb_found (readback (walkSteps lvl)) = false /\ rb_budgetHit (readback (walkSteps lvl)) = true
  end.

Lemma justified_more levels lvl r : resolved r = true -> justified levels r -> justified (levels ++ [lvl]) r.
Proof.
  intros R. unfold justified. destruct (o_kind (outcome_of r)).
  - intros (_ & l & I & H). split; [exact R|]. exists l. rewrite in_app_iff. auto.
  - intros [[_ H]|(_ & l & I & H)]; [congruence|]. right. split; [exact R|]. exists l. rewrite in_app_iff. auto.
  - intros (H & _). congruence.
Qed.

Lemma try_level_justified levels lvl r r' : justified levels r -> outcome (try_level candidate_is_witness readback samples r lvl) r' -> justified (levels ++ [lvl]) r'.
Proof.
  intros J H. unfold try_level in H. destruct (resolved r) eqn:R; [apply outcome_ret_inv in H as ->; now apply justified_more|].
  apply outcome_bind in H as (tr & Ht & H). apply outcome_ret_inv in H as ->. destruct (is_failure tr) eqn:F.
  - destruct (run_test_failure lvl _ _ _ Ht F) as (j & Hj & Hw). cbn. split; [reflexivity|]. exists lvl. rewrite in_app_iff. cbn. split; [auto|]. left. exists j. split; [lia|exact Hw].
  - unfold after_readback. destruct (rb_found (readback (walkSteps lvl))) eqn:Fd; [|destruct (rb_budgetHit (readback (walkSteps lvl))) eqn:Bh]; cbn [negb].
    + cbn. split; [reflexivity|]. exists lvl. rewrite in_app_iff. cbn. auto.
    + cbn. split; [reflexivity|]. split; [destruct levels; discriminate|]. intros l. rewrite in_app_iff. intros [I|[<-|[]]]; [|auto].
      unfold justified in J. rewrite R in J. destruct (o_kind (outcome_of r)); [destruct J as [[=] _]| |destruct J as (_ & _ & J); auto].
      destruct J as [[-> _]|[[=] _]]. destruct I.
    + cbn. right. split; [reflexivity|]. exists lvl. rewrite in_app_iff. cbn. auto.
Qed.

Lemma try_levels_justified levels : forall seen r r', justified seen r -> outcome (try_levels candidate_is_witness readback samples r levels) r' -> justified (seen ++ levels) r'.
Proof.
  induction levels as [|lvl levels IH]; intros seen r r' J H; cbn [try_levels] in H; [apply outcome_ret_inv in H as ->; now rewrite app_nil_r|].
  apply outcome_bind in H as (r1 & H1 & H). replace (seen ++ lvl :: levels)%list with ((seen ++ [lvl]) ++ levels)%list by (rewrite <- app_assoc; reflexivity).
  exact (IH _ _ _ (try_level_justified _ _ _ _ J H1) H).
Qed.

(** What an outcome of the ladder stands for: "found" means that one of the
    samples of a level satisfied the candidate predicate, or that the readback of a
    level found a witness, whose value and index are reported; "provably none" that
    the readback of a level ended within its budget without one; "budget hit" that
    the readback of every level ran out of budget. *)
Theorem resolve_justified (levels : list Level) (r : resolution) :
  outcome (resolve candidate_is_witness readback samples levels) r -> justified levels r.
Proof. intros H. apply (try_levels_justified levels [] (mkResolution 0 0 (mkOutcome provably_none 0) false) r); [left; split; reflexivity|exact H]. Qed.

End Ladder.

Lemma resolve_justified_witness : exists r, outcome (resolve (fun w => Ret (w =? 3)) (fun _ => mkReadback 0 false 0 true) (fun _ _ i => Z.of_nat i) ladder) r /\
  justified (fun w => Ret (w =? 3)) (fun _ => mkReadback 0 false 0 true) (fun _ _ i => Z.of_nat i) ladder r /\ o_kind (outcome_of r) = found.
Proof.
  eexists. assert (H : outcome (resolve (fun w => Ret (w =? 3)) (fun _ => mkReadback 0 false 0 true) (fun _ _ i => Z.of_nat i) ladder) _) by (vm_compute; apply outcome_ret).
  split; [exact H|]. split; [exact (resolve_justified _ _ _ _ _ H)|reflexivity].
Defined.
