(* ===== verification/TwNif.v ===== *)
(** taskweft_nif/c_src/taskweft_nif.cpp: the calls that Elixir makes, over the
    caches of parsed domains and graphs; and the printers of tw_temporal.hpp and
    tw_replan.hpp they end in. *)

From Stdlib Require Import ZArith String Ascii List Bool Lia.
From Stdlib Require Import Floats.SpecFloat.
From S2P Require Import Prelude OrderedMap TwValue TwJson TwRebac TwState TwDomain TwPlanner TwPlannerTree TwTemporal TwNodes TwLoader.
From S2P Require Import TwRun TwBridge TwExplain TwMcExecutor TwWitnessOracle.
Import ListNotations.
#[local] Open Scope string_scope.
#[local] Open Scope Z_scope.
#[local] Open Scope tw_scope.
#[local] Open Scope prog_scope.
#[local] Open Scope run_scope.

(** * Printers *)

Definition nl : string := String newline EmptyString.
Definition quoted (s : string) : string := String quote (s ++ String quote EmptyString).
Definition show_bool (b : bool) : string := if b then "true" else "false".

Definition step_json (st : TwTemporalStep) : string :=
  "{" ++ quoted "action" ++ ": " ++ quoted (action_name st) ++ ", " ++ quoted "duration" ++ ": " ++ quoted (duration_iso st) ++
  ", " ++ quoted "start" ++ ": " ++ quoted (start_iso st) ++ ", " ++ quoted "end" ++ ": " ++ quoted (end_iso st) ++ "}".

Definition tw_temporal_to_json (tr : TwTemporalResult) (plan_json : string) : string :=
  "{" ++ nl ++ "  " ++ quoted "plan" ++ ": " ++ plan_json ++ "," ++ nl ++
  "  " ++ quoted "temporal" ++ ": {" ++ nl ++
  "    " ++ quoted "consistent" ++ ": " ++ show_bool (is_consistent tr) ++ "," ++ nl ++
  "    " ++ quoted "origin" ++ ": " ++ quoted (origin_iso tr) ++ "," ++ nl ++
  "    " ++ quoted "total" ++ ": " ++ quoted (total_iso tr) ++ "," ++ nl ++
  "    " ++ quoted "steps" ++ ": [" ++ String.concat ", " (map step_json (t_steps tr)) ++ "]" ++ nl ++
  "  }" ++ nl ++ "}".

Definition tw_simulate_to_json (sr : TwSimulateResult) (plan_json : string) : string :=
  "{" ++ nl ++ "  " ++ quoted "plan" ++ ": " ++ plan_json ++ "," ++ nl ++
  "  " ++ quoted "completed_steps" ++ ": " ++ show_int (completed_steps sr) ++ "," ++ nl ++
  "  " ++ quoted "fail_step" ++ ": " ++ show_int (fail_step sr) ++ "," ++ nl ++
  "  " ++ quoted "success" ++ ": " ++ show_bool (fail_step sr <? 0) ++ nl ++ "}".

Definition tw_replan_to_json (fs : Z) (rr : TwReplanResult) (original_plan_json new_plan_json : string) : string :=
  "{" ++ nl ++ "  " ++ quoted "original_plan" ++ ": " ++ original_plan_json ++ "," ++ nl ++
  "  " ++ quoted "fail_step" ++ ": " ++ show_int fs ++ "," ++ nl ++
  "  " ++ quoted "completed_steps" ++ ": " ++ show_int (completed_steps (simulate rr)) ++ "," ++ nl ++
  "  " ++ quoted "recovered" ++ ": " ++ show_bool (recovered rr) ++ "," ++ nl ++
  "  " ++ quoted "new_plan" ++ ": " ++ new_plan_json ++ nl ++ "}".

(** * Plans that come in *)

Definition plan_item (item : TwValue) : list TwCall :=
  match item with ARRAY (n :: ar) => [mkCall (as_string n) ar] | _ => [] end.
Definition parse_plan (plan_json : string) : res (list TwCall) :=
  do arr <- parse_json_str plan_json;
  Ok (match arr with ARRAY a => flat_map plan_item a | _ => [] end).

(** * Calls, given the parsed domain *)

Section Calls.
Context `{Libm} `{StdHash}.
Variable late : Z -> bool.

Definition failed_to_load {A} : call_result A := Raised (RuntimeError "failed_to_load_domain").
Definition no_plan {A} : call_result A := Raised (RuntimeError "no_plan").

(** [if (!loaded.state) throw ...] *)
Definition with_state {A} (loaded : TwLoaded) (k : TwState -> call_result A) : call_result A :=
  match l_state loaded with Some s => k s | None => failed_to_load end.

Definition find_plan (loaded : TwLoaded) (s : TwState) : call_result (list TwCall) :=
  let? r := of_res (tw_plan (domain_of (l_domain loaded)) None late s (l_tasks loaded)) in
  match r with Some p => Done p | None => no_plan end.

Definition plan (loaded : TwLoaded) : call_result string :=
  with_state loaded (fun s => let? p := find_plan loaded s in Done (plan_to_json p)).

(** [static_cast<int>(p_fail_step)] *)
Definition replan (loaded : TwLoaded) (plan_json : string) (p_fail_step : Z) : call_result string :=
  with_state loaded (fun s =>
    let? original_plan := of_res (parse_plan plan_json) in
    let? rr := of_res (tw_replan (domain_of (l_domain loaded)) late s original_plan (l_tasks loaded) (swrap 32 p_fail_step)) in
    let new_plan_json := match new_plan rr with Some p => if recovered rr then plan_to_json p else "null" | None => "null" end in
    Done (tw_replan_to_json (swrap 32 p_fail_step) rr (plan_to_json original_plan) new_plan_json)).

(** The calls on civil time differ in the check they run on the plan. *)
Definition temporal_check := list TwCall -> TwDomain -> option TwTemporalResult.

Definition temporal_report (check : temporal_check) (loaded : TwLoaded) (p : list TwCall) : call_result string :=
  let? tr := of_option (check p (domain_of (l_domain loaded))) in Done (tw_temporal_to_json tr (plan_to_json p)).

Definition check_given (check : temporal_check) (loaded : TwLoaded) (plan_json : string) : call_result string :=
  with_state loaded (fun _ => let? p := of_res (parse_plan plan_json) in temporal_report check loaded p).

Definition plan_and_check (check : temporal_check) (loaded : TwLoaded) : call_result string :=
  with_state loaded (fun s => let? p := find_plan loaded s in temporal_report check loaded p).

Definition plan_check_explain (check : temporal_check) (loaded : TwLoaded) : call_result string :=
  with_state loaded (fun s =>
    let? rt := of_res (tw_plan_with_tree (domain_of (l_domain loaded)) None None late s (l_tasks loaded)) in
    match fst rt with
    | None => Done (tw_no_plan_explain_json (l_tasks loaded) (domain_of (l_domain loaded)))
    | Some p =>
        let? report := temporal_report check loaded p in
        let? out := of_res (parse_json_str report) in
        Done (to_json (match out with
          | DICT d => DICT (dict_set "explain" (tw_solution_tree_value (snd rt) p) (dict_set "status" (STRING "ok") d))
          | _ => out
          end))
    end).

Definition by_duration (origin_iso : string) : temporal_check := fun p d => tw_check_temporal p d origin_iso.
Definition by_calendar (origin_iso reference_date : string) : temporal_check := fun p d => tw_check_temporal_civil p d origin_iso reference_date.

Definition check_temporal (loaded : TwLoaded) (plan_json origin_iso : string) : call_result string :=
  check_given (by_duration origin_iso) loaded plan_json.
Definition plan_with_temporal (loaded : TwLoaded) (origin_iso : string) : call_result string :=
  plan_and_check (by_duration origin_iso) loaded.
Definition plan_with_temporal_explain (loaded : TwLoaded) (origin_iso : string) : call_result string :=
  plan_check_explain (by_duration origin_iso) loaded.
Definition check_temporal_civil (loaded : TwLoaded) (plan_json origin_iso reference_date : string) : call_result string :=
  check_given (by_calendar origin_iso reference_date) loaded plan_json.
Definition plan_with_temporal_civil (loaded : TwLoaded) (origin_iso reference_date : string) : call_result string :=
  plan_and_check (by_calendar origin_iso reference_date) loaded.
Definition plan_with_temporal_civil_explain (loaded : TwLoaded) (origin_iso reference_date : string) : call_result string :=
  plan_check_explain (by_calendar origin_iso reference_date) loaded.

(** [fuel <= 0] and [depth <= 0] stop the searches. *)
Definition int_fuel (p_fuel : Z) : nat := Z.to_nat (swrap 32 p_fuel).

Definition rebac_add_edge (graph_json subj obj rel : string) : call_result string :=
  let? g := of_res (graph_from_json graph_json) in Done (graph_to_json (add_edge g subj obj rel)).
Definition rebac_check (g : TwReBACGraph) (subj expr_json obj : string) (p_fuel : Z) : call_result bool :=
  let? expr := of_res (parse_json_str expr_json) in Done (check_expr g (int_fuel p_fuel) subj expr obj).

(** The first entry of the map of methods; which it is does not matter. *)
Definition candidate_is_witness (loaded : TwLoaded) (w : Z) : prog bool :=
  match l_state loaded with
  | None => Ret false
  | Some s =>
      match l_task_methods (l_domain loaded) with
      | (_, m :: _) :: _ =>
          let! subs := m (copy s) [STRING "key"; STRING "desired"] in
          Ret (match subs with Some _ => true | None => false end)
      | _ => Ret false
      end
  end.

Definition oracle_readback (walk_steps : Z) : Readback := mkReadback 0 true 0 false.

Definition oracle_outcome (r : resolution) : string :=
  let d := dict_set "value" (INT (chosen r)) [] in
  let d := dict_set "found" (BOOL (match o_kind (outcome_of r) with found => true | _ => false end)) d in
  let d := dict_set "witness_idx" (INT (witness_idx (outcome_of r))) d in
  to_json (DICT (dict_set "budget_hit" (BOOL (match o_kind (outcome_of r) with budgetHit => true | _ => false end)) d)).

Definition witness_oracle (samples : Level -> Z -> nat -> Z) (state_json tasks_json domain_json : string) : res (prog string) :=
  do loaded <- load_json domain_json;
  Ok (let! r := resolve (candidate_is_witness loaded) oracle_readback samples ladder in Ret (oracle_outcome r)).

(** * The caches *)

(** States are shared by pointer: a [shared_ptr] is the number of its object in
    the heap of states, and what was loaded holds such a pointer or null. *)
Definition state_heap := list TwState.

Record TwLoadedRef := mkRef {
  r_domain : LDomain;
  r_state : option nat;
  r_tasks : list TwTask;
  r_enums : Dict
}.

(** What is found behind the pointer. *)
Definition view (h : state_heap) (l : TwLoadedRef) : TwLoaded :=
  mkLoaded (r_domain l) (match r_state l with Some a => nth_error h a | None => None end) (r_tasks l) (r_enums l).

(** [std::make_shared<TwState>]: a new object, or none. *)
Definition make_shared (s : option TwState) (h : state_heap) : state_heap * option nat :=
  match s with Some s => ((h ++ [s])%list, Some (length h)) | None => (h, None) end.

(** What [load_json] returns holds a state of its own. *)
Definition new_loaded (l : TwLoaded) (h : state_heap) : state_heap * TwLoadedRef :=
  let '(h, a) := make_shared (l_state l) h in (h, mkRef (l_domain l) a (l_tasks l) (l_enums l)).

(** [result = l; if (l.state) result.state = l.state->copy()]. *)
Definition copy_loaded (l : TwLoadedRef) (h : state_heap) : state_heap * TwLoadedRef :=
  let '(h, a) := make_shared (option_map copy (l_state (view h l))) h in (h, mkRef (r_domain l) a (r_tasks l) (r_enums l)).

(** A write through a pointer. *)
Definition write_state (h : state_heap) (a : nat) (s : TwState) : state_heap := set_nth h a s.

Record caches := mkCaches { s_domain_cache : dict TwLoadedRef; s_graph_cache : dict TwReBACGraph; states : state_heap }.
Definition empty_caches : caches := mkCaches [] [] [].

(** [emplace] and [try_emplace] keep an entry that exists. *)
Definition emplace {V} (k : string) (v : V) (d : dict V) : dict V := if dict_count k d then d else (d ++ [(k, v)])%list.

Definition load_cached (json : string) (c : caches) : call_result TwLoadedRef * caches :=
  match dict_find json (s_domain_cache c) with
  | Some l =>
      let '(h, result) := copy_loaded l (states c) in
      (Done result, mkCaches (s_domain_cache c) (s_graph_cache c) h)
  | None =>
      match load_json json with
      | Ok l =>
          let '(h, loaded) := new_loaded l (states c) in
          let cache := emplace json loaded (s_domain_cache c) in
          let '(h, result) := copy_loaded loaded h in
          (Done result, mkCaches cache (s_graph_cache c) h)
      | Throw e => (Raised (Parse e), c)
      end
  end.

Definition graph_cached (json : string) (c : caches) : call_result TwReBACGraph * caches :=
  match dict_find json (s_graph_cache c) with
  | Some g => (Done g, c)
  | None =>
      match graph_from_json json with
      | Ok g => let cache := emplace json g (s_graph_cache c) in
                (of_option (dict_find json cache), mkCaches (s_domain_cache c) cache (states c))
      | Throw e => (Raised (Parse e), c)
      end
  end.

(** * The service *)

Inductive request :=
| Plan (domain_json : string)
| Replan (domain_json plan_json : string) (fail_step : Z)
| CheckTemporal (domain_json plan_json origin_iso : string)
| PlanWithTemporal (domain_json origin_iso : string)
| PlanWithTemporalExplain (domain_json origin_iso : string)
| CheckTemporalCivil (domain_json plan_json origin_iso reference_date : string)
| PlanWithTemporalCivil (domain_json origin_iso reference_date : string)
| PlanWithTemporalCivilExplain (domain_json origin_iso reference_date : string)
| DomainCacheClear
| RebacAddEdge (graph_json subj obj rel : string)
| RebacCheck (graph_json subj expr_json obj : string) (fuel : Z)
| RebacExpand (graph_json rel obj : string) (fuel : Z)
| RebacCan (graph_json subj capability : string) (max_depth : Z)
| RebacCapabilities (graph_json entity : string)
| RebacEntities (graph_json capability : string)
| RebacCacheClear
| RebacParseRelationEdges (facts_json : string) (threshold : spec_float)
| BridgeBindingContent (var arg val : string)
| BridgeExtractEntities (state_json : string)
| BridgePlanContents (plan_json domain entities_json : string)
| BridgeStateBindings (state_json domain category : string)
| McExecute (domain_json plan_json probs_json : string) (seed : Z)
| WitnessOracle (state_json tasks_json domain_json : string).

Inductive response :=
| Text (r : call_result string)
| Truth (r : call_result bool)
| Names (r : call_result (list string))
| Chance (r : res (prog string)).

Variable draw : Z -> nat -> spec_float.
Variable samples : Level -> Z -> nat -> Z.

(** What each call does with the domain or the graph its argument names. *)
Definition on_domain (load : call_result TwLoaded) (k : TwLoaded -> call_result string) : response := Text (let? l := load in k l).
Definition on_graph {A} (load : call_result TwReBACGraph) (k : TwReBACGraph -> call_result A) : call_result A := let? g := load in k g.

Definition handle (q : request) (load : call_result TwLoaded) (graph : call_result TwReBACGraph) : response :=
  match q with
  | Plan _ => on_domain load plan
  | Replan _ p fs => on_domain load (fun l => replan l p fs)
  | CheckTemporal _ p o => on_domain load (fun l => check_temporal l p o)
  | PlanWithTemporal _ o => on_domain load (fun l => plan_with_temporal l o)
  | PlanWithTemporalExplain _ o => on_domain load (fun l => plan_with_temporal_explain l o)
  | CheckTemporalCivil _ p o rd => on_domain load (fun l => check_temporal_civil l p o rd)
  | PlanWithTemporalCivil _ o rd => on_domain load (fun l => plan_with_temporal_civil l o rd)
  | PlanWithTemporalCivilExplain _ o rd => on_domain load (fun l => plan_with_temporal_civil_explain l o rd)
  | DomainCacheClear | RebacCacheClear => Text (Done "ok")
  | RebacAddEdge g s o r => Text (rebac_add_edge g s o r)
  | RebacCheck _ s e o f => Truth (on_graph graph (fun g => rebac_check g s e o f))
  | RebacExpand _ r o f => Names (on_graph graph (fun g => Done (tw_expand g r o (int_fuel f))))
  | RebacCan _ s c d => Text (on_graph graph (fun g => Done (rebac_can_json g s c (int_fuel d))))
  | RebacCapabilities _ e => Names (on_graph graph (fun g => Done (get_entity_capabilities g e)))
  | RebacEntities _ c => Names (on_graph graph (fun g => Done (get_entities_with_capability g c)))
  | RebacParseRelationEdges f t => Text (of_res (parse_relation_edges f t))
  | BridgeBindingContent v a x => Text (Done (binding_content v a x))
  | BridgeExtractEntities s => Names (of_res (extract_state_entities s))
  | BridgePlanContents p d e => Text (of_res (plan_result_contents p d e))
  | BridgeStateBindings s d c => Text (of_res (state_bindings_contents s d c))
  | McExecute d p pr s => Chance (mc_execute draw d p pr s)
  | WitnessOracle s t d => Chance (witness_oracle samples s t d)
  end.

(** Which cache a call goes through, with which text. *)
Inductive source := FromDomain (json : string) | FromGraph (json : string) | NoSource.
Definition source_of (q : request) : source :=
  match q with
  | Plan d | Replan d _ _ | CheckTemporal d _ _ | PlanWithTemporal d _ | PlanWithTemporalExplain d _
  | CheckTemporalCivil d _ _ _ | PlanWithTemporalCivil d _ _ | PlanWithTemporalCivilExplain d _ _ => FromDomain d
  | RebacCheck g _ _ _ _ | RebacExpand g _ _ _ | RebacCan g _ _ _ | RebacCapabilities g _ | RebacEntities g _ => FromGraph g
  | _ => NoSource
  end.

(** A call sees the content of its state when it starts.  It may write to the
    state it was given, as [signature_hash] does to the mutable fields: [leave]
    says what it leaves there. *)
Variable leave : request -> TwState -> TwState.

Definition see (h : state_heap) (l : call_result TwLoadedRef) : call_result TwLoaded := let? l := l in Done (view h l).

Definition after_call (q : request) (l : call_result TwLoadedRef) (c : caches) : caches :=
  match l with
  | Done (mkRef _ (Some a) _ _) =>
      match nth_error (states c) a with
      | Some s => mkCaches (s_domain_cache c) (s_graph_cache c) (write_state (states c) a (leave q s))
      | None => c
      end
  | _ => c
  end.

Definition serve (q : request) (c : caches) : response * caches :=
  match source_of q with
  | FromDomain json => let '(l, c) := load_cached json c in (handle q (see (states c) l) Undef, after_call q l c)
  | FromGraph json => let '(g, c) := graph_cached json c in (handle q Undef g, c)
  | NoSource =>
      (handle q Undef Undef,
       match q with
       | DomainCacheClear => mkCaches [] (s_graph_cache c) (states c)
       | RebacCacheClear => mkCaches (s_domain_cache c) [] (states c)
       | _ => c
       end)
  end.

Fixpoint serve_all (qs : list request) (c : caches) : list response :=
  match qs with
  | [] => []
  | q :: qs => let '(r, c) := serve q c in r :: serve_all qs c
  end.

(** The service without caches: each call parses its own text. *)
Definition answer (q : request) : response :=
  match source_of q with
  | FromDomain json => handle q (of_res (load_json json)) Undef
  | FromGraph json => handle q Undef (of_res (graph_from_json json))
  | NoSource => handle q Undef Undef
  end.
End Calls.
