(* ===== verification/TwNifProofs.v ===== *)
(** taskweft_nif/c_src/taskweft_nif.cpp: the caches are invisible, in sequence and
    between threads; plans and results print as JSON that parses; the witness
    oracle's answer. *)

From Stdlib Require Import ZArith String Ascii List Bool Lia.
From Stdlib Require Import Floats.SpecFloat.
From S2P Require Import Prelude OrderedMap TwValue TwJson TwJsonProofs TwJsonText TwRebac TwState TwDomain TwPlanner TwPlannerTree TwTemporal TwNodes TwLoader TwPlanTheorems TwLoaderProofs.
From S2P Require Import TwRun TwBridge TwExplain TwMcExecutor TwWitnessOracle TwNif.
Import ListNotations.
#[local] Open Scope string_scope.
#[local] Open Scope Z_scope.

(** * States in the heap *)

(** A pointer into the heap, or null. *)
Definition in_heap (h : state_heap) (l : TwLoadedRef) : Prop := forall a, r_state l = Some a -> (a < length h)%nat.

Lemma view_app h s l : in_heap h l -> view (h ++ [s])%list l = view h l.
Proof.
  intros R. unfold view. f_equal. destruct (r_state l) as [a|] eqn:E; [|reflexivity]. now rewrite nth_error_app1 by now apply R.
Qed.

Lemma in_heap_app h s l : in_heap h l -> in_heap (h ++ [s])%list l.
Proof. intros R a E. specialize (R a E). rewrite length_app. lia. Qed.

(** Writing to one state is not seen through a pointer to another. *)
Lemma view_write h a s l : r_state l <> Some a -> view (write_state h a s) l = view h l.
Proof.
  intros N. unfold view, write_state. f_equal. destruct (r_state l) as [b|]; [|reflexivity].
  destruct (nth_error h a) as [p|] eqn:E; [|unfold set_nth; now rewrite E].
  rewrite (nth_error_set _ _ _ _ _ E). destruct (Nat.eqb_spec b a) as [->|]; [congruence|reflexivity].
Qed.

(** [h'] is [h], or [h] with one state more. *)
Definition extends (h h' : state_heap) : Prop := h' = h \/ exists s, h' = (h ++ [s])%list.

Lemma extends_view h h' l : extends h h' -> in_heap h l -> view h' l = view h l /\ in_heap h' l.
Proof. intros [->|(s & ->)] R; auto using view_app, in_heap_app. Qed.

Lemma new_loaded_spec l h : let '(h', r) := new_loaded l h in
  extends h h' /\ view h' r = l /\ in_heap h' r /\ forall a, r_state r = Some a -> a = length h.
Proof.
  unfold new_loaded. destruct l as [d [s|] t e]; cbn.
  - split; [right; eauto|]. unfold view, in_heap. cbn. rewrite nth_error_app2, Nat.sub_diag, length_app by lia. cbn.
    split; [reflexivity|]. split; intros a [= <-]; lia.
  - split; [now left|]. split; [reflexivity|]. split; discriminate.
Qed.

Lemma copy_loaded_spec l h : let '(h', r) := copy_loaded l h in
  extends h h' /\ view h' r = view h l /\ in_heap h' r /\ forall a, r_state r = Some a -> a = length h.
Proof.
  pose proof (new_loaded_spec (view h l) h) as N. unfold new_loaded in N. unfold copy_loaded, copy.
  cbn [view l_domain l_tasks l_enums] in N. change (l_state (mkLoaded _ ?x _ _)) with x in *.
  replace (option_map (fun s => s) (l_state (view h l))) with (l_state (view h l)) by now destruct (l_state (view h l)).
  exact N.
Qed.

(** * The service with caches is the service without *)

Section Service.
Context `{Libm} `{StdHash}.
Variable late : Z -> bool.
Variable draw : Z -> nat -> spec_float.
Variable samples : Level -> Z -> nat -> Z.
Variable leave : request -> TwState -> TwState.

(** Every entry is what its key parses to, with a state in the heap. *)
Definition domains_ok (h : state_heap) (d : dict TwLoadedRef) : Prop :=
  forall k l, dict_find k d = Some l -> load_json k = Ok (view h l) /\ in_heap h l.
Definition graphs_ok (d : dict TwReBACGraph) : Prop := forall k g, dict_find k d = Some g -> graph_from_json k = Ok g.
Definition caches_ok (c : caches) : Prop := domains_ok (states c) (s_domain_cache c) /\ graphs_ok (s_graph_cache c).

Lemma emplace_find {V} k (v : V) d k' : dict_find k' (emplace k v d) =
  match dict_find k' d with Some x => Some x | None => if String.eqb k' k then Some v else None end.
Proof.
  unfold emplace, dict_count. destruct (dict_find k d) as [x|] eqn:E.
  - destruct (dict_find k' d) eqn:E'; [reflexivity|]. destruct (String.eqb_spec k' k) as [->|]; [congruence|reflexivity].
  - clear E. induction d as [|[k0 v0] d IH]; cbn [app dict_find]; [reflexivity|]. destruct (String.eqb k' k0); [reflexivity|exact IH].
Qed.

Lemma emplace_domains_ok h k l d : domains_ok h d -> load_json k = Ok (view h l) -> in_heap h l -> domains_ok h (emplace k l d).
Proof.
  intros D E R k' l'. rewrite emplace_find. destruct (dict_find k' d) eqn:F; [intros [= <-]; now apply D|].
  destruct (String.eqb_spec k' k) as [->|]; [intros [= <-]; auto|discriminate].
Qed.

Lemma domains_ok_extends h h' d : extends h h' -> domains_ok h d -> domains_ok h' d.
Proof. intros X D k l E. destruct (D k l E) as [L R]. destruct (extends_view h h' l X R) as [-> R']. auto. Qed.

(** A state that no entry points to may be written. *)
Lemma domains_ok_write h d a s : domains_ok h d -> (forall k l, dict_find k d = Some l -> r_state l <> Some a) -> domains_ok (write_state h a s) d.
Proof.
  intros D N k l E. destruct (D k l E) as [L R]. rewrite view_write by eauto. split; [exact L|].
  intros b Eb. unfold write_state. rewrite set_nth_length. now apply R.
Qed.

Lemma emplace_graphs_ok k g d : graphs_ok d -> graph_from_json k = Ok g -> graphs_ok (emplace k g d).
Proof.
  intros D E k' g'. rewrite emplace_find. destruct (dict_find k' d) eqn:F; [intros [= <-]; now apply D|].
  destruct (String.eqb_spec k' k) as [->|]; [intros [= <-]; exact E|discriminate].
Qed.

(** [load_cached] gives what the text loads to, through a pointer that no entry
    of the cache has. *)
Lemma load_cached_spec json c : caches_ok c -> let '(l, c') := load_cached json c in
  see (states c') l = of_res (load_json json) /\ caches_ok c' /\
  forall r a, l = Done r -> r_state r = Some a -> forall k e, dict_find k (s_domain_cache c') = Some e -> r_state e <> Some a.
Proof.
  intros [D G]. unfold load_cached. destruct (dict_find json (s_domain_cache c)) as [l|] eqn:F.
  - destruct (D _ _ F) as [L R]. pose proof (copy_loaded_spec l (states c)) as C. destruct (copy_loaded l (states c)) as [h r].
    destruct C as (X & V & _ & A). cbn [states s_domain_cache]. change (see h (Done r)) with (Done (view h r)). rewrite L, V. split; [reflexivity|].
    split; [split; [now apply (domains_ok_extends (states c))|exact G]|].
    intros r' a [= <-] Ea k e Ek Ee. destruct (D _ _ Ek) as [_ Re]. specialize (Re a Ee). apply A in Ea. lia.
  - destruct (load_json json) as [l|e] eqn:E; [|split; [reflexivity|]; split; [now split|discriminate]].
    pose proof (new_loaded_spec l (states c)) as N. destruct (new_loaded l (states c)) as [h0 r0]. destruct N as (X0 & V0 & R0 & _).
    pose proof (copy_loaded_spec r0 h0) as C. destruct (copy_loaded r0 h0) as [h r]. destruct C as (X & V & _ & A).
    assert (D0 : domains_ok h0 (emplace json r0 (s_domain_cache c))).
    { apply emplace_domains_ok; [now apply (domains_ok_extends (states c))|congruence|exact R0]. }
    cbn [states s_domain_cache]. change (see h (Done r)) with (Done (view h r)). rewrite V, V0. split; [reflexivity|].
    split; [split; [now apply (domains_ok_extends h0)|exact G]|].
    intros r' a [= <-] Ea k e Ek Ee. destruct (D0 _ _ Ek) as [_ Re]. specialize (Re a Ee). apply A in Ea. lia.
Qed.

Lemma after_call_ok q l c : caches_ok c ->
  (forall r a, l = Done r -> r_state r = Some a -> forall k e, dict_find k (s_domain_cache c) = Some e -> r_state e <> Some a) ->
  caches_ok (after_call leave q l c).
Proof.
  intros [D G] N. unfold after_call. destruct l as [[d [a|] t e]|x|]; try (split; assumption).
  destruct (nth_error (states c) a); [|split; assumption]. split; [|exact G]. apply domains_ok_write; [exact D|]. exact (N _ a eq_refl eq_refl).
Qed.

Lemma graph_cached_spec json c : caches_ok c -> fst (graph_cached json c) = of_res (graph_from_json json) /\ caches_ok (snd (graph_cached json c)).
Proof.
  intros [D G]. unfold graph_cached. destruct (dict_find json (s_graph_cache c)) as [g|] eqn:F.
  - rewrite (G _ _ F). split; [reflexivity|split; assumption].
  - destruct (graph_from_json json) as [g|e] eqn:E; [|split; [reflexivity|split; assumption]]. cbn [fst snd]. rewrite emplace_find, F, String.eqb_refl.
    split; [reflexivity|]. split; [exact D|]. now apply emplace_graphs_ok.
Qed.

Lemma serve_spec q c : caches_ok c ->
  fst (serve late draw samples leave q c) = answer late draw samples q /\ caches_ok (snd (serve late draw samples leave q c)).
Proof.
  intros C. unfold serve, answer. destruct (source_of q) as [json|json|] eqn:S.
  - pose proof (load_cached_spec json c C) as L. destruct (load_cached json c) as [l c']. destruct L as (-> & O & N).
    split; [reflexivity|now apply after_call_ok].
  - destruct (graph_cached_spec json c C) as [E O]. destruct (graph_cached json c) as [g c']. cbn in *. now subst.
  - split; [reflexivity|]. destruct C as [D G]. destruct q; try (split; assumption); split; try assumption; intros k x; discriminate.
Qed.

(** C2: The caches are invisible, and the copy that [load_cached] makes of the
    cached initial state keeps the calls apart: whatever calls come in whatever
    order, the cache clears among them, and whatever each call leaves in the
    state it was given, each gets the response it would get from a service that
    parses every text again, exceptions included.  The caches to start from are
    empty ones, or any whose entries are what their texts load to.  Plans are
    modelled for domains whose actions and methods draw no random numbers. *)
Theorem service_refines (qs : list request) (c : caches) : caches_ok c ->
  serve_all late draw samples leave qs c = map (answer late draw samples) qs.
Proof.
  revert c. induction qs as [|q qs IH]; intros c C; [reflexivity|]. cbn [serve_all map]. destruct (serve_spec q c C) as [E O].
  destruct (serve late draw samples leave q c) as [r c']. cbn [fst snd] in *. subst r. now rewrite IH.
Qed.
End Service.

Lemma service_refines_witness :
  serve_all (H := Gate.libm) (H0 := Travel.fnv) (fun _ => false) (fun _ _ => f0) (fun _ _ _ => 0) (fun _ _ => empty_state) [Plan "{}"; Plan "{}"; DomainCacheClear; RebacAddEdge "{}" "a" "b" "OWNS"] empty_caches =
  map (answer (H := Gate.libm) (H0 := Travel.fnv) (fun _ => false) (fun _ _ => f0) (fun _ _ _ => 0)) [Plan "{}"; Plan "{}"; DomainCacheClear; RebacAddEdge "{}" "a" "b" "OWNS"].
Proof. apply (service_refines (H := Gate.libm) (H0 := Travel.fnv) (fun _ => false) (fun _ _ => f0) (fun _ _ _ => 0) (fun _ _ => empty_state)). split; intros k x; discriminate. Defined.

(** * Texts *)

(** Strings the printers, which escape nothing, render as JSON does. *)
Definition plain (s : string) : Prop := escape_chars s = s.

Lemma quoted_plain s : plain s -> quoted s = escape_string s.
Proof. unfold plain, quoted, escape_string. now intros ->. Qed.

Lemma text_string s : plain s -> json_text (STRING s) (quoted s).
Proof. intros P. rewrite (quoted_plain s P). constructor. Qed.

Lemma text_bool b : json_text (BOOL b) (show_bool b).
Proof. destruct b; constructor. Qed.

(** Elements and members with the separator [", "]. *)
Lemma elements_joined (l : list (TwValue * string)) : l <> [] -> Forall (fun vt => json_text (fst vt) (snd vt)) l ->
  elements (map fst l) (String.concat ", " (map snd l)).
Proof.
  intros N F. induction F as [|[v t] l J F IH]; [congruence|]. cbn [fst snd] in J. destruct l as [|[v' t'] l].
  - cbn [map fst snd String.concat]. rewrite <- (str_app_nil t). now apply el_last.
  - cbn [map fst snd]. rewrite concat_cons. apply (el_more v t "" " "); auto. apply IH. discriminate.
Qed.

Lemma array_joined (l : list (TwValue * string)) : Forall (fun vt => json_text (fst vt) (snd vt)) l ->
  json_text (ARRAY (map fst l)) ("[" ++ String.concat ", " (map snd l) ++ "]").
Proof.
  intros F. destruct l as [|x l]; [exact (jt_no_elements "" eq_refl)|]. apply (jt_array _ ""); [reflexivity|]. apply elements_joined; [discriminate|exact F].
Qed.

Lemma args_concat l : String.concat "" (map (fun a => ", " ++ quoted a) l) = match l with [] => "" | _ => ", " ++ String.concat ", " (map quoted l) end.
Proof.
  induction l as [|a l IH]; [reflexivity|]. destruct l as [|b l]; [reflexivity|]. cbn [map] in *. rewrite concat_cons, IH. cbn [map].
  rewrite (concat_cons ", "). now rewrite !str_app_assoc.
Qed.

(** What a call reads as: every argument a string. *)
Definition as_text (c : TwCall) : TwCall := mkCall (name c) (map (fun a => STRING (to_string a)) (args c)).
Definition plain_call (c : TwCall) : Prop := plain (name c) /\ Forall (fun a => plain (to_string a)) (args c).

Lemma plan_entry_text c : plain_call c -> json_text (tw_call_to_value (as_text c)) (plan_entry c).
Proof.
  intros [Pn Pa]. destruct c as [n ar]. cbn [name args] in *.
  assert (E : plan_entry (mkCall n ar) = "[" ++ String.concat ", " (map snd (map (fun s => (STRING s, quoted s)) (n :: map to_string ar))) ++ "]").
  { unfold plan_entry. cbn [name args]. f_equal.
    change (map (fun a => ", " ++ String quote (to_string a ++ String quote "")) ar) with (map (fun a => ", " ++ quoted (to_string a)) ar).
    replace (map (fun a => ", " ++ quoted (to_string a)) ar) with (map (fun a => ", " ++ quoted a) (map to_string ar)) by (rewrite map_map; reflexivity).
    rewrite args_concat. generalize (map to_string ar). intros l.
    replace (map snd (map (fun s => (STRING s, quoted s)) (n :: l))) with (quoted n :: map quoted l) by (cbn [map snd]; now rewrite map_map).
    change (String quote (n ++ String quote ?x)) with (String quote (n ++ String quote "" ++ x)). rewrite <- str_app_assoc.
    change (String quote ((n ++ String quote "") ++ ?x)) with (quoted n ++ x).
    destruct l as [|a l]; [reflexivity|]. cbn [map]. rewrite concat_cons. now rewrite !str_app_assoc. }
  rewrite E. unfold tw_call_to_value, as_text. cbn [name args].
  replace (STRING n :: map (fun a => STRING (to_string a)) ar) with (map fst (map (fun s => (STRING s, quoted s)) (n :: map to_string ar))) by (cbn [map]; rewrite !map_map; reflexivity).
  apply array_joined. apply Forall_map. constructor; [now apply text_string|]. apply Forall_map. refine (Forall_impl _ _ Pa). intros a P. now apply text_string.
Qed.

Definition plan_value (p : list TwCall) : TwValue := ARRAY (map (fun c => tw_call_to_value (as_text c)) p).

Lemma plan_text p : Forall plain_call p -> json_text (plan_value p) (plan_to_json p).
Proof.
  intros F. unfold plan_value, plan_to_json.
  pose proof (array_joined (map (fun c => (tw_call_to_value (as_text c), plan_entry c)) p)) as A. rewrite !map_map in A. apply A.
  apply Forall_map. refine (Forall_impl _ _ F). apply plan_entry_text.
Qed.

(** What [plan] prints is what [replan] and [check_temporal] read: for names and
    arguments without characters that need escaping, the printed plan parses to
    the same calls in order, with every argument replaced by the string of its
    rendering; so the plan comes back unchanged exactly when all its arguments are
    strings. *)
Theorem printed_plan_read (p : list TwCall) : Forall plain_call p ->
  parse_plan (plan_to_json p) = Ok (map as_text p) /\ (map as_text p = p <-> Forall (fun c => Forall (fun a => is_string a = true) (args c)) p).
Proof.
  intros F. split.
  - unfold parse_plan. pose proof (parse_text_str _ _ "" "" (plan_text p F) eq_refl eq_refl) as E. rewrite str_app_nil in E. cbn [String.append] in E. rewrite E.
    cbn [rbind plan_value]. f_equal. clear. induction p as [|c p IH]; [reflexivity|]. cbn [map flat_map plan_item tw_call_to_value as_text name args as_string app]. now f_equal.
  - clear F. induction p as [|c p IH]; cbn [map]; [split; constructor|].
    assert (A : forall l, map (fun a => STRING (to_string a)) l = l <-> Forall (fun a => is_string a = true) l).
    { induction l as [|a l IHl]; cbn [map]; [split; constructor|]. split.
      - intros [= Ea El]. constructor; [destruct a; try discriminate Ea; reflexivity|now apply IHl].
      - intros Fa. inversion Fa as [|? ? Ha Hl]; subst. destruct a; try discriminate Ha. cbn [to_string]. f_equal. now apply IHl. }
    destruct c as [n ar]. unfold as_text at 1. cbn [name args]. split.
    + intros [= Ea Ep]. constructor; [now apply A|now apply IH].
    + intros Fp. inversion Fp as [|? ? Ha Hp]; subst. cbn [args] in Ha. f_equal; [f_equal; now apply A|now apply IH].
Qed.

Lemma printed_plan_read_witness : parse_plan (plan_to_json [mkCall "move" [STRING "a"; INT 3]]) = Ok [mkCall "move" [STRING "a"; STRING "3"]].
Proof. apply (printed_plan_read [mkCall "move" [STRING "a"; INT 3]]). repeat constructor. Defined.

(** Members after the first, each on its own line. *)
Fixpoint lines_text (sep : string) (l : list (string * TwValue * string)) (last : string) : string :=
  match l with
  | [] => EmptyString
  | [(k, _, t)] => escape_string k ++ "" ++ ":" ++ " " ++ t ++ last
  | (k, _, t) :: r => escape_string k ++ "" ++ ":" ++ " " ++ t ++ "" ++ "," ++ sep ++ lines_text sep r last
  end.

Lemma lines_members sep last l : ws sep = true -> ws last = true -> l <> [] -> Forall (fun kvt => json_text (snd (fst kvt)) (snd kvt)) l ->
  members (map fst l) (lines_text sep l last).
Proof.
  intros W W' N F. induction F as [|[[k v] t] l J F IH]; [congruence|]. cbn [fst snd] in J. destruct l as [|[[k' v'] t'] l].
  - exact (me_last k "" " " v t last eq_refl eq_refl J W').
  - exact (me_more k "" " " v t "" sep _ _ eq_refl eq_refl J eq_refl W (IH ltac:(discriminate))).
Qed.

Lemma lines_dict w sep last l : ws w = true -> ws sep = true -> ws last = true -> l <> [] -> NoDup (keys (map fst l)) -> Forall (fun kvt => json_text (snd (fst kvt)) (snd kvt)) l ->
  json_text (DICT (map fst l)) ("{" ++ w ++ lines_text sep l last ++ "}").
Proof. intros W W1 W2 N D F. apply jt_dict; [exact W|exact D|]. now apply lines_members. Qed.

Ltac distinct := cbn [map keys fst]; repeat (apply NoDup_cons; [cbn; intuition discriminate|]); apply NoDup_nil.

(** A dictionary's text, when it is one up to the association of its parts. *)
Ltac by_lines w sep last l :=
  match goal with |- json_text ?v ?t => replace t with ("{" ++ w ++ lines_text sep l last ++ "}");
    [apply (lines_dict w sep last l); [reflexivity|reflexivity|reflexivity|discriminate|distinct|repeat apply Forall_cons; try apply Forall_nil; cbn [fst snd]]
    |try match goal with x := _ : list (string * TwValue * string) |- _ => unfold x end; cbn [lines_text]; unfold quoted, nl; rewrite ?str_app_assoc; reflexivity]
  end.

Definition step_value (st : TwTemporalStep) : TwValue :=
  DICT [("action", STRING (action_name st)); ("duration", STRING (duration_iso st)); ("start", STRING (start_iso st)); ("end", STRING (end_iso st))].
Definition plain_step (st : TwTemporalStep) : Prop := plain (action_name st) /\ plain (duration_iso st) /\ plain (start_iso st) /\ plain (end_iso st).

Lemma step_text_ok st : plain_step st -> json_text (step_value st) (step_json st).
Proof.
  intros (P1 & P2 & P3 & P4). unfold step_value, step_json. apply text_string in P1, P2, P3, P4.
  by_lines "" " " "" [("action", STRING (action_name st), quoted (action_name st)); ("duration", STRING (duration_iso st), quoted (duration_iso st));
    ("start", STRING (start_iso st), quoted (start_iso st)); ("end", STRING (end_iso st), quoted (end_iso st))]; assumption.
Qed.

Definition temporal_value (p : list TwCall) (tr : TwTemporalResult) : TwValue :=
  DICT [("plan", plan_value p);
        ("temporal", DICT [("consistent", BOOL (is_consistent tr)); ("origin", STRING (origin_iso tr)); ("total", STRING (total_iso tr));
                           ("steps", ARRAY (map step_value (t_steps tr)))])].
Definition plain_temporal (tr : TwTemporalResult) : Prop := plain (origin_iso tr) /\ plain (total_iso tr) /\ Forall plain_step (t_steps tr).

Lemma temporal_text p tr : Forall plain_call p -> plain_temporal tr -> json_text (temporal_value p tr) (tw_temporal_to_json tr (plan_to_json p)).
Proof.
  intros Fp (Po & Pt & Fs). pose proof (plan_text p Fp) as Jp. apply text_string in Po, Pt.
  assert (Js : json_text (ARRAY (map step_value (t_steps tr))) ("[" ++ String.concat ", " (map step_json (t_steps tr)) ++ "]")).
  { pose proof (array_joined (map (fun st => (step_value st, step_json st)) (t_steps tr))) as A. rewrite !map_map in A. apply A. apply Forall_map. refine (Forall_impl _ _ Fs). apply step_text_ok. }
  unfold temporal_value. set (inner := [("consistent", BOOL (is_consistent tr), show_bool (is_consistent tr)); ("origin", STRING (origin_iso tr), quoted (origin_iso tr));
    ("total", STRING (total_iso tr), quoted (total_iso tr)); ("steps", ARRAY (map step_value (t_steps tr)), "[" ++ String.concat ", " (map step_json (t_steps tr)) ++ "]")]).
  assert (Ji : json_text (DICT (map fst inner)) ("{" ++ (nl ++ "    ") ++ lines_text (nl ++ "    ") inner (nl ++ "  ") ++ "}")).
  { apply lines_dict; [reflexivity|reflexivity|reflexivity|discriminate|distinct|].
    repeat apply Forall_cons; try apply Forall_nil; cbn [fst snd]; auto using text_bool. }
  unfold tw_temporal_to_json.
  by_lines (nl ++ "  ") (nl ++ "  ") nl [("plan", plan_value p, plan_to_json p); ("temporal", DICT (map fst inner), "{" ++ (nl ++ "    ") ++ lines_text (nl ++ "    ") inner (nl ++ "  ") ++ "}")]; assumption.
Qed.

Definition replan_value (fs : Z) (original : list TwCall) (rr : TwReplanResult) : TwValue :=
  DICT [("original_plan", plan_value original); ("fail_step", INT fs); ("completed_steps", INT (completed_steps (simulate rr)));
        ("recovered", BOOL (recovered rr)); ("new_plan", match new_plan rr with Some p => if recovered rr then plan_value p else NIL | None => NIL end)].

Lemma replan_text fs original rr : Forall plain_call original -> (forall p, new_plan rr = Some p -> Forall plain_call p) ->
  - 2 ^ 63 <= fs < 2 ^ 63 -> - 2 ^ 63 <= completed_steps (simulate rr) < 2 ^ 63 ->
  json_text (replan_value fs original rr) (tw_replan_to_json fs rr (plan_to_json original) (match new_plan rr with Some p => if recovered rr then plan_to_json p else "null" | None => "null" end)).
Proof.
  intros Fo Fn Hf Hc. unfold replan_value, tw_replan_to_json. set (nv := match new_plan rr with Some p => if recovered rr then plan_value p else NIL | None => NIL end).
  set (nt := match new_plan rr with Some p => if recovered rr then plan_to_json p else "null" | None => "null" end).
  assert (Jn : json_text nv nt).
  { subst nv nt. destruct (new_plan rr) as [p|] eqn:E; [|constructor]. destruct (recovered rr); [|constructor]. apply plan_text. now apply Fn. }
  by_lines (nl ++ "  ") (nl ++ "  ") nl [("original_plan", plan_value original, plan_to_json original); ("fail_step", INT fs, show_int fs);
    ("completed_steps", INT (completed_steps (simulate rr)), show_int (completed_steps (simulate rr))); ("recovered", BOOL (recovered rr), show_bool (recovered rr)); ("new_plan", nv, nt)];
    auto using plan_text, text_bool, jt_int.
Qed.

(** The envelopes are JSON: the texts that [check_temporal] and [replan] build by
    hand parse to the dictionaries their fields say (the plan with its arguments
    rendered, the steps with their times, the replacement plan or null), provided
    that no name needs escaping. *)
Theorem envelopes_parse (p : list TwCall) (tr : TwTemporalResult) (fs : Z) (rr : TwReplanResult) :
  Forall plain_call p -> plain_temporal tr -> (forall q, new_plan rr = Some q -> Forall plain_call q) ->
  - 2 ^ 63 <= fs < 2 ^ 63 -> - 2 ^ 63 <= completed_steps (simulate rr) < 2 ^ 63 ->
  parse_json_str (tw_temporal_to_json tr (plan_to_json p)) = Ok (temporal_value p tr) /\
  parse_json_str (tw_replan_to_json fs rr (plan_to_json p) (match new_plan rr with Some q => if recovered rr then plan_to_json q else "null" | None => "null" end)) = Ok (replan_value fs p rr).
Proof.
  intros Fp Pt Fn Hf Hc.
  pose proof (parse_text_str _ _ "" "" (temporal_text p tr Fp Pt) eq_refl eq_refl) as E1. pose proof (parse_text_str _ _ "" "" (replan_text fs p rr Fp Fn Hf Hc) eq_refl eq_refl) as E2.
  rewrite str_app_nil in E1, E2. split; [exact E1|exact E2].
Qed.

Definition one_step : TwTemporalResult := mkTemporal true "PT5S" "PT0S" [mkStep "open" "PT5S" "PT0S" "PT5S"].
Definition not_recovered : TwReplanResult := mkReplan (mkSim 0 0 "open" empty_state) None false ["open"].

Lemma envelopes_parse_witness :
  parse_json_str (tw_temporal_to_json one_step (plan_to_json [mkCall "open" [STRING "door"]])) = Ok (temporal_value [mkCall "open" [STRING "door"]] one_step) /\
  parse_json_str (tw_replan_to_json 0 not_recovered (plan_to_json [mkCall "open" [STRING "door"]]) "null") = Ok (replan_value 0 [mkCall "open" [STRING "door"]] not_recovered).
Proof.
  apply (envelopes_parse [mkCall "open" [STRING "door"]] one_step 0 not_recovered); [repeat constructor|repeat constructor|discriminate|lia|cbn; lia].
Defined.

(** * The witness oracle *)

Section Oracle.
Context `{Libm}.

(** The witness oracle says the same of every domain: whatever the state, the
    tasks, the domain that loads and the samples drawn, each outcome is "found"
    with value and index zero, because its readback reports a witness without
    looking for one. *)
Theorem oracle_constant (samples : Level -> Z -> nat -> Z) (state_json tasks_json domain_json out : string) (m : prog string) :
  witness_oracle samples state_json tasks_json domain_json = Ok m -> outcome m out ->
  out = to_json (DICT [("value", INT 0); ("found", BOOL true); ("witness_idx", INT 0); ("budget_hit", BOOL false)]).
Proof.
  unfold witness_oracle. intros E O. destruct (load_json domain_json) as [loaded|e]; [|discriminate]. cbn [rbind] in E. injection E as <-.
  apply outcome_bind in O as (r & R & O). apply outcome_ret_inv in O as ->. unfold resolve, ladder in R. cbn [try_levels] in R.
  apply outcome_bind in R as (r1 & R1 & R). unfold try_level at 1 in R1. cbn [resolved] in R1. apply outcome_bind in R1 as (tr & _ & R1). apply outcome_ret_inv in R1.
  assert (D : resolved r1 = true /\ chosen r1 = 0 /\ outcome_of r1 = mkOutcome found 0) by (rewrite R1; destruct (is_failure tr); repeat split). clear R1.
  assert (S : forall lvl x, outcome (try_level (candidate_is_witness loaded) oracle_readback samples r1 lvl) x -> x = r1).
  { intros lvl x Hx. unfold try_level in Hx. destruct D as [-> _] in Hx. now apply outcome_ret_inv in Hx. }
  apply outcome_bind in R as (r2 & R2 & R). apply S in R2 as ->. apply outcome_bind in R as (r3 & R3 & R). apply S in R3 as ->. apply outcome_ret_inv in R as ->.
  destruct D as (_ & C & Oc). unfold oracle_outcome. rewrite C, Oc. reflexivity.
Qed.
End Oracle.

Lemma oracle_constant_witness : exists m, witness_oracle (H := Gate.libm) (fun _ _ _ => 0) "" "" "[]" = Ok m /\
  forall out, outcome m out -> out = to_json (DICT [("value", INT 0); ("found", BOOL true); ("witness_idx", INT 0); ("budget_hit", BOOL false)]).
Proof.
  destruct (witness_oracle (H := Gate.libm) (fun _ _ _ => 0) "" "" "[]") as [m|e] eqn:E; [|exfalso; unfold witness_oracle in E; cbn in E; discriminate].
  exists m. split; [reflexivity|]. intros out O. exact (oracle_constant (H := Gate.libm) (fun _ _ _ => 0) "" "" "[]" out m E O).
Defined.
