(* ===== verification/TwCacheThreads.v ===== *)
(** taskweft_nif/c_src/taskweft_nif.cpp: [load_cached] and [graph_cached] under
    concurrent calls.

    A call's turns are its two critical sections, the parse between them and,
    for [load_cached], the copy behind them; any number of calls take turns in
    any order, and the caches may be cleared in between.  What [load_cached]
    loads shares its state with the cache by pointer until it is copied, outside
    the lock; a call that has finished may write to the state it was given, at
    any time.  [graph_cached] returns a reference to the map's node, which the
    caller reads afterwards without the lock: nodes are cells of a heap, and
    clearing the map frees them. *)

From Stdlib Require Import ZArith String List Bool Lia.
From S2P Require Import Prelude OrderedMap TwValue TwJson TwRebac TwRebacProofs TwState TwNodes TwLoader TwLoaderProofs TwRun TwNif TwNifProofs.
Import ListNotations.
#[local] Open Scope string_scope.

(** * Domains *)

Section Domains.
Context `{Libm}.

(** A new call, a turn of the [i]-th call, a call that clears the cache, or a
    write of the [i]-th call to the state it was given. *)
Inductive load_event := LSpawn (json : string) | LTurn (i : nat) | LClear | LWrite (i : nat) (s : TwState).

Inductive load_pc :=
| LStart | LParsing | LInserting (l : TwLoadedRef) | LCopying (l : TwLoadedRef) | LFinished (r : call_result TwLoadedRef).
Record load_state := mkLoad { l_heap : state_heap; l_cache : dict TwLoadedRef; l_calls : list (string * load_pc) }.

Definition load_turn (h : state_heap) (c : dict TwLoadedRef) (json : string) (pc : load_pc)
    : state_heap * dict TwLoadedRef * load_pc :=
  match pc with
  | LStart =>
      match dict_find json c with
      | Some l => let '(h, r) := copy_loaded l h in (h, c, LFinished (Done r))
      | None => (h, c, LParsing)
      end
  | LParsing =>
      match load_json json with
      | Ok l => let '(h, loaded) := new_loaded l h in (h, c, LInserting loaded)
      | Throw e => (h, c, LFinished (Raised (Parse e)))
      end
  | LInserting l => (h, emplace json l c, LCopying l)
  | LCopying l => let '(h, r) := copy_loaded l h in (h, c, LFinished (Done r))
  | LFinished r => (h, c, pc)
  end.

(** The states a call shares with the cache, and the one it was given. *)
Definition shared (pc : load_pc) : option nat := match pc with LInserting l | LCopying l => r_state l | _ => None end.
Definition owned (pc : load_pc) : option nat := match pc with LFinished (Done l) => r_state l | _ => None end.

Definition load_step (st : load_state) (ev : load_event) : load_state :=
  match ev with
  | LSpawn json => mkLoad (l_heap st) (l_cache st) (l_calls st ++ [(json, LStart)])
  | LTurn i =>
      match nth_error (l_calls st) i with
      | Some (json, pc) =>
          let '(h, c, pc) := load_turn (l_heap st) (l_cache st) json pc in mkLoad h c (set_nth (l_calls st) i (json, pc))
      | None => st
      end
  | LClear => mkLoad (l_heap st) [] (l_calls st)
  | LWrite i s =>
      match nth_error (l_calls st) i with
      | Some (_, pc) =>
          match owned pc with Some a => mkLoad (write_state (l_heap st) a s) (l_cache st) (l_calls st) | None => st end
      | None => st
      end
  end.

Definition load_run (evs : list load_event) : load_state := fold_left load_step evs (mkLoad [] [] []).

(** ** Invariant *)

(** Any call but [me] may have written to its state. *)
Variable me : nat.

(** What is in flight is what the text parses to. *)
Definition call_ok (h : state_heap) (j : nat) (json : string) (pc : load_pc) : Prop :=
  match pc with
  | LInserting l | LCopying l => load_json json = Ok (view h l) /\ in_heap h l
  | LFinished (Done l) => in_heap h l /\ (j = me -> load_json json = Ok (view h l))
  | LFinished r => see h r = of_res (load_json json)
  | _ => True
  end.

Record load_ok (st : load_state) : Prop := {
  lo_cache : domains_ok (l_heap st) (l_cache st);
  lo_calls : forall j json pc, nth_error (l_calls st) j = Some (json, pc) -> call_ok (l_heap st) j json pc;
  lo_apart : forall j json pc a, nth_error (l_calls st) j = Some (json, pc) -> owned pc = Some a ->
    (forall k e, dict_find k (l_cache st) = Some e -> r_state e <> Some a) /\
    (forall j' json' pc', nth_error (l_calls st) j' = Some (json', pc') ->
       shared pc' <> Some a /\ (owned pc' = Some a -> j' = j))
}.

Lemma call_range h j json pc a : call_ok h j json pc -> shared pc = Some a \/ owned pc = Some a -> (a < length h)%nat.
Proof. destruct pc as [| |l|l|[l|x|]]; cbn; intros C [E|E]; try discriminate; apply C; exact E. Qed.

Lemma owned_not_shared pc a b : owned pc = Some a -> shared pc = Some b -> False.
Proof. destruct pc as [| |l|l|[l|x|]]; discriminate. Qed.

Lemma call_extends h h' j json pc : extends h h' -> call_ok h j json pc -> call_ok h' j json pc.
Proof.
  intros X. destruct pc as [| |l|l|[l|x|]]; cbn; auto.
  - intros [E R]. destruct (extends_view h h' l X R) as [-> R']. auto.
  - intros [E R]. destruct (extends_view h h' l X R) as [-> R']. auto.
  - intros [R E]. destruct (extends_view h h' l X R) as [-> R']. auto.
Qed.

(** What one turn does to the heap, the cache and the call. *)
Lemma load_turn_ok h c j json pc : domains_ok h c -> call_ok h j json pc ->
  let '(h', c', pc') := load_turn h c json pc in
  extends h h' /\ domains_ok h' c' /\ call_ok h' j json pc' /\
  (forall k e, dict_find k c' = Some e -> dict_find k c = Some e \/ r_state e = shared pc) /\
  (forall a, owned pc' = Some a -> owned pc = Some a \/ a = length h) /\
  (forall a, shared pc' = Some a -> shared pc = Some a \/ a = length h).
Proof.
  intros D C. assert (X0 : extends h h) by now left. destruct pc as [| |l|l|r]; cbn [load_turn].
  - destruct (dict_find json c) as [l|] eqn:E.
    + destruct (D _ _ E) as [L R]. pose proof (copy_loaded_spec l h) as K. destruct (copy_loaded l h) as [h' r]. destruct K as (X & V & R' & A).
      split; [exact X|]. split; [now apply (domains_ok_extends h)|]. split; [split; [exact R'|congruence]|]. cbn. split; [auto|]. split; [auto|discriminate].
    + split; [exact X0|]. split; [exact D|]. split; [exact I|]. cbn. split; [auto|]. split; discriminate.
  - destruct (load_json json) as [l|e] eqn:E.
    + pose proof (new_loaded_spec l h) as K. destruct (new_loaded l h) as [h' r]. destruct K as (X & V & R' & A).
      split; [exact X|]. split; [now apply (domains_ok_extends h)|]. split; [split; [congruence|exact R']|]. cbn. split; [auto|]. split; [discriminate|auto].
    + split; [exact X0|]. split; [exact D|]. split; [cbn; now rewrite E|]. cbn. split; [auto|]. split; discriminate.
  - destruct C as [L R]. split; [exact X0|]. split; [now apply emplace_domains_ok|]. split; [now split|]. cbn. split; [|split; [discriminate|auto]].
    intros k e. rewrite emplace_find. destruct (dict_find k c); [auto|]. destruct (String.eqb k json); [|discriminate]. intros [= <-]. auto.
  - destruct C as [L R]. pose proof (copy_loaded_spec l h) as K. destruct (copy_loaded l h) as [h' r]. destruct K as (X & V & R' & A).
    split; [exact X|]. split; [now apply (domains_ok_extends h)|]. split; [split; [exact R'|congruence]|]. cbn. split; [auto|]. split; [auto|discriminate].
  - split; [exact X0|]. split; [exact D|]. split; [exact C|]. auto.
Qed.

Lemma turn_step_ok st i : load_ok st -> load_ok (load_step st (LTurn i)).
Proof.
  intros [D C P]. cbn [load_step]. destruct (nth_error (l_calls st) i) as [[json pc]|] eqn:E; [|now split].
  pose proof (load_turn_ok _ _ i json pc D (C _ _ _ E)) as T. destruct (load_turn _ _ json pc) as [[h' c'] pc'].
  destruct T as (X & D' & C' & Tc & To & Ts).
  assert (N : forall j q, nth_error (set_nth (l_calls st) i (json, pc')) j = Some q -> (j = i /\ q = (json, pc')) \/ (j <> i /\ nth_error (l_calls st) j = Some q)).
  { intros j q. rewrite (nth_error_set _ _ _ _ _ E). destruct (Nat.eqb_spec j i) as [->|]; [intros [= <-]|]; auto. }
  assert (L : forall j js q a, nth_error (l_calls st) j = Some (js, q) -> shared q = Some a \/ owned q = Some a -> (a < length (l_heap st))%nat).
  { intros j js q a Ej. exact (call_range _ j js q a (C _ _ _ Ej)). }
  assert (Lc : forall k e a, dict_find k (l_cache st) = Some e -> r_state e = Some a -> (a < length (l_heap st))%nat).
  { intros k e a Ek. apply (D _ _ Ek). }
  constructor; cbn [l_heap l_cache l_calls]; [exact D'|..].
  - intros j js q Ej. destruct (N _ _ Ej) as [[-> [= -> ->]]|[_ Ej']]; [exact C'|]. exact (call_extends _ _ _ _ _ X (C _ _ _ Ej')).
  - intros j js q a Ej Ea. destruct (N _ _ Ej) as [[-> [= -> ->]]|[Nj Ej']].
    + destruct (To a Ea) as [Eo| ->].
      * destruct (P _ _ _ _ E Eo) as [P1 P2]. split.
        -- intros k e Ek Ee. destruct (Tc k e Ek) as [Ek'|Es]; [exact (P1 k e Ek' Ee)|]. apply (proj1 (P2 _ _ _ E)). congruence.
        -- intros j' js' q' Ej'. destruct (N _ _ Ej') as [[-> [= -> ->]]|[_ Ej'']]; [|exact (P2 _ _ _ Ej'')].
           split; [|auto]. intros Es. destruct (Ts a Es) as [Es'| ->]; [now apply (P2 _ _ _ E)|]. pose proof (L _ _ _ _ E (or_intror Eo)). lia.
      * split.
        -- intros k e Ek Ee. destruct (Tc k e Ek) as [Ek'|Es]; [pose proof (Lc _ _ _ Ek' Ee); lia|].
           rewrite Ee in Es. pose proof (L _ _ _ _ E (or_introl (eq_sym Es))). lia.
        -- intros j' js' q' Ej'. destruct (N _ _ Ej') as [[-> [= -> ->]]|[_ Ej'']].
           ++ split; [|auto]. intros Es. exact (owned_not_shared _ _ _ Ea Es).
           ++ split; [intros Es; pose proof (L _ _ _ _ Ej'' (or_introl Es)); lia|intros Eo; pose proof (L _ _ _ _ Ej'' (or_intror Eo)); lia].
    + pose proof (L _ _ _ _ Ej' (or_intror Ea)) as La. destruct (P _ _ _ _ Ej' Ea) as [P1 P2]. split.
      * intros k e Ek Ee. destruct (Tc k e Ek) as [Ek'|Es]; [exact (P1 k e Ek' Ee)|]. apply (proj1 (P2 _ _ _ E)). congruence.
      * intros j' js' q' Ej''. destruct (N _ _ Ej'') as [[-> [= -> ->]]|[_ Ej3]]; [|exact (P2 _ _ _ Ej3)]. split.
        -- intros Es. destruct (Ts a Es) as [Es'|]; [now apply (P2 _ _ _ E)|lia].
        -- intros Eo. destruct (To a Eo) as [Eo'|]; [exact (proj2 (P2 _ _ _ E) Eo')|lia].
Qed.

Lemma write_step_ok st i s : i <> me -> load_ok st -> load_ok (load_step st (LWrite i s)).
Proof.
  intros Ni O. pose proof O as [D C P]. cbn [load_step]. destruct (nth_error (l_calls st) i) as [[json pc]|] eqn:E; [|exact O].
  destruct (owned pc) as [a|] eqn:Eo; [|exact O]. destruct (P _ _ _ _ E Eo) as [P1 P2]. constructor; cbn [l_heap l_cache l_calls].
  - now apply domains_ok_write.
  - intros j js q Ej. specialize (C _ _ _ Ej). destruct (P2 _ _ _ Ej) as [N1 N2].
    assert (R : forall l, in_heap (l_heap st) l -> in_heap (write_state (l_heap st) a s) l) by (intros l Rl b Eb; unfold write_state; rewrite set_nth_length; auto).
    destruct q as [| |l|l|[l|x|]]; cbn [call_ok shared owned] in *; auto.
    + destruct C. rewrite view_write by assumption. auto.
    + destruct C. rewrite view_write by assumption. auto.
    + destruct C as [Rl V]. split; [auto|]. intros ->. rewrite view_write; [auto|]. intros Ea. apply Ni. symmetry. auto.
  - exact P.
Qed.

Lemma load_step_ok st ev : (forall s, ev <> LWrite me s) -> load_ok st -> load_ok (load_step st ev).
Proof.
  intros N O. destruct ev as [json|i| |i s]; [|now apply turn_step_ok| |].
  - destruct O as [D C P].
    assert (A : forall j q, nth_error (l_calls st ++ [(json, LStart)]) j = Some q -> nth_error (l_calls st) j = Some q \/ q = (json, LStart)).
    { intros j q Ej. destruct (Nat.lt_ge_cases j (length (l_calls st))) as [Lj|Lj]; [rewrite nth_error_app1 in Ej by exact Lj; auto|].
      rewrite nth_error_app2 in Ej by exact Lj. destruct (j - length (l_calls st))%nat as [|[|]]; [injection Ej as <-; auto|discriminate..]. }
    constructor; cbn [load_step l_heap l_cache l_calls]; [exact D|..].
    + intros j js q Ej. destruct (A _ _ Ej) as [Ej'|[= -> ->]]; [eauto|exact I].
    + intros j js q a Ej Ea. destruct (A _ _ Ej) as [Ej'|[= -> ->]]; [|discriminate]. destruct (P _ _ _ _ Ej' Ea) as [P1 P2].
      split; [exact P1|]. intros j' js' q' Ej''. destruct (A _ _ Ej'') as [E3|[= -> ->]]; [eauto|split; discriminate].
  - destruct O as [D C P]. constructor; cbn [load_step l_heap l_cache l_calls]; [intros k l; discriminate|exact C|].
    intros j js q a Ej Ea. destruct (P _ _ _ _ Ej Ea) as [_ P2]. split; [intros k e; discriminate|exact P2].
  - apply write_step_ok; [|exact O]. intros ->. now apply (N s).
Qed.

Lemma load_run_ok evs : (forall s, ~ In (LWrite me s) evs) -> load_ok (load_run evs).
Proof.
  unfold load_run. assert (G : forall st, load_ok st -> (forall s, ~ In (LWrite me s) evs) -> load_ok (fold_left load_step evs st)).
  { induction evs as [|ev evs IH]; intros st O N; [exact O|]. cbn [fold_left]. apply IH.
    - apply load_step_ok; [|exact O]. intros s ->. apply (N s). now left.
    - intros s Hs. apply (N s). now right. }
  apply G. constructor; cbn; [intros k l; discriminate|intros [|j]; discriminate|intros [|j]; discriminate].
Qed.

(** ** Termination *)

(** The turns a call still needs. *)
Definition turns_left (pc : load_pc) : nat := match pc with LStart => 4 | LParsing => 3 | LInserting _ => 2 | LCopying _ => 1 | LFinished _ => 0 end.

Lemma turn_counts st i json pc : nth_error (l_calls st) i = Some (json, pc) ->
  exists pc', nth_error (l_calls (load_step st (LTurn i))) i = Some (json, pc') /\ (turns_left pc' <= turns_left pc - 1)%nat.
Proof.
  intros E. cbn [load_step]. rewrite E. destruct (load_turn (l_heap st) (l_cache st) json pc) as [[h c] pc'] eqn:T. cbn [l_calls].
  exists pc'. rewrite (nth_error_set _ _ _ _ _ E), Nat.eqb_refl. split; [reflexivity|].
  destruct pc as [| |l|l|r]; cbn [load_turn] in T;
    repeat match type of T with context [match ?x with _ => _ end] => destruct x end; injection T as <- <- <-; cbn; lia.
Qed.

Lemma turns_finish n : forall st i json pc, nth_error (l_calls st) i = Some (json, pc) -> (turns_left pc <= n)%nat ->
  exists r, nth_error (l_calls (fold_left load_step (repeat (LTurn i) n) st)) i = Some (json, LFinished r).
Proof.
  induction n as [|n IH]; intros st i json pc E L; cbn [repeat fold_left].
  - destruct pc as [| |l|l|r]; cbn in L; try lia. eauto.
  - destruct (turn_counts st i json pc E) as (pc' & E' & L'). apply (IH _ _ _ _ E'). lia.
Qed.
End Domains.

(** There is a call that never writes. *)
Lemma nobody `{Libm} (evs : list load_event) : exists n, forall s, ~ In (LWrite n s) evs.
Proof.
  assert (B : exists n, forall i s, In (LWrite i s) evs -> (i < n)%nat).
  { induction evs as [|ev evs (n & IH)]; [exists O; intros i s []|].
    exists (Nat.max n (match ev with LWrite i _ => S i | _ => O end)). intros i s [->|Hi]; [lia|specialize (IH i s Hi); lia]. }
  destruct B as [n B]. exists n. intros s Hs. specialize (B n s Hs). lia.
Qed.

(** C17: Concurrent calls of [load_cached]: in every interleaving of any number of
    calls, with the cache cleared at any points between and with finished calls
    writing anything to the states they were given, a call that has finished
    and has not itself written sees what its own text loads to, or raised the
    exception its parse raises; the state it was given is pointed to by no entry
    of the cache and by no other finished call; every entry of the cache still
    is what its text loads to; and a call always finishes with its fourth
    turn. *)
Theorem load_cached_linear `{Libm} (evs : list load_event) (i : nat) (json : string) (pc : load_pc) :
  nth_error (l_calls (load_run evs)) i = Some (json, pc) ->
  match pc with
  | LFinished r =>
      ((forall s, ~ In (LWrite i s) evs) -> see (l_heap (load_run evs)) r = of_res (load_json json)) /\
      forall a, owned pc = Some a ->
        (forall k e, dict_find k (l_cache (load_run evs)) = Some e -> r_state e <> Some a) /\
        (forall j json' pc', nth_error (l_calls (load_run evs)) j = Some (json', pc') -> owned pc' = Some a -> j = i)
  | _ => True
  end /\
  (forall k e, dict_find k (l_cache (load_run evs)) = Some e -> load_json k = Ok (view (l_heap (load_run evs)) e)) /\
  exists r, nth_error (l_calls (load_run (evs ++ [LTurn i; LTurn i; LTurn i; LTurn i]))) i = Some (json, LFinished r).
Proof.
  intros E. destruct (nobody evs) as [n Hn]. destruct (load_run_ok n evs Hn) as [D _ P].
  split; [|split; [intros k e Ek; exact (proj1 (D k e Ek))|]].
  - destruct pc as [| |l|l|r]; try exact I. split.
    + intros N. destruct (load_run_ok i evs N) as [_ C _]. specialize (C _ _ _ E). destruct r as [l|x|]; cbn in C; [|exact C..].
      now rewrite (proj2 C eq_refl).
    + intros a Ea. destruct (P _ _ _ _ E Ea) as [P1 P2]. split; [exact P1|]. intros j js q Ej Eq. exact (proj2 (P2 _ _ _ Ej) Eq).
  - unfold load_run. rewrite fold_left_app. apply (turns_finish 4 _ _ _ pc E). destruct pc; cbn; lia.
Qed.

Lemma load_cached_linear_witness :
  let evs := [LSpawn "{}"; LSpawn "{}"; LTurn 0; LTurn 1; LTurn 1; LTurn 1; LTurn 1; LWrite 1 empty_state; LTurn 0; LClear; LTurn 0; LTurn 0] in
  match nth_error (l_calls (load_run (H := Gate.libm) evs)) 0 with
  | Some (j, LFinished r) => j = "{}" /\ see (l_heap (load_run (H := Gate.libm) evs)) r = of_res (load_json (H := Gate.libm) "{}")
  | _ => False
  end.
Proof.
  intros evs. split; [reflexivity|].
  apply (proj1 (proj1 (load_cached_linear (H := Gate.libm) evs 0 "{}" _ eq_refl))). unfold evs. cbn. intuition discriminate.
Defined.

(** A new call, a turn of the [i]-th call, or a call that clears the cache. *)
Inductive event := Spawn (json : string) | Turn (i : nat) | Clear.

(** * Graphs *)

(** [GHolding a]: the reference has been returned and not yet read; [GRead None]:
    the cell it refers to had been freed. *)
Inductive graph_pc := GStart | GParsing | GInserting (g : TwReBACGraph) | GHolding (a : nat) | GRead (g : option TwReBACGraph) | GRaised (e : exn).
Record graph_state := mkGS { heap : list (option TwReBACGraph); g_cache : dict nat; g_calls : list (string * graph_pc) }.

Definition deref (h : list (option TwReBACGraph)) (a : nat) : option TwReBACGraph := match nth_error h a with Some c => c | None => None end.

Definition graph_turn (h : list (option TwReBACGraph)) (c : dict nat) (json : string) (pc : graph_pc) : list (option TwReBACGraph) * dict nat * graph_pc :=
  match pc with
  | GStart => (h, c, match dict_find json c with Some a => GHolding a | None => GParsing end)
  | GParsing => (h, c, match graph_from_json json with Ok g => GInserting g | Throw e => GRaised e end)
  | GInserting g =>
      match dict_find json c with
      | Some a => (h, c, GHolding a)
      | None => ((h ++ [Some g])%list, (c ++ [(json, length h)])%list, GHolding (length h))
      end
  | GHolding a => (h, c, GRead (deref h a))
  | _ => (h, c, pc)
  end.

Definition graph_step (st : graph_state) (ev : event) : graph_state :=
  match ev with
  | Spawn json => mkGS (heap st) (g_cache st) (g_calls st ++ [(json, GStart)])
  | Turn i => match nth_error (g_calls st) i with
              | Some (json, pc) => let '(h, c, pc) := graph_turn (heap st) (g_cache st) json pc in mkGS h c (set_nth (g_calls st) i (json, pc))
              | None => st
              end
  | Clear => mkGS (fold_left (fun h ka => set_nth h (snd ka) None) (g_cache st) (heap st)) [] (g_calls st)
  end.

Definition graph_run (evs : list event) : graph_state := fold_left graph_step evs (mkGS [] [] []).

Definition cell_ok (h : list (option TwReBACGraph)) (json : string) (a : nat) : Prop := exists g, nth_error h a = Some (Some g) /\ graph_from_json json = Ok g.

Definition graph_call_ok (h : list (option TwReBACGraph)) (jp : string * graph_pc) : Prop :=
  match snd jp with
  | GInserting g => graph_from_json (fst jp) = Ok g
  | GHolding a => cell_ok h (fst jp) a
  | GRead r => exists g, r = Some g /\ graph_from_json (fst jp) = Ok g
  | GRaised e => graph_from_json (fst jp) = Throw e
  | _ => True
  end.

Definition graph_ok (st : graph_state) : Prop :=
  (forall k a, dict_find k (g_cache st) = Some a -> cell_ok (heap st) k a) /\ Forall (graph_call_ok (heap st)) (g_calls st).

Lemma cell_ok_app h g json a : cell_ok h json a -> cell_ok (h ++ [Some g])%list json a.
Proof. intros (x & E & P). exists x. split; [|exact P]. rewrite nth_error_app1; [exact E|]. apply nth_error_Some. congruence. Qed.

Lemma call_ok_app h g jp : graph_call_ok h jp -> graph_call_ok (h ++ [Some g])%list jp.
Proof. destruct jp as [j []]; unfold graph_call_ok; cbn [fst snd]; auto using cell_ok_app. Qed.

Lemma cell_ok_last h g json : graph_from_json json = Ok g -> cell_ok (h ++ [Some g])%list json (length h).
Proof. intros P. exists g. split; [|exact P]. rewrite nth_error_app2, Nat.sub_diag by lia. reflexivity. Qed.

Lemma find_app_new k a (c : dict nat) k' : dict_find k c = None -> dict_find k' (c ++ [(k, a)])%list = match dict_find k' c with Some x => Some x | None => if String.eqb k' k then Some a else None end.
Proof. intros _. induction c as [|[k0 v0] c IH]; cbn [app dict_find]; [reflexivity|]. destruct (String.eqb k' k0); [reflexivity|exact IH]. Qed.

Lemma graph_step_ok st ev : ev <> Clear -> graph_ok st -> graph_ok (graph_step st ev).
Proof.
  intros N [D F]. destruct ev as [json|i|]; [| |congruence]; cbn [graph_step].
  - split; [exact D|]. apply Forall_app. split; [exact F|repeat constructor].
  - destruct (nth_error (g_calls st) i) as [[json pc]|] eqn:E; [|split; assumption]. pose proof (nth_error_Forall _ _ _ _ F E) as C.
    destruct pc as [| |g|a|r|e]; cbn [graph_turn]; unfold graph_call_ok in C; cbn [fst snd] in C.
    + split; [exact D|]. apply (Forall_set _ _ _ _ _ E F). unfold graph_call_ok. cbn [fst snd heap]. destruct (dict_find json (g_cache st)) eqn:Ec; [now apply D|exact I].
    + split; [exact D|]. apply (Forall_set _ _ _ _ _ E F). unfold graph_call_ok. cbn [fst snd heap]. destruct (graph_from_json json) eqn:Ep; exact eq_refl || exact Ep.
    + destruct (dict_find json (g_cache st)) as [a|] eqn:Ec.
      * split; [exact D|]. apply (Forall_set _ _ _ _ _ E F). now apply D.
      * split; cbn [heap g_cache g_calls].
        -- intros k a. rewrite (find_app_new json _ _ k Ec). destruct (dict_find k (g_cache st)) as [x|] eqn:Ek; [intros [= <-]; now apply cell_ok_app, D|].
           destruct (String.eqb_spec k json) as [->|]; [|discriminate]. intros [= <-]. now apply cell_ok_last.
        -- apply (Forall_set _ _ _ _ _ E); [refine (Forall_impl _ _ F); intros; now apply call_ok_app|]. now apply cell_ok_last.
    + split; [exact D|]. apply (Forall_set _ _ _ _ _ E F). unfold graph_call_ok. cbn [fst snd]. destruct C as (g & Eg & P). exists g. split; [|exact P]. unfold deref. now rewrite Eg.
    + split; [exact D|]. apply (Forall_set _ _ _ _ _ E F). exact C.
    + split; [exact D|]. apply (Forall_set _ _ _ _ _ E F). exact C.
Qed.

(** Concurrent calls of [graph_cached] without clearing: in every interleaving,
    what a call reads through the reference it was given is the graph its own text
    parses to, though concurrent misses parse twice and only one insertion wins. *)
Theorem graph_cached_safe (evs : list event) (i : nat) (json : string) (r : option TwReBACGraph) : ~ In Clear evs ->
  nth_error (g_calls (graph_run evs)) i = Some (json, GRead r) -> exists g, r = Some g /\ graph_from_json json = Ok g.
Proof.
  intros N E. assert (G : forall st, graph_ok st -> graph_ok (fold_left graph_step evs st)).
  { clear E. induction evs as [|ev evs IH]; intros st O; [exact O|]. cbn [fold_left]. apply IH; [intros I; apply N; now right|].
    apply graph_step_ok; [intros ->; apply N; now left|exact O]. }
  assert (O : graph_ok (graph_run evs)) by (apply G; split; [intros k a; discriminate|constructor]).
  exact (nth_error_Forall _ _ _ _ (proj2 O) E).
Qed.

Lemma graph_cached_safe_witness : exists g,
  deref (heap (graph_run [Spawn "{}"; Spawn "{}"; Turn 0; Turn 1; Turn 0; Turn 1; Turn 1; Turn 0; Turn 0])) 0 = Some g /\ graph_from_json "{}" = Ok g.
Proof.
  exact (graph_cached_safe [Spawn "{}"; Spawn "{}"; Turn 0; Turn 1; Turn 0; Turn 1; Turn 1; Turn 0; Turn 0] 0 "{}"
    (deref (heap (graph_run [Spawn "{}"; Spawn "{}"; Turn 0; Turn 1; Turn 0; Turn 1; Turn 1; Turn 0; Turn 0])) 0)
    ltac:(cbn; intuition discriminate) eq_refl).
Defined.

(** Clearing the graph cache while a call holds its reference frees the graph the
    call is about to read: there is an interleaving of one query and one
    [rebac_cache_clear] in which the query reads a freed cell. *)
Theorem graph_cache_clear_race : exists evs, nth_error (g_calls (graph_run evs)) 0 = Some ("{}", GRead None).
Proof. exists [Spawn "{}"; Turn 0; Turn 0; Turn 0; Clear; Turn 0]. vm_compute. reflexivity. Qed.
