(* ===== verification/ThreadCallbacks.v ===== *)
(** flow/include/flow/ThreadHelper.h: ThreadCallback's holders and
    ThreadMultiCallback.

    Every callback has an inline first holder, which heads a list of further
    holders on the heap; a holder says at which index of which multi-callback's
    vector the callback is.  [None] is a failed UNSTOPPABLE_ASSERT, the use of
    freed memory or of a null pointer. *)

From Stdlib Require Import List Bool Lia PeanoNat Permutation.
From S2P Require Import Prelude.
Import ListNotations.

Inductive addr := First (c : nat) | Alloc (n : nat).

Record MultiCallbackHolder := mkHolder {
  multiCallback : option nat; index : nat; previous : option addr; next : option addr
}.

(** [heap] holds the allocated holders, [None] where one was deleted; [callbacks]
    the vectors of the multi-callbacks. *)
Record store := mkStore {
  firstHolder : nat -> MultiCallbackHolder; heap : list (option MultiCallbackHolder); callbacks : nat -> list nat
}.

Definition at_ {A} (f : nat -> A) (x : nat) (v : A) : nat -> A := fun a => if Nat.eqb a x then v else f a.

Definition read (s : store) (a : addr) : option MultiCallbackHolder :=
  match a with First c => Some (firstHolder s c) | Alloc n => match nth_error (heap s) n with Some h => h | None => None end end.
Definition write (s : store) (a : addr) (h : MultiCallbackHolder) : store :=
  match a with
  | First c => mkStore (at_ (firstHolder s) c h) (heap s) (callbacks s)
  | Alloc n => mkStore (firstHolder s) (set_nth (heap s) n (Some h)) (callbacks s)
  end.
Definition free_holder (s : store) (a : addr) : store :=
  match a with First _ => s | Alloc n => mkStore (firstHolder s) (set_nth (heap s) n None) (callbacks s) end.
Definition set_callbacks (s : store) (m : nat) (l : list nat) : store := mkStore (firstHolder s) (heap s) (at_ (callbacks s) m l).

Definition bind {A B} (o : option A) (f : A -> option B) : option B := match o with Some x => f x | None => None end.
Definition update (s : store) (a : addr) (f : MultiCallbackHolder -> MultiCallbackHolder) : option store :=
  bind (read s a) (fun h => Some (write s a (f h))).

Definition set_multi (h : MultiCallbackHolder) (m : option nat) := mkHolder m (index h) (previous h) (next h).
Definition set_index (h : MultiCallbackHolder) (i : nat) := mkHolder (multiCallback h) i (previous h) (next h).
Definition set_previous (h : MultiCallbackHolder) (a : option addr) := mkHolder (multiCallback h) (index h) a (next h).
Definition set_next (h : MultiCallbackHolder) (a : option addr) := mkHolder (multiCallback h) (index h) (previous h) a.

(** The constructor with arguments: the index it is given is not stored. *)
Definition new_holder (m : nat) (i : nat) (prev nxt : option addr) : MultiCallbackHolder := mkHolder (Some m) 0 prev nxt.

Definition addHolder (s : store) (c m i : nat) : store :=
  let h := firstHolder s c in
  match multiCallback h with
  | None => write s (First c) (set_index (set_multi h (Some m)) i)
  | Some _ =>
      let s := mkStore (firstHolder s) (heap s ++ [Some (new_holder m i (Some (First c)) (next h))]) (callbacks s) in
      write s (First c) (set_next h (Some (Alloc (length (heap s) - 1))))
  end.

(** The holder of [m] in the list from [a]: the outer option is the memory's. *)
Fixpoint find_holder (fuel : nat) (s : store) (a : option addr) (m : nat) : option (option addr) :=
  match a with
  | None => Some None
  | Some p =>
      match fuel with
      | O => None
      | S fuel => bind (read s p) (fun h =>
          match multiCallback h with
          | Some m' => if Nat.eqb m' m then Some (Some p) else find_holder fuel s (next h) m
          | None => find_holder fuel s (next h) m
          end)
      end
  end.
Definition getHolder (s : store) (c m : nat) : option (option addr) := find_holder (S (length (heap s))) s (Some (First c)) m.

Definition destroyHolder (s : store) (a : option addr) : option store :=
  match a with
  | None => None
  | Some (First c) => update s (First c) (fun h => set_multi h None)
  | Some p =>
      bind (read s p) (fun h =>
      bind (previous h) (fun q =>
      bind (update s q (fun g => set_next g (next h))) (fun s =>
      bind (match next h with Some n => update s n (fun g => set_previous g (previous h)) | None => Some s end) (fun s =>
      Some (free_holder s p)))))
  end.

Definition addCallback (s : store) (m c : nat) : option store :=
  bind (getHolder s c m) (fun h =>
    match h with
    | Some _ => None
    | None => let s := addHolder s c m (length (callbacks s m)) in Some (set_callbacks s m (callbacks s m ++ [c]))
    end).

(** ThreadCallback::addCallback: a new multi-callback [m] of the two callbacks. *)
Definition addCallback_single (s : store) (m this c : nat) : option store :=
  bind (addCallback (set_callbacks s m []) m this) (fun s => addCallback s m c).

Definition clearCallback (s : store) (m c : nat) : option (store * bool) :=
  bind (getHolder s c m) (fun h =>
    match h with
    | None => Some (s, false)
    | Some p =>
        bind (read s p) (fun h =>
        let cs := callbacks s m in
        if index h <? length cs then
          bind (if Nat.eqb (index h) (length cs - 1) then Some s
                else
                  let moved := last cs 0 in
                  let s := set_callbacks s m (set_nth cs (index h) moved) in
                  bind (getHolder s moved m) (fun g =>
                  bind g (fun g => update s g (fun x => set_index x (index h)))))
            (fun s =>
          let s := set_callbacks s m (removelast (callbacks s m)) in
          bind (destroyHolder s (Some p)) (fun s => Some (s, true)))
        else None)
    end).

(** A turn of the loop of [fire] and [error]: the last callback is taken off. *)
Definition fire_pop (s : store) (m : nat) : option (store * nat) :=
  let c := last (callbacks s m) 0 in
  let s := set_callbacks s m (removelast (callbacks s m)) in
  bind (getHolder s c m) (fun h => bind (destroyHolder s h) (fun s => Some (s, c))).

(** [fire] and [error]: the callbacks that are run, in order. *)
Section Fire.
Context (canFire : nat -> bool).

Fixpoint fire_loop (fuel : nat) (s : store) (m : nat) : option (store * list nat) :=
  match callbacks s m with
  | [] => Some (s, [])
  | _ =>
      match fuel with
      | O => None
      | S fuel =>
          bind (fire_pop s m) (fun '(s, c) =>
          bind (fire_loop fuel s m) (fun '(s, fired) => Some (s, if canFire c then c :: fired else fired)))
      end
  end.
Definition fire (s : store) (m : nat) : option (store * list nat) := fire_loop (length (callbacks s m)) s m.
End Fire.

(** No holder in use. *)
Definition fresh : store := mkStore (fun _ => mkHolder None 0 None None) [] (fun _ => []).

(** * Callbacks in one multi-callback at a time *)

Record inv (s : store) : Prop := {
  inv_nodup : forall m, NoDup (callbacks s m);
  inv_holder : forall m i c, nth_error (callbacks s m) i = Some c -> multiCallback (firstHolder s c) = Some m /\ index (firstHolder s c) = i;
  inv_member : forall c m, multiCallback (firstHolder s c) = Some m -> In c (callbacks s m);
  inv_alone : forall c, next (firstHolder s c) = None
}.

Definition unused (s : store) (c : nat) : Prop := multiCallback (firstHolder s c) = None.

Lemma at_same {A} (f : nat -> A) x v : at_ f x v x = v.
Proof. unfold at_. now rewrite Nat.eqb_refl. Qed.
Lemma at_other {A} (f : nat -> A) x v a : a <> x -> at_ f x v a = f a.
Proof. unfold at_. intros H. now destruct (Nat.eqb_spec a x). Qed.

Lemma getHolder_inv s c m : next (firstHolder s c) = None ->
  getHolder s c m = Some (match multiCallback (firstHolder s c) with Some m' => if Nat.eqb m' m then Some (First c) else None | None => None end).
Proof.
  intros N. unfold getHolder. cbn [find_holder read bind]. rewrite N.
  destruct (multiCallback (firstHolder s c)) as [m'|]; [destruct (Nat.eqb m' m)|]; auto; now destruct (length (heap s)).
Qed.

Lemma fresh_inv : inv fresh.
Proof.
  constructor; cbn.
  - constructor.
  - intros m [|i] c; discriminate.
  - discriminate.
  - reflexivity.
Qed.

Lemma nth_last {A} (l : list A) x i y : nth_error (l ++ [x]) i = Some y -> i < length l /\ nth_error l i = Some y \/ i = length l /\ y = x.
Proof.
  intros H. destruct (Nat.lt_ge_cases i (length l)) as [L|L]; [left; now rewrite nth_error_app1 in H|].
  rewrite nth_error_app2 in H by lia. destruct (i - length l) as [|[|k]] eqn:E; cbn in H; [right; split; [lia|congruence]|discriminate|discriminate].
Qed.

(** One vector becomes [l]; the holders of its callbacks follow. *)
Lemma inv_vector s s' m l : inv s ->
  (forall m', callbacks s' m' = if Nat.eqb m' m then l else callbacks s m') -> NoDup l ->
  (forall i c, nth_error l i = Some c -> multiCallback (firstHolder s' c) = Some m /\ index (firstHolder s' c) = i) ->
  (forall c, ~ In c l -> multiCallback (firstHolder s' c) = if existsb (Nat.eqb c) (callbacks s m) then None else multiCallback (firstHolder s c)) ->
  (forall c, ~ In c l -> ~ In c (callbacks s m) -> firstHolder s' c = firstHolder s c) ->
  (forall c, In c l -> In c (callbacks s m) \/ unused s c) ->
  (forall c, next (firstHolder s' c) = None) -> inv s'.
Proof.
  intros [D H M A] C DL HL HN HO HI N. constructor; auto.
  - intros m'. rewrite C. destruct (Nat.eqb m' m); auto.
  - intros m' i c E. rewrite C in E. destruct (Nat.eqb_spec m' m) as [->|X]; [auto|]. destruct (H _ _ _ E) as [Q I].
    assert (NM : ~ In c (callbacks s m)) by (intros Y; apply In_nth_error in Y; destruct Y as [j Y]; destruct (H _ _ _ Y); congruence).
    rewrite HO; [auto| |exact NM]. intros Y. destruct (HI c Y) as [Z|Z]; [auto|]. unfold unused in Z. congruence.
  - intros c m' E. rewrite C. destruct (in_dec Nat.eq_dec c l) as [I|I].
    + apply In_nth_error in I as J. destruct J as [i J]. destruct (HL _ _ J). assert (m' = m) as -> by congruence. now rewrite Nat.eqb_refl.
    + rewrite (HN c I) in E. destruct (existsb (Nat.eqb c) (callbacks s m)) eqn:X; [discriminate|]. apply M in E.
      destruct (Nat.eqb_spec m' m) as [->|_]; [|exact E]. exfalso. enough (existsb (Nat.eqb c) (callbacks s m) = true) by congruence.
      apply existsb_exists. exists c. split; [exact E|apply Nat.eqb_refl].
Qed.

Lemma unused_out s c m : inv s -> unused s c -> ~ In c (callbacks s m).
Proof. intros I U X. apply In_nth_error in X. destruct X as [i X]. destruct (inv_holder _ I _ _ _ X). unfold unused in U. congruence. Qed.

Lemma existsb_out c l : ~ In c l -> existsb (Nat.eqb c) l = false.
Proof. intros N. destruct (existsb (Nat.eqb c) l) eqn:E; [|reflexivity]. apply existsb_exists in E. destruct E as (x & I & E). apply Nat.eqb_eq in E. subst. contradiction. Qed.

Lemma existsb_in c l : In c l -> existsb (Nat.eqb c) l = true.
Proof. intros I. apply existsb_exists. exists c. split; [exact I|apply Nat.eqb_refl]. Qed.

Lemma addCallback_inv s m c : inv s -> unused s c ->
  exists s', addCallback s m c = Some s' /\ inv s' /\ (forall m', callbacks s' m' = if Nat.eqb m' m then callbacks s m ++ [c] else callbacks s m').
Proof.
  intros I U. pose proof (fun m => unused_out s c m I U) as N. pose proof (inv_alone _ I) as A. unfold addCallback.
  rewrite getHolder_inv by apply A. unfold unused in U. rewrite U. cbn [bind]. eexists. split; [reflexivity|]. set (s' := set_callbacks _ _ _).
  assert (F : forall x, firstHolder s' x = if Nat.eqb x c then mkHolder (Some m) (length (callbacks s m)) (previous (firstHolder s c)) None else firstHolder s x).
  { intros x. unfold s', addHolder. rewrite U. cbn. unfold at_. destruct (Nat.eqb x c); [|reflexivity]. unfold set_index, set_multi. cbn. now rewrite A. }
  assert (C : forall m', callbacks s' m' = if Nat.eqb m' m then callbacks s m ++ [c] else callbacks s m').
  { intros m'. unfold s', addHolder. rewrite U. reflexivity. }
  clearbody s'. split; [|exact C]. apply (inv_vector s s' m (callbacks s m ++ [c])); auto.
  - apply NoDup_app; [apply I|repeat constructor; intros []|]. intros x X [<-|[]]. now destruct (N m).
  - intros i x E. rewrite F. apply nth_last in E. destruct E as [[L E]|[-> ->]]; [|rewrite Nat.eqb_refl; auto].
    destruct (Nat.eqb_spec x c) as [->|_]; [|now apply (inv_holder _ I)]. destruct (N m). eapply nth_error_In; eauto.
  - intros x X. rewrite in_app_iff in X. rewrite F, existsb_out by tauto. destruct (Nat.eqb_spec x c) as [->|_]; [|reflexivity]. destruct X. right. now left.
  - intros x X Y. rewrite F. destruct (Nat.eqb_spec x c) as [->|_]; [|reflexivity]. destruct X. apply in_or_app. right. now left.
  - intros x X. apply in_app_or in X. destruct X as [X|[<-|[]]]; auto.
  - intros x. rewrite F. destruct (Nat.eqb x c); [reflexivity|apply A].
Qed.

Lemma destroy_first s c : destroyHolder s (Some (First c)) = Some (write s (First c) (set_multi (firstHolder s c) None)).
Proof. reflexivity. Qed.

Lemma app_inj_length {A} (a b c d : list A) : length a = length c -> a ++ b = c ++ d -> a = c /\ b = d.
Proof. revert c. induction a as [|x a IH]; intros [|y c] L E; try discriminate; [auto|]. injection L as L. injection E as -> E. destruct (IH c L E) as [-> ->]. auto. Qed.

(** The callback [c] leaves the vector, which becomes [l]. *)
Lemma inv_leave s s' m c l : inv s -> Permutation (c :: l) (callbacks s m) ->
  (forall m', callbacks s' m' = if Nat.eqb m' m then l else callbacks s m') ->
  unused s' c -> (forall x, x <> c -> multiCallback (firstHolder s' x) = multiCallback (firstHolder s x)) ->
  (forall i x, nth_error l i = Some x -> index (firstHolder s' x) = i) ->
  (forall x, ~ In x (callbacks s m) -> firstHolder s' x = firstHolder s x) ->
  (forall x, next (firstHolder s' x) = None) -> inv s'.
Proof.
  intros I P C U M X O A.
  assert (D : NoDup (c :: l)) by (apply (Permutation_NoDup (Permutation_sym P)), I). apply NoDup_cons_iff in D. destruct D as [NC D].
  assert (S : forall x, In x l -> In x (callbacks s m)) by (intros x H; apply (Permutation_in _ P); now right).
  assert (CI : In c (callbacks s m)) by (apply (Permutation_in _ P); now left).
  apply (inv_vector s s' m l); auto.
  - intros i x E. split; [|auto]. assert (K : In x l) by (eapply nth_error_In; eauto). rewrite M by (intros ->; auto).
    apply S, In_nth_error in K. destruct K as [j K]. apply (inv_holder _ I _ _ _ K).
  - intros x N. destruct (Nat.eq_dec x c) as [->|Y]; [now rewrite existsb_in|]. rewrite existsb_out by (intros Q; apply (Permutation_in _ (Permutation_sym P)) in Q; destruct Q; congruence).
    now apply M.
Qed.

(** The case of [clearCallback] in which the last callback [z] is moved. *)
Lemma clear_middle s m c i l1 t z : inv s -> callbacks s m = l1 ++ c :: t ++ [z] -> length l1 = i -> nth_error (callbacks s m) i = Some c ->
  exists s' l,
    bind (let moved := last (callbacks s m) 0 in
          let s := set_callbacks s m (set_nth (callbacks s m) i moved) in
          bind (getHolder s moved m) (fun g => bind g (fun g => update s g (fun x => set_index x i))))
      (fun s => let s := set_callbacks s m (removelast (callbacks s m)) in bind (destroyHolder s (Some (First c))) (fun s => Some (s, true))) = Some (s', true) /\
    inv s' /\ Permutation (c :: l) (callbacks s m) /\ (forall m', callbacks s' m' = if Nat.eqb m' m then l else callbacks s m').
Proof.
  intros I CS L1 E. pose proof (inv_alone _ I) as A. pose proof (inv_nodup _ I m) as D.
  assert (LZ : last (callbacks s m) 0 = z) by (rewrite CS, app_comm_cons, app_assoc; apply last_last).
  assert (EZ : nth_error (callbacks s m) (length (l1 ++ c :: t)) = Some z).
  { rewrite CS, app_comm_cons, app_assoc, nth_error_app2, Nat.sub_diag by lia. reflexivity. }
  destruct (inv_holder _ I _ _ _ EZ) as [ZM _].
  assert (SN : removelast (set_nth (callbacks s m) i z) = l1 ++ z :: t).
  { destruct (set_nth_split _ _ _ z E) as (k1 & k2 & EK & LK & ->). rewrite CS in EK.
    apply app_inj_length in EK; [|congruence]. destruct EK as [<- EK]. injection EK as <-. now rewrite app_comm_cons, app_assoc, removelast_last. }
  cbv zeta. rewrite LZ, getHolder_inv by apply A. cbn [set_callbacks firstHolder]. rewrite ZM, Nat.eqb_refl. cbn [bind update read].
  rewrite destroy_first. cbn [bind]. eexists. exists (l1 ++ z :: t). split; [reflexivity|].
  assert (NZ : z <> c).
  { intros ->. rewrite CS in D. apply NoDup_remove_2 in D. apply D. apply in_or_app. right. apply in_or_app. right. now left. }
  assert (P : Permutation (c :: l1 ++ z :: t) (callbacks s m)).
  { rewrite CS, <- (Permutation_middle l1 (t ++ [z]) c). apply perm_skip, Permutation_app_head, Permutation_cons_append. }
  set (s' := write _ (First c) _).
  assert (C : forall m', callbacks s' m' = if Nat.eqb m' m then l1 ++ z :: t else callbacks s m').
  { intros m'. cbn. unfold at_. rewrite Nat.eqb_refl, SN. now destruct (Nat.eqb m' m). }
  assert (F : forall x, firstHolder s' x = if Nat.eqb x c then set_multi (firstHolder s c) None
                        else if Nat.eqb x z then set_index (firstHolder s z) i else firstHolder s x).
  { intros x. cbn. unfold at_. destruct (Nat.eqb_spec c z); [congruence|]. reflexivity. }
  clearbody s'. split; [|auto]. assert (D2 : NoDup (c :: l1 ++ z :: t)) by (apply (Permutation_NoDup (Permutation_sym P)), D).
  apply NoDup_cons_iff in D2. destruct D2 as [NC D2].
  apply (inv_leave s s' m c (l1 ++ z :: t)); auto.
  - unfold unused. now rewrite F, Nat.eqb_refl.
  - intros x N. rewrite F. destruct (Nat.eqb_spec x c); [contradiction|]. destruct (Nat.eqb_spec x z) as [->|_]; reflexivity.
  - intros j x J. rewrite F. destruct (Nat.eqb_spec x c) as [->|_]; [destruct NC; eapply nth_error_In; eauto|].
    destruct (Nat.eqb_spec x z) as [->|NX].
    + cbn. symmetry. apply (proj1 (NoDup_nth_error _) D2); [apply nth_error_Some; congruence|]. rewrite J, nth_error_app2, L1, Nat.sub_diag by lia. reflexivity.
    + apply (inv_holder _ I m). rewrite CS. destruct (Nat.lt_ge_cases j (length l1)) as [Y|Y]; [now rewrite nth_error_app1 in * by lia|].
      rewrite nth_error_app2 in * by lia. destruct (j - length l1) as [|k]; cbn in *; [congruence|]. rewrite nth_error_app1; [exact J|]. apply nth_error_Some. congruence.
  - intros x N. rewrite F. assert (N2 : x <> c /\ x <> z) by (split; intros ->; apply N; rewrite CS, in_app_iff; cbn; rewrite in_app_iff; cbn; tauto).
    destruct (Nat.eqb_spec x c), (Nat.eqb_spec x z); tauto.
  - intros x. rewrite F. destruct (Nat.eqb x c); [apply A|]. destruct (Nat.eqb x z); apply A.
Qed.

(** A callback leaves its vector, the last one takes its place. *)
Lemma clearCallback_inv s m c : inv s -> In c (callbacks s m) ->
  exists s' l, clearCallback s m c = Some (s', true) /\ inv s' /\ Permutation (c :: l) (callbacks s m) /\
    (forall m', callbacks s' m' = if Nat.eqb m' m then l else callbacks s m').
Proof.
  intros I X. pose proof (inv_alone _ I) as A. apply In_nth_error in X as Y. destruct Y as [i E]. destruct (inv_holder _ I _ _ _ E) as [HM HI].
  assert (L : i < length (callbacks s m)) by (apply nth_error_Some; congruence).
  unfold clearCallback. rewrite getHolder_inv, HM, Nat.eqb_refl by apply A. cbn [bind read]. rewrite HI, (proj2 (Nat.ltb_lt _ _) L).
  pose proof (inv_nodup _ I m) as D. destruct (nth_error_split _ _ E) as (l1 & l2 & CS & L1).
  destruct (Nat.eqb_spec i (length (callbacks s m) - 1)) as [K|K].
  - assert (l2 = []) as -> by (destruct l2; [reflexivity|]; rewrite CS, length_app in K; cbn in K; lia).
    cbn [bind]. rewrite destroy_first. cbn [bind]. eexists. exists l1. split; [reflexivity|].
    assert (P : Permutation (c :: l1) (callbacks s m)) by (rewrite CS; apply Permutation_cons_append).
    assert (C : forall m', callbacks (write (set_callbacks s m (removelast (callbacks s m))) (First c) (set_multi (firstHolder s c) None)) m' = if Nat.eqb m' m then l1 else callbacks s m').
    { intros m'. cbn. unfold at_. now rewrite CS, removelast_last. }
    split; [|auto]. apply (inv_leave s _ m c l1); auto; cbn; unfold unused, at_; cbn; rewrite ?Nat.eqb_refl; auto.
    + intros x N. destruct (Nat.eqb_spec x c); [contradiction|reflexivity].
    + intros j x J. assert (NX : x <> c) by (intros ->; rewrite CS in D; apply NoDup_remove_2 in D; apply D; rewrite app_nil_r; eapply nth_error_In; eauto).
      destruct (Nat.eqb_spec x c); [contradiction|]. apply (inv_holder _ I m). rewrite CS, nth_error_app1; [exact J|]. apply nth_error_Some. congruence.
    + intros x N. destruct (Nat.eqb_spec x c) as [->|_]; [contradiction|reflexivity].
    + intros x. destruct (Nat.eqb x c); apply A.
  - destruct (exists_last (l := l2)) as (t & z & ->); [intros ->; rewrite CS, length_app in K; cbn in K; lia|].
    apply (clear_middle s m c i l1 t z); auto.
Qed.

Lemma clearCallback_out s m c : inv s -> ~ In c (callbacks s m) -> clearCallback s m c = Some (s, false).
Proof.
  intros I N. unfold clearCallback. rewrite getHolder_inv by apply I. destruct (multiCallback (firstHolder s c)) as [m'|] eqn:E; [|reflexivity].
  destruct (Nat.eqb_spec m' m) as [->|_]; [|reflexivity]. destruct N. now apply (inv_member _ I).
Qed.

(** A turn of [fire]'s loop takes the last callback off. *)
Lemma fire_turn s m l c : inv s -> callbacks s m = l ++ [c] ->
  exists s', fire_pop s m = Some (s', c) /\
    inv s' /\ (forall m', callbacks s' m' = if Nat.eqb m' m then l else callbacks s m').
Proof.
  intros I CS. pose proof (inv_alone _ I) as A. pose proof (inv_nodup _ I m) as D.
  assert (E : nth_error (callbacks s m) (length l) = Some c) by (rewrite CS, nth_error_app2, Nat.sub_diag by lia; reflexivity).
  destruct (inv_holder _ I _ _ _ E) as [HM _].
  unfold fire_pop. rewrite CS, last_last, removelast_last.
  rewrite getHolder_inv by apply A. cbn [set_callbacks firstHolder]. rewrite HM, Nat.eqb_refl. cbn [bind]. rewrite destroy_first. cbn [bind].
  eexists. split; [reflexivity|]. split; [|reflexivity].
  apply (inv_leave s _ m c l); auto; cbn; unfold unused, at_; cbn; rewrite ?Nat.eqb_refl; auto.
  - rewrite CS. apply Permutation_cons_append.
  - intros x N. destruct (Nat.eqb_spec x c); [contradiction|reflexivity].
  - intros j x J. destruct (Nat.eqb_spec x c) as [->|_].
    + rewrite CS in D. apply NoDup_remove_2 in D. rewrite app_nil_r in D. destruct D. eapply nth_error_In; eauto.
    + apply (inv_holder _ I m). rewrite CS, nth_error_app1; [exact J|]. apply nth_error_Some. congruence.
  - intros x N. destruct (Nat.eqb_spec x c) as [->|_]; [|reflexivity]. destruct N. rewrite CS. apply in_or_app. right. now left.
  - intros x. destruct (Nat.eqb x c); apply A.
Qed.

(** [fire] empties the vector and runs its callbacks from the last to the first. *)
Lemma fire_inv canFire s m : inv s ->
  exists s', fire canFire s m = Some (s', filter canFire (rev (callbacks s m))) /\ inv s' /\
    (forall m', callbacks s' m' = if Nat.eqb m' m then [] else callbacks s m').
Proof.
  unfold fire. remember (callbacks s m) as l eqn:CS. revert s CS.
  induction l as [|c l IH] using rev_ind; intros s CS I.
  - exists s. cbn [length fire_loop]. rewrite <- CS. split; [reflexivity|]. split; [exact I|]. intros m'. destruct (Nat.eqb_spec m' m) as [->|_]; auto.
  - destruct (fire_turn s m l c I (eq_sym CS)) as (s1 & E1 & I1 & C1).
    destruct (IH s1) as (s2 & E2 & I2 & C2); [now rewrite C1, Nat.eqb_refl|exact I1|].
    exists s2. rewrite length_app, Nat.add_comm. cbn [length Nat.add fire_loop]. rewrite <- CS, E1. cbn [bind]. rewrite E2. cbn [bind].
    rewrite rev_unit. split; [destruct (l ++ [c]) eqn:Z; [now destruct l|]; cbn [filter]; now destruct (canFire c)|]. split; [exact I2|].
    intros m'. rewrite C2, C1. now destruct (Nat.eqb m' m).
Qed.

(** * Runs of operations *)

Inductive operation := Add (m c : nat) | Clear (m c : nat) | Fire (m : nat).

(** What an operation returns: [clearCallback]'s result and the callbacks run. *)
Definition perform (canFire : nat -> bool) (s : store) (o : operation) : option (store * (bool * list nat)) :=
  match o with
  | Add m c => bind (addCallback s m c) (fun s => Some (s, (true, [])))
  | Clear m c => bind (clearCallback s m c) (fun '(s, r) => Some (s, (r, [])))
  | Fire m => bind (fire canFire s m) (fun '(s, l) => Some (s, (true, l)))
  end.

(** The contract: which multi-callback a callback is in, and what is returned.
    A callback may be added to a multi-callback only when it is in none. *)
Definition membership := nat -> option nat.
Definition is_in (o : option nat) (m : nat) : bool := match o with Some m' => Nat.eqb m' m | None => false end.
Definition allowed (p : membership) (o : operation) : Prop := match o with Add _ c => p c = None | _ => True end.
Definition spec_member (p : membership) (o : operation) : membership :=
  match o with
  | Add m c => at_ p c (Some m)
  | Clear m c => fun x => if Nat.eqb x c && is_in (p c) m then None else p x
  | Fire m => fun x => if is_in (p x) m then None else p x
  end.
Definition spec_result (canFire : nat -> bool) (p : membership) (o : operation) (r : bool * list nat) : Prop :=
  match o with
  | Add m c => r = (true, [])
  | Clear m c => r = (is_in (p c) m, [])
  | Fire m => fst r = true /\ NoDup (snd r) /\ (forall x, In x (snd r) <-> p x = Some m /\ canFire x = true)
  end.

Definition represents (s : store) (p : membership) : Prop := inv s /\ (forall c m, p c = Some m <-> In c (callbacks s m)).

Lemma is_in_true o m : is_in o m = true <-> o = Some m.
Proof. destruct o as [m'|]; cbn; [rewrite Nat.eqb_eq|]; split; congruence. Qed.

Lemma represents_holder s p c : represents s p -> multiCallback (firstHolder s c) = p c.
Proof.
  intros [I R]. destruct (p c) as [m|] eqn:E.
  - apply R, In_nth_error in E. destruct E as [i E]. apply (inv_holder _ I _ _ _ E).
  - destruct (multiCallback (firstHolder s c)) as [m|] eqn:F; [|reflexivity]. apply (inv_member _ I), R in F. congruence.
Qed.

Lemma fresh_represents : represents fresh (fun _ => None).
Proof. split; [apply fresh_inv|]. intros c m. cbn. split; [discriminate|intros []]. Qed.

Lemma add_represents canFire s p m c : represents s p -> p c = None ->
  exists s', perform canFire s (Add m c) = Some (s', (true, [])) /\ represents s' (spec_member p (Add m c)).
Proof.
  intros R E. assert (U : unused s c) by (unfold unused; now rewrite (represents_holder s p)). destruct R as [I R].
  destruct (addCallback_inv s m c I U) as (s' & A & I' & C). exists s'. cbn [perform]. rewrite A. split; [reflexivity|]. split; [exact I'|].
  intros x m'. rewrite C. cbn. unfold at_. destruct (Nat.eqb_spec x c) as [->|N], (Nat.eqb_spec m' m) as [->|M]; rewrite ?in_app_iff; cbn.
  - split; auto.
  - rewrite <- R. split; congruence.
  - rewrite R. split; [auto|]. intros [H|[<-|[]]]; [exact H|contradiction].
  - apply R.
Qed.

Lemma clear_represents canFire s p m c : represents s p ->
  exists s', perform canFire s (Clear m c) = Some (s', (is_in (p c) m, [])) /\ represents s' (spec_member p (Clear m c)).
Proof.
  intros [I R]. cbn [perform spec_member]. destruct (is_in (p c) m) eqn:E.
  - apply is_in_true, R in E. destruct (clearCallback_inv s m c I E) as (s' & l & A & I' & P & C). exists s'. rewrite A.
    split; [reflexivity|]. split; [exact I'|]. intros x m'. rewrite C, andb_true_r.
    assert (D : NoDup (c :: l)) by (apply (Permutation_NoDup (Permutation_sym P)), I). apply NoDup_cons_iff in D. destruct D as [NC _].
    destruct (Nat.eqb_spec x c) as [->|N].
    + split; [discriminate|]. intros H. destruct (Nat.eqb_spec m' m) as [->|M]; [contradiction|]. apply R in H, E. congruence.
    + rewrite R. destruct (Nat.eqb_spec m' m) as [->|M]; [|reflexivity]. split; intros H.
      * apply (Permutation_in _ (Permutation_sym P)) in H. destruct H; [congruence|assumption].
      * apply (Permutation_in _ P). now right.
  - exists s. rewrite clearCallback_out; [|exact I|]. { split; [reflexivity|]. split; [exact I|]. intros x m'. rewrite andb_false_r. apply R. }
    intros X. apply R, is_in_true in X. congruence.
Qed.

Lemma fire_represents canFire s p m : represents s p ->
  exists s' l, perform canFire s (Fire m) = Some (s', (true, l)) /\ represents s' (spec_member p (Fire m)) /\
    NoDup l /\ (forall x, In x l <-> p x = Some m /\ canFire x = true).
Proof.
  intros [I R]. destruct (fire_inv canFire s m I) as (s' & A & I' & C). exists s'. cbn [perform]. rewrite A. eexists. split; [reflexivity|].
  split; [split; [exact I'|]|split].
  - intros x m'. rewrite C. cbn. destruct (is_in (p x) m) eqn:E.
    + apply is_in_true in E. split; [discriminate|]. destruct (Nat.eqb_spec m' m) as [->|M]; [intros []|]. rewrite <- R. congruence.
    + destruct (Nat.eqb_spec m' m) as [->|M]; [|apply R]. split; [|intros []]. intros H. apply is_in_true in H. congruence.
  - apply NoDup_filter, NoDup_rev, I.
  - intros x. rewrite filter_In, <- in_rev, R. reflexivity.
Qed.

(** C23: While every callback is in at most one multi-callback, adding, clearing
    and firing never fail an assertion and never touch a freed holder: a callback
    that is in no multi-callback is added, clearing tells exactly whether the
    callback was in that multi-callback and takes it out, and firing takes every
    callback out of it and runs those that can fire, each once. *)
Theorem multi_callback_correct (canFire : nat -> bool) (s : store) (p : membership) (o : operation) :
  represents s p -> allowed p o ->
  exists s' r, perform canFire s o = Some (s', r) /\ represents s' (spec_member p o) /\ spec_result canFire p o r.
Proof.
  intros R A. destruct o as [m c|m c|m].
  - destruct (add_represents canFire s p m c R A) as (s' & E & R'). exists s'. eexists. split; [exact E|]. split; [exact R'|reflexivity].
  - destruct (clear_represents canFire s p m c R) as (s' & E & R'). exists s'. eexists. split; [exact E|]. split; [exact R'|reflexivity].
  - destruct (fire_represents canFire s p m R) as (s' & l & E & R' & D & F). exists s', (true, l). cbn. auto.
Qed.

Lemma multi_callback_witness :
  exists s' r, perform (fun _ => true) fresh (Add 1 5) = Some (s', r) /\ represents s' (spec_member (fun _ => None) (Add 1 5)) /\ r = (true, []).
Proof. exact (multi_callback_correct (fun _ => true) fresh (fun _ => None) (Add 1 5) fresh_represents eq_refl). Defined.

(** * Callbacks in several multi-callbacks *)

Fixpoint perform_all (s : store) (os : list operation) : option (store * list (bool * list nat)) :=
  match os with
  | [] => Some (s, [])
  | o :: os => bind (perform (fun _ => true) s o) (fun '(s, r) => bind (perform_all s os) (fun '(s, rs) => Some (s, r :: rs)))
  end.
Definition vector_after (m : nat) (os : list operation) : option (list nat) := option_map (fun '(s, _) => callbacks s m) (perform_all fresh os).
Definition results_of (os : list operation) : option (list (bool * list nat)) := option_map snd (perform_all fresh os).

(** The holder of a callback's second multi-callback forgets its index: callback
    1 is in multi-callbacks 10 and 20; clearing it from 20 takes 2 out. *)
Lemma holder_index_lost :
  vector_after 20 [Add 10 1; Add 20 2; Add 20 1; Clear 20 1] = Some [1] /\
  results_of [Add 10 1; Add 20 2; Add 20 1; Clear 20 1; Fire 20] = None.
Proof. split; vm_compute; reflexivity. Qed.

(** A third holder is put in front of the second one, whose back link still
    points at the first holder: destroying the second holder unlinks the third,
    and multi-callback 30 can no longer find the callback it holds. *)
Lemma holder_list_broken :
  option_map (map fst) (results_of [Add 10 1; Add 20 1; Add 30 1; Clear 20 1; Clear 30 1]) = Some [true; true; true; true; false] /\
  vector_after 30 [Add 10 1; Add 20 1; Add 30 1; Clear 20 1; Clear 30 1] = Some [1] /\
  results_of [Add 10 1; Add 20 1; Add 30 1; Clear 20 1; Fire 30] = None.
Proof. repeat split; vm_compute; reflexivity. Qed.
