(* ===== verification/ThreadSav.v ===== *)
(** flow/include/flow/ThreadHelper.h: ThreadSingleAssignmentVar, the promise that
    threads share.

    Every section under the variable's lock is one step; a callback is run after
    the lock was left, so what is still to be run is kept as a frame and a turn
    of any frame may come between any two steps.  Frames belong to no particular
    thread: a callback that uses the variable it is called from is a run in which
    the frame's next turn comes later.  [None] is a failed UNSTOPPABLE_ASSERT.
    What canFire answers is part of the step.  The counting of references to the
    variable is not kept, nor is the overflow of the count of taken values. *)

From Stdlib Require Import List Bool Lia PeanoNat ZArith Permutation.
From S2P Require Import Prelude ThreadCallbacks.
Import ListNotations.

Inductive Status := Unset | NeverSet | Set_ | ErrorSet.
Inductive callback_ptr := NoCallback | Single (c : nat) | Multi (m : nat).
(** How a callback is called: [fire], or [error] with a code. *)
Inductive outcome := Fired | Failed (code : Z).

Definition invalid_error_code : Z := 65535.
Definition future_released : Z := 1102.
Definition future_not_set : Z := 2015.

Record tsav := mkTsav {
  status : Status; error : Z; callback : callback_ptr; valueReferenceCount : Z; value : Z; holders : store
}.
Definition new_tsav : tsav := mkTsav Unset invalid_error_code NoCallback 0 0 fresh.

Definition isReadyUnsafe (v : tsav) : bool := match status v with Set_ | ErrorSet => true | _ => false end.
Definition isErrorUnsafe (v : tsav) : bool := match status v with ErrorSet => true | _ => false end.
Definition canBeSetUnsafe (v : tsav) : bool := match status v with Unset => true | _ => false end.

(** The call of [func] that send and trySendError make after the lock, the loop
    of a multi-callback, and the call callOrSetAsCallback makes. *)
Inductive frame := Deliver (c : nat) (o : outcome) | DeliverAll (m : nat) (o : outcome) | CallNow (c : nat).

Inductive event :=
  | Sent (o : outcome) | SendRefused
  | Registered (c : nat) | Ran (c : nat) (o : outcome) | Skipped (c : nat) | Cleared (c : nat)
  | RanNow (c : nat) (o : outcome) | CannotFire (c : nat) | NotCleared (c : nat)
  | Got (v : Z) | Threw (code : Z) | Released.

(** One variable with its callbacks, the calls that have left its lock and what
    was seen.  A callback registered with two variables at once is the subject of
    [ThreadCallbacks], where its holders are shown to break. *)
Record state := mkState { sav : tsav; frames : list frame; log : list event }.
Definition start : state := mkState new_tsav [] [].

Definition set_callback (v : tsav) (p : callback_ptr) (h : store) : tsav :=
  mkTsav (status v) (error v) p (valueReferenceCount v) (value v) h.
Definition note (s : state) (e : event) : state := mkState (sav s) (frames s) (e :: log s).
Definition put (s : state) (v : tsav) : state := mkState v (frames s) (log s).
Definition push (s : state) (f : frame) : state := mkState (sav s) (f :: frames s) (log s).

(** What send and trySendError do with [callback] before they leave the lock. *)
Definition notify (s : state) (o : outcome) (canFire : bool) : state :=
  match callback (sav s) with
  | NoCallback => s
  | Single c =>
      let s := put s (set_callback (sav s) NoCallback (holders (sav s))) in
      if canFire then push s (Deliver c o) else note s (Skipped c)
  | Multi m => push s (DeliverAll m o)
  end.

Definition send (s : state) (x : Z) (canFire : bool) : state :=
  let v := sav s in
  if canBeSetUnsafe v then
    notify (note (put s (mkTsav Set_ (error v) (callback v) (valueReferenceCount v) x (holders v))) (Sent Fired)) Fired canFire
  else note s SendRefused.
Definition trySendError (s : state) (err : Z) (canFire : bool) : state :=
  let v := sav s in
  if canBeSetUnsafe v then
    notify (note (put s (mkTsav ErrorSet err (callback v) (valueReferenceCount v) (value v) (holders v))) (Sent (Failed err))) (Failed err) canFire
  else note s SendRefused.
Definition sendNever (s : state) : state :=
  let v := sav s in
  if canBeSetUnsafe v then put s (mkTsav NeverSet (error v) (callback v) (valueReferenceCount v) (value v) (holders v))
  else note s SendRefused.

Definition callOrSetAsCallback (s : state) (c : nat) (canFire : bool) : option state :=
  let v := sav s in
  if isReadyUnsafe v then Some (if canFire then push s (CallNow c) else note s (CannotFire c))
  else
    bind (match callback v with
          | NoCallback => Some (Single c, holders v)
          | Single this => bind (addCallback_single (holders v) 0 this c) (fun h => Some (Multi 0, h))
          | Multi m => bind (addCallback (holders v) m c) (fun h => Some (Multi m, h))
          end)
      (fun '(p, h) => Some (note (put s (set_callback v p h)) (Registered c))).

Definition clearCallback (s : state) (c : nat) : option state :=
  let v := sav s in
  if isReadyUnsafe v then Some (note s (NotCleared c))
  else
    match callback v with
    | NoCallback => Some (note s (NotCleared c))
    | Single this =>
        if Nat.eqb this c then Some (note (put s (set_callback v NoCallback (holders v))) (Cleared c)) else Some (note s (NotCleared c))
    | Multi m =>
        bind (ThreadCallbacks.clearCallback (holders v) m c) (fun '(h, cleared) =>
        Some (note (put s (set_callback v (Multi m) h)) (if cleared then Cleared c else NotCleared c)))
    end.

Definition tsav_get (s : state) : state :=
  let v := sav s in
  if negb (isReadyUnsafe v) then note s (Threw future_not_set)
  else if isErrorUnsafe v then note s (Threw (error v))
  else note (put s (mkTsav (status v) (error v) (callback v) (valueReferenceCount v + 1) (value v) (holders v))) (Got (value v)).

Definition cleanupUnsafe (v : tsav) : tsav :=
  mkTsav ErrorSet (if isErrorUnsafe v then error v else future_released) (callback v) 0 0 (holders v).
Definition releaseMemory (s : state) : state :=
  let v := sav s in
  let v := mkTsav (status v) (error v) (callback v) (valueReferenceCount v - 1) (value v) (holders v) in
  if (valueReferenceCount v =? 0)%Z then note (put s (cleanupUnsafe v)) Released else put s v.

(** One turn of a frame; the frame is taken off when it is done. *)
Definition turn (s : state) (i : nat) (canFire : bool) : option state :=
  let done := mkState (sav s) (firstn i (frames s) ++ skipn (S i) (frames s)) (log s) in
  match nth_error (frames s) i with
  | None => Some s
  | Some (Deliver c o) => Some (note done (Ran c o))
  | Some (CallNow c) => Some (note done (RanNow c (if isErrorUnsafe (sav s) then Failed (error (sav s)) else Fired)))
  | Some (DeliverAll m o) =>
      let v := sav s in
      match callbacks (holders v) m with
      | [] => Some done
      | _ => bind (fire_pop (holders v) m) (fun '(h, c) => Some (note (put s (set_callback v (callback v) h)) (if canFire then Ran c o else Skipped c)))
      end
  end.

Inductive action :=
  | Send (x : Z) (canFire : bool) | TrySendError (err : Z) (canFire : bool) | SendNever
  | CallOrSet (c : nat) (canFire : bool) | Clear (c : nat) | Get | Release | Turn (i : nat) (canFire : bool).

Definition step (s : state) (a : action) : option state :=
  match a with
  | Send x b => Some (send s x b)
  | TrySendError e b => Some (trySendError s e b)
  | SendNever => Some (sendNever s)
  | CallOrSet c b => callOrSetAsCallback s c b
  | Clear c => clearCallback s c
  | Get => Some (tsav_get s)
  | Release => Some (releaseMemory s)
  | Turn i b => turn s i b
  end.

Inductive reachable : state -> Prop :=
  | reach_start : reachable start
  | reach_step s a s' : reachable s -> step s a = Some s' -> reachable s'.

(** The destructor: [None] where a destroy() asserts. *)
Definition destructor (v : tsav) : option unit :=
  match callback v with
  | NoCallback => Some tt
  | Single _ => None
  | Multi m => match callbacks (holders v) m with [] => Some tt | _ => None end
  end.

(** * What waits *)

Definition held (v : tsav) : list nat :=
  match callback v with NoCallback => [] | Single c => [c] | Multi m => callbacks (holders v) m end.
Definition to_run (f : frame) : list nat := match f with Deliver c _ => [c] | _ => [] end.
(** The callbacks that were registered and are still waiting or about to be run. *)
Definition waiting (s : state) : list nat := held (sav s) ++ flat_map to_run (frames s).

Definition registered (c : nat) (e : event) : bool := match e with Registered x => Nat.eqb x c | _ => false end.
Definition ended (c : nat) (e : event) : bool := match e with Ran x _ | Skipped x | Cleared x => Nat.eqb x c | _ => false end.
Definition times (f : event -> bool) (l : list event) : nat := length (filter f l).
Definition is_sent (e : event) : bool := match e with Sent _ => true | _ => false end.
Definition sends (f : frame) : bool := match f with CallNow _ => false | _ => true end.

(** * The invariant *)

Definition store_ok (v : tsav) : Prop :=
  inv (holders v) /\ (forall m, m <> 0 -> callbacks (holders v) m = []) /\
  match callback v with Multi m => m = 0 | _ => callbacks (holders v) 0 = [] end.

Definition counted (s : state) : Prop :=
  forall c, times (registered c) (log s) = times (ended c) (log s) + count_occ Nat.eq_dec (waiting s) c.

(** Before the variable is set nothing is to be run; afterwards one send at most
    runs callbacks, and if some are still held it is running them. *)
Definition phase_ok (s : state) : Prop :=
  let v := sav s in
  if isReadyUnsafe v then
    times is_sent (log s) = 1 /\ length (filter sends (frames s)) <= 1 /\ (forall c, callback v <> Single c) /\
    (held v <> [] -> exists m o, In (DeliverAll m o) (frames s))
  else times is_sent (log s) = 0 /\ filter sends (frames s) = [] /\ (valueReferenceCount v <= 0)%Z.

Definition frame_ok (s : state) (f : frame) : Prop :=
  match f with
  | Deliver _ o => In (Sent o) (log s)
  | DeliverAll m o => In (Sent o) (log s) /\ callback (sav s) = Multi m
  | CallNow _ => isReadyUnsafe (sav s) = true
  end.
Definition event_ok (s : state) (e : event) : Prop :=
  match e with
  | Ran _ o => In (Sent o) (log s)
  | RanNow _ o => In (Sent o) (log s) \/ (In Released (log s) /\ o = Failed future_released)
  | _ => True
  end.
Definition status_ok (s : state) : Prop :=
  match status (sav s) with
  | Set_ => In (Sent Fired) (log s)
  | ErrorSet => In (Sent (Failed (error (sav s)))) (log s) \/ (In Released (log s) /\ error (sav s) = future_released)
  | _ => True
  end.

Record Inv (s : state) : Prop := {
  I_store : store_ok (sav s);
  I_count : counted s;
  I_phase : phase_ok s;
  I_frames : Forall (frame_ok s) (frames s);
  I_events : Forall (event_ok s) (log s);
  I_status : status_ok s
}.

Lemma times_cons f e l : times f (e :: l) = (if f e then 1 else 0) + times f l.
Proof. unfold times. cbn. now destruct (f e). Qed.

Lemma count_cons x l c : count_occ Nat.eq_dec (x :: l) c = (if Nat.eqb x c then 1 else 0) + count_occ Nat.eq_dec l c.
Proof. cbn. destruct (Nat.eq_dec x c) as [->|N]; [now rewrite Nat.eqb_refl|]. now rewrite (proj2 (Nat.eqb_neq _ _) N). Qed.

Lemma start_inv : Inv start.
Proof.
  constructor; cbn; auto.
  - split; [apply fresh_inv|]. split; reflexivity.
  - intros c. reflexivity.
  - unfold phase_ok. cbn. repeat split; auto with zarith.
Qed.

(** Events that neither register, end nor send anything. *)
Definition quiet (e : event) : bool := match e with SendRefused | CannotFire _ | NotCleared _ | Got _ | Threw _ | Released => true | _ => false end.

Lemma quiet_counts e c : quiet e = true -> registered c e = false /\ ended c e = false /\ is_sent e = false.
Proof. destruct e; cbn; intros; try discriminate; auto. Qed.

Lemma frame_ok_more s f e : frame_ok s f -> frame_ok (note s e) f.
Proof. destruct f; cbn; tauto. Qed.
Lemma event_ok_more s x e : event_ok s x -> event_ok (note s e) x.
Proof. destruct x; cbn; tauto. Qed.
Lemma status_ok_more s e : status_ok s -> status_ok (note s e).
Proof. unfold status_ok. cbn. destruct (status (sav s)); tauto. Qed.

Lemma Forall_more {A} (P Q : A -> Prop) l : (forall x, P x -> Q x) -> Forall P l -> Forall Q l.
Proof. intros H. apply Forall_impl, H. Qed.

Lemma note_quiet s e : Inv s -> quiet e = true -> Inv (note s e).
Proof.
  intros [A B C D E F] Q. constructor; auto.
  - intros c. cbn [note log]. rewrite !times_cons. destruct (quiet_counts e c Q) as (-> & -> & _). apply B.
  - unfold phase_ok in *. cbn [note sav log frames]. rewrite times_cons. destruct (quiet_counts e 0 Q) as (_ & _ & ->). exact C.
  - apply (Forall_more (frame_ok s)); [intros f; apply frame_ok_more|exact D].
  - constructor; [now destruct e|]. apply (Forall_more (event_ok s)); [intros f; apply event_ok_more|exact E].
  - now apply status_ok_more.
Qed.

(** The held callbacks change by [e] while nothing is to be run. *)
Lemma hold_change s p h e : Inv s -> isReadyUnsafe (sav s) = false ->
  store_ok (set_callback (sav s) p h) ->
  (match e with Registered _ | Cleared _ => True | _ => False end) ->
  (forall c, (if registered c e then 1 else 0) + count_occ Nat.eq_dec (held (sav s)) c =
             (if ended c e then 1 else 0) + count_occ Nat.eq_dec (held (set_callback (sav s) p h)) c) ->
  Inv (note (put s (set_callback (sav s) p h)) e).
Proof.
  intros [A B C D E F] R S T K. constructor; auto.
  - intros c. cbn [note put log]. rewrite !times_cons. specialize (B c). specialize (K c). unfold waiting in *. cbn [note put sav frames].
    rewrite count_occ_app in *. lia.
  - unfold phase_ok in *. cbn [note put sav log frames]. change (isReadyUnsafe (set_callback (sav s) p h)) with (isReadyUnsafe (sav s)). rewrite R in *.
    rewrite times_cons. cbn. now destruct e.
  - unfold phase_ok in C. rewrite R in C. destruct C as (_ & C & _). apply Forall_forall. intros f I. pose proof (proj1 (Forall_forall _ _) D f I) as W.
    destruct f; cbn in *; auto. exfalso. enough (X : In (DeliverAll m o) (filter sends (frames s))) by (rewrite C in X; destruct X). apply filter_In. auto.
  - constructor; [now destruct e|]. apply (Forall_more (event_ok s)); [intros x; destruct x; cbn; tauto|exact E].
  - unfold status_ok in *. cbn. destruct (status (sav s)); tauto.
Qed.

Lemma isReady_status v : isReadyUnsafe v = false <-> status v = Unset \/ status v = NeverSet.
Proof. unfold isReadyUnsafe. destruct (status v); split; intros H; try discriminate; auto; destruct H; discriminate. Qed.

(** ThreadCallbacks' operations on the one multi-callback of the variable. *)
Lemma store_add v h m c : inv (holders v) -> (forall m, m <> 0 -> callbacks (holders v) m = []) -> m = 0 ->
  inv h -> (forall m', callbacks h m' = if Nat.eqb m' m then c else callbacks (holders v) m') ->
  store_ok (set_callback v (Multi m) h).
Proof.
  intros I O -> I' C. split; [exact I'|]. split; [|reflexivity]. intros m N. cbn. rewrite C. destruct (Nat.eqb_spec m 0); [contradiction|]. auto.
Qed.

Lemma unused_held v c : inv (holders v) -> (forall m, m <> 0 -> callbacks (holders v) m = []) -> ~ In c (callbacks (holders v) 0) -> unused (holders v) c.
Proof.
  intros I O N. unfold unused. destruct (multiCallback (firstHolder (holders v) c)) as [m|] eqn:E; [|reflexivity].
  apply (inv_member _ I) in E. destruct (Nat.eq_dec m 0) as [->|M]; [contradiction|]. rewrite O in E by exact M. destruct E.
Qed.

Lemma add_twice h m c : inv h -> In c (callbacks h m) -> addCallback h m c = None.
Proof.
  intros I X. apply In_nth_error in X. destruct X as [i X]. destruct (inv_holder _ I _ _ _ X) as [M _].
  unfold addCallback. rewrite getHolder_inv, M, Nat.eqb_refl by apply I. reflexivity.
Qed.

(** Emptying an empty vector changes nothing. *)
Lemma inv_set_nil h : inv h -> callbacks h 0 = [] -> inv (set_callbacks h 0 []) /\ (forall m, callbacks (set_callbacks h 0 []) m = callbacks h m).
Proof.
  intros I Z. assert (C : forall m, callbacks (set_callbacks h 0 []) m = callbacks h m).
  { intros m. cbn. unfold at_. destruct (Nat.eqb_spec m 0) as [->|_]; auto. }
  split; [|exact C]. destruct I as [A B D E]. constructor; auto.
  - intros m. rewrite C. apply A.
  - intros m i c. rewrite C. apply B.
  - intros c m. rewrite C. apply D.
Qed.

Lemma push_now s c : Inv s -> isReadyUnsafe (sav s) = true -> Inv (push s (CallNow c)).
Proof.
  intros [A B C D E F] R. constructor; auto; [|now constructor]. unfold phase_ok in *. cbn [push sav log frames filter sends]. rewrite R in *.
  destruct C as (C1 & C2 & C3 & C4). repeat split; auto. intros H. destruct (C4 H) as (m & o & X). exists m, o. now right.
Qed.

(** A callback that is not held yet joins [held]. *)
Lemma add_held v c : store_ok v -> ~ In c (held v) ->
  exists p h, match callback v with
      | NoCallback => Some (Single c, holders v)
      | Single this => bind (addCallback_single (holders v) 0 this c) (fun h => Some (Multi 0, h))
      | Multi m => bind (addCallback (holders v) m c) (fun h => Some (Multi m, h))
      end = Some (p, h) /\ store_ok (set_callback v p h) /\ held (set_callback v p h) = held v ++ [c].
Proof.
  intros (I & O & M) N. unfold held in N |- *. destruct (callback v) as [|t|m] eqn:CB.
  - exists (Single c), (holders v). split; [reflexivity|]. split; [|reflexivity]. split; [exact I|]. split; [exact O|exact M].
  - destruct (inv_set_nil _ I M) as [I0 C0]. unfold addCallback_single.
    assert (UN : forall x, unused (set_callbacks (holders v) 0 []) x) by (intros x; apply (unused_held v x I O); rewrite M; intros []).
    destruct (addCallback_inv _ 0 t I0 (UN t)) as (h1 & A1 & I1 & C1). rewrite A1. cbn [bind].
    assert (L1 : callbacks h1 0 = [t]) by (rewrite C1, C0, M; reflexivity).
    assert (O1 : forall m, m <> 0 -> callbacks h1 m = []) by (intros m X; rewrite C1, !C0; destruct (Nat.eqb_spec m 0); auto; contradiction).
    assert (U1 : unused h1 c) by (apply (unused_held (set_callback v NoCallback h1) c I1 O1); cbn [set_callback holders]; rewrite L1; exact N).
    destruct (addCallback_inv _ 0 c I1 U1) as (h2 & A2 & I2 & C2). rewrite A2. exists (Multi 0), h2. split; [reflexivity|]. split.
    + apply (store_add (set_callback v NoCallback h1) h2 0 (callbacks h1 0 ++ [c]) I1 O1 eq_refl I2). intros m'. apply C2.
    + cbn [set_callback callback holders]. rewrite C2, L1. reflexivity.
  - subst m. assert (U : unused (holders v) c) by (apply unused_held; auto).
    destruct (addCallback_inv _ 0 c I U) as (h & A & I' & C). rewrite A. exists (Multi 0), h. split; [reflexivity|]. split.
    + apply (store_add v h 0 _ I O eq_refl I' C).
    + cbn [set_callback callback holders]. rewrite C. reflexivity.
Qed.

Lemma add_held_twice v c : store_ok v -> In c (held v) ->
  match callback v with
  | NoCallback => Some (Single c, holders v)
  | Single this => bind (addCallback_single (holders v) 0 this c) (fun h => Some (Multi 0, h))
  | Multi m => bind (addCallback (holders v) m c) (fun h => Some (Multi m, h))
  end = None.
Proof.
  intros (I & O & M) H. unfold held in H. destruct (callback v) as [|t|m] eqn:CB; [destruct H| |].
  - destruct H as [->|[]]. destruct (inv_set_nil _ I M) as [I0 C0]. unfold addCallback_single.
    assert (U : unused (set_callbacks (holders v) 0 []) c) by (apply (unused_held v c I O); rewrite M; intros []).
    destruct (addCallback_inv _ 0 c I0 U) as (h1 & A1 & I1 & C1). rewrite A1. cbn [bind]. rewrite add_twice; [reflexivity|exact I1|].
    rewrite C1, C0, M. now left.
  - now rewrite add_twice.
Qed.

Lemma callOrSet_inv s c b : Inv s -> isReadyUnsafe (sav s) = true \/ ~ In c (held (sav s)) ->
  exists s', callOrSetAsCallback s c b = Some s' /\ Inv s'.
Proof.
  intros I H. unfold callOrSetAsCallback. destruct (isReadyUnsafe (sav s)) eqn:R.
  - destruct b; eexists; (split; [reflexivity|]); [now apply push_now|now apply note_quiet].
  - destruct H as [H|N]; [discriminate|]. destruct (add_held (sav s) c (I_store _ I) N) as (p & h & -> & S & H). cbn [bind].
    eexists. split; [reflexivity|]. apply hold_change; auto.
    intros x. rewrite H, count_occ_app, count_cons. cbn [count_occ registered ended]. lia.
Qed.

Lemma callOrSet_twice s c b : Inv s -> isReadyUnsafe (sav s) = false -> In c (held (sav s)) -> callOrSetAsCallback s c b = None.
Proof. intros I R H. unfold callOrSetAsCallback. now rewrite R, (add_held_twice _ _ (I_store _ I) H). Qed.

Lemma clear_inv s c : Inv s -> exists s', clearCallback s c = Some s' /\ Inv s'.
Proof.
  intros I. unfold clearCallback. destruct (isReadyUnsafe (sav s)) eqn:R; [eexists; split; [reflexivity|now apply note_quiet]|].
  destruct (I_store _ I) as (SI & O & M). destruct (callback (sav s)) as [|t|m] eqn:CB.
  - eexists. split; [reflexivity|]. now apply note_quiet.
  - destruct (Nat.eqb_spec t c) as [->|N]; eexists; (split; [reflexivity|]); [|now apply note_quiet]. apply hold_change; auto.
    + split; [exact SI|]. split; [exact O|exact M].
    + intros x. unfold held. rewrite CB. cbn [set_callback callback]. rewrite count_cons. cbn [count_occ registered ended]. lia.
  - subst m. destruct (in_dec Nat.eq_dec c (callbacks (holders (sav s)) 0)) as [X|X].
    + destruct (clearCallback_inv _ 0 c SI X) as (h & l & -> & I' & P & C). cbn [bind]. eexists. split; [reflexivity|].
      apply hold_change; auto.
      * apply (store_add (sav s) h 0 l SI O eq_refl I' C).
      * intros x. unfold held. rewrite CB. cbn [set_callback callback holders]. rewrite C. cbn [Nat.eqb].
        rewrite <- (proj1 (Permutation_count_occ Nat.eq_dec _ _) P x), count_cons. cbn [registered ended]. lia.
    + rewrite clearCallback_out by assumption. cbn [bind]. eexists. split; [reflexivity|].
      replace (put s (set_callback (sav s) (Multi 0) (holders (sav s)))) with s; [now apply note_quiet|].
      destruct s as [v f l]. destruct v. cbn in *. now rewrite CB.
Qed.

(** The variable is set: [v] has the new status, the callbacks are to be run. *)
Lemma set_inv s v o b : Inv s -> status (sav s) = Unset -> callback v = callback (sav s) -> holders v = holders (sav s) ->
  isReadyUnsafe v = true -> (match status v with Set_ => o = Fired | _ => o = Failed (error v) end) ->
  Inv (notify (note (put s v) (Sent o)) o b).
Proof.
  intros [A B C D E F] ST CB HO R OS. assert (R0 : isReadyUnsafe (sav s) = false) by (unfold isReadyUnsafe; now rewrite ST).
  unfold phase_ok in C. rewrite R0 in C. destruct C as (C1 & C2 & _).
  assert (NF : forall f, In f (frames s) -> exists c, f = CallNow c).
  { intros f I. assert (X : ~ In f (filter sends (frames s))) by (rewrite C2; intros []). rewrite filter_In in X. destruct f; cbn in X; try (destruct X; now split). eauto. }
  assert (FE : frames s = []).
  { destruct (frames s) as [|f l]; [reflexivity|]. destruct (NF f) as [c ->]; [now left|]. apply Forall_inv in D. cbn in D. congruence. }
  clear NF. destruct s as [v0 fs l]. cbn [sav frames log] in *. subst fs.
  assert (TS : status_ok (mkState v [] (Sent o :: l))).
  { unfold status_ok. cbn. unfold isReadyUnsafe in R. destruct (status v); try discriminate; subst o; auto. }
  assert (EV : forall v' l', Forall (event_ok (mkState v' l' (Sent o :: l))) l).
  { intros v' l'. apply (Forall_more (event_ok (mkState v0 [] l))); [intros x; destruct x; cbn; tauto|exact E]. }
  unfold counted, waiting, held in B. cbn [sav frames log flat_map] in B. unfold notify, note, put, push. cbn [sav frames log]. rewrite CB.
  destruct A as (A1 & A2 & A3). destruct (callback v0) as [|c|m] eqn:K; [|destruct b|].
  all: constructor; cbn [sav log frames set_callback callback holders] in *.
  all: try exact TS; try (constructor; [exact Logic.I|apply EV]); try apply Forall_nil.
  - unfold store_ok. rewrite HO, CB. auto.
  - intros x. unfold waiting, held. cbn [sav frames log flat_map]. rewrite !times_cons, CB. apply B.
  - unfold phase_ok, held. cbn [sav frames log]. rewrite R, times_cons, C1, CB. repeat split; auto; try discriminate. intros []; reflexivity.
  - unfold store_ok. cbn. rewrite HO. auto.
  - intros x. unfold waiting, held. cbn [sav frames log flat_map set_callback callback to_run]. rewrite !times_cons. apply B.
  - unfold phase_ok, held. cbn [sav frames log]. change (isReadyUnsafe (set_callback v NoCallback (holders v))) with (isReadyUnsafe v). rewrite R, times_cons, C1.
    repeat split; auto; try discriminate. intros []; reflexivity.
  - repeat constructor.
  - unfold store_ok. cbn. rewrite HO. auto.
  - intros x. unfold waiting, held. specialize (B x). rewrite app_nil_r, count_cons in B. cbn [sav frames log flat_map set_callback callback to_run registered ended].
    rewrite !times_cons. cbn in *. lia.
  - unfold phase_ok, held. cbn [sav frames log]. change (isReadyUnsafe (set_callback v NoCallback (holders v))) with (isReadyUnsafe v). rewrite R, !times_cons, C1.
    repeat split; auto; try discriminate. intros []; reflexivity.
  - constructor; [exact Logic.I|]. constructor; [exact Logic.I|].
    apply (Forall_more (event_ok (mkState v0 [] l))); [intros x; destruct x; cbn; tauto|exact E].
  - apply (status_ok_more _ (Skipped c)) in TS. exact TS.
  - unfold store_ok. rewrite HO, CB. auto.
  - intros x. unfold waiting, held. cbn [sav frames log flat_map to_run]. rewrite !times_cons, CB, HO. apply B.
  - unfold phase_ok, held. cbn [sav frames log]. rewrite R, times_cons, C1, CB. repeat split; auto; try discriminate. intros _. exists m, o. now left.
  - repeat constructor. cbn. exact CB.
Qed.

(** The value, its count and the status change, the callbacks do not. *)
Lemma value_change s v : Inv s -> callback v = callback (sav s) -> holders v = holders (sav s) ->
  isReadyUnsafe v = isReadyUnsafe (sav s) -> (isReadyUnsafe v = false -> (valueReferenceCount v <= 0)%Z) -> status_ok (put s v) -> Inv (put s v).
Proof.
  intros [A B C D E F] CB HO R Z T. assert (HE : held v = held (sav s)) by (unfold held; now rewrite CB, HO). constructor; auto.
  - unfold store_ok in *. cbn [put sav]. now rewrite CB, HO.
  - intros c. unfold waiting. cbn [put sav frames log]. rewrite HE. apply B.
  - unfold phase_ok in *. cbn [put sav frames log]. rewrite R in *. destruct (isReadyUnsafe (sav s)); [now rewrite HE, CB|]. destruct C as (C1 & C2 & _). auto.
  - apply (Forall_more (frame_ok s)); [|exact D]. intros f. destruct f; cbn; rewrite ?CB, ?R; auto.
Qed.

Lemma send_inv s x b : Inv s -> Inv (send s x b).
Proof.
  intros I. unfold send, canBeSetUnsafe. destruct (status (sav s)) eqn:S; try now apply note_quiet. apply set_inv; auto; reflexivity.
Qed.
Lemma trySendError_inv s e b : Inv s -> Inv (trySendError s e b).
Proof.
  intros I. unfold trySendError, canBeSetUnsafe. destruct (status (sav s)) eqn:S; try now apply note_quiet. apply set_inv; auto; reflexivity.
Qed.
Lemma sendNever_inv s : Inv s -> Inv (sendNever s).
Proof.
  intros I. unfold sendNever, canBeSetUnsafe. destruct (status (sav s)) eqn:S; try now apply note_quiet.
  assert (R : isReadyUnsafe (sav s) = false) by (apply isReady_status; auto).
  apply value_change; auto; [|exact Logic.I]. intros _. cbn. pose proof (I_phase _ I) as P. unfold phase_ok in P. rewrite R in P. tauto.
Qed.

Lemma get_inv s : Inv s -> Inv (tsav_get s).
Proof.
  intros I. unfold tsav_get. destruct (isReadyUnsafe (sav s)) eqn:R; cbn [negb]; [|now apply note_quiet].
  destruct (isErrorUnsafe (sav s)); [now apply note_quiet|]. apply note_quiet; [|reflexivity].
  apply value_change; auto; [unfold isReadyUnsafe in *; cbn; intros Q; congruence|]. apply I.
Qed.

Lemma release_inv s : Inv s -> Inv (releaseMemory s).
Proof.
  intros I. unfold releaseMemory. cbn [valueReferenceCount]. pose proof (I_phase _ I) as P. unfold phase_ok in P.
  destruct (Z.eqb_spec (valueReferenceCount (sav s) - 1) 0) as [Z|Z].
  - destruct (isReadyUnsafe (sav s)) eqn:R; [|lia].
    change (note (put s ?v) ?e) with (put (note s e) v). apply value_change; cbn; auto; [now apply note_quiet|congruence|].
    pose proof (I_status _ I) as T. unfold status_ok in *. cbn. unfold isErrorUnsafe. cbn. destruct (status (sav s)) eqn:S; try (right; now split; [left|]).
    destruct T as [T|[T1 T2]]; auto.
  - apply value_change; cbn; auto; [|apply I]. unfold isReadyUnsafe in *. cbn. intros R. rewrite R in P. lia.
Qed.

Lemma done_split {A} (l : list A) i f : nth_error l i = Some f -> exists l1 l2, l = l1 ++ f :: l2 /\ firstn i l ++ skipn (S i) l = l1 ++ l2.
Proof.
  intros E. destruct (nth_error_split _ _ E) as (l1 & l2 & -> & <-). exists l1, l2. split; [reflexivity|].
  rewrite firstn_app, firstn_all, Nat.sub_diag, skipn_app, skipn_all2 by lia. replace (S (length l1) - length l1) with 1 by lia. cbn. now rewrite app_nil_r.
Qed.

Lemma in_middle {A} (x f : A) l1 l2 : In x (l1 ++ l2) -> In x (l1 ++ f :: l2).
Proof. rewrite !in_app_iff. cbn. tauto. Qed.

(** A frame ends with event [e], which says what became of its callback. *)
Lemma frame_done s l1 f l2 e : Inv s -> frames s = l1 ++ f :: l2 ->
  (match f with
   | Deliver c o => e = Ran c o
   | CallNow c => exists o, e = RanNow c o /\ event_ok s e
   | DeliverAll _ _ => False end) -> Inv (note (mkState (sav s) (l1 ++ l2) (log s)) e).
Proof.
  intros [A B C D E F] FS H. assert (NS : is_sent e = false) by (destruct f; [now subst|destruct H|destruct H as (o & -> & _); reflexivity]). constructor; auto.
  - intros c. specialize (B c). unfold waiting in *. cbn [note sav frames log]. rewrite !times_cons. rewrite FS, flat_map_app in B. cbn [flat_map] in B.
    rewrite flat_map_app, !count_occ_app in *. destruct f as [x o|m o|x]; [subst e|destruct H|destruct H as (o & -> & _)]; cbn [to_run registered ended] in *.
    + change (count_occ Nat.eq_dec [x] c) with (count_occ Nat.eq_dec (x :: []) c) in B. rewrite count_cons in B. cbn in B. lia.
    + cbn in B. lia.
  - unfold phase_ok in *. cbn [note sav frames log]. rewrite times_cons, NS, FS in *. rewrite filter_app in *. cbn [filter] in C.
    destruct (isReadyUnsafe (sav s)).
    + destruct C as (C1 & C2 & C3 & C4). split; [exact C1|]. split; [|split; [exact C3|]].
      * rewrite length_app in *. destruct (sends f); cbn in C2; lia.
      * intros HE. destruct (C4 HE) as (m & o & X). exists m, o. rewrite in_app_iff in *. cbn in X. destruct X as [X|[->|X]]; auto; destruct H.
    + destruct C as (C1 & C2 & C3). apply app_eq_nil in C2. destruct C2 as [C2 C4]. destruct (sends f); [discriminate|]. rewrite C2, C4. auto.
  - apply Forall_forall. intros g G. apply (frame_ok_more s), (proj1 (Forall_forall _ _) D). rewrite FS. now apply in_middle.
  - assert (FO : frame_ok s f) by (apply (proj1 (Forall_forall _ _) D); rewrite FS; apply in_or_app; right; now left).
    constructor; [|apply (Forall_more (event_ok s)); [intros x; apply (event_ok_more s x e)|exact E]].
    destruct f as [c o|m o|c]; [subst e|destruct H|destruct H as (o & -> & H)]; cbn in *; [now right|]. destruct H as [H|[H1 H2]]; [left|right; split]; auto.
  - apply (status_ok_more s). exact F.
Qed.

Lemma frame_done_loop s l1 m o l2 : Inv s -> frames s = l1 ++ DeliverAll m o :: l2 -> callbacks (holders (sav s)) m = [] ->
  Inv (mkState (sav s) (l1 ++ l2) (log s)).
Proof.
  intros [A B C D E F] FS H.
  assert (FO : frame_ok s (DeliverAll m o)) by (apply (proj1 (Forall_forall _ _) D); rewrite FS; apply in_or_app; right; now left). destruct FO as [_ CB].
  assert (HE : held (sav s) = []) by (unfold held; now rewrite CB). constructor; auto.
  - intros c. specialize (B c). unfold waiting in *. cbn [sav frames log]. rewrite FS, flat_map_app in B. now rewrite flat_map_app.
  - unfold phase_ok in *. cbn [sav frames log]. rewrite FS in *. rewrite filter_app in *. cbn [filter sends] in C. destruct (isReadyUnsafe (sav s)).
    + destruct C as (C1 & C2 & C3 & C4). split; [exact C1|]. split; [|split; [exact C3|contradiction]]. rewrite length_app in *. cbn in C2. lia.
    + destruct C as (C1 & C2 & C3). apply app_eq_nil in C2. destruct C2; discriminate.
  - apply Forall_forall. intros g G. apply (proj1 (Forall_forall _ _) D). rewrite FS. now apply in_middle.
Qed.

(** A turn of the loop takes the last callback off and runs or skips it. *)
Lemma loop_turn_inv s i m o (b : bool) : Inv s -> nth_error (frames s) i = Some (DeliverAll m o) -> callbacks (holders (sav s)) m <> [] ->
  exists h c, fire_pop (holders (sav s)) m = Some (h, c) /\ Inv (note (put s (set_callback (sav s) (callback (sav s)) h)) (if b then Ran c o else Skipped c)).
Proof.
  intros I NE H. destruct I as [A B C D E F]. apply nth_error_In in NE. pose proof (proj1 (Forall_forall _ _) D _ NE) as [SO CB].
  destruct A as (A1 & A2 & A3). pose proof A3 as M. rewrite CB in M. subst m.
  destruct (exists_last H) as (l & c & L). destruct (fire_turn _ 0 l c A1 L) as (h & P & I' & C'). exists h, c. split; [exact P|]. constructor.
  - split; [exact I'|]. cbn [note put sav set_callback holders callback]. rewrite CB. split; [|reflexivity].
    intros m N. rewrite C'. destruct (Nat.eqb_spec m 0); [contradiction|]. now apply A2.
  - intros x. specialize (B x). unfold waiting, held in *. cbn [note put sav set_callback holders callback frames log]. rewrite CB, L in B. rewrite CB, C'. cbn [Nat.eqb].
    rewrite !times_cons, !count_occ_app in *. replace (registered x (if b then Ran c o else Skipped c)) with false by now destruct b.
    replace (ended x (if b then Ran c o else Skipped c)) with (Nat.eqb c x) by now destruct b.
    rewrite count_cons in B. cbn in B |- *. lia.
  - unfold phase_ok in *. cbn [note put sav set_callback frames log]. change (isReadyUnsafe (set_callback (sav s) (callback (sav s)) h)) with (isReadyUnsafe (sav s)).
    rewrite times_cons. replace (is_sent (if b then Ran c o else Skipped c)) with false by now destruct b.
    destruct (isReadyUnsafe (sav s)); [|exact C]. destruct C as (C1 & C2 & C3 & C4). repeat split; auto. intros _. eauto.
  - apply (Forall_more (frame_ok s)); [|exact D]. intros f. destruct f; cbn; tauto.
  - constructor; [destruct b; cbn; auto|]. apply (Forall_more (event_ok s)); [|exact E]. intros f. destruct f; cbn; tauto.
  - unfold status_ok in *. cbn. destruct (status (sav s)); tauto.
Qed.

Lemma turn_inv s i b : Inv s -> exists s', turn s i b = Some s' /\ Inv s'.
Proof.
  intros I. unfold turn. destruct (nth_error (frames s) i) as [f|] eqn:N; [|eauto].
  destruct (done_split _ _ _ N) as (l1 & l2 & FS & ->). destruct f as [c o|m o|c].
  - eexists. split; [reflexivity|]. now apply (frame_done s l1 (Deliver c o) l2).
  - destruct (callbacks (holders (sav s)) m) as [|x l] eqn:L.
    + eexists. split; [reflexivity|]. eapply frame_done_loop; eauto.
    + destruct (loop_turn_inv s i m o b I N) as (h & c & -> & I'); [congruence|]. cbn [bind]. eauto.
  - eexists. split; [reflexivity|]. apply (frame_done s l1 (CallNow c) l2); auto. eexists. split; [reflexivity|].
    assert (R : frame_ok s (CallNow c)) by (eapply (proj1 (Forall_forall _ _) (I_frames _ I)), nth_error_In, N). cbn in R.
    pose proof (I_status _ I) as T. unfold status_ok, isReadyUnsafe, isErrorUnsafe, event_ok in *. destruct (status (sav s)); try discriminate; [auto|].
    destruct T as [T|[T1 ->]]; auto.
Qed.

(** The one misuse that aborts: registering a callback that is held already. *)
Definition double (s : state) (a : action) : Prop :=
  match a with CallOrSet c _ => isReadyUnsafe (sav s) = false /\ In c (held (sav s)) | _ => False end.

Lemma tsav_step_inv s a : Inv s -> double s a /\ step s a = None \/ ~ double s a /\ exists s', step s a = Some s' /\ Inv s'.
Proof.
  intros I. destruct a as [x b|e b| |c b|c| | |i b]; cbn [double step]; try (right; split; [tauto|]).
  - eexists. split; [reflexivity|]. now apply send_inv.
  - eexists. split; [reflexivity|]. now apply trySendError_inv.
  - eexists. split; [reflexivity|]. now apply sendNever_inv.
  - destruct (isReadyUnsafe (sav s)) eqn:R.
    + right. split; [intros [X _]; discriminate|]. apply callOrSet_inv; auto.
    + destruct (in_dec Nat.eq_dec c (held (sav s))) as [X|X]; [left|right].
      * split; [auto|]. now apply callOrSet_twice.
      * split; [tauto|]. apply callOrSet_inv; auto.
  - now apply clear_inv.
  - eexists. split; [reflexivity|]. now apply get_inv.
  - eexists. split; [reflexivity|]. now apply release_inv.
  - now apply turn_inv.
Qed.

Lemma tsav_reachable_inv s : reachable s -> Inv s.
Proof.
  induction 1 as [|s a s' _ IH E]; [apply start_inv|]. destruct (tsav_step_inv s a IH) as [[_ X]|(_ & t & X & I)]; congruence.
Qed.

(** [n] turns of the newest frame. *)
Fixpoint turns (n : nat) (s : state) : option state := match n with O => Some s | S n => bind (step s (Turn 0 true)) (turns n) end.

Definition work (s : state) : nat := length (frames s) + length (flat_map (fun f => match f with DeliverAll m _ => callbacks (holders (sav s)) m | _ => [] end) (frames s)).

(** At most one frame is a loop: behind one there are no others. *)
Lemma loop_alone s m o fs h : Inv s -> frames s = DeliverAll m o :: fs ->
  flat_map (fun f => match f with DeliverAll m _ => callbacks h m | _ => [] end) fs = [].
Proof.
  intros I FS. pose proof (I_phase _ I) as P. unfold phase_ok in P. rewrite FS in P. cbn [filter sends length] in P.
  assert (N : filter sends fs = []).
  { destruct (isReadyUnsafe (sav s)); destruct P as (_ & P & _); [|discriminate]. destruct (filter sends fs); [reflexivity|cbn in P; lia]. }
  clear -N. induction fs as [|g fs IH]; [reflexivity|]. cbn in N. destruct g; try discriminate. cbn. now apply IH.
Qed.

Lemma turn_work s f fs : Inv s -> frames s = f :: fs ->
  exists s', step s (Turn 0 true) = Some s' /\ work s' < work s /\ status (sav s') = status (sav s).
Proof.
  intros I FS. cbn [step]. unfold turn. rewrite FS. cbn [nth_error firstn skipn app]. unfold work. rewrite FS. cbn [length flat_map].
  destruct f as [c o|m o|c].
  1,3: eexists; (split; [reflexivity|]); (split; [|reflexivity]); cbn [note sav frames]; cbn; lia.
  destruct (callbacks (holders (sav s)) m) as [|x l] eqn:L.
  { eexists. split; [reflexivity|]. split; [|reflexivity]. cbn [sav frames]. cbn. lia. }
  destruct (loop_turn_inv s 0 m o true I) as (h & c & P & _); [now rewrite FS|congruence|].
  destruct (I_store _ I) as (A1 & _). assert (NN : callbacks (holders (sav s)) m <> []) by congruence. destruct (exists_last NN) as (l' & c' & L').
  destruct (fire_turn _ m l' c' A1 L') as (h' & P' & _ & C'). rewrite P. cbn [bind]. rewrite P in P'. injection P' as <- <-.
  eexists. split; [reflexivity|]. split; [|reflexivity]. cbn [note put sav frames set_callback holders]. rewrite FS. cbn [length flat_map].
  rewrite C', Nat.eqb_refl, !(loop_alone s m o fs) by assumption. rewrite <- L, L', !length_app. cbn. lia.
Qed.

Lemma turns_end n : forall s, Inv s -> work s <= n -> exists k s', turns k s = Some s' /\ frames s' = [] /\ status (sav s') = status (sav s) /\ Inv s'.
Proof.
  induction n as [|n IH]; intros s I W; (destruct (frames s) as [|f fs] eqn:FS; [exists 0, s; auto|]).
  { unfold work in W. rewrite FS in W. cbn in W. lia. }
  destruct (turn_work s f fs I FS) as (s1 & E1 & W1 & V1). destruct (tsav_step_inv s (Turn 0 true) I) as [[[] _]|(_ & t & E & I1)]. rewrite E1 in E. injection E as <-.
  destruct (IH s1 I1) as (k & s2 & E2 & F2 & V2 & I2); [lia|]. exists (S k), s2. cbn [turns]. rewrite E1. cbn [bind]. split; [exact E2|].
  split; [exact F2|]. split; [congruence|exact I2].
Qed.

Lemma settled s : Inv s -> isReadyUnsafe (sav s) = true -> frames s = [] -> waiting s = [] /\ destructor (sav s) = Some tt.
Proof.
  intros I R FS. pose proof (I_phase _ I) as P. unfold phase_ok in P. rewrite R, FS in P. destruct P as (_ & _ & NS & HE).
  assert (H : held (sav s) = []). { destruct (held (sav s)); [reflexivity|]. destruct HE as (m & o & []). discriminate. }
  unfold waiting. rewrite H, FS. split; [reflexivity|]. unfold destructor, held in *. destruct (callback (sav s)) as [|c|m]; [reflexivity|now destruct (NS c)|now rewrite H].
Qed.

Lemma clear_held s c : Inv s -> isReadyUnsafe (sav s) = false -> In c (held (sav s)) ->
  exists s', step s (Clear c) = Some s' /\ log s' = Cleared c :: log s.
Proof.
  intros I R H. cbn [step]. unfold clearCallback. rewrite R. unfold held in H. destruct (I_store _ I) as (SI & _). destruct (callback (sav s)) as [|t|m]; [destruct H| |].
  - destruct H as [->|[]]. rewrite Nat.eqb_refl. eauto.
  - destruct (clearCallback_inv _ m c SI H) as (h & l & -> & _). cbn [bind]. eauto.
Qed.

(** C12: In every interleaving of sends, registrations, clears, gets and releases
    from any number of threads, with the callbacks run outside the lock: the only
    assertion that can fail is that of registering a callback twice; every
    registration of a callback is ended once, by being run, refused by canFire
    or cleared, or is still waiting; the variable is sent once at most and every
    registered callback is run with what was sent; a callback run at once by
    callOrSetAsCallback gets that too, or the error of a release; clearing a
    callback that waits on an unset variable takes it out; and the callbacks that
    a send is running are all done after finitely many turns, when no
    registration is left and the destructor's assertions hold. *)
Theorem thread_future_delivers (s : state) : reachable s ->
  (forall a, step s a = None <-> double s a) /\
  (forall c, times (registered c) (log s) = times (ended c) (log s) + count_occ Nat.eq_dec (waiting s) c) /\
  times is_sent (log s) <= 1 /\
  (forall c o, In (Ran c o) (log s) -> In (Sent o) (log s)) /\
  (forall c o, In (RanNow c o) (log s) -> In (Sent o) (log s) \/ In Released (log s) /\ o = Failed future_released) /\
  (isReadyUnsafe (sav s) = false -> forall c, In c (waiting s) -> exists s', step s (Clear c) = Some s' /\ log s' = Cleared c :: log s) /\
  (isReadyUnsafe (sav s) = true ->
     exists n s', turns n s = Some s' /\ waiting s' = [] /\ (forall c, times (registered c) (log s') = times (ended c) (log s')) /\ destructor (sav s') = Some tt).
Proof.
  intros R. apply tsav_reachable_inv in R. split; [|split; [|split; [|split; [|split; [|split]]]]].
  - intros a. destruct (tsav_step_inv s a R) as [[D E]|(D & s' & E & _)]; [tauto|]. split; [congruence|contradiction].
  - apply R.
  - pose proof (I_phase _ R) as P. unfold phase_ok in P. destruct (isReadyUnsafe (sav s)); lia.
  - intros c o H. apply (proj1 (Forall_forall _ _) (I_events _ R)) in H. exact H.
  - intros c o H. apply (proj1 (Forall_forall _ _) (I_events _ R)) in H. exact H.
  - intros U c H. apply clear_held; auto. unfold waiting in H. apply in_app_or in H. destruct H as [H|H]; [exact H|].
    pose proof (I_phase _ R) as P. unfold phase_ok in P. rewrite U in P. destruct P as (_ & P & _). apply in_flat_map in H. destruct H as (f & F & H).
    enough (X : In f (filter sends (frames s))) by (rewrite P in X; destruct X). apply filter_In. split; [exact F|]. destruct f; [reflexivity|reflexivity|destruct H].
  - intros U. destruct (turns_end (work s) s R (le_n _)) as (n & s' & E & F & V & I'). exists n, s'.
    destruct (settled s' I') as [W D]; [unfold isReadyUnsafe in *; now rewrite V|exact F|]. repeat split; auto.
    intros c. rewrite (I_count _ I' c), W. cbn. lia.
Qed.

(** Three callbacks, one cleared, then an error. *)
Definition example_actions : list action :=
  [CallOrSet 1 true; CallOrSet 2 true; CallOrSet 3 true; Clear 1; TrySendError 7 true; CallOrSet 4 true; Turn 1 true].
Definition example_run : option state := fold_left (fun s a => bind s (fun s => step s a)) example_actions (Some start).

Lemma run_reachable l : forall s s', reachable s -> fold_left (fun s a => bind s (fun s => step s a)) l (Some s) = Some s' -> reachable s'.
Proof.
  induction l as [|a l IH]; intros s s' R E; cbn in E; [now injection E as <-|]. destruct (step s a) as [t|] eqn:T.
  - apply (IH t s'); [eapply reach_step; eauto|exact E].
  - exfalso. clear -E. induction l as [|a' l IHl]; [discriminate|]. apply IHl, E.
Qed.

Lemma example_log : option_map log example_run = Some [Ran 2 (Failed 7); Sent (Failed 7); Cleared 1; Registered 3; Registered 2; Registered 1].
Proof. vm_compute. reflexivity. Qed.

Lemma thread_future_witness : exists s, example_run = Some s /\
  log s = [Ran 2 (Failed 7); Sent (Failed 7); Cleared 1; Registered 3; Registered 2; Registered 1] /\ times is_sent (log s) <= 1.
Proof.
  pose proof example_log as L. pose proof (fun s => run_reachable example_actions start s reach_start) as R. fold example_run in R.
  destruct example_run as [s|] eqn:E; [|discriminate]. exists s. split; [reflexivity|]. split; [now injection L|].
  refine (proj1 (proj2 (proj2 (thread_future_delivers s (R s eq_refl))))).
Defined.

(** Between leaving the lock and reading the status in callOrSetAsCallback a
    release turns the value into an error: the callback is failed, not fired. *)
Lemma release_race :
  option_map log (fold_left (fun s a => bind s (fun s => step s a)) [Send 5 true; Get; CallOrSet 1 true; Release; Turn 0 true] (Some start)) =
  Some [RanNow 1 (Failed future_released); Released; Got 5; Sent Fired].
Proof. vm_compute. reflexivity. Qed.
