(* ===== verification/Packets.v ===== *)
(** flow/Net2Packet.h, Net2Packet.cpp and the packet buffers of serialize.h: the
    buffers that packets are written into and sent from.

    A buffer lives at an address of [memory] until its last reference is dropped.
    Of its memory the written part is kept; a byte is [None] from the moment its
    place is taken by writeAhead or writeBytes until it is filled in.  [None] as
    the result of an operation is a failed assertion, a write outside the written
    part or the use of a freed buffer.  Sizes stay below 2^31, so the int and
    uint32_t arithmetic is that of [Z].  The chain of a reliable packet and the
    list of packets, which the code links through pointers, are lists. *)

From stdpp Require Import base gmap list.
From Stdlib Require Import ZArith Lia.
From S2P Require Import Prelude.
#[local] Open Scope nat_scope.

Record PacketBuffer := mkBuffer {
  data : list (option Z); size : Z; bytes_sent : nat; next : option nat; reference_count : nat; wipe_begin : Z; wipe_len : Z
}.
Record memory := mkMemory { buffers : gmap nat PacketBuffer; fresh : nat; returned : list (list (option Z)) }.

Definition PACKET_BUFFER_MIN_SIZE : Z := 16384.
Definition PACKET_BUFFER_OVERHEAD : Z := 48.
Definition bytes_written (b : PacketBuffer) : nat := length (data b).
Definition bytes_unsent (b : PacketBuffer) : nat := bytes_written b - bytes_sent b.
Definition bytes_unwritten (b : PacketBuffer) : Z := (size b - Z.of_nat (bytes_written b))%Z.

Definition set_data (b : PacketBuffer) d := mkBuffer d (size b) (bytes_sent b) (next b) (reference_count b) (wipe_begin b) (wipe_len b).
Definition set_sent (b : PacketBuffer) n := mkBuffer (data b) (size b) n (next b) (reference_count b) (wipe_begin b) (wipe_len b).
Definition set_next (b : PacketBuffer) n := mkBuffer (data b) (size b) (bytes_sent b) n (reference_count b) (wipe_begin b) (wipe_len b).
Definition set_refs (b : PacketBuffer) n := mkBuffer (data b) (size b) (bytes_sent b) (next b) n (wipe_begin b) (wipe_len b).
Definition set_wipe (b : PacketBuffer) x y := mkBuffer (data b) (size b) (bytes_sent b) (next b) (reference_count b) x y.

Definition create (m : memory) (sz : Z) : memory * nat :=
  let sz := Z.max sz (PACKET_BUFFER_MIN_SIZE - PACKET_BUFFER_OVERHEAD) in
  (mkMemory (<[fresh m := mkBuffer [] sz 0 None 1 4294967295 0]> (buffers m)) (S (fresh m)) (returned m), fresh m).

Definition store (m : memory) (a : nat) (b : PacketBuffer) : memory := mkMemory (<[a := b]> (buffers m)) (fresh m) (returned m).
Definition modify (m : memory) (a : nat) (f : PacketBuffer -> PacketBuffer) : option memory := b ← buffers m !! a; Some (store m a (f b)).

(** The written part with the bytes from [x] on, [n] of them, set to 0. *)
Definition memset0 (d : list (option Z)) (x n : Z) : list (option Z) :=
  imap (fun i v => if (x <=? Z.of_nat i)%Z && (Z.of_nat i <? x + n)%Z then Some 0%Z else v) d.
Definition wiped (b : PacketBuffer) : list (option Z) :=
  if (0 <? wipe_len b)%Z then memset0 (data b) (wipe_begin b) (wipe_len b) else data b.

Definition addref (m : memory) (a : nat) : option memory := modify m a (fun b => set_refs b (S (reference_count b))).
Definition delref (m : memory) (a : nat) : option memory :=
  b ← buffers m !! a;
  match reference_count b with
  | O => None
  | S O => Some (mkMemory (delete a (buffers m)) (fresh m) (wiped b :: returned m))
  | S n => Some (store m a (set_refs b n))
  end.

(** [begin] as the offset from the start of the buffer's data. *)
Definition markForWipe (b : PacketBuffer) (begin n : Z) : option PacketBuffer :=
  if (0 <=? begin)%Z then
    if (n =? 0)%Z then Some b
    else if (begin + n <=? size b)%Z then
      Some (if (wipe_len b =? 0)%Z then set_wipe b begin n
            else
              let this_wipe_end := (begin + n)%Z in
              let old_wipe_end := (wipe_begin b + wipe_len b)%Z in
              let new_wipe_begin := Z.min (wipe_begin b) begin in
              let new_wipe_end := Z.max old_wipe_end this_wipe_end in
              set_wipe b new_wipe_begin (new_wipe_end - new_wipe_begin))
    else None
  else None.

(** memcpy behind the written part, and into it. *)
Definition append (m : memory) (a : nat) (d : list (option Z)) : option memory := modify m a (fun b => set_data b (data b ++ d)).
Definition splice {A} (l : list A) (o : nat) (d : list A) : list A := take o l ++ d ++ drop (o + length d) l.
Definition memcpy_at (m : memory) (p : nat * nat) (d : list Z) : option memory :=
  b ← buffers m !! fst p;
  if snd p + length d <=? bytes_written b then Some (store m (fst p) (set_data b (splice (data b) (snd p) (Some <$> d)))) else None.

(** * Writing a packet *)

Record ReliablePacket := mkReliable { rbuffer : nat; begin : nat; end_ : nat }.

(** [reliable] holds the finished parts of the cont chain and the buffer and
    begin of the last one. *)
Record PacketWriter := mkWriter { buffer : nat; reliable : option (list ReliablePacket * (nat * nat)); plength : Z }.

Definition init (m : memory) (buf : nat) (rel : bool) : option (memory * PacketWriter) :=
  b ← buffers m !! buf;
  let len := (0 - Z.of_nat (bytes_written b))%Z in
  if rel then m ← addref m buf; Some (m, mkWriter buf (Some ([], (buf, bytes_written b))) len)
  else Some (m, mkWriter buf None len).

Definition finish (m : memory) (w : PacketWriter) : option (nat * Z * option (list ReliablePacket)) :=
  b ← buffers m !! buffer w;
  Some (buffer w, (plength w + Z.of_nat (bytes_written b))%Z,
        match reliable w with Some (l, (a, x)) => Some (l ++ [mkReliable a x (bytes_written b)]) | None => None end).

Definition nextBuffer (m : memory) (w : PacketWriter) (sz : Z) : option (memory * PacketWriter) :=
  b ← buffers m !! buffer w;
  let len := (plength w + Z.of_nat (bytes_written b))%Z in
  let '(m, n) := create m sz in
  m ← modify m (buffer w) (fun b => set_next b (Some n));
  match reliable w with
  | Some (l, (a, x)) => m ← addref m n; Some (m, mkWriter n (Some (l ++ [mkReliable a x (bytes_written b)], (n, 0))) len)
  | None => Some (m, mkWriter n None len)
  end.

(** A round copies what fits; the buffer that nextBuffer makes takes the rest. *)
Fixpoint across_loop (fuel : nat) (m : memory) (w : PacketWriter) (d : list (option Z)) : option (memory * PacketWriter) :=
  match fuel with
  | O => None
  | S fuel =>
      b ← buffers m !! buffer w;
      let n := Z.to_nat (Z.min (Z.of_nat (length d)) (bytes_unwritten b)) in
      m ← append m (buffer w) (take n d);
      match drop n d with
      | [] => Some (m, w)
      | rest => '(m, w) ← nextBuffer m w (Z.of_nat (length rest)); across_loop fuel m w rest
      end
  end.
Definition serializeBytesAcrossBoundary := across_loop 2.

Definition serializeBytes (m : memory) (w : PacketWriter) (d : list Z) : option (memory * PacketWriter) :=
  if length d =? 0 then Some (m, w)
  else
    b ← buffers m !! buffer w;
    if (Z.of_nat (length d) <=? bytes_unwritten b)%Z then m ← append m (buffer w) (Some <$> d); Some (m, w)
    else serializeBytesAcrossBoundary m w (Some <$> d).

(** The place for [n] bytes in one buffer. *)
Definition writeBytes (m : memory) (w : PacketWriter) (n : nat) : option (memory * PacketWriter * (nat * nat)) :=
  b ← buffers m !! buffer w;
  '(m, w) ← (if (bytes_unwritten b <? Z.of_nat n)%Z then
               '(m, w) ← nextBuffer m w (Z.of_nat n);
               b ← buffers m !! buffer w;
               if (Z.of_nat n <=? size b)%Z then Some (m, w) else None
             else Some (m, w));
  b ← buffers m !! buffer w;
  m ← append m (buffer w) (replicate n None);
  Some (m, w, (buffer w, bytes_written b)).

Record SplitBuffer := mkSplit { sbegin : nat * nat; snext : option (nat * nat); first_length : nat }.

Definition writeAhead (m : memory) (w : PacketWriter) (n : nat) : option (memory * PacketWriter * SplitBuffer) :=
  b ← buffers m !! buffer w;
  let here := (buffer w, bytes_written b) in
  if (Z.of_nat n <=? bytes_unwritten b)%Z then
    m ← append m (buffer w) (replicate n None);
    Some (m, w, mkSplit here None n)
  else
    let first := Z.to_nat (bytes_unwritten b) in
    m ← append m (buffer w) (replicate first None);
    '(m, w) ← nextBuffer m w (Z.of_nat (n - first));
    m ← append m (buffer w) (replicate (n - first) None);
    Some (m, w, mkSplit here (Some (buffer w, 0)) first).

Definition shift (p : nat * nat) (n : nat) : nat * nat := (fst p, snd p + n).

Definition SplitBuffer_write (m : memory) (s : SplitBuffer) (d : list Z) (offset : nat) : option memory :=
  let len := length d in
  if len + offset <=? first_length s then memcpy_at m (shift (sbegin s) offset) d
  else if first_length s <=? offset then p ← snext s; memcpy_at m (shift p (offset - first_length s)) d
  else
    m ← memcpy_at m (shift (sbegin s) offset) (take (first_length s - offset) d);
    p ← snext s;
    memcpy_at m p (drop (first_length s - offset) d).

Definition writeAndShrink (m : memory) (s : SplitBuffer) (d : list Z) : option (memory * SplitBuffer) :=
  let len := length d in
  if len <=? first_length s then
    m ← memcpy_at m (sbegin s) d; Some (m, mkSplit (shift (sbegin s) len) (snext s) (first_length s - len))
  else
    m ← memcpy_at m (sbegin s) (take (first_length s) d);
    p ← snext s;
    m ← memcpy_at m p (drop (first_length s) d);
    Some (m, mkSplit (sbegin s) (Some (shift p (len - first_length s))) 0).

(** OverWriter::writeBytes; [olen] starts at the largest int for a SplitBuffer. *)
Record OverWriter := mkOver { olen : Z; obuf : SplitBuffer }.
Definition over (s : SplitBuffer) : OverWriter := mkOver 2147483647 s.
Definition OverWriter_writeBytes (m : memory) (o : OverWriter) (d : list Z) : option (memory * OverWriter) :=
  if (Z.of_nat (length d) <=? olen o)%Z then
    '(m, s) ← writeAndShrink m (obuf o) d; Some (m, mkOver (olen o - Z.of_nat (length d)) s)
  else None.

(** * The queue of unsent buffers *)

Record UnsentPacketQueue := mkQueue { unsent_first : option nat; unsent_last : option nat }.

Definition getWriteBuffer (m : memory) (q : UnsentPacketQueue) (sizeHint : Z) : option (memory * UnsentPacketQueue * nat) :=
  match unsent_last q with
  | Some a => Some (m, q, a)
  | None =>
      match unsent_first q with
      | Some _ => None
      | None => let '(m, a) := create m sizeHint in Some (m, mkQueue (Some a) (Some a), a)
      end
  end.
Definition setWriteBuffer (q : UnsentPacketQueue) (pb : nat) : UnsentPacketQueue := mkQueue (unsent_first q) (Some pb).
Definition prependWriteBuffer (m : memory) (q : UnsentPacketQueue) (first last : nat) : option (memory * UnsentPacketQueue) :=
  m ← modify m last (fun b => set_next b (unsent_first q));
  Some (m, mkQueue (Some first) (match unsent_last q with None => Some last | Some l => Some l end)).
Definition empty (m : memory) (q : UnsentPacketQueue) : option bool :=
  match unsent_first q with
  | None => Some true
  | Some a => b ← buffers m !! a; Some (Nat.eqb (bytes_sent b) (bytes_written b))
  end.

Fixpoint sent_loop (fuel : nat) (m : memory) (q : UnsentPacketQueue) (bytes : nat) : option (memory * UnsentPacketQueue) :=
  match bytes with
  | O => Some (m, q)
  | _ =>
      match fuel with
      | O => None
      | S fuel =>
          a ← unsent_first q;
          b ← buffers m !! a;
          if (bytes_sent b + bytes <=? bytes_written b) &&
             (negb (Nat.eqb (bytes_sent b + bytes) (bytes_written b)) ||
              match next b with None => negb (bytes_unwritten b =? 0)%Z | Some _ => false end) then
            if (Z.of_nat (bytes_sent b + bytes) <=? size b)%Z then Some (store m a (set_sent b (bytes_sent b + bytes)), q) else None
          else if (Z.of_nat (bytes_written b) <=? size b)%Z then
            let m' := store m a (set_sent b (bytes_written b)) in
            let q := mkQueue (next b) (match next b with None => None | Some _ => unsent_last q end) in
            m ← delref m' a;
            sent_loop fuel m q (bytes - bytes_unsent b)
          else None
      end
  end.
(** A turn takes a buffer off the queue, and the addresses in use are below [fresh]. *)
Definition sent (m : memory) (q : UnsentPacketQueue) (bytes : nat) := sent_loop (S (fresh m)) m q bytes.

Fixpoint discard_loop (fuel : nat) (m : memory) (first : option nat) : option memory :=
  match first with
  | None => Some m
  | Some a =>
      match fuel with
      | O => None
      | S fuel => b ← buffers m !! a; m ← delref m a; discard_loop fuel m (next b)
      end
  end.
Definition discardAll (m : memory) (q : UnsentPacketQueue) : option (memory * UnsentPacketQueue) :=
  m ← discard_loop (fresh m) m (unsent_first q); Some (m, mkQueue None None).

(** * The list of reliable packets *)

Definition packet := list ReliablePacket.

Definition insert (ps : list packet) (p : packet) : list packet := ps ++ [p].

Fixpoint release (m : memory) (p : packet) : option memory :=
  match p with
  | [] => Some m
  | c :: p => m ← delref m (rbuffer c); release m p
  end.
(** remove of the packet that has [i] packets before it. *)
Definition remove (m : memory) (ps : list packet) (i : nat) : option (memory * list packet) :=
  p ← ps !! i; m ← release m p; Some (m, take i ps ++ drop (S i) ps).

Fixpoint discardAll_reliable (m : memory) (ps : list packet) : option memory :=
  match ps with
  | [] => Some m
  | p :: ps => m ← release m p; discardAll_reliable m ps
  end.

(** compact's inner loop on the cont chain [p]: the flag says that the end was
    met, the chain is the one with the parts copied so far moved. *)
Fixpoint compact_chain (fuel : nat) (m : memory) (p : packet) (into : nat) (stop : option nat) : option (memory * packet * nat * bool) :=
  match p with
  | [] => Some (m, [], into, false)
  | c :: cont =>
      match fuel with
      | O => None
      | S fuel =>
          if decide (Some (rbuffer c) = stop) then Some (m, p, into, true)
          else
            ib ← buffers m !! into;
            '(m, into) ← (if (Z.of_nat (bytes_written ib) =? size ib)%Z then
                            let '(m, n) := create m (size ib) in
                            m ← modify m into (fun b => set_next b (Some n));
                            Some (m, n)
                          else Some (m, into));
            ib ← buffers m !! into;
            cb ← buffers m !! rbuffer c;
            let len := end_ c - begin c in
            let room := bytes_unwritten ib in
            '(m, cont, len) ← (if (room <? Z.of_nat len)%Z then
                                 let len := Z.to_nat room in
                                 m ← addref m (rbuffer c);
                                 Some (m, mkReliable (rbuffer c) (begin c + len) (end_ c) :: cont, len)
                               else Some (m, cont, len));
            m ← append m into (take len (drop (begin c) (data cb)));
            m ← delref m (rbuffer c);
            m ← addref m into;
            '(m, cont, last, stopped) ← compact_chain fuel m cont into stop;
            Some (m, mkReliable into (bytes_written ib) (bytes_written ib + len) :: cont, last, stopped)
      end
  end.

Fixpoint compact (m : memory) (ps : list packet) (into : nat) (stop : option nat) : option (memory * list packet * nat) :=
  match ps with
  | [] => Some (m, [], into)
  | p :: ps =>
      (* a part that is split leaves fewer bytes behind *)
      '(m, p, into, stopped) ← compact_chain (length p + foldr (fun c n => (end_ c - begin c) + n) 0 p) m p into stop;
      if (stopped : bool) then Some (m, p :: ps, into)
      else '(m, ps, into) ← compact m ps into stop; Some (m, p :: ps, into)
  end.

(** * A packet of several items *)

(** serializeBytes, writeBytes with the bytes copied to the place it returns,
    writeAhead, and the two ways to fill the [k]-th place written ahead. *)
Inductive item := Bytes (d : list Z) | Alloc (d : list Z) | Ahead (n : nat) | Fill (k offset : nat) (d : list Z) | Shrink (k : nat) (d : list Z).

Definition write_item (m : memory) (w : PacketWriter) (ss : list SplitBuffer) (i : item) : option (memory * PacketWriter * list SplitBuffer) :=
  match i with
  | Bytes d => '(m, w) ← serializeBytes m w d; Some (m, w, ss)
  | Alloc d => '(m, w, p) ← writeBytes m w (length d); m ← memcpy_at m p d; Some (m, w, ss)
  | Ahead n => '(m, w, s) ← writeAhead m w n; Some (m, w, ss ++ [s])
  | Fill k offset d => s ← ss !! k; m ← SplitBuffer_write m s d offset; Some (m, w, ss)
  | Shrink k d => s ← ss !! k; '(m, s) ← writeAndShrink m s d; Some (m, w, <[k := s]> ss)
  end.
Fixpoint write_items (m : memory) (w : PacketWriter) (ss : list SplitBuffer) (l : list item) : option (memory * PacketWriter) :=
  match l with
  | [] => Some (m, w)
  | i :: l => '(m, w, ss) ← write_item m w ss i; write_items m w ss l
  end.

(** A packet written to the queue's write buffer: its length is returned. *)
Definition write_packet (m : memory) (q : UnsentPacketQueue) (ps : list packet) (rel : bool) (l : list item) :
    option (memory * UnsentPacketQueue * list packet * Z) :=
  '(m, q, pb) ← getWriteBuffer m q 0;
  '(m, w) ← init m pb rel;
  '(m, w) ← write_items m w [] l;
  '(pb, len, r) ← finish m w;
  Some (m, setWriteBuffer q pb, match r with Some p => insert ps p | None => ps end, len).

(** A packet put in front of the queue, in buffers of its own. *)
Definition prepend_packet (m : memory) (q : UnsentPacketQueue) (l : list item) : option (memory * UnsentPacketQueue * Z) :=
  let '(m, first) := create m 0 in
  '(m, w) ← init m first false;
  '(m, w) ← write_items m w [] l;
  '(last, len, _) ← finish m w;
  '(m, q) ← prependWriteBuffer m q first last;
  Some (m, q, len).

(** The reliable packets compacted behind what is unsent; [stop] leaves those
    alone that are in the first unsent buffer, and all after them. *)
Definition compact_packets (m : memory) (q : UnsentPacketQueue) (ps : list packet) (stop : bool) : option (memory * UnsentPacketQueue * list packet) :=
  let stopAt := if stop then unsent_first q else None in
  '(m, q, pb) ← getWriteBuffer m q 0;
  '(m, ps, last) ← compact m ps pb stopAt;
  Some (m, setWriteBuffer q last, ps).

Inductive operation :=
  | Write (rel : bool) (l : list item) | Prepend (l : list item) | Sent (n : nat) | Discard
  | Remove (i : nat) | DiscardReliable | Compact (stop : bool).

Definition perform (m : memory) (q : UnsentPacketQueue) (ps : list packet) (op : operation) : option (memory * UnsentPacketQueue * list packet * Z) :=
  match op with
  | Write rel l => write_packet m q ps rel l
  | Prepend l => '(m, q, len) ← prepend_packet m q l; Some (m, q, ps, len)
  | Sent n => '(m, q) ← sent m q n; Some (m, q, ps, 0%Z)
  | Discard => '(m, q) ← discardAll m q; Some (m, q, ps, 0%Z)
  | Remove i => '(m, ps) ← remove m ps i; Some (m, q, ps, 0%Z)
  | DiscardReliable => m ← discardAll_reliable m ps; Some (m, q, [], 0%Z)
  | Compact stop => '(m, q, ps) ← compact_packets m q ps stop; Some (m, q, ps, 0%Z)
  end.

Definition no_memory : memory := mkMemory ∅ 0 [].
Definition no_queue : UnsentPacketQueue := mkQueue None None.
