(* ===== verification/PacketsWriter.v ===== *)
(** The packet buffers: references, chains of buffers and the writing of a packet,
    item by item, over the buffers it needs. *)

From stdpp Require Import base gmap list.
From Stdlib Require Import ZArith Lia.
From S2P Require Import Prelude Packets.
#[local] Open Scope nat_scope.

Definition dat (m : memory) (a : nat) : list (option Z) := match buffers m !! a with Some b => data b | None => [] end.
Definition snt (m : memory) (a : nat) : nat := match buffers m !! a with Some b => bytes_sent b | None => 0 end.

(** * References *)

Definition MIN : Z := (PACKET_BUFFER_MIN_SIZE - PACKET_BUFFER_OVERHEAD)%Z.
Record buffer_ok (b : PacketBuffer) : Prop := {
  ok_sent : bytes_sent b <= bytes_written b; ok_written : (Z.of_nat (bytes_written b) <= size b)%Z; ok_size : (MIN <= size b)%Z
}.

Abbreviation occ := (count_occ Nat.eq_dec).

(** [refs] are the references that exist, to live buffers only, and every live
    buffer has one. *)
Record mem_ok (m : memory) (refs : list nat) : Prop := {
  mo_count : forall a, occ refs a = match buffers m !! a with Some b => reference_count b | None => 0 end;
  mo_used : forall a b, buffers m !! a = Some b -> reference_count b <> 0;
  mo_bound : forall a b, buffers m !! a = Some b -> a < fresh m;
  mo_buffers : forall a b, buffers m !! a = Some b -> buffer_ok b
}.

Definition core (b : PacketBuffer) : PacketBuffer := set_refs b 0.
(** The buffers of [l] have the same contents in both memories. *)
Definition agree (m m' : memory) (a : nat) : Prop := core <$> buffers m !! a = core <$> buffers m' !! a.

Lemma mem_perm m r r' : Permutation r r' -> mem_ok m r -> mem_ok m r'.
Proof. intros P [A B C D]. constructor; auto. intros a. rewrite <- A. symmetry. now apply (Permutation_count_occ Nat.eq_dec). Qed.

Lemma mem_occ m r r' : (forall a, occ r a = occ r' a) -> mem_ok m r -> mem_ok m r'.
Proof. intros P [A B C D]. constructor; auto. intros a. now rewrite <- P. Qed.

Lemma mem_live m r a : mem_ok m r -> In a r -> exists b, buffers m !! a = Some b.
Proof. intros M I. apply (count_occ_In Nat.eq_dec) in I. rewrite (mo_count _ _ M) in I. destruct (buffers m !! a) as [b|]; [eauto|lia]. Qed.

Lemma mem_dead m r a : mem_ok m r -> fresh m <= a -> ~ In a r.
Proof. intros M L I. destruct (mem_live _ _ _ M I) as [b E]. apply (mo_bound _ _ M) in E. lia. Qed.

Lemma occ_cons x l a : occ (x :: l) a = (if Nat.eqb x a then 1 else 0) + occ l a.
Proof. cbn. destruct (Nat.eq_dec x a) as [->|N]; [now rewrite Nat.eqb_refl|]. now rewrite (proj2 (Nat.eqb_neq _ _) N). Qed.

(** A buffer is changed, its count kept. *)
Lemma modify_ok m r a b f : mem_ok m r -> buffers m !! a = Some b -> reference_count (f b) = reference_count b -> buffer_ok (f b) ->
  modify m a f = Some (store m a (f b)) /\ mem_ok (store m a (f b)) r.
Proof.
  intros [A B C D] E RC O. split; [unfold modify; now rewrite E|]. constructor; cbn [store buffers fresh].
  - intros x. rewrite A. destruct (decide (x = a)) as [->|N]; [now rewrite E, lookup_insert_eq, RC|now rewrite lookup_insert_ne].
  - intros x b' H. destruct (decide (x = a)) as [->|N]; simplify_map_eq; [rewrite RC|]; eauto.
  - intros x b' H. destruct (decide (x = a)) as [->|N]; simplify_map_eq; eauto.
  - intros x b' H. destruct (decide (x = a)) as [->|N]; simplify_map_eq; eauto.
Qed.

Lemma core_ok b b' : core b = core b' -> buffer_ok b -> buffer_ok b'.
Proof. destruct b, b'. intros [= -> -> -> -> -> ->] [A B C]. constructor; auto. Qed.

Lemma buffer_addref_ok m r a : mem_ok m r -> In a r ->
  exists m', addref m a = Some m' /\ mem_ok m' (a :: r) /\ fresh m' = fresh m /\ (forall x, agree m m' x) /\ (forall x, x <> a -> buffers m' !! x = buffers m !! x).
Proof.
  intros M I. destruct (mem_live _ _ _ M I) as [b E]. destruct M as [A B C D]. unfold addref, modify. rewrite E. cbn [mbind option_bind].
  eexists. split; [reflexivity|]. split; [|split; [reflexivity|split; [|intros x N; now apply lookup_insert_ne]]].
  - constructor; cbn [store buffers fresh]; intros x.
    + rewrite occ_cons, A. destruct (Nat.eqb_spec a x) as [Y|N]; [subst x; now rewrite E, lookup_insert_eq|now rewrite lookup_insert_ne].
    + intros b' H. destruct (decide (x = a)) as [->|N]; simplify_map_eq; [discriminate|eauto].
    + intros b' H. destruct (decide (x = a)) as [->|N]; simplify_map_eq; eauto.
    + intros b' H. destruct (decide (x = a)) as [->|N]; simplify_map_eq; [|eauto]. now apply (core_ok b); [|eauto].
  - intros x. unfold agree. cbn [store buffers]. destruct (decide (x = a)) as [->|N]; simplify_map_eq; reflexivity.
Qed.

Lemma delref_ok m r a : mem_ok m (a :: r) ->
  exists m', delref m a = Some m' /\ mem_ok m' r /\ fresh m' = fresh m /\ forall x, In x r \/ x <> a -> agree m m' x.
Proof.
  intros M. destruct (mem_live _ _ a M (or_introl eq_refl)) as [b E]. destruct M as [A B C D]. unfold delref. rewrite E. cbn [mbind option_bind].
  pose proof (A a) as RC. rewrite E, occ_cons, Nat.eqb_refl in RC.
  destruct (reference_count b) as [|[|n]] eqn:R; [lia| |]; (eexists; split; [reflexivity|]; split; [constructor|split; [reflexivity|]]); cbn [store buffers fresh]; try intros x.
  - specialize (A x). rewrite occ_cons in A. destruct (Nat.eqb_spec a x) as [Y|N]; [subst x; rewrite lookup_delete_eq; lia|now rewrite lookup_delete_ne].
  - intros b' H. apply lookup_delete_Some in H. destruct H; eauto.
  - intros b' H. apply lookup_delete_Some in H. destruct H; eauto.
  - intros b' H. apply lookup_delete_Some in H. destruct H; eauto.
  - intros [I|N]; unfold agree; cbn [buffers]; [|now rewrite lookup_delete_ne]. rewrite lookup_delete_ne; [reflexivity|].
    intros ->. apply (count_occ_In Nat.eq_dec) in I. lia.
  - specialize (A x). rewrite occ_cons in A. destruct (Nat.eqb_spec a x) as [Y|N]; [subst x; rewrite lookup_insert_eq; cbn; lia|now rewrite lookup_insert_ne].
  - intros b' H. destruct (decide (x = a)) as [->|N]; simplify_map_eq; [discriminate|eauto].
  - intros b' H. destruct (decide (x = a)) as [->|N]; simplify_map_eq; eauto.
  - intros b' H. destruct (decide (x = a)) as [->|N]; simplify_map_eq; [|eauto]. now apply (core_ok b); [|eauto].
  - intros _. unfold agree. cbn [store buffers]. destruct (decide (x = a)) as [->|N]; simplify_map_eq; reflexivity.
Qed.

Lemma create_ok m r sz : mem_ok m r -> exists m' b, create m sz = (m', fresh m) /\ mem_ok m' (fresh m :: r) /\ fresh m' = S (fresh m) /\
  buffers m' !! fresh m = Some b /\ data b = [] /\ bytes_sent b = 0 /\ next b = None /\ (Z.max sz MIN = size b)%Z /\ (forall x, x <> fresh m -> buffers m' !! x = buffers m !! x).
Proof.
  intros M. assert (F : buffers m !! fresh m = None) by (destruct (buffers m !! fresh m) eqn:E; [apply (mo_bound _ _ M) in E; lia|reflexivity]).
  destruct M as [A B C D]. unfold create. eexists. exists (mkBuffer [] (Z.max sz MIN) 0 None 1 4294967295 0).
  split; [reflexivity|]. cbn [buffers fresh]. rewrite lookup_insert_eq. split; [constructor; cbn [buffers fresh]; intros x|]; [| | | |split; [reflexivity|]; split; [reflexivity|]; do 4 (split; [reflexivity|]); intros x N; now rewrite lookup_insert_ne].
  - rewrite occ_cons, A. destruct (Nat.eqb_spec (fresh m) x) as [Y|N]; [subst x; now rewrite F, lookup_insert_eq|now rewrite lookup_insert_ne].
  - intros b' H. destruct (decide (x = fresh m)) as [->|N]; simplify_map_eq; [discriminate|eauto].
  - intros b' H. destruct (decide (x = fresh m)) as [->|N]; simplify_map_eq; [lia|]. apply C in H. lia.
  - intros b' H. destruct (decide (x = fresh m)) as [->|N]; simplify_map_eq; [|eauto]. constructor; unfold bytes_written, MIN, PACKET_BUFFER_MIN_SIZE, PACKET_BUFFER_OVERHEAD; cbn [data size bytes_sent length]; lia.
Qed.

(** References are compared by counting them. *)
Ltac occs := let a := fresh "a" in intros a; repeat (rewrite map_app || rewrite count_occ_app || rewrite occ_cons || rewrite count_occ_nil || (progress cbn [map rbuffer app])); lia.

(** * Chains and what is in them *)

Definition nxt (m : memory) (a : nat) : option nat := match buffers m !! a with Some b => next b | None => None end.

Fixpoint chain (m : memory) (o : option nat) (l : list nat) : Prop :=
  match l with
  | [] => o = None
  | a :: l => o = Some a /\ chain m (nxt m a) l
  end.

Definition unsent_of (m : memory) (a : nat) : list (option Z) := drop (snt m a) (dat m a).
(** The bytes of the queue [l] that are still to be sent. *)
Definition ubytes (m : memory) (l : list nat) : list (option Z) := flat_map (unsent_of m) l.
Definition seg_bytes (m : memory) (c : ReliablePacket) : list (option Z) := take (end_ c - begin c) (drop (begin c) (dat m (rbuffer c))).
Definition pbytes (m : memory) (p : packet) : list (option Z) := flat_map (seg_bytes m) p.
Definition seg_ok (m : memory) (c : ReliablePacket) : Prop := begin c <= end_ c /\ end_ c <= length (dat m (rbuffer c)).

Lemma agree_views m m' a : agree m m' a -> dat m' a = dat m a /\ snt m' a = snt m a /\ nxt m' a = nxt m a.
Proof.
  unfold agree, dat, snt, nxt. destruct (buffers m !! a) as [b|], (buffers m' !! a) as [b'|]; cbn; intros E; try discriminate; [|auto].
  destruct b, b'. cbn in *. injection E as <- <- <- <- <- <-. auto.
Qed.

Lemma agree_same m m' a : buffers m' !! a = buffers m !! a -> agree m m' a.
Proof. unfold agree. now intros ->. Qed.

Lemma chain_views m m' l : (forall a, In a l -> nxt m' a = nxt m a) -> forall o, chain m o l -> chain m' o l.
Proof. induction l as [|a l IH]; intros H o C; [exact C|]. destruct C as [-> C]. split; [reflexivity|]. rewrite H by (now left). apply IH; auto. intros x X. apply H. now right. Qed.

Lemma flat_map_ext_in {A B} (f g : A -> list B) l : (forall a, In a l -> f a = g a) -> flat_map f l = flat_map g l.
Proof. intros H. induction l as [|a l IH]; [reflexivity|]. cbn. rewrite H, IH by auto using in_eq, in_cons. reflexivity. Qed.

Lemma ubytes_agree m m' l : (forall a, In a l -> agree m m' a) -> ubytes m' l = ubytes m l.
Proof. intros H. apply flat_map_ext_in. intros a I. destruct (agree_views _ _ _ (H a I)) as (D & S & _). unfold unsent_of. now rewrite D, S. Qed.

Lemma pbytes_agree m m' p : (forall c, In c p -> dat m' (rbuffer c) = dat m (rbuffer c)) -> pbytes m' p = pbytes m p.
Proof. intros H. apply flat_map_ext_in. intros c I. unfold seg_bytes. now rewrite H. Qed.

Lemma buffers_snoc m l a n : forall o, chain m o (l ++ [a]) -> NoDup (l ++ [a]) -> forall m', nxt m' a = Some n -> (forall x, In x l -> nxt m' x = nxt m x) -> nxt m' n = None -> chain m' o (l ++ [a; n]).
Proof.
  induction l as [|y l IH]; intros o C D m' N X Z; cbn in *; destruct C as [-> C].
  - now rewrite N, Z.
  - split; [reflexivity|]. rewrite X by (now left). apply NoDup_cons in D. apply IH; auto. tauto.
Qed.

Lemma chain_last m l a : forall o, chain m o (l ++ [a]) -> nxt m a = None.
Proof. induction l as [|y l IH]; intros o C; cbn in *; destruct C as [_ C]; [exact C|eauto]. Qed.

Lemma dat_store m a b x : dat (store m a b) x = if Nat.eqb a x then data b else dat m x.
Proof. unfold dat. cbn. destruct (Nat.eqb_spec a x) as [->|N]; [now rewrite lookup_insert_eq|now rewrite lookup_insert_ne]. Qed.
Lemma snt_store m a b x : snt (store m a b) x = if Nat.eqb a x then bytes_sent b else snt m x.
Proof. unfold snt. cbn. destruct (Nat.eqb_spec a x) as [->|N]; [now rewrite lookup_insert_eq|now rewrite lookup_insert_ne]. Qed.
Lemma nxt_store m a b x : nxt (store m a b) x = if Nat.eqb a x then next b else nxt m x.
Proof. unfold nxt. cbn. destruct (Nat.eqb_spec a x) as [->|N]; [now rewrite lookup_insert_eq|now rewrite lookup_insert_ne]. Qed.

Lemma dat_at m a b : buffers m !! a = Some b -> dat m a = data b.
Proof. unfold dat. now intros ->. Qed.
Lemma snt_at m a b : buffers m !! a = Some b -> snt m a = bytes_sent b.
Proof. unfold snt. now intros ->. Qed.
Lemma nxt_at m a b : buffers m !! a = Some b -> nxt m a = next b.
Proof. unfold nxt. now intros ->. Qed.

(** A new buffer is linked behind [a]. *)
Definition link (m : memory) (a : nat) (sz : Z) : option (memory * nat) :=
  let '(m, n) := create m sz in m ← modify m a (fun b => set_next b (Some n)); Some (m, n).

Lemma link_ok m r a b sz : mem_ok m r -> buffers m !! a = Some b -> exists m' nb,
  link m a sz = Some (m', fresh m) /\ mem_ok m' (fresh m :: r) /\ fresh m' = S (fresh m) /\ a <> fresh m /\
  buffers m' !! fresh m = Some nb /\ data nb = [] /\ bytes_sent nb = 0 /\ next nb = None /\ size nb = Z.max sz MIN /\
  buffers m' !! a = Some (set_next b (Some (fresh m))) /\ (forall x, x <> fresh m -> x <> a -> buffers m' !! x = buffers m !! x).
Proof.
  intros A E. destruct (create_ok m _ sz A) as (m1 & nb & C & A1 & F1 & E1 & D1 & S1 & N1 & Z1 & X1). unfold link. rewrite C.
  assert (NF : a <> fresh m) by (intros Q; apply (mo_bound _ _ A) in E; lia). rewrite <- X1 in E by exact NF.
  destruct (modify_ok m1 _ a b (fun b => set_next b (Some (fresh m))) A1 E eq_refl) as [-> A2].
  { destruct (mo_buffers _ _ A1 _ _ E). constructor; auto. }
  cbn [mbind option_bind]. exists (store m1 a (set_next b (Some (fresh m)))), nb. split; [reflexivity|]. split; [exact A2|]. split; [exact F1|]. split; [exact NF|].
  split; [cbn; now rewrite lookup_insert_ne|]. do 3 (split; [assumption|]). split; [auto|]. split; [cbn; now rewrite lookup_insert_eq|].
  intros x X Y. cbn. rewrite lookup_insert_ne by congruence. now apply X1.
Qed.

Lemma length_splice {A} (l : list A) k d : k + length d <= length l -> length (splice l k d) = length l.
Proof. intros H. unfold splice. rewrite !length_app, length_take, length_drop. lia. Qed.

Lemma splice_take {A} (l : list A) k d s : s <= k -> k <= length l -> take s (splice l k d) = take s l.
Proof. intros H L. unfold splice. rewrite take_app_le by (rewrite length_take; lia). rewrite take_take. f_equal. lia. Qed.

Lemma splice_drop {A} (l : list A) k d s : s <= k -> k <= length l -> drop s (splice l k d) = splice (drop s l) (k - s) d.
Proof.
  intros H L. unfold splice. rewrite drop_app_le by (rewrite length_take; lia). rewrite take_drop_commute, drop_drop. replace (s + (k - s)) with k by lia.
  replace (s + (k - s + length d)) with (k + length d) by lia. reflexivity.
Qed.

Lemma splice_app {A} (l1 l2 l3 : list A) k d : k + length d <= length l2 -> splice (l1 ++ l2 ++ l3) (length l1 + k) d = l1 ++ splice l2 k d ++ l3.
Proof.
  intros H. unfold splice. rewrite take_app_ge by lia. replace (length l1 + k - length l1) with k by lia. rewrite take_app_le by lia.
  rewrite (drop_app_ge l1) by lia. replace (length l1 + k + length d - length l1) with (k + length d) by lia. rewrite drop_app_le by lia. now rewrite <- !app_assoc.
Qed.

(** Two neighbouring pieces are one. *)
Lemma splice_split {A} (l : list A) k d n : n <= length d -> k + length d <= length l -> splice (splice l k (take n d)) (k + n) (drop n d) = splice l k d.
Proof.
  intros N L. rewrite <- (take_drop k l) at 1. set (l1 := take k l). assert (L1 : length l1 = k) by (unfold l1; rewrite length_take; lia).
  unfold splice at 2. rewrite length_take, Nat.min_l by lia. rewrite (take_app_le l1), (drop_app_ge l1) by lia. rewrite L1, (firstn_all2 l1) by lia. replace (k + n - k) with n by lia.
  rewrite drop_drop. unfold splice. rewrite length_drop.
  rewrite take_app_ge by lia. rewrite L1. replace (k + n - k) with n by lia. rewrite take_app_le by (rewrite length_take; lia). rewrite take_take, Nat.min_id.
  rewrite (drop_app_ge l1) by lia. rewrite (drop_app_ge (take n d)) by (rewrite length_take; lia). rewrite length_take, drop_drop, L1. unfold l1.
  rewrite <- app_assoc. f_equal. rewrite (app_assoc (take n d)), take_drop. do 2 f_equal. lia.
Qed.

(** * What a packet's items mean *)

(** The packet's bytes and the places written ahead, as their first byte and
    length; [None] where a place does not exist or is too short. *)
Definition spec_item (c : list (option Z)) (sp : list (nat * nat)) (i : item) : option (list (option Z) * list (nat * nat)) :=
  match i with
  | Bytes d | Alloc d => Some (c ++ (Some <$> d), sp)
  | Ahead n => Some (c ++ replicate n None, sp ++ [(length c, n)])
  | Fill k offset d => '(pos, n) ← sp !! k; if offset + length d <=? n then Some (splice c (pos + offset) (Some <$> d), sp) else None
  | Shrink k d => '(pos, n) ← sp !! k; if length d <=? n then Some (splice c pos (Some <$> d), <[k := (pos + length d, n - length d)]> sp) else None
  end.
Fixpoint spec_items (c : list (option Z)) (sp : list (nat * nat)) (l : list item) : option (list (option Z)) :=
  match l with
  | [] => Some c
  | i :: l => '(c, sp) ← spec_item c sp i; spec_items c sp l
  end.

(** * A packet being written *)

Section Writer.
(** The memory, the write buffer and the other buffers of the queue when the
    packet was begun, the references held by others. *)
Context (m0 : memory) (a0 : nat) (lq : list nat) (o : option nat) (others : list nat) (rel : bool).

Definition start (a : nat) : nat := if Nat.eqb a a0 then length (dat m0 a0) else 0.
Definition wcontent (m : memory) (t : list nat) : list (option Z) := flat_map (fun a => drop (start a) (dat m a)) t.
Definition seg_of (m : memory) (a : nat) : ReliablePacket := mkReliable a (start a) (length (dat m a)).
Definition wrefs (w : PacketWriter) : list nat := match reliable w with Some (dn, (a, _)) => map rbuffer dn ++ [a] | None => [] end.

(** The packet's bytes are in the buffers [pre] and the writer's buffer, from [start]. *)
Record W (m : memory) (w : PacketWriter) (pre : list nat) : Prop := {
  W_mem : mem_ok m (lq ++ pre ++ [buffer w] ++ wrefs w ++ others);
  W_chain : chain m o (lq ++ pre ++ [buffer w]);
  W_nodup : NoDup (lq ++ pre ++ [buffer w]);
  W_head : head (pre ++ [buffer w]) = Some a0;
  W_new : forall a, In a (pre ++ [buffer w]) -> a <> a0 -> fresh m0 <= a /\ snt m a = 0;
  W_old : forall a, a < fresh m0 -> a <> a0 -> buffers m !! a = buffers m0 !! a;
  W_a0 : a0 < fresh m0 /\ take (length (dat m0 a0)) (dat m a0) = dat m0 a0 /\ snt m a0 = snt m0 a0;
  W_fresh : fresh m0 <= fresh m;
  W_len : plength w = (Z.of_nat (length (wcontent m pre)) - Z.of_nat (start (buffer w)))%Z;
  W_rel : match reliable w with Some (dn, p) => dn = map (seg_of m) pre /\ p = (buffer w, start (buffer w)) | None => True end;
  W_kind : rel = match reliable w with Some _ => true | None => false end
}.

Lemma nodup_last {A} (l1 l2 : list A) a : NoDup (l1 ++ l2 ++ [a]) -> ~ In a l2.
Proof. intros D. apply NoDup_app in D. destruct D as (_ & _ & D). apply NoDup_app in D. destruct D as (_ & D & _). intros I. apply (D a); [now apply list_elem_of_In|now left]. Qed.

Lemma start_other m w pre a : W m w pre -> In a (pre ++ [buffer w]) -> a <> a0 -> start a = 0.
Proof. intros _ _ N. unfold start. now destruct (Nat.eqb_spec a a0). Qed.

Lemma start_le m w pre a : W m w pre -> start a <= length (dat m a).
Proof.
  intros H. unfold start. destruct (Nat.eqb_spec a a0) as [->|_]; [|lia]. destruct (W_a0 _ _ _ H) as (_ & E & _).
  rewrite <- E at 1. rewrite length_take. lia.
Qed.

Lemma wcontent_same m m' t : (forall a, In a t -> dat m' a = dat m a) -> wcontent m' t = wcontent m t.
Proof. intros H. apply flat_map_ext_in. intros a I. now rewrite H. Qed.

(** The data of one of the packet's buffers is replaced. *)
Lemma W_data m w pre a b d : W m w pre -> buffers m !! a = Some b -> In a (pre ++ [buffer w]) ->
  (a <> buffer w -> length d = length (data b)) -> bytes_sent b <= length d -> (Z.of_nat (length d) <= size b)%Z ->
  (a = a0 -> take (length (dat m0 a0)) d = dat m0 a0) -> W (store m a (set_data b d)) w pre.
Proof.
  intros H E I L S Z T. pose proof H as [A B C D F G J K N P KI]. pose proof (nodup_last _ _ _ C) as NL.
  assert (SL : forall x, In x pre -> length (dat (store m a (set_data b d)) x) = length (dat m x)).
  { intros x X. rewrite dat_store. destruct (Nat.eqb_spec a x) as [->|_]; [|reflexivity]. cbn [set_data data]. rewrite L, (dat_at _ _ _ E); [reflexivity|]. intros ->. contradiction. }
  assert (O : buffer_ok (set_data b d)) by (destruct (mo_buffers _ _ A _ _ E); constructor; auto).
  constructor; auto.
  - now apply (modify_ok m _ a b (fun b => set_data b d)).
  - apply (chain_views m); [|exact B]. intros x _. rewrite nxt_store. destruct (Nat.eqb_spec a x) as [->|_]; [now rewrite (nxt_at _ _ _ E)|reflexivity].
  - intros x X Y. destruct (F x X Y) as [F1 F2]. split; [exact F1|]. rewrite snt_store. destruct (Nat.eqb_spec a x) as [->|_]; [now rewrite (snt_at _ _ _ E) in F2|exact F2].
  - intros x X Y. rewrite <- (G x X Y). cbn. apply lookup_insert_ne. intros ->. destruct (F x I Y). lia.
  - destruct J as (J1 & J2 & J3). split; [exact J1|]. rewrite dat_store, snt_store. destruct (Nat.eqb_spec a a0) as [->|_]; [|auto]. split; [now apply T|now rewrite <- J3, (snt_at _ _ _ E)].
  - rewrite N. do 2 f_equal. unfold wcontent. clear -SL. induction pre as [|x pre IH]; [reflexivity|]. cbn. rewrite !length_app, !length_drop, SL, IH by auto using in_eq, in_cons. reflexivity.
  - destruct (reliable w) as [[dn p]|]; [|exact Logic.I]. destruct P as [-> ->]. split; [|reflexivity]. apply map_ext_in. intros x X. unfold seg_of. now rewrite SL.
Qed.

Lemma W_live m w pre : W m w pre -> exists b, buffers m !! buffer w = Some b /\ buffer_ok b.
Proof.
  intros H. destruct (mem_live _ _ (buffer w) (W_mem _ _ _ H)) as [b E]; [apply in_or_app; right; apply in_or_app; right; now left|].
  exists b. split; [exact E|]. apply (mo_buffers _ _ (W_mem _ _ _ H) _ _ E).
Qed.

(** [m'] differs from [m] in the writer's buffer, which has [d] more. *)
Definition appended (m m' : memory) (w : PacketWriter) (d : list (option Z)) : Prop :=
  dat m' (buffer w) = dat m (buffer w) ++ d /\ (forall x, x <> buffer w -> dat m' x = dat m x) /\
  (forall b', buffers m' !! buffer w = Some b' -> exists b, buffers m !! buffer w = Some b /\ size b' = size b) /\ fresh m' = fresh m.

Lemma W_append m w pre b d : W m w pre -> buffers m !! buffer w = Some b -> (Z.of_nat (length d) <= bytes_unwritten b)%Z ->
  exists m', append m (buffer w) d = Some m' /\ W m' w pre /\ appended m m' w d.
Proof.
  intros H E L. unfold append, modify. rewrite E. cbn [mbind option_bind]. eexists. split; [reflexivity|].
  pose proof (mo_buffers _ _ (W_mem _ _ _ H) _ _ E) as [O1 O2 O3]. unfold bytes_unwritten, bytes_written in *. split.
  - apply W_data; auto; rewrite ?length_app; [apply in_or_app; right; now left|congruence|lia|lia|].
    intros EA. destruct (W_a0 _ _ _ H) as (_ & T & _). rewrite <- EA, (dat_at _ _ _ E) in T. rewrite EA in T.
    rewrite take_app_le; [exact T|]. rewrite <- T at 1. rewrite length_take. lia.
  - split; [|split; [|split; [|reflexivity]]].
    + rewrite dat_store, Nat.eqb_refl, (dat_at _ _ _ E). reflexivity.
    + intros x N. rewrite dat_store. destruct (Nat.eqb_spec (buffer w) x); [congruence|reflexivity].
    + cbn. rewrite lookup_insert_eq. intros b' [= <-]. exists b. auto.
Qed.

Lemma appended_content m m' w pre d : W m w pre -> appended m m' w d -> wcontent m' (pre ++ [buffer w]) = wcontent m (pre ++ [buffer w]) ++ d.
Proof.
  intros H (E & S & _). unfold wcontent. rewrite !flat_map_app. cbn [flat_map]. rewrite !app_nil_r, E, drop_app_le by (eapply start_le; eauto).
  rewrite app_assoc. f_equal. f_equal. apply flat_map_ext_in. intros x X. rewrite S; [reflexivity|]. intros ->. exact (nodup_last _ _ _ (W_nodup _ _ _ H) X).
Qed.

Lemma wrefs_in m w pre : W m w pre -> In a0 (lq ++ pre ++ [buffer w]).
Proof. intros H. apply in_or_app. right. pose proof (W_head _ _ _ H) as E. destruct (pre ++ [buffer w]); [discriminate|]. injection E as ->. now left. Qed.

(** The chain with a new buffer at its end; [m'] is the memory after linking. *)
Lemma link_chain m m' l a n b : chain m o (l ++ [a]) -> NoDup (l ++ [a]) -> ~ In n (l ++ [a]) ->
  nxt m' a = Some n -> buffers m' !! n = Some b -> next b = None -> (forall x, x <> n -> x <> a -> nxt m' x = nxt m x) ->
  chain m' o ((l ++ [a]) ++ [n]) /\ NoDup ((l ++ [a]) ++ [n]).
Proof.
  intros C D NI NA E N X. split.
  - rewrite <- app_assoc. cbn [app]. apply (buffers_snoc m l a n o C D m' NA); [|unfold nxt; now rewrite E].
    intros x I. apply X; intros ->; [apply NI, in_or_app; now left|]. apply (nodup_last [] l a D I).
  - apply NoDup_app. split; [exact D|]. split; [|apply NoDup_singleton]. intros x Y Z. apply list_elem_of_In in Y. apply list_elem_of_singleton in Z. congruence.
Qed.

Lemma W_fresh_new m w pre : W m w pre -> ~ In (fresh m) (lq ++ pre ++ [buffer w]) /\ a0 <> fresh m.
Proof.
  intros H. split.
  - intros X. apply (mem_dead _ _ (fresh m) (W_mem _ _ _ H)); [lia|]. rewrite !in_app_iff in *. tauto.
  - destruct (W_a0 _ _ _ H), (W_mem _ _ _ H). pose proof (W_fresh _ _ _ H). lia.
Qed.

(** The writer is in the new buffer [fresh m] behind its own. *)
Lemma W_linked m w pre m' w' b nb : W m w pre -> buffers m !! buffer w = Some b -> buffer w' = fresh m -> fresh m' = S (fresh m) ->
  mem_ok m' (lq ++ (pre ++ [buffer w]) ++ [fresh m] ++ wrefs w' ++ others) ->
  buffers m' !! fresh m = Some nb -> bytes_sent nb = 0 -> next nb = None ->
  buffers m' !! buffer w = Some (set_next b (Some (fresh m))) -> (forall x, x <> fresh m -> x <> buffer w -> buffers m' !! x = buffers m !! x) ->
  plength w' = (plength w + Z.of_nat (bytes_written b))%Z ->
  (match reliable w' with Some (dn, p) => dn = map (seg_of m) (pre ++ [buffer w]) /\ p = (fresh m, 0) | None => True end) ->
  (match reliable w' with Some _ => true | None => false end) = (match reliable w with Some _ => true | None => false end) ->
  W m' w' (pre ++ [buffer w]).
Proof.
  intros H E BW FR MO EN SN NN EB X PL RE RK. pose proof H as [A B C D F G J K N P KI]. destruct (W_fresh_new _ _ _ H) as [NI NA].
  assert (V : forall x, x <> fresh m -> dat m' x = dat m x /\ snt m' x = snt m x).
  { intros x Y. unfold dat, snt. destruct (decide (x = buffer w)) as [->|Z]; [now rewrite EB, E|]. now rewrite X. }
  assert (VI : forall x, In x (pre ++ [buffer w]) -> x <> fresh m) by (intros x I ->; apply NI, in_or_app; now right).
  destruct (link_chain m m' (lq ++ pre) (buffer w) (fresh m) nb) as [CH ND]; rewrite <- ?app_assoc; auto.
  { now rewrite (nxt_at _ _ _ EB). } { intros x Y Z. unfold nxt. now rewrite X. }
  rewrite <- !app_assoc in CH, ND. constructor; rewrite ?BW; auto.
  - now rewrite <- app_assoc.
  - now rewrite <- app_assoc.
  - rewrite <- D. destruct pre; reflexivity.
  - intros x I Y. apply in_app_or in I. destruct I as [I|[<-|[]]].
    + destruct (F x I Y) as [F2 F3]. split; [exact F2|]. destruct (V x) as [_ ->]; auto.
    + split; [exact K|]. now rewrite (snt_at _ _ _ EN).
  - intros x I Y. rewrite <- G by assumption. apply X; [lia|]. intros ->. destruct (F (buffer w)); [apply in_or_app; right; now left|exact Y|lia].
  - destruct J as (J1 & J2 & J3). destruct (V a0 NA) as [-> ->]. auto.
  - lia.
  - rewrite PL, N. unfold start at 2. destruct (Nat.eqb_spec (fresh m) a0); [congruence|]. rewrite (wcontent_same m m') by (intros x I; apply V; auto).
    unfold wcontent at 2. rewrite flat_map_app, length_app. cbn [flat_map]. rewrite app_nil_r, length_drop. pose proof (start_le _ _ _ (buffer w) H).
    unfold bytes_written. rewrite <- (dat_at _ _ _ E). unfold wcontent. lia.
  - destruct (reliable w') as [[dn p]|]; [|exact Logic.I]. destruct RE as [-> ->]. split; [|unfold start; destruct (Nat.eqb_spec (fresh m) a0); congruence].
    apply map_ext_in. intros x I. unfold seg_of. destruct (V x) as [-> _]; auto.
  - congruence.
Qed.

Lemma W_next m w pre sz : W m w pre -> exists m' w' b,
  nextBuffer m w sz = Some (m', w') /\ W m' w' (pre ++ [buffer w]) /\ buffer w' = fresh m /\ buffers m' !! buffer w' = Some b /\
  data b = [] /\ size b = Z.max sz MIN /\ (forall x, x <> fresh m -> dat m' x = dat m x).
Proof.
  intros H. destruct (W_live _ _ _ H) as (b & E & O). unfold nextBuffer. rewrite E. cbn [mbind option_bind].
  destruct (link_ok m _ _ b sz (W_mem _ _ _ H) E) as (m2 & nb & L & A2 & F2 & NF & EN & D2 & S2 & N2 & Z2 & EB & X2).
  unfold link in L. destruct (create m sz) as [m1 n]. destruct (modify m1 (buffer w) (fun b => set_next b (Some n))) as [m2'|] eqn:MD; [|discriminate].
  cbn [mbind option_bind] in L. injection L as -> ->. cbn [mbind option_bind].
  assert (V : forall x, x <> fresh m -> dat m2 x = dat m x).
  { intros x Y. unfold dat. destruct (decide (x = buffer w)) as [->|Z]; [now rewrite EB, E|]. now rewrite X2. }
  pose proof (W_rel _ _ _ H) as P. unfold wrefs in A2. destruct (reliable w) as [[dn p]|] eqn:RW.
  - destruct P as [-> ->]. destruct (buffer_addref_ok m2 _ (fresh m) A2 (or_introl eq_refl)) as (m3 & -> & A3 & F3 & G3 & X3). cbn [mbind option_bind].
    pose proof (G3 (fresh m)) as GC. unfold agree in GC. rewrite EN in GC. destruct (buffers m3 !! fresh m) as [b3|] eqn:E3; [|discriminate].
    destruct nb, b3. cbn in *. injection GC as -> -> -> -> -> ->. subst. eexists _, _, _. split; [reflexivity|]. cbn [buffer]. split; [|do 2 (split; [reflexivity||exact E3|]); repeat split].
    + eapply (W_linked m w pre m3 _ b); eauto.
      * congruence.
      * eapply mem_occ; [|exact A3]. unfold wrefs. cbn [reliable]. occs.
      * now rewrite X3.
      * intros x Y Z. rewrite X3, X2; auto.
      * cbn [reliable]. rewrite map_app. cbn [map]. unfold seg_of at 3. rewrite (dat_at _ _ _ E). auto.
      * now rewrite RW.
    + intros x Y. destruct (agree_views _ _ _ (G3 x)) as (-> & _). auto.
  - eexists _, _, nb. split; [reflexivity|]. cbn [buffer]. split; [|repeat split; auto].
    eapply (W_linked m w pre m2 _ b); eauto; [|now rewrite RW]. eapply mem_occ; [|exact A2]. unfold wrefs. cbn [reliable]. occs.
Qed.

(** Later states of the writer: new buffers come last, and only the writer's
    buffer had bytes added. *)
Record grows (m : memory) (w : PacketWriter) (pre : list nat) (m' : memory) (w' : PacketWriter) (pre' : list nat) : Prop := {
  g_more : (pre' = pre /\ buffer w' = buffer w) \/ (exists r, pre' = pre ++ buffer w :: r);
  g_same : forall a, In a pre -> dat m' a = dat m a;
  g_len : length (dat m (buffer w)) <= length (dat m' (buffer w))
}.

Lemma grows_self m w pre : grows m w pre m w pre.
Proof. constructor; auto. Qed.

Lemma grows_trans m w pre m1 w1 pre1 m2 w2 pre2 : grows m w pre m1 w1 pre1 -> grows m1 w1 pre1 m2 w2 pre2 -> grows m w pre m2 w2 pre2.
Proof.
  intros [A1 B1 C1] [A2 B2 C2]. constructor.
  - destruct A1 as [[-> E1]|(r1 & ->)], A2 as [[-> E2]|(r2 & ->)].
    + left. split; congruence.
    + right. exists r2. now rewrite E1.
    + right. eauto.
    + right. rewrite <- app_assoc. cbn. eauto.
  - intros a I. rewrite B2, B1; auto. destruct A1 as [[-> _]|(r & ->)]; [exact I|]. apply in_or_app. now left.
  - destruct A1 as [[-> E1]|(r & ->)]; [rewrite E1 in *; lia|]. rewrite B2; [exact C1|]. apply in_or_app. right. now left.
Qed.

(** What an operation that adds the bytes [d] to the packet does. *)
Definition adds (m : memory) (w : PacketWriter) (pre : list nat) (d : list (option Z)) (m' : memory) (w' : PacketWriter) (pre' : list nat) : Prop :=
  W m' w' pre' /\ grows m w pre m' w' pre' /\ wcontent m' (pre' ++ [buffer w']) = wcontent m (pre ++ [buffer w]) ++ d.

Lemma adds_append m w pre b d : W m w pre -> buffers m !! buffer w = Some b -> (Z.of_nat (length d) <= bytes_unwritten b)%Z ->
  exists m', append m (buffer w) d = Some m' /\ adds m w pre d m' w pre /\ appended m m' w d.
Proof.
  intros H E L. destruct (W_append m w pre b d H E L) as (m' & A & H' & AP). exists m'. split; [exact A|]. split; [|exact AP].
  split; [exact H'|]. split; [|now apply appended_content]. destruct AP as (D & S & _). constructor; [now left| |rewrite D, length_app; lia].
  intros a I. apply S. intros ->. exact (nodup_last _ _ _ (W_nodup _ _ _ H) I).
Qed.

Lemma adds_next m w pre sz : W m w pre -> exists m' w' b,
  nextBuffer m w sz = Some (m', w') /\ adds m w pre [] m' w' (pre ++ [buffer w]) /\ buffer w' <> buffer w /\ buffers m' !! buffer w' = Some b /\ bytes_unwritten b = Z.max sz MIN /\ bytes_written b = 0 /\ size b = Z.max sz MIN /\
  (forall x, In x (pre ++ [buffer w]) -> dat m' x = dat m x).
Proof.
  intros H. destruct (W_next m w pre sz H) as (m' & w' & b & N & H' & B & E & D & S & V). exists m', w', b. split; [exact N|].
  destruct (W_fresh_new _ _ _ H) as [NI _].
  assert (X : forall x, In x (pre ++ [buffer w]) -> dat m' x = dat m x) by (intros x I; apply V; intros ->; apply NI, in_or_app; now right).
  split; [split; [exact H'|split]|split; [|split; [exact E|unfold bytes_unwritten, bytes_written; rewrite D, S; cbn [length]; repeat split; auto with zarith]]].
  - constructor; [right; exists []; reflexivity| |rewrite X by (apply in_or_app; right; now left); lia]. intros a I. apply X, in_or_app. now left.
  - unfold wcontent at 1. rewrite flat_map_app. cbn [flat_map]. rewrite (dat_at _ _ _ E), D, drop_nil, !app_nil_r. now apply wcontent_same.
  - intros Q. rewrite B in Q. apply NI. rewrite Q. rewrite !in_app_iff. cbn. tauto.
Qed.

Lemma adds_trans m w pre d1 m1 w1 pre1 d2 m2 w2 pre2 : adds m w pre d1 m1 w1 pre1 -> adds m1 w1 pre1 d2 m2 w2 pre2 -> adds m w pre (d1 ++ d2) m2 w2 pre2.
Proof.
  intros (_ & G1 & C1) (H2 & G2 & C2). split; [exact H2|]. split; [eapply grows_trans; eauto|]. now rewrite C2, C1, app_assoc.
Qed.

Lemma packet_bytes_ok m w pre d : W m w pre -> exists m' w' pre', serializeBytes m w d = Some (m', w') /\ adds m w pre (Some <$> d) m' w' pre'.
Proof.
  intros H. unfold serializeBytes. destruct d as [|x d]; cbn [length Nat.eqb].
  { exists m, w, pre. split; [reflexivity|]. split; [exact H|]. split; [apply grows_self|]. now rewrite app_nil_r. }
  destruct (W_live _ _ _ H) as (b & E & O). rewrite E. cbn [mbind option_bind]. set (dd := Some <$> x :: d). assert (LD : length dd = S (length d)) by (unfold dd; now rewrite length_fmap).
  destruct (Z.leb_spec (Z.of_nat (S (length d))) (bytes_unwritten b)) as [L|L].
  - destruct (adds_append m w pre b dd H E) as (m' & -> & A & _); [lia|]. cbn [mbind option_bind]. eauto.
  - unfold serializeBytesAcrossBoundary. cbn [across_loop]. rewrite E. cbn [mbind option_bind]. rewrite LD, Z.min_r by lia. set (n := Z.to_nat (bytes_unwritten b)).
    assert (NN : n < length dd /\ (Z.of_nat n = bytes_unwritten b)%Z) by (destruct O; unfold n, bytes_unwritten, bytes_written in *; lia).
    destruct (adds_append m w pre b (take n dd) H E) as (m1 & -> & A1 & _); [rewrite length_take; lia|]. cbn [mbind option_bind].
    clearbody dd n. destruct (drop n dd) as [|y rest] eqn:DR; [apply (f_equal length) in DR; rewrite length_drop in DR; cbn [length] in DR; lia|]. rewrite <- DR.
    destruct (adds_next m1 w pre (Z.of_nat (length (drop n dd))) (proj1 A1)) as (m2 & w2 & b2 & -> & A2 & _ & E2 & U2 & _). cbn [mbind option_bind].
    rewrite E2. cbn [mbind option_bind]. rewrite U2, Z.min_l, Nat2Z.id, firstn_all, drop_all by lia.
    destruct (adds_append m2 w2 (pre ++ [buffer w]) b2 (drop n dd) (proj1 A2) E2) as (m3 & -> & A3 & _); [lia|]. cbn [mbind option_bind].
    eexists _, _, _. split; [reflexivity|]. rewrite <- (take_drop n dd). change (drop n dd) with ([] ++ drop n dd). rewrite <- app_nil_l at 1.
    eapply adds_trans; [exact A1|]. eapply adds_trans; [exact A2|exact A3].
Qed.

(** The address [p] is that of the packet's byte [pos]. *)
Definition place (m : memory) (t : list nat) (p : nat * nat) (pos : nat) : Prop :=
  exists t1 t2, t = t1 ++ fst p :: t2 /\ start (fst p) <= snd p /\ pos = length (wcontent m t1) + (snd p - start (fst p)).

Lemma wcontent_len m m' t : (forall a, length (dat m' a) = length (dat m a)) -> length (wcontent m' t) = length (wcontent m t).
Proof. intros H. induction t as [|a t IH]; [reflexivity|]. cbn. rewrite !length_app, !length_drop, H. unfold wcontent in IH. lia. Qed.

Lemma place_len m m' t p pos : (forall a, length (dat m' a) = length (dat m a)) -> place m t p pos -> place m' t p pos.
Proof. intros H (t1 & t2 & E & S & P). exists t1, t2. split; [exact E|]. split; [exact S|]. now rewrite (wcontent_len m m'). Qed.

Lemma fill_ok m w pre p pos d : W m w pre -> place m (pre ++ [buffer w]) p pos -> snd p + length d <= length (dat m (fst p)) ->
  exists m', memcpy_at m p d = Some m' /\ W m' w pre /\ (forall a, length (dat m' a) = length (dat m a)) /\
    wcontent m' (pre ++ [buffer w]) = splice (wcontent m (pre ++ [buffer w])) pos (Some <$> d).
Proof.
  intros H (t1 & t2 & T & S & ->) L. destruct p as [a k]. cbn [fst snd] in *. assert (I : In a (pre ++ [buffer w])) by (rewrite T; apply in_or_app; right; now left).
  destruct (mem_live _ _ a (W_mem _ _ _ H)) as [b E]; [rewrite in_app_iff; right; rewrite app_assoc; apply in_or_app; now left|].
  pose proof (mo_buffers _ _ (W_mem _ _ _ H) _ _ E) as [O1 O2 _]. rewrite (dat_at _ _ _ E) in L. unfold bytes_written in *.
  unfold memcpy_at. cbn [fst snd]. rewrite E. cbn [mbind option_bind]. unfold bytes_written. rewrite (proj2 (Nat.leb_le _ _) L). eexists. split; [reflexivity|].
  assert (LS : length (splice (data b) k (Some <$> d)) = length (data b)) by (apply length_splice; rewrite length_fmap; lia). split; [|split].
  - apply W_data; auto; try lia. intros ->. destruct (W_a0 _ _ _ H) as (_ & TA & _). rewrite (dat_at _ _ _ E) in TA. unfold start in S. rewrite Nat.eqb_refl in S.
    rewrite splice_take; [exact TA|exact S|lia].
  - intros x. rewrite dat_store. destruct (Nat.eqb_spec a x) as [->|_]; [|reflexivity]. now rewrite (dat_at _ _ _ E).
  - assert (ND : NoDup (t1 ++ a :: t2)) by (rewrite <- T; pose proof (W_nodup _ _ _ H) as ND; apply NoDup_app in ND; tauto).
    assert (NA : ~ In a t1 /\ ~ In a t2).
    { apply NoDup_app in ND. destruct ND as (_ & D1 & D2). apply NoDup_cons in D2. rewrite !list_elem_of_In in D2. split; [|tauto]. intros X. apply (D1 a); [now apply list_elem_of_In|now left]. }
    assert (SM : forall x, x <> a -> dat (store m a (set_data b (splice (data b) k (Some <$> d)))) x = dat m x).
    { intros x N. rewrite dat_store. destruct (Nat.eqb_spec a x); [congruence|reflexivity]. }
    rewrite T. unfold wcontent. rewrite !flat_map_app. cbn [flat_map]. fold (wcontent m t1). rewrite splice_app by (rewrite length_drop, length_fmap, (dat_at _ _ _ E); lia).
    rewrite dat_store, Nat.eqb_refl. cbn [set_data data]. rewrite splice_drop, (dat_at _ _ _ E) by (rewrite ?length_fmap; lia).
    f_equal; [|f_equal]; apply flat_map_ext_in; intros x X; rewrite SM; auto; intros ->; tauto.
Qed.

Lemma place_grows m w pre m' w' pre' p pos : W m w pre -> grows m w pre m' w' pre' -> place m (pre ++ [buffer w]) p pos -> place m' (pre' ++ [buffer w']) p pos.
Proof.
  intros H [A B C] (t1 & t2 & T & S & ->). assert (I : forall x, In x t1 -> In x pre).
  { destruct t2 as [|z t2 _] using rev_ind; [apply app_inj_tail in T; destruct T as [-> _]; auto|].
    rewrite app_comm_cons, app_assoc in T. apply app_inj_tail in T. destruct T as [-> _]. intros x X. apply in_or_app. now left. }
  assert (X : exists t3, pre' ++ [buffer w'] = t1 ++ fst p :: t3).
  { destruct A as [[-> ->]|(r & ->)]; [eauto|]. exists (t2 ++ r ++ [buffer w']). rewrite app_comm_cons, app_assoc, <- T, <- !app_assoc. reflexivity. }
  destruct X as (t3 & X). exists t1, t3. split; [exact X|]. split; [exact S|]. now rewrite (wcontent_same m m') by auto.
Qed.

Lemma dat_grows m w pre m' w' pre' a : W m w pre -> grows m w pre m' w' pre' -> In a (pre ++ [buffer w]) -> length (dat m a) <= length (dat m' a).
Proof. intros H [A B C] I. apply in_app_or in I. destruct I as [I|[<-|[]]]; [now rewrite B|exact C]. Qed.

(** The place of [n] bytes from the packet's byte [pos] on. *)
Definition located (m : memory) (t : list nat) (s : SplitBuffer) (pos n : nat) : Prop :=
  In (fst (sbegin s)) t /\ start (fst (sbegin s)) <= snd (sbegin s) /\ snd (sbegin s) + first_length s <= length (dat m (fst (sbegin s))) /\
  (0 < first_length s -> place m t (sbegin s) pos) /\
  (n <= first_length s \/ exists p, snext s = Some p /\ place m t p (pos + first_length s) /\ snd p + (n - first_length s) <= length (dat m (fst p))).

Lemma place_in m t p pos : place m t p pos -> In (fst p) t.
Proof. intros (t1 & t2 & -> & _). apply in_or_app. right. now left. Qed.

Lemma located_grows m w pre m' w' pre' s pos n : W m w pre -> grows m w pre m' w' pre' -> located m (pre ++ [buffer w]) s pos n -> located m' (pre' ++ [buffer w']) s pos n.
Proof.
  intros H G (A & B & C & D & E). pose proof (g_more _ _ _ _ _ _ G) as M. split; [|split; [exact B|split; [|split]]].
  - destruct M as [[-> ->]|(r & ->)]; [exact A|]. rewrite <- app_assoc. rewrite in_app_iff in *. cbn in *. rewrite in_app_iff. cbn. tauto.
  - pose proof (dat_grows _ _ _ _ _ _ _ H G A). lia.
  - intros X. eapply place_grows; eauto.
  - destruct E as [E|(p & E & P & L)]; [now left|]. right. exists p. split; [exact E|]. split; [eapply place_grows; eauto|].
    pose proof (dat_grows _ _ _ _ _ _ _ H G (place_in _ _ _ _ P)). lia.
Qed.

Lemma located_len m m' t s pos n : (forall a, length (dat m' a) = length (dat m a)) -> located m t s pos n -> located m' t s pos n.
Proof.
  intros H (A & B & C & D & E). split; [exact A|]. split; [exact B|]. split; [now rewrite H|]. split; [intros X; eapply place_len; eauto|].
  destruct E as [E|(p & E & P & L)]; [now left|]. right. exists p. split; [exact E|]. split; [eapply place_len; eauto|now rewrite H].
Qed.

(** The bytes [d] are written over the packet's bytes from [pos] on. *)
Definition filled (m : memory) (w : PacketWriter) (pre : list nat) (m' : memory) (pos : nat) (d : list Z) : Prop :=
  W m' w pre /\ (forall a, length (dat m' a) = length (dat m a)) /\ wcontent m' (pre ++ [buffer w]) = splice (wcontent m (pre ++ [buffer w])) pos (Some <$> d).

Lemma place_shift m t p pos k : place m t p pos -> place m t (shift p k) (pos + k).
Proof. intros (t1 & t2 & E & S & ->). exists t1, t2. cbn. split; [exact E|]. split; lia. Qed.

Lemma place_bound m t p pos k : place m t p pos -> snd p + k <= length (dat m (fst p)) -> pos + k <= length (wcontent m t).
Proof.
  intros (t1 & t2 & -> & S & ->) L. unfold wcontent. rewrite flat_map_app, length_app. cbn [flat_map]. rewrite length_app, length_drop. fold (wcontent m t1). lia.
Qed.

Lemma splice_nil {A} (l : list A) k : splice l k [] = l.
Proof. unfold splice. cbn. now rewrite Nat.add_0_r, take_drop. Qed.

Lemma fill_nothing m w pre p : W m w pre -> In (fst p) (pre ++ [buffer w]) -> start (fst p) <= snd p -> snd p <= length (dat m (fst p)) ->
  forall pos, exists m', memcpy_at m p [] = Some m' /\ filled m w pre m' pos [].
Proof.
  intros H I S L pos. apply in_split in I. destruct I as (t1 & t2 & T).
  destruct (fill_ok m w pre p (length (wcontent m t1) + (snd p - start (fst p))) [] H) as (m' & E & H' & LN & C).
  { exists t1, t2. auto. } { cbn. lia. }
  exists m'. split; [exact E|]. split; [exact H'|]. split; [exact LN|]. rewrite C. cbn [fmap list_fmap]. now rewrite !splice_nil.
Qed.

Lemma write_first m w pre s pos n d k : W m w pre -> located m (pre ++ [buffer w]) s pos n -> length d + k <= first_length s ->
  exists m', memcpy_at m (shift (sbegin s) k) d = Some m' /\ filled m w pre m' (pos + k) d.
Proof.
  intros H (A & B & C & D & _) L. destruct (first_length s) as [|f] eqn:F.
  - destruct d as [|x d]; [|cbn in L; lia]. apply fill_nothing; cbn; auto; lia.
  - destruct (fill_ok m w pre (shift (sbegin s) k) (pos + k) d H) as (m' & E & R); [apply place_shift, D; lia|cbn; lia|]. exists m'. split; [exact E|exact R].
Qed.

Lemma write_second m w pre s pos n d k : W m w pre -> located m (pre ++ [buffer w]) s pos n -> length d + (first_length s + k) <= n -> first_length s < n ->
  exists m' p, snext s = Some p /\ memcpy_at m (shift p k) d = Some m' /\ filled m w pre m' (pos + (first_length s + k)) d.
Proof.
  intros H (_ & _ & _ & _ & [E|(p & E & P & L)]) N F; [lia|].
  destruct (fill_ok m w pre (shift p k) (pos + first_length s + k) d H) as (m' & X & R); [now apply place_shift|cbn; lia|].
  exists m', p. split; [exact E|]. split; [exact X|]. now rewrite Nat.add_assoc.
Qed.

Lemma located_bound m t s pos n : located m t s pos n -> (0 < n -> pos + n <= length (wcontent m t)).
Proof.
  intros (A & B & C & D & E) N. destruct (decide (n <= first_length s)) as [L|L].
  - apply (place_bound m t (sbegin s)); [apply D; lia|lia].
  - destruct E as [E|(p & _ & P & Q)]; [lia|]. pose proof (place_bound _ _ _ _ _ P Q). lia.
Qed.

Lemma filled_then m w pre m1 m2 pos d k : k <= length d -> pos + length d <= length (wcontent m (pre ++ [buffer w])) ->
  filled m w pre m1 pos (take k d) -> filled m1 w pre m2 (pos + k) (drop k d) -> filled m w pre m2 pos d.
Proof.
  intros K L (_ & L1 & C1) (H2 & L2 & C2). split; [exact H2|]. split; [intros a; now rewrite L2, L1|]. rewrite C2, C1, fmap_take, fmap_drop.
  apply splice_split; rewrite length_fmap; assumption.
Qed.

(** A write over a boundary, in its two parts. *)
Lemma write_both m w pre s pos n d k : W m w pre -> located m (pre ++ [buffer w]) s pos n -> k <= first_length s -> first_length s < length d + k -> length d + k <= n ->
  exists m1 p m2, memcpy_at m (shift (sbegin s) k) (take (first_length s - k) d) = Some m1 /\ snext s = Some p /\
    memcpy_at m1 p (drop (first_length s - k) d) = Some m2 /\ filled m w pre m2 (pos + k) d.
Proof.
  intros H LO K F N. destruct (write_first m w pre s pos n (take (first_length s - k) d) k H LO) as (m1 & E1 & R1); [rewrite length_take; lia|].
  pose proof R1 as (H1 & LN & _). apply (located_len m m1) in LO as LO1; [|exact LN].
  destruct (write_second m1 w pre s pos n (drop (first_length s - k) d) 0 H1 LO1) as (m2 & p & EP & E2 & R2); [rewrite length_drop; lia|lia|].
  exists m1, p, m2. split; [exact E1|]. split; [exact EP|]. split; [destruct p; unfold shift in E2; cbn in E2; rewrite Nat.add_0_r in E2; exact E2|].
  apply (filled_then m w pre m1 m2 (pos + k) d (first_length s - k)); [lia| |exact R1|].
  - pose proof (located_bound _ _ _ _ _ LO). lia.
  - replace (pos + k + (first_length s - k)) with (pos + (first_length s + 0)) by lia. exact R2.
Qed.

Lemma SplitBuffer_write_ok m w pre s pos n d k : W m w pre -> located m (pre ++ [buffer w]) s pos n -> k + length d <= n ->
  exists m', SplitBuffer_write m s d k = Some m' /\ filled m w pre m' (pos + k) d.
Proof.
  intros H LO N. unfold SplitBuffer_write. destruct (Nat.leb_spec (length d + k) (first_length s)) as [L|L]; [eapply write_first; eauto|].
  destruct (Nat.leb_spec (first_length s) k) as [K|K].
  - destruct (write_second m w pre s pos n d (k - first_length s) H LO) as (m' & p & -> & E & R); [lia|lia|]. cbn [mbind option_bind].
    exists m'. split; [exact E|]. now replace (first_length s + (k - first_length s)) with k in R by lia.
  - destruct (write_both m w pre s pos n d k H LO) as (m1 & p & m2 & E1 & EP & E2 & R); [lia..|]. rewrite E1. cbn [mbind option_bind]. rewrite EP. cbn [mbind option_bind]. eauto.
Qed.

Lemma writeAndShrink_ok m w pre s pos n d : W m w pre -> located m (pre ++ [buffer w]) s pos n -> length d <= n ->
  exists m' s', writeAndShrink m s d = Some (m', s') /\ filled m w pre m' pos d /\ located m' (pre ++ [buffer w]) s' (pos + length d) (n - length d).
Proof.
  intros H LO N. unfold writeAndShrink. assert (Z : forall p, shift p 0 = p) by (intros []; unfold shift; cbn; now rewrite Nat.add_0_r).
  destruct (Nat.leb_spec (length d) (first_length s)) as [L|L].
  - destruct (write_first m w pre s pos n d 0 H LO) as (m' & E & R); [lia|]. rewrite Z in E. rewrite E. cbn [mbind option_bind]. rewrite Nat.add_0_r in R.
    eexists _, _. split; [reflexivity|]. split; [exact R|]. apply (located_len m); [apply R|]. destruct LO as (A & B & C & D & F). unfold located. cbn [sbegin snext first_length shift fst snd].
    split; [exact A|]. split; [lia|]. split; [lia|]. split; [intros X; apply place_shift, D; lia|].
    destruct F as [F|(p & F & P & Q)]; [left; lia|]. right. exists p. split; [exact F|]. replace (pos + length d + (first_length s - length d)) with (pos + first_length s) by lia. split; [exact P|lia].
  - destruct (write_both m w pre s pos n d 0 H LO) as (m1 & p & m2 & E1 & EP & E2 & R); [lia..|]. rewrite Z, Nat.sub_0_r in E1. rewrite E1. cbn [mbind option_bind]. rewrite EP. cbn [mbind option_bind].
    rewrite Nat.sub_0_r in E2. rewrite E2. cbn [mbind option_bind]. rewrite Nat.add_0_r in R. eexists _, _. split; [reflexivity|]. split; [exact R|]. apply (located_len m); [apply R|].
    destruct LO as (A & B & C & D & F). unfold located. cbn [sbegin snext first_length]. split; [exact A|]. split; [exact B|]. split; [lia|]. split; [lia|].
    destruct F as [F|(p' & F & P & Q)]; [lia|]. assert (p' = p) as -> by congruence. right. eexists. split; [reflexivity|]. cbn [shift fst snd]. split; [|lia].
    replace (pos + length d + 0) with (pos + first_length s + (length d - first_length s)) by lia. now apply place_shift.
Qed.

Lemma here_place m w pre b : W m w pre -> buffers m !! buffer w = Some b ->
  place m (pre ++ [buffer w]) (buffer w, bytes_written b) (length (wcontent m (pre ++ [buffer w]))).
Proof.
  intros H E. exists pre, []. cbn [fst snd]. pose proof (start_le _ _ _ (buffer w) H). rewrite (dat_at _ _ _ E) in *. split; [reflexivity|]. split; [exact H0|].
  unfold wcontent at 1. rewrite flat_map_app, length_app. cbn [flat_map]. rewrite app_nil_r, length_drop, (dat_at _ _ _ E). reflexivity.
Qed.

Lemma adds_none m w pre : W m w pre -> adds m w pre [] m w pre.
Proof. intros H. split; [exact H|]. split; [apply grows_self|]. now rewrite app_nil_r. Qed.

(** [n] bytes are taken at the writer's end. *)
Lemma take_room m w pre b n : W m w pre -> buffers m !! buffer w = Some b -> (Z.of_nat n <= bytes_unwritten b)%Z ->
  exists m', append m (buffer w) (replicate n None) = Some m' /\ adds m w pre (replicate n None) m' w pre /\
    place m' (pre ++ [buffer w]) (buffer w, bytes_written b) (length (wcontent m (pre ++ [buffer w]))) /\ length (dat m' (buffer w)) = bytes_written b + n.
Proof.
  intros H E L. destruct (adds_append m w pre b (replicate n None) H E) as (m' & A & AD & AP); [now rewrite length_replicate|]. exists m'. split; [exact A|].
  split; [exact AD|]. split; [eapply place_grows; [exact H|apply AD|now apply here_place]|].
  destruct AP as (-> & _). now rewrite length_app, length_replicate, (dat_at _ _ _ E).
Qed.

Lemma packet_room_ok m w pre n : W m w pre -> exists m' w' p pre', writeBytes m w n = Some (m', w', p) /\ adds m w pre (replicate n None) m' w' pre' /\
  place m' (pre' ++ [buffer w']) p (length (wcontent m (pre ++ [buffer w]))) /\ snd p + n <= length (dat m' (fst p)).
Proof.
  intros H. unfold writeBytes. destruct (W_live _ _ _ H) as (b & E & O). rewrite E. cbn [mbind option_bind].
  assert (X : exists m1 w1 pre1 b1, (if (bytes_unwritten b <? Z.of_nat n)%Z then
               '(m, w) ← nextBuffer m w (Z.of_nat n); b ← buffers m !! buffer w; if (Z.of_nat n <=? size b)%Z then Some (m, w) else None
             else Some (m, w)) = Some (m1, w1) /\ adds m w pre [] m1 w1 pre1 /\ buffers m1 !! buffer w1 = Some b1 /\ (Z.of_nat n <= bytes_unwritten b1)%Z).
  { destruct (Z.ltb_spec (bytes_unwritten b) (Z.of_nat n)) as [L|L]; [|exists m, w, pre, b; auto using adds_none].
    destruct (adds_next m w pre (Z.of_nat n) H) as (m1 & w1 & b1 & -> & A & _ & E1 & U1 & _ & S1 & _). cbn [mbind option_bind]. rewrite E1. cbn [mbind option_bind].
    rewrite S1, (proj2 (Z.leb_le _ _)) by lia. exists m1, w1, (pre ++ [buffer w]), b1. split; [reflexivity|]. split; [exact A|]. split; [exact E1|lia]. }
  destruct X as (m1 & w1 & pre1 & b1 & -> & A1 & E1 & U1). cbn [mbind option_bind]. rewrite E1. cbn [mbind option_bind].
  destruct (take_room m1 w1 pre1 b1 n (proj1 A1) E1 U1) as (m2 & -> & A2 & P & L). cbn [mbind option_bind].
  eexists _, _, _, _. split; [reflexivity|]. split; [eapply (adds_trans _ _ _ []); eauto|]. cbn [fst snd]. split; [|lia].
  destruct A1 as (_ & _ & C1). rewrite app_nil_r in C1. now rewrite <- C1.
Qed.

Lemma writeAhead_ok m w pre n : W m w pre -> exists m' w' s pre', writeAhead m w n = Some (m', w', s) /\ adds m w pre (replicate n None) m' w' pre' /\
  located m' (pre' ++ [buffer w']) s (length (wcontent m (pre ++ [buffer w]))) n.
Proof.
  intros H. unfold writeAhead. destruct (W_live _ _ _ H) as (b & E & O). rewrite E. cbn [mbind option_bind]. pose proof (ok_written _ O) as OW.
  assert (SL : start (buffer w) <= bytes_written b) by (unfold bytes_written; rewrite <- (dat_at _ _ _ E); eapply start_le; eauto).
  destruct (Z.leb_spec (Z.of_nat n) (bytes_unwritten b)) as [L|L].
  - destruct (take_room m w pre b n H E L) as (m1 & -> & A1 & P & LN). cbn [mbind option_bind]. eexists _, _, _, _. split; [reflexivity|]. split; [exact A1|].
    split; [eapply place_in, P|]. cbn [sbegin snext first_length fst snd]. split; [exact SL|]. split; [lia|]. split; [auto|]. left. lia.
  - set (f := Z.to_nat (bytes_unwritten b)). assert (FB : (Z.of_nat f = bytes_unwritten b)%Z) by (subst f; unfold bytes_unwritten in *; lia). clearbody f.
    destruct (take_room m w pre b f H E) as (m1 & -> & A1 & P1 & L1); [lia|]. cbn [mbind option_bind].
    destruct (adds_next m1 w pre (Z.of_nat (n - f)) (proj1 A1)) as (m2 & w2 & b2 & -> & A2 & NE & E2 & U2 & B2 & _ & V2). cbn [mbind option_bind].
    destruct (take_room m2 w2 _ b2 (n - f) (proj1 A2) E2) as (m3 & -> & A3 & P3 & L3); [lia|]. cbn [mbind option_bind].
    pose proof (adds_trans _ _ _ _ _ _ _ _ _ _ _ A1 (adds_trans _ _ _ _ _ _ _ _ _ _ _ A2 A3)) as A. cbn [app] in A. rewrite <- replicate_add in A. replace (f + (n - f)) with n in A by lia.
    eexists _, _, _, _. split; [reflexivity|]. split; [exact A|]. pose proof (proj1 A1) as H1.
    assert (G : grows m1 w pre m3 w2 (pre ++ [buffer w])) by (eapply grows_trans; [apply A2|apply A3]).
    assert (I1 : In (buffer w) (pre ++ [buffer w])) by (apply in_or_app; right; now left).
    split; [cbn; rewrite in_app_iff; now left|]. cbn [sbegin snext first_length fst snd]. split; [exact SL|].
    split; [pose proof (dat_grows _ _ _ _ _ _ _ H1 G I1); lia|]. split; [intros _; eapply place_grows; eauto|].
    right. eexists. split; [reflexivity|]. cbn [fst snd]. rewrite B2 in P3. split; [|lia].
    destruct A1 as (_ & _ & C1), A2 as (_ & _ & C2). rewrite app_nil_r in C2. rewrite C2, C1, length_app, length_replicate in P3. exact P3.
Qed.

Definition places (m : memory) (t : list nat) (ss : list SplitBuffer) (sp : list (nat * nat)) : Prop := Forall2 (fun s x => located m t s (fst x) (snd x)) ss sp.

Lemma places_filled m w pre m' pos d ss sp : filled m w pre m' pos d -> places m (pre ++ [buffer w]) ss sp -> places m' (pre ++ [buffer w]) ss sp.
Proof. intros (_ & L & _) P. eapply Forall2_impl; [exact P|]. intros s x. now apply located_len. Qed.

Lemma places_grows m w pre m' w' pre' ss sp : W m w pre -> grows m w pre m' w' pre' -> places m (pre ++ [buffer w]) ss sp -> places m' (pre' ++ [buffer w']) ss sp.
Proof. intros H G P. eapply Forall2_impl; [exact P|]. intros s x. now apply located_grows. Qed.

Lemma splice_end {A} (c d e : list A) : length e = length d -> splice (c ++ e) (length c) d = c ++ d.
Proof.
  intros L. pose proof (splice_app c e [] 0 d) as S. rewrite Nat.add_0_r, !app_nil_r in S. rewrite S by lia. unfold splice. cbn. rewrite <- L, drop_all, app_nil_r. reflexivity.
Qed.

Lemma write_item_ok m w pre ss c sp i c' sp' : W m w pre -> wcontent m (pre ++ [buffer w]) = c -> places m (pre ++ [buffer w]) ss sp ->
  spec_item c sp i = Some (c', sp') ->
  exists m' w' ss' pre', write_item m w ss i = Some (m', w', ss') /\ W m' w' pre' /\ wcontent m' (pre' ++ [buffer w']) = c' /\ places m' (pre' ++ [buffer w']) ss' sp'.
Proof.
  intros H C P S. destruct i as [d|d|n|k f d|k d]; cbn [spec_item write_item] in *.
  - injection S as <- <-. destruct (packet_bytes_ok m w pre d H) as (m' & w' & pre' & -> & H' & G & C'). cbn [mbind option_bind].
    exists m', w', ss, pre'. split; [reflexivity|]. split; [exact H'|]. split; [now rewrite C', C|]. eapply places_grows; [exact H| |exact P]; assumption.
  - injection S as <- <-. destruct (packet_room_ok m w pre (length d) H) as (m1 & w1 & p & pre1 & -> & (H1 & G1 & C1) & PL & L). cbn [mbind option_bind].
    destruct (fill_ok m1 w1 pre1 p _ d H1 PL L) as (m2 & -> & H2 & L2 & C2). cbn [mbind option_bind]. exists m2, w1, ss, pre1. split; [reflexivity|]. split; [exact H2|]. split.
    + rewrite C2, C1, C. apply splice_end. now rewrite length_replicate, length_fmap.
    + apply (places_filled m1 w1 pre1 m2 (length (wcontent m (pre ++ [buffer w]))) d); [split; [exact H2|split; [exact L2|exact C2]]|]. eapply places_grows; [exact H| |exact P]; assumption.
  - injection S as <- <-. destruct (writeAhead_ok m w pre n H) as (m' & w' & s & pre' & -> & (H' & G & C') & LO). cbn [mbind option_bind].
    exists m', w', (ss ++ [s]), pre'. split; [reflexivity|]. split; [exact H'|]. split; [now rewrite C', C|]. apply Forall2_app; [eapply places_grows; [exact H| |exact P]; assumption|].
    constructor; [|constructor]. cbn. now rewrite <- C.
  - destruct (sp !! k) as [[pos n]|] eqn:K; [|discriminate]. cbn [mbind option_bind] in S. destruct (Nat.leb_spec (f + length d) n) as [L|L]; [|discriminate]. injection S as <- <-.
    destruct (Forall2_lookup_r _ _ _ _ _ P K) as (s & -> & LO). cbn [mbind option_bind fst snd] in *.
    destruct (SplitBuffer_write_ok m w pre s pos n d f H LO L) as (m' & -> & R). cbn [mbind option_bind]. exists m', w, ss, pre. split; [reflexivity|].
    split; [apply R|]. split; [rewrite <- C; apply R|]. eapply places_filled; eauto.
  - destruct (sp !! k) as [[pos n]|] eqn:K; [|discriminate]. cbn [mbind option_bind] in S. destruct (Nat.leb_spec (length d) n) as [L|L]; [|discriminate]. injection S as <- <-.
    destruct (Forall2_lookup_r _ _ _ _ _ P K) as (s & -> & LO). cbn [mbind option_bind fst snd] in *.
    destruct (writeAndShrink_ok m w pre s pos n d H LO L) as (m' & s' & -> & R & LO'). cbn [mbind option_bind]. eexists m', w, _, pre. split; [reflexivity|].
    split; [apply R|]. split; [rewrite <- C; apply R|]. apply Forall2_insert; [eapply places_filled; eauto|exact LO'].
Qed.

Lemma write_items_ok l : forall m w pre ss c sp c', W m w pre -> wcontent m (pre ++ [buffer w]) = c -> places m (pre ++ [buffer w]) ss sp ->
  spec_items c sp l = Some c' -> exists m' w' pre', write_items m w ss l = Some (m', w') /\ W m' w' pre' /\ wcontent m' (pre' ++ [buffer w']) = c'.
Proof.
  induction l as [|i l IH]; intros m w pre ss c sp c' H C P S; cbn [spec_items write_items] in *; [injection S as <-; eauto 6|].
  destruct (spec_item c sp i) as [[c1 sp1]|] eqn:I; [|discriminate]. cbn [mbind option_bind] in S.
  destruct (write_item_ok m w pre ss c sp i c1 sp1 H C P I) as (m1 & w1 & ss1 & pre1 & -> & H1 & C1 & P1). cbn [mbind option_bind]. eapply IH; eauto.
Qed.

Lemma init_ok : mem_ok m0 (lq ++ [a0] ++ others) -> chain m0 o (lq ++ [a0]) -> NoDup (lq ++ [a0]) ->
  exists m w, init m0 a0 rel = Some (m, w) /\ W m w [] /\ wcontent m ([] ++ [buffer w]) = [].
Proof.
  intros M C D. destruct (mem_live _ _ a0 M) as [b E]; [apply in_or_app; right; now left|]. unfold init. rewrite E. cbn [mbind option_bind].
  pose proof (mo_bound _ _ M _ _ E) as B. assert (SA : start a0 = length (dat m0 a0)) by (unfold start; now rewrite Nat.eqb_refl).
  assert (BW : bytes_written b = start a0) by (rewrite SA, (dat_at _ _ _ E); reflexivity).
  destruct rel eqn:RL.
  - destruct (buffer_addref_ok m0 _ a0 M) as (m1 & -> & M1 & F1 & G1 & X1); [apply in_or_app; right; now left|]. cbn [mbind option_bind].
    destruct (agree_views _ _ _ (G1 a0)) as (DA & SN & _). eexists _, _. split; [reflexivity|]. split.
    + constructor; cbn [buffer reliable plength app]; auto; rewrite ?DA, ?F1.
      * eapply mem_occ; [|exact M1]. unfold wrefs. cbn [reliable]. occs.
      * apply (chain_views m0); [|exact C]. intros x _. now destruct (agree_views _ _ _ (G1 x)) as (_ & _ & ->).
      * intros a [<-|[]] N. congruence.
      * rewrite firstn_all. auto.
      * lia.
      * rewrite BW. cbn. lia.
    + cbn. rewrite SA, DA, drop_all. reflexivity.
  - eexists _, _. split; [reflexivity|]. split.
    + constructor; cbn [buffer reliable plength app]; auto.
      * intros a [<-|[]] N. congruence.
      * rewrite firstn_all. auto.
      * rewrite BW. cbn. lia.
    + cbn. now rewrite SA, drop_all.
Qed.

Lemma writer_finish_ok m w pre : W m w pre -> finish m w = Some (buffer w, Z.of_nat (length (wcontent m (pre ++ [buffer w]))),
  if rel then Some (map (seg_of m) (pre ++ [buffer w])) else None).
Proof.
  intros H. rewrite (W_kind _ _ _ H). destruct (W_live _ _ _ H) as (b & E & O). unfold finish. rewrite E. cbn [mbind option_bind]. pose proof (start_le _ _ _ (buffer w) H) as SL.
  rewrite (dat_at _ _ _ E) in SL. unfold bytes_written. do 3 f_equal.
  - rewrite (W_len _ _ _ H). unfold wcontent at 2. rewrite flat_map_app, length_app. cbn [flat_map]. rewrite app_nil_r, length_drop, (dat_at _ _ _ E). unfold wcontent. lia.
  - pose proof (W_rel _ _ _ H) as P. destruct (reliable w) as [[dn p]|]; [|reflexivity]. destruct P as [-> ->]. rewrite map_app. cbn [map]. unfold seg_of at 3. now rewrite (dat_at _ _ _ E).
Qed.

Lemma pbytes_segs m t : pbytes m (map (seg_of m) t) = wcontent m t.
Proof.
  induction t as [|a t IH]; [reflexivity|]. unfold pbytes, wcontent in *. cbn [map flat_map]. rewrite IH. f_equal. unfold seg_bytes, seg_of. cbn.
  rewrite <- length_drop. apply firstn_all.
Qed.
End Writer.
