(* ===== verification/PacketsProofs.v ===== *)
(** The packet buffers: bytes are sent in the order they were written, reliable
    packets keep their bytes, and references are counted right. *)

From stdpp Require Import base gmap list.
From Stdlib Require Import ZArith Lia.
From S2P Require Import Prelude Packets PacketsWriter.
#[local] Open Scope nat_scope.

(** * The queue and the reliable packets *)

Record Q (m : memory) (q : UnsentPacketQueue) (ps : list packet) (l : list nat) : Prop := {
  Q_mem : mem_ok m (l ++ map rbuffer (concat ps));
  Q_chain : chain m (unsent_first q) l;
  Q_nodup : NoDup l;
  Q_last : unsent_last q = last l;
  Q_segs : Forall (seg_ok m) (concat ps)
}.

(** The queue has the bytes [u] to send, the reliable packets have the bytes [cs]. *)
Definition represents (m : memory) (q : UnsentPacketQueue) (ps : list packet) (u : list (option Z)) (cs : list (list (option Z))) : Prop :=
  exists l, Q m q ps l /\ ubytes m l = u /\ map (pbytes m) ps = cs.

Lemma in_concat_ref (ps : list packet) p c : In p ps -> In c p -> In (rbuffer c) (map rbuffer (concat ps)).
Proof. intros P C. apply in_map, in_concat. eauto. Qed.

(** Data that only grew. *)
Definition extends (m m' : memory) (a : nat) : Prop := exists d, dat m' a = dat m a ++ d.

Lemma extends_same m m' a : dat m' a = dat m a -> extends m m' a.
Proof. intros E. exists []. now rewrite app_nil_r. Qed.

Lemma seg_extends m m' c : seg_ok m c -> extends m m' (rbuffer c) -> seg_bytes m' c = seg_bytes m c /\ seg_ok m' c.
Proof.
  intros [A B] (d & E). unfold seg_bytes, seg_ok. rewrite E. split; [|rewrite length_app; lia].
  rewrite drop_app_le, take_app_le by (rewrite ?length_drop; lia). reflexivity.
Qed.

Lemma segs_extend m m' p : Forall (seg_ok m) p -> (forall a, In a (map rbuffer p) -> extends m m' a) -> pbytes m' p = pbytes m p /\ Forall (seg_ok m') p.
Proof.
  intros S X. rewrite Forall_forall in S. assert (Y : forall c, In c p -> seg_bytes m' c = seg_bytes m c /\ seg_ok m' c).
  { intros c I. apply seg_extends; [apply S; now apply list_elem_of_In|]. now apply X, in_map. }
  split; [apply flat_map_ext_in; intros c I; now apply Y|]. apply Forall_forall. intros c I. apply list_elem_of_In in I. now apply Y.
Qed.

Lemma packets_extend m m' ps : Forall (seg_ok m) (concat ps) -> (forall a, In a (map rbuffer (concat ps)) -> extends m m' a) ->
  map (pbytes m') ps = map (pbytes m) ps /\ Forall (seg_ok m') (concat ps).
Proof.
  intros S X. split; [|now apply (segs_extend m)]. apply map_ext_in. intros p P. apply (segs_extend m).
  - apply Forall_forall. intros c C. rewrite Forall_forall in S. apply S. apply list_elem_of_In, in_concat. exists p. split; [exact P|now apply list_elem_of_In].
  - intros a A. apply X. apply in_map_iff in A. destruct A as (c & <- & C). eapply in_concat_ref; eauto.
Qed.

Lemma getWriteBuffer_ok m q ps l sz : Q m q ps l -> exists m1 q1 l0 a, getWriteBuffer m q sz = Some (m1, q1, a) /\ Q m1 q1 ps (l0 ++ [a]) /\
  ubytes m1 (l0 ++ [a]) = ubytes m l /\ map (pbytes m1) ps = map (pbytes m) ps.
Proof.
  intros [A B C D E]. unfold getWriteBuffer. rewrite D. destruct l as [|a l0 _] using rev_ind.
  - cbn [last]. cbn in B. rewrite B. destruct (create_ok m _ sz A) as (m1 & b & -> & A1 & F1 & E1 & D1 & S1 & N1 & _ & X1).
    assert (XD : forall a, In a (map rbuffer (concat ps)) -> extends m m1 a).
    { intros a I. apply extends_same. unfold dat. rewrite X1; [reflexivity|]. intros ->. exact (mem_dead _ _ _ A (le_n _) I). }
    destruct (packets_extend m m1 ps E XD) as [P1 P2]. exists m1, (mkQueue (Some (fresh m)) (Some (fresh m))), [], (fresh m). split; [reflexivity|].
    split; [|split; [cbn; unfold unsent_of; now rewrite (dat_at _ _ _ E1), D1, drop_nil|exact P1]].
    constructor; cbn; auto; [|apply NoDup_singleton]. now rewrite (nxt_at _ _ _ E1).
  - rewrite last_snoc. exists m, q, l0, a. split; [reflexivity|]. split; [|auto]. constructor; auto.
Qed.

(** What the packet's buffers still have to send: the rest of the first one
    from before, and the packet. *)
Lemma W_unsent m0 a0 lq o others rel m w pre : W m0 a0 lq o others rel m w pre -> snt m0 a0 <= length (dat m0 a0) ->
  ubytes m (pre ++ [buffer w]) = unsent_of m0 a0 ++ wcontent m0 a0 m (pre ++ [buffer w]).
Proof.
  intros H S. pose proof (W_head _ _ _ _ _ _ _ _ _ H) as HD. destruct (pre ++ [buffer w]) as [|x t] eqn:T; [discriminate|]. injection HD as ->.
  destruct (W_a0 _ _ _ _ _ _ _ _ _ H) as (_ & TA & SA). unfold ubytes, wcontent. cbn [flat_map]. rewrite app_assoc. f_equal.
  - unfold unsent_of, start. rewrite SA, Nat.eqb_refl. rewrite <- (take_drop (length (dat m0 a0)) (dat m a0)) at 1. rewrite TA. now rewrite drop_app_le.
  - apply flat_map_ext_in. intros x X. assert (N : x <> a0).
    { intros ->. pose proof (W_nodup _ _ _ _ _ _ _ _ _ H) as D. rewrite T in D. apply NoDup_app in D. destruct D as (_ & _ & D). apply NoDup_cons in D. rewrite list_elem_of_In in D. tauto. }
    assert (I : In x (pre ++ [buffer w])) by (rewrite T; now right).
    destruct (W_new _ _ _ _ _ _ _ _ _ H x I N) as [_ Z]. unfold unsent_of, start. rewrite Z. now destruct (Nat.eqb_spec x a0).
Qed.

Lemma W_extends m0 a0 lq o others rel m w pre a : W m0 a0 lq o others rel m w pre -> a < fresh m0 -> extends m0 m a.
Proof.
  intros H L. destruct (decide (a = a0)) as [->|N].
  - destruct (W_a0 _ _ _ _ _ _ _ _ _ H) as (_ & TA & _). exists (drop (length (dat m0 a0)) (dat m a0)). now rewrite <- TA at 1; rewrite take_drop.
  - apply extends_same. unfold dat. now rewrite (W_old _ _ _ _ _ _ _ _ _ H).
Qed.

Lemma map_seg_of m0 a0 m t : map rbuffer (map (seg_of m0 a0 m) t) = t.
Proof. rewrite map_map. apply map_id. Qed.

Lemma concat_snoc {A} (l : list (list A)) x : concat (l ++ [x]) = concat l ++ x.
Proof. rewrite concat_app. cbn. now rewrite app_nil_r. Qed.

(** The state when a packet is finished. *)
Lemma packet_done m0 a0 lq o ps rel m w pre u : W m0 a0 lq o (map rbuffer (concat ps)) rel m w pre -> mem_ok m0 (lq ++ [a0] ++ map rbuffer (concat ps)) ->
  Forall (seg_ok m0) (concat ps) -> ubytes m0 (lq ++ [a0]) = u ->
  represents m (mkQueue o (Some (buffer w))) (if rel then ps ++ [map (seg_of m0 a0 m) (pre ++ [buffer w])] else ps)
    (u ++ wcontent m0 a0 m (pre ++ [buffer w])) (if rel then map (pbytes m0) ps ++ [wcontent m0 a0 m (pre ++ [buffer w])] else map (pbytes m0) ps).
Proof.
  intros H A E U. pose proof (W_mem _ _ _ _ _ _ _ _ _ H) as MO.
  assert (LV : forall a, In a (lq ++ [a0] ++ map rbuffer (concat ps)) -> a < fresh m0).
  { intros a I. destruct (mem_live _ _ _ A I) as [b X]. exact (mo_bound _ _ A _ _ X). }
  destruct (packets_extend m0 m ps E) as [P1 P2].
  { intros a I. eapply W_extends; [exact H|]. apply LV. rewrite !in_app_iff. tauto. }
  exists (lq ++ pre ++ [buffer w]). split; [|split].
  - constructor; cbn [unsent_first unsent_last].
    + rewrite (W_kind _ _ _ _ _ _ _ _ _ H) in *. unfold wrefs in MO. pose proof (W_rel _ _ _ _ _ _ _ _ _ H) as R. destruct (reliable w) as [[dn p]|].
      * destruct R as [-> ->]. rewrite concat_snoc, map_app, map_seg_of. rewrite map_seg_of in MO. eapply mem_occ; [|exact MO]. occs.
      * eapply mem_occ; [|exact MO]. occs.
    + apply (W_chain _ _ _ _ _ _ _ _ _ H).
    + apply (W_nodup _ _ _ _ _ _ _ _ _ H).
    + now rewrite app_assoc, last_snoc.
    + destruct rel; [|exact P2]. rewrite concat_snoc. apply Forall_app. split; [exact P2|]. apply Forall_forall. intros c C. apply list_elem_of_In, in_map_iff in C.
      destruct C as (a & <- & _). split; cbn; [eapply start_le; eauto|lia].
  - unfold ubytes in *. rewrite !flat_map_app in *. fold (ubytes m (pre ++ [buffer w])). cbn [flat_map] in U. rewrite app_nil_r in U.
    assert (SL : snt m0 a0 <= length (dat m0 a0)).
    { destruct (mem_live _ _ a0 A) as [b X]; [rewrite !in_app_iff; cbn; tauto|]. rewrite (snt_at _ _ _ X), (dat_at _ _ _ X). apply (mo_buffers _ _ A _ _ X). }
    rewrite <- flat_map_app. fold (ubytes m (pre ++ [buffer w])). rewrite (W_unsent _ _ _ _ _ _ _ _ _ H SL), <- U, <- app_assoc. f_equal.
    apply flat_map_ext_in. intros a I. unfold unsent_of, dat, snt. rewrite (W_old _ _ _ _ _ _ _ _ _ H); [reflexivity|apply LV; rewrite in_app_iff; tauto|].
    intros ->. pose proof (W_nodup _ _ _ _ _ _ _ _ _ H) as ND. pose proof (W_head _ _ _ _ _ _ _ _ _ H) as HD. apply NoDup_app in ND. destruct ND as (_ & ND & _).
    apply (ND a0); [now apply list_elem_of_In|]. destruct (pre ++ [buffer w]); [discriminate|]. injection HD as ->. now left.
  - destruct rel; [|exact P1]. rewrite (map_app (pbytes m) ps). cbn [map]. now rewrite P1, pbytes_segs.
Qed.

Lemma write_packet_ok m q ps u cs rel items c : represents m q ps u cs -> spec_items [] [] items = Some c ->
  exists m' q' ps', write_packet m q ps rel items = Some (m', q', ps', Z.of_nat (length c)) /\ represents m' q' ps' (u ++ c) (if rel then cs ++ [c] else cs).
Proof.
  intros (l & HQ & U & P) S. unfold write_packet. destruct (getWriteBuffer_ok m q ps l 0 HQ) as (m1 & q1 & l0 & a & -> & Q1 & U1 & P1). cbn [mbind option_bind].
  pose proof Q1 as [A B C D E]. rewrite <- app_assoc in A.
  destruct (init_ok m1 a l0 (unsent_first q1) (map rbuffer (concat ps)) rel A B C) as (m2 & w2 & -> & H2 & C2). cbn [mbind option_bind].
  destruct (write_items_ok m1 a l0 (unsent_first q1) (map rbuffer (concat ps)) rel items m2 w2 [] [] [] [] c H2 C2 (List.Forall2_nil _) S) as (m3 & w3 & pre & -> & H3 & C3).
  cbn [mbind option_bind]. rewrite (writer_finish_ok _ _ _ _ _ _ _ _ _ H3). cbn [mbind option_bind]. rewrite C3.
  pose proof (packet_done m1 a l0 _ ps rel m3 w3 pre u H3 A E) as R. rewrite <- P1 in P. rewrite C3, P in R. unfold setWriteBuffer, insert.
  eexists _, _, _. split; [reflexivity|]. destruct rel; apply R; congruence.
Qed.

(** A buffer of the queue with another count of bytes sent. *)
Lemma Q_set_sent m q ps l a b n : Q m q ps l -> buffers m !! a = Some b -> n <= bytes_written b ->
  Q (store m a (set_sent b n)) q ps l /\ (forall x, dat (store m a (set_sent b n)) x = dat m x) /\ (forall x, snt (store m a (set_sent b n)) x = if Nat.eqb a x then n else snt m x) /\
  map (pbytes (store m a (set_sent b n))) ps = map (pbytes m) ps.
Proof.
  intros [A B C D E] X L. assert (DS : forall x, dat (store m a (set_sent b n)) x = dat m x).
  { intros x. rewrite dat_store. destruct (Nat.eqb_spec a x) as [->|_]; [now rewrite (dat_at _ _ _ X)|reflexivity]. }
  destruct (packets_extend m (store m a (set_sent b n)) ps E) as [P1 P2]; [intros x _; now apply extends_same|].
  split; [|split; [exact DS|split; [intros x; now rewrite snt_store|exact P1]]]. constructor; auto.
  - destruct (mo_buffers _ _ A _ _ X). apply (modify_ok m _ a b (fun b => set_sent b n)); auto. constructor; auto.
  - apply (chain_views m); [|exact B]. intros x _. rewrite nxt_store. destruct (Nat.eqb_spec a x) as [->|_]; [now rewrite (nxt_at _ _ _ X)|reflexivity].
Qed.

(** The first buffer leaves the queue. *)
Lemma Q_pop m q ps a l : Q m q ps (a :: l) -> exists m', delref m a = Some m' /\ fresh m' = fresh m /\
  Q m' (mkQueue (nxt m a) (match nxt m a with None => None | Some _ => unsent_last q end)) ps l /\ (forall x, In x l -> agree m m' x) /\
  map (pbytes m') ps = map (pbytes m) ps.
Proof.
  intros [A B C D E]. destruct (delref_ok m (l ++ map rbuffer (concat ps)) a A) as (m' & DR & A' & F & G). exists m'. split; [exact DR|]. split; [exact F|].
  assert (GR : forall x, In x (l ++ map rbuffer (concat ps)) -> agree m m' x) by auto. destruct (packets_extend m m' ps E) as [P1 P2].
  { intros x I. apply extends_same. now destruct (agree_views _ _ _ (GR x (in_or_app _ _ _ (or_intror I)))). }
  assert (GL : forall x, In x l -> agree m m' x) by (intros x I; apply GR, in_or_app; now left).
  split; [|auto]. cbn in B. destruct B as [_ B]. constructor; cbn [unsent_first unsent_last]; auto.
  - apply (chain_views m); [|exact B]. intros x I. now destruct (agree_views _ _ _ (GL x I)) as (_ & _ & ->).
  - apply NoDup_cons in C. tauto.
  - rewrite D. destruct l as [|y l]; cbn in B |- *; [now rewrite B|]. destruct B as [-> _]. reflexivity.
Qed.

Lemma unsent_length m a b : buffers m !! a = Some b -> length (unsent_of m a) = bytes_unsent b.
Proof. intros E. unfold unsent_of. now rewrite length_drop, (dat_at _ _ _ E), (snt_at _ _ _ E). Qed.

Lemma sent_loop_ok fuel : forall m q ps l n, Q m q ps l -> n <= length (ubytes m l) -> length l < fuel ->
  exists m' q' l', sent_loop fuel m q n = Some (m', q') /\ Q m' q' ps l' /\ ubytes m' l' = drop n (ubytes m l) /\ map (pbytes m') ps = map (pbytes m) ps.
Proof.
  induction fuel as [|fuel IH]; intros m q ps l n H N F; [lia|]. destruct n as [|n]; [exists m, q, l; auto|]. remember (S n) as k eqn:K. cbn [sent_loop]. rewrite K. rewrite <- K.
  destruct l as [|a l]; [cbn in N; lia|]. pose proof (Q_chain _ _ _ _ H) as [HF _]. rewrite HF. cbn [mbind option_bind].
  destruct (mem_live _ _ a (Q_mem _ _ _ _ H)) as [b E]; [now left|]. rewrite E. cbn [mbind option_bind].
  pose proof (mo_buffers _ _ (Q_mem _ _ _ _ H) _ _ E) as O. pose proof (unsent_length m a b E) as UL. unfold bytes_unsent in UL. pose proof (ok_sent _ O) as OS. pose proof (ok_written _ O) as OW.
  assert (AN : ~ In a l) by (pose proof (Q_nodup _ _ _ _ H) as ND; apply NoDup_cons in ND; rewrite list_elem_of_In in ND; tauto).
  match goal with |- context [if ?c then _ else _] => destruct c eqn:CD end.
  - apply andb_true_iff in CD. destruct CD as [CD _]. apply Nat.leb_le in CD. rewrite (proj2 (Z.leb_le _ _)) by lia.
    destruct (Q_set_sent m q ps (a :: l) a b (bytes_sent b + k) H E CD) as (H' & DS & SS & P). eexists _, _, (a :: l). split; [reflexivity|]. split; [exact H'|]. split; [|exact P].
    unfold ubytes. cbn [flat_map]. rewrite drop_app_le by lia. f_equal.
    + unfold unsent_of. rewrite DS, SS, Nat.eqb_refl, (snt_at _ _ _ E), drop_drop. reflexivity.
    + apply flat_map_ext_in. intros x X. unfold unsent_of. rewrite DS, SS. destruct (Nat.eqb_spec a x) as [->|_]; [contradiction|reflexivity].
  - rewrite (proj2 (Z.leb_le _ _)) by lia. assert (GE : bytes_unsent b <= k).
    { unfold bytes_unsent. apply andb_false_iff in CD. destruct CD as [CD|CD]; [apply Nat.leb_gt in CD; lia|]. apply orb_false_iff in CD. destruct CD as [CD _]. apply negb_false_iff, Nat.eqb_eq in CD. lia. }
    destruct (Q_set_sent m q ps (a :: l) a b (bytes_written b) H E (le_n _)) as (H1 & DS & SS & P1).
    destruct (Q_pop _ _ _ _ _ H1) as (m2 & -> & F2 & H2 & G2 & P2). cbn [mbind option_bind]. rewrite nxt_store, Nat.eqb_refl in H2. cbn [set_sent next] in H2.
    assert (U2 : ubytes m2 l = ubytes m l).
    { rewrite (ubytes_agree _ _ _ G2). apply flat_map_ext_in. intros x X. unfold unsent_of. rewrite DS, SS. destruct (Nat.eqb_spec a x) as [->|_]; [contradiction|reflexivity]. }
    unfold ubytes in N. cbn [flat_map length] in N, F. rewrite length_app in N. fold (ubytes m l) in N.
    destruct (IH m2 _ ps l (k - bytes_unsent b) H2) as (m3 & q3 & l3 & E3 & H3 & U3 & P3); [rewrite U2; unfold bytes_unsent; lia|lia|].
    exists m3, q3, l3. split; [exact E3|]. split; [exact H3|]. split; [|congruence]. rewrite U3, U2. unfold ubytes at 2. cbn [flat_map]. rewrite drop_app_ge by (unfold bytes_unsent in GE; lia).
    now rewrite UL.
Qed.

Lemma queue_bound m q ps l : Q m q ps l -> length l <= fresh m.
Proof.
  intros H. assert (L : length (seq 0 (fresh m)) = fresh m) by apply length_seq. rewrite <- L. clear L. apply submseteq_length, NoDup_submseteq; [apply (Q_nodup _ _ _ _ H)|]. intros x I. apply list_elem_of_In in I. apply list_elem_of_In, in_seq. split; [lia|].
  destruct (mem_live _ _ x (Q_mem _ _ _ _ H)) as [b E]; [apply in_or_app; now left|]. apply (mo_bound _ _ (Q_mem _ _ _ _ H)) in E. lia.
Qed.

Lemma sent_ok m q ps u cs n : represents m q ps u cs -> n <= length u -> exists m' q', sent m q n = Some (m', q') /\ represents m' q' ps (drop n u) cs.
Proof.
  intros (l & H & <- & <-) N. destruct (sent_loop_ok (S (fresh m)) m q ps l n H N) as (m' & q' & l' & E & H' & U & P); [pose proof (queue_bound _ _ _ _ H); lia|].
  exists m', q'. split; [exact E|]. exists l'. auto.
Qed.

Lemma discard_loop_ok fuel : forall m q ps l, Q m q ps l -> length l <= fuel ->
  exists m', discard_loop fuel m (unsent_first q) = Some m' /\ Q m' (mkQueue None None) ps [] /\ map (pbytes m') ps = map (pbytes m) ps.
Proof.
  induction fuel as [|fuel IH]; intros m q ps [|a l] H F.
  1,3: rewrite (Q_chain _ _ _ _ H : unsent_first q = None); exists m; (split; [reflexivity|]); (split; [|reflexivity]); destruct H; constructor; cbn; auto.
  { cbn in F. lia. }
  pose proof (Q_chain _ _ _ _ H) as [HF _]. rewrite HF. cbn [discard_loop]. destruct (mem_live _ _ a (Q_mem _ _ _ _ H)) as [b E]; [now left|]. rewrite E. cbn [mbind option_bind].
  destruct (Q_pop _ _ _ _ _ H) as (m2 & -> & _ & H2 & _ & P2). cbn [mbind option_bind]. rewrite (nxt_at _ _ _ E) in H2. cbn in F.
  destruct (IH _ _ _ _ H2) as (m3 & E3 & H3 & P3); [lia|]. exists m3. split; [exact E3|]. split; [exact H3|congruence].
Qed.

Lemma discardAll_ok m q ps u cs : represents m q ps u cs -> exists m', discardAll m q = Some (m', mkQueue None None) /\ represents m' (mkQueue None None) ps [] cs.
Proof.
  intros (l & H & _ & <-). unfold discardAll. destruct (discard_loop_ok (fresh m) m q ps l H (queue_bound _ _ _ _ H)) as (m' & -> & H' & P). cbn [mbind option_bind].
  exists m'. split; [reflexivity|]. exists []. auto.
Qed.

Lemma packet_release_ok p : forall m r, mem_ok m (map rbuffer p ++ r) -> exists m', release m p = Some m' /\ mem_ok m' r /\ (forall x, In x r -> agree m m' x).
Proof.
  induction p as [|c p IH]; intros m r M; cbn [release map app] in *; [exists m; split; [reflexivity|]; split; [exact M|]; intros x _; reflexivity|].
  destruct (delref_ok m _ _ M) as (m1 & -> & M1 & _ & G1). cbn [mbind option_bind]. destruct (IH m1 r M1) as (m2 & E2 & M2 & G2). exists m2. split; [exact E2|]. split; [exact M2|].
  intros x I. unfold agree in *. rewrite <- G2 by exact I. apply G1. left. apply in_or_app. now right.
Qed.

(** Packets are released, the queue and the other packets stay. *)
Lemma Q_release m q ps l p ps' : Q m q ps l -> Permutation (concat ps) (p ++ concat ps') -> exists m', release m p = Some m' /\ Q m' q ps' l /\
  ubytes m' l = ubytes m l /\ map (pbytes m') ps' = map (pbytes m) ps'.
Proof.
  intros [A B C D E] PM. destruct (packet_release_ok p m (l ++ map rbuffer (concat ps'))) as (m' & R & M' & G).
  { eapply mem_perm; [|exact A]. rewrite PM, map_app. rewrite !app_assoc. apply Permutation_app_tail. apply Permutation_app_comm. }
  exists m'. split; [exact R|]. destruct (packets_extend m m' ps') as [P1 P2].
  { rewrite PM in E. apply Forall_app in E. tauto. } { intros x I. apply extends_same. now destruct (agree_views _ _ _ (G x (in_or_app _ _ _ (or_intror I)))). }
  assert (GL : forall x, In x l -> agree m m' x) by (intros x I; apply G, in_or_app; now left).
  split; [|split; [now apply ubytes_agree|exact P1]]. constructor; auto. apply (chain_views m); [|exact B]. intros x I. now destruct (agree_views _ _ _ (GL x I)) as (_ & _ & ->).
Qed.

Lemma remove_ok m q ps u cs i : represents m q ps u cs -> i < length ps ->
  exists m' ps', remove m ps i = Some (m', ps') /\ represents m' q ps' u (take i cs ++ drop (S i) cs).
Proof.
  intros (l & H & <- & <-) L. destruct (lookup_lt_is_Some_2 ps i L) as [p E]. unfold remove. rewrite E. cbn [mbind option_bind].
  destruct (Q_release m q ps l p (take i ps ++ drop (S i) ps) H) as (m' & -> & H' & U & P).
  { rewrite <- (take_drop_middle ps i p E) at 1. rewrite !concat_app. cbn [concat]. rewrite app_assoc, (Permutation_app_comm (concat (take i ps)) p), <- app_assoc. reflexivity. }
  cbn [mbind option_bind]. eexists _, _. split; [reflexivity|]. exists l. split; [exact H'|]. split; [exact U|]. rewrite P, map_app. now rewrite firstn_map, skipn_map.
Qed.

Lemma discardAll_reliable_ok ps : forall m q u cs, represents m q ps u cs -> exists m', discardAll_reliable m ps = Some m' /\ represents m' q [] u [].
Proof.
  induction ps as [|p ps IH]; intros m q u cs (l & H & <- & <-); cbn [discardAll_reliable]; [exists m; split; [reflexivity|]; exists l; auto|].
  destruct (Q_release m q (p :: ps) l p ps H) as (m' & -> & H' & U & P); [reflexivity|]. cbn [mbind option_bind]. apply (IH m' q _ (map (pbytes m') ps)). exists l. auto.
Qed.

(** [empty] is never wrong when it says that something is unsent. *)
Lemma empty_ok m q ps u cs : represents m q ps u cs -> exists b, empty m q = Some b /\ (b = false -> u <> []).
Proof.
  intros (l & H & <- & _). unfold empty. destruct l as [|a l]; [rewrite (Q_chain _ _ _ _ H : unsent_first q = None); eauto|].
  pose proof (Q_chain _ _ _ _ H) as [-> _]. destruct (mem_live _ _ a (Q_mem _ _ _ _ H)) as [b E]; [now left|]. rewrite E. cbn [mbind option_bind]. eexists. split; [reflexivity|].
  intros N X. apply Nat.eqb_neq in N. unfold ubytes in X. cbn in X. apply app_eq_nil in X. destruct X as [X _]. apply (f_equal length) in X.
  rewrite (unsent_length _ _ _ E) in X. pose proof (ok_sent _ (mo_buffers _ _ (Q_mem _ _ _ _ H) _ _ E)). unfold bytes_unsent in X. cbn in X. lia.
Qed.

(** * Compaction *)

(** The chain whose last buffer is [a], and references [refs] besides. *)
Record K (m : memory) (o : option nat) (l : list nat) (a : nat) (refs : list nat) : Prop := {
  K_mem : mem_ok m ((l ++ [a]) ++ refs); K_chain : chain m o (l ++ [a]); K_nodup : NoDup (l ++ [a])
}.

Lemma K_live m o l a refs : K m o l a refs -> exists b, buffers m !! a = Some b /\ buffer_ok b.
Proof.
  intros [M _ _]. destruct (mem_live _ _ a M) as [b E]; [rewrite !in_app_iff; cbn; tauto|]. exists b. split; [exact E|]. exact (mo_buffers _ _ M _ _ E).
Qed.

(** A full last buffer gets a successor. *)
Definition roomy (m : memory) (into : nat) (ib : PacketBuffer) : option (memory * nat) :=
  if (Z.of_nat (bytes_written ib) =? size ib)%Z then
    let '(m, n) := create m (size ib) in m ← modify m into (fun b => set_next b (Some n)); Some (m, n)
  else Some (m, into).

Lemma K_room m o l a refs b : K m o l a refs -> buffers m !! a = Some b -> exists m1 l1 a1 b1, roomy m a b = Some (m1, a1) /\ K m1 o l1 a1 refs /\
  ubytes m1 (l1 ++ [a1]) = ubytes m (l ++ [a]) /\ (forall x, In x refs -> dat m1 x = dat m x) /\ buffers m1 !! a1 = Some b1 /\ (0 < bytes_unwritten b1)%Z.
Proof.
  intros [A B C] E. pose proof (ok_written _ (mo_buffers _ _ A _ _ E)) as OW. unfold roomy. destruct (Z.eqb_spec (Z.of_nat (bytes_written b)) (size b)) as [Z|Z].
  - fold (link m a (size b)). destruct (link_ok m _ a b (size b) A E) as (m1 & nb & -> & A1 & F1 & NF & EN & D1 & S1 & N1 & Z1 & EB & X1).
    assert (NI : forall x, In x ((l ++ [a]) ++ refs) -> x <> fresh m) by (intros x I ->; exact (mem_dead _ _ _ A (le_n _) I)).
    assert (V : forall x, x <> fresh m -> dat m1 x = dat m x /\ snt m1 x = snt m x).
    { intros x N. unfold dat, snt. destruct (decide (x = a)) as [->|Y]; [now rewrite EB, E|]. now rewrite X1. }
    destruct (link_chain o m m1 l a (fresh m) nb B C) as [CH ND]; auto.
    { intros I. exact (NI _ (in_or_app _ _ _ (or_introl I)) eq_refl). } { now rewrite (nxt_at _ _ _ EB). } { intros x Y W. unfold nxt. now rewrite X1. }
    exists m1, (l ++ [a]), (fresh m), nb. split; [reflexivity|]. split; [|split; [|split; [|split; [exact EN|]]]].
    + constructor; auto. eapply mem_occ; [|exact A1]. occs.
    + unfold ubytes. rewrite flat_map_app. cbn [flat_map]. unfold unsent_of at 2. rewrite (dat_at _ _ _ EN), D1, drop_nil, !app_nil_r.
      apply flat_map_ext_in. intros x I. unfold unsent_of. destruct (V x) as [-> ->]; [|reflexivity]. apply NI, in_or_app. now left.
    + intros x I. apply V, NI, in_or_app. now right.
    + unfold bytes_unwritten, bytes_written. rewrite D1, Z1. unfold MIN, PACKET_BUFFER_MIN_SIZE, PACKET_BUFFER_OVERHEAD. cbn [length]. lia.
  - exists m, l, a, b. split; [reflexivity|]. split; [constructor; auto|]. do 3 (split; [auto|]). unfold bytes_unwritten. lia.
Qed.

(** The bytes [d] are copied behind [a]; a reference to [c] is exchanged for one to [a]. *)
Lemma K_copy m o l a c refs b d : K m o l a (c :: refs) -> buffers m !! a = Some b -> (Z.of_nat (length d) <= bytes_unwritten b)%Z ->
  exists m1 m2 m3, append m a d = Some m1 /\ delref m1 c = Some m2 /\ addref m2 a = Some m3 /\ K m3 o l a (a :: refs) /\
    ubytes m3 (l ++ [a]) = ubytes m (l ++ [a]) ++ d /\ dat m3 a = dat m a ++ d /\ (forall x, In x refs -> x <> a -> dat m3 x = dat m x).
Proof.
  intros [A B C] E L. pose proof (mo_buffers _ _ A _ _ E) as [O1 O2 O3]. unfold bytes_unwritten, bytes_written in *.
  destruct (modify_ok m _ a b (fun b => set_data b (data b ++ d)) A E eq_refl) as [E1 A1]; [constructor; unfold bytes_written; cbn [set_data data bytes_sent size]; rewrite ?length_app; lia|].
  set (m1 := store m a _) in *. assert (V1 : forall x, dat m1 x = if Nat.eqb a x then data b ++ d else dat m x) by (intros x; unfold m1; now rewrite dat_store).
  assert (S1 : forall x, snt m1 x = snt m x) by (intros x; unfold m1; rewrite snt_store; destruct (Nat.eqb_spec a x) as [->|_]; [now rewrite (snt_at _ _ _ E)|reflexivity]).
  assert (N1 : forall x, nxt m1 x = nxt m x) by (intros x; unfold m1; rewrite nxt_store; destruct (Nat.eqb_spec a x) as [->|_]; [now rewrite (nxt_at _ _ _ E)|reflexivity]).
  clearbody m1. assert (A1' : mem_ok m1 (c :: (l ++ [a]) ++ refs)) by (eapply mem_occ; [|exact A1]; occs).
  destruct (delref_ok m1 _ c A1') as (m2 & E2 & A2 & _ & G2). destruct (buffer_addref_ok m2 _ a A2) as (m3 & E3 & A3 & _ & G3 & _); [rewrite !in_app_iff; cbn; tauto|].
  assert (V : forall x, In x ((l ++ [a]) ++ refs) -> dat m3 x = dat m1 x /\ snt m3 x = snt m x /\ nxt m3 x = nxt m x).
  { intros x I. destruct (agree_views _ _ _ (G3 x)) as (-> & -> & ->), (agree_views _ _ _ (G2 x (or_introl I))) as (-> & -> & ->). auto. }
  assert (IA : In a ((l ++ [a]) ++ refs)) by (rewrite !in_app_iff; cbn; tauto).
  exists m1, m2, m3. do 3 (split; [assumption|]). split; [|split; [|split]].
  - constructor; auto; [eapply mem_occ; [|exact A3]; occs|]. apply (chain_views m); [|exact B]. intros x I. apply V, in_or_app. now left.
  - unfold ubytes. rewrite !flat_map_app. cbn [flat_map]. rewrite !app_nil_r, <- app_assoc. f_equal.
    + apply flat_map_ext_in. intros x I. unfold unsent_of. destruct (V x) as (-> & -> & _); [rewrite !in_app_iff; tauto|]. rewrite V1. destruct (Nat.eqb_spec a x) as [->|_]; [|reflexivity].
      exfalso. exact (nodup_last [] l x C I).
    + unfold unsent_of. destruct (V a IA) as (-> & -> & _). rewrite V1, Nat.eqb_refl, (dat_at _ _ _ E), (snt_at _ _ _ E). now apply drop_app_le.
  - destruct (V a IA) as (-> & _). now rewrite V1, Nat.eqb_refl, (dat_at _ _ _ E).
  - intros x I N. destruct (V x) as (-> & _); [apply in_or_app; now right|]. rewrite V1. destruct (Nat.eqb_spec a x); congruence.
Qed.

Definition volume (p : packet) : nat := length p + foldr (fun c n => (end_ c - begin c) + n) 0 p.

(** A segment too long for the room [room] is split there. *)
Lemma K_split m o l a c cont others room : K m o l a (map rbuffer (c :: cont) ++ others) -> Forall (seg_ok m) (c :: cont) -> (0 < room)%Z ->
  exists m1 c1 len, (if (room <? Z.of_nat (end_ c - begin c))%Z then
      m ← addref m (rbuffer c); Some (m, mkReliable (rbuffer c) (begin c + Z.to_nat room) (end_ c) :: cont, Z.to_nat room)
    else Some (m, cont, end_ c - begin c)) = Some (m1, c1, len) /\
  K m1 o l a (rbuffer c :: map rbuffer c1 ++ others) /\ Forall (seg_ok m1) c1 /\ (forall x, agree m m1 x) /\ (Z.of_nat len <= room)%Z /\ begin c + len <= end_ c /\
  seg_bytes m (mkReliable (rbuffer c) (begin c) (begin c + len)) ++ pbytes m c1 = pbytes m (c :: cont) /\ volume c1 < volume (c :: cont).
Proof.
  intros [A B C] S R. apply Forall_cons in S. destruct S as [[SC1 SC2] S]. destruct (Z.ltb_spec room (Z.of_nat (end_ c - begin c))) as [L|L].
  - destruct (buffer_addref_ok m _ (rbuffer c) A) as (m1 & -> & A1 & _ & G1 & _); [rewrite !in_app_iff; cbn; tauto|]. cbn [mbind option_bind].
    assert (V : forall x, dat m1 x = dat m x) by (intros x; now destruct (agree_views _ _ _ (G1 x))).
    eexists m1, _, _. split; [reflexivity|]. split; [|split; [|split; [exact G1|split; [lia|split; [lia|split]]]]].
    + constructor; auto; [eapply mem_occ; [|exact A1]; occs|]. apply (chain_views m); [|exact B]. intros x _. now destruct (agree_views _ _ _ (G1 x)) as (_ & _ & ->).
    + constructor; [split; cbn; rewrite ?V; lia|]. eapply Forall_impl; [exact S|]. intros x [X Y]. split; [exact X|]. now rewrite V.
    + unfold pbytes. cbn [flat_map]. rewrite app_assoc. f_equal. unfold seg_bytes. cbn [begin end_ rbuffer]. replace (begin c + Z.to_nat room - begin c) with (Z.to_nat room) by lia.
      rewrite <- drop_drop. replace (end_ c - (begin c + Z.to_nat room)) with (end_ c - begin c - Z.to_nat room) by lia. set (t := drop (begin c) (dat m (rbuffer c))).
      rewrite <- (take_drop (Z.to_nat room) (take (end_ c - begin c) t)), take_take, Nat.min_l, skipn_firstn_comm by lia. reflexivity.
    + unfold volume. cbn [length foldr begin end_]. lia.
  - eexists m, cont, _. split; [reflexivity|]. split; [constructor; auto|]. split; [exact S|]. split; [intros x; reflexivity|]. split; [lia|]. split; [lia|]. split.
    + unfold pbytes. cbn [flat_map]. f_equal. unfold seg_bytes. cbn [begin end_ rbuffer]. do 2 f_equal. lia.
    + unfold volume. cbn [length foldr]. lia.
Qed.

Lemma compact_chain_ok fuel : forall m o l a p others stop, K m o l a (map rbuffer p ++ others) -> Forall (seg_ok m) p -> volume p <= fuel ->
  exists m' p' a' stopped l' d, compact_chain fuel m p a stop = Some (m', p', a', stopped) /\ K m' o l' a' (map rbuffer p' ++ others) /\ Forall (seg_ok m') p' /\
    pbytes m' p' = pbytes m p /\ (forall x, In x others -> extends m m' x) /\ ubytes m' (l' ++ [a']) = ubytes m (l ++ [a]) ++ d /\
    (exists r, pbytes m p = d ++ r) /\ (stopped = false -> d = pbytes m p) /\ (stop = None -> stopped = false).
Proof.
  induction fuel as [|fuel IH]; intros m o l a [|c cont] others stop H S V.
  1,3: exists m, [], a, false, l, []; rewrite app_nil_r; cbn; (do 4 (split; [auto|])); (split; [intros x _; now apply extends_same|]); (split; [reflexivity|]); eauto.
  { unfold volume in V. cbn in V. lia. }
  cbn [compact_chain]. destruct (decide (Some (rbuffer c) = stop)) as [ST|ST].
  { eexists m, _, a, true, l, []. rewrite app_nil_r. split; [reflexivity|]. do 3 (split; [auto|]). split; [intros x _; now apply extends_same|]. split; [reflexivity|].
    split; [eauto|]. split; [discriminate|congruence]. }
  destruct (K_live _ _ _ _ _ H) as (ib & EI & _). rewrite EI. cbn [mbind option_bind]. fold (roomy m a ib).
  destruct (K_room _ _ _ _ _ _ H EI) as (m1 & l1 & a1 & ib1 & -> & H1 & U1 & V1 & E1 & R1). cbn [mbind option_bind]. rewrite E1. cbn [mbind option_bind].
  assert (IC : In (rbuffer c) ((l1 ++ [a1]) ++ map rbuffer (c :: cont) ++ others)) by (rewrite !in_app_iff; cbn; tauto).
  destruct (mem_live _ _ _ (K_mem _ _ _ _ _ H1) IC) as [cb EC]. rewrite EC. cbn [mbind option_bind].
  destruct (segs_extend m m1 (c :: cont) S) as [P1 S1]; [intros x I; apply extends_same, V1, in_or_app; now left|].
  destruct (K_split _ _ _ _ _ _ _ _ H1 S1 R1) as (m2 & c2 & len & EQ & H2 & S2 & G2 & L2 & B2 & P2 & W2).
  match goal with |- context [if (bytes_unwritten ib1 <? ?k)%Z then ?x else ?y] => replace (if (bytes_unwritten ib1 <? k)%Z then x else y) with (Some (m2, c2, len)) by (symmetry; exact EQ) end.
  cbn [mbind option_bind].
  assert (E2 : exists ib2, buffers m2 !! a1 = Some ib2 /\ data ib2 = data ib1 /\ size ib2 = size ib1).
  { pose proof (G2 a1) as G. unfold agree in G. rewrite E1 in G. destruct (buffers m2 !! a1) as [b2|]; [|discriminate]. exists b2. split; [reflexivity|]. destruct ib1, b2. cbn in *. now injection G as -> -> -> -> -> ->. }
  destruct E2 as (ib2 & E2 & D2 & Z2). set (d1 := take len (drop (begin c) (data cb))).
  assert (DS : d1 = seg_bytes m1 (mkReliable (rbuffer c) (begin c) (begin c + len))).
  { unfold d1, seg_bytes. cbn. rewrite (dat_at _ _ _ EC). f_equal. lia. }
  assert (LD : length d1 = len).
  { apply Forall_cons in S1. destruct S1 as [[_ SC] _]. unfold d1. rewrite length_take, length_drop. rewrite (dat_at _ _ _ EC) in SC. lia. }
  destruct (K_copy m2 o l1 a1 (rbuffer c) (map rbuffer c2 ++ others) ib2 d1 H2 E2) as (m3 & m4 & m5 & -> & X4 & X5 & H5 & U5 & D5 & V5); [rewrite LD; unfold bytes_unwritten, bytes_written in *; rewrite D2, Z2; lia|].
  cbn [mbind option_bind]. rewrite X4. cbn [mbind option_bind]. rewrite X5. cbn [mbind option_bind].
  assert (DA : forall x, dat m2 x = dat m1 x) by (intros x; now destruct (agree_views _ _ _ (G2 x))).
  assert (EX : forall x, In x (map rbuffer c2 ++ others) -> extends m2 m5 x).
  { intros x I. destruct (decide (x = a1)) as [->|N]; [exists d1; exact D5|]. now apply extends_same, V5. }
  destruct (segs_extend m2 m5 c2 S2) as [P5 S5]; [intros x I; apply EX, in_or_app; now left|].
  assert (H5' : K m5 o l1 a1 (map rbuffer c2 ++ a1 :: others)) by (destruct H5 as [A B C]; constructor; auto; eapply mem_occ; [|exact A]; occs).
  destruct (IH m5 o l1 a1 c2 (a1 :: others) stop H5' S5) as (m6 & p6 & a6 & st & l6 & d6 & -> & H6 & S6 & P6 & X6 & U6 & (r & R6) & F6 & T6); [lia|]. cbn [mbind option_bind].
  set (c' := mkReliable a1 (bytes_written ib1) (bytes_written ib1 + len)).
  assert (C5 : seg_ok m5 c' /\ seg_bytes m5 c' = d1).
  { assert (LB : length (dat m2 a1) = bytes_written ib1) by (now rewrite (dat_at _ _ _ E2), D2). unfold seg_ok, seg_bytes, c'. cbn [begin end_ rbuffer]. rewrite D5, length_app, LD, LB. split; [lia|].
    rewrite <- LB, drop_app_length. replace (length (dat m2 a1) + len - length (dat m2 a1)) with len by lia. rewrite <- LD. apply firstn_all. }
  destruct (seg_extends m5 m6 c' (proj1 C5) (X6 a1 (or_introl eq_refl))) as [Y6 O6]. rewrite (proj2 C5) in Y6.
  assert (PP : pbytes m (c :: cont) = d1 ++ pbytes m5 c2).
  { rewrite <- P1, <- P2, <- DS, P5. f_equal. apply pbytes_agree. intros x _. now rewrite DA. }
  eexists m6, (c' :: p6), a6, st, l6, (d1 ++ d6). split; [reflexivity|]. split; [|split; [|split; [|split; [|split; [|split; [|split]]]]]].
  - destruct H6 as [A B C]. constructor; auto. eapply mem_occ; [|exact A]. subst c'. occs.
  - now constructor.
  - rewrite PP, <- P6. unfold pbytes. cbn [flat_map]. now rewrite Y6.
  - intros x I. destruct (X6 x (or_intror I)) as [e6 Q6], (EX x) as [e5 Q5]; [apply in_or_app; now right|]. exists (e5 ++ e6). rewrite Q6, Q5, DA, V1, app_assoc; [reflexivity|]. apply in_or_app. now right.
  - rewrite U6, U5. rewrite (ubytes_agree m1 m2) by auto. now rewrite U1, app_assoc.
  - exists r. now rewrite PP, R6, app_assoc.
  - intros X. rewrite PP. f_equal. now apply F6.
  - exact T6.
Qed.

Lemma compact_ok stop ps : forall m o l a others, K m o l a (map rbuffer (concat ps) ++ others) -> Forall (seg_ok m) (concat ps) ->
  exists m' ps' a' l' d, compact m ps a stop = Some (m', ps', a') /\ K m' o l' a' (map rbuffer (concat ps') ++ others) /\ Forall (seg_ok m') (concat ps') /\
    map (pbytes m') ps' = map (pbytes m) ps /\ (forall x, In x others -> extends m m' x) /\ ubytes m' (l' ++ [a']) = ubytes m (l ++ [a]) ++ d /\
    (exists r, concat (map (pbytes m) ps) = d ++ r) /\ (stop = None -> d = concat (map (pbytes m) ps)).
Proof.
  induction ps as [|p ps IH]; intros m o l a others H S; cbn [compact].
  { exists m, [], a, l, []. rewrite app_nil_r. do 4 (split; [auto|]). split; [intros x _; now apply extends_same|]. split; [reflexivity|]. split; [exists []|]; reflexivity. }
  cbn [concat] in H, S. rewrite map_app, <- app_assoc in H. apply Forall_app in S. destruct S as [S1 S2].
  destruct (compact_chain_ok (volume p) m o l a p _ stop H S1 (le_n _)) as (m1 & p1 & a1 & st & l1 & d1 & EC & H1 & S3 & P1 & X1 & U1 & (r1 & R1) & F1 & T1).
  unfold volume in EC. rewrite EC. cbn [mbind option_bind].
  destruct (packets_extend m m1 ps S2) as [PP S4]; [intros x I; apply X1, in_or_app; now left|]. destruct st.
  - exists m1, (p1 :: ps), a1, l1, d1. split; [reflexivity|]. cbn [concat map]. split; [|split; [|split; [|split; [|split; [exact U1|split]]]]].
    + now rewrite map_app, <- app_assoc.
    + apply Forall_app. auto.
    + now rewrite P1, PP.
    + intros x I. apply X1, in_or_app. now right.
    + exists (r1 ++ concat (map (pbytes m) ps)). now rewrite R1, <- app_assoc.
    + intros ->. discriminate (T1 eq_refl).
  - assert (H1' : K m1 o l1 a1 (map rbuffer (concat ps) ++ map rbuffer p1 ++ others)) by (destruct H1 as [A B C]; constructor; auto; eapply mem_occ; [|exact A]; occs).
    destruct (IH m1 o l1 a1 (map rbuffer p1 ++ others) H1' S4) as (m2 & ps2 & a2 & l2 & d2 & -> & H2 & S5 & P2 & X2 & U2 & (r2 & R2) & T2). cbn [mbind option_bind].
    destruct (segs_extend m1 m2 p1 S3) as [P3 S6]; [intros x I; apply X2, in_or_app; now left|].
    exists m2, (p1 :: ps2), a2, l2, (d1 ++ d2). split; [reflexivity|]. cbn [concat map]. rewrite <- PP. split; [|split; [|split; [|split; [|split; [|split]]]]].
    + destruct H2 as [A B C]. constructor; auto. eapply mem_occ; [|exact A]. occs.
    + apply Forall_app. auto.
    + now rewrite P3, P1, P2.
    + intros x I. destruct (X2 x) as [e2 Q2], (X1 x) as [e1 Q1]; try (apply in_or_app; now right). exists (e1 ++ e2). now rewrite Q2, Q1, app_assoc.
    + now rewrite U2, U1, app_assoc.
    + exists r2. now rewrite R2, (F1 eq_refl), app_assoc.
    + intros E. now rewrite (F1 eq_refl), (T2 E).
Qed.

Lemma compact_packets_ok m q ps u cs stop : represents m q ps u cs ->
  exists m' q' ps' d r, compact_packets m q ps stop = Some (m', q', ps') /\ represents m' q' ps' (u ++ d) cs /\ concat cs = d ++ r /\ (stop = false -> r = []).
Proof.
  intros (l & H & <- & <-). unfold compact_packets. destruct (getWriteBuffer_ok m q ps l 0 H) as (m1 & q1 & l0 & a & -> & Q1 & U1 & P1). cbn [mbind option_bind].
  pose proof Q1 as [A B C D E]. set (st := if stop then unsent_first q else None).
  destruct (compact_ok st ps m1 (unsent_first q1) l0 a []) as (m2 & ps2 & a2 & l2 & d & -> & [A2 B2 C2] & S2 & P2 & _ & U2 & (r & R) & T); [rewrite app_nil_r; now constructor|exact E|].
  cbn [mbind option_bind]. rewrite P1 in *. eexists m2, _, ps2, d, r. split; [reflexivity|]. split; [|split; [exact R|]].
  - exists (l2 ++ [a2]). split; [|split; [now rewrite U2, U1|exact P2]]. constructor; cbn; auto; [now rewrite app_nil_r in A2|now rewrite last_snoc].
  - intros ->. specialize (T eq_refl). rewrite T in R. apply (f_equal length) in R. rewrite length_app in R. destruct r; [reflexivity|cbn in R; lia].
Qed.

Lemma chain_join m m' t a l : forall o o2, chain m o (t ++ [a]) -> (forall x, In x t -> nxt m' x = nxt m x) -> nxt m' a = o2 -> chain m' o2 l -> chain m' o ((t ++ [a]) ++ l).
Proof.
  induction t as [|y t IH]; intros o o2 C X N L; cbn in *; destruct C as [-> C]; (split; [reflexivity|]); [now rewrite N|]. rewrite X by (now left). eapply IH; eauto.
Qed.

Lemma prepend_packet_ok m q ps u cs items c : represents m q ps u cs -> spec_items [] [] items = Some c ->
  exists m' q', prepend_packet m q items = Some (m', q', Z.of_nat (length c)) /\ represents m' q' ps (c ++ u) cs.
Proof.
  intros (l & H & <- & <-) S. pose proof H as [A B C D E]. unfold prepend_packet. destruct (create_ok m _ 0 A) as (m0 & b & -> & A0 & F0 & E0 & D0 & S0 & N0 & _ & X0).
  set (n := fresh m) in *. set (others := l ++ map rbuffer (concat ps)) in *.
  destruct (init_ok m0 n [] (Some n) others false) as (m1 & w1 & -> & H1 & C1); [exact A0|cbn; now rewrite (nxt_at _ _ _ E0)|apply NoDup_singleton|]. cbn [mbind option_bind].
  destruct (write_items_ok m0 n [] (Some n) others false items m1 w1 [] [] [] [] c H1 C1 (List.Forall2_nil _) S) as (m2 & w2 & pre & -> & H2 & C2). cbn [mbind option_bind].
  rewrite (writer_finish_ok _ _ _ _ _ _ _ _ _ H2), C2. cbn [mbind option_bind]. unfold prependWriteBuffer.
  pose proof (W_mem _ _ _ _ _ _ _ _ _ H2) as M2. pose proof (W_kind _ _ _ _ _ _ _ _ _ H2) as KI. unfold wrefs in M2. destruct (reliable w2); [discriminate|]. cbn [app] in M2.
  destruct (W_live _ _ _ _ _ _ _ _ _ H2) as (b2 & E2 & O2).
  destruct (modify_ok m2 _ (buffer w2) b2 (fun b => set_next b (unsent_first q)) M2 E2 eq_refl) as [-> M3]; [destruct O2; constructor; auto|]. cbn [mbind option_bind].
  set (m3 := store m2 _ _) in *. assert (LT : forall x, In x others -> x < n) by (intros x I; destruct (mem_live _ _ _ A I) as [bx X]; exact (mo_bound _ _ A _ _ X)).
  assert (NT : forall x, In x (pre ++ [buffer w2]) -> n <= x).
  { intros x I. destruct (decide (x = n)) as [->|N]; [lia|]. destruct (W_new _ _ _ _ _ _ _ _ _ H2 x I N). lia. }
  assert (SO : forall x, In x others -> buffers m3 !! x = buffers m !! x).
  { intros x I. pose proof (LT x I). unfold m3. cbn. rewrite lookup_insert_ne by (intros X; pose proof (NT (buffer w2)) as Y; rewrite in_app_iff in Y; cbn in Y; lia).
    rewrite (W_old _ _ _ _ _ _ _ _ _ H2) by lia. apply X0. lia. }
  assert (D3 : forall x, dat m3 x = dat m2 x /\ snt m3 x = snt m2 x).
  { intros x. unfold m3. rewrite dat_store, snt_store. destruct (Nat.eqb_spec (buffer w2) x) as [<-|_]; [cbn; now rewrite (dat_at _ _ _ E2), (snt_at _ _ _ E2)|auto]. }
  assert (ND : NoDup (pre ++ [buffer w2])) by apply (W_nodup _ _ _ _ _ _ _ _ _ H2).
  destruct (packets_extend m m3 ps E) as [P3 S3]; [intros x I; apply extends_same; unfold dat; rewrite SO; [reflexivity|apply in_or_app; now right]|].
  eexists _, _. split; [reflexivity|]. exists ((pre ++ [buffer w2]) ++ l). split; [|split; [|exact P3]].
  - constructor; cbn [unsent_first unsent_last]; auto.
    + eapply mem_occ; [|exact M3]. unfold others. occs.
    + apply (chain_join m2 m3 pre (buffer w2) l (Some n) (unsent_first q) (W_chain _ _ _ _ _ _ _ _ _ H2)).
      * intros x I. unfold m3. rewrite nxt_store. destruct (Nat.eqb_spec (buffer w2) x) as [<-|_]; [|reflexivity]. exfalso. exact (nodup_last [] pre _ ND I).
      * unfold m3. now rewrite nxt_store, Nat.eqb_refl.
      * apply (chain_views m); [|exact B]. intros x I. unfold nxt. rewrite SO; [reflexivity|]. apply in_or_app. now left.
    + apply NoDup_app. split; [exact ND|]. split; [|exact C]. intros x X Y. apply list_elem_of_In in X, Y. pose proof (NT x X). pose proof (LT x (in_or_app _ _ _ (or_introl Y))). lia.
    + rewrite D. destruct l as [|y l _] using rev_ind; [now rewrite app_nil_r, last_snoc|]. rewrite app_assoc. rewrite !last_snoc. reflexivity.
  - unfold ubytes. rewrite (flat_map_app (unsent_of m3)). f_equal.
    + rewrite (flat_map_ext_in _ (unsent_of m2)) by (intros x _; unfold unsent_of; now destruct (D3 x) as [-> ->]). fold (ubytes m2 (pre ++ [buffer w2])).
      assert (SZ : snt m0 n <= length (dat m0 n)) by (rewrite (snt_at _ _ _ E0), S0; lia).
      rewrite (W_unsent _ _ _ _ _ _ _ _ _ H2 SZ). unfold unsent_of. now rewrite (dat_at _ _ _ E0), D0, drop_nil.
    + apply flat_map_ext_in. intros x I. unfold unsent_of, dat, snt. rewrite SO; [reflexivity|]. apply in_or_app. now left.
Qed.

(** * The contract *)

Definition allowed (u : list (option Z)) (cs : list (list (option Z))) (op : operation) : Prop :=
  match op with
  | Write _ l | Prepend l => spec_items [] [] l <> None
  | Sent n => n <= length u
  | Remove i => i < length cs
  | _ => True
  end.

(** What becomes of the unsent bytes [u] and of the reliable packets [cs]. *)
Definition effect (u : list (option Z)) (cs : list (list (option Z))) (op : operation) (u' : list (option Z)) (cs' : list (list (option Z))) (len : Z) : Prop :=
  match op with
  | Write rel l => exists c, spec_items [] [] l = Some c /\ u' = u ++ c /\ cs' = (if rel then cs ++ [c] else cs) /\ len = Z.of_nat (length c)
  | Prepend l => exists c, spec_items [] [] l = Some c /\ u' = c ++ u /\ cs' = cs /\ len = Z.of_nat (length c)
  | Sent n => u' = drop n u /\ cs' = cs
  | Discard => u' = [] /\ cs' = cs
  | Remove i => u' = u /\ cs' = take i cs ++ drop (S i) cs
  | DiscardReliable => u' = u /\ cs' = []
  | Compact stop => cs' = cs /\ exists d r, u' = u ++ d /\ concat cs = d ++ r /\ (stop = false -> r = [])
  end.

Lemma start_represents : represents no_memory no_queue [] [] [].
Proof.
  exists []. split; [|auto]. constructor; cbn; [|reflexivity|apply NoDup_nil_2|reflexivity|apply Forall_nil_2]. constructor; cbn; try intros a; try intros b; rewrite ?lookup_empty; try discriminate. reflexivity.
Qed.

Lemma nothing_leaks m u cs : represents m no_queue [] u cs -> buffers m = ∅.
Proof.
  intros (l & [A B _ _ _] & _). destruct l as [|a l]; [|destruct B; discriminate]. apply map_eq. intros x. rewrite lookup_empty. destruct (buffers m !! x) as [b|] eqn:E; [|reflexivity].
  pose proof (mo_count _ _ A x) as C. rewrite E in C. cbn in C. destruct (mo_used _ _ A _ _ E). auto.
Qed.

(** C11: Packets written to the queue, over as many buffers as they need and with
    parts filled in later, are sent byte for byte in the order they were written,
    whatever is sent, discarded, put in front or compacted in between; a reliable
    packet keeps its bytes until it is removed, also when its buffers are sent,
    split or moved by a compaction; a writer's length is the packet's; no
    assertion fails and no freed buffer is used; and buffers do not leak. *)
Theorem packets_correct (m : memory) (q : UnsentPacketQueue) (ps : list packet) (u : list (option Z)) (cs : list (list (option Z))) (op : operation) :
  represents m q ps u cs -> allowed u cs op ->
  exists m' q' ps' len u' cs', perform m q ps op = Some (m', q', ps', len) /\ represents m' q' ps' u' cs' /\ effect u cs op u' cs' len /\
    (q' = no_queue -> ps' = [] -> buffers m' = ∅).
Proof.
  intros R A. enough (X : exists m' q' ps' len u' cs', perform m q ps op = Some (m', q', ps', len) /\ represents m' q' ps' u' cs' /\ effect u cs op u' cs' len).
  { destruct X as (m' & q' & ps' & len & u' & cs' & E & R' & F). exists m', q', ps', len, u', cs'. do 3 (split; [assumption|]). intros -> ->. eapply nothing_leaks; eauto. }
  destruct op as [rel l|l|n| |i| |stop]; cbn [allowed perform effect] in *.
  - destruct (spec_items [] [] l) as [c|] eqn:S; [|contradiction]. destruct (write_packet_ok m q ps u cs rel l c R S) as (m' & q' & ps' & E & R'). eauto 14.
  - destruct (spec_items [] [] l) as [c|] eqn:S; [|contradiction]. destruct (prepend_packet_ok m q ps u cs l c R S) as (m' & q' & -> & R'). cbn [mbind option_bind]. eauto 14.
  - destruct (sent_ok m q ps u cs n R A) as (m' & q' & -> & R'). cbn [mbind option_bind]. eauto 12.
  - destruct (discardAll_ok m q ps u cs R) as (m' & -> & R'). cbn [mbind option_bind]. eauto 12.
  - assert (L : i < length ps) by (destruct R as (x & _ & _ & <-); now rewrite length_map in A).
    destruct (remove_ok m q ps u cs i R L) as (m' & ps' & -> & R'). cbn [mbind option_bind]. eauto 12.
  - destruct (discardAll_reliable_ok ps m q u cs R) as (m' & -> & R'). cbn [mbind option_bind]. eauto 12.
  - destruct (compact_packets_ok m q ps u cs stop R) as (m' & q' & ps' & d & r & -> & R' & C & T). cbn [mbind option_bind]. eauto 16.
Qed.

Definition example_items : list item := [Ahead 4; Bytes [7; 8]; Fill 0 1 [5; 6]; Shrink 0 [3]]%Z.

Lemma packets_witness : exists m' q' ps' len u' cs', perform no_memory no_queue [] (Write true example_items) = Some (m', q', ps', len) /\
  represents m' q' ps' u' cs' /\ effect [] [] (Write true example_items) u' cs' len /\ spec_items [] [] example_items = Some [Some 3; Some 5; Some 6; None; Some 7; Some 8]%Z.
Proof.
  destruct (packets_correct no_memory no_queue [] [] [] (Write true example_items) start_represents) as (m' & q' & ps' & len & u' & cs' & E & R & F & _); [vm_compute; discriminate|].
  exists m', q', ps', len, u', cs'. split; [exact E|]. split; [exact R|]. split; [exact F|reflexivity].
Defined.

(** [empty] looks at the first buffer only: when it is all sent and a packet did
    not fit behind it, the queue counts as empty with that packet unsent. *)
Definition run (ops : list operation) : option (memory * UnsentPacketQueue * list packet) :=
  foldl (fun s op => '(m, q, ps) ← s; '(m, q, ps, _) ← perform m q ps op; Some (m, q, ps)) (Some (no_memory, no_queue, [])) ops.

Lemma empty_wrong :
  let s := run [Write false [Bytes [1; 2]%Z]; Sent 2; Write false [Alloc (replicate (Z.to_nat 16336) 0%Z)]] in
  ('(m, q, _) ← s; empty m q) = Some true /\ option_map (fun '(m, q, _) => length (ubytes m [0; 1])) s = Some (Z.to_nat 16336) /\ option_map (fun '(_, q, _) => unsent_first q) s = Some (Some 0).
Proof. vm_compute. auto. Qed.

(** ** Wiping *)

Definition marked (b : PacketBuffer) (i : Z) : Prop := (0 < wipe_len b /\ wipe_begin b <= i < wipe_begin b + wipe_len b)%Z.

(** What was ever marked is 0 in the memory that the last delref gives back. *)
Lemma wipe_ok b x n b' (i : nat) : markForWipe b x n = Some b' -> (0 <= n)%Z -> (0 <= wipe_len b)%Z -> marked b (Z.of_nat i) \/ (x <= Z.of_nat i < x + n)%Z -> i < length (data b) ->
  marked b' (Z.of_nat i) /\ wiped b' !! i = Some (Some 0%Z).
Proof.
  unfold markForWipe. intros E N WL M L. assert (X : marked b' (Z.of_nat i) /\ data b' = data b).
  { destruct (Z.leb_spec 0 x) as [X|X]; [|discriminate]. destruct (Z.eqb_spec n 0) as [->|N0]; [injection E as <-; split; [|reflexivity]; destruct M as [M|M]; [exact M|lia]|].
    destruct (Z.leb_spec (x + n) (size b)); [|discriminate]. unfold marked in *. destruct (Z.eqb_spec (wipe_len b) 0) as [Z0|Z0]; injection E as <-; cbn; (split; [|reflexivity]); lia. }
  destruct X as [X D]. split; [exact X|]. destruct X as [X1 X2]. unfold wiped. rewrite (proj2 (Z.ltb_lt _ _) X1). unfold memset0. rewrite list_lookup_imap, D.
  destruct (lookup_lt_is_Some_2 (data b) i L) as [v ->]. cbn. rewrite (proj2 (Z.leb_le _ _)), (proj2 (Z.ltb_lt _ _)) by lia. reflexivity.
Qed.
