(* ===== verification/NetAddress.v ===== *)
(** flow/IPAddress.h, NetworkAddress.h and network.cpp: network addresses as text
    and as ordered values, and the DNS cache.

    Texts are lists of bytes.  The notation of IPv6 addresses and the parsing of
    an address without its port are those of boost::asio: the class [BoostIp].
    An operation throws a flow error or an exception of the standard library, or
    is undefined, which is the sscanf of a number that is no int. *)

From Stdlib Require Import String ZArith List Bool Lia Permutation.
From S2P Require Import Prelude Guest GuestProofs.
Import ListNotations.
#[local] Open Scope Z_scope.

(** * Results *)

Inductive outcome (A : Type) := Ok (x : A) | Throw (code : Z) | ThrowStd | Undefined.
Arguments Ok {A} x.
Arguments Throw {A} code.
Arguments ThrowStd {A}.
Arguments Undefined {A}.
Definition andthen {A B} (r : outcome A) (f : A -> outcome B) : outcome B :=
  match r with Ok x => f x | Throw e => Throw e | ThrowStd => ThrowStd | Undefined => Undefined end.

Definition connection_string_invalid : Z := 2104.

(** * IP addresses *)

Inductive IPAddress := V4 (ip : Z) | V6 (bytes : list Z).

Class BoostIp := { make_address : text -> option IPAddress; v6_to_string : list Z -> text }.

Definition isV6 (a : IPAddress) : bool := match a with V6 _ => true | V4 _ => false end.
Definition IPAddress_isValid (a : IPAddress) : bool :=
  match a with V6 b => existsb (fun x => negb (x =? 0)) b | V4 ip => negb (ip =? 0) end.

Fixpoint bytes_eqb (a b : list Z) : bool :=
  match a, b with
  | [], [] => true
  | x :: a, y :: b => (x =? y) && bytes_eqb a b
  | _, _ => false
  end.
Fixpoint bytes_ltb (a b : list Z) : bool :=
  match a, b with
  | [], _ :: _ => true
  | x :: a, y :: b => (x <? y) || ((x =? y) && bytes_ltb a b)
  | _, [] => false
  end.
(** Comparison of the variant: the alternative first. *)
Definition IPAddress_eqb (a b : IPAddress) : bool :=
  match a, b with V4 x, V4 y => x =? y | V6 x, V6 y => bytes_eqb x y | _, _ => false end.
Definition IPAddress_ltb (a b : IPAddress) : bool :=
  match a, b with V4 x, V4 y => x <? y | V6 x, V6 y => bytes_ltb x y | V4 _, V6 _ => true | V6 _, V4 _ => false end.

Definition v4_toString (ip : Z) : text :=
  fmt_lld (Z.land (Z.shiftr ip 24) 255) ++ str "." ++ fmt_lld (Z.land (Z.shiftr ip 16) 255) ++ str "." ++
  fmt_lld (Z.land (Z.shiftr ip 8) 255) ++ str "." ++ fmt_lld (Z.land ip 255).

Record NetworkAddress := mkAddress { ip : IPAddress; port : Z; flags : Z; fromHostname : bool }.
Definition FLAG_PRIVATE : Z := 1.
Definition FLAG_TLS : Z := 2.

(** The constructor: port is a uint16_t. *)
Definition new_address (a : IPAddress) (p : Z) (isPublic isTLS fromHostname : bool) : NetworkAddress :=
  mkAddress a (p mod 2 ^ 16) (Z.lor (if isPublic then 0 else FLAG_PRIVATE) (if isTLS then FLAG_TLS else 0)) fromHostname.

Definition address_eqb (a b : NetworkAddress) : bool := IPAddress_eqb (ip a) (ip b) && (port a =? port b) && (flags a =? flags b).
Definition address_ltb (a b : NetworkAddress) : bool :=
  if negb (flags a =? flags b) then flags a <? flags b
  else if negb (IPAddress_eqb (ip a) (ip b)) then IPAddress_ltb (ip a) (ip b)
  else port a <? port b.
Definition isValid (a : NetworkAddress) : bool := IPAddress_isValid (ip a) || negb (port a =? 0).
Definition isPublic (a : NetworkAddress) : bool := Z.land (flags a) FLAG_PRIVATE =? 0.
Definition isTLS (a : NetworkAddress) : bool := negb (Z.land (flags a) FLAG_TLS =? 0).

(** hash: the last three 16-bit words of an IPv6 address, on a little-endian
    machine; size_t has 64 bits. *)
Definition word16 (b : list Z) (i : nat) : Z := nth (2 * i) b 0 + 256 * nth (2 * i + 1) b 0.
Definition address_hash (a : NetworkAddress) : Z :=
  let result := match ip a with
    | V6 b => Z.lor (Z.lor (Z.shiftl (word16 b 5) 32) (Z.shiftl (word16 b 6) 16)) (word16 b 7)
    | V4 v => v
    end in
  (Z.shiftl result 16 + port a) mod 2 ^ 64.

(** * Reading numbers *)

Definition isspace (c : Z) : bool := (c =? 32) || ((9 <=? c) && (c <=? 13)).
Definition isdigit (c : Z) : bool := (48 <=? c) && (c <=? 57).
Fixpoint skip_space (t : text) : text := match t with c :: t' => if isspace c then skip_space t' else t | [] => [] end.
Fixpoint read_digits (v : Z) (t : text) : Z * text :=
  match t with c :: t' => if isdigit c then read_digits (v * 10 + (c - 48)) t' else (v, t) | [] => (v, []) end.

(** What %d and strtol read: white space, a sign, digits; the rest is returned. *)
Definition scan_int (t : text) : option (Z * text) :=
  let t := skip_space t in
  let '(neg, t) := match t with c :: t' => if c =? 45 then (true, t') else if c =? 43 then (false, t') else (false, t) | [] => (false, t) end in
  match t with
  | c :: _ => if isdigit c then let '(v, r) := read_digits 0 t in Some (if (neg : bool) then - v else v, r) else None
  | [] => None
  end.

Definition is_int (v : Z) : bool := (- 2 ^ 31 <=? v) && (v <? 2 ^ 31).

(** %d of sscanf, and the literal character of the format that follows. *)
Definition conversion {A} (t : text) (k : Z -> text -> outcome A) (fail : outcome A) : outcome A :=
  match scan_int t with
  | None => fail
  | Some (v, r) => if is_int v then k v r else Undefined
  end.
Definition literal {A} (c : Z) (t : text) (k : text -> outcome A) (fail : outcome A) : outcome A :=
  match t with x :: r => if x =? c then k r else fail | [] => fail end.

Definition stoi (t : text) : outcome Z :=
  match scan_int t with
  | None => ThrowStd
  | Some (v, _) => if is_int v then Ok v else ThrowStd
  end.

(** * Finding and cutting *)

Fixpoint starts_with (pat t : text) : bool :=
  match pat, t with
  | [], _ => true
  | x :: pat, y :: t => (x =? y) && starts_with pat t
  | _, [] => false
  end.
(** The text before the first occurrence of [pat]; [None] when there is none. *)
Fixpoint before (pat t : text) : option text :=
  if starts_with pat t then Some []
  else match t with c :: t' => option_map (cons c) (before pat t') | [] => None end.
(** The texts before and after the first [c]. *)
Fixpoint cut (c : Z) (t : text) : option (text * text) :=
  match t with
  | x :: t' => if x =? c then Some ([], t') else option_map (fun '(a, b) => (x :: a, b)) (cut c t')
  | [] => None
  end.

Definition lbracket : Z := 91.
Definition rbracket : Z := 93.
Definition colon : Z := 58.
Definition dot : Z := 46.
Definition comma : Z := 44.
Definition semicolon : Z := 59.

Section Ip.
Context `{BoostIp}.

Definition IPAddress_toString (a : IPAddress) : text := match a with V6 b => v6_to_string b | V4 v => v4_toString v end.
Definition IPAddress_parse (t : text) : option IPAddress := make_address t.

Definition formatIpPort (a : IPAddress) (p : Z) : text :=
  if isV6 a then str "[" ++ IPAddress_toString a ++ str "]:" ++ fmt_lld p else IPAddress_toString a ++ str ":" ++ fmt_lld p.

Definition toString (a : NetworkAddress) : text :=
  formatIpPort (ip a) (port a) ++ (if isTLS a then str ":tls" else []) ++ (if fromHostname a then str "(fromHostname)" else []).

Definition parse_v6 (f : text) (isTLS fromHostname : bool) : outcome NetworkAddress :=
  match cut rbracket f with
  | Some (inner, c :: rest) =>
      if c =? colon then
        andthen (stoi rest) (fun port =>
          match IPAddress_parse (tl inner) with
          | Some a => Ok (new_address a port true isTLS fromHostname)
          | None => Throw connection_string_invalid
          end)
      else Throw connection_string_invalid
  | _ => Throw connection_string_invalid
  end.

(** sscanf sees the text up to a NUL; the count of %n is compared to the length. *)
Definition parse_v4 (f : text) (isTLS fromHostname : bool) : outcome NetworkAddress :=
  let bad := Throw connection_string_invalid in
  conversion (c_string f) (fun a t => literal dot t (fun t =>
  conversion t (fun b t => literal dot t (fun t =>
  conversion t (fun c t => literal dot t (fun t =>
  conversion t (fun d t => literal colon t (fun t =>
  conversion t (fun port t =>
    if (length (c_string f) - length t =? length f)%nat
    then Ok (new_address (V4 ((a * 2 ^ 24 + b * 2 ^ 16 + c * 2 ^ 8 + d) mod 2 ^ 32)) port true isTLS fromHostname)
    else bad) bad) bad) bad) bad) bad) bad) bad) bad) bad.

(** The marks behind the address, and the text in front of them. *)
Definition strip_hostname (s : text) : bool * text := match before (str "(fromHostname)") s with Some f => (true, f) | None => (false, s) end.
Definition strip_tls (f : text) : bool * text :=
  if ((4 <? length f)%nat && bytes_eqb (skipn (length f - 4) f) (str ":tls"))%bool then (true, firstn (length f - 4) f) else (false, f).

Definition parse (s : text) : outcome NetworkAddress :=
  match s with
  | [] => Throw connection_string_invalid
  | _ =>
      let '(fromHostname, f) := strip_hostname s in
      let '(isTLS, f) := strip_tls f in
      match f with
      | c :: _ => if c =? lbracket then parse_v6 f isTLS fromHostname else parse_v4 f isTLS fromHostname
      | [] => parse_v4 f isTLS fromHostname
      end
  end.

(** Only flow errors are caught; the assertion on the code throws internal_error. *)
Definition internal_error : Z := 4100.
Definition parseOptional (s : text) : outcome (option NetworkAddress) :=
  match parse s with
  | Ok a => Ok (Some a)
  | Throw e => if e =? connection_string_invalid then Ok None else Throw internal_error
  | ThrowStd => ThrowStd
  | Undefined => Undefined
  end.

(** The pieces of [t] between the [c]; none after a last [c].  The text gets
    shorter with every piece. *)
Fixpoint pieces (fuel : nat) (c : Z) (t : text) : list text :=
  match t with
  | [] => []
  | _ =>
      match fuel with
      | O => []
      | S fuel => match cut c t with Some (a, r) => a :: pieces fuel c r | None => [t] end
      end
  end.

Fixpoint parse_all (l : list text) : outcome (list NetworkAddress) :=
  match l with
  | [] => Ok []
  | s :: l => andthen (parse s) (fun a => andthen (parse_all l) (fun r => Ok (a :: r)))
  end.
Definition parseList (addrs : text) : outcome (list NetworkAddress) := parse_all (pieces (length addrs) comma addrs).
End Ip.

(** * The DNS cache *)

(** std::map: the entries in the order of their keys. *)
Record Entry := mkEntry { addresses : list NetworkAddress; lastAccess : Z }.
Definition DNSCache := list (text * Entry).

Fixpoint lookup (k : text) (c : DNSCache) : option Entry :=
  match c with
  | (k', e) :: c => if bytes_eqb k' k then Some e else lookup k c
  | [] => None
  end.
Fixpoint assign (k : text) (e : Entry) (c : DNSCache) : DNSCache :=
  match c with
  | (k', e') :: c' => if bytes_eqb k' k then (k, e) :: c' else if bytes_ltb k' k then (k', e') :: assign k e c' else (k, e) :: c
  | [] => [(k, e)]
  end.
Fixpoint erase (k : text) (c : DNSCache) : DNSCache :=
  match c with
  | (k', e) :: c => if bytes_eqb k' k then c else (k', e) :: erase k c
  | [] => []
  end.

Definition cache_key (host service : text) : text := host ++ str ":" ++ service.

Definition cache_find (now : Z) (c : DNSCache) (host service : text) : DNSCache * option (list NetworkAddress) :=
  match lookup (cache_key host service) c with
  | Some e => (assign (cache_key host service) (mkEntry (addresses e) now) c, Some (addresses e))
  | None => (c, None)
  end.
Definition cache_add (now : Z) (c : DNSCache) (host service : text) (l : list NetworkAddress) : DNSCache := assign (cache_key host service) (mkEntry l now) c.
Definition cache_update (c : DNSCache) (host service : text) (l : list NetworkAddress) : DNSCache :=
  assign (cache_key host service) (mkEntry l (match lookup (cache_key host service) c with Some e => lastAccess e | None => 0 end)) c.
Definition cache_remove (c : DNSCache) (host service : text) : DNSCache :=
  match lookup (cache_key host service) c with Some _ => erase (cache_key host service) c | None => c end.
Definition cache_clear (c : DNSCache) : DNSCache := [].
Definition cache_getKeys (c : DNSCache) : list text := map fst c.
Definition cache_getLastAccess (c : DNSCache) (host service : text) : option Z := option_map lastAccess (lookup (cache_key host service) c).

(** DNSCache(map): the entries have no last access yet. *)
Definition new_cache (l : list (text * list NetworkAddress)) : DNSCache := fold_left (fun c '(k, a) => assign k (mkEntry a 0) c) l [].

Section Cache.
Context `{BoostIp}.

Fixpoint join (sep : text) (l : list text) : text :=
  match l with [] => [] | [x] => x | x :: l => x ++ sep ++ join sep l end.
Definition entry_toString (k : text) (l : list NetworkAddress) : text := k ++ [comma] ++ join [comma] (map toString l).
Definition cache_toString (c : DNSCache) : text := join [semicolon] (map (fun '(k, e) => entry_toString k (addresses e)) c).

(** One mapping: an empty one has no host name and no address. *)
Definition parse_mapping (t : text) : outcome (text * list NetworkAddress) :=
  match pieces (length t) comma t with
  | [] => Ok ([], [])
  | host :: l => andthen (parse_all l) (fun a => Ok (host, a))
  end.
Fixpoint parse_mappings (l : list text) (m : DNSCache) : outcome DNSCache :=
  match l with
  | [] => Ok m
  | t :: l => andthen (parse_mapping t) (fun '(k, a) => parse_mappings l (assign k (mkEntry a 0) m))
  end.
Definition parseFromString (s : text) : outcome DNSCache := parse_mappings (pieces (length s) semicolon s) [].
End Cache.

(** Network addresses: what is printed is read back, for a single address, a list
    and the whole DNS cache; the comparison is an order; the cache is a map. *)

(** * The notation of boost *)

Definition v6_ok (b : list Z) : Prop := length b = 16%nat /\ Forall (fun x => 0 <= x < 256) b.
Definition address_char (c : Z) : Prop := 48 <= c <= 58 \/ 97 <= c <= 102 \/ c = 46.

(** An IPv6 address is printed with hexadecimal digits, colons and dots, and read
    back from what was printed. *)
Class BoostIpLaws `{BoostIp} : Prop := {
  v6_roundtrip b : v6_ok b -> make_address (v6_to_string b) = Some (V6 b);
  v6_chars b : v6_ok b -> Forall address_char (v6_to_string b)
}.

(** * Reading numbers *)

Lemma isdigit_iff c : isdigit c = true <-> is_digit c.
Proof. unfold isdigit, is_digit. rewrite andb_true_iff, !Z.leb_le. reflexivity. Qed.

Definition no_digit (r : text) : Prop := match r with c :: _ => isdigit c = false | [] => True end.

Lemma read_digits_app d r : Forall is_digit d -> no_digit r -> forall v, read_digits v (d ++ r) = (digits_value v d, r).
Proof.
  intros D N. induction D as [|c d C D IH]; intros v; cbn [app read_digits].
  - destruct r as [|x r]; [reflexivity|]. cbn in N. cbn. now rewrite N.
  - rewrite (proj2 (isdigit_iff c) C), IH. reflexivity.
Qed.

Lemma fmt_digits z : 0 <= z -> Forall is_digit (fmt_lld z) /\ exists c t, fmt_lld z = c :: t /\ is_digit c.
Proof.
  intros L. unfold fmt_lld. destruct (Z.ltb_spec z 0); [lia|]. assert (F : Forall is_digit (digits 19 z [])) by (apply digits_digits; auto).
  split; [exact F|]. destruct (digits_nonempty 18 z []) as (c & t & E). rewrite E in *. exists c, t. split; [reflexivity|]. now apply Forall_inv in F.
Qed.

Lemma scan_fmt z r : 0 <= z < 2 ^ 31 -> no_digit r -> scan_int (fmt_lld z ++ r) = Some (z, r) /\ is_int z = true.
Proof.
  intros L N. destruct (fmt_digits z) as (F & c & t & E & C); [lia|]. split; [|unfold is_int; apply andb_true_iff; rewrite Z.leb_le, Z.ltb_lt; lia].
  pose proof (proj2 (isdigit_iff c) C) as CD. unfold is_digit in C.
  assert (SS : skip_space (fmt_lld z ++ r) = fmt_lld z ++ r).
  { rewrite E. cbn [app skip_space]. unfold isspace. destruct (Z.eqb_spec c 32), (Z.leb_spec 9 c), (Z.leb_spec c 13); try lia; reflexivity. }
  unfold scan_int. rewrite SS, E. cbn [app]. destruct (Z.eqb_spec c 45); [lia|]. destruct (Z.eqb_spec c 43); [lia|]. rewrite CD. change (c :: t ++ r) with ((c :: t) ++ r). rewrite <- E.
  rewrite (read_digits_app (fmt_lld z) r F N 0). do 2 f_equal. unfold fmt_lld. destruct (Z.ltb_spec z 0); [lia|]. rewrite digits_read by (change (10 ^ Z.of_nat 19) with 10000000000000000000; lia). reflexivity.
Qed.

Lemma conversion_fmt {A} z r (k : Z -> text -> outcome A) fail : 0 <= z < 2 ^ 31 -> no_digit r -> conversion (fmt_lld z ++ r) k fail = k z r.
Proof. intros L N. unfold conversion. destruct (scan_fmt z r L N) as [-> ->]. reflexivity. Qed.

(** * Cutting *)

Lemma bytes_eqb_spec a b : bytes_eqb a b = true <-> a = b.
Proof.
  revert b. induction a as [|x a IH]; intros [|y b]; cbn; try (split; congruence). rewrite andb_true_iff, Z.eqb_eq, IH. split; [intros [-> ->]; reflexivity|now intros [= -> ->]].
Qed.

Lemma cut_app c a b : ~ In c a -> cut c (a ++ c :: b) = Some (a, b).
Proof.
  induction a as [|x a IH]; intros N; cbn; [now rewrite Z.eqb_refl|]. destruct (Z.eqb_spec x c) as [->|_]; [destruct N; now left|].
  rewrite IH; [reflexivity|]. intros I. apply N. now right.
Qed.
Lemma cut_none c a : ~ In c a -> cut c a = None.
Proof. induction a as [|x a IH]; intros N; cbn; [reflexivity|]. destruct (Z.eqb_spec x c) as [->|_]; [destruct N; now left|]. rewrite IH; [reflexivity|]. intros I. apply N. now right. Qed.

Lemma starts_app p t : starts_with p (p ++ t) = true.
Proof. induction p as [|x p IH]; [reflexivity|]. cbn. now rewrite Z.eqb_refl. Qed.

Lemma text_before_app x p a r : ~ In x a -> before (x :: p) (a ++ (x :: p) ++ r) = Some a.
Proof.
  induction a as [|y a IH]; intros N.
  - change ([] ++ (x :: p) ++ r) with ((x :: p) ++ r). unfold before. destruct ((x :: p) ++ r) eqn:E; [discriminate|]. rewrite <- E. now rewrite starts_app.
  - cbn [app before starts_with]. destruct (Z.eqb_spec x y) as [->|_]; [destruct N; now left|]. cbn [andb]. cbn [app] in IH. rewrite IH; [reflexivity|]. intros I. apply N. now right.
Qed.
Lemma before_none x p a : ~ In x a -> before (x :: p) a = None.
Proof.
  induction a as [|y a IH]; intros N; [reflexivity|]. cbn [before starts_with]. destruct (Z.eqb_spec x y) as [->|_]; [destruct N; now left|]. cbn [andb]. rewrite IH; [reflexivity|]. intros I. apply N. now right.
Qed.

(** * Octets *)

Lemma octet v n : 0 <= v -> 0 <= n -> Z.land (Z.shiftr v n) 255 = (v / 2 ^ n) mod 256.
Proof. intros V N. rewrite Z.shiftr_div_pow2 by lia. change 255 with (Z.ones 8). now rewrite Z.land_ones by lia. Qed.

Lemma v4_octets v : 0 <= v < 2 ^ 32 -> exists a b c d, v4_toString v = fmt_lld a ++ str "." ++ fmt_lld b ++ str "." ++ fmt_lld c ++ str "." ++ fmt_lld d /\
  0 <= a < 256 /\ 0 <= b < 256 /\ 0 <= c < 256 /\ 0 <= d < 256 /\ v = a * 2 ^ 24 + b * 2 ^ 16 + c * 2 ^ 8 + d.
Proof.
  intros V. eexists _, _, _, _. split; [reflexivity|]. assert (D : Z.land v 255 = v mod 256) by (change 255 with (Z.ones 8); now rewrite Z.land_ones by lia). rewrite !octet, !D by lia.
  repeat (split; [apply Z.mod_pos_bound; lia|]). change (2 ^ 24) with 16777216. change (2 ^ 16) with 65536. change (2 ^ 8) with 256. change (2 ^ 32) with 4294967296 in V.
  rewrite (Z.mod_small (v / 16777216)) by (split; [apply Z.div_pos; lia|apply Z.div_lt_upper_bound; lia]).
  pose proof (Z.div_mod v 256 ltac:(lia)). pose proof (Z.div_mod (v / 256) 256 ltac:(lia)) as D2. pose proof (Z.div_mod (v / 65536) 256 ltac:(lia)) as D3.
  rewrite Z.div_div in D2, D3 by lia. change (256 * 256) with 65536 in D2. change (65536 * 256) with 16777216 in D3. lia.
Qed.

(** * One address *)

Definition ip_ok (a : IPAddress) : Prop := match a with V4 v => 0 <= v < 2 ^ 32 | V6 b => v6_ok b end.
Definition address_ok (a : NetworkAddress) : Prop := ip_ok (ip a) /\ 0 <= port a < 2 ^ 16 /\ 0 <= flags a < 4.
(** The address with its flag of being private dropped. *)
Definition public (a : NetworkAddress) : NetworkAddress := mkAddress (ip a) (port a) (if isTLS a then FLAG_TLS else 0) (fromHostname a).

Section Roundtrip.
Context `{BoostIpLaws}.

Definition body_char (c : Z) : Prop := address_char c \/ c = lbracket \/ c = rbracket.

Lemma digits_chars d : Forall is_digit d -> Forall body_char d.
Proof. apply Forall_impl. unfold is_digit, body_char, address_char. intros. lia. Qed.

Lemma fmt_chars z : 0 <= z -> Forall body_char (fmt_lld z).
Proof. intros L. apply digits_chars, fmt_digits, L. Qed.

Lemma str_chars s : forallb (fun c => ((46 =? c) || ((48 <=? c) && (c <=? 58)) || (c =? 91) || (c =? 93))%bool) (str s) = true -> Forall body_char (str s).
Proof.
  intros F. apply Forall_forall. intros c I. rewrite forallb_forall in F. specialize (F c I). unfold body_char, address_char, lbracket, rbracket.
  rewrite !orb_true_iff, andb_true_iff, !Z.leb_le, !Z.eqb_eq in F. lia.
Qed.

Lemma ip_chars a : ip_ok a -> Forall body_char (IPAddress_toString a).
Proof.
  destruct a as [v|b]; cbn [ip_ok IPAddress_toString]; intros O.
  - destruct (v4_octets v O) as (x & y & z & w & -> & X & Y & Z & W & _). repeat (apply Forall_app; split); try (apply fmt_chars; lia); now apply str_chars.
  - eapply Forall_impl; [|apply v6_chars, O]. unfold body_char. auto.
Qed.

Lemma body_chars a p : ip_ok a -> 0 <= p -> Forall body_char (formatIpPort a p).
Proof.
  intros O P. unfold formatIpPort. pose proof (ip_chars a O) as I. pose proof (fmt_chars p P) as F.
  destruct (isV6 a); repeat (apply Forall_app; split); auto; now apply str_chars.
Qed.

Lemma body_last a p : 0 <= p -> exists x c, formatIpPort a p = x ++ [c] /\ is_digit c /\ x <> [].
Proof.
  intros P. destruct (fmt_digits p P) as (F & c & t & E & _).
  assert (L : exists y d, fmt_lld p = y ++ [d] /\ is_digit d).
  { destruct (exists_last (l := fmt_lld p)) as (y & d & D); [rewrite E; discriminate|]. exists y, d. split; [exact D|]. rewrite D in F. apply Forall_app in F. destruct F as [_ F]. now apply Forall_inv in F. }
  destruct L as (y & d & L & D). unfold formatIpPort. rewrite L.
  destruct (isV6 a); [exists (str "[" ++ IPAddress_toString a ++ str "]:" ++ y), d|exists (IPAddress_toString a ++ str ":" ++ y), d]; rewrite <- !app_assoc; (split; [reflexivity|]); (split; [exact D|]); [discriminate|].
  intros X. apply app_eq_nil in X. destruct X; discriminate.
Qed.

Lemma chars_no c t : ~ body_char c -> Forall body_char t -> ~ In c t.
Proof. intros N F I. rewrite Forall_forall in F. auto. Qed.

Lemma chars_c_string t : Forall body_char t -> c_string t = t.
Proof.
  induction 1 as [|c t C T IH]; [reflexivity|]. cbn. unfold body_char, address_char, lbracket, rbracket in C. destruct (Z.eqb_spec c 0); [lia|]. now rewrite IH.
Qed.

Lemma literal_app {A} c r (k : text -> outcome A) fail : literal c ([c] ++ r) k fail = k r.
Proof. cbn. now rewrite Z.eqb_refl. Qed.

Lemma parse_v4_body v p tls fh : 0 <= v < 2 ^ 32 -> 0 <= p < 2 ^ 16 -> parse_v4 (formatIpPort (V4 v) p) tls fh = Ok (mkAddress (V4 v) p (if tls then FLAG_TLS else 0) fh).
Proof.
  intros V P. unfold parse_v4. rewrite chars_c_string by (apply body_chars; [exact V|lia]). unfold formatIpPort. cbn [isV6 IPAddress_toString].
  destruct (v4_octets v V) as (a & b & c & d & -> & A & B & C & D & E). rewrite <- !app_assoc. change (str ".") with [dot]. change (str ":") with [colon].
  do 3 (rewrite conversion_fmt by (lia || reflexivity); rewrite literal_app). rewrite conversion_fmt by (lia || reflexivity). rewrite literal_app. rewrite <- (app_nil_r (fmt_lld p)) at 1.
  rewrite conversion_fmt by (lia || reflexivity). cbn [length]. rewrite Nat.sub_0_r, Nat.eqb_refl. unfold new_address. rewrite <- E, !Z.mod_small by lia. now destruct tls.
Qed.

Lemma parse_v6_body b p tls fh : v6_ok b -> 0 <= p < 2 ^ 16 -> parse_v6 (formatIpPort (V6 b) p) tls fh = Ok (mkAddress (V6 b) p (if tls then FLAG_TLS else 0) fh).
Proof.
  intros V P. unfold parse_v6, formatIpPort. cbn [isV6 IPAddress_toString]. change (str "]:") with [rbracket; colon]. change (str "[") with [lbracket].
  change ([lbracket] ++ v6_to_string b ++ [rbracket; colon] ++ fmt_lld p) with ((lbracket :: v6_to_string b) ++ rbracket :: colon :: fmt_lld p).
  rewrite cut_app.
  - rewrite Z.eqb_refl. unfold stoi. destruct (scan_fmt p [] ltac:(lia) Logic.I) as [S I]. rewrite app_nil_r in S. rewrite S, I. cbn [andthen tl]. unfold IPAddress_parse. rewrite v6_roundtrip by exact V.
    unfold new_address. rewrite Z.mod_small by lia. now destruct tls.
  - intros [X|X]; [discriminate|]. pose proof (v6_chars b V) as F. rewrite Forall_forall in F. specialize (F _ X). unfold address_char, rbracket in F. lia.
Qed.

Lemma address_read a : address_ok a -> parse (toString a) = Ok (public a).
Proof.
  intros (O & P & _). pose proof (body_chars (ip a) (port a) O ltac:(lia)) as BC. destruct (body_last (ip a) (port a) ltac:(lia)) as (x & c & BL & CD & XN).
  unfold toString. set (b := formatIpPort (ip a) (port a)) in *.
  set (f := b ++ (if isTLS a then str ":tls" else [])).
  assert (NP : ~ In 40 f).
  { unfold f. rewrite in_app_iff. intros [I|I]; [revert I; apply chars_no; [unfold body_char, address_char, lbracket, rbracket; lia|exact BC]|].
    destruct (isTLS a); [vm_compute in I; intuition discriminate|destruct I]. }
  assert (BF : strip_hostname (f ++ (if fromHostname a then str "(fromHostname)" else [])) = (fromHostname a, f)).
  { unfold strip_hostname. change (str "(fromHostname)") with (40 :: tl (str "(fromHostname)")). destruct (fromHostname a).
    - rewrite <- (app_nil_r (f ++ _)), <- app_assoc. now rewrite text_before_app.
    - rewrite app_nil_r. now rewrite before_none. }
  assert (TF : strip_tls f = (isTLS a, b)).
  { unfold strip_tls, f. destruct (isTLS a).
    - rewrite length_app. change (length (str ":tls")) with 4%nat. replace (length b + 4 - 4)%nat with (length b) by lia.
      rewrite skipn_app, skipn_all, Nat.sub_diag, firstn_app, firstn_all, Nat.sub_diag. cbn [firstn skipn app]. rewrite app_nil_r, (proj2 (bytes_eqb_spec _ _) eq_refl).
      rewrite (proj2 (Nat.ltb_lt _ _)); [reflexivity|]. rewrite BL, length_app. destruct x; [congruence|cbn; lia].
    - rewrite app_nil_r. destruct (bytes_eqb (skipn (length b - 4) b) (str ":tls")) eqn:T; [|now rewrite andb_false_r]. apply bytes_eqb_spec in T. exfalso.
      pose proof (firstn_skipn (length b - 4) b) as FS. rewrite T, BL in FS. change (str ":tls") with ([58; 116; 108] ++ [115]) in FS. rewrite app_assoc in FS. apply app_inj_tail in FS. destruct FS as [_ <-]. unfold is_digit in CD. lia. }
  assert (SN : f ++ (if fromHostname a then str "(fromHostname)" else []) <> []) by (unfold f; rewrite BL; destruct x; discriminate).
  rewrite app_assoc. fold f. unfold parse. destruct (f ++ _) as [|s0 s] eqn:S; [congruence|]. rewrite BF, TF. unfold public. clear S SN BF TF.
  assert (HD : match b with c :: _ => if c =? lbracket then parse_v6 b (isTLS a) (fromHostname a) else parse_v4 b (isTLS a) (fromHostname a) | [] => parse_v4 b (isTLS a) (fromHostname a) end =
               if isV6 (ip a) then parse_v6 b (isTLS a) (fromHostname a) else parse_v4 b (isTLS a) (fromHostname a)).
  { unfold b at 1 2, formatIpPort. destruct (ip a) as [v|bs]; [|reflexivity]. cbn [isV6 IPAddress_toString]. cbn [ip_ok] in O. destruct (v4_octets v O) as (o & o2 & o3 & o4 & -> & OB & _).
    destruct (fmt_digits o) as (_ & k & t & -> & K); [lia|]. unfold is_digit in K. cbn [app]. destruct (Z.eqb_spec k lbracket) as [->|_]; [unfold lbracket in K; lia|]. reflexivity. }
  rewrite HD. unfold b. destruct (ip a) as [v|bs]; cbn [isV6 ip_ok] in *; [now apply parse_v4_body|now apply parse_v6_body].
Qed.

(** * Lists of addresses *)

Lemma pieces_join c ts : Forall (fun t => ~ In c t /\ t <> []) ts -> forall fuel, (length (join [c] ts) <= fuel)%nat -> pieces fuel c (join [c] ts) = ts.
Proof.
  induction 1 as [|x ts [N E] F IH]; intros fuel L; [now destruct fuel|]. destruct ts as [|y ts].
  - cbn [join] in *. destruct x as [|b x]; [congruence|]. destruct fuel as [|fuel]; [cbn in L; lia|]. cbn [pieces]. now rewrite cut_none.
  - change (join [c] (x :: y :: ts)) with (x ++ [c] ++ join [c] (y :: ts)) in *. cbn [app] in *. rewrite length_app in L. cbn [length] in L.
    destruct fuel as [|fuel]; [lia|]. cbn [pieces]. rewrite cut_app by exact N. rewrite IH by lia. destruct x; reflexivity.
Qed.

Definition printed_char (c : Z) : Prop := c <> comma /\ c <> semicolon.

Lemma printed_chars a : address_ok a -> Forall printed_char (toString a) /\ toString a <> [].
Proof.
  intros (O & P & _). unfold toString. split.
  - repeat (apply Forall_app; split).
    + eapply Forall_impl; [|apply body_chars; [exact O|lia]]. unfold body_char, address_char, lbracket, rbracket, printed_char, comma, semicolon. intros. lia.
    + destruct (isTLS a); [|constructor]. repeat constructor; discriminate.
    + destruct (fromHostname a); [|constructor]. repeat constructor; discriminate.
  - destruct (body_last (ip a) (port a)) as (x & c & -> & _ & _); [lia|]. destruct x; discriminate.
Qed.

Lemma printed_without c a : c = comma \/ c = semicolon -> address_ok a -> ~ In c (toString a).
Proof. intros C O I. destruct (printed_chars a O) as [F _]. rewrite Forall_forall in F. destruct (F c I). destruct C; congruence. Qed.

Lemma parse_all_printed l : Forall address_ok l -> parse_all (map toString l) = Ok (map public l).
Proof. induction 1 as [|a l O F IH]; [reflexivity|]. cbn [map parse_all]. rewrite address_read by exact O. cbn [andthen]. now rewrite IH. Qed.

Lemma printed_pieces l : Forall address_ok l -> forall fuel, (length (join [comma] (map toString l)) <= fuel)%nat -> pieces fuel comma (join [comma] (map toString l)) = map toString l.
Proof.
  intros F. apply pieces_join. apply Forall_map. eapply Forall_impl; [|exact F]. intros a O. split; [apply printed_without; auto|now apply printed_chars].
Qed.

Lemma list_read l : Forall address_ok l -> parseList (join [comma] (map toString l)) = Ok (map public l).
Proof. intros F. unfold parseList. rewrite printed_pieces by (auto; lia). now apply parse_all_printed. Qed.

(** * The order *)

Lemma bytes_ltb_irrefl a : bytes_ltb a a = false.
Proof. induction a as [|x a IH]; [reflexivity|]. cbn. now rewrite Z.ltb_irrefl, IH, andb_false_r. Qed.

Lemma bytes_ltb_trans a : forall b c, bytes_ltb a b = true -> bytes_ltb b c = true -> bytes_ltb a c = true.
Proof.
  induction a as [|x a IH]; intros [|y b] [|z c]; cbn; try congruence. rewrite !orb_true_iff, !andb_true_iff, !Z.ltb_lt, !Z.eqb_eq.
  intros [L|[-> L]] [M|[-> M]]; [left; lia|left; lia|left; lia|right; split; [reflexivity|eauto]].
Qed.

Lemma bytes_total a : forall b, bytes_ltb a b = true \/ a = b \/ bytes_ltb b a = true.
Proof.
  induction a as [|x a IH]; intros [|y b]; cbn; auto. rewrite !orb_true_iff, !andb_true_iff, !Z.ltb_lt, !Z.eqb_eq.
  destruct (Z.lt_total x y) as [L|[->|L]]; auto. destruct (IH b) as [X|[->|X]]; auto.
Qed.

(** * The cache *)

(** Keys in increasing order, without the separators; addresses that can be printed. *)
Definition key_ok (k : text) : Prop := ~ In comma k /\ ~ In semicolon k.
Definition entry_ok (x : text * Entry) : Prop := key_ok (fst x) /\ Forall address_ok (addresses (snd x)).
Fixpoint increasing (c : DNSCache) : Prop :=
  match c with
  | (k, _) :: (((k', _) :: _) as c') => bytes_ltb k k' = true /\ increasing c'
  | _ => True
  end.

Lemma increasing_tail x c : increasing (x :: c) -> increasing c.
Proof. destruct x as [k e]. destruct c as [|[k' e'] c]; [intros _; exact Logic.I|]. intros [_ I]. exact I. Qed.

Lemma increasing_head k e c : increasing ((k, e) :: c) -> forall k' e', In (k', e') c -> bytes_ltb k k' = true.
Proof.
  revert k e. induction c as [|[k1 e1] c IH]; intros k e I k' e' X; [destruct X|]. destruct I as [L I]. destruct X as [[= -> ->]|X]; [exact L|].
  eapply bytes_ltb_trans; [exact L|]. exact (IH k1 e1 I k' e' X).
Qed.

(** A key above all others is put at the end. *)
Lemma assign_last k e c : (forall k' e', In (k', e') c -> bytes_ltb k' k = true) -> assign k e c = c ++ [(k, e)].
Proof.
  induction c as [|[k1 e1] c IH]; intros A; [reflexivity|]. cbn [assign app]. rewrite (A k1 e1) by now left.
  destruct (bytes_eqb k1 k) eqn:E; [apply bytes_eqb_spec in E; subst k1; pose proof (A k e1 (or_introl eq_refl)) as X; now rewrite bytes_ltb_irrefl in X|].
  rewrite IH; [reflexivity|]. intros k' e' I. apply (A k' e'). now right.
Qed.

Definition reread (x : text * Entry) : text * Entry := (fst x, mkEntry (map public (addresses (snd x))) 0).

Lemma mapping_read k l : key_ok k -> Forall address_ok l -> parse_mapping (entry_toString k l) = Ok (k, map public l).
Proof.
  intros [NC _] F. unfold parse_mapping, entry_toString. set (j := join [comma] (map toString l)). rewrite length_app. cbn [app length].
  rewrite Nat.add_succ_r. cbn [pieces]. rewrite cut_app by exact NC. destruct (k ++ comma :: j) eqn:E; [destruct k; discriminate|].
  unfold j. rewrite printed_pieces by (auto; lia). now rewrite parse_all_printed.
Qed.

Lemma entry_pieces c : Forall entry_ok c -> Forall (fun t => ~ In semicolon t /\ t <> []) (map (fun '(k, e) => entry_toString k (addresses e)) c).
Proof.
  intros F. apply Forall_map. eapply Forall_impl; [|exact F]. intros [k e] [[_ KS] A]. cbn [fst snd] in *. unfold entry_toString. split; [|destruct k; discriminate].
  rewrite !in_app_iff. intros [X|[[X|[]]|X]]; [contradiction|discriminate|]. revert X. induction A as [|a l O A IH]; [intros []|].
  cbn [map join]. destruct (map toString l) as [|t ts] eqn:M; [now apply printed_without; [right|]|]. change ([comma] ++ ?x) with (comma :: x). rewrite in_app_iff. intros [X|[X|X]]; [|discriminate|auto].
  revert X. now apply printed_without; [right|].
Qed.

Lemma mappings_read c : forall m, Forall entry_ok c -> increasing c -> (forall k e k' e', In (k, e) m -> In (k', e') c -> bytes_ltb k k' = true) ->
  parse_mappings (map (fun '(k, e) => entry_toString k (addresses e)) c) m = Ok (m ++ map reread c).
Proof.
  induction c as [|[k e] c IH]; intros m F I A; cbn [map parse_mappings]; [now rewrite app_nil_r|]. inversion F as [|x y [KO AO] F']; subst. cbn [fst snd] in *.
  rewrite mapping_read by assumption. cbn [andthen]. rewrite assign_last by (intros k' e' X; apply (A k' e' k e X); now left). rewrite IH; auto.
  - rewrite <- app_assoc. reflexivity.
  - eapply increasing_tail; eauto.
  - intros k1 e1 k2 e2 X Y. apply in_app_or in X. destruct X as [X|[[= <- <-]|[]]]; [apply (A k1 e1 k2 e2 X); now right|]. eapply increasing_head; eauto.
Qed.

Lemma cache_read c : Forall entry_ok c -> increasing c -> parseFromString (cache_toString c) = Ok (map reread c).
Proof.
  intros F I. unfold parseFromString, cache_toString. rewrite pieces_join by (auto using entry_pieces; lia). now rewrite mappings_read by (auto; intros k e k' e' []).
Qed.
End Roundtrip.

(** A notation with the laws: two hexadecimal digits a byte. *)
Definition hex_digit (n : Z) : Z := if n <? 10 then 48 + n else 87 + n.
Definition hex_value (c : Z) : Z := if c <? 97 then c - 48 else c - 87.
Fixpoint hex_read (t : text) : list Z := match t with a :: b :: t => 16 * hex_value a + hex_value b :: hex_read t | _ => [] end.
#[local] Instance hex_notation : BoostIp := {| make_address t := Some (V6 (hex_read t)); v6_to_string b := flat_map (fun x => [hex_digit (x / 16); hex_digit (x mod 16)]) b |}.

#[local] Instance hex_laws : BoostIpLaws.
Proof.
  assert (D : forall n, 0 <= n < 16 -> hex_value (hex_digit n) = n /\ address_char (hex_digit n)).
  { intros n L. unfold hex_value, hex_digit, address_char. destruct (Z.ltb_spec n 10); [destruct (Z.ltb_spec (48 + n) 97)|destruct (Z.ltb_spec (87 + n) 97)]; lia. }
  assert (B : forall x, 0 <= x < 256 -> 0 <= x / 16 < 16 /\ 0 <= x mod 16 < 16).
  { intros x L. split; [split; [apply Z.div_pos; lia|apply Z.div_lt_upper_bound; lia]|apply Z.mod_pos_bound; lia]. }
  constructor; intros b [_ F]; cbn.
  - f_equal. f_equal. induction F as [|x b X F IH]; [reflexivity|]. cbn [flat_map app hex_read]. rewrite IH. destruct (B x X) as [P Q]. destruct (D _ P) as [-> _], (D _ Q) as [-> _]. f_equal. pose proof (Z.div_mod x 16 ltac:(lia)). lia.
  - induction F as [|x b X F IH]; [constructor|]. destruct (B x X) as [P Q]. cbn. repeat (constructor; [apply D; assumption|]). exact IH.
Qed.

(** C24: Whatever address is printed is read back, marks included: the address
    itself without its private flag, and a list of addresses in order.  The laws
    of boost's notation of IPv6 addresses are the only assumption. *)
Theorem address_roundtrip `{BoostIpLaws} :
  (forall a, address_ok a -> parse (toString a) = Ok (public a)) /\
  (forall l, Forall address_ok l -> parseList (join [comma] (map toString l)) = Ok (map public l)).
Proof. split; [exact address_read|exact list_read]. Qed.

Definition sample_v4 : NetworkAddress := mkAddress (V4 134744072) 4800 3 true.
Definition sample_v6 : NetworkAddress := mkAddress (V6 [32; 1; 13; 184; 0; 0; 0; 0; 0; 0; 0; 0; 0; 0; 0; 255]) 65535 0 false.

Lemma sample_ok : Forall address_ok [sample_v4; sample_v6].
Proof. repeat constructor; unfold v6_ok; cbn; try lia; repeat constructor; lia. Qed.

Lemma address_roundtrip_witness : toString sample_v4 = str "8.8.8.8:4800:tls(fromHostname)" /\
  parseList (join [comma] (map toString [sample_v4; sample_v6])) = Ok [public sample_v4; sample_v6].
Proof.
  split; [reflexivity|]. rewrite (proj2 address_roundtrip [sample_v4; sample_v6] sample_ok). reflexivity.
Defined.

(** * What reading accepts *)

(** std::stoi's exceptions are not flow errors, so parseOptional does not catch them. *)
Lemma parse_optional_throws `{BoostIp} : parseOptional (str "[::1]:") = ThrowStd /\ parseOptional (str "[::1]:99999999999") = ThrowStd.
Proof. split; reflexivity. Qed.

(** Octets and ports out of range are taken modulo their width. *)
Lemma parse_wraps `{BoostIp} : parse (str "256.1.2.3:65616") = parse (str "0.1.2.3:80") /\ parse (str "1.2.3.-4:80") = parse (str "1.2.2.252:80").
Proof. split; reflexivity. Qed.

(** Behind the port of an IPv6 address anything may follow. *)
Lemma parse_v6_rest : parse (str "[00000000000000000000000000000001]:80 or so") = parse (str "[00000000000000000000000000000001]:80").
Proof. reflexivity. Qed.

(** * Comparison *)

Lemma IPAddress_eqb_spec a b : IPAddress_eqb a b = true <-> a = b.
Proof. destruct a, b; cbn; rewrite ?Z.eqb_eq, ?bytes_eqb_spec; split; congruence. Qed.

Lemma IPAddress_total a b : IPAddress_ltb a b = true \/ a = b \/ IPAddress_ltb b a = true.
Proof. destruct a as [x|x], b as [y|y]; cbn; rewrite ?Z.ltb_lt; auto; [|destruct (bytes_total x y) as [L|[->|L]]; auto]. destruct (Z.lt_total x y) as [L|[->|L]]; auto. Qed.

Lemma IPAddress_irrefl a : IPAddress_ltb a a = false.
Proof. destruct a; cbn; [apply Z.ltb_irrefl|apply bytes_ltb_irrefl]. Qed.

Lemma IPAddress_trans a b c : IPAddress_ltb a b = true -> IPAddress_ltb b c = true -> IPAddress_ltb a c = true.
Proof. destruct a, b, c; cbn; try congruence; rewrite ?Z.ltb_lt; [lia|]. apply bytes_ltb_trans. Qed.

(** Lexicographic: the flags, the IP address, the port. *)
Lemma address_lt_cases a b : address_ltb a b = true <-> flags a < flags b \/ flags a = flags b /\ (IPAddress_ltb (ip a) (ip b) = true \/ ip a = ip b /\ port a < port b).
Proof.
  unfold address_ltb. destruct (Z.eqb_spec (flags a) (flags b)) as [F|F]; cbn [negb]; [|rewrite Z.ltb_lt; lia].
  destruct (IPAddress_eqb (ip a) (ip b)) eqn:I; cbn [negb].
  - apply IPAddress_eqb_spec in I. rewrite I, IPAddress_irrefl, Z.ltb_lt. split; [auto|]. intros [X|[_ [X|[_ X]]]]; [lia|discriminate|exact X].
  - split; [auto|]. intros [X|[_ [X|[X _]]]]; [lia|exact X|]. apply IPAddress_eqb_spec in X. congruence.
Qed.

Lemma address_eq_cases a b : address_eqb a b = true <-> ip a = ip b /\ port a = port b /\ flags a = flags b.
Proof. unfold address_eqb. rewrite !andb_true_iff, IPAddress_eqb_spec, !Z.eqb_eq. tauto. Qed.

(** [<] is a strict order, total up to [==], and equal addresses hash alike. *)
Lemma address_order a b c :
  address_ltb a a = false /\ (address_ltb a b = true -> address_ltb b c = true -> address_ltb a c = true) /\
  (address_ltb a b = true \/ address_eqb a b = true \/ address_ltb b a = true) /\ (address_eqb a b = true -> address_ltb a b = false /\ address_hash a = address_hash b).
Proof.
  assert (IR : forall x, address_ltb x x = false).
  { intros x. destruct (address_ltb x x) eqn:E; [|reflexivity]. apply address_lt_cases in E. rewrite IPAddress_irrefl in E. destruct E as [E|[_ [E|[_ E]]]]; [lia|discriminate|lia]. }
  split; [apply IR|]. split; [|split].
  - rewrite !address_lt_cases. intros [X|[X1 X2]] [Y|[Y1 Y2]]; try (left; lia). right. split; [lia|].
    destruct X2 as [X2|[X2 X3]], Y2 as [Y2|[Y2 Y3]]; [left; eapply IPAddress_trans; eauto|left; congruence|left; congruence|right; split; [congruence|lia]].
  - rewrite !address_lt_cases, address_eq_cases. destruct (Z.lt_total (flags a) (flags b)) as [F|[F|F]]; auto. symmetry in F. destruct (IPAddress_total (ip a) (ip b)) as [I|[I|I]]; auto 6.
    symmetry in I. destruct (Z.lt_total (port a) (port b)) as [P|[P|P]]; auto 8.
  - rewrite address_eq_cases. intros (I & P & F). split; [|unfold address_hash; now rewrite I, P]. rewrite <- (IR a). unfold address_ltb. now rewrite I, P, F.
Qed.

(** * The cache is a map *)

Lemma lookup_notin k c : (forall k' e', In (k', e') c -> bytes_ltb k k' = true) -> lookup k c = None.
Proof.
  induction c as [|[k1 e1] c IH]; intros A; [reflexivity|]. cbn. destruct (bytes_eqb k1 k) eqn:E.
  - apply bytes_eqb_spec in E. subst k1. pose proof (A k e1 (or_introl eq_refl)) as X. now rewrite bytes_ltb_irrefl in X.
  - apply IH. intros k' e' I. apply (A k' e'). now right.
Qed.

Lemma lookup_assign k e c k' : lookup k' (assign k e c) = if bytes_eqb k k' then Some e else lookup k' c.
Proof.
  induction c as [|[k1 e1] c IH]; cbn [assign lookup]; [reflexivity|]. destruct (bytes_eqb k1 k) eqn:E.
  - apply bytes_eqb_spec in E. subst k1. cbn [lookup]. now destruct (bytes_eqb k k').
  - destruct (bytes_ltb k1 k); cbn [lookup]; [|reflexivity]. rewrite IH. destruct (bytes_eqb k1 k') eqn:F; [|reflexivity].
    apply bytes_eqb_spec in F. subst k1. destruct (bytes_eqb k k') eqn:G; [|reflexivity]. apply bytes_eqb_spec in G. subst. now rewrite (proj2 (bytes_eqb_spec _ _) eq_refl) in E.
Qed.

Lemma assign_keys k e c k' e' : In (k', e') (assign k e c) -> k' = k \/ In (k', e') c.
Proof.
  induction c as [|[k1 e1] c IH]; cbn [assign].
  - intros [[= <- <-]|[]]. auto.
  - destruct (bytes_eqb k1 k) eqn:E; [|destruct (bytes_ltb k1 k)]; intros [X|X]; try (injection X as <- <-); cbn; auto. destruct (IH X); auto.
Qed.

Lemma increasing_cons k e c : (forall k' e', In (k', e') c -> bytes_ltb k k' = true) -> increasing c -> increasing ((k, e) :: c).
Proof. destruct c as [|[k' e'] c]; [reflexivity|]. intros A I. split; [|exact I]. apply (A k' e'). now left. Qed.

Lemma assign_increasing k e c : increasing c -> increasing (assign k e c).
Proof.
  induction c as [|[k1 e1] c IH]; intros I; [exact Logic.I|]. cbn [assign]. pose proof (increasing_head _ _ _ I) as H. pose proof (increasing_tail _ _ I) as T.
  destruct (bytes_eqb k1 k) eqn:E; [apply bytes_eqb_spec in E; subst k1; now apply increasing_cons|]. destruct (bytes_ltb k1 k) eqn:L.
  - apply increasing_cons; [|now apply IH]. intros k' e' X. apply assign_keys in X. destruct X as [->|X]; [exact L|eauto].
  - assert (G : bytes_ltb k k1 = true). { destruct (bytes_total k k1) as [G|[->|G]]; [exact G|now rewrite (proj2 (bytes_eqb_spec _ _) eq_refl) in E|congruence]. }
    apply increasing_cons; [|exact I]. intros k' e' [[= <- <-]|X]; [exact G|]. eapply bytes_ltb_trans; eauto.
Qed.

Lemma erase_in k c k' e' : In (k', e') (erase k c) -> In (k', e') c.
Proof. induction c as [|[k1 e1] c IH]; cbn; [auto|]. destruct (bytes_eqb k1 k); [auto|]. intros [X|X]; auto. Qed.

Lemma erase_increasing k c : increasing c -> increasing (erase k c).
Proof.
  induction c as [|[k1 e1] c IH]; intros I; [exact Logic.I|]. cbn [erase]. pose proof (increasing_tail _ _ I) as T. destruct (bytes_eqb k1 k); [exact T|].
  apply increasing_cons; [|now apply IH]. intros k' e' X. apply erase_in in X. eapply increasing_head; eauto.
Qed.

Lemma lookup_erase k c k' : increasing c -> lookup k' (erase k c) = if bytes_eqb k k' then None else lookup k' c.
Proof.
  induction c as [|[k1 e1] c IH]; intros I; cbn [erase lookup]; [now destruct (bytes_eqb k k')|]. pose proof (increasing_tail _ _ I) as T. destruct (bytes_eqb k1 k) eqn:E.
  - apply bytes_eqb_spec in E. subst k1. destruct (bytes_eqb k k') eqn:F; [|reflexivity]. apply bytes_eqb_spec in F. subst k'. apply lookup_notin. eapply increasing_head; eauto.
  - cbn [lookup]. rewrite (IH T). destruct (bytes_eqb k1 k') eqn:F; [|reflexivity]. apply bytes_eqb_spec in F. subst k1. destruct (bytes_eqb k k') eqn:G; [|reflexivity].
    apply bytes_eqb_spec in G. subst. now rewrite (proj2 (bytes_eqb_spec _ _) eq_refl) in E.
Qed.

Inductive cache_op := Add (now : Z) (host service : text) (l : list NetworkAddress) | Update (host service : text) (l : list NetworkAddress)
  | Find (now : Z) (host service : text) | Drop (host service : text) | Clear.

Definition cache_step (c : DNSCache) (o : cache_op) : DNSCache * option (list NetworkAddress) :=
  match o with
  | Add now h s l => (cache_add now c h s l, None)
  | Update h s l => (cache_update c h s l, None)
  | Find now h s => cache_find now c h s
  | Drop h s => (cache_remove c h s, None)
  | Clear => (cache_clear c, None)
  end.

Definition cache_run (l : list cache_op) : DNSCache := fold_left (fun c o => fst (cache_step c o)) l [].

(** What a history of operations leaves for a host and a service, each a text of
    its own: the addresses written last, and the time of the last access. *)
Definition recall_step (h s : text) (r : option Entry) (o : cache_op) : option Entry :=
  let same h' s' := bytes_eqb h' h && bytes_eqb s' s in
  match o with
  | Add now h' s' l => if same h' s' then Some (mkEntry l now) else r
  | Update h' s' l => if same h' s' then Some (mkEntry l (match r with Some e => lastAccess e | None => 0 end)) else r
  | Find now h' s' => if same h' s' then option_map (fun e => mkEntry (addresses e) now) r else r
  | Drop h' s' => if same h' s' then None else r
  | Clear => None
  end.
Definition recall (h s : text) (l : list cache_op) : option Entry := fold_left (recall_step h s) l None.

(** The service names have no colon, which the key puts between host and
    service. *)
Definition op_service (o : cache_op) : Prop :=
  match o with Add _ _ s _ | Update _ s _ | Find _ _ s | Drop _ s => ~ In colon s | Clear => True end.

(** What is stored can be printed: no separators of the printed form, addresses
    that are read back. *)
Definition op_printable `{BoostIp} (o : cache_op) : Prop :=
  match o with
  | Add _ h s l | Update h s l => key_ok h /\ key_ok s /\ Forall address_ok l
  | _ => True
  end.

Lemma cache_key_inj h s h' s' : ~ In colon s -> ~ In colon s' -> cache_key h s = cache_key h' s' -> h = h' /\ s = s'.
Proof.
  unfold cache_key. change (str ":") with [colon]. cbn [app]. intros N N'. revert h'.
  induction h as [|x h IH]; intros [|y h'] E; cbn [app] in E.
  - injection E as E. auto.
  - injection E as _ ->. exfalso. apply N. apply in_app_iff. right. now left.
  - injection E as _ <-. exfalso. apply N'. apply in_app_iff. right. now left.
  - injection E as -> E. destruct (IH h' E). split; congruence.
Qed.

Lemma cache_key_eqb h s h' s' : ~ In colon s -> ~ In colon s' ->
  bytes_eqb (cache_key h' s') (cache_key h s) = bytes_eqb h' h && bytes_eqb s' s.
Proof.
  intros N N'. apply eq_true_iff_eq. rewrite andb_true_iff, !bytes_eqb_spec. split; [now apply cache_key_inj|]. now intros [-> ->].
Qed.

Lemma cache_step_recall c o h s : increasing c -> op_service o -> ~ In colon s ->
  increasing (fst (cache_step c o)) /\
  lookup (cache_key h s) (fst (cache_step c o)) = recall_step h s (lookup (cache_key h s) c) o.
Proof.
  intros I No N. destruct o as [now h' s' l|h' s' l|now h' s'|h' s'|]; cbn [cache_step recall_step op_service fst] in *;
    try rewrite <- (cache_key_eqb h s h' s') by assumption; set (k := cache_key h s).
  - split; [now apply assign_increasing|]. apply lookup_assign.
  - split; [now apply assign_increasing|]. unfold cache_update. rewrite lookup_assign.
    destruct (bytes_eqb (cache_key h' s') k) eqn:E; [|reflexivity]. apply bytes_eqb_spec in E. now rewrite E.
  - unfold cache_find. destruct (bytes_eqb (cache_key h' s') k) eqn:E.
    + apply bytes_eqb_spec in E. rewrite E. destruct (lookup k c) as [e|] eqn:L; cbn [fst option_map]; [|auto].
      split; [now apply assign_increasing|]. now rewrite lookup_assign, (proj2 (bytes_eqb_spec _ _) eq_refl).
    + destruct (lookup (cache_key h' s') c); cbn [fst]; [|auto]. split; [now apply assign_increasing|]. now rewrite lookup_assign, E.
  - unfold cache_remove. destruct (lookup (cache_key h' s') c) as [e|] eqn:L.
    + split; [now apply erase_increasing|]. now apply lookup_erase.
    + split; [exact I|]. destruct (bytes_eqb (cache_key h' s') k) eqn:E; [|reflexivity]. apply bytes_eqb_spec in E. congruence.
  - split; [exact Logic.I|reflexivity].
Qed.

Lemma cache_run_recall h s l : Forall op_service l -> ~ In colon s ->
  increasing (cache_run l) /\ lookup (cache_key h s) (cache_run l) = recall h s l.
Proof.
  intros F N. unfold cache_run, recall. assert (I : increasing []) by exact Logic.I. change None with (lookup (cache_key h s) []).
  revert I. generalize ([] : DNSCache). induction F as [|o l Fo F IH]; intros c I; cbn [fold_left]; [auto|].
  destruct (cache_step_recall c o h s I Fo N) as [I' E]. rewrite <- E. now apply IH.
Qed.

Lemma assign_entry_ok `{BoostIp} k e c : Forall entry_ok c -> entry_ok (k, e) -> Forall entry_ok (assign k e c).
Proof.
  intros F E. induction F as [|[k' e'] c X F IH]; cbn [assign]; [auto|]. destruct (bytes_eqb k' k); [auto|]. destruct (bytes_ltb k' k); auto.
Qed.

Lemma lookup_entry_ok `{BoostIp} k e c : Forall entry_ok c -> lookup k c = Some e -> entry_ok (k, e).
Proof.
  intros F. induction F as [|[k' e'] c X F IH]; cbn [lookup]; [discriminate|]. destruct (bytes_eqb k' k) eqn:E; [|auto].
  apply bytes_eqb_spec in E. subst k'. now intros [= <-].
Qed.

Lemma key_ok_key h s : key_ok h -> key_ok s -> key_ok (cache_key h s).
Proof.
  unfold key_ok, cache_key. change (str ":") with [colon]. intros [A B] [C D]. rewrite !in_app_iff.
  split; intros [X|[[X|[]]|X]]; (contradiction || discriminate).
Qed.

Lemma cache_step_printable `{BoostIp} c o : Forall entry_ok c -> op_printable o -> Forall entry_ok (fst (cache_step c o)).
Proof.
  intros F P. destruct o as [now h s l|h s l|now h s|h s|]; cbn [cache_step op_printable fst] in *.
  1, 2: apply assign_entry_ok; [exact F|]; split; [now apply key_ok_key|apply P].
  - unfold cache_find. destruct (lookup (cache_key h s) c) as [e|] eqn:L; [|exact F]. apply assign_entry_ok; [exact F|]. exact (lookup_entry_ok _ _ _ F L).
  - unfold cache_remove. destruct (lookup _ c); [|exact F]. rewrite Forall_forall in *. intros [k x] X. apply F. eapply erase_in; eauto.
  - constructor.
Qed.

Lemma cache_run_printable `{BoostIp} l : Forall op_printable l -> Forall entry_ok (cache_run l).
Proof.
  intros F. unfold cache_run. assert (I : Forall entry_ok []) by constructor. revert I. generalize ([] : DNSCache).
  induction F as [|o l Fo F IH]; intros c I; cbn [fold_left]; [auto|]. apply IH. now apply cache_step_printable.
Qed.

Lemma lookup_reread k c : lookup k (map reread c) = option_map (fun e => mkEntry (map public (addresses e)) 0) (lookup k c).
Proof. induction c as [|[k' e'] c IH]; cbn; [reflexivity|]. now destruct (bytes_eqb k' k). Qed.

(** C26: after any operations on an empty DNS cache, with services without a
    colon, [find] answers for each host and service the addresses of the last
    [add] or [update] of that very host and service since they were last removed
    or the cache cleared, and [getLastAccess] the time of their last [add] or
    successful [find] (0 when [update] put them there).  When moreover hosts and
    services hold no comma and no semicolon and the addresses can be printed,
    the printed cache is read back as one with the same keys that answers the
    same addresses without their private flag, and 0 for every access time. *)
Theorem dns_cache_correct `{BoostIpLaws} (l : list cache_op) (F : Forall op_service l) :
  (forall now h s, ~ In colon s ->
     snd (cache_find now (cache_run l) h s) = option_map addresses (recall h s l) /\
     cache_getLastAccess (cache_run l) h s = option_map lastAccess (recall h s l)) /\
  (Forall op_printable l ->
   exists c, parseFromString (cache_toString (cache_run l)) = Ok c /\ cache_getKeys c = cache_getKeys (cache_run l) /\
     forall now h s, ~ In colon s ->
       snd (cache_find now c h s) = option_map (fun e => map public (addresses e)) (recall h s l) /\
       cache_getLastAccess c h s = option_map (fun _ => 0) (recall h s l)).
Proof.
  assert (A : forall now c h s, snd (cache_find now c h s) = option_map addresses (lookup (cache_key h s) c)).
  { intros. unfold cache_find. now destruct (lookup _ c). }
  split; [|intros P; exists (map reread (cache_run l)); split; [|split]].
  - intros now h s N. rewrite A. unfold cache_getLastAccess. now rewrite (proj2 (cache_run_recall h s l F N)).
  - apply cache_read; [now apply cache_run_printable|]. apply (cache_run_recall [] [] l F). intros [].
  - unfold cache_getKeys. now rewrite map_map.
  - intros now h s N. rewrite A. unfold cache_getLastAccess. rewrite lookup_reread, (proj2 (cache_run_recall h s l F N)).
    now destruct (recall h s l).
Qed.

Definition sample_ops : list cache_op :=
  [Add 5 (str "b") (str "1") [sample_v4]; Add 6 (str "a") (str "2") []; Find 8 (str "b") (str "1"); Update (str "b") (str "1") [sample_v4; sample_v6];
   Add 9 (str "c") (str "3") []; Drop (str "c") (str "3")].

Lemma dns_cache_witness : cache_toString (cache_run sample_ops) = str "a:2,;b:1,8.8.8.8:4800:tls(fromHostname),[20010db80000000000000000000000ff]:65535" /\
  cache_getLastAccess (cache_run sample_ops) (str "b") (str "1") = Some 8 /\
  exists c, parseFromString (cache_toString (cache_run sample_ops)) = Ok c /\ snd (cache_find 10 c (str "b") (str "1")) = Some [public sample_v4; sample_v6].
Proof.
  split; [reflexivity|].
  assert (F : Forall op_service sample_ops) by (repeat constructor; vm_compute; intuition discriminate).
  assert (N : ~ In colon (str "1")) by (vm_compute; intuition discriminate).
  destruct (dns_cache_correct sample_ops F) as [A B]. split; [exact (proj2 (A 0 (str "b") (str "1") N))|].
  destruct B as (c & E & _ & R).
  - pose proof sample_ok as O. inversion O as [|? ? O1 O2]; subst.
    repeat (constructor; [cbn [op_printable]; repeat split; auto; vm_compute; intuition discriminate|]). constructor.
  - exists c. split; [exact E|]. exact (proj1 (R 10 (str "b") (str "1") N)).
Defined.

(** A host name and a service share the key of another pair when the colon
    between them can be taken for one of the service's. *)
Lemma cache_keys_meet : snd (cache_find 0 (cache_run [Add 1 (str "a:b") (str "c") []]) (str "a") (str "b:c")) = Some [].
Proof. reflexivity. Qed.
