(* ===== verification/Serialize.v ===== *)
(** flow/include/flow/serialize.h and serialize.cpp: BinaryWriter, BinaryReader and
    the serializers of strings, pairs and containers; the tuple encoding of keys.

    A type is what the templates are instantiated with; an item of [n] bytes is a
    binary serializable type, as the integer its bytes hold.  The elements' own
    operator< is a parameter, as is the first protocol version that is not
    supported, which the build generates.  Versions that ask for the object
    serializer are not read.  Sizes stay below 2^31. *)

From Stdlib Require Import ZArith List Bool Lia Sorting.Sorted.
From S2P Require Import Prelude CompressedInt.
Import ListNotations.
#[local] Open Scope Z_scope.

(** * BinaryWriter *)

(** The block of memory holds [allocated] bytes, [None] where nothing was written;
    the first [size] are the writer's. *)
Record BinaryWriter := mkWriter { block : list (option Z); wsize : Z; allocated : Z }.
Definition new_writer : BinaryWriter := mkWriter [] 0 0.

(** sizeof(ArenaBlock): the count and two short sizes, two sizes and an offset of
    four bytes, and an estimate of eight. *)
Definition ARENA_BLOCK : Z := 32.

(** The place of the bytes is the old size. *)
Definition writeBytes (w : BinaryWriter) (s : Z) : BinaryWriter * Z :=
  let p := wsize w in
  let size := p + s in
  if allocated w <? size then
    let allocated :=
      if size <=? 512 - ARENA_BLOCK then 512 - ARENA_BLOCK
      else if size <=? 4096 - ARENA_BLOCK then 4096 - ARENA_BLOCK
      else Z.max (allocated w * 2) size in
    (mkWriter (firstn (Z.to_nat p) (block w) ++ repeat None (Z.to_nat (allocated - p))) size allocated, p)
  else (mkWriter (block w) size (allocated w), p).

Definition store_bytes (w : BinaryWriter) (p : Z) (d : list Z) : BinaryWriter :=
  mkWriter (firstn (Z.to_nat p) (block w) ++ map Some d ++ skipn (Z.to_nat p + length d) (block w)) (wsize w) (allocated w).
Definition write (w : BinaryWriter) (d : list Z) : BinaryWriter :=
  let '(w, p) := writeBytes w (Z.of_nat (length d)) in store_bytes w p d.
Definition serializeBytes (w : BinaryWriter) (d : list Z) : BinaryWriter := if 0 <? Z.of_nat (length d) then write w d else w.
Definition serializeBinaryItem (w : BinaryWriter) (n : nat) (v : Z) : BinaryWriter := write w (le_encode n v).
Definition toValue (w : BinaryWriter) : list (option Z) := firstn (Z.to_nat (wsize w)) (block w).

(** ** Keys as tuples *)

Fixpoint needed_loop (fuel : nat) (n : nat) (val : Z) : nat :=
  match fuel with
  | O => n
  | S fuel => if (n <? 8)%nat && negb (Z.shiftr val (Z.of_nat n * 8) =? 0) then needed_loop fuel (S n) val else n
  end.
(** bytesNeeded: at most seven rounds. *)
Definition bytesNeeded (val : Z) : nat := needed_loop 7 1 val.

(** The bytes of a uint64_t after bigEndian64, from the [8 - n]th on. *)
Definition last_bytes (n : nat) (t : Z) : list Z := skipn (8 - n) (rev (le_encode 8 t)).

(** The loop over the text: [last] holds what was not written yet. *)
Fixpoint tuple_loop (w : BinaryWriter) (last : list Z) (t : list Z) : BinaryWriter :=
  match t with
  | [] => serializeBytes (serializeBytes w last) [0]
  | c :: t => if c =? 0 then tuple_loop (serializeBytes (serializeBytes w last) [0; 255]) [] t else tuple_loop w (last ++ [c]) t
  end.
Definition tuple_string (w : BinaryWriter) (s : list Z) : BinaryWriter := tuple_loop (serializeBytes w [1]) [] s.
Definition tuple_bool (w : BinaryWriter) (b : bool) : BinaryWriter := if b then write w [21; 1] else write w [20].
Definition tuple_uint64 (w : BinaryWriter) (t : Z) : BinaryWriter :=
  if t =? 0 then write w [20]
  else let n := bytesNeeded t in write w ((20 + Z.of_nat n) :: last_bytes n t).
(** The negation of the smallest int64_t is undefined. *)
Definition tuple_int64 (w : BinaryWriter) (t : Z) : option BinaryWriter :=
  if t =? 0 then Some (write w [20])
  else if 0 <? t then let n := bytesNeeded t in Some (write w ((20 + Z.of_nat n) :: last_bytes n t))
  else if t =? - 2 ^ 63 then None
  else let n := bytesNeeded (- t) in Some (write w ((20 - Z.of_nat n) :: last_bytes n ((t - 1) mod 2 ^ 64))).

(** * Types and values *)

Inductive ty := Item (n : nat) | Str | Vec (t : ty) | Arr (n : nat) (t : ty) | Pair (a b : ty) | Set_ (t : ty) | Map (k v : ty) | Variant (l : tys)
with tys := TNil | TCons (t : ty) (l : tys).

Inductive val := VInt (v : Z) | VStr (s : list Z) | VList (l : list val) | VPair (a b : val) | VAlt (i : nat) (v : val).

Fixpoint alternative (l : tys) (i : nat) : option ty :=
  match l, i with
  | TNil, _ => None
  | TCons t _, O => Some t
  | TCons _ l, S i => alternative l i
  end.
Fixpoint alternatives (l : tys) : nat := match l with TNil => 0 | TCons _ l => S (alternatives l) end.

(** operator<< of an element for every element of a container. *)
Fixpoint save_all (f : BinaryWriter -> val -> BinaryWriter) (w : BinaryWriter) (l : list val) : BinaryWriter :=
  match l with [] => w | v :: l => save_all f (f w v) l end.

Definition save_count (w : BinaryWriter) (l : list val) : BinaryWriter := serializeBinaryItem w 4 (Z.of_nat (length l)).

(** save, for values of the type; others are not written. *)
Fixpoint save (t : ty) (w : BinaryWriter) (v : val) : BinaryWriter :=
  match t, v with
  | Item n, VInt x => serializeBinaryItem w n x
  | Str, VStr s => serializeBytes (serializeBinaryItem w 4 (Z.of_nat (length s))) s
  | Vec t, VList l => save_all (save t) (save_count w l) l
  | Arr _ t, VList l => save_all (save t) w l
  | Pair a b, VPair x y => save b (save a w x) y
  | Set_ t, VList l => save_all (save t) (save_count w l) l
  | Map k e, VList l => save_all (fun w p => match p with VPair x y => save e (save k w x) y | _ => w end) (save_count w l) l
  | Variant l, VAlt i x => save_alt l i (serializeBinaryItem w 1 (Z.of_nat i)) x
  | _, _ => w
  end
with save_alt (l : tys) (i : nat) (w : BinaryWriter) (v : val) : BinaryWriter :=
  match l, i with
  | TCons t _, O => save t w v
  | TCons _ l, S i => save_alt l i w v
  | TNil, _ => w
  end.

(** * BinaryReader *)

(** A flow error, an exception of the standard library, or a result. *)
Inductive outcome (A : Type) := Ok (x : A) | Throw (code : Z) | ThrowStd.
Arguments Ok {A} x.
Arguments Throw {A} code.
Arguments ThrowStd {A}.

Definition serialization_failed : Z := 1044.
Definition incompatible_protocol_version : Z := 2100.
Definition internal_error : Z := 4100.

(** A reader's operation takes the bytes that are left. *)
Definition reader (A : Type) := list Z -> outcome (A * list Z).
Definition ret {A} (x : A) : reader A := fun r => Ok (x, r).
Definition bindr {A B} (f : reader A) (g : A -> reader B) : reader B :=
  fun r => match f r with Ok (x, r) => g x r | Throw e => Throw e | ThrowStd => ThrowStd end.
Definition fail {A} (e : Z) : reader A := fun _ => Throw e.
Definition fail_std {A} : reader A := fun _ => ThrowStd.

(** [readBytes] of serialize.cpp.  On input that ends early it asserts that the
    network is not simulated before it throws; Net2 is not
    ([Net2::isSimulated]). *)
Definition readBytes (n : nat) : reader (list Z) := fun r => if (n <=? length r)%nat then Ok (firstn n r, skipn n r) else Throw serialization_failed.
Definition read_item (n : nat) : reader Z := bindr (readBytes n) (fun d => ret (le_decode d)).
(** An int: four bytes in two's complement. *)
Definition signed32 (v : Z) : Z := if v <? 2 ^ 31 then v else v - 2 ^ 32.
Definition read_int : reader Z := bindr (read_item 4) (fun v => ret (signed32 v)).

Section Load.
(** operator< of the elements of sets and the keys of maps. *)
Context (lt : val -> val -> bool).

(** set::insert and map::emplace: nothing happens when an equivalent key is there. *)
Fixpoint insert (key : val -> val) (x : val) (l : list val) : list val :=
  match l with
  | [] => [x]
  | y :: l' => if lt (key x) (key y) then x :: l else if lt (key y) (key x) then y :: insert key x l' else l
  end.
Definition key_of (p : val) : val := match p with VPair k _ => k | _ => p end.

Fixpoint load_n (f : reader val) (n : nat) : reader (list val) :=
  match n with O => ret [] | S n => bindr f (fun v => bindr (load_n f n) (fun l => ret (v :: l))) end.
(** Elements are inserted as they are read. *)
Fixpoint load_into (key : val -> val) (f : reader val) (n : nat) (l : list val) : reader (list val) :=
  match n with O => ret l | S n => bindr f (fun v => load_into key f n (insert key v l)) end.

(** The assertion after every composite load. *)
Context (valid : bool).
Definition check {A} (x : A) : reader A := if valid then ret x else fail internal_error.

Fixpoint load (t : ty) : reader val :=
  match t with
  | Item n => bindr (read_item n) (fun v => ret (VInt v))
  | Str => bindr read_int (fun n => if n <? 0 then fail_std else bindr (readBytes (Z.to_nat n)) (fun s => check (VStr s)))
  | Vec t => bindr read_int (fun n => if n <? 0 then fail_std else bindr (load_n (load t) (Z.to_nat n)) (fun l => check (VList l)))
  | Arr n t => bindr (load_n (load t) n) (fun l => check (VList l))
  | Pair a b => bindr (load a) (fun x => bindr (load b) (fun y => ret (VPair x y)))
  | Set_ t => bindr read_int (fun n => bindr (load_into (fun x => x) (load t) (Z.to_nat n) []) (fun l => check (VList l)))
  | Map k e => bindr read_int (fun n =>
      bindr (load_into key_of (bindr (load k) (fun x => bindr (load e) (fun y => ret (VPair x y)))) (Z.to_nat n) []) (fun l => check (VList l)))
  | Variant l => bindr (read_item 1) (fun i => bindr (load_alt l (Z.to_nat i)) (fun x => check (VAlt (Z.to_nat i) x)))
  end
with load_alt (l : tys) (i : nat) : reader val :=
  match l, i with
  | TCons t _, O => load t
  | TCons _ l, S i => load_alt l i
  | TNil, _ => fail internal_error
  end.
End Load.

(** * Versions *)

Definition versionFlagMask : Z := 1152921504606846975.
Definition objectSerializerFlag : Z := 1152921504606846976.
Definition minValidProtocolVersion : Z := 1142507626253647873.
Definition version (v : Z) : Z := Z.land v versionFlagMask.
Definition isValid (v : Z) : bool := minValidProtocolVersion <=? version v.
Definition hasObjectSerializerFlag (v : Z) : bool := negb (Z.land v objectSerializerFlag =? 0).

(** BinaryWriter::toValue(t, IncludeVersion(v)): the constructor of the options asserts
    that the version is valid. *)
Definition to_value (t : ty) (v : Z) (x : val) : option (list (option Z)) :=
  if isValid v then Some (toValue (save t (serializeBinaryItem new_writer 8 v) x)) else None.

(** BinaryReader::fromStringRef<T>(s, IncludeVersion()); [None] where the object
    serializer takes over. *)
Definition from_string_ref (minInvalid : Z) (lt : val -> val -> bool) (t : ty) (s : list Z) : option (outcome val) :=
  match read_item 8 s with
  | Ok (v, r) =>
      if negb (isValid v) then Some (Throw incompatible_protocol_version)
      else if version minInvalid <=? version v then Some (Throw incompatible_protocol_version)
      else if hasObjectSerializerFlag v then None
      else Some (match load lt true t r with Ok (x, _) => Ok x | Throw e => Throw e | ThrowStd => ThrowStd end)
  | Throw e => Some (Throw e)
  | ThrowStd => Some ThrowStd
  end.

(** Serialization: the writer's memory holds what was written, values of nested
    types are read back from it, truncated input is refused, and the order of
    tuple-encoded keys is the order of their values. *)

(** * The writer's memory *)

Record writer_ok (w : BinaryWriter) : Prop := {
  wo_block : Z.of_nat (length (block w)) = allocated w; wo_size : 0 <= wsize w <= allocated w
}.

(** The bytes [d] were added. *)
Definition wrote (w w' : BinaryWriter) (d : list Z) : Prop := writer_ok w' /\ toValue w' = toValue w ++ map Some d /\ wsize w' = wsize w + Z.of_nat (length d).

Lemma new_ok : writer_ok new_writer.
Proof. constructor; cbn; lia. Qed.

Lemma writeBytes_ok w s w' p : writer_ok w -> 0 <= s -> writeBytes w s = (w', p) ->
  p = wsize w /\ writer_ok w' /\ wsize w' = wsize w + s /\ firstn (Z.to_nat p) (block w') = toValue w.
Proof.
  intros [B S] P E. unfold writeBytes in E. destruct (Z.ltb_spec (allocated w) (wsize w + s)) as [L|L]; injection E as <- <-.
  - match goal with |- context [mkWriter _ _ ?x] => set (a := x) end. assert (A : wsize w + s <= a).
    { unfold a. destruct (Z.leb_spec (wsize w + s) 480); [lia|]. destruct (Z.leb_spec (wsize w + s) 4064); lia. }
    clearbody a. split; [reflexivity|]. cbn [wsize block allocated]. split; [|split; [reflexivity|]].
    + constructor; cbn [wsize block allocated]; [rewrite length_app, length_firstn, repeat_length; lia|lia].
    + rewrite firstn_app, firstn_firstn, length_firstn. replace (Nat.min (Z.to_nat (wsize w)) (Z.to_nat (wsize w))) with (Z.to_nat (wsize w)) by lia.
      replace (Z.to_nat (wsize w) - Nat.min (Z.to_nat (wsize w)) (length (block w)))%nat with 0%nat by lia. cbn [firstn]. apply app_nil_r.
  - split; [reflexivity|]. split; [constructor; cbn; lia|]. split; reflexivity.
Qed.

Lemma write_ok w d : writer_ok w -> wrote w (write w d) d.
Proof.
  intros W. unfold write. destruct (writeBytes w (Z.of_nat (length d))) as [w' p] eqn:E. destruct (writeBytes_ok w (Z.of_nat (length d)) w' p W ltac:(lia) E) as (-> & [B S] & Z & F).
  destruct W as [_ S0]. unfold store_bytes, wrote, toValue. cbn [block wsize allocated]. split; [|split; [|exact Z]].
  - constructor; cbn [block wsize allocated]; [|exact S]. rewrite !length_app, length_firstn, length_map, length_skipn. lia.
  - fold (toValue w). rewrite F, Z. rewrite app_assoc. assert (L : length (toValue w ++ map Some d) = Z.to_nat (wsize w + Z.of_nat (length d))).
    { rewrite <- F, length_app, length_firstn, length_map. lia. }
    rewrite <- L, firstn_app, Nat.sub_diag, firstn_all. cbn. apply app_nil_r.
Qed.

Lemma wrote_then w w1 w2 a b : wrote w w1 a -> wrote w1 w2 b -> wrote w w2 (a ++ b).
Proof. intros (_ & A & SA) (W & B & SB). split; [exact W|]. rewrite B, A, map_app, app_assoc, length_app. split; [reflexivity|lia]. Qed.

Lemma wrote_none w : writer_ok w -> wrote w w [].
Proof. intros W. split; [exact W|]. cbn. rewrite app_nil_r. split; [reflexivity|lia]. Qed.

Lemma serializeBytes_ok w d : writer_ok w -> wrote w (serializeBytes w d) d.
Proof.
  intros W. unfold serializeBytes. destruct (Z.ltb_spec 0 (Z.of_nat (length d))) as [L|L]; [now apply write_ok|]. destruct d; [now apply wrote_none|cbn in L; lia].
Qed.

(** * The bytes of a value *)

Definition count (l : list val) : list Z := le_encode 4 (Z.of_nat (length l)).

Fixpoint bytes (t : ty) (v : val) : list Z :=
  match t, v with
  | Item n, VInt x => le_encode n x
  | Str, VStr s => le_encode 4 (Z.of_nat (length s)) ++ s
  | Vec t, VList l => count l ++ flat_map (bytes t) l
  | Arr _ t, VList l => flat_map (bytes t) l
  | Pair a b, VPair x y => bytes a x ++ bytes b y
  | Set_ t, VList l => count l ++ flat_map (bytes t) l
  | Map k e, VList l => count l ++ flat_map (fun p => match p with VPair x y => bytes k x ++ bytes e y | _ => [] end) l
  | Variant l, VAlt i x => le_encode 1 (Z.of_nat i) ++ bytes_alt l i x
  | _, _ => []
  end
with bytes_alt (l : tys) (i : nat) (v : val) : list Z :=
  match l, i with
  | TCons t _, O => bytes t v
  | TCons _ l, S i => bytes_alt l i v
  | TNil, _ => []
  end.

Scheme ty_mut := Induction for ty Sort Prop with tys_mut := Induction for tys Sort Prop.
Combined Scheme ty_tys_ind from ty_mut, tys_mut.

Lemma save_all_ok f g w l : (forall w v, writer_ok w -> wrote w (f w v) (g v)) -> writer_ok w -> wrote w (save_all f w l) (flat_map g l).
Proof.
  intros H. revert w. induction l as [|v l IH]; intros w W; cbn [save_all flat_map]; [now apply wrote_none|].
  pose proof (H w v W) as A. eapply wrote_then; [exact A|]. apply IH, A.
Qed.

Lemma save_ok_all : (forall t w v, writer_ok w -> wrote w (save t w v) (bytes t v)) /\ (forall l i w v, writer_ok w -> wrote w (save_alt l i w v) (bytes_alt l i v)).
Proof.
  assert (CO : forall w l, writer_ok w -> wrote w (save_count w l) (count l)) by (intros; now apply write_ok).
  apply ty_tys_ind.
  - intros n w [x|s|l|a b|i x] W; cbn [save bytes]; try now apply wrote_none. now apply write_ok.
  - intros w [x|s|l|a b|i x] W; cbn [save bytes]; try now apply wrote_none. pose proof (write_ok w (le_encode 4 (Z.of_nat (length s))) W) as A. eapply wrote_then; [exact A|]. apply serializeBytes_ok, A.
  - intros t IH w [x|s|l|a b|i x] W; cbn [save bytes]; try now apply wrote_none. eapply wrote_then; [now apply CO|]. apply save_all_ok; [exact IH|]. now apply (CO w l W).
  - intros n t IH w [x|s|l|a b|i x] W; cbn [save bytes]; try now apply wrote_none. now apply save_all_ok.
  - intros a IHa b IHb w [x|s|l|x y|i x] W; cbn [save bytes]; try now apply wrote_none. eapply wrote_then; [now apply IHa|]. apply IHb. now apply (IHa w x W).
  - intros t IH w [x|s|l|a b|i x] W; cbn [save bytes]; try now apply wrote_none. eapply wrote_then; [now apply CO|]. apply save_all_ok; [exact IH|]. now apply (CO w l W).
  - intros k IHk e IHe w [x|s|l|a b|i x] W; cbn [save bytes]; try now apply wrote_none. eapply wrote_then; [now apply CO|]. apply save_all_ok; [|now apply (CO w l W)].
    intros w' [x|s|l'|x y|i x] W'; try now apply wrote_none. eapply wrote_then; [now apply IHk|]. apply IHe. now apply (IHk w' x W').
  - intros l IH w [x|s|l'|x y|i x] W; cbn [save bytes]; try now apply wrote_none. pose proof (write_ok w (le_encode 1 (Z.of_nat i)) W) as A. eapply wrote_then; [exact A|]. apply IH, A.
  - intros i w v W. destruct i; now apply wrote_none.
  - intros t IHt l IHl [|i] w v W; cbn [save_alt bytes_alt]; auto.
Qed.

(** * Reading *)

(** [f] reads exactly the bytes [d] as [x], and refuses every proper prefix. *)
Definition reads {A} (f : reader A) (d : list Z) (x : A) : Prop :=
  (forall r, f (d ++ r) = Ok (x, r)) /\ (forall p q, d = p ++ q -> q <> [] -> f p = Throw serialization_failed).

Lemma prefix_split {A} (d e p q : list A) : d ++ e = p ++ q -> (length d <= length p)%nat -> exists p', p = d ++ p' /\ e = p' ++ q.
Proof.
  revert p. induction d as [|x d IH]; intros p E L; [exists p; auto|]. destruct p as [|y p]; [cbn in L; lia|]. injection E as -> E. cbn in L.
  destruct (IH p E ltac:(lia)) as (p' & -> & ->). exists p'. auto.
Qed.

Lemma reads_ret {A} (x : A) : reads (ret x) [] x.
Proof. split; [reflexivity|]. intros p q E N. destruct p, q; try discriminate. congruence. Qed.

Lemma reads_bind {A B} (f : reader A) (g : A -> reader B) d e x y : reads f d x -> reads (g x) e y -> reads (bindr f g) (d ++ e) y.
Proof.
  intros [F1 F2] [G1 G2]. unfold bindr. split; [intros r; now rewrite <- app_assoc, F1, G1|]. intros p q E N.
  destruct (Nat.le_gt_cases (length d) (length p)) as [L|L].
  - destruct (prefix_split d e p q E L) as (p' & -> & ->). rewrite F1. now apply (G2 p' q).
  - rewrite (F2 p (skipn (length p) d)); [reflexivity| |].
    + rewrite <- (firstn_skipn (length p) d) at 1. f_equal. apply (f_equal (firstn (length p))) in E. rewrite firstn_app, firstn_app, firstn_all, Nat.sub_diag in E.
      replace (length p - length d)%nat with 0%nat in E by lia. cbn [firstn] in E. now rewrite !app_nil_r in E.
    + intros X. apply (f_equal (@length Z)) in X. rewrite length_skipn in X. cbn in X. lia.
Qed.

Lemma reads_map {A B} (f : reader A) (g : A -> B) d x : reads f d x -> reads (bindr f (fun a => ret (g a))) d (g x).
Proof. intros R. rewrite <- (app_nil_r d). eapply reads_bind; [exact R|apply reads_ret]. Qed.

Lemma readBytes_ok d : reads (readBytes (length d)) d d.
Proof.
  split.
  - intros r. unfold readBytes. rewrite length_app, (proj2 (Nat.leb_le _ _)) by lia. rewrite firstn_app, firstn_all, skipn_app, skipn_all, Nat.sub_diag. cbn. now rewrite app_nil_r.
  - intros p q -> N. unfold readBytes. rewrite length_app, (proj2 (Nat.leb_gt _ _)); [reflexivity|]. destruct q; [congruence|cbn; lia].
Qed.

Lemma read_item_ok n v : 0 <= v < 256 ^ Z.of_nat n -> reads (read_item n) (le_encode n v) v.
Proof.
  intros V. unfold read_item. rewrite <- (Z.mod_small v (256 ^ Z.of_nat n)) at 2 by exact V. rewrite <- le_decode_encode. rewrite <- (le_encode_length n v) at 1. apply (reads_map _ le_decode), readBytes_ok.
Qed.

Lemma read_int_ok v : 0 <= v < 2 ^ 31 -> reads read_int (le_encode 4 v) v.
Proof.
  intros V. unfold read_int. replace v with (signed32 v) at 2 by (unfold signed32; now rewrite (proj2 (Z.ltb_lt _ _)) by lia).
  apply (reads_map _ signed32), read_item_ok. change (256 ^ Z.of_nat 4) with 4294967296. lia.
Qed.

Section Load.
Context (lt : val -> val -> bool) (lt_asym : forall a b, lt a b = true -> lt b a = false).

Definition short {A} (l : list A) : Prop := Z.of_nat (length l) < 2 ^ 31.
Definition sorted_by (key : val -> val) : list val -> Prop := StronglySorted (fun a b => lt (key a) (key b) = true).

(** Values of a type: items in range, sizes below 2^31, sets and maps in order. *)
Fixpoint has_type (t : ty) (v : val) : Prop :=
  match t, v with
  | Item n, VInt x => 0 <= x < 256 ^ Z.of_nat n
  | Str, VStr s => short s
  | Vec t, VList l => short l /\ Forall (has_type t) l
  | Arr n t, VList l => length l = n /\ Forall (has_type t) l
  | Pair a b, VPair x y => has_type a x /\ has_type b y
  | Set_ t, VList l => short l /\ Forall (has_type t) l /\ sorted_by (fun x => x) l
  | Map k e, VList l => short l /\ Forall (fun p => match p with VPair x y => has_type k x /\ has_type e y | _ => False end) l /\ sorted_by key_of l
  | Variant l, VAlt i x => Z.of_nat i < 256 /\ has_alt l i x
  | _, _ => False
  end
with has_alt (l : tys) (i : nat) (v : val) : Prop :=
  match l, i with
  | TCons t _, O => has_type t v
  | TCons _ l, S i => has_alt l i v
  | TNil, _ => False
  end.

Lemma load_n_ok f g l : Forall (fun v => reads f (g v) v) l -> reads (load_n f (length l)) (flat_map g l) l.
Proof.
  induction 1 as [|v l R F IH]; cbn [load_n length flat_map]; [apply reads_ret|]. eapply reads_bind; [exact R|]. now apply (reads_map _ (cons v)).
Qed.

Lemma insert_last key x l : (forall y, In y l -> lt (key y) (key x) = true) -> insert lt key x l = l ++ [x].
Proof.
  induction l as [|y l IH]; intros A; [reflexivity|]. cbn [insert app]. pose proof (A y (or_introl eq_refl)) as L. rewrite (lt_asym _ _ L), L. f_equal. apply IH. intros z Z. apply A. now right.
Qed.

Lemma sorted_split key l x r : sorted_by key (l ++ x :: r) -> forall y, In y l -> lt (key y) (key x) = true.
Proof.
  induction l as [|z l IH]; intros S y I; [destruct I|]. cbn in S. inversion S as [|a b S' F]; subst. destruct I as [->|I]; [|now apply IH].
  rewrite Forall_forall in F. apply F, in_or_app. right. now left.
Qed.

Lemma load_into_ok key f g l : Forall (fun v => reads f (g v) v) l -> forall acc, sorted_by key (acc ++ l) -> reads (load_into lt key f (length l) acc) (flat_map g l) (acc ++ l).
Proof.
  induction 1 as [|v l R F IH]; intros acc S; cbn [load_into length flat_map]; [rewrite app_nil_r; apply reads_ret|]. eapply reads_bind; [exact R|].
  rewrite insert_last by (eapply sorted_split; eauto). change (v :: l) with ([v] ++ l) in *. rewrite app_assoc in *. now apply IH.
Qed.

Lemma reads_count {A} (l : list A) (g : Z -> reader val) d x : short l -> reads (g (Z.of_nat (length l))) d x -> reads (bindr read_int g) (le_encode 4 (Z.of_nat (length l)) ++ d) x.
Proof. intros S R. eapply reads_bind; [apply read_int_ok; unfold short in S; lia|exact R]. Qed.

Lemma Forall_reads t l : (forall v, has_type t v -> reads (load lt true t) (bytes t v) v) -> Forall (has_type t) l -> Forall (fun v => reads (load lt true t) (bytes t v) v) l.
Proof. intros H. apply Forall_impl, H. Qed.

Lemma load_ok_all : (forall t v, has_type t v -> reads (load lt true t) (bytes t v) v) /\ (forall l i v, has_alt l i v -> reads (load_alt lt true l i) (bytes_alt l i v) v).
Proof.
  apply ty_tys_ind.
  - intros n [x|s|l|a b|i x] T; cbn [has_type] in T; try contradiction. now apply (reads_map _ VInt), read_item_ok.
  - intros [x|s|l|a b|i x] T; cbn [has_type] in T; try contradiction. cbn [load bytes]. apply reads_count; [exact T|]. rewrite (proj2 (Z.ltb_ge _ _)), Nat2Z.id by lia. apply (reads_map _ VStr), readBytes_ok.
  - intros t IH [x|s|l|a b|i x] T; cbn [has_type] in T; try contradiction. destruct T as [S F]. cbn [load bytes]. apply reads_count; [exact S|]. rewrite (proj2 (Z.ltb_ge _ _)), Nat2Z.id by lia.
    apply (reads_map _ VList), load_n_ok, Forall_reads; auto.
  - intros n t IH [x|s|l|a b|i x] T; cbn [has_type] in T; try contradiction. destruct T as [<- F]. cbn [load bytes]. apply (reads_map _ VList), load_n_ok, Forall_reads; auto.
  - intros a IHa b IHb [x|s|l|x y|i x] T; cbn [has_type] in T; try contradiction. destruct T as [Ta Tb]. cbn [load bytes]. eapply reads_bind; [now apply IHa|]. apply (reads_map _ (VPair x)), IHb, Tb.
  - intros t IH [x|s|l|a b|i x] T; cbn [has_type] in T; try contradiction. destruct T as (S & F & O). cbn [load bytes]. apply reads_count; [exact S|]. rewrite Nat2Z.id.
    apply (reads_map _ VList). apply (load_into_ok (fun x => x) _ _ l); [now apply Forall_reads|exact O].
  - intros k IHk e IHe [x|s|l|a b|i x] T; cbn [has_type] in T; try contradiction. destruct T as (S & F & O). cbn [load bytes]. apply reads_count; [exact S|]. rewrite Nat2Z.id.
    apply (reads_map _ VList). apply (load_into_ok key_of _ _ l); [|exact O]. eapply Forall_impl; [|exact F]. intros [x|s|l'|x y|i x] P; try contradiction. destruct P as [Px Py].
    eapply reads_bind; [now apply IHk|]. apply (reads_map _ (VPair x)), IHe, Py.
  - intros l IH [x|s|l'|x y|i x] T; cbn [has_type] in T; try contradiction. destruct T as [I T]. cbn [load bytes]. eapply reads_bind; [apply read_item_ok; change (256 ^ Z.of_nat 1) with 256; lia|].
    rewrite Nat2Z.id. apply (reads_map _ (VAlt i)), IH, T.
  - intros i v T. destruct i; destruct T.
  - intros t IHt l IHl [|i] v T; cbn in *; auto.
Qed.
End Load.

Lemma map_some_inj (a b : list Z) : map Some a = map Some b -> a = b.
Proof. revert b. induction a as [|x a IH]; intros [|y b] E; try discriminate; [reflexivity|]. injection E as -> E. now rewrite (IH b E). Qed.

Lemma to_value_bytes t v x : isValid v = true -> to_value t v x = Some (map Some (le_encode 8 v ++ bytes t x)).
Proof.
  intros V. unfold to_value. rewrite V. f_equal. pose proof (write_ok new_writer (le_encode 8 v) new_ok) as A.
  destruct (wrote_then _ _ _ _ _ A (proj1 save_ok_all t _ x (proj1 A))) as (_ & E & _). exact E.
Qed.

(** C22: A value of a nested type (items, strings, pairs, vectors, arrays, sets,
    maps, variants) that BinaryWriter serializes with a supported version is
    what BinaryReader returns; the writer's memory, however it grew, holds
    exactly these bytes; and every input that is cut off anywhere is refused with
    serialization_failed, never read past its end. *)
Theorem serialize_roundtrip (minInvalid : Z) (lt : val -> val -> bool) (t : ty) (v : Z) (x : val) :
  (forall a b, lt a b = true -> lt b a = false) ->
  0 <= v < 2 ^ 64 -> isValid v = true -> version v < version minInvalid -> hasObjectSerializerFlag v = false -> has_type lt t x ->
  exists d, to_value t v x = Some (map Some d) /\ from_string_ref minInvalid lt t d = Some (Ok x) /\
    forall p q, d = p ++ q -> q <> [] -> from_string_ref minInvalid lt t p = Some (Throw serialization_failed).
Proof.
  intros AS R V M O T. exists (le_encode 8 v ++ bytes t x). split; [now apply to_value_bytes|].
  pose proof (read_item_ok 8 v R) as RV. pose proof (proj1 (load_ok_all lt AS) t x T) as RX. unfold from_string_ref. split.
  - rewrite (proj1 RV), V, (proj2 (Z.leb_gt _ _) M), O. cbn [negb]. rewrite <- (app_nil_r (bytes t x)), (proj1 RX). reflexivity.
  - intros p q E N. pose proof (reads_bind (read_item 8) (fun _ => load lt true t) _ _ _ _ RV RX) as [_ B]. specialize (B p q E N). unfold bindr in B.
    destruct (read_item 8 p) as [[v' r]|e|] eqn:RI; [|injection B as ->; reflexivity|discriminate].
    assert (VV : v' = v).
    { destruct (Nat.le_gt_cases 8 (length p)) as [L|L].
      - destruct (prefix_split (le_encode 8 v) _ p q E) as (p' & -> & _); [now rewrite le_encode_length|]. rewrite (proj1 RV) in RI. congruence.
      - unfold read_item, bindr, readBytes in RI. rewrite (proj2 (Nat.leb_gt _ _) L) in RI. discriminate. }
    subst v'. rewrite V, (proj2 (Z.leb_gt _ _) M), O. cbn [negb]. destruct (load lt true t r) as [[y r']|e|]; [discriminate|injection B as ->; reflexivity|discriminate].
Qed.

Definition sample_type : ty := Pair (Map Str (Vec (Item 2))) (Variant (TCons (Item 8) (TCons Str TNil))).
Definition sample_lt (a b : val) : bool := match a, b with VStr [x], VStr [y] => x <? y | _, _ => false end.
Definition sample_value : val := VPair (VList [VPair (VStr [97]) (VList [VInt 1; VInt 65535]); VPair (VStr [98]) (VList [])]) (VAlt 1 (VStr [104; 105])).
Definition sample_version : Z := minValidProtocolVersion.

Lemma serialize_witness : exists d, to_value sample_type sample_version sample_value = Some (map Some d) /\ from_string_ref (sample_version + 1) sample_lt sample_type d = Some (Ok sample_value).
Proof.
  destruct (serialize_roundtrip (sample_version + 1) sample_lt sample_type sample_version sample_value) as (d & A & B & _).
  - intros a b. destruct a as [|[|x [|x' l]]| | |], b as [|[|y [|y' l']]| | |]; cbn; try discriminate. rewrite Z.ltb_lt, Z.ltb_ge. lia.
  - vm_compute. split; congruence.
  - reflexivity.
  - reflexivity.
  - reflexivity.
  - unfold sample_type, sample_value. cbn. unfold short. cbn. repeat split; repeat constructor; try lia; reflexivity.
  - exists d. split; [exact A|exact B].
Defined.

(** * Tuples *)

(** The order of byte strings: at the first difference, or as a prefix. *)
Definition precedes (a b : list Z) : Prop := lexd a b \/ exists c r, b = a ++ c :: r.

Lemma precedes_cons x a b : precedes a b -> precedes (x :: a) (x :: b).
Proof. intros [L|(c & r & ->)]; [left; now apply lexd_cons|right; exists c, r; reflexivity]. Qed.

Lemma lexd_app a b r1 r2 : lexd a b -> precedes (a ++ r1) (b ++ r2).
Proof. intros (p & x & y & ra & rb & -> & -> & L). left. exists p, x, y, (ra ++ r1), (rb ++ r2). now rewrite <- !app_assoc. Qed.

Lemma le_encode_app n k : forall x, le_encode (n + k) x = le_encode n x ++ le_encode k (x / 256 ^ Z.of_nat n).
Proof.
  induction n as [|n IH]; intros x; [cbn; now rewrite Z.div_1_r|]. cbn [Nat.add le_encode app]. f_equal. rewrite IH. do 2 f_equal. rewrite Nat2Z.inj_succ, Z.pow_succ_r, Z.div_div by lia. reflexivity.
Qed.

Lemma last_bytes_be n t : (n <= 8)%nat -> last_bytes n t = be n t.
Proof.
  intros N. unfold last_bytes, be. replace 8%nat with (n + (8 - n))%nat at 2 by lia. rewrite le_encode_app, rev_app_distr, skipn_app, length_rev, le_encode_length, Nat.sub_diag.
  rewrite skipn_all2 by (rewrite length_rev, le_encode_length; lia). reflexivity.
Qed.

Lemma needed_ok fuel : forall n v, 0 < v -> (n + fuel = 8)%nat -> (n = 1%nat \/ 256 ^ Z.of_nat (n - 1) <= v) -> (1 <= n)%nat -> v < 256 ^ 8 ->
  let k := needed_loop fuel n v in (n <= k <= 8)%nat /\ v < 256 ^ Z.of_nat k /\ (k = 1%nat \/ 256 ^ Z.of_nat (k - 1) <= v).
Proof.
  induction fuel as [|fuel IH]; intros n v V F L N M; cbn [needed_loop]; [assert (n = 8)%nat as -> by lia; split; [lia|split; [exact M|exact L]]|].
  rewrite (proj2 (Nat.ltb_lt n 8)) by lia. cbn [andb]. rewrite Z.shiftr_div_pow2 by lia. replace (2 ^ (Z.of_nat n * 8)) with (256 ^ Z.of_nat n) by (rewrite Z.mul_comm, Z.pow_mul_r by lia; reflexivity).
  assert (P : 0 < 256 ^ Z.of_nat n) by (apply Z.pow_pos_nonneg; lia). destruct (Z.eqb_spec (v / 256 ^ Z.of_nat n) 0) as [E|E]; cbn [negb].
  - split; [lia|]. split; [|exact L]. apply Z.div_small_iff in E; lia.
  - assert (G : 256 ^ Z.of_nat n <= v) by (apply Z.nlt_ge; intros X; apply E, Z.div_small; lia).
    destruct (IH (S n) v V ltac:(lia)) as (A & B & C); [right; replace (S n - 1)%nat with n by lia; exact G|lia|exact M|]. split; [lia|auto].
Qed.

Lemma bytesNeeded_ok v : 0 < v < 2 ^ 64 -> (1 <= bytesNeeded v <= 8)%nat /\ v < 256 ^ Z.of_nat (bytesNeeded v) /\ (bytesNeeded v = 1%nat \/ 256 ^ Z.of_nat (bytesNeeded v - 1) <= v).
Proof. intros V. apply (needed_ok 7 1 v); auto; lia. Qed.

Lemma needed_mono v w : 0 < v <= w -> w < 2 ^ 64 -> (bytesNeeded v <= bytesNeeded w)%nat.
Proof.
  intros V W. destruct (bytesNeeded_ok v ltac:(lia)) as (A & B & C), (bytesNeeded_ok w ltac:(lia)) as (D & E & F). destruct C as [C|C]; [lia|].
  destruct (Nat.le_gt_cases (bytesNeeded v) (bytesNeeded w)) as [L|L]; [exact L|]. exfalso.
  assert (256 ^ Z.of_nat (bytesNeeded w) <= 256 ^ Z.of_nat (bytesNeeded v - 1)) by (apply Z.pow_le_mono_r; lia). lia.
Qed.

Definition positive_tuple (t : Z) : list Z := (20 + Z.of_nat (bytesNeeded t)) :: be (bytesNeeded t) t.
Definition negative_tuple (t : Z) : list Z := (20 - Z.of_nat (bytesNeeded (- t))) :: be (bytesNeeded (- t)) (256 ^ Z.of_nat (bytesNeeded (- t)) + t - 1).
Definition int_tuple (t : Z) : list Z := if t =? 0 then [20] else if 0 <? t then positive_tuple t else negative_tuple t.

Lemma positive_order a b : 0 < a < b -> b < 2 ^ 64 -> lexd (positive_tuple a) (positive_tuple b).
Proof.
  intros A B. unfold positive_tuple. destruct (bytesNeeded_ok a ltac:(lia)) as (_ & LA & _), (bytesNeeded_ok b ltac:(lia)) as (_ & LB & _).
  destruct (Nat.eq_dec (bytesNeeded a) (bytesNeeded b)) as [E|E].
  - rewrite E in *. apply lexd_cons, be_lexd; lia.
  - apply lexd_head. pose proof (needed_mono a b ltac:(lia) ltac:(lia)). lia.
Qed.

Lemma negative_order a b : a < b < 0 -> - 2 ^ 64 < a -> lexd (negative_tuple a) (negative_tuple b).
Proof.
  intros A B. unfold negative_tuple. destruct (bytesNeeded_ok (- a) ltac:(lia)) as (_ & LA & _), (bytesNeeded_ok (- b) ltac:(lia)) as (_ & LB & _).
  destruct (Nat.eq_dec (bytesNeeded (- a)) (bytesNeeded (- b))) as [E|E].
  - rewrite E in *. apply lexd_cons, be_lexd; lia.
  - apply lexd_head. pose proof (needed_mono (- b) (- a) ltac:(lia) ltac:(lia)). lia.
Qed.

Lemma int_order a b : - 2 ^ 63 < a -> a < b -> b < 2 ^ 64 -> lexd (int_tuple a) (int_tuple b).
Proof.
  intros A L B. unfold int_tuple. destruct (Z.eqb_spec a 0) as [EA|NA], (Z.eqb_spec b 0) as [EB|NB], (Z.ltb_spec 0 a), (Z.ltb_spec 0 b); try lia.
  - apply lexd_head. destruct (bytesNeeded_ok b ltac:(lia)). lia.
  - apply lexd_head. destruct (bytesNeeded_ok (- a) ltac:(lia)). lia.
  - apply positive_order; lia.
  - apply lexd_head. destruct (bytesNeeded_ok b ltac:(lia)), (bytesNeeded_ok (- a) ltac:(lia)). lia.
  - apply negative_order; lia.
Qed.

(** A text with its zero bytes escaped, and the end marked. *)
Definition escaped (s : list Z) : list Z := flat_map (fun c => if c =? 0 then [0; 255] else [c]) s.
Definition string_tuple (s : list Z) : list Z := 1 :: escaped s ++ [0].

(** What follows a text in a key: nothing, or the code of another element. *)
Definition follows (r : list Z) : Prop := match r with c :: _ => c < 255 | [] => True end.

Lemma string_order a : forall b r1 r2, bytes_ok a -> bytes_ok b -> follows r1 -> precedes a b -> precedes (escaped a ++ 0 :: r1) (escaped b ++ 0 :: r2).
Proof.
  induction a as [|x a IH]; intros b r1 r2 OA OB F P.
  - destruct b as [|y b]; [destruct P as [(p & u & v & ra & rb & E & _)|(c & r & E)]; [destruct p; discriminate|discriminate]|]. cbn. apply Forall_inv in OB. unfold is_byte in OB.
    destruct (Z.eqb_spec y 0) as [->|N]; [|left; apply lexd_head; lia]. cbn. apply precedes_cons. destruct r1 as [|c r1]; [right; eexists _, _; reflexivity|left; apply lexd_head; exact F].
  - destruct b as [|y b]; [destruct P as [(p & u & v & ra & rb & _ & E & _)|(c & r & E)]; [destruct p; discriminate|discriminate]|].
    inversion OA as [|? ? BX OA']; inversion OB as [|? ? BY OB']; subst. unfold is_byte in *. destruct (Z.eq_dec x y) as [->|N].
    + assert (P' : precedes a b).
      { destruct P as [(p & u & v & ra & rb & E1 & E2 & L)|(c & r & E)]; [|right; injection E as E; exists c, r; exact E]. destruct p as [|z p]; cbn in E1, E2; [injection E1 as <- _; injection E2 as <- _; lia|]. injection E1 as _ E1. injection E2 as _ E2. left. exists p, u, v, ra, rb. auto. }
      cbn. destruct (Z.eqb_spec y 0) as [->|_]; cbn; repeat apply precedes_cons; apply IH; auto.
    + assert (L : x < y).
      { destruct P as [(p & u & v & ra & rb & E1 & E2 & L)|(c & r & E)]; [|injection E as E _; congruence]. destruct p as [|z p]; cbn in E1, E2; injection E1 as E1 _; injection E2 as E2 _; congruence. }
      cbn. destruct (Z.eqb_spec x 0), (Z.eqb_spec y 0); try lia; left; cbn; apply lexd_head; lia.
Qed.

Lemma tuple_loop_ok t : forall w last, writer_ok w -> wrote w (tuple_loop w last t) (last ++ escaped t ++ [0]).
Proof.
  induction t as [|c t IH]; intros w last W; cbn [tuple_loop].
  - pose proof (serializeBytes_ok w last W) as A. eapply wrote_then; [exact A|]. cbn [escaped flat_map app]. apply serializeBytes_ok, A.
  - cbn [escaped flat_map]. destruct (Z.eqb_spec c 0) as [->|_].
    + pose proof (serializeBytes_ok w last W) as A. pose proof (serializeBytes_ok _ [0; 255] (proj1 A)) as B. rewrite <- (app_assoc [0; 255]). eapply wrote_then; [exact A|]. eapply wrote_then; [exact B|].
      apply (IH _ []), B.
    + replace (last ++ ([c] ++ flat_map (fun c => if c =? 0 then [0; 255] else [c]) t) ++ [0]) with ((last ++ [c]) ++ escaped t ++ [0]) by (unfold escaped; rewrite <- !app_assoc; reflexivity). now apply IH.
Qed.

Lemma tuple_int64_ok w t : writer_ok w -> - 2 ^ 63 < t < 2 ^ 63 -> exists w', tuple_int64 w t = Some w' /\ wrote w w' (int_tuple t).
Proof.
  intros W T. unfold tuple_int64, int_tuple. destruct (Z.eqb_spec t 0); [eexists; split; [reflexivity|now apply write_ok]|]. destruct (Z.ltb_spec 0 t).
  - eexists. split; [reflexivity|]. destruct (bytesNeeded_ok t ltac:(lia)) as (N & _). rewrite last_bytes_be by lia. now apply write_ok.
  - destruct (Z.eqb_spec t (- 2 ^ 63)); [lia|]. eexists. split; [reflexivity|]. destruct (bytesNeeded_ok (- t) ltac:(lia)) as (N & L & _). rewrite last_bytes_be by lia. unfold negative_tuple.
    set (k := bytesNeeded (- t)) in *. replace (be k ((t - 1) mod 2 ^ 64)) with (be k (256 ^ Z.of_nat k + t - 1)); [now apply write_ok|]. replace (256 ^ Z.of_nat k + t - 1) with (t - 1 + 1 * 256 ^ Z.of_nat k) by lia.
    rewrite Z.mod_eq by lia. replace (2 ^ 64) with (256 ^ Z.of_nat (8 - k) * 256 ^ Z.of_nat k) by (rewrite <- Z.pow_add_r by lia; replace (Z.of_nat (8 - k) + Z.of_nat k) with 8 by lia; reflexivity).
    unfold be. rewrite le_encode_mod. f_equal. rewrite <- (le_encode_mod k (t - 1) (- (256 ^ Z.of_nat (8 - k) * ((t - 1) / (256 ^ Z.of_nat (8 - k) * 256 ^ Z.of_nat k))))). f_equal. lia.
Qed.

Lemma tuple_uint64_ok w t : writer_ok w -> 0 <= t < 2 ^ 64 -> wrote w (tuple_uint64 w t) (int_tuple t).
Proof.
  intros W T. unfold tuple_uint64, int_tuple. destruct (Z.eqb_spec t 0); [now apply write_ok|]. rewrite (proj2 (Z.ltb_lt 0 t)) by lia.
  destruct (bytesNeeded_ok t ltac:(lia)) as (N & _). rewrite last_bytes_be by lia. now apply write_ok.
Qed.

(** C25: Keys written with serializeAsTuple sort as their values do, whatever
    elements follow: signed and unsigned numbers, up to the smallest int64_t,
    whose negation overflows, and texts with zero bytes in them; the writer gets
    exactly the bytes of the encoding. *)
Theorem tuple_order (w : BinaryWriter) : writer_ok w ->
  (forall t, - 2 ^ 63 < t < 2 ^ 63 -> exists w', tuple_int64 w t = Some w' /\ toValue w' = toValue w ++ map Some (int_tuple t)) /\
  (forall t, 0 <= t < 2 ^ 64 -> toValue (tuple_uint64 w t) = toValue w ++ map Some (int_tuple t)) /\
  (forall s, toValue (tuple_string w s) = toValue w ++ map Some (string_tuple s)) /\
  (forall a b r1 r2, - 2 ^ 63 < a -> a < b -> b < 2 ^ 64 -> precedes (int_tuple a ++ r1) (int_tuple b ++ r2)) /\
  (forall a b r1 r2, bytes_ok a -> bytes_ok b -> follows r1 -> precedes a b -> precedes (string_tuple a ++ r1) (string_tuple b ++ r2)).
Proof.
  intros W. split; [|split; [|split; [|split]]].
  - intros t T. destruct (tuple_int64_ok w t W T) as (w' & E & R). exists w'. split; [exact E|apply R].
  - intros t T. apply (tuple_uint64_ok w t W T).
  - intros s. unfold tuple_string, string_tuple. pose proof (serializeBytes_ok w [1] W) as A. apply (wrote_then _ _ _ _ _ A (tuple_loop_ok s _ [] (proj1 A))).
  - intros a b r1 r2 A L B. now apply lexd_app, int_order.
  - intros a b r1 r2 A B F P. unfold string_tuple. cbn [app]. apply precedes_cons. rewrite <- !app_assoc. now apply string_order.
Qed.

Lemma tuple_order_witness : int_tuple (-258) = [18; 254; 253] /\ string_tuple [0; 98] = [1; 0; 255; 98; 0] /\ precedes (int_tuple (-258) ++ [7]) (int_tuple 5 ++ []).
Proof. split; [reflexivity|]. split; [reflexivity|]. apply (tuple_order new_writer new_ok); lia. Defined.

(** A negative length is not refused as a failed serialization: the resize of the
    string, or the reserve of the vector, throws. *)
Lemma negative_length lt v : load lt v Str [255; 255; 255; 255] = ThrowStd /\ load lt v (Vec (Item 1)) [255; 255; 255; 255] = ThrowStd /\
  load lt true (Set_ (Item 1)) [255; 255; 255; 255] = Ok (VList [], []).
Proof. repeat split; reflexivity. Qed.
